(* ===== verification/_CoqProject ===== *)
-Q . S2P
Prelude.v
Text.v
Address.v
NodeMap.v
Tracker.v
TrackerFacts.v
Selector.v
Rules.v
Outbound.v
OutboundFacts.v
SaltChecker.v
Vision.v
SlideBuffer.v
SharedUsers.v
UserTables.v
Buf.v
Xudp.v
AnyTls.v
UotAddr.v
TlsDeframer.v
ProxyProtocol.v
Stream.v
Copy.v
Fec.v
WebSocket.v
WebSocketSafety.v
WebSocketFacts.v
WebSocketPolls.v
WebSocketLink.v
XHttp.v
XHttpFacts.v
XHttpRuns.v
StreamReader.v
XHttpRequest.v
Messages.v
Handshake.v
SocksAddr.v
Packets.v
PacketFacts.v
Resolver.v
XudpStream.v
XudpFacts.v
XudpLink.v
Uuid.v
Setup.v
Socks.v
Vless.v
VlessFacts.v
VlessLink.v
TrojanHandler.v
Shadowsocks.v
ShadowsocksFacts.v
ShadowsocksReads.v
ShadowsocksWrites.v
ShadowsocksEnds.v
ToyCipher.v
ShadowsocksLink.v
ShadowsocksReplay.v
