(* ===== verification/Prelude.v ===== *)
(** * Verification of the shoes node server

    [shoes] is a node server for the V2Board panel: it pulls node settings and
    users, opens proxy listeners for many protocols, authenticates users,
    enforces device limits, routes their connections, and reports traffic and
    live devices.  This library models the parts of it that decide and account,
    and the codecs below them, as executable functions, and proves what makes
    them correct.  Paths below are relative to [src/src].

    ** How the parts interact

    A connection arrives at a listener, possibly behind a load balancer whose
    PROXY header names the client ([ProxyProtocol]).  The handshake ([Socks],
    [Vless], [TrojanHandler]), read through a buffered reader ([StreamReader],
    [Handshake]), looks the user up in a table the control plane replaces while
    listeners run ([SharedUsers], [UserTables]).  Its result ([Setup]) is a connection, or a
    stream of datagrams ([Messages], [Packets], [XudpStream]) whose names a cache
    resolves ([Resolver]).  The user's address is admitted against the device
    limit and traffic is counted ([Tracker]).  The destination ([Address]) is
    routed by the local rule list with its cache ([Selector]) or by the panel's
    rules ([Rules]), compiled into an index ([Outbound]).  The payload travels
    in the framings of the protocols: Vision padding ([Vision]) over TLS records
    ([TlsDeframer]), AnyTLS frames ([AnyTls]), XUDP frames ([Xudp]) and
    UDP-over-TCP packets ([UotAddr]), read through byte buffers ([SlideBuffer],
    [Buf]); in the sealed chunks of Shadowsocks ([Shadowsocks]), whose requests
    pass a replay check ([SaltChecker]); in WebSocket frames ([WebSocket]); in many HTTP requests that a
    session joins ([XHttpRequest], [XHttp]); and over lossy datagrams with
    Kcptun's error correction ([Fec]).  Once a connection is set up the two
    streams ([Stream]) are joined by the copy loop ([Copy]).

    ** Files

    - [Prelude]: outcomes of Rust code (value, error, panic), widths, bytes and
      their big- and little-endian codecs, slices, tactics, hints.
    - [Text]: the parts of [str] the source uses: UTF-8, ASCII case, splitting,
      trimming, lines, integer parsing and printing.
    - [Address] (modules [Net], [Addr]): [std::net] addresses with their parsers
      and printers; [address.rs], all types.  Text round trips and the meaning
      of masks.
    - [NodeMap], [Tracker], [TrackerFacts]: [v2board/tracker.rs] and the traffic
      push of [app.rs].  State is the list of shards, one definition per method;
      the facts are an invariant kept by every method and properties of all
      traces (device limit, conservation of bytes, restart, reconciliation).
    - [Selector]: [client_proxy_selector.rs] and the resolution helpers of
      [resolver.rs].  Rule order, lazy resolution, transparency of the cache.
    - [Rules]: [v2board/outbound/rules.rs] and the rule-set parsers of
      [v2board/route_rule_set.rs].
    - [Outbound], [OutboundFacts]: [v2board/outbound/index.rs] and the outbound
      choice of [v2board/outbound/dispatcher.rs].  The tries, radix trees and
      lists give the first matching rule of the list they were compiled from.
    - [SaltChecker]: [shadowsocks/timed_salt_checker.rs] refines a plain log.
    - [Vision]: [vless/vision_pad.rs] and [vless/vision_unpad.rs].  The unpadder
      refines a byte-at-a-time automaton and recovers what the padder sent under
      any chunking.
    - [TlsDeframer]: [vless/tls_deframer.rs] refines cutting the whole stream.
    - [SlideBuffer]: [slide_buffer.rs] refines a bounded byte queue.
    - [SharedUsers]: [shared_users.rs] with the reference counts of its [Arc]s;
      it refines registers with snapshot borrows, frees superseded tables, and
      gives racing publishers one handle.
    - [UserTables]: [v2board/user_tables.rs]; builds, transactions and deltas
      refine a map of tables, proved once against the interface of
      [UserTableSink] and instantiated for both its implementations.
    - [Buf]: the interface of the [bytes] crate's buffers, computations on them
      and the reasoning rules the codecs share.
    - [Xudp]: [xudp/frame.rs].  [AnyTls]: [anytls/anytls_types.rs],
      [anytls/anytls_padding.rs] and the read loop of
      [anytls/anytls_server_session.rs].  [UotAddr]: [uot/uot_common.rs] and
      [uot/socks_addr.rs].  [ProxyProtocol]: [v2board/proxy_protocol.rs].
    - [Stream]: the polls of [async_stream.rs] as a class with the contract of
      [AsyncRead] and [AsyncWrite], and [LazyBuffer] of [util.rs].
    - [Copy]: [copy_bidirectional.rs].  The bytes that leave are those that
      arrived; polls return; a half-closed connection is reclaimed; an idle one
      holds no buffer.
    - [Fec]: [ss_plugins/kcptun/fec.rs].  Any [data_shards] packets of a set
      give back the whole set; memory is bounded on any input.
    - [WebSocket]: [websocket/websocket_stream.rs], and the UTF-8 check.
      [WebSocketSafety]: no input brings the parser into a state it panics in.
      [WebSocketFacts]: the frames on the wire and what the parser makes of
      them.  [WebSocketPolls]: the write buffer and the loops of the polls.
      [WebSocketLink]: whole runs, their safety, and that a link of two ends
      carries the bytes exactly.
    - [StreamReader]: [stream_reader.rs].  A program of reads depends on the bytes
      of the stream alone, not on the pieces they come in.
    - [XHttp]: [v2board/xhttp.rs]: the configuration, the metadata of requests,
      and the sessions as a system of uploads, readers and reapers that takes one
      event at a time.  [XHttpFacts]: reference counts, and the upload reader
      against its specification.  [XHttpRuns]: the invariant of every session over
      all runs; order and completeness of delivery, bounds, reaping.
      [XHttpRequest]: the request handlers; what a client posts reaches its
      session.
    - [Messages]: [vless/vless_message_stream.rs], datagrams behind a length; two
      ends over any transport deliver exactly the datagrams written.
    - [Handshake]: handshakes as programs over an interface of reads and writes,
      with two instances, the buffered reader and a parser of the whole input,
      that agree; rules to reason about the parser.
    - [SocksAddr]: the addresses of [socks_handler.rs] and [trojan_handler.rs].
    - [Packets], [PacketFacts]: addressed packets, [TrojanPacketStream] of
      [trojan_handler.rs] and [uot/uot_v1_server_stream.rs], over the loops they
      share; exact delivery, safety, and two sizes that are refused.
    - [Resolver]: the caches of [resolver.rs]; freshness and bounds.
    - [XudpStream], [XudpFacts], [XudpLink]: [xudp/message_stream.rs], both ends;
      bounded sessions, exact delivery from client to server, and three faults
      of its session table.
    - [Setup]: [TcpServerSetupResult] of [tcp/tcp_handler.rs], and the pattern of
      a handler: a handshake, then the rest of the input handed on.
    - [Socks]: the SOCKS5 handshakes of [socks_handler.rs].  [Uuid]:
      [uuid_util.rs].
    - [Vless], [VlessFacts], [VlessLink]: [vless/vless_util.rs], the handlers of
      [vless/vless_server_handler.rs] and [vless/vless_client_handler.rs], and
      [vless/vless_response_stream.rs].  Only users of the table are served, what
      a client asks for is what the server forwards, and the datagrams of a
      client's session are those of the server's.
    - [TrojanHandler]: the handlers of [trojan_handler.rs].
    - [Shadowsocks]: [shadowsocks/shadowsocks_stream.rs], over any cipher.
      [ShadowsocksFacts]: nonces, and opening as a function of the bytes.
      [ShadowsocksReads], [ShadowsocksWrites]: what the polls do to either
      direction.  [ShadowsocksEnds]: a caller that polls in any order.
      [ShadowsocksLink]: two ends carry the bytes exactly.  [ShadowsocksReplay]:
      a request is served once, nonces are not reused, polls return and do not
      panic, and a read that does.  [ToyCipher]: a cipher to evaluate examples.

    ** Conventions

    A byte and a machine integer are a [Z], with [wrap] where the source
    truncates; a [usize] is a [nat]; strings and byte slices are lists of bytes
    (a [str] is its UTF-8 encoding); a [HashMap] is a [gmap].  A fallible
    function returns an [outcome]; the arguments a message formats in are left
    out, its fixed text and error kind are kept.  Methods take and return the
    state; code that holds a lock for its whole body is one step.  Third-party
    code is a parameter, with the behaviour the source relies on stated as the
    laws of a class ([Selector.Lru], [Buf.BufLaws], [Stream.StreamLaws],
    [Fec.ReedSolomon], [Resolver.HashOrder], [Shadowsocks.AeadLaws]) or as a hypothesis, and with an
    instance; hash functions, random draws, regular expressions, DNS answers,
    dialling and hash-map iteration orders are parameters as well.

    ** Bounds and fuel

    Loops that are not structural take a number of rounds that is shown to be
    enough: [Vision.unpad] takes a round per input byte and per state change;
    [Tracker.json_nodes], [Text]'s scanners and [Address.fmt_ports] take the
    length of their input, of which each round consumes at least one item;
    [TlsDeframer.next_record] needs two rounds (a header, then its payload), its
    drain loop and that of [AnyTls] one per header in the buffer; the line
    reader of [ProxyProtocol] one per byte up to the maximum line length.  The
    loops that poll a transport end because the runtime's cooperative budget
    bounds the reads that succeed in a row ([Stream.FiniteReads]):
    [Copy.copy_loop] needs two rounds more than that bound, a WebSocket read
    [WebSocketPolls.read_fuel] rounds.  A read of an XHTTP session needs a round
    for each waiting packet and two for each queued one ([XHttp.read_fuel]); the
    loops of [StreamReader] one for each byte to come.  The datagram streams read
    a transport in rounds bounded by [FiniteReads] ([Messages.read_fuel],
    [Packets.read_fuel], [XudpFacts.read_fuel]); the frame decoders of
    [XudpStream] take a round per byte held, the parser of VLESS addons one per
    byte.  The theorems about them are stated for the result, so running out of
    rounds would refute them.  The header of a Shadowsocks stream takes a round
    per byte of it; a read takes as many as are enough for the reads the transport
    has ready and the chunks that are there ([ShadowsocksReads.poll_read_returns]).

    ** Not modelled

    Asynchronous plumbing (sockets, tasks, wakers, accept loops, the panel's HTTP
    client), cryptography and the protocols whose content it is (VMess, Snell,
    Reality, ShadowTLS, the Vision stream, the Shadowsocks handlers that look for a
    user's key), [serde] configuration types, and the protocol servers built on the
    QUIC and HTTP/2 crates. *)
From stdpp Require Export base tactics list gmap strings numbers sorting.
From Stdlib Require Export ZArith Lia.
From Stdlib Require Import Ascii.

Declare Scope shoes_scope.
Delimit Scope shoes_scope with shoes.

(** ** Outcomes of Rust code

    [std::io::Result] with the two ways a call can fail to return a value kept
    apart: an [Err] handed to the caller, and a [Panic] (slice index out of
    range, integer conversion that cannot succeed, ...) that unwinds. *)

Inductive ErrorKind :=
| InvalidData | InvalidInput | UnexpectedEof | NotFound | WriteZero | BrokenPipe
| ConnectionReset | ConnectionAborted | ConnectionRefused | PermissionDenied | TimedOut
| Unsupported | AddrNotAvailable | AlreadyExists | WouldBlock | NotConnected | Interrupted | Other.

Record io_error := IoError { ekind : ErrorKind; emsg : string }.

Inductive outcome (A : Type) :=
| Ok (a : A)
| Err (e : io_error)
| Panic.
Arguments Ok {A} a.
Arguments Err {A} e.
Arguments Panic {A}.

#[global] Instance ErrorKind_eq_dec : EqDecision ErrorKind.
Proof. solve_decision. Defined.
#[global] Instance io_error_eq_dec : EqDecision io_error.
Proof. solve_decision. Defined.
#[global] Instance outcome_eq_dec `{EqDecision A} : EqDecision (outcome A).
Proof. solve_decision. Defined.

#[global] Instance outcome_ret : MRet outcome := λ A a, Ok a.
#[global] Instance outcome_bind : MBind outcome := λ A B f m,
  match m with Ok a => f a | Err e => Err e | Panic => Panic end.
#[global] Instance outcome_fmap : FMap outcome := λ A B f m,
  match m with Ok a => Ok (f a) | Err e => Err e | Panic => Panic end.

Definition err {A} (k : ErrorKind) (msg : string) : outcome A := Err (IoError k msg).

Definition is_Ok {A} (m : outcome A) : bool :=
  match m with Ok _ => true | _ => false end.
Definition is_Err {A} (m : outcome A) : bool :=
  match m with Err _ => true | _ => false end.

(** [opt.ok_or(e)?] and [opt.expect(..)] *)
Definition ok_or {A} (o : option A) (e : io_error) : outcome A :=
  match o with Some a => Ok a | None => Err e end.
Definition expect {A} (o : option A) : outcome A :=
  match o with Some a => Ok a | None => Panic end.

Lemma outcome_bind_Ok {A B} (m : outcome A) (f : A → outcome B) b :
  m ≫= f = Ok b ↔ ∃ a, m = Ok a ∧ f a = Ok b.
Proof. destruct m; naive_solver. Qed.

Lemma outcome_bind_not_panic {A B} (m : outcome A) (f : A → outcome B) :
  m ≠ Panic → (∀ a, m = Ok a → f a ≠ Panic) → m ≫= f ≠ Panic.
Proof. destruct m; naive_solver. Qed.

(** ** Tactics *)

(** Turn the boolean tests of the translated code into propositions. *)
Ltac to_prop :=
  repeat match goal with
  | H : Is_true _ |- _ => apply Is_true_true in H
  | H : (_ && _) = true |- _ => apply andb_true_iff in H as [? ?]
  | H : (_ || _) = false |- _ => apply orb_false_iff in H as [? ?]
  | H : (_ && _) = false |- _ => apply andb_false_iff in H
  | H : (_ || _) = true |- _ => apply orb_true_iff in H
  | H : negb _ = true |- _ => apply negb_true_iff in H
  | H : negb _ = false |- _ => apply negb_false_iff in H
  | H : (_ =? _)%Z = true |- _ => apply Z.eqb_eq in H
  | H : (_ =? _)%Z = false |- _ => apply Z.eqb_neq in H
  | H : (_ <? _)%Z = true |- _ => apply Z.ltb_lt in H
  | H : (_ <? _)%Z = false |- _ => apply Z.ltb_ge in H
  | H : (_ <=? _)%Z = true |- _ => apply Z.leb_le in H
  | H : (_ <=? _)%Z = false |- _ => apply Z.leb_gt in H
  | H : (_ =? _) = true |- _ => apply Nat.eqb_eq in H
  | H : (_ =? _) = false |- _ => apply Nat.eqb_neq in H
  | H : (_ <? _) = true |- _ => apply Nat.ltb_lt in H
  | H : (_ <? _) = false |- _ => apply Nat.ltb_ge in H
  | H : (_ <=? _) = true |- _ => apply Nat.leb_le in H
  | H : (_ <=? _) = false |- _ => apply Nat.leb_gt in H
  | H : bool_decide _ = true |- _ => apply bool_decide_eq_true in H
  | H : bool_decide _ = false |- _ => apply bool_decide_eq_false in H
  end.

(** The converse on the goal: a boolean test as the proposition it decides. *)
Ltac of_prop :=
  rewrite ?andb_true_iff, ?orb_true_iff, ?andb_false_iff, ?orb_false_iff, ?negb_true_iff,
    ?negb_false_iff, ?Z.eqb_eq, ?Z.eqb_neq, ?Z.ltb_lt, ?Z.ltb_ge, ?Z.leb_le, ?Z.leb_gt,
    ?bool_decide_eq_true, ?bool_decide_eq_false.

(** Case split on the innermost scrutinee of the goal or of a hypothesis. *)
Ltac split_match :=
  match goal with
  | |- context [match ?x with _ => _ end] =>
      lazymatch x with
      | context [match _ with _ => _ end] => fail
      | _ => let E := fresh "E" in destruct x eqn:E
      end
  | H : context [match ?x with _ => _ end] |- _ =>
      lazymatch x with
      | context [match _ with _ => _ end] => fail
      | _ => let E := fresh "E" in destruct x eqn:E
      end
  end.

(** ** Fixed-width unsigned integers

    A [u8]/[u16]/[u32]/[u64]/[u128] is a [Z]; [wrap] is an [as] cast. *)

Local Open Scope Z_scope.

Definition wrap (w : Z) (z : Z) : Z := z mod 2 ^ w.
Definition in_width (w : Z) (z : Z) : Prop := 0 ≤ z < 2 ^ w.

Definition u16_max : Z := 65535.
Definition u64_max : Z := 2 ^ 64 - 1.

(** [saturating_add]/[saturating_sub] on [u64]. *)
Definition sat_add (a b : Z) : Z := Z.min (a + b) u64_max.
Definition sat_sub (a b : Z) : Z := Z.max (a - b) 0.

Lemma wrap_small w z : in_width w z → wrap w z = z.
Proof. intros. by apply Z.mod_small. Qed.

Lemma wrap_in_width w z : 0 ≤ w → in_width w (wrap w z).
Proof. intros. unfold in_width, wrap. apply Z.mod_pos_bound. lia. Qed.

Lemma sat_add_exact a b : a + b ≤ u64_max → sat_add a b = a + b.
Proof. unfold sat_add. lia. Qed.

Lemma sat_sub_exact a b : b ≤ a → sat_sub a b = a - b.
Proof. unfold sat_sub. lia. Qed.

(** ** Bytes *)

Abbreviation bytes := (list Z).

Definition is_byte (b : Z) : Prop := 0 ≤ b < 256.
Definition is_byteb (b : Z) : bool := (0 <=? b) && (b <? 256).
Definition bytes_ok (bs : bytes) : Prop := Forall is_byte bs.

#[global] Instance is_byte_dec b : Decision (is_byte b).
Proof. unfold is_byte. apply _. Defined.
#[global] Instance bytes_ok_dec bs : Decision (bytes_ok bs).
Proof. unfold bytes_ok. apply _. Defined.

(** Decide a closed proposition by evaluating its decision procedure. *)
Ltac compute_done := apply (bool_decide_unpack _); vm_compute; exact I.

Lemma bytes_ok_app xs ys : bytes_ok (xs ++ ys) ↔ bytes_ok xs ∧ bytes_ok ys.
Proof. apply Forall_app. Qed.
Lemma bytes_ok_cons x xs : bytes_ok (x :: xs) ↔ is_byte x ∧ bytes_ok xs.
Proof. apply Forall_cons. Qed.
Lemma bytes_ok_take n xs : bytes_ok xs → bytes_ok (take n xs).
Proof. apply Forall_take. Qed.
Lemma bytes_ok_drop n xs : bytes_ok xs → bytes_ok (drop n xs).
Proof. apply Forall_drop. Qed.
Lemma bytes_ok_replicate n x : is_byte x → bytes_ok (replicate n x).
Proof. intros. by apply Forall_replicate. Qed.

(** Big-endian ([to_be_bytes]/[from_be_bytes]/[put_u16]) and little-endian
    codecs, at a width of [n] bytes. *)
Fixpoint be_encode (n : nat) (z : Z) : bytes :=
  match n with
  | O => []
  | S n' => (z / 256 ^ Z.of_nat n') mod 256 :: be_encode n' z
  end.

Definition be_step (acc b : Z) : Z := acc * 256 + b.
Definition be_decode (bs : bytes) : Z := fold_left be_step bs 0.

Definition le_encode (n : nat) (z : Z) : bytes := reverse (be_encode n z).
Definition le_decode (bs : bytes) : Z := be_decode (reverse bs).

Lemma length_be_encode n z : length (be_encode n z) = n.
Proof. induction n; simpl; congruence. Qed.
Lemma length_le_encode n z : length (le_encode n z) = n.
Proof. unfold le_encode. by rewrite length_reverse, length_be_encode. Qed.

Lemma bytes_ok_be_encode n z : bytes_ok (be_encode n z).
Proof.
  induction n as [|n IH]; simpl; constructor; [|done].
  apply Z.mod_pos_bound. lia.
Qed.
Lemma bytes_ok_le_encode n z : bytes_ok (le_encode n z).
Proof. apply Forall_reverse, bytes_ok_be_encode. Qed.

Lemma fold_be_step acc bs :
  fold_left be_step bs acc = acc * 256 ^ Z.of_nat (length bs) + be_decode bs.
Proof.
  unfold be_decode. revert acc. induction bs as [|b bs IH]; intros acc; simpl length.
  - simpl. lia.
  - simpl fold_left. rewrite (IH (be_step acc b)), (IH (be_step 0 b)).
    rewrite Nat2Z.inj_succ, Z.pow_succ_r by lia. unfold be_step. lia.
Qed.

Lemma be_decode_cons b bs :
  be_decode (b :: bs) = b * 256 ^ Z.of_nat (length bs) + be_decode bs.
Proof. unfold be_decode at 1. simpl. rewrite fold_be_step. unfold be_step. lia. Qed.

Lemma be_decode_app xs ys :
  be_decode (xs ++ ys) = be_decode xs * 256 ^ Z.of_nat (length ys) + be_decode ys.
Proof. unfold be_decode at 1. rewrite fold_left_app, fold_be_step. done. Qed.

Lemma be_decode_bound bs :
  bytes_ok bs → 0 ≤ be_decode bs < 256 ^ Z.of_nat (length bs).
Proof.
  induction 1 as [|b bs Hb _ IH]; [done|].
  rewrite be_decode_cons. simpl length. rewrite Nat2Z.inj_succ, Z.pow_succ_r by lia.
  destruct Hb. nia.
Qed.

Lemma be_decode_encode n z : be_decode (be_encode n z) = z mod 256 ^ Z.of_nat n.
Proof.
  induction n as [|n IH]; simpl be_encode.
  - by rewrite Z.mod_1_r.
  - rewrite be_decode_cons, IH, length_be_encode.
    rewrite Nat2Z.inj_succ, Z.pow_succ_r by lia.
    rewrite (Z.mul_comm 256), Z.rem_mul_r by lia. lia.
Qed.

Lemma be_encode_add_high n h l :
  be_encode n (h * 256 ^ Z.of_nat n + l) = be_encode n l.
Proof.
  assert (∀ m k, (m ≤ k)%nat → be_encode m (h * 256 ^ Z.of_nat k + l) = be_encode m l)
    as Hgen.
  { induction m as [|m IH]; intros k Hk; simpl; [done|]. f_equal; [|apply IH; lia].
    replace (Z.of_nat k) with (Z.of_nat (k - S m) + 1 + Z.of_nat m) by lia.
    rewrite !Z.pow_add_r, !Z.mul_assoc, Z.add_comm by lia.
    rewrite Z.div_add by lia. rewrite Z.add_comm, Z.pow_1_r.
    by rewrite Z.add_comm, Z.mod_add by lia. }
  by apply Hgen.
Qed.

Lemma be_encode_decode bs : bytes_ok bs → be_encode (length bs) (be_decode bs) = bs.
Proof.
  induction 1 as [|b bs Hb Hbs IH]; [done|].
  rewrite be_decode_cons. simpl. rewrite be_encode_add_high, IH. f_equal.
  pose proof (be_decode_bound bs Hbs).
  rewrite Z.div_add_l by lia. rewrite Z.div_small by lia.
  rewrite Z.add_0_r. apply Z.mod_small. done.
Qed.

Lemma be_decode_inj xs ys :
  bytes_ok xs → bytes_ok ys → length xs = length ys →
  be_decode xs = be_decode ys → xs = ys.
Proof.
  intros Hx Hy Hl Hd. rewrite <- (be_encode_decode xs), <- (be_encode_decode ys) by done.
  by rewrite Hl, Hd.
Qed.

Lemma le_decode_encode n z : le_decode (le_encode n z) = z mod 256 ^ Z.of_nat n.
Proof. unfold le_decode, le_encode. by rewrite reverse_involutive, be_decode_encode. Qed.
Lemma le_decode_bound bs :
  bytes_ok bs → 0 ≤ le_decode bs < 256 ^ Z.of_nat (length bs).
Proof.
  intros. unfold le_decode. rewrite <- length_reverse. apply be_decode_bound.
  by apply Forall_reverse.
Qed.

Lemma be_decode_encode_small n z :
  0 ≤ z < 256 ^ Z.of_nat n → be_decode (be_encode n z) = z.
Proof. intros. rewrite be_decode_encode. by apply Z.mod_small. Qed.
Lemma le_decode_encode_small n z :
  0 ≤ z < 256 ^ Z.of_nat n → le_decode (le_encode n z) = z.
Proof. intros. rewrite le_decode_encode. by apply Z.mod_small. Qed.

Lemma le_encode_decode bs : bytes_ok bs → le_encode (length bs) (le_decode bs) = bs.
Proof.
  intros. unfold le_encode, le_decode. rewrite <- length_reverse, be_encode_decode.
  - apply reverse_involutive.
  - by apply Forall_reverse.
Qed.

(** Exclusive or of words is exclusive or of their bytes. *)
Lemma be_encode_lxor n a b :
  be_encode n (Z.lxor a b) = zip_with Z.lxor (be_encode n a) (be_encode n b).
Proof.
  induction n as [|n IH]; simpl; [done|]. rewrite IH. f_equal.
  change 256 with (2 ^ 8). rewrite <- Z.pow_mul_r by lia.
  rewrite <- !Z.shiftr_div_pow2, <- !Z.land_ones by lia.
  apply Z.bits_inj'. intros k _. rewrite Z.shiftr_lxor, !Z.land_spec, !Z.lxor_spec, !Z.land_spec.
  by destruct (Z.testbit _ k), (Z.testbit _ k), (Z.testbit _ k).
Qed.
Lemma reverse_zip_with {A B C} (f : A → B → C) xs ys :
  length xs = length ys → reverse (zip_with f xs ys) = zip_with f (reverse xs) (reverse ys).
Proof.
  revert ys. induction xs as [|x xs IH]; intros [|y ys] Hl; simplify_eq/=; [done|].
  rewrite !reverse_cons, IH, zip_with_app by (rewrite ?length_reverse; lia). done.
Qed.
Lemma le_encode_lxor n a b :
  le_encode n (Z.lxor a b) = zip_with Z.lxor (le_encode n a) (le_encode n b).
Proof.
  unfold le_encode. by rewrite be_encode_lxor, reverse_zip_with by by rewrite !length_be_encode.
Qed.

(** ** Strings

    A [&str] is the list of its UTF-8 bytes; [B] writes an ASCII literal. *)

Fixpoint B (s : string) : bytes :=
  match s with
  | EmptyString => []
  | String c s' => Z.of_nat (nat_of_ascii c) :: B s'
  end.

Lemma bytes_ok_B s : bytes_ok (B s).
Proof.
  induction s as [|c s IH]; simpl; constructor; [|done].
  pose proof (nat_ascii_bounded c). unfold is_byte. lia.
Qed.

Local Close Scope Z_scope.

(** ** Slices *)

(** [&data[i..j]], which panics unless [i <= j <= data.len()]. *)
Definition slice {A} (data : list A) (i j : nat) : outcome (list A) :=
  if (i <=? j) && (j <=? length data) then Ok (take (j - i) (drop i data)) else Panic.

(** [data[i]] *)
Definition index {A} (data : list A) (i : nat) : outcome A := expect (data !! i).

Lemma slice_Ok {A} (data : list A) i j :
  i ≤ j → j ≤ length data → slice data i j = Ok (take (j - i) (drop i data)).
Proof.
  intros. unfold slice.
  by rewrite (proj2 (Nat.leb_le i j)), (proj2 (Nat.leb_le j _)).
Qed.

Lemma slice_prefix {A} (data : list A) j :
  j ≤ length data → slice data 0 j = Ok (take j data).
Proof. intros. rewrite slice_Ok by lia. by rewrite Nat.sub_0_r, drop_0. Qed.

Lemma slice_suffix {A} (data : list A) i :
  i ≤ length data → slice data i (length data) = Ok (drop i data).
Proof.
  intros. rewrite slice_Ok by lia. by rewrite take_ge by (rewrite length_drop; lia).
Qed.

Lemma slice_mid {A} (pre xs post : list A) i j :
  i = length pre → j = i + length xs → slice (pre ++ xs ++ post) i j = Ok xs.
Proof.
  intros -> ->. rewrite slice_Ok by (rewrite ?length_app; lia).
  rewrite drop_app_length. f_equal.
  replace (length pre + length xs - length pre) with (length xs) by lia.
  apply take_app_length.
Qed.

(** ** Generic list lemmas *)

Lemma take_app_length' {A} (xs ys : list A) n : n = length xs → take n (xs ++ ys) = xs.
Proof. intros ->. by rewrite take_app_length. Qed.
Lemma drop_app_length' {A} (xs ys : list A) n : n = length xs → drop n (xs ++ ys) = ys.
Proof. intros ->. by rewrite drop_app_length. Qed.

Lemma filter_all {A} (P : A → Prop) `{∀ x, Decision (P x)} (l : list A) :
  Forall P l → filter P l = l.
Proof.
  induction 1 as [|x l Hx _ IH]; [done|]. by rewrite filter_cons, decide_True, IH.
Qed.

Lemma filter_none {A} (P : A → Prop) `{∀ x, Decision (P x)} (l : list A) :
  Forall (λ x, ¬ P x) l → filter P l = [].
Proof.
  induction 1 as [|x l Hx _ IH]; [done|]. by rewrite filter_cons, decide_False.
Qed.

Lemma drop_cons_lookup {A} (l : list A) i x :
  l !! i = Some x → drop i l = x :: drop (S i) l.
Proof.
  revert i. induction l as [|y l IH]; intros [|i] H; simplify_eq/=; [done|by apply IH].
Qed.

Create HintDb shoes discriminated.
#[export] Hint Resolve bytes_ok_be_encode bytes_ok_le_encode bytes_ok_B bytes_ok_take
  bytes_ok_drop : shoes.
#[export] Hint Rewrite @length_be_encode @length_le_encode : shoes.
