(* ===== verification/Text.v ===== *)
(** * Text: the parts of [str] and integer formatting the source uses

    A string is the list of its UTF-8 bytes.  The file models decimal and
    hexadecimal formatting, [str::parse] for unsigned integers, UTF-8
    validation and lossy decoding, searching, splitting, trimming and ASCII
    case mapping of the Rust standard library, with the round trips the
    components rely on. *)
From S2P Require Import Prelude.
Local Open Scope Z_scope.

(** ** Characters *)

Definition is_ascii_digit (c : Z) : bool := (48 <=? c) && (c <=? 57).
Definition is_ascii_uppercase (c : Z) : bool := (65 <=? c) && (c <=? 90).
Definition is_ascii_lowercase (c : Z) : bool := (97 <=? c) && (c <=? 122).
Definition lower_byte (c : Z) : Z := if is_ascii_uppercase c then c + 32 else c.
Definition upper_byte (c : Z) : Z := if is_ascii_lowercase c then c - 32 else c.
Definition to_ascii_lowercase (s : bytes) : bytes := lower_byte <$> s.
Definition to_ascii_uppercase (s : bytes) : bytes := upper_byte <$> s.
Definition eq_ignore_ascii_case (s t : bytes) : bool :=
  bool_decide (to_ascii_lowercase s = to_ascii_lowercase t).

(** [char::to_digit] *)
Definition to_digit (radix c : Z) : option Z :=
  let d :=
    if is_ascii_digit c then Some (c - 48)
    else if is_ascii_lowercase c then Some (c - 87)
    else if is_ascii_uppercase c then Some (c - 55)
    else None in
  match d with Some v => if v <? radix then Some v else None | None => None end.

(** ** Integers *)

Fixpoint digits_aux (fuel : nat) (n : Z) (acc : bytes) : bytes :=
  match fuel with
  | O => acc
  | S fuel =>
      let acc := 48 + n mod 10 :: acc in
      if n <? 10 then acc else digits_aux fuel (n / 10) acc
  end.

(** [n.to_string()]; [S (log2 n)] rounds are enough for the decimal digits. *)
Definition print_dec (n : Z) : bytes := digits_aux (S (Z.to_nat (Z.log2 n))) n [].

Definition hex_digit (d : Z) : Z := if d <? 10 then 48 + d else 87 + d.
Fixpoint hex_aux (fuel : nat) (n : Z) (acc : bytes) : bytes :=
  match fuel with
  | O => acc
  | S fuel =>
      let acc := hex_digit (n mod 16) :: acc in
      if n <? 16 then acc else hex_aux fuel (n / 16) acc
  end.
(** [format!("{:x}", n)] and [format!("{:02x}", b)] *)
Definition print_hex (n : Z) : bytes := hex_aux (S (Z.to_nat (Z.log2 n))) n [].
Definition print_02x (b : Z) : bytes := [hex_digit (b / 16); hex_digit (b mod 16)].

Fixpoint parse_digits (s : bytes) (acc : Z) : option Z :=
  match s with
  | [] => Some acc
  | c :: s => if is_ascii_digit c then parse_digits s (acc * 10 + (c - 48)) else None
  end.

(** [s.parse::<uW>()]: an optional [+], at least one digit, no overflow. *)
Definition parse_uint (w : Z) (s : bytes) : option Z :=
  let body := match s with 43 :: s' => s' | _ => s end in
  match body with
  | [] => None
  | _ => match parse_digits body 0 with
         | Some v => if v <? 2 ^ w then Some v else None
         | None => None
         end
  end.

Lemma parse_digits_app s t acc :
  parse_digits (s ++ t) acc = parse_digits s acc ≫= parse_digits t.
Proof.
  revert acc. induction s as [|c s IH]; intros acc; simpl; [done|].
  destruct (is_ascii_digit c); [apply IH|done].
Qed.

Lemma digits_aux_app fuel n acc : digits_aux fuel n acc = digits_aux fuel n [] ++ acc.
Proof.
  revert n acc. induction fuel as [|fuel IH]; intros n acc; simpl; [done|].
  destruct (n <? 10); [done|]. rewrite IH, (IH _ [_]), <- app_assoc. done.
Qed.

Lemma digit_is_digit d : 0 ≤ d < 10 → is_ascii_digit (48 + d) = true.
Proof. intros. unfold is_ascii_digit. apply andb_true_iff. lia. Qed.

Lemma parse_digits_aux fuel n :
  0 ≤ n < 2 ^ Z.of_nat fuel → 0 < Z.of_nat fuel →
  parse_digits (digits_aux fuel n []) 0 = Some n ∧
  Forall (λ c, is_ascii_digit c = true) (digits_aux fuel n []) ∧
  digits_aux fuel n [] ≠ [].
Proof.
  revert n. induction fuel as [|fuel IH]; intros n Hn Hf; [lia|].
  pose proof (Z.mod_pos_bound n 10 ltac:(lia)).
  simpl. destruct (Z.ltb_spec n 10).
  - simpl. rewrite digit_is_digit by lia. rewrite Z.mod_small by lia.
    split; [f_equal; lia|]. split; [|done]. repeat constructor. by apply digit_is_digit; lia.
  - rewrite digits_aux_app.
    assert (0 < Z.of_nat fuel) by (destruct fuel; simpl in *; lia).
    destruct (IH (n / 10)) as (IH1&IH2&IH3); [|lia|].
    { rewrite Nat2Z.inj_succ, Z.pow_succ_r in Hn by lia.
      split; [apply Z.div_pos; lia|]. apply Z.div_lt_upper_bound; lia. }
    rewrite parse_digits_app, IH1. simpl. rewrite digit_is_digit by lia.
    split; [f_equal; pose proof (Z.div_mod n 10); lia|].
    split; [|by destruct (digits_aux fuel (n / 10) [])].
    apply Forall_app. split; [done|]. repeat constructor. by apply digit_is_digit; lia.
Qed.

Lemma print_dec_spec n :
  0 ≤ n →
  parse_digits (print_dec n) 0 = Some n ∧
  Forall (λ c, is_ascii_digit c = true) (print_dec n) ∧ print_dec n ≠ [].
Proof.
  intros Hn. apply parse_digits_aux; [|lia].
  split; [done|]. rewrite Nat2Z.inj_succ, Z2Nat.id by apply Z.log2_nonneg.
  destruct (decide (n = 0)) as [->|]; [done|]. apply Z.log2_spec. lia.
Qed.

Lemma parse_print_dec w n : 0 ≤ n < 2 ^ w → parse_uint w (print_dec n) = Some n.
Proof.
  intros [H0 Hw]. destruct (print_dec_spec n H0) as (Hp&Hd&Hne). unfold parse_uint.
  destruct (print_dec n) as [|c s] eqn:E; [done|]. inversion Hd as [|?? Hc]; subst.
  assert (match c :: s with 43 :: s' => s' | _ => c :: s end = c :: s) as ->.
  { destruct (decide (c = 43)) as [->|Hne']; [done|].
    destruct c as [|p|p]; try done.
    repeat (destruct p as [p|p|]; try done). }
  rewrite Hp. by rewrite (proj2 (Z.ltb_lt _ _) Hw).
Qed.

Lemma parse_uint_bound w s n : parse_uint w s = Some n → 0 ≤ n < 2 ^ w.
Proof.
  unfold parse_uint. generalize (match s with 43 :: s' => s' | _ => s end).
  intros body H. assert (∀ t a, 0 ≤ a → ∀ v, parse_digits t a = Some v → 0 ≤ v) as Hpos.
  { induction t as [|c t IH]; intros a Ha v Hv; simpl in Hv; [congruence|].
    destruct (is_ascii_digit c) eqn:E; [|done]. eapply IH; [|done].
    unfold is_ascii_digit in E. to_prop. lia. }
  destruct body as [|c t]; [done|].
  destruct (parse_digits (c :: t) 0) as [v|] eqn:E; [|done].
  apply Hpos in E; [|done]. destruct (Z.ltb_spec v (2 ^ w)); naive_solver lia.
Qed.

(** ** Searching and splitting *)

Fixpoint find_byte (c : Z) (s : bytes) : option nat :=
  match s with
  | [] => None
  | x :: s => if x =? c then Some 0%nat else S <$> find_byte c s
  end.

Fixpoint rfind_byte (c : Z) (s : bytes) : option nat :=
  match s with
  | [] => None
  | x :: s => match rfind_byte c s with
              | Some i => Some (S i)
              | None => if x =? c then Some 0%nat else None
              end
  end.

Fixpoint starts_with (p s : bytes) : bool :=
  match p, s with
  | [], _ => true
  | x :: p, y :: s => (x =? y) && starts_with p s
  | _, [] => false
  end.

Definition ends_with (p s : bytes) : bool := starts_with (reverse p) (reverse s).

Fixpoint contains (p s : bytes) : bool :=
  starts_with p s || match s with [] => false | _ :: s => contains p s end.

Fixpoint split_on (c : Z) (s : bytes) : list bytes :=
  match s with
  | [] => [[]]
  | x :: s =>
      if x =? c then [] :: split_on c s
      else match split_on c s with [] => [[x]] | h :: t => (x :: h) :: t end
  end.

Definition split_once (c : Z) (s : bytes) : option (bytes * bytes) :=
  i ← find_byte c s; Some (take i s, drop (S i) s).

(** [parts.join(sep)] *)
Fixpoint join (sep : bytes) (parts : list bytes) : bytes :=
  match parts with
  | [] => []
  | [p] => p
  | p :: ps => p ++ sep ++ join sep ps
  end.

Lemma split_on_nonempty c s : split_on c s ≠ [].
Proof. induction s as [|x s IH]; simpl; [done|]. repeat case_match; done. Qed.

Lemma split_on_app_sep c s t :
  c ∉ s → split_on c (s ++ c :: t) = s :: split_on c t.
Proof.
  induction s as [|x s IH]; intros Hc; simpl.
  - by rewrite Z.eqb_refl.
  - apply not_elem_of_cons in Hc as [? ?]. destruct (Z.eqb_spec x c); [congruence|].
    by rewrite IH.
Qed.

Lemma split_on_no_sep c s : c ∉ s → split_on c s = [s].
Proof.
  induction s as [|x s IH]; intros Hc; simpl; [done|].
  apply not_elem_of_cons in Hc as [? ?]. destruct (Z.eqb_spec x c); [congruence|].
  by rewrite IH.
Qed.

Lemma split_on_join c parts :
  parts ≠ [] → Forall (λ p, c ∉ p) parts → split_on c (join [c] parts) = parts.
Proof.
  induction parts as [|p ps IH]; intros Hne Hf; [done|].
  apply Forall_cons in Hf as [Hp Hps]. destruct ps as [|q ps].
  - simpl. by apply split_on_no_sep.
  - change (join [c] (p :: q :: ps)) with (p ++ c :: join [c] (q :: ps)).
    rewrite split_on_app_sep by done. by rewrite IH.
Qed.

Lemma rfind_byte_None c s : c ∉ s → rfind_byte c s = None.
Proof.
  induction s as [|x s IH]; intros Hc; simpl; [done|].
  apply not_elem_of_cons in Hc as [? ?]. rewrite IH by done.
  destruct (Z.eqb_spec x c); congruence.
Qed.

Lemma rfind_byte_app c s t :
  c ∉ t → rfind_byte c (s ++ c :: t) = Some (length s).
Proof.
  intros Ht. induction s as [|x s IH]; simpl.
  - by rewrite rfind_byte_None, Z.eqb_refl.
  - by rewrite IH.
Qed.

Lemma find_byte_None c s : c ∉ s → find_byte c s = None.
Proof.
  induction s as [|x s IH]; intros Hc; simpl; [done|].
  apply not_elem_of_cons in Hc as [? ?].
  destruct (Z.eqb_spec x c); [congruence|]. by rewrite IH.
Qed.

Lemma find_byte_app c s t : c ∉ s → find_byte c (s ++ c :: t) = Some (length s).
Proof.
  induction s as [|x s IH]; intros Hc; simpl; [by rewrite Z.eqb_refl|].
  apply not_elem_of_cons in Hc as [? ?].
  destruct (Z.eqb_spec x c); [congruence|]. by rewrite IH.
Qed.

Lemma starts_with_spec p s : starts_with p s = true ↔ ∃ t, s = p ++ t.
Proof.
  revert s. induction p as [|x p IH]; intros [|y s]; simpl.
  - naive_solver.
  - naive_solver.
  - split; [done|]. by intros [? ?].
  - rewrite andb_true_iff, Z.eqb_eq, IH. naive_solver.
Qed.

Lemma ends_with_spec p s : ends_with p s = true ↔ ∃ t, s = t ++ p.
Proof.
  unfold ends_with. rewrite starts_with_spec. split; intros [t Ht].
  - exists (reverse t). apply (f_equal reverse) in Ht.
    by rewrite reverse_involutive, reverse_app, reverse_involutive in Ht.
  - exists (reverse t). by rewrite Ht, reverse_app.
Qed.

Lemma contains_spec p s : contains p s = true ↔ ∃ l r, s = l ++ p ++ r.
Proof.
  induction s as [|x s IH]; cbn [contains]; rewrite orb_true_iff, starts_with_spec.
  - split; [intros [[t ->]|]; [by exists [], t|done]|].
    intros (l&r&H). left. exists r. by destruct l.
  - rewrite IH. split.
    + intros [[t ->]|(l&r&->)]; [by exists [], t|by exists (x :: l), r].
    + intros ([|y l]&r&H); simplify_eq/=; eauto 10.
Qed.

(** ** UTF-8 *)

Definition is_cont (b : Z) : bool := (128 <=? b) && (b <=? 191).

(** The second byte allowed after each three- and four-byte lead byte. *)
Definition ok3 (a b : Z) : bool :=
  if a =? 224 then (160 <=? b) && (b <=? 191)
  else if a =? 237 then (128 <=? b) && (b <=? 159)
  else ((225 <=? a) && (a <=? 236) || (238 <=? a) && (a <=? 239)) && is_cont b.
Definition ok4 (a b : Z) : bool :=
  if a =? 240 then (144 <=? b) && (b <=? 191)
  else if a =? 244 then (128 <=? b) && (b <=? 143)
  else (241 <=? a) && (a <=? 243) && is_cont b.

(** [utf8_next s]: the outcome of reading one scalar value from [s]: [inl n],
    a valid encoding of [n] bytes; [inr n], an error whose invalid part
    (as [Utf8Error::error_len] counts it) spans [n] bytes. *)
Definition utf8_next (s : bytes) : nat + nat :=
  match s with
  | [] => inr 0%nat
  | a :: s1 =>
      if (0 <=? a) && (a <=? 127) then inl 1%nat
      else if (194 <=? a) && (a <=? 223) then
        match s1 with
        | b :: _ => if is_cont b then inl 2%nat else inr 1%nat
        | [] => inr 1%nat
        end
      else if (224 <=? a) && (a <=? 239) then
        match s1 with
        | b :: s2 =>
            if ok3 a b then
              match s2 with
              | c :: _ => if is_cont c then inl 3%nat else inr 2%nat
              | [] => inr 2%nat
              end
            else inr 1%nat
        | [] => inr 1%nat
        end
      else if (240 <=? a) && (a <=? 244) then
        match s1 with
        | b :: s2 =>
            if ok4 a b then
              match s2 with
              | c :: s3 =>
                  if is_cont c then
                    match s3 with
                    | d :: _ => if is_cont d then inl 4%nat else inr 3%nat
                    | [] => inr 3%nat
                    end
                  else inr 2%nat
              | [] => inr 2%nat
              end
            else inr 1%nat
        | [] => inr 1%nat
        end
      else inr 1%nat
  end.

Fixpoint utf8_valid_aux (fuel : nat) (s : bytes) : bool :=
  match s, fuel with
  | [], _ => true
  | _, O => false
  | _, S fuel => match utf8_next s with
                 | inl n => utf8_valid_aux fuel (drop n s)
                 | inr _ => false
                 end
  end.

(** [std::str::from_utf8(s).is_ok()]; a round consumes at least one byte. *)
Definition utf8_valid (s : bytes) : bool := utf8_valid_aux (length s) s.

Fixpoint utf8_lossy_aux (fuel : nat) (s : bytes) : bytes :=
  match s, fuel with
  | [], _ => []
  | _, O => []
  | _, S fuel => match utf8_next s with
                 | inl n => take n s ++ utf8_lossy_aux fuel (drop n s)
                 | inr n => [239; 191; 189] ++ utf8_lossy_aux fuel (drop n s)
                 end
  end.

(** [String::from_utf8_lossy]: U+FFFD for each maximal invalid part. *)
Definition utf8_lossy (s : bytes) : bytes := utf8_lossy_aux (length s) s.

Lemma utf8_lossy_valid s : utf8_valid s = true → utf8_lossy s = s.
Proof.
  unfold utf8_valid, utf8_lossy. generalize (length s) as fuel. intros fuel. revert s.
  induction fuel as [|fuel IH]; intros [|a s]; try done.
  cbn [utf8_valid_aux utf8_lossy_aux]. destruct (utf8_next (a :: s)) as [n|n]; [|done].
  intros H. rewrite IH by done. by rewrite take_drop.
Qed.

Lemma utf8_next_app s t n :
  utf8_next s = inl n → utf8_next (s ++ t) = inl n ∧ (1 ≤ n ≤ length s)%nat.
Proof.
  destruct s as [|a [|b [|c [|d s]]]]; unfold utf8_next; simpl app; simpl length;
    repeat (split_match; try done); intros; simplify_eq; (split; [done|lia]).
Qed.

(** More rounds than bytes do not matter. *)
Lemma utf8_valid_fuel fuel s :
  (length s ≤ fuel)%nat → utf8_valid_aux fuel s = utf8_valid s.
Proof.
  unfold utf8_valid. remember (length s) as k eqn:Hk.
  assert (H : (length s ≤ k)%nat) by lia. clear Hk. revert fuel s H.
  induction k as [|k IH]; intros fuel [|a s] Hs Hf; try done; [by destruct fuel|simpl in *; lia|
    by destruct fuel|].
  destruct fuel as [|fuel]; [lia|]. cbn [utf8_valid_aux].
  destruct (utf8_next (a :: s)) as [n|n] eqn:E; [|done].
  destruct (utf8_next_app _ [] _ E) as [_ Hn]. apply IH.
  - rewrite length_drop. simpl in *. lia.
  - lia.
Qed.

Lemma utf8_valid_app s t : utf8_valid s = true → utf8_valid t = true → utf8_valid (s ++ t) = true.
Proof.
  intros Hs Ht. unfold utf8_valid in Hs. remember (length s) as fuel eqn:Hf.
  assert (Hl : (length s ≤ fuel)%nat) by lia. clear Hf. revert s Hs Hl.
  induction fuel as [|fuel IH]; intros [|a s] Hs Hl; try done. simpl in Hl.
  cbn [utf8_valid_aux] in Hs. destruct (utf8_next (a :: s)) as [n|n] eqn:E; [|done].
  destruct (utf8_next_app _ t _ E) as [E' Hn].
  unfold utf8_valid. rewrite length_app. change (length (a :: s) + length t)%nat with
    (S (length s + length t)). cbn [utf8_valid_aux]. change ((a :: s) ++ t) with (a :: (s ++ t)) in *.
  cbn [utf8_valid_aux]. rewrite E'.
  change (a :: s ++ t) with ((a :: s) ++ t). rewrite drop_app_le by lia.
  rewrite utf8_valid_fuel.
  - apply IH; [done|]. rewrite length_drop. simpl in *. lia.
  - rewrite length_app, length_drop. simpl in *. lia.
Qed.

Definition is_ascii (s : bytes) : bool := forallb (λ c, (0 <=? c) && (c <=? 127)) s.

Lemma utf8_valid_ascii s : is_ascii s = true → utf8_valid s = true.
Proof.
  unfold utf8_valid. induction s as [|a s IH]; intros H; [done|].
  simpl in H. apply andb_true_iff in H as [Ha Hs]. simpl. rewrite Ha. simpl.
  rewrite drop_0. by apply IH.
Qed.

(** ** Whitespace and lines *)

(** Length of the White_Space character at the head of [s], if any. *)
Definition ws_head (s : bytes) : option nat :=
  match s with
  | a :: s1 =>
      if ((9 <=? a) && (a <=? 13)) || (a =? 32) then Some 1%nat
      else match s1 with
      | b :: s2 =>
          if (a =? 194) && ((b =? 133) || (b =? 160)) then Some 2%nat
          else match s2 with
          | c :: _ =>
              if ((a =? 225) && (b =? 154) && (c =? 128))
                 || ((a =? 226) && (b =? 128) && ((128 <=? c) && (c <=? 138)
                       || (c =? 168) || (c =? 169) || (c =? 175)))
                 || ((a =? 226) && (b =? 129) && (c =? 159))
                 || ((a =? 227) && (b =? 128) && (c =? 128))
              then Some 3%nat else None
          | [] => None
          end
      | [] => None
      end
  | [] => None
  end.

(** The same for the last character, given the string reversed. *)
Definition ws_last_rev (r : bytes) : option nat :=
  match r with
  | c :: r1 =>
      match ws_head [c] with
      | Some _ => Some 1%nat
      | None =>
          match r1 with
          | b :: r2 =>
              match ws_head [b; c] with
              | Some 2%nat => Some 2%nat
              | _ => match r2 with
                     | a :: _ => match ws_head [a; b; c] with
                                 | Some 3%nat => Some 3%nat
                                 | _ => None
                                 end
                     | [] => None
                     end
              end
          | [] => None
          end
      end
  | [] => None
  end.

Fixpoint strip_ws (next : bytes → option nat) (fuel : nat) (s : bytes) : bytes :=
  match fuel with
  | O => s
  | S fuel => match next s with
              | Some n => strip_ws next fuel (drop n s)
              | None => s
              end
  end.

Definition trim_start (s : bytes) : bytes := strip_ws ws_head (length s) s.
Definition trim_end (s : bytes) : bytes :=
  reverse (strip_ws ws_last_rev (length s) (reverse s)).
Definition trim (s : bytes) : bytes := trim_end (trim_start s).

(** [trim_start_matches(c)] *)
Fixpoint trim_start_byte (c : Z) (s : bytes) : bytes :=
  match s with
  | x :: s' => if x =? c then trim_start_byte c s' else s
  | [] => []
  end.

Fixpoint split_ws_aux (fuel : nat) (cur s : bytes) : list bytes :=
  match fuel with
  | O => match cur with [] => [] | _ => [reverse cur] end
  | S fuel =>
      match s with
      | [] => match cur with [] => [] | _ => [reverse cur] end
      | x :: s' =>
          match ws_head s with
          | Some n =>
              match cur with
              | [] => split_ws_aux fuel [] (drop n s)
              | _ => reverse cur :: split_ws_aux fuel [] (drop n s)
              end
          | None => split_ws_aux fuel (x :: cur) s'
          end
      end
  end.
(** [str::split_whitespace] *)
Definition split_whitespace (s : bytes) : list bytes := split_ws_aux (S (length s)) [] s.

(** [str::lines]: split after each LF; a line ending in CRLF or LF loses it,
    a last line without LF is kept as it is and dropped when empty. *)
Definition strip_cr (l : bytes) : bytes :=
  match reverse l with 13 :: r => reverse r | _ => l end.
Fixpoint lines_of (parts : list bytes) : list bytes :=
  match parts with
  | [] => []
  | [l] => match l with [] => [] | _ => [l] end
  | l :: ps => strip_cr l :: lines_of ps
  end.
Definition lines (s : bytes) : list bytes := lines_of (split_on 10 s).

Example lines_ex : lines (B "a" ++ [13; 10] ++ B "b" ++ [10; 10] ++ B "c" ++ [13]) =
  [B "a"; B "b"; []; B "c" ++ [13]].
Proof. reflexivity. Qed.
Example split_whitespace_ex : split_whitespace (B "  ab c ") = [B "ab"; B "c"].
Proof. reflexivity. Qed.
Example trim_ex : trim (B "  ab c " ++ [194; 160]) = B "ab c".
Proof. reflexivity. Qed.
Example parse_uint_ex :
  (parse_uint 16 (B "+80"), parse_uint 16 (B "65536"), parse_uint 16 (B ""),
   parse_uint 16 (B "0065535")) = (Some 80, None, None, Some 65535).
Proof. reflexivity. Qed.

(** ** Text that trimming leaves alone *)

Definition graphic (c : Z) : Prop := 33 ≤ c ≤ 126.

(** The first and the last byte are visible ASCII. *)
Definition trimmed_text (s : bytes) : Prop :=
  (∃ c t, s = c :: t ∧ graphic c) ∧ (∃ t c, s = t ++ [c] ∧ graphic c).

Lemma ws_head_graphic c t : graphic c → ws_head (c :: t) = None.
Proof.
  intros [H1 H2]. unfold ws_head.
  repeat case_match; to_prop; try done; destruct_or?; to_prop; lia.
Qed.

Lemma split_ws_token fuel cur t s :
  Forall graphic t →
  split_ws_aux (length t + fuel) cur (t ++ s) = split_ws_aux fuel (reverse t ++ cur) s.
Proof.
  intros H. revert cur. induction H as [|c t Hc H IH]; intros cur; [done|].
  cbn [length Nat.add app split_ws_aux]. rewrite ws_head_graphic by done. rewrite IH.
  by rewrite reverse_cons, <- app_assoc.
Qed.

(** Visible words joined by single blanks. *)
Lemma split_whitespace_join ts :
  Forall (λ t, t ≠ [] ∧ Forall graphic t) ts → split_whitespace (join [32] ts) = ts.
Proof.
  unfold split_whitespace. assert (∀ fuel, Forall (λ t, t ≠ [] ∧ Forall graphic t) ts →
    (length (join [32%Z] ts) < fuel)%nat → split_ws_aux fuel [] (join [32] ts) = ts) as Hgen.
  { induction ts as [|t ts IH]; intros fuel Hts Hf; [by destruct fuel|].
    apply Forall_cons in Hts as [[Hne Ht] Hts]. destruct ts as [|t2 ts].
    - cbn [join] in *. pose proof (split_ws_token (fuel - length t) [] t [] Ht) as Hw.
      rewrite !app_nil_r in Hw. replace (length t + (fuel - length t))%nat with fuel in Hw by lia.
      rewrite Hw. destruct (fuel - length t)%nat eqn:E; [lia|]. cbn [split_ws_aux].
      destruct (reverse t) eqn:Er; [by apply (f_equal reverse) in Er; rewrite reverse_involutive in Er|].
      by rewrite <- Er, reverse_involutive.
    - change (join [32] (t :: t2 :: ts)) with (t ++ 32 :: join [32] (t2 :: ts)) in *.
      rewrite length_app in Hf. cbn [length] in Hf.
      replace fuel with (length t + (fuel - length t))%nat by lia.
      rewrite split_ws_token by done. rewrite app_nil_r.
      destruct (fuel - length t)%nat as [|k] eqn:E; [lia|]. cbn [split_ws_aux].
      change (ws_head (32 :: join [32] (t2 :: ts))) with (Some 1%nat).
      destruct (reverse t) eqn:Er; [by apply (f_equal reverse) in Er; rewrite reverse_involutive in Er|].
      rewrite <- Er, reverse_involutive. f_equal. change (drop 1 (32 :: ?x)) with x.
      apply IH; [done|lia]. }
  intros Hts. apply Hgen; [done|lia].
Qed.

Lemma ws_last_rev_graphic c t : graphic c → ws_last_rev (c :: t) = None.
Proof.
  intros Hc. pose proof (ws_head_graphic c [] Hc) as H0. destruct Hc as [H1 H2].
  assert (∀ a b, ws_head [b; c] ≠ Some 2%nat ∧ ws_head [a; b; c] ≠ Some 3%nat) as H3.
  { intros a b. unfold ws_head. split; repeat case_match; to_prop; try done;
      destruct_or?; to_prop; lia. }
  unfold ws_last_rev. rewrite H0. destruct t as [|b [|a t]]; [done|..].
  - destruct (ws_head [b; c]) as [[|[|[]]]|] eqn:E; try done. by destruct (H3 0 b).
  - destruct (H3 a b) as [H4 H5].
    destruct (ws_head [b; c]) as [[|[|[]]]|] eqn:E; try done;
      destruct (ws_head [a; b; c]) as [[|[|[|[]]]]|] eqn:E'; done.
Qed.

Lemma strip_ws_none next fuel s : next s = None → strip_ws next fuel s = s.
Proof. destruct fuel; simpl; [done|]. by intros ->. Qed.

Lemma trim_trimmed s : trimmed_text s → trim s = s.
Proof.
  intros [(c&t&E&Hc) (t'&c'&E'&Hc')]. unfold trim, trim_start.
  rewrite strip_ws_none by (rewrite E; by apply ws_head_graphic). unfold trim_end.
  rewrite strip_ws_none; [apply reverse_involutive|].
  rewrite E', reverse_app. by apply ws_last_rev_graphic.
Qed.

Lemma trimmed_text_join c f fs :
  Forall trimmed_text (f :: fs) → trimmed_text (join [c] (f :: fs)).
Proof.
  intros Hf. split.
  - inversion Hf as [|?? [(x&t&->&Hx) _] _]; subst. destruct fs; simpl; eauto 6.
  - induction fs as [|g fs IH] in f, Hf |- *; inversion Hf as [|?? [_ Hl] Hr]; subst; [done|].
    destruct (IH g Hr) as (t&x&E&Hx). exists (f ++ [c] ++ t), x.
    split; [|done]. change (join [c] (f :: g :: fs)) with (f ++ [c] ++ join [c] (g :: fs)).
    rewrite E. by rewrite <- !(assoc_L (++)).
Qed.
