(* ===== verification/Address.v ===== *)
(** * Network addresses ([src/address.rs])

    [Module Net] models the part of [std::net] the source relies on: the
    textual parsers and printers of IPv4 and IPv6 addresses.  [Module Addr]
    models [Address], [NetLocation], [ResolvedLocation],
    [NetLocationPortRange], [AddressMask] and [NetLocationMask] with their
    parsers and printers.  Shown here: IPv4 addresses print and parse back;
    a port range is a strictly sorted non-empty list that prints and parses
    back to itself; a mask keeps exactly a prefix of the address bits, so that
    masked comparison is prefix equality. *)
From S2P Require Import Prelude Text.
Local Open Scope Z_scope.

Module Net.

(** An IPv4 address is its 4 octets, an IPv6 address its 16 octets. *)
Inductive IpAddr := V4 (o : bytes) | V6 (o : bytes).

Record SocketAddr := mkSocketAddr { sa_ip : IpAddr; sa_port : Z }.

#[global] Instance IpAddr_eq_dec : EqDecision IpAddr.
Proof. solve_decision. Defined.
#[global] Instance IpAddr_countable : Countable IpAddr.
Proof.
  refine (inj_countable'
    (λ ip, match ip with V4 o => inl o | V6 o => inr o end)
    (λ s, match s with inl o => V4 o | inr o => V6 o end) _).
  by intros [].
Defined.
#[global] Instance SocketAddr_eq_dec : EqDecision SocketAddr.
Proof. solve_decision. Defined.

Definition ip_ok (ip : IpAddr) : Prop :=
  match ip with
  | V4 o => length o = 4%nat ∧ bytes_ok o
  | V6 o => length o = 16%nat ∧ bytes_ok o
  end.

(** ** The parser of [core::net]: each reader backtracks by returning [None] *)

Fixpoint read_digits (radix : Z) (s : bytes) (acc : Z) (count : nat) : Z * nat * bytes :=
  match s with
  | c :: s' => match to_digit radix c with
               | Some d => read_digits radix s' (acc * radix + d) (S count)
               | None => (acc, count, s)
               end
  | [] => (acc, count, [])
  end.

(** [read_number(radix, Some(max_digits), allow_zero_prefix)] at type bound [lim] *)
Definition read_number (radix : Z) (max_digits : nat) (allow_zero_prefix : bool) (lim : Z)
    (s : bytes) : option (Z * bytes) :=
  let leading_zero := match s with c :: _ => c =? 48 | [] => false end in
  let '(v, n, rest) := read_digits radix s 0 0 in
  if (n =? 0)%nat then None
  else if (max_digits <? n)%nat then None
  else if negb allow_zero_prefix && leading_zero && (1 <? n)%nat then None
  else if lim <? v then None
  else Some (v, rest).

Definition read_char (c : Z) (s : bytes) : option bytes :=
  match s with x :: s' => if x =? c then Some s' else None | [] => None end.

(** [read_separator(sep, index, inner)] *)
Definition read_separator {A} (sep : Z) (i : nat) (inner : bytes → option (A * bytes))
    (s : bytes) : option (A * bytes) :=
  match i with O => inner s | _ => s' ← read_char sep s; inner s' end.

Fixpoint read_v4_groups (n i : nat) (s : bytes) : option (bytes * bytes) :=
  match n with
  | O => Some ([], s)
  | S n =>
      '(v, s1) ← read_separator 46 i (read_number 10 3 false 255) s;
      '(vs, s2) ← read_v4_groups n (S i) s1;
      Some (v :: vs, s2)
  end.
Definition read_ipv4_addr (s : bytes) : option (bytes * bytes) := read_v4_groups 4 0 s.

(** [read_groups]: at most [n] more 16-bit groups from index [i]; the groups,
    whether a trailing embedded IPv4 address ended them, and the rest. *)
Fixpoint read_groups (n i : nat) (s : bytes) : list Z * bool * bytes :=
  match n with
  | O => ([], false, s)
  | S n' =>
      let v4 := match n' with
                | O => None
                | S _ => read_separator 58 i read_ipv4_addr s
                end in
      match v4 with
      | Some (o, s1) => ([be_decode (take 2 o); be_decode (drop 2 o)], true, s1)
      | None =>
          match read_separator 58 i (read_number 16 4 true 65535) s with
          | Some (g, s1) =>
              let '(gs, b, s2) := read_groups n' (S i) s1 in (g :: gs, b, s2)
          | None => ([], false, s)
          end
      end
  end.

Definition segments_to_octets (gs : list Z) : bytes := gs ≫= be_encode 2.

Definition read_ipv6_addr (s : bytes) : option (bytes * bytes) :=
  let '(head, head_v4, s1) := read_groups 8 0 s in
  if (length head =? 8)%nat then Some (segments_to_octets head, s1)
  else if head_v4 then None
  else
    s2 ← read_char 58 s1;
    s3 ← read_char 58 s2;
    let '(tail, _, s4) := read_groups (8 - (length head + 1)) 0 s3 in
    Some (segments_to_octets (head ++ replicate (8 - length head - length tail) 0 ++ tail), s4).

Definition parse_all {A} (r : option (A * bytes)) : option A :=
  match r with Some (a, []) => Some a | _ => None end.

Definition parse_ipv4 (s : bytes) : option bytes :=
  if (15 <? length s)%nat then None else parse_all (read_ipv4_addr s).
Definition parse_ipv6 (s : bytes) : option bytes := parse_all (read_ipv6_addr s).
(** [str::parse::<IpAddr>]: IPv4 first, then IPv6. *)
Definition parse_ip (s : bytes) : option IpAddr :=
  match read_ipv4_addr s with
  | Some (o, []) => Some (V4 o)
  | Some _ => None
  | None => V6 <$> parse_ipv6 s
  end.

(** ** Printers *)

Definition print_ipv4 (o : bytes) : bytes := join [46] (print_dec <$> o).

Fixpoint segments (o : bytes) : list Z :=
  match o with a :: b :: o' => (a * 256 + b) :: segments o' | _ => [] end.

Definition to_ipv4_mapped (o : bytes) : option bytes :=
  if bool_decide (take 12 o = replicate 10 0 ++ [255; 255]) then Some (drop 12 o) else None.

(** The longest run of zero segments, the first one among equals:
    start and length. *)
Fixpoint zero_span (gs : list Z) (i cs cl ls ll : nat) : nat * nat :=
  match gs with
  | [] => (ls, ll)
  | g :: gs =>
      if g =? 0 then
        let cs := if (cl =? 0)%nat then i else cs in
        let cl := S cl in
        if (ll <? cl)%nat then zero_span gs (S i) cs cl cs cl
        else zero_span gs (S i) cs cl ls ll
      else zero_span gs (S i) 0 0 ls ll
  end.

Definition fmt_subslice (gs : list Z) : bytes := join [58] (print_hex <$> gs).

Definition print_ipv6 (o : bytes) : bytes :=
  match to_ipv4_mapped o with
  | Some v4 => B "::ffff:" ++ print_ipv4 v4
  | None =>
      let gs := segments o in
      let '(st, ln) := zero_span gs 0 0 0 0 0 in
      if (1 <? ln)%nat
      then fmt_subslice (take st gs) ++ B "::" ++ fmt_subslice (drop (st + ln) gs)
      else fmt_subslice gs
  end.

Definition print_ip (ip : IpAddr) : bytes :=
  match ip with V4 o => print_ipv4 o | V6 o => print_ipv6 o end.

Definition print_socket_addr (a : SocketAddr) : bytes :=
  match sa_ip a with
  | V4 o => print_ipv4 o ++ B ":" ++ print_dec (sa_port a)
  | V6 o => B "[" ++ print_ipv6 o ++ B "]:" ++ print_dec (sa_port a)
  end.

Example parse_ipv6_ex :
  (parse_ipv6 (B "::1"), parse_ipv6 (B "fe80::1:2%1"), parse_ipv6 (B "::ffff:1.2.3.4")) =
  (Some (replicate 15 0 ++ [1]), None, Some (replicate 10 0 ++ [255; 255; 1; 2; 3; 4])).
Proof. reflexivity. Qed.
Example print_ipv6_ex :
  print_ipv6 [32; 1; 13; 184; 0; 0; 0; 0; 0; 1; 0; 0; 0; 0; 0; 1] = B "2001:db8::1:0:0:1".
Proof. reflexivity. Qed.

(** ** IPv4 addresses print and parse back *)

Lemma to_digit_10 c : is_ascii_digit c = true → to_digit 10 c = Some (c - 48).
Proof.
  intros H. unfold to_digit. rewrite H. unfold is_ascii_digit in H. to_prop.
  rewrite (proj2 (Z.ltb_lt _ _)) by lia. done.
Qed.

Lemma read_digits_10 s rest acc n :
  Forall (λ c, is_ascii_digit c = true) s →
  match rest with [] => True | c :: _ => to_digit 10 c = None end →
  ∃ v, parse_digits s acc = Some v ∧
       read_digits 10 (s ++ rest) acc n = (v, (n + length s)%nat, rest).
Proof.
  intros Hs Hrest. revert acc n. induction Hs as [|c s Hc Hs IH]; intros acc n; simpl.
  - exists acc. split; [done|]. rewrite Nat.add_0_r.
    destruct rest as [|c rest]; simpl; [done|]. by rewrite Hrest.
  - rewrite Hc, to_digit_10 by done.
    destruct (IH (acc * 10 + (c - 48)) (S n)) as (v&?&->). exists v.
    split; [done|]. do 2 f_equal. lia.
Qed.

Lemma print_dec_octet b : is_byte b →
  (length (print_dec b) ≤ 3)%nat ∧
  ((1 < length (print_dec b))%nat → match print_dec b with c :: _ => c =? 48 | [] => false end = false).
Proof.
  intros [H0 H1].
  assert (forallb (λ n, let s := print_dec (Z.of_nat n) in
    (length s <=? 3)%nat &&
    ((length s <=? 1)%nat || negb (match s with c :: _ => c =? 48 | [] => false end)))
    (seq 0 256) = true) as Hall by (vm_compute; reflexivity).
  rewrite forallb_forall in Hall. specialize (Hall (Z.to_nat b)).
  rewrite Z2Nat.id in Hall by lia. cbv zeta in Hall.
  apply andb_true_iff in Hall as [Hl Hz]; [|apply in_seq; lia].
  to_prop. split; [done|]. intros. destruct Hz; to_prop; [lia|done].
Qed.

Lemma read_number_octet b rest :
  is_byte b → match rest with [] => True | c :: _ => to_digit 10 c = None end →
  read_number 10 3 false 255 (print_dec b ++ rest) = Some (b, rest).
Proof.
  intros Hb Hrest. pose proof Hb as [H0 H1].
  destruct (print_dec_spec b H0) as (Hp&Hd&Hne).
  destruct (print_dec_octet b Hb) as [Hlen Hz].
  destruct (read_digits_10 (print_dec b) rest 0 0 Hd Hrest) as (v&Hv&Hr).
  rewrite Hp in Hv. simplify_eq. unfold read_number. rewrite Hr. simpl.
  destruct (print_dec v) as [|c s] eqn:E; [done|]. cbn [length app] in *.
  replace (3 <? S (length s))%nat with false by (symmetry; apply Nat.ltb_ge; lia).
  cbn [Nat.eqb negb andb].
  assert ((c =? 48) && (1 <? S (length s))%nat = false) as ->.
  { destruct (Nat.ltb_spec 1 (S (length s))); [rewrite Hz by lia; done|apply andb_false_r]. }
  by rewrite (proj2 (Z.ltb_ge _ _)) by lia.
Qed.

Lemma parse_print_ipv4 o :
  length o = 4%nat → bytes_ok o → read_ipv4_addr (print_ipv4 o) = Some (o, []).
Proof.
  intros Hl Ho. destruct o as [|a [|b [|c [|d [|]]]]]; try discriminate Hl.
  unfold bytes_ok in Ho. rewrite !Forall_cons in Ho. destruct Ho as (Ha&Hb&Hc&Hd&_).
  unfold print_ipv4, read_ipv4_addr. cbn [fmap list_fmap join app].
  cbn [read_v4_groups read_separator].
  rewrite read_number_octet by done. cbn [mbind option_bind read_char]. rewrite Z.eqb_refl.
  cbn [mbind option_bind]. rewrite read_number_octet by done.
  cbn [mbind option_bind read_char]. rewrite Z.eqb_refl.
  cbn [mbind option_bind]. rewrite read_number_octet by done.
  cbn [mbind option_bind read_char]. rewrite Z.eqb_refl.
  cbn [mbind option_bind]. rewrite <- (app_nil_r (print_dec d)).
  by rewrite read_number_octet.
Qed.

Lemma length_print_ipv4 o :
  length o = 4%nat → bytes_ok o → (length (print_ipv4 o) ≤ 15)%nat.
Proof.
  intros Hl Ho. destruct o as [|a [|b [|c [|d [|]]]]]; try discriminate Hl.
  unfold bytes_ok in Ho. rewrite !Forall_cons in Ho. destruct Ho as (Ha&Hb&Hc&Hd&_).
  unfold print_ipv4. simpl. rewrite !length_app; simpl; rewrite !length_app; simpl.
  rewrite !length_app; simpl.
  pose proof (proj1 (print_dec_octet a Ha)). pose proof (proj1 (print_dec_octet b Hb)).
  pose proof (proj1 (print_dec_octet c Hc)). pose proof (proj1 (print_dec_octet d Hd)). lia.
Qed.

Lemma read_number_bound radix m z lim s v rest :
  0 ≤ radix → read_number radix m z lim s = Some (v, rest) → 0 ≤ v ≤ lim.
Proof.
  intros Hr. unfold read_number.
  assert (∀ s acc n v n' rest, 0 ≤ acc → read_digits radix s acc n = (v, n', rest) → 0 ≤ v)
    as Hpos.
  { clear s v rest. induction s as [|c s IH]; intros acc n v n' rest Ha H; simplify_eq/=; [done|].
    destruct (to_digit radix c) eqn:E; simplify_eq; [|done].
    eapply IH; [|done]. unfold to_digit in E. repeat case_match; simplify_eq;
      unfold is_ascii_digit, is_ascii_lowercase, is_ascii_uppercase in *; to_prop; nia. }
  destruct (read_digits _ _ _ _) as [[v' n'] rest'] eqn:E.
  apply Hpos in E; [|done]. repeat case_match; intros; simplify_eq; to_prop; lia.
Qed.

Lemma read_v4_groups_ok n i s o rest :
  read_v4_groups n i s = Some (o, rest) → length o = n ∧ bytes_ok o.
Proof.
  revert i s o rest. induction n as [|n IH]; intros i s o rest H; simplify_eq/=.
  - split; [done|constructor].
  - destruct (read_separator _ _ _ _) as [[v s1]|] eqn:E; simplify_eq/=.
    destruct (read_v4_groups n _ _) as [[vs s2]|] eqn:E2; simplify_eq/=.
    apply IH in E2 as [<- Hok]. split; [done|]. constructor; [|done].
    unfold is_byte. assert (0 ≤ v ≤ 255); [|lia]. unfold read_separator in E. destruct i.
    + by eapply read_number_bound in E.
    + destruct (read_char _ _); simplify_eq/=. by eapply read_number_bound in E.
Qed.

Lemma parse_ipv4_ok s o : parse_ipv4 s = Some o → length o = 4%nat ∧ bytes_ok o.
Proof.
  unfold parse_ipv4, parse_all. destruct (_ <? _)%nat; [done|].
  destruct (read_ipv4_addr s) as [[o' [|]]|] eqn:E; intros; simplify_eq.
  by apply read_v4_groups_ok in E.
Qed.

Lemma length_read_groups n i s gs b r : read_groups n i s = (gs, b, r) → (length gs ≤ n)%nat.
Proof.
  revert i s gs b r. induction n as [|n IH]; intros i s gs b r E; simpl in E; simplify_eq/=; [done|].
  destruct (match n with O => None | S _ => read_separator 58 i read_ipv4_addr s end)
    as [[o s1]|] eqn:E4.
  - simplify_eq/=. destruct n; [done|lia].
  - destruct (read_separator 58 i (read_number 16 4 true 65535) s) as [[g s1]|]; simplify_eq/=; [|lia].
    destruct (read_groups n (S i) s1) as [[gs' b'] s2] eqn:Eg. simplify_eq/=.
    apply IH in Eg. lia.
Qed.

Lemma segments_to_octets_ok gs :
  length (segments_to_octets gs) = (2 * length gs)%nat ∧ bytes_ok (segments_to_octets gs).
Proof.
  unfold segments_to_octets. induction gs as [|g gs [IH1 IH2]]; [split; [done|constructor]|].
  rewrite bind_cons, length_app, length_be_encode, IH1. split; [simpl; lia|].
  apply bytes_ok_app. split; [apply bytes_ok_be_encode|done].
Qed.

Lemma parse_ipv6_ok s o : parse_ipv6 s = Some o → length o = 16%nat ∧ bytes_ok o.
Proof.
  unfold parse_ipv6, parse_all. destruct (read_ipv6_addr s) as [[o' [|]]|] eqn:E; intros; simplify_eq.
  unfold read_ipv6_addr in E. destruct (read_groups 8 0 s) as [[hd v4] s1] eqn:Eh.
  apply length_read_groups in Eh. destruct (Nat.eqb_spec (length hd) 8) as [H8|H8].
  - simplify_eq. destruct (segments_to_octets_ok hd) as [-> ?]. split; [lia|done].
  - destruct v4; [done|]. destruct (read_char 58 s1) as [s2|]; simplify_eq/=.
    destruct (read_char 58 s2) as [s3|]; simplify_eq/=.
    destruct (read_groups _ 0 s3) as [[tl v4] s4] eqn:Et. apply length_read_groups in Et. simplify_eq/=.
    destruct (segments_to_octets_ok (hd ++ replicate (8 - length hd - length tl) 0 ++ tl)) as [-> ?].
    rewrite !length_app, length_replicate. split; [lia|done].
Qed.

End Net.

Module Addr.
Import Net.

Inductive Address := Ipv4 (o : bytes) | Ipv6 (o : bytes) | Hostname (h : bytes).

#[global] Instance Address_eq_dec : EqDecision Address.
Proof. solve_decision. Defined.

Definition addr_ok (a : Address) : Prop :=
  match a with
  | Ipv4 o => length o = 4%nat ∧ bytes_ok o
  | Ipv6 o => length o = 16%nat ∧ bytes_ok o
  | Hostname _ => True
  end.

Definition UNSPECIFIED : Address := Ipv4 [0; 0; 0; 0].

(** The byte scan of [Address::from]: number of dots, and whether the text can
    still be an IPv4 address, an IPv6 address, a hostname. *)
Fixpoint scan_address (s : bytes) (dots : nat) (p4 p6 ph : bool) : nat * bool * bool * bool :=
  match s with
  | [] => (dots, p4, p6, ph)
  | c :: s =>
      if c =? 58 then (dots, false, p6, false)
      else if c =? 46 then
        let dots := S dots in
        if (3 <? dots)%nat then (dots, p4, false, ph) else scan_address s dots p4 false ph
      else if ((65 <=? c) && (c <=? 70)) || ((97 <=? c) && (c <=? 102))
      then scan_address s dots false p6 ph
      else if negb (is_ascii_digit c) then (dots, false, false, ph)
      else scan_address s dots p4 p6 ph
  end.

Definition Address_from (s : bytes) : outcome Address :=
  let '(dots, p4, p6, ph) := scan_address s 0 true true true in
  let v4 := if p4 && (dots =? 3)%nat then parse_ipv4 s else None in
  match v4 with
  | Some o => Ok (Ipv4 o)
  | None =>
      match (if p6 then parse_ipv6 s else None) with
      | Some o => Ok (Ipv6 o)
      | None => if ph then Ok (Hostname s) else err InvalidData "Failed to parse address"
      end
  end.

Definition is_ipv6 (a : Address) : bool := match a with Ipv6 _ => true | _ => false end.
Definition hostname (a : Address) : option bytes :=
  match a with Hostname h => Some h | _ => None end.

Definition print_address (a : Address) : bytes :=
  match a with Ipv4 o => print_ipv4 o | Ipv6 o => print_ipv6 o | Hostname h => h end.

(** ** NetLocation *)

Record NetLocation := mkNetLocation { address : Address; port : Z }.

#[global] Instance NetLocation_eq_dec : EqDecision NetLocation.
Proof. solve_decision. Defined.

Definition NetLocation_UNSPECIFIED : NetLocation := mkNetLocation UNSPECIFIED 0.
Definition is_unspecified (l : NetLocation) : bool := bool_decide (l = NetLocation_UNSPECIFIED).

Definition NetLocation_from_str (s : bytes) (default_port : option Z) : outcome NetLocation :=
  let '(address_str, port, expect_ipv6) :=
    match rfind_byte 58 s with
    | Some i => match parse_uint 16 (drop (i + 1) s) with
                | Some p => (take i s, Some p, false)
                | None => (s, default_port, true)
                end
    | None => (s, default_port, false)
    end in
  address ← Address_from address_str;
  if expect_ipv6 && negb (is_ipv6 address) then err Other "Invalid location"
  else
    port ← ok_or port (IoError Other "No port");
    Ok (mkNetLocation address port).

Definition to_socket_addr_nonblocking (l : NetLocation) : option SocketAddr :=
  match address l with
  | Ipv6 o => Some (mkSocketAddr (V6 o) (port l))
  | Ipv4 o => Some (mkSocketAddr (V4 o) (port l))
  | Hostname _ => None
  end.

Definition print_location (l : NetLocation) : bytes :=
  print_address (address l) ++ B ":" ++ print_dec (port l).

(** ** ResolvedLocation *)

Record ResolvedLocation := mkResolved {
  location : NetLocation;
  resolved_addr : option SocketAddr;
}.

Definition Resolved_new (l : NetLocation) : ResolvedLocation := mkResolved l None.
Definition with_resolved (l : NetLocation) (a : SocketAddr) : ResolvedLocation :=
  mkResolved l (Some a).
Definition set_resolved (r : ResolvedLocation) (a : SocketAddr) : ResolvedLocation :=
  mkResolved (location r) (Some a).

(** ** NetLocationPortRange *)

Record NetLocationPortRange := mkPortRange { pr_address : Address; pr_ports : list Z }.

(** [Vec::dedup] *)
Fixpoint dedup (l : list Z) : list Z :=
  match l with
  | x :: ((y :: _) as t) => if x =? y then dedup t else x :: dedup t
  | _ => l
  end.

Definition PortRange_of_location (l : NetLocation) : NetLocationPortRange :=
  mkPortRange (address l) [port l].

Definition PortRange_new (a : Address) (ports : list Z) : outcome NetLocationPortRange :=
  let ports := dedup (merge_sort Z.le ports) in
  match ports with
  | [] => err InvalidInput "No valid ports specified"
  | _ => Ok (mkPortRange a ports)
  end.

Definition parse_port (s : bytes) : outcome Z :=
  ok_or (parse_uint 16 s) (IoError InvalidInput "Invalid port number").

Definition parse_port_part (part : bytes) : outcome (list Z) :=
  if bool_decide (45 ∈ part) then
    match split_on 45 part with
    | [a; b] =>
        st ← parse_port a;
        en ← parse_port b;
        if en <? st then err InvalidInput "Invalid port range (start > end)"
        else Ok (seqZ st (en - st + 1))
    | _ => err InvalidInput "Invalid port range format"
    end
  else p ← parse_port part; Ok [p].

Fixpoint parse_port_parts (parts : list bytes) : outcome (list Z) :=
  match parts with
  | [] => Ok []
  | p :: ps => xs ← parse_port_part p; ys ← parse_port_parts ps; Ok (xs ++ ys)
  end.

Definition PortRange_from_str (s : bytes) : outcome NetLocationPortRange :=
  match rfind_byte 58 s with
  | None => err InvalidInput "Missing port specification"
  | Some i =>
      address ← Address_from (take i s);
      ports ← parse_port_parts (split_on 44 (drop (i + 1) s));
      PortRange_new address ports
  end.

(** [lookup] is the operating system's resolver behind [str::to_socket_addrs]. *)
Fixpoint lookup_ports (lookup : bytes → outcome (list SocketAddr)) (h : bytes)
    (ports : list Z) : outcome (list SocketAddr) :=
  match ports with
  | [] => Ok []
  | p :: ps =>
      xs ← lookup (h ++ B ":" ++ print_dec p);
      ys ← lookup_ports lookup h ps;
      Ok (xs ++ ys)
  end.

Definition to_socket_addrs (lookup : bytes → outcome (list SocketAddr))
    (r : NetLocationPortRange) : outcome (list SocketAddr) :=
  match pr_address r with
  | Ipv4 o => Ok (mkSocketAddr (V4 o) <$> pr_ports r)
  | Ipv6 o => Ok (mkSocketAddr (V6 o) <$> pr_ports r)
  | Hostname h =>
      result ← lookup_ports lookup h (pr_ports r);
      match result with
      | [] => err Other "Hostname lookup failed for all ports"
      | _ => Ok result
      end
  end.

(** The [while] loop of [Display]: the inner loop runs to the end of a
    consecutive sequence, the outer one prints it. *)
Fixpoint run_end (p : Z) (rest : list Z) : Z * list Z :=
  match rest with
  | q :: rest' => if p + 1 =? q then run_end q rest' else (p, rest)
  | [] => (p, [])
  end.

Fixpoint fmt_ports (fuel : nat) (first : bool) (ports : list Z) : bytes :=
  match fuel, ports with
  | S fuel, p :: rest =>
      let '(e, rest') := run_end p rest in
      (if first then [] else B ",") ++
      (if p =? e then print_dec p
       else if e - p =? 1 then print_dec p ++ B "," ++ print_dec e
       else print_dec p ++ B "-" ++ print_dec e) ++
      fmt_ports fuel false rest'
  | _, _ => []
  end.

Definition print_port_range (r : NetLocationPortRange) : outcome bytes :=
  match pr_ports r with
  | [] => Panic
  | _ => Ok (print_address (pr_address r) ++ B ":" ++
             fmt_ports (length (pr_ports r)) true (pr_ports r))
  end.

(** ** AddressMask *)

Record AddressMask := mkAddressMask { am_address : Address; netmask : Z }.
#[global] Instance AddressMask_eq_dec : EqDecision AddressMask.
Proof. solve_decision. Defined.

Definition AddressMask_ANY : AddressMask := mkAddressMask UNSPECIFIED 0.
Definition u128_max : Z := 2 ^ 128 - 1.

Definition keep_bits (a : Address) (num_bits : option Z) : outcome Z :=
  match a with
  | Ipv4 _ =>
      let n := default 32 num_bits in
      if 32 <? n then err Other "Invalid number of bits for ipv4 address"
      else if n =? 0 then Ok 0 else Ok (96 + n)
  | Ipv6 _ =>
      let n := default 128 num_bits in
      if 128 <? n then err Other "Invalid number of bits for ipv4 address" else Ok n
  | Hostname _ =>
      match num_bits with
      | Some _ => err Other "Cannot specify number of number of netmask bits for hostnames"
      | None => Ok 128
      end
  end.

Definition mask_of_keep (keep : Z) : Z :=
  let clear := 128 - keep in
  if clear =? 128 then 0 else wrap 128 (Z.shiftl (Z.shiftr u128_max clear) clear).

Definition AddressMask_from (s : bytes) : outcome AddressMask :=
  '(address_str, num_bits) ←
    match rfind_byte 47 s with
    | Some i =>
        n ← ok_or (parse_uint 8 (drop (i + 1) s)) (IoError Other "Failed to parse netmask");
        Ok (take i s, Some n)
    | None => Ok (s, None)
    end;
  address ← Address_from address_str;
  keep ← keep_bits address num_bits;
  Ok (mkAddressMask address (mask_of_keep keep)).

(** [u128::trailing_zeros] *)
Fixpoint trailing_zeros_aux (fuel : nat) (z : Z) : Z :=
  match fuel with
  | O => 0
  | S fuel => if Z.odd z then 0 else 1 + trailing_zeros_aux fuel (z / 2)
  end.
Definition trailing_zeros (z : Z) : Z := trailing_zeros_aux 128 z.

Definition mask_bits (nm : Z) : Z := if nm =? 0 then 0 else 128 - trailing_zeros nm.

Definition print_address_mask (m : AddressMask) : bytes :=
  let bits := mask_bits (netmask m) in
  let display_bits :=
    match am_address m with
    | Ipv4 _ => if 96 <? bits then bits - 96 else if bits =? 0 then 0 else bits
    | Ipv6 _ => bits
    | Hostname _ => bits
    end in
  print_address (am_address m) ++ B "/" ++ print_dec display_bits.

(** ** NetLocationMask *)

Record NetLocationMask := mkLocationMask { address_mask : AddressMask; lm_port : Z }.
#[global] Instance NetLocationMask_eq_dec : EqDecision NetLocationMask.
Proof. solve_decision. Defined.

Definition NetLocationMask_ANY : NetLocationMask := mkLocationMask AddressMask_ANY 0.

Definition count_byte (c : Z) (s : bytes) : nat := length (filter (λ x, x = c) s).

Definition mask_port (s : bytes) : outcome Z :=
  ok_or (parse_uint 16 s) (IoError Other "Failed to parse port").

(** The branch for addresses without brackets: the mask text and the port. *)
Definition split_mask_port (s : bytes) : outcome (bytes * Z) :=
  match rfind_byte 47 s with
  | Some slash_pos =>
      let after_slash := drop (slash_pos + 1) s in
      match find_byte 58 after_slash with
      | Some colon =>
          _ ← ok_or (parse_uint 8 (take colon after_slash))
                    (IoError Other "Failed to parse netmask bits");
          port ← mask_port (drop (colon + 1) after_slash);
          Ok (take (slash_pos + 1 + colon) s, port)
      | None => Ok (s, 0)
      end
  | None =>
      if (count_byte 58 s =? 1)%nat then
        colon ← expect (find_byte 58 s);
        port ← mask_port (drop (colon + 1) s);
        Ok (take colon s, port)
      else Ok (s, 0)
  end.

Definition NetLocationMask_from (s : bytes) : outcome NetLocationMask :=
  match (if starts_with [91] s then find_byte 93 s else None) with
  | Some bracket_end =>
      let address_mask_str := take (bracket_end - 1) (drop 1 s) in
      port ← match s !! (bracket_end + 1)%nat with
             | Some 58 => mask_port (drop (bracket_end + 2) s)
             | _ => Ok 0
             end;
      m ← AddressMask_from address_mask_str;
      Ok (mkLocationMask m port)
  | None =>
      '(address_mask_str, port) ← split_mask_port s;
      m ← AddressMask_from address_mask_str;
      Ok (mkLocationMask m port)
  end.

Definition print_location_mask (m : NetLocationMask) : bytes :=
  if lm_port m =? 0 then print_address_mask (address_mask m)
  else print_address_mask (address_mask m) ++ B ":" ++ print_dec (lm_port m).

Example mask_from_ex :
  NetLocationMask_from (B "10.0.0.0/8:443") =
    Ok (mkLocationMask (mkAddressMask (Ipv4 [10; 0; 0; 0]) (2 ^ 128 - 2 ^ 24)) 443) ∧
  is_Ok (NetLocationMask_from (B "[fe80::/10]:53")) = true ∧
  is_Ok (NetLocationMask_from (B "fe80::1")) = true.
Proof. vm_compute. auto. Qed.
Example port_range_ex :
  (r ← PortRange_from_str (B "1.2.3.4:80,443-445,81,9000"); print_port_range r) =
  Ok (B "1.2.3.4:80,81,443-445,9000").
Proof. reflexivity. Qed.

(** ** Lemmas *)

Lemma scan_print_ipv4 o :
  length o = 4%nat → bytes_ok o →
  scan_address (print_ipv4 o) 0 true true true = (3%nat, true, false, true).
Proof.
  intros Hl Ho.
  assert (∀ s rest n b, Forall (λ c, is_ascii_digit c = true) s →
    scan_address (s ++ rest) n true b true = scan_address rest n true b true) as Hd.
  { intros s rest n b Hs. induction Hs as [|c s Hc Hs IH]; simpl; [done|].
    pose proof Hc as Hc'. unfold is_ascii_digit in Hc'. to_prop.
    destruct (Z.eqb_spec c 58); [lia|]. destruct (Z.eqb_spec c 46); [lia|].
    replace (65 <=? c) with false by (symmetry; apply Z.leb_gt; lia).
    replace (97 <=? c) with false by (symmetry; apply Z.leb_gt; lia).
    simpl. by rewrite Hc. }
  destruct o as [|a [|b [|c [|d [|]]]]]; try discriminate Hl.
  unfold bytes_ok in Ho. rewrite !Forall_cons in Ho.
  destruct Ho as ([? _]&[? _]&[? _]&[? _]&_).
  unfold print_ipv4. cbn [fmap list_fmap join app].
  rewrite <- (app_nil_r (print_dec d)).
  assert (∀ rest n b, (S n <= 3)%nat →
    scan_address (46 :: rest) n true b true = scan_address rest (S n) true false true) as Hdot.
  { intros rest n b' Hn. cbn [scan_address Z.eqb Pos.eqb].
    by rewrite (proj2 (Nat.ltb_ge _ _)) by lia. }
  do 3 (rewrite Hd by (by apply print_dec_spec); rewrite Hdot by lia).
  by rewrite Hd by (by apply print_dec_spec).
Qed.

(** Every IPv4 address prints and parses back through [Address::from]. *)
Lemma Address_from_print_ipv4 o :
  length o = 4%nat → bytes_ok o → Address_from (print_address (Ipv4 o)) = Ok (Ipv4 o).
Proof.
  intros Hl Ho. unfold Address_from. simpl. rewrite scan_print_ipv4 by done. simpl.
  unfold parse_ipv4. pose proof (length_print_ipv4 o Hl Ho).
  rewrite (proj2 (Nat.ltb_ge _ _)) by done. rewrite parse_print_ipv4 by done. done.
Qed.

(** *** Port lists *)

Definition ports_wf (ports : list Z) : Prop :=
  ports ≠ [] ∧ StronglySorted Z.lt ports ∧ Forall (in_width 16) ports.

Lemma dedup_head x l : ∃ l', dedup (x :: l) = x :: l'.
Proof.
  revert x. induction l as [|y l IH]; intros x; [by exists []|].
  cbn [dedup]. destruct (Z.eqb_spec x y) as [->|]; [|by eexists].
  destruct (IH y) as [l' Hl']. exists l'. exact Hl'.
Qed.

Lemma elem_of_dedup x l : x ∈ dedup l ↔ x ∈ l.
Proof.
  induction l as [|a [|b l] IH]; [done|done|].
  cbn [dedup] in *. destruct (Z.eqb_spec a b) as [->|]; set_solver.
Qed.

Lemma dedup_sorted l : StronglySorted Z.le l → StronglySorted Z.lt (dedup l).
Proof.
  induction l as [|a [|b l] IH]; intros Hs; [constructor|by repeat constructor|].
  apply StronglySorted_inv in Hs as [Hs Ha]. specialize (IH Hs).
  cbn [dedup] in *. destruct (Z.eqb_spec a b) as [->|Hab]; [done|].
  constructor; [done|]. rewrite Forall_forall. intros x Hx.
  apply (proj1 (elem_of_dedup x (b :: l))) in Hx.
  apply StronglySorted_inv in Hs as [_ Hb].
  rewrite Forall_forall in Ha, Hb.
  assert (a ≤ b) by (apply Ha; left). apply elem_of_cons in Hx as [->|Hx]; [lia|].
  specialize (Hb x Hx). lia.
Qed.

Lemma dedup_strict l : StronglySorted Z.lt l → dedup l = l.
Proof.
  induction l as [|a [|b l] IH]; intros Hs; [done|done|].
  apply StronglySorted_inv in Hs as [Hs Ha]. cbn [dedup] in *. rewrite IH by done.
  apply Forall_cons in Ha as [Hab _]. destruct (Z.eqb_spec a b); [lia|done].
Qed.

Lemma merge_sort_sorted l : StronglySorted Z.le (merge_sort Z.le l).
Proof. apply StronglySorted_merge_sort; apply _ || (intros ??; lia). Qed.

Lemma StronglySorted_lt_le l : StronglySorted Z.lt l → StronglySorted Z.le l.
Proof.
  induction 1 as [|x l Hs IH Hf]; constructor; [done|].
  eapply Forall_impl; [done|]. simpl. lia.
Qed.

Lemma merge_sort_strict l : StronglySorted Z.lt l → merge_sort Z.le l = l.
Proof.
  intros Hs. apply (StronglySorted_unique Z.le).
  - apply merge_sort_sorted.
  - by apply StronglySorted_lt_le.
  - apply merge_sort_Permutation.
Qed.

(** The comma-separated items [Display] writes. *)
Fixpoint port_items (fuel : nat) (ports : list Z) : list bytes :=
  match fuel, ports with
  | S fuel, p :: rest =>
      let '(e, rest') := run_end p rest in
      (if p =? e then [print_dec p]
       else if e - p =? 1 then [print_dec p; print_dec e]
       else [print_dec p ++ B "-" ++ print_dec e]) ++ port_items fuel rest'
  | _, _ => []
  end.

Lemma join_cons c x xs : join [c] (x :: xs) = x ++ (xs ≫= λ y, c :: y).
Proof.
  revert x. induction xs as [|y xs IH]; intros x; [by rewrite app_nil_r|].
  change (join [c] (x :: y :: xs)) with (x ++ c :: join [c] (y :: xs)). by rewrite IH.
Qed.

Lemma fmt_ports_false fuel ports :
  fmt_ports fuel false ports = port_items fuel ports ≫= λ y, 44 :: y.
Proof.
  revert ports. induction fuel as [|fuel IH]; intros [|p rest]; try done.
  cbn [fmt_ports port_items]. destruct (run_end p rest) as [e rest'].
  rewrite IH, bind_app. destruct (p =? e); [|destruct (e - p =? 1)];
    simpl; by rewrite ?app_nil_r, <- ?app_assoc.
Qed.

Lemma fmt_ports_true fuel ports :
  fmt_ports (S fuel) true ports = join [44] (port_items (S fuel) ports).
Proof.
  destruct ports as [|p rest]; [done|].
  cbn [fmt_ports port_items]. destruct (run_end p rest) as [e rest'].
  rewrite fmt_ports_false. destruct (p =? e); [|destruct (e - p =? 1)];
    cbn [app]; rewrite join_cons; simpl; by rewrite <- ?app_assoc.
Qed.

Lemma run_end_spec p rest e rest' :
  run_end p rest = (e, rest') →
  p ≤ e ∧ p :: rest = seqZ p (e - p + 1) ++ rest' ∧ (length rest' ≤ length rest)%nat.
Proof.
  revert p. induction rest as [|q rest IH]; intros p H; simpl in H; simplify_eq.
  - split; [lia|]. by rewrite Z.sub_diag.
  - destruct (Z.eqb_spec (p + 1) q) as [<-|].
    + apply IH in H as (?&Hs&?). split; [lia|]. split; [|simpl; lia].
      rewrite Hs, (seqZ_cons p) by lia. simpl.
      f_equal. f_equal. f_equal; lia.
    + simplify_eq. split; [lia|]. split; [by rewrite Z.sub_diag|done].
Qed.

Lemma not_in_print_dec c n :
  0 ≤ n → is_ascii_digit c = false → c ∉ print_dec n.
Proof.
  intros Hn Hc Hin. destruct (print_dec_spec n Hn) as (_&Hd&_).
  rewrite Forall_forall in Hd. specialize (Hd _ Hin). simpl in Hd. congruence.
Qed.

Lemma parse_port_parts_app xs ys :
  parse_port_parts (xs ++ ys) =
    (a ← parse_port_parts xs; b ← parse_port_parts ys; Ok (a ++ b)).
Proof.
  induction xs as [|x xs IH]; simpl; [by destruct (parse_port_parts ys)|].
  destruct (parse_port_part x); simpl; [|done|done]. rewrite IH.
  destruct (parse_port_parts xs); simpl; [|done|done].
  destruct (parse_port_parts ys); simpl; [|done|done]. by rewrite app_assoc.
Qed.

Lemma parse_single_port p : in_width 16 p → parse_port_part (print_dec p) = Ok [p].
Proof.
  intros Hp. unfold parse_port_part, parse_port. pose proof Hp as [? ?].
  rewrite bool_decide_eq_false_2 by (by apply not_in_print_dec).
  by rewrite parse_print_dec.
Qed.

Lemma parse_range_item p e :
  in_width 16 p → in_width 16 e → p ≤ e →
  parse_port_part (print_dec p ++ B "-" ++ print_dec e) = Ok (seqZ p (e - p + 1)).
Proof.
  intros Hp He Hle. unfold parse_port_part, parse_port. pose proof Hp as [? _].
  pose proof He as [? _].
  rewrite bool_decide_eq_true_2 by (rewrite elem_of_app; right; left).
  change (B "-" ++ print_dec e) with (45 :: print_dec e).
  rewrite split_on_app_sep, split_on_no_sep by (by apply not_in_print_dec).
  rewrite !parse_print_dec by done. simpl. by rewrite (proj2 (Z.ltb_ge _ _)).
Qed.

Lemma parse_port_items fuel ports :
  (length ports ≤ fuel)%nat → Forall (in_width 16) ports →
  parse_port_parts (port_items fuel ports) = Ok ports ∧
  Forall (λ i, (44 ∉ i) ∧ (58 ∉ i)) (port_items fuel ports).
Proof.
  revert ports. induction fuel as [|fuel IH]; intros [|p rest] Hl Hf; simpl in Hl;
    try lia; try (split; [done|constructor]).
  cbn [port_items]. destruct (run_end p rest) as [e rest'] eqn:E.
  destruct (run_end_spec _ _ _ _ E) as (Hpe&Hsplit&Hlen).
  rewrite Hsplit in Hf |- *. apply Forall_app in Hf as [Hrun Hrest].
  assert (in_width 16 p ∧ in_width 16 e) as [Hp He].
  { rewrite !Forall_forall in Hrun. split; apply Hrun, elem_of_seqZ; lia. }
  pose proof Hp as [? _]. pose proof He as [? _].
  destruct (IH rest') as [IH1 IH2]; [lia|done|].
  assert (∀ c n, 0 ≤ n → is_ascii_digit c = false → c ∉ print_dec n) as Hno
    by apply not_in_print_dec.
  rewrite parse_port_parts_app, IH1. destruct (Z.eqb_spec p e) as [<-|Hne].
  - cbn [parse_port_parts app]. rewrite parse_single_port by done.
    rewrite Z.sub_diag. split; [done|]. constructor; [|done]. split; by apply Hno.
  - destruct (Z.eqb_spec (e - p) 1) as [He1|He1].
    + cbn [parse_port_parts app]. rewrite !parse_single_port by done.
      rewrite He1, (seqZ_cons p), (seqZ_cons (Z.succ p)) by lia.
      assert (e = Z.succ p) as -> by lia. split; [done|].
      constructor; [|constructor; [|done]]; split; by apply Hno.
    + cbn [parse_port_parts]. rewrite parse_range_item by done. simpl.
      rewrite app_nil_r. split; [done|]. constructor; [|done].
      split; rewrite elem_of_app, elem_of_cons; intros [Hin|[Hin|Hin]]; try done;
        by apply Hno in Hin.
Qed.

Lemma not_in_join (d c : Z) parts :
  d ≠ c → Forall (λ i, d ∉ i) parts → d ∉ join [c] parts.
Proof.
  intros Hne Hf. destruct parts as [|x xs]; [set_solver|]. rewrite join_cons.
  apply Forall_cons in Hf as [Hx Hxs]. rewrite elem_of_app, list_elem_of_bind.
  rewrite Forall_forall in Hxs. intros [?|(y&Hy&Hin)]; [done|].
  apply elem_of_cons in Hy as [->|Hy]; [done|]. by apply (Hxs y).
Qed.

(** [NetLocationPortRange::new] keeps exactly the given ports, strictly
    increasing. *)
Lemma port_range_new_spec a ports r :
  PortRange_new a ports = Ok r →
  pr_address r = a ∧ pr_ports r ≠ [] ∧ StronglySorted Z.lt (pr_ports r) ∧
  ∀ p, p ∈ pr_ports r ↔ p ∈ ports.
Proof.
  unfold PortRange_new. destruct (dedup _) as [|x l] eqn:E; [done|]. intros [= <-]. simpl.
  split; [done|]. split; [done|]. rewrite <- E. split.
  - apply dedup_sorted, merge_sort_sorted.
  - intros p. rewrite elem_of_dedup. by rewrite merge_sort_Permutation.
Qed.

(** ** Properties *)

(** Printing a port range and parsing the text gives the range back, for
    every well-formed port list and every address whose own text parses back. *)
Theorem port_range_roundtrip r :
  ports_wf (pr_ports r) →
  Address_from (print_address (pr_address r)) = Ok (pr_address r) →
  ∃ s, print_port_range r = Ok s ∧ PortRange_from_str s = Ok r.
Proof.
  destruct r as [a ports]. intros (Hne&Hs&Hw) Ha. simpl in *. unfold print_port_range. simpl.
  destruct (parse_port_items (length ports) ports) as [Hp Hc]; [lia|done|].
  destruct ports as [|p rest] eqn:E; [done|]. eexists. split; [reflexivity|].
  unfold PortRange_from_str. cbn [length]. rewrite fmt_ports_true.
  assert (58 ∉ join [44] (port_items (length (p :: rest)) (p :: rest))) as Hcolon.
  { apply not_in_join; [done|]. eapply Forall_impl; [exact Hc|]. by intros ? []. }
  cbn [length] in *.
  change (B ":" ++ ?x) with (58 :: x). rewrite rfind_byte_app by done.
  rewrite take_app_length, Ha. simpl.
  replace (drop (length (print_address a) + 1) (print_address a ++ 58 :: _))
    with (join [44] (port_items (S (length rest)) (p :: rest))).
  2: { change (58 :: ?x) with ([58] ++ x). rewrite app_assoc, drop_app_length'; [done|].
       rewrite length_app. simpl. lia. }
  rewrite split_on_join.
  - rewrite Hp. simpl. unfold PortRange_new.
    rewrite merge_sort_strict, dedup_strict by done. done.
  - intros Hnil. rewrite Hnil in Hp. done.
  - eapply Forall_impl; [exact Hc|]. by intros ? [].
Qed.

Lemma port_range_roundtrip_witness :
  ∃ s, print_port_range (mkPortRange (Ipv4 [10; 0; 0; 1]) [80; 81; 443; 444; 445; 65535]) = Ok s ∧
       PortRange_from_str s = Ok (mkPortRange (Ipv4 [10; 0; 0; 1]) [80; 81; 443; 444; 445; 65535]).
Proof.
  apply port_range_roundtrip; [|vm_compute; reflexivity].
  split; [done|]. split; [repeat constructor|].
  repeat constructor; vm_compute; (discriminate || reflexivity).
Defined.

(** *** Masks *)

Lemma forall_keep (P : Z → bool) :
  forallb (λ n, P (Z.of_nat n)) (seq 0 129) = true → ∀ k, 0 ≤ k ≤ 128 → P k = true.
Proof.
  rewrite forallb_forall. intros H k Hk. specialize (H (Z.to_nat k)).
  rewrite Z2Nat.id in H by lia. apply H, in_seq. lia.
Qed.

Lemma mask_of_keep_value k : 0 ≤ k ≤ 128 → mask_of_keep k = 2 ^ 128 - 2 ^ (128 - k).
Proof.
  intros Hk. apply Z.eqb_eq. revert k Hk.
  apply (forall_keep (λ k, mask_of_keep k =? 2 ^ 128 - 2 ^ (128 - k))).
  vm_compute. reflexivity.
Qed.

Lemma mask_bits_of_keep k : 0 ≤ k ≤ 128 → mask_bits (mask_of_keep k) = k.
Proof.
  intros Hk. apply Z.eqb_eq. revert k Hk.
  apply (forall_keep (λ k, mask_bits (mask_of_keep k) =? k)). vm_compute. reflexivity.
Qed.

Lemma land_prefix_mask x c :
  in_width 128 x → 0 ≤ c ≤ 128 → Z.land x (2 ^ 128 - 2 ^ c) = x / 2 ^ c * 2 ^ c.
Proof.
  intros [Hx0 Hx] Hc.
  replace (2 ^ 128 - 2 ^ c) with (Z.shiftl (Z.ones (128 - c)) c).
  2: { rewrite Z.shiftl_mul_pow2, Z.ones_equiv by lia.
       rewrite <- Z.sub_1_r, Z.mul_sub_distr_r, <- Z.pow_add_r by lia.
       replace (128 - c + c) with 128 by lia. lia. }
  rewrite <- Z.shiftr_div_pow2, <- (Z.shiftl_mul_pow2 (Z.shiftr x c)) by lia.
  apply Z.bits_inj'. intros n Hn. rewrite Z.land_spec.
  destruct (Z.lt_ge_cases n c).
  - rewrite !Z.shiftl_spec_low by lia. apply andb_false_r.
  - rewrite !Z.shiftl_spec by lia. rewrite Z.shiftr_spec by lia.
    replace (n - c + c) with n by lia. rewrite Z.testbit_ones_nonneg by lia.
    destruct (Z.ltb_spec (n - c) (128 - c)); [by rewrite andb_true_r|].
    rewrite andb_false_r. symmetry. destruct (decide (x = 0)) as [->|]; [apply Z.bits_0|].
    apply Z.bits_above_log2; [done|]. apply Z.log2_lt_pow2; [lia|].
    eapply Z.lt_le_trans; [exact Hx|]. apply Z.pow_le_mono_r; lia.
Qed.

Lemma masked_eq_iff x y k :
  in_width 128 x → in_width 128 y → 0 ≤ k ≤ 128 →
  Z.land x (mask_of_keep k) = Z.land y (mask_of_keep k) ↔
  x / 2 ^ (128 - k) = y / 2 ^ (128 - k).
Proof.
  intros. rewrite mask_of_keep_value, !land_prefix_mask by (done || lia).
  split; [|by intros ->]. apply Z.mul_reg_r. lia.
Qed.

Lemma keep_bits_range a nb k :
  (∀ n, nb = Some n → 0 ≤ n) → keep_bits a nb = Ok k → 0 ≤ k ≤ 128.
Proof.
  intros Hnb. unfold keep_bits.
  destruct a; destruct nb as [n|]; simpl; repeat case_match; intros; simplify_eq; to_prop;
    try specialize (Hnb _ eq_refl); lia.
Qed.

Lemma Address_from_ok s a : Address_from s = Ok a → addr_ok a.
Proof.
  unfold Address_from. destruct (scan_address s 0 true true true) as [[[dots p4] p6] ph].
  destruct (if p4 && (dots =? 3)%nat then parse_ipv4 s else None) as [o|] eqn:E4.
  { intros [= <-]. destruct (p4 && _); [|done]. by apply parse_ipv4_ok in E4. }
  destruct (if p6 then parse_ipv6 s else None) as [o|] eqn:E6.
  { intros [= <-]. destruct p6; [|done]. by apply parse_ipv6_ok in E6. }
  destruct ph; [|done]. by intros [= <-].
Qed.

Lemma AddressMask_from_inv s m :
  AddressMask_from s = Ok m →
  ∃ t nb k, Address_from t = Ok (am_address m) ∧ keep_bits (am_address m) nb = Ok k ∧
            0 ≤ k ≤ 128 ∧ netmask m = mask_of_keep k ∧ (∀ n, nb = Some n → 0 ≤ n).
Proof.
  unfold AddressMask_from. rewrite outcome_bind_Ok. intros ([t nb]&Hp&H).
  rewrite outcome_bind_Ok in H. destruct H as (a&Ha&H).
  rewrite outcome_bind_Ok in H. destruct H as (k&Hk&[= <-]). simpl.
  assert (∀ n, nb = Some n → 0 ≤ n) as Hnb.
  2: { exists t, nb, k. split_and!; try done; by eapply keep_bits_range in Hk as [? ?]. }
  intros n ->. destruct (rfind_byte 47 s); [|done]. rewrite outcome_bind_Ok in Hp.
  destruct Hp as (n'&Hn&[= <- <-]). unfold ok_or in Hn.
  destruct (parse_uint 8 _) eqn:E; simplify_eq. by apply parse_uint_bound in E as [? _].
Qed.

Lemma Address_from_hostname s h : Address_from s = Ok (Hostname h) → h = s.
Proof.
  unfold Address_from. destruct (scan_address _ _ _ _ _) as [[[d p4] p6] ph].
  repeat case_match; intros; simplify_eq; done.
Qed.

Lemma AddressMask_from_slash a d :
  0 ≤ d < 256 →
  AddressMask_from (print_address a ++ B "/" ++ print_dec d) =
    (a' ← Address_from (print_address a); k ← keep_bits a' (Some d);
     Ok (mkAddressMask a' (mask_of_keep k))).
Proof.
  intros Hd. unfold AddressMask_from. change (B "/" ++ ?x) with (47 :: x).
  rewrite rfind_byte_app by (apply not_in_print_dec; [lia|done]).
  change (47 :: ?x) with ([47] ++ x). rewrite app_assoc.
  rewrite drop_app_length' by (rewrite length_app; simpl; lia).
  rewrite parse_print_dec by done. simpl. by rewrite <- app_assoc, take_app_length.
Qed.

(** A parsed mask keeps exactly the first [keep] of the 128 address bits:
    two addresses compare equal under the mask iff those leading bits agree.
    [keep] is 0 or 97..128 for an IPv4 mask, whose bits sit below the 96-bit
    mapped prefix, 0..128 for IPv6 and 128 for a hostname. *)
Theorem address_mask_is_prefix s m :
  AddressMask_from s = Ok m →
  ∃ keep, 0 ≤ keep ≤ 128 ∧ netmask m = 2 ^ 128 - 2 ^ (128 - keep) ∧
    match am_address m with
    | Ipv4 _ => keep = 0 ∨ 97 ≤ keep
    | Ipv6 _ => True
    | Hostname _ => keep = 128
    end ∧
    ∀ x y, in_width 128 x → in_width 128 y →
      Z.land x (netmask m) = Z.land y (netmask m) ↔
      x / 2 ^ (128 - keep) = y / 2 ^ (128 - keep).
Proof.
  intros (t&nb&k&_&Hk&Hr&Hm&Hnb)%AddressMask_from_inv.
  exists k. rewrite Hm. split; [done|]. split; [by apply mask_of_keep_value|]. split.
  - unfold keep_bits in Hk. destruct (am_address m); repeat case_match; simplify_eq; to_prop; auto.
    destruct nb as [n|]; simplify_eq/=; [|lia]. specialize (Hnb _ eq_refl). lia.
  - intros. by apply masked_eq_iff.
Qed.

Lemma address_mask_is_prefix_witness :
  ∃ keep, 0 ≤ keep ≤ 128 ∧
    netmask (mkAddressMask (Ipv4 [10; 1; 0; 0]) (2 ^ 128 - 2 ^ 16)) =
      2 ^ 128 - 2 ^ (128 - keep) ∧ (keep = 0 ∨ 97 ≤ keep) ∧
    ∀ x y, in_width 128 x → in_width 128 y →
      Z.land x (2 ^ 128 - 2 ^ 16) = Z.land y (2 ^ 128 - 2 ^ 16) ↔
      x / 2 ^ (128 - keep) = y / 2 ^ (128 - keep).
Proof.
  apply (address_mask_is_prefix (B "10.1.0.0/16")
           (mkAddressMask (Ipv4 [10; 1; 0; 0]) (2 ^ 128 - 2 ^ 16))).
  vm_compute. reflexivity.
Defined.

(** The text an IP mask prints as parses back to the same mask, for every
    mask the parser produced and every address whose own text parses back. *)
Theorem ip_mask_roundtrip s m :
  AddressMask_from s = Ok m → hostname (am_address m) = None →
  Address_from (print_address (am_address m)) = Ok (am_address m) →
  AddressMask_from (print_address_mask m) = Ok m.
Proof.
  intros (t&nb&k&_&Hk&Hr&Hm&Hnb)%AddressMask_from_inv Hh Ha.
  unfold print_address_mask. rewrite Hm, mask_bits_of_keep by done.
  destruct m as [a nm]; simpl in *; subst nm. unfold keep_bits in Hk.
  destruct a as [o|o|h]; simplify_eq/=.
  - assert (∃ d, (if 96 <? k then k - 96 else if k =? 0 then 0 else k) = d ∧
      0 ≤ d ≤ 32 ∧ keep_bits (Ipv4 o) (Some d) = Ok k) as (d&->&Hd&Hkd).
    { eexists. split; [reflexivity|]. unfold keep_bits. simpl.
      assert (0 ≤ default 32 nb) by (destruct nb as [n|]; simpl; [by apply Hnb|lia]).
      destruct (Z.ltb_spec 32 (default 32 nb)); [done|].
      destruct (Z.eqb_spec (default 32 nb) 0); simplify_eq; [done|].
      rewrite (proj2 (Z.ltb_lt _ _)) by lia. split; [lia|].
      replace (96 + default 32 nb - 96) with (default 32 nb) by lia.
      rewrite (proj2 (Z.ltb_ge _ _)) by lia.
      destruct (Z.eqb_spec (default 32 nb) 0); [lia|done]. }
    pose proof (AddressMask_from_slash (Ipv4 o) d ltac:(lia)) as Hs. simpl in Hs, Hkd.
    rewrite Hs, Ha. simpl. by rewrite Hkd.
  - pose proof (AddressMask_from_slash (Ipv6 o) k ltac:(lia)) as Hs. simpl in Hs.
    rewrite Hs, Ha. simpl.
    by rewrite (proj2 (Z.ltb_ge _ _)) by lia.
Qed.

Lemma ip_mask_roundtrip_witness :
  AddressMask_from (print_address_mask
    (mkAddressMask (Ipv6 ([253] ++ replicate 15 0)) (2 ^ 128 - 2 ^ 121))) =
  Ok (mkAddressMask (Ipv6 ([253] ++ replicate 15 0)) (2 ^ 128 - 2 ^ 121)).
Proof. apply (ip_mask_roundtrip (B "fd00::/7")); vm_compute; reflexivity. Defined.

(** A hostname mask prints with a [/128] suffix that the parser refuses,
    so what [Serialize] writes for a hostname rule can never be read back. *)
Theorem hostname_mask_text_rejected s m h :
  AddressMask_from s = Ok m → am_address m = Hostname h →
  print_address_mask m = h ++ B "/128" ∧
  AddressMask_from (print_address_mask m) =
    err Other "Cannot specify number of number of netmask bits for hostnames".
Proof.
  intros (t&nb&k&Ht&Hk&Hr&Hm&_)%AddressMask_from_inv Ha. rewrite Ha in *.
  assert (Address_from h = Ok (Hostname h)) as Hh
    by (pose proof (Address_from_hostname _ _ Ht); by subst).
  simpl in Hk. destruct nb; simplify_eq.
  assert (print_address_mask m = print_address (Hostname h) ++ B "/" ++ print_dec 128) as ->.
  { unfold print_address_mask. by rewrite Ha, Hm, mask_bits_of_keep. }
  split; [done|]. by rewrite (AddressMask_from_slash (Hostname h) 128) by done; simpl; rewrite Hh.
Qed.

Lemma hostname_mask_text_rejected_witness :
  print_address_mask (mkAddressMask (Hostname (B "example.com")) u128_max) =
    B "example.com" ++ B "/128" ∧
  AddressMask_from (print_address_mask (mkAddressMask (Hostname (B "example.com")) u128_max)) =
    err Other "Cannot specify number of number of netmask bits for hostnames".
Proof.
  apply (hostname_mask_text_rejected (B "example.com")); vm_compute; reflexivity.
Defined.

End Addr.
