(* ===== verification/NodeMap.v ===== *)
(** * Two-level maps: node tag, then user id

    The tracker keeps every per-user quantity in a
    [HashMap<String, HashMap<u64, V>>] and takes care never to leave an empty
    inner map behind ([node_map], [remove_user_from_node_map] and the
    [is_empty] checks of [src/v2board/tracker.rs]).  This file models those
    maps with stdpp's [gmap], gives the two helpers, and shows that a map
    without empty nodes is determined by its lookups, which is how the
    theorems about the tracker compare states. *)
From S2P Require Import Prelude.

Abbreviation node_users V := (gmap bytes (gmap Z V)).

Section node_map.
Context {V : Type}.
Implicit Types (m : node_users V) (n : gmap Z V).

Definition nlookup m (tag : bytes) (uid : Z) : option V := m !! tag ≫= λ n, n !! uid.

(** [node_map]: borrow the node's map, creating it when it is missing; [f] is
    what the caller does through the borrow. *)
Definition node_map (f : gmap Z V → gmap Z V) m (tag : bytes) : node_users V :=
  <[tag := f (default ∅ (m !! tag))]> m.

(** Store [n] for [tag], dropping the node when [n] is empty. *)
Definition put_node m (tag : bytes) n : node_users V :=
  if decide (n = ∅) then delete tag m else <[tag := n]> m.

Definition remove_user_from_node_map m (tag : bytes) (uid : Z) : node_users V :=
  match m !! tag with
  | Some n => let n := delete uid n in
              if decide (n = ∅) then delete tag m else <[tag := n]> m
  | None => m
  end.

(** [node.retain(|uid, _| keep(uid))], then the empty check. *)
Definition retain_users (keep : Z → bool) m (tag : bytes) : node_users V :=
  match m !! tag with
  | Some n => put_node m tag (filter (λ kv, keep (kv.1) = true) n)
  | None => m
  end.

Definition nm_wf m : Prop := ∀ tag n, m !! tag = Some n → n ≠ ∅.

Lemma nlookup_empty tag uid : nlookup ∅ tag uid = None.
Proof. unfold nlookup. by rewrite lookup_empty. Qed.

Lemma nlookup_node_map f m tag tag' uid :
  nlookup (node_map f m tag) tag' uid =
    if decide (tag = tag') then f (default ∅ (m !! tag)) !! uid else nlookup m tag' uid.
Proof. unfold nlookup, node_map. rewrite lookup_insert. by case_decide. Qed.

Lemma default_lookup m tag uid : default ∅ (m !! tag) !! uid = nlookup m tag uid.
Proof. unfold nlookup. destruct (m !! tag); simpl; [done|by rewrite lookup_empty]. Qed.

Lemma nlookup_node_insert m tag uid v tag' uid' :
  nlookup (node_map (<[uid := v]>) m tag) tag' uid' =
    if decide (tag = tag' ∧ uid = uid') then Some v else nlookup m tag' uid'.
Proof.
  rewrite nlookup_node_map. destruct (decide (tag = tag')) as [->|Ht].
  - rewrite lookup_insert. repeat case_decide; naive_solver (apply default_lookup || done).
  - by rewrite decide_False by naive_solver.
Qed.

Lemma nlookup_put_node m tag n tag' uid :
  nlookup (put_node m tag n) tag' uid =
    if decide (tag = tag') then n !! uid else nlookup m tag' uid.
Proof.
  unfold nlookup, put_node. destruct (decide (n = ∅)) as [->|].
  - rewrite lookup_delete. case_decide; [by rewrite lookup_empty|done].
  - rewrite lookup_insert. by case_decide.
Qed.

Lemma put_node_wf m tag n : nm_wf m → nm_wf (put_node m tag n).
Proof.
  intros Hwf tag' n'. unfold put_node. destruct (decide (n = ∅)).
  - rewrite lookup_delete. case_decide; [done|apply Hwf].
  - rewrite lookup_insert. case_decide; [by intros [= <-]|apply Hwf].
Qed.

Lemma node_insert_wf m tag uid v : nm_wf m → nm_wf (node_map (<[uid := v]>) m tag).
Proof.
  intros Hwf tag' n'. unfold node_map. rewrite lookup_insert. case_decide; [|apply Hwf].
  intros [= <-]. apply insert_non_empty.
Qed.

Lemma remove_user_put_node m tag uid :
  remove_user_from_node_map m tag uid =
    match m !! tag with Some n => put_node m tag (delete uid n) | None => m end.
Proof. done. Qed.

Lemma nlookup_remove_user m tag uid tag' uid' :
  nlookup (remove_user_from_node_map m tag uid) tag' uid' =
    if decide (tag = tag' ∧ uid = uid') then None else nlookup m tag' uid'.
Proof.
  rewrite remove_user_put_node. destruct (m !! tag) as [n|] eqn:E.
  - rewrite nlookup_put_node. destruct (decide (tag = tag')) as [->|];
      [|by rewrite decide_False by naive_solver].
    rewrite lookup_delete. unfold nlookup. rewrite E. simpl. repeat case_decide; naive_solver.
  - case_decide as Hd; [|done]. destruct Hd as [-> ->]. unfold nlookup. by rewrite E.
Qed.

Lemma remove_user_wf m tag uid : nm_wf m → nm_wf (remove_user_from_node_map m tag uid).
Proof.
  intros. rewrite remove_user_put_node. destruct (m !! tag); [by apply put_node_wf|done].
Qed.

Lemma nlookup_retain keep m tag tag' uid :
  nlookup (retain_users keep m tag) tag' uid =
    if decide (tag = tag' ∧ keep uid = false) then None else nlookup m tag' uid.
Proof.
  unfold retain_users. destruct (m !! tag) as [n|] eqn:E.
  - rewrite nlookup_put_node. destruct (decide (tag = tag')) as [->|];
      [|by rewrite decide_False by naive_solver].
    unfold nlookup. rewrite E. simpl.
    destruct (keep uid) eqn:Ek.
    + rewrite decide_False by naive_solver. destruct (n !! uid) as [v|] eqn:En.
      * by apply map_lookup_filter_Some.
      * apply map_lookup_filter_None. by left.
    + rewrite decide_True by done. apply map_lookup_filter_None. right.
      intros v _. simpl. congruence.
  - case_decide as Hd; [|done]. destruct Hd as [-> _]. unfold nlookup. by rewrite E.
Qed.

Lemma retain_wf keep m tag : nm_wf m → nm_wf (retain_users keep m tag).
Proof. intros. unfold retain_users. destruct (m !! tag); [by apply put_node_wf|done]. Qed.

Lemma nm_eq m1 m2 :
  nm_wf m1 → nm_wf m2 → (∀ tag uid, nlookup m1 tag uid = nlookup m2 tag uid) → m1 = m2.
Proof.
  intros H1 H2 Heq. apply map_eq. intros tag.
  destruct (m1 !! tag) as [n1|] eqn:E1, (m2 !! tag) as [n2|] eqn:E2; [|exfalso..|done].
  - f_equal. apply map_eq. intros uid. specialize (Heq tag uid).
    unfold nlookup in Heq. by rewrite E1, E2 in Heq.
  - apply (H1 _ _ E1), map_eq. intros uid. specialize (Heq tag uid).
    unfold nlookup in Heq. rewrite E1, E2 in Heq. simpl in Heq. by rewrite Heq, lookup_empty.
  - apply (H2 _ _ E2), map_eq. intros uid. specialize (Heq tag uid).
    unfold nlookup in Heq. rewrite E1, E2 in Heq. simpl in Heq. by rewrite <- Heq, lookup_empty.
Qed.

Lemma nm_wf_empty : nm_wf ∅.
Proof. intros tag n. by rewrite lookup_empty. Qed.

Lemma nlookup_Some m tag uid v :
  nlookup m tag uid = Some v ↔ ∃ n, m !! tag = Some n ∧ n !! uid = Some v.
Proof. unfold nlookup. destruct (m !! tag); naive_solver. Qed.

Lemma nlookup_Forall (P : Z → V → Prop) m :
  map_Forall (λ tag n, map_Forall (λ uid v, P uid v) n) m ↔
  ∀ tag uid v, nlookup m tag uid = Some v → P uid v.
Proof.
  split.
  - intros H tag uid v (n&Hn&Hv)%nlookup_Some. by apply (H tag n Hn uid v).
  - intros H tag n Hn uid v Hv. apply (H tag). apply nlookup_Some. eauto.
Qed.

End node_map.

Arguments nm_wf {V} m.
#[export] Hint Resolve nm_wf_empty put_node_wf node_insert_wf remove_user_wf retain_wf : shoes.
