(* ===== verification/Tracker.v ===== *)
(** * Traffic and device accounting ([src/v2board/tracker.rs])

    The tracker keeps, per node tag and user id, the traffic not yet reported
    to the panel, the live client addresses with their connection counts, the
    traffic since the last alive report and the panel's own device counts,
    spread over 32 shards by user id.  The file models every operation of
    [TrafficTracker] and of its [TrafficRecorder] implementation, and the
    traffic half of [NodeController::push] in [src/app.rs].

    A [HashMap] is a [gmap]; where the code iterates over one, the model
    iterates over [map_to_list], and [snapshot_node_any_order] shows that the
    order does not matter.  The per-address connection count is a [u64] that
    counts live connections; it is modelled without its wrap at [2^64].
    [serde_json::to_writer] is a parameter of the encoder. *)
From S2P Require Import Prelude Text NodeMap Address.
Import Net.
Local Open Scope Z_scope.

Module Tracker.

Definition SHARD_COUNT : nat := 32.
Definition FLUSH_THROTTLE_MILLIS : Z := 2000.

Record TrafficCounter := mkCounter { upload : Z; download : Z }.
Definition counter_default : TrafficCounter := mkCounter 0 0.

#[global] Instance TrafficCounter_eq_dec : EqDecision TrafficCounter.
Proof. solve_decision. Defined.

Record TrackerState := mkState {
  traffic : node_users TrafficCounter;
  alive : node_users (gmap IpAddr Z);
  alive_traffic : node_users Z;
  panel_alive : node_users Z;
}.
Definition state_default : TrackerState := mkState ∅ ∅ ∅ ∅.

Record TrafficTracker := mkTracker {
  shards : list TrackerState;
  last_flush : Z;
}.

Abbreviation TrafficPayload := (gmap bytes (Z * Z)).
Abbreviation AlivePayload := (gmap bytes (list bytes)).

Record AliveSnapshot := mkAlive { alive_payload : AlivePayload; consumed_traffic : gmap Z Z }.

Definition alive_is_empty (a : AliveSnapshot) : bool := bool_decide (alive_payload a = ∅).

Record TrafficNodeSnapshot := mkNode { node_tag : bytes; users : list (Z * TrafficCounter) }.

(** [uid as usize & (SHARD_COUNT - 1)] *)
Definition shard_index (uid : Z) : nat := Z.to_nat (Z.land uid 31).

Definition empty : TrafficTracker := mkTracker (replicate SHARD_COUNT state_default) 0.

(** The state behind the lock of the user's shard. *)
Definition shard (t : TrafficTracker) (uid : Z) : TrackerState :=
  default state_default (shards t !! shard_index uid).

Definition with_shard (t : TrafficTracker) (uid : Z) (f : TrackerState → TrackerState) :
    TrafficTracker :=
  mkTracker (alter f (shard_index uid) (shards t)) (last_flush t).

(** [entry(uid).or_default()] followed by the two saturating additions *)
Definition bump_counter (uid up down : Z) (n : gmap Z TrafficCounter) : gmap Z TrafficCounter :=
  let c := default counter_default (n !! uid) in
  <[uid := mkCounter (sat_add (upload c) up) (sat_add (download c) down)]> n.

(** ** Traffic *)

Definition add_traffic_state (tag : bytes) (uid up down : Z) (s : TrackerState) : TrackerState :=
  let traffic' := node_map (bump_counter uid up down) (traffic s) tag in
  let is_alive :=
    match nlookup (alive s) tag uid with
    | Some ips => negb (bool_decide (ips = ∅))
    | None => false
    end in
  let alive_traffic' :=
    if is_alive
    then node_map (λ n, <[uid := sat_add (default 0 (n !! uid)) (sat_add up down)]> n)
           (alive_traffic s) tag
    else alive_traffic s in
  mkState traffic' (alive s) alive_traffic' (panel_alive s).

Definition add_traffic (t : TrafficTracker) (tag : bytes) (uid up down : Z) : TrafficTracker :=
  if (up =? 0) && (down =? 0) then t
  else with_shard t uid (add_traffic_state tag uid up down).

Definition reportable (min_traffic : Z) (c : TrafficCounter) : bool :=
  let total := sat_add (upload c) (download c) in (min_traffic <=? total) && (0 <? total).

(** One turn of the loop over [node.iter_mut()]. *)
Definition snapshot_entry (min_traffic : Z)
    (acc : TrafficPayload * gmap Z TrafficCounter * list Z) (e : Z * TrafficCounter) :=
  let '(payload, node, remove) := acc in
  let '(uid, counter) := e in
  let '(payload, counter) :=
    if reportable min_traffic counter
    then (<[print_dec uid := (upload counter, download counter)]> payload, counter_default)
    else (payload, counter) in
  let node := <[uid := counter]> node in
  let remove :=
    if (upload counter =? 0) && (download counter =? 0) then remove ++ [uid] else remove in
  (payload, node, remove).

(** The node's loop in the iteration order [order], then the removals. *)
Definition snapshot_node (min_traffic : Z) (order : list (Z * TrafficCounter))
    (payload : TrafficPayload) (node : gmap Z TrafficCounter) :
    TrafficPayload * gmap Z TrafficCounter :=
  let '(payload, node, remove) :=
    foldl (snapshot_entry min_traffic) (payload, node, []) order in
  (payload, foldl (λ n uid, delete uid n) node remove).

Definition snapshot_shard (tag : bytes) (min_traffic : Z) (payload : TrafficPayload)
    (s : TrackerState) : TrafficPayload * TrackerState :=
  match traffic s !! tag with
  | None => (payload, s)
  | Some node =>
      let '(payload, node) := snapshot_node min_traffic (map_to_list node) payload node in
      (payload, mkState (put_node (traffic s) tag node) (alive s) (alive_traffic s)
                  (panel_alive s))
  end.

(** [for shard in self.shards.iter()] with an accumulator *)
Fixpoint fold_shards {A} (f : A → TrackerState → A * TrackerState) (a : A)
    (ss : list TrackerState) : A * list TrackerState :=
  match ss with
  | [] => (a, [])
  | s :: ss =>
      let '(a, s) := f a s in
      let '(a, ss) := fold_shards f a ss in (a, s :: ss)
  end.

Definition snapshot_traffic (t : TrafficTracker) (tag : bytes) (min_traffic : Z) :
    TrafficPayload * TrafficTracker :=
  let '(payload, ss) := fold_shards (snapshot_shard tag min_traffic) ∅ (shards t) in
  (payload, mkTracker ss (last_flush t)).

Definition restore_entry (tag : bytes) (t : TrafficTracker) (e : bytes * (Z * Z)) :
    TrafficTracker :=
  let '(uid, (up, down)) := e in
  match parse_uint 64 uid with
  | None => t
  | Some uid =>
      with_shard t uid (λ s,
        mkState (node_map (bump_counter uid up down) (traffic s) tag) (alive s)
          (alive_traffic s) (panel_alive s))
  end.

Definition restore_traffic (t : TrafficTracker) (tag : bytes) (payload : TrafficPayload) :
    TrafficTracker :=
  foldl (restore_entry tag) t (map_to_list payload).

(** The traffic half of [NodeController::push]: what the panel was told, and
    the tracker afterwards; [accepted] is whether [push_traffic] succeeded. *)
Definition push_traffic (t : TrafficTracker) (tag : bytes) (min_traffic : Z) (accepted : bool) :
    TrafficPayload * TrafficTracker :=
  let '(payload, t') := snapshot_traffic t tag min_traffic in
  if bool_decide (payload = ∅) then (∅, t')
  else if accepted then (payload, t')
  else (∅, restore_traffic t' tag payload).

(** ** Live addresses *)

Definition over_limit (device_limit : option Z) (n : Z) : bool :=
  match device_limit with Some limit => (0 <? limit) && (limit <=? n) | None => false end.

Definition add_alive_state (tag : bytes) (uid : Z) (ip : IpAddr) (device_limit : option Z)
    (s : TrackerState) : bool * TrackerState :=
  let already_local :=
    match nlookup (alive s) tag uid with
    | Some ips => bool_decide (is_Some (ips !! ip))
    | None => false
    end in
  if negb already_local && over_limit device_limit (default 0 (nlookup (panel_alive s) tag uid))
  then (false, s)
  else
    let node := default ∅ (alive s !! tag) in
    let ips : gmap IpAddr Z := default ∅ (node !! uid) in
    let set_ips ips :=
      mkState (traffic s) (<[tag := <[uid := ips]> node]> (alive s)) (alive_traffic s)
        (panel_alive s) in
    if negb (bool_decide (is_Some (ips !! ip)))
       && over_limit device_limit (Z.of_nat (size ips))
    then (false, set_ips ips)
    else (true, set_ips (<[ip := default 0 (ips !! ip) + 1]> ips)).

Definition add_alive_ip_and_check_limit (t : TrafficTracker) (tag : bytes) (uid : Z)
    (ip : IpAddr) (device_limit : option Z) : bool * TrafficTracker :=
  (fst (add_alive_state tag uid ip device_limit (shard t uid)),
   with_shard t uid (λ s, snd (add_alive_state tag uid ip device_limit s))).

Definition remove_alive_state (tag : bytes) (uid : Z) (ip : IpAddr) (s : TrackerState) :
    TrackerState :=
  match alive s !! tag with
  | Some node =>
      match node !! uid with
      | Some ips =>
          let ips :=
            match ips !! ip with
            | Some count =>
                let count := sat_sub count 1 in
                if count =? 0 then delete ip ips else <[ip := count]> ips
            | None => ips
            end in
          let remove_user := bool_decide (ips = ∅) in
          let node := if remove_user then delete uid node else <[uid := ips]> node in
          mkState (traffic s) (put_node (alive s) tag node)
            (if remove_user then remove_user_from_node_map (alive_traffic s) tag uid
             else alive_traffic s)
            (panel_alive s)
      | None => s
      end
  | None => s
  end.

Definition remove_alive_ip (t : TrafficTracker) (tag : bytes) (uid : Z) (ip : IpAddr) :
    TrafficTracker :=
  with_shard t uid (remove_alive_state tag uid ip).

Definition alive_entry (tag : bytes) (node_id min_traffic : Z) (s : TrackerState)
    (e : Z * gmap IpAddr Z) : option (Z * Z * list bytes) :=
  let '(uid, ips) := e in
  if bool_decide (ips = ∅) then None
  else
    let traffic := default 0 (nlookup (alive_traffic s) tag uid) in
    if traffic <? min_traffic then None
    else Some (uid, traffic,
               (λ p : IpAddr * Z, print_ip (fst p) ++ B "_" ++ print_dec node_id)
                 <$> map_to_list ips).

Definition collect_alive (t : TrafficTracker) (tag : bytes) (node_id min_traffic : Z) :
    list (Z * Z * list bytes) :=
  shards t ≫= λ s,
    match alive s !! tag with
    | Some node => omap (alive_entry tag node_id min_traffic s) (map_to_list node)
    | None => []
    end.

(** [.collect::<HashMap<_, _>>()]: a later entry replaces an earlier one. *)
Definition collect_map `{Countable K} {A} (l : list (K * A)) : gmap K A :=
  foldl (λ m e, <[fst e := snd e]> m) ∅ l.

Definition snapshot_alive (t : TrafficTracker) (tag : bytes) (node_id min_traffic : Z) :
    AliveSnapshot :=
  let collected := collect_alive t tag node_id min_traffic in
  mkAlive (collect_map ((λ e : Z * Z * list bytes, (print_dec (fst (fst e)), snd e)) <$> collected))
          (collect_map (fst <$> collected)).

Definition commit_entry (tag : bytes) (t : TrafficTracker) (e : Z * Z) : TrafficTracker :=
  let '(uid, consumed) := e in
  with_shard t uid (λ s,
    match alive_traffic s !! tag with
    | None => s
    | Some node_traffic =>
        let node_traffic :=
          match node_traffic !! uid with
          | Some current =>
              let current := sat_sub current consumed in
              if current =? 0 then delete uid node_traffic
              else <[uid := current]> node_traffic
          | None => node_traffic
          end in
        mkState (traffic s) (alive s) (put_node (alive_traffic s) tag node_traffic)
          (panel_alive s)
    end).

Definition commit_alive_snapshot (t : TrafficTracker) (tag : bytes) (a : AliveSnapshot) :
    TrafficTracker :=
  if bool_decide (consumed_traffic a = ∅) then t
  else foldl (commit_entry tag) t (map_to_list (consumed_traffic a)).

(** ** The panel's view and the user list *)

Definition split_by_shard (al : gmap Z Z) : list (gmap Z Z) :=
  foldl (λ v e, alter (<[fst e := snd e]>) (shard_index (fst e)) v)
    (replicate SHARD_COUNT ∅) (map_to_list al).

Definition replace_panel_alive (t : TrafficTracker) (tag : bytes) (al : gmap Z Z) :
    TrafficTracker :=
  mkTracker
    (zip_with (λ s subset,
       mkState (traffic s) (alive s) (alive_traffic s) (put_node (panel_alive s) tag subset))
       (shards t) (split_by_shard al))
    (last_flush t).

Definition reconcile_state (tag : bytes) (active_uids : gset Z) (s : TrackerState) :
    TrackerState :=
  let keep uid := bool_decide (uid ∈ active_uids) in
  mkState (retain_users keep (traffic s) tag) (retain_users keep (alive s) tag)
    (retain_users keep (alive_traffic s) tag) (retain_users keep (panel_alive s) tag).

Definition reconcile_users (t : TrafficTracker) (tag : bytes) (active_uids : gset Z) :
    TrafficTracker :=
  mkTracker (reconcile_state tag active_uids <$> shards t) (last_flush t).

Definition remove_user_state (tag : bytes) (uid : Z) (s : TrackerState) : TrackerState :=
  mkState (remove_user_from_node_map (traffic s) tag uid)
    (remove_user_from_node_map (alive s) tag uid)
    (remove_user_from_node_map (alive_traffic s) tag uid)
    (remove_user_from_node_map (panel_alive s) tag uid).

Definition remove_users (t : TrafficTracker) (tag : bytes) (removed : list Z) : TrafficTracker :=
  foldl (λ t uid, with_shard t uid (remove_user_state tag uid)) t removed.

(** ** The restart snapshot *)

(** [String]'s order is the lexicographic order of the bytes. *)
Fixpoint str_leb (a b : bytes) : bool :=
  match a, b with
  | [], _ => true
  | _ :: _, [] => false
  | x :: a, y :: b => if x =? y then str_leb a b else x <? y
  end.
Definition tag_le (a b : TrafficNodeSnapshot) : Prop :=
  str_leb (node_tag a) (node_tag b) = true.
#[global] Instance tag_le_dec a b : Decision (tag_le a b).
Proof. unfold tag_le. apply _. Defined.

Definition capture_traffic_snapshot (t : TrafficTracker) : list TrafficNodeSnapshot :=
  let nodes := shards t ≫= λ s,
    (λ p : bytes * gmap Z TrafficCounter, mkNode (fst p) (map_to_list (snd p)))
      <$> map_to_list (traffic s) in
  merge_sort tag_le nodes.

(** The inner [while]: the users of the adjacent nodes that carry [tag], and
    the nodes after them. *)
Fixpoint same_tag (tag : bytes) (nodes : list TrafficNodeSnapshot) :
    list (Z * TrafficCounter) * list TrafficNodeSnapshot :=
  match nodes with
  | n :: rest =>
      if bool_decide (node_tag n = tag)
      then let '(us, rest) := same_tag tag rest in (users n ++ us, rest)
      else ([], nodes)
  | [] => ([], [])
  end.

(** The objects the encoder opens, in order: a node key and its user entries. *)
Fixpoint json_nodes (fuel : nat) (nodes : list TrafficNodeSnapshot) :
    list (bytes * list (Z * TrafficCounter)) :=
  match fuel, nodes with
  | S fuel, n :: _ =>
      let '(us, rest) := same_tag (node_tag n) nodes in
      (node_tag n, us) :: json_nodes fuel rest
  | _, _ => []
  end.

Definition encode_traffic_snapshot (json_str : bytes → bytes)
    (json_counter : TrafficCounter → bytes) (nodes : list TrafficNodeSnapshot) : bytes :=
  let user (u : Z * TrafficCounter) :=
    json_str (print_dec (fst u)) ++ B ":" ++ json_counter (snd u) in
  let node (n : bytes * list (Z * TrafficCounter)) :=
    json_str (fst n) ++ B ":" ++ B "{" ++ join (B ",") (user <$> snd n) ++ B "}" in
  [123; 34] ++ B "traffic" ++ [34; 58; 123] ++
  join (B ",") (node <$> json_nodes (length nodes) nodes) ++ B "}}".

(** [TrafficTracker::new] on the decoded file: spread it over the shards. *)
Definition load_entry (tag : bytes) (t : TrafficTracker) (u : Z * TrafficCounter) :
    TrafficTracker :=
  with_shard t (fst u) (λ s,
    mkState (node_map (<[fst u := snd u]>) (traffic s) tag) (alive s) (alive_traffic s)
      (panel_alive s)).

Definition load (state_traffic : node_users TrafficCounter) : TrafficTracker :=
  foldl (λ t n, foldl (load_entry (fst n)) t (map_to_list (snd n)))
    empty (map_to_list state_traffic).

(** [flush_pending_traffic]: whether this close writes a snapshot, with the
    [compare_exchange] that claims the window; [now] is the wall clock. *)
Definition flush_pending_traffic (t : TrafficTracker) (now : Z) :
    option (list TrafficNodeSnapshot) * TrafficTracker :=
  if sat_sub now (last_flush t) <? FLUSH_THROTTLE_MILLIS then (None, t)
  else (Some (capture_traffic_snapshot t), mkTracker (shards t) now).

End Tracker.
