(* ===== verification/TrackerFacts.v ===== *)
(** * What the tracker guarantees

    The invariant of the sharded state, the behaviour of each operation of
    [Tracker] as seen through the per-user views, and the theorems about
    traces of operations: the device limit, the conservation of traffic, the
    agreement of the delta and full user updates, and the restart snapshot. *)
From S2P Require Import Prelude Text NodeMap Address Tracker.
Import Net Tracker.
Local Open Scope Z_scope.

(** ** Views of one user *)

Definition traffic_of (t : TrafficTracker) (tag : bytes) (uid : Z) : option TrafficCounter :=
  nlookup (traffic (shard t uid)) tag uid.
Definition alive_of (t : TrafficTracker) (tag : bytes) (uid : Z) : option (gmap IpAddr Z) :=
  nlookup (alive (shard t uid)) tag uid.
Definition alive_traffic_of (t : TrafficTracker) (tag : bytes) (uid : Z) : option Z :=
  nlookup (alive_traffic (shard t uid)) tag uid.
Definition panel_of (t : TrafficTracker) (tag : bytes) (uid : Z) : option Z :=
  nlookup (panel_alive (shard t uid)) tag uid.

(** The distinct client addresses a user has open on a node. *)
Definition devices (t : TrafficTracker) (tag : bytes) (uid : Z) : Z :=
  Z.of_nat (size (default ∅ (alive_of t tag uid))).

(** ** The invariant *)

Definition home (i : nat) (uid : Z) : Prop := in_width 64 uid ∧ shard_index uid = i.

Definition counter_ok (c : TrafficCounter) : Prop :=
  0 ≤ upload c ≤ u64_max ∧ 0 ≤ download c ≤ u64_max ∧ 0 < upload c + download c.

Definition ips_ok (ips : gmap IpAddr Z) : Prop := ips ≠ ∅ ∧ map_Forall (λ _ n, 0 < n) ips.

Record wf_state (i : nat) (s : TrackerState) : Prop := {
  wf_traffic_nodes : nm_wf (traffic s);
  wf_alive_nodes : nm_wf (alive s);
  wf_alive_traffic_nodes : nm_wf (alive_traffic s);
  wf_panel_nodes : nm_wf (panel_alive s);
  wf_traffic tag uid c : nlookup (traffic s) tag uid = Some c → home i uid ∧ counter_ok c;
  wf_alive tag uid ips : nlookup (alive s) tag uid = Some ips → home i uid ∧ ips_ok ips;
  wf_alive_traffic tag uid n :
    nlookup (alive_traffic s) tag uid = Some n → is_Some (nlookup (alive s) tag uid);
  wf_panel tag uid n : nlookup (panel_alive s) tag uid = Some n → home i uid;
}.

Record wf (t : TrafficTracker) : Prop := {
  wf_length : length (shards t) = SHARD_COUNT;
  wf_shards i s : shards t !! i = Some s → wf_state i s;
}.

(** ** Shards *)

Lemma shard_index_lt uid : (shard_index uid < SHARD_COUNT)%nat.
Proof.
  unfold shard_index, SHARD_COUNT. change 31 with (Z.ones 5).
  rewrite Z.land_ones by lia. pose proof (Z.mod_pos_bound uid (2 ^ 5)). lia.
Qed.

Lemma shard_lookup t uid : wf t → shards t !! shard_index uid = Some (shard t uid).
Proof.
  intros Hwf. destruct (lookup_lt_is_Some_2 (shards t) (shard_index uid)) as [s Hs].
  { rewrite (wf_length t Hwf). apply shard_index_lt. }
  unfold shard. by rewrite Hs.
Qed.

Lemma shard_wf t uid : wf t → wf_state (shard_index uid) (shard t uid).
Proof. intros Hwf. apply (wf_shards t Hwf). by apply shard_lookup. Qed.

Lemma shard_with_shard t u f v :
  wf t →
  shard (with_shard t u f) v =
    if decide (shard_index u = shard_index v) then f (shard t v) else shard t v.
Proof.
  intros Hwf. unfold shard at 1, with_shard. simpl. case_decide as Hi.
  - rewrite Hi, list_lookup_alter_eq, (shard_lookup t v Hwf). done.
  - by rewrite list_lookup_alter_ne by done.
Qed.

Lemma with_shard_wf t u f :
  wf t → (∀ s, wf_state (shard_index u) s → wf_state (shard_index u) (f s)) →
  wf (with_shard t u f).
Proof.
  intros Hwf Hf. split; simpl.
  - rewrite length_alter. apply Hwf.
  - intros i s Hs. destruct (decide (i = shard_index u)) as [->|].
    + rewrite list_lookup_alter_eq in Hs. rewrite (shard_lookup t u Hwf) in Hs.
      injection Hs as <-. by apply Hf, shard_wf.
    + rewrite list_lookup_alter_ne in Hs by done. by apply (wf_shards t Hwf).
Qed.

(** A two-level map of shard [i] is determined by the lookups of the users
    whose home is shard [i]. *)
Lemma shard_map_eq {V} (i : nat) (m1 m2 : node_users V) :
  nm_wf m1 → nm_wf m2 →
  (∀ tag uid v, nlookup m1 tag uid = Some v → home i uid) →
  (∀ tag uid v, nlookup m2 tag uid = Some v → home i uid) →
  (∀ tag uid, shard_index uid = i → nlookup m1 tag uid = nlookup m2 tag uid) → m1 = m2.
Proof.
  intros ?? G1 G2 Hv. apply nm_eq; [done..|]. intros tag uid.
  destruct (decide (shard_index uid = i)) as [Hu|Hu]; [by apply Hv|].
  destruct (nlookup m1 tag uid) eqn:L1; [by destruct (G1 _ _ _ L1)|].
  destruct (nlookup m2 tag uid) eqn:L2; [by destruct (G2 _ _ _ L2)|done].
Qed.

Lemma wf_alive_traffic_home i s tag uid n :
  wf_state i s → nlookup (alive_traffic s) tag uid = Some n → home i uid.
Proof.
  intros Hs Hn. destruct (wf_alive_traffic _ _ Hs _ _ _ Hn) as [ips Hips].
  by destruct (wf_alive _ _ Hs _ _ _ Hips).
Qed.

(** Two trackers that satisfy the invariant are equal when no view tells them
    apart. *)
Lemma tracker_eq t1 t2 :
  wf t1 → wf t2 → last_flush t1 = last_flush t2 →
  (∀ tag uid, traffic_of t1 tag uid = traffic_of t2 tag uid) →
  (∀ tag uid, alive_of t1 tag uid = alive_of t2 tag uid) →
  (∀ tag uid, alive_traffic_of t1 tag uid = alive_traffic_of t2 tag uid) →
  (∀ tag uid, panel_of t1 tag uid = panel_of t2 tag uid) → t1 = t2.
Proof.
  intros H1 H2 Hl Ht Ha Hat Hp.
  assert (shards t1 = shards t2) as Hs;
    [|destruct t1, t2; simpl in *; congruence].
  apply (list_eq_same_length _ _ SHARD_COUNT); [apply H2|apply H1|].
  intros i s1 s2 Hi E1 E2.
  pose proof (wf_shards _ H1 _ _ E1) as W1. pose proof (wf_shards _ H2 _ _ E2) as W2.
  assert (∀ uid, shard_index uid = i → shard t1 uid = s1 ∧ shard t2 uid = s2) as Hsh.
  { intros uid <-. rewrite (shard_lookup t1 uid H1) in E1.
    rewrite (shard_lookup t2 uid H2) in E2. naive_solver. }
  assert (traffic s1 = traffic s2 ∧ alive s1 = alive s2 ∧
          alive_traffic s1 = alive_traffic s2 ∧ panel_alive s1 = panel_alive s2)
    as (?&?&?&?); [|destruct s1, s2; simpl in *; congruence].
  split_and!; apply (shard_map_eq i); try apply W1; try apply W2;
    try (intros tag uid v; by apply wf_alive_traffic_home);
    try (intros tag uid v Hv; by eapply (wf_traffic _ _ W1) || eapply (wf_traffic _ _ W2)
         || eapply (wf_alive _ _ W1) || eapply (wf_alive _ _ W2));
    intros tag uid Hu; destruct (Hsh uid Hu) as [<- <-];
    [apply Ht|apply Ha|apply Hat|apply Hp].
Qed.

(** ** Adding and restoring traffic *)

Definition bump (c : TrafficCounter) (up down : Z) : TrafficCounter :=
  mkCounter (sat_add (upload c) up) (sat_add (download c) down).

Definition amount_ok (up down : Z) : Prop :=
  0 ≤ up ≤ u64_max ∧ 0 ≤ down ≤ u64_max ∧ 0 < up + down.

Lemma node_map_bump m tag uid up down :
  node_map (bump_counter uid up down) m tag =
  node_map (<[uid := bump (default counter_default (nlookup m tag uid)) up down]>) m tag.
Proof. unfold node_map, bump_counter. by rewrite default_lookup. Qed.

Lemma bump_ok (o : option TrafficCounter) up down :
  (∀ c, o = Some c → counter_ok c) → amount_ok up down →
  counter_ok (bump (default counter_default o) up down).
Proof.
  intros Ho (?&?&?). unfold counter_ok, bump, sat_add, u64_max in *.
  destruct o as [c|]; simpl; [destruct (Ho c eq_refl) as (?&?&?)|]; lia.
Qed.

Lemma wf_state_traffic i s m :
  wf_state i s → nm_wf m →
  (∀ tag uid c, nlookup m tag uid = Some c → home i uid ∧ counter_ok c) →
  wf_state i (mkState m (alive s) (alive_traffic s) (panel_alive s)).
Proof. intros [] ??. by constructor. Qed.

Lemma wf_state_bump s tag uid up down :
  wf_state (shard_index uid) s → in_width 64 uid → amount_ok up down →
  wf_state (shard_index uid)
    (mkState (node_map (bump_counter uid up down) (traffic s) tag) (alive s)
       (alive_traffic s) (panel_alive s)).
Proof.
  intros Hs Hu Ha. rewrite node_map_bump. apply wf_state_traffic; [done| |].
  - apply node_insert_wf, Hs.
  - intros tag' uid' c. rewrite nlookup_node_insert. case_decide as Hd; [|apply Hs].
    intros [= <-]. destruct Hd as [_ <-]. split; [done|]. apply bump_ok; [|done].
    intros c Hc. by apply (wf_traffic _ _ Hs _ _ _ Hc).
Qed.

Lemma add_traffic_state_wf s tag uid up down :
  wf_state (shard_index uid) s → in_width 64 uid → amount_ok up down →
  wf_state (shard_index uid) (add_traffic_state tag uid up down s).
Proof.
  intros Hs Hu Ha. destruct (wf_state_bump s tag uid up down Hs Hu Ha) as [].
  unfold add_traffic_state. destruct (nlookup (alive s) tag uid) as [ips|] eqn:E; simpl;
    [|by constructor]. case_bool_decide; simpl; [by constructor|].
  set (n := node_map _ (alive_traffic s) tag).
  assert (n = node_map (<[uid := sat_add (default 0 (nlookup (alive_traffic s) tag uid))
                                  (sat_add up down)]>) (alive_traffic s) tag) as ->.
  { unfold n, node_map. by rewrite default_lookup. }
  constructor; try done; [by apply node_insert_wf|].
  intros tag' uid' n' Hn. simpl in *. rewrite nlookup_node_insert in Hn.
  case_decide as Hd; [destruct Hd as [-> ->]; eauto|by eapply wf_alive_traffic0].
Qed.

Lemma add_traffic_wf t tag uid up down :
  wf t → in_width 64 uid → 0 ≤ up ≤ u64_max → 0 ≤ down ≤ u64_max →
  wf (add_traffic t tag uid up down).
Proof.
  intros Hwf Hu H1 H2. unfold add_traffic. destruct ((up =? 0) && (down =? 0)) eqn:E; [done|].
  apply with_shard_wf; [done|]. intros s Hs. apply add_traffic_state_wf; [done..|].
  unfold amount_ok. to_prop; lia.
Qed.

(** What a change of the traffic of one user does to the traffic views. *)
Lemma traffic_of_bump t tag uid up down f tag' uid' :
  wf t →
  (∀ s, traffic (f s) = node_map (bump_counter uid up down) (traffic s) tag) →
  traffic_of (with_shard t uid f) tag' uid' =
    if decide (tag = tag' ∧ uid = uid')
    then Some (bump (default counter_default (traffic_of t tag uid)) up down)
    else traffic_of t tag' uid'.
Proof.
  intros Hwf Hf. unfold traffic_of. rewrite shard_with_shard by done.
  destruct (decide (shard_index uid = shard_index uid')) as [Hi|Hi].
  - rewrite Hf, node_map_bump, nlookup_node_insert. case_decide as Hd; [|done].
    destruct Hd as [-> ->]. done.
  - rewrite decide_False; [done|]. intros [-> ->]. done.
Qed.

Lemma traffic_of_add t tag uid up down tag' uid' :
  wf t → 0 ≤ up → 0 ≤ down → 0 < up + down →
  traffic_of (add_traffic t tag uid up down) tag' uid' =
    if decide (tag = tag' ∧ uid = uid')
    then Some (bump (default counter_default (traffic_of t tag uid)) up down)
    else traffic_of t tag' uid'.
Proof.
  intros Hwf H1 H2 H3. unfold add_traffic.
  destruct ((up =? 0) && (down =? 0)) eqn:E; [to_prop; lia|]. by apply traffic_of_bump.
Qed.

(** A payload as the tracker produces it: its keys are the decimal user ids. *)
Definition entry_ok (e : bytes * (Z * Z)) : Prop :=
  ∃ uid, in_width 64 uid ∧ fst e = print_dec uid ∧ amount_ok (fst (snd e)) (snd (snd e)).
Definition payload_ok (p : TrafficPayload) : Prop := ∀ k v, p !! k = Some v → entry_ok (k, v).

Lemma print_dec_inj u v : in_width 64 u → in_width 64 v → print_dec u = print_dec v → u = v.
Proof.
  intros Hu Hv E. pose proof (parse_print_dec 64 u Hu) as Hp.
  rewrite E, (parse_print_dec 64 v Hv) in Hp. congruence.
Qed.

Lemma restore_entry_wf tag t e : wf t → entry_ok e → wf (restore_entry tag t e).
Proof.
  intros Hwf (uid&Hu&He&Ha). destruct e as [k [up down]]; simpl in *. subst k.
  rewrite parse_print_dec by done. apply with_shard_wf; [done|].
  intros s Hs. by apply wf_state_bump.
Qed.

Lemma restore_list_wf tag l t : wf t → Forall entry_ok l → wf (foldl (restore_entry tag) t l).
Proof.
  intros Hwf Hl. revert t Hwf. induction Hl as [|e l He _ IH]; intros t Hwf; [done|].
  apply IH. by apply restore_entry_wf.
Qed.

Lemma payload_ok_list p : payload_ok p → Forall entry_ok (map_to_list p).
Proof. intros Hp. apply Forall_forall. intros [k v] Hkv%elem_of_map_to_list. by apply Hp. Qed.

Lemma restore_traffic_wf t tag p : wf t → payload_ok p → wf (restore_traffic t tag p).
Proof. intros. by apply restore_list_wf, payload_ok_list. Qed.

Lemma traffic_of_restore_list tag l t tag' uid' :
  wf t → Forall entry_ok l → NoDup l.*1 → in_width 64 uid' →
  traffic_of (foldl (restore_entry tag) t l) tag' uid' =
    match (if decide (tag = tag') then (list_to_map l : TrafficPayload) !! print_dec uid'
           else None) with
    | Some (up, down) => Some (bump (default counter_default (traffic_of t tag' uid')) up down)
    | None => traffic_of t tag' uid'
    end.
Proof.
  intros Hwf Hl Hnd Hu'. revert t Hwf.
  induction Hl as [|e l He Hl IH]; intros t Hwf; [by case_decide|].
  inversion Hnd as [|?? Hni Hnd']; subst. simpl foldl.
  rewrite IH by (done || by apply restore_entry_wf).
  destruct He as (uid&Hu&He&Ha). destruct e as [k [up down]]; simpl in *. subst k.
  rewrite parse_print_dec by done. rewrite (traffic_of_bump _ tag uid up down) by done.
  destruct (decide (tag = tag')) as [<-|Ht]; [|by rewrite decide_False by naive_solver].
  destruct (decide (uid = uid')) as [<-|Huu].
  - rewrite decide_True by done. rewrite not_elem_of_list_to_map_1 by done.
    by rewrite lookup_insert_eq.
  - rewrite decide_False by naive_solver.
    rewrite lookup_insert_ne; [done|]. intros E. by apply Huu, print_dec_inj.
Qed.

Lemma traffic_of_restore t tag p tag' uid' :
  wf t → payload_ok p → in_width 64 uid' →
  traffic_of (restore_traffic t tag p) tag' uid' =
    match (if decide (tag = tag') then p !! print_dec uid' else None) with
    | Some (up, down) => Some (bump (default counter_default (traffic_of t tag' uid')) up down)
    | None => traffic_of t tag' uid'
    end.
Proof.
  intros Hwf Hp Hu. unfold restore_traffic. rewrite traffic_of_restore_list;
    [by rewrite list_to_map_to_list|done|by apply payload_ok_list|apply NoDup_fst_map_to_list|done].
Qed.

(** ** Reporting traffic *)

Section collect.
Context `{Countable K} {A : Type}.
Implicit Types (l : list (K * A)) (m : gmap K A).

Definition inserts m l : gmap K A := foldl (λ m e, <[fst e := snd e]> m) m l.

Lemma inserts_app m l1 l2 : inserts m (l1 ++ l2) = inserts (inserts m l1) l2.
Proof. apply foldl_app. Qed.

Lemma inserts_lookup_Some m l k v :
  inserts m l !! k = Some v → (k, v) ∈ l ∨ m !! k = Some v.
Proof.
  revert m. induction l as [|[k' v'] l IH]; intros m Hm; simpl in *; [by right|].
  destruct (IH _ Hm) as [?|Hk]; [left; by right|].
  rewrite lookup_insert in Hk. case_decide; [|by right]. left. simplify_eq. by left.
Qed.

Lemma inserts_lookup_in m l k v :
  (k, v) ∈ l → (∀ v', (k, v') ∈ l → v' = v) → inserts m l !! k = Some v.
Proof.
  induction l as [|[k' v'] l IH] using rev_ind; intros Hin Hf; [set_solver|].
  rewrite inserts_app. simpl. rewrite lookup_insert. case_decide as Hk.
  - subst. f_equal. apply Hf. set_solver.
  - apply IH; [set_solver|]. intros v'' Hv. apply Hf. set_solver.
Qed.

(** When the entries agree on each key, collecting them keeps exactly them. *)
Lemma collect_map_spec l k v :
  (∀ k v v', (k, v) ∈ l → (k, v') ∈ l → v = v') → collect_map l !! k = Some v ↔ (k, v) ∈ l.
Proof.
  intros Hf. split.
  - intros Hv. destruct (inserts_lookup_Some ∅ l k v Hv) as [?|Hn]; [done|].
    by rewrite lookup_empty in Hn.
  - intros Hin. apply inserts_lookup_in; [done|]. intros v' Hv'. by eapply Hf.
Qed.
End collect.

Definition drained (min_traffic : Z) (c : TrafficCounter) : TrafficCounter :=
  if reportable min_traffic c then counter_default else c.
Definition is_zero (c : TrafficCounter) : bool := (upload c =? 0) && (download c =? 0).
Definition report (e : Z * TrafficCounter) : bytes * (Z * Z) :=
  (print_dec (fst e), (upload (snd e), download (snd e))).

Lemma snapshot_entry_eq min p n r uid c :
  snapshot_entry min (p, n, r) (uid, c) =
    (if decide (reportable min c = true)
     then <[print_dec uid := (upload c, download c)]> p else p,
     <[uid := drained min c]> n,
     if decide (is_zero (drained min c) = true) then r ++ [uid] else r).
Proof.
  unfold snapshot_entry, drained. destruct (reportable min c); simpl; [done|].
  fold (is_zero c). by destruct (is_zero c).
Qed.

Lemma snapshot_entries min order p n r :
  foldl (snapshot_entry min) (p, n, r) order =
    (inserts p (report <$> filter (λ e, reportable min (snd e) = true) order),
     inserts n ((λ e, (fst e, drained min (snd e))) <$> order),
     r ++ (filter (λ e, is_zero (drained min (snd e)) = true) order).*1).
Proof.
  revert p n r. induction order as [|[uid c] order IH]; intros p n r; [by rewrite app_nil_r|].
  rewrite !filter_cons. cbn [foldl]. rewrite snapshot_entry_eq, IH. simpl.
  repeat case_decide; simpl; rewrite <- ?(assoc_L (++)); done.
Qed.

Lemma foldl_delete_lookup {V} (n : gmap Z V) l uid :
  foldl (λ n uid, delete uid n) n l !! uid = if decide (uid ∈ l) then None else n !! uid.
Proof.
  revert n. induction l as [|u l IH]; intros n; simpl; [done|].
  rewrite IH. destruct (decide (uid ∈ l)), (decide (uid ∈ u :: l)); try done; try set_solver.
  - assert (uid = u) as -> by set_solver. by rewrite lookup_delete_eq.
  - rewrite lookup_delete_ne by set_solver. done.
Qed.

(** What a report does to one node, in any iteration order: the reportable
    counters and the zero counters go, the others stay, and the payload gets
    the reportable ones. *)
Lemma snapshot_node_any_order min order p n :
  order ≡ₚ map_to_list n →
  fst (snapshot_node min order p n) =
    inserts p (report <$> filter (λ e, reportable min (snd e) = true) order) ∧
  ∀ uid, snd (snapshot_node min order p n) !! uid =
    match n !! uid with
    | Some c => if is_zero (drained min c) then None else Some c
    | None => None
    end.
Proof.
  intros Hp. unfold snapshot_node. rewrite snapshot_entries. simpl. split; [done|].
  intros uid. rewrite foldl_delete_lookup.
  assert (∀ c, (uid, c) ∈ order ↔ n !! uid = Some c) as Hin.
  { intros c. rewrite Hp. apply elem_of_map_to_list. }
  assert (uid ∈ (filter (λ e, is_zero (drained min (snd e)) = true) order).*1 ↔
          ∃ c, n !! uid = Some c ∧ is_zero (drained min c) = true) as Hdel.
  { rewrite list_elem_of_fmap. setoid_rewrite list_elem_of_filter.
    setoid_rewrite <- Hin. split.
    - intros ([u c]&->&?&?). eauto.
    - intros (c&?&?). exists (uid, c). eauto. }
  destruct (n !! uid) as [c|] eqn:En.
  - destruct (is_zero (drained min c)) eqn:Ez; case_decide as Hd; rewrite Hdel in Hd.
    + done.
    + destruct Hd. eauto.
    + destruct Hd as (c'&?&?). congruence.
    + rewrite (inserts_lookup_in _ _ uid c); [done| |].
      * apply list_elem_of_fmap. exists (uid, c). rewrite Hin. simpl. split; [|done].
        unfold drained in *. by destruct (reportable min c).
      * intros v' ([u c']&E&Hu)%list_elem_of_fmap. simpl in E. injection E as -> ->.
        apply Hin in Hu. injection Hu as <-. unfold drained in *. by destruct (reportable min c).
  - case_decide as Hd; [done|]. destruct (inserts _ _ !! uid) as [c|] eqn:Ei; [|done].
    destruct (inserts_lookup_Some _ _ _ _ Ei) as [Hc|Hc]; [|congruence].
    apply list_elem_of_fmap in Hc as ([u c']&E&Hu). simpl in E. injection E as -> ->.
    apply Hin in Hu. congruence.
Qed.

Lemma fold_shards_snd {A} (f : A → TrackerState → A * TrackerState) a ss :
  (∀ a a' s, snd (f a s) = snd (f a' s)) →
  snd (fold_shards f a ss) = (λ s, snd (f a s)) <$> ss.
Proof.
  intros Hf. revert a. induction ss as [|s ss IH]; intros a; [done|]. simpl.
  destruct (f a s) as [a' s'] eqn:E. specialize (IH a').
  destruct (fold_shards f a' ss) as [a'' ss'] eqn:E'. simpl in *. rewrite IH. f_equal.
  apply list_fmap_ext. intros. apply Hf.
Qed.

Lemma fold_shards_fst {A} (f : A → TrackerState → A * TrackerState) a ss :
  fst (fold_shards f a ss) = foldl (λ a s, fst (f a s)) a ss.
Proof.
  revert a. induction ss as [|s ss IH]; intros a; [done|]. simpl.
  destruct (f a s) as [a' s'] eqn:E. specialize (IH a').
  by destruct (fold_shards f a' ss) as [a'' ss'] eqn:E'.
Qed.

Lemma is_zero_drained min c : counter_ok c → is_zero (drained min c) = reportable min c.
Proof.
  intros (?&?&?). unfold drained. destruct (reportable min c); [done|].
  unfold is_zero. to_prop; lia.
Qed.

(** The entries a shard contributes to the payload. *)
Definition shard_reports (tag : bytes) (min : Z) (s : TrackerState) : list (bytes * (Z * Z)) :=
  report <$> filter (λ e, reportable min (snd e) = true)
               (map_to_list (default ∅ (traffic s !! tag))).

Lemma snapshot_shard_fst tag min p s :
  fst (snapshot_shard tag min p s) = inserts p (shard_reports tag min s).
Proof.
  unfold snapshot_shard, shard_reports. destruct (traffic s !! tag) as [n|]; simpl;
    [|by rewrite map_to_list_empty].
  destruct (snapshot_node_any_order min (map_to_list n) p n) as [Hf _]; [done|].
  destruct (snapshot_node min (map_to_list n) p n). exact Hf.
Qed.

Lemma snapshot_shard_lookup tag min p s tag' uid :
  nlookup (traffic (snd (snapshot_shard tag min p s))) tag' uid =
    if decide (tag = tag')
    then match nlookup (traffic s) tag uid with
         | Some c => if is_zero (drained min c) then None else Some c
         | None => None
         end
    else nlookup (traffic s) tag' uid.
Proof.
  unfold snapshot_shard, nlookup at 2. destruct (traffic s !! tag) as [n|] eqn:En; simpl.
  - destruct (snapshot_node_any_order min (map_to_list n) p n) as [_ Hs]; [done|].
    destruct (snapshot_node min (map_to_list n) p n) as [p' n']. simpl in *.
    rewrite nlookup_put_node. case_decide; [apply Hs|done].
  - case_decide; [|done]. subst. unfold nlookup. by rewrite En.
Qed.

Lemma snapshot_shard_rest tag min p s :
  alive (snd (snapshot_shard tag min p s)) = alive s ∧
  alive_traffic (snd (snapshot_shard tag min p s)) = alive_traffic s ∧
  panel_alive (snd (snapshot_shard tag min p s)) = panel_alive s ∧
  (nm_wf (traffic s) → nm_wf (traffic (snd (snapshot_shard tag min p s)))).
Proof.
  unfold snapshot_shard. destruct (traffic s !! tag) as [n|]; [|done].
  destruct (snapshot_node min (map_to_list n) p n); simpl. eauto with shoes.
Qed.

Lemma snapshot_shard_wf tag min p i s :
  wf_state i s → wf_state i (snd (snapshot_shard tag min p s)).
Proof.
  intros Hs. destruct (snapshot_shard_rest tag min p s) as (Ha&Hat&Hp&Hn).
  pose proof (snapshot_shard_lookup tag min p s) as Hl.
  destruct (snd (snapshot_shard tag min p s)) as [tr ???]; simpl in *; subst.
  destruct Hs. constructor; simpl; try done; [by apply Hn|].
  intros tag' uid c. rewrite Hl. case_decide; [|by apply wf_traffic0].
  destruct (nlookup (traffic s) tag uid) as [c'|] eqn:E; [|done].
  destruct (is_zero _); [done|]. intros [= <-]. by eapply wf_traffic0.
Qed.

Lemma snapshot_shard_indep tag min p p' s :
  snd (snapshot_shard tag min p s) = snd (snapshot_shard tag min p' s).
Proof.
  unfold snapshot_shard, snapshot_node. destruct (traffic s !! tag); [|done].
  by rewrite !snapshot_entries.
Qed.

Lemma snapshot_traffic_shards t tag min :
  snd (snapshot_traffic t tag min) =
    mkTracker ((λ s, snd (snapshot_shard tag min ∅ s)) <$> shards t) (last_flush t).
Proof.
  unfold snapshot_traffic. pose proof (fold_shards_snd (snapshot_shard tag min) ∅ (shards t)) as Hs.
  destruct (fold_shards _ _ _) as [p ss]; simpl in *. rewrite Hs; [done|].
  intros. apply snapshot_shard_indep.
Qed.

Lemma snapshot_traffic_payload t tag min :
  fst (snapshot_traffic t tag min) = collect_map (shards t ≫= shard_reports tag min).
Proof.
  unfold snapshot_traffic. pose proof (fold_shards_fst (snapshot_shard tag min) ∅ (shards t)) as Hs.
  destruct (fold_shards _ _ _) as [p ss]; simpl in *. rewrite Hs. clear Hs.
  change (collect_map ?l) with (inserts ∅ l). generalize (∅ : TrafficPayload).
  induction (shards t) as [|s l IH]; intros m; [done|]. simpl.
  by rewrite IH, snapshot_shard_fst, inserts_app.
Qed.

(** Operations that act on every shard. *)
Lemma fmap_shards_wf t f :
  wf t → (∀ i s, wf_state i s → wf_state i (f s)) →
  wf (mkTracker (f <$> shards t) (last_flush t)).
Proof.
  intros Hwf Hf. split; simpl.
  - rewrite length_fmap. apply Hwf.
  - intros i s. rewrite list_lookup_fmap_Some. intros (s'&->&Hs). by apply Hf, Hwf.
Qed.

Lemma shard_fmap t f l uid :
  wf t → shard (mkTracker (f <$> shards t) l) uid = f (shard t uid).
Proof.
  intros Hwf. unfold shard at 1. simpl. by rewrite list_lookup_fmap, (shard_lookup t uid Hwf).
Qed.

Lemma snapshot_traffic_wf t tag min : wf t → wf (snd (snapshot_traffic t tag min)).
Proof.
  intros. rewrite snapshot_traffic_shards. apply fmap_shards_wf; [done|].
  intros. by apply snapshot_shard_wf.
Qed.

Lemma traffic_of_snapshot t tag min tag' uid :
  wf t →
  traffic_of (snd (snapshot_traffic t tag min)) tag' uid =
    if decide (tag = tag')
    then match traffic_of t tag uid with
         | Some c => if reportable min c then None else Some c
         | None => None
         end
    else traffic_of t tag' uid.
Proof.
  intros Hwf. rewrite snapshot_traffic_shards. unfold traffic_of. rewrite shard_fmap by done.
  rewrite snapshot_shard_lookup. case_decide; [|done].
  destruct (nlookup _ tag uid) as [c|] eqn:E; [|done].
  rewrite is_zero_drained; [done|]. by eapply (wf_traffic _ _ (shard_wf t uid Hwf)).
Qed.

Lemma elem_of_shards t tag uid c :
  wf t →
  (∃ s, s ∈ shards t ∧ nlookup (traffic s) tag uid = Some c) ↔ traffic_of t tag uid = Some c.
Proof.
  intros Hwf. split.
  - intros (s&(i&Hi)%list_elem_of_lookup&Hs).
    destruct (wf_traffic _ _ (wf_shards _ Hwf _ _ Hi) _ _ _ Hs) as [[_ <-] _].
    rewrite (shard_lookup t uid Hwf) in Hi. injection Hi as <-. done.
  - intros Hc. exists (shard t uid). split; [|done].
    apply list_elem_of_lookup. exists (shard_index uid). by apply shard_lookup.
Qed.

Lemma elem_of_shard_reports t tag min k v :
  wf t →
  (k, v) ∈ (shards t ≫= shard_reports tag min) ↔
  ∃ uid c, k = print_dec uid ∧ v = (upload c, download c) ∧
           traffic_of t tag uid = Some c ∧ reportable min c = true.
Proof.
  intros Hwf. rewrite list_elem_of_bind. setoid_rewrite <- (elem_of_shards t tag); [|done].
  unfold shard_reports, report. setoid_rewrite list_elem_of_fmap.
  setoid_rewrite list_elem_of_filter. split.
  - intros (s&([uid c]&[= -> ->]&Hr&Hc)&Hs). exists uid, c.
    apply elem_of_map_to_list in Hc. rewrite default_lookup in Hc. eauto 10.
  - intros (uid&c&->&->&(s&Hs&Hc)&Hr). exists s. split; [|done]. exists (uid, c).
    split; [done|]. split; [done|]. apply elem_of_map_to_list. by rewrite default_lookup.
Qed.

Lemma traffic_of_ok t tag uid c :
  wf t → traffic_of t tag uid = Some c → in_width 64 uid ∧ counter_ok c.
Proof.
  intros Hwf Hc. by destruct (wf_traffic _ _ (shard_wf t uid Hwf) _ _ _ Hc) as [[? _] ?].
Qed.

Lemma snapshot_payload_spec t tag min k v :
  wf t →
  fst (snapshot_traffic t tag min) !! k = Some v ↔
  ∃ uid c, k = print_dec uid ∧ v = (upload c, download c) ∧
           traffic_of t tag uid = Some c ∧ reportable min c = true.
Proof.
  intros Hwf. rewrite snapshot_traffic_payload, <- elem_of_shard_reports by done.
  apply collect_map_spec. clear k v. intros k v v' Hv Hv'.
  apply elem_of_shard_reports in Hv as (u&c&->&->&Hc&_); [|done].
  apply elem_of_shard_reports in Hv' as (u'&c'&E&->&Hc'&_); [|done].
  apply print_dec_inj in E; [congruence|by eapply traffic_of_ok..].
Qed.

Lemma snapshot_payload_ok t tag min : wf t → payload_ok (fst (snapshot_traffic t tag min)).
Proof.
  intros Hwf k v (u&c&->&->&Hc&Hr)%snapshot_payload_spec; [|done].
  destruct (traffic_of_ok _ _ _ _ Hwf Hc) as [Hu Hok]. exists u. done.
Qed.

(** The counter a report takes for one user. *)
Lemma snapshot_payload_user t tag min uid :
  wf t → in_width 64 uid →
  fst (snapshot_traffic t tag min) !! print_dec uid =
    match traffic_of t tag uid with
    | Some c => if reportable min c then Some (upload c, download c) else None
    | None => None
    end.
Proof.
  intros Hwf Hu. destruct (fst _ !! _) as [v|] eqn:E.
  - apply snapshot_payload_spec in E as (u&c&Hp&->&Hc&Hr); [|done].
    apply print_dec_inj in Hp as <-; [|done|by eapply traffic_of_ok]. by rewrite Hc, Hr.
  - destruct (traffic_of t tag uid) as [c|] eqn:Hc; [|done].
    destruct (reportable min c) eqn:Hr; [|done].
    assert (fst (snapshot_traffic t tag min) !! print_dec uid = Some (upload c, download c));
      [|congruence]. apply snapshot_payload_spec; eauto 10.
Qed.

(** ** Opening and closing connections *)

Definition ips_of (s : TrackerState) (tag : bytes) (uid : Z) : gmap IpAddr Z :=
  default ∅ (nlookup (alive s) tag uid).

Definition set_alive (s : TrackerState) (m : node_users (gmap IpAddr Z)) : TrackerState :=
  mkState (traffic s) m (alive_traffic s) (panel_alive s).

(** The decision and its effect in one equation: an address already open is
    always admitted, a new one needs room in both the panel's and the local
    count, and a refusal changes nothing. *)
Lemma add_alive_state_spec tag uid ip limit s :
  let ips := ips_of s tag uid in
  add_alive_state tag uid ip limit s =
    if decide (ips !! ip = None ∧
               (over_limit limit (default 0 (nlookup (panel_alive s) tag uid)) = true ∨
                over_limit limit (Z.of_nat (size ips)) = true))
    then (false, s)
    else (true, set_alive s
            (node_map (<[uid := <[ip := default 0 (ips !! ip) + 1]> ips]>) (alive s) tag)).
Proof.
  intros ips. unfold add_alive_state.
  assert (match nlookup (alive s) tag uid with
          | Some ips => bool_decide (is_Some (ips !! ip)) | None => false end
          = bool_decide (is_Some (ips !! ip))) as ->.
  { unfold ips, ips_of. destruct (nlookup _ _ _); simpl; [done|]. by rewrite lookup_empty. }
  rewrite default_lookup. fold (ips_of s tag uid) ips.
  destruct (ips !! ip) as [c|] eqn:Ei.
  { rewrite bool_decide_eq_true_2 by eauto. by rewrite decide_False by naive_solver. }
  rewrite bool_decide_eq_false_2 by (by intros [? ?]). cbn [negb andb].
  destruct (over_limit limit (default 0 (nlookup (panel_alive s) tag uid))) eqn:Ep;
    [by rewrite decide_True by naive_solver|].
  destruct (over_limit limit (Z.of_nat (size ips))) eqn:Eo;
    [|by rewrite decide_False by naive_solver].
  rewrite decide_True by naive_solver. f_equal. destruct s as [tr al at_ pa]; simpl in *.
  f_equal. unfold ips, ips_of in *. simpl in *.
  assert (nlookup al tag uid = Some ips) as (n&Hn&Hu)%nlookup_Some.
  { unfold ips. destruct (nlookup al tag uid) as [x|]; [done|]. simpl in *.
    unfold over_limit in Eo. rewrite map_size_empty in Eo.
    destruct limit; [|done]. to_prop; lia. }
  rewrite Hn. simpl. by rewrite (insert_id n), (insert_id al).
Qed.

Lemma ips_of_ok i s tag uid : wf_state i s → map_Forall (λ _ n, 0 < n) (ips_of s tag uid).
Proof.
  intros Hs. unfold ips_of. destruct (nlookup (alive s) tag uid) as [ips|] eqn:E; simpl.
  - by destruct (wf_alive _ _ Hs _ _ _ E) as (_&_&?).
  - apply map_Forall_empty.
Qed.

Lemma set_alive_wf s tag uid ips :
  wf_state (shard_index uid) s → in_width 64 uid → ips_ok ips →
  wf_state (shard_index uid) (set_alive s (node_map (<[uid := ips]>) (alive s) tag)).
Proof.
  intros [] Hu Hips. constructor; simpl; try done; [by apply node_insert_wf| |].
  - intros tag' uid' ips'. rewrite nlookup_node_insert. case_decide as Hd; [|by apply wf_alive0].
    intros [= <-]. by destruct Hd as [_ <-].
  - intros tag' uid' n Hn. rewrite nlookup_node_insert. case_decide; eauto.
Qed.

Lemma add_alive_state_wf tag uid ip limit s :
  wf_state (shard_index uid) s → in_width 64 uid →
  wf_state (shard_index uid) (snd (add_alive_state tag uid ip limit s)).
Proof.
  intros Hs Hu. rewrite add_alive_state_spec. cbv zeta. case_decide; [done|]. simpl.
  apply set_alive_wf; [done..|]. pose proof (ips_of_ok _ s tag uid Hs) as Hok. split.
  - apply insert_non_empty.
  - apply map_Forall_insert_2; [|done]. destruct (_ !! ip) as [c|] eqn:E; simpl; [|lia].
    specialize (Hok _ _ E). simpl in Hok. lia.
Qed.

(** What is left of a user's addresses after one connection closes. *)
Definition close_ip (ip : IpAddr) (ips : gmap IpAddr Z) : gmap IpAddr Z :=
  match ips !! ip with
  | Some count => if sat_sub count 1 =? 0 then delete ip ips else <[ip := sat_sub count 1]> ips
  | None => ips
  end.

Lemma nlookup_remove_alive tag uid ip s tag' uid' :
  nlookup (alive (remove_alive_state tag uid ip s)) tag' uid' =
    if decide (tag = tag' ∧ uid = uid')
    then match nlookup (alive s) tag uid with
         | Some ips => if decide (close_ip ip ips = ∅) then None else Some (close_ip ip ips)
         | None => None
         end
    else nlookup (alive s) tag' uid'.
Proof.
  unfold remove_alive_state, nlookup at 2.
  destruct (alive s !! tag) as [node|] eqn:En; simpl; last first.
  { case_decide as Hd; [|done]. destruct Hd as [-> ->]. unfold nlookup. by rewrite En. }
  destruct (node !! uid) as [ips|] eqn:Eu; simpl; last first.
  { case_decide as Hd; [|done]. destruct Hd as [-> ->]. unfold nlookup. by rewrite En. }
  fold (close_ip ip ips). rewrite nlookup_put_node.
  destruct (decide (tag = tag')) as [<-|Ht]; [|by rewrite decide_False by naive_solver].
  rewrite bool_decide_decide. unfold nlookup. rewrite En. simpl.
  destruct (decide (close_ip ip ips = ∅)) as [Ee|Ee]; rewrite ?lookup_delete, ?lookup_insert;
    destruct (decide (uid = uid')) as [<-|];
    first [rewrite decide_True by done | rewrite decide_False by naive_solver]; done.
Qed.

Lemma nlookup_remove_alive_traffic tag uid ip s tag' uid' :
  nlookup (alive_traffic (remove_alive_state tag uid ip s)) tag' uid' =
    match nlookup (alive s) tag uid with
    | Some ips =>
        if decide (close_ip ip ips = ∅ ∧ tag = tag' ∧ uid = uid') then None
        else nlookup (alive_traffic s) tag' uid'
    | None => nlookup (alive_traffic s) tag' uid'
    end.
Proof.
  unfold remove_alive_state, nlookup at 2.
  destruct (alive s !! tag) as [node|] eqn:En; simpl; [|done].
  destruct (node !! uid) as [ips|] eqn:Eu; simpl; [|done].
  fold (close_ip ip ips). rewrite bool_decide_decide.
  destruct (decide (close_ip ip ips = ∅)); simpl.
  - rewrite nlookup_remove_user. repeat case_decide; naive_solver.
  - by rewrite decide_False by naive_solver.
Qed.

Lemma remove_alive_rest tag uid ip s :
  traffic (remove_alive_state tag uid ip s) = traffic s ∧
  panel_alive (remove_alive_state tag uid ip s) = panel_alive s ∧
  (nm_wf (alive s) → nm_wf (alive (remove_alive_state tag uid ip s))) ∧
  (nm_wf (alive_traffic s) → nm_wf (alive_traffic (remove_alive_state tag uid ip s))).
Proof.
  unfold remove_alive_state. destruct (alive s !! tag) as [node|]; [|done].
  destruct (node !! uid); [|done]. simpl. split_and!; [done..|eauto with shoes|].
  destruct (bool_decide _); eauto with shoes.
Qed.

Lemma close_ip_ok ip ips :
  map_Forall (λ _ n, 0 < n) ips → map_Forall (λ _ n, 0 < n) (close_ip ip ips).
Proof.
  intros Hips. unfold close_ip. destruct (ips !! ip) as [c|] eqn:E; [|done].
  destruct (sat_sub c 1 =? 0) eqn:Ez.
  - by apply map_Forall_delete.
  - apply map_Forall_insert_2; [|done]. unfold sat_sub in *. to_prop; lia.
Qed.

Lemma remove_alive_state_wf i tag uid ip s :
  wf_state i s → wf_state i (remove_alive_state tag uid ip s).
Proof.
  intros Hs. destruct (remove_alive_rest tag uid ip s) as (Ht&Hp&Ha&Hat).
  constructor; rewrite ?Ht, ?Hp; try apply Hs; [apply Ha, Hs|apply Hat, Hs| |].
  - intros tag' uid' ips'. rewrite nlookup_remove_alive. case_decide as Hd; [|apply Hs].
    destruct (nlookup (alive s) tag uid) as [ips|] eqn:E; [|done].
    destruct (wf_alive _ _ Hs _ _ _ E) as (?&_&?).
    destruct (decide (close_ip ip ips = ∅)); [done|]. intros [= <-].
    destruct Hd as [_ <-]. split; [done|]. split; [done|by apply close_ip_ok].
  - intros tag' uid' n. rewrite nlookup_remove_alive, nlookup_remove_alive_traffic.
    destruct (nlookup (alive s) tag uid) as [ips|] eqn:E.
    + destruct (decide (tag = tag' ∧ uid = uid')) as [[<- <-]|Hd].
      * destruct (decide (close_ip ip ips = ∅)); [by rewrite decide_True|eauto].
      * rewrite decide_False by naive_solver. apply Hs.
    + intros Hn. case_decide as Hd; [|by eapply Hs]. destruct Hd as [<- <-].
      destruct (wf_alive_traffic _ _ Hs _ _ _ Hn). congruence.
Qed.

(** Closing undoes opening. *)
Lemma close_open_ip ip ips :
  map_Forall (λ _ n, 0 < n) ips → close_ip ip (<[ip := default 0 (ips !! ip) + 1]> ips) = ips.
Proof.
  intros Hips. unfold close_ip. rewrite lookup_insert_eq.
  destruct (ips !! ip) as [c|] eqn:E; simpl default.
  - specialize (Hips _ _ E). simpl in Hips. rewrite sat_sub_exact by lia.
    destruct (c + 1 - 1 =? 0) eqn:Ez; [to_prop; lia|].
    rewrite insert_insert_eq. apply insert_id. rewrite E. f_equal. lia.
  - simpl. rewrite delete_insert_eq. by apply delete_id.
Qed.

Lemma close_open_state i tag uid ip s :
  wf_state i s →
  remove_alive_state tag uid ip (set_alive s (node_map
    (<[uid := <[ip := default 0 (ips_of s tag uid !! ip) + 1]> (ips_of s tag uid)]>)
    (alive s) tag)) = s.
Proof.
  intros Hs. set (s' := set_alive s _).
  assert (∀ tag' uid', nlookup (alive s') tag' uid' =
    if decide (tag = tag' ∧ uid = uid')
    then Some (<[ip := default 0 (ips_of s tag uid !! ip) + 1]> (ips_of s tag uid))
    else nlookup (alive s) tag' uid') as Hl.
  { intros. apply nlookup_node_insert. }
  destruct (remove_alive_rest tag uid ip s') as (Ht&Hp&Ha&Hat).
  pose proof (nlookup_remove_alive tag uid ip s') as La.
  pose proof (nlookup_remove_alive_traffic tag uid ip s') as Lt.
  assert (nlookup (alive s') tag uid =
    Some (<[ip := default 0 (ips_of s tag uid !! ip) + 1]> (ips_of s tag uid))) as Hl'.
  { by rewrite Hl, decide_True. }
  rewrite Hl' in Lt. rewrite Hl' in La.
  rewrite close_open_ip in Lt by by eapply ips_of_ok.
  rewrite close_open_ip in La by by eapply ips_of_ok.
  assert (alive (remove_alive_state tag uid ip s') = alive s) as Ea.
  { apply nm_eq; [apply Ha; by apply node_insert_wf, Hs|apply Hs|].
    intros tag' uid'. rewrite La, Hl.
    destruct (decide (tag = tag' ∧ uid = uid')) as [[<- <-]|]; [|done]. unfold ips_of.
    destruct (nlookup (alive s) tag uid) as [ips|] eqn:E; simpl; [|done].
    destruct (wf_alive _ _ Hs _ _ _ E) as (_&?&_). by rewrite decide_False. }
  assert (alive_traffic (remove_alive_state tag uid ip s') = alive_traffic s) as Eat.
  { apply nm_eq; [apply Hat, Hs|apply Hs|]. intros tag' uid'. rewrite Lt.
    destruct (decide (ips_of s tag uid = ∅ ∧ tag = tag' ∧ uid = uid')) as [(He&<-&<-)|]; [|done].
    destruct (nlookup (alive_traffic s) tag uid) as [n|] eqn:E; [|done].
    destruct (wf_alive_traffic _ _ Hs _ _ _ E) as [ips Hips].
    destruct (wf_alive _ _ Hs _ _ _ Hips) as (_&?&_).
    unfold ips_of in He. by rewrite Hips in He. }
  destruct (remove_alive_state tag uid ip s'), s; simpl in *. congruence.
Qed.

Lemma with_shard_compose t u f g :
  with_shard (with_shard t u f) u g = with_shard t u (λ s, g (f s)).
Proof. unfold with_shard. simpl. by rewrite list_alter_alter_eq. Qed.

Lemma with_shard_id t u f : wf t → f (shard t u) = shard t u → with_shard t u f = t.
Proof.
  intros Hwf Hf. unfold with_shard. destruct t as [ss l]; simpl. f_equal.
  pose proof (shard_lookup _ u Hwf) as Hs. simpl in Hs.
  rewrite (list_alter_ext f id ss ss); [by apply list_alter_id| |done].
  intros s Hs'. unfold id. congruence.
Qed.

(** ** The panel's view and the user list *)

Lemma split_by_shard_list (l : list (Z * Z)) (v : list (gmap Z Z)) i uid n :
  (∀ i (m : gmap Z Z) uid n, v !! i = Some m → m !! uid = Some n → shard_index uid = i) →
  (∃ m, foldl (λ v e, alter (<[fst e := snd e]>) (shard_index (fst e)) v) v l !! i = Some m ∧
        m !! uid = Some n) →
  shard_index uid = i ∧ ((uid, n) ∈ l ∨ ∃ m, v !! i = Some m ∧ m !! uid = Some n).
Proof.
  revert v. induction l as [|[u c] l IH]; intros v Hv Hm; simpl in *.
  { destruct Hm as (m&?&?). split; [by eapply Hv|]. eauto. }
  set (v' := alter _ _ v) in Hm.
  assert (∀ i (m : gmap Z Z) uid n, v' !! i = Some m → m !! uid = Some n →
    shard_index uid = i ∧ ((uid, n) = (u, c) ∨ ∃ m, v !! i = Some m ∧ m !! uid = Some n)) as Hv'.
  { intros j m x k Hj Hx. unfold v' in Hj. destruct (decide (shard_index u = j)) as [<-|].
    - rewrite list_lookup_alter_eq in Hj. destruct (v !! shard_index u) as [m'|] eqn:E; [|done].
      injection Hj as <-. rewrite lookup_insert in Hx. case_decide; [naive_solver|].
      split; [by eapply Hv|eauto].
    - rewrite list_lookup_alter_ne in Hj by done. split; [by eapply Hv|eauto]. }
  destruct (IH v') as (Hi&[Hin|(m&Hm'&Hn)]); [naive_solver|done|by split; [|left; right]|].
  destruct (Hv' _ _ _ _ Hm' Hn) as (_&[E|?]); [|by eauto].
  split; [done|]. left. rewrite E. by left.
Qed.

Lemma length_split_by_shard al : length (split_by_shard al) = SHARD_COUNT.
Proof.
  unfold split_by_shard. assert (∀ l (v : list (gmap Z Z)),
    length (foldl (λ v e, alter (<[fst e := snd e]>) (shard_index (fst e)) v) v l) = length v)
    as Hl; [|by rewrite Hl, length_replicate].
  induction l as [|e l IH]; intros v; simpl; [done|]. by rewrite IH, length_alter.
Qed.

Lemma split_by_shard_home al i m uid n :
  split_by_shard al !! i = Some m → m !! uid = Some n → shard_index uid = i ∧ al !! uid = Some n.
Proof.
  intros Hi Hm. destruct (split_by_shard_list (map_to_list al) (replicate SHARD_COUNT ∅) i uid n)
    as (Hu&[Hin|(m'&Hm'&Hn)]); [|by eauto|split; [done|by apply elem_of_map_to_list]|].
  - intros j m' x k (->&_)%lookup_replicate. by rewrite lookup_empty.
  - apply lookup_replicate in Hm' as [-> _]. by rewrite lookup_empty in Hn.
Qed.

Lemma replace_panel_alive_wf t tag al :
  wf t → (∀ uid n, al !! uid = Some n → in_width 64 uid) → wf (replace_panel_alive t tag al).
Proof.
  intros Hwf Hal. split; simpl.
  - rewrite length_zip_with, length_split_by_shard, (wf_length t Hwf). done.
  - intros i s (s'&m&->&Hs&Hm)%lookup_zip_with_Some.
    destruct (wf_shards _ Hwf _ _ Hs). constructor; simpl; eauto with shoes.
    intros tag' uid n. rewrite nlookup_put_node. case_decide; [|by apply wf_panel0].
    intros Hn. destruct (split_by_shard_home al i m uid n Hm Hn). split; [by eapply Hal|done].
Qed.

Lemma reconcile_state_wf i tag active s :
  wf_state i s → wf_state i (reconcile_state tag active s).
Proof.
  intros Hs. constructor; simpl; try (apply retain_wf; apply Hs);
    intros tag' uid v; rewrite nlookup_retain; case_decide; try done; try apply Hs.
  rewrite nlookup_retain, decide_False by done. apply Hs.
Qed.

Lemma reconcile_users_wf t tag active : wf t → wf (reconcile_users t tag active).
Proof. intros. apply fmap_shards_wf; [done|]. intros. by apply reconcile_state_wf. Qed.

Lemma remove_user_state_wf i tag uid s :
  wf_state i s → wf_state i (remove_user_state tag uid s).
Proof.
  intros Hs. constructor; simpl; try (apply remove_user_wf; apply Hs);
    intros tag' uid' v; rewrite nlookup_remove_user; case_decide; try done; try apply Hs.
  rewrite nlookup_remove_user, decide_False by done. apply Hs.
Qed.

Lemma remove_users_wf t tag uids : wf t → wf (remove_users t tag uids).
Proof.
  unfold remove_users. revert t. induction uids as [|u uids IH]; intros t Hwf; simpl; [done|].
  apply IH, with_shard_wf; [done|]. intros. by apply remove_user_state_wf.
Qed.

Lemma commit_entry_wf tag t e : wf t → wf (commit_entry tag t e).
Proof.
  intros Hwf. destruct e as [uid consumed]. apply with_shard_wf; [done|].
  intros s Hs. destruct (alive_traffic s !! tag) as [n|] eqn:En; [|done].
  constructor; simpl; try apply Hs; [apply put_node_wf, Hs|].
  intros tag' uid' v. rewrite nlookup_put_node. case_decide as Ht; [|apply Hs]. subst tag'.
  intros Hv. assert (is_Some (n !! uid')) as [v' Hv'].
  { destruct (n !! uid) as [c|] eqn:Ec; [|eauto]. destruct (_ =? 0).
    - rewrite lookup_delete in Hv. case_decide; [done|eauto].
    - rewrite lookup_insert in Hv. case_decide; [subst|]; eauto. }
  eapply (wf_alive_traffic _ _ Hs). unfold nlookup. by rewrite En.
Qed.

Lemma commit_alive_snapshot_wf t tag a : wf t → wf (commit_alive_snapshot t tag a).
Proof.
  unfold commit_alive_snapshot. case_bool_decide; [done|].
  generalize (map_to_list (consumed_traffic a)). intros l. revert t.
  induction l as [|e l IH]; intros t Hwf; simpl; [done|]. by apply IH, commit_entry_wf.
Qed.

Lemma empty_wf : wf empty.
Proof.
  split; [done|]. intros i s (->&_)%lookup_replicate.
  constructor; simpl; eauto with shoes; intros tag uid v; by rewrite nlookup_empty.
Qed.

(** ** Traces

    The tracker together with the payloads taken from it: those whose request
    to the panel is still running, and those the panel has accepted.  Between
    taking a payload and the panel's answer any other operation may run. *)

Record world := mkWorld {
  trk : TrafficTracker;
  in_flight : list (bytes * TrafficPayload);
  reported : list (bytes * TrafficPayload);
}.

Inductive op :=
  | OAdd (tag : bytes) (uid up down : Z)
  | OReport (tag : bytes) (min_traffic : Z)
  | OAccepted (k : nat)
  | ORejected (k : nat)
  | OOpen (tag : bytes) (uid : Z) (ip : IpAddr) (limit : option Z)
  | OClose (tag : bytes) (uid : Z) (ip : IpAddr)
  | OPanel (tag : bytes) (al : gmap Z Z)
  | OReconcile (tag : bytes) (active : gset Z)
  | ORemove (tag : bytes) (uids : list Z)
  | OCommitAlive (tag : bytes) (a : AliveSnapshot)
  | OFlush (now : Z).

Definition on_tracker (w : world) (t : TrafficTracker) : world :=
  mkWorld t (in_flight w) (reported w).

Definition step (w : world) (o : op) : world :=
  match o with
  | OAdd tag uid up down => on_tracker w (add_traffic (trk w) tag uid up down)
  | OReport tag min =>
      let '(p, t) := snapshot_traffic (trk w) tag min in
      if bool_decide (p = ∅) then on_tracker w t
      else mkWorld t (in_flight w ++ [(tag, p)]) (reported w)
  | OAccepted k =>
      match in_flight w !! k with
      | Some e => mkWorld (trk w) (delete k (in_flight w)) (reported w ++ [e])
      | None => w
      end
  | ORejected k =>
      match in_flight w !! k with
      | Some e =>
          mkWorld (restore_traffic (trk w) (fst e) (snd e)) (delete k (in_flight w)) (reported w)
      | None => w
      end
  | OOpen tag uid ip limit =>
      on_tracker w (snd (add_alive_ip_and_check_limit (trk w) tag uid ip limit))
  | OClose tag uid ip => on_tracker w (remove_alive_ip (trk w) tag uid ip)
  | OPanel tag al => on_tracker w (replace_panel_alive (trk w) tag al)
  | OReconcile tag active => on_tracker w (reconcile_users (trk w) tag active)
  | ORemove tag uids => on_tracker w (remove_users (trk w) tag uids)
  | OCommitAlive tag a => on_tracker w (commit_alive_snapshot (trk w) tag a)
  | OFlush now => on_tracker w (snd (flush_pending_traffic (trk w) now))
  end.

Definition start : world := mkWorld empty [] [].
Definition run (ops : list op) : world := foldl step start ops.

(** The arguments are [u64]s. *)
Definition op_ok (o : op) : Prop :=
  match o with
  | OAdd _ uid up down => in_width 64 uid ∧ in_width 64 up ∧ in_width 64 down
  | OOpen _ uid _ _ => in_width 64 uid
  | OPanel _ al => map_Forall (λ uid _, in_width 64 uid) al
  | _ => True
  end.

Definition world_wf (w : world) : Prop :=
  wf (trk w) ∧ Forall (λ e, payload_ok (snd e)) (in_flight w) ∧
  Forall (λ e, payload_ok (snd e)) (reported w).

Lemma on_tracker_wf w t : world_wf w → wf t → world_wf (on_tracker w t).
Proof. by intros (_&?&?) ?. Qed.

Lemma step_wf w o : world_wf w → op_ok o → world_wf (step w o).
Proof.
  intros Hw Ho. pose proof Hw as (Hwf&Hp&Hr).
  destruct o; simpl in *; try (apply on_tracker_wf; [done|]).
  - destruct Ho as (?&?&?). unfold in_width, u64_max in *.
    apply add_traffic_wf; unfold in_width, u64_max; [done|lia..].
  - pose proof (snapshot_traffic_wf (trk w) tag min_traffic Hwf) as H1.
    pose proof (snapshot_payload_ok (trk w) tag min_traffic Hwf) as H2.
    destruct (snapshot_traffic (trk w) tag min_traffic) as [p t]; simpl in *.
    case_bool_decide; split_and!; simpl; try done. apply Forall_app. eauto.
  - destruct (in_flight w !! k) as [e|] eqn:E; [|done]. split_and!; simpl; [done|by apply Forall_delete|].
    apply Forall_app. split; [done|]. apply Forall_singleton. by apply (Forall_lookup_1 _ _ _ _ Hp E).
  - destruct (in_flight w !! k) as [e|] eqn:E; [|done].
    split_and!; simpl; [|by apply Forall_delete|done].
    apply restore_traffic_wf; [done|]. by apply (Forall_lookup_1 _ _ _ _ Hp E).
  - apply with_shard_wf; [done|]. intros. by apply add_alive_state_wf.
  - apply with_shard_wf; [done|]. intros. by apply remove_alive_state_wf.
  - by apply replace_panel_alive_wf.
  - by apply reconcile_users_wf.
  - by apply remove_users_wf.
  - by apply commit_alive_snapshot_wf.
  - unfold flush_pending_traffic. by destruct (_ <? _); destruct Hwf.
Qed.

Lemma shard_empty uid : shard empty uid = state_default.
Proof.
  unfold shard. change (shards empty) with (replicate SHARD_COUNT state_default).
  rewrite lookup_replicate_2; [done|]. apply shard_index_lt.
Qed.

Lemma start_wf : world_wf start.
Proof. split_and!; [apply empty_wf|constructor..]. Qed.

(** A property of worlds that the start has and every step keeps holds after
    every trace. *)
Lemma run_ind (P : world → Prop) (Q : op → Prop) ops :
  P start → (∀ w o, world_wf w → op_ok o → Q o → P w → P (step w o)) →
  Forall op_ok ops → Forall Q ops → P (run ops).
Proof.
  intros H0 Hs Ho HQ. unfold run. pose proof start_wf as Hw. revert H0 Hw.
  generalize start. induction Ho as [|o ops Ho Hops IH]; intros w HP Hw; simpl; [done|].
  inversion HQ; subst. apply IH; [done|by apply Hs|by apply step_wf].
Qed.

Lemma view_with_shard {V} (g : TrackerState → node_users V) t u f tag v :
  wf t → (∀ s, g (f s) = g s) →
  nlookup (g (shard (with_shard t u f) v)) tag v = nlookup (g (shard t v)) tag v.
Proof. intros Hwf Hf. rewrite shard_with_shard by done. case_decide; by rewrite ?Hf. Qed.

Lemma shard_replace_panel t tag al uid :
  wf t → ∃ m, shard (replace_panel_alive t tag al) uid =
    mkState (traffic (shard t uid)) (alive (shard t uid)) (alive_traffic (shard t uid))
      (put_node (panel_alive (shard t uid)) tag m).
Proof.
  intros Hwf. destruct (lookup_lt_is_Some_2 (split_by_shard al) (shard_index uid)) as [m Hm].
  { rewrite length_split_by_shard. apply shard_index_lt. }
  exists m. unfold shard at 1. simpl.
  by rewrite lookup_zip_with, (shard_lookup t uid Hwf), Hm.
Qed.

Lemma foldl_keeps {A B} (F : TrafficTracker → A → TrafficTracker) (view : TrafficTracker → B) l t :
  wf t → (∀ t a, wf t → wf (F t a) ∧ view (F t a) = view t) → view (foldl F t l) = view t.
Proof.
  intros Hwf HF. revert t Hwf. induction l as [|a l IH]; intros t Hwf; simpl; [done|].
  destruct (HF t a Hwf) as [Hwf' <-]. by apply IH.
Qed.

Lemma view_remove_users {V} (g : TrackerState → node_users V) t tag uids tag' v :
  (∀ s u, g (remove_user_state tag u s) = remove_user_from_node_map (g s) tag u) → wf t →
  nlookup (g (shard (remove_users t tag uids) v)) tag' v =
    if decide (tag = tag' ∧ v ∈ uids) then None else nlookup (g (shard t v)) tag' v.
Proof.
  intros Hg Hwf. revert t Hwf. induction uids as [|u uids IH]; intros t Hwf; simpl.
  { rewrite decide_False; [done|]. intros [_ ?%elem_of_nil]. done. }
  assert (wf (with_shard t u (remove_user_state tag u))) as Hwf'.
  { apply with_shard_wf; [done|]. intros. by apply remove_user_state_wf. }
  change (remove_users t tag (u :: uids))
    with (remove_users (with_shard t u (remove_user_state tag u)) tag uids).
  rewrite (IH _ Hwf'), shard_with_shard by done.
  destruct (decide (tag = tag' ∧ v ∈ u :: uids)) as [[<- Hin]|Hn].
  - destruct (decide (tag = tag ∧ v ∈ uids)) as [|Hd]; [done|].
    assert (v = u) as -> by set_solver.
    rewrite (decide_True (P := shard_index u = shard_index u)) by done.
    by rewrite Hg, nlookup_remove_user, decide_True.
  - rewrite (decide_False (P := tag = tag' ∧ v ∈ uids)) by set_solver.
    destruct (decide (shard_index u = shard_index v)); [|done].
    rewrite Hg, nlookup_remove_user, decide_False; [done|set_solver].
Qed.

Lemma view_reconcile {V} (g : TrackerState → node_users V) t tag active tag' v :
  (∀ s, g (reconcile_state tag active s) =
        retain_users (λ uid, bool_decide (uid ∈ active)) (g s) tag) → wf t →
  nlookup (g (shard (reconcile_users t tag active) v)) tag' v =
    if decide (tag = tag' ∧ v ∉ active) then None else nlookup (g (shard t v)) tag' v.
Proof.
  intros Hg Hwf. unfold reconcile_users. rewrite shard_fmap, Hg, nlookup_retain by done.
  apply decide_ext. by rewrite bool_decide_eq_false.
Qed.

(** The views of the alive map that no other operation touches. *)
Definition touches_alive (o : op) : bool :=
  match o with
  | OOpen _ _ _ _ | OClose _ _ _ | OReconcile _ _ | ORemove _ _ => true
  | _ => false
  end.

Lemma rest_of_restore t tag p tag' v :
  wf t → payload_ok p →
  alive_of (restore_traffic t tag p) tag' v = alive_of t tag' v ∧
  alive_traffic_of (restore_traffic t tag p) tag' v = alive_traffic_of t tag' v ∧
  panel_of (restore_traffic t tag p) tag' v = panel_of t tag' v ∧
  last_flush (restore_traffic t tag p) = last_flush t.
Proof.
  intros Hwf Hp. unfold restore_traffic. pose proof (payload_ok_list p Hp) as Hl. revert t Hwf.
  induction Hl as [|e l He _ IH]; intros t Hwf; simpl; [done|].
  destruct (IH _ (restore_entry_wf tag t e Hwf He)) as (->&->&->&->).
  destruct e as [k [up down]]. unfold restore_entry. destruct (parse_uint 64 k); [|done].
  split_and!; [by apply (view_with_shard alive)|by apply (view_with_shard alive_traffic)
              |by apply (view_with_shard panel_alive)|done].
Qed.

Lemma rest_of_snapshot t tag min tag' v :
  wf t →
  alive_of (snd (snapshot_traffic t tag min)) tag' v = alive_of t tag' v ∧
  alive_traffic_of (snd (snapshot_traffic t tag min)) tag' v = alive_traffic_of t tag' v ∧
  panel_of (snd (snapshot_traffic t tag min)) tag' v = panel_of t tag' v ∧
  last_flush (snd (snapshot_traffic t tag min)) = last_flush t.
Proof.
  intros Hwf. rewrite snapshot_traffic_shards.
  unfold alive_of, alive_traffic_of, panel_of. rewrite shard_fmap by done.
  destruct (snapshot_shard_rest tag min ∅ (shard t v)) as (->&->&->&_). done.
Qed.

Lemma commit_views t tag a tag' v :
  wf t →
  (traffic_of (commit_alive_snapshot t tag a) tag' v, alive_of (commit_alive_snapshot t tag a) tag' v)
  = (traffic_of t tag' v, alive_of t tag' v).
Proof.
  intros Hwf. unfold commit_alive_snapshot. case_bool_decide; [done|].
  apply (foldl_keeps _ (λ t, (traffic_of t tag' v, alive_of t tag' v))); [done|].
  intros t' [u c] Hwf'. split; [by apply commit_entry_wf|]. unfold commit_entry.
  f_equal; [apply (view_with_shard traffic)|apply (view_with_shard alive)];
    first [done | intros s; by destruct (alive_traffic s !! tag)].
Qed.

Lemma alive_of_step w o tag uid :
  world_wf w → touches_alive o = false →
  alive_of (trk (step w o)) tag uid = alive_of (trk w) tag uid.
Proof.
  intros (Hwf&Hp&_) Ho. destruct o; try done; simpl.
  - unfold add_traffic. destruct (_ && _); [done|]. by apply (view_with_shard alive).
  - pose proof (rest_of_snapshot (trk w) tag0 min_traffic tag uid Hwf) as (Ha&_).
    destruct (snapshot_traffic _ _ _) as [p t]; simpl in *. by case_bool_decide.
  - by destruct (in_flight w !! k).
  - destruct (in_flight w !! k) as [e|] eqn:E; [|done]. simpl.
    apply rest_of_restore; [done|]. by apply (Forall_lookup_1 _ _ _ _ Hp E).
  - destruct (shard_replace_panel (trk w) tag0 al uid Hwf) as [m Hm].
    unfold alive_of. by rewrite Hm.
  - pose proof (commit_views (trk w) tag0 a tag uid Hwf). simpl. congruence.
  - unfold flush_pending_traffic. by destruct (_ <? _).
Qed.

(** ** The device limit *)

Definition opens_with_limit (tag : bytes) (uid limit : Z) (o : op) : Prop :=
  match o with
  | OOpen tag' uid' _ l => tag' = tag → uid' = uid → l = Some limit
  | _ => True
  end.

Lemma devices_ips_of t tag uid : devices t tag uid = Z.of_nat (size (ips_of (shard t uid) tag uid)).
Proof. done. Qed.

Lemma close_ip_size ip ips : (size (close_ip ip ips) ≤ size ips)%nat.
Proof.
  unfold close_ip. destruct (ips !! ip) as [c|] eqn:E; [|done]. destruct (_ =? 0).
  - rewrite map_size_delete, E. simpl. lia.
  - rewrite map_size_insert, E. done.
Qed.

Lemma alive_of_open t tag uid ip limit tag' uid' :
  wf t → ¬ (tag = tag' ∧ uid = uid') →
  alive_of (snd (add_alive_ip_and_check_limit t tag uid ip limit)) tag' uid' =
  alive_of t tag' uid'.
Proof.
  intros Hwf Hne. unfold alive_of, add_alive_ip_and_check_limit. simpl.
  rewrite shard_with_shard by done. case_decide as Hi; [|done].
  rewrite add_alive_state_spec. cbv zeta. case_decide; [done|]. simpl.
  by rewrite nlookup_node_insert, decide_False.
Qed.

Lemma devices_open t tag uid ip limit :
  wf t → 0 < limit → devices t tag uid ≤ limit →
  devices (snd (add_alive_ip_and_check_limit t tag uid ip (Some limit))) tag uid ≤ limit.
Proof.
  intros Hwf Hl Hd. rewrite devices_ips_of in *. unfold add_alive_ip_and_check_limit. simpl.
  rewrite shard_with_shard, decide_True by done. rewrite add_alive_state_spec. cbv zeta.
  case_decide as Hr; [done|]. cbn [snd]. unfold ips_of at 1. simpl.
  rewrite nlookup_node_insert, decide_True by done. simpl default.
  rewrite map_size_insert. destruct (ips_of (shard t uid) tag uid !! ip) as [c|] eqn:E; [done|].
  unfold over_limit in Hr. destruct (limit <=? Z.of_nat (size (ips_of (shard t uid) tag uid))) eqn:El.
  - exfalso. apply Hr. split; [done|]. right. of_prop. by apply Z.leb_le in El.
  - to_prop; simpl; lia.
Qed.

Lemma devices_step w o tag uid limit :
  world_wf w → op_ok o → opens_with_limit tag uid limit o → 0 < limit →
  devices (trk w) tag uid ≤ limit → devices (trk (step w o)) tag uid ≤ limit.
Proof.
  intros Hw Ho Hl Hpos Hd. pose proof Hw as [Hwf _].
  destruct (touches_alive o) eqn:Et; [|unfold devices; by rewrite alive_of_step].
  destruct o; try done; cbn [step on_tracker trk opens_with_limit] in *.
  - destruct (decide (tag0 = tag ∧ uid0 = uid)) as [[-> ->]|Hne].
    + rewrite Hl by done. by apply devices_open.
    + unfold devices. by rewrite alive_of_open.
  - unfold devices, alive_of, remove_alive_ip. rewrite shard_with_shard by done.
    case_decide; [|done]. rewrite nlookup_remove_alive. case_decide as Hd'; [|done].
    destruct Hd' as [-> ->]. unfold devices, alive_of in Hd.
    destruct (nlookup _ tag uid) as [ips|]; simpl in *; [|done].
    pose proof (close_ip_size ip ips).
    destruct (decide _); simpl; rewrite ?map_size_empty; lia.
  - unfold devices, alive_of. rewrite (view_reconcile alive) by done.
    case_decide; [simpl; rewrite map_size_empty; lia|done].
  - unfold devices, alive_of. rewrite (view_remove_users alive) by done.
    case_decide; [simpl; rewrite map_size_empty; lia|done].
Qed.

(** C1: the device limit is never exceeded.  After any trace of operations
    (traffic, reports accepted or rejected, connections opened and closed,
    panel updates, user removals), a user whose every open on a node was
    checked against the same positive limit has at most that many distinct
    client addresses open on that node, whatever the other users and nodes
    did. *)
Theorem device_limit_never_exceeded ops tag uid limit :
  Forall op_ok ops → Forall (opens_with_limit tag uid limit) ops → 0 < limit →
  devices (trk (run ops)) tag uid ≤ limit.
Proof.
  intros Ho Hl Hpos. apply (run_ind (λ w, devices (trk w) tag uid ≤ limit)
    (opens_with_limit tag uid limit)); [| |done..].
  - unfold devices, alive_of. simpl trk. rewrite shard_empty. simpl.
    rewrite nlookup_empty. simpl. rewrite map_size_empty. lia.
  - intros. by apply devices_step.
Qed.

Lemma device_limit_never_exceeded_witness :
  let ip n := V4 [10; 0; 0; n] in
  let ops := [OOpen (B "n1") 7 (ip 1) (Some 2); OOpen (B "n1") 7 (ip 2) (Some 2);
              OOpen (B "n1") 7 (ip 3) (Some 2); OOpen (B "n1") 7 (ip 1) (Some 2)] in
  devices (trk (run ops)) (B "n1") 7 ≤ 2 ∧ devices (trk (run ops)) (B "n1") 7 = 2.
Proof.
  split; [|vm_compute; reflexivity].
  apply device_limit_never_exceeded; [repeat constructor; unfold in_width; lia| |lia].
  repeat constructor.
Defined.

(** Closing a connection undoes opening it.  When an open is admitted, the
    matching close brings back exactly the tracker from before the open
    (counts, alive traffic, panel view, every other user); a refused open
    changes nothing; and the open is refused exactly when the address is not
    already open and the panel's or the local count has reached a positive
    limit. *)
Theorem open_close_inverse t tag uid ip limit :
  wf t →
  let r := add_alive_ip_and_check_limit t tag uid ip limit in
  (fst r = true → remove_alive_ip (snd r) tag uid ip = t) ∧
  (fst r = false → snd r = t) ∧
  (fst r = false ↔
     default ∅ (alive_of t tag uid) !! ip = None ∧
     ∃ n, limit = Some n ∧ 0 < n ∧
       (n ≤ default 0 (panel_of t tag uid) ∨ n ≤ devices t tag uid)).
Proof.
  intros Hwf r. pose proof (add_alive_state_spec tag uid ip limit (shard t uid)) as Hs.
  cbv zeta in Hs. unfold r, add_alive_ip_and_check_limit. cbn [fst snd].
  split_and!.
  - intros Ha. unfold remove_alive_ip. rewrite with_shard_compose. apply with_shard_id; [done|].
    rewrite Hs in *. case_decide; [done|]. cbn [snd].
    by eapply close_open_state, shard_wf.
  - intros Ha. apply with_shard_id; [done|]. rewrite Hs in *. by case_decide.
  - rewrite Hs. unfold over_limit, devices, panel_of, alive_of in *. fold (ips_of (shard t uid) tag uid).
    case_decide as Hd; simpl; split.
    + intros _. destruct Hd as [? Hd]. split; [done|]. destruct limit as [n|]; [|naive_solver].
      exists n. rewrite !andb_true_iff, !Z.ltb_lt, !Z.leb_le in Hd. split_and!; [done|lia..].
    + done.
    + done.
    + intros (Hi&n&->&Hn&Ho). exfalso. apply Hd. split; [done|]. of_prop. lia.
Qed.

Lemma open_close_inverse_witness :
  let t := snd (add_alive_ip_and_check_limit empty (B "n1") 7 (V4 [10; 0; 0; 1]) (Some 1)) in
  wf t ∧
  remove_alive_ip (snd (add_alive_ip_and_check_limit t (B "n1") 7 (V4 [10; 0; 0; 1]) (Some 1)))
    (B "n1") 7 (V4 [10; 0; 0; 1]) = t.
Proof.
  intros t. assert (wf t) as Hwf.
  { apply with_shard_wf; [apply empty_wf|]. intros. apply add_alive_state_wf; [done|].
    unfold in_width; lia. }
  split; [done|]. apply (open_close_inverse t (B "n1") 7 (V4 [10; 0; 0; 1]) (Some 1) Hwf).
  vm_compute; reflexivity.
Defined.

(** ** Conservation of traffic *)

Inductive side := Up | Down.
Definition pick (d : side) (p : Z * Z) : Z := match d with Up => fst p | Down => snd p end.

Definition counter_side (d : side) (c : TrafficCounter) : Z := pick d (upload c, download c).
Definition pending (t : TrafficTracker) (tag : bytes) (uid : Z) (d : side) : Z :=
  counter_side d (default counter_default (traffic_of t tag uid)).
Definition in_payload (tag : bytes) (uid : Z) (d : side) (e : bytes * TrafficPayload) : Z :=
  if decide (fst e = tag) then pick d (default (0, 0) (snd e !! print_dec uid)) else 0.
Definition in_payloads (tag : bytes) (uid : Z) (d : side) (l : list (bytes * TrafficPayload)) : Z :=
  foldr Z.add 0 (in_payload tag uid d <$> l).
Definition op_adds (tag : bytes) (uid : Z) (d : side) (o : op) : Z :=
  match o with
  | OAdd tag' uid' up down =>
      if decide (tag' = tag ∧ uid' = uid) then pick d (up, down) else 0
  | _ => 0
  end.
Definition added (tag : bytes) (uid : Z) (d : side) (ops : list op) : Z :=
  foldr Z.add 0 (op_adds tag uid d <$> ops).

(** The operation does not drop the user from the node. *)
Definition keeps_user (tag : bytes) (uid : Z) (o : op) : Prop :=
  match o with
  | OReconcile tag' active => tag' = tag → uid ∈ active
  | ORemove tag' uids => tag' = tag → uid ∉ uids
  | _ => True
  end.

Definition balance (w : world) (tag : bytes) (uid : Z) (d : side) : Z :=
  pending (trk w) tag uid d + in_payloads tag uid d (in_flight w) +
  in_payloads tag uid d (reported w).

Lemma in_payloads_cons tag uid d e l :
  in_payloads tag uid d (e :: l) = in_payload tag uid d e + in_payloads tag uid d l.
Proof. done. Qed.

Lemma in_payload_empty tag uid d tag' : in_payload tag uid d (tag', ∅) = 0.
Proof. unfold in_payload. simpl. rewrite lookup_empty. case_decide; by destruct d. Qed.

Lemma in_payloads_app tag uid d l1 l2 :
  in_payloads tag uid d (l1 ++ l2) = in_payloads tag uid d l1 + in_payloads tag uid d l2.
Proof.
  induction l1 as [|e l1 IH]; [done|].
  rewrite <- app_comm_cons, !in_payloads_cons, IH. lia.
Qed.

Lemma in_payloads_delete tag uid d l k e :
  l !! k = Some e →
  in_payloads tag uid d l = in_payload tag uid d e + in_payloads tag uid d (delete k l).
Proof.
  intros He. rewrite (delete_take_drop l k). rewrite <- (take_drop_middle l k e He) at 1.
  rewrite !in_payloads_app, in_payloads_cons. lia.
Qed.

Lemma counter_side_bump d o up down :
  counter_side d (bump (default counter_default o) up down) =
    sat_add (counter_side d (default counter_default o)) (pick d (up, down)).
Proof. by destruct d. Qed.

Lemma in_payload_nonneg tag uid d e : payload_ok (snd e) → 0 ≤ in_payload tag uid d e.
Proof.
  intros Hp. unfold in_payload. case_decide; [|done].
  destruct (snd e !! print_dec uid) as [[up down]|] eqn:E; simpl; [|by destruct d].
  destruct (Hp _ _ E) as (?&_&_&?&?&_). simpl in *. destruct d; simpl; lia.
Qed.

Lemma in_payloads_nonneg tag uid d l :
  Forall (λ e, payload_ok (snd e)) l → 0 ≤ in_payloads tag uid d l.
Proof.
  induction 1 as [|e l He _ IH]; [done|]. rewrite in_payloads_cons.
  pose proof (in_payload_nonneg tag uid d e He). lia.
Qed.

Lemma pending_nonneg t tag uid d : wf t → 0 ≤ pending t tag uid d.
Proof.
  intros Hwf. unfold pending. destruct (traffic_of t tag uid) as [c|] eqn:E; simpl.
  - apply traffic_of_ok in E as (_&?&?&_); [|done]. destruct d; simpl; lia.
  - by destruct d.
Qed.

Lemma pending_add t tag uid up down tag' uid' d :
  wf t → in_width 64 up → in_width 64 down →
  pending t tag' uid' d + (if decide (tag = tag' ∧ uid = uid') then pick d (up, down) else 0)
    ≤ u64_max →
  pending (add_traffic t tag uid up down) tag' uid' d =
  pending t tag' uid' d + (if decide (tag = tag' ∧ uid = uid') then pick d (up, down) else 0).
Proof.
  intros Hwf Hu Hd Hb. unfold in_width in *.
  destruct ((up =? 0) && (down =? 0)) eqn:Ez.
  - unfold add_traffic. rewrite Ez. to_prop. subst. destruct d; simpl; case_decide; lia.
  - unfold pending in *. rewrite traffic_of_add by (done || lia || (to_prop; lia)).
    case_decide as Hdec; [|by rewrite Z.add_0_r]. destruct Hdec as [-> ->]. simpl default.
    rewrite counter_side_bump. by apply sat_add_exact.
Qed.

Lemma pending_report t tag min tag' uid' d :
  wf t → in_width 64 uid' →
  pending (snd (snapshot_traffic t tag min)) tag' uid' d +
    in_payload tag' uid' d (tag, fst (snapshot_traffic t tag min)) = pending t tag' uid' d.
Proof.
  intros Hwf Hu. unfold pending, in_payload. cbn [fst snd].
  rewrite traffic_of_snapshot by done. case_decide as Ht; [|lia]. subst tag'.
  rewrite snapshot_payload_user by done.
  destruct (traffic_of t tag uid') as [c|]; [|by destruct d].
  destruct (reportable min c); destruct d; simpl; lia.
Qed.

Lemma pending_restore t tag p tag' uid' d :
  wf t → payload_ok p → in_width 64 uid' →
  pending t tag' uid' d + in_payload tag' uid' d (tag, p) ≤ u64_max →
  pending (restore_traffic t tag p) tag' uid' d =
  pending t tag' uid' d + in_payload tag' uid' d (tag, p).
Proof.
  intros Hwf Hp Hu Hb. unfold pending, in_payload in *. cbn [fst snd] in *.
  rewrite traffic_of_restore by done. case_decide; [|lia].
  destruct (p !! print_dec uid') as [[up down]|]; simpl in *; [|destruct d; simpl in *; lia].
  rewrite counter_side_bump. by apply sat_add_exact.
Qed.

(** The operations other than adding, reporting and restoring leave the
    traffic of the users they keep alone. *)
Lemma traffic_of_step w o tag uid :
  world_wf w → keeps_user tag uid o →
  match o with OAdd _ _ _ _ | OReport _ _ | OAccepted _ | ORejected _ => False | _ => True end →
  traffic_of (trk (step w o)) tag uid = traffic_of (trk w) tag uid.
Proof.
  intros (Hwf&_&_) Hk Ho. destruct o; try done; cbn [step on_tracker trk].
  - apply (view_with_shard traffic); [done|]. intros s. rewrite add_alive_state_spec. cbv zeta.
    by case_decide.
  - apply (view_with_shard traffic); [done|]. intros s. apply remove_alive_rest.
  - destruct (shard_replace_panel (trk w) tag0 al uid Hwf) as [m Hm].
    unfold traffic_of. by rewrite Hm.
  - unfold traffic_of. rewrite (view_reconcile traffic) by done.
    rewrite decide_False; [done|]. simpl in Hk. naive_solver.
  - unfold traffic_of. rewrite (view_remove_users traffic) by done.
    rewrite decide_False; [done|]. simpl in Hk. naive_solver.
  - pose proof (commit_views (trk w) tag0 a tag uid Hwf). simpl. congruence.
  - unfold flush_pending_traffic. by destruct (_ <? _).
Qed.

Lemma balance_step w o tag uid d :
  world_wf w → op_ok o → keeps_user tag uid o → in_width 64 uid →
  balance w tag uid d + op_adds tag uid d o ≤ u64_max →
  balance (step w o) tag uid d = balance w tag uid d + op_adds tag uid d o.
Proof.
  intros Hw Ho Hk Hu Hb. pose proof Hw as (Hwf&Hp&Hr).
  pose proof (in_payloads_nonneg tag uid d _ Hp) as Np.
  pose proof (in_payloads_nonneg tag uid d _ Hr) as Nr.
  destruct o; try (unfold balance, pending; rewrite traffic_of_step by done;
    cbn [step on_tracker in_flight reported op_adds]; lia); unfold balance in *;
    cbn [step op_adds] in *.
  - destruct Ho as (_&?&?). cbn [on_tracker trk in_flight reported].
    rewrite pending_add by (done || lia). lia.
  - pose proof (pending_report (trk w) tag0 min_traffic tag uid d Hwf Hu) as He.
    destruct (snapshot_traffic (trk w) tag0 min_traffic) as [p t]; cbn [fst snd] in He.
    case_bool_decide as Hpe; cbn [on_tracker trk in_flight reported].
    + subst p. rewrite in_payload_empty in He. lia.
    + rewrite in_payloads_app, in_payloads_cons. change (in_payloads tag uid d []) with 0. lia.
  - destruct (in_flight w !! k) as [e|] eqn:E; [|lia]. cbn [trk in_flight reported].
    rewrite in_payloads_app, in_payloads_cons, (in_payloads_delete _ _ _ _ _ _ E).
    change (in_payloads tag uid d []) with 0. lia.
  - destruct (in_flight w !! k) as [[tg p]|] eqn:E; [|lia]. cbn [trk in_flight reported fst snd].
    rewrite (in_payloads_delete _ _ _ _ _ _ E) in *.
    pose proof (in_payloads_nonneg tag uid d _ (Forall_delete _ _ k Hp)).
    rewrite pending_restore; [lia|done| |done|lia].
    by apply (Forall_lookup_1 _ _ _ _ Hp E).
Qed.

Lemma op_adds_nonneg tag uid d o : op_ok o → 0 ≤ op_adds tag uid d o.
Proof.
  destruct o; simpl; try lia. intros (_&?&?). unfold in_width in *.
  case_decide; [|lia]. destruct d; simpl; lia.
Qed.

Lemma added_cons tag uid d o ops :
  added tag uid d (o :: ops) = op_adds tag uid d o + added tag uid d ops.
Proof. done. Qed.

Lemma added_nonneg tag uid d ops : Forall op_ok ops → 0 ≤ added tag uid d ops.
Proof.
  induction 1 as [|o ops Ho _ IH]; [done|]. rewrite added_cons.
  pose proof (op_adds_nonneg tag uid d o Ho). lia.
Qed.

Lemma balance_run ops w tag uid d :
  world_wf w → Forall op_ok ops → Forall (keeps_user tag uid) ops → in_width 64 uid →
  balance w tag uid d + added tag uid d ops ≤ u64_max →
  balance (foldl step w ops) tag uid d = balance w tag uid d + added tag uid d ops.
Proof.
  intros Hw Ho Hk Hu. revert w Hw. induction Ho as [|o ops Ho Hops IH]; intros w Hw Hb.
  { unfold added. simpl. lia. }
  inversion Hk; subst. pose proof (added_nonneg tag uid d ops Hops).
  rewrite added_cons in *. simpl foldl. pose proof (balance_step w o tag uid d) as Hs.
  rewrite IH; [rewrite Hs by (done || lia); lia|done|by apply step_wf|rewrite Hs by (done || lia); lia].
Qed.

(** C2: traffic is conserved.  After any trace in which the user is not
    dropped from the node and whose additions fit in a [u64], the bytes still
    pending in the tracker, the bytes in payloads whose request is running and
    the bytes in payloads the panel accepted add up to exactly the bytes that
    were recorded, in each direction: nothing is lost or billed twice, with
    requests failing and other operations running in between. *)
Theorem traffic_conserved ops tag uid d :
  Forall op_ok ops → Forall (keeps_user tag uid) ops → in_width 64 uid →
  added tag uid d ops ≤ u64_max →
  balance (run ops) tag uid d = added tag uid d ops.
Proof.
  intros Ho Hk Hu Hb. unfold run.
  assert (balance start tag uid d = 0) as H0.
  { unfold balance, pending, traffic_of. simpl trk. rewrite shard_empty. simpl.
    rewrite nlookup_empty. by destruct d. }
  rewrite balance_run; [by rewrite H0|apply start_wf|done..|by rewrite H0].
Qed.

Lemma traffic_conserved_witness :
  let ops := [OAdd (B "n1") 7 100 5; OReport (B "n1") 10; OAdd (B "n1") 7 3 0; ORejected 0;
              OReport (B "n1") 0; OAccepted 0; OAdd (B "n1") 7 1 1] in
  balance (run ops) (B "n1") 7 Up = 104 ∧
  in_payloads (B "n1") 7 Up (reported (run ops)) = 103.
Proof.
  split; [|vm_compute; reflexivity].
  rewrite (traffic_conserved _ (B "n1") 7 Up); [reflexivity| | |unfold in_width; lia|vm_compute; discriminate].
  - repeat constructor; simpl; unfold in_width; lia.
  - repeat constructor.
Defined.

Lemma bump_default c : counter_ok c → bump counter_default (upload c) (download c) = c.
Proof.
  intros (?&?&_). destruct c. unfold bump. simpl in *. f_equal; apply sat_add_exact; lia.
Qed.

(** A report the panel rejects leaves no trace: taking the payload and
    restoring it gives back the same tracker, every counter of every shard
    included. *)
Theorem rejected_push_is_identity t tag min_traffic :
  wf t → push_traffic t tag min_traffic false = (∅, t).
Proof.
  intros Hwf. unfold push_traffic.
  pose proof (snapshot_traffic_wf t tag min_traffic Hwf) as Hwf'.
  pose proof (snapshot_payload_ok t tag min_traffic Hwf) as Hp.
  pose proof (λ uid, snapshot_payload_user t tag min_traffic uid Hwf) as Hl.
  pose proof (λ tag' uid, traffic_of_snapshot t tag min_traffic tag' uid Hwf) as Ht.
  pose proof (λ tag' uid, rest_of_snapshot t tag min_traffic tag' uid Hwf) as Hrest.
  destruct (snapshot_traffic t tag min_traffic) as [p t']; cbn [fst snd] in *.
  assert (restore_traffic t' tag p = t) as Hr.
  { apply tracker_eq; [by apply restore_traffic_wf|done|..].
    - destruct (rest_of_restore t' tag p [] 0 Hwf' Hp) as (_&_&_&->). by destruct (Hrest [] 0) as (_&_&_&->).
    - intros tag' uid. destruct (decide (in_width 64 uid)) as [Hu|Hu].
      + rewrite traffic_of_restore, Ht by done. case_decide as Hd; [subst tag'|done].
        rewrite (Hl uid Hu). destruct (traffic_of t tag uid) as [c|] eqn:Ec; [|done].
        destruct (reportable min_traffic c); [|done]. simpl.
        rewrite bump_default; [done|]. by destruct (traffic_of_ok _ _ _ _ Hwf Ec).
      + assert (∀ t, wf t → traffic_of t tag' uid = None) as Hn.
        { intros t0 Hw0. destruct (traffic_of t0 tag' uid) eqn:E; [|done].
          by apply traffic_of_ok in E as [? _]. }
        rewrite !Hn by (done || by apply restore_traffic_wf). done.
    - intros tag' uid. destruct (rest_of_restore t' tag p tag' uid Hwf' Hp) as (->&_).
      by destruct (Hrest tag' uid) as (->&_).
    - intros tag' uid. destruct (rest_of_restore t' tag p tag' uid Hwf' Hp) as (_&->&_).
      by destruct (Hrest tag' uid) as (_&->&_).
    - intros tag' uid. destruct (rest_of_restore t' tag p tag' uid Hwf' Hp) as (_&_&->&_).
      by destruct (Hrest tag' uid) as (_&_&->&_). }
  case_bool_decide as He; [|by rewrite Hr]. f_equal. rewrite <- Hr, He.
  unfold restore_traffic. by rewrite map_to_list_empty.
Qed.

Lemma rejected_push_is_identity_witness :
  let t := add_traffic (add_traffic empty (B "n1") 7 100 5) (B "n1") 39 1 0 in
  push_traffic t (B "n1") 10 false = (∅, t) ∧ wf t.
Proof.
  intros t. assert (wf t) as Hwf.
  { repeat apply add_traffic_wf; try apply empty_wf; unfold in_width, u64_max; lia. }
  split; [by apply rejected_push_is_identity|done].
Defined.

(** A user the tracker holds anything about on the node. *)
Definition known_user (t : TrafficTracker) (tag : bytes) (uid : Z) : Prop :=
  is_Some (traffic_of t tag uid) ∨ is_Some (alive_of t tag uid) ∨
  is_Some (alive_traffic_of t tag uid) ∨ is_Some (panel_of t tag uid).

Lemma known_user_add t tag uid up down v :
  wf t → in_width 64 uid → 0 ≤ up ≤ u64_max → 0 ≤ down ≤ u64_max →
  known_user (add_traffic t tag uid up down) tag v → v = uid ∨ known_user t tag v.
Proof.
  intros Hwf Hu H1 H2 Hk. pose proof (add_traffic_wf t tag uid up down Hwf Hu H1 H2) as Hwf'.
  destruct (decide (v = uid)) as [|Hne]; [by left|right].
  assert (alive_of (add_traffic t tag uid up down) tag v = alive_of t tag v) as Ha.
  { unfold add_traffic. destruct (_ && _); [done|]. by apply (view_with_shard alive). }
  destruct Hk as [Hk|[Hk|[[n Hk]|Hk]]].
  - left. destruct ((up =? 0) && (down =? 0)) eqn:Ez; [unfold add_traffic in Hk; by rewrite Ez in Hk|].
    rewrite traffic_of_add in Hk by (done || lia || (to_prop; lia)).
    rewrite decide_False in Hk by naive_solver. done.
  - right; left. by rewrite Ha in Hk.
  - right; left. rewrite <- Ha. by eapply (wf_alive_traffic _ _ (shard_wf _ v Hwf')).
  - right; right; right. unfold add_traffic in Hk. destruct (_ && _); [done|].
    unfold panel_of in Hk. by rewrite (view_with_shard panel_alive) in Hk.
Qed.

Lemma known_user_empty tag v : ¬ known_user empty tag v.
Proof.
  unfold known_user, traffic_of, alive_of, alive_traffic_of, panel_of. rewrite shard_empty. simpl.
  rewrite !nlookup_empty. by intros [[]|[[]|[[]|[]]]].
Qed.

(** The cheap delta update agrees with the full reconciliation.  When the
    removed ids are exactly the tracked users missing from the panel's full
    list, [remove_users] and [reconcile_users] give the same tracker. *)
Theorem delta_removal_agrees_with_reconcile t tag removed active :
  wf t → (∀ uid, known_user t tag uid → (uid ∈ removed ↔ uid ∉ active)) →
  remove_users t tag removed = reconcile_users t tag active.
Proof.
  intros Hwf Hk.
  assert (∀ V (g : TrackerState → node_users V),
    (∀ s u, g (remove_user_state tag u s) = remove_user_from_node_map (g s) tag u) →
    (∀ s, g (reconcile_state tag active s) =
          retain_users (λ uid, bool_decide (uid ∈ active)) (g s) tag) →
    (∀ uid, is_Some (nlookup (g (shard t uid)) tag uid) → known_user t tag uid) →
    ∀ tag' uid, nlookup (g (shard (remove_users t tag removed) uid)) tag' uid =
                nlookup (g (shard (reconcile_users t tag active) uid)) tag' uid) as Hg.
  { intros V g G1 G2 G3 tag' uid. rewrite view_remove_users, view_reconcile by done.
    destruct (decide (tag = tag')) as [<-|Hne];
      [|by rewrite !decide_False by naive_solver].
    destruct (nlookup (g (shard t uid)) tag uid) eqn:E; [|by repeat case_decide].
    apply decide_ext. rewrite Hk; [done|]. apply G3. eauto. }
  apply tracker_eq; [by apply remove_users_wf|by apply reconcile_users_wf|..].
  - change (last_flush (reconcile_users t tag active)) with (last_flush t).
    apply (foldl_keeps _ last_flush); [done|]. intros. split; [|done].
    apply with_shard_wf; [done|]. intros. by apply remove_user_state_wf.
  - apply (Hg _ traffic); [done..|]. unfold known_user. eauto.
  - apply (Hg _ alive); [done..|]. unfold known_user. eauto.
  - apply (Hg _ alive_traffic); [done..|]. unfold known_user. eauto.
  - apply (Hg _ panel_alive); [done..|]. unfold known_user. eauto 10.
Qed.

Lemma delta_removal_agrees_with_reconcile_witness :
  let t := add_traffic (add_traffic empty (B "n1") 7 100 5) (B "n1") 39 1 0 in
  remove_users t (B "n1") [39] = reconcile_users t (B "n1") {[7]} ∧
  traffic_of (remove_users t (B "n1") [39]) (B "n1") 7 = Some (mkCounter 100 5).
Proof.
  intros t. split; [|vm_compute; reflexivity]. apply delta_removal_agrees_with_reconcile.
  - repeat apply add_traffic_wf; try apply empty_wf; unfold in_width, u64_max; lia.
  - intros uid Hk.
    apply known_user_add in Hk as [->|Hk]; [set_solver|..];
      [|first [apply add_traffic_wf | unfold in_width, u64_max]; try apply empty_wf;
        unfold in_width, u64_max; lia..].
    apply known_user_add in Hk as [->|Hk%known_user_empty]; [set_solver|done|apply empty_wf|..];
      unfold in_width, u64_max; lia.
Defined.

(** ** The restart snapshot *)

#[global] Instance str_leb_total : Total (λ a b, str_leb a b = true).
Proof.
  intros a. induction a as [|x a IH]; intros [|y b]; simpl; eauto.
  rewrite (Z.eqb_sym y x). destruct (x =? y) eqn:E; [apply IH|].
  rewrite !Z.ltb_lt. to_prop. lia.
Qed.

Lemma str_leb_trans a b c : str_leb a b = true → str_leb b c = true → str_leb a c = true.
Proof.
  revert b c. induction a as [|x a IH]; intros [|y b] [|z c]; simpl; try done.
  destruct (x =? y) eqn:E1, (y =? z) eqn:E2, (x =? z) eqn:E3; to_prop; subst;
    rewrite ?Z.ltb_lt; try lia; eauto.
Qed.

Lemma str_leb_antisym a b : str_leb a b = true → str_leb b a = true → a = b.
Proof.
  revert b. induction a as [|x a IH]; intros [|y b]; simpl; try done.
  rewrite (Z.eqb_sym y x). destruct (x =? y) eqn:E; to_prop.
  - subst. intros. f_equal. eauto.
  - rewrite !Z.ltb_lt. lia.
Qed.

#[global] Instance tag_le_trans : Transitive tag_le.
Proof. intros a b c. apply str_leb_trans. Qed.
#[global] Instance tag_le_total : Total tag_le.
Proof. intros a b. apply (str_leb_total (node_tag a) (node_tag b)). Qed.

(** The inner loop takes exactly the nodes with the tag: in a sorted list they
    are adjacent. *)
Lemma same_tag_spec tag nodes us rest :
  same_tag tag nodes = (us, rest) → StronglySorted tag_le nodes →
  Forall (λ n, str_leb tag (node_tag n) = true) nodes →
  StronglySorted tag_le rest ∧ (length rest ≤ length nodes)%nat ∧
  (∀ n, n ∈ rest ↔ n ∈ nodes ∧ node_tag n ≠ tag) ∧
  (∀ u, u ∈ us ↔ ∃ n, n ∈ nodes ∧ node_tag n = tag ∧ u ∈ users n).
Proof.
  revert us rest. induction nodes as [|n nodes IH]; intros us rest Hst Hs Hle; simpl in *.
  { injection Hst as <- <-. set_solver. }
  inversion Hs as [|?? Hs' Hn]; subst. inversion Hle as [|?? Hn' Hle']; subst.
  case_bool_decide as Ht.
  - destruct (same_tag tag nodes) as [us' rest'] eqn:E. injection Hst as <- <-.
    destruct (IH _ _ eq_refl Hs' Hle') as (?&?&Hr&Hu). split_and!; [done|lia|set_solver|].
    intros u. rewrite elem_of_app, Hu. split.
    + intros [?|(m&?&?&?)]; [exists n; set_solver|exists m; set_solver].
    + intros (m&[->|Hm]%elem_of_cons&?&?); [by left|right; eauto].
  - injection Hst as <- <-.
    assert (∀ m, m ∈ n :: nodes → node_tag m ≠ tag) as Hall.
    { intros m [->|Hm]%elem_of_cons E; [done|]. apply Ht, str_leb_antisym; [|done].
      rewrite Forall_forall in Hn. specialize (Hn m Hm). unfold tag_le in Hn. by rewrite E in Hn. }
    split_and!; [done|done|naive_solver|]. intros u. split; [set_solver|].
    intros (m&Hm&E&_). by destruct (Hall m Hm).
Qed.

(** The encoder opens one object per tag, holding the users of all the nodes
    that carry the tag. *)
Lemma json_nodes_spec fuel nodes :
  (length nodes ≤ fuel)%nat → StronglySorted tag_le nodes →
  (∀ tag us, (tag, us) ∈ json_nodes fuel nodes →
     (∃ n, n ∈ nodes ∧ node_tag n = tag) ∧
     ∀ u, u ∈ us ↔ ∃ n, n ∈ nodes ∧ node_tag n = tag ∧ u ∈ users n) ∧
  (∀ n, n ∈ nodes → ∃ us, (node_tag n, us) ∈ json_nodes fuel nodes).
Proof.
  revert nodes. induction fuel as [|fuel IH]; intros [|n nodes] Hl Hs; simpl in *;
    [set_solver|lia|set_solver|].
  rewrite bool_decide_eq_true_2 by done.
  inversion Hs as [|?? Hs' Hn]; subst.
  destruct (same_tag (node_tag n) nodes) as [us rest] eqn:E.
  destruct (same_tag_spec _ _ _ _ E Hs' Hn) as (Hsr&Hlr&Hr&Hu).
  destruct (IH rest ltac:(lia) Hsr) as [H1 H2]. split.
  - intros tag us' [[= -> ->]|Hin]%elem_of_cons.
    + split; [exists n; set_solver|]. intros u. rewrite elem_of_app, Hu. split.
      * intros [?|(m&?&?&?)]; [exists n; set_solver|exists m; set_solver].
      * intros (m&[->|Hm]%elem_of_cons&?&?); [by left|right; eauto].
    + destruct (H1 _ _ Hin) as [(m'&[Hm' Hne]%Hr&<-) Hus].
      split; [exists m'; set_solver|]. intros u. rewrite Hus.
      split; intros (m&Hm&Et&Hum); exists m; (split; [|done]).
      * apply Hr in Hm as [? ?]. by right.
      * apply elem_of_cons in Hm as [->|Hm]; [congruence|]. apply Hr. by rewrite Et.
  - intros m [->|Hm]%elem_of_cons; [set_solver|].
    destruct (decide (node_tag m = node_tag n)) as [->|Hne]; [set_solver|].
    destruct (H2 m) as [us' ?]; [by apply Hr|]. set_solver.
Qed.

Lemma capture_spec t tag u :
  wf t →
  (∃ n, n ∈ capture_traffic_snapshot t ∧ node_tag n = tag ∧ u ∈ users n) ↔
  traffic_of t tag (fst u) = Some (snd u).
Proof.
  intros Hwf. rewrite <- elem_of_shards by done. unfold capture_traffic_snapshot.
  setoid_rewrite merge_sort_Permutation. setoid_rewrite list_elem_of_bind.
  setoid_rewrite list_elem_of_fmap. destruct u as [uid c]. simpl. split.
  - intros (n&(s&([tag' us]&->&Hin)&Hs)&<-&Hu). simpl in *. exists s. split; [done|].
    apply elem_of_map_to_list in Hin, Hu. apply nlookup_Some. eauto.
  - intros (s&Hs&(us&Hin&Hu)%nlookup_Some). exists (mkNode tag (map_to_list us)). split_and!.
    + exists s. split; [|done]. exists (tag, us). split; [done|]. by apply elem_of_map_to_list.
    + done.
    + by apply elem_of_map_to_list.
Qed.

(** What [serde_json] makes of the objects of the file: a map per object, a
    later key replacing an earlier one. *)
Definition read_objects (objs : list (bytes * list (Z * TrafficCounter))) :
    node_users TrafficCounter :=
  collect_map ((λ n, (fst n, collect_map (snd n))) <$> objs).

Lemma read_objects_spec t tag uid c :
  wf t →
  let nodes := capture_traffic_snapshot t in
  nlookup (read_objects (json_nodes (length nodes) nodes)) tag uid = Some c ↔
  traffic_of t tag uid = Some c.
Proof.
  intros Hwf nodes. pose proof (λ tag u, capture_spec t tag u Hwf) as Hcap. fold nodes in Hcap.
  destruct (json_nodes_spec (length nodes) nodes) as [H1 H2]; [done|apply StronglySorted_merge_sort; apply _|].
  assert (∀ tag us, (tag, us) ∈ json_nodes (length nodes) nodes →
    ∀ uid c, collect_map us !! uid = Some c ↔ traffic_of t tag uid = Some c) as Hus.
  { intros tag' us Hin uid' c'. destruct (H1 _ _ Hin) as [_ Hu].
    rewrite collect_map_spec, Hu, Hcap; [done|].
    intros k v v'. rewrite !Hu, !Hcap. simpl. congruence. }
  assert (∀ tag us, read_objects (json_nodes (length nodes) nodes) !! tag = Some us ↔
    (tag, us) ∈ (λ n, (fst n, collect_map (snd n))) <$> json_nodes (length nodes) nodes) as Hr.
  { intros tag' us. apply collect_map_spec. clear tag' us. intros k v v'.
    rewrite !list_elem_of_fmap. intros ([? us]&[= -> ->]&Hv) ([? us']&[= -> ->]&Hv'). simpl.
    apply map_eq. intros i. apply option_eq. intros x. by rewrite (Hus _ _ Hv), (Hus _ _ Hv'). }
  rewrite nlookup_Some. setoid_rewrite Hr. setoid_rewrite list_elem_of_fmap. split.
  - intros (n&([tag' us]&[= -> ->]&Hin)&Hc). by rewrite <- (Hus _ _ Hin).
  - intros Hc. destruct (proj2 (Hcap tag (uid, c)) Hc) as (n&Hn&<-&_).
    destruct (H2 n Hn) as [us Hin]. exists (collect_map us).
    split; [by exists (node_tag n, us)|]. by apply (Hus _ _ Hin).
Qed.

(** Loading, as one pass over the (tag, user, counter) entries. *)
Definition load_flat (t : TrafficTracker) (l : list (bytes * (Z * TrafficCounter))) :=
  foldl (λ t e, load_entry (fst e) t (snd e)) t l.
Definition flat_entries (m : node_users TrafficCounter) : list (bytes * (Z * TrafficCounter)) :=
  map_to_list m ≫= λ n, (λ u, (fst n, u)) <$> map_to_list (snd n).

Lemma load_flat_eq m : load m = load_flat empty (flat_entries m).
Proof.
  unfold load, load_flat, flat_entries. generalize empty.
  induction (map_to_list m) as [|n l IH]; intros t; [done|]. simpl.
  rewrite foldl_app, <- IH. f_equal. clear.
  revert t. induction (map_to_list n.2) as [|u us IH]; intros t; simpl; [done|]. by rewrite IH.
Qed.

Lemma elem_of_flat_entries m tag uid c :
  (tag, (uid, c)) ∈ flat_entries m ↔ nlookup m tag uid = Some c.
Proof.
  unfold flat_entries. rewrite list_elem_of_bind, nlookup_Some. split.
  - intros ([tag' n]&([u v]&[= -> -> ->]&Hu)%list_elem_of_fmap&Hn).
    apply elem_of_map_to_list in Hu, Hn. eauto.
  - intros (n&Hn&Hu). exists (tag, n). split; [|by apply elem_of_map_to_list].
    apply list_elem_of_fmap. exists (uid, c). split; [done|]. by apply elem_of_map_to_list.
Qed.

Lemma load_entry_wf tag t u :
  wf t → in_width 64 (fst u) → counter_ok (snd u) → wf (load_entry tag t u).
Proof.
  intros Hwf Hu Hc. apply with_shard_wf; [done|]. intros s Hs.
  apply wf_state_traffic; [done|apply node_insert_wf, Hs|].
  intros tag' uid' c. rewrite nlookup_node_insert. case_decide as Hd; [|apply Hs].
  intros [= <-]. by destruct Hd as [_ <-].
Qed.

Lemma traffic_of_load_entry tag t u tag' uid' :
  wf t →
  traffic_of (load_entry tag t u) tag' uid' =
    if decide (tag = tag' ∧ fst u = uid') then Some (snd u) else traffic_of t tag' uid'.
Proof.
  intros Hwf. unfold traffic_of, load_entry. rewrite shard_with_shard by done.
  destruct (decide (shard_index (fst u) = shard_index uid')) as [Hi|Hi]; simpl.
  - by rewrite nlookup_node_insert.
  - rewrite decide_False; [done|]. intros [_ E]. by rewrite E in Hi.
Qed.

Lemma load_flat_spec l :
  Forall (λ e, in_width 64 (fst (snd e)) ∧ counter_ok (snd (snd e))) l →
  (∀ tag uid c c', (tag, (uid, c)) ∈ l → (tag, (uid, c')) ∈ l → c = c') →
  wf (load_flat empty l) ∧
  (∀ tag uid c, traffic_of (load_flat empty l) tag uid = Some c ↔ (tag, (uid, c)) ∈ l) ∧
  ∀ tag uid, alive_of (load_flat empty l) tag uid = None ∧
             alive_traffic_of (load_flat empty l) tag uid = None ∧
             panel_of (load_flat empty l) tag uid = None ∧ last_flush (load_flat empty l) = 0.
Proof.
  induction l as [|[tag [uid c]] l IH] using rev_ind; intros Hl Hf.
  { split_and!; [apply empty_wf|..].
    - intros tag uid c. unfold traffic_of. cbn [load_flat foldl]. rewrite shard_empty. simpl.
      rewrite nlookup_empty. set_solver.
    - intros tag uid. unfold alive_of, alive_traffic_of, panel_of. cbn [load_flat foldl].
      rewrite shard_empty. simpl. by rewrite !nlookup_empty. }
  apply Forall_app in Hl as [Hl [He _]%Forall_cons]. simpl in He.
  destruct IH as (Hwf&Ht&Hr); [done|intros t' u' ????; apply (Hf t' u'); set_solver|].
  unfold load_flat in *. rewrite foldl_app. cbn [foldl fst snd]. split_and!.
  - by apply load_entry_wf; [|apply He..].
  - intros tag' uid' c'. rewrite traffic_of_load_entry, elem_of_app by done. simpl.
    case_decide as Hd; [destruct Hd as [-> ->]|].
    + split; [intros [= ->]; set_solver|]. intros [Hin|Hin]; [|set_solver]. f_equal.
      eapply (Hf tag' uid'); set_solver.
    + rewrite Ht. set_solver.
  - intros tag' uid'. destruct (Hr tag' uid') as (Ha&Hat&Hp&?).
    unfold alive_of, alive_traffic_of, panel_of, load_entry in *.
    rewrite (view_with_shard alive), (view_with_shard alive_traffic),
      (view_with_shard panel_alive) by done. done.
Qed.

Definition only_traffic (s : TrackerState) : TrackerState := mkState (traffic s) ∅ ∅ ∅.

Lemma only_traffic_wf t l : wf t → wf (mkTracker (only_traffic <$> shards t) l).
Proof.
  intros Hwf. destruct (fmap_shards_wf t only_traffic Hwf) as [Hl Hs]; [|by split].
  intros i s []. constructor; simpl; eauto with shoes; intros tag uid v; by rewrite nlookup_empty.
Qed.

(** A restart loses no pending traffic.  The objects the restart snapshot
    writes (sorted, with the per-shard pieces of a node grouped under one
    key), read back as maps and loaded, give a tracker with the same traffic
    in every shard and nothing else. *)
Theorem restart_restores_traffic t :
  wf t →
  let nodes := capture_traffic_snapshot t in
  load (read_objects (json_nodes (length nodes) nodes)) =
  mkTracker (only_traffic <$> shards t) 0.
Proof.
  intros Hwf nodes. set (m := read_objects _).
  assert (∀ tag uid c, (tag, (uid, c)) ∈ flat_entries m ↔ traffic_of t tag uid = Some c) as Hm.
  { intros. rewrite elem_of_flat_entries. by apply read_objects_spec. }
  rewrite load_flat_eq. destruct (load_flat_spec (flat_entries m)) as (Hw&Ht&Hr).
  { apply Forall_forall. intros [tag [uid c]] Hin%Hm. simpl. by eapply traffic_of_ok. }
  { intros tag uid c c' H1%Hm H2%Hm. congruence. }
  pose proof (only_traffic_wf t 0 Hwf) as Hw'.
  apply tracker_eq; [done|done|by destruct (Hr [] 0) as (_&_&_&->)|..]; intros tag uid.
  - apply option_eq. intros c. rewrite Ht, Hm. unfold traffic_of. by rewrite shard_fmap.
  - destruct (Hr tag uid) as (->&_). unfold alive_of. rewrite shard_fmap by done.
    simpl. by rewrite nlookup_empty.
  - destruct (Hr tag uid) as (_&->&_). unfold alive_traffic_of. rewrite shard_fmap by done.
    simpl. by rewrite nlookup_empty.
  - destruct (Hr tag uid) as (_&_&->&_). unfold panel_of. rewrite shard_fmap by done.
    simpl. by rewrite nlookup_empty.
Qed.

Lemma restart_restores_traffic_witness :
  let t := add_traffic (add_traffic empty (B "n1") 7 100 5) (B "n1") 8 1 0 in
  let nodes := capture_traffic_snapshot t in
  length nodes = 2%nat ∧
  json_nodes (length nodes) nodes = [(B "n1", [(7, mkCounter 100 5); (8, mkCounter 1 0)])] ∧
  load (read_objects (json_nodes (length nodes) nodes)) =
  mkTracker (only_traffic <$> shards t) 0.
Proof.
  intros t nodes. split_and!; [vm_compute; reflexivity..|]. apply restart_restores_traffic.
  repeat apply add_traffic_wf; try apply empty_wf; unfold in_width, u64_max; lia.
Defined.
