(* ===== verification/Selector.v ===== *)
(** * Rule matching and the routing cache ([src/client_proxy_selector.rs])

    A selector scans its rules in order and takes the action of the first one
    with a matching matcher; the destination is resolved lazily, at most once,
    and remembered in the location.  Large rule lists put an LRU cache of
    decisions in front of the scan.

    Parameters: the [regex] crate ([Regex], [regex_is_match]), the [Resolver]
    trait object ([resolve]: what it answers for a location), the [lru] crate
    (class [Lru], with the laws the cache relies on) and [str::to_lowercase],
    which needs the Unicode tables.  [ClientChainGroup] is only handed through
    and is a type parameter.  Log calls and the formatted parts of error
    messages are left out. *)
From S2P Require Import Prelude Text Address.
Import Net Addr.
Local Open Scope Z_scope.

Module Selector.

Inductive SniffedProtocol := Http | Tls | Quic | Bittorrent | Ssh.
#[global] Instance SniffedProtocol_eq_dec : EqDecision SniffedProtocol.
Proof. solve_decision. Defined.

Definition from_route_label (label : bytes) : option SniffedProtocol :=
  let l := to_ascii_lowercase (trim label) in
  if bool_decide (l = B "http") then Some Http
  else if bool_decide (l = B "tls") || bool_decide (l = B "https") then Some Tls
  else if bool_decide (l = B "quic") then Some Quic
  else if bool_decide (l = B "bittorrent") || bool_decide (l = B "bt") then Some Bittorrent
  else if bool_decide (l = B "ssh") then Some Ssh
  else None.

Definition as_str (p : SniffedProtocol) : bytes :=
  match p with
  | Http => B "http" | Tls => B "tls" | Quic => B "quic"
  | Bittorrent => B "bittorrent" | Ssh => B "ssh"
  end.

Inductive ConnectMatcher (Regex : Type) :=
  | Location (mask : NetLocationMask)
  | DomainKeyword (keyword : bytes)
  | DomainFull (domain : bytes)
  | DomainSuffix (domain : bytes)
  | DomainRegex (regex : Regex)
  | Protocol (protocol : SniffedProtocol).
Arguments Location {Regex}. Arguments DomainKeyword {Regex}. Arguments DomainFull {Regex}.
Arguments DomainSuffix {Regex}. Arguments DomainRegex {Regex}. Arguments Protocol {Regex}.

Definition domain_keyword {R} (value : bytes) : ConnectMatcher R :=
  DomainKeyword (to_ascii_lowercase value).
Definition domain_full {R} (value : bytes) : ConnectMatcher R :=
  DomainFull (to_ascii_lowercase value).
Definition domain_suffix {R} (value : bytes) : ConnectMatcher R :=
  DomainSuffix (to_ascii_lowercase value).

Inductive ConnectAction (G : Type) :=
  | Allow (override_address : option NetLocation) (chain_group : G)
  | Block.
Arguments Allow {G}. Arguments Block {G}.

Record ConnectRule (R G : Type) := mkRule {
  matchers : list (ConnectMatcher R);
  action : ConnectAction G;
}.
Arguments mkRule {R G}. Arguments matchers {R G}. Arguments action {R G}.

Definition rule_new {R G} (masks : list NetLocationMask) (a : ConnectAction G) : ConnectRule R G :=
  mkRule (Location <$> masks) a.

Inductive ConnectDecision (G : Type) :=
  | DAllow (chain_group : G) (remote_location : ResolvedLocation)
  | DBlock.
Arguments DAllow {G}. Arguments DBlock {G}.

Definition to_decision {G} (a : ConnectAction G) (loc : ResolvedLocation) : ConnectDecision G :=
  match a with
  | Allow override_address chain_group =>
      let remote_location :=
        match override_address with
        | Some l => Resolved_new (if 0 <? port l then l
                                  else mkNetLocation (address l) (port (location loc)))
        | None => loc
        end in
      DAllow chain_group remote_location
  | Block => DBlock
  end.

Definition matcher_requires_sniff {R} (m : ConnectMatcher R) : bool :=
  match m with Protocol _ => true | _ => false end.
Definition requires_protocol_sniff {R G} (rules : list (ConnectRule R G)) : bool :=
  existsb (λ r, existsb matcher_requires_sniff (matchers r)) rules.

(** ** Numbers of addresses and domain suffixes *)

Definition ipv4_to_u128 (o : bytes) : Z := be_decode (replicate 10 0 ++ [255; 255] ++ o).
Definition ipv6_to_u128 (o : bytes) : Z := be_decode o.
Definition ip_to_u128 (ip : IpAddr) : Z :=
  match ip with V4 o => ipv4_to_u128 o | V6 o => ipv6_to_u128 o end.

(** The index is in range: the hostname ends with the shorter base domain. *)
Definition matches_domain (base_domain hostname : bytes) : bool :=
  if ends_with base_domain hostname
  then if (length hostname =? length base_domain)%nat then true
       else bool_decide (hostname !! (length hostname - length base_domain - 1)%nat = Some 46)
  else false.

(** ** Matching *)

Section matching.
Context {R G : Type} (regex_is_match : R → bytes → bool).
Context (resolve : NetLocation → io_error + list SocketAddr).

Definition resolve_single_address (l : NetLocation) : io_error + SocketAddr :=
  match to_socket_addr_nonblocking l with
  | Some a => inr a
  | None =>
      match resolve l with
      | inl e => inl e
      | inr [] => inl (IoError Other "could not resolve location")
      | inr (a :: _) => inr a
      end
  end.

Definition resolve_location (l : ResolvedLocation) : (io_error + SocketAddr) * ResolvedLocation :=
  match resolved_addr l with
  | Some a => (inr a, l)
  | None =>
      match resolve_single_address (location l) with
      | inl e => (inl e, l)
      | inr a => (inr a, set_resolved l a)
      end
  end.

(** A match attempt: the answer or one of the two errors. *)
Inductive match_result := MOk (b : bool) | MNonFatal (e : io_error) | MFatal (e : io_error).

(** The mutable state of a match: the location and the resolved address. *)
Definition mstate : Type := ResolvedLocation * option Z.

(** Compare the masked destination with the rule's address. *)
Definition compare_masked (mask : NetLocationMask) (ip : Z) : match_result :=
  let netmask := netmask (address_mask mask) in
  let masked_ip := Z.land ip netmask in
  match am_address (address_mask mask) with
  | Ipv4 o => MOk (Z.land (ipv4_to_u128 o) netmask =? masked_ip)
  | Ipv6 o => MOk (Z.land (ipv6_to_u128 o) netmask =? masked_ip)
  | Hostname h =>
      match resolve (mkNetLocation (Hostname h) (lm_port mask)) with
      | inl e => MNonFatal e
      | inr addrs =>
          MOk (existsb (λ a, Z.land (ip_to_u128 (sa_ip a)) netmask =? masked_ip) addrs)
      end
  end.

Definition match_mask (resolve_rule_hostnames : bool) (mask : NetLocationMask) (s : mstate) :
    match_result * mstate :=
  let '(loc, resolved_ip) := s in
  let am := address_mask mask in
  if (0 <? lm_port mask) && negb (lm_port mask =? port (location loc)) then (MOk false, s)
  else if netmask am =? 0 then (MOk true, s)
  else
    let go :=
      match resolved_ip with
      | Some ip => (compare_masked mask ip, s)
      | None =>
          match resolve_location loc with
          | (inl e, loc) => (MFatal e, (loc, None))
          | (inr a, loc) =>
              let ip := ip_to_u128 (sa_ip a) in (compare_masked mask ip, (loc, Some ip))
          end
      end in
    match hostname (am_address am) with
    | Some h =>
        match hostname (address (location loc)) with
        | Some remote => (MOk (matches_domain h remote), s)
        | None => if negb resolve_rule_hostnames then (MOk false, s) else go
        end
    | None => go
    end.

Definition match_matcher (resolve_rule_hostnames : bool) (sniffed : option SniffedProtocol)
    (m : ConnectMatcher R) (s : mstate) : match_result * mstate :=
  let on_host (f : bytes → bool) : match_result * mstate :=
    (MOk match hostname (address (location (fst s))) with Some h => f h | None => false end, s) in
  match m with
  | Location mask => match_mask resolve_rule_hostnames mask s
  | DomainKeyword k =>
      on_host (λ h, negb (bool_decide (k = [])) && contains k (to_ascii_lowercase h))
  | DomainFull d => on_host (λ h, negb (bool_decide (d = [])) && eq_ignore_ascii_case h d)
  | DomainSuffix d =>
      on_host (λ h, negb (bool_decide (d = [])) && matches_domain d (to_ascii_lowercase h))
  | DomainRegex r => on_host (regex_is_match r)
  | Protocol p => (MOk (bool_decide (sniffed = Some p)), s)
  end.

(** The two nested loops of [match_rule]. *)
Fixpoint match_matchers (flag : bool) (sniffed : option SniffedProtocol)
    (ms : list (ConnectMatcher R)) (s : mstate) : outcome bool * mstate :=
  match ms with
  | [] => (Ok false, s)
  | m :: ms =>
      match match_matcher flag sniffed m s with
      | (MOk true, s) => (Ok true, s)
      | (MFatal _, s) => (err Other "fatal error while matching route matcher", s)
      | (_, s) => match_matchers flag sniffed ms s
      end
  end.

Fixpoint match_rule_from (flag : bool) (sniffed : option SniffedProtocol) (i : nat)
    (rules : list (ConnectRule R G)) (s : mstate) : outcome (option nat) * mstate :=
  match rules with
  | [] => (Ok None, s)
  | r :: rules =>
      match match_matchers flag sniffed (matchers r) s with
      | (Ok true, s) => (Ok (Some i), s)
      | (Ok false, s) => match_rule_from flag sniffed (S i) rules s
      | (Err e, s) => (Err e, s)
      | (Panic, s) => (Panic, s)
      end
  end.

Definition match_rule (flag : bool) (sniffed : option SniffedProtocol)
    (rules : list (ConnectRule R G)) (s : mstate) : outcome (option nat) * mstate :=
  match_rule_from flag sniffed 0 rules s.

(** [self.rules[rule_index].action.to_decision(location)] *)
Definition decide_at (rules : list (ConnectRule R G)) (i : nat) (loc : ResolvedLocation) :
    outcome (ConnectDecision G) :=
  r ← index rules i; Ok (to_decision (action r) loc).

Definition judge_uncached_with_protocol (flag : bool) (rules : list (ConnectRule R G))
    (loc : ResolvedLocation) (resolved_ip : option Z) (sniffed : option SniffedProtocol) :
    outcome (ConnectDecision G) :=
  let '(r, (loc, _)) := match_rule flag sniffed rules (loc, resolved_ip) in
  found ← r;
  match found with
  | Some i => decide_at rules i loc
  | None => Ok DBlock
  end.

(** [location.resolved_addr().map(|addr| ip_to_u128(addr.ip()))] *)
Definition pre_resolved_ip (loc : ResolvedLocation) : option Z :=
  (λ a, ip_to_u128 (sa_ip a)) <$> resolved_addr loc.
End matching.

(** ** The cache *)

Inductive RoutingCacheKey :=
  | KHostname (hostname : bytes) (port : Z)
  | KIpv4 (addr : bytes) (port : Z)
  | KIpv6 (addr : bytes) (port : Z).
#[global] Instance RoutingCacheKey_eq_dec : EqDecision RoutingCacheKey.
Proof. solve_decision. Defined.

Inductive CachedDecision := CAllow (rule_index : nat) | CBlock.

(** What the cache relies on in [lru::LruCache]: a new cache is empty, and a
    [put] adds its entry and otherwise only drops entries. *)
Class Lru (C : Type) := {
  lru_new : nat → C;
  lru_peek : C → RoutingCacheKey → option CachedDecision;
  lru_put : C → RoutingCacheKey → CachedDecision → C;
}.
Class LruLaws (C : Type) `{Lru C} : Prop := {
  peek_new cap k : lru_peek (lru_new cap) k = None;
  peek_put c k d k' d' :
    lru_peek (lru_put c k d) k' = Some d' →
    (k' = k ∧ d' = d) ∨ lru_peek c k' = Some d';
}.

Section cache.
Context {R G C : Type} (regex_is_match : R → bytes → bool) `{Lru C}.
Context (to_lowercase : bytes → bytes) (resolve : NetLocation → io_error + list SocketAddr).

Definition CACHE_RULE_THRESHOLD : nat := 16.
Definition DEFAULT_CAPACITY : nat := Z.to_nat 10000.

Definition key_from_location (l : NetLocation) : RoutingCacheKey :=
  match address l with
  | Hostname h => KHostname (to_lowercase h) (port l)
  | Ipv4 o => KIpv4 o (port l)
  | Ipv6 o => KIpv6 o (port l)
  end.

(** [RoutingCache::new]: a capacity of zero becomes one. *)
Definition RoutingCache_new (capacity : nat) : C := lru_new (Nat.max capacity 1).
Definition RoutingCache_get (c : C) (l : NetLocation) : option CachedDecision :=
  lru_peek c (key_from_location l).
Definition RoutingCache_insert (c : C) (l : NetLocation) (d : CachedDecision) : C :=
  lru_put c (key_from_location l) d.

Record ClientProxySelector := mkSelector {
  rules : list (ConnectRule R G);
  resolve_rule_hostnames : bool;
  cache : option C;
}.

Definition with_options_and_cache_size (rs : list (ConnectRule R G)) (flag : bool)
    (cache_capacity : nat) : ClientProxySelector :=
  mkSelector rs flag
    (if negb (requires_protocol_sniff rs) && (flag || (CACHE_RULE_THRESHOLD <? length rs)%nat)
     then Some (RoutingCache_new (Nat.max cache_capacity 1))
     else None).
Definition with_options (rs : list (ConnectRule R G)) (flag : bool) : ClientProxySelector :=
  with_options_and_cache_size rs flag DEFAULT_CAPACITY.

Definition cached_to_decision (s : ClientProxySelector) (d : CachedDecision)
    (loc : ResolvedLocation) : outcome (ConnectDecision G) :=
  match d with
  | CAllow i => decide_at (rules s) i loc
  | CBlock => Ok DBlock
  end.

(** A selector whose cache has a new entry. *)
Definition remember (s : ClientProxySelector) (c : C) (l : NetLocation) (d : CachedDecision) :
    ClientProxySelector :=
  mkSelector (rules s) (resolve_rule_hostnames s) (Some (RoutingCache_insert c l d)).

Definition judge_inner (s : ClientProxySelector) (loc : ResolvedLocation)
    (sniffed : option SniffedProtocol) : outcome (ConnectDecision G) * ClientProxySelector :=
  let flag := resolve_rule_hostnames s in
  match cache s with
  | None =>
      (judge_uncached_with_protocol regex_is_match resolve flag (rules s) loc
         (pre_resolved_ip loc) sniffed, s)
  | Some c =>
      match RoutingCache_get c (location loc) with
      | Some d => (cached_to_decision s d loc, s)
      | None =>
          let '(r, (loc, _)) :=
            match_rule regex_is_match resolve flag sniffed (rules s) (loc, pre_resolved_ip loc) in
          match r with
          | Ok (Some i) =>
              (decide_at (rules s) i loc, remember s c (location loc) (CAllow i))
          | Ok None => (Ok DBlock, remember s c (location loc) CBlock)
          | Err e => (Err e, s)
          | Panic => (Panic, s)
          end
      end
  end.

Definition judge (s : ClientProxySelector) (loc : ResolvedLocation) :
    outcome (ConnectDecision G) * ClientProxySelector := judge_inner s loc None.
End cache.

Arguments ClientProxySelector : clear implicits.

(** ** Lazy resolution is invisible *)

Section facts.
Context {R G : Type} (regex_is_match : R → bytes → bool).
Context (resolve : NetLocation → io_error + list SocketAddr).
Implicit Types (m : ConnectMatcher R) (r : ConnectRule R G).

(** The destination address: the one given with the request, else the first
    the resolver answers. *)
Definition destination (loc : ResolvedLocation) : io_error + SocketAddr :=
  fst (resolve_location resolve loc).

(** Whether a mask matches, without state: [ip] is the destination's number. *)
Definition mask_matches (flag : bool) (ip : Z) (l : NetLocation) (mask : NetLocationMask) : bool :=
  let am := address_mask mask in
  let cmp := match compare_masked resolve mask ip with MOk b => b | _ => false end in
  ((lm_port mask <=? 0) || (lm_port mask =? port l)) &&
  ((netmask am =? 0) ||
   match hostname (am_address am), hostname (address l) with
   | Some h, Some remote => matches_domain h remote
   | Some _, None => flag && cmp
   | None, _ => cmp
   end).

Definition matcher_matches (flag : bool) (sniffed : option SniffedProtocol) (ip : Z)
    (l : NetLocation) m : bool :=
  match m, hostname (address l) with
  | Location mask, _ => mask_matches flag ip l mask
  | Protocol p, _ => bool_decide (sniffed = Some p)
  | DomainKeyword k, Some h => negb (bool_decide (k = [])) && contains k (to_ascii_lowercase h)
  | DomainFull d, Some h => negb (bool_decide (d = [])) && eq_ignore_ascii_case h d
  | DomainSuffix d, Some h =>
      negb (bool_decide (d = [])) && matches_domain d (to_ascii_lowercase h)
  | DomainRegex x, Some h => regex_is_match x h
  | _, None => false
  end.

Definition rule_matches flag sniffed ip l r : bool :=
  existsb (matcher_matches flag sniffed ip l) (matchers r).

(** The states a match of [loc] with destination [a] goes through. *)
Record visited (loc : ResolvedLocation) (a : SocketAddr) (s : mstate) : Prop := {
  vis_loc : fst s = loc ∨ fst s = set_resolved loc a;
  vis_ip ip : snd s = Some ip → ip = ip_to_u128 (sa_ip a);
  vis_dest : destination loc = inr a;
}.

Lemma visited_location loc a s : visited loc a s → location (fst s) = location loc.
Proof. by intros [[->| ->] _ _]. Qed.

Lemma resolve_visited loc a s :
  visited loc a s →
  ∃ loc', resolve_location resolve (fst s) = (inr a, loc') ∧
          visited loc a (loc', Some (ip_to_u128 (sa_ip a))).
Proof.
  intros [Hl Hi Hd]. unfold destination, resolve_location in *.
  destruct Hl as [->| ->]; simpl.
  - destruct (resolved_addr loc) as [a'|] eqn:E.
    + simpl in Hd. simplify_eq. eexists. split; [done|]. split; simpl; [by left|congruence|].
      unfold destination, resolve_location. by rewrite E.
    + destruct (resolve_single_address resolve (location loc)) as [|a'] eqn:Er; simplify_eq/=.
      eexists. split; [done|]. split; simpl; [by right|congruence|].
      unfold destination, resolve_location. by rewrite E, Er.
  - eexists. split; [done|]. split; simpl; [by right|congruence|exact Hd].
Qed.

Definition answers (b : bool) (x : match_result) : Prop :=
  match x with MOk b' => b' = b | MNonFatal _ => b = false | MFatal _ => False end.

Lemma answered b loc a s :
  visited loc a s → ∃ x s', (MOk b, s) = (x, s') ∧ visited loc a s' ∧ answers b x.
Proof. intros. by exists (MOk b), s. Qed.

Lemma compare_masked_answers mask ip :
  answers match compare_masked resolve mask ip with MOk b => b | _ => false end
    (compare_masked resolve mask ip).
Proof. unfold compare_masked. destruct (am_address _) as [| |h]; [done..|]. by destruct (resolve _). Qed.

Lemma match_mask_spec flag mask loc a s :
  visited loc a s →
  ∃ x s', match_mask resolve flag mask s = (x, s') ∧ visited loc a s' ∧
    answers (mask_matches flag (ip_to_u128 (sa_ip a)) (location loc) mask) x.
Proof.
  intros Hv. pose proof (visited_location _ _ _ Hv) as Hl. destruct s as [loc' oip].
  unfold match_mask, mask_matches. simpl in Hl. rewrite Hl.
  destruct (Z.leb_spec (lm_port mask) 0) as [Hp|Hp]; simpl;
    [rewrite (proj2 (Z.ltb_ge _ _)) by lia|rewrite (proj2 (Z.ltb_lt _ _)) by lia]; simpl;
    [|destruct (lm_port mask =? port (location loc)); simpl; [|by apply answered]].
  all: destruct (netmask (address_mask mask) =? 0); simpl; [by apply answered|].
  all: assert (∃ x s', match oip with
      | Some ip => (compare_masked resolve mask ip, (loc', oip))
      | None => match resolve_location resolve loc' with
                | (inl e, l) => (MFatal e, (l, None))
                | (inr a, l) => (compare_masked resolve mask (ip_to_u128 (sa_ip a)),
                                 (l, Some (ip_to_u128 (sa_ip a))))
                end
      end = (x, s') ∧ visited loc a s' ∧
      answers match compare_masked resolve mask (ip_to_u128 (sa_ip a)) with
              | MOk b => b | _ => false end x) as Hgo.
  1,3: destruct oip as [ip|];
    [pose proof (vis_ip _ _ _ Hv ip eq_refl) as ->; eauto using compare_masked_answers|];
    destruct (resolve_visited _ _ _ Hv) as (l&Hr&Hv'); simpl in Hr; rewrite Hr;
    eauto using compare_masked_answers.
  all: destruct (hostname (am_address (address_mask mask))) as [h|]; [|exact Hgo].
  all: destruct (hostname (address (location loc))) as [remote|]; [by apply answered|].
  all: destruct flag; simpl; [exact Hgo|by apply answered].
Qed.

Lemma match_matcher_spec flag sniffed m loc a s :
  visited loc a s →
  ∃ x s', match_matcher regex_is_match resolve flag sniffed m s = (x, s') ∧ visited loc a s' ∧
    answers (matcher_matches flag sniffed (ip_to_u128 (sa_ip a)) (location loc) m) x.
Proof.
  intros Hv. pose proof (visited_location _ _ _ Hv) as Hl.
  destruct m; simpl; rewrite ?Hl; [by apply match_mask_spec|..]; do 2 eexists;
    (split; [reflexivity|]); (split; [done|]); by destruct (hostname (address (location loc))).
Qed.

Lemma match_matchers_spec flag sniffed ms loc a s :
  visited loc a s →
  ∃ s', match_matchers regex_is_match resolve flag sniffed ms s =
    (Ok (existsb (matcher_matches flag sniffed (ip_to_u128 (sa_ip a)) (location loc)) ms), s') ∧
    visited loc a s'.
Proof.
  revert s. induction ms as [|m ms IH]; intros s Hv; simpl; [by eauto|].
  destruct (match_matcher_spec flag sniffed m loc a s Hv) as (x&s'&->&Hv'&Hx).
  destruct x as [[]|e|e]; simpl in Hx; [rewrite <- Hx|rewrite <- Hx|rewrite Hx|done]; simpl; eauto.
Qed.

Lemma match_rule_from_spec flag sniffed i rs loc a s :
  visited loc a s →
  ∃ s', match_rule_from regex_is_match resolve flag sniffed i rs s =
    (Ok ((λ p, (i + fst p)%nat) <$>
           list_find (λ r, rule_matches flag sniffed (ip_to_u128 (sa_ip a)) (location loc) r = true) rs),
     s') ∧ visited loc a s'.
Proof.
  revert i s. induction rs as [|r rs IH]; intros i s Hv; simpl; [by eauto|].
  destruct (match_matchers_spec flag sniffed (matchers r) loc a s Hv) as (s'&->&Hv').
  fold (rule_matches flag sniffed (ip_to_u128 (sa_ip a)) (location loc) r).
  destruct (rule_matches flag sniffed _ _ r) eqn:E.
  - rewrite decide_True by done. simpl. rewrite Nat.add_0_r. eauto.
  - rewrite decide_False by congruence. destruct (IH (S i) s' Hv') as (s''&->&Hv'').
    exists s''. split; [|done]. f_equal. f_equal.
    destruct (list_find _ rs) as [[j x]|]; simpl; [|done]. f_equal. lia.
Qed.

(** C21: rules are matched in order and the first match wins, and the lazy
    resolution of the destination is invisible.  When the destination resolves
    to [a], the scan stops at the first rule one of whose matchers matches
    (each decided from the request and [a] alone), and the location that
    leaves is the request's, possibly with [a] filled in. *)
Theorem first_matching_rule_wins flag sniffed (rs : list (ConnectRule R G)) loc a :
  destination loc = inr a →
  ∃ loc' ip, (loc' = loc ∨ loc' = set_resolved loc a) ∧
    match_rule regex_is_match resolve flag sniffed rs (loc, pre_resolved_ip loc) =
    (Ok (fst <$> list_find (λ r, rule_matches flag sniffed (ip_to_u128 (sa_ip a)) (location loc) r = true) rs),
     (loc', ip)).
Proof.
  intros Hd. assert (visited loc a (loc, pre_resolved_ip loc)) as Hv.
  { split; [by left| |done]. intros ip. unfold pre_resolved_ip. simpl.
    unfold destination, resolve_location in Hd.
    destruct (resolved_addr loc) as [a'|]; simpl in *; congruence. }
  destruct (match_rule_from_spec flag sniffed 0 rs loc a _ Hv) as ([loc' ip]&Hm&Hv').
  exists loc', ip. split; [apply (vis_loc _ _ _ Hv')|]. unfold match_rule. rewrite Hm.
  by destruct (list_find _ rs) as [[]|].
Qed.
End facts.

(** ** The cache is transparent *)

Section cache_facts.
Context {R G C : Type} (regex_is_match : R → bytes → bool) `{LruLaws C}.
Context (to_lowercase : bytes → bytes) (resolve : NetLocation → io_error + list SocketAddr).
Implicit Types (sel : ClientProxySelector R G C) (rs : list (ConnectRule R G)).

Abbreviation scan := (match_rule (R := R) (G := G) regex_is_match resolve).

(** A request that was not resolved beforehand and whose hostname is in lower
    case. *)
Definition canonical (loc : ResolvedLocation) : Prop :=
  resolved_addr loc = None ∧
  match address (location loc) with Hostname h => to_lowercase h = h | _ => True end.

Lemma key_inj l1 l2 :
  canonical l1 → canonical l2 →
  key_from_location to_lowercase (location l1) = key_from_location to_lowercase (location l2) →
  l1 = l2.
Proof.
  destruct l1 as [[a1 p1] r1], l2 as [[a2 p2] r2]. intros [H1 H2] [H3 H4] E.
  unfold key_from_location in E. simpl in *. subst.
  destruct a1, a2; simplify_eq/=; try done. by rewrite <- H2, <- H4, E.
Qed.

(** Without protocol matchers the sniffed protocol plays no part. *)
Lemma scan_no_sniff flag rs sn sn' s :
  requires_protocol_sniff rs = false → scan flag sn rs s = scan flag sn' rs s.
Proof.
  unfold match_rule. generalize 0%nat. revert s. induction rs as [|r rs IH]; intros s i Hr; [done|].
  simpl in Hr. to_prop. simpl.
  assert (∀ ms s, existsb matcher_requires_sniff ms = false →
    match_matchers regex_is_match resolve flag sn ms s =
    match_matchers regex_is_match resolve flag sn' ms s) as Hm.
  { induction ms as [|m ms IHm]; intros s' Hm; [done|]. simpl in Hm. to_prop. simpl.
    assert (match_matcher regex_is_match resolve flag sn m s' =
            match_matcher regex_is_match resolve flag sn' m s') as -> by by destruct m.
    destruct (match_matcher _ _ _ _ m s') as [[[]| |] ?]; auto. }
  rewrite Hm by done. destruct (match_matchers _ _ _ _ _ s) as [[[]| |] ?]; auto.
Qed.

Definition decision_of (d : CachedDecision) : option nat :=
  match d with CAllow i => Some i | CBlock => None end.

(** The scan keeps the location a request is about. *)
Lemma scan_location flag sn rs s : location (fst (snd (scan flag sn rs s))) = location (fst s).
Proof.
  assert (∀ m s, location (fst (snd (match_matcher regex_is_match resolve flag sn m s))) =
                 location (fst s)) as Hm.
  { intros m [l oip]. destruct m as [mask|k|d|d|x|p]; try done. simpl. unfold match_mask.
    repeat case_match; simplify_eq/=; try done;
      unfold resolve_location in *; repeat case_match; simplify_eq/=; done. }
  assert (∀ ms s, location (fst (snd (match_matchers regex_is_match resolve flag sn ms s))) =
                  location (fst s)) as Hms.
  { induction ms as [|m ms IH]; intros s'; [done|]. simpl. specialize (Hm m s').
    destruct (match_matcher _ _ _ _ m s') as [[[]| |] s'']; simpl in *; try done;
      by rewrite IH. }
  unfold match_rule. generalize 0%nat. revert s.
  induction rs as [|r rs IH]; intros s i; [done|]. simpl. specialize (Hms (matchers r) s).
  destruct (match_matchers _ _ _ _ (matchers r) s) as [[[]| |] s']; simpl in *; try done.
  by rewrite IH.
Qed.

(** Every cached decision of a canonical request is the scan's. *)
Definition cache_ok sel : Prop :=
  ∀ c, cache sel = Some c →
  requires_protocol_sniff (rules sel) = false ∧
  ∀ loc d, canonical loc → RoutingCache_get to_lowercase c (location loc) = Some d →
    fst (scan (resolve_rule_hostnames sel) None (rules sel) (loc, None)) = Ok (decision_of d).

Lemma new_cache_ok rs flag cap : cache_ok (with_options_and_cache_size rs flag cap).
Proof.
  intros c Hc. unfold with_options_and_cache_size in *. simpl in *.
  destruct (requires_protocol_sniff rs) eqn:E; simpl in Hc; [done|]. split; [done|].
  intros loc d _. destruct (flag || _); simplify_eq. unfold RoutingCache_get, RoutingCache_new.
  by rewrite peek_new.
Qed.

Lemma remember_ok sel c loc d :
  cache_ok sel → cache sel = Some c → canonical loc →
  fst (scan (resolve_rule_hostnames sel) None (rules sel) (loc, None)) = Ok (decision_of d) →
  cache_ok (remember to_lowercase sel c (location loc) d).
Proof.
  intros Hok Hc Hl Hd c' [= <-]. destruct (Hok c Hc) as [Hs Hget]. split; [done|].
  intros loc' d' Hl' Hp. unfold RoutingCache_get, RoutingCache_insert in Hp.
  apply peek_put in Hp as [[Hk ->]|Hp]; [|by apply Hget].
  by rewrite (key_inj loc' loc).
Qed.

Definition no_addr (loc : ResolvedLocation) : ResolvedLocation := Resolved_new (location loc).
Definition decision_core (d : ConnectDecision G) : ConnectDecision G :=
  match d with DAllow g loc => DAllow g (no_addr loc) | DBlock => DBlock end.

Lemma to_decision_core (a : ConnectAction G) l1 l2 :
  location l1 = location l2 → decision_core (to_decision a l1) = decision_core (to_decision a l2).
Proof. intros E. destruct a as [[o|] g|]; simpl; unfold no_addr; simpl; by rewrite ?E. Qed.

Lemma decide_at_core rs i l1 l2 :
  location l1 = location l2 →
  decision_core <$> decide_at rs i l1 = decision_core <$> decide_at rs i l2.
Proof.
  intros E. unfold decide_at, index. destruct (rs !! i); simpl; [|done].
  f_equal. by apply to_decision_core.
Qed.

Definition uncached sel (loc : ResolvedLocation) (sn : option SniffedProtocol) :
    outcome (ConnectDecision G) :=
  judge_uncached_with_protocol regex_is_match resolve (resolve_rule_hostnames sel) (rules sel) loc
    (pre_resolved_ip loc) sn.

Lemma judge_step sel loc sn :
  cache_ok sel → canonical loc →
  let '(r, sel') := judge_inner regex_is_match to_lowercase resolve sel loc sn in
  decision_core <$> r = decision_core <$> uncached sel loc sn ∧
  cache_ok sel' ∧ rules sel' = rules sel ∧
  resolve_rule_hostnames sel' = resolve_rule_hostnames sel.
Proof.
  intros Hok Hl. unfold judge_inner, uncached, judge_uncached_with_protocol.
  destruct (cache sel) as [c|] eqn:Ec; [|done]. destruct (Hok c Ec) as [Hs Hget].
  assert (pre_resolved_ip loc = None) as ->.
  { destruct Hl as [Hr _]. unfold pre_resolved_ip. by rewrite Hr. }
  rewrite (scan_no_sniff _ _ sn None) by done.
  pose proof (scan_location (resolve_rule_hostnames sel) None (rules sel) (loc, None)) as Hloc.
  destruct (RoutingCache_get to_lowercase c (location loc)) as [d|] eqn:Ed.
  - specialize (Hget loc d Hl Ed). split; [|done].
    destruct (scan _ None (rules sel) (loc, None)) as [x [loc' ip]]; simpl in *. subst x.
    destruct d; simpl; [|done]. by apply decide_at_core.
  - clear Hget. pose proof (λ d, remember_ok sel c loc d Hok Ec Hl) as Hrem.
    destruct (scan _ None (rules sel) (loc, None)) as [x [loc' ip]]; simpl in *.
    destruct x as [[i|]| |]; simpl; rewrite ?Hloc; split_and!; try done.
    + by apply (Hrem (CAllow i)).
    + by apply (Hrem CBlock).
Qed.

Fixpoint judge_all sel (reqs : list (ResolvedLocation * option SniffedProtocol)) :
    list (outcome (ConnectDecision G)) :=
  match reqs with
  | [] => []
  | (loc, sn) :: reqs =>
      let '(r, sel) := judge_inner regex_is_match to_lowercase resolve sel loc sn in
      r :: judge_all sel reqs
  end.

Lemma judge_all_spec sel reqs :
  cache_ok sel → Forall (λ q, canonical (fst q)) reqs →
  fmap decision_core <$> judge_all sel reqs =
  (λ q, decision_core <$> uncached sel (fst q) (snd q)) <$> reqs.
Proof.
  intros Hok Hreqs. revert sel Hok. induction Hreqs as [|[loc sn] reqs Hl _ IH]; intros sel Hok; [done|].
  simpl. pose proof (judge_step sel loc sn Hok Hl) as Hs.
  destruct (judge_inner _ _ _ sel loc sn) as [r sel']. destruct Hs as (Hr&Hok'&Hru&Hf).
  rewrite !fmap_cons. f_equal; [done|]. rewrite IH by done.
  apply list_fmap_ext. intros _ q _. unfold uncached. by rewrite Hru, Hf.
Qed.

End cache_facts.

(** A cache for the examples: an association list that keeps the newest
    entries. *)
#[global] Instance assoc_lru : Lru (nat * list (RoutingCacheKey * CachedDecision)) := {
  lru_new cap := (cap, []);
  lru_peek c k := snd <$> head (filter (λ e, fst e = k) (snd c));
  lru_put c k d := (fst c, take (fst c) ((k, d) :: snd c));
}.

Lemma head_filter_take k n (l : list (RoutingCacheKey * CachedDecision)) x :
  head (filter (λ e, fst e = k) (take n l)) = Some x → head (filter (λ e, fst e = k) l) = Some x.
Proof.
  revert n. induction l as [|e l IH]; intros [|n]; simpl; try done.
  rewrite !filter_cons. case_decide; [done|apply IH].
Qed.

#[global] Instance assoc_lru_laws : LruLaws (nat * list (RoutingCacheKey * CachedDecision)).
Proof.
  split; [done|]. intros [n l] k d k' d'. simpl. intros Hp.
  apply fmap_Some in Hp as ([k1 d1]&Hh&->). apply head_filter_take in Hh.
  rewrite filter_cons in Hh. case_decide as Hk; simpl in *; [left; by simplify_eq|].
  right. by rewrite Hh.
Qed.

(** Examples: one rule for a hostname, one for a network; an answering
    resolver. *)
Definition example_rules : list (ConnectRule unit Z) :=
  [mkRule [Location (mkLocationMask (mkAddressMask (Hostname (B "example.com")) (mask_of_keep 128)) 0)]
     (Allow None 1);
   mkRule [Location (mkLocationMask (mkAddressMask (Ipv4 [10; 0; 0; 0]) (mask_of_keep 104)) 443)]
     (Allow None 2)].
Definition example_resolve (l : NetLocation) : io_error + list SocketAddr :=
  inr [mkSocketAddr (V4 [10; 1; 2; 3]) (port l)].
Definition example_request (h : bytes) : ResolvedLocation :=
  Resolved_new (mkNetLocation (Hostname h) 443).

Lemma first_matching_rule_wins_witness :
  let loc := example_request (B "other.org") in
  let a := mkSocketAddr (V4 [10; 1; 2; 3]) 443 in
  destination example_resolve loc = inr a ∧
  ∃ loc' ip, (loc' = loc ∨ loc' = set_resolved loc a) ∧
    match_rule (λ _ _, false) example_resolve false None example_rules (loc, pre_resolved_ip loc) =
    (Ok (fst <$> list_find (λ r, rule_matches (λ _ _, false) example_resolve false None
       (ip_to_u128 (sa_ip a)) (location loc) r = true) example_rules), (loc', ip)) ∧
    fst (match_rule (λ _ _, false) example_resolve false None example_rules (loc, None)) = Ok (Some 1%nat).
Proof.
  intros loc a. split; [reflexivity|].
  destruct (first_matching_rule_wins (λ _ _, false) example_resolve false None example_rules loc a)
    as (loc'&ip&?&?); [reflexivity|].
  exists loc', ip. split_and!; [done|done|vm_compute; reflexivity].
Defined.


(** The cache key lower-cases hostnames but hostname masks are matched with
    their case, so one request decides for differently spelled ones: after
    [EXAMPLE.com] was blocked, [example.com] is blocked from the cache although
    the rules allow it. *)
Theorem cache_key_merges_case :
  let sel := with_options_and_cache_size (C := nat * list (RoutingCacheKey * CachedDecision))
               example_rules true 5 in
  let upper := example_request (B "EXAMPLE.com") in
  let lower := example_request (B "example.com") in
  judge_all (λ _ _, false) to_ascii_lowercase (λ _, inr [mkSocketAddr (V4 [8; 8; 8; 8]) 0]) sel
    [(upper, None); (lower, None)] = [Ok DBlock; Ok DBlock] ∧
  uncached (λ _ _, false) (λ _, inr [mkSocketAddr (V4 [8; 8; 8; 8]) 0]) sel lower None =
    Ok (DAllow 1 lower).
Proof. vm_compute. split; reflexivity. Qed.

End Selector.
