(* ===== verification/Rules.v ===== *)
(** * Routing rule texts ([src/v2board/outbound/rules.rs], [src/v2board/route_rule_set.rs])

    The parser of CRS rule lines ([TYPE,VALUE,OUTBOUND]) and the parsers of
    local geosite and geoip rule-set files.  Reading the file is not modelled;
    [RegexBuilder] (with [case_insensitive]) is the parameter [regex_build].
    An error [String] is modelled as an [io_error] of kind [Other], without the
    formatted source, line and text. *)
From S2P Require Import Prelude Text Address Selector.
Import Net Addr Selector.
Local Open Scope Z_scope.

Module Rules.

Inductive ExternalRuleSet := Geosite (code : bytes) | Geoip (code : bytes).
#[global] Instance ExternalRuleSet_eq_dec : EqDecision ExternalRuleSet.
Proof. solve_decision. Defined.
Definition code (e : ExternalRuleSet) : bytes := match e with Geosite c | Geoip c => c end.

Record ParsedRule (R : Type) := mkParsed {
  line : nat;
  source : bytes;
  matcher : option (ConnectMatcher R);
  external : option ExternalRuleSet;
  outbound : bytes;
}.
Arguments mkParsed {R}. Arguments line {R}. Arguments source {R}. Arguments matcher {R}.
Arguments external {R}. Arguments outbound {R}.

Definition requires_expansion {R} (r : ParsedRule R) : bool := bool_decide (is_Some (external r)).

Definition parse_protocol_label (label : bytes) : outcome SniffedProtocol :=
  ok_or (from_route_label label) (IoError Other "unknown protocol").

Section parse.
Context {R : Type} (regex_build : bytes → option R).

(** The [outbound] closure: exactly three fields. *)
Definition outbound_of (fields : list bytes) : outcome bytes :=
  if (length fields <? 3)%nat then err Other "rule expects TYPE,VALUE,OUTBOUND"
  else if (3 <? length fields)%nat then err Other "rule has fields, expected 3"
  else index fields 2.

(** [fields[1]], which must not be empty. *)
Definition non_empty_value (fields : list bytes) : outcome bytes :=
  value ← index fields 1;
  if bool_decide (value = []) then err Other "rule requires a non-empty value" else Ok value.

(** What a line's type asks for: a finished rule, or a matcher to which the
    outbound is added. *)
Definition crs_matcher (type_upper : bytes) (fields : list bytes) :
    outcome (option (ConnectMatcher R) * option ExternalRuleSet * bytes + ConnectMatcher R) :=
  if bool_decide (type_upper = B "MATCH") then
    if negb (length fields =? 2)%nat then err Other "rule MATCH expects MATCH,OUTBOUND"
    else
      out ← index fields 1;
      if bool_decide (out = []) then err Other "rule MATCH requires a non-empty OUTBOUND"
      else Ok (inl (None, None, out))
  else if bool_decide (type_upper = B "DOMAIN-SUFFIX") then
    field ← index fields 1;
    let value := trim_start_byte 46 field in
    if bool_decide (value = []) then err Other "rule DOMAIN-SUFFIX requires a non-empty domain"
    else Ok (inr (domain_suffix value))
  else if bool_decide (type_upper = B "DOMAIN") then
    value ← non_empty_value fields; Ok (inr (domain_full value))
  else if bool_decide (type_upper = B "DOMAIN-KEYWORD") then
    value ← non_empty_value fields; Ok (inr (domain_keyword value))
  else if bool_decide (type_upper = B "DOMAIN-REGEX") then
    value ← non_empty_value fields;
    match regex_build value with
    | Some r => Ok (inr (DomainRegex r))
    | None => err Other "rule DOMAIN-REGEX has invalid regexp"
    end
  else if bool_decide (type_upper = B "IP-CIDR") || bool_decide (type_upper = B "IP-CIDR6") then
    value ← index fields 1;
    match NetLocationMask_from value with
    | Ok mask =>
        match am_address (address_mask mask) with
        | Hostname _ => err Other "rule expects an IP/CIDR, got hostname"
        | _ => Ok (inr (Location mask))
        end
    | Err _ => err Other "rule has invalid IP/CIDR"
    | Panic => Panic
    end
  else if bool_decide (type_upper = B "GEOSITE") || bool_decide (type_upper = B "GEOIP") then
    out ← outbound_of fields;
    c ← index fields 1;
    if bool_decide (c = []) then err Other "rule requires a non-empty code"
    else Ok (inl (None, Some (if bool_decide (type_upper = B "GEOSITE") then Geosite c else Geoip c),
                  out))
  else if bool_decide (type_upper = B "PROTOCOL") then
    value ← index fields 1;
    p ← parse_protocol_label value;
    Ok (inr (Protocol p))
  else err Other "unknown rule type".

Definition parse_crs_line (l : bytes) (line_number : nat) (src : bytes) :
    outcome (option (ParsedRule R)) :=
  let trimmed := trim l in
  if bool_decide (trimmed = []) || starts_with (B "#") trimmed then Ok None
  else
    let fields := trim <$> split_on 44 trimmed in
    type_field ← index fields 0;
    let type_upper := to_ascii_uppercase type_field in
    m ← crs_matcher type_upper fields;
    match m with
    | inl (mt, ext, out) => Ok (Some (mkParsed line_number src mt ext out))
    | inr m =>
        out ← outbound_of fields;
        Ok (Some (mkParsed line_number src (Some m) None out))
    end.

(** [parse_crs_lines] from the line with index [i]. *)
Fixpoint parse_crs_from (i : nat) (ls : list bytes) (src : bytes) : outcome (list (ParsedRule R)) :=
  match ls with
  | [] => Ok []
  | l :: ls =>
      r ← parse_crs_line l (i + 1) src;
      rest ← parse_crs_from (S i) ls src;
      Ok (match r with Some r => r :: rest | None => rest end)
  end.
Definition parse_crs_lines (ls : list bytes) (src : bytes) : outcome (list (ParsedRule R)) :=
  parse_crs_from 0 ls src.

(** ** Rule-set files *)

Definition strip_route_prefix (value lower prefix : bytes) : option bytes :=
  if starts_with prefix lower then Some (trim (drop (length prefix) value)) else None.

Definition require_non_empty_rule_set_token (value : bytes) : outcome unit :=
  if bool_decide (trim value = []) then err InvalidInput "line has an empty matcher value" else Ok tt.

Definition geosite_line (raw_line : bytes) : outcome (option (ConnectMatcher R)) :=
  let line := trim raw_line in
  if bool_decide (line = []) || starts_with (B "#") line then Ok None
  else
    let lower := to_ascii_lowercase line in
    match strip_route_prefix line lower (B "domain:") with
    | Some d => _ ← require_non_empty_rule_set_token d; Ok (Some (domain_suffix d))
    | None =>
    match strip_route_prefix line lower (B "full:") with
    | Some d => _ ← require_non_empty_rule_set_token d; Ok (Some (domain_full d))
    | None =>
    match strip_route_prefix line lower (B "keyword:") with
    | Some k => _ ← require_non_empty_rule_set_token k; Ok (Some (domain_keyword k))
    | None =>
    match strip_route_prefix line lower (B "regexp:") with
    | Some p =>
        _ ← require_non_empty_rule_set_token p;
        match regex_build p with
        | Some r => Ok (Some (DomainRegex r))
        | None => err InvalidInput "geosite line has invalid regexp"
        end
    | None =>
        if starts_with (B "geosite:") lower || starts_with (B "geoip:") lower
        then err InvalidInput "geosite line cannot reference nested route rule-set"
        else Ok (Some (domain_keyword lower))
    end end end end.

Definition geoip_line (raw_line : bytes) : outcome (option (ConnectMatcher R)) :=
  let line := trim raw_line in
  if bool_decide (line = []) || starts_with (B "#") line then Ok None
  else if starts_with (B "geoip:") (to_ascii_lowercase line)
  then err InvalidInput "geoip line cannot reference nested geoip rule-set"
  else
    match NetLocationMask_from line with
    | Ok mask =>
        match am_address (address_mask mask) with
        | Hostname _ => err InvalidInput "geoip line expects IP/CIDR matcher"
        | _ => Ok (Some (Location mask))
        end
    | Err _ => err InvalidInput "geoip line has invalid IP/CIDR matcher"
    | Panic => Panic
    end.

(** The loop over [content.lines()], pushing what each line gives. *)
Fixpoint collect_lines (f : bytes → outcome (option (ConnectMatcher R))) (ls : list bytes) :
    outcome (list (ConnectMatcher R)) :=
  match ls with
  | [] => Ok []
  | l :: ls =>
      m ← f l;
      rest ← collect_lines f ls;
      Ok (match m with Some m => m :: rest | None => rest end)
  end.

Definition some_matchers (ms : list (ConnectMatcher R)) : outcome (list (ConnectMatcher R)) :=
  match ms with
  | [] => err InvalidInput "route rule-set has no usable matchers"
  | _ => Ok ms
  end.

Definition parse_geosite_matchers (content : bytes) : outcome (list (ConnectMatcher R)) :=
  ms ← collect_lines geosite_line (lines content); some_matchers ms.
Definition parse_geoip_matchers (content : bytes) : outcome (list (ConnectMatcher R)) :=
  ms ← collect_lines geoip_line (lines content); some_matchers ms.
End parse.

(** ** Lines and what they mean *)

Inductive rule_line :=
  | LSuffix (v : bytes) | LFull (v : bytes) | LKeyword (v : bytes) | LRegex (v : bytes)
  | LCidr (v : bytes) | LGeosite (v : bytes) | LGeoip (v : bytes) | LProtocol (v : bytes)
  | LMatch.

Definition line_fields (k : rule_line) (out : bytes) : list bytes :=
  match k with
  | LSuffix v => [B "DOMAIN-SUFFIX"; v; out]
  | LFull v => [B "DOMAIN"; v; out]
  | LKeyword v => [B "DOMAIN-KEYWORD"; v; out]
  | LRegex v => [B "DOMAIN-REGEX"; v; out]
  | LCidr v => [B "IP-CIDR"; v; out]
  | LGeosite v => [B "GEOSITE"; v; out]
  | LGeoip v => [B "GEOIP"; v; out]
  | LProtocol v => [B "PROTOCOL"; v; out]
  | LMatch => [B "MATCH"; out]
  end.
Definition line_text (k : rule_line) (out : bytes) : bytes := join [44] (line_fields k out).

(** A field as it can stand between commas. *)
Definition field_ok (f : bytes) : Prop := trimmed_text f ∧ 44 ∉ f.

Definition line_meaning {R} (regex_build : bytes → option R) (k : rule_line)
    (m : option (ConnectMatcher R)) (ext : option ExternalRuleSet) : Prop :=
  match k with
  | LSuffix v => trim_start_byte 46 v ≠ [] ∧ m = Some (domain_suffix (trim_start_byte 46 v)) ∧ ext = None
  | LFull v => m = Some (domain_full v) ∧ ext = None
  | LKeyword v => m = Some (domain_keyword v) ∧ ext = None
  | LRegex v => ∃ r, regex_build v = Some r ∧ m = Some (DomainRegex r) ∧ ext = None
  | LCidr v => ∃ mask, NetLocationMask_from v = Ok mask ∧
                 hostname (am_address (address_mask mask)) = None ∧
                 m = Some (Location mask) ∧ ext = None
  | LGeosite v => m = None ∧ ext = Some (Geosite v)
  | LGeoip v => m = None ∧ ext = Some (Geoip v)
  | LProtocol v => ∃ p, from_route_label v = Some p ∧ m = Some (Protocol p) ∧ ext = None
  | LMatch => m = None ∧ ext = None
  end.

Definition graphicb (o : option Z) : bool :=
  match o with Some c => (33 <=? c) && (c <=? 126) | None => false end.
Definition field_okb (f : bytes) : bool :=
  graphicb (head f) && graphicb (last f) && bool_decide (44 ∉ f).

Lemma field_okb_ok f : field_okb f = true → field_ok f.
Proof.
  unfold field_okb. intros H. to_prop. split; [split|done].
  - destruct f as [|c t]; [done|]. simpl in *. to_prop. exists c, t. split; [done|]. unfold graphic. lia.
  - destruct f as [|c t] using rev_ind; [done|]. rewrite last_snoc in *. simpl in *. to_prop.
    exists t, c. split; [done|]. unfold graphic. lia.
Qed.

Lemma fields_of_text fs :
  fs ≠ [] → Forall field_ok fs →
  trim (join [44] fs) = join [44] fs ∧ trim <$> split_on 44 (join [44] fs) = fs.
Proof.
  intros Hne Hf. apply Forall_and in Hf as [Ht Hc]. split.
  - apply trim_trimmed. destruct fs; [done|]. by apply trimmed_text_join.
  - rewrite split_on_join by done. clear Hne Hc. induction Ht; [done|]. rewrite fmap_cons, trim_trimmed by done. by f_equal.
Qed.

Lemma field_ok_nonempty f : field_ok f → f ≠ [].
Proof. by intros [[(c&t&->&_) _] _]. Qed.

Definition line_value (k : rule_line) : option bytes :=
  match k with
  | LSuffix v | LFull v | LKeyword v | LRegex v | LCidr v | LGeosite v | LGeoip v
  | LProtocol v => Some v
  | LMatch => None
  end.

Lemma line_fields_ok k out :
  field_ok out → from_option field_ok True (line_value k) → Forall field_ok (line_fields k out).
Proof.
  intros Ho Hv. destruct k; simpl in *;
    repeat (apply Forall_cons; split); try done; by apply field_okb_ok.
Qed.

(** A rule line means what it says.  For every rule type, a line with that
    type, a value and an outbound (fields with visible ASCII at both ends and
    no comma) parses to the matcher or rule-set reference of its type with that
    value, the outbound and the given position. *)
Theorem crs_line_meaning {R} (regex_build : bytes → option R) k out m ext n src :
  field_ok out → from_option field_ok True (line_value k) → line_meaning regex_build k m ext →
  parse_crs_line regex_build (line_text k out) n src = Ok (Some (mkParsed n src m ext out)).
Proof.
  intros Ho Hv Hm. pose proof (line_fields_ok k out Ho Hv) as Hf.
  destruct (fields_of_text (line_fields k out)) as [Ht Hs]; [by destruct k|done|].
  unfold parse_crs_line, line_text. rewrite Ht, Hs.
  assert (bool_decide (join [44] (line_fields k out) = []) = false) as ->
    by (apply bool_decide_eq_false_2; by destruct k).
  assert (starts_with (B "#") (join [44] (line_fields k out)) = false) as -> by by destruct k.
  apply field_ok_nonempty in Ho.
  assert (from_option (λ v, v ≠ []) True (line_value k)) as Hne.
  { destruct k; simpl in *; try done; by apply field_ok_nonempty. }
  destruct k as [v|v|v|v|v|v|v|v|]; simpl in Hm, Hne; cbn [orb line_fields];
    unfold index; simpl; unfold crs_matcher, non_empty_value, index; simpl.
  - destruct Hm as (Hn&->&->). by rewrite bool_decide_eq_false_2.
  - destruct Hm as (->&->). by rewrite bool_decide_eq_false_2.
  - destruct Hm as (->&->). by rewrite bool_decide_eq_false_2.
  - destruct Hm as (r&Hr&->&->). rewrite bool_decide_eq_false_2 by done. simpl. by rewrite Hr.
  - destruct Hm as (mask&Hr&Hh&->&->). rewrite Hr. by destruct (am_address (address_mask mask)).
  - destruct Hm as (->&->). by rewrite bool_decide_eq_false_2.
  - destruct Hm as (->&->). by rewrite bool_decide_eq_false_2.
  - destruct Hm as (pr&Hr&->&->). unfold parse_protocol_label. by rewrite Hr.
  - destruct Hm as (->&->). by rewrite bool_decide_eq_false_2.
Qed.

Lemma crs_line_meaning_witness :
  parse_crs_line (λ _, Some tt) (line_text (LSuffix (B ".Example.com")) (B "proxy a")) 3 (B "config") =
  Ok (Some (mkParsed 3 (B "config") (Some (DomainSuffix (B "example.com"))) None (B "proxy a"))).
Proof.
  apply (crs_line_meaning (λ _, Some tt) (LSuffix (B ".Example.com")) (B "proxy a"));
    [by apply field_okb_ok..|]. by vm_compute.
Defined.

(** A rule line with a type and nothing after it makes the parser panic
    instead of returning its error: [fields[1]] is read before the number of
    fields is checked. *)
Theorem bare_rule_type_panics {R} (regex_build : bytes → option R) n src ty :
  ty ∈ ["DOMAIN-SUFFIX"; "DOMAIN"; "DOMAIN-KEYWORD"; "DOMAIN-REGEX"; "IP-CIDR"; "IP-CIDR6";
        "PROTOCOL"; "domain"]%string →
  parse_crs_line regex_build (B ty) n src = Panic.
Proof. intros Hty. repeat (apply elem_of_cons in Hty as [->|Hty]; [reflexivity|]). by apply elem_of_nil in Hty. Qed.

Lemma bare_rule_type_panics_witness :
  parse_crs_line (λ _, Some tt) (B "DOMAIN") 1 (B "config") = Panic.
Proof. apply bare_rule_type_panics. right. left. Defined.

End Rules.
