(* ===== verification/Outbound.v ===== *)
(** * The compiled rule index ([src/v2board/outbound/index.rs], [dispatcher.rs])

    Rules are compiled into a reversed-domain trie, a map of full domains,
    keyword, regex and protocol lists and two binary radix trees, each entry
    with the order of its rule; a lookup takes the smallest order.  The
    specification is the linear scan of the flattened rules, first match wins.

    The expansion closures are parameters of [compile], as in the source; the
    resolver and the regular expressions are as in [Selector].  A [String] is
    its UTF-8 bytes, and [chars] decodes them. *)
From S2P Require Import Prelude Text Address Selector Rules.
Import Net Addr Selector Rules.
Local Open Scope Z_scope.

Module Outbound.

(** ** The suffix trie *)

Inductive SuffixNode := mkSuffix (children : gmap Z SuffixNode) (entries : list (nat * bytes)).
Definition s_children (n : SuffixNode) : gmap Z SuffixNode := let 'mkSuffix c _ := n in c.
Definition s_entries (n : SuffixNode) : list (nat * bytes) := let 'mkSuffix _ e := n in e.
Definition SuffixNode_default : SuffixNode := mkSuffix ∅ [].

(** [str::chars]: the code points of valid UTF-8. *)
Definition decode_char (s : bytes) : Z :=
  match s with
  | [a] => a
  | [a; b] => Z.lor (Z.shiftl (Z.land a 31) 6) (Z.land b 63)
  | [a; b; c] =>
      Z.lor (Z.lor (Z.shiftl (Z.land a 15) 12) (Z.shiftl (Z.land b 63) 6)) (Z.land c 63)
  | [a; b; c; d] =>
      Z.lor (Z.lor (Z.lor (Z.shiftl (Z.land a 7) 18) (Z.shiftl (Z.land b 63) 12))
        (Z.shiftl (Z.land c 63) 6)) (Z.land d 63)
  | _ => 0
  end.
Fixpoint chars_aux (fuel : nat) (s : bytes) : list Z :=
  match fuel, s with
  | S fuel, _ :: _ =>
      match utf8_next s with
      | inl n => decode_char (take n s) :: chars_aux fuel (drop n s)
      | inr n => 65533 :: chars_aux fuel (drop n s)
      end
  | _, _ => []
  end.
Definition chars (s : bytes) : list Z := chars_aux (length s) s.

(** The walk of [SuffixTrie::insert] along the reversed characters. *)
Fixpoint suffix_insert_at (path : list Z) (e : nat * bytes) (n : SuffixNode) : SuffixNode :=
  match path with
  | [] => mkSuffix (s_children n) (s_entries n ++ [e])
  | ch :: path =>
      let child := default SuffixNode_default (s_children n !! ch) in
      mkSuffix (<[ch := suffix_insert_at path e child]> (s_children n)) (s_entries n)
  end.
Definition suffix_insert (root : SuffixNode) (suffix : bytes) (order : nat) (outbound : bytes) :
    SuffixNode := suffix_insert_at (reverse (chars suffix)) (order, outbound) root.

(** [if best.is_none_or(|(best_order, _)| order < best_order) { best = .. }] *)
Definition improve (best : option (nat * bytes)) (e : nat * bytes) : option (nat * bytes) :=
  match best with
  | Some b => if (fst e <? fst b)%nat then Some e else best
  | None => Some e
  end.

(** The walk of [SuffixTrie::query] over the bytes from the end: [rest] are the
    bytes before the current one, nearest first. *)
Fixpoint suffix_query_at (rev_bytes : bytes) (n : SuffixNode) (best : option (nat * bytes)) :
    option (nat * bytes) :=
  match rev_bytes with
  | [] => best
  | byte :: rest =>
      match s_children n !! byte with
      | None => best
      | Some child =>
          let skip :=
            bool_decide (s_entries child = []) ||
            match rest with prev :: _ => negb (prev =? 46) | [] => false end in
          suffix_query_at rest child (if skip then best else foldl improve best (s_entries child))
      end
  end.
Definition suffix_query (root : SuffixNode) (hostname : bytes) (best : option (nat * bytes)) :
    option (nat * bytes) := suffix_query_at (reverse hostname) root best.

(** ** The IP radix trees *)

Inductive IpNode := mkIp (child0 child1 : option IpNode) (entries : list (nat * bytes * Z)).
Definition i_child (n : IpNode) (bit : bool) : option IpNode :=
  let 'mkIp c0 c1 _ := n in if bit then c1 else c0.
Definition i_entries (n : IpNode) : list (nat * bytes * Z) := let 'mkIp _ _ e := n in e.
Definition i_set_child (n : IpNode) (bit : bool) (c : IpNode) : IpNode :=
  let 'mkIp c0 c1 e := n in if bit then mkIp c0 (Some c) e else mkIp (Some c) c1 e.
Definition IpNode_default : IpNode := mkIp None None [].

(** [((ip_bits >> shift) & 1)] for [shift = 127 - i], from [i] on. *)
Fixpoint ip_insert_at (remaining i : nat) (ip_bits : Z) (e : nat * bytes * Z) (n : IpNode) : IpNode :=
  match remaining with
  | O => mkIp (i_child n false) (i_child n true) (i_entries n ++ [e])
  | S remaining =>
      let bit := Z.testbit ip_bits (127 - Z.of_nat i) in
      let child := default IpNode_default (i_child n bit) in
      i_set_child n bit (ip_insert_at remaining (S i) ip_bits e child)
  end.
Definition ip_insert (root : IpNode) (ip_bits prefix_len : Z) (order : nat) (outbound : bytes)
    (port : Z) : IpNode := ip_insert_at (Z.to_nat prefix_len) 0 ip_bits (order, outbound, port) root.

Definition improve_port (port : Z) (best : option (nat * bytes)) (e : nat * bytes * Z) :
    option (nat * bytes) :=
  let '(order, outbound, rule_port) := e in
  if negb (rule_port =? 0) && negb (rule_port =? port) then best
  else improve best (order, outbound).

Fixpoint ip_query_at (remaining i : nat) (ip_bits port : Z) (n : IpNode)
    (best : option (nat * bytes)) : option (nat * bytes) :=
  let best := foldl (improve_port port) best (i_entries n) in
  match remaining with
  | O => best
  | S remaining =>
      match i_child n (Z.testbit ip_bits (127 - Z.of_nat i)) with
      | None => best
      | Some child => ip_query_at remaining (S i) ip_bits port child best
      end
  end.
Definition ip_query (root : IpNode) (ip_bits port : Z) (best : option (nat * bytes)) :
    option (nat * bytes) := ip_query_at 128 0 ip_bits port root best.

Definition prefix_len (m : AddressMask) : Z :=
  if netmask m =? 0 then 0
  else
    let bits := 128 - trailing_zeros (netmask m) in
    match am_address m with Ipv4 _ => Z.max 0 (bits - 96) | _ => bits end.

(** [u128::from(u32::from(v4)) << 96] *)
Definition v4_bits (o : bytes) : Z := Z.shiftl (be_decode o) 96.

(** ** Compiled rules *)

Record CompiledRulesInner (R : Type) := mkInner {
  has_ip_rules : bool;
  catch_all : option (nat * bytes);
  suffix_trie : SuffixNode;
  full : gmap bytes (nat * bytes);
  keywords : list (nat * bytes * bytes);
  regexes : list (nat * bytes * R);
  ipv4 : IpNode;
  ipv6 : IpNode;
  protocols : list (nat * bytes * SniffedProtocol);
}.
Arguments mkInner {R}. Arguments has_ip_rules {R}. Arguments catch_all {R}.
Arguments suffix_trie {R}. Arguments full {R}. Arguments keywords {R}. Arguments regexes {R}.
Arguments ipv4 {R}. Arguments ipv6 {R}. Arguments protocols {R}.

Section index.
Context {R : Type} (regex_is_match : R → bytes → bool).
Abbreviation CompiledRules := (option (CompiledRulesInner R)).
Abbreviation flat_rule := (nat * ConnectMatcher R * bytes)%type.

Definition is_empty (c : CompiledRules) : bool := match c with Some _ => false | None => true end.
Definition rules_have_ip (c : CompiledRules) : bool :=
  match c with Some inner => has_ip_rules inner | None => false end.
Definition has_protocol_rules (c : CompiledRules) : bool :=
  match c with Some inner => negb (bool_decide (length (protocols inner) = 0%nat)) | None => false end.

(** The loops over keywords and regexes stop at the first entry that cannot
    improve on the best one. *)
Fixpoint scan_ordered {A} (hit : A → bool) (l : list (nat * bytes * A))
    (best : option (nat * bytes)) : option (nat * bytes) :=
  match l with
  | [] => best
  | (order, outbound, x) :: l =>
      if match best with Some b => (fst b <=? order)%nat | None => false end then best
      else scan_ordered hit l (if hit x then improve best (order, outbound) else best)
  end.

Definition match_domain (c : CompiledRules) (domain : bytes) : option bytes :=
  inner ← c;
  let hostname :=
    if existsb is_ascii_uppercase domain then to_ascii_lowercase domain else domain in
  let best := suffix_query (suffix_trie inner) hostname None in
  let best := match full inner !! hostname with Some e => improve best e | None => best end in
  let best :=
    scan_ordered (λ k, contains k hostname)
      ((λ e : nat * bytes * bytes, (fst (fst e), snd e, snd (fst e))) <$> keywords inner) best in
  let best := scan_ordered (λ r, regex_is_match r hostname) (regexes inner) best in
  snd <$> best.

Definition match_ip (c : CompiledRules) (ip : IpAddr) (port : Z) : option bytes :=
  inner ← c;
  snd <$> match ip with
          | V4 o => ip_query (ipv4 inner) (v4_bits o) port None
          | V6 o => ip_query (ipv6 inner) (be_decode o) port None
          end.

Definition match_protocol (c : CompiledRules) (p : SniffedProtocol) : option bytes :=
  inner ← c;
  snd <$> foldl (λ best e, if bool_decide (snd e = p) then improve best (fst e) else best) None
            (protocols inner).

Definition match_catch_all (c : CompiledRules) : option bytes :=
  inner ← c; snd <$> catch_all inner.

(** The first loop of [compile]. *)
Fixpoint push_expanded (order : nat) (outbound : bytes) (expanded : list (ParsedRule R)) :
    outcome (list flat_rule) :=
  match expanded with
  | [] => Ok []
  | r :: expanded =>
      m ← ok_or (matcher r) (IoError InvalidData "rule set: expanded rule has no matcher");
      rest ← push_expanded order outbound expanded;
      Ok ((order, m, outbound) :: rest)
  end.

Fixpoint flatten (expand_geosite expand_geoip : bytes → outcome (list (ParsedRule R)))
    (order : nat) (rules : list (ParsedRule R)) (catch : option (nat * bytes)) :
    outcome (list flat_rule * option (nat * bytes)) :=
  match rules with
  | [] => Ok ([], catch)
  | r :: rules =>
      '(here, catch) ←
        match external r with
        | Some (Geosite code) =>
            expanded ← expand_geosite code;
            here ← push_expanded order (outbound r) expanded; Ok (here, catch)
        | Some (Geoip code) =>
            expanded ← expand_geoip code;
            here ← push_expanded order (outbound r) expanded; Ok (here, catch)
        | None =>
            match matcher r with
            | Some m => Ok ([(order, m, outbound r)], catch)
            | None => Ok ([], Some (order, outbound r))
            end
        end;
      '(rest, catch) ← flatten expand_geosite expand_geoip (S order) rules catch;
      Ok (here ++ rest, catch)
  end.

(** One turn of the second loop. *)
Definition index_rule (inner : CompiledRulesInner R) (e : flat_rule) :
    outcome (CompiledRulesInner R) :=
  let '(order, m, outbound) := e in
  let 'mkInner hi ca st fu kw re v4 v6 pr := inner in
  match m with
  | DomainSuffix suffix => Ok (mkInner hi ca (suffix_insert st suffix order outbound) fu kw re v4 v6 pr)
  | DomainFull domain =>
      let key := to_ascii_lowercase domain in
      Ok (mkInner hi ca st
            match fu !! key with Some _ => fu | None => <[key := (order, outbound)]> fu end
            kw re v4 v6 pr)
  | DomainKeyword keyword =>
      Ok (mkInner hi ca st fu (kw ++ [(order, to_ascii_lowercase keyword, outbound)]) re v4 v6 pr)
  | DomainRegex regex => Ok (mkInner hi ca st fu kw (re ++ [(order, outbound, regex)]) v4 v6 pr)
  | Location mask =>
      let prefix := prefix_len (address_mask mask) in
      let port := lm_port mask in
      match am_address (address_mask mask) with
      | Ipv4 o =>
          Ok (mkInner true ca st fu kw re (ip_insert v4 (v4_bits o) prefix order outbound port) v6 pr)
      | Ipv6 o =>
          Ok (mkInner true ca st fu kw re v4 (ip_insert v6 (be_decode o) prefix order outbound port) pr)
      | Hostname _ => err InvalidInput "IP/CIDR rule cannot use hostname"
      end
  | Protocol p => Ok (mkInner hi ca st fu kw re v4 v6 (pr ++ [(order, outbound, p)]))
  end.

Fixpoint index_rules (inner : CompiledRulesInner R) (flat : list flat_rule) :
    outcome (CompiledRulesInner R) :=
  match flat with
  | [] => Ok inner
  | e :: flat => inner ← index_rule inner e; index_rules inner flat
  end.

Definition inner_new (catch : option (nat * bytes)) : CompiledRulesInner R :=
  mkInner false catch SuffixNode_default ∅ [] [] IpNode_default IpNode_default [].

Definition compile (expand_geosite expand_geoip : bytes → outcome (list (ParsedRule R)))
    (rules : list (ParsedRule R)) : outcome CompiledRules :=
  '(flat, catch) ← flatten expand_geosite expand_geoip 0 rules None;
  match flat, catch with
  | [], None => Ok None
  | _, _ => inner ← index_rules (inner_new catch) flat; Ok (Some inner)
  end.

(** ** Choosing an outbound ([Dispatcher::select_outbound]) *)

Definition resolve_addresses (resolve : NetLocation → io_error + list SocketAddr) (l : NetLocation) :
    io_error + list SocketAddr :=
  match to_socket_addr_nonblocking l with
  | Some a => inr [a]
  | None =>
      match resolve l with
      | inl e => inl e
      | inr [] => inl (IoError Other "could not resolve location")
      | inr addrs => inr addrs
      end
  end.

(** [addrs.iter().find_map(..)] *)
Fixpoint find_map {A B} (f : A → option B) (l : list A) : option B :=
  match l with
  | [] => None
  | x :: l => match f x with Some y => Some y | None => find_map f l end
  end.

Definition select_outbound (resolve : NetLocation → io_error + list SocketAddr)
    (rules_read : option CompiledRules) (default_out : option bytes) (target : ResolvedLocation)
    (sniffed : option SniffedProtocol) : outcome (option bytes) :=
  match rules_read with
  | None => Ok None
  | Some rules =>
      if is_empty rules then Ok None
      else
        let p := port (location target) in
        let out := sniffed ≫= match_protocol rules in
        let out :=
          match out with
          | Some t => Some t
          | None => hostname (address (location target)) ≫= match_domain rules
          end in
        out ←
          match out with
          | Some t => Ok (Some t)
          | None =>
              match address (location target) with
              | Ipv4 o => Ok (match_ip rules (V4 o) p)
              | Ipv6 o => Ok (match_ip rules (V6 o) p)
              | Hostname _ =>
                  if rules_have_ip rules then
                    match resolved_addr target with
                    | Some a => Ok (match_ip rules (sa_ip a) p)
                    | None =>
                        match resolve_addresses resolve (location target) with
                        | inl e => Err e
                        | inr addrs => Ok (find_map (λ a, match_ip rules (sa_ip a) p) addrs)
                        end
                    end
                  else Ok None
              end
          end;
        Ok match out with
           | Some t => Some t
           | None => match match_catch_all rules with Some t => Some t | None => default_out end
           end
  end.
End index.

End Outbound.
