(* ===== verification/OutboundFacts.v ===== *)
(** * The compiled index agrees with the linear scan

    The specification of a lookup is the first rule of the flattened list that
    matches; the theorems show that the trie, the radix trees and the ordered
    lists of [Outbound] give its outbound. *)
From S2P Require Import Prelude Text Address Selector Rules Outbound.
Import Net Addr Selector Rules Outbound.
Local Open Scope Z_scope.

(** ** Smallest orders *)

(** [b] is a smallest-order element of [hits]. *)
Definition is_best (hits : nat * bytes → Prop) (b : option (nat * bytes)) : Prop :=
  match b with
  | None => ∀ e, ¬ hits e
  | Some e => hits e ∧ ∀ e', hits e' → (fst e ≤ fst e')%nat
  end.

Lemma is_best_ext P Q b : (∀ e, P e ↔ Q e) → is_best P b → is_best Q b.
Proof. intros E. destruct b; simpl; setoid_rewrite <- E; done. Qed.

Lemma improve_best P b e : is_best P b → is_best (λ x, P x ∨ x = e) (improve b e).
Proof.
  destruct b as [b|]; simpl; [|naive_solver]. intros [Hb Hmin].
  destruct (Nat.ltb_spec (fst e) (fst b)); simpl.
  - split; [by right|]. intros e' [He| ->]; [|done]. specialize (Hmin e' He). lia.
  - split; [by left|]. intros e' [He| ->]; [by apply Hmin|done].
Qed.

Lemma foldl_improve_best P b l : is_best P b → is_best (λ x, P x ∨ x ∈ l) (foldl improve b l).
Proof.
  revert P b. induction l as [|e l IH]; intros P b Hb; simpl.
  - eapply is_best_ext, Hb. set_solver.
  - eapply is_best_ext, IH, improve_best, Hb. intros x. rewrite elem_of_cons. naive_solver.
Qed.

(** The loops that stop early: their entries come in rule order. *)
Lemma scan_ordered_best {A} (hit : A → bool) l P b :
  StronglySorted (λ x y : nat * bytes * A, (fst (fst x) ≤ fst (fst y))%nat) l → is_best P b →
  is_best (λ e, P e ∨ ∃ x, (e, x) ∈ l ∧ hit x = true) (scan_ordered hit l b).
Proof.
  revert P b. induction l as [|[[o out] x] l IH]; intros P b Hs Hb.
  { eapply is_best_ext, Hb. set_solver. }
  apply StronglySorted_inv in Hs as [Hs Hx]. rewrite Forall_forall in Hx. cbn [scan_ordered].
  destruct (match b with Some b => (fst b <=? o)%nat | None => false end) eqn:Ecut.
  - destruct b as [[bo bout]|]; [|done]. to_prop. destruct Hb as [Hb Hmin]. simpl in *.
    split; [by left|].
    intros e' [He|(y&[Hy|Hy]%elem_of_cons&_)]; [by apply Hmin|by simplify_eq/=|].
    specialize (Hx _ Hy). simpl in Hx. lia.
  - eapply (is_best_ext (λ e, (P e ∨ (e = (o, out) ∧ hit x = true)) ∨ ∃ y, (e, y) ∈ l ∧ hit y = true)).
    { intros e. setoid_rewrite elem_of_cons. naive_solver. }
    apply IH; [done|]. destruct (hit x) eqn:E.
    + eapply is_best_ext, improve_best, Hb. naive_solver.
    + eapply is_best_ext, Hb. naive_solver.
Qed.

(** ** The suffix trie *)

(** The entries stored under a path. *)
Fixpoint suffix_at (path : list Z) (n : SuffixNode) : list (nat * bytes) :=
  match path with
  | [] => s_entries n
  | ch :: path => match s_children n !! ch with Some c => suffix_at path c | None => [] end
  end.

Lemma suffix_at_default path : suffix_at path SuffixNode_default = [].
Proof. destruct path; simpl; [done|]. by rewrite lookup_empty. Qed.

Lemma suffix_at_insert path e n path' :
  suffix_at path' (suffix_insert_at path e n) =
  suffix_at path' n ++ (if decide (path = path') then [e] else []).
Proof.
  revert n path'. induction path as [|ch path IH]; intros [cs es] [|ch' path']; simpl;
    [done|by rewrite app_nil_r|by rewrite app_nil_r|].
  rewrite lookup_insert. destruct (decide (ch = ch')) as [<-|Hne].
  - rewrite IH. f_equal; [|by repeat case_decide; naive_solver].
    destruct (cs !! ch); simpl; [done|by rewrite suffix_at_default].
  - rewrite decide_False by naive_solver. by rewrite app_nil_r.
Qed.

(** The walk collects the entries under the anchored non-empty prefixes of the
    reversed hostname. *)
Definition anchored (rest : bytes) : bool := match rest with prev :: _ => prev =? 46 | [] => true end.

Lemma suffix_query_best rb n P b :
  is_best P b →
  is_best (λ e, P e ∨ ∃ p rest, p ≠ [] ∧ rb = p ++ rest ∧ anchored rest = true ∧ e ∈ suffix_at p n)
    (suffix_query_at rb n b).
Proof.
  revert n P b. induction rb as [|c rb IH]; intros n P b Hb; simpl.
  { eapply is_best_ext, Hb. intros e. split; [by left|].
    intros [?|([]&rest&?&?&?)]; done. }
  destruct (s_children n !! c) as [child|] eqn:Ec; last first.
  { eapply is_best_ext, Hb. intros e. split; [by left|].
    intros [?|([|c' p]&rest&?&E&_&Hin)]; [done|done|]. simplify_eq/=. rewrite Ec in Hin. set_solver. }
  set (b' := if bool_decide (s_entries child = []) ||
               match rb with prev :: _ => negb (prev =? 46) | [] => false end
             then b else foldl improve b (s_entries child)).
  assert (is_best (λ e, P e ∨ (anchored rb = true ∧ e ∈ s_entries child)) b') as Hb'.
  { unfold b'. destruct (bool_decide (s_entries child = [])) eqn:E1; simpl.
    { to_prop. eapply is_best_ext, Hb. rewrite E1. set_solver. }
    destruct rb as [|prev rb]; simpl in *.
    - eapply is_best_ext, foldl_improve_best, Hb. naive_solver.
    - destruct (prev =? 46); simpl; [eapply is_best_ext, foldl_improve_best, Hb; naive_solver|].
      eapply is_best_ext, Hb. naive_solver. }
  eapply is_best_ext, (IH child _ _ Hb'). intros e. split.
  - intros [[?|[Ha He]]|(p&rest&Hp&->&Ha&He)]; [by left|right..].
    + exists [c], rb. simpl. rewrite Ec. done.
    + exists (c :: p), rest. simpl. by rewrite Ec.
  - intros [?|([|c' p]&rest&?&E&Ha&Hin)]; [by do 2 left|done|]. simplify_eq/=. rewrite Ec in Hin.
    destruct p as [|c p]; [left; right; done|right]. exists (c :: p), rest. done.
Qed.

(** ** The radix trees *)

(** The bits [127 - i], [126 - i], ... of a 128-bit number. *)
Fixpoint bits_from (i n : nat) (x : Z) : list bool :=
  match n with O => [] | S n => Z.testbit x (127 - Z.of_nat i) :: bits_from (S i) n x end.

Fixpoint ip_at (path : list bool) (n : IpNode) : list (nat * bytes * Z) :=
  match path with
  | [] => i_entries n
  | b :: path => match i_child n b with Some c => ip_at path c | None => [] end
  end.

Lemma ip_at_default path : ip_at path IpNode_default = [].
Proof. by destruct path as [|[]]. Qed.

Lemma i_child_set n b c b' : i_child (i_set_child n b c) b' = if decide (b = b') then Some c else i_child n b'.
Proof. by destruct n, b, b'. Qed.
Lemma i_entries_set n b c : i_entries (i_set_child n b c) = i_entries n.
Proof. by destruct n, b. Qed.

Lemma ip_at_insert n i x e node path :
  ip_at path (ip_insert_at n i x e node) =
  ip_at path node ++ (if decide (bits_from i n x = path) then [e] else []).
Proof.
  revert i node path. induction n as [|n IH]; intros i node [|b path]; simpl.
  - by destruct node.
  - rewrite app_nil_r. by destruct node, b.
  - by rewrite i_entries_set, app_nil_r.
  - rewrite i_child_set. case_decide as Hb; [subst b|].
    + rewrite IH. f_equal; [|by repeat case_decide; naive_solver].
      destruct (i_child node _); simpl; [done|by rewrite ip_at_default].
    + rewrite decide_False by naive_solver. by rewrite app_nil_r.
Qed.

Definition port_ok (rule_port port : Z) : bool := (rule_port =? 0) || (rule_port =? port).

Lemma improve_port_best port P b l :
  is_best P b →
  is_best (λ e, P e ∨ ∃ rp, (e, rp) ∈ l ∧ port_ok rp port = true) (foldl (improve_port port) b l).
Proof.
  revert P b. induction l as [|[[o out] rp] l IH]; intros P b Hb; simpl.
  { eapply is_best_ext, Hb. set_solver. }
  eapply (is_best_ext (λ e, (P e ∨ (e = (o, out) ∧ port_ok rp port = true)) ∨
                            ∃ rp, (e, rp) ∈ l ∧ port_ok rp port = true)).
  { intros e. setoid_rewrite elem_of_cons. naive_solver. }
  apply IH. unfold port_ok.
  destruct (rp =? 0), (rp =? port); simpl;
    first [eapply is_best_ext, improve_best, Hb; naive_solver | eapply is_best_ext, Hb; naive_solver].
Qed.

Lemma ip_query_best n i x port node P b :
  is_best P b →
  is_best (λ e, P e ∨ ∃ k rp, (k ≤ n)%nat ∧ (e, rp) ∈ ip_at (bits_from i k x) node ∧ port_ok rp port = true)
    (ip_query_at n i x port node b).
Proof.
  revert i node P b. induction n as [|n IH]; intros i node P b Hb;
    pose proof (improve_port_best port P b (i_entries node) Hb) as Hb'; simpl.
  - eapply is_best_ext, Hb'. intros e. split.
    + intros [?|(rp&?&?)]; [by left|right]. by exists 0%nat, rp.
    + intros [?|(k&rp&Hk&?&?)]; [by left|right]. assert (k = 0)%nat as -> by lia. eauto.
  - destruct (i_child node (Z.testbit x (127 - Z.of_nat i))) as [child|] eqn:Ec.
    + eapply is_best_ext, (IH (S i) child _ _ Hb'). intros e. split.
      * intros [[?|(rp&?&?)]|(k&rp&?&?&?)]; [by left|right; by exists 0%nat, rp; split; [lia|]|].
        right. exists (S k), rp. simpl. rewrite Ec. split; [lia|done].
      * intros [?|([|k]&rp&?&Hin&?)]; [by do 2 left|left; right; eauto|].
        simpl in Hin. rewrite Ec in Hin. right. exists k, rp. split; [lia|done].
    + eapply is_best_ext, Hb'. intros e. split.
      * intros [?|(rp&?&?)]; [by left|right]. by exists 0%nat, rp; split; [lia|].
      * intros [?|([|k]&rp&?&Hin&?)]; [by left|right; eauto|].
        simpl in Hin. rewrite Ec in Hin. set_solver.
Qed.

Lemma length_bits_from i n x : length (bits_from i n x) = n.
Proof. revert i. induction n as [|n IH]; intros i; simpl; [done|]. by rewrite IH. Qed.

Lemma bits_from_eq_spec i n x y :
  bits_from i n x = bits_from i n y ↔
  ∀ j, (i ≤ j < i + n)%nat → Z.testbit x (127 - Z.of_nat j) = Z.testbit y (127 - Z.of_nat j).
Proof.
  revert i. induction n as [|n IH]; intros i; simpl; [split; [intros _ j; lia|done]|]. split.
  - intros [= H1 H2] j Hj. rewrite IH in H2.
    destruct (decide (i = j)) as [<-|]; [done|]. apply H2. lia.
  - intros H. f_equal; [apply H; lia|]. apply IH. intros j Hj. apply H. lia.
Qed.

(** Two numbers agree on their first [n] bits iff they agree after dropping the
    others. *)
Lemma bits_from_eq n x y :
  in_width 128 x → in_width 128 y → (n ≤ 128)%nat →
  bits_from 0 n x = bits_from 0 n y ↔ x / 2 ^ (128 - Z.of_nat n) = y / 2 ^ (128 - Z.of_nat n).
Proof.
  intros [Hx0 Hx] [Hy0 Hy] Hn. rewrite bits_from_eq_spec, <- !Z.shiftr_div_pow2 by lia. split.
  - intros H. apply Z.bits_inj'. intros k Hk. rewrite !Z.shiftr_spec by done.
    destruct (Z.ltb_spec (k + (128 - Z.of_nat n)) 128) as [Hlt|Hge].
    + specialize (H (Z.to_nat (127 - (k + (128 - Z.of_nat n)))) ltac:(lia)).
      by replace (127 - Z.of_nat (Z.to_nat (127 - (k + (128 - Z.of_nat n)))))
        with (k + (128 - Z.of_nat n)) in H by lia.
    + assert (∀ z, 0 ≤ z → z < 2 ^ 128 → Z.testbit z (k + (128 - Z.of_nat n)) = false) as Hz.
      { intros z H0 H1. rewrite <- (Z.mod_small z (2 ^ 128)) by lia.
        apply Z.mod_pow2_bits_high. lia. }
      by rewrite !Hz by lia.
  - intros H j Hj. assert (Z.testbit (Z.shiftr x (128 - Z.of_nat n)) (Z.of_nat n - 1 - Z.of_nat j) =
      Z.testbit (Z.shiftr y (128 - Z.of_nat n)) (Z.of_nat n - 1 - Z.of_nat j)) as Hb by by rewrite H.
    rewrite !Z.shiftr_spec in Hb by lia.
    by replace (Z.of_nat n - 1 - Z.of_nat j + (128 - Z.of_nat n)) with (127 - Z.of_nat j) in Hb by lia.
Qed.

(** ** What an index holds *)

Section compiled.
Context {R : Type} (regex_is_match : R → bytes → bool).
Abbreviation flat_rule := (nat * ConnectMatcher R * bytes)%type.
Implicit Types (flat : list flat_rule) (inner : CompiledRulesInner R).

Definition entry (e : flat_rule) : nat * bytes := (fst (fst e), snd e).

Definition suffix_entry (path : list Z) (e : flat_rule) : option (nat * bytes) :=
  match snd (fst e) with
  | DomainSuffix d => if decide (reverse (chars d) = path) then Some (entry e) else None
  | _ => None
  end.
Definition full_entry (key : bytes) (e : flat_rule) : option (nat * bytes) :=
  match snd (fst e) with
  | DomainFull d => if decide (to_ascii_lowercase d = key) then Some (entry e) else None
  | _ => None
  end.
Definition keyword_entry (e : flat_rule) : option (nat * bytes * bytes) :=
  match snd (fst e) with
  | DomainKeyword k => Some (fst (fst e), to_ascii_lowercase k, snd e)
  | _ => None
  end.
Definition regex_entry (e : flat_rule) : option (nat * bytes * R) :=
  match snd (fst e) with DomainRegex r => Some (entry e, r) | _ => None end.
Definition protocol_entry (e : flat_rule) : option (nat * bytes * SniffedProtocol) :=
  match snd (fst e) with Protocol p => Some (entry e, p) | _ => None end.

(** The bits and the tree of an address rule. *)
Definition mask_bits_of (m : AddressMask) : option (bool * Z) :=
  match am_address m with
  | Ipv4 o => Some (true, v4_bits o)
  | Ipv6 o => Some (false, be_decode o)
  | Hostname _ => None
  end.
Definition ip_entry (v4 : bool) (path : list bool) (e : flat_rule) : option (nat * bytes * Z) :=
  match snd (fst e) with
  | Location mask =>
      match mask_bits_of (address_mask mask) with
      | Some (v, x) =>
          if decide (v = v4 ∧ bits_from 0 (Z.to_nat (prefix_len (address_mask mask))) x = path)
          then Some (entry e, lm_port mask) else None
      | None => None
      end
  | _ => None
  end.

Definition is_location (e : flat_rule) : bool :=
  match snd (fst e) with Location _ => true | _ => false end.

Record holds flat inner : Prop := {
  h_suffix path : suffix_at path (suffix_trie inner) = omap (suffix_entry path) flat;
  h_full key : full inner !! key = head (omap (full_entry key) flat);
  h_keywords : keywords inner = omap keyword_entry flat;
  h_regexes : regexes inner = omap regex_entry flat;
  h_protocols : protocols inner = omap protocol_entry flat;
  h_ipv4 path : ip_at path (ipv4 inner) = omap (ip_entry true path) flat;
  h_ipv6 path : ip_at path (ipv6 inner) = omap (ip_entry false path) flat;
  h_has_ip : has_ip_rules inner = existsb is_location flat;
}.

Lemma omap_snoc {A B} (f : A → option B) l x :
  omap f (l ++ [x]) = omap f l ++ match f x with Some y => [y] | None => [] end.
Proof. by rewrite omap_app. Qed.

Lemma head_snoc {A} (l : list A) x :
  head (l ++ [x]) = match head l with Some y => Some y | None => Some x end.
Proof. by destruct l. Qed.

Lemma holds_nil catch : holds [] (inner_new catch).
Proof.
  split; intros; first [apply suffix_at_default | apply ip_at_default | apply lookup_empty | done].
Qed.

Lemma index_rule_holds flat inner e inner' :
  holds flat inner → index_rule inner e = Ok inner' →
  holds (flat ++ [e]) inner' ∧ catch_all inner' = catch_all inner.
Proof.
  intros [Hs Hf Hk Hr Hp H4 H6 Hip] Hi. destruct e as [[o m] out], inner as [hi ca st fu kw re v4 v6 pr].
  simpl in *. destruct m as [mask|k|d|d|r|p]; simpl in Hi;
    [destruct (am_address (address_mask mask)) as [a|a|h] eqn:Ea|..]; simplify_eq; split; try done;
    split; intros;
    try (cbn [has_ip_rules]; rewrite existsb_app; simpl; by rewrite ?orb_true_r, ?orb_false_r);
    rewrite omap_snoc;
    cbn [suffix_trie full keywords regexes protocols ipv4 ipv6 fst snd
         suffix_entry full_entry keyword_entry regex_entry protocol_entry ip_entry];
    unfold entry, mask_bits_of, suffix_insert, ip_insert; rewrite ?Ea; cbn [fst snd];
    rewrite ?app_nil_r, ?suffix_at_insert, ?ip_at_insert;
    rewrite ?Hs, ?H4, ?H6, ?Hk, ?Hr, ?Hp; try done;
    try (f_equal; repeat case_decide; naive_solver).
  specialize (Hf key) as Hfk. destruct (decide (to_ascii_lowercase d = key)) as [<-|Hne].
  - rewrite head_snoc, <- Hfk. destruct (fu !! to_ascii_lowercase d) eqn:E; [by rewrite E|].
    by rewrite lookup_insert_eq.
  - rewrite app_nil_r, <- Hfk. destruct (fu !! to_ascii_lowercase d); [done|].
    by rewrite lookup_insert_ne.
Qed.

Lemma index_rules_holds flat0 inner flat inner' :
  holds flat0 inner → index_rules inner flat = Ok inner' →
  holds (flat0 ++ flat) inner' ∧ catch_all inner' = catch_all inner.
Proof.
  revert flat0 inner. induction flat as [|e flat IH]; intros flat0 inner Hh Hi; simpl in Hi.
  { simplify_eq. by rewrite app_nil_r. }
  apply outcome_bind_Ok in Hi as (inner1&H1&H2).
  destruct (index_rule_holds _ _ _ _ Hh H1) as [Hh1 <-].
  destruct (IH _ _ Hh1 H2) as [Hh2 <-]. by rewrite <- (assoc_L (++)) in Hh2.
Qed.

(** ** Orders of the flattened rules *)

Record in_order (start : nat) flat : Prop := {
  io_sorted : StronglySorted (λ x y : flat_rule, (fst (fst x) ≤ fst (fst y))%nat) flat;
  io_from : Forall (λ x : flat_rule, (start ≤ fst (fst x))%nat) flat;
  io_outbound x y : x ∈ flat → y ∈ flat → fst (fst x) = fst (fst y) → snd x = snd y;
}.

Lemma push_expanded_order o out expanded l :
  push_expanded o out expanded = Ok l → Forall (λ x : flat_rule, fst (fst x) = o ∧ snd x = out) l.
Proof.
  revert l. induction expanded as [|r expanded IH]; intros l E; simpl in E; simplify_eq; [constructor|].
  apply outcome_bind_Ok in E as (m&_&E). apply outcome_bind_Ok in E as (rest&Hr&[= <-]).
  constructor; [done|by apply IH].
Qed.

Lemma in_order_app start here rest out :
  Forall (λ x : flat_rule, fst (fst x) = start ∧ snd x = out) here → in_order (S start) rest →
  in_order start (here ++ rest).
Proof.
  intros Hh [Hs Hf Ho]. rewrite Forall_forall in Hh, Hf. split.
  - apply StronglySorted_app. split_and!; [| |done].
    + intros x y Hx Hy. specialize (Hh x Hx) as [-> _]. specialize (Hf y Hy). simpl in Hf. lia.
    + clear -Hh. induction here as [|x l IH]; constructor; [apply IH; set_solver|].
      apply Forall_forall. intros y Hy.
      destruct (Hh x ltac:(set_solver)) as [-> _], (Hh y ltac:(set_solver)) as [-> _]. done.
  - apply Forall_app. split; apply Forall_forall; intros x Hx.
    + by destruct (Hh x Hx) as [-> _].
    + specialize (Hf x Hx). simpl in Hf. lia.
  - intros x y [Hx|Hx]%elem_of_app [Hy|Hy]%elem_of_app E.
    + destruct (Hh x Hx) as [_ ->], (Hh y Hy) as [_ ->]. done.
    + destruct (Hh x Hx) as [Ex _]. specialize (Hf y Hy). simpl in Hf. lia.
    + destruct (Hh y Hy) as [Ey _]. specialize (Hf x Hx). simpl in Hf. lia.
    + by apply Ho.
Qed.

Lemma flatten_in_order gs gi order rules catch flat catch' :
  flatten gs gi order rules catch = Ok (flat, catch') → in_order order flat.
Proof.
  revert order catch flat catch'. induction rules as [|r rules IH]; intros order catch flat catch' E;
    simpl in E.
  { simplify_eq. split; [constructor|constructor|set_solver]. }
  apply outcome_bind_Ok in E as ([here c1]&Hh&E).
  apply outcome_bind_Ok in E as ([rest c2]&Hr&[= <- <-]).
  apply (in_order_app _ _ _ (outbound r)); [|by eapply IH].
  destruct (external r) as [[code|code]|].
  1,2: apply outcome_bind_Ok in Hh as (ex&_&Hh); apply outcome_bind_Ok in Hh as (h&Hp&[= <- <-]);
    by eapply push_expanded_order.
  destruct (matcher r); simplify_eq; repeat constructor.
Qed.

Lemma sorted_lookup {A} (P : A → A → Prop) l i j x y :
  StronglySorted P l → l !! i = Some x → l !! j = Some y → (i < j)%nat → P x y.
Proof.
  intros Hs. revert i j. induction Hs as [|z l Hs IH Hz]; intros [|i] [|j] Hi Hj Hlt; simpl in *;
    try done; try lia.
  - simplify_eq. rewrite Forall_forall in Hz. apply Hz. by eapply list_elem_of_lookup_2.
  - apply (IH i j); [done..|lia].
Qed.

(** The linear scan. *)
Definition first_match (hit : ConnectMatcher R → bool) flat : option bytes :=
  (λ p, snd (snd p)) <$> list_find (λ e : flat_rule, hit (snd (fst e)) = true) flat.

(** A smallest-order hit has the outbound of the first one. *)
Lemma best_is_first start hit flat b :
  in_order start flat →
  is_best (λ e, ∃ m, (fst e, m, snd e) ∈ flat ∧ hit m = true) b →
  snd <$> b = first_match hit flat.
Proof.
  intros [Hs _ Ho] Hb. unfold first_match.
  destruct (list_find _ flat) as [[i [[o m] out]]|] eqn:E; simpl.
  - apply list_find_Some in E as (Hi&Hh&Hbefore). simpl in *.
    destruct b as [[bo bout]|]; simpl in *.
    + destruct Hb as [(m'&Hin&Hh') Hmin]. f_equal.
      apply (Ho (bo, m', bout) (o, m, out)); [done|by eapply list_elem_of_lookup_2|]. simpl.
      assert (bo ≤ o)%nat as Hle.
      { apply (Hmin (o, out)). exists m. split; [by eapply list_elem_of_lookup_2|done]. }
      apply list_elem_of_lookup in Hin as [j Hj].
      destruct (decide (j < i)%nat) as [Hlt|Hge]; [by destruct (Hbefore j _ Hj Hlt)|].
      destruct (decide (i = j)) as [->|]; [by simplify_eq|].
      pose proof (sorted_lookup _ _ i j _ _ Hs Hi Hj ltac:(lia)) as Hij. simpl in Hij. lia.
    + exfalso. apply (Hb (o, out)). exists m. split; [by eapply list_elem_of_lookup_2|done].
  - apply list_find_None in E. rewrite Forall_forall in E. destruct b as [[bo bout]|]; [|done].
    destruct Hb as [(m&Hin&Hh) _]. by destruct (E _ Hin).
Qed.

(** ** Domains *)

(** Whether a domain matcher matches a lower-case hostname. *)
Definition domain_hit (host : bytes) (m : ConnectMatcher R) : bool :=
  match m with
  | DomainSuffix d => negb (bool_decide (d = [])) && matches_domain d host
  | DomainFull d => bool_decide (to_ascii_lowercase d = host)
  | DomainKeyword k => contains (to_ascii_lowercase k) host
  | DomainRegex r => regex_is_match r host
  | _ => false
  end.

Definition ascii_suffixes flat : Prop :=
  ∀ o d out, (o, DomainSuffix d, out) ∈ flat → is_ascii d = true.

Lemma chars_ascii d : is_ascii d = true → chars d = d.
Proof.
  unfold chars, is_ascii. induction d as [|c d IH]; [done|]. simpl. intros H. to_prop.
  rewrite (proj2 (Z.leb_le 0 c)), (proj2 (Z.leb_le c 127)) by done. simpl. rewrite drop_0.
  f_equal. by apply IH.
Qed.

(** A suffix matches iff the hostname reversed starts with it reversed, at an
    anchor. *)
Lemma matches_domain_anchored d host :
  matches_domain d host = true ↔ ∃ rest, reverse host = reverse d ++ rest ∧ anchored rest = true.
Proof.
  unfold matches_domain. destruct (ends_with d host) eqn:E; last first.
  { split; [done|]. intros (rest&Hr&_). assert (ends_with d host = true); [|congruence].
    apply ends_with_spec. exists (reverse rest). apply (inj reverse).
    by rewrite reverse_app, reverse_involutive. }
  apply ends_with_spec in E as [t ->]. rewrite reverse_app, length_app.
  destruct t as [|c t] using rev_ind; simpl.
  { rewrite Nat.eqb_refl. split; [|done]. intros _. by exists []. }
  clear IHt. rewrite length_app. simpl.
  rewrite (proj2 (Nat.eqb_neq _ _)) by lia.
  replace (length t + 1 + length d - length d - 1)%nat with (length t) by lia.
  rewrite <- (assoc_L (++)), lookup_app_r, Nat.sub_diag by done. simpl.
  rewrite bool_decide_eq_true, reverse_app. simpl. split.
  - intros [= ->]. by exists (46 :: reverse t).
  - intros (rest&Hr&Ha). apply (inj (reverse d ++.)) in Hr. subst rest. simpl in Ha. to_prop. by subst.
Qed.

Lemma lower_host domain :
  (if existsb is_ascii_uppercase domain then to_ascii_lowercase domain else domain) =
  to_ascii_lowercase domain.
Proof.
  destruct (existsb is_ascii_uppercase domain) eqn:E; [done|].
  unfold to_ascii_lowercase. induction domain as [|c d IH]; [done|]. simpl in *. to_prop.
  unfold lower_byte at 1. rewrite H. f_equal. by apply IH.
Qed.

Lemma sorted_omap {A} (f : flat_rule → option (nat * bytes * A)) flat :
  (∀ e y, f e = Some y → fst (fst y) = fst (fst e)) →
  StronglySorted (λ x y : flat_rule, (fst (fst x) ≤ fst (fst y))%nat) flat →
  StronglySorted (λ x y : nat * bytes * A, (fst (fst x) ≤ fst (fst y))%nat) (omap f flat).
Proof.
  intros Hf Hs. induction Hs as [|x l Hs IH Hx]; [constructor|]. simpl.
  destruct (f x) as [y|] eqn:E; [|done]. constructor; [done|].
  apply Forall_forall. intros z (x'&Hin&Hz)%list_elem_of_omap.
  rewrite Forall_forall in Hx. rewrite (Hf _ _ E), (Hf _ _ Hz). by apply Hx.
Qed.

(** Improving by the first of some hits accounts for all of them. *)
Lemma improve_first_best (Q : nat * bytes → Prop) P b e :
  Q e → (∀ e', Q e' → (fst e ≤ fst e')%nat) → is_best P b → is_best (λ x, P x ∨ Q x) (improve b e).
Proof.
  intros Hq Hmin Hb. pose proof (improve_best P b e Hb) as Hi.
  destruct (improve b e) as [x|]; simpl in *.
  - destruct Hi as [Hx Hle]. split; [naive_solver|].
    intros e' [He|He]; [apply Hle; by left|]. etrans; [apply Hle; by right|]. by apply Hmin.
  - exfalso. apply (Hi e). by right.
Qed.

Lemma full_first start flat host e :
  in_order start flat → head (omap (full_entry host) flat) = Some e →
  (∃ d, (fst e, DomainFull d, snd e) ∈ flat ∧ to_ascii_lowercase d = host) ∧
  ∀ e', (∃ d, (fst e', DomainFull d, snd e') ∈ flat ∧ to_ascii_lowercase d = host) →
        (fst e ≤ fst e')%nat.
Proof.
  intros [Hs _ _] He. induction Hs as [|[[o m] out] l Hs IH Hx]; [done|].
  rewrite Forall_forall in Hx. simpl in He.
  destruct (full_entry host (o, m, out)) as [y|] eqn:E; simpl in He.
  - simplify_eq. unfold full_entry in E. destruct m; simplify_eq/=. case_decide; simplify_eq/=.
    split; [exists domain; set_solver|]. intros [o' out'] (d&[Hd|Hd]%elem_of_cons&_);
      [by simplify_eq/=|]. apply (Hx _ Hd).
  - destruct (IH He) as [(d&Hd&Hl) Hmin]. split; [exists d; set_solver|].
    intros e' (d'&[Hd'|Hd']%elem_of_cons&Hl'); [|apply Hmin; eauto].
    simplify_eq/=. unfold full_entry in E. simpl in E. by rewrite decide_True in E.
Qed.

Lemma holds_domain_best start flat inner host :
  in_order start flat → holds flat inner → ascii_suffixes flat →
  is_best (λ e, ∃ m, (fst e, m, snd e) ∈ flat ∧ domain_hit host m = true)
    (scan_ordered (λ r, regex_is_match r host) (regexes inner)
      (scan_ordered (λ k, contains k host)
        ((λ e : nat * bytes * bytes, (fst (fst e), snd e, snd (fst e))) <$> keywords inner)
        (match full inner !! host with
         | Some e => improve (suffix_query (suffix_trie inner) host None) e
         | None => suffix_query (suffix_trie inner) host None
         end))).
Proof.
  intros Ho [Hs Hf Hk Hr _ _ _ _] Hasc.
  pose proof (suffix_query_best (reverse host) (suffix_trie inner) (λ _, False) None) as Hb.
  specialize (Hb ltac:(by intros ? [])). fold (suffix_query (suffix_trie inner) host None) in Hb.
  set (b1 := suffix_query _ _ _) in *.
  set (Q := λ e : nat * bytes, ∃ d, (fst e, DomainFull d, snd e) ∈ flat ∧ to_ascii_lowercase d = host).
  set (P := λ e, False ∨ _) in Hb.
  assert (is_best (λ e, P e ∨ Q e)
    (match full inner !! host with Some e => improve b1 e | None => b1 end)) as Hb2.
  { rewrite Hf. destruct (head (omap (full_entry host) flat)) as [e|] eqn:E.
    - destruct (full_first _ _ _ _ Ho E) as [??]. by apply improve_first_best.
    - eapply is_best_ext, Hb. intros e. split; [by left|]. intros [?|(d&Hd&Hl)]; [done|].
      assert (e ∈ omap (full_entry host) flat) as Hin.
      { apply list_elem_of_omap. exists (fst e, DomainFull d, snd e). split; [done|].
        unfold full_entry. simpl. rewrite decide_True by done. by destruct e. }
      destruct (omap (full_entry host) flat); [by apply elem_of_nil in Hin|done]. }
  eapply is_best_ext, scan_ordered_best, scan_ordered_best, Hb2; cycle 1.
  - rewrite Hr. apply sorted_omap; [|apply Ho]. intros [[o m] out] y Hy.
    unfold regex_entry in Hy. destruct m; by simplify_eq/=.
  - rewrite Hk. rewrite list_fmap_omap. apply sorted_omap; [|apply Ho]. intros [[o m] out] y Hy.
    unfold keyword_entry in Hy. destruct m; by simplify_eq/=.
  - intros [o out]. unfold P, Q. rewrite Hk, Hr, list_fmap_omap.
    setoid_rewrite Hs. setoid_rewrite list_elem_of_omap. split.
    + intros [[[[[]|(p&rest&Hp&Hh&Ha&[[o' m] out']&Hin&He)]|(d&Hin&Hd)]|(k&([[o' m] out']&Hin&He)&Hc)]
        |(r&([[o' m] out']&Hin&He)&Hm)].
      * unfold suffix_entry, entry in He. destruct m as [| | |d| |]; simplify_eq/=. case_decide; simplify_eq/=.
        pose proof (Hasc _ _ _ Hin) as Hd. exists (DomainSuffix d). split; [done|]. simpl.
        rewrite chars_ascii in Hp, Hh by done. apply andb_true_iff. split.
        -- rewrite bool_decide_eq_false_2; [done|]. by intros ->.
        -- apply matches_domain_anchored. eauto.
      * exists (DomainFull d). split; [done|]. by apply bool_decide_eq_true.
      * unfold keyword_entry in He. destruct m as [|kw| | | |]; simplify_eq/=. by exists (DomainKeyword kw).
      * unfold regex_entry, entry in He. destruct m as [| | | |re|]; simplify_eq/=. by exists (DomainRegex r).
    + intros (m&Hin&Hh). destruct m as [mask|k|d|d|r|p]; simpl in *; try done.
      * left; right. exists (to_ascii_lowercase k). split; [|done].
        by exists (o, DomainKeyword k, out).
      * left; left; right. apply bool_decide_eq_true in Hh. eauto.
      * left; left; left; right. apply andb_true_iff in Hh as [Hne Hm]. to_prop.
        apply matches_domain_anchored in Hm as (rest&Hr'&Ha). pose proof (Hasc _ _ _ Hin) as Hd.
        exists (reverse d), rest. split_and!; [|done|done|].
        -- intros E. apply Hne. apply (f_equal reverse) in E. by rewrite reverse_involutive in E.
        -- exists (o, DomainSuffix d, out). split; [done|]. unfold suffix_entry. simpl.
           by rewrite chars_ascii, decide_True by done.
      * right. exists r. split; [|done]. by exists (o, DomainRegex r, out).
Qed.

Lemma compile_holds gs gi rules flat catch c :
  flatten gs gi 0 rules None = Ok (flat, catch) → compile gs gi rules = Ok c →
  in_order 0 flat ∧
  match c with
  | Some inner => holds flat inner ∧ catch_all inner = catch
  | None => flat = [] ∧ catch = None
  end.
Proof.
  intros Hf Hc. split; [by eapply flatten_in_order|]. unfold compile in Hc. rewrite Hf in Hc.
  simpl in Hc. assert ((flat = [] ∧ catch = None ∧ c = None) ∨
    ∃ inner, index_rules (inner_new catch) flat = Ok inner ∧ c = Some inner) as [(->&->&->)|(inner&Hi&->)].
  { destruct flat, catch; simplify_eq; try (right; apply outcome_bind_Ok in Hc as (i&?&[= <-]); eauto);
      by left. }
  - done.
  - by apply (index_rules_holds [] _ _ _ (holds_nil catch)).
Qed.

(** ** Addresses *)

(** A mask as the parser makes it: a prefix of the address bits. *)
Definition mask_wf (m : AddressMask) : Prop :=
  addr_ok (am_address m) ∧
  ∃ k, 0 ≤ k ≤ 128 ∧ netmask m = mask_of_keep k ∧
       match am_address m with Ipv4 _ => k = 0 ∨ 97 ≤ k | _ => True end.
Definition masks_wf flat : Prop :=
  ∀ o mask out, (o, Location mask, out) ∈ flat → mask_wf (address_mask mask).

(** Whether an address matcher matches: the rule is of the address's family,
    the masked addresses agree as [Selector.compare_masked] compares them, and
    the port is the rule's or the rule has none. *)
Definition ip_hit (ip : IpAddr) (port : Z) (m : ConnectMatcher R) : bool :=
  match m with
  | Location mask =>
      let nm := netmask (address_mask mask) in
      port_ok (lm_port mask) port &&
      match ip, am_address (address_mask mask) with
      | V4 o, Ipv4 a => Z.land (ipv4_to_u128 a) nm =? Z.land (ipv4_to_u128 o) nm
      | V6 o, Ipv6 a => Z.land (ipv6_to_u128 a) nm =? Z.land (ipv6_to_u128 o) nm
      | _, _ => false
      end
  | _ => false
  end.

Lemma be_decode_width n o : length o = n → bytes_ok o → in_width (8 * Z.of_nat n) (be_decode o).
Proof.
  intros <- Ho. pose proof (be_decode_bound o Ho) as Hb. unfold in_width.
  by replace (2 ^ (8 * Z.of_nat (length o))) with (256 ^ Z.of_nat (length o))
    by (change 256 with (2 ^ 8); rewrite <- Z.pow_mul_r by lia; done).
Qed.

Lemma ipv4_to_u128_eq o : length o = 4%nat → ipv4_to_u128 o = 65535 * 2 ^ 32 + be_decode o.
Proof.
  intros Hl. unfold ipv4_to_u128. rewrite !be_decode_app, length_app, Hl.
  change (be_decode (replicate 10 0)) with 0. change (be_decode [255; 255]) with 65535.
  change (256 ^ Z.of_nat 4) with (2 ^ 32). lia.
Qed.

(** Agreement on the top bits of the two encodings of IPv4 addresses. *)
Lemma v4_prefix_eq a o p :
  length a = 4%nat → length o = 4%nat → bytes_ok a → bytes_ok o → (p ≤ 32)%nat →
  bits_from 0 p (v4_bits a) = bits_from 0 p (v4_bits o) ↔
  be_decode a / 2 ^ (32 - Z.of_nat p) = be_decode o / 2 ^ (32 - Z.of_nat p).
Proof.
  intros La Lo Ha Ho Hp. pose proof (be_decode_width 4 a La Ha) as [A0 A1].
  pose proof (be_decode_width 4 o Lo Ho) as [O0 O1].
  change (2 ^ (8 * Z.of_nat 4)) with (2 ^ 32) in *.
  unfold v4_bits. rewrite !Z.shiftl_mul_pow2 by lia.
  rewrite bits_from_eq by (unfold in_width; lia).
  assert (∀ x, x * 2 ^ 96 / 2 ^ (128 - Z.of_nat p) = x / 2 ^ (32 - Z.of_nat p)) as E.
  { intros x. replace (128 - Z.of_nat p) with ((32 - Z.of_nat p) + 96) by lia.
    rewrite Z.pow_add_r by lia. by rewrite Z.div_mul_cancel_r by lia. }
  by rewrite !E.
Qed.

Lemma add_high_div c x p :
  0 ≤ p ≤ 32 → (c * 2 ^ 32 + x) / 2 ^ (32 - p) = c * 2 ^ p + x / 2 ^ (32 - p).
Proof.
  intros Hp. replace (2 ^ 32) with (2 ^ p * 2 ^ (32 - p)) by (rewrite <- Z.pow_add_r by lia; f_equal; lia).
  rewrite Z.mul_assoc, Z.add_comm, Z.div_add by lia. lia.
Qed.

Lemma prefix_len_wf m k :
  0 ≤ k ≤ 128 → netmask m = mask_of_keep k →
  prefix_len m = match am_address m with Ipv4 _ => Z.max 0 (k - 96) | _ => k end.
Proof.
  intros Hk Hm. pose proof (mask_bits_of_keep k Hk) as Hb. unfold prefix_len. rewrite Hm.
  unfold mask_bits in Hb. destruct (mask_of_keep k =? 0); [|by rewrite Hb].
  subst k. by destruct (am_address m).
Qed.

(** The radix path of a rule leads to an address iff the mask matches it. *)
Lemma mask_path m v4 a :
  mask_wf m → mask_bits_of m = Some (v4, a) →
  (Z.to_nat (prefix_len m) ≤ 128)%nat ∧
  ∀ ip, ip_ok ip →
    match ip, am_address m with
    | V4 o, Ipv4 x =>
        bits_from 0 (Z.to_nat (prefix_len m)) a = bits_from 0 (Z.to_nat (prefix_len m)) (v4_bits o) ↔
        Z.land (ipv4_to_u128 x) (netmask m) = Z.land (ipv4_to_u128 o) (netmask m)
    | V6 o, Ipv6 x =>
        bits_from 0 (Z.to_nat (prefix_len m)) a = bits_from 0 (Z.to_nat (prefix_len m)) (be_decode o) ↔
        Z.land (ipv6_to_u128 x) (netmask m) = Z.land (ipv6_to_u128 o) (netmask m)
    | _, _ => True
    end.
Proof.
  intros [Hok (k&Hk&Hn&Hfam)] Hb. rewrite (prefix_len_wf m k Hk Hn), Hn.
  unfold mask_bits_of in Hb. destruct (am_address m) as [x|x|h]; simplify_eq/=; destruct Hok as [Lx Bx];
    (split; [lia|]); intros [o|o] Hip; try done; destruct Hip as [Lo Bo].
  - rewrite masked_eq_iff; [|rewrite ipv4_to_u128_eq by done..|done].
    2,3: (pose proof (be_decode_width 4 x Lx Bx); pose proof (be_decode_width 4 o Lo Bo);
          unfold in_width in *; change (2 ^ (8 * Z.of_nat 4)) with (2 ^ 32) in *; lia).
    rewrite v4_prefix_eq by (done || lia). rewrite !ipv4_to_u128_eq by done.
    destruct Hfam as [->|Hk'].
    + pose proof (be_decode_width 4 x Lx Bx). pose proof (be_decode_width 4 o Lo Bo).
      unfold in_width in *. change (2 ^ (8 * Z.of_nat 4)) with (2 ^ 32) in *.
      change (32 - Z.of_nat (Z.to_nat (Z.max 0 (0 - 96)))) with 32. change (128 - 0) with 128.
      by rewrite !Z.div_small by lia.
    + replace (32 - Z.of_nat (Z.to_nat (Z.max 0 (k - 96)))) with (32 - (k - 96)) by lia.
      replace (128 - k) with (32 - (k - 96)) by lia. rewrite !add_high_div by lia. lia.
  - unfold ipv6_to_u128. pose proof (be_decode_width 16 x Lx Bx). pose proof (be_decode_width 16 o Lo Bo).
    rewrite masked_eq_iff, bits_from_eq by (done || lia). by rewrite Z2Nat.id by lia.
Qed.

Lemma port_ok_refl p : port_ok p p = true.
Proof. unfold port_ok. rewrite Z.eqb_refl. apply orb_true_r. Qed.

(** One radix tree, for the addresses of its family. *)
Lemma radix_best flat v4 x node ip port :
  masks_wf flat →
  (∀ path, ip_at path node = omap (ip_entry v4 path) flat) →
  (∀ mask y, mask_wf (address_mask mask) → mask_bits_of (address_mask mask) = Some (v4, y) →
     (Z.to_nat (prefix_len (address_mask mask)) ≤ 128)%nat ∧
     (bits_from 0 (Z.to_nat (prefix_len (address_mask mask))) y =
      bits_from 0 (Z.to_nat (prefix_len (address_mask mask))) x ↔
      ip_hit ip (lm_port mask) (Location mask) = true)) →
  (∀ mask, ip_hit ip port (Location mask) = true → ∃ y, mask_bits_of (address_mask mask) = Some (v4, y)) →
  is_best (λ e, ∃ m, (fst e, m, snd e) ∈ flat ∧ ip_hit ip port m = true)
    (ip_query node x port None).
Proof.
  intros Hwf Hat Hpath Hfam. eapply is_best_ext, (ip_query_best _ _ _ _ _ (λ _, False));
    [|by intros ? []]. intros [o out]. split.
  - intros [[]|(k&rp&Hk&Hin&Hp)]. rewrite Hat in Hin.
    apply list_elem_of_omap in Hin as ([[o' m] out']&Hin&He). unfold ip_entry, entry in He. simpl in He.
    destruct m as [mask| | | | |]; try done.
    destruct (mask_bits_of (address_mask mask)) as [[v y]|] eqn:Eb; [|done].
    case_decide as Hd; [|done]. destruct Hd as [-> Hbits]. simplify_eq/=.
    exists (Location mask). split; [done|].
    destruct (Hpath mask y (Hwf _ _ _ Hin) Eb) as [_ Hiff].
    pose proof (f_equal length Hbits) as Hlen. rewrite !length_bits_from in Hlen. rewrite <- Hlen in Hbits.
    apply Hiff in Hbits. unfold ip_hit in *. apply andb_true_iff in Hbits as [_ Hc].
    by apply andb_true_iff.
  - intros (m&Hin&Hhit). right. destruct m as [mask| | | | |]; try done.
    destruct (Hfam mask Hhit) as [y Eb]. destruct (Hpath mask y (Hwf _ _ _ Hin) Eb) as [Hle Hiff].
    exists (Z.to_nat (prefix_len (address_mask mask))), (lm_port mask).
    unfold ip_hit in Hhit. apply andb_true_iff in Hhit as [Hp Hc]. split_and!; [done| |done].
    rewrite Hat. apply list_elem_of_omap. exists (o, Location mask, out). split; [done|].
    unfold ip_entry, entry. simpl. rewrite Eb, decide_True; [done|]. split; [done|].
    apply Hiff. unfold ip_hit. apply andb_true_iff. split; [apply port_ok_refl|done].
Qed.

Lemma holds_ip_best flat inner ip port :
  holds flat inner → masks_wf flat → ip_ok ip →
  is_best (λ e, ∃ m, (fst e, m, snd e) ∈ flat ∧ ip_hit ip port m = true)
    match ip with
    | V4 o => ip_query (ipv4 inner) (v4_bits o) port None
    | V6 o => ip_query (ipv6 inner) (be_decode o) port None
    end.
Proof.
  intros Hh Hwf Hip.
  destruct ip as [o|o]; [apply (radix_best _ true)|apply (radix_best _ false)]; try done; try apply Hh.
  1,3: intros mask y Hm Eb; destruct (mask_path _ _ _ Hm Eb) as [Hle Hiff]; split; [done|];
    specialize (Hiff _ Hip); unfold mask_bits_of in Eb; unfold ip_hit; rewrite port_ok_refl; simpl;
    destruct (am_address (address_mask mask)); simplify_eq/=; by rewrite Z.eqb_eq.
  all: intros mask Hhit; unfold ip_hit, mask_bits_of in *; apply andb_true_iff in Hhit as [_ Hc];
    destruct (am_address (address_mask mask)); try done; eauto.
Qed.

(** C17: the compiled domain index answers like the linear scan.  Whatever the
    rules and the rule sets they expand to, looking a hostname up (suffix trie,
    exact map, keyword and regex lists, smallest order) gives the outbound of
    the first flattened rule whose domain matcher matches it, and none when
    there is none; suffix rules must be ASCII. *)
Theorem domain_lookup_is_first_match gs gi rules flat catch c domain :
  flatten gs gi 0 rules None = Ok (flat, catch) → compile gs gi rules = Ok c → ascii_suffixes flat →
  match_domain regex_is_match c domain = first_match (domain_hit (to_ascii_lowercase domain)) flat.
Proof.
  intros Hf Hc Ha. destruct (compile_holds _ _ _ _ _ _ Hf Hc) as [Ho Hh].
  destruct c as [inner|]; [|by destruct Hh as [-> _]]. destruct Hh as [Hh _].
  unfold match_domain. simpl. rewrite lower_host.
  eapply best_is_first; [exact Ho|]. by eapply holds_domain_best.
Qed.


(** ** Protocols, the catch-all and the choice *)

Definition protocol_hit (p : SniffedProtocol) (m : ConnectMatcher R) : bool :=
  match m with Protocol q => bool_decide (q = p) | _ => false end.

Lemma protocol_best (p : SniffedProtocol) l P b :
  is_best P b →
  is_best (λ e, P e ∨ (e, p) ∈ l)
    (foldl (λ best e, if bool_decide (snd e = p) then improve best (fst e) else best) b l).
Proof.
  revert P b. induction l as [|[e q] l IH]; intros P b Hb; simpl.
  { eapply is_best_ext, Hb. set_solver. }
  eapply (is_best_ext (λ x, (P x ∨ (x = e ∧ q = p)) ∨ (x, p) ∈ l)).
  { intros x. rewrite elem_of_cons. naive_solver. }
  apply IH. case_bool_decide.
  - eapply is_best_ext, improve_best, Hb. naive_solver.
  - eapply is_best_ext, Hb. naive_solver.
Qed.

Lemma protocol_lookup_first gs gi rules flat catch c p :
  flatten gs gi 0 rules None = Ok (flat, catch) → compile gs gi rules = Ok c →
  match_protocol c p = first_match (protocol_hit p) flat.
Proof.
  intros Hf Hc. destruct (compile_holds _ _ _ _ _ _ Hf Hc) as [Ho Hh].
  destruct c as [inner|]; [|by destruct Hh as [-> _]]. destruct Hh as [Hh _].
  unfold match_protocol. simpl. eapply best_is_first; [exact Ho|].
  eapply is_best_ext, (protocol_best _ _ (λ _, False)); [|by intros ? []].
  intros [o out]. rewrite (h_protocols _ _ Hh), list_elem_of_omap. split.
  - intros [[]|([[o' m] out']&Hin&He)]. unfold protocol_entry, entry in He.
    destruct m as [| | | | |q]; simplify_eq/=. exists (Protocol p). split; [done|]. by apply bool_decide_eq_true.
  - intros (m&Hin&Hh'). right. destruct m as [| | | | |q]; try done. apply bool_decide_eq_true in Hh' as ->.
    by exists (o, Protocol p, out).
Qed.

(** The outbound of a [MATCH] rule. *)
Definition match_out (r : ParsedRule R) : option bytes :=
  match external r, matcher r with None, None => Some (outbound r) | _, _ => None end.

Lemma flatten_catch gs gi order rules catch flat catch' :
  flatten gs gi order rules catch = Ok (flat, catch') →
  snd <$> catch' = match last (omap match_out rules) with Some o => Some o | None => snd <$> catch end.
Proof.
  revert order catch flat catch'. induction rules as [|r rules IH]; intros order catch flat catch' E;
    simpl in E; [by simplify_eq|].
  apply outcome_bind_Ok in E as ([here c1]&Hh&E).
  apply outcome_bind_Ok in E as ([rest c2]&Hr&[= <- <-]). rewrite (IH _ _ _ _ Hr). simpl.
  unfold match_out at 2. destruct (external r) as [[code|code]|].
  1,2: apply outcome_bind_Ok in Hh as (ex&_&Hh); apply outcome_bind_Ok in Hh as (h&Hp&[= <- <-]); done.
  destruct (matcher r); simplify_eq; [done|]. rewrite last_cons.
  change (list_omap _ _ match_out rules) with (omap match_out rules).
  by destruct (last (omap match_out rules)).
Qed.

(** Of several catch-all rules the last one is used, not the first: the
    compiler keeps overwriting its entry, against the documented first match
    wins. *)
Theorem catch_all_is_last_match gs gi rules c :
  compile gs gi rules = Ok c → match_catch_all c = last (omap match_out rules).
Proof.
  intros Hc. pose proof Hc as Hc'. unfold compile in Hc'.
  apply outcome_bind_Ok in Hc' as ([flat catch]&Hf&_).
  destruct (compile_holds _ _ _ _ _ _ Hf Hc) as [_ Hh]. apply flatten_catch in Hf. simpl in Hf.
  assert (match_catch_all c = snd <$> catch) as ->.
  { destruct c as [inner|]; [by destruct Hh as [_ <-]|by destruct Hh as [_ ->]]. }
  rewrite Hf. by destruct (last _).
Qed.

(** The choice as a list of lookups in the flattened rules: protocol, domain,
    address, catch-all, default. *)
Definition spec_choice flat (catch default_out : option bytes) (sniffed : option SniffedProtocol)
    (host : option bytes) (ips : list IpAddr) (port : Z) : option bytes :=
  let or (a b : option bytes) := match a with Some x => Some x | None => b end in
  or (sniffed ≫= λ p, first_match (protocol_hit p) flat)
  (or (host ≫= λ h, first_match (domain_hit (to_ascii_lowercase h)) flat)
  (or (find_map (λ ip, first_match (ip_hit ip port) flat) ips)
  (or catch default_out))).

(** The addresses the address rules are tried on. *)
Definition tried_ips (resolve : NetLocation → io_error + list SocketAddr) (target : ResolvedLocation) :
    io_error + list IpAddr :=
  match address (location target) with
  | Ipv4 o => inr [V4 o]
  | Ipv6 o => inr [V6 o]
  | Hostname _ =>
      match resolved_addr target with
      | Some a => inr [sa_ip a]
      | None =>
          match resolve_addresses resolve (location target) with
          | inl e => inl e
          | inr addrs => inr (sa_ip <$> addrs)
          end
      end
  end.

Lemma find_map_fmap {A B C} (f : B → option C) (g : A → B) l :
  find_map f (g <$> l) = find_map (λ x, f (g x)) l.
Proof. induction l as [|x l IH]; [done|]. rewrite fmap_cons. cbn [find_map]. by rewrite IH. Qed.

Lemma find_map_ext {A B} (f g : A → option B) l :
  (∀ x, x ∈ l → f x = g x) → find_map f l = find_map g l.
Proof.
  induction l as [|x l IH]; intros H; simpl; [done|]. rewrite (H x) by set_solver.
  destruct (g x); [done|]. apply IH. set_solver.
Qed.

Lemma no_location_no_ip flat ip port :
  existsb is_location flat = false → first_match (ip_hit ip port) flat = None.
Proof.
  intros H. unfold first_match. destruct (list_find _ flat) as [[i e]|] eqn:E; [|done].
  apply list_find_Some in E as (Hi&Hh&_). apply not_true_iff_false in H. exfalso. apply H.
  apply existsb_exists. exists e. split; [apply list_elem_of_In; by eapply list_elem_of_lookup_2|].
  unfold is_location, ip_hit in *. by destruct (snd (fst e)).
Qed.


End compiled.

(** ** Examples *)

Definition example_rules : list (ParsedRule unit) :=
  [mkParsed 1 [] (Some (DomainSuffix (B "ads.example.com"))) None (B "reject");
   mkParsed 2 [] (Some (DomainSuffix (B "example.com"))) None (B "proxy");
   mkParsed 3 [] (Some (Location (mkLocationMask (mkAddressMask (Ipv4 [10; 0; 0; 0]) (mask_of_keep 104)) 0)))
     None (B "lan");
   mkParsed 4 [] None None (B "a"); mkParsed 5 [] None None (B "b")].
Definition no_sets : bytes → outcome (list (ParsedRule unit)) := λ _, Ok [].
Definition example_flat : list (nat * ConnectMatcher unit * bytes) :=
  [(0%nat, DomainSuffix (B "ads.example.com"), B "reject");
   (1%nat, DomainSuffix (B "example.com"), B "proxy");
   (2%nat, Location (mkLocationMask (mkAddressMask (Ipv4 [10; 0; 0; 0]) (mask_of_keep 104)) 0), B "lan")].
Definition example_index : CompiledRulesInner unit :=
  default (inner_new None)
    match compile no_sets no_sets example_rules with Ok (Some c) => Some c | _ => None end.

Lemma example_compile :
  flatten no_sets no_sets 0 example_rules None = Ok (example_flat, Some (4%nat, B "b")) ∧
  compile no_sets no_sets example_rules = Ok (Some example_index).
Proof. split; reflexivity. Qed.

Lemma example_ascii : ascii_suffixes example_flat.
Proof.
  intros o d out Hin. repeat (apply elem_of_cons in Hin as [Hin|Hin]; [simplify_eq; reflexivity|]).
  by apply elem_of_nil in Hin.
Qed.
Lemma example_masks : masks_wf example_flat.
Proof.
  intros o mask out Hin. repeat (apply elem_of_cons in Hin as [Hin|Hin]; [simplify_eq; try done|]);
    [|by apply elem_of_nil in Hin].
  split; [split; [done|compute_done]|]. exists 104. split_and!; [lia..|done|right; lia].
Qed.

Lemma domain_lookup_is_first_match_witness :
  match_domain (λ _ _, false) (Some example_index) (B "X.Example.com") = Some (B "proxy").
Proof.
  destruct example_compile as [Hf Hc].
  rewrite (domain_lookup_is_first_match (λ _ _, false) _ _ _ _ _ _ (B "X.Example.com") Hf Hc example_ascii).
  vm_compute. reflexivity.
Defined.


Lemma catch_all_is_last_match_witness : match_catch_all (Some example_index) = Some (B "b").
Proof. apply (catch_all_is_last_match no_sets no_sets example_rules). reflexivity. Defined.


(** A suffix rule with a non-ASCII domain is never found: the trie is built
    from characters but walked with the bytes of the hostname, so a rule for
    [e-acute .com] does not match that very hostname, which the linear scan
    matches. *)
Theorem non_ascii_suffix_not_found :
  let d := [195; 169] ++ B ".com" in
  let rules := [mkParsed 1 [] (Some (DomainSuffix d)) None (B "out")] : list (ParsedRule unit) in
  utf8_valid d = true ∧
  match compile no_sets no_sets rules with
  | Ok c => match_domain (λ _ _, false) c d
  | _ => Some []
  end = None ∧
  first_match (R := unit) (domain_hit (λ _ _, false) d) [(0%nat, DomainSuffix d, B "out")] = Some (B "out").
Proof. vm_compute. split_and!; reflexivity. Qed.
