(* ===== verification/SaltChecker.v ===== *)
(** * Replay protection ([src/shadowsocks/timed_salt_checker.rs])

    The set of recently seen salts, kept as keyed hashes in 16 shards, each a
    hash set plus an expiry queue.  The keyed hash ([RandomState::hash_one]) is
    a parameter; an [Instant] is a number of nanoseconds.  The specification is
    the checker one would write without a memory concern: remember every
    accepted salt with its time, and accept a salt iff no remembered one with
    the same hash is within the window and the shard holds fewer than 8192
    salts of the window.  The implementation is shown to make the same
    decisions on every trace. *)
From S2P Require Import Prelude.
Local Open Scope Z_scope.

Module Salt.

Definition SHARD_COUNT : nat := 16.
Definition MAX_ENTRIES_PER_SHARD : nat := Z.to_nat 8192.

Record Shard := mkShard { seen : gset Z; order : list (Z * Z) }.
Definition Shard_default : Shard := mkShard ∅ [].

Record TimedSaltChecker := mkChecker { shards : list Shard; timeout : Z }.

Definition new (timeout_secs : Z) : TimedSaltChecker :=
  mkChecker (replicate SHARD_COUNT Shard_default) (timeout_secs * 10 ^ 9).

Definition shard_index (digest : Z) : nat := Z.to_nat (Z.land digest 15).

(** [Instant::duration_since], which saturates at zero. *)
Definition duration_since (now earlier : Z) : Z := Z.max 0 (now - earlier).

(** The [while let Some(..) = shard.order.front()] loop. *)
Fixpoint expire (timeout now : Z) (seen : gset Z) (order : list (Z * Z)) : Shard :=
  match order with
  | (seen_at, key) :: rest =>
      if duration_since now seen_at <? timeout then mkShard seen order
      else expire timeout now (seen ∖ {[key]}) rest
  | [] => mkShard seen []
  end.

Definition check_shard (timeout now digest : Z) (s : Shard) : bool * Shard :=
  let s := expire timeout now (seen s) (order s) in
  if bool_decide (digest ∈ seen s) then (false, s)
  else if (MAX_ENTRIES_PER_SHARD <=? size (seen s))%nat then (false, s)
  else (true, mkShard ({[digest]} ∪ seen s) (order s ++ [(now, digest)])).

Definition insert_and_check (hash_one : bytes → Z) (c : TimedSaltChecker) (now : Z)
    (salt : bytes) : bool * TimedSaltChecker :=
  let digest := hash_one salt in
  let i := shard_index digest in
  let s := default Shard_default (shards c !! i) in
  let '(ok, s) := check_shard (timeout c) now digest s in
  (ok, mkChecker (<[i := s]> (shards c)) (timeout c)).

(** ** The specification: a log of everything accepted *)

Definition within (timeout now : Z) (e : Z * Z) : bool := duration_since now (fst e) <? timeout.

(** The accepted salts of shard [i] that are still in the window. *)
Definition live (timeout now : Z) (i : nat) (log : list (Z * Z)) : list (Z * Z) :=
  filter (λ e, within timeout now e = true ∧ shard_index (snd e) = i) log.

Definition spec_check (hash_one : bytes → Z) (timeout : Z) (log : list (Z * Z)) (now : Z)
    (salt : bytes) : bool * list (Z * Z) :=
  let digest := hash_one salt in
  let l := live timeout now (shard_index digest) log in
  if negb (bool_decide (digest ∈ l.*2)) && (length l <? MAX_ENTRIES_PER_SHARD)%nat
  then (true, log ++ [(now, digest)])
  else (false, log).

(** Runs: the decisions on a list of (time, salt) checks. *)
Fixpoint run (hash_one : bytes → Z) (c : TimedSaltChecker) (l : list (Z * bytes)) : list bool :=
  match l with
  | [] => []
  | (now, salt) :: l =>
      let '(ok, c) := insert_and_check hash_one c now salt in ok :: run hash_one c l
  end.
Fixpoint spec_run (hash_one : bytes → Z) (timeout : Z) (log : list (Z * Z))
    (l : list (Z * bytes)) : list bool :=
  match l with
  | [] => []
  | (now, salt) :: l =>
      let '(ok, log) := spec_check hash_one timeout log now salt in
      ok :: spec_run hash_one timeout log l
  end.

(** ** Lemmas *)

Lemma salt_shard_lt d : (shard_index d < SHARD_COUNT)%nat.
Proof.
  unfold shard_index, SHARD_COUNT. change 15 with (Z.ones 4).
  rewrite Z.land_ones by lia. pose proof (Z.mod_pos_bound d (2 ^ 4)). lia.
Qed.

Definition times_le (l : list (Z * Z)) : Prop := StronglySorted Z.le (l.*1).

(** A shard that has the right content: the queue is in time order without
    repeated keys, and the set holds the keys of the queue. *)
Record shard_ok (s : Shard) : Prop := {
  ok_seen : seen s = list_to_set ((order s).*2);
  ok_nodup : NoDup ((order s).*2);
  ok_sorted : times_le (order s);
}.

Lemma within_mono timeout now a b :
  a ≤ b → duration_since now a <? timeout = true → duration_since now b <? timeout = true.
Proof. unfold duration_since. rewrite !Z.ltb_lt. lia. Qed.

(** Expiring from the front removes exactly what is out of the window. *)
Lemma expire_spec timeout now s :
  shard_ok s →
  let s' := expire timeout now (seen s) (order s) in
  shard_ok s' ∧ order s' = filter (λ e, within timeout now e = true) (order s).
Proof.
  destruct s as [sn od]. intros [Hs Hn Ht]. simpl in *. subst sn.
  induction od as [|[a k] od IH]; [split; [by split|done]|].
  cbn [fmap list_fmap expire] in *. apply NoDup_cons in Hn as [Hk Hn].
  inversion Ht as [|?? Ht' Ha]; subst. simpl in *.
  destruct (duration_since now a <? timeout) eqn:E.
  - split; [split; [done|by apply NoDup_cons|done]|]. simpl. symmetry. apply filter_all.
    apply Forall_cons. split; [done|]. apply Forall_forall. intros [b k'] Hb.
    apply (within_mono timeout now a); [|done].
    rewrite Forall_forall in Ha. apply (Ha b). apply list_elem_of_fmap. by exists (b, k').
  - replace (({[k]} ∪ list_to_set od.*2) ∖ {[k]} : gset Z) with (list_to_set od.*2 : gset Z)
      by (apply leibniz_equiv; intros x;
          rewrite elem_of_difference, elem_of_union, !elem_of_singleton, !elem_of_list_to_set;
          naive_solver).
    destruct (IH Hn Ht') as [H1 H2]. split; [done|]. rewrite H2, filter_cons.
    rewrite decide_False; [done|]. unfold within. simpl. congruence.
Qed.

Lemma times_le_snoc l now d :
  times_le l → Forall (λ e, fst e ≤ now) l → times_le (l ++ [(now, d)]).
Proof.
  unfold times_le. intros Ht Hb. rewrite fmap_app. apply StronglySorted_app. split_and!.
  - intros a b (e&->&He)%list_elem_of_fmap Hb'. simpl in Hb'.
    apply list_elem_of_singleton in Hb' as ->. rewrite Forall_forall in Hb. by apply Hb.
  - done.
  - repeat constructor.
Qed.

(** The checker and the log agree at time [T]: each queue is what is left of
    its shard's part of the log once entries expired by [T] are dropped. *)
Record agrees (c : TimedSaltChecker) (log : list (Z * Z)) (T : Z) : Prop := {
  ag_length : length (shards c) = SHARD_COUNT;
  ag_times : times_le log ∧ Forall (λ e, fst e ≤ T) log;
  ag_shards i s : shards c !! i = Some s →
    shard_ok s ∧ ∃ dead, filter (λ e, shard_index (snd e) = i) log = dead ++ order s ∧
                         Forall (λ e, within (timeout c) T e = false) dead;
}.

Lemma live_app timeout now i log :
  live timeout now i log =
  filter (λ e, within timeout now e = true) (filter (λ e, shard_index (snd e) = i) log).
Proof. unfold live. by rewrite list_filter_filter. Qed.

Lemma within_expired timeout T now e :
  T ≤ now → within timeout T e = false → within timeout now e = false.
Proof. unfold within, duration_since. rewrite !Z.ltb_ge. lia. Qed.

(** After expiry the queue is the live part of the log. *)
Lemma expired_shard_live c log T now i s :
  agrees c log T → T ≤ now → shards c !! i = Some s →
  let s' := expire (timeout c) now (seen s) (order s) in
  shard_ok s' ∧ order s' = live (timeout c) now i log ∧
  ∃ dead, filter (λ e, shard_index (snd e) = i) log = dead ++ order s' ∧
          Forall (λ e, within (timeout c) now e = false) dead.
Proof.
  intros Hag Hle Hs s'. destruct (ag_shards _ _ _ Hag _ _ Hs) as (Hok&dead&Hd&Hdead).
  destruct (expire_spec (timeout c) now s Hok) as [Hok' Ho]. fold s' in Hok', Ho.
  assert (Forall (λ e, within (timeout c) now e = false) dead) as Hdead'.
  { eapply Forall_impl; [exact Hdead|]. intros e. by apply within_expired. }
  assert (order s' = live (timeout c) now i log) as Hl.
  { rewrite live_app, Hd, filter_app, Ho. rewrite (filter_none _ dead); [done|].
    eapply Forall_impl; [exact Hdead'|]. intros e He. simpl. congruence. }
  split_and!; [done|done|]. rewrite Hd, Ho. clear -Hdead' Hok.
  exists (dead ++ filter (λ e, within (timeout c) now e = false) (order s)).
  destruct Hok as [_ _ Ht]. split.
  - rewrite <- (assoc_L (++)). f_equal. induction (order s) as [|e l IH]; [done|].
    inversion Ht as [|?? Ht' Ha]; subst. rewrite !filter_cons.
    destruct (within (timeout c) now e) eqn:E.
    + rewrite decide_False, decide_True by congruence.
      assert (Forall (λ e, within (timeout c) now e = true) l) as Hall.
      { apply Forall_forall. intros e' He'. apply (within_mono _ _ (fst e)); [|done].
        rewrite Forall_forall in Ha. apply Ha. by apply list_elem_of_fmap_2. }
      rewrite (filter_all _ l Hall), (filter_none _ l); [done|].
      eapply Forall_impl; [exact Hall|]. simpl. congruence.
    + rewrite decide_True, decide_False by congruence. simpl. f_equal. by apply IH.
  - apply Forall_app. split; [done|]. apply Forall_forall.
    intros e [He _]%list_elem_of_filter. done.
Qed.

Lemma size_list_to_set (l : list Z) : NoDup l → size (list_to_set l : gset Z) = length l.
Proof.
  induction 1 as [|x l Hx _ IH]; [done|]. simpl.
  rewrite size_union by (rewrite <- (elem_of_list_to_set (C := gset Z)) in Hx; set_solver).
  by rewrite size_singleton, IH.
Qed.

Lemma check_agrees hash_one c log T now salt :
  agrees c log T → T ≤ now →
  let '(ok, c') := insert_and_check hash_one c now salt in
  let '(ok', log') := spec_check hash_one (timeout c) log now salt in
  ok = ok' ∧ timeout c' = timeout c ∧ agrees c' log' now.
Proof.
  intros Hag Hle. unfold insert_and_check, spec_check.
  set (d := hash_one salt). set (i := shard_index d).
  destruct (lookup_lt_is_Some_2 (shards c) i) as [s Hs].
  { rewrite (ag_length _ _ _ Hag). apply salt_shard_lt. }
  rewrite Hs. simpl default. unfold check_shard.
  destruct (expired_shard_live c log T now i s Hag Hle Hs) as (Hok&Ho&Hdead).
  set (s' := expire (timeout c) now (seen s) (order s)) in *. rewrite <- Ho.
  assert (d ∈ seen s' ↔ d ∈ (order s').*2) as Hmem.
  { rewrite (ok_seen _ Hok). apply elem_of_list_to_set. }
  assert (size (seen s') = length (order s')) as Hsize.
  { rewrite (ok_seen _ Hok), size_list_to_set, length_fmap; [done|apply Hok]. }
  assert (∀ s'' log', shard_ok s'' → times_le log' → Forall (λ e, fst e ≤ now) log' →
    (∃ dead, filter (λ e, shard_index (snd e) = i) log' = dead ++ order s'' ∧
             Forall (λ e, within (timeout c) now e = false) dead) →
    (∀ j, j ≠ i → filter (λ e, shard_index (snd e) = j) log' =
                  filter (λ e, shard_index (snd e) = j) log) →
    agrees (mkChecker (<[i := s'']> (shards c)) (timeout c)) log' now) as Hstep.
  { intros s'' log' Hok'' Ht Hb Hd Hj. constructor; simpl.
    - rewrite length_insert. apply Hag.
    - done.
    - intros j x Hx. destruct (decide (j = i)) as [->|Hji].
      + rewrite list_lookup_insert_eq in Hx by (eapply lookup_lt_Some; exact Hs).
        injection Hx as <-. done.
      + rewrite list_lookup_insert_ne in Hx by done.
        destruct (ag_shards _ _ _ Hag _ _ Hx) as (?&dead&Hdj&Hdd). split; [done|].
        exists dead. rewrite Hj by done. split; [done|].
        eapply Forall_impl; [exact Hdd|]. intros e. by apply within_expired. }
  destruct (ag_times _ _ _ Hag) as [Ht Hb].
  assert (Forall (λ e, fst e ≤ now) log) as Hb'.
  { eapply Forall_impl; [exact Hb|]. simpl. lia. }
  rewrite (bool_decide_ext _ _ Hmem), Hsize.
  case_bool_decide as Hd; cbn [negb andb]; [split_and!; [done..|by apply Hstep]|].
  destruct (decide (length (order s') < MAX_ENTRIES_PER_SHARD)%nat) as [El|El].
  2:{ rewrite (proj2 (Nat.ltb_ge _ _)), (proj2 (Nat.leb_le _ _)) by lia.
      split_and!; [done..|by apply Hstep]. }
  rewrite (proj2 (Nat.ltb_lt _ _)), (proj2 (Nat.leb_gt _ _)) by lia.
  split_and!; [done..|]. apply Hstep.
  - destruct Hok as [Hk1 Hk2 Hk3]. constructor; simpl; rewrite ?fmap_app; simpl.
    + rewrite list_to_set_app_L, <- Hk1. set_solver.
    + apply NoDup_app. split_and!; [done| |apply NoDup_singleton]. set_solver.
    + apply times_le_snoc; [done|]. rewrite Ho. apply Forall_forall.
      intros e [_ He]%list_elem_of_filter. rewrite Forall_forall in Hb'. by apply Hb'.
  - by apply times_le_snoc.
  - apply Forall_app. split; [done|]. by apply Forall_singleton.
  - destruct Hdead as (dead&Hd1&Hd2). exists dead. split; [|done].
    rewrite filter_app, Hd1, <- (assoc_L (++)). f_equal. simpl. f_equal.
    by rewrite filter_cons, decide_True.
  - intros j Hj. rewrite filter_app, (filter_none _ [_]), app_nil_r; [done|].
    apply Forall_singleton. simpl. by intros <-.
Qed.

Lemma new_agrees timeout_secs T : agrees (new timeout_secs) [] T.
Proof.
  constructor; [done|split; [constructor|done]|].
  intros i s (->&_)%lookup_replicate. split; [split; [done|constructor|constructor]|].
  by exists [].
Qed.

Lemma run_agrees hash_one c log T l :
  agrees c log T → Forall (λ e, T ≤ fst e) l → StronglySorted Z.le (l.*1) →
  run hash_one c l = spec_run hash_one (timeout c) log l.
Proof.
  revert c log T. induction l as [|[now salt] l IH]; intros c log T Hag HT Hs; [done|].
  inversion Hs as [|?? Hs' Hn]; subst. inversion HT as [|?? HT0 HT']; subst. simpl in *.
  pose proof (check_agrees hash_one c log T now salt Hag HT0) as Hc.
  destruct (insert_and_check hash_one c now salt) as [ok c'].
  destruct (spec_check hash_one (timeout c) log now salt) as [ok' log'].
  destruct Hc as (->&<-&Hag'). f_equal. apply (IH c' log' now); [done| |done].
  by rewrite Forall_fmap in Hn.
Qed.

(** The sharded checker with its expiry queues makes the decisions of the
    plain log on every trace of checks in time order, for every hash: a salt
    whose hash was accepted within the window is always refused (no unexpired
    entry is ever evicted), one that was not is accepted while its shard has
    fewer than 8192 salts in the window, and a full shard refuses. *)
Theorem checker_refines_log hash_one timeout_secs l :
  StronglySorted Z.le (l.*1) →
  run hash_one (new timeout_secs) l = spec_run hash_one (timeout_secs * 10 ^ 9) [] l.
Proof.
  intros Hs. destruct l as [|[t0 salt] l']; [done|].
  apply (run_agrees _ (new timeout_secs) [] t0); [apply new_agrees| |done].
  inversion Hs as [|?? _ Hn]; subst. constructor; [done|]. by rewrite Forall_fmap in Hn.
Qed.

Lemma checker_refines_log_witness :
  let hash_one (b : bytes) := fold_right Z.add 0 b in
  let l := [(0, [1]); (5, [1]); (10 * 10 ^ 9, [2]); (59 * 10 ^ 9, [1]); (60 * 10 ^ 9, [1])] in
  run hash_one (new 60) l = spec_run hash_one (60 * 10 ^ 9) [] l ∧
  run hash_one (new 60) l = [true; false; true; false; true].
Proof.
  intros hash_one l. split; [|vm_compute; reflexivity].
  apply checker_refines_log. repeat (constructor || (simpl; lia)).
Defined.

End Salt.
