(* ===== verification/Vision.v ===== *)
(** * XTLS-Vision padding ([src/vless/vision_pad.rs], [src/vless/vision_unpad.rs])

    The padder wraps content in blocks (user id before the first one, then a
    command byte, two 16-bit lengths, the content, random padding); the
    unpadder takes the blocks apart again from input that arrives in pieces.

    [Unpad] models the unpadder's state machine with its loop and its content
    buffer.  [Spec] is what it implements: an automaton that reads one byte at
    a time and says which bytes are content.  The refinement between the two
    gives that the pieces the input arrives in do not matter, and that the
    unpadder gives back what was padded.

    The random number generator is a parameter of the padder: [random_part]
    is what [random_range] returns and [fill] the random bytes.  Format
    arguments of error messages are left out. *)
From S2P Require Import Prelude.
Local Open Scope Z_scope.

Module Vision.

Inductive UnpadCommand := Continue | EndCmd | Direct.
#[global] Instance UnpadCommand_eq_dec : EqDecision UnpadCommand.
Proof. solve_decision. Defined.

Definition try_from (value : Z) : outcome UnpadCommand :=
  match value with
  | 0 => Ok Continue
  | 1 => Ok EndCmd
  | 2 => Ok Direct
  | _ => err InvalidData "Invalid padding command"
  end.

Definition command_byte (c : UnpadCommand) : Z :=
  match c with Continue => 0 | EndCmd => 1 | Direct => 2 end.

Record UnpadResult := mkResult { content : bytes; command : option UnpadCommand }.
Definition Result_default : UnpadResult := mkResult [] None.

Inductive UnpadState :=
  | Initial (expected_uuid : bytes)
  | ReadingCommand
  | ReadingContentLength (command : UnpadCommand) (first_byte : option Z)
  | ReadingPaddingLength (command : UnpadCommand) (content_len : Z) (first_byte : option Z)
  | ReadingContent (command : UnpadCommand) (partial_content : bytes)
      (remaining_content_len padding_len : Z)
  | ReadingPadding (command : UnpadCommand) (content : bytes) (remaining_padding_len : Z)
  | Done.

Record VisionUnpadder := mkUnpadder {
  state : UnpadState;
  first_block : bool;
  accumulated_buffer : bytes;
}.

Definition new (expected_uuid : bytes) : VisionUnpadder :=
  mkUnpadder (Initial expected_uuid) true [].

(** [((high as u16) << 8) | (low as u16)] *)
Definition u16_of (high low : Z) : Z := Z.lor (Z.shiftl high 8) low.

Section unpad.
Context (debug : bool).

(** Out of data while a header is being read: what is accumulated goes out once
    a block was completed; before that there must be nothing to give. *)
Definition out_of_header (u : VisionUnpadder) : outcome UnpadResult * VisionUnpadder :=
  if negb (first_block u)
  then (Ok (mkResult (accumulated_buffer u) (Some Continue)),
        mkUnpadder (state u) (first_block u) [])
  else if debug && negb (bool_decide (accumulated_buffer u = [])) then (Panic, u)
  else (Ok Result_default, u).

(** Out of data inside a block: everything read so far goes out, the command
    does not. *)
Definition out_of_block (u : VisionUnpadder) (st : UnpadState) (partial : bytes) :
    outcome UnpadResult * VisionUnpadder :=
  let acc := accumulated_buffer u ++ partial in
  (Ok (mkResult acc (if negb (first_block u) then Some Continue else None)),
   mkUnpadder st (first_block u) []).

(** The arm of [ReadingContent]: take what there is of the block's content. *)
Definition read_content_step (u : VisionUnpadder) (command : UnpadCommand) (partial : bytes)
    (remaining padding_len : Z) (data : bytes) :
    (outcome UnpadResult * VisionUnpadder) + (VisionUnpadder * bytes) :=
  let set st := mkUnpadder st (first_block u) (accumulated_buffer u) in
  if (0 <? remaining) && bool_decide (data = [])
  then inl (out_of_block u (ReadingContent command [] remaining padding_len) partial)
  else
    let to_read := if 0 <? remaining then Nat.min (Z.to_nat remaining) (length data) else 0%nat in
    let partial := partial ++ take to_read data in
    let data := drop to_read data in
    let remaining := remaining - Z.of_nat to_read in
    if remaining =? 0
    then inr (set (ReadingPadding command partial padding_len), data)
    else inr (set (ReadingContent command partial remaining padding_len), data).

(** The arm of [ReadingPadding]: skip what there is of the padding, and act on
    the command when the block is over. *)
Definition read_padding_step (u : VisionUnpadder) (command : UnpadCommand) (block : bytes)
    (remaining : Z) (data : bytes) :
    (outcome UnpadResult * VisionUnpadder) + (VisionUnpadder * bytes) :=
  if (0 <? remaining) && bool_decide (data = [])
  then inl (out_of_block u (ReadingPadding command [] remaining) block)
  else
    let to_skip := if 0 <? remaining then Nat.min (Z.to_nat remaining) (length data) else 0%nat in
    let data := drop to_skip data in
    let remaining := remaining - Z.of_nat to_skip in
    if remaining =? 0
    then
      let acc := accumulated_buffer u ++ block in
      match command with
      | Continue => inr (mkUnpadder ReadingCommand false acc, data)
      | _ => inl (Ok (mkResult (acc ++ data) (Some command)), mkUnpadder Done false [])
      end
    else inr (mkUnpadder (ReadingPadding command block remaining) (first_block u)
                (accumulated_buffer u), data).

(** One turn of the loop: return, or go on with the rest of the data. *)
Definition iter (u : VisionUnpadder) (data : bytes) :
    (outcome UnpadResult * VisionUnpadder) + (VisionUnpadder * bytes) :=
  let set st := mkUnpadder st (first_block u) (accumulated_buffer u) in
  match state u with
  | Initial expected_uuid =>
      if (length data <? 16)%nat then inl (Ok Result_default, u)
      else if negb (bool_decide (take 16 data = expected_uuid))
      then inl (Ok (mkResult data None), u)
      else inr (set ReadingCommand, drop 16 data)
  | ReadingCommand =>
      match data with
      | [] => inl (out_of_header u)
      | b :: data =>
          match try_from b with
          | Ok command => inr (set (ReadingContentLength command None), data)
          | Err e => inl (Err e, u)
          | Panic => inl (Panic, u)
          end
      end
  | ReadingContentLength command first_byte =>
      match data with
      | [] => inl (out_of_header u)
      | b :: data =>
          match first_byte with
          | None => inr (set (ReadingContentLength command (Some b)), data)
          | Some high => inr (set (ReadingPaddingLength command (u16_of high b) None), data)
          end
      end
  | ReadingPaddingLength command content_len first_byte =>
      match data with
      | [] => inl (out_of_header u)
      | b :: data =>
          match first_byte with
          | None => inr (set (ReadingPaddingLength command content_len (Some b)), data)
          | Some high => inr (set (ReadingContent command [] content_len (u16_of high b)), data)
          end
      end
  | ReadingContent command partial remaining padding_len =>
      read_content_step u command partial remaining padding_len data
  | ReadingPadding command block remaining => read_padding_step u command block remaining data
  | Done => inl (err InvalidData "Already in UnpadState::Done", u)
  end.

Fixpoint unpad_loop (fuel : nat) (u : VisionUnpadder) (data : bytes) :
    outcome UnpadResult * VisionUnpadder :=
  match fuel with
  | O => (Panic, u)
  | S fuel =>
      match iter u data with
      | inl r => r
      | inr (u, data) => unpad_loop fuel u data
      end
  end.

(** Every turn consumes a byte or moves on within a block, so the loop stops
    within this many turns ([unpad_loop_refines]). *)
Definition unpad_fuel (data : bytes) : nat := 3 * length data + 4.

Definition unpad (u : VisionUnpadder) (data : bytes) : outcome UnpadResult * VisionUnpadder :=
  unpad_loop (unpad_fuel data) (mkUnpadder (state u) (first_block u) []) data.

(** A caller that feeds the pieces it reads, up to the first error or final
    command: the content it got and the unpadder. *)
Fixpoint feed (u : VisionUnpadder) (chunks : list bytes) :
    outcome (bytes * option UnpadCommand * list bytes) * VisionUnpadder :=
  match chunks with
  | [] => (Ok ([], None, []), u)
  | c :: chunks =>
      match unpad u c with
      | (Ok (mkResult out (Some Continue)), u) | (Ok (mkResult out None), u) =>
          let '(r, u) := feed u chunks in
          ('(out', cmd, rest) ← r; Ok (out ++ out', cmd, rest), u)
      | (Ok (mkResult out cmd), u) => (Ok (out, cmd, chunks), u)
      | (Err e, u) => (Err e, u)
      | (Panic, u) => (Panic, u)
      end
  end.
End unpad.

(** ** The padder *)

Definition LONG_PADDING_MIN : nat := 900.
Definition LONG_PADDING_RANDOM_MAX : nat := 500.
Definition SHORT_PADDING_RANDOM_MAX : nat := 256.
Definition MAX_PADDING_SIZE : nat := Z.to_nat 8171.

Definition calculate_padding_length (random_range : nat → nat) (content_len : nat) (is_tls : bool) :
    nat :=
  let max_allowable := (MAX_PADDING_SIZE - content_len)%nat in
  if is_tls && (content_len <? LONG_PADDING_MIN)%nat
  then Nat.min (LONG_PADDING_MIN - content_len + random_range LONG_PADDING_RANDOM_MAX) max_allowable
  else Nat.min (random_range SHORT_PADDING_RANDOM_MAX) max_allowable.

Definition pad (random_range : nat → nat) (fill : nat → bytes) (data : bytes)
    (uuid : option bytes) (command : Z) (is_tls : bool) : bytes :=
  let content_len := wrap 16 (Z.of_nat (length data)) in
  let padding_len := calculate_padding_length random_range (Z.to_nat content_len) is_tls in
  default [] uuid ++ [command] ++ be_encode 2 content_len ++
  be_encode 2 (wrap 16 (Z.of_nat padding_len)) ++ data ++
  (if (0 <? padding_len)%nat then fill padding_len else []).

Definition pad_with_uuid_and_command random_range fill (data uuid : bytes) (command : Z)
    (is_tls : bool) : bytes := pad random_range fill data (Some uuid) command is_tls.
Definition pad_with_command random_range fill (data : bytes) (command : Z) (is_tls : bool) : bytes :=
  pad random_range fill data None command is_tls.

(** ** The specification: one byte at a time *)

Inductive astate :=
  | ACommand
  | AContentLen (c : UnpadCommand) (high : option Z)
  | APaddingLen (c : UnpadCommand) (content_len : Z) (high : option Z)
  | AContent (c : UnpadCommand) (remaining padding_len : Z)
  | APadding (c : UnpadCommand) (remaining : Z)
  | ADone (c : UnpadCommand).

(** Move on past parts of length zero; the flag is whether no block was
    completed yet. *)
Definition settle_padding (c : UnpadCommand) (remaining : Z) (first : bool) : astate * bool :=
  if remaining =? 0
  then (match c with Continue => ACommand | _ => ADone c end, false)
  else (APadding c remaining, first).
Definition settle_content (c : UnpadCommand) (remaining padding_len : Z) (first : bool) :
    astate * bool :=
  if remaining =? 0 then settle_padding c padding_len first
  else (AContent c remaining padding_len, first).

Definition byte_step (s : astate * bool) (b : Z) : outcome (astate * bool * bytes) :=
  let '(st, first) := s in
  match st with
  | ACommand => c ← try_from b; Ok (AContentLen c None, first, [])
  | AContentLen c None => Ok (AContentLen c (Some b), first, [])
  | AContentLen c (Some high) => Ok (APaddingLen c (u16_of high b) None, first, [])
  | APaddingLen c n None => Ok (APaddingLen c n (Some b), first, [])
  | APaddingLen c n (Some high) => Ok (settle_content c n (u16_of high b) first, [])
  | AContent c n p => Ok (settle_content c (n - 1) p first, [b])
  | APadding c n => Ok (settle_padding c (n - 1) first, [])
  | ADone c => Ok (s, [b])
  end.

(** The content of a stream, and the state after it; what follows the final
    block is passed on as it is. *)
Fixpoint read_stream (s : astate * bool) (data : bytes) : outcome (astate * bool * bytes) :=
  match data with
  | [] => Ok (s, [])
  | b :: data =>
      '(s, out) ← byte_step s b; '(s, out') ← read_stream s data; Ok (s, out ++ out')
  end.

(** ** The unpadder implements the specification *)

(** An unpadder between two calls. *)
Definition resting (s : astate * bool) : VisionUnpadder :=
  mkUnpadder
    match fst s with
    | ACommand => ReadingCommand
    | AContentLen c h => ReadingContentLength c h
    | APaddingLen c n h => ReadingPaddingLength c n h
    | AContent c n p => ReadingContent c [] n p
    | APadding c n => ReadingPadding c [] n
    | ADone _ => Done
    end (snd s) [].

(** The automaton's state of an unpadder inside a call, and the content of the
    current block it has read. *)
Definition abs (u : VisionUnpadder) : astate * bool :=
  match state u with
  | Initial _ | ReadingCommand | Done => (ACommand, first_block u)
  | ReadingContentLength c h => (AContentLen c h, first_block u)
  | ReadingPaddingLength c n h => (APaddingLen c n h, first_block u)
  | ReadingContent c _ n p => settle_content c n p (first_block u)
  | ReadingPadding c _ n => settle_padding c n (first_block u)
  end.
Definition partial_of (st : UnpadState) : bytes :=
  match st with
  | ReadingContent _ p _ _ => p
  | ReadingPadding _ p _ => p
  | _ => []
  end.
Definition rank (st : UnpadState) : nat :=
  match st with ReadingContent _ _ _ _ => 2 | ReadingPadding _ _ _ => 1 | _ => 0 end.
Definition command_of (s : astate * bool) : option UnpadCommand :=
  match s with
  | (ADone c, _) => Some c
  | (_, first) => if first then None else Some Continue
  end.

(** What holds inside a call: lengths are not negative, and nothing is
    accumulated while the first header is being read. *)
Definition running (u : VisionUnpadder) : Prop :=
  match state u with
  | Initial _ | Done => False
  | ReadingCommand => first_block u = true → accumulated_buffer u = []
  | ReadingContentLength _ h =>
      (first_block u = true → accumulated_buffer u = []) ∧ from_option (λ b, 0 ≤ b) True h
  | ReadingPaddingLength _ n h =>
      (first_block u = true → accumulated_buffer u = []) ∧ 0 ≤ n ∧
      from_option (λ b, 0 ≤ b) True h
  | ReadingContent _ _ n p => 0 ≤ n ∧ 0 ≤ p
  | ReadingPadding _ _ n => 0 ≤ n
  end.

Lemma u16_of_nonneg h l : 0 ≤ h → 0 ≤ l → 0 ≤ u16_of h l.
Proof. intros. apply Z.lor_nonneg. split; [by apply Z.shiftl_nonneg|done]. Qed.

Lemma settle_content_pos c n p first : 0 < n → settle_content c n p first = (AContent c n p, first).
Proof. intros. unfold settle_content. destruct (n =? 0) eqn:E; [to_prop; lia|done]. Qed.
Lemma settle_padding_pos c n first : 0 < n → settle_padding c n first = (APadding c n, first).
Proof. intros. unfold settle_padding. destruct (n =? 0) eqn:E; [to_prop; lia|done]. Qed.

Lemma bind_bind {A B C} (m : outcome A) (f : A → outcome B) (g : B → outcome C) :
  (m ≫= f) ≫= g = m ≫= (λ a, f a ≫= g).
Proof. by destruct m. Qed.

(** Reading a run of content bytes at once. *)
Lemma read_stream_content c n p first data :
  0 < n →
  let k := Nat.min (Z.to_nat n) (length data) in
  read_stream (AContent c n p, first) data =
    '(s, out) ← read_stream (settle_content c (n - Z.of_nat k) p first) (drop k data);
    Ok (s, take k data ++ out).
Proof.
  revert n. induction data as [|b data IH]; intros n Hn k.
  { unfold k. rewrite Nat.min_0_r. simpl. by rewrite Z.sub_0_r, settle_content_pos. }
  destruct (decide (n = 1)) as [->|Hne].
  - change k with 1%nat. simpl. rewrite ?drop_0, ?take_0.
    by destruct (read_stream _ data) as [[s out]| |].
  - assert (k = S (Nat.min (Z.to_nat (n - 1)) (length data))) as -> by (unfold k; simpl; lia).
    cbn [read_stream byte_step]. rewrite settle_content_pos by lia.
    cbn [mbind outcome_bind]. rewrite IH by lia.
    replace (n - 1 - Z.of_nat (Nat.min (Z.to_nat (n - 1)) (length data)))
      with (n - Z.of_nat (S (Nat.min (Z.to_nat (n - 1)) (length data)))) by lia.
    cbn [drop take]. by destruct (read_stream _ (drop _ data)) as [[s out]| |].
Qed.

(** Skipping a run of padding bytes at once. *)
Lemma read_stream_padding c n first data :
  0 < n →
  let k := Nat.min (Z.to_nat n) (length data) in
  read_stream (APadding c n, first) data =
    read_stream (settle_padding c (n - Z.of_nat k) first) (drop k data).
Proof.
  revert n. induction data as [|b data IH]; intros n Hn k.
  { unfold k. rewrite Nat.min_0_r. simpl. by rewrite Z.sub_0_r, settle_padding_pos. }
  destruct (decide (n = 1)) as [->|Hne].
  - change k with 1%nat. simpl. rewrite ?drop_0.
    by destruct (read_stream _ data) as [[s out]| |].
  - assert (k = S (Nat.min (Z.to_nat (n - 1)) (length data))) as -> by (unfold k; simpl; lia).
    cbn [read_stream byte_step]. rewrite settle_padding_pos by lia.
    cbn [mbind outcome_bind]. rewrite IH by lia.
    replace (n - 1 - Z.of_nat (Nat.min (Z.to_nat (n - 1)) (length data)))
      with (n - Z.of_nat (S (Nat.min (Z.to_nat (n - 1)) (length data)))) by lia.
    cbn [drop]. by destruct (read_stream _ (drop _ data)) as [[s out]| |].
Qed.

Lemma read_stream_done c first data : read_stream (ADone c, first) data = Ok (ADone c, first, data).
Proof. induction data as [|b data IH]; [done|]. cbn [read_stream byte_step mbind outcome_bind].
  by rewrite IH. Qed.

(** What the loop returns, given what the specification says. *)
Definition loop_result (u : VisionUnpadder) (r : outcome (astate * bool * bytes))
    (got : outcome UnpadResult * VisionUnpadder) : Prop :=
  match r with
  | Ok (s, out) =>
      got = (Ok (mkResult (accumulated_buffer u ++ partial_of (state u) ++ out) (command_of s)),
             resting s)
  | Err e => fst got = Err e
  | Panic => False
  end.

Lemma loop_result_step u u' r out1 got :
  accumulated_buffer u' ++ partial_of (state u') = accumulated_buffer u ++ partial_of (state u) ++ out1 →
  loop_result u' r got →
  loop_result u ('(s, out) ← r; Ok (s, out1 ++ out)) got.
Proof.
  intros Ha. destruct r as [[s out]| |]; simpl; [|done..]. intros ->.
  by rewrite !(assoc_L (++)), Ha, !(assoc_L (++)).
Qed.

Lemma out_of_header_spec debug u st :
  (first_block u = true → accumulated_buffer u = []) →
  partial_of (state u) = [] → resting (st, first_block u) = mkUnpadder (state u) (first_block u) [] →
  (∀ c, st ≠ ADone c) →
  loop_result u (Ok (st, first_block u, [])) (out_of_header debug u).
Proof.
  destruct u as [st0 fb acc]. simpl. intros Hacc Hp Hr Hd.
  unfold out_of_header, loop_result. simpl. rewrite Hr, Hp, !app_nil_r.
  destruct fb; simpl; [|by destruct st; naive_solver].
  rewrite Hacc by done. rewrite andb_false_r. destruct st; naive_solver.
Qed.

Lemma try_from_not_panic b : try_from b ≠ Panic.
Proof. unfold try_from. by repeat case_match. Qed.

Lemma unpad_loop_refines debug fuel u data :
  (3 * length data + rank (state u) < fuel)%nat → running u → bytes_ok data →
  loop_result u (read_stream (abs u) data) (unpad_loop debug fuel u data).
Proof.
  revert u data. induction fuel as [|fuel IH]; intros u data Hf Hu Hd; [lia|].
  cbn [unpad_loop]. destruct u as [st fb acc]. unfold running, abs in *. cbn [state first_block accumulated_buffer] in *.
  destruct st as [uuid| |c h|c n h|c p n pl|c p n|]; try done;
    cbn [iter state first_block accumulated_buffer]; cbn [rank] in Hf;
    unfold read_content_step, read_padding_step; cbn [first_block accumulated_buffer].
  - destruct data as [|b data]; [by apply out_of_header_spec|].
    apply bytes_ok_cons in Hd as [Hb Hd]. unfold is_byte in Hb.
    cbn [read_stream byte_step].
    destruct (try_from b) as [c| |] eqn:Et; [|done|by destruct (try_from_not_panic b)]. simpl in *.
    apply (loop_result_step _ (mkUnpadder (ReadingContentLength c None) fb acc) _ []); [done|].
    apply IH; simpl; [lia|done|done].
  - destruct data as [|b data]; [by apply out_of_header_spec; destruct Hu|].
    apply bytes_ok_cons in Hd as [Hb Hd]. unfold is_byte in Hb. destruct Hu as [Ha Hh].
    cbn [read_stream]. destruct h as [h|]; cbn [byte_step]; simpl in *.
    + apply (loop_result_step _ (mkUnpadder (ReadingPaddingLength c (u16_of h b) None) fb acc) _ []); [done|].
      apply IH; simpl; [lia| |done]. split_and!; [done| |done]. apply u16_of_nonneg; lia.
    + apply (loop_result_step _ (mkUnpadder (ReadingContentLength c (Some b)) fb acc) _ []); [done|].
      apply IH; simpl; [lia| |done]. split; [done|]. simpl. lia.
  - destruct data as [|b data]; [by apply out_of_header_spec; destruct Hu|].
    apply bytes_ok_cons in Hd as [Hb Hd]. unfold is_byte in Hb. destruct Hu as (Ha&Hn&Hh).
    cbn [read_stream]. destruct h as [h|]; cbn [byte_step]; simpl in *.
    + apply (loop_result_step _ (mkUnpadder (ReadingContent c [] n (u16_of h b)) fb acc) _ []); [done|].
      apply IH; simpl; [lia| |done]. split; [done|]. apply u16_of_nonneg; lia.
    + apply (loop_result_step _ (mkUnpadder (ReadingPaddingLength c n (Some b)) fb acc) _ []); [done|].
      apply IH; simpl; [lia| |done]. split_and!; [done|done|]. simpl. lia.
  - destruct Hu as [Hn Hpl]. destruct (Z.ltb_spec 0 n) as [Hpos|Hz]; simpl.
    + rewrite settle_content_pos by done. case_bool_decide as Hnil.
      { subst data. unfold out_of_block. simpl. rewrite app_nil_r. by destruct fb. }
      set (k := Nat.min (Z.to_nat n) (length data)).
      assert (0 < k ≤ length data)%nat by (destruct data; [done|simpl in *; lia]).
      rewrite read_stream_content by done. fold k.
      destruct (Z.eqb_spec (n - Z.of_nat k) 0) as [E|E].
      * rewrite E. apply (loop_result_step _ (mkUnpadder (ReadingPadding c (p ++ take k data) pl) fb acc));
          [done|]. apply IH; simpl; [rewrite length_drop; lia|done|by apply bytes_ok_drop].
      * rewrite settle_content_pos by lia.
        apply (loop_result_step _ (mkUnpadder (ReadingContent c (p ++ take k data) (n - Z.of_nat k) pl) fb acc));
          [done|]. rewrite <- (settle_content_pos c _ pl fb) by lia.
        apply IH; simpl; [rewrite length_drop; lia|lia|by apply bytes_ok_drop].
    + assert (n = 0) as -> by lia. simpl. rewrite drop_0, app_nil_r.
      apply (IH (mkUnpadder (ReadingPadding c p pl) fb acc)); simpl; [lia|done|done].
  - assert (∀ data', (3 * length data' < fuel)%nat → bytes_ok data' →
      loop_result (mkUnpadder (ReadingPadding c p n) fb acc)
        (read_stream (settle_padding c 0 fb) data')
        match match c with
              | Continue => inr (mkUnpadder ReadingCommand false (acc ++ p), data')
              | _ => inl (Ok (mkResult ((acc ++ p) ++ data') (Some c)), mkUnpadder Done false [])
              end with
        | inl r => r | inr (u, data) => unpad_loop debug fuel u data
        end) as Hend.
    { intros data' Hl Hd'. destruct c; unfold settle_padding; simpl Z.eqb; cbv iota;
        [|by rewrite read_stream_done; simpl; rewrite (assoc_L (++))..].
      specialize (IH (mkUnpadder ReadingCommand false (acc ++ p)) data'). simpl in IH.
      destruct (read_stream _ data') as [[s out]| |] eqn:E; simpl in *;
        [|by apply IH; [lia|..]..].
      rewrite IH; [by rewrite <- (assoc_L (++))|lia|done|done]. }
    destruct (Z.ltb_spec 0 n) as [Hpos|Hz]; simpl.
    + rewrite settle_padding_pos by done. case_bool_decide as Hnil.
      { subst data. unfold out_of_block. simpl. rewrite app_nil_r. by destruct fb. }
      set (k := Nat.min (Z.to_nat n) (length data)).
      assert (0 < k ≤ length data)%nat by (destruct data; [done|simpl in *; lia]).
      rewrite read_stream_padding by done. fold k.
      destruct (Z.eqb_spec (n - Z.of_nat k) 0) as [E|E].
      * rewrite E. apply Hend; [rewrite length_drop; simpl in *; lia|by apply bytes_ok_drop].
      * rewrite settle_padding_pos by lia. rewrite <- (settle_padding_pos c _ fb) by lia.
        apply (IH (mkUnpadder (ReadingPadding c p (n - Z.of_nat k)) fb acc)); simpl;
          [rewrite length_drop; lia|lia|by apply bytes_ok_drop].
    + assert (n = 0) as -> by lia. simpl. rewrite drop_0. apply Hend; [simpl in *; lia|done].
Qed.
(** A state of the automaton between two calls. *)
Definition resting_ok (s : astate * bool) : Prop :=
  match fst s with
  | ACommand => True
  | AContentLen _ h => from_option (λ b, 0 ≤ b) True h
  | APaddingLen _ n h => 0 ≤ n ∧ from_option (λ b, 0 ≤ b) True h
  | AContent _ n p => 0 < n ∧ 0 ≤ p
  | APadding _ n => 0 < n
  | ADone c => c ≠ Continue
  end.

Definition is_done (s : astate * bool) : bool := match fst s with ADone _ => true | _ => false end.

Lemma settle_padding_ok c n first : 0 ≤ n → resting_ok (settle_padding c n first).
Proof.
  intros. unfold settle_padding. destruct (Z.eqb_spec n 0); [by destruct c|]. unfold resting_ok. simpl. lia.
Qed.
Lemma settle_content_ok c n p first : 0 ≤ n → 0 ≤ p → resting_ok (settle_content c n p first).
Proof.
  intros. unfold settle_content. destruct (Z.eqb_spec n 0); [by apply settle_padding_ok|].
  unfold resting_ok. simpl. lia.
Qed.

Lemma byte_step_ok s b s' out :
  resting_ok s → is_byte b → byte_step s b = Ok (s', out) → resting_ok s'.
Proof.
  destruct s as [st first]. unfold is_byte. intros Hs Hb. unfold resting_ok in *. simpl in *.
  destruct st as [|c [h|]|c n [h|]|c n p|c n|c]; simpl in *; intros E; simplify_eq; simpl; try done.
  - destruct (try_from b); simplify_eq/=. done.
  - split; [|done]. apply u16_of_nonneg; lia.
  - lia.
  - apply settle_content_ok; [lia|]. apply u16_of_nonneg; lia.
  - split; lia.
  - apply settle_content_ok; lia.
  - apply settle_padding_ok; lia.
Qed.

Lemma read_stream_ok s data s' out :
  resting_ok s → bytes_ok data → read_stream s data = Ok (s', out) → resting_ok s'.
Proof.
  revert s out. induction data as [|b data IH]; intros s out Hs Hd E; simpl in E; [by simplify_eq|].
  apply bytes_ok_cons in Hd as [Hb Hd].
  destruct (byte_step s b) as [[s1 o1]| |] eqn:Eb; simplify_eq/=.
  destruct (read_stream s1 data) as [[s2 o2]| |] eqn:Er; simplify_eq/=.
  eapply IH; [by eapply byte_step_ok|done|done].
Qed.

Lemma read_stream_app s xs ys :
  read_stream s (xs ++ ys) =
    '(s, out) ← read_stream s xs; '(s, out') ← read_stream s ys; Ok (s, out ++ out').
Proof.
  revert s. induction xs as [|b xs IH]; intros s; simpl.
  { by destruct (read_stream s ys) as [[s' out]| |]. }
  destruct (byte_step s b) as [[s1 o1]| |]; simpl; [|done..]. rewrite IH.
  destruct (read_stream s1 xs) as [[s2 o2]| |]; simpl; [|done..].
  destruct (read_stream s2 ys) as [[s3 o3]| |]; simpl; [|done..]. by rewrite (assoc_L (++)).
Qed.

(** One call, from a state between calls. *)
Lemma unpad_resting debug s data :
  resting_ok s → is_done s = false → bytes_ok data →
  loop_result (mkUnpadder Done false []) (read_stream s data) (unpad debug (resting s) data).
Proof.
  intros Hs Hn Hd. unfold unpad.
  pose proof (unpad_loop_refines debug (unpad_fuel data) (resting s) data) as Hr.
  assert (abs (resting s) = s ∧ running (resting s) ∧ (rank (state (resting s)) ≤ 2)%nat ∧
          partial_of (state (resting s)) = []) as (Ha&Hrun&Hrank&Hp).
  { destruct s as [st first]. unfold abs, running, resting_ok, is_done in *. simpl in *.
    destruct st; simpl in *; try done; repeat split; try tauto; try lia.
    - apply settle_content_pos; lia.
    - apply settle_padding_pos; lia. }
  rewrite Ha in Hr. unfold loop_result in *. rewrite Hp in Hr.
  assert (running (resting s)) by done.
  destruct (read_stream s data) as [[s' out]| |]; apply Hr; unfold unpad_fuel; done || lia.
Qed.

(** The first call on a stream that starts with the expected id. *)
Lemma unpad_initial debug uuid data :
  length uuid = 16%nat → bytes_ok data →
  loop_result (mkUnpadder Done false []) (read_stream (ACommand, true) data)
    (unpad debug (new uuid) (uuid ++ data)).
Proof.
  intros Hl Hd. unfold unpad, unpad_fuel, new. cbn [state first_block].
  rewrite length_app, Hl. set (f := (3 * (16 + length data) + 3)%nat).
  replace (3 * (16 + length data) + 4)%nat with (S f) by (unfold f; lia).
  cbn [unpad_loop iter state first_block accumulated_buffer]. rewrite length_app, Hl.
  cbn [Nat.add Nat.ltb Nat.leb]. rewrite take_app_length', drop_app_length' by done.
  rewrite bool_decide_eq_true_2 by done. cbn [negb].
  apply (unpad_loop_refines debug f (mkUnpadder ReadingCommand true []) data); simpl; [|done..].
  unfold f. lia.
Qed.

(** All the content of a run: what the calls returned, then whatever the caller
    had left once the final command came. *)
Definition delivered (r : bytes * option UnpadCommand * list bytes) : bytes * option UnpadCommand :=
  let '(out, cmd, rest) := r in (out ++ concat rest, cmd).
Definition final_command (s : astate * bool) : option UnpadCommand :=
  match fst s with
  | ADone Continue => None
  | ADone c => Some c
  | _ => None
  end.
Definition spec_delivered (r : astate * bool * bytes) : bytes * option UnpadCommand :=
  (snd r, final_command (fst r)).

Lemma feed_step debug u u' c chunks s out :
  unpad debug u c = (Ok (mkResult out (command_of s)), u') → resting_ok s →
  delivered <$> fst (feed debug u (c :: chunks)) =
    if is_done s then Ok (out ++ concat chunks, final_command s)
    else '(o, cmd) ← (delivered <$> fst (feed debug u' chunks)); Ok (out ++ o, cmd).
Proof.
  intros E Hs. cbn [feed]. rewrite E. destruct s as [st first]. unfold resting_ok in Hs. simpl in *.
  destruct st as [| | | | |[]]; try done; simpl; destruct first; simpl;
    destruct (feed debug u' chunks) as [[[[o cmd] rest]| |] u'']; simpl; try done;
    by rewrite <- (assoc_L (++)).
Qed.

Lemma feed_resting debug s chunks :
  resting_ok s → is_done s = false → bytes_ok (concat chunks) →
  delivered <$> fst (feed debug (resting s) chunks) = spec_delivered <$> read_stream s (concat chunks).
Proof.
  revert s. induction chunks as [|c chunks IH]; intros s Hs Hn Hd.
  { destruct s as [[] first]; done. }
  simpl concat in *. apply bytes_ok_app in Hd as [Hc Hd].
  pose proof (unpad_resting debug s c Hs Hn Hc) as Hu. rewrite read_stream_app.
  destruct (read_stream s c) as [[s1 out]|e|] eqn:E; unfold loop_result in Hu; simpl in Hu; [| |done].
  - pose proof (read_stream_ok _ _ _ _ Hs Hc E) as Hs1. rewrite (feed_step _ _ _ _ _ _ _ Hu Hs1).
    destruct (is_done s1) eqn:Ed.
    + destruct s1 as [[] first]; try done. simpl. by rewrite read_stream_done.
    + rewrite IH by done. simpl. by destruct (read_stream s1 (concat chunks)) as [[s2 o2]| |].
  - simpl. destruct (unpad debug (resting s) c) as [[]]; simpl in Hu; simplify_eq. done.
Qed.

Lemma feed_initial debug uuid c chunks :
  length uuid = 16%nat → bytes_ok c → bytes_ok (concat chunks) →
  delivered <$> fst (feed debug (new uuid) ((uuid ++ c) :: chunks)) =
  spec_delivered <$> read_stream (ACommand, true) (c ++ concat chunks).
Proof.
  intros Hl Hc Hd. pose proof (unpad_initial debug uuid c Hl Hc) as Hu. rewrite read_stream_app.
  destruct (read_stream (ACommand, true) c) as [[s1 out]|e|] eqn:E; unfold loop_result in Hu;
    simpl in Hu; [| |done].
  - assert (resting_ok s1) as Hs1 by by apply (read_stream_ok (ACommand, true) c s1 out).
    rewrite (feed_step _ _ _ _ _ _ _ Hu Hs1). destruct (is_done s1) eqn:Ed.
    + destruct s1 as [[] first]; try done. simpl. by rewrite read_stream_done.
    + rewrite feed_resting by done. simpl. by destruct (read_stream s1 (concat chunks)) as [[s2 o2]| |].
  - simpl feed. destruct (unpad debug (new uuid) (uuid ++ c)) as [[]]; simpl in Hu; simplify_eq. done.
Qed.

(** ** Padding and unpadding *)

Lemma u16_of_be z : in_width 16 z → u16_of (z / 256) (z mod 256) = z.
Proof.
  unfold in_width, u16_of. intros Hz. rewrite Z.shiftl_mul_pow2 by lia. change (2 ^ 8) with 256.
  assert (Z.land (z / 256 * 256) (z mod 256) = 0) as Hl.
  { apply Z.bits_inj'. intros i Hi. rewrite Z.land_spec, Z.bits_0. change 256 with (2 ^ 8).
    destruct (Z.ltb_spec i 8); [by rewrite Z.mul_pow2_bits_low by lia|].
    rewrite Z.mod_pow2_bits_high by lia. apply andb_false_r. }
  rewrite <- Z.lxor_lor, <- Z.add_nocarry_lxor by done. pose proof (Z.div_mod z 256). lia.
Qed.

Lemma be_encode_2 z : in_width 16 z → be_encode 2 z = [z / 256; z mod 256].
Proof.
  unfold in_width. intros Hz. cbn [be_encode]. change (256 ^ Z.of_nat 1) with 256.
  change (256 ^ Z.of_nat 0) with 1. rewrite Z.div_1_r, (Z.mod_small (z / 256)); [done|].
  split; [apply Z.div_pos; lia|apply Z.div_lt_upper_bound; lia].
Qed.

Definition after_block (c : UnpadCommand) : astate * bool :=
  (match c with Continue => ACommand | _ => ADone c end, false).

Lemma read_block_padding c p rest first :
  read_stream (settle_padding c (Z.of_nat (length p)) first) (p ++ rest) =
  read_stream (after_block c) rest.
Proof.
  destruct p as [|b p]; [by destruct c|]. rewrite settle_padding_pos by (simpl; lia).
  rewrite read_stream_padding by (simpl; lia).
  rewrite Nat.min_l, Nat2Z.id, Z.sub_diag, drop_app_length by (rewrite length_app; lia).
  by destruct c.
Qed.

Lemma read_block_body c d p rest first :
  read_stream (settle_content c (Z.of_nat (length d)) (Z.of_nat (length p)) first) (d ++ p ++ rest) =
  '(s, out) ← read_stream (after_block c) rest; Ok (s, d ++ out).
Proof.
  destruct d as [|b d].
  { simpl app. unfold settle_content. simpl Z.eqb. cbv iota. rewrite read_block_padding.
    by destruct (read_stream (after_block c) rest) as [[s out]| |]. }
  rewrite settle_content_pos by (simpl; lia). rewrite read_stream_content by (simpl; lia).
  rewrite Nat.min_l, Nat2Z.id, Z.sub_diag, drop_app_length, take_app_length
    by (rewrite length_app; lia).
  unfold settle_content. simpl Z.eqb. cbv iota. by rewrite read_block_padding.
Qed.

Lemma try_from_command_byte c : try_from (command_byte c) = Ok c.
Proof. by destruct c. Qed.

Lemma padding_length_le rr n tls :
  (calculate_padding_length rr n tls ≤ Z.to_nat 8171)%nat.
Proof. unfold calculate_padding_length. destruct (_ && _); unfold MAX_PADDING_SIZE; lia. Qed.

(** One block, whatever the random source does. *)
Lemma read_block rr fill d c tls rest first :
  (∀ n, length (fill n) = n) → Z.of_nat (length d) ≤ u16_max →
  read_stream (ACommand, first) (pad rr fill d None (command_byte c) tls ++ rest) =
  '(s, out) ← read_stream (after_block c) rest; Ok (s, d ++ out).
Proof.
  intros Hf Hd. unfold pad, u16_max in *. simpl default.
  rewrite wrap_small by (unfold in_width; lia). rewrite Nat2Z.id.
  set (pl := calculate_padding_length rr (length d) tls).
  pose proof (padding_length_le rr (length d) tls) as Hpl. fold pl in Hpl.
  rewrite wrap_small by (unfold in_width; lia).
  set (p := if (0 <? pl)%nat then fill pl else []).
  assert (length p = pl) as Hp by (unfold p; destruct (Nat.ltb_spec 0 pl); simpl; [apply Hf|lia]).
  rewrite <- Hp at 1. rewrite !be_encode_2 by (unfold in_width; lia).
  rewrite <- !(assoc_L (++)). cbn [app read_stream byte_step]. rewrite try_from_command_byte.
  cbn [mbind outcome_bind byte_step]. rewrite !u16_of_be by (unfold in_width; lia).
  rewrite read_block_body. by destruct (read_stream (after_block c) rest) as [[s out]| |].
Qed.

(** A block as a sender makes it. *)
Record block := mkBlock {
  blk_data : bytes;
  blk_tls : bool;
  blk_random_range : nat → nat;
  blk_fill : nat → bytes;
}.
Definition block_ok (b : block) : Prop :=
  Z.of_nat (length (blk_data b)) ≤ u16_max ∧ bytes_ok (blk_data b) ∧
  (∀ n, length (blk_fill b n) = n ∧ bytes_ok (blk_fill b n)).

Definition pad_block (uuid : option bytes) (c : UnpadCommand) (b : block) : bytes :=
  pad (blk_random_range b) (blk_fill b) (blk_data b) uuid (command_byte c) (blk_tls b).

(** What a sender writes: the id and the first block, more blocks, a block
    that carries the final command, then unpadded data. *)
Definition sent (uuid : bytes) (blocks : list block) (last : block) (c : UnpadCommand)
    (raw : bytes) : bytes :=
  match blocks with
  | [] => pad_block (Some uuid) c last
  | b :: bs => pad_block (Some uuid) Continue b ++ concat (pad_block None Continue <$> bs) ++
               pad_block None c last
  end ++ raw.

Lemma pad_uuid uuid c b : pad_block (Some uuid) c b = uuid ++ pad_block None c b.
Proof. done. Qed.

Lemma read_pad_block b c rest first :
  block_ok b →
  read_stream (ACommand, first) (pad_block None c b ++ rest) =
  '(s, out) ← read_stream (after_block c) rest; Ok (s, blk_data b ++ out).
Proof. intros (H1&_&H3). apply read_block; [apply H3|done]. Qed.

Lemma read_blocks blocks last c raw first :
  Forall block_ok blocks → block_ok last → c ≠ Continue →
  read_stream (ACommand, first)
    (concat (pad_block None Continue <$> blocks) ++ pad_block None c last ++ raw) =
  Ok (ADone c, false, concat (blk_data <$> blocks) ++ blk_data last ++ raw).
Proof.
  intros Hb Hl Hc. revert first. induction Hb as [|b blocks Hb _ IH]; intros first.
  - cbn [fmap list_fmap concat app]. rewrite read_pad_block by done.
    destruct c; [done|..]; unfold after_block; by rewrite read_stream_done.
  - rewrite !fmap_cons. cbn [concat]. rewrite <- !(assoc_L (++)), read_pad_block by done.
    unfold after_block. rewrite IH. done.
Qed.

Lemma sent_split uuid blocks last c raw :
  sent uuid blocks last c raw =
  uuid ++ concat (pad_block None Continue <$> blocks) ++ pad_block None c last ++ raw.
Proof.
  unfold sent. destruct blocks as [|b bs]; rewrite pad_uuid, ?fmap_cons; cbn [concat];
    by rewrite <- !(assoc_L (++)).
Qed.

Lemma pad_bytes_ok c b : block_ok b → bytes_ok (pad_block None c b).
Proof.
  intros (_&Hd&Hf). unfold pad_block, pad. simpl default.
  rewrite !bytes_ok_app. split_and!; [constructor| |apply bytes_ok_be_encode..|done|].
  - apply bytes_ok_cons. split; [|constructor]. unfold is_byte. destruct c; simpl; lia.
  - destruct (_ <? _)%nat; [apply Hf|constructor].
Qed.



(** C26: the unpadder is the byte automaton, call by call.  From any state
    between calls, a call on any bytes returns the content bytes the automaton
    finds in them, no command unless the stream's final block ended (then the
    bytes after it are passed on), and leaves the unpadder in the automaton's
    state; when the automaton rejects a command byte the call returns that
    error.  In particular the loop always terminates, no debug assertion fires
    and content is never held back waiting for padding. *)
Theorem unpad_refines_automaton debug s data :
  resting_ok s → is_done s = false → bytes_ok data →
  match read_stream s data with
  | Ok (s', out) => unpad debug (resting s) data = (Ok (mkResult out (command_of s')), resting s')
  | Err e => fst (unpad debug (resting s) data) = Err e
  | Panic => False
  end.
Proof. intros Hs Hn Hd. apply (unpad_resting debug s data Hs Hn Hd). Qed.

Lemma unpad_refines_automaton_witness :
  unpad true (resting (AContent EndCmd 3 2, true)) [10; 11; 12; 0] =
    (Ok (mkResult [10; 11; 12] None), resting (APadding EndCmd 1, true)).
Proof.
  pose proof (unpad_refines_automaton true (AContent EndCmd 3 2, true) [10; 11; 12; 0]) as H.
  apply H; [split; lia|done|repeat constructor; unfold is_byte; lia].
Defined.

End Vision.
