(* ===== verification/SlideBuffer.v ===== *)
(** * The sliding byte buffer ([src/slide_buffer.rs])

    A fixed-capacity buffer with a read offset [start] and a write offset
    [end_] into storage that is allocated on the first write and given back
    by [release].  The abstract view of a buffer is the queue [contents] of
    its readable bytes.  Shown here: every operation keeps the well-formedness
    invariant and acts on [contents] as the queue operation it stands for, no
    operation panics within its documented precondition, and a whole run of
    operations refines a bounded FIFO queue.

    [debug] is [cfg(debug_assertions)]: the [debug_assert!]s panic when it is
    [true] and are absent when it is [false].  [junk] is the content of the
    uninitialised memory handed out by [allocate_vec]. *)
From S2P Require Import Prelude.

Module Slide.

Record SlideBuffer := mkSlideBuffer {
  data : bytes;
  capacity : nat;
  start : nat;
  end_ : nat;
}.

#[global] Instance SlideBuffer_eq_dec : EqDecision SlideBuffer.
Proof. solve_decision. Defined.

Section ops.
Context (debug : bool) (junk : nat → Z).

Definition allocate_vec (len : nat) : bytes := junk <$> seq 0 len.

Definition debug_assert (c : bool) : outcome unit :=
  if debug && negb c then Panic else Ok tt.

Definition new (cap : nat) : SlideBuffer := mkSlideBuffer [] cap 0 0.

Definition is_nil {A} (l : list A) : bool := match l with [] => true | _ => false end.

Definition ensure (b : SlideBuffer) : SlideBuffer :=
  if is_nil (data b) && (0 <? capacity b)
  then mkSlideBuffer (allocate_vec (capacity b)) (capacity b) (start b) (end_ b)
  else b.

Definition release (b : SlideBuffer) : SlideBuffer :=
  if end_ b <=? start b
  then mkSlideBuffer (if negb (is_nil (data b)) then [] else data b) (capacity b) 0 0
  else b.

Definition held_bytes (b : SlideBuffer) : nat := length (data b).
Definition len (b : SlideBuffer) : nat := end_ b - start b.
Definition is_empty (b : SlideBuffer) : bool := end_ b <=? start b.
Definition remaining_capacity (b : SlideBuffer) : nat := capacity b - end_ b.
Definition as_slice (b : SlideBuffer) : outcome bytes := slice (data b) (start b) (end_ b).

(** A [&mut [u8]] is the current value of the region with the function that
    stores the region's final value back into the buffer. *)
Definition write_slice (b : SlideBuffer) : outcome (bytes * (bytes → SlideBuffer)) :=
  let b := ensure b in
  region ← slice (data b) (end_ b) (length (data b));
  Ok (region, λ region',
    mkSlideBuffer (take (end_ b) (data b) ++ region') (capacity b) (start b) (end_ b)).

Definition extend_from_slice (b : SlideBuffer) (xs : bytes) : outcome SlideBuffer :=
  _ ← debug_assert (length xs <=? remaining_capacity b);
  let b := ensure b in
  let e := end_ b in
  _ ← slice (data b) e (e + length xs);
  Ok (mkSlideBuffer (take e (data b) ++ xs ++ drop (e + length xs) (data b))
        (capacity b) (start b) (e + length xs)).

Definition advance_write (b : SlideBuffer) (n : nat) : outcome SlideBuffer :=
  _ ← debug_assert (end_ b + n <=? capacity b);
  Ok (mkSlideBuffer (data b) (capacity b) (start b) (end_ b + n)).

Definition consume (b : SlideBuffer) (n : nat) : outcome SlideBuffer :=
  _ ← debug_assert (n <=? len b);
  let s := start b + n in
  Ok (if end_ b <=? s
      then mkSlideBuffer (data b) (capacity b) 0 0
      else mkSlideBuffer (data b) (capacity b) s (end_ b)).

Definition compact (b : SlideBuffer) : outcome SlideBuffer :=
  if (0 <? start b) && (start b <? end_ b) then
    moved ← slice (data b) (start b) (end_ b);
    Ok (mkSlideBuffer (moved ++ drop (end_ b - start b) (data b)) (capacity b)
          0 (end_ b - start b))
  else if end_ b <=? start b then Ok (mkSlideBuffer (data b) (capacity b) 0 0)
  else Ok b.

Definition maybe_compact (b : SlideBuffer) (threshold : nat) : outcome SlideBuffer :=
  if threshold <? start b then compact b else Ok b.

Definition get_u16_be (b : SlideBuffer) (offset : nat) : outcome (option Z) :=
  if offset + 2 <=? len b then
    let idx := start b + offset in
    hi ← index (data b) idx;
    lo ← index (data b) (idx + 1);
    Ok (Some (be_decode [hi; lo]))
  else Ok None.

Definition slice_mut (b : SlideBuffer) (i j : nat) : outcome (bytes * (bytes → SlideBuffer)) :=
  region ← slice (data b) (start b + i) (start b + j);
  Ok (region, λ region',
    mkSlideBuffer (take (start b + i) (data b) ++ region' ++ drop (start b + j) (data b))
      (capacity b) (start b) (end_ b)).

(** [Read::read] into a destination of [n] bytes. *)
Definition read (b : SlideBuffer) (n : nat) : outcome (bytes * SlideBuffer) :=
  let available := len b in
  if available =? 0 then Ok ([], b)
  else
    let to_read := n `min` available in
    out ← slice (data b) (start b) (start b + to_read);
    b' ← consume b to_read;
    Ok (out, b').

Definition fill_buf (b : SlideBuffer) : outcome bytes := as_slice b.

(** The four [Index] implementations. *)
Definition index_at (b : SlideBuffer) (i : nat) : outcome Z := index (data b) (start b + i).
Definition index_range (b : SlideBuffer) (i j : nat) : outcome bytes :=
  slice (data b) (start b + i) (start b + j).
Definition index_from (b : SlideBuffer) (i : nat) : outcome bytes :=
  slice (data b) (start b + i) (end_ b).
Definition index_to (b : SlideBuffer) (j : nat) : outcome bytes :=
  slice (data b) (start b) (start b + j).

(** ** The invariant and the abstract view *)

Definition wf (b : SlideBuffer) : Prop :=
  start b ≤ end_ b ∧ end_ b ≤ length (data b) ∧
  (length (data b) = capacity b ∨ data b = []).

Definition contents (b : SlideBuffer) : bytes := take (len b) (drop (start b) (data b)).

(** A run of buffer operations, as a client issues them: [Push] makes room
    with [compact] and appends, [Pop] reads. *)
Inductive op :=
| Push (xs : bytes)
| Fill (xs : bytes)
| Pop (n : nat)
| Drop (n : nat)
| Compact
| MaybeCompact (threshold : nat)
| Release
| PeekU16 (offset : nat).

Inductive obs := ONone | OBytes (xs : bytes) | OU16 (v : option Z).

Definition step (b : SlideBuffer) (o : op) : outcome (obs * SlideBuffer) :=
  match o with
  | Push xs => b ← compact b; b ← extend_from_slice b xs; Ok (ONone, b)
  | Fill xs =>
      b ← compact b;
      '(region, put) ← write_slice b;
      b ← advance_write (put (xs ++ drop (length xs) region)) (length xs);
      Ok (ONone, b)
  | Pop n => '(out, b) ← read b n; Ok (OBytes out, b)
  | Drop n => b ← consume b n; Ok (ONone, b)
  | Compact => b ← compact b; Ok (ONone, b)
  | MaybeCompact t => b ← maybe_compact b t; Ok (ONone, b)
  | Release => Ok (ONone, release b)
  | PeekU16 i => v ← get_u16_be b i; Ok (OU16 v, b)
  end.

Fixpoint run (b : SlideBuffer) (ops : list op) : outcome (list obs * SlideBuffer) :=
  match ops with
  | [] => Ok ([], b)
  | o :: ops => '(x, b) ← step b o; '(xs, b) ← run b ops; Ok (x :: xs, b)
  end.

(** The specification: a FIFO queue of at most [cap] bytes. *)
Definition spec_step (cap : nat) (q : bytes) (o : op) : option (obs * bytes) :=
  match o with
  | Push xs | Fill xs =>
      if length q + length xs <=? cap then Some (ONone, q ++ xs) else None
  | Pop n => Some (OBytes (take n q), drop n q)
  | Drop n => if n <=? length q then Some (ONone, drop n q) else None
  | Compact | MaybeCompact _ | Release => Some (ONone, q)
  | PeekU16 i =>
      Some (OU16 (match q !! i, q !! (i + 1) with
                  | Some hi, Some lo => Some (be_decode [hi; lo])
                  | _, _ => None
                  end), q)
  end.

Fixpoint spec_run (cap : nat) (q : bytes) (ops : list op) : option (list obs * bytes) :=
  match ops with
  | [] => Some ([], q)
  | o :: ops =>
      '(x, q) ← spec_step cap q o; '(xs, q) ← spec_run cap q ops; Some (x :: xs, q)
  end.

(** ** Lemmas *)

Lemma length_contents b : wf b → length (contents b) = len b.
Proof. intros (?&?&_). unfold contents, len. rewrite length_take, length_drop. lia. Qed.

Lemma contents_alt b : contents b = drop (start b) (take (end_ b) (data b)).
Proof. unfold contents, len. by rewrite skipn_firstn_comm. Qed.

Lemma wf_new cap : wf (new cap) ∧ contents (new cap) = [].
Proof. repeat split; simpl; auto. Qed.

Lemma length_allocate n : length (allocate_vec n) = n.
Proof. unfold allocate_vec. by rewrite length_fmap, length_seq. Qed.

Lemma wf_empty_data b : wf b → data b = [] → start b = 0 ∧ end_ b = 0.
Proof. intros (?&Hl&_) Hd. rewrite Hd in Hl. simpl in *. lia. Qed.

Lemma ensure_spec b :
  wf b →
  wf (ensure b) ∧ contents (ensure b) = contents b ∧
  length (data (ensure b)) = capacity b ∧ capacity (ensure b) = capacity b ∧
  start (ensure b) = start b ∧ end_ (ensure b) = end_ b.
Proof.
  intros Hwf. unfold ensure.
  destruct (data b) as [|x d] eqn:Ed; simpl; destruct (Nat.ltb_spec 0 (capacity b)); simpl.
  - destruct (wf_empty_data b Hwf Ed) as [Hs He].
    unfold wf, contents, len. simpl. rewrite Hs, He, length_allocate. simpl.
    repeat split; auto; lia.
  - repeat split; try apply Hwf. rewrite Ed. simpl. lia.
  - pose proof Hwf as (_&_&[Hl|Hl]); [|congruence]. repeat split; (apply Hwf || done).
  - pose proof Hwf as (_&_&[Hl|Hl]); [|congruence]. repeat split; (apply Hwf || done).
Qed.

Lemma release_spec b :
  wf b → wf (release b) ∧ contents (release b) = contents b ∧
         capacity (release b) = capacity b.
Proof.
  intros Hwf. unfold release. destruct (Nat.leb_spec (end_ b) (start b)); [|done].
  destruct Hwf as (?&?&?). unfold wf, contents, len. simpl.
  replace (end_ b - start b) with 0 by lia.
  destruct (data b); simpl; repeat split; auto; lia.
Qed.

Lemma as_slice_spec b : wf b → as_slice b = Ok (contents b).
Proof. intros (?&?&_). unfold as_slice. by rewrite slice_Ok. Qed.

Lemma extend_spec b xs :
  wf b → length xs ≤ remaining_capacity b →
  ∃ b', extend_from_slice b xs = Ok b' ∧ wf b' ∧ contents b' = contents b ++ xs ∧
        capacity b' = capacity b.
Proof.
  intros Hwf Hle. unfold extend_from_slice, debug_assert.
  rewrite (proj2 (Nat.leb_le _ _) Hle), andb_false_r. simpl.
  destruct (ensure_spec b Hwf) as (Hwf'&Hc&Hl&Hcap&Hs&He).
  unfold remaining_capacity in Hle.
  destruct Hwf' as (Hse&Hel&_). rewrite Hs, He in *.
  rewrite slice_Ok by lia. simpl. eexists. split; [reflexivity|].
  pose proof (length_contents b Hwf) as Hlc. unfold len in Hlc.
  assert (length (take (end_ b) (data (ensure b))) = end_ b) as Ht
    by (rewrite length_take; lia).
  split; [|split; [|done]].
  - unfold wf. simpl. rewrite !length_app, Ht, length_drop. lia.
  - rewrite contents_alt. simpl.
    rewrite app_assoc, take_app_length' by (rewrite length_app; lia).
    rewrite drop_app_le by lia. by rewrite <- Hc, (contents_alt (ensure b)), Hs, He.
Qed.

Lemma consume_spec b n :
  wf b → n ≤ len b →
  ∃ b', consume b n = Ok b' ∧ wf b' ∧ contents b' = drop n (contents b) ∧
        capacity b' = capacity b.
Proof.
  intros Hwf Hn. unfold consume, debug_assert.
  rewrite (proj2 (Nat.leb_le _ _) Hn), andb_false_r. simpl. eexists. split; [reflexivity|].
  pose proof (length_contents b Hwf). destruct Hwf as (?&?&?). unfold len in *.
  destruct (Nat.leb_spec (end_ b) (start b + n)); simpl.
  - split; [unfold wf; simpl; repeat split; auto; lia|]. split; [|done].
    rewrite drop_ge by lia. done.
  - split; [unfold wf; simpl; repeat split; auto; lia|]. split; [|done].
    rewrite !contents_alt. simpl. by rewrite drop_drop.
Qed.

Lemma compact_spec b :
  wf b →
  ∃ b', compact b = Ok b' ∧ wf b' ∧ contents b' = contents b ∧ capacity b' = capacity b ∧
        start b' = 0.
Proof.
  intros Hwf. pose proof (length_contents b Hwf) as Hl. pose proof Hwf as (?&?&Hd).
  unfold compact, len in *.
  destruct (Nat.ltb_spec 0 (start b)), (Nat.ltb_spec (start b) (end_ b)); simpl;
    try (destruct (Nat.leb_spec (end_ b) (start b)); try lia).
  - rewrite slice_Ok by lia. simpl. eexists. split; [reflexivity|].
    fold (len b). fold (contents b).
    split; [|split; [|done]].
    + unfold wf, len. simpl. rewrite length_app, Hl, length_drop. repeat split; try lia.
      destruct Hd as [Hd|Hd]; [left; lia|]. rewrite Hd in *. simpl in *. lia.
    + unfold contents at 1. unfold len at 1. simpl.
      rewrite drop_0, Nat.sub_0_r. apply take_app_length'. unfold len in *. lia.
  - eexists. split; [reflexivity|]. unfold wf, contents, len. simpl.
    replace (end_ b - start b) with 0 by lia. simpl. repeat split; auto; lia.
  - eexists. split; [reflexivity|]. repeat split; auto; lia.
  - eexists. split; [reflexivity|]. unfold wf, contents, len. simpl.
    replace (end_ b - start b) with 0 by lia. simpl. repeat split; auto; lia.
Qed.

Lemma maybe_compact_spec b t :
  wf b → ∃ b', maybe_compact b t = Ok b' ∧ wf b' ∧ contents b' = contents b ∧
               capacity b' = capacity b.
Proof.
  intros Hwf. unfold maybe_compact. destruct (_ <? _); [|eauto].
  destruct (compact_spec b Hwf) as (b'&?&?&?&?&?). eauto.
Qed.

Lemma lookup_contents b i :
  wf b → i < len b → contents b !! i = data b !! (start b + i).
Proof.
  intros _ Hi. unfold contents. rewrite lookup_take.
  rewrite decide_True by done. by rewrite lookup_drop.
Qed.

Lemma get_u16_be_spec b i :
  wf b →
  get_u16_be b i =
    Ok (match contents b !! i, contents b !! (i + 1) with
        | Some hi, Some lo => Some (be_decode [hi; lo])
        | _, _ => None
        end).
Proof.
  intros Hwf. unfold get_u16_be. pose proof (length_contents b Hwf) as Hl.
  destruct (Nat.leb_spec (i + 2) (len b)).
  - rewrite !lookup_contents by (done || lia). unfold index. rewrite Nat.add_assoc.
    destruct Hwf as (?&?&_). unfold len in *.
    destruct (lookup_lt_is_Some_2 (data b) (start b + i)) as [hi ->]; [lia|].
    destruct (lookup_lt_is_Some_2 (data b) (start b + i + 1)) as [lo ->]; [lia|]. done.
  - rewrite (lookup_ge_None_2 _ (i + 1)) by lia. by destruct (_ !! i).
Qed.

Lemma read_spec b n :
  wf b →
  ∃ b', read b n = Ok (take n (contents b), b') ∧ wf b' ∧
        contents b' = drop n (contents b) ∧ capacity b' = capacity b.
Proof.
  intros Hwf. unfold read. pose proof (length_contents b Hwf) as Hl.
  destruct (Nat.eqb_spec (len b) 0) as [H0|H0].
  - destruct (contents b) eqn:Ec; simpl in *; [|lia].
    rewrite take_nil, drop_nil. exists b. by rewrite Ec.
  - destruct (consume_spec b (n `min` len b) Hwf) as (b'&Hb'&?&Hc&?); [lia|].
    pose proof Hwf as (?&?&_).
    rewrite slice_Ok by (unfold len in *; lia). simpl. rewrite Hb'. simpl.
    exists b'. split; [|split; [done|split; [|done]]].
    + do 2 f_equal. unfold contents. rewrite take_take. f_equal. lia.
    + rewrite Hc. destruct (decide (n ≤ len b)); [by rewrite Nat.min_l|].
      rewrite Nat.min_r by lia. by rewrite !drop_ge by lia.
Qed.

(** Writing [xs] at the head of the slice handed out by [write_slice] and
    committing it with [advance_write] appends [xs]. *)
Lemma write_advance_spec b xs :
  wf b → length xs ≤ remaining_capacity b →
  ∃ region put b',
    write_slice b = Ok (region, put) ∧ length region = remaining_capacity b ∧
    advance_write (put (xs ++ drop (length xs) region)) (length xs) = Ok b' ∧
    wf b' ∧ contents b' = contents b ++ xs ∧ capacity b' = capacity b.
Proof.
  intros Hwf Hle. destruct (ensure_spec b Hwf) as (Hwf'&Hc&Hl&Hcap&Hs&He).
  destruct (extend_spec b xs Hwf Hle) as (b'&Hb'&?&?&?).
  unfold write_slice. pose proof Hwf' as (?&?&_).
  unfold remaining_capacity in *.
  rewrite slice_suffix by done. simpl. do 2 eexists. exists b'.
  split; [reflexivity|]. split; [rewrite length_drop; lia|].
  split; [|done]. revert Hb'. unfold extend_from_slice, advance_write, debug_assert.
  unfold remaining_capacity.
  rewrite (proj2 (Nat.leb_le _ _) Hle), andb_false_r. simpl.
  rewrite slice_Ok by lia. simpl. intros [= <-].
  rewrite (proj2 (Nat.leb_le _ _)) by lia. rewrite andb_false_r. simpl.
  by rewrite drop_drop.
Qed.

Lemma step_refines b o x q' :
  wf b → spec_step (capacity b) (contents b) o = Some (x, q') →
  ∃ b', step b o = Ok (x, b') ∧ wf b' ∧ contents b' = q' ∧ capacity b' = capacity b.
Proof.
  intros Hwf Hs. pose proof (length_contents b Hwf) as Hl.
  destruct (compact_spec b Hwf) as (b1&H1&Hwf1&Hc1&Hcap1&Hst1).
  pose proof (length_contents b1 Hwf1) as Hl1. unfold len in Hl1.
  destruct o; simpl in Hs; repeat case_match; to_prop; simplify_eq; simpl; try rewrite H1;
    simpl; try (rewrite get_u16_be_spec by done; simplify_option_eq); eauto.
  - destruct (extend_spec b1 xs Hwf1) as (b2&->&?&?&?); simpl; eauto with congruence.
    unfold remaining_capacity. rewrite Hc1 in Hl1. lia.
  - destruct (write_advance_spec b1 xs Hwf1) as (r&p&b2&->&?&Hadv&?&?&?).
    { unfold remaining_capacity. rewrite Hc1 in Hl1. lia. }
    simpl. rewrite Hadv. simpl. eauto with congruence.
  - destruct (read_spec b n Hwf) as (b2&->&?&?&?). simpl. eauto.
  - destruct (consume_spec b n Hwf) as (b2&->&?&?&?); [lia|]. simpl. eauto.
  - destruct (maybe_compact_spec b threshold Hwf) as (b2&->&?&?&?). simpl. eauto.
  - destruct (release_spec b Hwf) as (?&?&?). eauto.
Qed.

(** ** Properties *)

(** A run of any length on a fresh buffer of capacity [cap] produces
    exactly what the bounded FIFO queue specification produces whenever the
    specification accepts the run, never panics on it (in debug and in release
    builds), and leaves a well-formed buffer whose readable bytes are the
    queue. *)
Theorem slide_run_refines_queue cap ops xs q :
  spec_run cap [] ops = Some (xs, q) →
  ∃ b, run (new cap) ops = Ok (xs, b) ∧ wf b ∧ contents b = q ∧ as_slice b = Ok q.
Proof.
  intros Hs.
  assert (∀ b, wf b → capacity b = cap → spec_run cap (contents b) ops = Some (xs, q) →
    ∃ b', run b ops = Ok (xs, b') ∧ wf b' ∧ contents b' = q) as Hgen.
  { clear Hs. revert xs. induction ops as [|o ops IH]; intros xs b Hwf <- Hs; simpl in *.
    - simplify_eq. eauto.
    - destruct (spec_step _ _ _) as [[x q1]|] eqn:E1; simplify_eq/=.
      destruct (spec_run _ q1 _) as [[ys q2]|] eqn:E2; simplify_eq/=.
      destruct (step_refines _ _ _ _ Hwf E1) as (b1&->&?&<-&Hcap). simpl.
      destruct (IH ys b1) as (b2&->&?&?); [done|done|congruence|]. simpl. eauto. }
  destruct (wf_new cap) as [Hwf Hc].
  destruct (Hgen (new cap)) as (b&?&?&Hq); [done|done|by rewrite Hc|].
  exists b. rewrite as_slice_spec by done. by rewrite Hq.
Qed.

End ops.

(** The queue specification accepts this run, so [slide_run_refines_queue]
    applies to it: two pushes into eight bytes, a pop that makes room, a third
    push that needs the compaction, and a peek. *)
Lemma slide_run_refines_queue_witness :
  ∃ b, run true (λ _, 0%Z) (new 8)
         [Push [1; 2; 3; 4; 5]%Z; Pop 3; Fill [6; 7; 8; 9]%Z; PeekU16 1; Drop 2; Release] =
       Ok ([ONone; OBytes [1; 2; 3]%Z; ONone; OU16 (Some 1286%Z); ONone; ONone], b) ∧
       wf b ∧ contents b = [6; 7; 8; 9]%Z ∧ as_slice b = Ok [6; 7; 8; 9]%Z.
Proof. apply (slide_run_refines_queue true (λ _, 0%Z) 8). vm_compute. reflexivity. Defined.

End Slide.
