(* ===== verification/SharedUsers.v ===== *)
(** * A user table shared with running listeners ([src/shared_users.rs])

    [SharedUsers<T>] is a lock around an [Arc<T>]; the reference counts are what
    the code is about, so they are modelled: a heap of counted allocations, the
    list of containers (each the address of its current table) and the
    operations of the type.  Traces interleave containers being created, loaded
    from, stored to and updated with borrows being dropped.  Shown: the type is
    an atomic register whose borrows are immutable snapshots whatever path
    [update_with] takes, superseded tables are freed, and the double-checked
    [publish] of a slot gives every racing publisher the same handle. *)
From S2P Require Import Prelude.
From stdpp Require Import ssreflect.

Module Shared.
Section shared.
Context {T : Type}.
Implicit Types (u v : T) (a b c h : nat).

(** ** [Arc]: counted allocations.  Addresses are never reused. *)
Record heap := mkHeap { arcs : gmap nat (T * nat); next : nat }.

Definition arc_new (u : T) (m : heap) : nat * heap :=
  (next m, mkHeap (<[next m := (u, 1)]> (arcs m)) (S (next m))).

Definition arc_clone (a : nat) (m : heap) : heap :=
  mkHeap (alter (λ e, (e.1, S e.2)) a (arcs m)) (next m).

(** Dropping one reference; the allocation goes with the last. *)
Definition arc_drop (a : nat) (m : heap) : heap :=
  match arcs m !! a with
  | Some (u, S (S n)) => mkHeap (<[a := (u, S n)]> (arcs m)) (next m)
  | Some (_, _) => mkHeap (delete a (arcs m)) (next m)
  | None => m
  end.

Definition arc_deref (a : nat) (m : heap) : option T := fst <$> arcs m !! a.

(** [Arc::get_mut] followed by the update: only with a single reference. *)
Definition arc_get_mut (a : nat) (f : T → T) (m : heap) : option heap :=
  match arcs m !! a with
  | Some (u, 1) => Some (mkHeap (<[a := (f u, 1)]> (arcs m)) (next m))
  | _ => None
  end.

(** ** [SharedUsers].  A handle [Arc<SharedUsers<T>>] is an index of [cells],
    and a cell is the address its lock protects.  A handle that is not an index
    does not exist in the program; the operations ignore it. *)
Record mem := mkMem { hp : heap; cells : list nat }.

Definition empty_mem : mem := mkMem (mkHeap ∅ 0) [].

Definition new (users : T) (s : mem) : nat * mem :=
  let '(a, m) := arc_new users (hp s) in
  (length (cells s), mkMem m (cells s ++ [a])).

Definition load (self : nat) (s : mem) : option (nat * mem) :=
  current ← cells s !! self;
  Some (current, mkMem (arc_clone current (hp s)) (cells s)).

Definition with_current {R} (self : nat) (inspect : T → R) (s : mem) : option R :=
  current ← cells s !! self;
  inspect <$> arc_deref current (hp s).

Definition store (self : nat) (users : T) (s : mem) : mem :=
  match cells s !! self with
  | None => s
  | Some previous =>
      let '(a, m) := arc_new users (hp s) in
      let s := mkMem m (<[self := a]> (cells s)) in
      mkMem (arc_drop previous (hp s)) (cells s)
  end.

Definition update_with (self : nat) (update : T → T) (s : mem) : mem :=
  match cells s !! self with
  | None => s
  | Some current =>
      match arc_get_mut current update (hp s) with
      | Some m => mkMem m (cells s)
      | None =>
          match arc_deref current (hp s) with
          | None => s
          | Some old =>
              let '(a, m) := arc_new (update old) (hp s) in
              mkMem (arc_drop current m) (<[self := a]> (cells s))
          end
      end
  end.

(** ** [SharedUsersSlot]: the handle, once published *)
Definition slot_publish (users : T) (slot : option nat) (s : mem) : nat * option nat * mem :=
  match slot with
  | Some shared => (shared, slot, store shared users s)
  | None => let '(shared, s) := new users s in (shared, Some shared, s)
  end.

(** ** Traces: what the control plane and the handshakes do to the tables *)
Record world := mkWorld { store_of : mem; borrows : list nat }.

Inductive op :=
| New (users : T)
| Load (self : nat)
| DropBorrow (i : nat)
| Store (self : nat) (users : T)
| UpdateWith (self : nat) (update : T → T).

Definition step (w : world) (o : op) : world :=
  match o with
  | New u => mkWorld (new u (store_of w)).2 (borrows w)
  | Load c =>
      match load c (store_of w) with
      | Some (a, s) => mkWorld s (a :: borrows w)
      | None => w
      end
  | DropBorrow i =>
      match borrows w !! i with
      | Some a =>
          mkWorld (mkMem (arc_drop a (hp (store_of w))) (cells (store_of w)))
            (delete i (borrows w))
      | None => w
      end
  | Store c u => mkWorld (store c u (store_of w)) (borrows w)
  | UpdateWith c f => mkWorld (update_with c f (store_of w)) (borrows w)
  end.
Definition run : list op → world := foldl step (mkWorld empty_mem []).

(** ** The specification: registers and the values read from them *)
Record register_world := mkRegisters { registers : list T; snapshots : list T }.

Definition spec_step (r : register_world) (o : op) : register_world :=
  match o with
  | New u => mkRegisters (registers r ++ [u]) (snapshots r)
  | Load c =>
      match registers r !! c with
      | Some u => mkRegisters (registers r) (u :: snapshots r)
      | None => r
      end
  | DropBorrow i => mkRegisters (registers r) (delete i (snapshots r))
  | Store c u => mkRegisters (<[c := u]> (registers r)) (snapshots r)
  | UpdateWith c f => mkRegisters (alter f c (registers r)) (snapshots r)
  end.
Definition spec_run : list op → register_world := foldl spec_step (mkRegisters [] []).

(** What the holders of handles and of borrows can read. *)
Definition current_tables (s : mem) : list (option T) :=
  (λ a, arc_deref a (hp s)) <$> cells s.
Definition borrowed_tables (w : world) : list (option T) :=
  (λ a, arc_deref a (hp (store_of w))) <$> borrows w.

(** ** Threads racing to publish: [publish] split at its lock acquisitions *)
Inductive pc :=
| Reading (users : T)
| Writing (users : T)
| Storing (shared : nat) (users : T)
| Returned (shared : nat).

Record race := mkRace { slot : option nat; memory : mem; threads : list pc }.

Definition thread_step (sl : option nat) (s : mem) (p : pc) : option nat * mem * pc :=
  match p with
  | Reading u =>
      match sl with Some h => (sl, s, Storing h u) | None => (sl, s, Writing u) end
  | Writing u =>
      match sl with
      | Some h => (sl, s, Storing h u)
      | None => let '(h, s) := new u s in (Some h, s, Returned h)
      end
  | Storing h u => (sl, store h u s, Returned h)
  | Returned h => (sl, s, Returned h)
  end.

Definition schedule_step (r : race) (i : nat) : race :=
  match threads r !! i with
  | Some p =>
      let '(sl, s, p) := thread_step (slot r) (memory r) p in
      mkRace sl s (<[i := p]> (threads r))
  | None => r
  end.
Definition schedule : list nat → race → race := λ order r, foldl schedule_step r order.

(** ** Reference counting: [refs] lists every reference the program holds *)
Definition occ (a : nat) (l : list nat) : nat := length (filter (a =.) l).

Definition ref_count (m : heap) (a : nat) : nat := default 0 (snd <$> arcs m !! a).

Record counted (m : heap) (refs : list nat) : Prop := {
  counted_refs : ∀ a, ref_count m a = occ a refs;
  counted_live : ∀ a e, arcs m !! a = Some e → 0 < e.2;
  counted_next : ∀ a, a ∈ refs → a < next m }.

Definition reads (m : heap) (a : nat) (u : T) : Prop := arc_deref a m = Some u.

Lemma occ_cons a b l : occ a (b :: l) = (if decide (a = b) then 1 else 0) + occ a l.
Proof. rewrite /occ filter_cons. by case_decide. Qed.

Lemma occ_perm a (l l' : list nat) : l ≡ₚ l' → occ a l = occ a l'.
Proof. intros H. rewrite /occ. by rewrite H. Qed.

Lemma occ_zero a l : occ a l = 0 ↔ a ∉ l.
Proof.
  induction l as [|b l IH]; first by split; [intros _; apply not_elem_of_nil|].
  rewrite occ_cons not_elem_of_cons -IH. case_decide; split; naive_solver lia.
Qed.

Lemma counted_perm m (l l' : list nat) : l ≡ₚ l' → counted m l → counted m l'.
Proof.
  intros Hp [H1 H2 H3]. split; [|done|].
  - intros a. by rewrite H1 (occ_perm a l l').
  - intros a. rewrite -Hp. apply H3.
Qed.

Lemma counted_deref m refs a : counted m refs → (is_Some (arc_deref a m) ↔ a ∈ refs).
Proof.
  intros [H1 H2 _]. specialize (H1 a). rewrite /arc_deref /ref_count in H1 |- *.
  destruct (arcs m !! a) as [e|] eqn:E; simpl in *.
  - specialize (H2 a e E). split; [|eauto]. intros _.
    destruct (decide (a ∈ refs)) as [|Hn%occ_zero]; [done|lia].
  - split; [by intros [? ?]|]. intros Hin. by apply eq_sym, occ_zero in H1.
Qed.

Lemma arc_new_counted m refs u :
  counted m refs →
  counted (arc_new u m).2 (next m :: refs) ∧ arc_deref (next m) (arc_new u m).2 = Some u ∧
  ∀ x, x ∈ refs → arc_deref x (arc_new u m).2 = arc_deref x m.
Proof.
  intros [H1 H2 H3]. assert (Hn : occ (next m) refs = 0).
  { apply occ_zero. intros ?%H3. lia. }
  split_and!.
  - split; simpl.
    + intros a. rewrite occ_cons /ref_count /=. case_decide; subst.
      * by rewrite lookup_insert_eq Hn.
      * rewrite lookup_insert_ne //. apply H1.
    + intros a e. rewrite lookup_insert_Some. intros [[_ <-]|[_ ?]]; [simpl; lia|eauto].
    + intros a [->|?%H3]%elem_of_cons; lia.
  - by rewrite /arc_deref /= lookup_insert_eq.
  - intros x ?%H3. rewrite /arc_deref /= lookup_insert_ne //. lia.
Qed.

Lemma arc_clone_counted m refs a :
  counted m refs → a ∈ refs →
  counted (arc_clone a m) (a :: refs) ∧ ∀ x, arc_deref x (arc_clone a m) = arc_deref x m.
Proof.
  intros Hc Ha. pose proof (proj2 (counted_deref _ _ a Hc) Ha) as [u Hu].
  destruct Hc as [H1 H2 H3]. rewrite /arc_deref fmap_Some in Hu.
  destruct Hu as ([u' n] & Hl & ->). split; [split; simpl|].
  - intros x. rewrite occ_cons -H1 /ref_count /=. case_decide; subst.
    + by rewrite lookup_alter_eq Hl.
    + by rewrite lookup_alter_ne.
  - intros x e. rewrite lookup_alter_Some. intros [(<- & [? ?] & ? & ->)|[_ ?]]; [simpl; lia|eauto].
  - intros x [->|?]%elem_of_cons; auto.
  - intros x. rewrite /arc_deref /=. destruct (decide (x = a)) as [->|].
    + by rewrite lookup_alter_eq Hl.
    + by rewrite lookup_alter_ne.
Qed.

Lemma arc_drop_counted m refs a :
  counted m (a :: refs) →
  counted (arc_drop a m) refs ∧ ∀ x, x ∈ refs → arc_deref x (arc_drop a m) = arc_deref x m.
Proof.
  intros [H1 H2 H3]. pose proof (H1 a) as Ha. rewrite occ_cons decide_True // /ref_count in Ha.
  rewrite /arc_drop. destruct (arcs m !! a) as [[u [|[|n]]]|] eqn:E; simpl in Ha; try lia.
  - assert (Hn : a ∉ refs) by (apply occ_zero; lia). split; [split; simpl|].
    + intros x. specialize (H1 x). rewrite occ_cons /ref_count in H1 |- *. simpl. case_decide; subst.
      * rewrite lookup_delete_eq /=. by rewrite (proj2 (occ_zero _ _) Hn).
      * by rewrite lookup_delete_ne.
    + intros x e [_ ?]%lookup_delete_Some. eauto.
    + intros x ?. apply H3. by right.
    + intros x Hx. rewrite /arc_deref /= lookup_delete_ne //. by intros ->.
  - split; [split; simpl|].
    + intros x. specialize (H1 x). rewrite occ_cons /ref_count in H1 |- *. simpl. case_decide; subst.
      * rewrite lookup_insert_eq /=. rewrite E /= in H1. lia.
      * by rewrite lookup_insert_ne.
    + intros x e. rewrite lookup_insert_Some. intros [[_ <-]|[_ ?]]; [simpl; lia|eauto].
    + intros x ?. apply H3. by right.
    + intros x Hx. rewrite /arc_deref /=. destruct (decide (x = a)) as [->|].
      * by rewrite lookup_insert_eq E.
      * by rewrite lookup_insert_ne.
Qed.

Lemma arc_get_mut_counted m refs a f m' :
  counted m (a :: refs) → arc_get_mut a f m = Some m' →
  counted m' (a :: refs) ∧ arc_deref a m' = f <$> arc_deref a m ∧
  ∀ x, x ∈ refs → arc_deref x m' = arc_deref x m.
Proof.
  intros [H1 H2 H3]. pose proof (H1 a) as Ha. rewrite occ_cons decide_True // /ref_count in Ha.
  rewrite /arc_get_mut. destruct (arcs m !! a) as [[u [|[|n]]]|] eqn:E; [done| |done|done].
  intros [= <-]. simpl in Ha. split; [split; simpl|split].
  - intros x. rewrite -H1 /ref_count /=. destruct (decide (x = a)) as [->|].
    + by rewrite lookup_insert_eq E.
    + by rewrite lookup_insert_ne.
  - intros x e. rewrite lookup_insert_Some. intros [[_ <-]|[_ ?]]; [simpl; lia|eauto].
  - apply H3.
  - by rewrite /arc_deref /= lookup_insert_eq E.
  - intros x Hx. rewrite /arc_deref /= lookup_insert_ne //.
    intros ->. apply (proj1 (occ_zero x refs)); [lia|done].
Qed.

Lemma reads_mono (m m' : heap) (l : list nat) (us : list T) :
  (∀ x, x ∈ l → arc_deref x m' = arc_deref x m) → Forall2 (reads m) l us → Forall2 (reads m') l us.
Proof.
  intros Hx H. induction H as [|x u l us Hr H IH]; [by constructor|]. constructor.
  - rewrite /reads Hx //. by left.
  - apply IH. intros y ?. apply Hx. by right.
Qed.

Lemma reads_none m l us i : Forall2 (reads m) l us → l !! i = None → us !! i = None.
Proof. intros H%Forall2_length. rewrite !lookup_ge_None. lia. Qed.

Lemma reads_map m l us : Forall2 (reads m) l us → (λ a, arc_deref a m) <$> l = Some <$> us.
Proof. induction 1 as [|x u l us Hr H IH]; [done|]. rewrite !fmap_cons Hr. by f_equal. Qed.

(** ** The simulation *)
Definition sim (w : world) (r : register_world) : Prop :=
  counted (hp (store_of w)) (cells (store_of w) ++ borrows w) ∧
  Forall2 (reads (hp (store_of w))) (cells (store_of w)) (registers r) ∧
  Forall2 (reads (hp (store_of w))) (borrows w) (snapshots r).

Lemma list_insert_mid {A} (l1 l2 : list A) (x y : A) :
  <[length l1 := y]> (l1 ++ x :: l2) = l1 ++ y :: l2.
Proof. induction l1; simpl; by f_equal. Qed.
Lemma list_alter_mid {A} (f : A → A) (l1 l2 : list A) (x : A) :
  alter f (length l1) (l1 ++ x :: l2) = l1 ++ f x :: l2.
Proof. induction l1; [done|]. simpl. by rewrite -IHl1. Qed.
Lemma list_alter_at {A} (f : A → A) (l : list A) (i : nat) (x : A) :
  l !! i = Some x → alter f i l = <[i := f x]> l.
Proof.
  intros (l1 & l2 & -> & ->)%list_elem_of_split_length. by rewrite list_alter_mid list_insert_mid.
Qed.
Lemma list_alter_none {A} (f : A → A) (l : list A) (i : nat) : l !! i = None → alter f i l = l.
Proof.
  revert i. induction l as [|x l IH]; intros [|i]; try done. intros H.
  change (x :: alter f i l = x :: l). by rewrite (IH i H).
Qed.
Lemma list_delete_none {A} (l : list A) (i : nat) : l !! i = None → delete i l = l.
Proof.
  revert i. induction l as [|x l IH]; intros [|i]; try done. intros H.
  change (x :: delete i l = x :: l). by rewrite (IH i H).
Qed.

(** The state around one cell: its address, and the rest of the references. *)
Lemma cell_split w r c a :
  sim w r → cells (store_of w) !! c = Some a →
  ∃ l1 l2 r1 u r2,
    cells (store_of w) = l1 ++ a :: l2 ∧ registers r = r1 ++ u :: r2 ∧
    c = length l1 ∧ c = length r1 ∧ reads (hp (store_of w)) a u ∧
    Forall2 (reads (hp (store_of w))) l1 r1 ∧ Forall2 (reads (hp (store_of w))) l2 r2 ∧
    counted (hp (store_of w)) (a :: (l1 ++ l2) ++ borrows w).
Proof.
  intros (Hc & Hr & Hs) Hl. apply list_elem_of_split_length in Hl as (l1 & l2 & Hl & Hlen).
  rewrite Hl in Hr, Hc. apply Forall2_app_inv_l in Hr as (r1 & r2' & H1 & H2 & Er).
  apply Forall2_cons_inv_l in H2 as (u & r2 & Hu & H2 & ->).
  exists l1, l2, r1, u, r2. split_and!; try done.
  - by rewrite Hlen (Forall2_length _ _ _ H1).
  - eapply counted_perm, Hc. solve_Permutation.
Qed.

(** Replacing the table of a cell by a fresh one, the old reference dropped. *)
Lemma swap_sim w r c a u :
  sim w r → cells (store_of w) !! c = Some a →
  sim (mkWorld (mkMem (arc_drop a (arc_new u (hp (store_of w))).2)
                  (<[c := next (hp (store_of w))]> (cells (store_of w)))) (borrows w))
      (mkRegisters (<[c := u]> (registers r)) (snapshots r)).
Proof.
  intros Hsim Hl. pose proof Hsim as (_ & _ & Hs).
  destruct (cell_split w r c a Hsim Hl) as (l1 & l2 & r1 & v & r2 & El & Er & Hn & Hn' & Hv & H1 & H2 & Hc).
  destruct (arc_new_counted _ _ u Hc) as (Hc1 & Hu & Hold).
  assert (Hc2 : counted (arc_new u (hp (store_of w))).2
                  (a :: next (hp (store_of w)) :: (l1 ++ l2) ++ borrows w)).
  { eapply counted_perm, Hc1. constructor. }
  destruct (arc_drop_counted _ _ a Hc2) as (Hc3 & Hkeep).
  assert (Hm : ∀ x, x ∈ (l1 ++ l2) ++ borrows w →
    arc_deref x (arc_drop a (arc_new u (hp (store_of w))).2) = arc_deref x (hp (store_of w))).
  { intros x Hx. rewrite Hkeep; [|by right]. apply Hold. by right. }
  assert (Hnew : reads (arc_drop a (arc_new u (hp (store_of w))).2) (next (hp (store_of w))) u).
  { rewrite /reads Hkeep //. by left. }
  rewrite /sim /= El Er Hn list_insert_mid -Hn Hn' list_insert_mid. split_and!.
  - eapply counted_perm, Hc3. solve_Permutation.
  - apply Forall2_app; [|constructor; [done|]]; (eapply reads_mono; [|done]); set_solver.
  - eapply reads_mono; [|done]. set_solver.
Qed.

Lemma update_sim w r c a f m :
  sim w r → cells (store_of w) !! c = Some a →
  arc_get_mut a f (hp (store_of w)) = Some m →
  sim (mkWorld (mkMem m (cells (store_of w))) (borrows w))
      (mkRegisters (alter f c (registers r)) (snapshots r)).
Proof.
  intros Hsim Hl Hm. pose proof Hsim as (_ & _ & Hs).
  destruct (cell_split w r c a Hsim Hl) as (l1 & l2 & r1 & v & r2 & El & Er & Hn & Hn' & Hv & H1 & H2 & Hc).
  destruct (arc_get_mut_counted _ _ a f m Hc Hm) as (Hc1 & Hu & Hold).
  rewrite /sim /= El Er Hn' list_alter_mid. split_and!.
  - eapply counted_perm, Hc1. solve_Permutation.
  - apply Forall2_app; [|constructor].
    + eapply reads_mono; [|done]. set_solver.
    + by rewrite /reads Hu Hv.
    + eapply reads_mono; [|done]. set_solver.
  - eapply reads_mono; [|done]. set_solver.
Qed.

Lemma step_sim w r o : sim w r → sim (step w o) (spec_step r o).
Proof.
  intros Hsim. pose proof Hsim as (Hc & Hr & Hs).
  destruct o as [u|c|i|c u|c f]; simpl.
  - destruct (arc_new_counted _ _ u Hc) as (Hc1 & Hu & Hold). split_and!; simpl.
    + eapply counted_perm, Hc1. solve_Permutation.
    + apply Forall2_app; [|by repeat constructor]. eapply reads_mono; [|done]. set_solver.
    + eapply reads_mono; [|done]. set_solver.
  - rewrite /load. destruct (cells (store_of w) !! c) as [a|] eqn:E; simpl.
    + destruct (Forall2_lookup_l _ _ _ _ _ Hr E) as (u & -> & Hu).
      destruct (arc_clone_counted _ _ a Hc) as (Hc1 & Hold).
      { apply elem_of_app. left. by eapply list_elem_of_lookup_2. }
      split_and!; simpl.
      * eapply counted_perm, Hc1. solve_Permutation.
      * eapply reads_mono; [|done]. auto.
      * constructor; [by rewrite /reads Hold|]. eapply reads_mono; [|done]. auto.
    + by rewrite (reads_none _ _ _ _ Hr E).
  - destruct (borrows w !! i) as [a|] eqn:E; simpl.
    + pose proof (delete_Permutation _ _ _ E) as Hp.
      destruct (arc_drop_counted (hp (store_of w)) (cells (store_of w) ++ delete i (borrows w)) a)
        as (Hc1 & Hold).
      { eapply counted_perm, Hc. rewrite {1}Hp. solve_Permutation. }
      split_and!; simpl; [done| |].
      * eapply reads_mono; [|done]. set_solver.
      * eapply reads_mono; [|by apply Forall2_delete]. set_solver.
    + rewrite list_delete_none //. by rewrite (reads_none _ _ _ _ Hs E).
  - rewrite /store. destruct (cells (store_of w) !! c) as [a|] eqn:E; [by apply swap_sim|].
    rewrite list_insert_ge; [by destruct w, r|].
    apply lookup_ge_None. by apply (reads_none _ _ _ _ Hr).
  - rewrite /update_with. destruct (cells (store_of w) !! c) as [a|] eqn:E; last first.
    { rewrite list_alter_none; [by destruct w, r|]. by apply (reads_none _ _ _ _ Hr). }
    destruct (arc_get_mut a f (hp (store_of w))) as [m|] eqn:Em; [by eapply update_sim|].
    destruct (Forall2_lookup_l _ _ _ _ _ Hr E) as (u & Hu & Hd). rewrite Hd /=.
    assert (alter f c (registers r) = <[c := f u]> (registers r)) as ->.
    { by apply list_alter_at. }
    by apply swap_sim.
Qed.

Lemma run_sim ops : sim (run ops) (spec_run ops).
Proof.
  rewrite /run /spec_run. assert (Hs : sim (mkWorld empty_mem []) (mkRegisters [] [])).
  { split_and!; [|constructor..]. split; [done|done|set_solver]. }
  revert Hs. generalize (mkWorld empty_mem []) (mkRegisters [] []).
  induction ops as [|o ops IH]; intros w r Hs; [done|]. apply IH, step_sim, Hs.
Qed.

(** C24: [SharedUsers] is an atomic register with snapshot borrows.  For every
    sequence of creations, loads, drops, stores and in-place or copy-on-write
    updates, every handle reads the last table stored to or updated in its
    container, and every outstanding borrow still reads exactly the table that
    was current when it was taken: no borrower ever sees a partial or a later
    mutation, and no borrow dangles. *)
Theorem shared_users_refines_registers (ops : list op) :
  current_tables (store_of (run ops)) = Some <$> registers (spec_run ops) ∧
  borrowed_tables (run ops) = Some <$> snapshots (spec_run ops).
Proof.
  destruct (run_sim ops) as (_ & Hr & Hs). split; by apply reads_map.
Qed.

Lemma counted_size (m : heap) (refs : list nat) : counted m refs → size (arcs m) ≤ length refs.
Proof.
  intros Hc. rewrite -size_dom. transitivity (size (list_to_set refs : gset nat)).
  - apply subseteq_size. intros a [e He]%elem_of_dom. apply elem_of_list_to_set.
    apply (counted_deref _ _ a Hc). by rewrite /arc_deref He.
  - clear Hc. induction refs as [|a refs IH]; [done|].
    rewrite list_to_set_cons size_union_alt size_singleton /=.
    assert (size (list_to_set refs ∖ {[a]} : gset nat) ≤ size (list_to_set refs : gset nat))
      by (apply subseteq_size; set_solver).
    lia.
Qed.

(** Superseded tables are freed.  After any sequence of operations a table
    is allocated exactly when it is the current table of some container or some
    borrow still holds it, so at most one table per container and one per
    outstanding borrow is resident, however many updates were published. *)
Theorem superseded_tables_are_freed (ops : list op) :
  let w := run ops in
  (∀ a, is_Some (arcs (hp (store_of w)) !! a) ↔ a ∈ cells (store_of w) ∨ a ∈ borrows w) ∧
  size (arcs (hp (store_of w))) ≤ length (cells (store_of w)) + length (borrows w).
Proof.
  intros w. destruct (run_sim ops) as (Hc & _ & _). fold w in Hc. split.
  - intros a. rewrite -elem_of_app -(counted_deref _ _ a Hc) /arc_deref fmap_is_Some //.
  - rewrite -length_app. by apply counted_size.
Qed.

(** ** Racing publishers *)
Definition race_ok (us : list T) (bs : list nat) (r : race) : Prop :=
  Forall (λ p,
    match p with
    | Reading u | Writing u => u ∈ us
    | Storing h u => slot r = Some h ∧ u ∈ us
    | Returned h => slot r = Some h
    end) (threads r) ∧
  ∃ rs, sim (mkWorld (memory r) bs) rs ∧
    ∀ h, slot r = Some h → ∃ u, registers rs !! h = Some u ∧ u ∈ us.

Lemma cells_registers w r : sim w r → length (cells (store_of w)) = length (registers r).
Proof. intros (_ & H & _). by eapply Forall2_length. Qed.

Lemma schedule_step_ok us bs r i : race_ok us bs r → race_ok us bs (schedule_step r i).
Proof.
  intros (Ht & rs & Hs & Hh). rewrite /schedule_step.
  destruct (threads r !! i) as [p|] eqn:E; [|by split; eauto].
  pose proof (Forall_lookup_1 _ _ _ _ Ht E) as Hp. simpl in Hp.
  destruct r as [[h|] s ts]; simpl in *.
  - destruct p as [u|u|h' u|h']; simpl; try (split; simpl; [by apply Forall_insert|eauto]).
    destruct Hp as [[= <-] Hu]. split; simpl; [by apply Forall_insert|].
    eexists. split; [exact (step_sim _ _ (Store h u) Hs)|]. intros ? [= <-]. exists u.
    destruct (Hh h eq_refl) as (v & Hv & _). simpl. split; [|done].
    apply list_lookup_insert_eq. by eapply lookup_lt_Some.
  - destruct p as [u|u|h' u|h']; simpl; [by split; [apply Forall_insert|eauto]| |naive_solver..].
    split; simpl.
    + apply Forall_insert; [|done]. eapply Forall_impl; [exact Ht|]. intros []; naive_solver.
    + eexists. split; [exact (step_sim _ _ (New u) Hs)|]. intros ? [= <-]. exists u.
      apply cells_registers in Hs as Hl. simpl in *. split; [|done].
      by rewrite Hl list_lookup_middle.
Qed.

Lemma schedule_ok us bs order r : race_ok us bs r → race_ok us bs (schedule order r).
Proof.
  revert r. induction order as [|i order IH]; intros r Hr; [done|].
  by apply IH, schedule_step_ok.
Qed.

(** Steps a thread still needs. *)
Definition remaining (p : pc) : nat :=
  match p with Reading _ => 3 | Writing _ => 2 | Storing _ _ => 1 | Returned _ => 0 end.

Lemma thread_step_progress sl s p : remaining (thread_step sl s p).2 ≤ remaining p - 1.
Proof. destruct p, sl; simpl; lia. Qed.

Lemma schedule_step_progress r i j p :
  threads r !! i = Some p →
  ∃ q, threads (schedule_step r j) !! i = Some q ∧
    remaining q ≤ remaining p - (if decide (i = j) then 1 else 0).
Proof.
  intros Hi. rewrite /schedule_step. case_decide as Hij; subst.
  - rewrite Hi. pose proof (thread_step_progress (slot r) (memory r) p) as Hp.
    destruct (thread_step (slot r) (memory r) p) as [[sl s] q]. simpl in *. exists q.
    split; [|done]. apply list_lookup_insert_eq. by eapply lookup_lt_Some.
  - exists p. split; [|lia]. destruct (threads r !! j); [|done].
    destruct (thread_step _ _ _) as [[sl s] q]. simpl. rewrite list_lookup_insert_ne //.
Qed.

Lemma schedule_progress order r i p :
  threads r !! i = Some p →
  ∃ q, threads (schedule order r) !! i = Some q ∧ remaining q ≤ remaining p - occ i order.
Proof.
  revert r p. induction order as [|j order IH]; intros r p Hi.
  - exists p. split; [done|]. change (occ i []) with 0. lia.
  - destruct (schedule_step_progress r i j p Hi) as (q & Hq & Hle).
    destruct (IH _ q Hq) as (q' & Hq' & Hle'). exists q'. split; [done|].
    rewrite occ_cons. lia.
Qed.

(** Racing publishers share one handle.  Whatever tables and borrows exist
    and however the threads that publish the tables [us] into an empty slot are
    interleaved, a thread that has returned holds the handle in the slot, the
    container behind it reads one of the published tables, and every thread
    that is scheduled three times has returned. *)
Theorem racing_publishers_share_one_handle (ops : list op) (us : list T) (order : list nat) :
  let r := schedule order (mkRace None (store_of (run ops)) (Reading <$> us)) in
  (∀ i h, threads r !! i = Some (Returned h) →
     slot r = Some h ∧ ∃ u, u ∈ us ∧ with_current h id (memory r) = Some u) ∧
  (∀ i, i < length us → 3 ≤ occ i order → ∃ h, threads r !! i = Some (Returned h)).
Proof.
  intros r. assert (Hr : race_ok us (borrows (run ops)) r).
  { apply schedule_ok. split; simpl.
    - apply Forall_fmap, Forall_forall. intros u Hu. exact Hu.
    - exists (spec_run ops). split; [|done]. pose proof (run_sim ops). by destruct (run ops). }
  split.
  - intros i h Hi. destruct Hr as (Ht & rs & Hs & Hh).
    pose proof (Forall_lookup_1 _ _ _ _ Ht Hi) as Hp. simpl in Hp. split; [done|].
    destruct (Hh h Hp) as (u & Hu & Hin). exists u. split; [done|].
    destruct Hs as (_ & Hc & _). destruct (Forall2_lookup_r _ _ _ _ _ Hc Hu) as (a & Ha & Hd).
    simpl in Ha, Hd. by rewrite /with_current Ha /= Hd.
  - intros i Hi H3. destruct (lookup_lt_is_Some_2 us i Hi) as [u Hu].
    destruct (schedule_progress order (mkRace None (store_of (run ops)) (Reading <$> us)) i (Reading u))
      as (q & Hq & Hle); [by rewrite /= list_lookup_fmap Hu|].
    exists (match q with Returned h => h | _ => 0 end). rewrite Hq. simpl in Hle.
    destruct q; simpl in Hle; try lia. done.
Qed.

End shared.
Arguments heap : clear implicits.
Arguments mem : clear implicits.
Arguments world : clear implicits.
Arguments op : clear implicits.
Arguments pc : clear implicits.
Arguments race : clear implicits.
Arguments register_world : clear implicits.
End Shared.
