(* ===== verification/UserTables.v ===== *)
(** * Per-node user tables and their transactions ([src/v2board/user_tables.rs])

    A node keeps one slot per protocol and the Shadowsocks replay checker.  A
    publication either takes effect at once or is collected in a transaction
    that is committed after the candidate listeners passed their health gate.
    The eight slots differ in the type of table only, so they are indexed by
    the protocol and [T] is the sum of the table types; containers and their
    locks are those of [SharedUsers.v], the replay checker is that of
    [SaltChecker.v].  Shown: publications, transactions, deltas and borrows
    implement a map from protocols to tables, and every handle a listener was
    given by an effective publication stays the one the control plane updates. *)
From S2P Require Import Prelude SharedUsers SaltChecker.
From stdpp Require Import ssreflect.

Module UserTables.
Import Shared.

Inductive protocol :=
  Shadowsocks | Vless | Vmess | Trojan | AnyTls | Tuic | Hysteria2 | NaiveProxy.

#[global] Instance protocol_eq_dec : EqDecision protocol.
Proof. solve_decision. Defined.

(** The order in which a commit visits the slots. *)
Definition protocols : list protocol :=
  [Shadowsocks; Vless; Vmess; Trojan; AnyTls; Tuic; Hysteria2; NaiveProxy].

Definition protocol_index (p : protocol) : nat :=
  match p with
  | Shadowsocks => 0 | Vless => 1 | Vmess => 2 | Trojan => 3
  | AnyTls => 4 | Tuic => 5 | Hysteria2 => 6 | NaiveProxy => 7
  end.

#[global] Instance protocol_countable : Countable protocol.
Proof.
  refine (inj_countable protocol_index (λ n, protocols !! n) _). by intros [].
Defined.

Definition SALT_REPLAY_WINDOW_SECS : Z := 390.
Definition new_shared_salt_checker : Salt.TimedSaltChecker := Salt.new SALT_REPLAY_WINDOW_SECS.

Section tables.
Context {T : Type}.

(** [NodeUserTables]: the slots behind the shared [Arc], with the memory their
    handles point into; a replay checker handle is an index of [checkers]. *)
Record NodeUserTables := mkNode {
  memory : mem T;
  slots : gmap protocol nat;
  salt_checker : option nat;
  checkers : list Salt.TimedSaltChecker }.

Definition default_tables : NodeUserTables := mkNode empty_mem ∅ None [].

Definition with_memory (s : mem T) (n : NodeUserTables) : NodeUserTables :=
  mkNode s (slots n) (salt_checker n) (checkers n).

(** ** [TableSlot] *)
Definition slot_get (p : protocol) (n : NodeUserTables) : option nat := slots n !! p.

Definition slot_set (p : protocol) (shared : nat) (n : NodeUserTables) : NodeUserTables :=
  mkNode (memory n) (<[p := shared]> (slots n)) (salt_checker n) (checkers n).

Definition table_publish (p : protocol) (users : T) (n : NodeUserTables)
    : nat * NodeUserTables :=
  match slot_get p n with
  | Some shared => (shared, with_memory (store shared users (memory n)) n)
  | None =>
      let '(shared, s) := new users (memory n) in
      (shared, slot_set p shared (with_memory s n))
  end.

Record PreparedTable := mkPrepared { shared : nat; pending : option T; install : bool }.

Definition prepare (p : protocol) (users : T) (n : NodeUserTables)
    : PreparedTable * NodeUserTables :=
  match slot_get p n with
  | Some shared => (mkPrepared shared (Some users) false, n)
  | None =>
      let '(shared, s) := new users (memory n) in
      (mkPrepared shared None true, with_memory s n)
  end.

Definition slot_install (p : protocol) (shared : nat) (n : NodeUserTables) : NodeUserTables :=
  match slot_get p n with
  | None => slot_set p shared n
  | Some _ => n
  end.

Definition commit_table (p : protocol) (prepared : option PreparedTable) (n : NodeUserTables)
    : NodeUserTables :=
  match prepared with
  | None => n
  | Some prepared =>
      if install prepared then
        let n :=
          match pending prepared with
          | Some users => with_memory (store (shared prepared) users (memory n)) n
          | None => n
          end in
        slot_install p (shared prepared) n
      else
        match pending prepared with
        | Some users => with_memory (store (shared prepared) users (memory n)) n
        | None => n
        end
  end.

(** ** [NodeUserTablesTxn] *)
Record NodeUserTablesTxn := mkTxn {
  tables : NodeUserTables;
  pending_tables : gmap protocol PreparedTable }.

Definition transaction (n : NodeUserTables) : NodeUserTablesTxn := mkTxn n ∅.

Definition txn_publish (p : protocol) (users : T) (t : NodeUserTablesTxn)
    : nat * NodeUserTablesTxn :=
  match pending_tables t !! p with
  | Some existing =>
      (shared existing,
       mkTxn (tables t)
         (<[p := mkPrepared (shared existing) (Some users) (install existing)]>
            (pending_tables t)))
  | None =>
      let '(prepared, n) := prepare p users (tables t) in
      (shared prepared, mkTxn n (<[p := prepared]> (pending_tables t)))
  end.

Definition commit (t : NodeUserTablesTxn) : NodeUserTables :=
  foldl (λ n p, commit_table p (pending_tables t !! p) n) (tables t) protocols.

Definition abort (t : NodeUserTablesTxn) : NodeUserTables := tables t.

(** [OnceLock::get_or_init]. *)
Definition shadowsocks_salt_checker (n : NodeUserTables) : nat * NodeUserTables :=
  match salt_checker n with
  | Some i => (i, n)
  | None =>
      let i := length (checkers n) in
      (i, mkNode (memory n) (slots n) (Some i) (checkers n ++ [new_shared_salt_checker]))
  end.

Definition is_published (n : NodeUserTables) : bool :=
  existsb (λ p, bool_decide (is_Some (slot_get p n))) protocols.

(** ** [UserTableSink]: what the protocol builders publish through *)
Class UserTableSink (S : Type) := {
  publish : protocol → T → S → nat * S;
  sink_shadowsocks : S → option nat;
  sink_salt_checker : S → nat * S }.

#[global] Instance node_sink : UserTableSink NodeUserTables := {|
  publish := table_publish;
  sink_shadowsocks := slot_get Shadowsocks;
  sink_salt_checker := shadowsocks_salt_checker |}.

#[global] Instance txn_sink : UserTableSink NodeUserTablesTxn := {|
  publish := txn_publish;
  sink_shadowsocks := λ t, slot_get Shadowsocks (tables t);
  sink_salt_checker := λ t,
    let '(i, n) := shadowsocks_salt_checker (tables t) in (i, mkTxn n (pending_tables t)) |}.

(** A builder publishes a list of tables and keeps the handles. *)
Fixpoint publish_all {S} `{UserTableSink S} (l : list (protocol * T)) (s : S)
    : list (protocol * nat) * S :=
  match l with
  | [] => ([], s)
  | (p, users) :: l =>
      let '(h, s) := publish p users s in
      let '(hs, s) := publish_all l s in
      ((p, h) :: hs, s)
  end.

(** ** Traces of one node: builds (immediate, committed or aborted), user
    deltas through a published handle, and handshakes borrowing a table *)
Inductive node_op :=
| Build (l : list (protocol * T))
| Transact (l : list (protocol * T)) (healthy : bool)
| Delta (p : protocol) (update : T → T)
| Borrow (p : protocol)
| Release (i : nat).

Record node_world := mkNodeWorld {
  node : NodeUserTables;
  held : list nat;
  handed : list (protocol * nat) }.

Definition on_memory (w : node_world) (o : op T) : node_world :=
  let w' := step (mkWorld (memory (node w)) (held w)) o in
  mkNodeWorld (with_memory (store_of w') (node w)) (borrows w') (handed w).

Definition node_step (w : node_world) (o : node_op) : node_world :=
  match o with
  | Build l =>
      let '(hs, n) := publish_all l (node w) in mkNodeWorld n (held w) (handed w ++ hs)
  | Transact l healthy =>
      let '(hs, t) := publish_all l (transaction (node w)) in
      if healthy then mkNodeWorld (commit t) (held w) (handed w ++ hs)
      else mkNodeWorld (abort t) (held w) (handed w)
  | Delta p f =>
      match slot_get p (node w) with
      | Some h => on_memory w (UpdateWith h f)
      | None => w
      end
  | Borrow p =>
      match slot_get p (node w) with
      | Some h => on_memory w (Load h)
      | None => w
      end
  | Release i => on_memory w (DropBorrow i)
  end.
Definition node_run : list node_op → node_world :=
  foldl node_step (mkNodeWorld default_tables [] []).

(** What a handshake for protocol [p] reads. *)
Definition table_of (n : NodeUserTables) (p : protocol) : option T :=
  h ← slot_get p n; with_current h id (memory n).

(** ** The specification: a map of tables *)
Definition publish_tables (l : list (protocol * T)) (ts : gmap protocol T) : gmap protocol T :=
  foldl (λ ts '(p, u), <[p := u]> ts) ts l.

Definition spec_node_step (ts : gmap protocol T) (o : node_op) : gmap protocol T :=
  match o with
  | Build l => publish_tables l ts
  | Transact l healthy => if healthy then publish_tables l ts else ts
  | Delta p f => alter f p ts
  | Borrow _ | Release _ => ts
  end.
Definition spec_node_run : list node_op → gmap protocol T := foldl spec_node_step ∅.

(** ** The invariant of a transaction in flight; a node is one with nothing
    pending.  [handle] is the container a protocol has or will have, [eventual]
    the table it reads once the transaction is committed. *)
Definition handle (t : NodeUserTablesTxn) (p : protocol) : option nat :=
  match slots (tables t) !! p with
  | Some h => Some h
  | None => shared <$> pending_tables t !! p
  end.

Definition eventual (rs : list T) (t : NodeUserTablesTxn) (p : protocol) : option T :=
  match pending_tables t !! p with
  | Some e => match pending e with Some u => Some u | None => rs !! shared e end
  | None => h ← slots (tables t) !! p; rs !! h
  end.

Record txn_ok (bs : list nat) (sn rs : list T) (t : NodeUserTablesTxn) : Prop := {
  ok_sim : sim (mkWorld (memory (tables t)) bs) (mkRegisters rs sn);
  ok_valid : ∀ p h, handle t p = Some h → is_Some (rs !! h);
  ok_pending : ∀ p e, pending_tables t !! p = Some e →
    if install e then slots (tables t) !! p = None
    else slots (tables t) !! p = Some (shared e) ∧ is_Some (pending e);
  ok_inj : ∀ p q h, handle t p = Some h → handle t q = Some h → p = q }.

Lemma with_current_register bs sn rs (s : mem T) (h : nat) :
  sim (mkWorld s bs) (mkRegisters rs sn) → with_current h id s = rs !! h.
Proof.
  intros (_ & H & _). simpl in H. rewrite /with_current.
  destruct (cells s !! h) as [a|] eqn:E; simpl.
  - destruct (Forall2_lookup_l _ _ _ _ _ H E) as (u & -> & Hu). by rewrite Hu.
  - by rewrite (reads_none _ _ _ _ H E).
Qed.

Lemma table_of_register bs sn rs t p :
  txn_ok bs sn rs t → table_of (tables t) p = h ← slots (tables t) !! p; rs !! h.
Proof.
  intros Hok. rewrite /table_of /slot_get. destruct (slots (tables t) !! p); [|done]. simpl.
  eapply with_current_register, ok_sim, Hok.
Qed.

Lemma handle_pending bs sn rs t p e :
  txn_ok bs sn rs t → pending_tables t !! p = Some e → handle t p = Some (shared e).
Proof.
  intros Hok He. pose proof (ok_pending _ _ _ _ Hok p e He) as H. rewrite /handle.
  destruct (install e); [by rewrite H He|by destruct H as [-> _]].
Qed.

(** Storing into a container that only protocol [p] refers to. *)
Lemma store_sim bs sn rs (s : mem T) (h : nat) (u : T) :
  sim (mkWorld s bs) (mkRegisters rs sn) →
  sim (mkWorld (store h u s) bs) (mkRegisters (<[h := u]> rs) sn).
Proof. exact (step_sim _ _ (Store h u)). Qed.

Lemma new_sim bs sn rs (s : mem T) (u : T) :
  sim (mkWorld s bs) (mkRegisters rs sn) →
  (new u s).1 = length rs ∧ sim (mkWorld (new u s).2 bs) (mkRegisters (rs ++ [u]) sn).
Proof.
  intros H. split; [|exact (step_sim _ _ (New u) H)].
  apply cells_registers in H. exact H.
Qed.

Lemma lookup_app_old (rs : list T) (u : T) (h : nat) :
  is_Some (rs !! h) → (rs ++ [u]) !! h = rs !! h.
Proof. intros H%lookup_lt_is_Some_1. by apply lookup_app_l. Qed.

(** What one publication does to the abstract view. *)
Definition publishes (p : protocol) (u : T) (h : nat) (rs rs' : list T)
    (t t' : NodeUserTablesTxn) : Prop :=
  handle t' p = Some h ∧
  (∀ q h', handle t q = Some h' → handle t' q = Some h') ∧
  (∀ q, eventual rs' t' q = if decide (q = p) then Some u else eventual rs t q).

(** A candidate for a protocol that already has a container. *)
Lemma pend_ok bs sn rs t p u e :
  txn_ok bs sn rs t → handle t p = Some (shared e) → pending e = Some u →
  (if install e then slots (tables t) !! p = None
   else slots (tables t) !! p = Some (shared e)) →
  txn_ok bs sn rs (mkTxn (tables t) (<[p := e]> (pending_tables t))) ∧
  publishes p u (shared e) rs rs t (mkTxn (tables t) (<[p := e]> (pending_tables t))).
Proof.
  intros Hok Hh Hp Hi. set (t' := mkTxn _ _).
  assert (Hsame : ∀ q, handle t' q = handle t q).
  { intros q. destruct (decide (q = p)) as [->|Hq]; rewrite {1}/handle /=.
    - rewrite Hh lookup_insert_eq. destruct (slots (tables t) !! p) eqn:E; [|done].
      by destruct (install e); simplify_eq.
    - by rewrite lookup_insert_ne. }
  split; [split|split_and!].
  - apply Hok.
  - intros q h. rewrite Hsame. apply Hok.
  - intros q e' He'. simpl in *. apply lookup_insert_Some in He' as [[<- <-]|[_ He']].
    + destruct (install e); eauto.
    + by eapply ok_pending.
  - intros q q' h. rewrite !Hsame. apply Hok.
  - by rewrite Hsame.
  - intros q h'. by rewrite Hsame.
  - intros q. rewrite /eventual /=. case_decide as Hq; subst.
    + by rewrite lookup_insert_eq Hp.
    + by rewrite lookup_insert_ne.
Qed.

(** A new container for a protocol that has none, candidate or installed. *)
Lemma fresh_ok bs sn rs t p u n' pd' :
  txn_ok bs sn rs t → handle t p = None →
  memory n' = (new u (memory (tables t))).2 →
  (∀ q, q ≠ p → slots n' !! q = slots (tables t) !! q ∧ pd' !! q = pending_tables t !! q) →
  (slots n' !! p = None ∧ pd' !! p = Some (mkPrepared (length rs) None true) ∨
   slots n' !! p = Some (length rs) ∧ pd' !! p = None) →
  txn_ok bs sn (rs ++ [u]) (mkTxn n' pd') ∧
  publishes p u (length rs) rs (rs ++ [u]) t (mkTxn n' pd').
Proof.
  intros Hok Hnone Hm Hq Hp. set (t' := mkTxn n' pd').
  assert (Hother : ∀ q, q ≠ p → handle t' q = handle t q).
  { intros q Hne. rewrite /handle /=. by destruct (Hq q Hne) as [-> ->]. }
  assert (Hown : handle t' p = Some (length rs)).
  { rewrite /handle /=. by destruct Hp as [[-> ->]|[-> _]]. }
  assert (Hlast : (rs ++ [u]) !! length rs = Some u) by by rewrite list_lookup_middle.
  split; [split|split_and!].
  - rewrite /= Hm. by apply new_sim, Hok.
  - intros q h. destruct (decide (q = p)) as [->|Hne].
    + rewrite Hown. intros [= <-]. by rewrite Hlast.
    + rewrite (Hother q Hne). intros H. rewrite lookup_app_old; by eapply ok_valid.
  - intros q e He. simpl in *. destruct (decide (q = p)) as [->|Hne].
    + destruct Hp as [[-> Hpd]|[_ Hpd]]; rewrite Hpd in He; by simplify_eq.
    + destruct (Hq q Hne) as [Hs Hd]. rewrite Hs. rewrite Hd in He. by eapply ok_pending.
  - assert (Hfresh : ∀ q, q ≠ p → handle t' q ≠ Some (length rs)).
    { intros q Hne. rewrite (Hother q Hne). intros [x Hx]%(ok_valid _ _ _ _ Hok).
      apply lookup_lt_Some in Hx. lia. }
    intros q q' h H1 H2. destruct (decide (q = p)) as [->|Hne], (decide (q' = p)) as [->|Hne'].
    + done.
    + exfalso. apply (Hfresh q' Hne'). congruence.
    + exfalso. apply (Hfresh q Hne). congruence.
    + rewrite Hother // in H1. rewrite Hother // in H2. by eapply ok_inj.
  - done.
  - intros q h' H. rewrite Hother //. intros ->. congruence.
  - intros q. rewrite /eventual /=. case_decide as Hne; subst.
    + destruct Hp as [[_ ->]|[-> ->]]; exact Hlast.
    + destruct (Hq q Hne) as [-> ->]. destruct (pending_tables t !! q) as [e|] eqn:E.
      * destruct (pending e); [done|]. apply lookup_app_old.
        eapply ok_valid, handle_pending; done.
      * destruct (slots (tables t) !! q) as [h|] eqn:Es; [|done]. simpl.
        apply lookup_app_old. apply (ok_valid _ _ _ _ Hok q). by rewrite /handle Es.
Qed.

Lemma txn_publish_ok bs sn rs t p u h t' :
  txn_ok bs sn rs t → txn_publish p u t = (h, t') →
  ∃ rs', txn_ok bs sn rs' t' ∧ publishes p u h rs rs' t t' ∧
    slots (tables t') = slots (tables t) ∧
    ∀ q, table_of (tables t') q = table_of (tables t) q.
Proof.
  intros Hok. rewrite /txn_publish.
  destruct (pending_tables t !! p) as [e|] eqn:E; [|rewrite /prepare /slot_get;
    destruct (slots (tables t) !! p) as [h0|] eqn:Es].
  - intros [= <- <-]. exists rs. pose proof (ok_pending _ _ _ _ Hok p e E) as Hi.
    destruct (pend_ok bs sn rs t p u (mkPrepared (shared e) (Some u) (install e))) as [H1 H2];
      [done|exact (handle_pending _ _ _ _ _ _ Hok E)|done|by simpl; destruct (install e); naive_solver|].
    done.
  - intros [= <- <-]. exists rs.
    destruct (pend_ok bs sn rs t p u (mkPrepared h0 (Some u) false)) as [H1 H2];
      [done|by rewrite /handle Es|done|done|]. done.
  - destruct (new_sim _ _ _ _ u (ok_sim _ _ _ _ Hok)) as [Hlen _].
    destruct (new u (memory (tables t))) as [h0 s] eqn:En. simpl in Hlen. subst h0.
    intros [= <- <-]. exists (rs ++ [u]).
    destruct (fresh_ok bs sn rs t p u (with_memory s (tables t))
      (<[p := mkPrepared (length rs) None true]> (pending_tables t))) as [H1 H2]; try done.
    + by rewrite /handle Es E.
    + by rewrite En.
    + intros q Hne. by rewrite lookup_insert_ne.
    + left. by rewrite lookup_insert_eq.
    + split_and!; try done. intros q.
      rewrite (table_of_register _ _ _ _ q Hok) (table_of_register _ _ _ _ q H1) /=.
      destruct (slots (tables t) !! q) as [h'|] eqn:Eq; [|done]. simpl.
      apply lookup_app_old, (ok_valid _ _ _ _ Hok q). by rewrite /handle Eq.
Qed.

(** A commit does not change the abstract view of a transaction. *)
Definition same_view (rs rs' : list T) (t t' : NodeUserTablesTxn) : Prop :=
  (∀ q, handle t' q = handle t q) ∧ (∀ q, eventual rs' t' q = eventual rs t q).

Lemma settle_ok bs sn rs t p e n' :
  txn_ok bs sn rs t → pending_tables t !! p = Some e →
  memory n' = match pending e with
              | Some u => store (shared e) u (memory (tables t))
              | None => memory (tables t)
              end →
  slots n' = <[p := shared e]> (slots (tables t)) →
  let t' := mkTxn n' (delete p (pending_tables t)) in
  ∃ rs', txn_ok bs sn rs' t' ∧ same_view rs rs' t t'.
Proof.
  intros Hok He Hm Hs t'. pose proof (handle_pending _ _ _ _ _ _ Hok He) as Hh.
  set (rs' := match pending e with Some u => <[shared e := u]> rs | None => rs end).
  assert (Hv : ∀ h, is_Some (rs' !! h) ↔ is_Some (rs !! h)).
  { intros h. rewrite /rs' !lookup_lt_is_Some. by destruct (pending e); rewrite ?length_insert. }
  assert (Hother : ∀ h, h ≠ shared e → rs' !! h = rs !! h).
  { intros h Hne. rewrite /rs'. destruct (pending e); [|done]. by rewrite list_lookup_insert_ne. }
  assert (Hsame : ∀ q, handle t' q = handle t q).
  { intros q. destruct (decide (q = p)) as [->|Hq]; rewrite {1}/handle /= Hs.
    - by rewrite lookup_insert_eq.
    - by rewrite lookup_insert_ne // lookup_delete_ne. }
  assert (Hne : ∀ q h, q ≠ p → handle t q = Some h → h ≠ shared e).
  { intros q h Hq Hqh ->. by apply Hq, (ok_inj _ _ _ _ Hok q p (shared e)). }
  exists rs'. split; [split|split; [done|]].
  - rewrite /rs' /= Hm. destruct (pending e); [apply store_sim|]; apply Hok.
  - intros q h. rewrite Hsame Hv. apply Hok.
  - intros q e' He'. simpl in He'. apply lookup_delete_Some in He' as [Hq He']. rewrite /= Hs lookup_insert_ne //.
    by eapply ok_pending.
  - intros q q' h. rewrite !Hsame. apply Hok.
  - intros q. rewrite /eventual /= Hs. destruct (decide (q = p)) as [->|Hq].
    + rewrite lookup_insert_eq lookup_delete_eq He /= /rs'. destruct (pending e); [|done].
      apply list_lookup_insert_eq. eapply lookup_lt_is_Some, ok_valid; done.
    + rewrite lookup_insert_ne // lookup_delete_ne //.
      destruct (pending_tables t !! q) as [e'|] eqn:Eq.
      * destruct (pending e'); [done|]. apply Hother, (Hne q); [done|]. by eapply handle_pending.
      * destruct (slots (tables t) !! q) as [h|] eqn:Es; [|done]. apply Hother, (Hne q); [done|].
        by rewrite /handle Es.
Qed.

Lemma commit_table_ok bs sn rs t p :
  txn_ok bs sn rs t →
  let t' := mkTxn (commit_table p (pending_tables t !! p) (tables t))
              (delete p (pending_tables t)) in
  ∃ rs', txn_ok bs sn rs' t' ∧ same_view rs rs' t t'.
Proof.
  intros Hok. simpl. destruct (pending_tables t !! p) as [e|] eqn:He; simpl.
  - apply (settle_ok _ _ _ _ p e); [done..| |]; pose proof (ok_pending _ _ _ _ Hok p e He) as Hi;
      destruct (install e); destruct (pending e); rewrite /slot_install /slot_get /= ?Hi //;
      destruct Hi as [Hi Hu]; [|by destruct Hu]; by rewrite insert_id.
  - exists rs. rewrite delete_id //. by destruct t.
Qed.

Lemma lookup_deleted {A} (m : gmap protocol A) (ps : list protocol) q :
  q ∈ ps → foldr delete m ps !! q = None.
Proof.
  induction ps as [|p ps IH]; intros Hin; [set_solver|]. simpl.
  destruct (decide (q = p)) as [->|Hq]; [by rewrite lookup_delete_eq|].
  rewrite lookup_delete_ne //. apply IH. set_solver.
Qed.

Lemma lookup_not_deleted {A} (m : gmap protocol A) (ps : list protocol) q :
  q ∉ ps → foldr delete m ps !! q = m !! q.
Proof.
  induction ps as [|p ps IH]; intros Hin; [done|]. simpl.
  rewrite lookup_delete_ne; [apply IH|]; set_solver.
Qed.

Lemma commit_fold_ok bs sn ps rs t :
  NoDup ps → txn_ok bs sn rs t →
  let n := foldl (λ n p, commit_table p (pending_tables t !! p) n) (tables t) ps in
  let t' := mkTxn n (foldr delete (pending_tables t) (reverse ps)) in
  ∃ rs', txn_ok bs sn rs' t' ∧ same_view rs rs' t t'.
Proof.
  induction ps as [|p ps IH] using rev_ind; intros Hnd Hok; simpl.
  { exists rs. by destruct t. }
  apply NoDup_app in Hnd as (Hnd & Hnew & _).
  destruct (IH Hnd Hok) as (rs1 & Hok1 & Hh1 & He1).
  rewrite foldl_app reverse_app reverse_singleton /=.
  destruct (commit_table_ok _ _ _ _ p Hok1) as (rs2 & Hok2 & Hh2 & He2). simpl in *.
  rewrite lookup_not_deleted in Hok2, Hh2, He2; last first.
  { rewrite elem_of_reverse. intros ?%Hnew. set_solver. }
  exists rs2. split; [done|]. split; intros q; [by rewrite Hh2 Hh1|by rewrite He2 He1].
Qed.

Lemma protocols_all p : p ∈ protocols.
Proof. destruct p; compute_done. Qed.

Lemma commit_ok bs sn rs t :
  txn_ok bs sn rs t →
  ∃ rs', txn_ok bs sn rs' (transaction (commit t)) ∧ same_view rs rs' t (transaction (commit t)).
Proof.
  intros Hok. destruct (commit_fold_ok bs sn protocols rs t) as (rs' & Hok' & Hv); [|done|].
  { compute_done. }
  exists rs'. rewrite /transaction /commit.
  assert (foldr delete (pending_tables t) (reverse protocols) = ∅) as E.
  { apply map_eq. intros p. rewrite lookup_deleted ?lookup_empty //.
    apply elem_of_reverse, protocols_all. }
  simpl in *. by rewrite E in Hok', Hv.
Qed.

(** ** What a sink promises to the builders that publish through it *)
Class SinkLaws (S : Type) `{UserTableSink S} := {
  view : S → NodeUserTablesTxn;
  publish_ok : ∀ bs sn rs s p u h s',
    txn_ok bs sn rs (view s) → publish p u s = (h, s') →
    ∃ rs', txn_ok bs sn rs' (view s') ∧ publishes p u h rs rs' (view s) (view s') }.

#[global] Program Instance txn_sink_laws : SinkLaws NodeUserTablesTxn := {| view := id |}.
Next Obligation.
  intros bs sn rs t p u h t' Hok Hp.
  destruct (txn_publish_ok _ _ _ _ _ _ _ _ Hok Hp) as (rs' & H1 & H2 & _). eauto.
Qed.

#[global] Program Instance node_sink_laws : SinkLaws NodeUserTables := {| view := transaction |}.
Next Obligation.
  intros bs sn rs n p u h n' Hok Hp. simpl in Hp. revert Hp. rewrite /table_publish /slot_get.
  destruct (slots n !! p) as [h0|] eqn:Es.
  - intros [= <- <-].
    destruct (pend_ok bs sn rs (transaction n) p u (mkPrepared h0 (Some u) false))
      as [Hok1 (H1 & H2 & H3)]; [done|by rewrite /handle /= Es|done|done|].
    destruct (commit_table_ok _ _ _ _ p Hok1) as (rs' & Hok2 & H4 & H5).
    rewrite /= lookup_insert_eq /= delete_insert_eq delete_empty in Hok2, H4, H5.
    exists rs'. split; [done|]. split_and!; [by rewrite H4| |].
    + intros q h' Hq. rewrite H4. by apply H2.
    + intros q. by rewrite H5.
  - destruct (new_sim _ _ _ _ u (ok_sim _ _ _ _ Hok)) as [Hlen _].
    change (memory (tables (transaction n))) with (memory n) in Hlen.
    destruct (new u (memory n)) as [h0 s] eqn:En. simpl in Hlen. subst h0.
    intros [= <- <-]. exists (rs ++ [u]). apply fresh_ok; try done.
    + by rewrite /handle /= Es lookup_empty.
    + change (s = (new u (memory n)).2). by rewrite En.
    + intros q Hne. by rewrite /= lookup_insert_ne.
    + right. by rewrite /= lookup_insert_eq.
Qed.

Lemma publish_all_ok {S} `{SinkLaws S} bs sn l rs s hs s' (M : gmap protocol T) :
  txn_ok bs sn rs (view s) → publish_all l s = (hs, s') →
  (∀ q, eventual rs (view s) q = M !! q) →
  ∃ rs', txn_ok bs sn rs' (view s') ∧
    (∀ q h, (q, h) ∈ hs → handle (view s') q = Some h) ∧
    (∀ q h, handle (view s) q = Some h → handle (view s') q = Some h) ∧
    (∀ q, eventual rs' (view s') q = publish_tables l M !! q).
Proof.
  revert rs s hs s' M. induction l as [|[p u] l IH]; intros rs s hs s' M Hok; simpl.
  { intros [= <- <-] HM. exists rs. split_and!; [done|set_solver|done|done]. }
  destruct (publish p u s) as [h s1] eqn:Ep. destruct (publish_all l s1) as [hs1 s2] eqn:El.
  intros [= <- <-] HM.
  destruct (publish_ok _ _ _ _ _ _ _ _ Hok Ep) as (rs1 & Hok1 & H1 & H2 & H3).
  destruct (IH rs1 s1 hs1 s2 (<[p := u]> M) Hok1 El) as (rs2 & Hok2 & H4 & H5 & H6).
  { intros q. rewrite H3. destruct (decide (q = p)) as [->|].
    - by rewrite lookup_insert_eq.
    - by rewrite lookup_insert_ne. }
  exists rs2. split_and!; try done.
  - intros q h' [[= -> ->]|Hin]%elem_of_cons; eauto.
  - eauto.
Qed.

(** Publishing through a transaction is invisible. *)
Lemma txn_invisible bs sn l rs t hs t' :
  txn_ok bs sn rs t → publish_all l t = (hs, t') →
  slots (tables t') = slots (tables t) ∧ ∀ q, table_of (tables t') q = table_of (tables t) q.
Proof.
  revert rs t hs t'. induction l as [|[p u] l IH]; intros rs t hs t' Hok; simpl.
  { by intros [= <- <-]. }
  destruct (txn_publish p u t) as [h t1] eqn:Ep. destruct (publish_all l t1) as [hs1 t2] eqn:El.
  intros [= <- <-]. destruct (txn_publish_ok _ _ _ _ _ _ _ _ Hok Ep) as (rs1 & Hok1 & _ & H1 & H2).
  destruct (IH rs1 t1 hs1 t2 Hok1 El) as [H3 H4]. split; [by rewrite H3|].
  intros q. by rewrite H4.
Qed.

(** Aborting keeps the node: only the candidate containers remain, unreferenced. *)
Lemma abort_ok bs sn rs t : txn_ok bs sn rs t → txn_ok bs sn rs (transaction (abort t)).
Proof.
  intros Hok. assert (Hh : ∀ q h, handle (transaction (abort t)) q = Some h → handle t q = Some h).
  { intros q h. rewrite /handle /abort /=. destruct (slots (tables t) !! q); [done|].
    by rewrite lookup_empty. }
  split.
  - apply Hok.
  - intros q h ?%Hh. by eapply ok_valid.
  - intros q e. by rewrite lookup_empty.
  - intros q q' h ?%Hh ?%Hh. by eapply ok_inj.
Qed.

Lemma eventual_node rs n q : eventual rs (transaction n) q = h ← slots n !! q; rs !! h.
Proof. by rewrite /eventual /= lookup_empty. Qed.
Lemma handle_node n q : handle (transaction n) q = slots n !! q.
Proof. rewrite /handle /= lookup_empty. by destruct (slots n !! q). Qed.

(** ** Traces *)
Definition world_ok (w : node_world) (M : gmap protocol T) : Prop :=
  ∃ sn rs, txn_ok (held w) sn rs (transaction (node w)) ∧
    (∀ q, eventual rs (transaction (node w)) q = M !! q) ∧
    (∀ q h, (q, h) ∈ handed w → slots (node w) !! q = Some h).

(** A memory operation that keeps every handle valid and changes the registers
    from [rs] to [rs']. *)
Lemma on_memory_ok w M' o sn rs sn' rs' :
  txn_ok (held w) sn rs (transaction (node w)) →
  (∀ q h, (q, h) ∈ handed w → slots (node w) !! q = Some h) →
  spec_step (mkRegisters rs sn) o = mkRegisters rs' sn' → length rs' = length rs →
  (∀ q, (h ← slots (node w) !! q; rs' !! h) = M' !! q) →
  world_ok (on_memory w o) M'.
Proof.
  intros Hok Hh Ho Hlen HM. pose proof (step_sim _ _ o (ok_sim _ _ _ _ Hok)) as Hs.
  rewrite Ho in Hs. exists sn', rs'. split_and!.
  - split; simpl.
    + simpl in Hs. by destruct (step _ _).
    + intros q h. rewrite handle_node lookup_lt_is_Some Hlen -lookup_lt_is_Some /= -handle_node.
      apply (ok_valid _ _ _ _ Hok q).
    + intros q e. by rewrite lookup_empty.
    + intros q q' h. rewrite !handle_node /= -!handle_node. apply (ok_inj _ _ _ _ Hok).
  - intros q. by rewrite eventual_node.
  - done.
Qed.

Lemma node_step_ok w M o : world_ok w M → world_ok (node_step w o) (spec_node_step M o).
Proof.
  intros (sn & rs & Hok & HM & Hh). destruct o as [l|l healthy|p f|p|i]; simpl.
  - destruct (publish_all l (node w)) as [hs n] eqn:El.
    pose proof (publish_all_ok (S := NodeUserTables) (held w) sn l rs (node w) hs n M) as P.
    destruct (P Hok El HM) as (rs' & Hok' & H1 & H2 & H3).
    exists sn, rs'. split_and!; [done..|]. simpl in *. intros q h [Hin|Hin]%elem_of_app.
    + rewrite -handle_node. apply H2. rewrite handle_node. by apply Hh.
    + rewrite -handle_node. by apply H1.
  - destruct (publish_all l (transaction (node w))) as [hs t] eqn:El.
    pose proof (publish_all_ok (S := NodeUserTablesTxn) (held w) sn l rs
      (transaction (node w)) hs t M) as P.
    destruct (P Hok El HM)
      as (rs1 & Hok1 & H1 & H2 & H3). simpl in *. destruct healthy.
    + destruct (commit_ok _ _ _ _ Hok1) as (rs2 & Hok2 & H4 & H5).
      exists sn, rs2. split_and!; [done| |]; simpl.
      * intros q. by rewrite H5.
      * intros q h [Hin|Hin]%elem_of_app; rewrite -handle_node H4; [|by apply H1].
        apply H2. rewrite handle_node. by apply Hh.
    + destruct (txn_invisible _ _ _ _ _ _ _ Hok El) as [H6 H7].
      exists sn, rs1. split_and!; [by apply abort_ok| |]; simpl.
      * intros q. rewrite eventual_node -HM eventual_node /abort.
        rewrite -(table_of_register _ _ _ _ q Hok1) H7. apply (table_of_register _ _ _ _ q Hok).
      * intros q h Hin. rewrite H6. by apply Hh.
  - rewrite /slot_get. destruct (slots (node w) !! p) as [h|] eqn:Es.
    + eapply on_memory_ok; [done..|by rewrite length_alter|]. intros q. specialize (HM q).
      rewrite eventual_node in HM. destruct (decide (q = p)) as [->|Hq].
      * rewrite Es /= in HM |- *. by rewrite list_lookup_alter_eq lookup_alter_eq HM.
      * rewrite lookup_alter_ne // -HM. destruct (slots (node w) !! q) as [h'|] eqn:Eq; [|done].
        simpl. apply list_lookup_alter_ne. intros ->. apply Hq.
        apply (ok_inj _ _ _ _ Hok q p h'); by rewrite handle_node.
    + exists sn, rs. split_and!; [done| |done]. intros q. rewrite HM.
      destruct (decide (q = p)) as [->|Hq]; [|by rewrite lookup_alter_ne].
      rewrite lookup_alter_eq -HM eventual_node Es. done.
  - rewrite /slot_get. destruct (slots (node w) !! p) as [h|] eqn:Es; [|by exists sn, rs].
    destruct (rs !! h) as [u|] eqn:Eu.
    + eapply on_memory_ok; [done..|by rewrite /= Eu|done|]. intros q. by rewrite -HM eventual_node.
    + eapply on_memory_ok; [done..|by rewrite /= Eu|done|]. intros q. by rewrite -HM eventual_node.
  - eapply on_memory_ok; [done..|]. intros q. by rewrite -HM eventual_node.
Qed.

Lemma node_run_ok ops : world_ok (node_run ops) (spec_node_run ops).
Proof.
  rewrite /node_run /spec_node_run.
  assert (Hok : world_ok (mkNodeWorld default_tables [] []) ∅).
  { exists [], []. split_and!; [split| |]; simpl; [apply (run_sim [])| | | | |set_solver].
    - intros p h. by rewrite handle_node lookup_empty.
    - intros p e. by rewrite lookup_empty.
    - intros p q h. by rewrite handle_node lookup_empty.
    - intros q. by rewrite eventual_node lookup_empty. }
  revert Hok. generalize (mkNodeWorld default_tables [] []) (∅ : gmap protocol T).
  induction ops as [|o ops IH]; intros w M Hok; [done|]. by apply IH, node_step_ok.
Qed.

(** C22: a node's tables are a map.  After any sequence of immediate builds,
    transactions committed or aborted, user deltas, and borrows taken and
    released, what a handshake of each protocol reads is what a plain map of
    tables would hold: a committed transaction publishes exactly its last table
    per protocol, and an aborted one changes nothing. *)
Theorem node_tables_refine_map (ops : list node_op) (p : protocol) :
  table_of (node (node_run ops)) p = spec_node_run ops !! p.
Proof.
  destruct (node_run_ok ops) as (sn & rs & Hok & HM & _).
  rewrite -HM eventual_node. apply (table_of_register _ _ _ _ p Hok).
Qed.

(** C23: listeners never need a rebuild to see their users.  Every handle that
    any effective build gave to a listener, however long ago, is still the one
    in the protocol's slot and reads the protocol's current table. *)
Theorem listeners_follow_updates (ops : list node_op) :
  Forall (λ '(p, h),
    slot_get p (node (node_run ops)) = Some h ∧
    with_current h id (memory (node (node_run ops))) = spec_node_run ops !! p)
    (handed (node_run ops)).
Proof.
  destruct (node_run_ok ops) as (sn & rs & Hok & HM & Hh).
  apply Forall_forall. intros [p h] Hin. specialize (Hh p h Hin). split; [done|].
  rewrite -HM eventual_node Hh /=. exact (with_current_register _ _ _ _ h (ok_sim _ _ _ _ Hok)).
Qed.

(** Two transactions begun before the protocol's first publication, committed
    one after the other on the shared node. *)
Definition race_commits (p : protocol) (u1 u2 : T) : nat * NodeUserTables :=
  let '(_, t1) := txn_publish p u1 (transaction default_tables) in
  let '(h2, t2) := txn_publish p u2 (transaction (tables t1)) in
  let n := commit (mkTxn (tables t2) (pending_tables t1)) in
  (h2, commit (mkTxn n (pending_tables t2))).

(** C40: racing first publications lose the later table.  [install] keeps the
    handle that is already published and its comment promises the table is then
    published through it, but [commit_table] does not do so: after both commits
    the slot still reads the first table, and the listener built by the second
    transaction keeps its own table whatever is published later. *)
Theorem racing_first_commit_is_lost (p : protocol) (u1 u2 v : T) :
  let '(h2, n) := race_commits p u1 u2 in
  let n' := (table_publish p v n).2 in
  table_of n p = Some u1 ∧ slot_get p n' ≠ Some h2 ∧
  table_of n' p = Some v ∧ with_current h2 id (memory n') = Some u2.
Proof. by destruct p. Qed.

End tables.
Arguments NodeUserTables : clear implicits.
Arguments NodeUserTablesTxn : clear implicits.
Arguments PreparedTable : clear implicits.
Arguments node_op : clear implicits.
Arguments node_world : clear implicits.
Arguments UserTableSink : clear implicits.

End UserTables.
