(* ===== verification/Buf.v ===== *)
(** * Growable byte buffers (the [bytes] crate)

    The frame codecs read and write [bytes::BytesMut] through [Buf] and
    [BufMut].  The crate is not part of the source, so a buffer is any type with
    the operations the codecs use ([Buf]), assumed to behave as documented
    ([BufLaws]); [list_buf] is an instance.  Code that takes [&mut BytesMut] is
    a computation [io b A] that returns a result or an error and, in either
    case, the buffer it leaves behind.  [steps m cs r cs'] says that [m], run on
    any buffer holding [cs], ends with [r] and leaves [cs']. *)
From S2P Require Import Prelude.
Local Open Scope Z_scope.

Class Buf (b : Type) := {
  (* the unread bytes: [chunk], [len] and indexing are functions of them *)
  contents : b → bytes;
  with_capacity : nat → b;
  clear : b → b;
  copy_to_slice : nat → b → outcome bytes * b;
  (* [BytesMut::split_to], frozen *)
  split_to : nat → b → outcome bytes * b;
  advance : nat → b → outcome unit * b;
  put_slice : bytes → b → b;
  (* [buf[i..i + xs.len()].copy_from_slice(xs)] *)
  write_range : nat → bytes → b → outcome unit * b }.

(** Documented behaviour: reading or skipping more than [remaining()] panics,
    otherwise the bytes are consumed from the front; writing appends. *)
Class BufLaws (b : Type) `{Buf b} := {
  with_capacity_ok : ∀ n, contents (with_capacity n) = [];
  clear_ok : ∀ x, contents (clear x) = [];
  copy_to_slice_ok : ∀ n x, (n ≤ length (contents x))%nat →
    (copy_to_slice n x).1 = Ok (take n (contents x)) ∧
    contents (copy_to_slice n x).2 = drop n (contents x);
  copy_to_slice_short : ∀ n x, (length (contents x) < n)%nat → (copy_to_slice n x).1 = Panic;
  split_to_ok : ∀ n x, (n ≤ length (contents x))%nat →
    (split_to n x).1 = Ok (take n (contents x)) ∧
    contents (split_to n x).2 = drop n (contents x);
  split_to_short : ∀ n x, (length (contents x) < n)%nat → (split_to n x).1 = Panic;
  advance_ok : ∀ n x, (n ≤ length (contents x))%nat →
    (advance n x).1 = Ok tt ∧ contents (advance n x).2 = drop n (contents x);
  advance_short : ∀ n x, (length (contents x) < n)%nat → (advance n x).1 = Panic;
  put_slice_ok : ∀ xs x, contents (put_slice xs x) = contents x ++ xs;
  write_range_ok : ∀ pre old post xs x,
    contents x = pre ++ old ++ post → length old = length xs →
    (write_range (length pre) xs x).1 = Ok tt ∧
    contents (write_range (length pre) xs x).2 = pre ++ xs ++ post }.

#[global] Instance list_buf : Buf bytes := {|
  contents x := x;
  with_capacity _ := [];
  clear _ := [];
  copy_to_slice n x := if (n <=? length x)%nat then (Ok (take n x), drop n x) else (Panic, x);
  split_to n x := if (n <=? length x)%nat then (Ok (take n x), drop n x) else (Panic, x);
  advance n x := if (n <=? length x)%nat then (Ok tt, drop n x) else (Panic, x);
  put_slice xs x := x ++ xs;
  write_range i xs x :=
    if (i + length xs <=? length x)%nat
    then (Ok tt, take i x ++ xs ++ drop (i + length xs) x) else (Panic, x) |}.

#[global] Instance list_buf_laws : BufLaws bytes.
Proof.
  split; simpl.
  - done.
  - done.
  - intros n x H. by rewrite (proj2 (Nat.leb_le _ _) H).
  - intros n x H. by rewrite (proj2 (Nat.leb_gt _ _) H).
  - intros n x H. by rewrite (proj2 (Nat.leb_le _ _) H).
  - intros n x H. by rewrite (proj2 (Nat.leb_gt _ _) H).
  - intros n x H. by rewrite (proj2 (Nat.leb_le _ _) H).
  - intros n x H. by rewrite (proj2 (Nat.leb_gt _ _) H).
  - done.
  - intros pre old post xs x -> Hl. rewrite (proj2 (Nat.leb_le _ _)).
    2: { rewrite !length_app. lia. }
    simpl. split; [done|]. rewrite take_app_length, <- Hl. f_equal. f_equal.
    by rewrite app_assoc, drop_app_length' by (rewrite length_app; lia).
Qed.

(** ** Computations on a buffer *)
Definition io (b A : Type) : Type := b → outcome A * b.

#[global] Instance io_ret b : MRet (io b) := λ A a x, (Ok a, x).
#[global] Instance io_bind b : MBind (io b) := λ A C f m x,
  match m x with
  | (Ok a, x) => f a x
  | (Err e, x) => (Err e, x)
  | (Panic, x) => (Panic, x)
  end.

(** A result computed without the buffer, [?] included. *)
Definition lift {b A} (o : outcome A) : io b A := λ x, (o, x).

Section ops.
Context {b : Type} `{Buf b}.

Definition peek : io b bytes := λ x, (Ok (contents x), x).
Definition get_bytes (n : nat) : io b bytes := copy_to_slice n.
Definition split (n : nat) : io b bytes := split_to n.
Definition get_u8 : io b Z := bs ← get_bytes 1; mret (be_decode bs).
Definition get_u16 : io b Z := bs ← get_bytes 2; mret (be_decode bs).
Definition skip (n : nat) : io b unit := advance n.
Definition put (xs : bytes) : io b unit := λ x, (Ok tt, put_slice xs x).
Definition put_u8 (z : Z) : io b unit := put (be_encode 1 z).
Definition put_u16 (z : Z) : io b unit := put (be_encode 2 z).
Definition put_u32 (z : Z) : io b unit := put (be_encode 4 z).
Definition write_at (i : nat) (xs : bytes) : io b unit := write_range i xs.

(** ** Reasoning on contents *)
Definition steps {A} (m : io b A) (cs : bytes) (r : outcome A) (cs' : bytes) : Prop :=
  ∀ x, contents x = cs → (m x).1 = r ∧ contents (m x).2 = cs'.

Definition panics {A} (m : io b A) (cs : bytes) : Prop :=
  ∀ x, contents x = cs → (m x).1 = Panic.

Lemma steps_ret {A} (a : A) cs : steps (mret a) cs (Ok a) cs.
Proof. by intros x <-. Qed.
Lemma steps_lift {A} (o : outcome A) cs : steps (lift o) cs o cs.
Proof. by intros x <-. Qed.
Lemma steps_peek cs : steps peek cs (Ok cs) cs.
Proof. by intros x <-. Qed.

Lemma steps_bind {A C} (m : io b A) (f : A → io b C) cs a cs1 r cs2 :
  steps m cs (Ok a) cs1 → steps (f a) cs1 r cs2 → steps (m ≫= f) cs r cs2.
Proof.
  intros Hm Hf x Hx. unfold mbind, io_bind. destruct (Hm x Hx) as [H1 H2].
  destruct (m x) as [o x']. simpl in *. subst o. by apply Hf.
Qed.
Lemma steps_bind_err {A C} (m : io b A) (f : A → io b C) cs e cs1 :
  steps m cs (Err e) cs1 → steps (m ≫= f) cs (Err e) cs1.
Proof.
  intros Hm x Hx. unfold mbind, io_bind. destruct (Hm x Hx) as [H1 H2].
  destruct (m x) as [o x']. simpl in *. by subst o.
Qed.
Lemma panics_bind {A C} (m : io b A) (f : A → io b C) cs : panics m cs → panics (m ≫= f) cs.
Proof.
  intros Hm x Hx. unfold mbind, io_bind. specialize (Hm x Hx).
  destruct (m x) as [o x']. simpl in *. by subst o.
Qed.
Lemma panics_after {A C} (m : io b A) (f : A → io b C) cs a cs1 :
  steps m cs (Ok a) cs1 → panics (f a) cs1 → panics (m ≫= f) cs.
Proof.
  intros Hm Hf x Hx. unfold mbind, io_bind. destruct (Hm x Hx) as [H1 H2].
  destruct (m x) as [o x']. simpl in *. subst o. by apply Hf.
Qed.

Context `{!BufLaws b}.

Lemma steps_get_bytes xs cs : steps (get_bytes (length xs)) (xs ++ cs) (Ok xs) cs.
Proof.
  intros x Hx. unfold get_bytes. destruct (copy_to_slice_ok (length xs) x) as [H1 H2].
  { rewrite Hx, length_app. lia. }
  by rewrite H1, H2, Hx, take_app_length, drop_app_length.
Qed.

Lemma steps_split n xs cs : length xs = n → steps (split n) (xs ++ cs) (Ok xs) cs.
Proof.
  intros <- x Hx. unfold split. destruct (split_to_ok (length xs) x) as [H1 H2].
  { rewrite Hx, length_app. lia. }
  by rewrite H1, H2, Hx, take_app_length, drop_app_length.
Qed.

Lemma be_decode_1 z : be_decode [z] = z.
Proof. unfold be_decode. simpl. unfold be_step. lia. Qed.

Lemma steps_get_u8 z cs : steps get_u8 (z :: cs) (Ok z) cs.
Proof.
  eapply steps_bind; [apply (steps_get_bytes [z])|]. rewrite be_decode_1. apply steps_ret.
Qed.

Lemma steps_get_u16 z cs : in_width 16 z → steps get_u16 (be_encode 2 z ++ cs) (Ok z) cs.
Proof.
  intros Hz. eapply steps_bind.
  - pose proof (steps_get_bytes (be_encode 2 z) cs) as Hg. rewrite length_be_encode in Hg. apply Hg.
  - rewrite be_decode_encode_small by done. apply steps_ret.
Qed.

Lemma panics_get_bytes n cs : (length cs < n)%nat → panics (get_bytes n) cs.
Proof. intros Hl x Hx. apply copy_to_slice_short. by rewrite Hx. Qed.
Lemma panics_get_u16 cs : (length cs < 2)%nat → panics get_u16 cs.
Proof. intros Hl. by apply panics_bind, panics_get_bytes. Qed.

Lemma steps_skip n xs cs : length xs = n → steps (skip n) (xs ++ cs) (Ok tt) cs.
Proof.
  intros <- x Hx. unfold skip. destruct (advance_ok (length xs) x) as [H1 H2].
  { rewrite Hx, length_app. lia. }
  by rewrite H1, H2, Hx, drop_app_length.
Qed.

Lemma steps_put xs cs : steps (put xs) cs (Ok tt) (cs ++ xs).
Proof. intros x <-. by rewrite <- put_slice_ok. Qed.

Lemma steps_write_at pre old post xs :
  length old = length xs →
  steps (write_at (length pre) xs) (pre ++ old ++ post) (Ok tt) (pre ++ xs ++ post).
Proof. intros Hl x Hx. by eapply write_range_ok. Qed.

End ops.

(** One step of a computation whose first action is known to succeed. *)
Tactic Notation "step_with" uconstr(lem) := eapply steps_bind; [apply lem|cbv beta].
