(* ===== verification/Xudp.v ===== *)
(** * XUDP frame metadata ([src/xudp/frame.rs])

    The header of a multiplexed UDP frame: a 16-bit length, the session, the
    status, the option bits and, for some statuses, a destination.  Encoder and
    decoder run on the buffers of [Buf.v].  Shown: what is encoded is decoded
    back, whatever follows it; a decoder that has not got the whole metadata
    asks for more and leaves the buffer alone; and where the metadata length is
    too small for the destination it announces, the decoder reads beyond it. *)
From S2P Require Import Prelude Text Address Buf.
Import Net Addr.
Local Open Scope Z_scope.

Module Xudp.

Inductive SessionStatus := New | Keep | End_ | KeepAlive.
#[global] Instance SessionStatus_eq_dec : EqDecision SessionStatus.
Proof. solve_decision. Defined.

Definition status_byte (s : SessionStatus) : Z :=
  match s with New => 1 | Keep => 2 | End_ => 3 | KeepAlive => 4 end.

Definition SessionStatus_try_from (value : Z) : outcome SessionStatus :=
  if value =? 1 then Ok New
  else if value =? 2 then Ok Keep
  else if value =? 3 then Ok End_
  else if value =? 4 then Ok KeepAlive
  else err InvalidData "invalid session status".

(** [FrameOption]: a byte of flags. *)
Definition DATA : Z := 1.
Definition ERROR : Z := 2.
Definition FrameOption_new : Z := 0.
Definition with_data (o : Z) : Z := Z.lor o DATA.
Definition has_data (o : Z) : bool := negb (Z.land o DATA =? 0).
Definition has_error (o : Z) : bool := negb (Z.land o ERROR =? 0).

Inductive TargetNetwork := Tcp | Udp.
#[global] Instance TargetNetwork_eq_dec : EqDecision TargetNetwork.
Proof. solve_decision. Defined.

Definition network_byte (n : TargetNetwork) : Z := match n with Tcp => 1 | Udp => 2 end.

Definition TargetNetwork_try_from (value : Z) : outcome TargetNetwork :=
  if value =? 1 then Ok Tcp
  else if value =? 2 then Ok Udp
  else err InvalidData "invalid network type".

Record FrameMetadata := mkMetadata {
  session_id : Z;
  status : SessionStatus;
  option_bits : Z;
  target : option NetLocation;
  network : option TargetNetwork }.
#[global] Instance FrameMetadata_eq_dec : EqDecision FrameMetadata.
Proof. solve_decision. Defined.

Section codec.
Context {b : Type} `{Buf b}.

Definition encode_address (a : Address) : io b unit :=
  match a with
  | Ipv4 o => _ ← put_u8 1; put o
  | Hostname h =>
      if (255 <? length h)%nat then lift (err InvalidInput "hostname too long")
      else _ ← put_u8 2; _ ← put_u8 (wrap 8 (Z.of_nat (length h))); put h
  | Ipv6 o => _ ← put_u8 3; put o
  end.

Definition decode_address : io b Address :=
  buf ← peek;
  if (length buf <? 1)%nat then lift (err UnexpectedEof "incomplete address type")
  else
    addr_type ← get_u8;
    buf ← peek;
    if addr_type =? 1 then
      if (length buf <? 4)%nat then lift (err UnexpectedEof "incomplete IPv4 address")
      else octets ← get_bytes 4; mret (Ipv4 octets)
    else if addr_type =? 2 then
      if (length buf <? 1)%nat then lift (err UnexpectedEof "incomplete hostname length")
      else
        len ← get_u8;
        buf ← peek;
        if (length buf <? Z.to_nat len)%nat then lift (err UnexpectedEof "incomplete hostname")
        else
          hostname_bytes ← get_bytes (Z.to_nat len);
          if utf8_valid hostname_bytes then lift (Address_from hostname_bytes)
          else lift (err InvalidData "invalid utf-8")
    else if addr_type =? 3 then
      if (length buf <? 16)%nat then lift (err UnexpectedEof "incomplete IPv6 address")
      else octets ← get_bytes 16; mret (Ipv6 octets)
    else lift (err InvalidData "invalid address type").

(** The destination part of [encode]. *)
Definition encode_destination (m : FrameMetadata) : io b unit :=
  if bool_decide (status m = New) then
    network ← lift (ok_or (network m)
                (IoError InvalidInput "network required for SessionStatusNew"));
    _ ← put_u8 (network_byte network);
    target ← lift (ok_or (target m)
               (IoError InvalidInput "target required for SessionStatusNew"));
    _ ← put_u16 (port target);
    encode_address (address target)
  else if bool_decide (status m = Keep) && bool_decide (network m = Some Udp) then
    _ ← put_u8 (network_byte Udp);
    target ← lift (ok_or (target m) (IoError InvalidInput "target required for Keep+UDP"));
    _ ← put_u16 (port target);
    encode_address (address target)
  else mret tt.

Definition encode (m : FrameMetadata) : io b unit :=
  buf ← peek;
  let length_pos := length buf in
  _ ← put_u16 0;
  buf ← peek;
  let metadata_start := length buf in
  _ ← put_u16 (session_id m);
  _ ← put_u8 (status_byte (status m));
  _ ← put_u8 (option_bits m);
  _ ← encode_destination m;
  buf ← peek;
  let metadata_len := (length buf - metadata_start)%nat in
  write_at length_pos (be_encode 2 (wrap 16 (Z.of_nat metadata_len))).

Definition decode_destination (remaining_metadata : nat) (status : SessionStatus)
    : io b (option TargetNetwork * option NetLocation) :=
  buf ← peek;
  if (0 <? remaining_metadata)%nat &&
     (bool_decide (status = New) ||
      bool_decide (status = Keep) && bool_decide (head buf = Some 2)) then
    net_byte ← get_u8;
    network ← lift (TargetNetwork_try_from net_byte);
    port ← get_u16;
    address ← decode_address;
    mret (Some network, Some (mkNetLocation address port))
  else mret (None, None).

Definition decode : io b (option FrameMetadata) :=
  buf ← peek;
  if (length buf <? 2)%nat then mret None
  else
    let metadata_len := Z.to_nat (be_decode (take 2 buf)) in
    if (length buf <? 2 + metadata_len)%nat then mret None
    else
      _ ← skip 2;
      if (metadata_len <? 4)%nat then lift (err InvalidData "metadata too short")
      else
        buf ← peek;
        let metadata_start := length buf in
        session_id ← get_u16;
        status_u8 ← get_u8;
        status ← lift (SessionStatus_try_from status_u8);
        option_bits ← get_u8;
        dest ← decode_destination (metadata_len - 4) status;
        buf ← peek;
        let consumed := (metadata_start - length buf)%nat in
        let unconsumed := (metadata_len - consumed)%nat in
        _ ← (if (0 <? unconsumed)%nat then skip unconsumed else mret tt);
        mret (Some (mkMetadata session_id status option_bits (snd dest) (fst dest))).

End codec.

(** ** The wire format *)

Definition address_bytes (a : Address) : bytes :=
  match a with
  | Ipv4 o => 1 :: o
  | Hostname h => 2 :: Z.of_nat (length h) :: h
  | Ipv6 o => 3 :: o
  end.

(** Addresses that survive the wire: the decoder re-parses host names. *)
Definition wire_address (a : Address) : Prop :=
  match a with
  | Ipv4 o => length o = 4%nat
  | Ipv6 o => length o = 16%nat
  | Hostname h => (length h ≤ 255)%nat ∧ utf8_valid h = true ∧ Address_from h = Ok (Hostname h)
  end.

Definition carries_destination (m : FrameMetadata) : bool :=
  bool_decide (status m = New) || bool_decide (status m = Keep) && bool_decide (network m = Some Udp).

Definition destination_bytes (m : FrameMetadata) : bytes :=
  match network m, target m with
  | Some n, Some t =>
      if carries_destination m
      then network_byte n :: be_encode 2 (port t) ++ address_bytes (address t) else []
  | _, _ => []
  end.

Definition body_bytes (m : FrameMetadata) : bytes :=
  be_encode 2 (session_id m) ++ status_byte (status m) :: option_bits m :: destination_bytes m.

Definition frame_bytes (m : FrameMetadata) : bytes :=
  be_encode 2 (Z.of_nat (length (body_bytes m))) ++ body_bytes m.

Record metadata_ok (m : FrameMetadata) : Prop := {
  ok_session : in_width 16 (session_id m);
  ok_option : is_byte (option_bits m);
  ok_dest : carries_destination m = true →
    ∃ n t, network m = Some n ∧ target m = Some t ∧ in_width 16 (port t) ∧
           wire_address (address t) }.

(** What a receiver sees: a destination only if the frame carries one. *)
Definition received (m : FrameMetadata) : FrameMetadata :=
  if carries_destination m then m
  else mkMetadata (session_id m) (status m) (option_bits m) None None.

Section facts.
Context {b : Type} `{BufLaws b}.

Lemma be_encode_1 z : is_byte z → be_encode 1 z = [z].
Proof. intros [? ?]. simpl. by rewrite Z.div_1_r, Z.mod_small. Qed.

Lemma status_is_byte s : is_byte (status_byte s).
Proof. destruct s; compute_done. Qed.
Lemma network_is_byte n : is_byte (network_byte n).
Proof. destruct n; compute_done. Qed.
Lemma status_roundtrip s : SessionStatus_try_from (status_byte s) = Ok s.
Proof. by destruct s. Qed.
Lemma network_roundtrip n : TargetNetwork_try_from (network_byte n) = Ok n.
Proof. by destruct n. Qed.

Lemma steps_put_u8 z cs : is_byte z → steps (b := b) (put_u8 z) cs (Ok tt) (cs ++ [z]).
Proof. intros Hz. unfold put_u8. rewrite be_encode_1 by done. apply steps_put. Qed.

Lemma steps_put_tail z xs cs : steps (b := b) (put xs) (cs ++ [z]) (Ok tt) (cs ++ z :: xs).
Proof.
  replace (cs ++ z :: xs) with ((cs ++ [z]) ++ xs) by by rewrite <- app_assoc. apply steps_put.
Qed.

Lemma encode_address_steps a cs :
  wire_address a → steps (b := b) (encode_address a) cs (Ok tt) (cs ++ address_bytes a).
Proof.
  destruct a as [o|o|h]; simpl; intros Ha.
  - step_with steps_put_u8; [done|]. apply steps_put_tail.
  - step_with steps_put_u8; [done|]. apply steps_put_tail.
  - destruct Ha as (Hl & _ & _). rewrite (proj2 (Nat.ltb_ge _ _)) by done.
    rewrite wrap_small by (unfold in_width; lia).
    step_with steps_put_u8; [done|]. step_with steps_put_u8; [unfold is_byte; lia|].
    replace (cs ++ 2 :: Z.of_nat (length h) :: h) with ((cs ++ [2]) ++ Z.of_nat (length h) :: h)
      by by rewrite <- app_assoc.
    apply steps_put_tail.
Qed.

Lemma encode_target_steps n t cs :
  in_width 16 (port t) → wire_address (address t) →
  steps (b := b) (_ ← put_u8 (network_byte n); _ ← put_u16 (port t); encode_address (address t))
    cs (Ok tt) (cs ++ network_byte n :: be_encode 2 (port t) ++ address_bytes (address t)).
Proof.
  intros Hp Ha. step_with steps_put_u8; [apply network_is_byte|]. step_with steps_put.
  replace (cs ++ network_byte n :: be_encode 2 (port t) ++ address_bytes (address t)) with
    (((cs ++ [network_byte n]) ++ be_encode 2 (port t)) ++ address_bytes (address t))
    by by rewrite <- !app_assoc.
  by apply encode_address_steps.
Qed.

Lemma encode_destination_steps m cs :
  metadata_ok m → steps (b := b) (encode_destination m) cs (Ok tt) (cs ++ destination_bytes m).
Proof.
  intros [_ _ Hd]. unfold encode_destination, destination_bytes. unfold carries_destination in *.
  destruct (bool_decide (status m = New)) eqn:En; simpl in *.
  - destruct (Hd eq_refl) as (n & t & -> & -> & Hp & Ha). simpl.
    step_with steps_lift. eapply (encode_target_steps n t); done.
  - destruct (bool_decide (status m = Keep) && bool_decide (network m = Some Udp)) eqn:Ek.
    + destruct (Hd eq_refl) as (n & t & Hn & -> & Hp & Ha). rewrite Hn. to_prop. rewrite Hn in *.
      simplify_eq. by apply (encode_target_steps Udp t).
    + destruct (network m), (target m); rewrite app_nil_r; apply steps_ret.
Qed.

Lemma length_address_bytes a :
  wire_address a → (1 ≤ length (address_bytes a) ≤ 257)%nat.
Proof. destruct a; simpl; lia. Qed.

Lemma length_body m :
  metadata_ok m → length (body_bytes m) = (4 + length (destination_bytes m))%nat ∧
    (length (destination_bytes m) ≤ 260)%nat.
Proof.
  intros [_ _ Hd]. unfold body_bytes. rewrite length_app, length_be_encode. simpl. split; [lia|].
  unfold destination_bytes. destruct (network m) as [n|] eqn:En, (target m) as [t|] eqn:Et; simpl; try lia.
  destruct (carries_destination m); [|simpl; lia].
  destruct (Hd eq_refl) as (? & ? & ? & ? & _ & Ha%length_address_bytes). simplify_eq/=. lia.
Qed.

Lemma encode_steps m cs :
  metadata_ok m → steps (b := b) (encode m) cs (Ok tt) (cs ++ frame_bytes m).
Proof.
  intros Hok. destruct (length_body m Hok) as [Hl Hd]. unfold encode.
  step_with steps_peek. step_with steps_put. step_with steps_peek. step_with steps_put.
  step_with steps_put_u8; [apply status_is_byte|].
  step_with steps_put_u8; [apply Hok|].
  step_with encode_destination_steps; [done|]. step_with steps_peek.
  replace ((((_ ++ be_encode 2 (session_id m)) ++ [_]) ++ [_]) ++ destination_bytes m)
    with (cs ++ be_encode 2 0 ++ body_bytes m)
    by (unfold body_bytes; by rewrite <- !app_assoc).
  replace (_ - _)%nat with (length (body_bytes m)) by (rewrite !length_app; lia).
  unfold frame_bytes. rewrite (wrap_small 16) by (unfold in_width; lia).
  by apply steps_write_at.
Qed.

Lemma decode_address_steps a cs :
  wire_address a → steps (b := b) decode_address (address_bytes a ++ cs) (Ok a) cs.
Proof.
  unfold decode_address. destruct a as [o|o|h]; simpl; intros Ha.
  - step_with steps_peek. simpl. step_with steps_get_u8. step_with steps_peek. simpl.
    rewrite (proj2 (Nat.ltb_ge _ _)) by (rewrite length_app; lia). rewrite <- Ha.
    step_with steps_get_bytes. apply steps_ret.
  - step_with steps_peek. simpl. step_with steps_get_u8. step_with steps_peek. simpl.
    rewrite (proj2 (Nat.ltb_ge _ _)) by (rewrite length_app; lia). rewrite <- Ha.
    step_with steps_get_bytes. apply steps_ret.
  - destruct Ha as (Hl & Hu & Hf).
    step_with steps_peek. simpl. step_with steps_get_u8. step_with steps_peek. simpl.
    step_with steps_get_u8. step_with steps_peek. rewrite Nat2Z.id.
    rewrite (proj2 (Nat.ltb_ge _ _)) by (rewrite length_app; lia).
    step_with steps_get_bytes. rewrite Hu, Hf. apply steps_lift.
Qed.

(** Reading a destination does not depend on the exact metadata length. *)
Lemma decode_target_steps k m cs :
  metadata_ok m → carries_destination m = true → (0 < k)%nat →
  steps (b := b) (decode_destination k (status m)) (destination_bytes m ++ cs)
    (Ok (network m, target m)) cs.
Proof.
  intros [_ _ Hd] Hc Hk. destruct (Hd Hc) as (n & t & Hn & Ht & Hp & Ha).
  unfold decode_destination, destination_bytes. rewrite Hn, Ht, Hc. step_with steps_peek.
  cbn [app head]. rewrite (proj2 (Nat.ltb_lt _ _) Hk). simpl andb.
  replace (bool_decide (status m = New) || _) with true; last first.
  { symmetry. unfold carries_destination in Hc. rewrite Hn in Hc.
    destruct (bool_decide (status m = New)); [done|]. simpl in *.
    destruct (bool_decide (status m = Keep)); [|done]. simpl in *. to_prop. by simplify_eq. }
  step_with steps_get_u8. rewrite network_roundtrip. step_with steps_lift.
  rewrite <- app_assoc. step_with steps_get_u16; [done|].
  step_with decode_address_steps; [done|]. destruct t. apply steps_ret.
Qed.

Lemma decode_no_target_steps k m cs :
  carries_destination m = false → k = 0%nat →
  steps (b := b) (decode_destination k (status m)) (destination_bytes m ++ cs) (Ok (None, None)) cs.
Proof.
  intros Hc ->. unfold decode_destination. step_with steps_peek. simpl.
  replace (destination_bytes m) with (@nil Z); [apply steps_ret|].
  unfold destination_bytes. rewrite Hc. by destruct (network m), (target m).
Qed.

(** Decoding a body under any announced length [n] that covers the fixed part
    and that the buffer satisfies; the destination is read to its own end. *)
Lemma decode_body_steps n m cs :
  metadata_ok m → (4 ≤ n)%nat → Z.of_nat n < 65536 → (n ≤ length (body_bytes m))%nat →
  (carries_destination m = true → 4 < n)%nat →
  steps (b := b) decode (be_encode 2 (Z.of_nat n) ++ body_bytes m ++ cs)
    (Ok (Some (received m))) cs.
Proof.
  intros Hok H4 Hn Hle Hc. destruct (length_body m Hok) as [Hl Hd]. unfold decode.
  step_with steps_peek. rewrite (proj2 (Nat.ltb_ge _ _)) by (rewrite length_app, length_be_encode; lia).
  rewrite take_app_length' by by rewrite length_be_encode.
  rewrite be_decode_encode_small, Nat2Z.id by (change (256 ^ Z.of_nat 2) with 65536; lia).
  rewrite (proj2 (Nat.ltb_ge _ _)) by (rewrite !length_app, length_be_encode; lia).
  step_with steps_skip; [by rewrite length_be_encode|].
  rewrite (proj2 (Nat.ltb_ge _ _)) by lia. step_with steps_peek. rewrite length_app.
  replace (body_bytes m ++ cs) with (be_encode 2 (session_id m) ++
      status_byte (status m) :: option_bits m :: destination_bytes m ++ cs)
    by (unfold body_bytes; by rewrite <- app_assoc).
  step_with steps_get_u16; [apply Hok|].
  step_with steps_get_u8. rewrite status_roundtrip. step_with steps_lift. step_with steps_get_u8.
  assert (Htail : ∀ dest, (received m) =
      mkMetadata (session_id m) (status m) (option_bits m) (snd dest) (fst dest) →
    steps (b := b) (buf ← peek;
        let consumed := (length (body_bytes m) + length cs - length buf)%nat in
        let unconsumed := (n - consumed)%nat in
        _ ← (if (0 <? unconsumed)%nat then skip unconsumed else mret tt);
        mret (Some (mkMetadata (session_id m) (status m) (option_bits m) (snd dest) (fst dest))))
      cs (Ok (Some (received m))) cs).
  { intros dest ->. step_with steps_peek. cbv zeta.
    replace (n - _)%nat with 0%nat by lia. simpl. step_with steps_ret. apply steps_ret. }
  unfold received in *. destruct (carries_destination m) eqn:Ec.
  - step_with decode_target_steps; [done|done|specialize (Hc eq_refl); lia|].
    apply (Htail (network m, target m)). by destruct m.
  - step_with decode_no_target_steps; [done| |by apply (Htail (None, None))].
    assert (destination_bytes m = []) as E.
    { unfold destination_bytes. rewrite Ec. by destruct (network m), (target m). }
    rewrite E in Hl. cbn [length] in Hl. lia.
Qed.

Lemma decode_steps m cs :
  metadata_ok m → steps (b := b) decode (frame_bytes m ++ cs) (Ok (Some (received m))) cs.
Proof.
  intros Hok. destruct (length_body m Hok) as [Hl Hd]. unfold frame_bytes. rewrite <- app_assoc.
  apply decode_body_steps; try done; try lia. intros Hc.
  destruct (ok_dest m Hok Hc) as (n & t & Hn & Ht & _). unfold destination_bytes in Hl.
  rewrite Hn, Ht, Hc in Hl. cbn [length] in Hl. lia.
Qed.

End facts.

(** An XUDP frame decodes to what was encoded, whatever follows it.  For
    well-formed metadata the encoder succeeds on an empty buffer, and decoding
    that buffer with any further bytes appended gives the metadata back (without
    a destination where the status carries none) and leaves exactly those
    bytes. *)
Theorem xudp_frame_roundtrip {b} `{BufLaws b} (m : FrameMetadata) (rest : bytes) (x : b) :
  metadata_ok m → contents x = [] →
  let y := put_slice rest (encode m x).2 in
  (encode m x).1 = Ok tt ∧
  (decode y).1 = Ok (Some (received m)) ∧ contents (decode y).2 = rest.
Proof.
  intros Hok Hx y. destruct (encode_steps m [] Hok x Hx) as [He Hc]. split; [done|].
  apply (decode_steps m rest Hok). unfold y. by rewrite put_slice_ok, Hc.
Qed.

(** A partly received frame is left alone.  On any proper prefix of an
    encoded frame the decoder asks for more data and does not touch the
    buffer. *)
Theorem xudp_partial_frame_waits {b} `{BufLaws b} (m : FrameMetadata) (n : nat) (x : b) :
  metadata_ok m → (n < length (frame_bytes m))%nat → contents x = take n (frame_bytes m) →
  decode x = (Ok None, x).
Proof.
  intros Hok Hn Hx. destruct (length_body m Hok) as [Hl Hd].
  assert (Hf : length (frame_bytes m) = (2 + length (body_bytes m))%nat).
  { unfold frame_bytes. by rewrite length_app, length_be_encode. }
  unfold decode, peek, mbind, io_bind. rewrite Hx, length_take, Nat.min_l by lia.
  destruct (Nat.ltb_spec n 2) as [|H2]; [done|].
  rewrite take_take, Nat.min_l by lia. unfold frame_bytes at 1.
  rewrite take_app_length' by by rewrite length_be_encode.
  rewrite be_decode_encode_small, Nat2Z.id by (change (256 ^ Z.of_nat 2) with 65536; lia).
  by rewrite (proj2 (Nat.ltb_lt _ _)) by lia.
Qed.

(** The decoder does not respect the announced metadata length.  A frame
    that opens a session and announces five bytes of metadata, too few for its
    destination, makes the decoder panic when the buffer ends there; when more
    bytes follow, it takes the destination from beyond the metadata. *)
Theorem xudp_short_metadata_overread {b} `{BufLaws b} (m : FrameMetadata) (x : b) :
  metadata_ok m → status m = New →
  (contents x = be_encode 2 5 ++ take 5 (body_bytes m) → (decode x).1 = Panic) ∧
  (∀ rest, contents x = be_encode 2 5 ++ body_bytes m ++ rest →
     (decode x).1 = Ok (Some m) ∧ contents (decode x).2 = rest).
Proof.
  intros Hok Hs. assert (Hc : carries_destination m = true).
  { unfold carries_destination. by rewrite bool_decide_true. }
  destruct (ok_dest m Hok Hc) as (n & t & Hn & Ht & _). split.
  - intros Hx.
    assert (Hb : take 5 (body_bytes m) =
      be_encode 2 (session_id m) ++ [status_byte New; option_bits m; network_byte n]).
    { unfold body_bytes, destination_bytes. by rewrite Hn, Ht, Hc, Hs. }
    rewrite Hb in Hx. revert x Hx. change (panics (b := b) decode
      (be_encode 2 5 ++ be_encode 2 (session_id m) ++
        [status_byte New; option_bits m; network_byte n])).
    unfold decode. eapply panics_after; [apply steps_peek|]. cbv beta.
    eapply panics_after; [by apply (steps_skip 2 (be_encode 2 5))|].
    eapply panics_after; [apply steps_peek|].
    eapply panics_after; [apply steps_get_u16, Hok|].
    eapply panics_after; [apply steps_get_u8|]. rewrite status_roundtrip.
    eapply panics_after; [apply steps_lift|]. eapply panics_after; [apply steps_get_u8|].
    apply panics_bind. eapply panics_after; [apply steps_peek|].
    eapply panics_after; [apply steps_get_u8|]. rewrite network_roundtrip.
    eapply panics_after; [apply steps_lift|]. apply panics_bind, panics_get_u16. simpl. lia.
  - intros rest Hx. destruct (length_body m Hok) as [Hl Hd].
    destruct (decode_body_steps 5 m rest Hok) with (x := x) as [H1 H2]; try done; try lia.
    + unfold destination_bytes in Hl. rewrite Hn, Ht, Hc in Hl. cbn [length] in Hl. lia.
    + unfold received in H1. by rewrite Hc in H1.
Qed.

(** ** Witnesses *)
Definition sample : FrameMetadata :=
  mkMetadata 258 New 1 (Some (mkNetLocation (Hostname (B "dns.example")) 53)) (Some Udp).

Lemma sample_ok : metadata_ok sample.
Proof.
  split; [compute_done..|]. intros _. eexists _, _. split_and!; [done|done|compute_done|].
  split_and!; [compute_done|done|by vm_compute].
Qed.

Lemma xudp_frame_roundtrip_witness :
  metadata_ok sample ∧
  (let y := put_slice [9; 9] (encode (b := bytes) sample []).2 in
   (encode (b := bytes) sample []).1 = Ok tt ∧
   (decode y).1 = Ok (Some (received sample)) ∧ contents (decode y).2 = [9; 9]).
Proof.
  split; [exact sample_ok|]. apply (xudp_frame_roundtrip (b := bytes) sample [9; 9] []).
  - exact sample_ok.
  - reflexivity.
Defined.

Lemma xudp_partial_frame_waits_witness :
  metadata_ok sample ∧
  decode (b := bytes) (take 12 (frame_bytes sample)) = (Ok None, take 12 (frame_bytes sample)).
Proof.
  split; [exact sample_ok|]. apply (xudp_partial_frame_waits (b := bytes) sample 12).
  - exact sample_ok.
  - vm_compute. lia.
  - reflexivity.
Defined.

Lemma xudp_short_metadata_overread_witness :
  metadata_ok sample ∧ (decode (b := bytes) [0; 5; 1; 2; 1; 1; 2]).1 = Panic.
Proof.
  split; [exact sample_ok|].
  apply (proj1 (xudp_short_metadata_overread (b := bytes) sample [0; 5; 1; 2; 1; 1; 2] sample_ok
    eq_refl)).
  vm_compute. reflexivity.
Defined.

End Xudp.
