(* ===== verification/AnyTls.v ===== *)
(** * AnyTLS frames, settings and padding schemes
    ([src/anytls/anytls_types.rs], [src/anytls/anytls_padding.rs])

    Frames are encoded into and decoded from the buffers of [Buf.v]; the read
    loop of a session ([src/anytls/anytls_server_session.rs], [recv_loop])
    appends what the socket delivers and drains the frames that are complete.
    Settings are a hash map written one [key=value] per line in the map's
    iteration order, which is a parameter.  A padding scheme is such a text; MD5
    and the random generator are parameters.  Shown: a stream of frames is
    recovered however the transport cuts it; settings survive the round trip in
    any iteration order; generated record sizes stay inside the ranges of the
    scheme. *)
From S2P Require Import Prelude Text Buf.
Local Open Scope Z_scope.

Module AnyTls.

Definition FRAME_HEADER_SIZE : nat := 7.

Inductive Command :=
| Waste | Syn | Psh | Fin | Settings | Alert | UpdatePaddingScheme | SynAck
| HeartRequest | HeartResponse | ServerSettings.
#[global] Instance Command_eq_dec : EqDecision Command.
Proof. solve_decision. Defined.

Definition command_byte (c : Command) : Z :=
  match c with
  | Waste => 0 | Syn => 1 | Psh => 2 | Fin => 3 | Settings => 4 | Alert => 5
  | UpdatePaddingScheme => 6 | SynAck => 7 | HeartRequest => 8 | HeartResponse => 9
  | ServerSettings => 10
  end.

Definition Command_try_from (value : Z) : outcome Command :=
  match value with
  | 0 => Ok Waste
  | 1 => Ok Syn
  | 2 => Ok Psh
  | 3 => Ok Fin
  | 4 => Ok Settings
  | 5 => Ok Alert
  | 6 => Ok UpdatePaddingScheme
  | 7 => Ok SynAck
  | 8 => Ok HeartRequest
  | 9 => Ok HeartResponse
  | 10 => Ok ServerSettings
  | _ => err InvalidData "unknown command"
  end.

Record Frame := mkFrame { cmd : Command; stream_id : Z; data : bytes }.
#[global] Instance Frame_eq_dec : EqDecision Frame.
Proof. solve_decision. Defined.

Definition control (cmd : Command) (stream_id : Z) : Frame := mkFrame cmd stream_id [].
Definition with_data (cmd : Command) (stream_id : Z) (data : bytes) : Frame :=
  mkFrame cmd stream_id data.
Definition data_frame (stream_id : Z) (data : bytes) : Frame := with_data Psh stream_id data.

Definition decode_header (header : bytes) : outcome (Command * Z * Z) :=
  b0 ← index header 0;
  cmd ← Command_try_from b0;
  id ← slice header 1 5;
  len ← slice header 5 7;
  mret (cmd, be_decode id, be_decode len).

Section codec.
Context {b : Type} `{Buf b}.

Definition encode_into (f : Frame) : io b unit :=
  _ ← put_u8 (command_byte (cmd f));
  _ ← put_u32 (stream_id f);
  _ ← put_u16 (wrap 16 (Z.of_nat (length (data f))));
  if (0 <? length (data f))%nat then put (data f) else mret tt.

(** [FrameCodec::decode] *)
Definition codec_decode : io b (option Frame) :=
  buf ← peek;
  if (length buf <? FRAME_HEADER_SIZE)%nat then mret None
  else
    header ← lift (slice buf 0 FRAME_HEADER_SIZE);
    h ← lift (decode_header header);
    let '(cmd, stream_id, data_len) := h in
    let total_len := (FRAME_HEADER_SIZE + Z.to_nat data_len)%nat in
    if (length buf <? total_len)%nat then mret None
    else
      _ ← skip FRAME_HEADER_SIZE;
      data ← (if 0 <? data_len then split (Z.to_nat data_len) else mret []);
      mret (Some (mkFrame cmd stream_id data)).

(** [while let Some(frame) = FrameCodec::decode(&mut buffer)?], collecting the
    frames; every frame takes at least a header from the buffer. *)
Fixpoint drain (fuel : nat) : io b (list Frame) :=
  match fuel with
  | O => mret []
  | S fuel =>
      r ← codec_decode;
      match r with
      | None => mret []
      | Some f => fs ← drain fuel; mret (f :: fs)
      end
  end.

(** The read loop: append a chunk, drain. *)
Fixpoint recv_loop (chunks : list bytes) : io b (list Frame) :=
  match chunks with
  | [] => mret []
  | c :: chunks =>
      _ ← put c;
      buf ← peek;
      fs ← drain (S (length buf));
      gs ← recv_loop chunks;
      mret (fs ++ gs)
  end.

End codec.

(** ** [StringMap] *)
Definition StringMap : Type := gmap bytes bytes.

Definition add_line (m : StringMap) (line : bytes) : StringMap :=
  match split_once 61 line with
  | Some (key, value) => <[key := value]> m
  | None => m
  end.

Definition from_bytes (data : bytes) : StringMap := foldl add_line ∅ (lines (utf8_lossy data)).

(** [iter] is the iteration order of the hash map. *)
Definition to_bytes (iter : StringMap → list (bytes * bytes)) (m : StringMap) : bytes :=
  join [10] ((λ '(k, v), k ++ [61] ++ v) <$> iter m).

(** ** Padding schemes *)
Definition CHECK_MARK : Z := -1.

Definition nl (ls : list bytes) : bytes := join [10] ls.
Definition DEFAULT_PADDING_SCHEME : bytes :=
  nl [B "stop=8"; B "0=30-30"; B "1=100-400";
      B "2=400-500,c,500-1000,c,500-1000,c,500-1000,c,500-1000";
      B "3=9-9,500-1000"; B "4=500-1000"; B "5=500-1000"; B "6=500-1000"; B "7=500-1000"].

Record PaddingFactory := mkFactory {
  scheme : StringMap; raw_scheme : bytes; stop : Z; md5 : bytes }.

(** The error is the source's [String]. *)
Definition PaddingFactory_new (md5_of : bytes → bytes) (raw : bytes) : PaddingFactory + string :=
  let scheme := from_bytes raw in
  match scheme !! B "stop" with
  | None => inr "missing 'stop' in padding scheme"%string
  | Some s =>
      match parse_uint 32 s with
      | None => inr "invalid 'stop' value in padding scheme"%string
      | Some stop => inl (mkFactory scheme raw stop (md5_of raw ≫= print_02x))
      end
  end.

(** [Self::new(DEFAULT..).expect(..)]; the [expect] is [None] here. *)
Definition default_factory (md5_of : bytes → bytes) : option PaddingFactory :=
  match PaddingFactory_new md5_of DEFAULT_PADDING_SCHEME with inl f => Some f | inr _ => None end.

(** [s.parse::<i64>()] *)
Definition parse_i64 (s : bytes) : option Z :=
  match s with
  | 45 :: digits =>
      match digits with
      | [] => None
      | _ => v ← parse_digits digits 0; if v <=? 2 ^ 63 then Some (- v) else None
      end
  | _ => parse_uint 63 s
  end.

(** [v as i32] *)
Definition as_i32 (v : Z) : Z := let u := wrap 32 v in if u <? 2 ^ 31 then u else u - 2 ^ 32.

Definition positive (s : bytes) : option Z :=
  v ← parse_i64 (trim s); if 0 <? v then Some v else None.

(** The range [min-max] of a part, put in order. *)
Definition part_range (part : bytes) : option (Z * Z) :=
  '(min_str, max_str) ← split_once 45 part;
  min_val ← positive min_str;
  max_val ← positive max_str;
  Some (Z.min min_val max_val, Z.max min_val max_val).

(** One part of a specification; [rng i lo hi] is the draw made for part [i]. *)
Definition part_size (rng : nat → Z → Z → Z) (i : nat) (part : bytes) : option Z :=
  let part := trim part in
  if bool_decide (part = B "c") then Some CHECK_MARK
  else
    '(lo, hi) ← part_range part;
    if lo =? hi then Some (as_i32 lo) else Some (as_i32 (rng i lo hi)).

Definition generate_record_payload_sizes (rng : nat → Z → Z → Z) (f : PaddingFactory) (pkt : Z)
    : list Z :=
  match scheme f !! print_dec pkt with
  | None => []
  | Some spec => omap id (imap (part_size rng) (split_on 44 spec))
  end.

(** ** Wire format of a frame *)
Definition frame_bytes (f : Frame) : bytes :=
  command_byte (cmd f) :: be_encode 4 (stream_id f) ++
    be_encode 2 (Z.of_nat (length (data f))) ++ data f.

Record frame_ok (f : Frame) : Prop := {
  ok_stream : in_width 32 (stream_id f);
  ok_data : Z.of_nat (length (data f)) < 65536 }.

(** Settings that a line can hold. *)
Definition setting_ok (kv : bytes * bytes) : Prop :=
  utf8_valid (fst kv) = true ∧ utf8_valid (snd kv) = true ∧
  61 ∉ fst kv ∧ 10 ∉ fst kv ∧ 10 ∉ snd kv ∧ last (snd kv) ≠ Some 13.

Section facts.
Context {b : Type} `{BufLaws b}.

Lemma command_is_byte c : is_byte (command_byte c).
Proof. destruct c; compute_done. Qed.
Lemma command_roundtrip c : Command_try_from (command_byte c) = Ok c.
Proof. by destruct c. Qed.

Lemma length_frame_bytes f : length (frame_bytes f) = (7 + length (data f))%nat.
Proof. unfold frame_bytes. simpl. rewrite ?length_app, ?length_be_encode. simpl. lia. Qed.

Lemma encode_into_steps f cs :
  frame_ok f → steps (b := b) (encode_into f) cs (Ok tt) (cs ++ frame_bytes f).
Proof.
  intros [_ Hd]. unfold encode_into. step_with steps_put. step_with steps_put. step_with steps_put.
  rewrite wrap_small by (unfold in_width; lia).
  replace (be_encode 1 (command_byte (cmd f))) with [command_byte (cmd f)].
  2: { simpl. rewrite Z.div_1_r, Z.mod_small; [done|]. apply command_is_byte. }
  unfold frame_bytes. rewrite <- !app_assoc. destruct (data f) as [|d ds] eqn:E; simpl length.
  - rewrite app_nil_r. apply steps_ret.
  - cbn [Nat.ltb Nat.leb].
    replace (cs ++ _ :: be_encode 4 (stream_id f) ++ _ ++ d :: ds) with
      ((cs ++ [command_byte (cmd f)] ++ be_encode 4 (stream_id f) ++
        be_encode 2 (Z.of_nat (S (length ds)))) ++ d :: ds)
      by (rewrite <- !app_assoc; done).
    apply steps_put.
Qed.

Lemma decode_header_ok f :
  frame_ok f →
  decode_header (command_byte (cmd f) :: be_encode 4 (stream_id f) ++
    be_encode 2 (Z.of_nat (length (data f)))) =
  Ok (cmd f, stream_id f, Z.of_nat (length (data f))).
Proof.
  intros [Hs Hd]. unfold decode_header, index. simpl expect. cbn [mbind outcome_bind].
  rewrite command_roundtrip. cbn [mbind outcome_bind].
  change (slice (command_byte (cmd f) :: be_encode 4 (stream_id f) ++ _) 1 5)
    with (Ok (be_encode 4 (stream_id f))).
  change (slice (command_byte (cmd f) :: be_encode 4 (stream_id f) ++ _) 5 7)
    with (Ok (be_encode 2 (Z.of_nat (length (data f))))).
  cbn [mbind outcome_bind]. rewrite !be_decode_encode_small; [done| |done].
  change (256 ^ Z.of_nat 2) with 65536. lia.
Qed.

(** The decoder on any buffer that starts with the header of [f]. *)
Lemma decode_prefix f cs tail :
  frame_ok f → cs = (command_byte (cmd f) :: be_encode 4 (stream_id f) ++
                      be_encode 2 (Z.of_nat (length (data f)))) ++ tail →
  steps (b := b) codec_decode cs
    (Ok (if (length tail <? length (data f))%nat then None
         else Some (mkFrame (cmd f) (stream_id f) (take (length (data f)) tail))))
    (if (length tail <? length (data f))%nat then cs else drop (length (data f)) tail).
Proof.
  intros Hok ->. set (hd := command_byte _ :: _).
  assert (Hh : length hd = 7%nat) by done.
  unfold codec_decode. step_with steps_peek. rewrite length_app, Hh.
  rewrite (proj2 (Nat.ltb_ge _ _)) by (unfold FRAME_HEADER_SIZE; lia).
  rewrite slice_prefix by (rewrite length_app, Hh; unfold FRAME_HEADER_SIZE; lia).
  rewrite take_app_length' by by rewrite Hh. step_with steps_lift.
  unfold hd at 1. rewrite decode_header_ok by done. step_with steps_lift. cbv iota beta zeta. rewrite Nat2Z.id.
  destruct (Nat.ltb_spec (length tail) (length (data f))) as [Hlt|Hge].
  - rewrite (proj2 (Nat.ltb_lt _ _)) by (unfold FRAME_HEADER_SIZE; lia). apply steps_ret.
  - rewrite (proj2 (Nat.ltb_ge _ _)) by (unfold FRAME_HEADER_SIZE; lia).
    step_with steps_skip; [done|]. destruct (Z.ltb_spec 0 (Z.of_nat (length (data f)))) as [Hp|Hz].
    + eapply steps_bind; [|apply steps_ret].
      pose proof (steps_split (b := b) (length (data f)) (take (length (data f)) tail)
        (drop (length (data f)) tail)) as Hs.
      rewrite take_drop in Hs. apply Hs. rewrite length_take. lia.
    + assert (length (data f) = 0%nat) as -> by lia. rewrite take_0, drop_0.
      step_with steps_ret. apply steps_ret.
Qed.

Lemma codec_decode_steps f cs :
  frame_ok f → steps (b := b) codec_decode (frame_bytes f ++ cs) (Ok (Some f)) cs.
Proof.
  intros Hok. pose proof (decode_prefix f (frame_bytes f ++ cs) (data f ++ cs) Hok) as Hs.
  rewrite (proj2 (Nat.ltb_ge _ _)) in Hs by (rewrite length_app; lia).
  rewrite take_app_length, drop_app_length in Hs. destruct f. apply Hs.
  unfold frame_bytes. simpl. by rewrite <- ?app_assoc.
Qed.

Lemma codec_decode_short f n :
  frame_ok f → (n < length (frame_bytes f))%nat →
  steps (b := b) codec_decode (take n (frame_bytes f)) (Ok None) (take n (frame_bytes f)).
Proof.
  intros Hok Hn. rewrite length_frame_bytes in Hn. destruct (decide (n < 7)%nat) as [H7|H7].
  - unfold codec_decode. step_with steps_peek. rewrite length_take, length_frame_bytes.
    rewrite (proj2 (Nat.ltb_lt _ _)) by (unfold FRAME_HEADER_SIZE; lia). apply steps_ret.
  - pose proof (decode_prefix f (take n (frame_bytes f)) (take (n - 7) (data f)) Hok) as Hs.
    rewrite length_take, (proj2 (Nat.ltb_lt _ _)) in Hs by lia. apply Hs.
    replace (frame_bytes f) with ((command_byte (cmd f) :: be_encode 4 (stream_id f) ++
      be_encode 2 (Z.of_nat (length (data f)))) ++ data f)
      by (unfold frame_bytes; simpl; by rewrite <- ?app_assoc).
    rewrite take_app_ge; [done|simpl; lia].
Qed.

(** ** Streams *)
Definition short (r : bytes) (gs : list Frame) : Prop :=
  match gs with [] => r = [] | g :: _ => (length r < length (frame_bytes g))%nat end.

Definition stream_bytes (gs : list Frame) : bytes := gs ≫= frame_bytes.

Lemma codec_decode_empty : steps (b := b) codec_decode [] (Ok None) [].
Proof. unfold codec_decode. step_with steps_peek. exact (steps_ret None []). Qed.

(** Encoding a list of frames one after the other. *)
Fixpoint encode_all (fs : list Frame) : io b unit :=
  match fs with
  | [] => mret tt
  | f :: fs => _ ← encode_into f; encode_all fs
  end.

Lemma encode_all_steps fs cs :
  Forall frame_ok fs → steps (encode_all fs) cs (Ok tt) (cs ++ stream_bytes fs).
Proof.
  intros H1. revert cs. induction H1 as [|f fs Hf H1 IH]; intros cs; cbn [encode_all].
  - unfold stream_bytes. simpl. rewrite app_nil_r. apply steps_ret.
  - eapply steps_bind; [by apply encode_into_steps|]. unfold stream_bytes.
    rewrite bind_cons, app_assoc. apply IH.
Qed.

Lemma drain_steps gs xs rest fuel :
  Forall frame_ok gs → xs ++ rest = stream_bytes gs → (length xs < fuel)%nat →
  ∃ g1 g2 r, gs = g1 ++ g2 ∧ steps (b := b) (drain fuel) xs (Ok g1) r ∧
    r ++ rest = stream_bytes g2 ∧ short r g2.
Proof.
  revert xs fuel. induction gs as [|g gs IH]; intros xs fuel Hok Heq Hf;
    (destruct fuel as [|fuel]; [lia|]).
  - apply app_nil in Heq as [-> ->]. exists [], [], []. split_and!; [done| |done|done].
    cbn [drain]. eapply steps_bind; [exact codec_decode_empty|]. apply steps_ret.
  - apply Forall_cons in Hok as [Hg Hok]. unfold stream_bytes in Heq. rewrite bind_cons in Heq.
    destruct (decide (length xs < length (frame_bytes g))%nat) as [Hlt|Hge].
    + exists [], (g :: gs), xs. split_and!; [done| |done|done]. cbn [drain].
      assert (xs = take (length xs) (frame_bytes g)) as Hx.
      { rewrite <- (take_app_length xs rest) at 1. rewrite Heq. apply take_app_le. lia. }
      rewrite Hx. eapply steps_bind; [by apply codec_decode_short|]. apply steps_ret.
    + assert (∃ ys, xs = frame_bytes g ++ ys) as [ys ->].
      { exists (drop (length (frame_bytes g)) xs). rewrite <- (take_drop (length (frame_bytes g)) xs) at 1.
        f_equal. rewrite <- (take_app_le xs rest) by lia. rewrite Heq. by rewrite take_app_length. }
      rewrite <- app_assoc in Heq. apply app_inv_head in Heq.
      rewrite length_app, length_frame_bytes in Hf.
      destruct (IH ys fuel Hok Heq) as (g1 & g2 & r & -> & Hd & Hr & Hs); [lia|].
      exists (g :: g1), g2, r. split_and!; [done| |done|done]. cbn [drain].
      eapply steps_bind; [by apply codec_decode_steps|]. cbv beta iota.
      eapply steps_bind; [exact Hd|]. apply steps_ret.
Qed.

Lemma recv_steps chunks gs r :
  Forall frame_ok gs → r ++ concat chunks = stream_bytes gs → short r gs →
  steps (b := b) (recv_loop chunks) r (Ok gs) [].
Proof.
  revert gs r. induction chunks as [|c chunks IH]; intros gs r Hok Heq Hs; cbn [recv_loop].
  - destruct gs as [|g gs]; cbn [short] in Hs; [subst; apply steps_ret|]. exfalso.
    cbn [concat] in Heq. rewrite app_nil_r in Heq. subst r. unfold stream_bytes in Hs.
    rewrite bind_cons, length_app in Hs. lia.
  - step_with steps_put. step_with steps_peek. cbn [concat] in Heq. rewrite app_assoc in Heq.
    destruct (drain_steps gs (r ++ c) (concat chunks) (S (length (r ++ c))) Hok Heq)
      as (g1 & g2 & r' & -> & Hd & Hr & Hs'); [lia|].
    apply Forall_app in Hok as [_ Hok]. eapply steps_bind; [exact Hd|]. cbv beta.
    eapply steps_bind; [by apply IH|]. apply steps_ret.
Qed.

End facts.

(** An AnyTLS session recovers its frames however the transport cuts the
    stream.  If frames with payloads of at most 65535 bytes are encoded one
    after the other into an empty buffer and the resulting bytes arrive in any
    chunks, the read loop decodes exactly those frames, in order, and leaves an
    empty buffer. *)
Theorem anytls_stream_roundtrip {b} `{BufLaws b} (fs : list Frame) (chunks : list bytes) (x y : b) :
  Forall frame_ok fs → contents x = [] → contents y = [] →
  let '(sent, x') := encode_all fs x in
  concat chunks = contents x' →
  sent = Ok tt ∧ (recv_loop chunks y).1 = Ok fs ∧ contents (recv_loop chunks y).2 = [].
Proof.
  intros Hok Hx Hy. destruct (encode_all_steps fs [] Hok x Hx) as [He Hc].
  destruct (encode_all fs x) as [sent x']. simpl in He, Hc. intros Hch.
  split; [done|]. apply (recv_steps chunks fs [] Hok); [by rewrite Hch| |done].
  destruct fs as [|f fs]; [done|]. cbn [short]. rewrite length_frame_bytes. simpl. lia.
Qed.

(** ** Settings *)
Lemma lines_join ls :
  Forall (λ l, 10 ∉ l ∧ l ≠ [] ∧ last l ≠ Some 13) ls → lines (join [10] ls) = ls.
Proof.
  intros H. destruct ls as [|l ls]; [done|]. unfold lines. rewrite split_on_join; [|done|].
  2: { eapply Forall_impl; [exact H|]. naive_solver. }
  assert (Hcr : ∀ l', last l' ≠ Some 13 → strip_cr l' = l').
  { intros l' Hl. unfold strip_cr. destruct (reverse l') as [|z r] eqn:E; [done|].
    rewrite <- head_reverse, E in Hl. simpl in Hl.
    destruct z as [|p|p]; try done. do 4 (destruct p as [p|p|]; try done). }
  induction H as [|l' ls' (_ & Hne & Hl) H IH]; [done|].
  cbn [lines_of]. destruct ls' as [|l2 ls']; [by destruct l'|]. by rewrite Hcr, IH.
Qed.

Lemma utf8_valid_join ls :
  Forall (λ l, utf8_valid l = true) ls → utf8_valid (join [10] ls) = true.
Proof.
  induction 1 as [|l ls Hl H IH]; [done|]. cbn [join]. destruct ls as [|l2 ls]; [done|].
  by repeat apply utf8_valid_app.
Qed.

Lemma setting_line k v :
  setting_ok (k, v) →
  utf8_valid (k ++ [61] ++ v) = true ∧ 10 ∉ k ++ [61] ++ v ∧ k ++ [61] ++ v ≠ [] ∧
  last (k ++ [61] ++ v) ≠ Some 13 ∧ ∀ m, add_line m (k ++ [61] ++ v) = <[k := v]> m.
Proof.
  intros (Hk & Hv & Heq & H10 & H10' & Hl). simpl in *. split_and!.
  - by repeat apply utf8_valid_app.
  - rewrite elem_of_app, elem_of_cons. intros [?|[?|?]]; try done.
  - by destruct k.
  - rewrite last_app. destruct v as [|z v]; [done|]. rewrite last_cons_cons. 
    destruct (last (z :: v)) eqn:E; [congruence|by apply last_None in E].
  - intros m. unfold add_line, split_once. rewrite find_byte_app by done. simpl.
    rewrite take_app_length. replace (k ++ 61 :: v) with ((k ++ [61]) ++ v) by by rewrite <- app_assoc.
    by rewrite drop_app_length' by (rewrite length_app; simpl; lia).
Qed.

Lemma add_lines l (m : StringMap) :
  Forall setting_ok l → foldl add_line m ((λ '(k, v), k ++ [61] ++ v) <$> l) =
    foldl (λ m '(k, v), <[k := v]> m) m l.
Proof.
  intros H. revert m. induction H as [|[k v] l Hs H IH]; intros m; [done|].
  destruct (setting_line k v Hs) as (_ & _ & _ & _ & Ha). cbn [foldl fmap list_fmap]. by rewrite Ha.
Qed.

Lemma foldl_insert_map (l : list (bytes * bytes)) (m : gmap bytes bytes) :
  foldl (λ m '(k, v), <[k := v]> m) m l = (list_to_map (reverse l) : gmap bytes bytes) ∪ m.
Proof.
  revert m. induction l as [|[k v] l IH]; intros m; [exact (eq_sym (map_empty_union m))|].
  cbn [foldl]. rewrite IH, reverse_cons, list_to_map_app. simpl.
  rewrite <- map_union_assoc. by rewrite insert_empty, <- insert_union_singleton_l.
Qed.

(** Settings survive the wire in any iteration order.  If the keys and
    values are what a line can hold, parsing the serialized map gives the map
    back, whatever order the hash map iterates in. *)
Theorem string_map_roundtrip (iter : StringMap → list (bytes * bytes)) (m : StringMap) :
  iter m ≡ₚ map_to_list m → Forall setting_ok (iter m) → from_bytes (to_bytes iter m) = m.
Proof.
  intros Hp Hok. unfold from_bytes, to_bytes. rewrite utf8_lossy_valid.
  2: { apply utf8_valid_join, Forall_fmap. eapply Forall_impl; [exact Hok|].
       intros [k v] Hs. apply (setting_line k v Hs). }
  rewrite lines_join.
  2: { apply Forall_fmap. eapply Forall_impl; [exact Hok|].
       intros [k v] Hs. destruct (setting_line k v Hs) as (_ & ? & ? & ? & _). done. }
  rewrite add_lines by done. rewrite foldl_insert_map, map_union_empty.
  rewrite <- (list_to_map_to_list m) at 2. apply list_to_map_proper.
  - rewrite reverse_Permutation, Hp. apply NoDup_fst_map_to_list.
  - by rewrite reverse_Permutation.
Qed.

(** ** Padding *)
Definition rng_ok (rng : nat → Z → Z → Z) : Prop :=
  ∀ i lo hi, lo < hi → lo ≤ rng i lo hi ≤ hi.

Lemma as_i32_small v : 0 ≤ v < 2 ^ 31 → as_i32 v = v.
Proof.
  intros Hv. unfold as_i32. rewrite wrap_small by (unfold in_width; lia).
  by rewrite (proj2 (Z.ltb_lt _ _)) by lia.
Qed.

Lemma positive_pos s v : positive s = Some v → 0 < v.
Proof.
  unfold positive. destruct (parse_i64 (trim s)) as [z|]; simpl; [|done].
  destruct (Z.ltb_spec 0 z); [|done]. by intros [= <-].
Qed.

(** A size drawn for a part lies in the part's range, or is the check mark. *)
Lemma part_size_range rng i part z :
  rng_ok rng → part_size rng i part = Some z →
  z = CHECK_MARK ∧ trim part = B "c" ∨
  ∃ lo hi, part_range (trim part) = Some (lo, hi) ∧ (hi < 2 ^ 31 → lo ≤ z ≤ hi).
Proof.
  intros Hr. unfold part_size. case_bool_decide; [naive_solver|].
  destruct (part_range (trim part)) as [[lo hi]|] eqn:E; simpl; [|done]. intros Hz. right.
  exists lo, hi. split; [done|]. intros Hhi.
  assert (0 < lo ≤ hi) as Hlo.
  { unfold part_range in E. destruct (split_once 45 (trim part)) as [[mn mx]|]; simplify_eq/=.
    destruct (positive mn) as [a|] eqn:Ea; simplify_eq/=.
    destruct (positive mx) as [c|] eqn:Ec; simplify_eq/=.
    apply positive_pos in Ea, Ec. lia. }
  destruct (Z.eqb_spec lo hi); simplify_eq; [rewrite as_i32_small by lia; lia|].
  specialize (Hr i lo hi). rewrite as_i32_small by lia. lia.
Qed.

(** Every part of a specification is a check mark or a range within bounds. *)
Definition parts_within (lo hi : Z) (spec : bytes) : bool :=
  forallb (λ part,
    bool_decide (trim part = B "c") ||
    match part_range (trim part) with
    | Some (l, h) => (lo <=? l) && (h <=? hi)
    | None => false
    end) (split_on 44 spec).

Lemma sizes_within rng f pkt spec lo hi :
  rng_ok rng → scheme f !! print_dec pkt = Some spec → hi < 2 ^ 31 →
  parts_within lo hi spec = true →
  Forall (λ z, z = CHECK_MARK ∨ lo ≤ z ≤ hi) (generate_record_payload_sizes rng f pkt).
Proof.
  intros Hr Hs Hhi Hp. unfold generate_record_payload_sizes. rewrite Hs.
  apply Forall_forall. intros z Hz. apply list_elem_of_omap in Hz as ([z'|] & Hin & [= ->]).
  apply elem_of_lookup_imap in Hin as (i & part & Hz & Hpart). symmetry in Hz.
  apply list_elem_of_lookup_2 in Hpart. unfold parts_within in Hp. rewrite forallb_forall in Hp.
  specialize (Hp part (proj1 (list_elem_of_In _ _) Hpart)).
  destruct (part_size_range rng i part z Hr Hz) as [[? _]|(l & h & Hrange & Hb)]; [by left|].
  right. apply orb_true_iff in Hp as [Hc|Hp].
  - apply bool_decide_eq_true in Hc. rewrite Hc in Hrange. by vm_compute in Hrange.
  - rewrite Hrange in Hp. to_prop. lia.
Qed.

Lemma sizes_nonempty rng f pkt spec lo hi :
  scheme f !! print_dec pkt = Some spec → parts_within lo hi spec = true →
  generate_record_payload_sizes rng f pkt ≠ [].
Proof.
  intros Hs Hp. unfold generate_record_payload_sizes. rewrite Hs. unfold parts_within in Hp.
  destruct (split_on 44 spec) as [|p ps] eqn:E; [by apply split_on_nonempty in E|].
  cbn [forallb] in Hp. apply andb_true_iff in Hp as [Hp _].
  assert (is_Some (part_size rng 0 p)) as [z Hz].
  { unfold part_size. case_bool_decide; [eauto|]. simpl in Hp.
    destruct (part_range (trim p)) as [[l h]|]; [|done]. simpl. case_match; eauto. }
  rewrite imap_cons, Hz. done.
Qed.

(** The default padding scheme is valid and bounded.  It is accepted (the
    [expect] on it cannot fail), padding stops after packet 7, and for each of
    the packets 0 to 7 and any random generator that respects its range, every
    record size is the check mark or between 9 and 1000 bytes, and there is at
    least one. *)
Theorem default_padding_bounded (md5_of : bytes → bytes) (rng : nat → Z → Z → Z) :
  rng_ok rng →
  ∃ f, default_factory md5_of = Some f ∧ stop f = 8 ∧
    Forall (λ pkt, generate_record_payload_sizes rng f pkt ≠ [] ∧
      Forall (λ z, z = CHECK_MARK ∨ 9 ≤ z ≤ 1000) (generate_record_payload_sizes rng f pkt))
      [0; 1; 2; 3; 4; 5; 6; 7].
Proof.
  intros Hr. set (m := from_bytes DEFAULT_PADDING_SCHEME).
  exists (mkFactory m DEFAULT_PADDING_SCHEME 8 (md5_of DEFAULT_PADDING_SCHEME ≫= print_02x)).
  split; [|split; [done|]].
  { unfold default_factory, PaddingFactory_new. fold m.
    replace (m !! B "stop") with (Some (B "8")) by by vm_compute. done. }
  repeat apply Forall_cons_2; [..|constructor].
  all: (split; [eapply (sizes_nonempty rng _ _ _ 9 1000); [by vm_compute|by vm_compute]
               |eapply sizes_within; [done|by vm_compute|lia|by vm_compute]]).
Qed.

(** ** Witnesses *)
Definition sample_frames : list Frame :=
  [control Syn 1; data_frame 1 [104; 105]; control Fin 1].

Lemma anytls_stream_roundtrip_witness :
  Forall frame_ok sample_frames ∧
  (recv_loop (b := bytes) [[1; 0; 0; 0]; [1; 0; 0; 2; 0; 0; 0; 1; 0; 2; 104]; [105; 3; 0; 0; 0; 1; 0; 0]] []).1
    = Ok sample_frames.
Proof.
  assert (Forall frame_ok sample_frames) as Hok.
  { repeat constructor; compute_done. }
  split; [exact Hok|].
  refine (proj1 (proj2 (anytls_stream_roundtrip (b := bytes) sample_frames
    [[1; 0; 0; 0]; [1; 0; 0; 2; 0; 0; 0; 1; 0; 2; 104]; [105; 3; 0; 0; 0; 1; 0; 0]] [] []
    Hok eq_refl eq_refl _))).
  vm_compute. reflexivity.
Defined.

Definition sample_settings : StringMap :=
  {[ B "v" := B "2"; B "client" := B "shoes/0.2"; B "padding-md5" := B "" ]}.

Lemma string_map_roundtrip_witness :
  from_bytes (to_bytes map_to_list sample_settings) = sample_settings.
Proof.
  apply (string_map_roundtrip map_to_list sample_settings).
  - reflexivity.
  - compute_done.
Defined.

Lemma default_padding_bounded_witness :
  rng_ok (λ _ lo _, lo) ∧
  ∃ f, default_factory id = Some f ∧ stop f = 8 ∧
    Forall (λ pkt, generate_record_payload_sizes (λ _ lo _, lo) f pkt ≠ [] ∧
      Forall (λ z, z = CHECK_MARK ∨ 9 ≤ z ≤ 1000)
        (generate_record_payload_sizes (λ _ lo _, lo) f pkt))
      [0; 1; 2; 3; 4; 5; 6; 7].
Proof.
  assert (rng_ok (λ _ lo _, lo)) as Hr by (intros i lo hi; lia).
  split; [exact Hr|]. exact (default_padding_bounded id (λ _ lo _, lo) Hr).
Defined.

End AnyTls.
