(* ===== verification/UotAddr.v ===== *)
(** * Packet addresses of UDP-over-TCP ([src/uot/uot_common.rs], [src/uot/socks_addr.rs])

    Two self-delimiting address formats that differ in their type bytes only.
    Shown: what the writer puts in front of a packet is what the parser reads,
    with the same length, whatever the packet holds; and a truncated address is
    recognised as such at every length. *)
From S2P Require Import Prelude Text Address.
Import Net Addr.
Local Open Scope Z_scope.

Module Uot.

(** Type bytes of the UoT [AddrParser] format and of the SOCKS format. *)
Record atyps := mkAtyps { ATYP_IPV4 : Z; ATYP_IPV6 : Z; ATYP_DOMAIN : Z }.
Definition uot_atyps : atyps := mkAtyps 0 1 2.
Definition socks_atyps : atyps := mkAtyps 1 4 3.

(** The body the two parsers share. *)
Definition parse_packet_address (k : atyps) (data : bytes) : outcome (option (NetLocation * nat)) :=
  match data with
  | [] => Ok None
  | atyp :: _ =>
      if atyp =? ATYP_IPV4 k then
        if (length data <? 7)%nat then Ok None
        else
          ip ← slice data 1 5;
          port ← slice data 5 7;
          Ok (Some (mkNetLocation (Ipv4 ip) (be_decode port), 7%nat))
      else if atyp =? ATYP_IPV6 k then
        if (length data <? 19)%nat then Ok None
        else
          ip ← slice data 1 17;
          port ← slice data 17 19;
          Ok (Some (mkNetLocation (Ipv6 ip) (be_decode port), 19%nat))
      else if atyp =? ATYP_DOMAIN k then
        if (length data <? 2)%nat then Ok None
        else
          domain_len ← index data 1;
          let domain_len := Z.to_nat domain_len in
          let total_len := (1 + 1 + domain_len + 2)%nat in
          if (length data <? total_len)%nat then Ok None
          else
            domain ← slice data 2 (2 + domain_len);
            if utf8_valid domain then
              port ← slice data (2 + domain_len) (4 + domain_len);
              Ok (Some (mkNetLocation (Hostname domain) (be_decode port), total_len))
            else err Other "invalid domain"
      else err Other "unknown ATYP"
  end.

Definition parse_uot_address (data : bytes) : outcome (option (NetLocation * nat)) :=
  parse_packet_address uot_atyps data.
Definition parse_socks_packet_address (data : bytes) : outcome (option (NetLocation * nat)) :=
  parse_packet_address socks_atyps data.

(** [buf[i..i + xs.len()].copy_from_slice(xs)] *)
Definition copy_at (i : nat) (xs : bytes) (buf : bytes) : outcome bytes :=
  if (i + length xs <=? length buf)%nat
  then Ok (take i buf ++ xs ++ drop (i + length xs) buf) else Panic.

Definition write_packet_address (k : atyps) (buf : bytes) (addr : SocketAddr)
    : outcome (bytes * nat) :=
  match sa_ip addr with
  | V4 ip =>
      buf ← copy_at 0 [ATYP_IPV4 k] buf;
      buf ← copy_at 1 ip buf;
      buf ← copy_at 5 (be_encode 2 (sa_port addr)) buf;
      Ok (buf, 7%nat)
  | V6 ip =>
      buf ← copy_at 0 [ATYP_IPV6 k] buf;
      buf ← copy_at 1 ip buf;
      buf ← copy_at 17 (be_encode 2 (sa_port addr)) buf;
      Ok (buf, 19%nat)
  end.

Definition write_uot_address (buf : bytes) (addr : SocketAddr) : outcome (bytes * nat) :=
  write_packet_address uot_atyps buf addr.
Definition write_socks_packet_address (buf : bytes) (addr : SocketAddr) : outcome (bytes * nat) :=
  write_packet_address socks_atyps buf addr.

(** The location a socket address denotes. *)
Definition location_of (addr : SocketAddr) : NetLocation :=
  mkNetLocation match sa_ip addr with V4 o => Ipv4 o | V6 o => Ipv6 o end (sa_port addr).

Definition sockaddr_ok (addr : SocketAddr) : Prop := ip_ok (sa_ip addr) ∧ in_width 16 (sa_port addr).

(** ** Facts *)
Definition distinct (k : atyps) : Prop :=
  ATYP_IPV4 k ≠ ATYP_IPV6 k ∧ ATYP_IPV4 k ≠ ATYP_DOMAIN k ∧ ATYP_IPV6 k ≠ ATYP_DOMAIN k.

(** What the writer puts on the wire. *)
Definition address_wire (k : atyps) (addr : SocketAddr) : bytes :=
  match sa_ip addr with
  | V4 o => ATYP_IPV4 k :: o ++ be_encode 2 (sa_port addr)
  | V6 o => ATYP_IPV6 k :: o ++ be_encode 2 (sa_port addr)
  end.

Lemma copy_at_front pre old post xs :
  length old = length xs → copy_at (length pre) xs (pre ++ old ++ post) = Ok (pre ++ xs ++ post).
Proof.
  intros Hl. unfold copy_at. rewrite (proj2 (Nat.leb_le _ _)).
  2: { rewrite !length_app. lia. }
  rewrite take_app_length, <- Hl. f_equal. f_equal. f_equal.
  by rewrite app_assoc, drop_app_length' by (rewrite length_app; lia).
Qed.

Lemma length_address_wire k addr :
  sockaddr_ok addr →
  length (address_wire k addr) = match sa_ip addr with V4 _ => 7%nat | V6 _ => 19%nat end.
Proof.
  intros [Hip _]. unfold address_wire. destruct (sa_ip addr) as [o|o]; destruct Hip as [Ho _];
    simpl; rewrite ?length_app; simpl; lia.
Qed.

(** Three consecutive fields written over the front of a buffer. *)
Lemma write_fields (a : Z) (o p buf : bytes) (n total : nat) :
  (1 + length o + length p ≤ length buf)%nat → n = (1 + length o)%nat →
  (buf ← copy_at 0 [a] buf; buf ← copy_at 1 o buf; buf ← copy_at n p buf; Ok (buf, total)) =
  Ok ((a :: o ++ p) ++ drop (1 + length o + length p) buf, total).
Proof.
  intros Hl ->. destruct buf as [|z buf]; [simpl in Hl; lia|].
  change (copy_at 0 [a] (z :: buf)) with (copy_at (length (@nil Z)) [a] ([] ++ [z] ++ buf)).
  rewrite copy_at_front by done. cbn [mbind outcome_bind app].
  rewrite <- (take_drop (length o) buf). set (tl := drop (length o) buf).
  assert (length (take (length o) buf) = length o) as Ho by (rewrite length_take; simpl in Hl; lia).
  change (copy_at 1 o (a :: take (length o) buf ++ tl))
    with (copy_at (length [a]) o ([a] ++ take (length o) buf ++ tl)).
  rewrite copy_at_front by done. cbn [mbind outcome_bind].
  rewrite <- (take_drop (length p) tl), app_assoc.
  replace (1 + length o)%nat with (length ([a] ++ o)) at 1 by by rewrite length_app.
  rewrite copy_at_front; last first.
  { unfold tl. rewrite length_take, length_drop. simpl in Hl. lia. }
  cbn [mbind outcome_bind]. f_equal. f_equal. rewrite take_drop. simpl.
  rewrite <- app_assoc. f_equal. f_equal. f_equal. unfold tl.
  by rewrite take_drop, drop_drop.
Qed.

Lemma write_wire k buf addr :
  sockaddr_ok addr → (19 ≤ length buf)%nat →
  write_packet_address k buf addr =
    Ok (address_wire k addr ++ drop (length (address_wire k addr)) buf,
        length (address_wire k addr)).
Proof.
  intros Hok Hl. rewrite (length_address_wire k addr Hok). unfold write_packet_address, address_wire.
  destruct Hok as [Hip Hp]. destruct (sa_ip addr) as [o|o]; destruct Hip as [Ho _].
  - rewrite (write_fields _ o (be_encode 2 (sa_port addr)) buf 5 7); rewrite ?length_be_encode; try lia.
    by rewrite Ho.
  - rewrite (write_fields _ o (be_encode 2 (sa_port addr)) buf 17 19); rewrite ?length_be_encode; try lia.
    by rewrite Ho.
Qed.

(** The fields of an address in front of [rest]. *)
Lemma fields_slices (a : Z) (o p rest : bytes) :
  let data := a :: (o ++ p) ++ rest in
  slice data 1 (1 + length o) = Ok o ∧
  slice data (1 + length o) (1 + length o + length p) = Ok p.
Proof.
  intros data. split.
  - replace data with ([a] ++ o ++ p ++ rest) by (unfold data; by rewrite <- app_assoc).
    by apply slice_mid.
  - replace data with (([a] ++ o) ++ p ++ rest) by (unfold data; by rewrite <- !app_assoc).
    apply slice_mid; by rewrite ?length_app.
Qed.

Lemma parse_wire k addr rest :
  distinct k → sockaddr_ok addr →
  parse_packet_address k (address_wire k addr ++ rest) =
    Ok (Some (location_of addr, length (address_wire k addr))).
Proof.
  intros (H1 & H2 & H3) Hok. pose proof (length_address_wire k addr Hok) as Hw. rewrite Hw.
  unfold address_wire, location_of in *.
  destruct Hok as [Hip Hp]. destruct (sa_ip addr) as [o|o]; destruct Hip as [Ho _];
    unfold parse_packet_address; cbn [app];
    destruct (fields_slices (ATYP_IPV4 k) o (be_encode 2 (sa_port addr)) rest) as [E1 E2];
    destruct (fields_slices (ATYP_IPV6 k) o (be_encode 2 (sa_port addr)) rest) as [E3 E4];
    rewrite Ho in E1, E2, E3, E4; rewrite length_be_encode in E2, E4;
    cbn [Nat.add] in E1, E2, E3, E4.
  - rewrite Z.eqb_refl, (proj2 (Nat.ltb_ge _ _)) by (rewrite app_comm_cons, length_app, Hw; lia).
    rewrite E1, E2. cbn [mbind outcome_bind]. by rewrite be_decode_encode_small.
  - rewrite (proj2 (Z.eqb_neq _ _)) by done.
    rewrite Z.eqb_refl, (proj2 (Nat.ltb_ge _ _)) by (rewrite app_comm_cons, length_app, Hw; lia).
    rewrite E3, E4. cbn [mbind outcome_bind]. by rewrite be_decode_encode_small.
Qed.

(** Every proper prefix is recognised as truncated. *)
Lemma parse_truncated k addr n :
  distinct k → sockaddr_ok addr → (n < length (address_wire k addr))%nat →
  parse_packet_address k (take n (address_wire k addr)) = Ok None.
Proof.
  intros (H1 & H2 & H3) Hok Hn. pose proof (length_address_wire k addr Hok) as Hw.
  destruct n as [|n]; [done|].
  assert (length (take (S n) (address_wire k addr)) = S n) as Ht by (rewrite length_take; lia).
  unfold address_wire in *. destruct (sa_ip addr) as [o|o]; unfold parse_packet_address;
    cbn [take] in Ht |- *; rewrite Ht.
  - by rewrite Z.eqb_refl, (proj2 (Nat.ltb_lt _ _)) by lia.
  - rewrite (proj2 (Z.eqb_neq _ _)) by done.
    by rewrite Z.eqb_refl, (proj2 (Nat.ltb_lt _ _)) by lia.
Qed.

Lemma uot_distinct : distinct uot_atyps.
Proof. by repeat split. Qed.
Lemma socks_distinct : distinct socks_atyps.
Proof. by repeat split. Qed.

(** Packet addresses round-trip and are self-delimiting.  In a buffer of at
    least 19 bytes, both writers succeed and report the number [n] of bytes
    they wrote; the matching parser reads the same address and the same [n]
    from those bytes whatever follows them, and asks for more data on every
    proper prefix of them. *)
Theorem packet_address_roundtrip (addr : SocketAddr) (buf rest : bytes) :
  sockaddr_ok addr → (19 ≤ length buf)%nat →
  (∃ buf' n, write_uot_address buf addr = Ok (buf', n) ∧ (n ≤ length buf')%nat ∧
     parse_uot_address (take n buf' ++ rest) = Ok (Some (location_of addr, n)) ∧
     ∀ i, (i < n)%nat → parse_uot_address (take i buf') = Ok None) ∧
  (∃ buf' n, write_socks_packet_address buf addr = Ok (buf', n) ∧ (n ≤ length buf')%nat ∧
     parse_socks_packet_address (take n buf' ++ rest) = Ok (Some (location_of addr, n)) ∧
     ∀ i, (i < n)%nat → parse_socks_packet_address (take i buf') = Ok None).
Proof.
  intros Hok Hl.
  assert (H : ∀ k, distinct k → ∃ buf' n, write_packet_address k buf addr = Ok (buf', n) ∧
     (n ≤ length buf')%nat ∧
     parse_packet_address k (take n buf' ++ rest) = Ok (Some (location_of addr, n)) ∧
     ∀ i, (i < n)%nat → parse_packet_address k (take i buf') = Ok None).
  { intros k Hk. eexists _, _. split_and!.
    - by apply write_wire.
    - rewrite length_app. lia.
    - rewrite take_app_length. by apply parse_wire.
    - intros i Hi. rewrite take_app_le by lia. by apply parse_truncated. }
  split; [apply (H uot_atyps uot_distinct)|apply (H socks_atyps socks_distinct)].
Qed.

Lemma packet_address_roundtrip_witness :
  sockaddr_ok (mkSocketAddr (V4 [192; 168; 1; 1]) 8080) ∧
  ∃ buf' n, write_uot_address (replicate 32 0) (mkSocketAddr (V4 [192; 168; 1; 1]) 8080) =
      Ok (buf', n) ∧
    parse_uot_address (take n buf' ++ [1; 2; 3]) =
      Ok (Some (mkNetLocation (Ipv4 [192; 168; 1; 1]) 8080, n)).
Proof.
  assert (sockaddr_ok (mkSocketAddr (V4 [192; 168; 1; 1]) 8080)) as Hok
    by (split; [split|]; compute_done).
  split; [exact Hok|].
  destruct (packet_address_roundtrip (mkSocketAddr (V4 [192; 168; 1; 1]) 8080) (replicate 32 0)
    [1; 2; 3]) as [(buf' & n & H1 & _ & H2 & _) _].
  - exact Hok.
  - simpl. lia.
  - exists buf', n. split; [exact H1|exact H2].
Defined.

End Uot.
