(* ===== verification/TlsDeframer.v ===== *)
(** * Reassembling TLS records ([src/vless/tls_deframer.rs])

    The deframer of a Vision stream: bytes are fed as they arrive and complete
    TLS records are taken out; the length of a record whose header has been
    checked is kept in the state.  The specification cuts the whole byte stream
    at once.  Shown: however the stream is split into feeds, and however often
    records are asked for, the records, the first error and the bytes left over
    are those of the specification. *)
From S2P Require Import Prelude Buf.
Local Open Scope Z_scope.

Module Deframer.

Definition TLS_RECORD_HEADER_SIZE : nat := 5.
Definition MAX_TLS_CIPHERTEXT_LEN : Z := 16384 + 2048.
Definition TLS_MAX_RECORD_SIZE : Z := MAX_TLS_CIPHERTEXT_LEN + 5.
Definition INITIAL_BUFFER_CAPACITY : nat := 1024.
Definition TLS_PROTOCOL_VERSION_MAJOR : Z := 3.
Definition TLS_PROTOCOL_VERSION_MINOR_MIN : Z := 1.
Definition TLS_PROTOCOL_VERSION_MINOR_MAX : Z := 3.

Inductive DeframerState := ReadingHeader | ReadingPayload (payload_len : nat).

(** The checks on a header, in the order of the source. *)
Definition check_header (content_type major minor payload_len : Z) : outcome unit :=
  if negb (major =? TLS_PROTOCOL_VERSION_MAJOR) ||
     negb ((TLS_PROTOCOL_VERSION_MINOR_MIN <=? minor) && (minor <=? TLS_PROTOCOL_VERSION_MINOR_MAX))
  then err InvalidData "Invalid TLS protocol version"
  else if MAX_TLS_CIPHERTEXT_LEN <? payload_len
  then err InvalidData "TLS record ciphertext length exceeds maximum"
  else if negb ((20 <=? content_type) && (content_type <=? 24))
  then err InvalidData "Invalid TLS content type"
  else Ok tt.

Section deframer.
Context {b : Type} `{Buf b}.

Record TlsDeframer := mkDeframer { buffer : b; state : DeframerState }.

Definition new : TlsDeframer := mkDeframer (with_capacity INITIAL_BUFFER_CAPACITY) ReadingHeader.

Definition feed (data : bytes) (d : TlsDeframer) : TlsDeframer :=
  mkDeframer (put_slice data (buffer d)) (state d).

(** The [loop] of [next_record]: the header round is followed by at most one
    payload round, so two rounds are enough. *)
Fixpoint next_record_loop (rounds : nat) (d : TlsDeframer) : outcome (option bytes) * TlsDeframer :=
  match rounds with
  | O => (Panic, d)
  | S rounds =>
      match state d with
      | ReadingHeader =>
          match contents (buffer d) with
          | content_type :: version_major :: version_minor :: l1 :: l2 :: _ =>
              let payload_len := be_decode [l1; l2] in
              match check_header content_type version_major version_minor payload_len with
              | Ok _ =>
                  next_record_loop rounds
                    (mkDeframer (buffer d) (ReadingPayload (Z.to_nat payload_len)))
              | Err e => (Err e, d)
              | Panic => (Panic, d)
              end
          | _ => (Ok None, d)
          end
      | ReadingPayload payload_len =>
          let total_len := (TLS_RECORD_HEADER_SIZE + payload_len)%nat in
          if (length (contents (buffer d)) <? total_len)%nat then (Ok None, d)
          else
            match split_to total_len (buffer d) with
            | (Ok record, x) => (Ok (Some record), mkDeframer x ReadingHeader)
            | (Err e, x) => (Err e, mkDeframer x (state d))
            | (Panic, x) => (Panic, mkDeframer x (state d))
            end
      end
  end.

Definition next_record : TlsDeframer → outcome (option bytes) * TlsDeframer := next_record_loop 2.

Definition pending_bytes (d : TlsDeframer) : nat := length (contents (buffer d)).

(** [next_records]: the records found before an error are dropped with it. *)
Fixpoint next_records (fuel : nat) (d : TlsDeframer) : outcome (list bytes) * TlsDeframer :=
  match fuel with
  | O => (Ok [], d)
  | S fuel =>
      match next_record d with
      | (Ok None, d) => (Ok [], d)
      | (Ok (Some record), d) =>
          match next_records fuel d with
          | (Ok records, d) => (Ok (record :: records), d)
          | r => r
          end
      | (Err e, d) => (Err e, d)
      | (Panic, d) => (Panic, d)
      end
  end.

Definition remaining_data (d : TlsDeframer) : bytes := contents (buffer d).
Definition into_remaining_data (d : TlsDeframer) : bytes := contents (buffer d).

Definition clear_deframer (d : TlsDeframer) : TlsDeframer :=
  mkDeframer (clear (buffer d)) ReadingHeader.

(** [std::mem::take] leaves an empty buffer; the state is kept. *)
Definition deallocate (d : TlsDeframer) : TlsDeframer := mkDeframer (with_capacity 0) (state d).

(** ** A reader: feed a chunk, take records until there is none or an error *)
Fixpoint take_records (fuel : nat) (d : TlsDeframer) : list bytes * option io_error * TlsDeframer :=
  match fuel with
  | O => ([], None, d)
  | S fuel =>
      match next_record d with
      | (Ok None, d) => ([], None, d)
      | (Ok (Some record), d) =>
          let '(records, e, d) := take_records fuel d in (record :: records, e, d)
      | (Err e, d) => ([], Some e, d)
      | (Panic, d) => ([], None, d)
      end
  end.

(** Feeds with the records each of them completes; an error ends the reading. *)
Fixpoint read_chunks (chunks : list bytes) (d : TlsDeframer)
    : list bytes * option io_error * TlsDeframer :=
  match chunks with
  | [] => ([], None, d)
  | c :: chunks =>
      let d := feed c d in
      match take_records (S (pending_bytes d)) d with
      | (records, Some e, d) => (records, Some e, d)
      | (records, None, d) =>
          let '(more, e, d) := read_chunks chunks d in (records ++ more, e, d)
      end
  end.
End deframer.

Arguments TlsDeframer : clear implicits.

(** ** The specification: cut the stream *)
Inductive header_result := NeedMore | Malformed (e : io_error) | RecordOf (total : nat).

Definition header (bs : bytes) : header_result :=
  match bs with
  | t :: major :: minor :: l1 :: l2 :: _ =>
      match check_header t major minor (be_decode [l1; l2]) with
      | Err e => Malformed e
      | _ => RecordOf (5 + Z.to_nat (be_decode [l1; l2]))
      end
  | _ => NeedMore
  end.

(** Records, the error that ends them, and the bytes not cut. *)
Fixpoint cut (fuel : nat) (bs : bytes) : list bytes * option io_error * bytes :=
  match fuel with
  | O => ([], None, bs)
  | S fuel =>
      match header bs with
      | NeedMore => ([], None, bs)
      | Malformed e => ([], Some e, bs)
      | RecordOf n =>
          if (length bs <? n)%nat then ([], None, bs)
          else let '(rs, e, rest) := cut fuel (drop n bs) in (take n bs :: rs, e, rest)
      end
  end.
Definition cut_stream (bs : bytes) : list bytes * option io_error * bytes := cut (S (length bs)) bs.

(** ** The specification is stable under more data *)
Lemma check_header_total t j n l : check_header t j n l ≠ Panic.
Proof. unfold check_header. repeat split_match; done. Qed.

Lemma header_need bs : header bs = NeedMore ↔ (length bs < 5)%nat.
Proof.
  destruct bs as [|t [|j [|n [|l1 [|l2 bs]]]]]; simpl; try (split; [lia|done]).
  destruct (check_header _ _ _ _); (split; [done|lia]).
Qed.

Lemma header_app bs c : header bs ≠ NeedMore → header (bs ++ c) = header bs.
Proof. destruct bs as [|t [|j [|n [|l1 [|l2 bs]]]]]; done. Qed.

Lemma header_record bs n : header bs = RecordOf n → (5 ≤ n)%nat.
Proof.
  destruct bs as [|t [|j [|m [|l1 [|l2 bs]]]]]; try done. unfold header.
  destruct (check_header _ _ _ _); try done; intros [= <-]; lia.
Qed.

Lemma cut_fuel fuel bs : (length bs < fuel)%nat → cut fuel bs = cut_stream bs.
Proof.
  unfold cut_stream. remember (length bs) as k eqn:Hk. revert fuel bs Hk.
  induction k as [k IH] using lt_wf_ind. intros [|fuel] bs -> Hf; [lia|]. cbn [cut].
  destruct (header bs) as [|e|n] eqn:E; try done.
  destruct (Nat.ltb_spec (length bs) n) as [|Hn]; [done|]. apply header_record in E.
  assert (length (drop n bs) < length bs)%nat as Hd by (rewrite length_drop; lia).
  rewrite (IH (length (drop n bs)) Hd fuel) by (rewrite ?length_drop; lia).
  by rewrite (IH (length (drop n bs)) Hd (length bs)) by (rewrite ?length_drop; lia).
Qed.

(** One round of cutting. *)
Lemma cut_stream_unfold bs :
  cut_stream bs =
  match header bs with
  | NeedMore => ([], None, bs)
  | Malformed e => ([], Some e, bs)
  | RecordOf n =>
      if (length bs <? n)%nat then ([], None, bs)
      else let '(rs, e, rest) := cut_stream (drop n bs) in (take n bs :: rs, e, rest)
  end.
Proof.
  unfold cut_stream at 1. cbn [cut]. destruct (header bs) as [|e|n] eqn:E; try done.
  destruct (Nat.ltb_spec (length bs) n) as [|Hn]; [done|]. apply header_record in E.
  by rewrite cut_fuel by (rewrite length_drop; lia).
Qed.

(** Cutting what has arrived and then the rest is cutting everything. *)
Lemma cut_stream_app bs c :
  let '(rs, e, rest) := cut_stream bs in
  cut_stream (bs ++ c) =
  match e with
  | Some _ => (rs, e, rest ++ c)
  | None => let '(rs', e', rest') := cut_stream (rest ++ c) in (rs ++ rs', e', rest')
  end.
Proof.
  remember (length bs) as k eqn:Hk. revert bs Hk. induction k as [k IH] using lt_wf_ind.
  intros bs ->. rewrite (cut_stream_unfold bs). destruct (header bs) as [|e|n] eqn:E.
  - by destruct (cut_stream (bs ++ c)) as [[rs' e'] rest'].
  - rewrite cut_stream_unfold, header_app by by rewrite E. by rewrite E.
  - destruct (Nat.ltb_spec (length bs) n) as [|Hn].
    { by destruct (cut_stream (bs ++ c)) as [[rs' e'] rest']. }
    pose proof (header_record bs n E) as H5.
    rewrite (cut_stream_unfold (bs ++ c)), header_app by by rewrite E. rewrite E, length_app.
    rewrite (proj2 (Nat.ltb_ge _ _)) by lia. rewrite take_app_le, drop_app_le by lia.
    specialize (IH (length (drop n bs))). rewrite length_drop in IH at 1.
    specialize (IH ltac:(lia) (drop n bs) eq_refl).
    destruct (cut_stream (drop n bs)) as [[rs e] rest]. rewrite IH. destruct e; [done|].
    by destruct (cut_stream (rest ++ c)) as [[rs' e'] rest'].
Qed.

Lemma app_eq_self_r {A} (l r : list A) : l = l ++ r → r = [].
Proof.
  intros Hl. apply (f_equal length) in Hl. rewrite length_app in Hl. apply nil_length_inv. lia.
Qed.

Section facts.
Context {b : Type} `{BufLaws b}.
Implicit Types d : TlsDeframer b.

(** The kept length is the one of the header at the front of the buffer. *)
Definition state_ok d : Prop :=
  match state d with
  | ReadingHeader => True
  | ReadingPayload n => header (contents (buffer d)) = RecordOf (5 + n)
  end.

Lemma payload_round rounds d n :
  state d = ReadingPayload n → header (contents (buffer d)) = RecordOf (5 + n) →
  ∃ d', state_ok d' ∧
    if (length (contents (buffer d)) <? 5 + n)%nat
    then next_record_loop (S rounds) d = (Ok None, d') ∧ buffer d' = buffer d
    else next_record_loop (S rounds) d = (Ok (Some (take (5 + n) (contents (buffer d)))), d') ∧
         contents (buffer d') = drop (5 + n) (contents (buffer d)).
Proof.
  intros Hs Hh. cbn [next_record_loop]. rewrite Hs. unfold TLS_RECORD_HEADER_SIZE.
  destruct (Nat.ltb_spec (length (contents (buffer d))) (5 + n)) as [Hlt|Hge].
  - exists d. unfold state_ok. rewrite Hs. done.
  - destruct (split_to_ok (5 + n) (buffer d)) as [H1 H2]; [lia|].
    destruct (split_to (5 + n) (buffer d)) as [o x]. simpl in H1, H2. subst o.
    by exists (mkDeframer x ReadingHeader).
Qed.

Lemma next_record_spec d :
  state_ok d →
  ∃ d', state_ok d' ∧
    match header (contents (buffer d)) with
    | NeedMore => next_record d = (Ok None, d') ∧ buffer d' = buffer d
    | Malformed e => next_record d = (Err e, d') ∧ buffer d' = buffer d
    | RecordOf n =>
        if (length (contents (buffer d)) <? n)%nat
        then next_record d = (Ok None, d') ∧ buffer d' = buffer d
        else next_record d = (Ok (Some (take n (contents (buffer d)))), d') ∧
             contents (buffer d') = drop n (contents (buffer d))
    end.
Proof.
  unfold state_ok at 1, next_record. destruct (state d) as [|n] eqn:Es.
  - intros _. destruct (header (contents (buffer d))) as [|e|n] eqn:Eh.
    + exists d. unfold state_ok. rewrite Es. split; [done|]. split; [|done].
      cbn [next_record_loop]. rewrite Es. apply header_need in Eh.
      destruct (contents (buffer d)) as [|t [|j [|m [|l1 [|l2 bs]]]]]; simpl in Eh; done || lia.
    + exists d. unfold state_ok. rewrite Es. split; [done|]. split; [|done].
      cbn [next_record_loop]. rewrite Es. unfold header in Eh.
      destruct (contents (buffer d)) as [|t [|j [|m [|l1 [|l2 bs]]]]]; try done.
      destruct (check_header t j m (be_decode [l1; l2])); by simplify_eq.
    + set (d1 := mkDeframer (buffer d) (ReadingPayload (n - 5))).
      pose proof (header_record _ _ Eh) as H5.
      destruct (payload_round 0 d1 (n - 5) eq_refl) as (d' & Hok & Hr).
      { simpl. rewrite Eh. f_equal. lia. }
      exists d'. split; [done|].
      assert (∀ rounds, next_record_loop (S rounds) d = next_record_loop rounds d1) as Hround.
      { intros rounds. unfold d1. cbn [next_record_loop]. rewrite Es.
        unfold header in Eh. destruct (contents (buffer d)) as [|t [|j [|m [|l1 [|l2 bs]]]]]; try done.
        pose proof (check_header_total t j m (be_decode [l1; l2])).
        destruct (check_header t j m (be_decode [l1; l2])); try done. injection Eh as <-.
        do 3 f_equal. lia. }
      rewrite (Hround 1%nat). replace (5 + (n - 5))%nat with n in Hr by lia. exact Hr.
  - intros Hh. rewrite Hh. by apply payload_round.
Qed.

Lemma take_records_spec fuel d :
  state_ok d →
  ∃ rs e d', take_records fuel d = (rs, e, d') ∧ state_ok d' ∧
    cut fuel (contents (buffer d)) = (rs, e, contents (buffer d')).
Proof.
  revert d. induction fuel as [|fuel IH]; intros d Hok; cbn [take_records cut].
  { exists [], None, d. done. }
  destruct (next_record_spec d Hok) as (d' & Hok' & Hn).
  destruct (header (contents (buffer d))) as [|e|n].
  - destruct Hn as [-> Hb]. exists [], None, d'. by rewrite Hb.
  - destruct Hn as [-> Hb]. exists [], (Some e), d'. by rewrite Hb.
  - destruct (length (contents (buffer d)) <? n)%nat.
    + destruct Hn as [-> Hb]. exists [], None, d'. by rewrite Hb.
    + destruct Hn as [-> Hb]. destruct (IH d' Hok') as (rs & e & d2 & -> & Hok2 & Hc).
      rewrite <- Hb, Hc. by exists (take n (contents (buffer d)) :: rs), e, d2.
Qed.

Lemma feed_ok c d : state_ok d → state_ok (feed c d).
Proof.
  unfold state_ok. destruct (state d) as [|n] eqn:E; simpl; rewrite E; [done|].
  rewrite put_slice_ok. intros Hh. rewrite header_app; [done|by rewrite Hh].
Qed.

Lemma cut_rest_drained bs rs rest :
  cut_stream bs = (rs, None, rest) → cut_stream rest = ([], None, rest).
Proof.
  intros Hc. pose proof (cut_stream_app bs []) as Ha. rewrite Hc, !app_nil_r, Hc in Ha.
  destruct (cut_stream rest) as [[rs' e'] rest']. injection Ha as Hrs <- <-.
  by rewrite (app_eq_self_r _ _ Hrs).
Qed.

Lemma read_chunks_spec chunks d :
  state_ok d → cut_stream (contents (buffer d)) = ([], None, contents (buffer d)) →
  ∃ rs e d' rest, read_chunks chunks d = (rs, e, d') ∧
    cut_stream (contents (buffer d) ++ concat chunks) = (rs, e, contents (buffer d') ++ rest) ∧
    (e = None → rest = []).
Proof.
  revert d. induction chunks as [|c chunks IH]; intros d Hok Hdr; cbn [read_chunks concat].
  { exists [], None, d, []. rewrite !app_nil_r. done. }
  destruct (take_records_spec (S (pending_bytes (feed c d))) _ (feed_ok c d Hok))
    as (rs & e & d1 & -> & Hok1 & Hc).
  rewrite cut_fuel in Hc by (unfold pending_bytes; lia). unfold feed in Hc. simpl in Hc.
  rewrite put_slice_ok in Hc. pose proof (cut_stream_app (contents (buffer d) ++ c) (concat chunks)) as Ha.
  rewrite Hc, <- app_assoc in Ha. destruct e as [e|].
  - exists rs, (Some e), d1, (concat chunks). done.
  - destruct (IH d1 Hok1 (cut_rest_drained _ _ _ Hc)) as (rs2 & e2 & d2 & rest & -> & Hc2 & He).
    rewrite Hc2 in Ha. exists (rs ++ rs2), e2, d2, rest. done.
Qed.

End facts.



(** Records are never longer than the limit the buffer comment promises. *)
Lemma cut_stream_record_size bs rs e rest :
  bytes_ok bs → cut_stream bs = (rs, e, rest) →
  Forall (λ r, (5 ≤ length r)%nat ∧ Z.of_nat (length r) ≤ TLS_MAX_RECORD_SIZE) rs.
Proof.
  remember (length bs) as k eqn:Hk. revert bs Hk rs. induction k as [k IH] using lt_wf_ind.
  intros bs -> rs Hb. rewrite cut_stream_unfold. destruct (header bs) as [|e'|n] eqn:E;
    [by intros [= <- _ _]..|].
  destruct (Nat.ltb_spec (length bs) n) as [|Hn]; [by intros [= <- _ _]|].
  destruct (cut_stream (drop n bs)) as [[rs' e'] rest'] eqn:Ec. intros [= <- <- <-].
  pose proof (header_record bs n E) as H5. constructor.
  - rewrite length_take, Nat.min_l by lia. split; [lia|].
    destruct bs as [|t [|j [|m [|l1 [|l2 bs]]]]]; try done. unfold header in E.
    destruct (check_header t j m (be_decode [l1; l2])) eqn:Eh; try done; injection E as <-;
      [|by apply check_header_total in Eh].
    unfold check_header in Eh. repeat (destruct (_ || _) in Eh; try done).
    destruct (Z.ltb_spec MAX_TLS_CIPHERTEXT_LEN (be_decode [l1; l2])); [done|].
    unfold TLS_MAX_RECORD_SIZE.
    assert (0 ≤ be_decode [l1; l2]).
    { rewrite !bytes_ok_cons in Hb. destruct Hb as (_ & _ & _ & ? & ? & _).
      apply be_decode_bound. by repeat apply Forall_cons_2. }
    lia.
  - eapply (IH (length (drop n bs))); [rewrite length_drop; lia|done| |exact Ec].
    by apply bytes_ok_drop.
Qed.

End Deframer.
