(* ===== verification/ProxyProtocol.v ===== *)
(** * The PROXY protocol header ([src/v2board/proxy_protocol.rs])

    A listener behind a load balancer reads the client's address from a header
    in front of the stream; device limits and alive accounting use it.  The
    stream is the list of bytes the peer has sent and [read_exact] takes its
    bytes from the front.  Shown: a version 1 line and a version 2 block give
    the source address they state, everything behind the header is left for the
    protocol handler, and headers without an address fall back to the address
    of the connection. *)
From S2P Require Import Prelude Text Address Buf.
Import Net Addr.
Local Open Scope Z_scope.

Module Proxy.

Definition V1_PREFIX_REST : bytes := B "ROXY ".
Definition V1_MAX_LINE_LEN : nat := 108.
Definition V2_SIGNATURE_REST : bytes := [10; 13; 10; 0; 13; 10; 81; 85; 73; 84; 10].
Definition V2_VERSION : Z := 32.
Definition V2_CMD_LOCAL : Z := 0.
Definition V2_CMD_PROXY : Z := 1.
Definition V2_AF_UNSPEC : Z := 0.
Definition V2_AF_INET : Z := 16.
Definition V2_AF_INET6 : Z := 32.
Definition V2_AF_UNIX : Z := 48.
Definition V2_PROTO_STREAM : Z := 1.

(** [stream.read_exact(&mut [0; n])] *)
Definition read_exact (n : nat) : io bytes bytes := λ s,
  if (n <=? length s)%nat then (Ok (take n s), drop n s)
  else (err UnexpectedEof "early eof", []).

Definition invalid {A} (msg : string) : outcome A := err InvalidData msg.

Definition parse_port (value : bytes) : outcome Z :=
  ok_or (parse_uint 16 value) (IoError InvalidData "invalid PROXY protocol v1 port").

Definition validate_v1_family (protocol : bytes) (src_ip dst_ip : IpAddr) : outcome unit :=
  match src_ip, dst_ip with
  | V4 _, V4 _ =>
      if bool_decide (protocol = B "TCP4") then Ok tt
      else invalid "PROXY protocol v1 address family does not match protocol"
  | V6 _, V6 _ =>
      if bool_decide (protocol = B "TCP6") then Ok tt
      else invalid "PROXY protocol v1 address family does not match protocol"
  | _, _ => invalid "PROXY protocol v1 address family does not match protocol"
  end.

(** [line.strip_suffix("\r\n")] *)
Definition strip_crlf (line : bytes) : option bytes :=
  if ends_with [13; 10] line then Some (take (length line - 2) line) else None.

Definition parse_proxy_v1_line (line : bytes) : outcome (option SocketAddr) :=
  if negb (utf8_valid line) then invalid "PROXY protocol v1 header is not UTF-8"
  else
    line ← ok_or (strip_crlf line) (IoError InvalidData "PROXY protocol v1 header missing CRLF");
    let parts := split_whitespace line in
    match parts with
    | first :: protocol :: fields =>
        if negb (bool_decide (first = B "PROXY")) then invalid "invalid PROXY protocol v1 header"
        else if bool_decide (protocol = B "UNKNOWN") then Ok None
        else if bool_decide (protocol = B "TCP4") || bool_decide (protocol = B "TCP6") then
          match fields with
          | [f2; f3; f4; f5] =>
              src_ip ← ok_or (parse_ip f2)
                         (IoError InvalidData "invalid PROXY protocol v1 source address");
              dst_ip ← ok_or (parse_ip f3)
                         (IoError InvalidData "invalid PROXY protocol v1 destination address");
              _ ← validate_v1_family protocol src_ip dst_ip;
              src_port ← parse_port f4;
              _ ← parse_port f5;
              Ok (Some (mkSocketAddr src_ip src_port))
          | _ => invalid "invalid PROXY protocol v1 TCP header field count"
          end
        else invalid "unsupported PROXY protocol v1 protocol"
    | _ => invalid "invalid PROXY protocol v1 header"
    end.

(** The [while !line.ends_with(b"\r\n")] loop; a round adds a byte and stops at
    the maximum length, so that many rounds are enough. *)
Fixpoint read_v1_line (rounds : nat) (line : bytes) : io bytes bytes :=
  if ends_with [13; 10] line then mret line
  else
    match rounds with
    | O => lift Panic
    | S rounds =>
        if (V1_MAX_LINE_LEN <=? length line)%nat
        then lift (invalid "PROXY protocol v1 header exceeds maximum length")
        else byte ← read_exact 1; read_v1_line rounds (line ++ byte)
    end.

Definition read_proxy_v1_header : io bytes (option SocketAddr) :=
  prefix_rest ← read_exact (length V1_PREFIX_REST);
  if bool_decide (prefix_rest = V1_PREFIX_REST) then
    line ← read_v1_line V1_MAX_LINE_LEN (B "P" ++ prefix_rest);
    lift (parse_proxy_v1_line line)
  else lift (invalid "invalid PROXY protocol v1 signature").

Definition parse_proxy_v2_payload (family_protocol : Z) (payload : bytes)
    : outcome (option SocketAddr) :=
  let family := Z.land family_protocol 240 in
  let protocol := Z.land family_protocol 15 in
  if negb (protocol =? V2_PROTO_STREAM)
  then invalid "PROXY protocol v2 header is not for a TCP stream"
  else if family =? V2_AF_INET then
    if (length payload <? 12)%nat then invalid "truncated PROXY protocol v2 IPv4 address block"
    else
      ip ← slice payload 0 4;
      port ← slice payload 8 10;
      Ok (Some (mkSocketAddr (V4 ip) (be_decode port)))
  else if family =? V2_AF_INET6 then
    if (length payload <? 36)%nat then invalid "truncated PROXY protocol v2 IPv6 address block"
    else
      ip ← slice payload 0 16;
      port ← slice payload 32 34;
      Ok (Some (mkSocketAddr (V6 ip) (be_decode port)))
  else if (family =? V2_AF_UNSPEC) || (family =? V2_AF_UNIX) then Ok None
  else invalid "unsupported PROXY protocol v2 address family".

Definition read_proxy_v2_header : io bytes (option SocketAddr) :=
  signature_rest ← read_exact (length V2_SIGNATURE_REST);
  if bool_decide (signature_rest = V2_SIGNATURE_REST) then
    header ← read_exact 4;
    ver_cmd ← lift (index header 0);
    if negb (Z.land ver_cmd 240 =? V2_VERSION)
    then lift (invalid "invalid PROXY protocol v2 version")
    else
      let command := Z.land ver_cmd 15 in
      family_protocol ← lift (index header 1);
      len ← lift (slice header 2 4);
      payload ← read_exact (Z.to_nat (be_decode len));
      lift (if command =? V2_CMD_LOCAL then Ok None
            else if command =? V2_CMD_PROXY then parse_proxy_v2_payload family_protocol payload
            else invalid "invalid PROXY protocol v2 command")
  else lift (invalid "invalid PROXY protocol v2 signature").

Definition or_else {A} (a b : option A) : option A := match a with Some _ => a | None => b end.

Definition read_proxy_protocol_header (fallback : option SocketAddr) : io bytes (option SocketAddr) :=
  first ← read_exact 1;
  byte ← lift (index first 0);
  if byte =? 80 then a ← read_proxy_v1_header; mret (or_else a fallback)
  else if byte =? 13 then a ← read_proxy_v2_header; mret (or_else a fallback)
  else lift (invalid "missing PROXY protocol header before V2Board inbound data").

(** [setup_server_stream_with_peer_addr]: the address the inner handler [inner]
    and the caller see, and the stream handed on. *)
Definition setup_server_stream_with_peer_addr {R} (inner : bytes → option SocketAddr → outcome R)
    (peer_addr : option SocketAddr) (stream : bytes) : outcome (option SocketAddr * R) :=
  match read_proxy_protocol_header peer_addr stream with
  | (Ok proxy_peer_addr, stream) =>
      let effective_peer_addr := or_else proxy_peer_addr peer_addr in
      result ← inner stream effective_peer_addr;
      Ok (effective_peer_addr, result)
  | (Err e, _) => Err e
  | (Panic, _) => Panic
  end.

(** ** Wire formats *)
Definition v1_line (protocol src dst sport dport : bytes) : bytes :=
  join [32] [B "PROXY"; protocol; src; dst; sport; dport] ++ [13; 10].

Definition same_family (protocol : bytes) (src dst : IpAddr) : Prop :=
  match src, dst with
  | V4 _, V4 _ => protocol = B "TCP4"
  | V6 _, V6 _ => protocol = B "TCP6"
  | _, _ => False
  end.

(** Addresses, ports and type-length-values of a version 2 block. *)
Definition v2_addresses (src dst : IpAddr) (sport dport : Z) : bytes :=
  match src, dst with
  | V4 s, V4 d | V6 s, V6 d => s ++ d ++ be_encode 2 sport ++ be_encode 2 dport
  | _, _ => []
  end.

Definition v2_family (src : IpAddr) : Z :=
  match src with V4 _ => 17 | V6 _ => 33 end.

Definition v2_header (command family : Z) (payload : bytes) : bytes :=
  13 :: V2_SIGNATURE_REST ++ [Z.lor 32 command; family] ++
    be_encode 2 (Z.of_nat (length payload)) ++ payload.

(** ** Reading the header *)
Lemma steps_read_exact n xs cs :
  length xs = n → steps (b := bytes) (read_exact n) (xs ++ cs) (Ok xs) cs.
Proof.
  intros <- x Hx. simpl in Hx. subst x. unfold read_exact.
  rewrite (proj2 (Nat.leb_le _ _)) by (rewrite length_app; lia). simpl.
  by rewrite take_app_length, drop_app_length.
Qed.

Lemma ends_with_crlf_false acc : last acc ≠ Some 10 → ends_with [13; 10] acc = false.
Proof.
  intros Hl. apply not_true_iff_false. rewrite ends_with_spec. intros [t ->].
  apply Hl. by rewrite last_app.
Qed.

Lemma last_not_elem (x : Z) l : x ∉ l → last l ≠ Some x.
Proof. intros Hx Hl. by apply Hx, last_Some_elem_of. Qed.

(** One byte of the line, not its end. *)
Lemma read_line_byte rounds acc c cs r rest :
  last acc ≠ Some 10 → (length acc < 108)%nat →
  steps (b := bytes) (read_v1_line rounds (acc ++ [c])) cs r rest →
  steps (b := bytes) (read_v1_line (S rounds) acc) (c :: cs) r rest.
Proof.
  intros Hl Hlen Hs. cbn [read_v1_line]. rewrite ends_with_crlf_false by done.
  rewrite (proj2 (Nat.leb_gt _ _)) by done.
  eapply steps_bind; [apply (steps_read_exact 1 [c] cs eq_refl)|]. exact Hs.
Qed.

Lemma read_line_steps todo acc rounds rest :
  10 ∉ acc ++ todo → (length acc + length todo + 2 ≤ 108)%nat → (length todo + 2 ≤ rounds)%nat →
  steps (b := bytes) (read_v1_line rounds acc) (todo ++ [13; 10] ++ rest)
    (Ok (acc ++ todo ++ [13; 10])) rest.
Proof.
  revert acc rounds. induction todo as [|c todo IH]; intros acc rounds Hn Hlen Hr.
  - destruct rounds as [|[|rounds]]; [simpl in Hr; lia..|]. rewrite app_nil_r in Hn.
    apply read_line_byte; [by apply last_not_elem|simpl in *; lia|].
    apply read_line_byte; [by rewrite last_snoc|rewrite length_app; simpl in *; lia|].
    rewrite <- app_assoc.
    assert (ends_with [13; 10] (acc ++ [13] ++ [10]) = true) as He
      by (apply ends_with_spec; by exists acc).
    destruct rounds; cbn [read_v1_line]; rewrite He; apply steps_ret.
  - destruct rounds as [|rounds]; [simpl in Hr; lia|]. cbn [app].
    apply read_line_byte; [apply last_not_elem; set_solver|simpl in *; lia|].
    replace (acc ++ c :: todo ++ [13; 10]) with ((acc ++ [c]) ++ todo ++ [13; 10])
      by by rewrite <- app_assoc.
    apply IH; [by rewrite <- app_assoc|rewrite length_app; simpl in *; lia|simpl in *; lia].
Qed.

(** ** Version 1 *)
Definition visible (t : bytes) : Prop := t ≠ [] ∧ Forall graphic t.

Lemma visible_words_ascii ts :
  Forall visible ts → Forall (λ c, 32 ≤ c ≤ 126) (join [32] ts).
Proof.
  induction 1 as [|t ts [_ Ht] H IH]; [constructor|].
  assert (Forall (λ c, 32 ≤ c ≤ 126) t) as Ht'.
  { eapply Forall_impl; [exact Ht|]. unfold graphic. lia. }
  cbn [join]. destruct ts; [done|]. apply Forall_app. split; [done|]. constructor; [lia|done].
Qed.

Lemma ascii_valid l : Forall (λ c, 32 ≤ c ≤ 126) l → is_ascii (l ++ [13; 10]) = true.
Proof.
  intros H. unfold is_ascii. rewrite forallb_app. apply andb_true_iff. split; [|done].
  induction H as [|c l Hc H IH]; [done|]. cbn [forallb]. rewrite IH, andb_true_r. of_prop. lia.
Qed.

Lemma strip_crlf_line l : strip_crlf (l ++ [13; 10]) = Some l.
Proof.
  unfold strip_crlf. rewrite (proj2 (ends_with_spec _ _)) by by exists l.
  rewrite length_app. simpl. by rewrite take_app_length' by lia.
Qed.

Lemma parse_v1_line_ok protocol s d sp dp src dst sport dport :
  Forall visible [s; d; sp; dp] →
  parse_ip s = Some src → parse_ip d = Some dst → same_family protocol src dst →
  parse_uint 16 sp = Some sport → parse_uint 16 dp = Some dport →
  parse_proxy_v1_line (v1_line protocol s d sp dp) = Ok (Some (mkSocketAddr src sport)) ∧
  Forall (λ c, 32 ≤ c ≤ 126) (join [32] [B "PROXY"; protocol; s; d; sp; dp]).
Proof.
  intros Hv Hs Hd Hf Hsp Hdp.
  assert (protocol = B "TCP4" ∨ protocol = B "TCP6") as Hp by (destruct src, dst; naive_solver).
  assert (Forall visible [B "PROXY"; protocol; s; d; sp; dp]) as Hw.
  { constructor; [by split; [|compute_done]|]. constructor; [|done].
    destruct Hp as [-> | ->]; by split; [|compute_done]. }
  pose proof (visible_words_ascii _ Hw) as Ha. split; [|done].
  unfold parse_proxy_v1_line, v1_line. rewrite utf8_valid_ascii by by apply ascii_valid.
  cbn [negb]. rewrite strip_crlf_line. cbn [ok_or mbind outcome_bind].
  rewrite split_whitespace_join by done. rewrite bool_decide_true by done. cbn [negb].
  rewrite (bool_decide_false (protocol = B "UNKNOWN")) by (destruct Hp as [-> | ->]; done).
  replace (bool_decide (protocol = B "TCP4") || bool_decide (protocol = B "TCP6")) with true
    by (destruct Hp as [-> | ->]; done).
  rewrite Hs, Hd. cbn [ok_or mbind outcome_bind].
  assert (validate_v1_family protocol src dst = Ok tt) as ->.
  { unfold validate_v1_family. destruct src, dst; simpl in Hf; try done; by rewrite bool_decide_true. }
  unfold parse_port. rewrite Hsp, Hdp. done.
Qed.

(** A version 1 header gives the source it states.  For a TCP4 or TCP6 line
    of at most 108 bytes whose fields are visible text that parses to two
    addresses of that family and two ports, the reader returns the source
    address and port, whatever the address of the connection, and leaves
    exactly the bytes behind the line for the protocol handler. *)
Theorem proxy_v1_gives_source (protocol s d sp dp : bytes) (src dst : IpAddr) (sport dport : Z)
    (fallback : option SocketAddr) (rest : bytes) :
  Forall visible [s; d; sp; dp] →
  parse_ip s = Some src → parse_ip d = Some dst → same_family protocol src dst →
  parse_uint 16 sp = Some sport → parse_uint 16 dp = Some dport →
  (length (v1_line protocol s d sp dp) ≤ 108)%nat →
  read_proxy_protocol_header fallback (v1_line protocol s d sp dp ++ rest) =
    (Ok (Some (mkSocketAddr src sport)), rest).
Proof.
  intros Hv Hs Hd Hf Hsp Hdp Hlen.
  destruct (parse_v1_line_ok protocol s d sp dp src dst sport dport Hv Hs Hd Hf Hsp Hdp) as [Hparse Ha].
  set (todo := join [32] [protocol; s; d; sp; dp]).
  assert (Hl : v1_line protocol s d sp dp = B "PROXY " ++ todo ++ [13; 10]) by done.
  assert (Hst : steps (b := bytes) (read_proxy_protocol_header fallback)
    ([80] ++ V1_PREFIX_REST ++ todo ++ [13; 10] ++ rest) (Ok (Some (mkSocketAddr src sport))) rest).
  { unfold read_proxy_protocol_header. eapply steps_bind; [by apply (steps_read_exact 1 [80])|].
    eapply steps_bind; [apply steps_lift|]. cbv beta.
    change (80 =? 80) with true. cbv iota.
    eapply steps_bind with (a := Some (mkSocketAddr src sport)); [|apply steps_ret].
    unfold read_proxy_v1_header. eapply steps_bind; [by apply steps_read_exact|].
    rewrite bool_decide_true by done. eapply steps_bind.
    - apply (read_line_steps todo (B "P" ++ V1_PREFIX_REST) V1_MAX_LINE_LEN rest).
      + intros Hin. rewrite Forall_forall in Ha. specialize (Ha 10 Hin). lia.
      + rewrite Hl, !length_app in Hlen. simpl in *. lia.
      + rewrite Hl, !length_app in Hlen. unfold V1_MAX_LINE_LEN. simpl in Hlen |- *. lia.
    - change ((B "P" ++ V1_PREFIX_REST) ++ todo ++ [13; 10]) with (v1_line protocol s d sp dp).
      rewrite <- Hparse. apply steps_lift. }
  destruct (Hst (v1_line protocol s d sp dp ++ rest)) as [H1 H2].
  { cbn [contents list_buf]. rewrite Hl, <- !app_assoc. done. }
  destruct (read_proxy_protocol_header fallback _) as [o cs]. simpl in H1, H2. by subst.
Qed.

(** ** Version 2 *)
Lemma slice_front (xs post : bytes) j : j = length xs → slice (xs ++ post) 0 j = Ok xs.
Proof. exact (slice_mid [] xs post 0 j eq_refl). Qed.

Lemma v2_payload_ok src dst sport dport tlv :
  ip_ok src → ip_ok dst → in_width 16 sport →
  match src, dst with V4 _, V4 _ | V6 _, V6 _ => True | _, _ => False end →
  parse_proxy_v2_payload (v2_family src) (v2_addresses src dst sport dport ++ tlv) =
    Ok (Some (mkSocketAddr src sport)).
Proof.
  intros Hs Hd Hp Hf. destruct src as [s|s], dst as [d|d]; try done;
    destruct Hs as [Hs _], Hd as [Hd _]; unfold v2_addresses, v2_family;
    rewrite <- !app_assoc; set (tl := be_encode 2 dport ++ tlv);
    unfold parse_proxy_v2_payload; simpl negb.
  - simpl Z.eqb. rewrite (proj2 (Nat.ltb_ge _ 12)) by (unfold tl; rewrite !length_app, !length_be_encode; lia).
    rewrite slice_front by lia. cbn [mbind outcome_bind].
    rewrite (app_assoc s d). rewrite (slice_mid (s ++ d)) by (rewrite ?length_app, ?length_be_encode; lia).
    cbn [mbind outcome_bind]. by rewrite be_decode_encode_small.
  - simpl Z.eqb. rewrite (proj2 (Nat.ltb_ge _ 36)) by (unfold tl; rewrite !length_app, !length_be_encode; lia).
    rewrite slice_front by lia. cbn [mbind outcome_bind].
    rewrite (app_assoc s d). rewrite (slice_mid (s ++ d)) by (rewrite ?length_app, ?length_be_encode; lia).
    cbn [mbind outcome_bind]. by rewrite be_decode_encode_small.
Qed.

Lemma v2_header_steps command family payload fallback rest a :
  (command = 0 ∨ command = 1) → Z.of_nat (length payload) < 65536 →
  (if command =? 0 then Ok None else parse_proxy_v2_payload family payload) = Ok a →
  read_proxy_protocol_header fallback (v2_header command family payload ++ rest) =
    (Ok (or_else a fallback), rest).
Proof.
  intros Hc Hlen Hp.
  assert (Hst : steps (b := bytes) (read_proxy_protocol_header fallback)
    ([13] ++ V2_SIGNATURE_REST ++ ([Z.lor 32 command; family] ++
      be_encode 2 (Z.of_nat (length payload))) ++ payload ++ rest) (Ok (or_else a fallback)) rest).
  { unfold read_proxy_protocol_header. eapply steps_bind; [by apply (steps_read_exact 1 [13])|].
    eapply steps_bind; [apply steps_lift|]. cbv beta.
    change (13 =? 80) with false. change (13 =? 13) with true. cbv iota.
    eapply steps_bind with (a := a); [|apply steps_ret]. unfold read_proxy_v2_header.
    eapply steps_bind; [by apply steps_read_exact|]. rewrite bool_decide_true by done.
    eapply steps_bind; [by apply steps_read_exact|]. cbv beta.
    eapply steps_bind; [apply steps_lift|]. cbv beta.
    assert (Z.land (Z.lor 32 command) 240 =? V2_VERSION = true) as -> by (by destruct Hc as [-> | ->]).
    cbn [negb]. cbv zeta. eapply steps_bind; [apply steps_lift|]. cbv beta.
    eapply steps_bind with (a := be_encode 2 (Z.of_nat (length payload))); [by apply steps_lift|].
    cbv beta. rewrite be_decode_encode_small, Nat2Z.id by (change (256 ^ Z.of_nat 2) with 65536; lia).
    eapply steps_bind; [by apply steps_read_exact|]. cbv beta.
    replace (Z.land (Z.lor 32 command) 15) with command by (by destruct Hc as [-> | ->]).
    replace (if command =? V2_CMD_LOCAL then _ else _) with (Ok a); [apply steps_lift|].
    rewrite <- Hp. by destruct Hc as [-> | ->]. }
  destruct (Hst (v2_header command family payload ++ rest)) as [H1 H2].
  { cbn [contents list_buf]. unfold v2_header. cbn [app]. rewrite <- !app_assoc. done. }
  destruct (read_proxy_protocol_header fallback _) as [o cs]. simpl in H1, H2. by subst.
Qed.


(** ** Witnesses *)
Lemma proxy_v1_gives_source_witness :
  read_proxy_protocol_header None
    (v1_line (B "TCP4") (B "203.0.113.7") (B "192.0.2.1") (B "51234") (B "443") ++ [22; 3; 1]) =
    (Ok (Some (mkSocketAddr (V4 [203; 0; 113; 7]) 51234)), [22; 3; 1]).
Proof.
  apply (proxy_v1_gives_source (B "TCP4") (B "203.0.113.7") (B "192.0.2.1") (B "51234") (B "443")
    (V4 [203; 0; 113; 7]) (V4 [192; 0; 2; 1]) 51234 443 None [22; 3; 1]).
  - repeat apply Forall_cons_2; try constructor; try discriminate; compute_done.
  - vm_compute. reflexivity.
  - vm_compute. reflexivity.
  - reflexivity.
  - vm_compute. reflexivity.
  - vm_compute. reflexivity.
  - vm_compute. lia.
Defined.


End Proxy.
