(* ===== verification/Stream.v ===== *)
(** * Asynchronous streams ([src/async_stream.rs], [LazyBuffer] of [src/util.rs])

    The interface between the components that move bytes: the polls of a stream
    as a class ([AsyncStream]), the contract of tokio's [AsyncRead] and
    [AsyncWrite] as laws ([StreamLaws]) over the bytes handed out and taken so
    far, and the bound the cooperative budget puts on reads ([FiniteReads]).
    [LazyBuffer] is the on-demand buffer they share.  [script] is a stream whose
    bytes arrive in pieces, an instance of all three. *)
From S2P Require Import Prelude SlideBuffer.

Module Stream.

(** ** Streams *)
Inductive Poll (A : Type) : Type :=
  | Ready (a : A)
  | Pending.
Arguments Ready {A} a.
Arguments Pending {A}.

Definition is_panic {A} (p : Poll (outcome A)) : bool :=
  match p with Ready Panic => true | _ => false end.

Notation result A := (io_error + A)%type.

(** [poll_read s n] is a read into a buffer with room for [n] bytes; it yields
    the bytes that were filled in. *)
Class AsyncStream (S : Type) := {
  poll_read : S → nat → Poll (result bytes) * S;
  poll_write : S → bytes → Poll (result nat) * S;
  poll_flush : S → Poll (result unit) * S;
  poll_shutdown : S → Poll (result unit) * S;
  supports_ping : S → bool;
  poll_write_ping : S → Poll (result bool) * S }.

(** The contract of the traits: a read fills at most the room it is given, a
    write takes a prefix of what it is given; [received] and [accepted] are the
    bytes handed out and taken so far. *)
Class StreamLaws (S : Type) `{AsyncStream S} := {
  received : S → bytes;
  accepted : S → bytes;
  read_law s n r s' : poll_read s n = (r, s') →
    accepted s' = accepted s ∧
    match r with
    | Ready (inr bs) => length bs ≤ n ∧ received s' = received s ++ bs
    | _ => received s' = received s
    end;
  write_law s bs r s' : poll_write s bs = (r, s') →
    received s' = received s ∧
    match r with
    | Ready (inr n) => n ≤ length bs ∧ accepted s' = accepted s ++ take n bs
    | _ => accepted s' = accepted s
    end;
  flush_law s r s' : poll_flush s = (r, s') →
    received s' = received s ∧ accepted s' = accepted s;
  shutdown_law s r s' : poll_shutdown s = (r, s') →
    received s' = received s ∧ accepted s' = accepted s;
  ping_law s r s' : poll_write_ping s = (r, s') →
    received s' = received s ∧ accepted s' = accepted s }.

(** Streams with at most [ready_bound] reads that deliver bytes before one that
    parks: what the cooperative budget of the runtime gives every leaf stream.
    The bound starts anew after a read that parks; a write or a flush that
    succeeds does not raise it. *)
Class FiniteReads (S : Type) `{AsyncStream S} := {
  ready_reads : S → nat;
  ready_bound : nat;
  ready_reads_bound s : ready_reads s ≤ ready_bound;
  ready_reads_law s n x bs s' :
    poll_read s n = (Ready (inr (x :: bs)), s') → ready_reads s' < ready_reads s;
  ready_reads_write s bs r s' : poll_write s bs = (Ready r, s') → ready_reads s' ≤ ready_reads s;
  ready_reads_flush s r s' : poll_flush s = (Ready r, s') → ready_reads s' ≤ ready_reads s }.

(** What the polls of a stream keep. *)
Record kept {S} `{AsyncStream S} (I : S → Prop) : Prop := {
  kept_read s n r s' : I s → poll_read s n = (r, s') → I s';
  kept_write s bs r s' : I s → poll_write s bs = (r, s') → I s';
  kept_flush s r s' : I s → poll_flush s = (r, s') → I s';
  kept_shutdown s r s' : I s → poll_shutdown s = (r, s') → I s' }.

(** States that polls lead to. *)
Inductive reaches {S} `{AsyncStream S} (s : S) : S → Prop :=
  | reaches_refl : reaches s s
  | reaches_read s1 n r s2 : reaches s s1 → poll_read s1 n = (r, s2) → reaches s s2
  | reaches_write s1 bs r s2 : reaches s s1 → poll_write s1 bs = (r, s2) → reaches s s2
  | reaches_flush s1 r s2 : reaches s s1 → poll_flush s1 = (r, s2) → reaches s s2
  | reaches_shutdown s1 r s2 : reaches s s1 → poll_shutdown s1 = (r, s2) → reaches s s2.

Lemma reaches_kept {S} `{AsyncStream S} (I : S → Prop) s s' : kept I → I s → reaches s s' → I s'.
Proof. intros [] Hs. induction 1; eauto. Qed.

(** What has been taken stays taken. *)
Lemma accepted_kept {S} `{AsyncStream S, !StreamLaws S} (xs : bytes) : kept (λ s, xs `prefix_of` accepted s).
Proof.
  split.
  - intros s n r s' Hx [-> _]%read_law. done.
  - intros s bs r s' Hx [_ Ha]%write_law. destruct r as [[e|n]|]; [by rewrite Ha| |by rewrite Ha].
    destruct Ha as [_ ->]. by apply prefix_app_r.
  - by intros s r s' Hx [_ ->]%flush_law.
  - by intros s r s' Hx [_ ->]%shutdown_law.
Qed.

Lemma received_kept {S} `{AsyncStream S, !StreamLaws S} (xs : bytes) : kept (λ s, xs `prefix_of` received s).
Proof.
  split.
  - intros s n r s' Hx [_ Hr]%read_law. destruct r as [[e|bs]|]; [by rewrite Hr| |by rewrite Hr].
    destruct Hr as [_ ->]. by apply prefix_app_r.
  - by intros s bs r s' Hx [-> _]%write_law.
  - by intros s r s' Hx [-> _]%flush_law.
  - by intros s r s' Hx [-> _]%shutdown_law.
Qed.

(** ** [LazyBuffer] *)
Record LazyBuffer := mkLazy { lazy_buf : bytes; lazy_size : nat }.

(** [junk] is the content of the memory [allocate_vec] hands out. *)
Section lazy.
Context (junk : nat → Z).

Definition lazy_new (size : nat) : LazyBuffer := mkLazy [] size.
Definition ensure (b : LazyBuffer) : LazyBuffer :=
  if length (lazy_buf b) =? 0
  then mkLazy (Slide.allocate_vec junk (lazy_size b)) (lazy_size b) else b.
Definition capacity (b : LazyBuffer) : nat := lazy_size b.
Definition release (b : LazyBuffer) : LazyBuffer :=
  if negb (length (lazy_buf b) =? 0) then mkLazy [] (lazy_size b) else b.

End lazy.

(** ** A stream: bytes that arrive in pieces, every other read parking *)
Record script := mkScript {
  todo : bytes; still_open : bool; ready : bool; piece : nat; got : bytes; put : bytes }.

Definition script_read (s : script) (n : nat) : Poll (result bytes) * script :=
  if ready s then
    match todo s with
    | [] =>
        (if still_open s then Pending else Ready (inr []), s)
    | _ =>
        let bs := take (Nat.min n (piece s)) (todo s) in
        (Ready (inr bs), mkScript (drop (Nat.min n (piece s)) (todo s)) (still_open s) false (piece s)
          (got s ++ bs) (put s))
    end
  else (Pending, mkScript (todo s) (still_open s) true (piece s) (got s) (put s)).

Definition script_write (s : script) (bs : bytes) : Poll (result nat) * script :=
  (Ready (inr (length (take (piece s) bs))),
   mkScript (todo s) (still_open s) (ready s) (piece s) (got s) (put s ++ take (piece s) bs)).

#[export] Instance script_stream : AsyncStream script := {
  poll_read := script_read;
  poll_write := script_write;
  poll_flush s := (Ready (inr tt), s);
  poll_shutdown s := (Ready (inr tt), s);
  supports_ping _ := false;
  poll_write_ping s := (Ready (inr false), s) }.

#[export] Program Instance script_laws : StreamLaws script := {
  received := got;
  accepted := put }.
Next Obligation.
  intros s n r s'. simpl. unfold script_read. intros Hr. destruct (ready s), (todo s) eqn:E, (still_open s);
    simplify_eq; simpl; rewrite ?app_nil_r; split_and!; try done; try lia; rewrite length_take; simpl; lia.
Qed.
Next Obligation.
  intros s bs r s' Hr. simpl in Hr. unfold script_write in Hr. simplify_eq. simpl. split_and!; [done| |].
  - rewrite length_take. lia.
  - f_equal. rewrite length_take, <- take_take. by rewrite (take_ge bs (length bs)) by lia.
Qed.
Next Obligation. intros s r s' Hr. simpl in Hr. by simplify_eq. Qed.
Next Obligation. intros s r s' Hr. simpl in Hr. by simplify_eq. Qed.
Next Obligation. intros s r s' Hr. simpl in Hr. by simplify_eq. Qed.

#[export] Program Instance script_finite : FiniteReads script := {
  ready_reads s := if ready s then 1 else 0;
  ready_bound := 1 }.
Next Obligation. intros s. simpl. destruct (ready s); lia. Qed.
Next Obligation.
  intros s n x bs s' Hr. simpl in *. unfold script_read in Hr.
  destruct (ready s), (todo s), (still_open s); simplify_eq; simpl; lia.
Qed.

Next Obligation. intros s bs r s' Hr. simpl in Hr. unfold script_write in Hr. by simplify_eq. Qed.
Next Obligation. intros s r s' Hr. simpl in Hr. by simplify_eq. Qed.

Definition script_of (text : string) (still_open : bool) (piece : nat) : script :=
  mkScript (B text) still_open true piece [] [].

End Stream.
