(* ===== verification/Copy.v ===== *)
(** * The bidirectional copy loop ([src/copy_bidirectional.rs])

    Every proxied TCP connection ends in this future: two circular buffers that
    move bytes between two streams, grow for bulk transfers and are given back
    while nothing is buffered, and a half-close timer.  The streams are those of
    [Stream.v]; time and the cooperative budget are inputs of each poll.
    Shown: whatever the streams do, what one side accepted and what is buffered
    is exactly what the other side delivered, in order, and nothing panics; a
    poll returns when the reader offers finitely many ready reads; an idle
    direction holds no allocation; and a half-closed connection is reclaimed at
    its deadline. *)
From S2P Require Import Prelude SlideBuffer Stream.

Module Copy.

Import Stream.

(** [junk] is the content of the memory [allocate_vec] hands out. *)
Section copy.
Context (junk : nat → Z).

(** ** [CopyBuffer] *)
Definition DEFAULT_BUF_SIZE : nat := N.to_nat 16384.
Definition BULK_BUF_SIZE : nat := N.to_nat (64 * 1024 - 64).
Definition DEFAULT_HALF_CLOSE_TIMEOUT : Z := 30.

Record BufferSizing := mkSizing { base : nat; max : nat }.
Definition fixed (size : nat) : BufferSizing := mkSizing size size.
Definition adaptive : BufferSizing := mkSizing DEFAULT_BUF_SIZE BULK_BUF_SIZE.

Record CopyBuffer := mkCopy {
  read_done : bool;
  need_flush : bool;
  need_write_ping : bool;
  start_index : nat;
  cache_length : nat;
  size : nat;
  sizing : BufferSizing;
  bulk_read_seen : bool;
  buf : LazyBuffer }.

Definition with_sizing (sizing : BufferSizing) (need_initial_flush : bool) : CopyBuffer :=
  mkCopy false need_initial_flush false 0 0 (base sizing) sizing false (lazy_new (base sizing)).

(** Assignments to the fields of [self]. *)
Definition set_flags (c : CopyBuffer) (done flush ping bulk : bool) : CopyBuffer :=
  mkCopy done flush ping (start_index c) (cache_length c) (size c) (sizing c) bulk (buf c).
Definition set_window (c : CopyBuffer) (start len : nat) : CopyBuffer :=
  mkCopy (read_done c) (need_flush c) (need_write_ping c) start len (size c) (sizing c)
    (bulk_read_seen c) (buf c).
Definition set_buf (c : CopyBuffer) (b : LazyBuffer) : CopyBuffer :=
  mkCopy (read_done c) (need_flush c) (need_write_ping c) (start_index c) (cache_length c) (size c)
    (sizing c) (bulk_read_seen c) b.
Definition set_flush (c : CopyBuffer) (flush : bool) : CopyBuffer :=
  set_flags c (read_done c) flush (need_write_ping c) (bulk_read_seen c).
Definition set_ping (c : CopyBuffer) (ping : bool) : CopyBuffer :=
  set_flags c (read_done c) (need_flush c) ping (bulk_read_seen c).
Definition set_read_done (c : CopyBuffer) : CopyBuffer :=
  set_flags c true (need_flush c) (need_write_ping c) (bulk_read_seen c).
Definition set_bulk (c : CopyBuffer) (bulk : bool) : CopyBuffer :=
  set_flags c (read_done c) (need_flush c) (need_write_ping c) bulk.

(** The debug assertion that the buffer is empty holds at both calls, which test
    for it. *)
Definition resize_empty (c : CopyBuffer) (new_size : nat) : CopyBuffer :=
  let c :=
    if negb (new_size =? size c)
    then mkCopy (read_done c) (need_flush c) (need_write_ping c) (start_index c) (cache_length c)
           new_size (sizing c) (bulk_read_seen c) (lazy_new new_size)
    else c in
  set_window c 0 (cache_length c).

Definition park_empty (c : CopyBuffer) : CopyBuffer :=
  let c := set_buf c (release (buf c)) in
  let next := if bulk_read_seen c then max (sizing c) else base (sizing c) in
  set_bulk (resize_empty c next) false.

(** The bytes a read left in the slice it was given, which starts at [at_]. *)
Definition fill (b : bytes) (at_ : nat) (bs : bytes) : bytes :=
  take at_ b ++ bs ++ drop (at_ + length bs) b.

(** The start and the end of the free slice a read goes to. *)
Definition unused (c : CopyBuffer) : nat * nat :=
  let unused_start_index := (start_index c + cache_length c) mod size c in
  (unused_start_index,
   if unused_start_index <? start_index c then start_index c else size c).

Inductive TransferState := Running | ShuttingDown | Done.

Definition has_seen_eof (t : TransferState) : bool :=
  match t with Running => false | _ => true end.
Definition is_done (t : TransferState) : bool :=
  match t with Done => true | _ => false end.

Section one_direction.
Context {R W : Type} `{AsyncStream R} `{AsyncStream W}.

(** [while !self.read_done && self.cache_length < self.size]; the result says
    whether the reader is pending.  [None] is out of fuel: every round adds at
    least a byte, so that one more than the free room is enough. *)
Fixpoint read_loop (fuel : nat) (c : CopyBuffer) (r : R)
    : option (outcome bool * CopyBuffer * R) :=
  match fuel with
  | 0 => None
  | S fuel =>
      if negb (read_done c) && (cache_length c <? size c) then
        let c :=
          if bulk_read_seen c && (cache_length c =? 0) && (size c <? max (sizing c))
          then resize_empty c (max (sizing c)) else c in
        let c := set_buf c (ensure junk (buf c)) in
        let '(i, j) := unused c in
        match slice (lazy_buf (buf c)) i j with
        | Ok room =>
            match poll_read r (length room) with
            | (Ready (inl e), r) => Some (Err e, c, r)
            | (Ready (inr bs), r) =>
                if length bs =? 0 then read_loop fuel (set_read_done c) r
                else
                  let c := set_buf c (mkLazy (fill (lazy_buf (buf c)) i bs) (lazy_size (buf c))) in
                  let c := set_window c (start_index c) (cache_length c + length bs) in
                  read_loop fuel
                    (if base (sizing c) <=? length bs then set_bulk c true else c) r
            | (Pending, r) => Some (Ok true, c, r)
            end
        | _ => Some (Panic, c, r)
        end
      else Some (Ok false, c, r)
  end.

(** [if self.need_write_ping]; the result says whether the writer is pending. *)
Definition write_ping (c : CopyBuffer) (w : W) : outcome bool * CopyBuffer * W :=
  if need_write_ping c then
    if cache_length c =? 0 then
      match poll_write_ping w with
      | (Ready (inl e), w) => (Err e, c, w)
      | (Ready (inr written), w) =>
          let c := set_ping c false in
          (Ok false, if written then set_flush c true else c, w)
      | (Pending, w) => (Ok true, c, w)
      end
    else (Ok false, set_ping c false, w)
  else (Ok false, c, w).

(** [while self.cache_length > 0]; a [written] larger than the slice would
    underflow, here a panic. *)
Fixpoint write_loop (fuel : nat) (c : CopyBuffer) (w : W)
    : option (outcome bool * CopyBuffer * W) :=
  match fuel with
  | 0 => None
  | S fuel =>
      if 0 <? cache_length c then
        match slice (lazy_buf (buf c)) (start_index c)
                (Nat.min (start_index c + cache_length c) (size c)) with
        | Ok used =>
            match poll_write w used with
            | (Ready (inl e), w) => Some (Err e, c, w)
            | (Ready (inr written), w) =>
                if written =? 0
                then Some (err WriteZero "write zero byte into writer", c, w)
                else if cache_length c <? written then Some (Panic, c, w)
                else
                  let len := cache_length c - written in
                  let c := set_window c
                    (if len =? 0 then 0 else (start_index c + written) mod size c) len in
                  write_loop fuel (set_flush c true) w
            | (Pending, w) => Some (Ok true, c, w)
            end
        | _ => Some (Panic, c, w)
        end
      else Some (Ok false, c, w)
  end.

(** [if self.need_flush]; [None] in the result is [Poll::Pending]. *)
Definition flush (c : CopyBuffer) (w : W) : Poll (outcome unit) * CopyBuffer * W :=
  if need_flush c then
    match poll_flush w with
    | (Ready (inl e), w) => (Ready (Err e), c, w)
    | (Ready (inr _), w) => (Ready (Ok tt), set_flush c false, w)
    | (Pending, w) => (Pending, c, w)
    end
  else (Ready (Ok tt), c, w).

(** A round of the outer loop of [poll_copy]: what it returns, or the state of
    the next round. *)
Definition copy_round (c : CopyBuffer) (r : R) (w : W)
    : option ((Poll (outcome unit) * CopyBuffer * R * W) + (CopyBuffer * R * W)) :=
  match read_loop (S (S (max (sizing c)))) c r with
  | None => None
  | Some (Ok read_pending, c, r) =>
      match write_ping c w with
      | (Ok ping_pending, c, w) =>
          match write_loop (S (cache_length c)) c w with
          | None => None
          | Some (Ok blocked, c, w) =>
              let write_pending := ping_pending || blocked in
              match flush c w with
              | (Ready (Ok _), c, w) =>
                  if read_done c && (cache_length c =? 0)
                  then Some (inl (Ready (Ok tt), set_buf c (release (buf c)), r, w))
                  else if read_pending || write_pending
                  then Some (inl (Pending, if cache_length c =? 0 then park_empty c else c, r, w))
                  else Some (inr (c, r, w))
              | (res, c, w) => Some (inl (res, c, r, w))
              end
          | Some (Err e, c, w) => Some (inl (Ready (Err e), c, r, w))
          | Some (Panic, c, w) => Some (inl (Ready Panic, c, r, w))
          end
      | (Err e, c, w) => Some (inl (Ready (Err e), c, r, w))
      | (Panic, c, w) => Some (inl (Ready Panic, c, r, w))
      end
  | Some (Err e, c, r) => Some (inl (Ready (Err e), c, r, w))
  | Some (Panic, c, r) => Some (inl (Ready Panic, c, r, w))
  end.

Fixpoint copy_loop (fuel : nat) (c : CopyBuffer) (r : R) (w : W)
    : option (Poll (outcome unit) * CopyBuffer * R * W) :=
  match fuel with
  | 0 => None
  | S fuel =>
      match copy_round c r w with
      | None => None
      | Some (inl res) => Some res
      | Some (inr (c, r, w)) => copy_loop fuel c r w
      end
  end.

(** [coop] is whether tokio's cooperative budget lets the task proceed. *)
Definition poll_copy (fuel : nat) (coop : bool) (c : CopyBuffer) (r : R) (w : W)
    : option (Poll (outcome unit) * CopyBuffer * R * W) :=
  if coop then copy_loop fuel c r w else Some (Pending, c, r, w).

(** ** One direction *)

(** The rounds of the loop of [transfer_one_direction], from the last. *)
Definition shut_down (w : W) : Poll (outcome unit) * TransferState * W :=
  match poll_shutdown w with
  | (Ready (inl e), w) => (Ready (Err e), ShuttingDown, w)
  | (Ready (inr _), w) => (Ready (Ok tt), Done, w)
  | (Pending, w) => (Pending, ShuttingDown, w)
  end.

Definition transfer_one_direction (fuel : nat) (coop : bool) (state : TransferState)
    (c : CopyBuffer) (r : R) (w : W)
    : option (Poll (outcome unit) * TransferState * CopyBuffer * R * W) :=
  match state with
  | Running =>
      match poll_copy fuel coop c r w with
      | None => None
      | Some (Ready (Ok _), c, r, w) =>
          let '(res, state, w) := shut_down w in Some (res, state, c, r, w)
      | Some (res, c, r, w) => Some (res, Running, c, r, w)
      end
  | ShuttingDown => let '(res, state, w) := shut_down w in Some (res, state, c, r, w)
  | Done => Some (Ready (Ok tt), Done, c, r, w)
  end.

End one_direction.

(** ** Both directions *)
Section both.
Context {A B : Type} `{AsyncStream A} `{AsyncStream B}.

(** A [Sleep] is its deadline; times are seconds. *)
Record CopyBidirectional := mkBoth {
  a : A;
  b : B;
  a_buf : CopyBuffer;
  b_buf : CopyBuffer;
  a_to_b : TransferState;
  b_to_a : TransferState;
  ping_sleep : option Z;
  half_close_timeout : option Z;
  half_close_sleep : option Z }.

(** What the runtime provides at a poll: the time, whether the budget lets each
    direction proceed, and the fuel of their loops. *)
Record tick := mkTick { now : Z; coop_a : bool; coop_b : bool; fuel : nat }.

Definition fire_ping (t : tick) (f : CopyBidirectional) : CopyBidirectional :=
  match ping_sleep f with
  | Some deadline =>
      if (deadline <=? now t)%Z
      then mkBoth (a f) (b f) (set_ping (a_buf f) (supports_ping (b f)))
             (set_ping (b_buf f) (supports_ping (a f))) (a_to_b f) (b_to_a f)
             (Some (now t + 60)%Z) (half_close_timeout f) (half_close_sleep f)
      else f
  | None => f
  end.

(** The half-close timer: whether it fires, and its new state. *)
Definition half_close (t : tick) (f : CopyBidirectional) : bool * option Z :=
  let one_side_half_closed := has_seen_eof (a_to_b f) || has_seen_eof (b_to_a f) in
  let both_sides_done := is_done (a_to_b f) && is_done (b_to_a f) in
  if one_side_half_closed && negb both_sides_done then
    match half_close_timeout f with
    | Some timeout =>
        let deadline := default (now t + timeout)%Z (half_close_sleep f) in
        ((deadline <=? now t)%Z, Some deadline)
    | None => (false, half_close_sleep f)
    end
  else (false, None).

Definition join (x y : Poll (outcome unit)) : Poll (outcome unit) :=
  match x, y with
  | Ready Panic, _ | _, Ready Panic => Ready Panic
  | Ready (Err e), _ | _, Ready (Err e) => Ready (Err e)
  | Ready (Ok _), Ready (Ok _) => Ready (Ok tt)
  | _, _ => Pending
  end.

Definition poll (t : tick) (f : CopyBidirectional)
    : option (Poll (outcome unit) * CopyBidirectional) :=
  let f := fire_ping t f in
  match transfer_one_direction (fuel t) (coop_a t) (a_to_b f) (a_buf f) (a f) (b f) with
  | None => None
  | Some (a_to_b_poll, a_to_b', a_buf', a', b') =>
      match transfer_one_direction (fuel t) (coop_b t) (b_to_a f) (b_buf f) b' a' with
      | None => None
      | Some (b_to_a_poll, b_to_a', b_buf', b', a') =>
          let f := mkBoth a' b' a_buf' b_buf' a_to_b' b_to_a' (ping_sleep f)
                     (half_close_timeout f) (half_close_sleep f) in
          let '(fired, sleep) := half_close t f in
          let f := mkBoth a' b' a_buf' b_buf' a_to_b' b_to_a' (ping_sleep f)
                     (half_close_timeout f) sleep in
          Some (if fired && negb (is_panic a_to_b_poll) && negb (is_panic b_to_a_poll)
                then Ready (Ok tt) else join a_to_b_poll b_to_a_poll, f)
      end
  end.

Definition copy_bidirectional_with_half_close_timeout_and_sizing (start : Z) (a : A) (b : B)
    (a_need_initial_flush b_need_initial_flush : bool) (half_close_timeout : option Z)
    (a_to_b_sizing b_to_a_sizing : BufferSizing) : CopyBidirectional :=
  let ping_sleep :=
    if supports_ping a || supports_ping b then Some (start + 60)%Z else None in
  mkBoth a b (with_sizing a_to_b_sizing b_need_initial_flush)
    (with_sizing b_to_a_sizing a_need_initial_flush) Running Running ping_sleep
    half_close_timeout None.

Definition copy_bidirectional (start : Z) (a : A) (b : B)
    (a_need_initial_flush b_need_initial_flush : bool) : CopyBidirectional :=
  copy_bidirectional_with_half_close_timeout_and_sizing start a b a_need_initial_flush
    b_need_initial_flush (Some DEFAULT_HALF_CLOSE_TIMEOUT) adaptive adaptive.

Definition copy_bidirectional_with_sizes (start : Z) (a : A) (b : B)
    (a_need_initial_flush b_need_initial_flush : bool) (a_to_b_buf_size b_to_a_buf_size : nat)
    : CopyBidirectional :=
  copy_bidirectional_with_half_close_timeout_and_sizing start a b a_need_initial_flush
    b_need_initial_flush (Some DEFAULT_HALF_CLOSE_TIMEOUT) (fixed a_to_b_buf_size)
    (fixed b_to_a_buf_size).

(** Polls up to the first that is ready. *)
Fixpoint run (ticks : list tick) (f : CopyBidirectional)
    : option (Poll (outcome unit) * CopyBidirectional) :=
  match ticks with
  | [] => Some (Pending, f)
  | t :: ticks =>
      match poll t f with
      | Some (Pending, f) => run ticks f
      | r => r
      end
  end.

End both.

(** ** The circular buffer *)
Definition ring_of (l : bytes) (s n : nat) : bytes := take n (drop s l ++ take s l).
Definition ring (c : CopyBuffer) : bytes :=
  ring_of (lazy_buf (buf c)) (start_index c) (cache_length c).

Lemma mod_wrap x n : n ≤ x < n + n → x mod n = x - n.
Proof.
  intros. rewrite <- (Nat.mod_small (x - n) n) by lia.
  rewrite <- (Nat.Div0.mod_add (x - n) 1 n). f_equal. lia.
Qed.

Lemma ring_of_fill l s n bs :
  s < length l → n < length l →
  let i := (s + n) mod length l in
  i + length bs ≤ (if i <? s then s else length l) →
  ring_of (fill l i bs) s (n + length bs) = ring_of l s n ++ bs ∧
  length (fill l i bs) = length l ∧ n + length bs ≤ length l.
Proof.
  intros Hs Hn i Hb. unfold ring_of, fill.
  assert (Hi : i + length bs ≤ length l).
  { destruct (_ <? _); lia. }
  split_and!; [|rewrite !length_app, length_take, length_drop; lia|].
  2: { destruct (decide (s + n < length l)) as [Hlt|Hge].
    - unfold i in *. rewrite Nat.mod_small in * by done. lia.
    - assert (i = s + n - length l) as Hieq by (apply mod_wrap; lia).
      rewrite (proj2 (Nat.ltb_lt _ _)) in Hb by lia. lia. }
  destruct (decide (s + n < length l)) as [Hlt|Hge].
  - assert (i = s + n) as -> by (unfold i; by apply Nat.mod_small).
    rewrite (drop_app_le (take _ l)) by (rewrite length_take; lia).
    rewrite <- !app_assoc, app_assoc, take_app_length'.
    2: { rewrite length_app, length_drop, length_take. lia. }
    f_equal. rewrite take_app_le by (rewrite length_drop; lia). symmetry. apply take_drop_commute.
  - assert (i = s + n - length l) as Hieq by (apply mod_wrap; lia).
    rewrite (proj2 (Nat.ltb_lt _ _)) in Hb by lia. clearbody i.
    rewrite drop_app_ge, drop_app_ge, drop_drop by (rewrite length_take; lia).
    rewrite length_take, (Nat.min_l i) by lia.
    replace (i + length bs + (s - i - length bs)) with s by lia.
    rewrite (take_app_ge (take i l)) by (rewrite length_take; lia).
    rewrite (take_app_ge bs) by (rewrite length_take; lia).
    rewrite (take_app_ge (drop s l)) by (rewrite length_drop; lia).
    rewrite (take_app_ge (drop s l)) by (rewrite length_drop; lia).
    rewrite <- app_assoc. f_equal. rewrite length_take, length_drop, (Nat.min_l i) by lia.
    rewrite app_assoc, take_app_length'.
    2: { rewrite length_app, length_take. lia. }
    f_equal. rewrite take_take. f_equal. lia.
Qed.

Lemma ring_of_consume l s n k :
  s < length l → n ≤ length l → k ≤ Nat.min (s + n) (length l) - s →
  ring_of l (if n - k =? 0 then 0 else (s + k) mod length l) (n - k) = drop k (ring_of l s n) ∧
  take k (take (Nat.min (s + n) (length l) - s) (drop s l)) = take k (ring_of l s n).
Proof.
  intros Hs Hn Hk. unfold ring_of. split.
  - destruct (_ =? _) eqn:E; to_prop.
    { rewrite E. simpl. symmetry. apply drop_ge. rewrite length_take. lia. }
    assert (Hd : ∀ x : bytes, drop k (take n x) = take (n - k) (drop k x)).
    { intros x. rewrite take_drop_commute. f_equal. f_equal. lia. }
    rewrite Hd, drop_app_le, drop_drop by (rewrite length_drop; lia).
    destruct (decide (s + k = length l)) as [Heq|Hne].
    + rewrite Heq, Nat.Div0.mod_same, drop_0, drop_all, app_nil_r. simpl.
      rewrite take_take. f_equal. lia.
    + rewrite Nat.mod_small by lia. rewrite !take_app, !take_take, length_drop.
      do 2 f_equal. lia.
  - rewrite !take_take, take_app_le by (rewrite length_drop; lia). f_equal. lia.
Qed.

Record copy_ok (c : CopyBuffer) : Prop := {
  co_sizing : 0 < base (sizing c) ≤ max (sizing c);
  co_size : base (sizing c) ≤ size c ≤ max (sizing c);
  co_lazy : lazy_size (buf c) = size c;
  co_held : length (lazy_buf (buf c)) = 0 ∨ length (lazy_buf (buf c)) = size c;
  co_start : start_index c < size c;
  co_length : cache_length c ≤ size c;
  co_empty : cache_length c = 0 → start_index c = 0;
  co_full : 0 < cache_length c → length (lazy_buf (buf c)) = size c }.

Lemma with_sizing_ok s f : 0 < base s ≤ max s → copy_ok (with_sizing s f).
Proof. intros. constructor; simpl; auto with lia. Qed.

Lemma set_flags_ok c done flush ping bulk : copy_ok c → copy_ok (set_flags c done flush ping bulk).
Proof. by intros []. Qed.

Lemma ring_empty c : cache_length c = 0 → ring c = [].
Proof. intros E. unfold ring, ring_of. by rewrite E. Qed.

Lemma length_ring c : copy_ok c → length (ring c) = cache_length c.
Proof.
  intros []. unfold ring, ring_of. rewrite length_take, length_app, length_drop, length_take.
  destruct (decide (cache_length c = 0)); [lia|]. specialize (co_full0 ltac:(lia)). lia.
Qed.

Lemma resize_empty_fields c n :
  let c' := resize_empty c n in
  cache_length c' = cache_length c ∧ sizing c' = sizing c ∧ read_done c' = read_done c ∧
  (lazy_buf (buf c) = [] → lazy_buf (buf c') = []).
Proof. unfold resize_empty. by destruct (n =? size c). Qed.

Lemma resize_empty_ok c n :
  copy_ok c → cache_length c = 0 → base (sizing c) ≤ n ≤ max (sizing c) →
  copy_ok (resize_empty c n) ∧ ring (resize_empty c n) = [].
Proof.
  intros [] E Hn. split; [|apply ring_empty; unfold resize_empty; by destruct (n =? size c)].
  unfold resize_empty. destruct (n =? size c) eqn:En; to_prop; constructor; simpl; auto with lia.
Qed.

Lemma release_ok c :
  copy_ok c → cache_length c = 0 →
  copy_ok (set_buf c (release (buf c))) ∧ lazy_buf (release (buf c)) = [] ∧
  lazy_size (release (buf c)) = lazy_size (buf c).
Proof.
  intros [] E. unfold release. destruct (length (lazy_buf (buf c)) =? 0) eqn:El; to_prop.
  - apply nil_length_inv in El. split_and!; [by constructor | done | done].
  - split_and!; [constructor; simpl; auto with lia | done | done].
Qed.

Lemma park_empty_ok c :
  copy_ok c → cache_length c = 0 →
  copy_ok (park_empty c) ∧ ring (park_empty c) = [] ∧ cache_length (park_empty c) = 0 ∧
  lazy_buf (buf (park_empty c)) = [] ∧ sizing (park_empty c) = sizing c.
Proof.
  intros Hok E. destruct (release_ok c Hok E) as (Hok' & Hb & Hs). unfold park_empty.
  set (c0 := set_buf c (release (buf c))) in *. set (n := if bulk_read_seen c0 then _ else _).
  assert (Hn : base (sizing c0) ≤ n ≤ max (sizing c0)).
  { destruct Hok'. unfold n. destruct (bulk_read_seen c0); simpl in *; lia. }
  destruct (resize_empty_ok c0 n Hok' E Hn) as [Hok2 Hr].
  destruct (resize_empty_fields c0 n) as (Hc & Hsz & _ & Hl).
  split_and!; [by apply set_flags_ok | done | | |].
  - exact (eq_trans Hc E).
  - by apply Hl.
  - exact Hsz.
Qed.

Lemma ensure_ok c :
  copy_ok c →
  let c' := set_buf c (ensure junk (buf c)) in
  copy_ok c' ∧ ring c' = ring c ∧ length (lazy_buf (buf c')) = size c.
Proof.
  intros Hok c'. unfold c', ensure. destruct (length (lazy_buf (buf c)) =? 0) eqn:El; to_prop.
  - assert (cache_length c = 0) as E by (destruct Hok; destruct (decide (cache_length c = 0)); lia).
    destruct Hok. simpl. rewrite Slide.length_allocate.
    split_and!; [|by rewrite !ring_empty | done].
    constructor; simpl; rewrite ?Slide.length_allocate; auto with lia.
  - destruct Hok. split_and!; [by destruct c; constructor | by destruct c | simpl; lia].
Qed.

(** A read into the free part. *)
Lemma fill_ok c bs :
  copy_ok c → length (lazy_buf (buf c)) = size c → cache_length c < size c →
  fst (unused c) + length bs ≤ snd (unused c) → bs ≠ [] →
  let c' := set_window
    (set_buf c (mkLazy (fill (lazy_buf (buf c)) (unused c).1 bs) (lazy_size (buf c))))
    (start_index c) (cache_length c + length bs) in
  copy_ok c' ∧ ring c' = ring c ++ bs.
Proof.
  intros Hok Hl Hc Hb Hne. unfold unused in *. cbn [fst snd] in *.
  pose proof (ring_of_fill (lazy_buf (buf c)) (start_index c) (cache_length c) bs) as Hr.
  rewrite Hl in Hr. destruct Hr as (Hr & Hlen & Hle); [apply Hok | done | done |].
  split; [|exact Hr]. destruct Hok. constructor; simpl; rewrite ?Hlen; auto with lia.
Qed.

(** ** The loops *)
Section loops.
Context {R W : Type} `{StreamLaws R} `{StreamLaws W}.

Definition flags (c : CopyBuffer) : bool * bool := (need_flush c, need_write_ping c).

(** The state in which a round of [read_loop] reads. *)
Lemma read_ready c :
  copy_ok c →
  let c1 := if bulk_read_seen c && (cache_length c =? 0) && (size c <? max (sizing c))
            then resize_empty c (max (sizing c)) else c in
  let c2 := set_buf c1 (ensure junk (buf c1)) in
  copy_ok c2 ∧ ring c2 = ring c ∧ length (lazy_buf (buf c2)) = size c2 ∧
  cache_length c2 = cache_length c ∧ sizing c2 = sizing c ∧ read_done c2 = read_done c ∧
  flags c2 = flags c ∧ size c ≤ size c2.
Proof.
  intros Hok. cbv zeta. set (grow := _ && _).
  set (c1 := if grow then _ else _).
  assert (Hc1 : copy_ok c1 ∧ ring c1 = ring c ∧ cache_length c1 = cache_length c ∧
    sizing c1 = sizing c ∧ read_done c1 = read_done c ∧ flags c1 = flags c ∧ size c ≤ size c1).
  { unfold c1. destruct grow eqn:Hg; [|done]. apply andb_true_iff in Hg as [[_ E]%andb_true_iff Hlt]. to_prop.
    destruct (resize_empty_ok c (max (sizing c)) Hok E) as [? ->]; [destruct Hok; lia|].
    rewrite (ring_empty c E). unfold resize_empty.
    rewrite (proj2 (Nat.eqb_neq _ _)) by lia. simpl. split_and!; try done.
    - by unfold resize_empty in *; rewrite (proj2 (Nat.eqb_neq _ _)) in * by lia.
    - lia. }
  clearbody c1. destruct Hc1 as (Hok1 & Hr & Hc & Hs & Hd & Hf & Hle).
  destruct (ensure_ok c1 Hok1) as (Hok2 & Hr2 & Hl). rewrite <- Hr, Hr2. by split_and!.
Qed.

(** Rounds of [read_loop] are bounded by the room and one read at the end. *)
Definition read_measure (c : CopyBuffer) : nat :=
  (max (sizing c) - cache_length c) + (if read_done c then 0 else 1).

(** Reads that delivered bytes. *)
Inductive reads : R → bytes → R → Prop :=
  | reads_nil r : reads r [] r
  | reads_cons r n x bs r1 bs' r2 :
      poll_read r n = (Ready (inr (x :: bs)), r1) → reads r1 bs' r2 →
      reads r ((x :: bs) ++ bs') r2.

Lemma read_loop_spec n c (r : R) :
  copy_ok c → read_measure c < n →
  ∃ o c' r' bs, read_loop n c r = Some (o, c', r') ∧ o ≠ Panic ∧ copy_ok c' ∧
    sizing c' = sizing c ∧ flags c' = flags c ∧ accepted r' = accepted r ∧
    received r' = received r ++ bs ∧ ring c' = ring c ++ bs ∧
    (read_done c = true → read_done c' = true) ∧
    (o = Ok false → read_done c' = true ∨ (cache_length c' = size c' ∧ reads r bs r')).
Proof.
  revert c r. induction n as [|n IH]; intros c r Hok Hn; [lia|]. cbn [read_loop].
  destruct (negb (read_done c) && (cache_length c <? size c)) eqn:Hgo.
  2: { exists (Ok false), c, r, []. rewrite !app_nil_r. split_and!; try done. intros _.
    apply andb_false_iff in Hgo as [Hgo|Hgo]; to_prop.
    - left. by destruct (read_done c).
    - right. split; [destruct Hok; lia | constructor]. }
  apply andb_true_iff in Hgo as [Hd Hlt]. to_prop.
  destruct (read_ready c Hok) as (Hok2 & Hr & Hl & Hc & Hs & Hd2 & Hf & Hsz). cbv zeta in *.
  set (c2 := set_buf _ _) in *. clearbody c2.
  destruct (unused c2) as [i j] eqn:Hu.
  assert (Hij : i ≤ j ≤ size c2).
  { unfold unused in Hu. injection Hu as <- <-. pose proof (co_start _ Hok2).
    pose proof (Nat.mod_upper_bound (start_index c2 + cache_length c2) (size c2)).
    destruct (_ <? _) eqn:?; to_prop; lia. }
  rewrite slice_Ok by lia.
  destruct (poll_read r _) as [p r'] eqn:Hread. pose proof Hread as Hp.
  apply read_law in Hp as [Hacc Hp]. rewrite length_take, length_drop in Hp.
  destruct p as [[e|bs]|].
  - exists (Err e), c2, r', []. rewrite !app_nil_r. split_and!; try done. congruence.
  - destruct Hp as [Hlen Hrec]. destruct (length bs =? 0) eqn:Eb; to_prop.
    + apply nil_length_inv in Eb as ->. rewrite app_nil_r in Hrec.
      destruct (IH (set_read_done c2) r') as (o & c' & r'' & bs & -> & G1);
        [by apply set_flags_ok | unfold read_measure in *; simpl; rewrite Hs, Hc; rewrite Hd in Hn; lia |].
      exists o, c', r'', bs. split; [done|]. rewrite <- Hacc, <- Hrec, <- Hr, <- Hs, <- Hf.
      destruct G1 as (? & ? & ? & ? & ? & ? & ? & Hd' & ?). specialize (Hd' eq_refl). by split_and!; auto.
    + destruct (fill_ok c2 bs Hok2 Hl) as [Hok3 Hr3];
        [lia | rewrite Hu; simpl; lia | by intros -> |]. rewrite Hu in Hok3, Hr3. cbn [fst] in *.
      set (c3 := set_window _ _ _) in *.
      assert (Hc3 : sizing c3 = sizing c ∧ flags c3 = flags c ∧
        cache_length c3 = cache_length c + length bs ∧ read_done c3 = read_done c).
      { unfold c3. simpl. by rewrite Hc, Hs. }
      clearbody c3. destruct Hc3 as (Hs3 & Hf3 & Hc3 & Hd3).
      set (c4 := if _ <=? _ then _ else _).
      assert (Hc4 : copy_ok c4 ∧ ring c4 = ring c3 ∧ sizing c4 = sizing c3 ∧ flags c4 = flags c3 ∧
        cache_length c4 = cache_length c3 ∧ read_done c4 = read_done c3).
      { unfold c4. destruct (_ <=? _); [|done]. split_and!; try done. by apply set_flags_ok. }
      clearbody c4. destruct Hc4 as (Hok4 & Hr4 & Hs4 & Hf4 & Hc4 & Hd4).
      destruct (IH c4 r') as (o & c' & r'' & bs' & -> & G1 & G2 & G3 & G4 & G5 & G6 & G7 & G8 & G9);
        [done | unfold read_measure in *; rewrite Hs4, Hs3, Hc4, Hc3, Hd4, Hd3; 
                pose proof (co_size _ Hok); lia|].
      exists o, c', r'', (bs ++ bs'). split_and!; try done.
      * congruence.
      * congruence.
      * congruence.
      * by rewrite G6, Hrec, app_assoc.
      * by rewrite G7, Hr4, Hr3, Hr, app_assoc.
      * congruence.
      * intros Ho. destruct (G9 Ho) as [?|[? ?]]; [by left|]. right. split; [done|].
        destruct bs as [|x bs]; [done|]. by econstructor.
  - exists (Ok true), c2, r', []. rewrite !app_nil_r. split_and!; try done. congruence.
Qed.

(** What only the writing half of a poll changes. *)
Definition keeps (c c' : CopyBuffer) : Prop :=
  sizing c' = sizing c ∧ read_done c' = read_done c.
Lemma keeps_trans c1 c2 c3 : keeps c1 c2 → keeps c2 c3 → keeps c1 c3.
Proof. unfold keeps. intuition congruence. Qed.

Lemma write_ping_spec c (w : W) :
  copy_ok c →
  ∃ o c' w', write_ping c w = (o, c', w') ∧ o ≠ Panic ∧ copy_ok c' ∧ keeps c c' ∧
    received w' = received w ∧ accepted w' = accepted w ∧ ring c' = ring c ∧
    cache_length c' = cache_length c ∧ size c' = size c.
Proof.
  intros Hok. unfold write_ping, keeps. destruct (need_write_ping c).
  2: { eexists _, _, _. by split_and!. }
  destruct (cache_length c =? 0).
  2: { eexists _, _, _. split_and!; try done. by apply set_flags_ok. }
  destruct (poll_write_ping w) as [p w'] eqn:Hp. apply ping_law in Hp as [Hp1 Hp2].
  destruct p as [[e|written]|]; eexists _, _, _; split_and!; try done; destruct written; try done;
    by repeat apply set_flags_ok.
Qed.

Lemma consume_ok c n :
  copy_ok c → 0 < cache_length c →
  n ≤ length (take (Nat.min (start_index c + cache_length c) (size c) - start_index c)
                (drop (start_index c) (lazy_buf (buf c)))) → 0 < n →
  let len := cache_length c - n in
  let c' := set_window c (if len =? 0 then 0 else (start_index c + n) mod size c) len in
  copy_ok c' ∧ ring c' = drop n (ring c) ∧ n ≤ cache_length c ∧
  take n (take (Nat.min (start_index c + cache_length c) (size c) - start_index c)
            (drop (start_index c) (lazy_buf (buf c)))) = take n (ring c).
Proof.
  intros Hok Hc Hn Hn0 len c'. pose proof (co_full _ Hok Hc) as Hl.
  pose proof (ring_of_consume (lazy_buf (buf c)) (start_index c) (cache_length c) n) as Hr.
  rewrite length_take, length_drop in Hn. rewrite Hl in Hr, Hn. destruct Hok.
  destruct Hr as [Hr Ht]; [done | done | lia |].
  split_and!; [|exact Hr | lia | exact Ht].
  assert (Hb : (if len =? 0 then 0 else (start_index c + n) mod size c) < size c).
  { destruct (_ =? _); [lia|]. apply Nat.mod_upper_bound. lia. }
  constructor; simpl; auto with lia. intros E. fold len in E. by rewrite E.
Qed.

Lemma write_loop_spec n c (w : W) :
  copy_ok c → cache_length c < n →
  ∃ o c' w' bs, write_loop n c w = Some (o, c', w') ∧ o ≠ Panic ∧ copy_ok c' ∧ keeps c c' ∧
    received w' = received w ∧ accepted w' = accepted w ++ bs ∧ ring c = bs ++ ring c' ∧
    (o = Ok false → cache_length c' = 0).
Proof.
  revert c w. induction n as [|n IH]; intros c w Hok Hn; [lia|]. cbn [write_loop].
  destruct (0 <? cache_length c) eqn:Hc; to_prop.
  2: { exists (Ok false), c, w, []. rewrite app_nil_r. split_and!; try done. lia. }
  pose proof (co_full _ Hok Hc) as Hl. rewrite slice_Ok by (destruct Hok; lia).
  destruct (poll_write w _) as [p w'] eqn:Hp. apply write_law in Hp as [Hrec Hp].
  destruct p as [[e|written]|].
  - exists (Err e), c, w', []. rewrite app_nil_r. by split_and!.
  - destruct Hp as [Hlen Hacc]. destruct (written =? 0) eqn:Ew; to_prop.
    { exists (err WriteZero "write zero byte into writer"), c, w', []. subst written.
      split_and!; try done. }
    destruct (consume_ok c written Hok Hc Hlen) as (Hok' & Hr & Hle & Ht); [lia|].
    rewrite (proj2 (Nat.ltb_ge _ _)) by done. cbv zeta in *.
    set (c1 := set_window _ _ _) in *.
    destruct (IH (set_flush c1 true) w') as (o & c' & w'' & bs & -> & G1 & G2 & G3 & G4 & G5 & G6 & G7);
      [by apply set_flags_ok | simpl; lia |].
    exists o, c', w'', (take written (ring c) ++ bs). rewrite Ht in Hacc. split_and!; try done.
    + by rewrite G4.
    + by rewrite G5, Hacc, app_assoc.
    + rewrite <- app_assoc, <- G6. change (ring (set_flush c1 true)) with (ring c1).
      by rewrite Hr, take_drop.
  - exists (Ok true), c, w', []. rewrite app_nil_r. by split_and!.
Qed.

Lemma flush_spec c (w : W) :
  copy_ok c →
  ∃ p c' w', flush c w = (p, c', w') ∧ is_panic p = false ∧ copy_ok c' ∧ keeps c c' ∧
    received w' = received w ∧ accepted w' = accepted w ∧ ring c' = ring c ∧
    cache_length c' = cache_length c ∧ size c' = size c ∧
    match p with Ready (Ok _) => need_flush c' = false | Pending => need_flush c' = true | _ => True end.
Proof.
  intros Hok. unfold flush, keeps. destruct (need_flush c) eqn:Hf.
  2: { eexists _, _, _. by split_and!. }
  destruct (poll_flush w) as [p w'] eqn:Hp. apply flush_law in Hp as [Hp1 Hp2].
  destruct p as [[e|[]]|]; eexists _, _, _; split_and!; try done. by apply set_flags_ok.
Qed.

(** The bytes that went through: what was buffered and read is what was written
    and is buffered. *)
Definition moves (c : CopyBuffer) (r : R) (w : W) (c' : CopyBuffer) (r' : R) (w' : W)
    (x y : bytes) : Prop :=
  received r' = received r ++ x ∧ accepted w' = accepted w ++ y ∧ ring c ++ x = y ++ ring c' ∧
  accepted r' = accepted r ∧ received w' = received w.

Lemma moves_trans c1 r1 w1 c2 r2 w2 c3 r3 w3 x y x' y' :
  moves c1 r1 w1 c2 r2 w2 x y → moves c2 r2 w2 c3 r3 w3 x' y' →
  moves c1 r1 w1 c3 r3 w3 (x ++ x') (y ++ y').
Proof.
  intros (A1 & A2 & A3 & A4 & A5) (B1 & B2 & B3 & B4 & B5). unfold moves.
  rewrite B1, B2, A1, A2, B4, B5, !app_assoc, A3. split_and!; try done.
  by rewrite <- !app_assoc, B3.
Qed.

(** An idle direction holds no allocation; a flush that is still due is the
    exception. *)
Definition idle_ok (c : CopyBuffer) : Prop :=
  cache_length c = 0 → need_flush c = false → lazy_buf (buf c) = [].

Definition round_post (c : CopyBuffer) (r : R) (w : W)
    (res : (Poll (outcome unit) * CopyBuffer * R * W) + (CopyBuffer * R * W)) (x y : bytes) : Prop :=
  match res with
  | inl (p, c', r', w') =>
      is_panic p = false ∧ copy_ok c' ∧ moves c r w c' r' w' x y ∧ sizing c' = sizing c ∧
      (p = Pending → idle_ok c') ∧
      (p = Ready (Ok tt) → cache_length c' = 0 ∧ read_done c' = true ∧ idle_ok c')
  | inr (c', r', w') =>
      copy_ok c' ∧ moves c r w c' r' w' x y ∧ sizing c' = sizing c ∧ cache_length c' = 0 ∧
      (cache_length c = 0 → x ≠ []) ∧ reads r x r'
  end.

Lemma moves_ring c (r : R) (w : W) c1 c2 r' w' x y :
  moves c r w c1 r' w' x y → ring c2 = ring c1 → moves c r w c2 r' w' x y.
Proof. unfold moves. by intros (? & ? & ? & ? & ?) ->. Qed.

(** The end of a round, after the flush. *)
Lemma finish_round c (r : R) (w : W) c4 r4 w4 x y (pending : bool) :
  copy_ok c4 → moves c r w c4 r4 w4 x y → sizing c4 = sizing c → need_flush c4 = false →
  (pending = false →
    cache_length c4 = 0 ∧
    (read_done c4 = false → (cache_length c = 0 → x ≠ []) ∧ reads r x r4)) →
  ∃ res,
    (if read_done c4 && (cache_length c4 =? 0)
     then Some (inl (Ready (Ok tt), set_buf c4 (release (buf c4)), r4, w4))
     else if pending
     then Some (inl (Pending, if cache_length c4 =? 0 then park_empty c4 else c4, r4, w4))
     else Some (inr (c4, r4, w4))) = Some res ∧ round_post c r w res x y.
Proof.
  intros Hok4 Hmv Hs Hf Hgo. destruct (read_done c4 && (cache_length c4 =? 0)) eqn:Hfin.
  - apply andb_true_iff in Hfin as [Hrd Hz]. to_prop.
    destruct (release_ok c4 Hok4 Hz) as (Hok5 & Hrel & _).
    eexists. split; [done|]. split_and!; try done; [|intros _; split_and!; [done | done | by intros _ _]].
    eapply moves_ring; [done|]. by rewrite !ring_empty.
  - destruct pending.
    + destruct (cache_length c4 =? 0) eqn:Hz; to_prop; eexists; (split; [done|]).
      * destruct (park_empty_ok c4 Hok4 Hz) as (Hok5 & Hr5 & Hc5 & Hb5 & Hs5).
        split_and!; try done; [|congruence|by intros _ _].
        eapply moves_ring; [done|]. by rewrite Hr5, ring_empty.
      * split_and!; try done. intros _ ?. lia.
    + destruct (Hgo eq_refl) as [Hz Hx]. rewrite Hz, andb_true_r in Hfin.
      destruct (Hx Hfin). eexists. split; [done|]. by split_and!.
Qed.

Lemma copy_round_spec c (r : R) (w : W) :
  copy_ok c → ∃ res x y, copy_round c r w = Some res ∧ round_post c r w res x y.
Proof.
  intros Hok. unfold copy_round.
  destruct (read_loop_spec (S (S (max (sizing c)))) c r Hok) as
    (o & c1 & r1 & x & -> & Ho & Hok1 & Hs1 & _ & Ha1 & Hr1 & Hx & _ & Hstop).
  { unfold read_measure. destruct (read_done c); lia. }
  destruct o as [rp|e|]; [|exists (inl (Ready (Err e), c1, r1, w)), x, []|done].
  2: { unfold round_post, moves. rewrite app_nil_r. by split_and!. }
  destruct (write_ping_spec c1 w Hok1)
    as (o & c2 & w2 & -> & Ho2 & Hok2 & [Hs2 Hd2] & Hw2 & Hw2' & Hx2 & Hc2 & Hz2).
  destruct o as [pp|e|]; [|exists (inl (Ready (Err e), c2, r1, w2)), x, []|done].
  2: { unfold round_post, moves. rewrite app_nil_r, Hx2. split_and!; try done. congruence. }
  destruct (write_loop_spec (S (cache_length c2)) c2 w2 Hok2) as
    (o & c3 & w3 & y & -> & Ho3 & Hok3 & [Hs3 Hd3] & Hw3 & Hw3' & Hx3 & Hc3); [lia|].
  assert (Hmv : moves c r w c3 r1 w3 x y).
  { unfold moves. rewrite <- Hx3, Hx2, Hw3', Hw2'. split_and!; try done. congruence. }
  destruct o as [blocked|e|]; [|exists (inl (Ready (Err e), c3, r1, w3)), x, y|done].
  2: { unfold round_post. split_and!; try done. congruence. }
  destruct (flush_spec c3 w3 Hok3) as
    (p & c4 & w4 & -> & Hp & Hok4 & [Hs4 Hd4] & Hw4 & Hw4' & Hx4 & Hc4 & Hz4 & Hf4).
  assert (Hmv' : moves c r w c4 r1 w4 x y).
  { unfold moves in *. rewrite Hx4, Hw4, Hw4'. done. }
  destruct p as [[[]|e|]|]; [|exists (inl (Ready (Err e), c4, r1, w4)), x, y|done
                             |exists (inl (Pending, c4, r1, w4)), x, y].
  2: { unfold round_post. split_and!; try done. congruence. }
  2: { unfold round_post. split_and!; try done; [congruence | intros _ _; congruence]. }
  destruct (finish_round c r w c4 r1 w4 x y (rp || (pp || blocked))) as (res & -> & Hpost);
    try done; [congruence | | by exists res, x, y].
  intros [-> [-> ->]%orb_false_iff]%orb_false_iff. specialize (Hc3 eq_refl).
  split; [congruence|]. intros Hrd. destruct (Hstop eq_refl) as [?|[Hfull Hreads]]; [congruence|].
  split; [|done]. intros Hz ->. rewrite app_nil_r in Hx.
  pose proof (length_ring c1 Hok1) as Hl. rewrite Hx, (length_ring c Hok), Hz in Hl.
  pose proof (co_start _ Hok1). lia.
Qed.

Lemma copy_loop_spec n c (r : R) (w : W) p c' r' w' :
  copy_ok c → copy_loop n c r w = Some (p, c', r', w') →
  ∃ x y, round_post c r w (inl (p, c', r', w')) x y.
Proof.
  revert c r w. induction n as [|n IH]; intros c r w Hok; [done|]. cbn [copy_loop].
  destruct (copy_round_spec c r w Hok) as (res & x & y & -> & Hpost).
  destruct res as [[[[p1 c1] r1] w1]|[[c1 r1] w1]]; [intros [= <- <- <- <-]; eauto|].
  destruct Hpost as (Hok1 & Hmv & Hs & _). intros Hrun.
  destruct (IH _ _ _ Hok1 Hrun) as (x' & y' & G1 & G2 & G3 & G4 & G5 & G6).
  exists (x ++ x'), (y ++ y'). split_and!; try done; [by eapply moves_trans | congruence].
Qed.

Lemma shut_down_spec (w : W) :
  ∃ p st w', shut_down w = (p, st, w') ∧ is_panic p = false ∧
    received w' = received w ∧ accepted w' = accepted w ∧ has_seen_eof st = true ∧
    (p = Ready (Ok tt) ↔ st = Done).
Proof.
  unfold shut_down. destruct (poll_shutdown w) as [p w'] eqn:Hp.
  apply shutdown_law in Hp as [? ?]. destruct p as [[e|[]]|]; eexists _, _, _; by split_and!.
Qed.

Definition direction_ok (st : TransferState) (c : CopyBuffer) : Prop :=
  copy_ok c ∧ (has_seen_eof st = true → cache_length c = 0).

Lemma transfer_spec n coop st c (r : R) (w : W) p st' c' r' w' :
  direction_ok st c → idle_ok c →
  transfer_one_direction n coop st c r w = Some (p, st', c', r', w') →
  is_panic p = false ∧ direction_ok st' c' ∧ (∃ x y, moves c r w c' r' w' x y) ∧
  (has_seen_eof st = true → has_seen_eof st' = true) ∧
  (p = Ready (Ok tt) ↔ st' = Done) ∧ (p = Pending ∨ p = Ready (Ok tt) → idle_ok c').
Proof.
  intros [Hok Hz] Hidle. unfold transfer_one_direction.
  assert (Hstay : ∀ r w w', received w' = received w → accepted w' = accepted w →
    moves c r w c r w' [] []).
  { intros r0 w0 w1 E1 E2. unfold moves. rewrite !app_nil_r. by split_and!. }
  destruct (shut_down_spec w) as (p1 & st1 & w1 & Hsd & Hp1 & Hrw & Haw & Heof & Hdone).
  destruct st; [| rewrite Hsd; intros [= <- <- <- <- <-]; split_and!; eauto 10; [by split; auto | apply Hdone..] |
    intros [= <- <- <- <- <-]; split_and!; eauto 10; by split].
  clear Hsd. unfold poll_copy. destruct coop.
  2: { intros [= <- <- <- <- <-]. split_and!; eauto 10; by split. }
  destruct (copy_loop n c r w) as [[[[p0 c0] r0] w0]|] eqn:Hrun; [|done].
  destruct (copy_loop_spec _ _ _ _ _ _ _ _ Hok Hrun) as (x & y & Hpan & Hok0 & Hmv & _ & Hpend & Hfin).
  destruct p0 as [[[]|e|]|]; try done.
  2-3: intros [= <- <- <- <- <-]; split_and!; [done | by split | eauto | done | by split | naive_solver].
  destruct (Hfin eq_refl) as (Hz0 & _ & Hid0).
  clear p1 st1 w1 Hp1 Hrw Haw Heof Hdone.
  destruct (shut_down_spec w0) as (p1 & st1 & w1 & -> & Hp1 & Hrw & Haw & Heof & Hdone).
  intros [= <- <- <- <- <-]. split_and!; [done | by split | | done | exact Hdone | done].
  exists x, y. unfold moves in *. by rewrite Hrw, Haw.
Qed.

(** ** Termination of a poll *)
Context `{!FiniteReads R}.

Lemma reads_progress r bs r' :
  reads r bs r' → ready_reads r' + (if bool_decide (bs = []) then 0 else 1) ≤ ready_reads r.
Proof.
  induction 1 as [|r n x bs r1 bs' r2 Hp _ IH]; [simpl; lia|].
  apply ready_reads_law in Hp. simpl. destruct (bool_decide _); lia.
Qed.

(** A poll of one direction returns within two more rounds than the reader has
    reads before it parks. *)
Lemma poll_copy_total n coop c r (w : W) :
  copy_ok c → ready_reads r + 2 ≤ n → ∃ res, poll_copy n coop c r w = Some res.
Proof.
  intros Hok Hn. unfold poll_copy. destruct coop; [|eauto].
  assert (Hn' : ready_reads r + (if cache_length c =? 0 then 1 else 2) ≤ n)
    by (destruct (_ =? _); lia).
  clear Hn. revert c r w Hok Hn'.
  induction n as [|n IH]; intros c r w Hok Hn; [destruct (_ =? _); lia|]. cbn [copy_loop].
  destruct (copy_round_spec c r w Hok) as (res & x & y & Hr & Hpost). rewrite Hr.
  destruct res as [res|[[c1 r1] w1]]; [eauto|].
  destruct Hpost as (Hok1 & _ & _ & Hz & Hx & Hreads%reads_progress).
  apply IH; [done|]. rewrite Hz. simpl.
  destruct (cache_length c =? 0) eqn:E; to_prop; [|destruct (bool_decide _); lia].
  rewrite bool_decide_eq_false_2 in Hreads by auto. lia.
Qed.

End loops.

(** ** The whole future *)
Section future.
Context {A B : Type} `{StreamLaws A} `{StreamLaws B}.
Implicit Types f : @CopyBidirectional A B.

Definition future_ok f : Prop :=
  direction_ok (a_to_b f) (a_buf f) ∧ direction_ok (b_to_a f) (b_buf f) ∧
  idle_ok (a_buf f) ∧ idle_ok (b_buf f).

(** From [f] to [f'], [xa] was read from [a] and [ya] written to [b], [xb] was
    read from [b] and [yb] written to [a]. *)
Definition flows f f' (xa ya xb yb : bytes) : Prop :=
  received (a f') = received (a f) ++ xa ∧ accepted (b f') = accepted (b f) ++ ya ∧
  ring (a_buf f) ++ xa = ya ++ ring (a_buf f') ∧
  received (b f') = received (b f) ++ xb ∧ accepted (a f') = accepted (a f) ++ yb ∧
  ring (b_buf f) ++ xb = yb ++ ring (b_buf f').

Lemma flows_refl f : flows f f [] [] [] [].
Proof. unfold flows. by rewrite !app_nil_r. Qed.

Lemma flows_trans f1 f2 f3 xa ya xb yb xa' ya' xb' yb' :
  flows f1 f2 xa ya xb yb → flows f2 f3 xa' ya' xb' yb' →
  flows f1 f3 (xa ++ xa') (ya ++ ya') (xb ++ xb') (yb ++ yb').
Proof.
  intros (A1 & A2 & A3 & A4 & A5 & A6) (B1 & B2 & B3 & B4 & B5 & B6). unfold flows.
  rewrite B1, B2, B4, B5, A1, A2, A4, A5, !app_assoc, A3, A6.
  by rewrite <- !app_assoc, B3, B6.
Qed.

Lemma fire_ping_spec t f :
  let f' := fire_ping t f in
  (future_ok f → future_ok f') ∧ flows f f' [] [] [] [] ∧ a_to_b f' = a_to_b f ∧
  b_to_a f' = b_to_a f ∧ half_close_timeout f' = half_close_timeout f ∧
  half_close_sleep f' = half_close_sleep f.
Proof.
  unfold fire_ping. destruct (ping_sleep f) as [d|]; [destruct (_ <=? _)%Z|];
    (split_and!; [|try apply flows_refl|..]; try done).
  - intros ([? ?] & [? ?] & ? & ?). split_and!; try done; (split; [by apply set_flags_ok | done]).
  - unfold flows. by rewrite !app_nil_r.
Qed.

Definition seen f : bool := has_seen_eof (a_to_b f) || has_seen_eof (b_to_a f).

Lemma join_Ready_Ok x y : join x y = Ready (Ok tt) → x = Ready (Ok tt) ∧ y = Ready (Ok tt).
Proof. destruct x as [[[]|?|]|], y as [[[]|?|]|]; done. Qed.
Lemma join_Pending x y : join x y = Pending → ¬ (x = Ready (Ok tt) ∧ y = Ready (Ok tt)) ∧
  (x = Pending ∨ x = Ready (Ok tt)) ∧ (y = Pending ∨ y = Ready (Ok tt)).
Proof. destruct x as [[[]|?|]|], y as [[[]|?|]|]; naive_solver. Qed.
Lemma join_panic x y : is_panic x = false → is_panic y = false → is_panic (join x y) = false.
Proof. by destruct x as [[[]|?|]|], y as [[[]|?|]|]. Qed.

Record poll_post t f (p : Poll (outcome unit)) f' : Prop := {
  pp_panic : is_panic p = false;
  pp_flows : ∃ xa ya xb yb, flows f f' xa ya xb yb;
  pp_a : direction_ok (a_to_b f') (a_buf f');
  pp_b : direction_ok (b_to_a f') (b_buf f');
  pp_timeout : half_close_timeout f' = half_close_timeout f;
  pp_seen : seen f = true → seen f' = true;
  pp_pending : p = Pending → future_ok f' ∧
    (∀ timeout, half_close_timeout f = Some timeout → seen f' = true →
      let d := default (now t + timeout)%Z (half_close_sleep f) in
      half_close_sleep f' = Some d ∧ (now t < d)%Z) ∧
    (seen f' = false → half_close_sleep f' = None);
  pp_done : p = Ready (Ok tt) →
    (a_to_b f' = Done ∧ b_to_a f' = Done) ∨
    ∃ d, half_close_sleep f' = Some d ∧ (d ≤ now t)%Z }.

Lemma half_close_spec t f fired sleep :
  half_close t f = (fired, sleep) →
  (fired = true → ∃ d, sleep = Some d ∧ (d ≤ now t)%Z) ∧
  (fired = false → is_done (a_to_b f) && is_done (b_to_a f) = false →
    (∀ timeout, half_close_timeout f = Some timeout → seen f = true →
      let d := default (now t + timeout)%Z (half_close_sleep f) in
      sleep = Some d ∧ (now t < d)%Z)) ∧
  (seen f = false → sleep = None).
Proof.
  unfold half_close. fold (seen f). intros Hh. destruct (seen f) eqn:Hs; simpl in Hh.
  2: { injection Hh as <- <-. split_and!; done. }
  destruct (is_done (a_to_b f) && is_done (b_to_a f)) eqn:Hd; simpl in Hh.
  { injection Hh as <- <-. split_and!; done. }
  destruct (half_close_timeout f) as [timeout|]; injection Hh as <- <-; split_and!; try done.
  - intros Hle. to_prop. eauto.
  - intros Hlt _ timeout' [= <-] _. to_prop. by split.
Qed.

Lemma poll_spec t f p f' : future_ok f → poll t f = Some (p, f') → poll_post t f p f'.
Proof.
  intros Hok Hpoll. unfold poll in Hpoll.
  destruct (fire_ping_spec t f) as (Hok1 & Hfl1 & Ha1 & Hb1 & Ht1 & Hs1). specialize (Hok1 Hok).
  set (f1 := fire_ping t f) in *. clearbody f1. destruct Hok1 as (Hda & Hdb & Hia & Hib).
  destruct (transfer_one_direction (fuel t) (coop_a t) (a_to_b f1) _ _ _)
    as [[[[[pa sta] ca] a1] b1]|] eqn:Hta; [|done].
  destruct (transfer_one_direction (fuel t) (coop_b t) (b_to_a f1) _ _ _)
    as [[[[[pb stb] cb] b2] a2]|] eqn:Htb; [|done].
  destruct (transfer_spec _ _ _ _ _ _ _ _ _ _ _ Hda Hia Hta)
    as (Hpa & Hda' & (xa & ya & Hma) & Heofa & Hdonea & Hidlea).
  destruct (transfer_spec _ _ _ _ _ _ _ _ _ _ _ Hdb Hib Htb)
    as (Hpb & Hdb' & (xb & yb & Hmb) & Heofb & Hdoneb & Hidleb).
  destruct (half_close t _) as [fired sleep] eqn:Hhc.
  apply half_close_spec in Hhc as (Hfired & Hwait & Hnone). simpl in *.
  injection Hpoll as Hp <-. rewrite Hpa, Hpb, !andb_true_r in Hp.
  assert (Hfl : flows f1 (mkBoth a2 b2 ca cb sta stb (ping_sleep f1) (half_close_timeout f1) sleep)
    xa ya xb yb).
  { destruct Hma as (A1 & A2 & A3 & A4 & A5), Hmb as (B1 & B2 & B3 & B4 & B5). unfold flows. simpl.
    rewrite B1, B2, B4, B5, A1, A2, A4, A5. done. }
  constructor; simpl.
  - subst p. destruct fired; [done | by apply join_panic].
  - eexists _, _, _, _. by eapply flows_trans.
  - done.
  - done.
  - done.
  - unfold seen. simpl. rewrite <- Ha1, <- Hb1. rewrite !orb_true_iff. tauto.
  - intros ->. destruct fired; [done|]. apply join_Pending in Hp as (Hnd & Hpa' & Hpb').
    split_and!; [split_and!; auto| |done].
    rewrite <- Ht1, <- Hs1. apply Hwait; [done|].
    apply andb_false_iff. destruct sta, stb; simpl; auto.
    destruct Hnd. split; [by apply Hdonea | by apply Hdoneb].
  - intros ->. destruct fired; [right; by apply Hfired|].
    apply join_Ready_Ok in Hp as [?%Hdonea ?%Hdoneb]. by left.
Qed.

Lemma run_spec ticks f p f' :
  future_ok f → run ticks f = Some (p, f') →
  is_panic p = false ∧ (∃ xa ya xb yb, flows f f' xa ya xb yb) ∧
  direction_ok (a_to_b f') (a_buf f') ∧ direction_ok (b_to_a f') (b_buf f') ∧
  (p = Pending → future_ok f') ∧
  (p = Ready (Ok tt) → (a_to_b f' = Done ∧ b_to_a f' = Done) ∨
    ∃ t d, t ∈ ticks ∧ half_close_sleep f' = Some d ∧ (d ≤ now t)%Z).
Proof.
  revert f. induction ticks as [|t ticks IH]; intros f Hok; cbn [run].
  { intros [= <- <-]. split_and!; try done; try apply Hok. eexists _, _, _, _. apply flows_refl. }
  destruct (poll t f) as [[p1 f1]|] eqn:Hp; [|done]. apply poll_spec in Hp; [|done].
  destruct p1 as [r|].
  - intros [= <- <-]. destruct Hp. split_and!; try done.
    intros Hr. destruct (pp_done0 Hr) as [?|(d & ? & ?)]; [by left|]. right. exists t, d. set_solver.
  - destruct Hp. destruct (pp_pending0 eq_refl) as [Hok1 _]. intros Hrun.
    destruct (IH f1 Hok1 Hrun) as (G1 & (xa & ya & xb & yb & G2) & G3 & G4 & G5 & G6).
    destruct pp_flows0 as (xa0 & ya0 & xb0 & yb0 & Hfl). split_and!; try done.
    + eexists _, _, _, _. by eapply flows_trans.
    + intros Hr. destruct (G6 Hr) as [?|(t' & d & ? & ? & ?)]; [by left|]. right.
      exists t', d. set_solver.
Qed.

Lemma initial_ok start (x : A) (y : B) fa fb timeout sa sb :
  0 < base sa ≤ max sa → 0 < base sb ≤ max sb →
  future_ok (copy_bidirectional_with_half_close_timeout_and_sizing start x y fa fb timeout sa sb).
Proof.
  intros. unfold future_ok, direction_ok, idle_ok. simpl. split_and!; try done; by apply with_sizing_ok.
Qed.

(** C3: the bytes one side accepted, followed by what is buffered, are exactly
    the bytes the other side delivered, in both directions and at every point,
    for streams that cut reads and writes, park, fail and flush in any way,
    across wrap-around, growth and release of the buffers; no poll panics; and
    when the future ends without an error, either both directions have been shut
    down with nothing left behind or the half-close deadline has passed. *)
Theorem copied_bytes_are_exact start (x : A) (y : B) fa fb timeout sa sb ticks p f' :
  0 < base sa ≤ max sa → 0 < base sb ≤ max sb →
  let f := copy_bidirectional_with_half_close_timeout_and_sizing start x y fa fb timeout sa sb in
  run ticks f = Some (p, f') →
  p ≠ Ready Panic ∧
  ∃ to_b to_a,
    accepted (b f') = accepted y ++ to_b ∧
    received (a f') = received x ++ to_b ++ ring (a_buf f') ∧
    accepted (a f') = accepted x ++ to_a ∧
    received (b f') = received y ++ to_a ++ ring (b_buf f') ∧
    (p = Ready (Ok tt) →
      (ring (a_buf f') = [] ∧ ring (b_buf f') = []) ∨
      ∃ t d, t ∈ ticks ∧ half_close_sleep f' = Some d ∧ (d ≤ now t)%Z).
Proof.
  intros Hsa Hsb f Hrun. pose proof (initial_ok start x y fa fb timeout sa sb Hsa Hsb) as Hok.
  destruct (run_spec _ _ _ _ Hok Hrun)
    as (Hp & (xa & ya & xb & yb & G1 & G2 & G3 & G4 & G5 & G6) & Hda & Hdb & _ & Hdone).
  assert (Hra : ring (a_buf f) = []) by by apply ring_empty.
  assert (Hrb : ring (b_buf f) = []) by by apply ring_empty. fold f in G3, G6.
  rewrite Hra in G3. rewrite Hrb in G6. simpl in G3, G6. split; [by intros ->|].
  exists ya, yb. subst xa xb. split_and!; try done. intros Hr.
  destruct (Hdone Hr) as [[Ea Eb]|?]; [|by right]. left.
  split; apply ring_empty; [apply Hda | apply Hdb]; rewrite ?Ea, ?Eb; done.
Qed.

(** Between polls a direction with nothing to write and no flush due holds
    no buffer, whatever the size it had grown to. *)
Theorem idle_connection_holds_no_buffer start (x : A) (y : B) fa fb timeout sa sb ticks f' :
  0 < base sa ≤ max sa → 0 < base sb ≤ max sb →
  run ticks (copy_bidirectional_with_half_close_timeout_and_sizing start x y fa fb timeout sa sb) =
    Some (Pending, f') →
  (ring (a_buf f') = [] → need_flush (a_buf f') = false → lazy_buf (buf (a_buf f')) = []) ∧
  (ring (b_buf f') = [] → need_flush (b_buf f') = false → lazy_buf (buf (b_buf f')) = []).
Proof.
  intros Hsa Hsb Hrun.
  destruct (run_spec _ _ _ _ (initial_ok start x y fa fb timeout sa sb Hsa Hsb) Hrun)
    as (_ & _ & _ & _ & Hok & _). destruct (Hok eq_refl) as ([Ha _] & [Hb _] & Hia & Hib).
  split; intros Hr; [apply Hia | apply Hib]; rewrite <- length_ring, Hr; done.
Qed.

(** An armed half-close timer stays at its deadline while the future is
    pending. *)
Lemma deadline_kept ticks f f' timeout d :
  future_ok f → half_close_timeout f = Some timeout → seen f = true →
  half_close_sleep f = Some d → run ticks f = Some (Pending, f') →
  future_ok f' ∧ half_close_timeout f' = Some timeout ∧ seen f' = true ∧
  half_close_sleep f' = Some d ∧ Forall (λ t, now t < d)%Z ticks.
Proof.
  revert f. induction ticks as [|t ticks IH]; intros f Hok Ht Hs Hd; cbn [run].
  { intros [= <-]. by split_and!. }
  destruct (poll t f) as [[[r|] f1]|] eqn:Hp; [done| |done]. apply poll_spec in Hp; [|done].
  destruct Hp. destruct (pp_pending0 eq_refl) as (Hok1 & Harm & _).
  destruct (Harm timeout Ht (pp_seen0 Hs)) as [Hd1 Hlt]. rewrite Hd in *. simpl in *.
  intros Hrun. destruct (IH f1) as (? & ? & ? & ? & ?); auto; [congruence|]. split_and!; auto.
Qed.

(** While pending, the timer is armed as soon as a direction has seen its end,
    and no later than the last poll plus the grace period. *)
Lemma deadline_armed ticks f f' timeout last :
  future_ok f → half_close_timeout f = Some timeout → seen f = false → half_close_sleep f = None →
  Forall (λ t, now t ≤ last)%Z ticks →
  run ticks f = Some (Pending, f') → seen f' = true →
  future_ok f' ∧ half_close_timeout f' = Some timeout ∧
  ∃ d, half_close_sleep f' = Some d ∧ (d ≤ last + timeout)%Z.
Proof.
  revert f. induction ticks as [|t ticks IH]; intros f Hok Ht Hs Hn Hle; cbn [run].
  { intros [= <-]. congruence. }
  apply Forall_cons in Hle as [Hle0 Hle].
  destruct (poll t f) as [[[r|] f1]|] eqn:Hp; [done| |done]. apply poll_spec in Hp; [|done].
  destruct Hp. destruct (pp_pending0 eq_refl) as (Hok1 & Harm & Hnone). intros Hrun Hs'.
  destruct (seen f1) eqn:Hs1; [|apply (IH f1); auto; congruence].
  destruct (Harm timeout Ht eq_refl) as [Hd _]. rewrite Hn in Hd. simpl in Hd.
  destruct (deadline_kept ticks f1 f' timeout (now t + timeout)) as (? & ? & _ & ? & _); auto;
    [congruence|]. split_and!; auto. eexists. split; [done|lia].
Qed.

(** ** Every poll returns *)
Section total.
Context `{!FiniteReads A} `{!FiniteReads B}.

(** Enough fuel for the loops of both directions. *)
Definition enough_fuel (t : tick) : Prop :=
  ready_bound (S := A) + 2 ≤ fuel t ∧ ready_bound (S := B) + 2 ≤ fuel t.

Lemma transfer_total {R W} `{FiniteReads R} `{!StreamLaws R} `{StreamLaws W}
    n coop st c (r : R) (w : W) :
  direction_ok st c → ready_bound (S := R) + 2 ≤ n →
  ∃ res, transfer_one_direction n coop st c r w = Some res.
Proof.
  intros [Hok _] Hn. unfold transfer_one_direction. pose proof (ready_reads_bound r).
  destruct (poll_copy_total n coop c r w Hok) as [[[[p c1] r1] w1] Hp]; [lia|].
  rewrite Hp. destruct st; repeat case_match; eauto.
Qed.

Lemma poll_total t f : future_ok f → enough_fuel t → ∃ p f', poll t f = Some (p, f').
Proof.
  intros Hok [Ha Hb]. unfold poll. destruct (fire_ping_spec t f) as [Hok1 _]. specialize (Hok1 Hok).
  destruct Hok1 as (Hda & Hdb & _).
  destruct (transfer_total (fuel t) (coop_a t) _ _ (a (fire_ping t f)) (b (fire_ping t f)) Hda Ha)
    as [[[[[pa sta] ca] a1] b1] ->].
  destruct (transfer_total (fuel t) (coop_b t) _ _ b1 a1 Hdb Hb) as [[[[[pb stb] cb] b2] a2] ->].
  destruct (half_close t _). eauto.
Qed.

Lemma run_total ticks f : future_ok f → Forall enough_fuel ticks → ∃ p f', run ticks f = Some (p, f').
Proof.
  intros Hok Ht. revert f Hok. induction Ht as [|t ticks Ht _ IH]; intros f Hok; cbn [run]; [eauto|].
  destruct (poll_total t f Hok Ht) as (p & f1 & Hp). rewrite Hp.
  destruct p as [r|]; [eauto|]. apply IH. by apply poll_spec in Hp as []; [apply pp_pending0|].
Qed.

(** Every poll returns: with streams that park after finitely many reads,
    the loops of a poll end whatever the streams do, however the reads and
    writes are cut, and across resizes. *)
Theorem copy_polls_terminate start (x : A) (y : B) fa fb timeout sa sb ticks :
  0 < base sa ≤ max sa → 0 < base sb ≤ max sb → Forall enough_fuel ticks →
  ∃ p f, run ticks (copy_bidirectional_with_half_close_timeout_and_sizing start x y fa fb
    timeout sa sb) = Some (p, f).
Proof. intros. apply run_total; [by apply initial_ok | done]. Qed.

(** C16: a half-closed connection is reclaimed: once a poll leaves the future
    pending with one direction at its end, a poll at or after the grace period
    completes it, whatever the streams do and however often it is polled in
    between. *)
Theorem half_closed_is_reclaimed start (x : A) (y : B) fa fb timeout sa sb
    ticks f1 last ticks' t :
  0 < base sa ≤ max sa → 0 < base sb ≤ max sb →
  run ticks (copy_bidirectional_with_half_close_timeout_and_sizing start x y fa fb
    (Some timeout) sa sb) = Some (Pending, f1) →
  Forall (λ t, now t ≤ last)%Z ticks →
  has_seen_eof (a_to_b f1) || has_seen_eof (b_to_a f1) = true →
  (last + timeout ≤ now t)%Z → Forall enough_fuel (ticks' ++ [t]) →
  ∃ r f2, run (ticks' ++ [t]) f1 = Some (Ready r, f2).
Proof.
  intros Hsa Hsb Hrun Hle Hs Ht Hfuel.
  destruct (deadline_armed ticks _ f1 timeout last
    (initial_ok start x y fa fb (Some timeout) sa sb Hsa Hsb)) as (Hok1 & Ht1 & d & Hd & Hdl); try done.
  destruct (run_total _ f1 Hok1 Hfuel) as ([r|] & f2 & Hrun2); [eauto|].
  destruct (deadline_kept (ticks' ++ [t]) f1 f2 timeout d) as (_ & _ & _ & _ & Hf); try done.
  apply Forall_app in Hf as [_ Hf]. apply Forall_cons in Hf as [Hlt _]. lia.
Qed.

End total.

End future.
End copy.

(** ** Examples *)
Definition ticks_at (times : list Z) : list tick := (λ t, mkTick t true true 3) <$> times.

Definition after (ticks : list tick) (f : @CopyBidirectional script script) :=
  default f (snd <$> run (λ _, 0%Z) ticks f).

Definition exchange : @CopyBidirectional script script :=
  copy_bidirectional_with_half_close_timeout_and_sizing 0 (script_of "a request" false 4)
    (script_of "the response" false 7) false true (Some 30%Z) (fixed 5) (mkSizing 4 8).

Lemma copied_bytes_are_exact_witness :
  let f' := after (ticks_at [0; 1; 2; 3; 4; 5; 6]%Z) exchange in
  put (b f') = B "a request" ∧ put (a f') = B "the response" ∧
  (Ready (Ok tt) ≠ Ready (A := outcome unit) Panic ∧
  ∃ to_b to_a,
    accepted (b f') = accepted (b exchange) ++ to_b ∧
    received (a f') = received (a exchange) ++ to_b ++ ring (a_buf f') ∧
    accepted (a f') = accepted (a exchange) ++ to_a ∧
    received (b f') = received (b exchange) ++ to_a ++ ring (b_buf f') ∧
    (Ready (Ok tt) = Ready (Ok tt) →
      (ring (a_buf f') = [] ∧ ring (b_buf f') = []) ∨
      ∃ t d, t ∈ ticks_at [0; 1; 2; 3; 4; 5; 6]%Z ∧ half_close_sleep f' = Some d ∧ (d ≤ now t)%Z)).
Proof.
  do 2 (split; [vm_compute; reflexivity|]).
  apply (copied_bytes_are_exact (λ _, 0%Z) 0 (script_of "a request" false 4)
    (script_of "the response" false 7) false true (Some 30%Z) (fixed 5) (mkSizing 4 8)
    (ticks_at [0; 1; 2; 3; 4; 5; 6]%Z) (Ready (Ok tt))
    (after (ticks_at [0; 1; 2; 3; 4; 5; 6]%Z) exchange)).
  - simpl. lia.
  - simpl. lia.
  - vm_compute. reflexivity.
Defined.

(** [a] has ended and [b] stays silent: the connection is idle at time 2 and
    gone at time 32. *)
Definition half_open : @CopyBidirectional script script :=
  copy_bidirectional_with_half_close_timeout_and_sizing 0 (script_of "bye" false 4)
    (script_of "" true 7) false false (Some 30%Z) (fixed 5) (fixed 5).

Lemma ticks_at_fuel times : Forall (enough_fuel (A := script) (B := script)) (ticks_at times).
Proof. apply Forall_fmap, Forall_forall. intros t _. unfold enough_fuel. simpl. lia. Qed.

Lemma half_closed_is_reclaimed_witness :
  let f1 := after (ticks_at [0; 1; 2]%Z) half_open in
  run (λ _, 0%Z) (ticks_at [0; 1; 2]%Z) half_open = Some (Pending, f1) ∧
  ∃ r f2, run (λ _, 0%Z) (ticks_at [5; 9]%Z ++ [mkTick 32 true true 3]) f1 = Some (Ready r, f2).
Proof.
  split; [vm_compute; reflexivity|].
  apply (half_closed_is_reclaimed (λ _, 0%Z) 0 (script_of "bye" false 4) (script_of "" true 7)
    false false 30 (fixed 5) (fixed 5) (ticks_at [0; 1; 2]%Z)
    (after (ticks_at [0; 1; 2]%Z) half_open) 2 (ticks_at [5; 9]%Z) (mkTick 32 true true 3)).
  - simpl. lia.
  - simpl. lia.
  - vm_compute. reflexivity.
  - repeat apply Forall_cons_2; [simpl; lia..|constructor].
  - reflexivity.
  - simpl. lia.
  - apply (ticks_at_fuel [5; 9; 32]%Z).
Defined.

Lemma copy_polls_terminate_witness :
  ∃ p f, run (λ _, 0%Z) (ticks_at [0; 1; 2]%Z) half_open = Some (p, f).
Proof.
  apply (copy_polls_terminate (λ _, 0%Z) 0 (script_of "bye" false 4) (script_of "" true 7)
    false false (Some 30%Z) (fixed 5) (fixed 5) (ticks_at [0; 1; 2]%Z)).
  - simpl. lia.
  - simpl. lia.
  - apply ticks_at_fuel.
Defined.

Lemma idle_connection_holds_no_buffer_witness :
  let f' := after (ticks_at [0; 1; 2]%Z) half_open in
  (ring (a_buf f') = [] → need_flush (a_buf f') = false → lazy_buf (buf (a_buf f')) = []) ∧
  (ring (b_buf f') = [] → need_flush (b_buf f') = false → lazy_buf (buf (b_buf f')) = []).
Proof.
  apply (idle_connection_holds_no_buffer (λ _, 0%Z) 0 (script_of "bye" false 4)
    (script_of "" true 7) false false (Some 30%Z) (fixed 5) (fixed 5) (ticks_at [0; 1; 2]%Z)).
  - simpl. lia.
  - simpl. lia.
  - vm_compute. reflexivity.
Defined.

End Copy.
