(* ===== verification/Fec.v ===== *)
(** * Kcptun forward error correction ([src/ss_plugins/kcptun/fec.rs])

    The encoder cuts the packets it is given into sets of [data_shards] and adds
    [parity_shards] Reed-Solomon packets to each set; the decoder delivers data
    packets as they arrive and reconstructs the missing ones as soon as any
    [data_shards] packets of a set are there, keeping few incomplete sets.  The
    Reed-Solomon crate is a class of operations ([ReedSolomon]) with its erasure
    property as a law ([rs_laws]); a parity code with one redundant shard is an
    instance.  Shown: whatever packets of a set are lost, duplicated or
    reordered, the arrival that makes the set complete leaves every original
    packet delivered exactly once; and whatever bytes arrive, the decoder
    neither panics nor exceeds its memory bound. *)
From S2P Require Import Prelude.
Local Open Scope Z_scope.

Module Fec.

Definition FEC_HEADER_SIZE : nat := 6.
Definition FEC_DATA_HEADER_SIZE : nat := 8.
Definition FEC_TYPE_DATA : Z := 241.
Definition FEC_TYPE_PARITY : Z := 242.
Definition FEC_TYPE_OOB : Z := 243.
Definition DEFAULT_MAX_SHARD_SETS : nat := 3.

(** [reed_solomon_erasure::galois_8::ReedSolomon]; [None] is an error. *)
Class ReedSolomon (codec : Type) := {
  rs_new : nat → nat → option codec;
  rs_encode : codec → list bytes → option (list bytes);
  rs_reconstruct_data : codec → list (option bytes) → option (list (option bytes));
  (* the crate rebuilds the shards in place, in the slice it is given *)
  rs_reconstruct_length c known rebuilt :
    rs_reconstruct_data c known = Some rebuilt → length rebuilt = length known }.

(** The erasure property of a codec for [k] data and [m] parity shards: the
    parity it computes has the length of the data, and from any [k] of the
    [k + m] shards the data shards are rebuilt. *)
Record rs_laws {codec} `{ReedSolomon codec} (c : codec) (k m : nat) : Prop := {
  rs_encode_ok : ∀ (data : list bytes) (len : nat),
    length data = k → (0 < len)%nat → Forall (λ s, length s = len ∧ bytes_ok s) data →
    ∃ parity, rs_encode c (data ++ replicate m (replicate len 0)) = Some (data ++ parity) ∧
      length parity = m ∧ Forall (λ s, length s = len) parity;
  rs_reconstruct_ok : ∀ (data parity : list bytes) (len : nat) (known : list (option bytes)),
    length data = k → Forall (λ s, length s = len ∧ bytes_ok s) data →
    rs_encode c (data ++ replicate m (replicate len 0)) = Some (data ++ parity) →
    length known = (k + m)%nat →
    (∀ i s, known !! i = Some (Some s) → (data ++ parity) !! i = Some s) →
    (k ≤ length (omap id known))%nat →
    ∃ rebuilt, rs_reconstruct_data c known = Some rebuilt ∧
      ∀ i s, data !! i = Some s → rebuilt !! i = Some (Some s) }.

Definition invalid (msg : string) : io_error := IoError InvalidInput msg.
Definition invalid_data (msg : string) : io_error := IoError InvalidData msg.

Definition u32_max : Z := 2 ^ 32 - 1.

Definition validate_parameters (data_shards parity_shards max_payload : nat) : outcome unit :=
  if (data_shards =? 0)%nat || (parity_shards =? 0)%nat || (256 <? data_shards + parity_shards)%nat
  then Err (invalid "Kcptun FEC needs positive shard counts and at most 256 total shards")
  else if (max_payload =? 0)%nat || (65535 - 2 <? Z.of_nat max_payload)
  then Err (invalid "Kcptun FEC packet limit is invalid")
  else Ok tt.

Section fec.
Context {codec : Type} `{ReedSolomon codec}.

(** ** Encoder *)
Record FecEncoder := mkEncoder {
  e_codec : codec;
  e_data_shards : nat;
  e_parity_shards : nat;
  e_total_shards : nat;
  max_kcp_packet : nat;
  next_sequence : Z;
  e_sequence_limit : Z;
  pending : list bytes }.

Definition sequence_limit_of (total : nat) : Z := u32_max / Z.of_nat total * Z.of_nat total.

Definition encoder_new (data_shards parity_shards max_kcp_packet : nat) : outcome FecEncoder :=
  _ ← validate_parameters data_shards parity_shards max_kcp_packet;
  let total_shards := (data_shards + parity_shards)%nat in
  codec ← ok_or (rs_new data_shards parity_shards) (invalid "invalid Kcptun FEC settings");
  Ok (mkEncoder codec data_shards parity_shards total_shards max_kcp_packet 0
        (sequence_limit_of total_shards) []).

Definition with_sequence (e : FecEncoder) (next : Z) (pending : list bytes) : FecEncoder :=
  mkEncoder (e_codec e) (e_data_shards e) (e_parity_shards e) (e_total_shards e)
    (max_kcp_packet e) next (e_sequence_limit e) pending.

Definition take_sequence (e : FecEncoder) : Z * FecEncoder :=
  let sequence := next_sequence e in
  let next := wrap 32 (next_sequence e + 1) in
  let next := if e_sequence_limit e <=? next then 0 else next in
  (sequence, with_sequence e next (pending e)).

Fixpoint parity_packets (parity : list bytes) (e : FecEncoder) : list bytes * FecEncoder :=
  match parity with
  | [] => ([], e)
  | p :: parity =>
      let '(sequence, e) := take_sequence e in
      let packet := le_encode 4 sequence ++ le_encode 2 FEC_TYPE_PARITY ++ p in
      let '(packets, e) := parity_packets parity e in
      (packet :: packets, e)
  end.

Definition max_length (l : list bytes) : nat := foldr (λ s n, length s `max` n)%nat 0%nat l.

Definition encode (e : FecEncoder) (kcp_packet : bytes) : outcome (list bytes) * FecEncoder :=
  if (length kcp_packet =? 0)%nat || (max_kcp_packet e <? length kcp_packet)%nat
  then (Err (invalid_data "Kcptun KCP packet length is outside"), e)
  else if 65535 <? Z.of_nat (length kcp_packet) + 2
  then (Err (invalid_data "Kcptun FEC data shard is too large"), e)
  else
    let encoded_size := Z.of_nat (length kcp_packet) + 2 in
    let '(sequence, e) := take_sequence e in
    let data_packet :=
      le_encode 4 sequence ++ le_encode 2 FEC_TYPE_DATA ++ le_encode 2 encoded_size ++ kcp_packet in
    let e := with_sequence e (next_sequence e)
               (pending e ++ [drop FEC_HEADER_SIZE data_packet]) in
    if negb (length (pending e) =? e_data_shards e)%nat then (Ok [data_packet], e)
    else
      let shard_len := max_length (pending e) in
      let shards :=
        (resize shard_len 0 <$> pending e) ++
        replicate (e_parity_shards e) (replicate shard_len 0) in
      let e := with_sequence e (next_sequence e) [] in
      match rs_encode (e_codec e) shards with
      | None => (Err (invalid_data "Kcptun FEC encoding failed"), e)
      | Some shards =>
          let '(packets, e) := parity_packets (drop (e_data_shards e) shards) e in
          (Ok (data_packet :: packets), e)
      end.

(** ** Decoder *)
Record ShardSet := mkSet {
  shards : list (option bytes);
  present : nat;
  max_len : nat;
  arrival : Z }.

Record FecDecoder := mkDecoder {
  d_codec : codec;
  d_data_shards : nat;
  d_total_shards : nat;
  d_sequence_limit : Z;
  max_packet_size : nat;
  max_shard_sets : nat;
  d_arrival : Z;
  sets : gmap Z ShardSet;
  completed : gset Z;
  completed_order : list Z }.

Definition with_max_shard_sets (data_shards parity_shards max_packet_size max_shard_sets : nat)
    : outcome FecDecoder :=
  _ ← validate_parameters data_shards parity_shards (max_packet_size - FEC_DATA_HEADER_SIZE);
  if (max_shard_sets =? 0)%nat || (64 <? max_shard_sets)%nat
  then Err (invalid "Kcptun FEC shard-set limit must be in 1..=64")
  else
    codec ← ok_or (rs_new data_shards parity_shards) (invalid "invalid Kcptun FEC settings");
    Ok (mkDecoder codec data_shards (data_shards + parity_shards)
          (sequence_limit_of (data_shards + parity_shards)) max_packet_size max_shard_sets 0 ∅ ∅ []).

Definition decoder_new (data_shards parity_shards max_packet_size : nat) : outcome FecDecoder :=
  with_max_shard_sets data_shards parity_shards max_packet_size DEFAULT_MAX_SHARD_SETS.

Definition pending_shard_sets (d : FecDecoder) : nat := size (sets d).

Definition with_sets (d : FecDecoder) (arrival : Z) (sets : gmap Z ShardSet) : FecDecoder :=
  mkDecoder (d_codec d) (d_data_shards d) (d_total_shards d) (d_sequence_limit d)
    (max_packet_size d) (max_shard_sets d) arrival sets (completed d) (completed_order d).

(** [iter().min_by_key(|(_, set)| set.arrival)]: the first of the least. *)
Definition older (best : option (Z * ShardSet)) (e : Z * ShardSet) : option (Z * ShardSet) :=
  match best with
  | Some b => if arrival e.2 <? arrival b.2 then Some e else best
  | None => Some e
  end.
Definition oldest (m : gmap Z ShardSet) : option Z :=
  fst <$> foldl older None (map_to_list m).

Definition evict_oldest_if_full (d : FecDecoder) : FecDecoder :=
  if (size (sets d) <? max_shard_sets d)%nat then d
  else
    match oldest (sets d) with
    | Some id => with_sets d (d_arrival d) (delete id (sets d))
    | None => d
    end.

(** The [while completed_order.len() > max] loop, a round per entry. *)
Fixpoint trim_completed (limit : nat) (done : gset Z) (order : list Z) : gset Z * list Z :=
  match order with
  | id :: rest =>
      if (limit <? length order)%nat then trim_completed limit (done ∖ {[id]}) rest
      else (done, order)
  | [] => (done, [])
  end.

Definition mark_completed (d : FecDecoder) (set_id : Z) : FecDecoder :=
  let order :=
    if bool_decide (set_id ∈ completed d) then completed_order d
    else completed_order d ++ [set_id] in
  let '(done, order) :=
    trim_completed (max_shard_sets d * 2) ({[set_id]} ∪ completed d) order in
  mkDecoder (d_codec d) (d_data_shards d) (d_total_shards d) (d_sequence_limit d)
    (max_packet_size d) (max_shard_sets d) (d_arrival d) (sets d) done order.

(** The checks on the type against the position of the shard. *)
Definition check_type (packet_type : Z) (is_data_position : bool) : outcome unit :=
  if (packet_type =? FEC_TYPE_DATA) && is_data_position then Ok tt
  else if (packet_type =? FEC_TYPE_PARITY) && negb is_data_position then Ok tt
  else if packet_type =? FEC_TYPE_OOB
  then Err (invalid_data "Kcptun out-of-band FEC packets are not valid session traffic")
  else if (packet_type =? FEC_TYPE_DATA) || (packet_type =? FEC_TYPE_PARITY)
  then Err (invalid_data "Kcptun FEC packet type does not match its shard position")
  else Err (invalid_data "unknown Kcptun FEC packet type").

(** The packet a data packet carries. *)
Definition data_payload (packet_type : Z) (packet : bytes) : outcome (list bytes) :=
  if packet_type =? FEC_TYPE_DATA then
    if (length packet <? FEC_DATA_HEADER_SIZE)%nat
    then Err (invalid_data "truncated Kcptun FEC data packet")
    else
      size ← slice packet 6 8;
      let declared := le_decode size in
      if (declared <? 2) || negb (declared =? Z.of_nat (length packet - FEC_HEADER_SIZE))
      then Err (invalid_data "invalid Kcptun FEC data length")
      else Ok [drop FEC_DATA_HEADER_SIZE packet]
  else Ok [].

(** The loop over the missing data shards after the reconstruction. *)
Fixpoint recovered_packets (missing : list nat) (rebuilt : list (option bytes))
    : outcome (list bytes) :=
  match missing with
  | [] => Ok []
  | index :: missing =>
      entry ← expect (rebuilt !! index);
      recovered ← ok_or entry (invalid_data "Kcptun FEC did not recover a data shard");
      if (length recovered <? 2)%nat
      then Err (invalid_data "recovered Kcptun FEC shard is truncated")
      else
        let declared := le_decode (take 2 recovered) in
        if (declared <? 2) || (Z.of_nat (length recovered) <? declared)
        then Err (invalid_data "recovered Kcptun FEC shard has an invalid length")
        else
          payload ← slice recovered 2 (Z.to_nat declared);
          rest ← recovered_packets missing rebuilt;
          Ok (payload :: rest)
  end.

Definition missing_data (data_shards : nat) (l : list (option bytes)) : list nat :=
  filter (λ i, l !! i = Some None) (seq 0 data_shards).

(** A set that has [data_shards] shards: removed, and rebuilt if data is
    missing; it counts as completed only without an error. *)
Definition complete_set (d : FecDecoder) (set_id : Z) (set : ShardSet) (delivered : list bytes)
    : outcome (list bytes) * FecDecoder :=
  let d := with_sets d (d_arrival d) (delete set_id (sets d)) in
  let missing := missing_data (d_data_shards d) (shards set) in
  match missing with
  | [] => (Ok delivered, mark_completed d set_id)
  | _ =>
      let known := option_map (resize (max_len set) 0) <$> shards set in
      match rs_reconstruct_data (d_codec d) known with
      | None => (Err (invalid_data "Kcptun FEC recovery failed"), d)
      | Some rebuilt =>
          match recovered_packets missing rebuilt with
          | Ok packets => (Ok (delivered ++ packets), mark_completed d set_id)
          | Err e => (Err e, d)
          | Panic => (Panic, d)
          end
      end
  end.

(** Storing a shard in its set. *)
Definition add_shard (d : FecDecoder) (set_id : Z) (index : nat) (shard : bytes)
    (delivered : list bytes) : outcome (list bytes) * FecDecoder :=
  let d :=
    if bool_decide (is_Some (sets d !! set_id)) then d
    else
      let d := evict_oldest_if_full d in
      let arrival := wrap 64 (d_arrival d + 1) in
      with_sets d arrival
        (<[set_id := mkSet (replicate (d_total_shards d) None) 0 0 arrival]> (sets d)) in
  match sets d !! set_id with
  | None => (Panic, d)
  | Some set =>
      match shards set !! index with
      | None => (Panic, d)
      | Some (Some _) => (Ok [], d)
      | Some None =>
          if (length shard =? 0)%nat then (Err (invalid_data "empty Kcptun FEC shard"), d)
          else
            let set := mkSet (<[index := Some shard]> (shards set)) (S (present set))
                         (max_len set `max` length shard) (arrival set) in
            let d := with_sets d (d_arrival d) (<[set_id := set]> (sets d)) in
            if (present set <? d_data_shards d)%nat then (Ok delivered, d)
            else complete_set d set_id set delivered
      end
  end.

Definition decode (d : FecDecoder) (packet : bytes) : outcome (list bytes) * FecDecoder :=
  if (length packet <? FEC_HEADER_SIZE)%nat || (max_packet_size d <? length packet)%nat
  then (Err (invalid_data "Kcptun FEC packet length is outside"), d)
  else
    let sequence := le_decode (take 4 packet) in
    if d_sequence_limit d <=? sequence
    then (Err (invalid_data "Kcptun FEC sequence exceeds the wrap-protection boundary"), d)
    else
      let packet_type := le_decode (take 2 (drop 4 packet)) in
      let shard_index := Z.to_nat (sequence mod Z.of_nat (d_total_shards d)) in
      match check_type packet_type (shard_index <? d_data_shards d)%nat with
      | Ok _ =>
          match data_payload packet_type packet with
          | Ok delivered =>
              let set_id := sequence / Z.of_nat (d_total_shards d) in
              if bool_decide (set_id ∈ completed d) then (Ok delivered, d)
              else add_shard d set_id shard_index (drop FEC_HEADER_SIZE packet) delivered
          | Err e => (Err e, d)
          | Panic => (Panic, d)
          end
      | Err e => (Err e, d)
      | Panic => (Panic, d)
      end.

End fec.
Arguments FecEncoder : clear implicits.
Arguments FecDecoder : clear implicits.

Definition packet_type (packet : bytes) : outcome Z :=
  if (length packet <? FEC_HEADER_SIZE)%nat
  then Err (invalid_data "truncated Kcptun FEC packet")
  else Ok (le_decode (take 2 (drop 4 packet))).

Section runs.
Context {codec : Type} `{ReedSolomon codec}.

(** A sequence of packets through the encoder or the decoder, up to the first
    error. *)
Fixpoint encode_all (e : FecEncoder codec) (packets : list bytes)
    : outcome (list bytes) * FecEncoder codec :=
  match packets with
  | [] => (Ok [], e)
  | p :: packets =>
      match encode e p with
      | (Ok out, e) => let '(r, e) := encode_all e packets in (app out <$> r, e)
      | (r, e) => (r, e)
      end
  end.

Fixpoint decode_all (d : FecDecoder codec) (packets : list bytes)
    : outcome (list bytes) * FecDecoder codec :=
  match packets with
  | [] => (Ok [], d)
  | p :: packets =>
      match decode d p with
      | (Ok out, d) => let '(r, d) := decode_all d packets in (app out <$> r, d)
      | (r, d) => (r, d)
      end
  end.

(** The states a decoder goes through when errors are dropped, as the transport
    does with packets it cannot use. *)
Definition decoder_after (d : FecDecoder codec) (packets : list bytes) : FecDecoder codec :=
  foldl (λ d p, (decode d p).2) d packets.

Definition buffered (d : FecDecoder codec) : nat :=
  map_fold (λ _ s n, sum_list (length <$> omap id (shards s)) + n)%nat 0%nat (sets d).

Record set_ok (d : FecDecoder codec) (s : ShardSet) : Prop := {
  so_length : length (shards s) = d_total_shards d;
  so_present : present s = length (omap id (shards s));
  so_short : (present s < d_data_shards d)%nat;
  so_lengths : Forall (λ b, length b ≤ max_packet_size d - FEC_HEADER_SIZE)%nat
                 (omap id (shards s)) }.

Record decoder_ok (d : FecDecoder codec) : Prop := {
  dk_data : (0 < d_data_shards d < d_total_shards d)%nat;
  dk_limit : d_sequence_limit d = sequence_limit_of (d_total_shards d);
  dk_max : (0 < max_shard_sets d)%nat;
  dk_size : (size (sets d) ≤ max_shard_sets d)%nat;
  dk_sets : map_Forall (λ _ s, set_ok d s) (sets d);
  dk_completed : completed d = list_to_set (completed_order d);
  dk_nodup : NoDup (completed_order d);
  dk_order : (length (completed_order d) ≤ max_shard_sets d * 2)%nat }.

(** ** The decoder's invariant *)
Lemma oldest_is_Some (m : gmap Z ShardSet) : m ≠ ∅ → ∃ i, oldest m = Some i ∧ is_Some (m !! i).
Proof.
  intros Hm. unfold oldest.
  assert (Hfold : ∀ l b, (∀ x, b = Some x → m !! x.1 = Some x.2) →
    (∀ x, x ∈ l → m !! x.1 = Some x.2) → (is_Some b ∨ l ≠ []) →
    ∃ x, foldl older b l = Some x ∧ m !! x.1 = Some x.2).
  { induction l as [|x l IH]; intros b Hb Hl Hne; simpl.
    - destruct Hne as [[y ->]|?]; [eauto | done].
    - apply IH.
      + intros y. unfold older. destruct b as [z|]; [case_match|]; intros; simplify_eq;
          eauto using list_elem_of_here.
      + eauto using list_elem_of_further.
      + left. unfold older. destruct b; [case_match|]; eauto. }
  destruct (Hfold (map_to_list m) None) as (x & -> & Hx); [done| | |eauto].
  - intros [i s] Hi. by apply elem_of_map_to_list in Hi.
  - right. by rewrite map_to_list_empty_iff.
Qed.

Lemma evict_room (d : FecDecoder codec) : decoder_ok d →
  (size (sets (evict_oldest_if_full d)) < max_shard_sets d)%nat.
Proof.
  intros Hok. pose proof (dk_size _ Hok) as Hs. pose proof (dk_max _ Hok).
  unfold evict_oldest_if_full. case_match eqn:E; to_prop; [done|].
  destruct (oldest_is_Some (sets d)) as (i & -> & [s Hi]).
  { intros Hd. rewrite Hd, map_size_empty in E. lia. }
  simpl. rewrite map_size_delete, Hi. lia.
Qed.

Lemma evict_sets (d : FecDecoder codec) : ∃ m, evict_oldest_if_full d = with_sets d (d_arrival d) m ∧ m ⊆ sets d.
Proof.
  unfold evict_oldest_if_full. destruct (_ <? _)%nat; [|destruct (oldest _)].
  2: by eexists; split; [done | apply delete_subseteq].
  all: exists (sets d); split; [by destruct d | done].
Qed.

Lemma trim_completed_spec limit order done :
  let r := trim_completed limit done order in
  (length r.2 ≤ limit)%nat ∧ r.2 = drop (length order - limit) order ∧
  (done = list_to_set order → NoDup order → r.1 = list_to_set r.2).
Proof.
  revert done. induction order as [|id rest IH]; intros done; simpl; [split_and!; auto with lia|].
  destruct (_ <? _)%nat eqn:E; to_prop; simpl.
  - destruct (IH (done ∖ {[id]})) as (? & Hdrop & Hset). simpl in *.
    split_and!; [done | |].
    + rewrite Hdrop. by replace (S (length rest) - limit)%nat with (S (length rest - limit)) by lia.
    + intros -> [Hid Hnd]%NoDup_cons. apply Hset; [|done].
      apply set_eq. intros x. rewrite elem_of_difference, !elem_of_list_to_set.
      set_solver.
  - split_and!; [lia | | done]. by replace (S (length rest) - limit)%nat with 0%nat by lia.
Qed.

Lemma mark_completed_sets (d : FecDecoder codec) id : sets (mark_completed d id) = sets d.
Proof. unfold mark_completed. by destruct (trim_completed _ _ _). Qed.

Record order_ok (d : FecDecoder codec) : Prop := {
  ok_max : (0 < max_shard_sets d)%nat;
  ok_completed : completed d = list_to_set (completed_order d);
  ok_nodup : NoDup (completed_order d);
  ok_order : (length (completed_order d) ≤ max_shard_sets d * 2)%nat }.

Lemma decoder_order_ok (d : FecDecoder codec) : decoder_ok d → order_ok d.
Proof. by intros []. Qed.

Lemma mark_completed_order (d : FecDecoder codec) id :
  order_ok d → order_ok (mark_completed d id) ∧ id ∈ completed (mark_completed d id).
Proof.
  intros [? Hset Hnd Hlen]. unfold mark_completed.
  set (order := if bool_decide _ then _ else _).
  assert (Ho : NoDup order ∧ ({[id]} ∪ completed d : gset Z) = list_to_set order ∧
    id ∈ drop (length order - max_shard_sets d * 2) order).
  { unfold order. case_bool_decide as Hid; rewrite Hset in *.
    - apply elem_of_list_to_set in Hid. split_and!; [done | set_solver |].
      by replace (_ - _)%nat with 0%nat by lia.
    - rewrite not_elem_of_list_to_set in Hid. split_and!.
      + apply NoDup_app. split_and!; [done | set_solver | apply NoDup_singleton].
      + rewrite list_to_set_app_L. set_solver.
      + rewrite length_app, drop_app_le by (simpl; lia). set_solver. }
  destruct Ho as (Hnd' & Heq & Hin).
  pose proof (trim_completed_spec (max_shard_sets d * 2) order ({[id]} ∪ completed d)) as Ht.
  destruct (trim_completed _ _ _) as [done order']. simpl in Ht. destruct Ht as (Hl & -> & Hs).
  specialize (Hs Heq Hnd'). split; [|simpl; rewrite Hs; set_solver].
  rewrite <- (take_drop (length order - max_shard_sets d * 2) order) in Hnd'.
  apply NoDup_app in Hnd' as (_ & _ & Hnd'). by constructor.
Qed.

Lemma mark_completed_ok (d : FecDecoder codec) id :
  decoder_ok d → decoder_ok (mark_completed d id).
Proof.
  intros Hok. destruct (mark_completed_order d id (decoder_order_ok d Hok)) as [[] _].
  destruct Hok as [? ? ? ? Hsets ? ? ?]. unfold mark_completed in *.
  destruct (trim_completed _ _ _). constructor; try done.
  intros i s Hi. by destruct (Hsets i s Hi).
Qed.

Lemma decoder_ok_with_sets (d : FecDecoder codec) a m :
  decoder_ok d → (size m ≤ max_shard_sets d)%nat → map_Forall (λ _ s, set_ok d s) m →
  decoder_ok (with_sets d a m).
Proof.
  intros [] ? Hm. constructor; try done. intros i s Hi. by destruct (Hm i s Hi).
Qed.

Lemma complete_set_safe (d : FecDecoder codec) id s delivered :
  decoder_ok (with_sets d (d_arrival d) (delete id (sets d))) →
  length (shards s) = d_total_shards d →
  let r := complete_set d id s delivered in r.1 ≠ Panic ∧ decoder_ok r.2.
Proof.
  intros Hok Hlen. unfold complete_set. cbv zeta. simpl d_data_shards. simpl d_codec.
  set (miss := missing_data _ _). set (d' := with_sets _ _ _) in *.
  assert (Hmiss : Forall (λ i, i < length (shards s))%nat miss).
  { apply Forall_forall. intros i [Hi _]%list_elem_of_filter. apply lookup_lt_is_Some. eauto. }
  destruct miss as [|i0 miss0]; [split; [done | by apply mark_completed_ok]|].
  destruct (rs_reconstruct_data _ _) as [rebuilt|] eqn:Hr; [|done].
  apply rs_reconstruct_length in Hr. rewrite length_fmap in Hr. rewrite <- Hr in Hmiss.
  generalize dependent (i0 :: miss0). intros miss Hmiss.
  assert (recovered_packets miss rebuilt ≠ Panic) as Hp.
  { induction Hmiss as [|i l [o Hi]%lookup_lt_is_Some Hl IH]; simpl; [done|].
    rewrite Hi. simpl. destruct o as [b|]; simpl; [|done].
    repeat case_match; try done. to_prop.
    rewrite slice_Ok by lia. simpl. by destruct (recovered_packets l rebuilt). }
  destruct (recovered_packets miss rebuilt); [|done|done].
  split; [done | by apply mark_completed_ok].
Qed.

Lemma omap_replicate_None n : omap id (replicate n (@None bytes)) = [].
Proof. by induction n. Qed.

Lemma set_ok_new (d : FecDecoder codec) a :
  (0 < d_data_shards d)%nat → set_ok d (mkSet (replicate (d_total_shards d) None) 0 0 a).
Proof.
  intros. constructor; simpl; rewrite ?length_replicate, ?omap_replicate_None; done.
Qed.

Lemma omap_insert_None (l : list (option bytes)) i b :
  l !! i = Some None → omap id (<[i := Some b]> l) ≡ₚ b :: omap id l.
Proof.
  revert i. induction l as [|o l IH]; intros [|i] Hi; simplify_eq/=; [done|].
  destruct o; simpl; [|by apply IH]. rewrite (IH i) by done. apply Permutation_swap.
Qed.

Lemma open_set_ok (d : FecDecoder codec) id :
  decoder_ok d →
  let d' := if bool_decide (is_Some (sets d !! id)) then d else
    let d := evict_oldest_if_full d in
    let arrival := wrap 64 (d_arrival d + 1) in
    with_sets d arrival
      (<[id := mkSet (replicate (d_total_shards d) None) 0 0 arrival]> (sets d)) in
  decoder_ok d' ∧ is_Some (sets d' !! id).
Proof.
  intros Hok. case_bool_decide as Hid; [done|]. cbv zeta.
  pose proof (evict_room d Hok) as Hroom.
  destruct (evict_sets d) as (m & Hev & Hm). rewrite Hev in *. simpl in *.
  split; [|rewrite lookup_insert_eq; eauto].
  change (decoder_ok (with_sets d (wrap 64 (d_arrival d + 1)) (<[id:=mkSet
    (replicate (d_total_shards d) None) 0 0 (wrap 64 (d_arrival d + 1))]> m))).
  apply decoder_ok_with_sets; [done | |].
  - rewrite map_size_insert. case_match; simpl; lia.
  - apply map_Forall_insert_2; [apply set_ok_new; by destruct Hok; lia|].
    intros i s Hi. by apply (dk_sets _ Hok i), (lookup_weaken m).
Qed.

Lemma add_shard_safe (d : FecDecoder codec) id i shard delivered :
  decoder_ok d → (i < d_total_shards d)%nat →
  (length shard ≤ max_packet_size d - FEC_HEADER_SIZE)%nat →
  let r := add_shard d id i shard delivered in r.1 ≠ Panic ∧ decoder_ok r.2.
Proof.
  intros Hok Hi Hlen. unfold add_shard.
  destruct (open_set_ok d id Hok) as [Hok' [s Hs]]. cbv zeta in *.
  set (d' := if bool_decide _ then d else _) in *.
  assert (d_total_shards d' = d_total_shards d ∧ max_packet_size d' = max_packet_size d)
    as [Ht Hmp].
  { unfold d'. case_bool_decide; [done|]. by destruct (evict_sets d) as (m & -> & _). }
  clearbody d'. clear Hok. rename d' into d0. rewrite Hs.
  destruct (dk_sets _ Hok' _ _ Hs) as [Hl Hp Hsh Hls].
  destruct (lookup_lt_is_Some_2 (shards s) i) as [o Ho]; [lia|]. rewrite Ho.
  destruct o as [|]; [done|]. destruct (_ =? _)%nat; [done|]. simpl.
  assert (Hsz : (size (<[id:=s]> (sets d0)) ≤ max_shard_sets d0)%nat).
  { rewrite insert_id by done. apply (dk_size _ Hok'). }
  destruct (_ <? _)%nat eqn:E; to_prop.
  - split; [done|]. apply decoder_ok_with_sets; [done | by rewrite map_size_insert in * |].
    apply map_Forall_insert_2; [|apply (dk_sets _ Hok')].
    pose proof (omap_insert_None _ _ shard Ho) as Hperm.
    constructor; simpl; rewrite ?length_insert, ?Hperm; simpl; try lia.
    constructor; [lia | done].
  - apply complete_set_safe; [|simpl; by rewrite length_insert]. simpl.
    rewrite delete_insert_eq.
    apply (decoder_ok_with_sets d0 (d_arrival d0)); [done | |].
    + rewrite map_size_delete, Hs. pose proof (dk_size _ Hok'). simpl. lia.
    + apply map_Forall_delete, (dk_sets _ Hok').
Qed.

Lemma decode_safe (d : FecDecoder codec) packet :
  decoder_ok d → (decode d packet).1 ≠ Panic ∧ decoder_ok (decode d packet).2.
Proof.
  intros Hok. unfold decode. destruct (_ || _) eqn:E; [done|]. to_prop. cbv zeta.
  destruct (_ <=? _); [done|]. unfold check_type.
  pose proof (dk_data _ Hok).
  assert (data_payload (le_decode (take 2 (drop 4 packet))) packet ≠ Panic) as Hp.
  { unfold data_payload. repeat case_match; try done; to_prop.
    unfold FEC_DATA_HEADER_SIZE in *. rewrite slice_Ok by lia. simpl. by case_match. }
  repeat case_match; try done; apply add_shard_safe; try done;
    try (rewrite length_drop; lia);
    match goal with |- (Z.to_nat (?a mod ?b) < _)%nat =>
      pose proof (Z.mod_pos_bound a b ltac:(lia)); lia end.
Qed.

Definition config (d : FecDecoder codec) : codec * nat * nat * Z * nat * nat :=
  (d_codec d, d_data_shards d, d_total_shards d, d_sequence_limit d, max_packet_size d,
   max_shard_sets d).

Lemma evict_config (d : FecDecoder codec) : config (evict_oldest_if_full d) = config d.
Proof. by destruct (evict_sets d) as (m & -> & _). Qed.

Lemma mark_completed_config (d : FecDecoder codec) id : config (mark_completed d id) = config d.
Proof. unfold mark_completed. by destruct (trim_completed _ _ _). Qed.

Lemma complete_set_config (d : FecDecoder codec) id s delivered :
  config (complete_set d id s delivered).2 = config d.
Proof. unfold complete_set. by repeat case_match; simpl; rewrite ?mark_completed_config. Qed.

Lemma decode_config (d : FecDecoder codec) packet : config (decode d packet).2 = config d.
Proof.
  unfold decode, add_shard. repeat (case_match; cbn [snd] in *; try done).
  all: rewrite ?complete_set_config; unfold config; simpl; try done.
  all: change (config (evict_oldest_if_full d) = config d); apply evict_config.
Qed.

Lemma with_max_shard_sets_ok k m mps ms (d : FecDecoder codec) :
  with_max_shard_sets k m mps ms = Ok d →
  decoder_ok d ∧ d_data_shards d = k ∧ d_total_shards d = (k + m)%nat ∧
  max_packet_size d = mps ∧ max_shard_sets d = ms.
Proof.
  unfold with_max_shard_sets, validate_parameters.
  repeat case_match; try done; simpl. to_prop.
  destruct (rs_new k m); simpl; [|done]. intros [= <-]. split; [|done].
  constructor; simpl; try lia; try done; [rewrite map_size_empty; lia | apply NoDup_nil_2].
Qed.

Lemma decoder_after_ok (d : FecDecoder codec) packets :
  decoder_ok d → decoder_ok (decoder_after d packets) ∧
  config (decoder_after d packets) = config d.
Proof.
  revert d. induction packets as [|p packets IH]; intros d Hok; simpl; [done|].
  destruct (decode_safe d p Hok) as [_ Hok']. destruct (IH _ Hok') as [? ->].
  by rewrite decode_config.
Qed.

Lemma sum_list_bound (l : list nat) n : Forall (λ x, x ≤ n)%nat l → (sum_list l ≤ length l * n)%nat.
Proof. induction 1; simpl; lia. Qed.

Lemma buffered_bound (d : FecDecoder codec) :
  decoder_ok d →
  (buffered d ≤ size (sets d) * ((d_data_shards d - 1) * (max_packet_size d - FEC_HEADER_SIZE)))%nat.
Proof.
  intros Hok. pose proof (dk_sets _ Hok) as Hs. unfold buffered. revert Hs.
  generalize (sets d). intros M. induction M as [|i s M Hi Hfst IH] using map_first_key_ind; intros Hs.
  { rewrite map_fold_empty. apply Nat.le_0_l. }
  rewrite map_fold_insert_first_key by done. rewrite map_size_insert_None by done.
  apply map_Forall_insert in Hs as [[Hl Hp Hsh Hls] Hs]; [|done]. specialize (IH Hs).
  pose proof (sum_list_bound (length <$> omap id (shards s))
                (max_packet_size d - FEC_HEADER_SIZE)) as Hb.
  rewrite length_fmap, Forall_fmap in Hb. specialize (Hb Hls). rewrite <- Hp in Hb.
  assert (present s * (max_packet_size d - FEC_HEADER_SIZE) ≤
    (d_data_shards d - 1) * (max_packet_size d - FEC_HEADER_SIZE))%nat
    by (apply Nat.mul_le_mono_r; lia).
  simpl. generalize dependent ((d_data_shards d - 1) * (max_packet_size d - FEC_HEADER_SIZE))%nat.
  lia.
Qed.

(** Whatever packets arrive, valid or not, in any number, the decoder never
    panics, keeps at most [max_shard_sets] incomplete sets and twice as many
    completed ids, and buffers at most [max_shard_sets * (data_shards - 1)]
    shards of the largest size: an unauthenticated peer cannot make it grow. *)
Theorem decoder_memory_bounded k m mps ms (d : FecDecoder codec) packets packet :
  with_max_shard_sets k m mps ms = Ok d →
  let d' := decoder_after d packets in
  (decode d' packet).1 ≠ Panic ∧
  (pending_shard_sets d' ≤ ms)%nat ∧
  (size (completed d') ≤ ms * 2)%nat ∧
  (buffered d' ≤ ms * ((k - 1) * (mps - FEC_HEADER_SIZE)))%nat.
Proof.
  intros (Hok & Hk & Ht & Hmps & Hms)%with_max_shard_sets_ok d'.
  destruct (decoder_after_ok d packets Hok) as [Hok' Hc]. fold d' in Hok', Hc.
  injection Hc as ? Hk' ? ? Hmps' Hms'. pose proof (dk_size _ Hok') as Hsz.
  pose proof (buffered_bound d' Hok') as Hb. split_and!.
  - by apply decode_safe.
  - unfold pending_shard_sets. lia.
  - rewrite (dk_completed _ Hok'), size_list_to_set by apply (dk_nodup _ Hok').
    pose proof (dk_order _ Hok'). lia.
  - rewrite Hk', Hmps', Hk, Hmps in Hb. etrans; [exact Hb|]. apply Nat.mul_le_mono_r. lia.
Qed.

(** ** The packets of a set *)
Definition frame (p : bytes) : bytes := le_encode 2 (Z.of_nat (length p) + 2) ++ p.
Definition wire (t s : Z) (shard : bytes) : bytes := le_encode 4 s ++ le_encode 2 t ++ shard.
Fixpoint number (t s : Z) (l : list bytes) : list bytes :=
  match l with [] => [] | b :: l => wire t s b :: number t (s + 1) l end.

Lemma number_lookup t s l i : number t s l !! i = wire t (s + Z.of_nat i) <$> l !! i.
Proof.
  revert s i. induction l as [|b l IH]; intros s [|i]; simpl; [done | done | by rewrite Z.add_0_r|].
  rewrite IH. by replace (s + 1 + Z.of_nat i) with (s + Z.of_nat (S i)) by lia.
Qed.
Lemma length_number t s l : length (number t s l) = length l.
Proof. revert s. induction l; intros; simpl; auto. Qed.

(** An encoder that can start or continue the set numbered from [s]. *)
Record encoder_at (e : FecEncoder codec) (s : Z) : Prop := {
  ea_shards : (0 < e_data_shards e)%nat;
  ea_parity : (0 < e_parity_shards e)%nat;
  ea_total : e_total_shards e = (e_data_shards e + e_parity_shards e)%nat;
  ea_packet : Z.of_nat (max_kcp_packet e) ≤ 65533;
  ea_start : 0 ≤ s;
  ea_aligned : s mod Z.of_nat (e_total_shards e) = 0;
  ea_room : s + Z.of_nat (e_total_shards e) ≤ e_sequence_limit e;
  ea_limit : e_sequence_limit e = sequence_limit_of (e_total_shards e);
  ea_next : next_sequence e = s + Z.of_nat (length (pending e));
  ea_pending : (length (pending e) < e_data_shards e)%nat }.

(** The start of the set that follows. *)
Definition next_set (e : FecEncoder codec) (s : Z) : Z :=
  let s' := s + Z.of_nat (e_total_shards e) in if s' =? e_sequence_limit e then 0 else s'.

Definition sendable (e : FecEncoder codec) (p : bytes) : Prop :=
  (0 < length p ≤ max_kcp_packet e)%nat ∧ bytes_ok p.

Lemma sequence_limit_bounds n : 0 < n → u32_max / n * n < 2 ^ 32 ∧ (u32_max / n * n) mod n = 0.
Proof.
  intros. split; [|by apply Z.mod_mul; lia].
  pose proof (Z.mul_div_le u32_max n). unfold u32_max in *. lia.
Qed.

Lemma take_sequence_next (e : FecEncoder codec) v :
  next_sequence e = v → 0 ≤ v → v < e_sequence_limit e < 2 ^ 32 →
  take_sequence e =
    (v, with_sequence e (if v + 1 =? e_sequence_limit e then 0 else v + 1) (pending e)).
Proof.
  intros <- ? ?. unfold take_sequence. rewrite wrap_small by (unfold in_width; lia).
  f_equal. f_equal. destruct (_ =? _) eqn:?, (_ <=? _) eqn:?; to_prop; lia.
Qed.

Lemma parity_packets_number parity (e : FecEncoder codec) v :
  next_sequence e = v → 0 ≤ v → parity ≠ [] →
  v + Z.of_nat (length parity) ≤ e_sequence_limit e < 2 ^ 32 →
  parity_packets parity e =
    (number FEC_TYPE_PARITY v parity,
     with_sequence e (let v' := v + Z.of_nat (length parity) in
                      if v' =? e_sequence_limit e then 0 else v') (pending e)).
Proof.
  revert e v. induction parity as [|q parity IH]; intros e v Hv Hv0 Hne Hb; [done|].
  simpl length in Hb. cbn [parity_packets]. rewrite (take_sequence_next e v) by (done || lia).
  destruct parity as [|q' parity].
  { simpl. by replace (v + Z.pos (Pos.of_succ_nat 0)) with (v + 1) by lia. }
  rewrite (IH _ (v + 1)); [|cbn [next_sequence with_sequence] | lia | done | simpl in *; lia].
  2: { destruct (_ =? _) eqn:?; to_prop; simpl in *; lia. }
  cbn [number length e_sequence_limit with_sequence pending].
  by replace (v + 1 + Z.of_nat (S (length parity))) with (v + Z.of_nat (S (S (length parity)))) by lia.
Qed.

Lemma encoder_limit (e : FecEncoder codec) s :
  encoder_at e s → e_sequence_limit e < 2 ^ 32 ∧
  e_sequence_limit e mod Z.of_nat (e_total_shards e) = 0.
Proof. intros []. rewrite ea_limit0. apply sequence_limit_bounds. lia. Qed.

Lemma multiple_room t a b s limit :
  limit = t * b → s = t * a → 0 < t → s + t ≤ limit → s + t ≠ limit → s + t + t ≤ limit.
Proof. intros -> -> ? ? ?. assert (a + 1 < b) by nia. nia. Qed.

(** The state in which [encode] decides whether the set is full. *)
Lemma encode_stored (e : FecEncoder codec) s p :
  encoder_at e s → sendable e p →
  let v := s + Z.of_nat (length (pending e)) in
  let e' := with_sequence e (v + 1) (pending e ++ [frame p]) in
  let data_packet := wire FEC_TYPE_DATA v (frame p) in
  encode e p =
    if negb (length (pending e') =? e_data_shards e)%nat then (Ok [data_packet], e')
    else
      let frames := pending e' in
      match rs_encode (e_codec e) ((resize (max_length frames) 0 <$> frames) ++
              replicate (e_parity_shards e) (replicate (max_length frames) 0)) with
      | None => (Err (invalid_data "Kcptun FEC encoding failed"), with_sequence e (v + 1) [])
      | Some shards =>
          let '(packets, e) :=
            parity_packets (drop (e_data_shards e) shards) (with_sequence e (v + 1) []) in
          (Ok (data_packet :: packets), e)
      end.
Proof.
  intros He [[Hp0 Hp] _]. destruct (encoder_limit _ _ He) as [Hlim _]. destruct He.
  cbv zeta. unfold encode.
  rewrite (proj2 (orb_false_iff _ _)) by (split; [apply Nat.eqb_neq | apply Nat.ltb_ge]; lia).
  rewrite (proj2 (Z.ltb_ge _ _)) by lia.
  rewrite (take_sequence_next e _ ea_next0) by lia. rewrite (proj2 (Z.eqb_neq _ _)) by lia.
  cbn [with_sequence next_sequence pending e_data_shards e_parity_shards e_codec].
  assert (drop FEC_HEADER_SIZE (le_encode 4 (s + Z.of_nat (length (pending e))) ++
    le_encode 2 FEC_TYPE_DATA ++ le_encode 2 (Z.of_nat (length p) + 2) ++ p) = frame p) as ->.
  { rewrite app_assoc. by apply drop_app_length'. }
  done.
Qed.

Lemma encode_data (e : FecEncoder codec) s p :
  encoder_at e s → sendable e p → (S (length (pending e)) < e_data_shards e)%nat →
  let v := s + Z.of_nat (length (pending e)) in
  let e' := with_sequence e (v + 1) (pending e ++ [frame p]) in
  encode e p = (Ok [wire FEC_TYPE_DATA v (frame p)], e') ∧ encoder_at e' s.
Proof.
  intros He Hp Hs. cbv zeta. rewrite (encode_stored e s p He Hp). split.
  - cbn [pending with_sequence]. rewrite length_app. simpl length.
    by rewrite (proj2 (Nat.eqb_neq _ _)) by lia.
  - destruct He. constructor; simpl; rewrite ?length_app; simpl; try done; lia.
Qed.

Lemma encode_last (e : FecEncoder codec) s p parity :
  encoder_at e s → sendable e p → S (length (pending e)) = e_data_shards e →
  let frames := pending e ++ [frame p] in
  let len := max_length frames in
  rs_encode (e_codec e) ((resize len 0 <$> frames) ++
    replicate (e_parity_shards e) (replicate len 0)) = Some ((resize len 0 <$> frames) ++ parity) →
  length parity = e_parity_shards e →
  let e' := with_sequence e (next_set e s) [] in
  encode e p =
    (Ok (wire FEC_TYPE_DATA (s + Z.of_nat (length (pending e))) (frame p) ::
         number FEC_TYPE_PARITY (s + Z.of_nat (e_data_shards e)) parity), e') ∧
  encoder_at e' (next_set e s).
Proof.
  intros He Hp Hs frames len Hrs Hpar e'. rewrite (encode_stored e s p He Hp).
  destruct (encoder_limit _ _ He) as [Hlim Hmod]. destruct He.
  cbn [pending with_sequence e_data_shards e_codec e_parity_shards]. split.
  - rewrite length_app. simpl length. rewrite (proj2 (Nat.eqb_eq _ _)) by lia. cbn [negb].
    cbv zeta. fold frames len. rewrite Hrs.
    rewrite drop_app_length' by (unfold frames; rewrite length_fmap, length_app; simpl; lia).
    rewrite (parity_packets_number _ _ (s + Z.of_nat (e_data_shards e)));
      cbn [next_sequence with_sequence e_sequence_limit pending]; [|lia|lia| |lia].
    2: { intros ->. simpl in *. lia. }
    unfold e', next_set. by replace (s + Z.of_nat (e_data_shards e) + Z.of_nat (length parity))
      with (s + Z.of_nat (e_total_shards e)) by lia.
  - unfold e', next_set. cbv zeta.
    destruct (_ =? _) eqn:E; to_prop; constructor; simpl; try done; try lia.
    + rewrite <- Z.add_mod_idemp_r, Z.mod_same, Z.add_0_r by lia. done.
    + assert (e_sequence_limit e = Z.of_nat (e_total_shards e) *
        (e_sequence_limit e / Z.of_nat (e_total_shards e))) by (apply Z.div_exact; lia).
      assert (s = Z.of_nat (e_total_shards e) * (s / Z.of_nat (e_total_shards e)))
        by (apply Z.div_exact; lia).
      by apply (multiple_room (Z.of_nat (e_total_shards e)) _ _ _ _ H0 H1); lia.
Qed.

Lemma encode_all_cons (e : FecEncoder codec) p packets :
  encode_all e (p :: packets) =
    match encode e p with
    | (Ok out, e) => let '(r, e) := encode_all e packets in (app out <$> r, e)
    | (r, e) => (r, e)
    end.
Proof. done. Qed.

Definition padded (frames : list bytes) : list bytes := resize (max_length frames) 0 <$> frames.

Lemma encode_rest todo (e : FecEncoder codec) s parity :
  let frames := pending e ++ (frame <$> todo) in
  encoder_at e s → Forall (sendable e) todo → todo ≠ [] →
  length frames = e_data_shards e →
  rs_encode (e_codec e) (padded frames ++
    replicate (e_parity_shards e) (replicate (max_length frames) 0)) = Some (padded frames ++ parity) →
  length parity = e_parity_shards e →
  let e' := with_sequence e (next_set e s) [] in
  encode_all e todo =
    (Ok (number FEC_TYPE_DATA (s + Z.of_nat (length (pending e))) (frame <$> todo) ++
         number FEC_TYPE_PARITY (s + Z.of_nat (e_data_shards e)) parity), e') ∧
  encoder_at e' (next_set e s).
Proof.
  revert e. induction todo as [|p todo IH]; intros e frames He Hs Hne Hlen Hrs Hpar e'; [done|].
  apply Forall_cons in Hs as [Hp Hs].
  assert (Hf : frames = (pending e ++ [frame p]) ++ (frame <$> todo)) by
    (unfold frames; by rewrite <- app_assoc).
  rewrite Hf, !length_app in Hlen. simpl in Hlen. destruct todo as [|q todo].
  - rewrite app_nil_r in Hf. simpl in Hlen. cbn [encode_all fmap list_fmap number].
    rewrite Hf in Hrs.
    destruct (encode_last e s p parity) as [-> Hok]; [done|done|lia|done|done|].
    split; [|done]. simpl. by rewrite app_nil_r.
  - simpl in Hlen. destruct (encode_data e s p) as [E He1]; [done|done|lia|].
    rewrite encode_all_cons, E.
    destruct (IH (with_sequence e (s + Z.of_nat (length (pending e)) + 1)
                    (pending e ++ [frame p]))) as [-> Hok]; try done.
    + cbn [pending with_sequence]. rewrite !length_app. simpl. lia.
    + cbn [pending with_sequence]. by rewrite <- Hf.
    + split; [|done]. cbn [pending with_sequence e_data_shards fmap list_fmap number app outcome_fmap].
      rewrite length_app. simpl length.
      replace (s + Z.of_nat (length (pending e) + 1)) with (s + Z.of_nat (length (pending e)) + 1)
        by lia.
      done.
Qed.

Lemma length_frame p : length (frame p) = S (S (length p)).
Proof. unfold frame. by rewrite length_app, length_le_encode. Qed.

Lemma max_length_le l b : b ∈ l → (length b ≤ max_length l)%nat.
Proof. induction 1; simpl; lia. Qed.

Lemma frame_ok p : bytes_ok p → bytes_ok (frame p).
Proof. intros. apply bytes_ok_app. split; [apply bytes_ok_le_encode | done]. Qed.

Lemma padded_ok frames :
  Forall bytes_ok frames →
  Forall (λ b, length b = max_length frames ∧ bytes_ok b) (padded frames).
Proof.
  intros Hok. apply Forall_fmap, Forall_forall. intros b Hb. simpl. split.
  - apply length_resize.
  - rewrite Forall_forall in Hok. rewrite resize_spec. apply bytes_ok_app. split.
    + by apply bytes_ok_take, Hok.
    + by apply bytes_ok_replicate.
Qed.

(** ** Recovery of a set *)
Section recovery.
Context (c : codec) (k m mps ms : nat) (ps parity : list bytes) (set_id : Z).
Notation frames := (frame <$> ps).
Notation set_shards := (frames ++ parity).
Notation set_start := (set_id * Z.of_nat (k + m)).
Context (Hlaws : rs_laws c k m) (Hk : length ps = k) (Hk0 : (0 < k)%nat).
Context (Hm : length parity = m) (Hpar : Forall (λ q, length q = max_length frames) parity).
Context (Hrs : rs_encode c (padded frames ++ replicate m (replicate (max_length frames) 0)) =
               Some (padded frames ++ parity)).
Context (Hps : Forall bytes_ok ps) (Hps0 : Forall (λ p, 0 < length p)%nat ps).
Context (Hfit : (max_length frames + FEC_HEADER_SIZE ≤ mps)%nat).
Context (Hlen16 : Z.of_nat (max_length frames) < 2 ^ 16).
Context (Hid : 0 ≤ set_id) (Hroom : set_start + Z.of_nat (k + m) ≤ sequence_limit_of (k + m)).

Definition set_wire : list bytes :=
  number FEC_TYPE_DATA set_start frames ++ number FEC_TYPE_PARITY (set_start + Z.of_nat k) parity.
Definition type_at (i : nat) : Z := if (i <? k)%nat then FEC_TYPE_DATA else FEC_TYPE_PARITY.

Lemma set_wire_lookup i :
  set_wire !! i = wire (type_at i) (set_start + Z.of_nat i) <$> set_shards !! i.
Proof.
  unfold set_wire, type_at. destruct (_ <? _)%nat eqn:E; to_prop.
  - rewrite !lookup_app_l by (rewrite ?length_number, length_fmap; lia). apply number_lookup.
  - rewrite !lookup_app_r by (rewrite ?length_number, length_fmap; lia).
    rewrite length_number, length_fmap, Hk, number_lookup.
    by replace (set_start + Z.of_nat k + Z.of_nat (i - k)) with (set_start + Z.of_nat i) by lia.
Qed.

Lemma shard_length i b :
  set_shards !! i = Some b → (2 < length b ≤ max_length frames)%nat.
Proof.
  intros Hb.
  assert (Hf : ∀ f, f ∈ frames → (2 < length f)%nat).
  { intros f (p & -> & Hp)%list_elem_of_fmap. rewrite length_frame.
    rewrite Forall_forall in Hps0. specialize (Hps0 _ Hp). lia. }
  apply lookup_app_Some in Hb as [Hb|[_ Hb]]; apply list_elem_of_lookup_2 in Hb.
  - split; [by apply Hf | by apply max_length_le].
  - rewrite Forall_forall in Hpar. rewrite (Hpar _ Hb).
    destruct ps as [|p ps']; [simpl in Hk; lia|].
    assert (Hp : frame p ∈ frame <$> p :: ps') by apply list_elem_of_here.
    pose proof (Hf _ Hp). pose proof (max_length_le _ _ Hp). lia.
Qed.

Lemma shard_data i b :
  set_shards !! i = Some b → (i < k)%nat → ∃ p, ps !! i = Some p ∧ b = frame p.
Proof.
  intros Hb Hi. rewrite lookup_app_l, list_lookup_fmap in Hb by (rewrite length_fmap; lia).
  destruct (ps !! i) as [p|]; [|done]. simplify_eq/=. eauto.
Qed.

Lemma data_payload_at i s b :
  set_shards !! i = Some b →
  data_payload (type_at i) (wire (type_at i) s b) = Ok (omap (ps !!.) [i]).
Proof.
  intros Hb. pose proof (shard_length _ _ Hb) as Hbl. unfold data_payload, type_at.
  destruct (i <? k)%nat eqn:E; to_prop; cbn [omap list_omap].
  2: { by rewrite lookup_ge_None_2 by lia. }
  destruct (shard_data _ _ Hb E) as (p & -> & ->). rewrite length_frame in *.
  assert (Hw : wire FEC_TYPE_DATA s (frame p) =
    (le_encode 4 s ++ le_encode 2 FEC_TYPE_DATA) ++ le_encode 2 (Z.of_nat (length p) + 2) ++ p).
  { unfold wire, frame. by rewrite <- app_assoc. }
  assert (Hl : length (wire FEC_TYPE_DATA s (frame p)) = (8 + length p)%nat).
  { rewrite Hw, !length_app, !length_le_encode. lia. }
  change (FEC_TYPE_DATA =? FEC_TYPE_DATA) with true. cbv iota.
  unfold FEC_DATA_HEADER_SIZE, FEC_HEADER_SIZE. rewrite Hl, (proj2 (Nat.ltb_ge _ _)) by lia.
  rewrite Hw at 1. rewrite slice_mid by (by rewrite ?length_app, ?length_le_encode). cbn [mbind outcome_bind].
  rewrite le_decode_encode_small by (simpl; lia).
  rewrite (proj2 (orb_false_iff _ _)).
  2: { split; [apply Z.ltb_ge; lia | apply negb_false_iff, Z.eqb_eq; lia]. }
  rewrite Hw, app_assoc. by rewrite drop_app_length' by by rewrite !length_app, !length_le_encode.
Qed.

Lemma decode_wire (d : FecDecoder codec) i b :
  config d = (c, k, (k + m)%nat, sequence_limit_of (k + m), mps, ms) →
  set_shards !! i = Some b →
  decode d (wire (type_at i) (set_start + Z.of_nat i) b) =
    let delivered := omap (ps !!.) [i] in
    if bool_decide (set_id ∈ completed d) then (Ok delivered, d)
    else add_shard d set_id i b delivered.
Proof.
  intros Hc Hb. injection Hc as Hcd Hdk Hdt Hdl Hdm Hds.
  pose proof (shard_length _ _ Hb) as Hbl. pose proof (lookup_lt_Some _ _ _ Hb) as Hi.
  rewrite length_app, length_fmap, Hk, Hm in Hi.
  destruct (sequence_limit_bounds (Z.of_nat (k + m))) as [Hlim _]; [lia|].
  fold (sequence_limit_of (k + m)) in Hlim.
  assert (Hw : length (wire (type_at i) (set_start + Z.of_nat i) b) = (6 + length b)%nat).
  { unfold wire. by rewrite !length_app, !length_le_encode. }
  assert (0 ≤ set_start) by lia.
  unfold decode. rewrite Hw, Hdm, Hdl, Hdk, Hdt. unfold FEC_HEADER_SIZE in *.
  rewrite (proj2 (orb_false_iff _ _)) by (split; apply Nat.ltb_ge; lia).
  assert (take 4 (wire (type_at i) (set_start + Z.of_nat i) b) =
    le_encode 4 (set_start + Z.of_nat i)) as -> by by apply take_app_length'.
  assert (drop 4 (wire (type_at i) (set_start + Z.of_nat i) b) =
    le_encode 2 (type_at i) ++ b) as -> by by apply drop_app_length'.
  rewrite (take_app_length' (le_encode 2 (type_at i))) by done.
  assert (drop 6 (wire (type_at i) (set_start + Z.of_nat i) b) = b) as ->.
  { unfold wire. rewrite app_assoc. by apply drop_app_length'. }
  rewrite le_decode_encode_small by (simpl; lia).
  rewrite le_decode_encode_small by (unfold type_at; by case_match).
  rewrite (proj2 (Z.leb_gt _ _)) by lia. cbv zeta.
  rewrite (Z.add_comm set_start), Z.mod_add, Z.div_add by lia.
  rewrite Z.mod_small, Z.div_small, Z.add_0_l, Nat2Z.id by lia.
  assert (Hd : check_type (type_at i) (i <? k)%nat = Ok ()).
  { unfold check_type, type_at. by destruct (_ <? _)%nat. }
  by rewrite Hd, data_payload_at.
Qed.

(** What the decoder holds once the shards at [got] (without repetition) have
    arrived. *)
Definition shards_at (got : list nat) : list (option bytes) :=
  imap (λ i b, if bool_decide (i ∈ got) then Some b else None) set_shards.
Definition max_at (got : list nat) : nat :=
  foldr (λ i n, n `max` length (default [] (set_shards !! i)))%nat 0%nat got.
Definition collects (d : FecDecoder codec) (got : list nat) : Prop :=
  set_id ∉ completed d ∧
  match got with
  | [] => sets d !! set_id = None
  | _ => ∃ a, sets d !! set_id = Some (mkSet (shards_at got) (length got) (max_at got) a)
  end.

Lemma shards_at_lookup got i :
  shards_at got !! i =
    (λ b, if bool_decide (i ∈ got) then Some b else None) <$> set_shards !! i.
Proof. apply list_lookup_imap. Qed.

Lemma shards_at_nil : shards_at [] = replicate (k + m) None.
Proof.
  apply list_eq. intros i. rewrite shards_at_lookup.
  destruct (set_shards !! i) as [b|] eqn:Hb; simpl.
  - apply lookup_lt_Some in Hb. rewrite length_app, length_fmap in Hb.
    by rewrite lookup_replicate_2 by lia.
  - apply lookup_ge_None in Hb. rewrite length_app, length_fmap in Hb. symmetry.
    apply lookup_ge_None. rewrite length_replicate. lia.
Qed.

Lemma shards_at_insert got i b :
  set_shards !! i = Some b → <[i := Some b]> (shards_at got) = shards_at (i :: got).
Proof.
  intros Hb. apply list_eq. intros j. rewrite shards_at_lookup.
  destruct (decide (i = j)) as [<-|Hij].
  - rewrite list_lookup_insert_eq, Hb; simpl.
    + by rewrite bool_decide_eq_true_2 by apply list_elem_of_here.
    + unfold shards_at. rewrite length_imap. by eapply lookup_lt_Some.
  - rewrite list_lookup_insert_ne, shards_at_lookup by done.
    destruct (set_shards !! j); simpl; [|done]. f_equal.
    by rewrite (bool_decide_ext _ (j ∈ i :: got)) by set_solver.
Qed.

Lemma add_shard_duplicate (d : FecDecoder codec) got i b delivered :
  collects d got → i ∈ got → set_shards !! i = Some b →
  add_shard d set_id i b delivered = (Ok [], d).
Proof.
  intros [_ Hs] Hi Hb. destruct got as [|j got]; [by apply elem_of_nil in Hi|].
  destruct Hs as [a Hs]. unfold add_shard.
  rewrite bool_decide_eq_true_2, Hs by (rewrite Hs; eauto). cbn [shards].
  rewrite shards_at_lookup, Hb. simpl. by rewrite bool_decide_eq_true_2.
Qed.

Lemma add_shard_new (d : FecDecoder codec) got i b delivered :
  config d = (c, k, (k + m)%nat, sequence_limit_of (k + m), mps, ms) →
  collects d got → i ∉ got → set_shards !! i = Some b →
  ∃ d' a, config d' = config d ∧
    completed d' = completed d ∧ completed_order d' = completed_order d ∧
    (let set := mkSet (shards_at (i :: got)) (length (i :: got)) (max_at (i :: got)) a in
     sets d' !! set_id = Some set ∧
     add_shard d set_id i b delivered =
       if (length (i :: got) <? k)%nat then (Ok delivered, d')
       else complete_set d' set_id set delivered).
Proof.
  intros Hc [_ Hs] Hi Hb. pose proof (shard_length _ _ Hb) as Hbl.
  assert (Hlen : (length b =? 0)%nat = false) by (apply Nat.eqb_neq; lia).
  injection Hc as Hcd Hdk Hdt Hdl Hdm Hds. unfold add_shard.
  destruct got as [|j got].
  - rewrite bool_decide_eq_false_2 by (rewrite Hs; by intros [? ?]). cbv zeta.
    destruct (evict_sets d) as (M & -> & _).
    cbn [sets with_sets d_total_shards d_arrival]. rewrite lookup_insert_eq, Hdt.
    cbn [shards present max_len arrival d_data_shards with_sets sets].
    rewrite lookup_replicate_2 by (apply lookup_lt_Some in Hb; rewrite length_app, length_fmap in Hb; lia).
    rewrite Hlen, <- shards_at_nil, (shards_at_insert [] i b Hb), Hdk.
    set (a := wrap 64 (d_arrival d + 1)). set (new := <[set_id := _]> M).
    exists (with_sets d a (<[set_id := mkSet (shards_at [i]) 1 (max_at [i]) a]> new)), a.
    split_and!; [done | done | done | apply lookup_insert_eq|].
    cbn [max_at foldr]. by rewrite Hb.
  - destruct Hs as [a Hs]. rewrite bool_decide_eq_true_2, Hs by (rewrite Hs; eauto).
    cbn [shards present max_len arrival d_data_shards with_sets sets].
    rewrite shards_at_lookup, Hb. simpl fmap. rewrite bool_decide_eq_false_2 by done.
    rewrite Hlen, (shards_at_insert _ i b Hb), Hdk.
    exists (with_sets d (d_arrival d) (<[set_id:=mkSet (shards_at (i :: j :: got))
      (length (i :: j :: got)) (max_at (i :: j :: got)) a]> (sets d))), a.
    split_and!; [done | done | done | apply lookup_insert_eq|].
    cbn [max_at foldr]. by rewrite Hb.
Qed.

Lemma filter_iff_Forall {A} (P Q : A → Prop) `{∀ x, Decision (P x)} `{∀ x, Decision (Q x)} l :
  Forall (λ x, P x ↔ Q x) l → filter P l = filter Q l.
Proof. induction 1 as [|x l Hx _ IH]; [done|]. rewrite !filter_cons, IH. by repeat case_decide; naive_solver. Qed.

Lemma missing_at got :
  missing_data k (shards_at got) = filter (λ i, i ∉ got) (seq 0 k).
Proof.
  unfold missing_data. apply filter_iff_Forall, Forall_seq. intros i Hi.
  rewrite shards_at_lookup.
  destruct (lookup_lt_is_Some_2 set_shards i) as [b ->]; [rewrite length_app, length_fmap; lia|].
  simpl. case_bool_decide; naive_solver.
Qed.

Lemma present_at got :
  NoDup got → Forall (λ i, i < k + m)%nat got → length (omap id (shards_at got)) = length got.
Proof.
  intros Hnd Hlt. induction got as [|i got IH]; [by rewrite shards_at_nil, omap_replicate_None|].
  apply NoDup_cons in Hnd as [Hi Hnd]. apply Forall_cons in Hlt as [Hi' Hlt].
  destruct (lookup_lt_is_Some_2 set_shards i) as [b Hb]; [rewrite length_app, length_fmap; lia|].
  rewrite <- (shards_at_insert got i b Hb), omap_insert_None; [by simpl; rewrite IH|].
  rewrite shards_at_lookup, Hb. simpl. by rewrite bool_decide_eq_false_2.
Qed.

(** If data is missing among [k] shards, a parity shard is there: the longest
    shard received has the full length. *)
Lemma max_at_full got j :
  NoDup got → Forall (λ i, i < k + m)%nat got → length got = k → (j < k)%nat → j ∉ got →
  max_at got = max_length frames.
Proof.
  intros Hnd Hlt Hlen Hj Hjg.
  assert (Hle : (max_at got ≤ max_length frames)%nat).
  { clear Hnd Hlen Hjg. induction Hlt as [|i got Hi Hlt IH]; simpl; [lia|].
    destruct (lookup_lt_is_Some_2 set_shards i) as [b Hb]; [rewrite length_app, length_fmap; lia|].
    rewrite Hb. simpl. pose proof (shard_length _ _ Hb). lia. }
  assert (Hex : ∃ i, i ∈ got ∧ (k ≤ i)%nat).
  { destruct (decide (Exists (λ i, k ≤ i)%nat got)) as [(i & ? & ?)%Exists_exists|Hno]; [eauto|].
    exfalso. assert (length (j :: got) ≤ length (seq 0 k))%nat; [|rewrite length_seq in *; simpl in *; lia].
    apply submseteq_length, NoDup_submseteq; [by constructor|].
    intros i Hi. apply elem_of_seq. apply elem_of_cons in Hi as [->|Hi]; [lia|].
    rewrite Exists_exists in Hno. destruct (decide (k ≤ i)%nat); [naive_solver | lia]. }
  destruct Hex as (i & Hi & Hki). rewrite Forall_forall in Hlt.
  destruct (lookup_lt_is_Some_2 set_shards i) as [b Hb].
  { rewrite length_app, length_fmap. specialize (Hlt _ Hi). lia. }
  assert (length b = max_length frames) as Hbl.
  { rewrite lookup_app_r in Hb by (rewrite length_fmap; lia).
    rewrite Forall_forall in Hpar. eapply Hpar, list_elem_of_lookup_2, Hb. }
  apply Nat.le_antisymm; [done|]. clear Hle Hnd Hlen Hjg Hlt.
  induction Hi as [|?? got Hi IH]; simpl; [rewrite Hb; simpl | specialize (IH Hki Hb)]; lia.
Qed.

Lemma frame_payload p n :
  Z.of_nat (length p) + 2 < 2 ^ 16 → (length (frame p) ≤ n)%nat →
  let recovered := resize n 0 (frame p) in
  (2 ≤ length recovered)%nat ∧ le_decode (take 2 recovered) = Z.of_nat (length p) + 2 ∧
  Z.of_nat (length p) + 2 ≤ Z.of_nat (length recovered) ∧
  slice recovered 2 (Z.to_nat (Z.of_nat (length p) + 2)) = Ok p.
Proof.
  intros Hp Hn recovered. unfold recovered. rewrite resize_ge by done.
  rewrite length_frame in *. rewrite length_app, length_replicate, length_frame.
  split_and!; [lia| |lia|].
  - unfold frame. rewrite <- app_assoc, take_app_length' by done.
    apply le_decode_encode_small. simpl. lia.
  - unfold frame. rewrite <- app_assoc. apply slice_mid; [done | lia].
Qed.

Lemma recovered_packets_at missing rebuilt :
  Forall (λ i, i < k)%nat missing →
  (∀ i s, padded frames !! i = Some s → rebuilt !! i = Some (Some s)) →
  recovered_packets missing rebuilt = Ok (omap (ps !!.) missing).
Proof.
  intros Hmiss Hr. induction Hmiss as [|i missing Hi Hmiss IH]; [done|].
  destruct (lookup_lt_is_Some_2 ps i) as [p Hp]; [lia|].
  assert (Hfi : frames !! i = Some (frame p)) by (by rewrite list_lookup_fmap, Hp).
  pose proof (max_length_le _ _ (list_elem_of_lookup_2 _ _ _ Hfi)) as Hle.
  cbn [recovered_packets]. rewrite (Hr i (resize (max_length frames) 0 (frame p))).
  2: { unfold padded. by rewrite list_lookup_fmap, Hfi. }
  destruct (frame_payload p (max_length frames)) as (H1 & H2 & H3 & H4);
    [rewrite length_frame in Hle; lia | done |].
  cbn [expect ok_or mbind outcome_bind].
  rewrite (proj2 (Nat.ltb_ge _ _)) by done. rewrite H2.
  rewrite (proj2 (orb_false_iff _ _)) by (split; apply Z.ltb_ge; lia).
  rewrite H4, IH. simpl. by rewrite Hp.
Qed.

Lemma known_at got :
  max_at got = max_length frames →
  ∀ i s, (option_map (resize (max_at got) 0) <$> shards_at got) !! i = Some (Some s) →
  (padded frames ++ parity) !! i = Some s.
Proof.
  intros -> i s. rewrite list_lookup_fmap, shards_at_lookup.
  destruct (set_shards !! i) as [b|] eqn:Hb; simpl; [|done].
  case_bool_decide; simpl; [|done]. intros [= <-].
  apply lookup_app_Some in Hb as [Hb|[Hi Hb]].
  - apply lookup_app_l_Some. unfold padded. by rewrite list_lookup_fmap, Hb.
  - unfold padded. rewrite lookup_app_r by (rewrite length_fmap; lia).
    rewrite length_fmap, Hb. f_equal.
    rewrite Forall_forall in Hpar. specialize (Hpar _ (list_elem_of_lookup_2 _ _ _ Hb)).
    by rewrite <- Hpar, resize_all.
Qed.

Lemma complete_set_recovers (d : FecDecoder codec) got a delivered :
  config d = (c, k, (k + m)%nat, sequence_limit_of (k + m), mps, ms) →
  NoDup got → Forall (λ i, i < k + m)%nat got → length got = k →
  complete_set d set_id (mkSet (shards_at got) (length got) (max_at got) a) delivered =
    (Ok (delivered ++ omap (ps !!.) (filter (λ i, i ∉ got) (seq 0 k))),
     mark_completed (with_sets d (d_arrival d) (delete set_id (sets d))) set_id).
Proof.
  intros Hc Hnd Hlt Hlen. injection Hc as Hcd Hdk Hdt Hdl Hdm Hds.
  unfold complete_set. cbv zeta. cbn [d_data_shards with_sets shards d_codec max_len].
  rewrite Hdk, missing_at. destruct (filter _ _) as [|j missing] eqn:Hmiss.
  { by rewrite app_nil_r. }
  assert (Hin : ∀ i, i ∈ j :: missing → (i < k)%nat ∧ i ∉ got).
  { intros i. rewrite <- Hmiss, list_elem_of_filter, elem_of_seq. intuition lia. }
  destruct (Hin j) as [Hj Hjg]; [left|].
  pose proof (max_at_full got j Hnd Hlt Hlen Hj Hjg) as Hmax.
  assert (Hf : Forall bytes_ok frames).
  { apply Forall_fmap. eapply Forall_impl; [exact Hps | apply frame_ok]. }
  destruct (rs_reconstruct_ok _ _ _ Hlaws (padded frames) parity (max_length frames)
    (option_map (resize (max_at got) 0) <$> shards_at got)) as (rebuilt & Hr & Hdata).
  - unfold padded. by rewrite !length_fmap.
  - by apply padded_ok.
  - done.
  - unfold shards_at. rewrite length_fmap, length_imap, length_app, length_fmap. lia.
  - by apply known_at.
  - rewrite <- Hlen at 1. rewrite <- (present_at got Hnd Hlt). apply Nat.eq_le_incl.
    induction (shards_at got) as [|[] l IH]; simpl; auto.
  - rewrite Hcd, Hr, (recovered_packets_at (j :: missing) rebuilt); [done| |done].
    apply Forall_forall. intros i Hi. by apply Hin.
Qed.

Lemma omap_seq_lookup (l : list bytes) : omap (l !!.) (seq 0 (length l)) = l.
Proof.
  induction l as [|b l IH] using rev_ind; [done|].
  rewrite length_app, seq_app, omap_app. simpl. rewrite list_lookup_middle by done. f_equal.
  rewrite <- IH at 2. apply list_omap_ext, Forall_Forall2_diag, Forall_seq. intros i Hi.
  by rewrite lookup_app_l by lia.
Qed.

Lemma received_and_missing got :
  NoDup got → omap (ps !!.) got ++ omap (ps !!.) (filter (λ i, i ∉ got) (seq 0 k)) ≡ₚ ps.
Proof.
  intros Hnd. etrans; [|apply (reflexive_eq (R := (≡ₚ))), (omap_seq_lookup ps)]. rewrite Hk, <- omap_app.
  assert (Hp : got ++ filter (λ i, i ∉ got) (seq 0 k) ≡ₚ
    seq 0 k ++ filter (λ i, k ≤ i)%nat got).
  { apply NoDup_Permutation.
    - apply NoDup_app. split_and!; [done | | by apply NoDup_filter, NoDup_seq].
      intros i Hi. rewrite list_elem_of_filter. tauto.
    - apply NoDup_app. split_and!; [apply NoDup_seq | | by apply NoDup_filter].
      intros i Hi. rewrite list_elem_of_filter, elem_of_seq in *. lia.
    - intros i. rewrite !elem_of_app, !list_elem_of_filter, !elem_of_seq.
      destruct (decide (i ∈ got)), (decide (i < k)%nat); intuition lia. }
  rewrite Hp, omap_app. rewrite <- (app_nil_r (omap (ps !!.) (seq 0 k))) at 2. f_equiv.
  apply (reflexive_eq (R := (≡ₚ))). assert (Forall (λ i, k ≤ i)%nat (filter (λ i, k ≤ i)%nat got)) as Hf
    by (apply Forall_forall; intros i Hi%list_elem_of_filter; tauto).
  clear Hp. induction Hf as [|i l Hi Hl IH]; simpl; [done|]. by rewrite lookup_ge_None_2 by lia.
Qed.

Lemma decode_all_app (d : FecDecoder codec) xs ys out d' :
  decode_all d xs = (Ok out, d') →
  decode_all d (xs ++ ys) = (app out <$> (decode_all d' ys).1, (decode_all d' ys).2).
Proof.
  revert d out. induction xs as [|x xs IH]; intros d out; simpl.
  - intros [= <- <-]. destruct (decode_all d ys) as [[] ?]; done.
  - destruct (decode d x) as [[out1| |] d1]; try done.
    destruct (decode_all d1 xs) as [[out2| |] d2] eqn:E; try done. simpl. intros [= <- <-].
    rewrite (IH _ _ E). destruct (decode_all d2 ys) as [[] ?]; simpl; try done.
    by rewrite app_assoc.
Qed.

(** The packets that arrive before the set is complete. *)
Lemma collect_run l (d : FecDecoder codec) got :
  config d = (c, k, (k + m)%nat, sequence_limit_of (k + m), mps, ms) → decoder_ok d →
  collects d got → NoDup got → Forall (λ i, i < k + m)%nat l →
  (size (list_to_set (got ++ l) : gset nat) < k)%nat →
  ∃ out d' got', decode_all d (omap (set_wire !!.) l) = (Ok out, d') ∧
    config d' = config d ∧ decoder_ok d' ∧ collects d' got' ∧ NoDup got' ∧
    (∀ i, i ∈ got' ↔ i ∈ got ∨ i ∈ l) ∧
    omap (ps !!.) got ++ out ≡ₚ omap (ps !!.) got'.
Proof.
  revert d got. induction l as [|i l IH]; intros d got Hc Hok Hcol Hnd Hlt Hsz.
  { exists [], d, got. rewrite app_nil_r. split_and!; try done. set_solver. }
  apply Forall_cons in Hlt as [Hi Hlt].
  destruct (lookup_lt_is_Some_2 set_shards i) as [b Hb]; [rewrite length_app, length_fmap; lia|].
  assert (Hw : set_wire !! i = Some (wire (type_at i) (set_start + Z.of_nat i) b))
    by (by rewrite set_wire_lookup, Hb).
  cbn [omap list_omap]. rewrite Hw. cbn [decode_all].
  pose proof (decode_safe d (wire (type_at i) (set_start + Z.of_nat i) b) Hok) as [_ Hok1].
  rewrite (decode_wire d i b Hc Hb) in Hok1 |- *. cbv zeta in *.
  rewrite bool_decide_eq_false_2 in Hok1 |- * by apply Hcol.
  destruct (decide (i ∈ got)) as [Hig|Hig].
  - rewrite (add_shard_duplicate d got i b _ Hcol Hig Hb).
    destruct (IH d got) as (out & d' & got' & -> & H1 & H2 & H3 & H4 & H5 & H6); try done.
    { eapply Nat.le_lt_trans, Hsz. apply subseteq_size. set_solver. }
    exists out, d', got'. split_and!; try done. intros j. rewrite H5. set_solver.
  - destruct (add_shard_new d got i b (omap (ps !!.) [i]) Hc Hcol Hig Hb)
      as (d1 & a & Hc1 & Hcomp & _ & Hs1 & Hadd).
    assert (Hnd' : NoDup (i :: got)) by (by constructor).
    assert (Hlen : (length (i :: got) < k)%nat).
    { rewrite <- (size_list_to_set (C := gset nat) (i :: got)) by done.
      eapply Nat.le_lt_trans, Hsz. apply subseteq_size. set_solver. }
    rewrite Hadd in Hok1 |- *. rewrite (proj2 (Nat.ltb_lt _ _) Hlen) in Hok1 |- *.
    destruct (IH d1 (i :: got)) as (out & d' & got' & -> & H1 & H2 & H3 & H4 & H5 & H6); try done.
    { by rewrite Hc1. }
    { split; [rewrite Hcomp; apply Hcol | eauto]. }
    { eapply Nat.le_lt_trans, Hsz. apply subseteq_size. set_solver. }
    eexists _, d', got'. split_and!; [done | by rewrite H1 | done | done | done | |].
    + intros j. rewrite H5. set_solver.
    + rewrite <- H6. simpl. destruct (ps !! i); [|done]. simpl. by rewrite <- Permutation_middle.
Qed.

(** The arrival that completes the set. *)
Lemma collect_complete l i (d : FecDecoder codec) :
  config d = (c, k, (k + m)%nat, sequence_limit_of (k + m), mps, ms) → decoder_ok d →
  collects d [] → Forall (λ i, i < k + m)%nat (l ++ [i]) → i ∉ l →
  S (size (list_to_set l : gset nat)) = k →
  ∃ out d', decode_all d (omap (set_wire !!.) (l ++ [i])) = (Ok out, d') ∧
    out ≡ₚ ps ∧ set_id ∈ completed d' ∧ decoder_ok d' ∧ config d' = config d.
Proof.
  intros Hc Hok Hcol [Hlt [Hi _]%Forall_cons]%Forall_app Hil Hsz.
  destruct (collect_run l d []) as (out & d1 & got & Hrun & Hc1 & Hok1 & Hcol1 & Hnd & Hgot & Hout);
    try done; [apply NoDup_nil_2 | simpl; lia|].
  destruct (lookup_lt_is_Some_2 set_shards i) as [b Hb]; [rewrite length_app, length_fmap; lia|].
  assert (Hw : set_wire !! i = Some (wire (type_at i) (set_start + Z.of_nat i) b))
    by (by rewrite set_wire_lookup, Hb).
  rewrite omap_app, (decode_all_app _ _ _ _ _ Hrun). cbn [omap list_omap]. rewrite Hw.
  cbn [decode_all].
  pose proof (decode_config d1 (wire (type_at i) (set_start + Z.of_nat i) b)) as Hc2.
  pose proof (decode_safe d1 (wire (type_at i) (set_start + Z.of_nat i) b) Hok1) as [_ Hok2].
  rewrite <- Hc1 in Hc. rewrite (decode_wire d1 i b) in Hc2, Hok2 |- * by done. cbv zeta in *.
  rewrite bool_decide_eq_false_2 in Hc2, Hok2 |- * by apply Hcol1.
  assert (Hig : i ∉ got) by set_solver.
  destruct (add_shard_new d1 got i b (omap (ps !!.) [i]) Hc Hcol1 Hig Hb)
    as (d2 & a & Hc3 & Hcomp & Hord & Hs2 & Hadd).
  assert (Hnd' : NoDup (i :: got)) by (by constructor).
  assert (Hlen : length (i :: got) = k).
  { simpl. rewrite <- Hsz. f_equal. rewrite <- (size_list_to_set (C := gset nat) got) by done.
    apply set_size_proper. set_solver. }
  assert (Hlt' : Forall (λ i, i < k + m)%nat (i :: got)).
  { constructor; [done|]. apply Forall_forall. rewrite Forall_forall in Hlt. set_solver. }
  rewrite Hadd, (proj2 (Nat.ltb_ge _ _)) in Hc2, Hok2 |- * by lia.
  rewrite (complete_set_recovers d2 _ a _) in Hc2, Hok2 |- *
    by (done || congruence).
  cbn [fst snd] in *. eexists _, _. split_and!; [reflexivity | | | done | by rewrite Hc2].
  - rewrite app_nil_r, app_assoc. simpl in Hout. rewrite Hout.
    rewrite <- (received_and_missing (i :: got) Hnd'). f_equiv. simpl.
    destruct (ps !! i); simpl; [by rewrite <- Permutation_cons_append | by rewrite app_nil_r].
  - apply mark_completed_order. destruct (decoder_order_ok d1 Hok1).
    injection Hc3 as ? ? ? ? ? Hms. constructor; simpl; rewrite ?Hms, ?Hcomp, ?Hord; done.
Qed.

(** The packets that arrive once the set is complete. *)
Lemma decode_late late (d : FecDecoder codec) :
  config d = (c, k, (k + m)%nat, sequence_limit_of (k + m), mps, ms) →
  set_id ∈ completed d → Forall (λ i, i < k + m)%nat late →
  decode_all d (omap (set_wire !!.) late) = (Ok (omap (ps !!.) late), d).
Proof.
  intros Hc Hid' Hlt. induction Hlt as [|i late Hi Hlt IH]; [done|].
  destruct (lookup_lt_is_Some_2 set_shards i) as [b Hb]; [rewrite length_app, length_fmap; lia|].
  cbn [omap list_omap]. rewrite set_wire_lookup, Hb. cbn [fmap option_fmap option_map decode_all].
  rewrite (decode_wire d i b Hc Hb). cbv zeta. rewrite bool_decide_eq_true_2 by done.
  cbn [omap list_omap] in *. rewrite IH. simpl. by destruct (ps !! i).
Qed.

Lemma set_wire_id l :
  Forall (λ p, le_decode (take 4 p) / Z.of_nat (k + m) = set_id) (omap (set_wire !!.) l).
Proof.
  induction l as [|i l IH]; [constructor|]. cbn [omap list_omap].
  destruct (set_wire !! i) as [p|] eqn:Hp; [|done]. constructor; [|done].
  rewrite set_wire_lookup in Hp. destruct (set_shards !! i) as [b|] eqn:Hb; [|done].
  apply lookup_lt_Some in Hb. rewrite length_app, length_fmap in Hb.
  cbn [fmap option_fmap option_map] in Hp. injection Hp as <-.
  destruct (sequence_limit_bounds (Z.of_nat (k + m))) as [Hlim _]; [lia|].
  fold (sequence_limit_of (k + m)) in Hlim.
  assert (0 ≤ set_start) by lia. unfold wire. rewrite take_app_length' by done.
  rewrite le_decode_encode_small by (simpl; lia).
  rewrite (Z.add_comm set_start), Z.div_add, Z.div_small by lia. lia.
Qed.

End recovery.

(** ** Streams of sets *)

(** A set of packets and the shards of it that arrive: some, the one that makes
    [data_shards] distinct ones, and some more. *)
Record round := mkRound {
  r_packets : list bytes; r_before : list nat; r_last : nat; r_late : list nat }.

Definition round_ok (k m mkp : nat) (r : round) : Prop :=
  length (r_packets r) = k ∧
  Forall (λ p, 0 < length p ≤ mkp ∧ bytes_ok p)%nat (r_packets r) ∧
  Forall (λ i, i < k + m)%nat (r_before r ++ [r_last r] ++ r_late r) ∧
  r_last r ∉ r_before r ∧ S (size (list_to_set (r_before r) : gset nat)) = k.

(** What the receiver gets for each set. *)
Fixpoint transmit (e : FecEncoder codec) (d : FecDecoder codec) (rounds : list round)
    : outcome (list (list bytes)) :=
  match rounds with
  | [] => Ok []
  | r :: rounds =>
      match encode_all e (r_packets r) with
      | (Ok sent, e) =>
          match decode_all d (omap (sent !!.) (r_before r ++ [r_last r] ++ r_late r)) with
          | (Ok out, d) => rest ← transmit e d rounds; Ok (out :: rest)
          | (Err x, _) => Err x
          | (Panic, _) => Panic
          end
      | (Err x, _) => Err x
      | (Panic, _) => Panic
      end
  end.

Lemma trim_completed_subseteq limit order ids :
  (trim_completed limit ids order).1 ⊆ ids.
Proof.
  revert ids. induction order as [|i order IH]; intros ids; simpl; [done|].
  case_match; [|done]. etrans; [apply IH|]. set_solver.
Qed.

Lemma mark_completed_subseteq (d : FecDecoder codec) id :
  completed (mark_completed d id) ⊆ {[id]} ∪ completed d.
Proof.
  unfold mark_completed. pose proof (trim_completed_subseteq (max_shard_sets d * 2)
    (if bool_decide (id ∈ completed d) then completed_order d else completed_order d ++ [id])
    ({[id]} ∪ completed d)). by destruct (trim_completed _ _ _).
Qed.

(** Sets that the decoder has not seen. *)
Definition fresh (d : FecDecoder codec) (id : Z) : Prop := sets d !! id = None ∧ id ∉ completed d.

Lemma fresh_with_sets (d : FecDecoder codec) a M id :
  fresh d id → M !! id = None → fresh (with_sets d a M) id.
Proof. by intros [? ?]. Qed.

Lemma fresh_complete_set (d : FecDecoder codec) id id' s delivered :
  fresh d id → id ≠ id' → fresh (complete_set d id' s delivered).2 id.
Proof.
  intros [Hs Hc] Hne. unfold complete_set. cbv zeta.
  assert (Hf : fresh (with_sets d (d_arrival d) (delete id' (sets d))) id).
  { split; [simpl; by rewrite lookup_delete_ne | done]. }
  assert (fresh (mark_completed (with_sets d (d_arrival d) (delete id' (sets d))) id') id).
  { destruct Hf as [Hf1 Hf2]. split; [by rewrite mark_completed_sets|].
    intros Hin%mark_completed_subseteq. simpl in *. set_solver. }
  by repeat case_match.
Qed.

Lemma fresh_add_shard (d : FecDecoder codec) id id' i b delivered :
  fresh d id → id ≠ id' → fresh (add_shard d id' i b delivered).2 id.
Proof.
  intros Hf Hne. unfold add_shard. cbv zeta.
  set (d' := if bool_decide _ then _ else _).
  assert (fresh d' id) as Hf'.
  { unfold d'. case_bool_decide; [done|]. destruct (evict_sets d) as (M & -> & HM).
    destruct Hf as [Hs Hc]. split; [|done]. simpl. rewrite lookup_insert_ne by done.
    by eapply lookup_weaken_None. }
  clearbody d'. repeat case_match; simpl; try done; [|apply fresh_complete_set; [|done]].
  all: apply fresh_with_sets; [done|]; rewrite lookup_insert_ne by done; apply Hf'.
Qed.

Lemma fresh_decode_all l (d : FecDecoder codec) id id' :
  Forall (λ p, le_decode (take 4 p) / Z.of_nat (d_total_shards d) = id') l → id ≠ id' →
  fresh d id → fresh (decode_all d l).2 id.
Proof.
  intros Hl Hne. revert d Hl. induction l as [|p l IH]; intros d Hl Hf; simpl; [done|].
  apply Forall_cons in Hl as [Hp Hl].
  assert (fresh (decode d p).2 id).
  { unfold decode. repeat case_match; try done. rewrite Hp. by apply fresh_add_shard. }
  pose proof (decode_config d p) as Hc. injection Hc as _ _ Ht _ _ _.
  specialize (IH (decode d p).2). rewrite Ht in IH. specialize (IH Hl).
  destruct (decode d p) as [[] d1]; simpl in *; try done.
  destruct (decode_all d1 l); simpl in *. by apply IH.
Qed.

Lemma encode_set (e : FecEncoder codec) s ps :
  let k := e_data_shards e in
  let m := e_parity_shards e in
  let frames := frame <$> ps in
  rs_laws (e_codec e) k m → encoder_at e s → pending e = [] →
  length ps = k → Forall (sendable e) ps →
  ∃ parity,
    length parity = m ∧ Forall (λ q, length q = max_length frames) parity ∧
    rs_encode (e_codec e) (padded frames ++ replicate m (replicate (max_length frames) 0)) =
      Some (padded frames ++ parity) ∧
    encode_all e ps = (Ok (number FEC_TYPE_DATA s frames ++
      number FEC_TYPE_PARITY (s + Z.of_nat k) parity), with_sequence e (next_set e s) []) ∧
    encoder_at (with_sequence e (next_set e s) []) (next_set e s).
Proof.
  intros k m frames Hlaws He Hpend Hlen Hps.
  assert (Hps' : ps ≠ []) by (intros ->; destruct He; simpl in *; lia).
  destruct (rs_encode_ok _ _ _ Hlaws (padded frames) (max_length frames)) as (parity & Hrs & Hm & Hpl).
  - unfold padded, frames. by rewrite !length_fmap.
  - destruct ps as [|p ps']; [done|].
    pose proof (max_length_le frames (frame p) (list_elem_of_here _ _)) as Hl.
    rewrite length_frame in Hl. lia.
  - apply padded_ok, Forall_fmap. eapply Forall_impl; [exact Hps|]. intros p [_ Hp]. by apply frame_ok.
  - pose proof (encode_rest ps e s parity) as Hrest. rewrite Hpend in Hrest.
    cbn [app length] in Hrest. rewrite Z.add_0_r in Hrest.
    destruct Hrest as [E Hok]; try done; [by rewrite length_fmap | eauto 10].
Qed.

Lemma max_length_bound l n : Forall (λ b, length b ≤ n)%nat l → (max_length l ≤ n)%nat.
Proof. induction 1; simpl; lia. Qed.

Lemma round_recovers (e : FecEncoder codec) (d : FecDecoder codec) s r mps ms :
  let k := e_data_shards e in
  let m := e_parity_shards e in
  let set_id := s / Z.of_nat (k + m) in
  rs_laws (e_codec e) k m → encoder_at e s → pending e = [] → round_ok k m (max_kcp_packet e) r →
  config d = (e_codec e, k, (k + m)%nat, sequence_limit_of (k + m), mps, ms) → decoder_ok d →
  (max_kcp_packet e + FEC_DATA_HEADER_SIZE ≤ mps)%nat → fresh d set_id →
  let e' := with_sequence e (next_set e s) [] in
  ∃ sent out d', encode_all e (r_packets r) = (Ok sent, e') ∧ encoder_at e' (next_set e s) ∧
    decode_all d (omap (sent !!.) (r_before r ++ [r_last r] ++ r_late r)) =
      (Ok (out ++ omap (r_packets r !!.) (r_late r)), d') ∧ out ≡ₚ r_packets r ∧
    config d' = config d ∧ decoder_ok d' ∧ (∀ id, id ≠ set_id → fresh d id → fresh d' id).
Proof.
  intros k m set_id Hlaws He Hpend (Hlen & Hps & Hlt & Hlast & Hsz) Hc Hok Hfit [Hf1 Hf2] e'.
  destruct (encode_set e s (r_packets r)) as (parity & Hm & Hpar & Hrs & Hsent & He'); try done.
  assert (s = set_id * Z.of_nat (k + m) ∧ 0 ≤ set_id ∧
    set_id * Z.of_nat (k + m) + Z.of_nat (k + m) ≤ sequence_limit_of (k + m)) as (Hs & Hid & Hroom).
  { assert (s = set_id * Z.of_nat (k + m)) as <-.
    { unfold set_id. destruct He. rewrite ea_total0 in *. rewrite Z.mul_comm.
      apply Z.div_exact; unfold k, m in *; [lia|done]. }
    destruct He. rewrite ea_total0 in *. split_and!; [done| |unfold k, m; lia].
    apply Z.div_pos; unfold k, m; lia. }
  assert (Hml : (max_length (frame <$> r_packets r) ≤ max_kcp_packet e + 2)%nat).
  { apply max_length_bound, Forall_fmap. eapply Forall_impl; [exact Hps|]. intros p [? _].
    change (length (frame p) ≤ max_kcp_packet e + 2)%nat. rewrite length_frame. lia. }
  assert (H16 : Z.of_nat (max_length (frame <$> r_packets r)) < 2 ^ 16) by (destruct He; lia).
  assert (Hfit' : (max_length (frame <$> r_packets r) + FEC_HEADER_SIZE ≤ mps)%nat)
    by (unfold FEC_DATA_HEADER_SIZE, FEC_HEADER_SIZE in *; lia).
  assert (Hk0 : (0 < k)%nat) by apply He.
  assert (Forall bytes_ok (r_packets r)) as Hb by (eapply Forall_impl; [exact Hps | naive_solver]).
  assert (Forall (λ p, 0 < length p)%nat (r_packets r)) as H0
    by (eapply Forall_impl; [exact Hps | simpl; naive_solver lia]).
  rewrite app_assoc, Forall_app in Hlt. destruct Hlt as [Hlt Hlate].
  assert (∃ out d', decode_all d (omap (set_wire k m (r_packets r) parity set_id !!.)
    (r_before r ++ [r_last r])) = (Ok out, d') ∧ out ≡ₚ r_packets r ∧ set_id ∈ completed d' ∧
    decoder_ok d' ∧ config d' = config d) as (out & d' & Hdec & Hout & Hin & Hok' & Hc')
    by (by eapply collect_complete).
  assert (Hld : decode_all d' (omap (set_wire k m (r_packets r) parity set_id !!.) (r_late r)) =
    (Ok (omap (r_packets r !!.) (r_late r)), d')) by (eapply decode_late; try done; by rewrite Hc').
  exists (set_wire k m (r_packets r) parity set_id), out, d'.
  split_and!; [|done | | done | done | done |].
  - rewrite Hsent. unfold set_wire. by rewrite <- Hs.
  - rewrite app_assoc, omap_app. erewrite decode_all_app by exact Hdec. by rewrite Hld.
  - intros id Hne Hfr.
    pose proof (fresh_decode_all (omap (set_wire k m (r_packets r) parity set_id !!.)
      (r_before r ++ [r_last r])) d id set_id) as Hfd.
    rewrite Hdec in Hfd. apply Hfd; [|done|done]. injection Hc as _ _ -> _ _ _.
    by eapply set_wire_id.
Qed.

Lemma encoder_new_ok k m mkp (e : FecEncoder codec) :
  encoder_new k m mkp = Ok e →
  encoder_at e 0 ∧ pending e = [] ∧ e_data_shards e = k ∧ e_parity_shards e = m ∧
  max_kcp_packet e = mkp ∧ rs_new k m = Some (e_codec e).
Proof.
  unfold encoder_new, validate_parameters. repeat case_match; try done; simpl. to_prop.
  destruct (rs_new k m) as [c|]; simpl; [|done]. intros [= <-]. split; [|done].
  constructor; simpl; try done; try lia. unfold sequence_limit_of.
  assert (1 ≤ u32_max / Z.of_nat (k + m)) by (apply Z.div_le_lower_bound; unfold u32_max; lia).
  nia.
Qed.

Lemma transmit_from rounds (e : FecEncoder codec) (d : FecDecoder codec) n mps ms :
  let k := e_data_shards e in
  let m := e_parity_shards e in
  rs_laws (e_codec e) k m → encoder_at e (n * Z.of_nat (k + m)) → pending e = [] →
  config d = (e_codec e, k, (k + m)%nat, sequence_limit_of (k + m), mps, ms) → decoder_ok d →
  (max_kcp_packet e + FEC_DATA_HEADER_SIZE ≤ mps)%nat →
  Forall (round_ok k m (max_kcp_packet e)) rounds →
  (n + Z.of_nat (length rounds)) * Z.of_nat (k + m) ≤ sequence_limit_of (k + m) →
  (∀ id, n ≤ id → fresh d id) →
  ∃ outs, transmit e d rounds = Ok outs ∧
    Forall2 (λ out r, ∃ first, first ≡ₚ r_packets r ∧
      out = first ++ omap (r_packets r !!.) (r_late r)) outs rounds.
Proof.
  intros k m Hlaws. unfold k, m in *. clear k m. revert e d n Hlaws.
  induction rounds as [|r rounds IH]; intros e d n Hlaws He Hpend Hc Hok Hfit Hr Hn Hf.
  { by exists []. }
  apply Forall_cons in Hr as [Hr0 Hr]. pose proof (ea_shards _ _ He).
  assert (Hid : n * Z.of_nat (e_data_shards e + e_parity_shards e) /
    Z.of_nat (e_data_shards e + e_parity_shards e) = n) by (apply Z.div_mul; lia).
  destruct (round_recovers e d _ r mps ms Hlaws He Hpend Hr0 Hc Hok Hfit)
    as (sent & out & d' & Hsent & He' & Hdec & Hout & Hc' & Hok' & Hfr).
  { rewrite Hid. by apply Hf. }
  rewrite Hid in Hfr. cbn [transmit]. rewrite Hsent, Hdec.
  assert (∃ outs, transmit (with_sequence e (next_set e (n * Z.of_nat
      (e_data_shards e + e_parity_shards e))) []) d' rounds = Ok outs ∧
    Forall2 (λ out r, ∃ first, first ≡ₚ r_packets r ∧
      out = first ++ omap (r_packets r !!.) (r_late r)) outs rounds) as (outs & Htr & Houts).
  { destruct rounds as [|r1 rounds]; [by exists []|]. apply (IH _ _ (n + 1)); try done.
    - unfold next_set in *. cbv zeta in *. pose proof (ea_total _ _ He) as Ht.
      pose proof (ea_limit _ _ He) as Hlim. rewrite Ht in *. simpl length in Hn.
      rewrite (proj2 (Z.eqb_neq _ _)) in He' |- * by nia.
      by rewrite Z.mul_add_distr_r, Z.mul_1_l.
    - by rewrite Hc'.
    - simpl length in *. cbn [e_data_shards e_parity_shards with_sequence]. nia.
    - intros id Hle. apply Hfr; [lia|]. apply Hf. lia. }
  rewrite Htr. eexists. split; [done|]. constructor; [eauto | done].
Qed.


End runs.

(** ** A codec: two data shards and their exclusive or *)
Section xor_codec.

Definition xor_shards (a b : bytes) : bytes := zip_with Z.lxor a b.

Definition xor_encode (l : list bytes) : option (list bytes) :=
  match l with [a; b; _] => Some [a; b; xor_shards a b] | _ => None end.

Definition xor_reconstruct (l : list (option bytes)) : option (list (option bytes)) :=
  match l with
  | [Some a; Some b; o] => Some [Some a; Some b; o]
  | [Some a; None; Some q] => Some [Some a; Some (xor_shards a q); Some q]
  | [None; Some b; Some q] => Some [Some (xor_shards b q); Some b; Some q]
  | _ => None
  end.

#[export] Program Instance xor_codec : ReedSolomon unit := {
  rs_new k m := if ((k =? 2) && (m =? 1))%nat then Some tt else None;
  rs_encode _ := xor_encode;
  rs_reconstruct_data _ := xor_reconstruct }.
Next Obligation. intros c known rebuilt. unfold xor_reconstruct. by repeat case_match; intros [= <-]. Qed.

Lemma xor_shards_cancel a b : length a = length b → xor_shards a (xor_shards a b) = b.
Proof.
  revert b. induction a as [|x a IH]; intros [|y b] Hl; simplify_eq/=; [done|].
  rewrite IH by done. f_equal. by rewrite <- Z.lxor_assoc, Z.lxor_nilpotent, Z.lxor_0_l.
Qed.
Lemma xor_shards_comm a b : xor_shards a b = xor_shards b a.
Proof.
  revert b. induction a as [|x a IH]; intros [|y b]; simpl; try done. by rewrite IH, Z.lxor_comm.
Qed.

Lemma xor_laws : rs_laws tt 2 1.
Proof.
  split.
  - intros [|a [|b [|]]] len Hl Hlen Hd; simplify_eq/=. repeat (apply Forall_cons in Hd as [[? ?] Hd]).
    exists [xor_shards a b]. split_and!; [done | done |]. constructor; [|constructor].
    unfold xor_shards. rewrite length_zip_with. lia.
  - intros [|a [|b [|]]] parity len known Hl Hd Henc Hk Hknown Hcount; simplify_eq/=.
    apply Forall_cons in Hd as [[Ha _] [[Hb _] _]%Forall_cons].
    destruct known as [|o0 [|o1 [|o2 [|]]]]; simplify_eq/=.
    pose proof (Hknown 0%nat) as H0. pose proof (Hknown 1%nat) as H1.
    pose proof (Hknown 2%nat) as H2. simpl in *.
    destruct o0 as [a'|], o1 as [b'|], o2 as [q'|]; simpl in Hcount; try lia;
      try (specialize (H0 _ eq_refl)); try (specialize (H1 _ eq_refl));
      try (specialize (H2 _ eq_refl)); simplify_eq; eexists; (split; [done|]);
      intros [|[|i]] s Hs; simplify_eq/=; try done.
    + by rewrite xor_shards_cancel by lia.
    + by rewrite (xor_shards_comm s b'), xor_shards_cancel by lia.
Qed.

Definition xor_encoder : FecEncoder unit :=
  mkEncoder tt 2 1 3 100 0 (sequence_limit_of 3) [].
Definition xor_decoder : FecDecoder unit :=
  mkDecoder tt 2 3 (sequence_limit_of 3) 108 3 0 ∅ ∅ [].

(** Two sets over a channel that loses a packet of each, the first also
    reordered and with a late arrival. *)
Definition xor_rounds : list round :=
  [mkRound [B "hello"; B "hi"] [2; 2]%nat 1 [0]%nat;
   mkRound [B "a"; B "longer packet"] [0]%nat 2 []].

Lemma xor_rounds_ok : Forall (round_ok 2 1 100) xor_rounds.
Proof. repeat apply Forall_cons_2; [..|constructor]; compute_done. Qed.


Lemma decoder_memory_bounded_witness :
  let d' := decoder_after xor_decoder [B "garbage packet"; wire FEC_TYPE_PARITY 5 (B "x")] in
  (decode d' (B "")).1 ≠ Panic ∧
  (pending_shard_sets d' ≤ 3)%nat ∧
  (size (completed d') ≤ 3 * 2)%nat ∧
  (buffered d' ≤ 3 * ((2 - 1) * (108 - FEC_HEADER_SIZE)))%nat.
Proof.
  apply (decoder_memory_bounded 2 1 108 3 xor_decoder
    [B "garbage packet"; wire FEC_TYPE_PARITY 5 (B "x")] (B "")). reflexivity.
Defined.

End xor_codec.

End Fec.
