(* ===== verification/WebSocket.v ===== *)
(** * WebSocket streams ([src/websocket/websocket_stream.rs])

    The framing layer between a proxied connection and its transport: the
    frame parser with its partial headers, masks, fragments and incremental
    UTF-8 check, the control frames it answers, and the frames it writes.  The
    transport is a stream of [Stream.v]; the random masks are a parameter. *)
From S2P Require Import Prelude Text SlideBuffer Stream.
Local Open Scope Z_scope.

Module Ws.
Import Stream.

Definition READ_BUFFER_SIZE : nat := N.to_nat (32 * 1024).
Definition MAX_PENDING_WRITE_BYTES : nat := N.to_nat (64 * 1024 + 128).
Definition MAX_FRAME_HEADER_SIZE : nat := 14.
Definition MAX_CONTROL_PAYLOAD_SIZE : nat := 125.

Inductive ReadState :=
  | Init
  | ReadLength (length_bytes_len : nat)
  | ReadMask
  | ReadDataContent
  | ReadControlContent.

Inductive OpCode :=
  | Continue | Text | Binary | Close | Ping | Pong
  | Unknown (code : Z).

#[global] Instance ReadState_eq_dec : EqDecision ReadState.
Proof. solve_decision. Defined.
#[global] Instance OpCode_eq_dec : EqDecision OpCode.
Proof. solve_decision. Defined.

Definition OpCode_from (code : Z) : OpCode :=
  if code =? 0 then Continue
  else if code =? 1 then Text
  else if code =? 2 then Binary
  else if code =? 8 then Close
  else if code =? 9 then Ping
  else if code =? 10 then Pong
  else Unknown code.

Inductive WebsocketPingType := Disabled | PingFrame | EmptyFrame.

(** ** Masks *)

(** [u64::from_ne_bytes] and its inverse, on a little- or big-endian machine. *)
Definition from_ne_bytes (little : bool) (bs : bytes) : Z :=
  if little then le_decode bs else be_decode bs.
Definition to_ne_bytes (little : bool) (n : nat) (z : Z) : bytes :=
  if little then le_encode n z else be_encode n z.

Definition rotate_mask (mask : bytes) (offset : nat) : bytes :=
  (λ i, nth ((offset + i) mod 4) mask 0) <$> [0; 1; 2; 3]%nat.

(** The loop over [chunks_exact_mut(8)], then over the remainder; a chunk per
    unit of fuel. *)
Fixpoint mask_chunks (little : bool) (fuel : nat) (rotated : bytes) (word : Z) (data : bytes) : bytes :=
  match fuel with
  | S fuel =>
      if (8 <=? length data)%nat
      then to_ne_bytes little 8 (Z.lxor (from_ne_bytes little (take 8 data)) word) ++
           mask_chunks little fuel rotated word (drop 8 data)
      else imap (λ i b, Z.lxor b (nth (i mod 4) rotated 0)) data
  | O => data
  end.

Definition apply_mask (little : bool) (data mask : bytes) (offset : nat) : bytes :=
  let rotated := rotate_mask mask offset in
  let half := from_ne_bytes little rotated in
  let word := Z.lor half (Z.shiftl half 32) in
  mask_chunks little (S (length data)) rotated word data.

(** ** UTF-8 *)

(** A proper prefix of the encoding of a scalar value. *)
Definition utf8_incomplete (s : bytes) : bool :=
  match s with
  | [a] => (194 <=? a) && (a <=? 244)
  | [a; b] => (224 <=? a) && (a <=? 239) && ok3 a b || (240 <=? a) && (a <=? 244) && ok4 a b
  | [a; b; c] => (240 <=? a) && (a <=? 244) && ok4 a b && is_cont c
  | _ => false
  end.

(** [std::str::from_utf8]: [None] if the text is valid, else
    [Utf8Error::valid_up_to] and whether [error_len] is [Some]. *)
Fixpoint from_utf8_aux (fuel : nat) (s : bytes) : option (nat * bool) :=
  match s, fuel with
  | [], _ => None
  | _, O => Some (0%nat, true)
  | _, S fuel =>
      match utf8_next s with
      | inl n => prod_map (Nat.add n) id <$> from_utf8_aux fuel (drop n s)
      | inr _ => Some (0%nat, negb (utf8_incomplete s))
      end
  end.
Definition from_utf8 (s : bytes) : option (nat * bool) := from_utf8_aux (length s) s.

Definition invalid_utf8_error : io_error :=
  IoError InvalidData "websocket text message is not valid UTF-8".

Definition utf8_sequence_width (first : Z) : option nat :=
  if (194 <=? first) && (first <=? 223) then Some 2%nat
  else if (224 <=? first) && (first <=? 239) then Some 3%nat
  else if (240 <=? first) && (first <=? 244) then Some 4%nat
  else None.

(** [pending] holds the first [pending_len] bytes of the three. *)
Definition validate_rest (chunk : bytes) (final_message_chunk : bool) : outcome bytes :=
  match from_utf8 chunk with
  | None => Ok []
  | Some (_, true) => Err invalid_utf8_error
  | Some (valid_up_to, false) =>
      let incomplete := drop valid_up_to chunk in
      if final_message_chunk || (3 <? length incomplete)%nat then Err invalid_utf8_error
      else Ok incomplete
  end.

Definition validate_utf8_chunk (pending chunk : bytes) (final_message_chunk : bool) : outcome bytes :=
  match pending with
  | [] => validate_rest chunk final_message_chunk
  | first :: _ =>
      width ← ok_or (utf8_sequence_width first) invalid_utf8_error;
      let needed := (width - length pending)%nat in
      let take_ := Nat.min needed (length chunk) in
      if (take_ <? needed)%nat then
        let pending := pending ++ take take_ chunk in
        if final_message_chunk then Err invalid_utf8_error else Ok pending
      else
        let sequence := pending ++ take take_ chunk in
        if bool_decide (from_utf8 sequence = None)
        then validate_rest (drop take_ chunk) final_message_chunk
        else Err invalid_utf8_error
  end.

(** ** Frames *)
Definition pack_frame (little : bool) (opcode : Z) (mask : option bytes) (input : bytes) : bytes :=
  let input_len := Z.of_nat (length input) in
  let mask_bit := match mask with Some _ => 128 | None => 0 end in
  [Z.lor opcode 128] ++
  (if input_len <? 126 then [Z.lor mask_bit input_len]
   else if input_len <=? 65535 then [Z.lor mask_bit 126] ++ be_encode 2 input_len
   else [Z.lor mask_bit 127] ++ be_encode 8 input_len) ++
  match mask with
  | Some mask_bytes => mask_bytes ++ apply_mask little input mask_bytes 0
  | None => input
  end.

Definition close_code_valid (code : Z) : bool :=
  existsb (Z.eqb code) [1000; 1001; 1002; 1003; 1007; 1008; 1009; 1010; 1011; 1012; 1013; 1014] ||
  (3000 <=? code) && (code <=? 4999).

Definition validate_close_payload (payload : bytes) : outcome unit :=
  if (length payload =? 1)%nat
  then err InvalidData "close frame payload must be empty or contain a two-byte status code"
  else if (length payload =? 0)%nat then Ok tt
  else
    code ← slice payload 0 2;
    if negb (close_code_valid (be_decode code))
    then err InvalidData "invalid websocket close status code"
    else if utf8_valid (drop 2 payload) then Ok tt
    else err InvalidData "websocket close reason is not valid UTF-8".

(** ** State *)

(** What the parser knows of the frame it is in; [text_utf8_pending] is the
    used part of the three bytes. *)
Record Reader := mkReader {
  read_state : ReadState;
  read_frame_final : bool;
  read_frame_masked : bool;
  read_frame_opcode : OpCode;
  read_frame_length : Z;
  read_frame_mask : bytes;
  read_frame_mask_offset : nat;
  fragmented_message : option OpCode;
  text_utf8_pending : bytes;
  error_close_code : Z }.

Record Unprocessed := mkUnprocessed {
  unprocessed_buf : LazyBuffer;
  unprocessed_start_offset : nat;
  unprocessed_end_offset : nat }.

(** [control_data] is the used part of the 125 bytes. *)
Record Control := mkControl {
  control_data : bytes;
  pending_control : option OpCode;
  control_flush_pending : bool;
  close_received : bool;
  close_sent : bool;
  terminal_error : option string;
  read_closed : bool }.

Record Core := mkCore { rd : Reader; un : Unprocessed; ctl : Control }.

Definition set_state (r : Reader) (s : ReadState) : Reader :=
  mkReader s (read_frame_final r) (read_frame_masked r) (read_frame_opcode r) (read_frame_length r)
    (read_frame_mask r) (read_frame_mask_offset r) (fragmented_message r) (text_utf8_pending r)
    (error_close_code r).
Definition set_length (r : Reader) (len : Z) : Reader :=
  mkReader (read_state r) (read_frame_final r) (read_frame_masked r) (read_frame_opcode r) len
    (read_frame_mask r) (read_frame_mask_offset r) (fragmented_message r) (text_utf8_pending r)
    (error_close_code r).
Definition set_mask (r : Reader) (mask : bytes) : Reader :=
  mkReader (read_state r) (read_frame_final r) (read_frame_masked r) (read_frame_opcode r)
    (read_frame_length r) mask (read_frame_mask_offset r) (fragmented_message r)
    (text_utf8_pending r) (error_close_code r).
Definition set_mask_offset (r : Reader) (offset : nat) : Reader :=
  mkReader (read_state r) (read_frame_final r) (read_frame_masked r) (read_frame_opcode r)
    (read_frame_length r) (read_frame_mask r) offset (fragmented_message r)
    (text_utf8_pending r) (error_close_code r).
Definition set_fragmented (r : Reader) (m : option OpCode) : Reader :=
  mkReader (read_state r) (read_frame_final r) (read_frame_masked r) (read_frame_opcode r)
    (read_frame_length r) (read_frame_mask r) (read_frame_mask_offset r) m
    (text_utf8_pending r) (error_close_code r).
Definition set_utf8 (r : Reader) (pending : bytes) : Reader :=
  mkReader (read_state r) (read_frame_final r) (read_frame_masked r) (read_frame_opcode r)
    (read_frame_length r) (read_frame_mask r) (read_frame_mask_offset r) (fragmented_message r)
    pending (error_close_code r).
Definition set_close_code (r : Reader) (code : Z) : Reader :=
  mkReader (read_state r) (read_frame_final r) (read_frame_masked r) (read_frame_opcode r)
    (read_frame_length r) (read_frame_mask r) (read_frame_mask_offset r) (fragmented_message r)
    (text_utf8_pending r) code.

Definition with_rd (c : Core) (r : Reader) : Core := mkCore r (un c) (ctl c).
Definition with_un (c : Core) (u : Unprocessed) : Core := mkCore (rd c) u (ctl c).
Definition with_ctl (c : Core) (x : Control) : Core := mkCore (rd c) (un c) x.

(** [pending_control = Some(opcode); control_flush_pending = true]. *)
Definition queue_control (x : Control) (opcode : OpCode) : Control :=
  mkControl (control_data x) (Some opcode) true (close_received x) (close_sent x)
    (terminal_error x) (read_closed x).
Definition set_control_data (x : Control) (data : bytes) : Control :=
  mkControl data (pending_control x) (control_flush_pending x) (close_received x) (close_sent x)
    (terminal_error x) (read_closed x).
Definition set_close_received (x : Control) : Control :=
  mkControl (control_data x) (pending_control x) (control_flush_pending x) true (close_sent x)
    (terminal_error x) (read_closed x).
Definition set_terminal (x : Control) (e : option string) : Control :=
  mkControl (control_data x) (pending_control x) (control_flush_pending x) (close_received x)
    (close_sent x) e (read_closed x).
Definition set_read_closed (x : Control) : Control :=
  mkControl (control_data x) (pending_control x) (control_flush_pending x) (close_received x)
    (close_sent x) (terminal_error x) true.
Definition set_flush_pending (x : Control) (b : bool) : Control :=
  mkControl (control_data x) (pending_control x) b (close_received x) (close_sent x)
    (terminal_error x) (read_closed x).

Definition unprocessed_len (c : Core) : nat :=
  unprocessed_end_offset (un c) - unprocessed_start_offset (un c).

(** [unprocessed_start_offset += n], and back to zero when all is consumed. *)
Definition advance (c : Core) (n : nat) : Core :=
  let u := un c in
  let start := (unprocessed_start_offset u + n)%nat in
  with_un c (if (start =? unprocessed_end_offset u)%nat
             then mkUnprocessed (unprocessed_buf u) 0 0
             else mkUnprocessed (unprocessed_buf u) start (unprocessed_end_offset u)).

(** [self.unprocessed_buf[start..start + n]] *)
Definition content (c : Core) (n : nat) : outcome bytes :=
  slice (lazy_buf (unprocessed_buf (un c))) (unprocessed_start_offset (un c))
    (unprocessed_start_offset (un c) + n).

(** ** Parser steps *)
Section steps.
Context (little : bool) (is_client : bool).

(** The result of a step: the bytes it put into the caller's buffer.  A step
    that would need more input returns without any. *)
Definition stepped : Type := outcome bytes * Core.

Definition fail (c : Core) (msg : string) : stepped := (err InvalidData msg, c).

Definition reading_text_message (r : Reader) : bool :=
  bool_decide (read_frame_opcode r = Text) ||
  bool_decide (read_frame_opcode r = Continue) && bool_decide (fragmented_message r = Some Text).

Definition finish_data_frame (c : Core) : outcome unit * Core :=
  let r := rd c in
  if read_frame_final r && reading_text_message r && negb (length (text_utf8_pending r) =? 0)%nat
  then (Err invalid_utf8_error, with_rd c (set_close_code r 1007))
  else if bool_decide (read_frame_opcode r = Continue) && read_frame_final r
  then (Ok tt, with_rd c (set_fragmented r None))
  else (Ok tt, c).

Definition finish_control_frame (c : Core) : outcome unit * Core :=
  let x := ctl c in
  match read_frame_opcode (rd c) with
  | Ping => (Ok tt, with_ctl c (queue_control x Pong))
  | Pong => (Ok tt, c)
  | Close =>
      let c :=
        if (2 <=? length (control_data x))%nat && negb (utf8_valid (drop 2 (control_data x)))
        then with_rd c (set_close_code (rd c) 1007) else c in
      match validate_close_payload (control_data x) with
      | Ok _ =>
          let x := set_close_received x in
          (Ok tt, with_ctl c (if close_sent x then x else queue_control x Close))
      | Err e => (Err e, c)
      | Panic => (Panic, c)
      end
  | _ => (Panic, c)
  end.

(** The bytes of a slice with the frame's mask taken off, and the reader after
    them.  The source unmasks in place; the slice is consumed at once. *)
Definition unmask (r : Reader) (data : bytes) : bytes * Reader :=
  if read_frame_masked r
  then (apply_mask little data (read_frame_mask r) (read_frame_mask_offset r),
        set_mask_offset r ((read_frame_mask_offset r + length data) mod 4))
  else (data, r).

Definition step_read_control_content (c : Core) : stepped :=
  let read_amount :=
    Z.to_nat (Z.min (Z.of_nat (unprocessed_len c)) (read_frame_length (rd c))) in
  if (read_amount =? 0)%nat then (Ok [], c)
  else
    match content c read_amount with
    | Ok data =>
        let '(data, r) := unmask (rd c) data in
        if (MAX_CONTROL_PAYLOAD_SIZE <? length (control_data (ctl c)) + read_amount)%nat
        then (Panic, c)
        else
          let c := with_ctl (with_rd c r) (set_control_data (ctl c) (control_data (ctl c) ++ data)) in
          let c := advance c read_amount in
          let left := read_frame_length r - Z.of_nat read_amount in
          let c := with_rd c (set_length r left) in
          if left =? 0 then
            let c := with_rd c (set_state (set_mask_offset (rd c) 0) Init) in
            match finish_control_frame c with
            | (Ok _, c) => (Ok [], c)
            | (Err e, c) => (Err e, c)
            | (Panic, c) => (Panic, c)
            end
          else (Ok [], c)
    | Err e => (Err e, c)
    | Panic => (Panic, c)
    end.

Definition step_read_data_content (c : Core) (available_space : nat) : stepped :=
  if (available_space =? 0)%nat then (Ok [], c)
  else
    let read_amount :=
      Nat.min (Z.to_nat (Z.min (Z.of_nat (unprocessed_len c)) (read_frame_length (rd c))))
        available_space in
    if (read_amount =? 0)%nat then (Ok [], c)
    else
      match content c read_amount with
      | Ok data =>
          let text := reading_text_message (rd c) in
          let completes_message :=
            read_frame_final (rd c) && (read_frame_length (rd c) =? Z.of_nat read_amount) in
          let '(data, r) := unmask (rd c) data in
          match (if text then validate_utf8_chunk (text_utf8_pending r) data completes_message
                 else Ok (text_utf8_pending r)) with
          | Ok pending =>
              let r := set_utf8 r pending in
              let delivered := if close_sent (ctl c) then [] else data in
              let c := advance (with_rd c r) read_amount in
              let left := read_frame_length r - Z.of_nat read_amount in
              let c := with_rd c (set_length r left) in
              if left =? 0 then
                let c := with_rd c (set_mask_offset (rd c) 0) in
                match finish_data_frame c with
                | (Ok _, c) => (Ok delivered, with_rd c (set_state (rd c) Init))
                | (Err e, c) => (Err e, c)
                | (Panic, c) => (Panic, c)
                end
              else (Ok delivered, c)
          | _ => (Err invalid_utf8_error, with_rd c (set_close_code r 1007))
          end
      | Err e => (Err e, c)
      | Panic => (Panic, c)
      end.

(** [next] is [step_init], which an empty data frame calls again. *)
Definition step_check_content (next : Core → stepped) (c : Core) (available_space : nat) : stepped :=
  match read_frame_opcode (rd c) with
  | Text | Binary | Continue =>
      if read_frame_length (rd c) =? 0 then
        match finish_data_frame c with
        | (Ok _, c) => next (with_rd c (set_state (rd c) Init))
        | (Err e, c) => (Err e, c)
        | (Panic, c) => (Panic, c)
        end
      else step_read_data_content (with_rd c (set_state (rd c) ReadDataContent)) available_space
  | Ping | Pong | Close =>
      let c := with_ctl c (set_control_data (ctl c) []) in
      if read_frame_length (rd c) =? 0 then
        match finish_control_frame c with
        | (Ok _, c) => (Ok [], with_rd c (set_state (rd c) Init))
        | (Err e, c) => (Err e, c)
        | (Panic, c) => (Panic, c)
        end
      else step_read_control_content (with_rd c (set_state (rd c) ReadControlContent))
  | Unknown _ => (Panic, c)
  end.

Definition step_read_mask (next : Core → stepped) (c : Core) (available_space : nat) : stepped :=
  if (unprocessed_len c <? 4)%nat then (Ok [], c)
  else
    match content c 4 with
    | Ok mask =>
        let c := with_rd c (set_mask (rd c) mask) in
        step_check_content next (advance c 4) available_space
    | Err e => (Err e, c)
    | Panic => (Panic, c)
    end.

(** The end of the header: the mask, or the content at once. *)
Definition after_length (next : Core → stepped) (c : Core) (available_space : nat) : stepped :=
  if read_frame_masked (rd c)
  then step_read_mask next (with_rd c (set_state (rd c) ReadMask)) available_space
  else step_check_content next c available_space.

Definition step_read_length (next : Core → stepped) (c : Core) (available_space : nat)
    (length_bytes_len : nat) : stepped :=
  if (unprocessed_len c <? length_bytes_len)%nat then (Ok [], c)
  else
    match content c length_bytes_len with
    | Ok length_bytes =>
        let len := be_decode length_bytes in
        let c := advance c length_bytes_len in
        let c := with_rd c (set_length (rd c) len) in
        if (length_bytes_len =? 2)%nat && (len <? 126)
        then fail c "non-canonical 16-bit websocket frame length"
        else if (length_bytes_len =? 8)%nat && (len <? 65536)
        then fail c "non-canonical 64-bit websocket frame length"
        else if 2 ^ 63 - 1 <? len then fail c "invalid frame length"
        else after_length next c available_space
    | Err e => (Err e, c)
    | Panic => (Panic, c)
    end.

(** The checks of the opcode against the frame and the open message. *)
Definition check_opcode (r : Reader) : outcome Reader :=
  match read_frame_opcode r with
  | Unknown _ => err InvalidData "unknown or reserved websocket opcode"
  | Close | Ping | Pong =>
      if read_frame_final r then Ok r
      else err InvalidData "control frame must not be fragmented"
  | Continue =>
      match fragmented_message r with
      | None => err InvalidData "continuation frame without an open fragmented message"
      | Some _ => Ok r
      end
  | Text | Binary =>
      match fragmented_message r with
      | Some _ => err InvalidData "new data frame while a fragmented message is open"
      | None => Ok (if read_frame_final r then r else set_fragmented r (Some (read_frame_opcode r)))
      end
  end.

Definition is_control (o : OpCode) : bool :=
  match o with Close | Ping | Pong => true | _ => false end.

(** The header's two bytes; the reader when they are refused is the one the
    error leaves. *)
Definition start_frame (r : Reader) (first second : Z) : (io_error * Reader) + (Z * Reader) :=
  let r := mkReader (read_state r) (negb (Z.land first 128 =? 0)) (read_frame_masked r)
    (read_frame_opcode r) (read_frame_length r) (read_frame_mask r) (read_frame_mask_offset r)
    (fragmented_message r) (text_utf8_pending r) (error_close_code r) in
  if negb (Z.land first 112 =? 0)
  then inl (IoError InvalidData "frame uses reserved bits without a negotiated extension", r)
  else
    let r := mkReader (read_state r) (read_frame_final r) (negb (Z.land second 128 =? 0))
      (read_frame_opcode r) (read_frame_length r) (read_frame_mask r) (read_frame_mask_offset r)
      (fragmented_message r) (text_utf8_pending r) (error_close_code r) in
    if eqb is_client (read_frame_masked r)
    then inl (IoError InvalidData (if is_client then "server frame was masked"
                                   else "client frame was not masked"), r)
    else
      let r := mkReader (read_state r) (read_frame_final r) (read_frame_masked r)
        (OpCode_from (Z.land first 15)) (read_frame_length r) (read_frame_mask r) 0
        (fragmented_message r) (text_utf8_pending r) (error_close_code r) in
      match check_opcode r with
      | Ok r =>
          let length := Z.land second 127 in
          if is_control (read_frame_opcode r) && (125 <? length)
          then inl (IoError InvalidData "control frame payload exceeds 125 bytes", r)
          else inr (length, r)
      | Err e => inl (e, r)
      | Panic => inl (IoError Other "", r)
      end.

(** Without fuel the result is a panic; a call for every two bytes of input is
    enough, since each takes at least these. *)
Fixpoint step_init (fuel : nat) (available_space : nat) (c : Core) : stepped :=
  match fuel with
  | O => (Panic, c)
  | S fuel =>
      if (unprocessed_len c <? 2)%nat then (Ok [], c)
      else
        match content c 2 with
        | Ok [first; second] =>
            let c := advance c 2 in
            match start_frame (rd c) first second with
            | inl (e, r) => (Err e, with_rd c r)
            | inr (length, r) =>
                let next := step_init fuel available_space in
                if length =? 126 then
                  step_read_length next (with_rd c (set_state r (ReadLength 2))) available_space 2
                else if length =? 127 then
                  step_read_length next (with_rd c (set_state r (ReadLength 8))) available_space 8
                else after_length next (with_rd c (set_length r length)) available_space
            end
        | Ok _ | Panic => (Panic, c)
        | Err e => (Err e, c)
        end
  end.

(** The dispatch on the state in [poll_read]. *)
Definition step (c : Core) (available_space : nat) : stepped :=
  let next := step_init (S (unprocessed_len c)) available_space in
  match read_state (rd c) with
  | Init => next c
  | ReadLength n => step_read_length next c available_space n
  | ReadMask => step_read_mask next c available_space
  | ReadDataContent => step_read_data_content c available_space
  | ReadControlContent => step_read_control_content c
  end.

End steps.

(** ** The stream *)
Section stream.
Context (little : bool) (junk : nat → Z) (random_mask : nat → bytes).
Context {S : Type} `{AsyncStream S}.

(** [masks] counts the masks drawn from the random generator. *)
Record WebsocketStream := mkWs {
  stream : S;
  is_client : bool;
  ping_type : WebsocketPingType;
  pending_initial_data : bool;
  core : Core;
  write_frame : bytes;
  write_frame_start_offset : nat;
  masks : nat }.

Definition with_core (w : WebsocketStream) (c : Core) : WebsocketStream :=
  mkWs (stream w) (is_client w) (ping_type w) (pending_initial_data w) c (write_frame w)
    (write_frame_start_offset w) (masks w).
Definition with_stream (w : WebsocketStream) (s : S) : WebsocketStream :=
  mkWs s (is_client w) (ping_type w) (pending_initial_data w) (core w) (write_frame w)
    (write_frame_start_offset w) (masks w).
Definition with_write (w : WebsocketStream) (s : S) (frame : bytes) (start : nat) : WebsocketStream :=
  mkWs s (is_client w) (ping_type w) (pending_initial_data w) (core w) frame start (masks w).
Definition with_control (w : WebsocketStream) (x : Control) : WebsocketStream :=
  with_core w (with_ctl (core w) x).

(** The debug assertion on the size of [unprocessed_data] is a panic here of
    the copy that follows it. *)
Definition ws_new (stream : S) (is_client : bool) (ping_type : WebsocketPingType)
    (unprocessed_data : bytes) : outcome WebsocketStream :=
  let buf := lazy_new READ_BUFFER_SIZE in
  u ← (if negb (length unprocessed_data =? 0)%nat
       then
         let buf := ensure junk buf in
         if (length (lazy_buf buf) <? length unprocessed_data)%nat then Panic
         else Ok (mkUnprocessed
                    (mkLazy (unprocessed_data ++ drop (length unprocessed_data) (lazy_buf buf))
                       (lazy_size buf)) 0 (length unprocessed_data))
       else Ok (mkUnprocessed buf 0 0));
  Ok (mkWs stream is_client ping_type (negb (length unprocessed_data =? 0)%nat)
        (mkCore (mkReader Init true false (Unknown 99) 0 [0; 0; 0; 0] 0 None [] 1002) u
           (mkControl [] None false false false None false)) [] 0 0).

(** ** Writing *)
Definition write_frame_space (w : WebsocketStream) : nat :=
  MAX_PENDING_WRITE_BYTES - length (write_frame w).

(** [pack_frame(opcode, self.is_client, input, &mut self.write_frame)] *)
Definition append_frame (w : WebsocketStream) (opcode : Z) (input : bytes) : WebsocketStream :=
  let mask := if is_client w then Some (random_mask (masks w)) else None in
  mkWs (stream w) (is_client w) (ping_type w) (pending_initial_data w) (core w)
    (write_frame w ++ pack_frame little opcode mask input) (write_frame_start_offset w)
    (if is_client w then Datatypes.S (masks w) else masks w).

Definition pack_write_ping_frame (w : WebsocketStream) : bool * WebsocketStream :=
  if (write_frame_space w <? 6)%nat then (false, w) else (true, append_frame w 9 []).

Definition pack_write_empty_frame (w : WebsocketStream) : bool * WebsocketStream :=
  if (write_frame_space w <? 6)%nat then (false, w) else (true, append_frame w 2 []).

(** [None] is a panic: only close and pong frames may be pending. *)
Definition pack_pending_control_frame (w : WebsocketStream) : option (bool * WebsocketStream) :=
  let x := ctl (core w) in
  match pending_control x with
  | None => Some (true, w)
  | Some opcode =>
      if (write_frame_space w <? length (control_data x) + MAX_FRAME_HEADER_SIZE)%nat
      then Some (false, w)
      else
        match opcode with
        | Close | Pong =>
            let w := append_frame w (match opcode with Close => 8 | _ => 10 end) (control_data x) in
            Some (true, with_control w
              (mkControl (control_data x) None (control_flush_pending x) (close_received x)
                 (bool_decide (opcode = Close) || close_sent x) (terminal_error x) (read_closed x)))
        | _ => None
        end
  end.

Definition pack_write_frame (w : WebsocketStream) (input : bytes) : nat * WebsocketStream :=
  let available_space := write_frame_space w in
  if (available_space <? 40)%nat then (0%nat, w)
  else
    let pack_amount := Nat.min (length input) (available_space - MAX_FRAME_HEADER_SIZE) in
    (pack_amount, append_frame w 2 (take pack_amount input)).

(** Without fuel, or when the transport takes more than it is given, a panic; a
    round per byte is enough. *)
Fixpoint write_rounds (fuel : nat) (w : WebsocketStream) : outcome unit * WebsocketStream :=
  match fuel with
  | O => (Panic, w)
  | Datatypes.S fuel =>
      if (length (write_frame w) <? write_frame_start_offset w)%nat then (Panic, w)
      else
        let remaining_data := drop (write_frame_start_offset w) (write_frame w) in
        if (length remaining_data =? 0)%nat then (Ok tt, w)
        else
          match poll_write (stream w) remaining_data with
          | (Ready (inr written), s) =>
              if (written =? 0)%nat then (err UnexpectedEof "write frame eof", with_stream w s)
              else
                let start := (write_frame_start_offset w + written)%nat in
                if (start =? length (write_frame w))%nat then (Ok tt, with_write w s [] 0)
                else write_rounds fuel (with_write w s (write_frame w) start)
          | (Ready (inl e), s) => (Err e, with_stream w s)
          | (Pending, s) => (Ok tt, with_stream w s)
          end
  end.
Definition do_write_frame (w : WebsocketStream) : outcome unit * WebsocketStream :=
  write_rounds (Datatypes.S (length (write_frame w))) w.

Definition poll_result : Type := Poll (outcome unit) * WebsocketStream.

(** The end of [poll_flush_pending_control]. *)
Definition flush_control (w : WebsocketStream) : poll_result :=
  match poll_flush (stream w) with
  | (Ready (inr _), s) =>
      let w := with_stream w s in
      (Ready (Ok tt), with_control w (set_flush_pending (ctl (core w)) false))
  | (Ready (inl e), s) => (Ready (Err e), with_stream w s)
  | (Pending, s) => (Pending, with_stream w s)
  end.

(** The loop packs at the latest in its second round, when the pending frames
    have been written; without fuel a panic. *)
Fixpoint flush_rounds (fuel : nat) (w : WebsocketStream) : poll_result :=
  match fuel with
  | O => (Ready Panic, w)
  | Datatypes.S fuel =>
      match pack_pending_control_frame w with
      | None => (Ready Panic, w)
      | Some (packed, w) =>
          if negb packed then
            match do_write_frame w with
            | (Ok _, w) =>
                if negb (length (write_frame w) =? 0)%nat then (Pending, w)
                else flush_rounds fuel w
            | (Err e, w) => (Ready (Err e), w)
            | (Panic, w) => (Ready Panic, w)
            end
          else if negb (length (write_frame w) =? 0)%nat then
            match do_write_frame w with
            | (Ok _, w) =>
                if negb (length (write_frame w) =? 0)%nat then (Pending, w) else flush_control w
            | (Err e, w) => (Ready (Err e), w)
            | (Panic, w) => (Ready Panic, w)
            end
          else flush_control w
      end
  end.
Definition poll_flush_pending_control (w : WebsocketStream) : poll_result := flush_rounds 3 w.

(** ** Reading *)

(** [assert!], then [copy_within] to the front. *)
Definition reset_unprocessed_buf_offset (u : Unprocessed) : outcome Unprocessed :=
  let start := unprocessed_start_offset u in
  let end_ := unprocessed_end_offset u in
  if (0 <? start)%nat && (start <? end_)%nat then
    data ← slice (lazy_buf (unprocessed_buf u)) start end_;
    Ok (mkUnprocessed
          (mkLazy (data ++ drop (length data) (lazy_buf (unprocessed_buf u)))
             (lazy_size (unprocessed_buf u))) 0 (end_ - start))
  else Panic.

Definition has_gap (u : Unprocessed) : bool :=
  (0 <? unprocessed_start_offset u)%nat && (unprocessed_start_offset u <? unprocessed_end_offset u)%nat.

(** The compaction at the top of the loop and the one before a read. *)
Definition compact_half (u : Unprocessed) : outcome Unprocessed :=
  if has_gap u && (length (lazy_buf (unprocessed_buf u)) <? unprocessed_start_offset u * 2)%nat
  then reset_unprocessed_buf_offset u else Ok u.
Definition compact_all (u : Unprocessed) : outcome Unprocessed :=
  if has_gap u then reset_unprocessed_buf_offset u else Ok u.

(** Queue a close frame with a status code and the error that ends the stream. *)
Definition queue_error (x : Control) (code : Z) (message : string) : Control :=
  set_terminal (queue_control (set_control_data x (be_encode 2 code)) Close) (Some message).

(** [terminal_error.take()], which closes the reading side. *)
Definition fail_terminal (w : WebsocketStream) (message : string) : Poll (outcome bytes) * WebsocketStream :=
  (Ready (err InvalidData message),
   with_control w (set_read_closed (set_terminal (ctl (core w)) None))).
Definition end_of_stream (w : WebsocketStream) : Poll (outcome bytes) * WebsocketStream :=
  (Ready (Ok []), with_control w (set_read_closed (ctl (core w)))).

(** [ready!(self.poll_flush_pending_control(cx))?], then [k]. *)
Definition flushed {A} (w : WebsocketStream) (k : WebsocketStream → Poll (outcome A) * WebsocketStream)
    : Poll (outcome A) * WebsocketStream :=
  match poll_flush_pending_control w with
  | (Ready (Ok _), w) => k w
  | (Ready (Err e), w) => (Ready (Err e), w)
  | (Ready Panic, w) => (Ready Panic, w)
  | (Pending, w) => (Pending, w)
  end.

(** What a round of the loop of [poll_read] does with what a step left: return,
    or go on. *)
Definition check_close (w : WebsocketStream) (delivered : bytes)
    : (Poll (outcome bytes) * WebsocketStream) + WebsocketStream :=
  if close_received (ctl (core w)) then inl (end_of_stream w)
  else if (0 <? length delivered)%nat then inl (Ready (Ok delivered), w)
  else inr w.

Definition after_step (w : WebsocketStream) (delivered : bytes)
    : (Poll (outcome bytes) * WebsocketStream) + WebsocketStream :=
  if control_flush_pending (ctl (core w)) then
    match poll_flush_pending_control w with
    | (Ready (Ok _), w) =>
        match terminal_error (ctl (core w)) with
        | Some message => inl (fail_terminal w message)
        | None => check_close w delivered
        end
    | (Ready (Err e), w) => inl (Ready (Err e), w)
    | (Ready Panic, w) => inl (Ready Panic, w)
    | (Pending, w) => inl (Pending, w)
    end
  else check_close w delivered.

(** The progress test of the loop. *)
Definition progressed (before after : Core) : bool :=
  negb (bool_decide (read_state (rd after) = read_state (rd before))) ||
  negb (unprocessed_start_offset (un after) =? unprocessed_start_offset (un before))%nat ||
  negb (unprocessed_end_offset (un after) =? unprocessed_end_offset (un before))%nat ||
  negb (read_frame_length (rd after) =? read_frame_length (rd before)).

(** The part of a round that polls the transport: a result, or the state of the
    next round. *)
Definition read_transport (w : WebsocketStream)
    : (Poll (outcome bytes) * WebsocketStream) + WebsocketStream :=
  match compact_all (un (core w)) with
  | Ok u =>
      let u := mkUnprocessed (ensure junk (unprocessed_buf u)) (unprocessed_start_offset u)
                 (unprocessed_end_offset u) in
      let w := with_core w (with_un (core w) u) in
      let buf := lazy_buf (unprocessed_buf u) in
      let end_ := unprocessed_end_offset u in
      if (end_ =? length buf)%nat
      then inr (with_control w (queue_error (ctl (core w)) 1002
                  "websocket frame header exceeds the bounded read buffer"))
      else
        match slice buf end_ (length buf) with
        | Ok room =>
            match poll_read (stream w) (length room) with
            | (Ready (inl e), s) => inl (Ready (Err e), with_stream w s)
            | (Ready (inr bs), s) =>
                let w := with_stream w s in
                if (length bs =? 0)%nat then
                  let u := mkUnprocessed (release (unprocessed_buf u)) (unprocessed_start_offset u)
                             (unprocessed_end_offset u) in
                  inl (end_of_stream (with_core w (with_un (core w) u)))
                else
                  let buf := take end_ buf ++ bs ++ drop (end_ + length bs) buf in
                  inr (with_core w (with_un (core w)
                    (mkUnprocessed (mkLazy buf (lazy_size (unprocessed_buf u)))
                       (unprocessed_start_offset u) (end_ + length bs))))
            | (Pending, s) =>
                let w := with_stream w s in
                let u := if (end_ =? 0)%nat
                         then mkUnprocessed (release (unprocessed_buf u)) (unprocessed_start_offset u) end_
                         else u in
                inl (Pending, with_core w (with_un (core w) u))
            end
        | _ => inl (Ready Panic, w)
        end
  | _ => inl (Ready Panic, w)
  end.

(** A round of the loop of [poll_read]. *)
Definition read_round (w : WebsocketStream) (available_space : nat)
    : (Poll (outcome bytes) * WebsocketStream) + WebsocketStream :=
  match compact_half (un (core w)) with
  | Ok u =>
      let c := with_un (core w) u in
      let w := mkWs (stream w) (is_client w) (ping_type w) false c (write_frame w)
                 (write_frame_start_offset w) (masks w) in
      if (unprocessed_start_offset u <? unprocessed_end_offset u)%nat then
        match step little (is_client w) c available_space with
        | (Ok delivered, c') =>
            match after_step (with_core w c') delivered with
            | inl r => inl r
            | inr w => if progressed c (core w) then inr w else read_transport w
            end
        | (Err e, c') =>
            let w := with_core w (with_ctl c'
                       (queue_error (ctl c') (error_close_code (rd c')) (emsg e))) in
            inl (flushed w (λ w, fail_terminal w (emsg e)))
        | (Panic, c') => inl (Ready Panic, with_core w c')
        end
      else read_transport w
  | _ => inl (Ready Panic, w)
  end.

Fixpoint read_rounds (fuel : nat) (w : WebsocketStream) (available_space : nat)
    : option (Poll (outcome bytes) * WebsocketStream) :=
  match fuel with
  | O => None
  | Datatypes.S fuel =>
      match read_round w available_space with
      | inl r => Some r
      | inr w => read_rounds fuel w available_space
      end
  end.

(** The checks before the loop. *)
Definition ws_poll_read (fuel : nat) (w : WebsocketStream) (available_space : nat)
    : option (Poll (outcome bytes) * WebsocketStream) :=
  let start (w : WebsocketStream) :=
    match terminal_error (ctl (core w)) with
    | Some message => Some (fail_terminal w message)
    | None =>
        if close_received (ctl (core w)) then Some (end_of_stream w)
        else read_rounds fuel w available_space
    end in
  if (available_space =? 0)%nat then Some (Ready (Ok []), w)
  else if read_closed (ctl (core w)) then Some (Ready (Ok []), w)
  else if control_flush_pending (ctl (core w)) then
    match poll_flush_pending_control w with
    | (Ready (Ok _), w) => start w
    | (Ready (Err e), w) => Some (Ready (Err e), w)
    | (Ready Panic, w) => Some (Ready Panic, w)
    | (Pending, w) => Some (Pending, w)
    end
  else start w.

(** ** [AsyncWrite] and [AsyncPing] *)

(** The loop of [poll_write]: the bytes packed so far; a round per byte and one
    to make room are enough, without fuel a panic. *)
Fixpoint pack_rounds (fuel : nat) (w : WebsocketStream) (buf : bytes) (written : nat)
    : outcome nat * WebsocketStream :=
  match fuel with
  | O => (Panic, w)
  | Datatypes.S fuel =>
      let input := drop written buf in
      if (length input =? 0)%nat then (Ok written, w)
      else
        let '(packed, w) := pack_write_frame w input in
        match do_write_frame w with
        | (Ok _, w) =>
            if negb (length (write_frame w) =? 0)%nat then (Ok (written + packed)%nat, w)
            else pack_rounds fuel w buf (written + packed)
        | (Err e, w) => (Err e, w)
        | (Panic, w) => (Panic, w)
        end
  end.

Definition ws_poll_write (w : WebsocketStream) (buf : bytes) : Poll (outcome nat) * WebsocketStream :=
  let pack (w : WebsocketStream) :=
    match pack_rounds (Datatypes.S (Datatypes.S (length buf))) w buf 0 with
    | (Ok written, w) => (if (0 <? written)%nat then Ready (Ok written) else Pending, w)
    | (Err e, w) => (Ready (Err e), w)
    | (Panic, w) => (Ready Panic, w)
    end in
  if (length buf =? 0)%nat then (Ready (Ok 0%nat), w)
  else if close_received (ctl (core w)) || close_sent (ctl (core w))
  then (Ready (err BrokenPipe "websocket closing handshake has started"), w)
  else if control_flush_pending (ctl (core w)) then flushed w pack
  else pack w.

(** The loop of [poll_flush] ends after a round: a write either leaves frames,
    which parks, or none. *)
Definition ws_poll_flush (w : WebsocketStream) : Poll (outcome unit) * WebsocketStream :=
  let transport (w : WebsocketStream) :=
    match poll_flush (stream w) with
    | (Ready (inr _), s) => (Ready (Ok tt), with_stream w s)
    | (Ready (inl e), s) => (Ready (Err e), with_stream w s)
    | (Pending, s) => (Pending, with_stream w s)
    end in
  let frames (w : WebsocketStream) :=
    if (length (write_frame w) =? 0)%nat then transport w
    else
      match do_write_frame w with
      | (Ok _, w) =>
          if negb (length (write_frame w) =? 0)%nat then (Pending, w) else transport w
      | (Err e, w) => (Ready (Err e), w)
      | (Panic, w) => (Ready Panic, w)
      end in
  if control_flush_pending (ctl (core w)) then flushed w frames else frames w.

(** The end of [poll_shutdown]: the transport is shut down. *)
Definition close_transport (w : WebsocketStream) : Poll (outcome unit) * WebsocketStream :=
  match poll_shutdown (stream w) with
  | (Ready (inr _), s) => (Ready (Ok tt), with_stream w s)
  | (Ready (inl e), s) => (Ready (Err e), with_stream w s)
  | (Pending, s) => (Pending, with_stream w s)
  end.

(** The wait for the peer's close frame; what is read is discarded. *)
Definition drain (fuel : nat) (w : WebsocketStream) : option (Poll (outcome unit) * WebsocketStream) :=
  if negb (close_received (ctl (core w))) && negb (read_closed (ctl (core w))) then
    match ws_poll_read fuel w (N.to_nat 1024) with
    | None => None
    | Some (Ready (Ok _), w) =>
        Some (if negb (close_received (ctl (core w))) && negb (read_closed (ctl (core w)))
              then (Pending, w) else close_transport w)
    | Some (Ready (Err e), w) => Some (Ready (Err e), w)
    | Some (Ready Panic, w) => Some (Ready Panic, w)
    | Some (Pending, w) => Some (Pending, w)
    end
  else Some (close_transport w).

Definition ws_poll_shutdown (fuel : nat) (w : WebsocketStream)
    : option (Poll (outcome unit) * WebsocketStream) :=
  let x := ctl (core w) in
  let w :=
    if negb (close_sent x) && negb (close_received x) && bool_decide (pending_control x = None)
    then with_control w (queue_control (set_control_data x []) Close) else w in
  if control_flush_pending (ctl (core w)) then
    match poll_flush_pending_control w with
    | (Ready (Ok _), w) => drain fuel w
    | r => Some r
    end
  else drain fuel w.

Definition ws_supports_ping (w : WebsocketStream) : bool :=
  match ping_type w with Disabled => false | _ => true end.

Definition ws_poll_write_ping (w : WebsocketStream) : Poll (outcome bool) * WebsocketStream :=
  let x := ctl (core w) in
  if close_received x || close_sent x then (Ready (Ok false), w)
  else if control_flush_pending x then flushed w (λ w, (Ready (Ok true), w))
  else if negb (length (write_frame w) =? 0)%nat then (Ready (Ok false), w)
  else
    match ping_type w with
    | PingFrame =>
        let '(written, w) := pack_write_ping_frame w in
        (if written then Ready (Ok true) else Ready Panic, w)
    | EmptyFrame =>
        let '(written, w) := pack_write_empty_frame w in
        (if written then Ready (Ok true) else Ready Panic, w)
    | Disabled =>
        (Ready (err Other "websocket ping disabled; poll_flush_write should not be reached"), w)
    end.

End stream.

(** ** The mask is applied byte by byte *)

(** The reference: byte [i] of the payload is combined with byte [i mod 4] of
    the mask. *)
Definition mask_bytes (data mask : bytes) (offset : nat) : bytes :=
  imap (λ i b, Z.lxor b (nth ((offset + i) mod 4) mask 0)) data.

Lemma mod_cycle (i : nat) : ((8 + i) mod 4 = i mod 4)%nat.
Proof. change (8 + i)%nat with (2 * 4 + i)%nat. rewrite Nat.add_comm. apply Nat.Div0.mod_add. Qed.

Lemma rotate_mask_nth mask offset i :
  nth (i mod 4) (rotate_mask mask offset) 0 = nth ((offset + i) mod 4) mask 0.
Proof.
  rewrite <- (Nat.Div0.add_mod_idemp_r offset i 4).
  pose proof (Nat.mod_upper_bound i 4).
  destruct (i mod 4)%nat as [|[|[|[|]]]]; try lia; done.
Qed.

Lemma bytes_ok_rotate mask offset : bytes_ok mask → bytes_ok (rotate_mask mask offset).
Proof.
  intros Hm. assert (Hn : ∀ i, is_byte (nth i mask 0)).
  { intros i. rewrite nth_lookup. destruct (mask !! i) eqn:E; [|by split].
    by eapply Forall_lookup_1. }
  repeat apply Forall_cons_2; auto.
Qed.

Lemma mask_word little rotated data :
  bytes_ok rotated → length rotated = 4%nat → bytes_ok data → length data = 8%nat →
  let half := from_ne_bytes little rotated in
  to_ne_bytes little 8
    (Z.lxor (from_ne_bytes little data) (Z.lor half (Z.shiftl half 32))) =
  imap (λ i b, Z.lxor b (nth (i mod 4) rotated 0)) data.
Proof.
  intros Hr Hr4 Hd Hd8 half.
  assert (Hhalf : 0 ≤ half < 2 ^ 32).
  { unfold half, from_ne_bytes. change (2 ^ 32) with (256 ^ Z.of_nat 4). rewrite <- Hr4.
    destruct little; [by apply le_decode_bound | by apply be_decode_bound]. }
  assert (Hword : Z.lor half (Z.shiftl half 32) = half * 2 ^ 32 + half).
  { rewrite Z.shiftl_mul_pow2 by lia. rewrite Z.add_comm, <- Z.add_lor_land.
    assert (Z.land half (half * 2 ^ 32) = 0) as ->; [|lia].
    apply Z.bits_inj_0. intros n. rewrite Z.land_spec.
    destruct (decide (n < 32)).
    - rewrite Z.mul_pow2_bits_low, andb_false_r by lia. done.
    - rewrite (Z.bits_above_log2 half), andb_false_l; [done | lia|].
      destruct (decide (half = 0)) as [->|]; [simpl; lia|].
      assert (Z.log2 half < 32) by (apply Z.log2_lt_pow2; lia). lia. }
  rewrite Hword.
  assert (Hdw : from_ne_bytes little (rotated ++ rotated) = half * 2 ^ 32 + half).
  { unfold half, from_ne_bytes, le_decode. destruct little.
    - rewrite reverse_app, be_decode_app, length_reverse, Hr4. done.
    - rewrite be_decode_app, Hr4. done. }
  rewrite <- Hdw.
  assert (H8 : to_ne_bytes little 8 (Z.lxor (from_ne_bytes little data)
    (from_ne_bytes little (rotated ++ rotated))) = zip_with Z.lxor data (rotated ++ rotated)).
  { assert (Hrr : length (rotated ++ rotated) = 8%nat) by (rewrite length_app; lia).
    assert (bytes_ok (rotated ++ rotated)) by by apply bytes_ok_app.
    unfold to_ne_bytes, from_ne_bytes. destruct little.
    - rewrite le_encode_lxor. rewrite <- Hd8 at 1. rewrite <- Hrr. by rewrite !le_encode_decode.
    - rewrite be_encode_lxor. rewrite <- Hd8 at 1. rewrite <- Hrr. by rewrite !be_encode_decode. }
  rewrite H8.
  destruct rotated as [|r0 [|r1 [|r2 [|r3 [|]]]]]; try done.
  destruct data as [|d0 [|d1 [|d2 [|d3 [|d4 [|d5 [|d6 [|d7 [|]]]]]]]]]; try done.
Qed.

Lemma mask_chunks_bytes little fuel rotated data :
  bytes_ok rotated → length rotated = 4%nat → bytes_ok data → (length data < fuel)%nat →
  let half := from_ne_bytes little rotated in
  mask_chunks little fuel rotated (Z.lor half (Z.shiftl half 32)) data =
  imap (λ i b, Z.lxor b (nth (i mod 4) rotated 0)) data.
Proof.
  intros Hr Hr4. revert data. induction fuel as [|fuel IH]; intros data Hd Hf half; [lia|].
  cbn [mask_chunks]. destruct (8 <=? length data)%nat eqn:E; to_prop; [|done].
  rewrite IH by (try (by apply bytes_ok_drop); rewrite ?length_drop; lia).
  unfold half. rewrite mask_word; [|done|done|by apply bytes_ok_take|rewrite length_take; lia].
  rewrite <- (take_drop 8 data) at 3. rewrite imap_app. f_equal.
  rewrite length_take, Nat.min_l by lia. apply imap_ext. intros i b _.
  change (Z.lxor b (nth (i mod 4) rotated 0) = Z.lxor b (nth ((8 + i) mod 4) rotated 0)).
  by rewrite mod_cycle.
Qed.

(** Taking the mask a machine word at a time, at any offset into the payload and
    on machines of either byte order, is the byte-wise definition. *)
Lemma apply_mask_is_bytewise little data mask offset :
  bytes_ok data → bytes_ok mask → length mask = 4%nat →
  apply_mask little data mask offset = mask_bytes data mask offset.
Proof.
  intros Hd Hm Hm4. unfold apply_mask. rewrite mask_chunks_bytes; [|by apply bytes_ok_rotate|done|done|lia].
  apply imap_ext. intros i b _. by rewrite rotate_mask_nth.
Qed.

(** ** Text messages are checked as a whole *)
Lemma utf8_valid_cons a s :
  utf8_valid (a :: s) =
    match utf8_next (a :: s) with inl n => utf8_valid (drop n (a :: s)) | inr _ => false end.
Proof.
  unfold utf8_valid at 1. cbn [length utf8_valid_aux].
  destruct (utf8_next (a :: s)) as [n|] eqn:E; [|done].
  destruct (utf8_next_app _ [] _ E) as [_ Hn]. apply utf8_valid_fuel. rewrite length_drop. simpl in *. lia.
Qed.

Lemma utf8_valid_prefix v t : utf8_valid v = true → utf8_valid (v ++ t) = utf8_valid t.
Proof.
  remember (length v) as k eqn:Hk. revert v Hk.
  induction k as [k IH] using (well_founded_induction lt_wf). intros [|a v] Hk Hv; [done|].
  rewrite utf8_valid_cons in Hv. destruct (utf8_next (a :: v)) as [n|] eqn:E; [|done].
  destruct (utf8_next_app _ t _ E) as [E' Hn].
  change ((a :: v) ++ t) with (a :: (v ++ t)) in *. rewrite utf8_valid_cons, E'.
  change (a :: v ++ t) with ((a :: v) ++ t). rewrite drop_app_le by lia.
  apply (IH (length (drop n (a :: v)))); [rewrite length_drop; lia | done | done].
Qed.

Lemma utf8_next_prefix s t n : utf8_next (s ++ t) = inl n → (n ≤ length s)%nat → utf8_next s = inl n.
Proof.
  destruct s as [|a [|b [|c [|d s]]]]; simpl app; simpl length; intros Hn Hl.
  - destruct t as [|x t]; [done|]. destruct (utf8_next_app _ [] _ Hn). lia.
  - unfold utf8_next in *. repeat (split_match; try done); simplify_eq; lia.
  - unfold utf8_next in *. repeat (split_match; try done); simplify_eq; lia.
  - unfold utf8_next in *. repeat (split_match; try done); simplify_eq; lia.
  - unfold utf8_next in *. repeat (split_match; try done); simplify_eq; lia.
Qed.

Lemma utf8_next_width a s w n :
  utf8_sequence_width a = Some w → utf8_next (a :: s) = inl n → n = w.
Proof.
  unfold utf8_sequence_width, utf8_next. intros Hw Hn.
  repeat (split_match; try done); simplify_eq; to_prop; lia.
Qed.

Lemma utf8_next_bad s t :
  s ≠ [] → (∃ k, utf8_next s = inr k) → utf8_incomplete s = false → ∃ k, utf8_next (s ++ t) = inr k.
Proof.
  intros Hne [k Hk] Hi. destruct s as [|a [|b [|c [|d s]]]]; [done|..];
    unfold utf8_next, utf8_incomplete in *; simpl app in *;
    repeat (split_match; try done); simplify_eq; eauto; to_prop; try lia;
    repeat match goal with Hx : ok3 _ _ = _ |- _ => rewrite Hx in * | Hx : ok4 _ _ = _ |- _ => rewrite Hx in * end;
    to_prop; try lia; try done; try congruence.
Qed.

Lemma utf8_incomplete_width s :
  utf8_incomplete s = true →
  ∃ a s' w, s = a :: s' ∧ utf8_sequence_width a = Some w ∧ (length s < w)%nat ∧ (length s ≤ 3)%nat.
Proof.
  intros Hi.
  assert (Hw : ∀ a s' w, s = a :: s' → utf8_sequence_width a = Some w → (length s < w)%nat →
    (length s ≤ 3)%nat → ∃ a s' w, s = a :: s' ∧ utf8_sequence_width a = Some w ∧
    (length s < w)%nat ∧ (length s ≤ 3)%nat) by eauto 10.
  destruct s as [|a [|b [|c [|d s]]]]; try done; simpl in Hi; unfold utf8_sequence_width in Hw;
    repeat (apply orb_true_iff in Hi as [Hi|Hi]); repeat (apply andb_true_iff in Hi as [Hi ?]);
    to_prop;
    destruct ((194 <=? a) && (a <=? 223)) eqn:E2;
    destruct ((224 <=? a) && (a <=? 239)) eqn:E3;
    destruct ((240 <=? a) && (a <=? 244)) eqn:E4;
    (eapply Hw; [reflexivity | rewrite ?E2, ?E3, ?E4; reflexivity | simpl; lia | simpl; lia]) ||
    (exfalso; to_prop; lia).
Qed.

Lemma from_utf8_spec s :
  match from_utf8 s with
  | None => utf8_valid s = true
  | Some (n, invalid) =>
      utf8_valid (take n s) = true ∧ drop n s ≠ [] ∧ (∃ k, utf8_next (drop n s) = inr k) ∧
      invalid = negb (utf8_incomplete (drop n s))
  end.
Proof.
  unfold from_utf8. remember (length s) as fuel eqn:Hf.
  assert (Hl : (length s ≤ fuel)%nat) by lia. clear Hf. revert s Hl.
  induction fuel as [|fuel IH]; intros [|a s] Hl; try done; [simpl in Hl; lia|].
  cbn [from_utf8_aux]. destruct (utf8_next (a :: s)) as [n|k] eqn:E.
  2: { rewrite drop_0. split_and!; eauto. }
  destruct (utf8_next_app _ [] _ E) as [_ Hn]. specialize (IH (drop n (a :: s))).
  destruct (from_utf8_aux fuel (drop n (a :: s))) as [[m invalid]|]; simpl prod_map;
    [|rewrite utf8_valid_cons, E; apply IH; rewrite length_drop; simpl in *; lia].
  cbn [fmap option_fmap option_map prod_map fst snd id].
  destruct IH as (Hv & Hd & Hb & Hi); [rewrite length_drop; simpl in *; lia|].
  rewrite drop_drop in Hd, Hb, Hi. split_and!; try done.
  rewrite <- (take_drop n (take (n + m) (a :: s))), take_take, Nat.min_l by lia.
  assert (utf8_valid (take n (a :: s)) = true) as Hp.
  { destruct n as [|n]; [lia|]. cbn [take]. rewrite utf8_valid_cons.
    rewrite (utf8_next_prefix (a :: take n s) (drop n s) (S n)).
    - by rewrite drop_ge by (simpl; rewrite length_take; lia).
    - simpl app. by rewrite take_drop.
    - simpl. rewrite length_take. simpl in Hn. lia. }
  rewrite utf8_valid_prefix by done. rewrite <- take_drop_commute. done.
Qed.

Lemma from_utf8_valid s : from_utf8 s = None ↔ utf8_valid s = true.
Proof.
  pose proof (from_utf8_spec s) as Hs. destruct (from_utf8 s) as [[n i]|]; [|done].
  destruct Hs as (Hv & Hd & [k Hb] & _). split; [done|].
  rewrite <- (take_drop n s) at 1. rewrite utf8_valid_prefix by done.
  destruct (drop n s) as [|a s']; [done|]. by rewrite utf8_valid_cons, Hb.
Qed.

(** What is kept between chunks: nothing, or the start of a longer sequence. *)
Definition utf8_kept (p : bytes) : Prop :=
  match p with
  | [] => True
  | a :: _ => ∃ w, utf8_sequence_width a = Some w ∧ (length p < w)%nat
  end.

Lemma utf8_kept_invalid p : utf8_kept p → utf8_valid p = bool_decide (p = []).
Proof.
  destruct p as [|a p]; [done|]. intros (w & Hw & Hl). rewrite utf8_valid_cons.
  destruct (utf8_next (a :: p)) as [n|] eqn:E; [|done].
  destruct (utf8_next_app _ [] _ E) as [_ Hn].
  rewrite (utf8_next_width _ _ _ _ Hw E) in Hn. lia.
Qed.

Lemma validate_rest_spec chunk final :
  match validate_rest chunk final with
  | Ok p => utf8_kept p ∧ (∀ t, utf8_valid (chunk ++ t) = utf8_valid (p ++ t)) ∧ (final = true → p = [])
  | Err _ => if final then utf8_valid chunk = false else ∀ t, utf8_valid (chunk ++ t) = false
  | Panic => False
  end.
Proof.
  unfold validate_rest. pose proof (from_utf8_spec chunk) as Hs.
  destruct (from_utf8 chunk) as [[n invalid]|].
  2: { split_and!; try done. intros t. by apply utf8_valid_prefix. }
  destruct Hs as (Hv & Hd & Hb & Hi). destruct invalid.
  - assert (∀ t, utf8_valid (chunk ++ t) = false) as Hbad.
    { intros t. rewrite <- (take_drop n chunk), <- app_assoc, utf8_valid_prefix by done.
      destruct (utf8_next_bad (drop n chunk) t Hd Hb) as [k Hk]; [by apply negb_true_iff|].
      destruct (drop n chunk) as [|a s]; [done|]. simpl app in *. by rewrite utf8_valid_cons, Hk. }
    destruct final; [|done]. rewrite <- (app_nil_r chunk). apply Hbad.
  - symmetry in Hi. apply negb_false_iff in Hi.
    destruct (utf8_incomplete_width _ Hi) as (a & s' & w & Heq & Hw & Hl & Hl3).
    assert (Hchunk : ∀ t, utf8_valid (chunk ++ t) = utf8_valid (drop n chunk ++ t)).
    { intros t. rewrite <- (take_drop n chunk) at 1. by rewrite <- app_assoc, utf8_valid_prefix. }
    assert (Hkept : utf8_kept (drop n chunk)).
    { rewrite Heq in *. by exists w. }
    rewrite (proj2 (Nat.ltb_ge _ _)) by lia. destruct final; simpl; [|done].
    rewrite <- (app_nil_r chunk), Hchunk, app_nil_r, utf8_kept_invalid by done.
    by rewrite Heq.
Qed.

Lemma utf8_wrong_sequence a s w t :
  utf8_sequence_width a = Some w → length (a :: s) = w → utf8_valid (a :: s) = false →
  utf8_valid ((a :: s) ++ t) = false.
Proof.
  intros Hw Hl Hv. destruct (utf8_valid ((a :: s) ++ t)) eqn:Hval; [|done].
  simpl app in Hval. rewrite utf8_valid_cons in Hval.
  destruct (utf8_next (a :: s ++ t)) as [n|] eqn:En; [|done].
  pose proof (utf8_next_width _ _ _ _ Hw En) as ->.
  rewrite utf8_valid_cons, (utf8_next_prefix (a :: s) t w En) in Hv by lia.
  by rewrite drop_ge in Hv by lia.
Qed.

Lemma validate_utf8_chunk_spec p chunk final :
  utf8_kept p →
  match validate_utf8_chunk p chunk final with
  | Ok p' => utf8_kept p' ∧ (∀ t, utf8_valid (p ++ chunk ++ t) = utf8_valid (p' ++ t)) ∧
             (final = true → p' = [])
  | Err _ => if final then utf8_valid (p ++ chunk) = false
             else ∀ t, utf8_valid (p ++ chunk ++ t) = false
  | Panic => False
  end.
Proof.
  intros Hk. destruct p as [|a p]; [apply validate_rest_spec|].
  destruct Hk as (w & Hw & Hl). unfold validate_utf8_chunk. rewrite Hw. cbn [ok_or mbind outcome_bind].
  set (needed := (w - length (a :: p))%nat).
  destruct (Nat.min needed (length chunk) <? needed)%nat eqn:E; to_prop.
  - rewrite Nat.min_r, take_ge by lia.
    assert (Hkept : utf8_kept ((a :: p) ++ chunk)).
    { exists w. split; [done|]. rewrite length_app. unfold needed in *. lia. }
    destruct final; [by rewrite utf8_kept_invalid|].
    split_and!; try done. intros t. by rewrite <- app_assoc.
  - rewrite Nat.min_l by lia. set (seq_ := (a :: p) ++ take needed chunk).
    assert (Hsl : length seq_ = w).
    { unfold seq_. rewrite length_app, length_take. unfold needed in *. lia. }
    assert (Hsplit : ∀ t, (a :: p) ++ chunk ++ t = seq_ ++ (drop needed chunk ++ t)).
    { intros t. unfold seq_. rewrite <- app_assoc. f_equal. by rewrite app_assoc, take_drop. }
    case_bool_decide as Hv.
    + apply from_utf8_valid in Hv. pose proof (validate_rest_spec (drop needed chunk) final) as Hr.
      assert (Heq : ∀ t, utf8_valid ((a :: p) ++ chunk ++ t) = utf8_valid (drop needed chunk ++ t)).
      { intros t. by rewrite Hsplit, utf8_valid_prefix. }
      assert (Heq0 : utf8_valid ((a :: p) ++ chunk) = utf8_valid (drop needed chunk)).
      { specialize (Heq []). by rewrite !app_nil_r in Heq. }
      destruct (validate_rest _ _) as [p'|e|]; [|destruct final|done].
      * destruct Hr as (? & Hr & ?). split_and!; try done. intros t. by rewrite Heq, Hr.
      * by rewrite Heq0.
      * intros t. by rewrite Heq.
    + assert (Hbad : ∀ t, utf8_valid (seq_ ++ t) = false).
      { intros t. apply (utf8_wrong_sequence a (p ++ take needed chunk) w); [done | exact Hsl |].
        rewrite from_utf8_valid in Hv. by apply not_true_iff_false. }
      destruct final; [|by intros t; rewrite Hsplit].
      specialize (Hsplit []). rewrite !app_nil_r in Hsplit. by rewrite Hsplit.
Qed.

(** The chunks of a message, the last one marked as such. *)
Fixpoint validate_message (pending : bytes) (chunks : list bytes) : outcome bytes :=
  match chunks with
  | [] => Ok pending
  | [chunk] => validate_utf8_chunk pending chunk true
  | chunk :: chunks => pending ← validate_utf8_chunk pending chunk false; validate_message pending chunks
  end.

(** The incremental check of a text message, which keeps at most three
    bytes between reads, accepts it exactly if the whole message is valid UTF-8,
    however it is cut into frames and reads. *)
Theorem text_check_is_whole_check chunks :
  chunks ≠ [] → is_Ok (validate_message [] chunks) = utf8_valid (concat chunks).
Proof.
  assert (Hgen : ∀ p, utf8_kept p → chunks ≠ [] →
    is_Ok (validate_message p chunks) = utf8_valid (p ++ concat chunks)); [|by apply (Hgen [])].
  induction chunks as [|chunk chunks IH]; intros p Hp Hne; [done|]. cbn [concat].
  destruct chunks as [|chunk' chunks].
  - cbn [validate_message concat]. rewrite app_nil_r.
    pose proof (validate_utf8_chunk_spec p chunk true Hp) as Hs.
    destruct (validate_utf8_chunk p chunk true) as [p'|e|]; [|done|done].
    destruct Hs as (_ & Hs & Hnil). specialize (Hs []). rewrite !app_nil_r, (Hnil eq_refl) in Hs.
    by rewrite Hs.
  - pose proof (validate_utf8_chunk_spec p chunk false Hp) as Hs.
    change (validate_message p (chunk :: chunk' :: chunks)) with
      (p' ← validate_utf8_chunk p chunk false; validate_message p' (chunk' :: chunks)).
    destruct (validate_utf8_chunk p chunk false) as [p'|e|]; [|by rewrite Hs|done].
    destruct Hs as (Hk & Hs & _). cbn [mbind outcome_bind]. by rewrite IH, Hs.
Qed.

Lemma text_check_is_whole_check_witness :
  is_Ok (validate_message [] [[104; 195]; [169; 240; 159]; [152]; [128]]) =
  utf8_valid (concat [[104; 195]; [169; 240; 159]; [152]; [128]]).
Proof. apply (text_check_is_whole_check [[104; 195]; [169; 240; 159]; [152]; [128]]). done. Defined.

End Ws.
