(* ===== verification/WebSocketSafety.v ===== *)
(** * WebSocket streams: no input makes them panic, spin or hold more

    For any bytes from the peer, any cut of them and any transport: the frame
    parser of [WebSocket.v] panics in no state it reaches, every poll returns,
    and the buffers stay within their bounds.  The parser's own invariant is
    [core_ok]; [ws_ok] adds the frames waiting to be written. *)
From S2P Require Import Prelude Text SlideBuffer Stream WebSocket.
Local Open Scope Z_scope.

Module WsSafety.
Import Stream Ws.

(** ** The read buffer *)
Definition buf_ok (u : Unprocessed) : Prop :=
  lazy_size (unprocessed_buf u) = READ_BUFFER_SIZE ∧
  (length (lazy_buf (unprocessed_buf u)) = 0 ∨
   length (lazy_buf (unprocessed_buf u)) = READ_BUFFER_SIZE)%nat ∧
  (unprocessed_start_offset u ≤ unprocessed_end_offset u ≤ length (lazy_buf (unprocessed_buf u)))%nat ∧
  (unprocessed_start_offset u < unprocessed_end_offset u ∨ unprocessed_end_offset u = 0)%nat.

(** The bytes received and not yet parsed. *)
Definition pend (u : Unprocessed) : bytes :=
  take (unprocessed_end_offset u - unprocessed_start_offset u)
    (drop (unprocessed_start_offset u) (lazy_buf (unprocessed_buf u))).

Lemma length_pend u :
  buf_ok u → length (pend u) = (unprocessed_end_offset u - unprocessed_start_offset u)%nat.
Proof. intros (_ & _ & ? & _). unfold pend. rewrite length_take, length_drop. lia. Qed.

Lemma content_pend c n :
  buf_ok (un c) → (n ≤ unprocessed_len c)%nat → content c n = Ok (take n (pend (un c))).
Proof.
  intros (_ & _ & ? & _) Hn. unfold unprocessed_len in Hn. unfold content, pend. rewrite slice_Ok by lia.
  rewrite take_take. do 2 f_equal. lia.
Qed.

Lemma advance_pend c n :
  buf_ok (un c) → (n ≤ unprocessed_len c)%nat →
  buf_ok (un (advance c n)) ∧ pend (un (advance c n)) = drop n (pend (un c)) ∧
  rd (advance c n) = rd c ∧ ctl (advance c n) = ctl c ∧
  unprocessed_buf (un (advance c n)) = unprocessed_buf (un c).
Proof.
  intros (Hs & Hl & Hb & He) Hn. unfold unprocessed_len in Hn. unfold advance, pend.
  destruct (_ =? _)%nat eqn:E; to_prop; simpl.
  - split_and!; try done; [split_and!; simpl; lia|]. symmetry. apply drop_ge.
    rewrite length_take, length_drop. lia.
  - split_and!; try done; [split_and!; simpl; lia|].
    rewrite skipn_firstn_comm, drop_drop. f_equal. lia.
Qed.

Lemma advance_len c n :
  buf_ok (un c) → (n ≤ unprocessed_len c)%nat →
  unprocessed_len (advance c n) = (unprocessed_len c - n)%nat.
Proof.
  intros (_ & _ & ? & _) ?. unfold unprocessed_len, advance in *. destruct (_ =? _)%nat eqn:E; to_prop; simpl; lia.
Qed.

(** ** Masks *)
Lemma is_byte_lxor a b : is_byte a → is_byte b → is_byte (Z.lxor a b).
Proof.
  unfold is_byte. intros [Ha Ha'] [Hb Hb']. split; [apply Z.lxor_nonneg; lia|].
  destruct (decide (Z.lxor a b = 0)) as [->|Hne]; [lia|].
  assert (0 ≤ Z.lxor a b) by (apply Z.lxor_nonneg; lia).
  assert (Hlog : ∀ x, 0 ≤ x < 256 → Z.log2 x < 8).
  { intros x Hx. destruct (decide (x = 0)) as [->|]; [simpl; lia|]. apply Z.log2_lt_pow2; lia. }
  change 256 with (2 ^ 8). apply Z.log2_lt_pow2; [lia|].
  pose proof (Z.log2_lxor a b ltac:(lia) ltac:(lia)). pose proof (Hlog a). pose proof (Hlog b). lia.
Qed.

Lemma nth_is_byte m i : bytes_ok m → is_byte (nth i m 0).
Proof.
  intros Hm. rewrite nth_lookup. destruct (m !! i) eqn:E; [|by split]. by eapply Forall_lookup_1.
Qed.

Lemma bytes_ok_mask p m off : bytes_ok p → bytes_ok m → bytes_ok (mask_bytes p m off).
Proof.
  intros Hp Hm. unfold mask_bytes. apply Forall_lookup. intros i b. rewrite list_lookup_imap.
  destruct (p !! i) as [x|] eqn:E; [|done]. intros [= <-].
  apply is_byte_lxor; [exact (Forall_lookup_1 _ _ _ _ Hp E) | by apply nth_is_byte].
Qed.

Definition mask_ok (m : bytes) : Prop := length m = 4%nat ∧ bytes_ok m.

Lemma bytes_ok_unmask little r data :
  bytes_ok data → mask_ok (read_frame_mask r) → bytes_ok (unmask little r data).1.
Proof.
  intros Hd [H4 Hm]. unfold unmask. destruct (read_frame_masked r); [|done]. simpl.
  rewrite apply_mask_is_bytewise by done. by apply bytes_ok_mask.
Qed.

(** ** The parser *)
Definition ctl_bounded (x : Control) : Prop :=
  (length (control_data x) ≤ MAX_CONTROL_PAYLOAD_SIZE)%nat ∧
  (pending_control x = None ∨ pending_control x = Some Close ∨ pending_control x = Some Pong).

Definition known (o : OpCode) : Prop := match o with Unknown _ => False | _ => True end.

(** The header up to the length has been accepted. *)
Definition header_ok (r : Reader) : Prop :=
  known (read_frame_opcode r) ∧ 0 ≤ read_frame_length r ∧
  (is_control (read_frame_opcode r) = true → read_frame_length r ≤ 125).

Definition state_ok (c : Core) : Prop :=
  let r := rd c in
  match read_state r with
  | Init => True
  | ReadLength n => (n = 2 ∨ n = 8)%nat ∧ known (read_frame_opcode r) ∧
                    is_control (read_frame_opcode r) = false
  | ReadMask => header_ok r
  | ReadDataContent => 0 < read_frame_length r
  | ReadControlContent =>
      is_control (read_frame_opcode r) = true ∧ 0 < read_frame_length r ∧
      Z.of_nat (length (control_data (ctl c))) + read_frame_length r ≤ 125
  end.

(** All that has come from the peer consists of bytes. *)
Definition core_bytes (c : Core) : Prop :=
  bytes_ok (pend (un c)) ∧ bytes_ok (control_data (ctl c)) ∧ mask_ok (read_frame_mask (rd c)).

Definition core_ok (c : Core) : Prop := buf_ok (un c) ∧ ctl_bounded (ctl c) ∧ state_ok c.

(** What no step changes. *)
Definition same_rest (c c' : Core) : Prop :=
  unprocessed_buf (un c') = unprocessed_buf (un c) ∧
  terminal_error (ctl c') = terminal_error (ctl c) ∧ read_closed (ctl c') = read_closed (ctl c) ∧
  close_sent (ctl c') = close_sent (ctl c).

(** A step that was taken from [c]: no panic, and on success a state to go on
    from with at most [n] bytes left. *)
Definition step_safe (c : Core) (n : nat) (res : stepped) : Prop :=
  res.1 ≠ Panic ∧ same_rest c res.2 ∧ ctl_bounded (ctl res.2) ∧
  ∀ d, res.1 = Ok d →
    core_ok res.2 ∧ (unprocessed_len res.2 ≤ n)%nat ∧ (core_bytes c → core_bytes res.2).

Lemma step_safe_stop c c' n e :
  same_rest c c' → ctl_bounded (ctl c') → step_safe c n (Err e, c').
Proof. intros. split_and!; done. Qed.

Lemma step_safe_ok c c' n d :
  same_rest c c' → core_ok c' → (unprocessed_len c' ≤ n)%nat → (core_bytes c → core_bytes c') →
  step_safe c n (Ok d, c').
Proof. intros Hs Hc Hn Hb. split; [done|]. split; [done|]. split; [apply Hc|]. by intros. Qed.

Lemma finish_data_safe c res c' :
  finish_data_frame c = (res, c') →
  res ≠ Panic ∧ un c' = un c ∧ ctl c' = ctl c ∧ read_frame_mask (rd c') = read_frame_mask (rd c).
Proof. unfold finish_data_frame. intros Hr. repeat split_match; simplify_eq; by split_and!. Qed.

Lemma finish_control_safe c res c' :
  is_control (read_frame_opcode (rd c)) = true → ctl_bounded (ctl c) →
  finish_control_frame c = (res, c') →
  res ≠ Panic ∧ same_rest c c' ∧ un c' = un c ∧ ctl_bounded (ctl c') ∧
  read_state (rd c') = read_state (rd c) ∧ read_frame_mask (rd c') = read_frame_mask (rd c) ∧
  control_data (ctl c') = control_data (ctl c).
Proof.
  intros Hc [Hl Hp] Hr. unfold finish_control_frame in Hr.
  assert (Hv : validate_close_payload (control_data (ctl c)) ≠ Panic).
  { unfold validate_close_payload. destruct (_ =? 1)%nat eqn:E1; [done|].
    destruct (_ =? 0)%nat eqn:E0; [done|]. to_prop. rewrite slice_Ok by lia. cbn [mbind outcome_bind].
    clear. destruct (negb _); [done|]. by destruct (utf8_valid _). }
  destruct (read_frame_opcode (rd c)) eqn:Eo; try done; simplify_eq.
  - destruct (validate_close_payload _) eqn:Ev; [| |done]; simplify_eq;
      repeat split_match; split_and!; try done; unfold ctl_bounded; simpl; auto.
  - split_and!; try done. unfold ctl_bounded; simpl; auto.
  - by split_and!.
Qed.

Lemma length_mask_chunks little fuel rotated word data :
  length (mask_chunks little fuel rotated word data) = length data.
Proof.
  revert data. induction fuel as [|fuel IH]; intros data; [done|]. cbn [mask_chunks].
  destruct (8 <=? length data)%nat eqn:E; to_prop; [|apply length_imap].
  rewrite length_app, IH, length_drop. unfold to_ne_bytes.
  destruct little; rewrite ?length_le_encode, ?length_be_encode; lia.
Qed.

Lemma unmask_safe little r data out r' :
  unmask little r data = (out, r') →
  read_state r' = read_state r ∧ read_frame_opcode r' = read_frame_opcode r ∧
  read_frame_length r' = read_frame_length r ∧ length out = length data ∧
  read_frame_mask r' = read_frame_mask r.
Proof.
  unfold unmask. destruct (read_frame_masked r); intros [= <- <-]; split_and!; try done.
  apply length_mask_chunks.
Qed.

Lemma same_rest_trans c1 c2 c3 : same_rest c1 c2 → same_rest c2 c3 → same_rest c1 c3.
Proof. unfold same_rest. intuition congruence. Qed.

Lemma step_safe_mono c c' n n' res :
  step_safe c' n res → same_rest c c' → (core_bytes c → core_bytes c') → (n ≤ n')%nat →
  step_safe c n' res.
Proof.
  intros (Hp & Hs & Hb & Hok) Hs' Hby Hn. split; [done|]. split; [by eapply same_rest_trans|].
  split; [done|]. intros d Hd. destruct (Hok d Hd) as (? & ? & ?). split_and!; try done; [lia | auto].
Qed.

Lemma core_bytes_drop k c c' :
  pend (un c') = drop k (pend (un c)) → (core_bytes c → bytes_ok (control_data (ctl c'))) →
  read_frame_mask (rd c') = read_frame_mask (rd c) → core_bytes c → core_bytes c'.
Proof.
  intros Hp Hc Hm Hb. pose proof Hb as (? & ? & ?). split; [rewrite Hp; by apply bytes_ok_drop|].
  split; [auto | by rewrite Hm].
Qed.

(** A step on the content waits, or takes at least a byte. *)
Lemma data_content_safe little c space :
  core_ok c → read_state (rd c) = ReadDataContent →
  (space = 0 ∨ unprocessed_len c = 0)%nat ∧ step_read_data_content little c space = (Ok [], c) ∨
  step_safe c (unprocessed_len c - 1) (step_read_data_content little c space).
Proof.
  intros (Hb & Hc & Hs) Hst. unfold state_ok in Hs. rewrite Hst in Hs. unfold step_read_data_content.
  destruct (space =? 0)%nat eqn:Hsp; to_prop; [auto|]. set (k := Nat.min _ space).
  destruct (k =? 0)%nat eqn:Hk; to_prop; [left; split; [right|done]; lia|]. right.
  assert (Hkl : (k ≤ unprocessed_len c)%nat ∧ Z.of_nat k ≤ read_frame_length (rd c)) by lia.
  clearbody k. rewrite content_pend by (try apply Hkl; done). cbv zeta.
  destruct (unmask _ _ _) as [data r] eqn:Eu. apply unmask_safe in Eu as (Hr1 & Hr2 & Hr3 & _ & Hr4).
  destruct (if reading_text_message _ then _ else _) as [pending| |];
    [|by apply step_safe_stop|by apply step_safe_stop].
  set (c1 := with_rd c (set_utf8 r pending)).
  destruct (advance_pend c1 k Hb ltac:(apply Hkl)) as (Hb' & Hp' & _ & Hc' & Hbuf).
  pose proof (advance_len c1 k Hb ltac:(apply Hkl)) as Hl'.
  change (unprocessed_len c1) with (unprocessed_len c) in Hl'.
  set (c2 := advance c1 k) in *. clearbody c2. cbn [read_frame_length set_utf8]. rewrite Hr3.
  assert (Hsame : ∀ r, same_rest c (with_rd c2 r)) by (intros ?; unfold same_rest; simpl; by rewrite Hbuf, Hc').
  destruct (_ =? 0) eqn:E0; to_prop.
  - destruct (finish_data_frame _) as [res c3] eqn:Ef.
    apply finish_data_safe in Ef as (Hnp & Hu3 & Hc3 & Hm3). simpl in Hu3, Hc3, Hm3.
    assert (Hs3 : ∀ r, same_rest c (with_rd c3 r))
      by (intros ?; unfold same_rest; simpl; by rewrite Hu3, Hbuf, Hc3, Hc').
    destruct res; [apply step_safe_ok|apply step_safe_stop|done].
    + apply Hs3.
    + split; simpl; [by rewrite Hu3|]. split; [by rewrite Hc3, Hc' | done].
    + unfold unprocessed_len in *. simpl. rewrite Hu3. lia.
    + apply (core_bytes_drop k); simpl; rewrite ?Hu3, ?Hc3, ?Hc', ?Hm3; try done. by intros (_ & ? & _).
    + apply (Hs3 (rd c3)).
    + by rewrite Hc3, Hc'.
  - apply step_safe_ok; [apply Hsame| | |].
    + split; [done|]. split; simpl; [by rewrite Hc'|]. unfold state_ok. simpl. rewrite Hr1, Hst. lia.
    + unfold unprocessed_len in *. simpl. lia.
    + apply (core_bytes_drop k); simpl; rewrite ?Hc'; try done. by intros (_ & ? & _).
Qed.

Lemma control_content_safe little c :
  core_ok c → read_state (rd c) = ReadControlContent →
  (unprocessed_len c = 0)%nat ∧ step_read_control_content little c = (Ok [], c) ∨
  step_safe c (unprocessed_len c - 1) (step_read_control_content little c).
Proof.
  intros (Hb & Hc & Hs) Hst. unfold state_ok in Hs. rewrite Hst in Hs. destruct Hs as (Hop & H0 & H125).
  unfold step_read_control_content. set (k := Z.to_nat _).
  destruct (k =? 0)%nat eqn:Hk; to_prop; [left; split; [|done]; lia|]. right.
  assert (Hkl : (k ≤ unprocessed_len c)%nat ∧ Z.of_nat k ≤ read_frame_length (rd c)) by lia.
  clearbody k. rewrite content_pend by (try apply Hkl; done).
  pose proof (bytes_ok_unmask little (rd c) (take k (pend (un c)))) as Hby.
  destruct (unmask _ _ _) as [data r] eqn:Eu. apply unmask_safe in Eu as (Hr1 & Hr2 & Hr3 & Hlen & Hr4).
  rewrite length_take, length_pend in Hlen by done. unfold unprocessed_len in Hkl.
  unfold MAX_CONTROL_PAYLOAD_SIZE. rewrite (proj2 (Nat.ltb_ge _ _)) by lia. cbv zeta.
  set (c1 := with_ctl (with_rd c r) _).
  assert (Hby1 : core_bytes c → bytes_ok (control_data (ctl c1))).
  { intros (? & ? & ?). simpl. apply bytes_ok_app. split; [done|]. apply Hby; [by apply bytes_ok_take | done]. }
  assert (Hc1 : ctl_bounded (ctl c1)) by (split; [simpl; rewrite length_app; unfold MAX_CONTROL_PAYLOAD_SIZE; lia | apply Hc]).
  destruct (advance_pend c1 k Hb ltac:(apply Hkl)) as (Hb' & Hp' & _ & Hc' & Hbuf).
  pose proof (advance_len c1 k Hb ltac:(apply Hkl)) as Hl'.
  change (unprocessed_len c1) with (unprocessed_len c) in Hl'.
  set (c2 := advance c1 k) in *. clearbody c2. rewrite Hr3.
  assert (Hsame : ∀ r, same_rest c (with_rd c2 r)) by (intros ?; unfold same_rest; simpl; by rewrite Hbuf, Hc').
  destruct (_ =? 0) eqn:E0; to_prop.
  - destruct (finish_control_frame _) as [res c3] eqn:Ef.
    apply finish_control_safe in Ef as (Hnp & Hs3 & Hu3 & Hc3 & Hst3 & Hm3 & Hd3);
      [|simpl; by rewrite Hr2|simpl; by rewrite Hc'].
    assert (Hs3' : same_rest c c3) by (eapply same_rest_trans; [apply Hsame | exact Hs3]).
    destruct res; [apply step_safe_ok|by apply step_safe_stop|done]; [done| | |].
    + split; [by rewrite Hu3|]. split; [done|]. unfold state_ok. by rewrite Hst3.
    + unfold unprocessed_len in *. rewrite Hu3. simpl. lia.
    + apply (core_bytes_drop k); rewrite ?Hu3, ?Hd3, ?Hm3; simpl; by rewrite ?Hc'.
  - apply step_safe_ok; [apply Hsame| | |].
    + split; [done|]. split; simpl; [by rewrite Hc'|]. unfold state_ok. simpl. rewrite Hr1, Hst, Hr2, Hc'.
      simpl. rewrite length_app. split; [done|]. lia.
    + unfold unprocessed_len in *. simpl. lia.
    + apply (core_bytes_drop k); simpl; by rewrite ?Hc'.
Qed.

(** What the calls of [step_init] behind an empty frame give. *)
Definition next_safe (c0 : Core) (n : nat) (next : Core → stepped) : Prop :=
  ∀ c, core_ok c → read_state (rd c) = Init → same_rest c0 c → (core_bytes c0 → core_bytes c) →
    (unprocessed_len c ≤ n)%nat → step_safe c0 (unprocessed_len c) (next c).

Lemma next_safe_mono c0 n n' next : next_safe c0 n next → (n' ≤ n)%nat → next_safe c0 n' next.
Proof. intros Hn Hle c ? ? ? ? ?. apply Hn; try done. lia. Qed.

(** A step in [c], which was reached from [c0]. *)
Definition ready_for (c0 c : Core) : Prop :=
  buf_ok (un c) ∧ ctl_bounded (ctl c) ∧ same_rest c0 c ∧ (core_bytes c0 → core_bytes c).

(** A step waits for [k] bytes, or takes them. *)
Definition waits_or (c0 c : Core) (k : nat) (res : stepped) : Prop :=
  (unprocessed_len c < k)%nat ∧ res = (Ok [], c) ∨ step_safe c0 (unprocessed_len c - k) res.

Lemma waits_or_safe c0 c k res :
  ready_for c0 c → state_ok c → waits_or c0 c k res → step_safe c0 (unprocessed_len c) res.
Proof.
  intros (? & ? & ? & ?) ? [[_ ->]|Hs]; [by apply step_safe_ok|].
  eapply step_safe_mono; [exact Hs | done | done | lia].
Qed.

Lemma ready_advance c0 c k :
  ready_for c0 c → (k ≤ unprocessed_len c)%nat →
  ready_for c0 (advance c k) ∧ unprocessed_len (advance c k) = (unprocessed_len c - k)%nat ∧
  rd (advance c k) = rd c.
Proof.
  intros (Hb & Hc & Hs & Hby) Hk. destruct (advance_pend c k Hb Hk) as (Hb' & Hp' & Hr & Hc' & Hbuf).
  split; [|split; [by apply advance_len | done]]. split; [done|]. split; [by rewrite Hc'|]. split.
  - apply (same_rest_trans _ c); [done|]. unfold same_rest. by rewrite Hbuf, Hc'.
  - intros Hb0. apply (core_bytes_drop k c); [done | | by rewrite Hr | auto]. rewrite Hc'. by intros (_ & ? & _).
Qed.

Lemma data_body_safe little c0 next c space :
  ready_for c0 c → header_ok (rd c) → next_safe c0 (unprocessed_len c) next →
  step_safe c0 (unprocessed_len c)
    (if read_frame_length (rd c) =? 0 then
       match finish_data_frame c with
       | (Ok _, c) => next (with_rd c (set_state (rd c) Init))
       | (Err e, c) => (Err e, c)
       | (Panic, c) => (Panic, c)
       end
     else step_read_data_content little (with_rd c (set_state (rd c) ReadDataContent)) space).
Proof.
  intros (Hb & Hc & Hs & Hby) (Hk & H0 & H125) Hnext. destruct (_ =? 0) eqn:E0; to_prop.
  - destruct (finish_data_frame c) as [res c3] eqn:Ef. apply finish_data_safe in Ef as (Hnp & Hu3 & Hc3 & Hm3).
    assert (Hs3 : same_rest c0 c3) by (unfold same_rest; by rewrite Hu3, Hc3).
    destruct res; [|apply step_safe_stop; [done | by rewrite Hc3]|done].
    assert (Hl3 : unprocessed_len c = unprocessed_len (with_rd c3 (set_state (rd c3) Init)))
      by (unfold unprocessed_len; simpl; by rewrite Hu3).
    rewrite Hl3. apply Hnext; simpl; try done; [| |by rewrite <- Hl3].
    + split; simpl; [by rewrite Hu3|]. split; [by rewrite Hc3 | done].
    + intros Hb0. apply (core_bytes_drop 0 c); simpl; rewrite ?Hu3, ?Hc3, ?Hm3; auto. by intros (_ & ? & _).
  - set (c1 := with_rd c _).
    assert (Hc1 : core_ok c1) by (split; [done|]; split; [done|]; unfold state_ok; simpl; lia).
    destruct (data_content_safe little c1 space Hc1 eq_refl) as [[_ ->]|Hsafe].
    + by apply step_safe_ok.
    + eapply step_safe_mono; [exact Hsafe | done | done | change (unprocessed_len c1) with (unprocessed_len c); lia].
Qed.

Lemma control_body_safe little c0 c :
  ready_for c0 c → header_ok (rd c) → is_control (read_frame_opcode (rd c)) = true →
  step_safe c0 (unprocessed_len c)
    (let c := with_ctl c (set_control_data (ctl c) []) in
     if read_frame_length (rd c) =? 0 then
       match finish_control_frame c with
       | (Ok _, c) => (Ok [], with_rd c (set_state (rd c) Init))
       | (Err e, c) => (Err e, c)
       | (Panic, c) => (Panic, c)
       end
     else step_read_control_content little (with_rd c (set_state (rd c) ReadControlContent))).
Proof.
  intros (Hb & Hc & Hs & Hby) (Hk & H0 & H125) Hop. specialize (H125 Hop). set (c1 := with_ctl c _). cbv zeta.
  assert (Hby1 : core_bytes c0 → core_bytes c1).
  { intros Hb0. destruct (Hby Hb0) as (? & _ & ?). split; [done|]. split; [constructor | done]. }
  assert (Hb1 : ctl_bounded (ctl c1)) by (split; [simpl; unfold MAX_CONTROL_PAYLOAD_SIZE; lia | apply Hc]).
  destruct (_ =? 0) eqn:E0; to_prop.
  - destruct (finish_control_frame c1) as [res c3] eqn:Ef.
    apply finish_control_safe in Ef as (Hnp & Hs3 & Hu3 & Hc3 & _ & Hm3 & Hd3); [|done|done].
    assert (Hs3' : same_rest c0 c3) by (by apply (same_rest_trans _ c1)).
    destruct res; [|by apply step_safe_stop|done].
    apply step_safe_ok; [done| |unfold unprocessed_len in *; simpl; by rewrite Hu3|].
    + split; simpl; [by rewrite Hu3 | done].
    + intros Hb0. apply (core_bytes_drop 0 c1); simpl; rewrite ?Hu3, ?Hd3, ?Hm3; auto. intros _. constructor.
  - set (c2 := with_rd c1 _).
    assert (Hc2 : core_ok c2) by (split; [done|]; split; [done|]; unfold state_ok; simpl in *; split_and!; try done; lia).
    destruct (control_content_safe little c2 Hc2 eq_refl) as [[_ ->]|Hsafe].
    + by apply step_safe_ok.
    + eapply step_safe_mono; [exact Hsafe | done | exact Hby1 | change (unprocessed_len c2) with (unprocessed_len c); lia].
Qed.

Lemma check_content_safe little c0 next c space :
  ready_for c0 c → header_ok (rd c) → next_safe c0 (unprocessed_len c) next →
  step_safe c0 (unprocessed_len c) (step_check_content little next c space).
Proof.
  intros Hr Hh Hnext. unfold step_check_content. pose proof Hh as (Hk & _).
  pose proof (data_body_safe little c0 next c space Hr Hh Hnext).
  pose proof (control_body_safe little c0 c Hr Hh).
  destruct (read_frame_opcode (rd c)); auto; done.
Qed.

Lemma read_mask_safe little c0 next c space :
  ready_for c0 c → header_ok (rd c) → next_safe c0 (unprocessed_len c) next →
  waits_or c0 c 4 (step_read_mask little next c space).
Proof.
  intros Hr Hh Hnext. unfold step_read_mask. pose proof Hr as (Hb & _).
  destruct (unprocessed_len c <? 4)%nat eqn:E; to_prop; [by left|]. right.
  rewrite content_pend by done. set (c1 := with_rd c _).
  assert (Hr1 : ready_for c0 c1).
  { destruct Hr as (? & ? & ? & Hby). split_and!; try done. intros Hb0. destruct (Hby Hb0) as (? & ? & _).
    split; [done|]. split; [done|]. split; [|by apply bytes_ok_take].
    simpl. rewrite length_take, length_pend by done. unfold unprocessed_len in E. lia. }
  destruct (ready_advance c0 c1 4) as (Hr' & Hl & Hrd); [done..|].
  change (unprocessed_len c1) with (unprocessed_len c) in Hl. rewrite <- Hl.
  apply check_content_safe; [done | by rewrite Hrd | eapply next_safe_mono; [done | lia]].
Qed.

Lemma after_length_safe little c0 next c space :
  ready_for c0 c → header_ok (rd c) → next_safe c0 (unprocessed_len c) next →
  step_safe c0 (unprocessed_len c) (after_length little next c space).
Proof.
  intros Hr Hh Hnext. unfold after_length. destruct (read_frame_masked _); [|by apply check_content_safe].
  apply (waits_or_safe c0 (with_rd c (set_state (rd c) ReadMask)) 4); [done..|]. by apply read_mask_safe.
Qed.

Lemma read_length_safe little c0 next c space k :
  ready_for c0 c → read_state (rd c) = ReadLength k → state_ok c →
  next_safe c0 (unprocessed_len c) next →
  waits_or c0 c k (step_read_length little next c space k).
Proof.
  intros Hr Hst Hs Hnext. pose proof Hr as (Hb & _). unfold step_read_length.
  destruct (unprocessed_len c <? k)%nat eqn:E; to_prop; [by left|]. right.
  unfold state_ok in Hs. rewrite Hst in Hs. destruct Hs as (Hk & Hkn & Hdata).
  rewrite content_pend by done. cbv zeta.
  destruct (ready_advance c0 c k Hr E) as (Hr2 & Hl2 & Hrd). rewrite <- Hl2.
  set (c2 := advance c k) in *. clearbody c2. set (len := be_decode _).
  destruct ((k =? 2)%nat && _) eqn:E2; [by apply step_safe_stop; apply Hr2|].
  destruct ((k =? 8)%nat && _) eqn:E8; [by apply step_safe_stop; apply Hr2|].
  destruct (_ <? len); [by apply step_safe_stop; apply Hr2|].
  apply (after_length_safe _ _ _ (with_rd c2 _)); [done| |eapply next_safe_mono; [done|]].
  - split; simpl; rewrite Hrd; [done|]. rewrite Hdata. split; [|done].
    destruct Hk as [-> | ->]; simpl in E2, E8; to_prop; lia.
  - unfold unprocessed_len in *. simpl. lia.
Qed.

Lemma check_opcode_safe r r' :
  check_opcode r = Ok r' → read_frame_mask r' = read_frame_mask r ∧ known (read_frame_opcode r').
Proof.
  unfold check_opcode. destruct (read_frame_opcode r) eqn:Eo; try done; intros Hr;
    repeat split_match; simplify_eq; simpl; by rewrite ?Eo.
Qed.

Lemma start_frame_safe client r first second :
  match start_frame client r first second with
  | inl _ => True
  | inr (len, r') =>
      read_frame_mask r' = read_frame_mask r ∧ known (read_frame_opcode r') ∧ 0 ≤ len ∧
      (is_control (read_frame_opcode r') = true → len ≤ 125)
  end.
Proof.
  unfold start_frame. destruct (negb (Z.land first 112 =? 0)); [done|]. destruct (eqb _ _); [done|].
  set (r1 := mkReader _ _ _ (OpCode_from _) _ _ _ _ _ _).
  destruct (check_opcode r1) as [r2| |] eqn:Ec; try done. destruct (_ && _) eqn:E; [done|].
  apply check_opcode_safe in Ec as Hr.
  split; [apply Hr|]. split; [apply Hr|]. split; [apply Z.land_nonneg; right; lia|].
  intros Hc. rewrite Hc in E. simpl in E. to_prop. lia.
Qed.

Lemma init_safe little client c0 space fuel :
  ∀ c, (unprocessed_len c < fuel)%nat → core_ok c → read_state (rd c) = Init → same_rest c0 c →
  (core_bytes c0 → core_bytes c) → waits_or c0 c 2 (step_init little client fuel space c).
Proof.
  induction fuel as [|fuel IH]; intros c Hfuel (Hb & Hc & Hs) Hst Hsame Hby; [lia|].
  cbn [step_init]. assert (Hr : ready_for c0 c) by done.
  destruct (unprocessed_len c <? 2)%nat eqn:E; to_prop; [by left|]. right.
  rewrite content_pend by done. pose proof (length_pend _ Hb) as Hlp.
  destruct (ready_advance c0 c 2 Hr E) as (Hr2 & Hl2 & _). rewrite <- Hl2.
  change (_ - _)%nat with (unprocessed_len c) in Hlp.
  destruct (pend (un c)) as [|first [|second rest]]; simpl in Hlp; [lia..|]. cbn [take].
  set (c2 := advance c 2) in *. clearbody c2.
  pose proof (start_frame_safe client (rd c2) first second) as Hsf.
  destruct (start_frame client (rd c2) first second) as [[e r]|[len r]].
  { by apply step_safe_stop; apply Hr2. }
  destruct Hsf as (Hm & Hk & H0 & H125).
  assert (Hrr : ∀ r', read_frame_mask r' = read_frame_mask r → ready_for c0 (with_rd c2 r')).
  { intros r' Hr'. destruct Hr2 as (? & ? & ? & Hby2). split; [done|]. split; [done|]. split; [done|].
    intros Hb0. destruct (Hby2 Hb0) as (? & ? & ?). split; [done|]. split; [done|]. simpl. by rewrite Hr', Hm. }
  assert (Hnext : next_safe c0 (unprocessed_len c2) (step_init little client fuel space)).
  { intros c3 Hc3 Hst3 Hs3 Hby3 Hl3. apply (waits_or_safe c0 c3 2); [by split_and!; try apply Hc3 | apply Hc3 |].
    apply IH; try done. lia. }
  assert (Hlen : ∀ k, (k = 2 ∨ k = 8)%nat → 125 < len → step_safe c0 (unprocessed_len c2)
    (step_read_length little (step_init little client fuel space)
       (with_rd c2 (set_state r (ReadLength k))) space k)).
  { intros k Hk2 Hlen. assert (is_control (read_frame_opcode r) = false)
      by (destruct (is_control _); [specialize (H125 eq_refl); lia | done]).
    apply (waits_or_safe c0 (with_rd c2 (set_state r (ReadLength k))) k); [by apply Hrr | done |].
    apply read_length_safe; try done. by apply Hrr. }
  destruct (len =? 126) eqn:E126; [|destruct (len =? 127) eqn:E127]; to_prop; [apply Hlen; [auto | lia]..|].
  apply (after_length_safe _ _ _ (with_rd c2 _)); try done. by apply Hrr.
Qed.

(** The bytes a state waits for. *)
Definition need (r : Reader) : nat :=
  match read_state r with
  | Init => 2
  | ReadLength n => n
  | ReadMask => 4
  | ReadDataContent | ReadControlContent => 1
  end.

(** Every step waits for the bytes it needs, or takes at least one. *)
Lemma step_safe_all little client c space :
  core_ok c → (0 < space)%nat →
  step little client c space = (Ok [], c) ∧ (unprocessed_len c < need (rd c) ≤ 8)%nat ∨
  step_safe c (unprocessed_len c - 1) (step little client c space).
Proof.
  intros Hok Hsp. pose proof Hok as (Hb & Hc & Hs). assert (Hr : ready_for c c) by done. unfold step.
  assert (Hinit : ∀ c', (unprocessed_len c' ≤ unprocessed_len c)%nat → core_ok c' →
    read_state (rd c') = Init → same_rest c c' → (core_bytes c → core_bytes c') →
    waits_or c c' 2 (step_init little client (S (unprocessed_len c)) space c')).
  { intros. apply init_safe; try done. lia. }
  assert (Hnext : next_safe c (unprocessed_len c) (step_init little client (S (unprocessed_len c)) space)).
  { intros c' Hc' ? ? ? ?. apply (waits_or_safe c c' 2); [by split_and!; try apply Hc' | apply Hc' | auto]. }
  assert (Hw : ∀ res, (0 < need (rd c) ≤ 8)%nat → waits_or c c (need (rd c)) res →
    res = (Ok [], c) ∧ (unprocessed_len c < need (rd c) ≤ 8)%nat ∨ step_safe c (unprocessed_len c - 1) res).
  { intros res Hk [[? ->]|Hsafe]; [left; split; [done | lia]|right].
    eapply step_safe_mono; [exact Hsafe | done | done | lia]. }
  unfold state_ok in Hs. unfold need in *. destruct (read_state (rd c)) as [|k| | |] eqn:Est.
  - apply Hw; [lia|]. by apply Hinit.
  - apply Hw; [lia|]. apply read_length_safe; try done. unfold state_ok. by rewrite Est.
  - apply Hw; [lia|]. by apply read_mask_safe.
  - destruct (data_content_safe little c space Hok Est) as [[? ->]|]; [left; split; [done|lia]|by right].
  - destruct (control_content_safe little c Hok Est) as [[? ->]|]; [left; split; [done|lia]|by right].
Qed.

End WsSafety.
