(* ===== verification/WebSocketFacts.v ===== *)
(** * What a WebSocket stream delivers and sends

    The invariants of the framing layer of [WebSocket.v]: a transport that
    carries well-formed binary frames with pings and pongs in between, cut in
    any way, is delivered as exactly the payloads; what is written leaves as
    frames with exactly these payloads; and the two compose. *)
From S2P Require Import Prelude Text SlideBuffer Stream WebSocket WebSocketSafety.
Local Open Scope Z_scope.

Module WsFacts.
Import Stream Ws WsSafety.

(** ** Frames on the wire *)
Record frame := mkFrame { f_final : bool; f_op : OpCode; f_mask : option bytes; f_payload : bytes }.

Definition opcode_byte (o : OpCode) : Z :=
  match o with
  | Continue => 0 | Text => 1 | Binary => 2 | Close => 8 | Ping => 9 | Pong => 10
  | Unknown code => code
  end.

(** The length in the second byte and the bytes that extend it. *)
Definition length_code (len : nat) : Z * bytes :=
  if Z.of_nat len <? 126 then (Z.of_nat len, [])
  else if Z.of_nat len <=? 65535 then (126, be_encode 2 (Z.of_nat len))
  else (127, be_encode 8 (Z.of_nat len)).

Definition body (mask : option bytes) (payload : bytes) : bytes :=
  match mask with Some m => m ++ mask_bytes payload m 0 | None => payload end.

Definition encode_frame (f : frame) : bytes :=
  let '(code, extension) := length_code (length (f_payload f)) in
  [Z.lor (opcode_byte (f_op f)) (if f_final f then 128 else 0);
   Z.lor (match f_mask f with Some _ => 128 | None => 0 end) code] ++
  extension ++ body (f_mask f) (f_payload f).
Definition encode_frames (fs : list frame) : bytes := concat (encode_frame <$> fs).

Definition is_data (o : OpCode) : bool := negb (is_control o).
Definition payloads (fs : list frame) : bytes :=
  concat (f_payload <$> filter (λ f, is_data (f_op f) = true) fs).

Definition mask_for (client : bool) (mask : option bytes) : Prop :=
  if client then mask = None else ∃ m, mask = Some m ∧ mask_ok m.

(** A frame for a receiver that is a client or a server. *)
Definition frame_ok (client : bool) (f : frame) : Prop :=
  mask_for client (f_mask f) ∧
  bytes_ok (f_payload f) ∧ Z.of_nat (length (f_payload f)) < 2 ^ 63 ∧
  match f_op f with
  | Binary | Continue => True
  | Ping | Pong => f_final f = true ∧ (length (f_payload f) ≤ 125)%nat
  | _ => False
  end.

(** The open message after a frame, if the frame fits. *)
Definition follow (open : option OpCode) (f : frame) : option (option OpCode) :=
  match f_op f, open with
  | Binary, None => Some (if f_final f then None else Some Binary)
  | Continue, Some m => Some (if f_final f then None else Some m)
  | Ping, _ | Pong, _ => Some open
  | _, _ => None
  end.

Fixpoint frames_ok (client : bool) (open : option OpCode) (fs : list frame) : Prop :=
  match fs with
  | [] => True
  | f :: fs =>
      frame_ok client f ∧
      match follow open f with Some open => frames_ok client open fs | None => False end
  end.

(** ** What the parser expects *)

(** The state of the message once the frame in progress is complete. *)
Definition message_after (r : Reader) : option OpCode :=
  if bool_decide (read_frame_opcode r = Continue) && read_frame_final r then None
  else fragmented_message r.

(** [r] is inside a frame with [p] of its payload to come, followed by [fs];
    [out] is what is still to be delivered. *)
Definition in_frame (client : bool) (r : Reader) (p : bytes) (fs : list frame) (out : bytes) : Prop :=
  read_frame_masked r = negb client ∧ bytes_ok p ∧ Z.of_nat (length p) < 2 ^ 63 ∧
  fragmented_message r ≠ Some Text ∧
  frames_ok client (message_after r) fs ∧
  match read_frame_opcode r with
  | Binary => fragmented_message r = (if read_frame_final r then None else Some Binary) ∧
              out = p ++ payloads fs
  | Continue => is_Some (fragmented_message r) ∧ out = p ++ payloads fs
  | Ping | Pong => (length p ≤ 125)%nat ∧ out = payloads fs
  | _ => False
  end.

Definition masked_rest (r : Reader) (p : bytes) : bytes :=
  if read_frame_masked r then mask_bytes p (read_frame_mask r) (read_frame_mask_offset r) else p.

(** [rest] is everything behind what has been parsed. *)
Definition expects (client : bool) (c : Core) (rest out : bytes) : Prop :=
  let r := rd c in
  ∃ fs,
  match read_state r with
  | Init => frames_ok client (fragmented_message r) fs ∧ fragmented_message r ≠ Some Text ∧
            rest = encode_frames fs ∧ out = payloads fs
  | ReadLength n => ∃ mask p,
      in_frame client r p fs out ∧ read_frame_mask_offset r = 0%nat ∧
      mask_for client mask ∧
      (n = 2%nat ∧ 126 ≤ Z.of_nat (length p) ≤ 65535 ∨ n = 8%nat ∧ 65535 < Z.of_nat (length p)) ∧
      is_control (read_frame_opcode r) = false ∧
      rest = be_encode n (Z.of_nat (length p)) ++ body mask p ++ encode_frames fs
  | ReadMask => ∃ m p,
      in_frame client r p fs out ∧ read_frame_mask_offset r = 0%nat ∧ mask_ok m ∧
      read_frame_length r = Z.of_nat (length p) ∧ client = false ∧
      rest = m ++ mask_bytes p m 0 ++ encode_frames fs
  | ReadDataContent => ∃ p,
      in_frame client r p fs out ∧ p ≠ [] ∧ read_frame_length r = Z.of_nat (length p) ∧
      is_control (read_frame_opcode r) = false ∧
      (read_frame_masked r = true → mask_ok (read_frame_mask r)) ∧
      rest = masked_rest r p ++ encode_frames fs
  | ReadControlContent => ∃ p,
      in_frame client r p fs out ∧ p ≠ [] ∧ read_frame_length r = Z.of_nat (length p) ∧
      is_control (read_frame_opcode r) = true ∧
      (read_frame_masked r = true → mask_ok (read_frame_mask r)) ∧
      (length (control_data (ctl c)) + length p ≤ 125)%nat ∧
      rest = masked_rest r p ++ encode_frames fs
  end.

(** ** Masks *)
Lemma length_mask_bytes p m off : length (mask_bytes p m off) = length p.
Proof. unfold mask_bytes. apply length_imap. Qed.

Lemma mask_bytes_app p q m off :
  mask_bytes (p ++ q) m off = mask_bytes p m off ++ mask_bytes q m (off + length p).
Proof.
  unfold mask_bytes. rewrite imap_app. f_equal. apply imap_ext. intros i b _. simpl.
  by rewrite Nat.add_assoc.
Qed.

Lemma mask_bytes_mod p m off : mask_bytes p m (off mod 4) = mask_bytes p m off.
Proof.
  unfold mask_bytes. apply imap_ext. intros i b _. by rewrite Nat.Div0.add_mod_idemp_l.
Qed.

Lemma mask_bytes_involutive p m off : mask_bytes (mask_bytes p m off) m off = p.
Proof.
  unfold mask_bytes. apply list_eq. intros i. rewrite !list_lookup_imap.
  destruct (p !! i) as [x|]; [|done]. simpl.
  by rewrite Z.lxor_assoc, Z.lxor_nilpotent, Z.lxor_0_r.
Qed.

(** The reader after a part of the payload. *)
Definition skip_payload (r : Reader) (k : nat) : Reader :=
  if read_frame_masked r then set_mask_offset r ((read_frame_mask_offset r + k) mod 4) else r.

Lemma masked_rest_app r p q :
  masked_rest r (p ++ q) = masked_rest r p ++ masked_rest (skip_payload r (length p)) q.
Proof.
  unfold masked_rest, skip_payload. destruct (read_frame_masked r) eqn:E; [|by rewrite E].
  cbn [read_frame_masked set_mask_offset read_frame_mask read_frame_mask_offset].
  by rewrite E, mask_bytes_app, mask_bytes_mod.
Qed.

Lemma length_masked_rest r p : length (masked_rest r p) = length p.
Proof. unfold masked_rest. destruct (read_frame_masked r); [apply length_mask_bytes | done]. Qed.

Lemma unmask_rest little r p :
  bytes_ok p → (read_frame_masked r = true → mask_ok (read_frame_mask r)) →
  unmask little r (masked_rest r p) = (p, skip_payload r (length p)).
Proof.
  intros Hp Hm. unfold unmask, masked_rest, skip_payload. destruct (read_frame_masked r); [|done].
  destruct (Hm eq_refl) as [Hm4 Hmb].
  rewrite apply_mask_is_bytewise, mask_bytes_involutive, length_mask_bytes by
    (try apply bytes_ok_mask; done). done.
Qed.

(** The first bytes of what is there are the first of what is expected. *)
Lemma take_expected k (u fut x e : bytes) :
  u ++ fut = x ++ e → (k ≤ length u)%nat → (k ≤ length x)%nat →
  take k u = take k x ∧ drop k u ++ fut = drop k x ++ e.
Proof.
  intros Heq Hu Hx. split.
  - rewrite <- (take_app_le u fut k), <- (take_app_le x e k) by done. by rewrite Heq.
  - rewrite <- (drop_app_le u fut k), <- (drop_app_le x e k) by done. by rewrite Heq.
Qed.

(** ** Control state *)
Definition quiet (x : Control) : Prop :=
  close_received x = false ∧ close_sent x = false ∧ terminal_error x = None ∧
  (length (control_data x) ≤ 125)%nat.

(** Nothing to answer, or a pong with the payload of the ping. *)
Definition ctl_ok (x : Control) : Prop :=
  quiet x ∧
  (pending_control x = None ∨ pending_control x = Some Pong ∧ control_flush_pending x = true).

Definition step_post (client : bool) (c : Core) (fut out : bytes) (res : stepped) : Prop :=
  ∃ d c' out', res = (Ok d, c') ∧ buf_ok (un c') ∧
    expects client c' (pend (un c') ++ fut) out' ∧ out = d ++ out' ∧
    ctl_ok (ctl c') ∧ read_closed (ctl c') = read_closed (ctl c) ∧
    (d ≠ [] → control_flush_pending (ctl c') = false).

Definition idle (x : Control) : Prop :=
  quiet x ∧ pending_control x = None ∧ control_flush_pending x = false.

Lemma idle_ctl_ok x : idle x → ctl_ok x.
Proof. intros (? & ? & ?). split; auto. Qed.

(** A step that waits for more input. *)
Lemma step_waits client c fut out :
  buf_ok (un c) → idle (ctl c) → expects client c (pend (un c) ++ fut) out →
  step_post client c fut out (Ok [], c).
Proof. intros. exists [], c, out. split_and!; try done. by apply idle_ctl_ok. Qed.

(** [in_frame] looks at these fields only. *)
Definition same_frame (r r' : Reader) : Prop :=
  read_frame_final r' = read_frame_final r ∧ read_frame_masked r' = read_frame_masked r ∧
  read_frame_opcode r' = read_frame_opcode r ∧ fragmented_message r' = fragmented_message r.

Lemma in_frame_same client r r' p fs out :
  same_frame r r' → in_frame client r p fs out → in_frame client r' p fs out.
Proof.
  intros (H1 & H2 & H3 & H4). unfold in_frame, message_after. by rewrite H1, H2, H3, H4.
Qed.

Lemma in_frame_not_text client r p fs out :
  in_frame client r p fs out → reading_text_message r = false.
Proof.
  intros (_ & _ & _ & Ht & _ & Hop). unfold reading_text_message.
  rewrite (bool_decide_eq_false_2 (fragmented_message r = Some Text)) by done.
  rewrite andb_false_r, orb_false_r. apply bool_decide_eq_false_2. intros E. by rewrite E in Hop.
Qed.

Lemma skip_payload_same r k : same_frame r (skip_payload r k).
Proof.
  unfold skip_payload, same_frame. destruct (read_frame_masked r) eqn:E; [|done].
  cbn [read_frame_masked set_mask_offset read_frame_final read_frame_opcode fragmented_message]. done.
Qed.

(** A part [k] of the payload taken off. *)
Lemma in_frame_drop client r p fs out k :
  in_frame client r p fs out → is_control (read_frame_opcode r) = false →
  ∃ out', out = take k p ++ out' ∧ in_frame client r (drop k p) fs out'.
Proof.
  intros (Hm & Hp & Hl & Ht & Hfs & Hop) Hd. exists (drop k p ++ payloads fs).
  assert (Hlen : Z.of_nat (length (drop k p)) < 2 ^ 63) by (rewrite length_drop; lia).
  assert (Hsplit : p ++ payloads fs = take k p ++ drop k p ++ payloads fs)
    by (by rewrite app_assoc, take_drop).
  unfold in_frame. destruct (read_frame_opcode r) eqn:E; try done; destruct Hop as [? ->];
    (split; [done|]; split_and!; try done; by apply bytes_ok_drop).
Qed.

(** The frame is complete: the next one starts. *)
Lemma expects_next client c r out fs rest :
  in_frame client r [] fs out → same_frame r (rd c) →
  rest = encode_frames fs →
  let r' := set_state (if bool_decide (read_frame_opcode r = Continue) && read_frame_final r
                       then set_fragmented (rd c) None else rd c) Init in
  expects client (with_rd c r') rest out.
Proof.
  intros (Hm & _ & _ & Ht & Hfs & Hop) (H1 & H2 & H3 & H4) -> r'. exists fs.
  assert (Hfrag : fragmented_message r' = message_after r).
  { unfold r', message_after. destruct (_ && _); [done|]. by simpl. }
  assert (Hst : read_state r' = Init) by done. simpl rd. rewrite Hst, Hfrag. split_and!; try done.
  - unfold message_after. by destruct (_ && _).
  - destruct (read_frame_opcode r); try done; apply Hop.
Qed.

Lemma finish_data_ok client c r p fs out :
  in_frame client r p fs out → same_frame r (rd c) →
  finish_data_frame c =
    (Ok tt, if bool_decide (read_frame_opcode r = Continue) && read_frame_final r
            then with_rd c (set_fragmented (rd c) None) else c).
Proof.
  intros Hin Hs. pose proof (in_frame_not_text _ _ _ _ _ (in_frame_same _ _ _ _ _ _ Hs Hin)) as Ht.
  destruct Hs as (H1 & H2 & H3 & H4). unfold finish_data_frame. rewrite Ht, andb_false_r, andb_false_l.
  rewrite H3, H1. by destruct (_ && _).
Qed.

(** The bytes a content step takes, unmasked. *)
Lemma payload_part little c p fs fut k :
  buf_ok (un c) → (k ≤ length p)%nat → (k ≤ unprocessed_len c)%nat → bytes_ok p →
  (read_frame_masked (rd c) = true → mask_ok (read_frame_mask (rd c))) →
  pend (un c) ++ fut = masked_rest (rd c) p ++ encode_frames fs →
  ∃ x, content c k = Ok x ∧ unmask little (rd c) x = (take k p, skip_payload (rd c) k) ∧
    drop k (pend (un c)) ++ fut = masked_rest (skip_payload (rd c) k) (drop k p) ++ encode_frames fs.
Proof.
  intros Hb Hkp Hku Hp Hmask Hrest. exists (take k (pend (un c))). split; [by apply content_pend|].
  destruct (take_expected k (pend (un c)) fut (masked_rest (rd c) p) (encode_frames fs)) as [Ht Hdr];
    [done | rewrite length_pend by done; apply Hku | by rewrite length_masked_rest |].
  rewrite <- (take_drop k p) in Ht, Hdr. rewrite masked_rest_app in Ht, Hdr.
  rewrite take_app_length' in Ht by (rewrite length_masked_rest, length_take; lia).
  rewrite drop_app_length' in Hdr by (rewrite length_masked_rest, length_take; lia).
  rewrite Ht, (unmask_rest little (rd c) (take k p)) by (try done; by apply bytes_ok_take).
  rewrite length_take, Nat.min_l in * by lia. done.
Qed.

Lemma skip_payload_fields r k :
  read_frame_mask (skip_payload r k) = read_frame_mask r ∧
  read_frame_length (skip_payload r k) = read_frame_length r ∧
  read_state (skip_payload r k) = read_state r.
Proof. unfold skip_payload. by destruct (read_frame_masked r). Qed.

Lemma masked_rest_ext r r' p :
  read_frame_masked r' = read_frame_masked r → read_frame_mask r' = read_frame_mask r →
  read_frame_mask_offset r' = read_frame_mask_offset r → masked_rest r' p = masked_rest r p.
Proof. unfold masked_rest. by intros -> -> ->. Qed.

Lemma masked_rest_nil r : masked_rest r [] = [].
Proof. unfold masked_rest. by destruct (read_frame_masked r). Qed.

Lemma data_finished client c0 c r fs fut out d :
  in_frame client r [] fs out → same_frame r (rd c) → buf_ok (un c) →
  pend (un c) ++ fut = encode_frames fs → ctl c = ctl c0 → idle (ctl c0) →
  step_post client c0 fut (d ++ out)
    match finish_data_frame c with
    | (Ok _, c) => (Ok d, with_rd c (set_state (rd c) Init))
    | (Err e, c) => (Err e, c)
    | (Panic, c) => (Panic, c)
    end.
Proof.
  intros Hin Hs Hb Hrest Hc Hi. rewrite (finish_data_ok client c r [] fs out Hin Hs).
  pose proof (expects_next client c r out fs _ Hin Hs Hrest) as Hex. cbv zeta in Hex.
  eexists d, _, out. split; [reflexivity|].
  destruct (_ && _); simpl in *; rewrite Hc; (split_and!; try done; [by apply idle_ctl_ok|]);
    intros _; apply Hi.
Qed.

Lemma data_content_post little client c space fut out :
  buf_ok (un c) → idle (ctl c) → read_state (rd c) = ReadDataContent →
  expects client c (pend (un c) ++ fut) out →
  step_post client c fut out (step_read_data_content little c space).
Proof.
  intros Hb Hi Hst Hex. unfold step_read_data_content.
  destruct (space =? 0)%nat eqn:Hsp; [by apply step_waits|].
  set (k := Nat.min _ _). destruct (k =? 0)%nat eqn:Hk0; [by apply step_waits|]. to_prop.
  destruct Hex as [fs Hex]. rewrite Hst in Hex.
  destruct Hex as (p & Hin & Hne & Hlen & Hd & Hmask & Hrest).
  assert (Hk : (k ≤ length p)%nat ∧ (k ≤ unprocessed_len c)%nat) by (unfold k; lia).
  clearbody k. destruct Hk as [Hkp Hku].
  destruct (payload_part little c p fs fut k) as (x & -> & -> & Hdr); try done; [apply Hin|].
  rewrite (in_frame_not_text _ _ _ _ _ Hin). destruct Hi as (Hq & Hpc & Hfl).
  destruct (in_frame_drop _ _ _ _ _ k Hin Hd) as (out' & -> & Hin').
  pose proof (skip_payload_same (rd c) k) as Hsame.
  destruct (skip_payload_fields (rd c) k) as (Hmr & Hlr & Hsr).
  set (r1 := skip_payload (rd c) k) in *. clearbody r1.
  set (r2 := set_utf8 r1 (text_utf8_pending r1)).
  destruct (advance_pend (with_rd c r2) k Hb Hku) as (Hb' & Hp' & _ & Hc' & _).
  set (c1 := advance (with_rd c r2) k) in *. clearbody c1. simpl in Hc', Hp'.
  assert (Hcs : close_sent (ctl c) = false) by apply Hq. rewrite Hcs.
  change (read_frame_length r2) with (read_frame_length r1). rewrite Hlr, Hlen.
  assert (Hctl : ctl_ok (ctl c1)) by (rewrite Hc'; by apply idle_ctl_ok).
  destruct (_ =? 0) eqn:Hleft; to_prop.
  - assert (Hnil : drop k p = []) by (apply drop_ge; lia). rewrite Hnil in *.
    rewrite masked_rest_nil in Hdr. apply (data_finished client c _ (rd c) fs); try done.
    simpl. by rewrite Hp'.
  - eexists _, _, out'. split; [reflexivity|]. split_and!; try done; [|simpl; by rewrite Hc'|simpl; by rewrite Hc'].
    exists fs. simpl. rewrite Hsr, Hst. exists (drop k p). split_and!.
    + by eapply in_frame_same.
    + intros E%(f_equal length). rewrite length_drop in E. simpl in E. lia.
    + rewrite length_drop. lia.
    + destruct Hsame as (_ & _ & -> & _). done.
    + destruct Hsame as (_ & -> & _). by rewrite Hmr.
    + rewrite Hp'. simpl. rewrite Hdr. f_equal.
Qed.

Lemma in_frame_control client r p q fs out :
  in_frame client r p fs out → is_control (read_frame_opcode r) = true →
  bytes_ok q → (length q ≤ length p)%nat → in_frame client r q fs out.
Proof.
  intros (Hm & Hp & Hl & Ht & Hfs & Hop) Hc Hq Hle. unfold in_frame.
  destruct (read_frame_opcode r); try done; destruct Hop as [? ->]; split_and!; try done; lia.
Qed.

Lemma control_op client r p fs out :
  in_frame client r p fs out → is_control (read_frame_opcode r) = true →
  read_frame_opcode r = Ping ∨ read_frame_opcode r = Pong.
Proof.
  intros (_ & _ & _ & _ & _ & Hop) Hc. destruct (read_frame_opcode r); auto; done.
Qed.

(** A complete ping queues its answer, a pong is dropped. *)
Lemma finish_control_ok client c r p fs out :
  in_frame client r p fs out → is_control (read_frame_opcode r) = true → same_frame r (rd c) →
  idle (ctl c) →
  ∃ x, finish_control_frame c = (Ok tt, with_ctl c x) ∧ ctl_ok x ∧ read_closed x = read_closed (ctl c).
Proof.
  intros Hin Hc (_ & _ & Hop' & _) Hi. unfold finish_control_frame.
  destruct (control_op _ _ _ _ _ Hin Hc) as [Hop|Hop]; rewrite Hop', Hop.
  - eexists. split; [reflexivity|]. split; [|done]. split; [apply Hi | by right].
  - exists (ctl c). split; [by destruct c|]. split; [by apply idle_ctl_ok | done].
Qed.

(** The state after a complete control frame. *)
Lemma control_done client c0 c r fs fut out x :
  in_frame client r [] fs out → is_control (read_frame_opcode r) = true → same_frame r (rd c) →
  buf_ok (un c) → pend (un c) ++ fut = encode_frames fs →
  ctl_ok x → read_closed x = read_closed (ctl c0) →
  step_post client c0 fut out (Ok [], with_ctl (with_rd c (set_state (rd c) Init)) x).
Proof.
  intros Hin Hc Hs Hb Hrest Hx Hrc.
  pose proof (expects_next client c r out fs _ Hin Hs Hrest) as Hex. cbv zeta in Hex.
  assert (Hop : bool_decide (read_frame_opcode r = Continue) = false).
  { apply bool_decide_eq_false_2. intros E. by rewrite E in Hc. }
  rewrite Hop in Hex. cbn [andb] in Hex. eexists [], _, out. split_and!; try done.
Qed.

Lemma control_content_post little client c fut out :
  buf_ok (un c) → idle (ctl c) → read_state (rd c) = ReadControlContent →
  expects client c (pend (un c) ++ fut) out →
  step_post client c fut out (step_read_control_content little c).
Proof.
  intros Hb Hi Hst Hex. unfold step_read_control_content.
  set (k := Z.to_nat _). destruct (k =? 0)%nat eqn:Hk0; [by apply step_waits|]. to_prop.
  destruct Hex as [fs Hex]. rewrite Hst in Hex.
  destruct Hex as (p & Hin & Hne & Hlen & Hc & Hmask & H125 & Hrest).
  assert (Hk : (k ≤ length p)%nat ∧ (k ≤ unprocessed_len c)%nat) by (unfold k; lia).
  clearbody k. destruct Hk as [Hkp Hku].
  destruct (payload_part little c p fs fut k) as (x & -> & -> & Hdr); try done; [apply Hin|].
  rewrite (proj2 (Nat.ltb_ge _ _)) by (unfold MAX_CONTROL_PAYLOAD_SIZE; lia).
  destruct Hi as (Hq & Hpc & Hfl). assert (Hpb : bytes_ok p) by apply Hin.
  assert (Hin' : in_frame client (rd c) (drop k p) fs out).
  { eapply in_frame_control; [done|done|by apply bytes_ok_drop | rewrite length_drop; lia]. }
  pose proof (skip_payload_same (rd c) k) as Hsame.
  destruct (skip_payload_fields (rd c) k) as (Hmr & Hlr & Hsr).
  set (r1 := skip_payload (rd c) k) in *. clearbody r1.
  set (x1 := set_control_data (ctl c) (control_data (ctl c) ++ take k p)).
  destruct (advance_pend (with_ctl (with_rd c r1) x1) k Hb Hku) as (Hb' & Hp' & _ & Hc' & _).
  set (c1 := advance _ k) in *. clearbody c1. simpl in Hc', Hp'.
  assert (Hlx : length (control_data x1) = (length (control_data (ctl c)) + k)%nat).
  { simpl. rewrite length_app, length_take. lia. }
  assert (Hi1 : idle (ctl c1)).
  { rewrite Hc'. destruct Hq as (? & ? & ? & ?). split_and!; try done. split_and!; try done. lia. }
  rewrite Hlr, Hlen. cbv zeta. destruct (_ =? 0) eqn:Hleft; to_prop.
  - assert (Hnil : drop k p = []) by (apply drop_ge; lia). rewrite Hnil in *.
    rewrite masked_rest_nil in Hdr. set (c2 := with_rd (with_rd c1 _) _).
    destruct (finish_control_ok client c2 (rd c) [] fs out Hin' Hc Hsame Hi1) as (x' & -> & Hx & Hrc).
    apply (control_done client c (with_rd c1 (rd c2)) (rd c) fs); try done; simpl; rewrite ?Hp'; try done.
    by rewrite Hrc; simpl; rewrite Hc'.
  - exists []. eexists _, out. split; [reflexivity|]. split_and!; try done; [| |by simpl; rewrite Hc'].
    2: { by apply idle_ctl_ok. }
    exists fs. simpl. rewrite Hsr, Hst. exists (drop k p). split_and!.
    + by eapply in_frame_same.
    + intros E%(f_equal length). rewrite length_drop in E. simpl in E. lia.
    + rewrite length_drop. lia.
    + destruct Hsame as (_ & _ & -> & _). done.
    + destruct Hsame as (_ & -> & _). by rewrite Hmr.
    + rewrite Hc', Hlx, length_drop. lia.
    + by rewrite Hp', Hdr.
Qed.

(** ** The header *)

(** After the header: the payload [p] is next. *)
Definition at_body (client : bool) (c : Core) (fut out : bytes) : Prop :=
  ∃ p fs, in_frame client (rd c) p fs out ∧ read_frame_length (rd c) = Z.of_nat (length p) ∧
    (read_frame_masked (rd c) = true → mask_ok (read_frame_mask (rd c))) ∧
    pend (un c) ++ fut = masked_rest (rd c) p ++ encode_frames fs.

(** What the calls of [step_init] behind an empty frame give. *)
Definition next_ok (client : bool) (c0 : Core) (fut : bytes) (len : nat) (next : Core → stepped) : Prop :=
  ∀ c out, buf_ok (un c) → idle (ctl c) → read_state (rd c) = Init →
    read_closed (ctl c) = read_closed (ctl c0) → (length (pend (un c)) ≤ len)%nat →
    expects client c (pend (un c) ++ fut) out → step_post client c0 fut out (next c).

Lemma step_post_eq client c0 c fut out res :
  step_post client c fut out res → read_closed (ctl c) = read_closed (ctl c0) →
  step_post client c0 fut out res.
Proof.
  intros (d & c' & out' & ? & ? & ? & ? & ? & Hr & ?) Heq. exists d, c', out'.
  split_and!; try done. congruence.
Qed.

Lemma data_body_post little client c0 c p fs space fut out next len :
  buf_ok (un c) → idle (ctl c) → read_closed (ctl c) = read_closed (ctl c0) →
  in_frame client (rd c) p fs out → read_frame_length (rd c) = Z.of_nat (length p) →
  (read_frame_masked (rd c) = true → mask_ok (read_frame_mask (rd c))) →
  pend (un c) ++ fut = masked_rest (rd c) p ++ encode_frames fs →
  is_control (read_frame_opcode (rd c)) = false →
  next_ok client c0 fut len next → (length (pend (un c)) ≤ len)%nat →
  step_post client c0 fut out
    (if read_frame_length (rd c) =? 0
     then match finish_data_frame c with
          | (Ok _, c) => next (with_rd c (set_state (rd c) Init))
          | (Err e, c) => (Err e, c) | (Panic, c) => (Panic, c) end
     else step_read_data_content little (with_rd c (set_state (rd c) ReadDataContent)) space).
Proof.
  intros Hb Hi Hrc Hin Hlen Hmask Hrest Hctl Hnext Hle. destruct (_ =? 0) eqn:E; to_prop.
  - assert (p = []) as -> by (apply nil_length_inv; lia). rewrite masked_rest_nil in Hrest.
    rewrite (finish_data_ok client c (rd c) [] fs out Hin) by by split_and!.
    pose proof (expects_next client c (rd c) out fs _ Hin ltac:(by split_and!) Hrest) as Hex.
    cbv zeta in Hex. destruct (_ && _); apply Hnext; done.
  - apply (step_post_eq _ c0 (with_rd c (set_state (rd c) ReadDataContent))); [|done].
    apply data_content_post; try done. exists fs. simpl. exists p.
    split_and!; try done. intros ->. simpl in *. lia.
Qed.

Lemma control_body_post little client c0 c p fs fut out :
  buf_ok (un c) → idle (ctl c) → read_closed (ctl c) = read_closed (ctl c0) →
  in_frame client (rd c) p fs out → read_frame_length (rd c) = Z.of_nat (length p) →
  (read_frame_masked (rd c) = true → mask_ok (read_frame_mask (rd c))) →
  pend (un c) ++ fut = masked_rest (rd c) p ++ encode_frames fs →
  is_control (read_frame_opcode (rd c)) = true →
  let c1 := with_ctl c (set_control_data (ctl c) []) in
  step_post client c0 fut out
    (if read_frame_length (rd c1) =? 0
     then match finish_control_frame c1 with
          | (Ok _, c) => (Ok [], with_rd c (set_state (rd c) Init))
          | (Err e, c) => (Err e, c) | (Panic, c) => (Panic, c) end
     else step_read_control_content little (with_rd c1 (set_state (rd c1) ReadControlContent))).
Proof.
  intros Hb Hi Hrc Hin Hlen Hmask Hrest Hctl c1.
  assert (Hi1 : idle (ctl c1)).
  { destruct Hi as ((? & ? & ? & ?) & ? & ?). split_and!; try done. split_and!; try done. simpl. lia. }
  destruct (_ =? 0) eqn:E; to_prop.
  - assert (p = []) as -> by (apply nil_length_inv; simpl in E; lia). rewrite masked_rest_nil in Hrest.
    destruct (finish_control_ok client c1 (rd c) [] fs out Hin Hctl ltac:(by split_and!) Hi1)
      as (x & -> & Hx & Hrx).
    apply (control_done client c0 c (rd c) fs); try done. simpl. by rewrite Hrx.
  - apply (step_post_eq _ c0 (with_rd c1 (set_state (rd c1) ReadControlContent))); [|done].
    apply control_content_post; try done. exists fs. simpl. exists p.
    split_and!; try done; [intros ->; simpl in *; lia|].
    destruct Hin as (_ & _ & _ & _ & _ & Hop). by destruct (read_frame_opcode (rd c)); try done; simpl; lia.
Qed.

Lemma check_content_post little client c0 c space fut out next len :
  buf_ok (un c) → idle (ctl c) → read_closed (ctl c) = read_closed (ctl c0) →
  at_body client c fut out → next_ok client c0 fut len next → (length (pend (un c)) ≤ len)%nat →
  step_post client c0 fut out (step_check_content little next c space).
Proof.
  intros Hb Hi Hrc (p & fs & Hin & Hlen & Hmask & Hrest) Hnext Hle.
  pose proof (data_body_post little client c0 c p fs space fut out next len) as Hdata.
  pose proof (control_body_post little client c0 c p fs fut out) as Hcontrol.
  unfold step_check_content. pose proof Hin as (_ & _ & _ & _ & _ & Hop).
  destruct (read_frame_opcode (rd c)) eqn:E; try done; (apply Hdata || apply Hcontrol); try done;
    by rewrite E.
Qed.

Lemma read_mask_post little client c0 c space fut out next len :
  buf_ok (un c) → idle (ctl c) → read_closed (ctl c) = read_closed (ctl c0) →
  read_state (rd c) = ReadMask → expects client c (pend (un c) ++ fut) out →
  next_ok client c0 fut len next → (length (pend (un c)) ≤ len)%nat →
  step_post client c0 fut out (step_read_mask little next c space).
Proof.
  intros Hb Hi Hrc Hst Hex Hnext Hle. unfold step_read_mask.
  destruct (unprocessed_len c <? 4)%nat eqn:E; to_prop.
  { by apply (step_post_eq _ c0 c); [apply step_waits|]. }
  rewrite content_pend by done. destruct Hex as [fs Hex]. rewrite Hst in Hex.
  destruct Hex as (m & p & Hin & Hoff & Hm & Hlen & -> & Hrest).
  destruct (take_expected 4 (pend (un c)) fut m (mask_bytes p m 0 ++ encode_frames fs)) as [Ht Hdr];
    [done | rewrite length_pend by done; apply E | destruct Hm; lia|].
  rewrite (take_ge m), (drop_ge m) in * by (destruct Hm; lia). rewrite Ht.
  set (c1 := with_rd c (set_mask (rd c) m)).
  destruct (advance_pend c1 4 Hb E) as (Hb' & Hp' & Hr' & Hc' & _).
  set (c2 := advance c1 4) in *. clearbody c2. simpl in Hp', Hr', Hc'.
  apply (check_content_post _ _ _ _ _ _ _ _ len); try done; try (by rewrite Hc').
  - exists p, fs. rewrite Hr', Hp'. split; [by eapply in_frame_same|]. split_and!; try done.
    + simpl in Hdr. rewrite Hdr. unfold masked_rest. simpl. destruct Hin as (-> & _). simpl.
      by rewrite Hoff.
  - rewrite Hp', length_drop. lia.
Qed.

(** Behind the length: the mask, if any, and the payload. *)
Definition at_header (client : bool) (c : Core) (fut out : bytes) : Prop :=
  ∃ mask p fs, in_frame client (rd c) p fs out ∧ read_frame_mask_offset (rd c) = 0%nat ∧
    mask_for client mask ∧ read_frame_length (rd c) = Z.of_nat (length p) ∧
    pend (un c) ++ fut = body mask p ++ encode_frames fs.

Lemma after_length_post little client c0 c space fut out next len :
  buf_ok (un c) → idle (ctl c) → read_closed (ctl c) = read_closed (ctl c0) →
  at_header client c fut out → next_ok client c0 fut len next → (length (pend (un c)) ≤ len)%nat →
  step_post client c0 fut out (after_length little next c space).
Proof.
  intros Hb Hi Hrc (mask & p & fs & Hin & Hoff & Hmask & Hlen & Hrest) Hnext Hle.
  pose proof Hin as (Hm & _). unfold after_length, mask_for in *.
  destruct client; rewrite Hm; simpl.
  - subst mask. apply (check_content_post _ _ _ _ _ _ _ _ len); try done.
    exists p, fs. split; [done|]. rewrite Hm. split_and!; try done.
    unfold masked_rest. by rewrite Hm.
  - destruct Hmask as (m & -> & Hmok). simpl in Hrest. rewrite <- app_assoc in Hrest.
    apply (read_mask_post _ _ _ _ _ _ _ _ len); try done.
    exists fs. simpl. exists m, p. split_and!; try done; apply Hin.
Qed.

Lemma read_length_post little client c0 c n space fut out next len :
  buf_ok (un c) → idle (ctl c) → read_closed (ctl c) = read_closed (ctl c0) →
  read_state (rd c) = ReadLength n → expects client c (pend (un c) ++ fut) out →
  next_ok client c0 fut len next → (length (pend (un c)) ≤ len)%nat →
  step_post client c0 fut out (step_read_length little next c space n).
Proof.
  intros Hb Hi Hrc Hst Hex Hnext Hle. unfold step_read_length.
  destruct (unprocessed_len c <? n)%nat eqn:E; to_prop.
  { by apply (step_post_eq _ c0 c); [apply step_waits|]. }
  rewrite content_pend by done. destruct Hex as [fs Hex]. rewrite Hst in Hex.
  destruct Hex as (mask & p & Hin & Hoff & Hmask & Hn & Hctl & Hrest).
  pose proof Hin as (_ & _ & Hl63 & _).
  destruct (take_expected n (pend (un c)) fut (be_encode n (Z.of_nat (length p)))
    (body mask p ++ encode_frames fs)) as [Ht Hdr];
    [done | rewrite length_pend by done; apply E | by rewrite length_be_encode|].
  rewrite (take_ge (be_encode _ _)), (drop_ge (be_encode _ _)) in * by (by rewrite length_be_encode).
  rewrite Ht. simpl in Hdr.
  rewrite be_decode_encode_small by (destruct Hn as [[-> ?]|[-> ?]]; simpl; lia).
  destruct (advance_pend c n Hb E) as (Hb' & Hp' & Hr' & Hc' & _).
  set (c2 := advance c n) in *. clearbody c2. cbv zeta.
  assert (((n =? 2)%nat && (Z.of_nat (length p) <? 126)) = false) as ->
    by (destruct Hn as [[-> ?]|[-> ?]]; simpl; [apply Z.ltb_ge; lia | done]).
  assert (((n =? 8)%nat && (Z.of_nat (length p) <? 65536)) = false) as ->
    by (destruct Hn as [[-> ?]|[-> ?]]; simpl; [done | apply Z.ltb_ge; lia]).
  rewrite (proj2 (Z.ltb_ge _ _)) by lia.
  apply (after_length_post _ _ _ _ _ _ _ _ len); try done; simpl; rewrite ?Hc', ?Hp'; try done.
  - exists mask, p, fs. simpl. rewrite Hr', Hp'. split; [by eapply in_frame_same|]. by split_and!.
  - rewrite length_drop. lia.
Qed.

(** ** The first two bytes *)
Lemma second_byte (masked : bool) code :
  0 ≤ code < 128 →
  let second := Z.lor (if masked then 128 else 0) code in
  negb (Z.land second 128 =? 0) = masked ∧ Z.land second 127 = code.
Proof.
  intros Hc second.
  assert (Hall : Forall (λ c,
    (negb (Z.land (Z.lor 128 c) 128 =? 0) && (Z.land (Z.lor 128 c) 127 =? c) &&
     (Z.land (Z.lor 0 c) 128 =? 0) && (Z.land (Z.lor 0 c) 127 =? c)) = true)
    (Z.of_nat <$> seq 0 128)) by compute_done.
  rewrite Forall_fmap, Forall_seq in Hall. specialize (Hall (Z.to_nat code) ltac:(lia)).
  cbn [compose] in Hall. rewrite Z2Nat.id in Hall by lia.
  repeat (apply andb_true_iff in Hall as [Hall ?]). unfold second. destruct masked; to_prop; split; try done.
  - by apply negb_true_iff, Z.eqb_neq.
  - apply negb_false_iff. by apply Z.eqb_eq.
Qed.

Lemma length_code_range n :
  let '(code, ext) := length_code n in
  0 ≤ code < 128 ∧
  (code = 126 ∧ ext = be_encode 2 (Z.of_nat n) ∧ 126 ≤ Z.of_nat n ≤ 65535 ∨
   code = 127 ∧ ext = be_encode 8 (Z.of_nat n) ∧ 65535 < Z.of_nat n ∨
   code = Z.of_nat n ∧ ext = [] ∧ Z.of_nat n < 126).
Proof.
  unfold length_code. repeat (split_match; to_prop); split; try lia; auto 10 with lia.
Qed.

(** A well-formed frame starts. *)
Lemma start_frame_ok client r f fs :
  frame_ok client f → follow (fragmented_message r) f = Some fs →
  fragmented_message r ≠ Some Text →
  let '(code, _) := length_code (length (f_payload f)) in
  ∃ r', start_frame client r
      (Z.lor (opcode_byte (f_op f)) (if f_final f then 128 else 0))
      (Z.lor (match f_mask f with Some _ => 128 | None => 0 end) code) = inr (code, r') ∧
    read_frame_masked r' = negb client ∧ read_frame_final r' = f_final f ∧
    read_frame_opcode r' = f_op f ∧ read_frame_mask_offset r' = 0%nat ∧
    fragmented_message r' = (match f_op f with
      | Binary => if f_final f then None else Some Binary | _ => fragmented_message r end).
Proof.
  intros (Hmask & Hp & Hl & Hop) Hf Ht. pose proof (length_code_range (length (f_payload f))) as Hlc.
  destruct (length_code (length (f_payload f))) as [code ext]. destruct Hlc as [Hcode Hlc].
  assert (Hmb : match f_mask f with Some _ => 128 | None => 0 end = if negb client then 128 else 0).
  { unfold mask_for in Hmask. destruct client; [by rewrite Hmask | by destruct Hmask as (m & -> & _)]. }
  rewrite Hmb. destruct (second_byte (negb client) code Hcode) as [H128 H127]. cbv zeta in H128, H127.
  unfold start_frame. rewrite H128, H127.
  assert (Hfirst : negb (Z.land (Z.lor (opcode_byte (f_op f)) (if f_final f then 128 else 0)) 128 =? 0) = f_final f ∧
    negb (Z.land (Z.lor (opcode_byte (f_op f)) (if f_final f then 128 else 0)) 112 =? 0) = false ∧
    OpCode_from (Z.land (Z.lor (opcode_byte (f_op f)) (if f_final f then 128 else 0)) 15) = f_op f).
  { destruct (f_op f); try done; destruct (f_final f); done. }
  destruct Hfirst as (-> & -> & ->). simpl.
  assert (eqb client (negb client) = false) as -> by (by destruct client).
  unfold check_opcode, follow in *. simpl.
  destruct (f_op f) eqn:Eo; try done; destruct (fragmented_message r) eqn:Ef; try done; simpl;
    try (destruct Hop as [-> H125]; rewrite (proj2 (Z.ltb_ge _ _)) by (destruct Hlc as [?|[?|?]]; lia));
    destruct (f_final f); eexists; split_and!; try done; simpl; by rewrite ?Ef.
Qed.

(** A frame whose header has been taken is in progress. *)
Lemma started_in_frame client r r' f fs open :
  frame_ok client f → follow (fragmented_message r) f = Some open → frames_ok client open fs →
  fragmented_message r ≠ Some Text →
  read_frame_masked r' = negb client → read_frame_final r' = f_final f →
  read_frame_opcode r' = f_op f →
  fragmented_message r' = (match f_op f with
    | Binary => if f_final f then None else Some Binary | _ => fragmented_message r end) →
  in_frame client r' (f_payload f) fs (payloads (f :: fs)).
Proof.
  intros (_ & Hp & Hl & Hop) Hf Hfs Ht Hm Hfin Ho Hfr. unfold in_frame, message_after, payloads, follow in *.
  rewrite Hfin, Ho, Hfr, filter_cons. destruct (f_op f) eqn:E, (fragmented_message r) eqn:Er; try done;
    simpl; simplify_eq; destruct (f_final f) eqn:Ef; simplify_eq; split_and!; try done; try naive_solver.
Qed.

Lemma init_post little client space fut c0 fuel :
  ∀ len, (len < fuel)%nat → next_ok client c0 fut len (step_init little client fuel space).
Proof.
  induction fuel as [|fuel IH]; intros len Hfuel c out Hb Hi Hst Hrc Hle Hex; [lia|].
  cbn [step_init]. destruct (unprocessed_len c <? 2)%nat eqn:E; to_prop.
  { by apply (step_post_eq _ c0 c); [apply step_waits|]. }
  rewrite content_pend by done. destruct Hex as [fs Hex]. rewrite Hst in Hex.
  destruct Hex as (Hfs & Ht & Hrest & ->). pose proof (length_pend _ Hb) as Hlp.
  unfold unprocessed_len in E. destruct fs as [|f fs].
  { apply (f_equal length) in Hrest. rewrite length_app in Hrest. simpl in Hrest. lia. }
  destruct Hfs as [Hf Hfs]. destruct (follow _ f) as [open|] eqn:Hfo; [|done].
  pose proof (start_frame_ok client (rd c) f open Hf Hfo Ht) as Hsf.
  pose proof (length_code_range (length (f_payload f))) as Hlc.
  unfold encode_frames in Hrest. rewrite fmap_cons in Hrest. cbn [concat] in Hrest.
  unfold encode_frame at 1 in Hrest.
  destruct (length_code (length (f_payload f))) as [code ext].
  destruct Hsf as (r' & Hsf & Hm & Hfin & Ho & Hoff & Hfr). destruct Hlc as [Hcode Hlc].
  rewrite <- app_assoc in Hrest.
  apply (take_expected 2) in Hrest as [Htk Hdr]; [|lia | done].
  rewrite Htk. cbn [take]. cbn [drop app] in Hdr.
  destruct (advance_pend c 2 Hb) as (Hb' & Hp' & Hr' & Hc' & _); [unfold unprocessed_len; lia|].
  set (c2 := advance c 2) in *. clearbody c2. rewrite Hr', Hsf.
  pose proof (started_in_frame client (rd c) r' f fs open Hf Hfo Hfs Ht Hm Hfin Ho Hfr) as Hin.
  assert (Hle' : (length (pend (un c2)) ≤ len - 2)%nat) by (rewrite Hp', length_drop; lia).
  pose proof Hf as (Hmask & _ & Hl63 & Hfop). rewrite <- Hp', <- !app_assoc in Hdr.
  assert (Hi2 : idle (ctl c2)) by (by rewrite Hc').
  assert (Hrc2 : read_closed (ctl c2) = read_closed (ctl c0)) by (by rewrite Hc').
  specialize (IH (len - 2)%nat ltac:(lia)).
  destruct Hlc as [(-> & -> & Hlc)|[(-> & -> & Hlc)|(-> & -> & Hlc)]]; cbn [Z.eqb Pos.eqb].
  - apply (read_length_post _ _ _ _ _ _ _ _ _ (len - 2)); try done.
    exists fs. simpl. exists (f_mask f), (f_payload f). rewrite Ho. split_and!; try done; try apply Hin; auto.
    by destruct (f_op f); try done; lia.
  - apply (read_length_post _ _ _ _ _ _ _ _ _ (len - 2)); try done.
    exists fs. simpl. exists (f_mask f), (f_payload f). rewrite Ho. split_and!; try done; try apply Hin; auto.
    by destruct (f_op f); try done; lia.
  - rewrite (proj2 (Z.eqb_neq _ 126)), (proj2 (Z.eqb_neq _ 127)) by lia.
    apply (after_length_post _ _ _ _ _ _ _ _ (len - 2)); try done.
    exists (f_mask f), (f_payload f), fs. simpl. split; [by eapply in_frame_same|]. by split_and!.
Qed.

(** Any step, on any part of a sequence of frames: it takes nothing it should
    not, delivers payload only, and is ready for the rest. *)
Lemma step_correct little client c space fut out :
  buf_ok (un c) → idle (ctl c) → expects client c (pend (un c) ++ fut) out →
  step_post client c fut out (step little client c space).
Proof.
  intros Hb Hi Hex. unfold step.
  assert (Hnext : next_ok client c fut (unprocessed_len c)
    (step_init little client (S (unprocessed_len c)) space)) by (apply init_post; lia).
  assert (Hle : (length (pend (un c)) ≤ unprocessed_len c)%nat) by (by rewrite length_pend).
  destruct (read_state (rd c)) eqn:Est.
  - by apply Hnext.
  - by apply (read_length_post _ _ _ _ _ _ _ _ _ (unprocessed_len c)).
  - by apply (read_mask_post _ _ _ _ _ _ _ _ (unprocessed_len c)).
  - by apply data_content_post.
  - by apply control_content_post.
Qed.

End WsFacts.
