(* ===== verification/WebSocketPolls.v ===== *)
(** * WebSocket streams: the polls

    Every poll of a WebSocket stream of [WebSocket.v], on any transport that
    keeps the contract of [Stream.v].  Whatever the peer sends, no poll panics
    or spins and the buffers stay within their bounds.  Between two ends of
    the layer the bytes that are read are the bytes that were written. *)
From S2P Require Import Prelude Text SlideBuffer Stream WebSocket WebSocketSafety WebSocketFacts.
Local Open Scope Z_scope.

Module WsPolls.
Import Stream Ws WsSafety WsFacts.

Section polls.
Context (little : bool) (junk : nat → Z) (random_mask : nat → bytes).
Context {S : Type} `{AsyncStream S, !StreamLaws S, !FiniteReads S}.
Context (Hmasks : ∀ n, length (random_mask n) = 4%nat).
Implicit Types w : WebsocketStream (S := S).

(** ** Writing *)
Definition write_ok w : Prop :=
  (write_frame_start_offset w < length (write_frame w) ∨
   write_frame w = [] ∧ write_frame_start_offset w = 0)%nat ∧
  (length (write_frame w) ≤ MAX_PENDING_WRITE_BYTES)%nat.

(** All that has been packed, on its way or taken by the transport. *)
Definition sent w : bytes := accepted (stream w) ++ drop (write_frame_start_offset w) (write_frame w).

Definition packed (fs : list frame) : bytes :=
  concat ((λ f, pack_frame little (opcode_byte (f_op f)) (f_mask f) (f_payload f)) <$> fs).

(** What writing does not touch. *)
Definition keeps w w' : Prop :=
  is_client w' = is_client w ∧ ping_type w' = ping_type w ∧ received (stream w') = received (stream w) ∧
  rd (core w') = rd (core w) ∧ un (core w') = un (core w) ∧
  control_data (ctl (core w')) = control_data (ctl (core w)) ∧
  close_received (ctl (core w')) = close_received (ctl (core w)) ∧
  terminal_error (ctl (core w')) = terminal_error (ctl (core w)) ∧
  read_closed (ctl (core w')) = read_closed (ctl (core w)).

#[local] Instance keeps_preorder : PreOrder keeps.
Proof. split; [done|]. unfold keeps. intros w1 w2 w3. intuition congruence. Qed.

Lemma write_rounds_ok fuel w res w' :
  write_ok w → (length (write_frame w) - write_frame_start_offset w < fuel)%nat →
  write_rounds fuel w = (res, w') →
  res ≠ Panic ∧ write_ok w' ∧ keeps w w' ∧ core w' = core w ∧ sent w' = sent w ∧ masks w' = masks w ∧
  (res = Ok tt → write_frame w' = [] → (ready_reads (stream w') ≤ ready_reads (stream w))%nat).
Proof.
  revert w. induction fuel as [|fuel IH]; intros w [Hs Hm] Hfuel Hr; [lia|]. cbn [write_rounds] in Hr.
  rewrite (proj2 (Nat.ltb_ge _ _)) in Hr by (destruct Hs as [?|[-> ->]]; simpl; lia).
  destruct (_ =? 0)%nat eqn:E0 in Hr; to_prop; [by simplify_eq|].
  rewrite length_drop in E0.
  destruct (poll_write _ _) as [pr s] eqn:Ep. pose proof (write_law _ _ _ _ Ep) as [Hrec Hacc].
  destruct pr as [[e|n]|]; simplify_eq.
  - split_and!; try done. unfold sent. simpl. by rewrite Hacc.
  - destruct Hacc as [Hn Hacc]. rewrite length_drop in Hn. pose proof (ready_reads_write _ _ _ _ Ep) as Hrr.
    destruct (n =? 0)%nat eqn:En; to_prop; simplify_eq.
    { split_and!; try done. unfold sent. simpl. rewrite Hacc. simpl. by rewrite app_nil_r. }
    destruct (_ =? length _)%nat eqn:Efull in Hr; to_prop; simplify_eq.
    + split_and!; try done; [split; [by right | simpl; lia]|]. unfold sent. simpl. rewrite Hacc.
      rewrite take_ge by (rewrite length_drop; lia). by rewrite app_nil_r.
    + apply IH in Hr as (H1 & H2 & H3 & H4 & H5 & H6 & H7);
        [|split; [left; simpl; lia | done] | simpl; lia].
      split; [done|]. split; [done|]. split; [by etrans; [|exact H3]|]. split; [done|].
      split_and!; try done; [|intros; etrans; [by apply H7 | done]].
      rewrite H5. unfold sent. simpl. rewrite Hacc, <- app_assoc. f_equal.
      rewrite <- (take_drop n (drop (write_frame_start_offset w) (write_frame w))) at 2. by rewrite drop_drop.
  - split_and!; try done; [unfold sent; simpl; by rewrite Hacc|]. intros _ Hnil. simpl in Hnil. by rewrite Hnil in E0.
Qed.

Lemma do_write_ok w res w' :
  write_ok w → do_write_frame w = (res, w') →
  res ≠ Panic ∧ write_ok w' ∧ keeps w w' ∧ core w' = core w ∧ sent w' = sent w ∧ masks w' = masks w ∧
  (res = Ok tt → write_frame w' = [] → (ready_reads (stream w') ≤ ready_reads (stream w))%nat).
Proof. intros Hok. apply write_rounds_ok; [done | lia]. Qed.

(** The frame that is packed next. *)
Definition out_frame w (op : OpCode) (input : bytes) : frame :=
  mkFrame true op (if is_client w then Some (random_mask (masks w)) else None) input.

Lemma length_pack_frame op mask input :
  (match mask with Some m => length m = 4%nat | None => True end) →
  (length (pack_frame little op mask input) ≤ length input + MAX_FRAME_HEADER_SIZE)%nat ∧
  (0 < length (pack_frame little op mask input))%nat ∧
  (input = [] → (length (pack_frame little op mask input) ≤ 6)%nat).
Proof.
  intros Hm. unfold pack_frame, MAX_FRAME_HEADER_SIZE.
  assert (Hb : (length (match mask with Some m => m ++ apply_mask little input m 0 | None => input end)
    ≤ 4 + length input)%nat).
  { destruct mask; [|lia]. rewrite length_app, Hm. unfold apply_mask. by rewrite length_mask_chunks. }
  rewrite !length_app. destruct (Z.of_nat (length input) <? 126) eqn:E1.
  - simpl. split_and!; [lia | lia | intros ->; simpl in *; lia].
  - destruct (Z.of_nat (length input) <=? 65535); rewrite ?length_app, ?length_be_encode; simpl;
      split_and!; try lia; by intros ->.
Qed.

Lemma append_frame_ok w op input :
  write_ok w →
  (length (write_frame w) + length input + MAX_FRAME_HEADER_SIZE ≤ MAX_PENDING_WRITE_BYTES)%nat ∨
  input = [] ∧ (length (write_frame w) + 6 ≤ MAX_PENDING_WRITE_BYTES)%nat →
  let w' := append_frame little random_mask w (opcode_byte op) input in
  write_ok w' ∧ keeps w w' ∧ core w' = core w ∧ sent w' = sent w ++ packed [out_frame w op input] ∧
  stream w' = stream w ∧ write_frame w' ≠ [].
Proof.
  intros [Hs Hm] Hsp w'. set (f := pack_frame little (opcode_byte op)
    (if is_client w then Some (random_mask (masks w)) else None) input).
  assert (Hw : write_frame w' = write_frame w ++ f ∧
    write_frame_start_offset w' = write_frame_start_offset w) by done.
  destruct Hw as [Hw Hst]. destruct (length_pack_frame (opcode_byte op)
    (if is_client w then Some (random_mask (masks w)) else None) input) as (Hl1 & Hl2 & Hl3);
    [by destruct (is_client w)|]. fold f in Hl1, Hl2, Hl3.
  split; [|split_and!; try done].
  - split; rewrite ?Hw, ?Hst, ?length_app.
    + left. destruct Hs as [?|[-> ->]]; simpl; lia.
    + destruct Hsp as [?|[-> ?]]; [lia | specialize (Hl3 eq_refl); lia].
  - unfold sent. rewrite Hw, Hst. change (stream w') with (stream w).
    rewrite drop_app_le by (destruct Hs as [?|[-> ->]]; simpl; lia).
    unfold packed. simpl. by rewrite app_nil_r, app_assoc.
  - rewrite Hw. intros Hn. apply app_nil in Hn as [_ Hn]. rewrite Hn in Hl2. simpl in Hl2. lia.
Qed.

(** The end of [poll_flush_pending_control]: the frames, then the transport. *)
Definition write_and_flush w : poll_result (S := S) :=
  if negb (length (write_frame w) =? 0)%nat then
    match do_write_frame w with
    | (Ok _, w) => if negb (length (write_frame w) =? 0)%nat then (Pending, w) else flush_control w
    | (Err e, w) => (Ready (Err e), w)
    | (Panic, w) => (Ready Panic, w)
    end
  else flush_control w.

Definition same_pending w w' : Prop :=
  pending_control (ctl (core w')) = pending_control (ctl (core w)) ∧
  close_sent (ctl (core w')) = close_sent (ctl (core w)).

(** What a poll that flushes leaves. *)
Definition flush_done w (res : Poll (outcome unit)) w' : Prop :=
  match res with
  | Ready (Ok _) =>
      control_flush_pending (ctl (core w')) = false ∧ write_frame w' = [] ∧
      (ready_reads (stream w') ≤ ready_reads (stream w))%nat
  | Ready Panic => False
  | _ => control_flush_pending (ctl (core w')) = control_flush_pending (ctl (core w))
  end.

Lemma flush_control_ok w res w' :
  write_ok w → write_frame w = [] → flush_control w = (res, w') →
  write_ok w' ∧ keeps w w' ∧ sent w' = sent w ∧ same_pending w w' ∧ masks w' = masks w ∧ flush_done w res w'.
Proof.
  intros Hok Hnil Hr. unfold flush_control in Hr. destruct (poll_flush _) as [pr s] eqn:Ep.
  pose proof (flush_law _ _ _ Ep) as [Hrec Hacc].
  destruct pr as [[e|[]]|]; simplify_eq; split_and!; try done; try (unfold sent; simpl; by rewrite Hacc);
    simpl; try apply Hok; split_and!; try done. by eapply ready_reads_flush.
Qed.

Lemma write_and_flush_ok w res w' :
  write_ok w → write_and_flush w = (res, w') →
  write_ok w' ∧ keeps w w' ∧ sent w' = sent w ∧ same_pending w w' ∧ masks w' = masks w ∧ flush_done w res w'.
Proof.
  intros Hok Hr. unfold write_and_flush in Hr. destruct (negb _) eqn:E; to_prop.
  - destruct (do_write_frame w) as [r1 w1] eqn:Ew. apply do_write_ok in Ew as (Hnp & Hok1 & Hk & Hc & Hs & Hm & Hrr); [|done].
    assert (Hsp : same_pending w w1) by (unfold same_pending; by rewrite Hc).
    destruct r1 as [[]|e|]; [|simplify_eq; split_and!; try done; try apply Hsp; simpl; by rewrite ?Hc|done].
    destruct (negb _) eqn:E1; to_prop.
    { simplify_eq. split_and!; try done; try apply Hsp; simpl; by rewrite ?Hc. }
    apply nil_length_inv in E1.
    apply flush_control_ok in Hr as (Hok2 & Hk2 & Hs2 & Hsp2 & Hm2 & Hd2); [|done..].
    split; [done|]. split; [by etrans|]. split; [congruence|].
    split; [destruct Hsp, Hsp2; split; congruence|]. split; [congruence|].
    unfold flush_done in *. destruct res as [[| |]|]; try (by rewrite <- ?Hc).
    destruct Hd2 as (? & ? & ?). split_and!; try done. specialize (Hrr eq_refl E1). lia.
  - apply nil_length_inv in E. by apply flush_control_ok in Hr.
Qed.

(** A pending control frame has been packed. *)
Definition control_packed w w' : Prop :=
  ∃ op, pending_control (ctl (core w)) = Some op ∧ (op = Close ∨ op = Pong) ∧
    sent w' = sent w ++ packed [out_frame w op (control_data (ctl (core w)))] ∧
    pending_control (ctl (core w')) = None ∧
    close_sent (ctl (core w')) = bool_decide (op = Close) || close_sent (ctl (core w)).

Lemma pack_pending_ok w :
  write_ok w → ctl_bounded (ctl (core w)) →
  (pack_pending_control_frame little random_mask w = Some (false, w) ∧ write_frame w ≠ []) ∨
  ∃ w', pack_pending_control_frame little random_mask w = Some (true, w') ∧
    write_ok w' ∧ keeps w w' ∧ stream w' = stream w ∧
    control_flush_pending (ctl (core w')) = control_flush_pending (ctl (core w)) ∧
    (w' = w ∧ pending_control (ctl (core w)) = None ∨ control_packed w w').
Proof.
  intros Hok [Hl Hp]. unfold pack_pending_control_frame.
  destruct (pending_control (ctl (core w))) as [op|] eqn:Epc; [|right; exists w; by split_and!; auto].
  destruct (_ <? _)%nat eqn:Esp; to_prop; unfold write_frame_space in Esp.
  { left. split; [done|]. intros Hn. rewrite Hn in Esp. cbn [length] in Esp.
    unfold MAX_CONTROL_PAYLOAD_SIZE, MAX_FRAME_HEADER_SIZE, MAX_PENDING_WRITE_BYTES in *. lia. }
  right. assert (Hop : op = Close ∨ op = Pong) by (destruct Hp as [?|[[= ->]|[= ->]]]; auto; done).
  destruct (append_frame_ok w op (control_data (ctl (core w))) Hok) as (Hok' & Hk & Hc & Hs & Hst & _); [left; unfold MAX_FRAME_HEADER_SIZE in *; lia|].
  destruct Hop as [-> | ->]; (eexists; split; [reflexivity|]; split; [exact Hok'|]; split; [done|];
    split; [done|]; split; [done|]; right);
    (eexists; split_and!; [done | by auto | exact Hs | done..]).
Qed.

(** What [poll_flush_pending_control] leaves. *)
Definition flush_post w (res : Poll (outcome unit)) w' : Prop :=
  write_ok w' ∧ keeps w w' ∧ flush_done w res w' ∧
  (sent w' = sent w ∧ same_pending w w' ∨ control_packed w w') ∧
  (∀ u, res = Ready (Ok u) → pending_control (ctl (core w')) = None).

Lemma flush_rounds_ok fuel w res w' :
  write_ok w → ctl_bounded (ctl (core w)) →
  ((if bool_decide (write_frame w = []) then 1 else 2) ≤ fuel)%nat →
  flush_rounds little random_mask fuel w = (res, w') → flush_post w res w'.
Proof.
  revert w. induction fuel as [|fuel IH]; intros w Hok Hb Hf Hr; [destruct (bool_decide _); lia|].
  cbn [flush_rounds] in Hr.
  destruct (pack_pending_ok w Hok Hb) as [[Hp Hne]|(w1 & Hp & Hok1 & Hk1 & Hst1 & Hfp1 & Hpk)]; rewrite Hp in Hr; simpl in Hr.
  - rewrite bool_decide_eq_false_2 in Hf by done. destruct (do_write_frame w) as [r1 w1] eqn:Ew.
    apply do_write_ok in Ew as (Hnp & Hok1 & Hk & Hc & Hs & Hm & Hrr); [|done].
    assert (Hsp : same_pending w w1) by (unfold same_pending; by rewrite Hc).
    destruct r1 as [[]|e|]; [|simplify_eq; split_and!; try done; [simpl; by rewrite Hc | by auto]|done].
    destruct (negb _) eqn:E1; to_prop.
    { simplify_eq. split_and!; try done; [simpl; by rewrite Hc | by auto]. }
    apply nil_length_inv in E1. specialize (Hrr eq_refl E1).
    apply IH in Hr as (Hok2 & Hk2 & Hd2 & Hs2 & Hp2); [|done | by rewrite Hc | rewrite bool_decide_eq_true_2 by done; lia].
    split; [done|]. split; [by etrans|]. split; [|split; [|done]].
    + unfold flush_done in *. destruct res as [[| |]|]; try (by rewrite <- ?Hc).
      destruct Hd2 as (? & ? & ?). split_and!; try done. lia.
    + destruct Hs2 as [[Hs2 Hsp2]|(op & H1 & H2 & H3 & H4 & H5)]; [left|right].
      * split; [congruence|]. destruct Hsp, Hsp2. split; congruence.
      * exists op. unfold out_frame in *. destruct Hk as (Hcl & _). rewrite Hc, Hs, Hcl, Hm in *. done.
  - change (write_and_flush w1 = (res, w')) in Hr.
    apply write_and_flush_ok in Hr as (Hok2 & Hk2 & Hs2 & [Hsp2 Hcs2] & Hm2 & Hd2); [|done].
    split; [done|]. split; [by etrans|]. split; [|split].
    + unfold flush_done in *. rewrite Hst1, Hfp1 in Hd2. done.
    + destruct Hpk as [[-> Hn]|(op & H1 & H2 & H3 & H4 & H5)]; [by left|right].
      exists op. split_and!; congruence.
    + intros _ _. rewrite Hsp2. by destruct Hpk as [[-> Hn]|(op & H1 & H2 & H3 & H4 & H5)].
Qed.

Lemma poll_flush_pending_ok w res w' :
  write_ok w → ctl_bounded (ctl (core w)) →
  poll_flush_pending_control little random_mask w = (res, w') → flush_post w res w'.
Proof. intros. eapply flush_rounds_ok; [done..| |done]. destruct (bool_decide _); lia. Qed.

(** ** Reading from the transport *)
Lemma reset_ok u :
  buf_ok u → has_gap u = true →
  ∃ u', reset_unprocessed_buf_offset u = Ok u' ∧ buf_ok u' ∧ pend u' = pend u ∧
    unprocessed_start_offset u' = 0%nat ∧
    length (lazy_buf (unprocessed_buf u')) = length (lazy_buf (unprocessed_buf u)).
Proof.
  intros (Hsz & Hl & Hb & He) Hg. unfold reset_unprocessed_buf_offset. fold (has_gap u). rewrite Hg.
  unfold has_gap in Hg. apply andb_true_iff in Hg as [Hg1 Hg2]. to_prop.
  rewrite slice_Ok by lia. cbn [mbind outcome_bind]. eexists. split; [reflexivity|]. set (data := take _ _).
  assert (Hd : length data = (unprocessed_end_offset u - unprocessed_start_offset u)%nat)
    by (unfold data; rewrite length_take, length_drop; lia).
  assert (Hlen : length (data ++ drop (length data) (lazy_buf (unprocessed_buf u))) =
    length (lazy_buf (unprocessed_buf u))) by (rewrite length_app, length_drop; lia).
  split; [split_and!; simpl; rewrite ?Hlen; try done; lia|]. split; [|done]. unfold pend. simpl.
  rewrite Nat.sub_0_r, drop_0. fold data. by rewrite take_app_length'.
Qed.

Lemma compact_half_ok u :
  buf_ok u → ∃ u', compact_half u = Ok u' ∧ buf_ok u' ∧ pend u' = pend u ∧
    length (lazy_buf (unprocessed_buf u')) = length (lazy_buf (unprocessed_buf u)).
Proof.
  intros Hb. unfold compact_half. destruct (has_gap u) eqn:E; simpl; [|by exists u].
  destruct (_ <? _)%nat; [|by exists u]. destruct (reset_ok u Hb E) as (u' & ? & ? & ? & _ & ?). by exists u'.
Qed.

Lemma compact_all_ok u :
  buf_ok u → ∃ u', compact_all u = Ok u' ∧ buf_ok u' ∧ pend u' = pend u ∧
    unprocessed_start_offset u' = 0%nat.
Proof.
  intros Hb. unfold compact_all. destruct (has_gap u) eqn:E.
  - destruct (reset_ok u Hb E) as (u' & ? & ? & ? & ? & _). by exists u'.
  - exists u. split_and!; try done. destruct Hb as (_ & _ & Hb & He). unfold has_gap in E.
    apply andb_false_iff in E as [E|E]; to_prop; lia.
Qed.

Lemma read_ensure_ok u :
  buf_ok u →
  let u' := mkUnprocessed (ensure junk (unprocessed_buf u)) (unprocessed_start_offset u) (unprocessed_end_offset u) in
  buf_ok u' ∧ pend u' = pend u ∧ length (lazy_buf (unprocessed_buf u')) = READ_BUFFER_SIZE.
Proof.
  intros (Hsz & Hl & Hb & He). unfold ensure. destruct (_ =? 0)%nat eqn:E; to_prop.
  - assert (Hal : length (Slide.allocate_vec junk (lazy_size (unprocessed_buf u))) = READ_BUFFER_SIZE)
      by (by rewrite Slide.length_allocate).
    cbv zeta. split; [split_and!; cbn [lazy_size lazy_buf unprocessed_buf unprocessed_start_offset unprocessed_end_offset];
      rewrite ?Hal; try done; lia|]. split; [|done]. unfold pend.
    cbn [lazy_buf unprocessed_buf unprocessed_start_offset unprocessed_end_offset].
    replace (unprocessed_end_offset u) with 0%nat by lia. done.
  - destruct Hl as [?|Hl]; [lia|]. cbv zeta. split; [|done]. unfold buf_ok. simpl. auto.
Qed.

Lemma read_fill_ok u bs :
  buf_ok u → unprocessed_start_offset u = 0%nat → bs ≠ [] →
  length (lazy_buf (unprocessed_buf u)) = READ_BUFFER_SIZE →
  (unprocessed_end_offset u + length bs ≤ READ_BUFFER_SIZE)%nat →
  let buf := lazy_buf (unprocessed_buf u) in
  let end_ := unprocessed_end_offset u in
  let u' := mkUnprocessed (mkLazy (take end_ buf ++ bs ++ drop (end_ + length bs) buf)
              (lazy_size (unprocessed_buf u))) (unprocessed_start_offset u) (end_ + length bs) in
  buf_ok u' ∧ pend u' = pend u ++ bs.
Proof.
  intros (Hsz & _ & Hb & _) Hs Hne Hl Hroom buf end_ u'.
  assert (Hb0 : (0 < length bs)%nat) by (destruct bs; [done | simpl; lia]).
  assert (Htk : length (take end_ buf) = end_) by (rewrite length_take; unfold end_, buf; lia).
  assert (Hlen : length (take end_ buf ++ bs ++ drop (end_ + length bs) buf) = READ_BUFFER_SIZE).
  { rewrite !length_app, Htk, length_drop. unfold end_, buf. lia. }
  split; [split_and!; simpl; rewrite ?Hlen; auto; lia|]. unfold pend. simpl.
  rewrite Hs, !drop_0, !Nat.sub_0_r. fold end_ buf.
  rewrite app_assoc, take_app_length' by (rewrite length_app; lia). done.
Qed.

Lemma read_release_ok u :
  buf_ok u → unprocessed_end_offset u = 0%nat →
  let u' := mkUnprocessed (release (unprocessed_buf u)) (unprocessed_start_offset u) (unprocessed_end_offset u) in
  buf_ok u' ∧ pend u' = pend u.
Proof.
  intros (Hsz & Hl & Hb & _) He. unfold release, buf_ok, pend.
  destruct (length (lazy_buf (unprocessed_buf u)) =? 0)%nat eqn:E; to_prop; simpl; rewrite He; split_and!; auto; lia.
Qed.

(** The part of the stream that reading from the transport leaves alone. *)
Definition same_side w w' : Prop :=
  is_client w' = is_client w ∧ ping_type w' = ping_type w ∧ rd (core w') = rd (core w) ∧
  write_frame w' = write_frame w ∧ write_frame_start_offset w' = write_frame_start_offset w ∧
  masks w' = masks w ∧ accepted (stream w') = accepted (stream w).

Definition arrived w (bs : bytes) w' : Prop :=
  buf_ok (un (core w')) ∧ pend (un (core w')) = pend (un (core w)) ++ bs ∧
  received (stream w') = received (stream w) ++ bs ∧ ctl (core w') = ctl (core w).

Definition transport_post w (res : (Poll (outcome bytes) * WebsocketStream) + WebsocketStream) : Prop :=
  match res with
  | inr w' => same_side w w' ∧ (∃ bs, arrived w bs w') ∧
              (ready_reads (stream w') < ready_reads (stream w))%nat
  | inl (Ready Panic, _) => False
  | inl (Ready (Ok d), w') =>
      d = [] ∧ same_side w w' ∧ received (stream w') = received (stream w) ∧
      ctl (core w') = set_read_closed (ctl (core w)) ∧ lazy_buf (unprocessed_buf (un (core w'))) = []
  | inl (_, w') => same_side w w' ∧ arrived w [] w'
  end.

Lemma read_transport_ok w :
  buf_ok (un (core w)) → (unprocessed_len (core w) < 8)%nat → transport_post w (read_transport junk w).
Proof.
  intros Hb Hlen. unfold read_transport. destruct (compact_all_ok _ Hb) as (u1 & -> & Hb1 & Hp1 & Hs1).
  destruct (read_ensure_ok u1 Hb1) as (Hb2 & Hp2 & Hl2). cbv zeta.
  set (u := mkUnprocessed (ensure junk (unprocessed_buf u1)) _ _) in *.
  assert (Hpl : length (pend u) = unprocessed_len (core w)) by (rewrite Hp2, Hp1; by apply length_pend).
  rewrite length_pend in Hpl by done.
  assert (Hs : unprocessed_start_offset u = 0%nat) by done.
  assert (Hpu : pend u = pend (un (core w))) by congruence. clearbody u. clear Hp2 Hb1 Hp1 Hs1 u1.
  assert (Hroom : (unprocessed_end_offset u < READ_BUFFER_SIZE)%nat) by (unfold READ_BUFFER_SIZE; lia).
  rewrite Hl2, (proj2 (Nat.eqb_neq _ _)), slice_Ok by lia.
  destruct (poll_read _ _) as [pr s] eqn:Ep. simpl in Ep. pose proof (read_law _ _ _ _ Ep) as [Hacc Hrec].
  destruct pr as [[e|bs]|].
  - simpl. split; [done|]. split_and!; try done; simpl; by rewrite ?app_nil_r.
  - destruct (length bs =? 0)%nat eqn:E0; to_prop.
    + apply nil_length_inv in E0 as ->. rewrite app_nil_r in Hrec. simpl. split_and!; try done; [apply Hrec|].
      unfold release. by destruct (lazy_buf (unprocessed_buf u)).
    + destruct Hrec as [Hn Hrec]. rewrite length_take, length_drop in Hn.
      destruct (read_fill_ok u bs) as [Hbf Hpf]; [done..| by intros -> | done | lia|].
      simpl. split; [done|]. split; [|destruct bs as [|x bs]; [done | by eapply ready_reads_law]].
      exists bs. split; [exact Hbf|]. split; [|done]. simpl. by rewrite <- Hpu.
  - destruct (_ =? 0)%nat eqn:E0; to_prop; simpl; (split; [done|]).
    + destruct (read_release_ok u Hb2 E0) as [Hbr Hpr]. split; [exact Hbr|].
      split_and!; simpl; rewrite ?app_nil_r; try done. by rewrite <- Hpu.
    + split_and!; try done; simpl; by rewrite ?app_nil_r.
Qed.

(** ** What an operation may do *)

(** The reading side is in use: neither closed nor waiting to report an error. *)
Definition live w : Prop :=
  terminal_error (ctl (core w)) = None ∧ read_closed (ctl (core w)) = false.

Definition ws_ok w : Prop :=
  write_ok w ∧ ctl_bounded (ctl (core w)) ∧
  (length (lazy_buf (unprocessed_buf (un (core w)))) ≤ READ_BUFFER_SIZE)%nat ∧
  (live w → core_ok (core w)).

Definition bytes_inv w : Prop :=
  bytes_ok (control_data (ctl (core w))) ∧ (live w → core_bytes (core w)).

(** The frames that leave: whole, masked by a client only, control frames short,
    and a close frame only if the closing handshake is on. *)
Definition out_ok (client closing : bool) (f : frame) : Prop :=
  f_final f = true ∧
  (if client then ∃ i, f_mask f = Some (random_mask i) else f_mask f = None) ∧
  (length (f_payload f) ≤ MAX_PENDING_WRITE_BYTES)%nat ∧
  match f_op f with
  | Binary => True
  | Ping | Pong => (length (f_payload f) ≤ 125)%nat
  | Close => closing = true
  | _ => False
  end.

Record evolves w (fs : list frame) w' : Prop := {
  ev_ok : ws_ok w';
  ev_client : is_client w' = is_client w;
  ev_ping : ping_type w' = ping_type w;
  ev_received : received (stream w) `prefix_of` received (stream w');
  ev_sent : sent w' = sent w ++ packed fs;
  ev_closing : close_sent (ctl (core w)) = true → close_sent (ctl (core w')) = true;
  ev_out : Forall (out_ok (is_client w) (close_sent (ctl (core w')))) fs;
  ev_bytes : bytes_ok (received (stream w')) → bytes_inv w →
    bytes_inv w' ∧ Forall (λ f, is_data (f_op f) = true ∨ bytes_ok (f_payload f)) fs }.

Lemma packed_app fs fs' : packed (fs ++ fs') = packed fs ++ packed fs'.
Proof. unfold packed. by rewrite fmap_app, concat_app. Qed.

Lemma out_ok_mono client closing closing' f :
  (closing = true → closing' = true) → out_ok client closing f → out_ok client closing' f.
Proof. intros Hc (? & ? & ? & Ho). split_and!; try done. destruct (f_op f); auto. Qed.

Lemma bytes_ok_prefix xs ys : xs `prefix_of` ys → bytes_ok ys → bytes_ok xs.
Proof. intros [zs ->]. rewrite bytes_ok_app. by intros [? _]. Qed.

Lemma evolves_refl w : ws_ok w → evolves w [] w.
Proof. intros. split; try done. by rewrite app_nil_r. Qed.

Lemma evolves_trans w fs w1 fs1 w2 :
  evolves w fs w1 → evolves w1 fs1 w2 → evolves w (fs ++ fs1) w2.
Proof.
  intros [H1 H2 H3 H4 H5 H6 H7 H8] [G1 G2 G3 G4 G5 G6 G7 G8]. split; try congruence; auto.
  - by etrans.
  - by rewrite G5, H5, packed_app, app_assoc.
  - apply Forall_app. rewrite H2 in G7. split; [|done].
    eapply Forall_impl; [exact H7|]. intros f. by apply out_ok_mono.
  - intros Hb Hi. destruct (H8 (bytes_ok_prefix _ _ G4 Hb) Hi) as [Hi1 Hf].
    destruct (G8 Hb Hi1) as [Hi2 Hf1]. split; [done | by apply Forall_app].
Qed.

(** A change of nothing but the output side. *)
Lemma keeps_ok w w' :
  ws_ok w → keeps w w' → write_ok w' →
  (pending_control (ctl (core w')) = pending_control (ctl (core w)) ∨ pending_control (ctl (core w')) = None) →
  ws_ok w'.
Proof.
  intros (_ & Hc & Hl & Hcore) (_ & _ & _ & Hrd & Hun & Hcd & Hcr & Ht & Hrc) Hw Hp.
  assert (Hc' : ctl_bounded (ctl (core w'))).
  { destruct Hc as [? Hpc]. split; [by rewrite Hcd|]. destruct Hp as [-> | ->]; auto. }
  split; [done|]. split; [done|]. split; [by rewrite Hun|].
  intros [Hl1 Hl2]. rewrite Ht in Hl1. rewrite Hrc in Hl2. destruct (Hcore (conj Hl1 Hl2)) as (Hb & _ & Hs).
  split; [by rewrite Hun|]. split; [done|]. unfold state_ok. by rewrite Hrd, Hcd.
Qed.

Lemma keeps_bytes w w' : keeps w w' → bytes_inv w → bytes_inv w'.
Proof.
  intros (_ & _ & _ & Hrd & Hun & Hcd & Hcr & Ht & Hrc) [Hb1 Hb2].
  unfold bytes_inv, live, core_bytes. by rewrite Hrd, Hun, Hcd, Ht, Hrc.
Qed.

Lemma evolves_keeps w fs w' :
  ws_ok w → keeps w w' → write_ok w' →
  (pending_control (ctl (core w')) = pending_control (ctl (core w)) ∨ pending_control (ctl (core w')) = None) →
  sent w' = sent w ++ packed fs →
  (close_sent (ctl (core w)) = true → close_sent (ctl (core w')) = true) →
  Forall (out_ok (is_client w) (close_sent (ctl (core w')))) fs →
  (bytes_inv w → Forall (λ f, is_data (f_op f) = true ∨ bytes_ok (f_payload f)) fs) →
  evolves w fs w'.
Proof.
  intros Hok Hk Hw Hp Hs Hc Ho Hb. pose proof Hk as (? & ? & Hr & _). split; try done.
  - by eapply keeps_ok.
  - by rewrite Hr.
  - intros _ Hi. split; [by eapply keeps_bytes | auto].
Qed.

Lemma do_write_evolves w res w' :
  ws_ok w → do_write_frame w = (res, w') → res ≠ Panic ∧ evolves w [] w'.
Proof.
  intros Hok Hr. apply do_write_ok in Hr as (Hnp & Hw & Hk & Hc & Hs & _); [|apply Hok].
  split; [done|]. apply evolves_keeps; try done; rewrite ?Hc, ?app_nil_r; auto.
Qed.

Lemma out_frame_ok w op input closing :
  (length input ≤ MAX_PENDING_WRITE_BYTES)%nat →
  match op with
  | Binary => True
  | Ping | Pong => (length input ≤ 125)%nat
  | Close => closing = true
  | _ => False
  end →
  out_ok (is_client w) closing (out_frame w op input).
Proof. intros Hl Hop. unfold out_ok, out_frame. simpl. split_and!; try done. destruct (is_client w); eauto. Qed.

Lemma flush_evolves w res w' :
  ws_ok w → poll_flush_pending_control little random_mask w = (res, w') →
  res ≠ Ready Panic ∧ flush_post w res w' ∧ ∃ fs, evolves w fs w' ∧ payloads fs = [].
Proof.
  intros Hok Hr. pose proof Hok as (Hw & Hb & _). apply poll_flush_pending_ok in Hr as Hp; [|done..].
  pose proof Hp as (Hw' & Hk & Hd & Hs & _). split; [by intros ->|]. split; [done|].
  destruct Hs as [[Hs [Hp1 Hp2]]|(op & H1 & H2 & H3 & H4 & H5)].
  - exists []. split; [|done]. apply evolves_keeps; try done; rewrite ?app_nil_r, ?Hp2; auto.
  - eexists. split; [apply evolves_keeps; try exact H3; try done|].
    + by right.
    + rewrite H5. intros ->. apply orb_true_r.
    + constructor; [|done]. destruct Hb as [Hl _]. apply out_frame_ok.
      * unfold MAX_CONTROL_PAYLOAD_SIZE, MAX_PENDING_WRITE_BYTES in *. lia.
      * destruct H2 as [-> | ->]; [by rewrite H5 | exact Hl].
    + intros [? _]. constructor; [by right | done].
    + by destruct H2 as [-> | ->].
Qed.

(** An operation that sends no data of its own. *)
Definition talks w w' : Prop := ∃ fs, evolves w fs w' ∧ payloads fs = [].

Lemma talks_refl w : ws_ok w → talks w w.
Proof. intros. exists []. split; [by apply evolves_refl | done]. Qed.

Lemma payloads_app fs fs' : payloads (fs ++ fs') = payloads fs ++ payloads fs'.
Proof. unfold payloads. by rewrite filter_app, fmap_app, concat_app. Qed.

Lemma talks_trans w w1 w2 : talks w w1 → talks w1 w2 → talks w w2.
Proof.
  intros (fs & He & Hp) (fs1 & He1 & Hp1). exists (fs ++ fs1).
  split; [by eapply evolves_trans | by rewrite payloads_app, Hp, Hp1].
Qed.

(** A change of nothing but what has been read. *)
Lemma talks_read w w' :
  ws_ok w' → is_client w' = is_client w → ping_type w' = ping_type w → sent w' = sent w →
  received (stream w) `prefix_of` received (stream w') →
  close_sent (ctl (core w')) = close_sent (ctl (core w)) →
  (bytes_ok (received (stream w')) → bytes_inv w → bytes_inv w') → talks w w'.
Proof.
  intros Hok Hc Hp Hs Hr Hcl Hb. exists []. split; [|done].
  split; try done; [by rewrite Hs, app_nil_r | by rewrite Hcl | auto].
Qed.

Lemma read_closed_talks w :
  ws_ok w → talks w (with_control w (set_read_closed (ctl (core w)))).
Proof.
  intros (Hw & Hc & Hl & Hcore). apply talks_read; try done.
  - split; [done|]. split; [done|]. split; [done|]. by intros [_ ?].
  - intros _ [Hb1 Hb2]. split; [done|]. by intros [_ ?].
Qed.

Lemma fail_terminal_talks w message :
  ws_ok w → talks w (fail_terminal w message).2.
Proof.
  intros (Hw & Hc & Hl & Hcore). simpl. apply talks_read; try done.
  - split; [done|]. split; [done|]. split; [done|]. by intros [_ ?].
  - intros _ [Hb1 Hb2]. split; [done|]. by intros [_ ?].
Qed.

Lemma flush_talks w res w' :
  ws_ok w → poll_flush_pending_control little random_mask w = (res, w') →
  res ≠ Ready Panic ∧ flush_post w res w' ∧ talks w w'.
Proof. intros Hok Hr. apply flush_evolves in Hr as (? & ? & ?); done. Qed.

(** Bytes that arrive from the transport. *)
Lemma arrived_talks w bs w' :
  ws_ok w → core_ok (core w) → same_side w w' → arrived w bs w' → talks w w'.
Proof.
  intros (Hw & Hc & Hl & _) (_ & _ & Hs) (S1 & S2 & S3 & S4 & S5 & S6 & S7) (A1 & A2 & A3 & A4).
  apply talks_read; try done.
  - split; [unfold write_ok; by rewrite S4, S5|]. rewrite A4. split; [done|].
    split; [destruct A1 as (_ & A1 & _); lia|]. intros _. split; [done|]. split; [by rewrite A4|].
    unfold state_ok. by rewrite S3, A4.
  - unfold sent. by rewrite S4, S5, S7.
  - rewrite A3. by exists bs.
  - by rewrite A4.
  - rewrite A3, bytes_ok_app. intros [_ Hbs] [Hb1 Hb2]. split; [by rewrite A4|].
    unfold live, core_bytes. rewrite A2, A4, S3, bytes_ok_app. intros Hlive. destruct (Hb2 Hlive) as (? & ? & ?). done.
Qed.

Lemma transport_talks w :
  ws_ok w → live w → (unprocessed_len (core w) < 8)%nat →
  match read_transport junk w with
  | inl (r, w') => r ≠ Ready Panic ∧ talks w w'
  | inr w' => talks w w' ∧ live w' ∧ (ready_reads (stream w') < ready_reads (stream w))%nat ∧
              (unprocessed_len (core w') ≤ READ_BUFFER_SIZE)%nat
  end.
Proof.
  intros Hok Hlive Hlen. pose proof Hok as (Hw & Hc & Hl & Hcore). specialize (Hcore Hlive).
  pose proof (read_transport_ok w (proj1 Hcore) Hlen) as Hp. unfold transport_post in Hp.
  destruct (read_transport junk w) as [[r w']|w'].
  - destruct r as [[d|e|]|]; [|split; [done|]|done|split; [done|]];
      [|destruct Hp as [??]; by eapply arrived_talks..].
    destruct Hp as (-> & (S1 & S2 & S3 & S4 & S5 & S6 & S7) & Hr & Hctl & Hbuf). split; [done|].
    apply talks_read; try done; [|unfold sent; by rewrite S4, S5, S7 | by rewrite Hr | by rewrite Hctl|].
    + split; [unfold write_ok; by rewrite S4, S5|]. rewrite Hctl. split; [done|].
      split; [rewrite Hbuf; simpl; lia|]. intros [_ Hx]. by rewrite Hctl in Hx.
    + intros _ [Hb1 Hb2]. split; [by rewrite Hctl|]. intros [_ Hx]. by rewrite Hctl in Hx.
  - destruct Hp as (Hs & [bs Ha] & Hrr). split; [by eapply arrived_talks|].
    destruct Ha as (A1 & A2 & A3 & A4). split; [unfold live; by rewrite A4|]. split; [done|].
    destruct A1 as (_ & A1 & A1' & _). unfold unprocessed_len. lia.
Qed.

(** A step of the parser, on the stream it belongs to. *)
Lemma step_talks w space res c' :
  ws_ok w → live w → (0 < space)%nat → (0 < unprocessed_len (core w))%nat →
  step little (is_client w) (core w) space = (res, c') →
  res ≠ Panic ∧ same_rest (core w) c' ∧
  match res with
  | Ok d => talks w (with_core w c') ∧
      (d = [] ∧ c' = core w ∧ (unprocessed_len c' < need (rd c') ≤ 8)%nat ∨
       (unprocessed_len c' < unprocessed_len (core w))%nat)
  | _ => ∀ e, talks w (with_core w (with_ctl c' (queue_error (ctl c') (error_close_code (rd c')) (emsg e))))
  end.
Proof.
  intros Hok Hlive Hsp Hpos Hst. pose proof Hok as (Hw & Hc & Hl & Hcore). specialize (Hcore Hlive).
  destruct (step_safe_all little (is_client w) (core w) space Hcore Hsp) as [[Hwait Hneed]|Hsafe].
  { rewrite Hst in Hwait. simplify_eq. split; [done|]. split; [done|].
    replace (with_core w (core w)) with w by (by destruct w). split; [by apply talks_refl | by left]. }
  rewrite Hst in Hsafe. destruct Hsafe as (Hnp & Hs & Hb & Hok'). simpl in Hnp, Hs, Hb, Hok'.
  split; [done|]. split; [done|]. pose proof Hs as (Hs1 & Hs2 & Hs3 & Hs4).
  destruct res as [d|e|]; [|intros e0|done].
  - destruct (Hok' d eq_refl) as (Hc' & Hlen & Hby). split; [|right; lia].
    apply talks_read; try done.
    + split; [done|]. split; [done|]. split; [simpl; by rewrite Hs1|done].
    + intros _ [_ Hb2]. split; [|intros _; simpl; auto]. simpl. apply Hby, Hb2. done.
  - apply talks_read; try done.
    + split; [done|]. split; [split; [unfold MAX_CONTROL_PAYLOAD_SIZE; simpl; lia | simpl; auto]|]. split; [simpl; by rewrite Hs1|]. by intros [? _].
    + intros _ _. split; [apply (bytes_ok_be_encode 2) | by intros [? _]].
Qed.

(** The bound on the rounds: the bytes that wait and the reads to come. *)
Definition rounds w : nat :=
  ready_reads (stream w) * Datatypes.S READ_BUFFER_SIZE + unprocessed_len (core w).

(** What is left of a round when the parser has had its turn. *)
Lemma after_step_talks w d :
  ws_ok w → live w →
  match after_step little random_mask w d with
  | inl (r, w') => r ≠ Ready Panic ∧ talks w w'
  | inr w' => talks w w' ∧ live w' ∧ rd (core w') = rd (core w) ∧ un (core w') = un (core w) ∧
              (ready_reads (stream w') ≤ ready_reads (stream w))%nat
  end.
Proof.
  intros Hok Hlive. unfold after_step, check_close.
  destruct (control_flush_pending (ctl (core w))) eqn:Efp.
  - destruct (poll_flush_pending_control _ _ w) as [r w1] eqn:Ef.
    apply flush_talks in Ef as (Hnp & Hp & Ht); [|done]. pose proof Ht as (fs1 & He1 & _).
    destruct Hp as (Hw1 & Hk & Hd & _). pose proof Hk as (_ & _ & _ & Krd & Kun & _ & Kcr & Kt & Krc).
    destruct r as [[[]|e|]|]; try done. simpl in Hd.
    destruct (terminal_error (ctl (core w1))) as [m|] eqn:Et.
    + split; [done|]. eapply talks_trans; [exact Ht|]. apply (fail_terminal_talks w1 m). apply He1.
    + destruct (close_received _); [split; [done|]; eapply talks_trans; [exact Ht | apply read_closed_talks, He1]|].
      destruct (0 <? _)%nat; [done|]. split; [done|]. split; [destruct Hlive; split; congruence|].
      split_and!; try done; apply Hd.
  - destruct (close_received _); [split; [done|]; by apply read_closed_talks|].
    destruct (0 <? _)%nat; split_and!; try done; try apply Hlive; by apply talks_refl.
Qed.

Lemma compact_talks w u :
  ws_ok w → live w → compact_half (un (core w)) = Ok u →
  let w' := mkWs (stream w) (is_client w) (ping_type w) false (with_un (core w) u) (write_frame w)
              (write_frame_start_offset w) (masks w) in
  talks w w' ∧ live w' ∧ unprocessed_len (core w') = unprocessed_len (core w) ∧
  pend u = pend (un (core w)).
Proof.
  intros Hok Hlive Hu w'. pose proof Hok as (Hw & Hc & Hl & Hcore). destruct (Hcore Hlive) as (Hb & Hc' & Hs).
  destruct (compact_half_ok _ Hb) as (u' & Hu' & Hbu & Hpu & Hlu). rewrite Hu in Hu'. simplify_eq.
  split; [|split; [done|split; [|done]]].
  - apply talks_read; try done.
    + split; [done|]. split; [done|]. split; [simpl; by rewrite Hlu|]. intros _. done.
    + intros _ [Hb1 Hb2]. split; [done|]. intros _. destruct (Hb2 Hlive) as (? & ? & ?).
      split; [simpl; by rewrite Hpu | done].
  - pose proof (length_pend _ Hbu) as H1. pose proof (length_pend _ Hb) as H2.
    unfold unprocessed_len. simpl. rewrite <- H1, <- H2. by rewrite Hpu.
Qed.

Lemma progressed_same c c' : rd c' = rd c → un c' = un c → progressed c c' = false.
Proof.
  intros Hr Hu. unfold progressed. rewrite Hr, Hu, bool_decide_eq_true_2, !Nat.eqb_refl, Z.eqb_refl by done. done.
Qed.

Lemma progressed_len c c' : progressed c c' = false → unprocessed_len c' = unprocessed_len c.
Proof.
  unfold progressed, unprocessed_len. intros E. repeat (apply orb_false_iff in E as [E ?]).
  to_prop. congruence.
Qed.

Lemma flushed_talks {A} w (k : WebsocketStream → Poll (outcome A) * WebsocketStream) :
  ws_ok w →
  (∀ w1, talks w w1 → keeps w w1 → pending_control (ctl (core w1)) = None →
     (k w1).1 ≠ Ready Panic ∧ talks w (k w1).2) →
  (flushed little random_mask w k).1 ≠ Ready Panic ∧ talks w (flushed little random_mask w k).2.
Proof.
  intros Hok Hk. unfold flushed. destruct (poll_flush_pending_control _ _ w) as [r w1] eqn:Ef.
  apply flush_talks in Ef as (Hnp & (_ & Hkeep & _ & _ & Hnone) & Ht); [|done].
  destruct r as [[[]|e|]|]; try done. apply Hk; [done.. | by apply (Hnone tt)].
Qed.

(** What a round may come to, from the state it started in. *)
Definition round_post w (res : (Poll (outcome bytes) * WebsocketStream) + WebsocketStream) : Prop :=
  match res with
  | inl (r, w') => r ≠ Ready Panic ∧ talks w w'
  | inr w' => talks w w' ∧ live w' ∧ (rounds w' < rounds w)%nat
  end.

Lemma round_post_trans w w1 res :
  talks w w1 → (rounds w1 ≤ rounds w)%nat → round_post w1 res → round_post w res.
Proof.
  intros Ht Hr. destruct res as [[r w']|w']; simpl.
  - intros [? ?]. split; [done | by eapply talks_trans].
  - intros (? & ? & ?). split; [by eapply talks_trans|]. split; [done | lia].
Qed.

Lemma transport_round w w1 :
  talks w w1 → live w1 → (unprocessed_len (core w1) < 8)%nat →
  (ready_reads (stream w1) ≤ ready_reads (stream w))%nat → round_post w (read_transport junk w1).
Proof.
  intros Ht Hlive Hl Hr. assert (Hok : ws_ok w1) by (by destruct Ht as (? & [] & ?)).
  pose proof (transport_talks w1 Hok Hlive Hl) as Hp. unfold round_post.
  destruct (read_transport junk w1) as [[r w']|w'].
  - destruct Hp as [? ?]. split; [done | by eapply talks_trans].
  - destruct Hp as (? & ? & Hrr & Hlen). split; [by eapply talks_trans|]. split; [done|]. unfold rounds. nia.
Qed.

(** The parser's turn has gone well. *)
Lemma stepped_round w d c' :
  ws_ok w → live w → same_rest (core w) c' → talks w (with_core w c') →
  (d = [] ∧ c' = core w ∧ (unprocessed_len c' < need (rd c') ≤ 8)%nat ∨
   (unprocessed_len c' < unprocessed_len (core w))%nat) →
  round_post w
    match after_step little random_mask (with_core w c') d with
    | inl r => inl r
    | inr w2 => if progressed (core w) (core w2) then inr w2 else read_transport junk w2
    end.
Proof.
  intros Hok Hlive Hsame Ht1 Hprog. set (w1 := with_core w c') in *.
  assert (Hok1 : ws_ok w1) by (by destruct Ht1 as (? & [] & ?)).
  assert (Hlive1 : live w1) by (destruct Hsame as (? & ? & ? & _), Hlive; split; simpl; congruence).
  pose proof (after_step_talks w1 d Hok1 Hlive1) as Hp.
  destruct (after_step _ _ w1 d) as [[r w']|w2]; [destruct Hp; split; [done | by eapply talks_trans]|].
  destruct Hp as (Ht2 & Hlive2 & Hrd2 & Hun2 & Hrr2). simpl in Hrd2, Hun2, Hrr2.
  assert (Ht02 : talks w w2) by (by eapply talks_trans).
  destruct (progressed _ _) eqn:Eprog.
  - split; [done|]. split; [done|]. unfold rounds.
    destruct Hprog as [(_ & -> & _)|Hlt]; [by rewrite progressed_same in Eprog|].
    unfold unprocessed_len in *. rewrite Hun2. nia.
  - apply transport_round; try done. apply progressed_len in Eprog. unfold unprocessed_len in *.
    rewrite Hun2 in Eprog. destruct Hprog as [(_ & -> & ?)|?]; rewrite Hun2; lia.
Qed.

Lemma round_talks w space :
  ws_ok w → live w → (0 < space)%nat → round_post w (read_round little junk random_mask w space).
Proof.
  intros Hok Hlive Hsp. unfold read_round. pose proof Hok as (_ & _ & _ & Hcore).
  destruct (compact_half_ok _ (proj1 (Hcore Hlive))) as (u & Hu & _). rewrite Hu.
  destruct (compact_talks w u Hok Hlive Hu) as (Ht0 & Hlive0 & Hl0 & _).
  set (w0 := mkWs _ _ _ _ _ _ _ _) in *.
  assert (Hok0 : ws_ok w0) by (by destruct Ht0 as (? & [] & ?)).
  assert (Hr0 : stream w0 = stream w) by done. change (with_un (core w) u) with (core w0).
  change (unprocessed_start_offset u) with (unprocessed_start_offset (un (core w0))).
  change (unprocessed_end_offset u) with (unprocessed_end_offset (un (core w0))). clearbody w0.
  apply (round_post_trans w w0); [done | unfold rounds; by rewrite Hr0, Hl0|].
  destruct (_ <? _)%nat eqn:Ecmp; to_prop;
    [|apply transport_round; [by apply talks_refl | done | unfold unprocessed_len; lia | done]].
  destruct (step _ _ _ _) as [res c'] eqn:Est. apply step_talks in Est as (Hnp & Hsame & Hres);
    [|done..|unfold unprocessed_len; lia].
  destruct res as [d|e|]; [destruct Hres; by apply stepped_round| |done].
  specialize (Hres e). set (w1 := with_core w0 _) in *.
  assert (Hok1 : ws_ok w1) by (by destruct Hres as (? & [] & ?)).
  destruct (flushed_talks w1 (λ w, fail_terminal w (emsg e)) Hok1) as [Hf1 Hf2].
  { intros w2 Ht2 _ _. split; [done|]. eapply talks_trans; [exact Ht2|]. apply fail_terminal_talks.
    by destruct Ht2 as (? & [] & ?). }
  destruct (flushed _ _ w1 _) as [r w']. split; [done|]. by eapply talks_trans.
Qed.

(** A read returns within the rounds its bound gives. *)
Lemma rounds_talk fuel w space :
  ws_ok w → live w → (0 < space)%nat → (rounds w < fuel)%nat →
  ∃ r w', read_rounds little junk random_mask fuel w space = Some (r, w') ∧ r ≠ Ready Panic ∧ talks w w'.
Proof.
  revert w. induction fuel as [|fuel IH]; intros w Hok Hlive Hsp Hf; [lia|]. cbn [read_rounds].
  pose proof (round_talks w space Hok Hlive Hsp) as Hp. unfold round_post in Hp.
  destruct (read_round _ _ _ w space) as [[r w']|w1].
  - exists r, w'. destruct Hp. by split_and!.
  - destruct Hp as (Ht & Hlive1 & Hr). destruct (IH w1) as (r & w' & Hrr & Hnp & Ht'); try done; try lia.
    { by destruct Ht as (? & [] & ?). }
    exists r, w'. split_and!; try done. by eapply talks_trans.
Qed.

(** Rounds that are enough for any state. *)
Definition read_fuel : nat :=
  Datatypes.S (ready_bound (S := S) * Datatypes.S READ_BUFFER_SIZE + READ_BUFFER_SIZE).

Lemma rounds_bound w : ws_ok w → live w → (rounds w < read_fuel)%nat.
Proof.
  intros (_ & _ & _ & Hcore) Hlive. destruct (Hcore Hlive) as ((_ & Hl & Hb & _) & _).
  pose proof (ready_reads_bound (stream w)). unfold rounds, read_fuel, unprocessed_len. nia.
Qed.

Lemma poll_read_talks fuel w space :
  ws_ok w → (read_fuel ≤ fuel)%nat →
  ∃ r w', ws_poll_read little junk random_mask fuel w space = Some (r, w') ∧ r ≠ Ready Panic ∧ talks w w'.
Proof.
  intros Hok Hf. unfold ws_poll_read. pose proof (talks_refl w Hok) as Hrefl.
  destruct (space =? 0)%nat eqn:Esp; to_prop; [by eexists _, _|].
  destruct (read_closed _) eqn:Erc; [by eexists _, _|].
  assert (Hstart : ∀ w1, talks w w1 → read_closed (ctl (core w1)) = false →
    ∃ r w', match terminal_error (ctl (core w1)) with
      | Some message => Some (fail_terminal w1 message)
      | None => if close_received (ctl (core w1)) then Some (end_of_stream w1)
                else read_rounds little junk random_mask fuel w1 space
      end = Some (r, w') ∧ r ≠ Ready Panic ∧ talks w w').
  { intros w1 Ht1 Hrc1. assert (Hok1 : ws_ok w1) by (by destruct Ht1 as (? & [] & ?)).
    destruct (terminal_error _) eqn:Et.
    { eexists _, _. split; [done|]. split; [done|]. eapply talks_trans; [done|]. by apply (fail_terminal_talks w1 s). }
    destruct (close_received _).
    { eexists _, _. split; [done|]. split; [done|]. eapply talks_trans; [done|]. by apply read_closed_talks. }
    destruct (rounds_talk fuel w1 space) as (r & w' & ? & ? & ?); [done.. | lia | |].
    { pose proof (rounds_bound w1 Hok1 (conj Et Hrc1)). lia. }
    exists r, w'. split_and!; try done. by eapply talks_trans. }
  destruct (control_flush_pending _); [|by apply Hstart].
  destruct (poll_flush_pending_control _ _ w) as [r w1] eqn:Ef.
  apply flush_talks in Ef as (Hnp & (_ & Hkeep & _) & Ht); [|done].
  destruct r as [[[]|e|]|]; try done; [|by eexists _, _..]. apply Hstart; [done|].
  destruct Hkeep as (_ & _ & _ & _ & _ & _ & _ & _ & Hrc). congruence.
Qed.

(** ** The other operations *)

(** A change of the transport only. *)
Lemma with_stream_talks w s :
  ws_ok w → received s = received (stream w) → accepted s = accepted (stream w) → talks w (with_stream w s).
Proof.
  intros Hok Hr Ha. apply talks_read; try done; [unfold sent; simpl; by rewrite Ha | simpl; by rewrite Hr].
Qed.

Lemma transport_flush_talks w :
  ws_ok w →
  let res := match poll_flush (stream w) with
    | (Ready (inr _), s) => (Ready (Ok tt), with_stream w s)
    | (Ready (inl e), s) => (Ready (Err e), with_stream w s)
    | (Pending, s) => (Pending, with_stream w s)
    end in
  res.1 ≠ Ready Panic ∧ talks w res.2.
Proof.
  intros Hok. destruct (poll_flush (stream w)) as [pr s] eqn:Ep. apply flush_law in Ep as [? ?].
  destruct pr as [[e|[]]|]; (split; [done | by apply with_stream_talks]).
Qed.

Lemma poll_flush_talks w :
  ws_ok w →
  let res := ws_poll_flush little random_mask w in res.1 ≠ Ready Panic ∧ talks w res.2.
Proof.
  intros Hok. unfold ws_poll_flush. set (transport := λ w1 : WebsocketStream, match poll_flush (stream w1) with
    | (Ready (inr _), s) => (Ready (Ok tt), with_stream w1 s)
    | (Ready (inl e), s) => (Ready (Err e), with_stream w1 s)
    | (Pending, s) => (Pending, with_stream w1 s) end).
  assert (Hframes : ∀ w1, talks w w1 →
    let res := if (length (write_frame w1) =? 0)%nat then transport w1
      else match do_write_frame w1 with
           | (Ok _, w) => if negb (length (write_frame w) =? 0)%nat then (Pending, w) else transport w
           | (Err e, w) => (Ready (Err e), w)
           | (Panic, w) => (Ready Panic, w)
           end in res.1 ≠ Ready Panic ∧ talks w res.2).
  { intros w1 Ht1. assert (Hok1 : ws_ok w1) by (by destruct Ht1 as (? & [] & ?)).
    destruct (_ =? 0)%nat.
    { destruct (transport_flush_talks w1 Hok1). split; [done | by eapply talks_trans]. }
    destruct (do_write_frame w1) as [r w2] eqn:Ew. apply do_write_evolves in Ew as [Hnp He]; [|done].
    assert (Ht2 : talks w w2) by (eapply talks_trans; [done|]; by exists []).
    destruct r as [[]|e|]; [|done..]. destruct (negb _); [done|].
    destruct (transport_flush_talks w2); [apply He|]. split; [done | by eapply talks_trans]. }
  destruct (control_flush_pending _); [|apply Hframes; by apply talks_refl].
  apply flushed_talks; [done|]. intros w1 Ht1 _ _. by apply Hframes.
Qed.

(** A frame is appended to what waits. *)
Lemma append_evolves w op input :
  ws_ok w →
  (length (write_frame w) + length input + MAX_FRAME_HEADER_SIZE ≤ MAX_PENDING_WRITE_BYTES)%nat ∨
  input = [] ∧ (length (write_frame w) + 6 ≤ MAX_PENDING_WRITE_BYTES)%nat →
  op = Binary ∨ op = Ping ∧ input = [] →
  evolves w [out_frame w op input] (append_frame little random_mask w (opcode_byte op) input).
Proof.
  intros Hok Hsp Hop. destruct (append_frame_ok w op input) as (Hw & Hk & Hc & Hs & _ & _); [apply Hok | done|].
  apply evolves_keeps; rewrite ?Hc; auto.
  - constructor; [|done]. apply out_frame_ok; [destruct Hsp as [?|[-> ?]]; simpl; lia|].
    destruct Hop as [-> |[-> ->]]; [done | simpl; lia].
  - intros _. constructor; [|done]. destruct Hop as [-> |[-> ->]]; [by left | right; constructor].
Qed.

Lemma poll_write_ping_talks w :
  ws_ok w →
  let res := ws_poll_write_ping little random_mask w in res.1 ≠ Ready Panic ∧ talks w res.2.
Proof.
  intros Hok. unfold ws_poll_write_ping. pose proof (talks_refl w Hok) as Hrefl.
  destruct (_ || _); [done|]. destruct (control_flush_pending _).
  { apply flushed_talks; [done|]. intros w1 ? _ _. done. }
  destruct (negb _) eqn:E; [done|]. to_prop.
  unfold pack_write_ping_frame, pack_write_empty_frame, write_frame_space. rewrite E, Nat.sub_0_r.
  destruct (MAX_PENDING_WRITE_BYTES <? 6)%nat eqn:E6; to_prop; [unfold MAX_PENDING_WRITE_BYTES in E6; lia|].
  destruct (ping_type w); [done | split; [done|]..]; simpl; (eexists; split; [|]).
  - apply (append_evolves w Ping []); [done | right; split; [done | lia] | by right].
  - done.
  - apply (append_evolves w Binary []); [done | right; split; [done | lia] | by left].
  - done.
Qed.

(** A round of [poll_write]: a part of the input is packed, none of it only if
    there is no room. *)
Lemma pack_write_frame_ok w input k w' :
  ws_ok w → input ≠ [] → pack_write_frame little random_mask w input = (k, w') →
  (k ≤ length input)%nat ∧ (k = 0%nat → write_frame w ≠ []) ∧
  ∃ fs, evolves w fs w' ∧ payloads fs = take k input.
Proof.
  intros Hok Hne Hp. unfold pack_write_frame, write_frame_space in Hp.
  assert (Hin : (0 < length input)%nat) by (destruct input; [done | simpl; lia]).
  destruct (_ <? 40)%nat eqn:E40; to_prop; simplify_eq.
  - split; [lia|]. split; [|exists []; split; [by apply evolves_refl | done]].
    intros _ Hn. rewrite Hn in E40. cbn [length] in E40. unfold MAX_PENDING_WRITE_BYTES in E40. lia.
  - set (n := Nat.min _ _). assert (Hn : (0 < n ≤ length input)%nat ∧
      (length (write_frame w) + n + MAX_FRAME_HEADER_SIZE ≤ MAX_PENDING_WRITE_BYTES)%nat)
      by (unfold n, MAX_FRAME_HEADER_SIZE; lia).
    clearbody n. split; [lia|]. split; [lia|]. eexists. split.
    + apply (append_evolves w Binary); [done | left; rewrite length_take; lia | by left].
    + unfold payloads. simpl. by rewrite app_nil_r.
Qed.

Lemma pack_rounds_ok fuel w buf written res w' :
  ws_ok w → (written ≤ length buf)%nat →
  (length buf - written + (if bool_decide (write_frame w = []) then 1 else 2) ≤ fuel)%nat →
  pack_rounds little random_mask fuel w buf written = (res, w') →
  res ≠ Panic ∧ ∃ fs, evolves w fs w' ∧
    ∀ n, res = Ok n → (written ≤ n ≤ length buf)%nat ∧ payloads fs = take (n - written) (drop written buf).
Proof.
  revert w written. induction fuel as [|fuel IH]; intros w written Hok Hle Hf Hr;
    [destruct (bool_decide _); lia|]. cbn [pack_rounds] in Hr.
  destruct (_ =? 0)%nat eqn:E0 in Hr; to_prop.
  { simplify_eq. split; [done|]. exists []. split; [by apply evolves_refl|]. intros n [= <-].
    split; [lia|]. by rewrite Nat.sub_diag. }
  destruct (pack_write_frame _ _ w _) as [k w1] eqn:Ep. apply pack_write_frame_ok in Ep as (Hk & Hk0 & fs1 & He1 & Hp1);
    [|done | by intros Hn; rewrite Hn in E0].
  rewrite length_drop in E0, Hk.
  destruct (do_write_frame w1) as [r1 w2] eqn:Ew. apply do_write_evolves in Ew as [Hnp He2]; [|apply He1].
  pose proof (evolves_trans _ _ _ _ _ He1 He2) as He. rewrite app_nil_r in He.
  destruct r1 as [[]|e|]; [|simplify_eq; split; [done|]; by exists fs1|done].
  destruct (negb _) eqn:E1; to_prop.
  { simplify_eq. split; [done|]. exists fs1. split; [done|]. intros n [= <-]. split; [lia|].
    rewrite Hp1. f_equal. lia. }
  apply nil_length_inv in E1. apply IH in Hr as (Hnp2 & fs2 & He3 & Hn); [|apply He2 | lia|].
  - split; [done|]. exists (fs1 ++ fs2). split; [by eapply evolves_trans|]. intros n Hres.
    destruct (Hn n Hres) as [Hb Hp2]. split; [lia|]. rewrite payloads_app, Hp1, Hp2.
    replace (n - written)%nat with (k + (n - (written + k)))%nat by lia. rewrite <- drop_drop.
    rewrite <- (take_drop k (drop written buf)) at 3. rewrite take_app, length_take, length_drop.
    rewrite (take_ge (take k _)) by (rewrite length_take, length_drop; lia). do 2 f_equal. lia.
  - rewrite bool_decide_eq_true_2 by done. destruct k as [|k].
    + rewrite bool_decide_eq_false_2 in Hf by (by apply Hk0). lia.
    + destruct (bool_decide (write_frame w = [])); lia.
Qed.

(** What [poll_write] packs is what it reports to have taken. *)
Definition write_post w (buf : bytes) (res : Poll (outcome nat) * WebsocketStream) : Prop :=
  ∃ fs, evolves w fs res.2 ∧
    match res.1 with
    | Ready (Ok n) => (n ≤ length buf)%nat ∧ payloads fs = take n buf
    | Ready (Err _) => True
    | Ready Panic => False
    | Pending => payloads fs = []
    end.

Lemma pack_post w w1 buf :
  talks w w1 →
  write_post w buf
    match pack_rounds little random_mask (Datatypes.S (Datatypes.S (length buf))) w1 buf 0 with
    | (Ok written, w) => (if (0 <? written)%nat then Ready (Ok written) else Pending, w)
    | (Err e, w) => (Ready (Err e), w)
    | (Panic, w) => (Ready Panic, w)
    end.
Proof.
  intros (fs1 & He1 & Hp1). destruct (pack_rounds _ _ _ w1 buf 0) as [r w2] eqn:Er.
  apply pack_rounds_ok in Er as (Hnp & fs2 & He2 & Hn); [|apply He1 | lia | destruct (bool_decide _); lia].
  pose proof (evolves_trans _ _ _ _ _ He1 He2) as He. rewrite drop_0 in Hn.
  destruct r as [n|e|]; [|by exists (fs1 ++ fs2) | done].
  destruct (Hn n eq_refl) as [Hb Hp2]. rewrite Nat.sub_0_r in Hp2. exists (fs1 ++ fs2).
  destruct (0 <? n)%nat eqn:E; to_prop; (split; [done|]); simpl; rewrite payloads_app, Hp1, Hp2.
  - split; [lia | done].
  - by replace n with 0%nat by lia.
Qed.

Lemma poll_write_evolves w buf :
  ws_ok w → write_post w buf (ws_poll_write little random_mask w buf).
Proof.
  intros Hok. unfold ws_poll_write.
  destruct (length buf =? 0)%nat; [exists []; split; [by apply evolves_refl|]; simpl; split; [lia | done]|].
  destruct (_ || _); [exists []; split; [by apply evolves_refl | done]|].
  destruct (control_flush_pending _); [|by apply pack_post, talks_refl].
  unfold flushed. destruct (poll_flush_pending_control _ _ w) as [r w1] eqn:Ef.
  apply flush_talks in Ef as (Hnp & _ & Ht); [|done].
  destruct r as [[[]|e|]|]; [by apply pack_post| |done|]; destruct Ht as (fs & He & Hp); by exists fs.
Qed.

Lemma close_transport_talks w :
  ws_ok w → (close_transport w).1 ≠ Ready Panic ∧ talks w (close_transport w).2.
Proof.
  intros Hok. unfold close_transport. destruct (poll_shutdown (stream w)) as [pr s] eqn:Ep.
  apply shutdown_law in Ep as [? ?].
  destruct pr as [[e|[]]|]; (split; [done | by apply with_stream_talks]).
Qed.

Lemma queue_close_talks w :
  ws_ok w → talks w (with_control w (queue_control (set_control_data (ctl (core w)) []) Close)).
Proof.
  intros (Hw & Hc & Hl & Hcore). apply talks_read; try done.
  - split; [done|]. split; [split; [simpl; lia | simpl; auto]|]. split; [done|].
    intros Hlive. destruct (Hcore Hlive) as (Hb & _ & Hs). split; [done|].
    split; [split; [simpl; lia | simpl; auto]|]. unfold state_ok in *. simpl. destruct (read_state _); try done.
    destruct Hs as (? & ? & ?). split_and!; try done. lia.
  - intros _ [_ Hb2]. split; [constructor|]. intros Hlive. destruct (Hb2 Hlive) as (? & _ & ?).
    split; [done|]. split; [constructor | done].
Qed.

Lemma drain_talks fuel w :
  ws_ok w → (read_fuel ≤ fuel)%nat →
  ∃ r w', drain little junk random_mask fuel w = Some (r, w') ∧ r ≠ Ready Panic ∧ talks w w'.
Proof.
  intros Hok Hf. unfold drain.
  assert (Hclose : ∀ w1, talks w w1 →
    ∃ r w', Some (close_transport w1) = Some (r, w') ∧ r ≠ Ready Panic ∧ talks w w').
  { intros w1 Ht1. destruct (close_transport_talks w1) as [H1 H2]; [by destruct Ht1 as (? & [] & ?)|].
    destruct (close_transport w1) as [r w']. exists r, w'. split_and!; try done. by eapply talks_trans. }
  destruct (_ && _); [|by apply Hclose, talks_refl].
  destruct (poll_read_talks fuel w (N.to_nat 1024)) as (r & w2 & -> & Hnp & Ht); [done..|].
  destruct r as [[d|e|]|]; [|by eexists _, _|done|by eexists _, _].
  destruct (_ && _); [by eexists _, _ | by apply Hclose].
Qed.

Lemma poll_shutdown_talks fuel w :
  ws_ok w → (read_fuel ≤ fuel)%nat →
  ∃ r w', ws_poll_shutdown little junk random_mask fuel w = Some (r, w') ∧ r ≠ Ready Panic ∧ talks w w'.
Proof.
  intros Hok Hf. unfold ws_poll_shutdown.
  set (w0 := if _ && bool_decide _ then _ else w).
  assert (Ht0 : talks w w0) by (unfold w0; destruct (_ && _); [by apply queue_close_talks | by apply talks_refl]).
  clearbody w0.
  assert (Hdrain : ∀ w1, talks w w1 → ∃ r w',
    drain little junk random_mask fuel w1 = Some (r, w') ∧ r ≠ Ready Panic ∧ talks w w').
  { intros w1 Ht1. destruct (drain_talks fuel w1) as (r & w' & ? & ? & ?); [by destruct Ht1 as (? & [] & ?) | done|].
    exists r, w'. split_and!; try done. by eapply talks_trans. }
  destruct (control_flush_pending (ctl (core w0))); [|by apply Hdrain].
  destruct (poll_flush_pending_control _ _ w0) as [r w1] eqn:Ef.
  apply flush_talks in Ef as (Hnp & _ & Ht1); [|by destruct Ht0 as (? & [] & ?)].
  pose proof (talks_trans _ _ _ Ht0 Ht1).
  destruct r as [[[]|e|]|]; [by apply Hdrain|by eexists _, _|done|by eexists _, _].
Qed.

End polls.
End WsPolls.
