(* ===== verification/WebSocketLink.v ===== *)
(** * WebSocket streams: whole runs

    Sequences of operations on a stream of [WebSocket.v], each end on a
    transport of its own.  Every run returns without a panic and within the
    buffers' bounds; and what the operations of one end write is what those of
    the other end deliver, as far as the transport has carried it. *)
From S2P Require Import Prelude Text SlideBuffer Stream WebSocket WebSocketSafety WebSocketFacts WebSocketPolls.
Local Open Scope Z_scope.

Module WsLink.
Import Stream Ws WsSafety WsFacts WsPolls.

(** ** Operations *)
Inductive op :=
  | OpRead (space : nat)
  | OpWrite (buf : bytes)
  | OpFlush
  | OpPing
  | OpShutdown.

Inductive reply :=
  | Filled (bs : bytes)
  | Taken (n : nat)
  | Finished
  | Pinged (b : bool).

Definition poll_map {A B} (f : A → B) (p : Poll (outcome A)) : Poll (outcome B) :=
  match p with
  | Ready (Ok a) => Ready (Ok (f a))
  | Ready (Err e) => Ready (Err e)
  | Ready Panic => Ready Panic
  | Pending => Pending
  end.

Definition trace : Type := list (op * Poll (outcome reply)).

(** The bytes an operation has taken from the caller, and those it has handed
    to it. *)
Definition taken_by (o : op) (r : Poll (outcome reply)) : bytes :=
  match o, r with
  | OpWrite buf, Ready (Ok (Taken n)) => take n buf
  | _, _ => []
  end.
Definition filled_by (r : Poll (outcome reply)) : bytes :=
  match r with Ready (Ok (Filled bs)) => bs | _ => [] end.
Definition written (t : trace) : bytes := concat ((λ '(o, r), taken_by o r) <$> t).
Definition delivered (t : trace) : bytes := concat ((λ '(_, r), filled_by r) <$> t).

(** A write that failed may have sent a part of its bytes. *)
Definition write_failed (o : op) (r : Poll (outcome reply)) : bool :=
  match o, r with OpWrite _, Ready (Err _) => true | _, _ => false end.

Definition panicked (t : trace) : bool := existsb (λ '(_, r), is_panic r) t.

Section link.
Context (little : bool) (junk : nat → Z) (random_mask : nat → bytes).
Context {S : Type} `{AsyncStream S}.

Definition perform (fuel : nat) (w : WebsocketStream (S := S)) (o : op)
    : option (Poll (outcome reply) * WebsocketStream) :=
  match o with
  | OpRead space => prod_map (poll_map Filled) id <$> ws_poll_read little junk random_mask fuel w space
  | OpWrite buf => Some (prod_map (poll_map Taken) id (ws_poll_write little random_mask w buf))
  | OpFlush => Some (prod_map (poll_map (λ _, Finished)) id (ws_poll_flush little random_mask w))
  | OpPing => Some (prod_map (poll_map Pinged) id (ws_poll_write_ping little random_mask w))
  | OpShutdown =>
      prod_map (poll_map (λ _, Finished)) id <$> ws_poll_shutdown little junk random_mask fuel w
  end.

Fixpoint run (fuel : nat) (w : WebsocketStream (S := S)) (ops : list op)
    : option (trace * WebsocketStream) :=
  match ops with
  | [] => Some ([], w)
  | o :: ops =>
      match perform fuel w o with
      | Some (r, w) => prod_map (cons (o, r)) id <$> run fuel w ops
      | None => None
      end
  end.

End link.

Section facts.
Context (little : bool) (junk : nat → Z) (random_mask : nat → bytes).
Context {S : Type} `{AsyncStream S, !StreamLaws S, !FiniteReads S}.
Context (Hmasks : ∀ n, length (random_mask n) = 4%nat).
Implicit Types w : WebsocketStream (S := S).

#[local] Notation evolves := (evolves little random_mask).
#[local] Notation talks := (talks little random_mask).
#[local] Notation read_fuel := (read_fuel (S := S)).

(** ** Runs *)
Lemma poll_map_panic {A B} (f : A → B) p : p ≠ Ready Panic → is_panic (poll_map f p) = false.
Proof. by destruct p as [[]|]. Qed.

Lemma perform_evolves fuel w o :
  ws_ok w → (read_fuel ≤ fuel)%nat →
  ∃ r w' fs, perform little junk random_mask fuel w o = Some (r, w') ∧ is_panic r = false ∧
    evolves w fs w' ∧ (write_failed o r = false → payloads fs = taken_by o r).
Proof.
  intros Hok Hf. destruct o as [space|buf| | |]; simpl.
  - destruct (poll_read_talks little junk random_mask Hmasks fuel w space Hok Hf) as (r & w' & -> & Hnp & fs & He & Hp).
    exists (poll_map Filled r), w', fs. split_and!; try done. by apply poll_map_panic.
  - pose proof (poll_write_evolves little random_mask Hmasks w buf Hok) as (fs & He & Hp).
    destruct (ws_poll_write _ _ w buf) as [r w']. exists (poll_map Taken r), w', fs. split; [done|].
    simpl in He, Hp. destruct r as [[n|e|]|]; split_and!; try done. intros _. apply Hp.
  - destruct (poll_flush_talks little random_mask Hmasks w Hok) as (Hnp & fs & He & Hp).
    destruct (ws_poll_flush _ _ w) as [r w']. exists (poll_map (λ _, Finished) r), w', fs.
    split_and!; try done. by apply poll_map_panic.
  - destruct (poll_write_ping_talks little random_mask Hmasks w Hok) as (Hnp & fs & He & Hp).
    destruct (ws_poll_write_ping _ _ w) as [r w']. exists (poll_map Pinged r), w', fs.
    split_and!; try done. by apply poll_map_panic.
  - destruct (poll_shutdown_talks little junk random_mask Hmasks fuel w Hok Hf) as (r & w' & -> & Hnp & fs & He & Hp).
    exists (poll_map (λ _, Finished) r), w', fs. split_and!; try done. by apply poll_map_panic.
Qed.

Lemma run_evolves fuel ops w :
  ws_ok w → (read_fuel ≤ fuel)%nat →
  ∃ t w' fs, run little junk random_mask fuel w ops = Some (t, w') ∧ panicked t = false ∧
    evolves w fs w' ∧ (Forall (λ '(o, r), write_failed o r = false) t → payloads fs = written t).
Proof.
  intros Hok Hf. revert w Hok. induction ops as [|o ops IH]; intros w Hok.
  { exists [], w, []. split_and!; try done. by apply evolves_refl. }
  destruct (perform_evolves fuel w o Hok Hf) as (r & w1 & fs1 & Hr & Hnp & He & Hp). cbn [run]. rewrite Hr.
  destruct (IH w1 (ev_ok _ _ _ _ _ He)) as (t & w2 & fs2 & Hrun & Hnp2 & He2 & Hp2). rewrite Hrun.
  exists ((o, r) :: t), w2, (fs1 ++ fs2). split; [done|]. split; [simpl; by rewrite Hnp|].
  split; [by eapply evolves_trans|]. intros [Hf1 Hf2]%Forall_cons. unfold written in *. simpl.
  rewrite payloads_app, Hp, Hp2 by done. done.
Qed.

Lemma new_ok s client ping data w :
  ws_new junk s client ping data = Ok w →
  ws_ok w ∧ live w ∧ stream w = s ∧ is_client w = client ∧ write_frame w = [] ∧
  pend (un (core w)) = data ∧ rd (core w) = mkReader Init true false (Unknown 99) 0 [0; 0; 0; 0] 0 None [] 1002 ∧
  ctl (core w) = mkControl [] None false false false None false.
Proof.
  unfold ws_new. destruct (negb (length data =? 0)%nat) eqn:E; to_prop.
  - set (l := ensure junk (lazy_new READ_BUFFER_SIZE)).
    assert (Hl : length (lazy_buf l) = READ_BUFFER_SIZE ∧ lazy_size l = READ_BUFFER_SIZE)
      by (split; [apply Slide.length_allocate | done]).
    clearbody l. destruct Hl as [Hl Hsz]. rewrite Hl.
    destruct (READ_BUFFER_SIZE <? length data)%nat eqn:El; [done|]. to_prop. intros [= <-].
    assert (Hlen : length (data ++ drop (length data) (lazy_buf l)) = READ_BUFFER_SIZE)
      by (rewrite length_app, length_drop; lia).
    split; [|split_and!; try done].
    + split; [split; [by right | simpl; lia]|]. split; [split; [simpl; lia | by left]|].
      cbn [core un unprocessed_buf lazy_buf]. rewrite Hlen. split; [lia|]. intros _.
      split; [|split; [split; [simpl; lia | by left] | done]].
      split_and!; cbn [un unprocessed_buf lazy_buf lazy_size unprocessed_start_offset unprocessed_end_offset];
        rewrite ?Hlen; try done; auto; lia.
    + unfold pend. cbn [core un unprocessed_buf lazy_buf unprocessed_start_offset unprocessed_end_offset].
      rewrite Nat.sub_0_r, drop_0. by apply take_app_length.
  - apply nil_length_inv in E as ->. intros [= <-]. split; [|split_and!; done].
    split; [split; [by right | simpl; lia]|]. split; [split; [simpl; lia | by left]|]. split; [simpl; lia|].
    intros _. split; [|split; [split; [simpl; lia | by left] | done]]. split_and!; auto; simpl; lia.
Qed.

(** ** Delivery *)

(** The reading side of [w], if the transport hands out [T] in the end and [out]
    is still to be delivered. *)
Definition reading (T : bytes) w (out : bytes) : Prop :=
  ctl_ok (ctl (core w)) ∧
  (read_closed (ctl (core w)) = false → buf_ok (un (core w)) ∧
   ∃ fut, received (stream w) ++ fut = T ∧ expects (is_client w) (core w) (pend (un (core w)) ++ fut) out).

Lemma keeps_expects client c c' rest out :
  rd c' = rd c → control_data (ctl c') = control_data (ctl c) →
  expects client c rest out → expects client c' rest out.
Proof. intros Hr Hc. unfold expects. by rewrite Hr, Hc. Qed.

Lemma keeps_reading T w w' out :
  keeps w w' → ctl_ok (ctl (core w')) → reading T w out → reading T w' out.
Proof.
  intros (Kc & _ & Kr & Krd & Kun & Kcd & _ & _ & Krc) Hctl [_ Hr]. split; [done|]. rewrite Krc. intros Hrc.
  destruct (Hr Hrc) as (Hb & fut & Hfut & Hex). rewrite Kun, Kr, Kc. split; [done|]. exists fut.
  split; [done|]. by eapply keeps_expects.
Qed.

Lemma flush_ctl_ok w res w' :
  flush_post little random_mask w res w' → ctl_ok (ctl (core w)) → ctl_ok (ctl (core w')).
Proof.
  intros (_ & Hk & Hd & Hs & Hn) [(Hcr & Hcs & Ht & Hl) Hp].
  destruct Hk as (_ & _ & _ & _ & _ & Kcd & Kcr & Kt & _).
  assert (Hcs' : close_sent (ctl (core w')) = false).
  { destruct Hs as [[_ [_ ->]]|(o & Ho & Hop & _ & _ & ->)]; [done|]. rewrite Hcs, orb_false_r.
    apply bool_decide_eq_false_2. intros ->. destruct Hp as [Hp|[Hp _]]; congruence. }
  split; [split_and!; congruence|].
  destruct Hs as [[_ [Hpc _]]|(o & _ & _ & _ & Hpc & _)]; [|by left]. rewrite Hpc in *.
  destruct Hp as [Hp|[Hp Hf]]; [by left|]. unfold flush_done in Hd.
  destruct res as [[u|e|]|]; [specialize (Hn u eq_refl); by left|right; split; congruence|done|right; split; congruence].
Qed.

Lemma flush_reading T w res w' out :
  flush_post little random_mask w res w' → reading T w out → reading T w' out.
Proof.
  intros Hp Hr. pose proof Hp as (_ & Hk & _). eapply keeps_reading; [done | | done].
  eapply flush_ctl_ok; [done | apply Hr].
Qed.

(** Once a poll that flushes has returned, nothing is left to answer. *)
Lemma flush_idle w w' u :
  flush_post little random_mask w (Ready (Ok u)) w' → ctl_ok (ctl (core w)) → idle (ctl (core w')).
Proof.
  intros Hp Hc. pose proof (flush_ctl_ok _ _ _ Hp Hc) as [Hq _]. destruct Hp as (_ & _ & Hd & _ & Hn).
  split; [done|]. split; [by eapply Hn | apply Hd].
Qed.

Lemma expects_done client c rest out :
  expects client c rest out → (length rest < need (rd c))%nat → out = [].
Proof.
  intros [fs Hex] Hl. unfold need in Hl. destruct (read_state (rd c)) as [|n| | |].
  - destruct Hex as (_ & _ & -> & ->). destruct fs as [|f fs]; [done|]. exfalso.
    unfold encode_frames in Hl. rewrite fmap_cons in Hl. cbn [concat] in Hl. unfold encode_frame at 1 in Hl.
    destruct (length_code _) as [code ext]. rewrite !length_app in Hl. simpl in Hl. lia.
  - destruct Hex as (mask & p & _ & _ & _ & _ & _ & ->). rewrite !length_app, length_be_encode in Hl. lia.
  - destruct Hex as (m & p & _ & _ & [Hm _] & _ & _ & ->). rewrite !length_app in Hl. lia.
  - destruct Hex as (p & _ & Hp & _ & _ & _ & ->). rewrite length_app, length_masked_rest in Hl.
    destruct p; [done | simpl in Hl; lia].
  - destruct Hex as (p & _ & Hp & _ & _ & _ & _ & ->). rewrite length_app, length_masked_rest in Hl.
    destruct p; [done | simpl in Hl; lia].
Qed.

Definition filled (r : Poll (outcome bytes)) : bytes := match r with Ready (Ok d) => d | _ => [] end.

(** What a read leaves to be delivered; if it waits for the transport and that
    has carried all, then nothing. *)
Definition read_post (T out : bytes) (r : Poll (outcome bytes)) w' : Prop :=
  received (stream w') `prefix_of` T →
  ∃ out', reading T w' out' ∧ out = filled r ++ out' ∧
    (r = Pending → control_flush_pending (ctl (core w')) = false → received (stream w') = T → out = []).

Lemma arrived_reading T w bs w' out :
  same_side w w' → arrived w bs w' → read_closed (ctl (core w)) = false → reading T w out →
  received (stream w') `prefix_of` T → reading T w' out.
Proof.
  intros (Sc & _ & Srd & _) (Ab & Ap & Ar & Actl) Hrc [Hctl Hr] [fut' ->]. unfold reading. rewrite Actl, Sc, Ap, Ar.
  split; [done|]. intros _. destruct (Hr Hrc) as (_ & fut & Hfut & Hex). split; [done|].
  exists fut'. split; [done|]. rewrite Ar, <- app_assoc in Hfut. apply app_inv_head in Hfut as ->.
  rewrite <- app_assoc. eapply keeps_expects; [done | by rewrite Actl | done].
Qed.

Lemma transport_reading T w out :
  ws_ok w → live w → idle (ctl (core w)) → reading T w out →
  (unprocessed_len (core w) < need (rd (core w)) ≤ 8)%nat →
  match read_transport junk w with
  | inl (r, w') => read_post T out r w'
  | inr w' => received (stream w') `prefix_of` T → reading T w' out ∧ idle (ctl (core w'))
  end.
Proof.
  intros (_ & _ & _ & Hcore) Hlive Hidle Hr Hneed. pose proof Hlive as [_ Hrc].
  pose proof (proj1 (Hcore Hlive)) as Hb.
  pose proof (read_transport_ok junk w Hb ltac:(lia)) as Hp. unfold transport_post in Hp.
  destruct (read_transport junk w) as [[r w']|w'].
  - assert (Hsame : same_side w w' ∧ arrived w [] w' → ∀ r, filled r = [] → read_post T out r w').
    { intros [Hs Ha] r' Hf Hpre. exists out. split; [by eapply arrived_reading|]. split; [by rewrite Hf|].
      intros _ _ Hall. destruct Ha as (_ & Ap & Ar & _). rewrite app_nil_r in Ar.
      destruct Hr as [_ Hr]. destruct (Hr Hrc) as (_ & fut & Hfut & Hex).
      assert (fut = []) as ->.
      { rewrite <- Hall, Ar in Hfut. apply (f_equal length) in Hfut. rewrite length_app in Hfut.
        apply nil_length_inv. lia. }
      rewrite app_nil_r in Hex. eapply expects_done; [exact Hex|]. rewrite length_pend by done. apply Hneed. }
    destruct r as [[d|e|]|]; [|by apply Hsame|done|by apply Hsame].
    destruct Hp as (-> & _ & _ & Hctl & _). intros _. exists out. split; [|done].
    split; rewrite Hctl; [|done]. destruct Hr as [[Hq Hpc] _]. by split.
  - destruct Hp as (Hs & [bs Ha] & _). intros Hpre. split; [by eapply arrived_reading|].
    destruct Ha as (_ & _ & _ & Actl). by rewrite Actl.
Qed.

Definition round_reading (T out : bytes) (res : (Poll (outcome bytes) * WebsocketStream) + WebsocketStream) : Prop :=
  match res with
  | inl (r, w') => read_post T out r w'
  | inr w' => received (stream w') `prefix_of` T → reading T w' out ∧ idle (ctl (core w'))
  end.

Lemma ctl_ok_idle x : ctl_ok x → control_flush_pending x = false → idle x.
Proof. intros [Hq [Hp|[_ Hp]]] Hf; [done | congruence]. Qed.

(** What a step has delivered is handed out, or its answer is sent first. *)
Lemma after_step_reading T w d out :
  ws_ok w → live w → reading T w out → (d ≠ [] → control_flush_pending (ctl (core w)) = false) →
  match after_step little random_mask w d with
  | inl (r, w') => read_post T (d ++ out) r w'
  | inr w' => d = [] ∧ reading T w' out ∧ idle (ctl (core w'))
  end.
Proof.
  intros Hok Hlive Hr Hd. pose proof Hr as [Hctl _]. pose proof Hctl as [(Hcr & _) _].
  unfold after_step, check_close. destruct (control_flush_pending (ctl (core w))) eqn:Efp.
  - assert (d = []) as -> by (destruct d; [done | by specialize (Hd ltac:(done))]).
    destruct (poll_flush_pending_control _ _ w) as [r w1] eqn:Ef.
    destruct (flush_talks little random_mask Hmasks w r w1 Hok Ef) as (Hnp & Hp & _).
    pose proof (flush_reading T _ _ _ _ Hp Hr) as Hr1. pose proof Hp as (_ & Hk & Hfd & _).
    destruct Hk as (_ & _ & _ & _ & _ & _ & Kcr & Kt & _). destruct Hlive as [Ht _].
    destruct r as [[[]|e|]|]; [|by intros _; exists out|done|].
    + rewrite Kt, Ht, Kcr, Hcr. simpl. split_and!; try done; try apply Hr1; by eapply flush_idle.
    + intros _. exists out. split; [done|]. split; [done|]. simpl in Hfd. congruence.
  - rewrite Hcr. destruct (0 <? length d)%nat eqn:E; to_prop.
    + intros _. by exists out.
    + destruct d; [|simpl in E; lia]. split; [done|]. split; [done|]. by apply ctl_ok_idle.
Qed.

Lemma stepped_reading T w d c' out space :
  ws_ok w → live w → idle (ctl (core w)) → reading T w out →
  (0 < space)%nat → (0 < unprocessed_len (core w))%nat →
  step little (is_client w) (core w) space = (Ok d, c') →
  round_reading T out
    match after_step little random_mask (with_core w c') d with
    | inl r => inl r
    | inr w2 => if progressed (core w) (core w2) then inr w2 else read_transport junk w2
    end.
Proof.
  intros Hok Hlive Hidle Hr Hsp Hpos Hst. pose proof Hr as [_ Hr0]. pose proof Hlive as [_ Hrc].
  destruct (Hr0 Hrc) as (Hb & fut & Hfut & Hex).
  pose proof (step_correct little (is_client w) (core w) space fut out Hb Hidle Hex)
    as (d' & c'' & out' & Hst' & Hb' & Hex' & Hout & Hctl' & Hrc' & Hd').
  rewrite Hst in Hst'. simplify_eq.
  destruct (step_talks little random_mask w space (Ok d') c'' Hok Hlive Hsp Hpos Hst) as (_ & Hsame & Ht & Hprog).
  set (w1 := with_core w c'') in *. assert (Hok1 : ws_ok w1) by (by destruct Ht as (? & [] & ?)).
  assert (Hlive1 : live w1) by (destruct Hsame as (? & ? & ? & _), Hlive; split; simpl; congruence).
  assert (Hr1 : reading (received (stream w) ++ fut) w1 out')
    by (split; [done|]; intros _; split; [done|]; by exists fut).
  pose proof (after_step_reading _ w1 d' out' Hok1 Hlive1 Hr1 Hd') as Ha.
  pose proof (after_step_talks little random_mask Hmasks w1 d' Hok1 Hlive1) as Ha2.
  destruct (after_step _ _ w1 d') as [[r w']|w2]; [done|].
  destruct Ha as (-> & Hr2 & Hi2), Ha2 as (Ht2 & Hlive2 & Hrd2 & Hun2 & _). simpl in Hrd2, Hun2.
  destruct (progressed _ _) eqn:Eprog; [done|].
  apply transport_reading; try done; [by destruct Ht2 as (? & [] & ?)|].
  apply progressed_len in Eprog. unfold unprocessed_len in *. rewrite Hrd2, Hun2 in *.
  destruct Hprog as [(_ & -> & ?)|?]; [done | lia].
Qed.

Lemma round_reads T w space out :
  ws_ok w → live w → idle (ctl (core w)) → reading T w out → (0 < space)%nat →
  round_reading T out (read_round little junk random_mask w space).
Proof.
  intros Hok Hlive Hidle Hr Hsp. unfold read_round. pose proof Hok as (_ & _ & _ & Hcore).
  destruct (compact_half_ok _ (proj1 (Hcore Hlive))) as (u & Hu & Hbu & Hpu & _). rewrite Hu.
  destruct (compact_talks little random_mask w u Hok Hlive Hu) as (Ht0 & Hlive0 & Hl0 & _).
  set (w0 := mkWs _ _ _ _ _ _ _ _) in *.
  assert (Hok0 : ws_ok w0) by (by destruct Ht0 as (? & [] & ?)).
  assert (Hr0 : reading T w0 out).
  { destruct Hr as [Hctl Hr]. split; [done|]. intros Hrc. destruct (Hr Hrc) as (_ & fut & Hfut & Hex).
    split; [done|]. exists fut. split; [done|]. simpl. rewrite Hpu. by eapply keeps_expects; [..|exact Hex]. }
  assert (Hidle0 : idle (ctl (core w0))) by done. change (with_un (core w) u) with (core w0).
  change (unprocessed_start_offset u) with (unprocessed_start_offset (un (core w0))).
  change (unprocessed_end_offset u) with (unprocessed_end_offset (un (core w0))). clearbody w0.
  destruct Hok0 as (Hw0 & Hc0 & Hl00 & Hcore0). pose proof (Hcore0 Hlive0) as (Hb0 & _ & Hs0).
  destruct (_ <? _)%nat eqn:Ecmp; to_prop.
  - pose proof Hr0 as [_ Hrr]. destruct (Hrr (proj2 Hlive0)) as (_ & fut & Hfut & Hex).
    pose proof (step_correct little (is_client w0) (core w0) space fut out Hb0 Hidle0 Hex) as (d & c' & out' & Hst & _).
    pose proof (stepped_reading T w0 d c' out space ltac:(done) Hlive0 Hidle0 Hr0 Hsp
      ltac:(unfold unprocessed_len; lia) Hst) as Hres.
    by rewrite Hst.
  - apply transport_reading; try done. unfold unprocessed_len, need, state_ok in *.
    destruct (read_state (rd (core w0))); lia.
Qed.

Lemma rounds_read T fuel w space out r w' :
  ws_ok w → live w → idle (ctl (core w)) → reading T w out → (0 < space)%nat → (rounds w < fuel)%nat →
  read_rounds little junk random_mask fuel w space = Some (r, w') → read_post T out r w'.
Proof.
  revert w. induction fuel as [|fuel IH]; intros w Hok Hlive Hidle Hr Hsp Hf Hrun; [done|].
  cbn [read_rounds] in Hrun.
  pose proof (round_reads T w space out Hok Hlive Hidle Hr Hsp) as Hrr.
  pose proof (round_talks little junk random_mask Hmasks w space Hok Hlive Hsp) as Hrt.
  destruct (read_round _ _ _ w space) as [[r1 w1]|w1]; [by simplify_eq|].
  destruct Hrt as (Ht & Hlive1 & Hlt). assert (Hok1 : ws_ok w1) by (by destruct Ht as (? & [] & ?)).
  destruct (rounds_talk little junk random_mask Hmasks fuel w1 space Hok1 Hlive1 Hsp ltac:(lia))
    as (r2 & w2 & Hrun2 & _ & fs & He & _).
  rewrite Hrun in Hrun2. simplify_eq. intros Hpre.
  destruct Hrr as [Hr1 Hi1]; [etrans; [apply He | done]|].
  eapply IH; [exact Hok1 | done.. | lia | done | done].
Qed.

(** ** The operations that only write *)
Definition same_reader w w' : Prop :=
  core w' = core w ∧ is_client w' = is_client w ∧ received (stream w') = received (stream w).

#[local] Instance same_reader_preorder : PreOrder same_reader.
Proof. split; [done|]. unfold same_reader. intros w1 w2 w3. intuition congruence. Qed.

Lemma same_reader_reading T w w' out : same_reader w w' → reading T w out → reading T w' out.
Proof. intros (Hc & Hcl & Hr). unfold reading. by rewrite Hc, Hcl, Hr. Qed.

Lemma write_rounds_reader fuel w : same_reader w (write_rounds fuel w).2.
Proof.
  revert w. induction fuel as [|fuel IH]; intros w; [done|]. cbn [write_rounds].
  destruct (_ <? _)%nat; [done|]. destruct (_ =? 0)%nat; [done|].
  destruct (poll_write _ _) as [pr s] eqn:Ep. apply write_law in Ep as [Hr _].
  destruct pr as [[e|n]|]; [done| |done]. destruct (n =? 0)%nat; [done|]. destruct (_ =? _)%nat; [done|].
  etrans; [|apply IH]. done.
Qed.

Lemma pack_rounds_reader fuel w buf k : same_reader w (pack_rounds little random_mask fuel w buf k).2.
Proof.
  revert w k. induction fuel as [|fuel IH]; intros w k; [done|]. cbn [pack_rounds].
  destruct (_ =? 0)%nat; [done|]. destruct (pack_write_frame _ _ w _) as [n w1] eqn:Ep.
  assert (H1 : same_reader w w1) by (unfold pack_write_frame in Ep; destruct (_ <? 40)%nat; by simplify_eq).
  pose proof (write_rounds_reader (Datatypes.S (length (write_frame w1))) w1) as H2.
  unfold do_write_frame. destruct (write_rounds _ w1) as [r w2]. simpl in H2.
  assert (H3 : same_reader w w2) by (by etrans).
  destruct r as [[]|e|]; try done. destruct (negb _); [done|]. etrans; [done | apply IH].
Qed.

(** An operation that flushes what is due and goes on with [k]. *)
Lemma flushed_reading {A} T w out (k : WebsocketStream → Poll (outcome A) * WebsocketStream) :
  ws_ok w → reading T w out → (∀ w1, same_reader w1 (k w1).2) →
  reading T (flushed little random_mask w k).2 out.
Proof.
  intros Hok Hr Hk. unfold flushed. destruct (poll_flush_pending_control _ _ w) as [r w1] eqn:Ef.
  destruct (flush_talks little random_mask Hmasks w r w1 Hok Ef) as (_ & Hp & _).
  pose proof (flush_reading T _ _ _ _ Hp Hr) as Hr1.
  destruct r as [[[]|e|]|]; try done. eapply same_reader_reading; [apply Hk | done].
Qed.

Lemma poll_write_reading T w buf out :
  ws_ok w → reading T w out → reading T (ws_poll_write little random_mask w buf).2 out.
Proof.
  intros Hok Hr. unfold ws_poll_write. destruct (length buf =? 0)%nat; [done|]. destruct (_ || _); [done|].
  assert (Hk : ∀ w1, same_reader w1
    (match pack_rounds little random_mask (Datatypes.S (Datatypes.S (length buf))) w1 buf 0 with
     | (Ok written, w) => (if (0 <? written)%nat then Ready (Ok written) else Pending, w)
     | (Err e, w) => (Ready (Err e), w)
     | (Panic, w) => (Ready Panic, w)
     end).2).
  { intros w1. pose proof (pack_rounds_reader (Datatypes.S (Datatypes.S (length buf))) w1 buf 0) as Hp.
    destruct (pack_rounds _ _ _ w1 buf 0) as [[] w2]; done. }
  destruct (control_flush_pending _); [by apply flushed_reading | eapply same_reader_reading; [apply Hk | done]].
Qed.

Lemma poll_flush_reading T w out :
  ws_ok w → reading T w out → reading T (ws_poll_flush little random_mask w).2 out.
Proof.
  intros Hok Hr. unfold ws_poll_flush.
  set (transport := λ w1 : WebsocketStream, match poll_flush (stream w1) with
    | (Ready (inr _), s) => (Ready (Ok tt), with_stream w1 s)
    | (Ready (inl e), s) => (Ready (Err e), with_stream w1 s)
    | (Pending, s) => (Pending, with_stream w1 s) end).
  assert (Ht : ∀ w1, same_reader w1 (transport w1).2).
  { intros w1. unfold transport. destruct (poll_flush _) as [pr s] eqn:Ep. apply flush_law in Ep as [Hrec _].
    by destruct pr as [[e|[]]|]. }
  set (frames := λ w1 : WebsocketStream, if (length (write_frame w1) =? 0)%nat then transport w1
    else match do_write_frame w1 with
         | (Ok _, w) => if negb (length (write_frame w) =? 0)%nat then (Pending, w) else transport w
         | (Err e, w) => (Ready (Err e), w)
         | (Panic, w) => (Ready Panic, w)
         end).
  assert (Hf : ∀ w1, same_reader w1 (frames w1).2).
  { intros w1. unfold frames. destruct (_ =? 0)%nat; [done|].
    pose proof (write_rounds_reader (Datatypes.S (length (write_frame w1))) w1) as H2.
    unfold do_write_frame. destruct (write_rounds _ w1) as [r w2]. simpl in H2.
    destruct r as [[]|e|]; try done. destruct (negb _); [done | by etrans]. }
  destruct (control_flush_pending _); [by apply flushed_reading | eapply same_reader_reading; [apply Hf | done]].
Qed.

Lemma poll_write_ping_reading T w out :
  ws_ok w → reading T w out → reading T (ws_poll_write_ping little random_mask w).2 out.
Proof.
  intros Hok Hr. unfold ws_poll_write_ping. destruct (_ || _); [done|].
  destruct (control_flush_pending _); [by apply flushed_reading|]. destruct (negb _); [done|].
  unfold pack_write_ping_frame, pack_write_empty_frame.
  destruct (ping_type w); [done | destruct (_ <? 6)%nat..]; done.
Qed.

Lemma poll_read_reading T fuel w space out r w' :
  ws_ok w → reading T w out → (read_fuel ≤ fuel)%nat →
  ws_poll_read little junk random_mask fuel w space = Some (r, w') → read_post T out r w'.
Proof.
  intros Hok Hr Hf Hrun. unfold ws_poll_read in Hrun. pose proof Hr as [[(Hcr & _ & Ht & _) _] _].
  destruct (space =? 0)%nat eqn:Esp; to_prop; [simplify_eq; intros _; by exists out|].
  destruct (read_closed _) eqn:Erc; [simplify_eq; intros _; by exists out|].
  destruct (control_flush_pending _) eqn:Efp.
  - destruct (poll_flush_pending_control _ _ w) as [r1 w1] eqn:Ef.
    destruct (flush_talks little random_mask Hmasks w r1 w1 Hok Ef) as (Hnp & Hp & fs & He & _).
    pose proof (flush_reading T _ _ _ _ Hp Hr) as Hr1. pose proof Hp as (_ & Hk & Hfd & _).
    destruct Hk as (_ & _ & _ & _ & _ & _ & Kcr & Kt & Krc).
    destruct r1 as [[[]|e|]|]; [|simplify_eq; intros _; by exists out|done|].
    + rewrite Kt, Ht, Kcr, Hcr in Hrun. assert (Hlive1 : live w1) by (split; congruence).
      eapply rounds_read; [apply He | done | eapply flush_idle; [done | apply Hr] | done | | | done]; [lia|].
      pose proof (rounds_bound w1 (ev_ok _ _ _ _ _ He) Hlive1). lia.
    + simplify_eq. intros _. exists out. split; [done|]. split; [done|]. simpl in Hfd. congruence.
  - rewrite Ht, Hcr in Hrun. eapply rounds_read; [done | done | apply ctl_ok_idle; [apply Hr | done] | done | | | done]; [lia|].
    pose proof (rounds_bound w Hok (conj Ht Erc)). lia.
Qed.

Definition not_shutdown (o : op) : Prop := o ≠ OpShutdown.

Lemma perform_reading T fuel w o out r w' :
  ws_ok w → reading T w out → (read_fuel ≤ fuel)%nat → not_shutdown o →
  perform little junk random_mask fuel w o = Some (r, w') → received (stream w') `prefix_of` T →
  ∃ out', reading T w' out' ∧ out = filled_by r ++ out'.
Proof.
  intros Hok Hr Hf Hns Hp Hpre. destruct o as [space|buf| | |]; simpl in Hp; [| | | |done].
  - destruct (ws_poll_read _ _ _ _ _ _) as [[r1 w1]|] eqn:E; [|done]. simpl in Hp. simplify_eq.
    destruct (poll_read_reading T _ _ _ _ _ _ Hok Hr Hf E Hpre) as (out' & ? & -> & _).
    exists out'. split; [done|]. by destruct r1 as [[]|].
  - pose proof (poll_write_reading T w buf out Hok Hr) as Hr'. destruct (ws_poll_write _ _ w buf) as [r1 w1].
    simpl in Hp. simplify_eq. exists out. split; [done|]. by destruct r1 as [[]|].
  - pose proof (poll_flush_reading T w out Hok Hr) as Hr'. destruct (ws_poll_flush _ _ w) as [r1 w1].
    simpl in Hp. simplify_eq. exists out. split; [done|]. by destruct r1 as [[]|].
  - pose proof (poll_write_ping_reading T w out Hok Hr) as Hr'. destruct (ws_poll_write_ping _ _ w) as [r1 w1].
    simpl in Hp. simplify_eq. exists out. split; [done|]. by destruct r1 as [[]|].
Qed.

Lemma run_reading T fuel ops w out t w' :
  ws_ok w → reading T w out → (read_fuel ≤ fuel)%nat → Forall not_shutdown ops →
  run little junk random_mask fuel w ops = Some (t, w') → received (stream w') `prefix_of` T →
  ∃ out', reading T w' out' ∧ out = delivered t ++ out'.
Proof.
  intros Hok Hr Hf Hns. revert w out t Hok Hr. induction Hns as [|o ops Ho Hns IH]; intros w out t Hok Hr Hrun Hpre.
  { simpl in Hrun. simplify_eq. by exists out. }
  cbn [run] in Hrun. destruct (perform_evolves fuel w o Hok Hf) as (r & w1 & fs & Hp & _ & He & _).
  rewrite Hp in Hrun. destruct (run_evolves fuel ops w1 (ev_ok _ _ _ _ _ He) Hf) as (t1 & w2 & fs1 & Hrun1 & _ & He1 & _).
  rewrite Hrun1 in Hrun. simpl in Hrun. simplify_eq.
  destruct (perform_reading T fuel w o out r w1) as (out1 & Hr1 & ->); try done; [etrans; [apply He1 | done]|].
  destruct (IH w1 out1 t1 (ev_ok _ _ _ _ _ He) Hr1 Hrun1 Hpre) as (out2 & Hr2 & ->).
  exists out2. split; [done|]. unfold delivered. simpl. by rewrite app_assoc.
Qed.

(** ** What leaves is what the other end expects *)
Lemma pack_is_encode client f :
  (∀ n, mask_ok (random_mask n)) → out_ok random_mask client false f → bytes_ok (f_payload f) →
  pack_frame little (opcode_byte (f_op f)) (f_mask f) (f_payload f) = encode_frame f ∧
  frame_ok (negb client) f ∧ follow None f = Some None.
Proof.
  intros Hm (Hfin & Hmask & Hlen & Hop) Hb.
  assert (Hlen63 : Z.of_nat (length (f_payload f)) < 2 ^ 63)
    by (unfold MAX_PENDING_WRITE_BYTES in Hlen; lia).
  assert (Hmo : match f_mask f with Some m => mask_ok m | None => True end)
    by (destruct client; [destruct Hmask as [i ->]; apply Hm | by rewrite Hmask]).
  split; [|split].
  - unfold pack_frame, encode_frame, length_code, body. rewrite Hfin.
    assert (Hbody : match f_mask f with
      | Some m => m ++ apply_mask little (f_payload f) m 0 | None => f_payload f end =
      match f_mask f with Some m => m ++ mask_bytes (f_payload f) m 0 | None => f_payload f end).
    { destruct (f_mask f) as [m|]; [|done]. destruct Hmo. by rewrite apply_mask_is_bytewise. }
    rewrite Hbody. destruct (_ <? 126); [done|]. destruct (_ <=? _); by rewrite <- !app_assoc.
  - split_and!; try done.
    + destruct client; simpl; [destruct Hmask as [i ->]; eexists; by split | done].
    + by destruct (f_op f).
  - unfold follow. rewrite Hfin. by destruct (f_op f).
Qed.

Lemma packed_is_encoded client fs :
  (∀ n, mask_ok (random_mask n)) → Forall (out_ok random_mask client false) fs →
  Forall (λ f, bytes_ok (f_payload f)) fs →
  packed little fs = encode_frames fs ∧ frames_ok (negb client) None fs.
Proof.
  intros Hm Ho Hb. induction fs as [|f fs IH]; [done|].
  apply Forall_cons in Ho as [Hf Ho], Hb as [Hbf Hb].
  destruct (pack_is_encode client f Hm Hf Hbf) as (Hp & Hok & Hfo). destruct (IH Ho Hb) as [IH1 IH2].
  split.
  - unfold packed, encode_frames in *. rewrite !fmap_cons. cbn [concat]. by rewrite Hp, IH1.
  - cbn [frames_ok]. by rewrite Hfo.
Qed.

Lemma payloads_bytes fs :
  bytes_ok (payloads fs) → Forall (λ f, is_data (f_op f) = true ∨ bytes_ok (f_payload f)) fs →
  Forall (λ f, bytes_ok (f_payload f)) fs.
Proof.
  induction fs as [|f fs IH]; [done|]. unfold payloads. rewrite filter_cons. intros Hp [Hf Hfs]%Forall_cons.
  destruct (decide (is_data (f_op f) = true)) as [Hd|Hd].
  - rewrite fmap_cons in Hp. cbn [concat] in Hp. apply bytes_ok_app in Hp as [? ?]. constructor; auto.
  - destruct Hf as [?|?]; [done|]. constructor; auto.
Qed.

Lemma new_reading s client ping data w fs T :
  ws_new junk s client ping data = Ok w → received s = [] → frames_ok client None fs →
  data ++ T = encode_frames fs → reading T w (payloads fs).
Proof.
  intros Hn Hrec Hfs HT. apply new_ok in Hn as (Hok & Hlive & Hs & Hc & _ & Hpend & Hrd & Hctl).
  split; [rewrite Hctl; split; [split_and!; simpl; try done; lia | by left]|]. intros _.
  pose proof Hok as (_ & _ & _ & Hcore). split; [apply (Hcore Hlive)|]. exists T. rewrite Hs, Hrec. split; [done|].
  exists fs. rewrite Hrd. simpl. rewrite Hpend, Hc, HT. by split_and!.
Qed.

End facts.

Section ends.
Context {A B : Type} `{AsyncStream A, !StreamLaws A, !FiniteReads A}.
Context `{AsyncStream B, !StreamLaws B, !FiniteReads B}.

(** What a sender has put on its way, as the receiver sees it. *)
Lemma sender_frames little junk random_mask fuel (sa : A) client ping data a0 ops t a :
  (∀ n, mask_ok (random_mask n)) → (read_fuel (S := A) ≤ fuel)%nat →
  ws_new junk sa client ping data = Ok a0 → accepted sa = [] →
  run little junk random_mask fuel a0 ops = Some (t, a) →
  Forall (λ '(o, r), write_failed o r = false) t → close_sent (ctl (core a)) = false →
  bytes_ok (written t) → bytes_ok data → bytes_ok (received (stream a)) →
  ∃ fs, sent a = encode_frames fs ∧ frames_ok (negb client) None fs ∧ payloads fs = written t.
Proof.
  intros Hm Hf Hn Ha Hrun Hwf Hcs Hbw Hbd Hbr.
  apply new_ok in Hn as (Hok & Hlive & Hs & Hc & Hw & Hpend & Hrd & Hctl).
  destruct (run_evolves little junk random_mask (λ n, proj1 (Hm n)) fuel ops a0 Hok Hf)
    as (t' & a' & fs & Hrun' & _ & [_ _ _ _ Hsent _ Hout Hby] & Hp).
  rewrite Hrun in Hrun'. injection Hrun' as <- <-. specialize (Hp Hwf). rewrite Hcs, Hc in Hout.
  destruct Hby as [_ Hby]; [done| |].
  { split; [rewrite Hctl; constructor|]. intros _. unfold core_bytes. rewrite Hpend, Hctl, Hrd.
    split; [done|]. split; [constructor|]. split; [done|]. by repeat constructor. }
  destruct (packed_is_encoded little random_mask client fs Hm Hout) as [He Hfs].
  { apply payloads_bytes; [by rewrite Hp | done]. }
  exists fs. split; [|done]. rewrite Hsent, <- He. unfold sent. by rewrite Hs, Ha, Hw, drop_nil.
Qed.

(** Whatever the peer sends, in whatever pieces and with whatever failures
    of the transport: every sequence of reads, writes, flushes, pings and
    shutdowns on a stream returns (each read within [read_fuel] rounds of its
    loop) without a panic, and the read buffer and the frames waiting to be
    written stay within their bounds. *)
Theorem websocket_runs_are_safe little junk random_mask fuel (s : A) client ping data w ops :
  (∀ n, length (random_mask n) = 4%nat) →
  ws_new junk s client ping data = Ok w → (read_fuel (S := A) ≤ fuel)%nat →
  ∃ t w', run little junk random_mask fuel w ops = Some (t, w') ∧ panicked t = false ∧
    (length (lazy_buf (unprocessed_buf (un (core w')))) ≤ READ_BUFFER_SIZE)%nat ∧
    (length (write_frame w') ≤ MAX_PENDING_WRITE_BYTES)%nat.
Proof.
  intros Hm Hn Hf. apply new_ok in Hn as (Hok & _).
  destruct (run_evolves little junk random_mask Hm fuel ops w Hok Hf) as (t & w' & fs & Hrun & Hnp & He & _).
  exists t, w'. destruct (ev_ok _ _ _ _ _ He) as ((_ & ?) & _ & ? & _). by split_and!.
Qed.

(** C6: two ends of the layer, each with a transport of its own and polled in
    any order with reads, writes, flushes and pings.  While the sender has not
    started the closing handshake, the bytes the receiver's reads deliver are a
    prefix of those the sender's writes took, whatever the transports split,
    delay or refuse and whatever the sender itself receives; the receiver finds
    no fault with a frame; and a read that waits although all the sender's
    frames have arrived leaves nothing undelivered. *)
Theorem websocket_link_is_exact little_a junk_a mask_a little_b junk_b mask_b fuel (sa : A) (sb : B)
    client ping_a ping_b data_a data_b a0 b0 ops_a ops_b trace_a trace_b a b :
  (∀ n, mask_ok (mask_a n)) → (∀ n, mask_ok (mask_b n)) →
  (read_fuel (S := A) ≤ fuel)%nat → (read_fuel (S := B) ≤ fuel)%nat →
  ws_new junk_a sa client ping_a data_a = Ok a0 → accepted sa = [] →
  ws_new junk_b sb (negb client) ping_b data_b = Ok b0 → received sb = [] →
  run little_a junk_a mask_a fuel a0 ops_a = Some (trace_a, a) →
  Forall (λ '(o, r), write_failed o r = false) trace_a → close_sent (ctl (core a)) = false →
  bytes_ok (written trace_a) → bytes_ok data_a → bytes_ok (received (stream a)) →
  run little_b junk_b mask_b fuel b0 ops_b = Some (trace_b, b) → Forall not_shutdown ops_b →
  (data_b ++ received (stream b)) `prefix_of` sent a →
  delivered trace_b `prefix_of` written trace_a ∧
  terminal_error (ctl (core b)) = None ∧
  ∀ space b', ws_poll_read little_b junk_b mask_b fuel b space = Some (Pending, b') →
    control_flush_pending (ctl (core b')) = false → data_b ++ received (stream b') = sent a →
    delivered trace_b = written trace_a.
Proof.
  intros Hma Hmb Hfa Hfb Hna Haa Hnb Hrb Hra Hwf Hcs Hbw Hbd Hbr Hrunb Hns [rest Hlink].
  destruct (sender_frames little_a junk_a mask_a fuel sa client ping_a data_a a0 ops_a trace_a a)
    as (fs & Hs & Hfs & <-); try done.
  rewrite Hs, <- app_assoc in Hlink. pose proof (new_ok _ _ _ _ _ _ Hnb) as (Hokb & _).
  pose proof (new_reading junk_b sb _ _ _ _ _ _ Hnb Hrb Hfs (eq_sym Hlink)) as Hr.
  destruct (run_reading little_b junk_b mask_b (λ n, proj1 (Hmb n)) _ fuel ops_b b0 _ trace_b b Hokb Hr Hfb Hns Hrunb)
    as (out & Hr' & Hout); [by eexists|].
  split; [rewrite Hout; by eexists|]. split; [apply Hr'|]. intros space b' Hread Hfp Hall.
  destruct (run_evolves little_b junk_b mask_b (λ n, proj1 (Hmb n)) fuel ops_b b0 Hokb Hfb)
    as (t & b1 & fs1 & Hrun1 & _ & He & _). rewrite Hrunb in Hrun1. injection Hrun1 as <- <-.
  assert (Hrec : received (stream b') = received (stream b) ++ rest)
    by (rewrite Hs, Hlink in Hall; by apply app_inv_head in Hall).
  destruct (poll_read_reading little_b junk_b mask_b (λ n, proj1 (Hmb n)) _ fuel b space out Pending b'
    (ev_ok _ _ _ _ _ He) Hr' Hfb Hread) as (_ & _ & _ & Hdone); [by rewrite Hrec|].
  by rewrite Hout, (Hdone eq_refl Hfp Hrec), app_nil_r.
Qed.

End ends.

(** A client that sends text and a ping, and a server that reads it in pieces
    of three bytes. *)
Definition fresh (s : script) (client : bool) : WebsocketStream :=
  mkWs s client PingFrame false
    (mkCore (mkReader Init true false (Unknown 99) 0 [0; 0; 0; 0] 0 None [] 1002)
       (mkUnprocessed (lazy_new READ_BUFFER_SIZE) 0 0)
       (mkControl [] None false false false None false)) [] 0 0.
Definition some_masks (n : nat) : bytes := [17; 34; 51; Z.of_nat n mod 256].
Definition script_fuel : nat := read_fuel (S := script).
Definition after (w : WebsocketStream (S := script)) (ops : list op) : trace * WebsocketStream :=
  default ([], w) (run true (λ _, 0) some_masks script_fuel w ops).

Definition sender_run := after (fresh (script_of "" true 100) true)
  [OpWrite (B "some "); OpPing; OpFlush; OpWrite (B "text"); OpFlush].
Definition receiver_start := fresh (mkScript (sent sender_run.2) true true 3 [] []) false.
Definition receiver_run := after receiver_start (replicate 20 (OpRead 100)).

Lemma some_masks_ok n : mask_ok (some_masks n).
Proof. split; [done|]. repeat constructor; simpl; try lia; apply Z.mod_pos_bound; lia. Qed.

Lemma after_run s client ops :
  run true (λ _, 0) some_masks script_fuel (fresh s client) ops =
  Some ((after (fresh s client) ops).1, (after (fresh s client) ops).2).
Proof.
  destruct (new_ok (λ _, 0) s client PingFrame [] (fresh s client) eq_refl) as (Hok & _).
  destruct (run_evolves true (λ _, 0) some_masks (λ n, proj1 (some_masks_ok n)) script_fuel ops _ Hok
    (Nat.le_refl _)) as (t & w & _ & Hrun & _). unfold after. by rewrite Hrun.
Qed.

Lemma websocket_link_is_exact_witness :
  delivered receiver_run.1 = B "some text" ∧
  delivered receiver_run.1 `prefix_of` written sender_run.1.
Proof.
  split; [vm_compute; reflexivity|].
  apply (websocket_link_is_exact true (λ _, 0) some_masks true (λ _, 0) some_masks script_fuel
    (script_of "" true 100) (mkScript (sent sender_run.2) true true 3 [] []) true PingFrame PingFrame [] []
    (fresh (script_of "" true 100) true) receiver_start
    [OpWrite (B "some "); OpPing; OpFlush; OpWrite (B "text"); OpFlush] (replicate 20 (OpRead 100))
    sender_run.1 receiver_run.1 sender_run.2 receiver_run.2).
  - exact some_masks_ok.
  - exact some_masks_ok.
  - unfold script_fuel. apply Nat.le_refl.
  - unfold script_fuel. apply Nat.le_refl.
  - reflexivity.
  - reflexivity.
  - reflexivity.
  - reflexivity.
  - apply after_run.
  - compute_done.
  - vm_compute. reflexivity.
  - compute_done.
  - constructor.
  - vm_compute. constructor.
  - apply after_run.
  - apply Forall_replicate. done.
  - compute_done.
Defined.

Lemma websocket_runs_are_safe_witness :
  ∃ t w', run true (λ _, 0) some_masks script_fuel
      (fresh (script_of "no frame at all" false 4) false) [OpRead 10; OpRead 10; OpShutdown] = Some (t, w') ∧
    panicked t = false ∧
    (length (lazy_buf (unprocessed_buf (un (core w')))) ≤ READ_BUFFER_SIZE)%nat ∧
    (length (write_frame w') ≤ MAX_PENDING_WRITE_BYTES)%nat.
Proof.
  apply (websocket_runs_are_safe true (λ _, 0) some_masks script_fuel (script_of "no frame at all" false 4)
    false PingFrame []).
  - intros n. reflexivity.
  - reflexivity.
  - unfold script_fuel. apply Nat.le_refl.
Defined.

(** A server whose answer to a ping could not be packed yet, because the frames
    before it had filled the buffer, and which is shut down when they have left:
    the pong is sent, the close frame is not even queued, and the shutdown waits
    for a peer that has no reason to send. *)
Theorem shutdown_behind_a_pong :
  let w := with_control (fresh (script_of "" true 100) false)
             (mkControl (B "ping") (Some Pong) true false false None false) in
  match ws_poll_shutdown true (λ _, 0) some_masks script_fuel w with
  | Some (Pending, w') =>
      put (stream w') = [138; 4] ++ B "ping" ∧ close_sent (ctl (core w')) = false ∧
      pending_control (ctl (core w')) = None ∧ write_frame w' = []
  | _ => False
  end.
Proof. vm_compute. done. Qed.

End WsLink.
