(* ===== verification/XHttp.v ===== *)
(** * XHTTP upload sessions ([src/v2board/xhttp.rs])

    The server side of the transport that carries a connection in many HTTP
    requests: numbered upload posts and one download request, joined by a
    session id.  Modelled: the configuration and the parsing of requests, the
    session table with its reference-counted sessions, their upload channels
    and reapers, and the reader that puts the posts back in order.

    A system of requests, readers and reapers takes one event at a time, as the
    locks and the channel make each of them atomic.  Shown: the reader delivers
    the posts in order and completely, whatever order they come in; a session is
    never left without its reaper, and goes when it is idle; and a reader never
    sees the end of its uploads, since it keeps their channel open itself. *)
From S2P Require Import Prelude Text SharedUsers Stream.
Local Open Scope Z_scope.

Module XHttp.
Import Stream.

(** ** Configuration *)
Definition DEFAULT_MAX_EACH_POST_BYTES : nat := N.to_nat 1000000.
Definition DEFAULT_MAX_BUFFERED_POSTS : nat := 30.
Definition SESSION_REAP_SECS : Z := 30.
Definition SESSION_IDLE_REAP_SECS : Z := 120.

Inductive XHttpMode := Auto | PacketUp | StreamUp | StreamOne.
Inductive XHttpPlacement := Path | Query | Header | Cookie.
Inductive XHttpDataPlacement := AutoData | Body | HeaderData | CookieData.

#[global] Instance XHttpMode_eq_dec : EqDecision XHttpMode.
Proof. solve_decision. Defined.
#[global] Instance XHttpPlacement_eq_dec : EqDecision XHttpPlacement.
Proof. solve_decision. Defined.

Record XHttpConfig := mkConfig {
  host : option bytes;
  path : bytes;
  mode : XHttpMode;
  no_grpc_header : bool;
  no_sse_header : bool;
  max_each_post_bytes : nat;
  max_buffered_posts : nat;
  session_id_placement : XHttpPlacement;
  session_id_key : bytes;
  seq_placement : XHttpPlacement;
  seq_key : bytes;
  uplink_data_placement : XHttpDataPlacement;
  uplink_data_key : bytes }.

Record XHttpConfigParts := mkParts {
  p_host : option bytes;
  p_path : bytes;
  p_mode : XHttpMode;
  p_no_grpc_header : bool;
  p_no_sse_header : bool;
  p_max_each_post_bytes : option nat;
  p_max_buffered_posts : option nat;
  p_session_id_placement : XHttpPlacement;
  p_session_id_key : option bytes;
  p_seq_placement : XHttpPlacement;
  p_seq_key : option bytes;
  p_uplink_data_placement : XHttpDataPlacement;
  p_uplink_data_key : option bytes }.

Definition slash : Z := 47.

Definition normalize_path (path : bytes) (session_id_placement seq_placement : XHttpPlacement) : bytes :=
  let path := match split_once 63 path with Some (path, _) => path | None => path end in
  let path := if bool_decide (trim path = []) then [slash] else path in
  let path := if starts_with [slash] path then path else slash :: path in
  if (bool_decide (session_id_placement = Path) || bool_decide (seq_placement = Path)) &&
     negb (ends_with [slash] path)
  then path ++ [slash] else path.

(** [filter(|value| !value.trim().is_empty()).unwrap_or_else(default)] *)
Definition key_or (key : option bytes) (default_key : bytes) : bytes :=
  match key with
  | Some value => if bool_decide (trim value = []) then default_key else value
  | None => default_key
  end.

Definition config_new (parts : XHttpConfigParts) : XHttpConfig :=
  mkConfig
    (match p_host parts with
     | Some host =>
         let host := to_ascii_lowercase (trim host) in
         if bool_decide (host = []) then None else Some host
     | None => None
     end)
    (normalize_path (p_path parts) (p_session_id_placement parts) (p_seq_placement parts))
    (p_mode parts) (p_no_grpc_header parts) (p_no_sse_header parts)
    (Nat.max (default DEFAULT_MAX_EACH_POST_BYTES (p_max_each_post_bytes parts)) 1)
    (Nat.max (default DEFAULT_MAX_BUFFERED_POSTS (p_max_buffered_posts parts)) 1)
    (p_session_id_placement parts)
    (key_or (p_session_id_key parts)
       (match p_session_id_placement parts with
        | Header => B "X-Session" | Cookie | Query => B "x_session" | Path => []
        end))
    (p_seq_placement parts)
    (key_or (p_seq_key parts)
       (match p_seq_placement parts with
        | Header => B "X-Seq" | Cookie | Query => B "x_seq" | Path => []
        end))
    (p_uplink_data_placement parts)
    (key_or (p_uplink_data_key parts)
       (match p_uplink_data_placement parts with
        | CookieData => B "x_data" | HeaderData | AutoData => B "X-Data" | Body => []
        end)).

(** ** Requests *)
Definition invalid_error (msg : string) : io_error := IoError InvalidInput msg.
Definition invalid {A} (msg : string) : outcome A := Err (invalid_error msg).

Definition strip_prefix (p s : bytes) : option bytes :=
  if starts_with p s then Some (drop (length p) s) else None.

(** [match rest.find('/') { Some(index) => &rest[index..], None => "/" }] *)
Definition after_authority (rest : bytes) : bytes :=
  match find_byte slash rest with Some index => drop index rest | None => [slash] end.

Definition split_http_target (target : bytes) : bytes * option bytes :=
  let path_with_query :=
    match strip_prefix (B "http://") target with
    | Some rest => after_authority rest
    | None =>
        match strip_prefix (B "https://") target with
        | Some rest => after_authority rest
        | None => target
        end
    end in
  match split_once 63 path_with_query with
  | Some (path, query) => (path, Some query)
  | None => (path_with_query, None)
  end.

Definition validate_host (config : XHttpConfig) (actual : option bytes) : outcome unit :=
  match host config with
  | None => Ok tt
  | Some expected =>
      actual ← ok_or actual (invalid_error "xhttp request is missing Host/:authority");
      let actual := to_ascii_lowercase (trim actual) in
      if bool_decide (actual = expected) || starts_with (expected ++ [58]) actual
      then Ok tt else invalid "xhttp bad host"
  end.

Definition validate_path (config : XHttpConfig) (p : bytes) : outcome unit :=
  if starts_with (path config) p then Ok tt else invalid "xhttp bad path".

Record XHttpMeta := mkMeta { session_id : option bytes; seq : option bytes }.

Definition parse_cookies (value : bytes) : gmap bytes bytes :=
  foldl (λ m part,
    match split_once 61 (trim part) with
    | Some (key, value) => <[trim key := trim value]> m
    | None => m
    end) ∅ (split_on 59 value).

(** [form_urlencoded::parse] is a parameter: the pairs of a query. *)
Definition query_value (parse_query : bytes → list (bytes * bytes)) (query : option bytes) (key : bytes)
    : option bytes :=
  query ← query;
  snd <$> find (λ kv, bool_decide (kv.1 = key)) (parse_query query).

Definition extract_meta (parse_query : bytes → list (bytes * bytes)) (config : XHttpConfig) (p : bytes)
    (query : option bytes) (headers : gmap bytes bytes) : XHttpMeta :=
  let cookies := default ∅ (parse_cookies <$> headers !! B "cookie") in
  let path_parts :=
    if bool_decide (session_id_placement config = Path) || bool_decide (seq_placement config = Path)
    then filter (λ part, part ≠ []) (split_on slash (default [] (strip_prefix (path config) p)))
    else [] in
  let '(session_id, path_part) :=
    match session_id_placement config with
    | Path =>
        match path_parts !! 0%nat with
        | Some value => (Some value, 1%nat)
        | None => (None, 0%nat)
        end
    | Query => (query_value parse_query query (session_id_key config), 0%nat)
    | Header => (headers !! to_ascii_lowercase (session_id_key config), 0%nat)
    | Cookie => (cookies !! session_id_key config, 0%nat)
    end in
  let seq :=
    match seq_placement config with
    | Path => path_parts !! path_part
    | Query => query_value parse_query query (seq_key config)
    | Header => headers !! to_ascii_lowercase (seq_key config)
    | Cookie => cookies !! seq_key config
    end in
  mkMeta session_id seq.

Inductive XHttpRequestKind :=
  | KPacketUp (session_id : bytes) (seq : Z)
  | KStreamUp (session_id : bytes)
  | KStreamDown (session_id : bytes)
  | KStreamOne.

Definition classify_request (config : XHttpConfig) (method : bytes) (meta : XHttpMeta)
    : outcome XHttpRequestKind :=
  let method := to_ascii_uppercase method in
  let is_get := bool_decide (method = B "GET") in
  let is_uplink := if is_get then bool_decide (is_Some (seq meta)) else true in
  match is_uplink, is_get, session_id meta, seq meta with
  | true, _, Some session_id, Some seq =>
      match mode config with
      | Auto | PacketUp =>
          seq ← ok_or (parse_uint 64 seq) (invalid_error "xhttp packet-up seq is invalid");
          Ok (KPacketUp session_id seq)
      | _ => invalid "xhttp packet-up request is not allowed by configured mode"
      end
  | true, _, Some session_id, None =>
      match mode config with
      | Auto | StreamUp => Ok (KStreamUp session_id)
      | _ => invalid "xhttp stream-up request is not allowed by configured mode"
      end
  | _, true, Some session_id, _ =>
      match mode config with
      | StreamOne => invalid "xhttp stream-down request is not allowed by stream-one mode"
      | _ => Ok (KStreamDown session_id)
      end
  | true, _, None, Some _ => invalid "xhttp packet-up request is missing session id"
  | _, true, None, _ => invalid "xhttp stream-down request is missing session id"
  | _, _, None, _ =>
      match mode config with
      | Auto | StreamOne | StreamUp => Ok KStreamOne
      | PacketUp => invalid "xhttp stream-one request is not allowed by configured mode"
      end
  | _, _, _, _ => invalid "xhttp unsupported method"
  end.

(** ** Upload payloads *)
Section payload.
Context (base64_decode : bytes → option bytes).

Definition decode_payload (encoded : bytes) : outcome bytes :=
  if bool_decide (encoded = []) then Ok []
  else ok_or (base64_decode encoded) (invalid_error "xhttp invalid base64 payload").

(** The loop over [key-0], [key-1], ... until one is missing; as many rounds as
    there are entries are enough. *)
Fixpoint chunks_from (fuel : nat) (entries : gmap bytes bytes) (name : nat → bytes) (i : nat) : bytes :=
  match fuel with
  | O => []
  | S fuel =>
      match entries !! name i with
      | Some chunk => chunk ++ chunks_from fuel entries name (S i)
      | None => []
      end
  end.

Definition header_payload (headers : gmap bytes bytes) (key : bytes) : outcome bytes :=
  if bool_decide (key = []) then Ok []
  else
    let key := to_ascii_lowercase key in
    decode_payload (chunks_from (size headers) headers
      (λ i, key ++ [45] ++ print_dec (Z.of_nat i)) 0).

Definition cookie_payload (headers : gmap bytes bytes) (key : bytes) : outcome bytes :=
  if bool_decide (key = []) then Ok []
  else
    match headers !! B "cookie" with
    | None => Ok []
    | Some cookie_header =>
        let cookies := parse_cookies cookie_header in
        decode_payload (chunks_from (size cookies) cookies
          (λ i, key ++ [95] ++ print_dec (Z.of_nat i)) 0)
    end.

Definition packet_payload (config : XHttpConfig) (headers : gmap bytes bytes) (body : bytes) : outcome bytes :=
  match uplink_data_placement config with
  | Body => Ok body
  | HeaderData => header_payload headers (uplink_data_key config)
  | CookieData => cookie_payload headers (uplink_data_key config)
  | AutoData =>
      h ← header_payload headers (uplink_data_key config);
      c ← cookie_payload headers (uplink_data_key config);
      Ok (h ++ c ++ body)
  end.

End payload.

(** ** Sessions *)
Record XHttpPacket := mkPacket { pseq : Z; payload : bytes }.

(** What a session holds besides its sender: whether the receiver is still
    inside, whether a download has taken it, and the last activity. *)
Record XHttpSession := mkSession { rx : bool; connected : bool; last_activity : Z }.

(** The channel of a session: what is queued, and whether the receiver has been
    dropped. *)
Record Channel := mkChannel { queue : list XHttpPacket; capacity : nat; closed : bool }.

Record XHttpUploadReader := mkReader {
  session : nat;
  reader_id : bytes;
  pending : gmap Z bytes;
  next_seq : Z;
  current : bytes;
  reader_max : nat }.

(** An address names a session and its channel.  The sender is part of the
    session and goes with it. *)
Record World := mkWorld {
  heap : Shared.heap XHttpSession;
  channels : gmap nat Channel;
  sessions : gmap bytes nat;
  activity_millis : Z }.

Definition session_at (a : nat) (w : World) : option XHttpSession := Shared.arc_deref a (heap w).
Definition set_heap (w : World) (h : Shared.heap XHttpSession) : World :=
  mkWorld h (channels w) (sessions w) (activity_millis w).
Definition set_channel (a : nat) (c : Channel) (w : World) : World :=
  mkWorld (heap w) (<[a := c]> (channels w)) (sessions w) (activity_millis w).
Definition set_sessions (w : World) (m : gmap bytes nat) : World :=
  mkWorld (heap w) (channels w) m (activity_millis w).
Definition with_session (a : nat) (f : XHttpSession → XHttpSession) (w : World) : World :=
  set_heap w (Shared.mkHeap (alter (prod_map f id) a (Shared.arcs (heap w))) (Shared.next (heap w))).

Definition arc_clone (a : nat) (w : World) : World := set_heap w (Shared.arc_clone a (heap w)).
Definition arc_drop (a : nat) (w : World) : World := set_heap w (Shared.arc_drop a (heap w)).

(** The session with its channel; the caller holds the one reference. *)
Definition new_session (max_buffered_posts : nat) (w : World) : nat * World :=
  let '(a, h) := Shared.arc_new (mkSession true false (activity_millis w)) (heap w) in
  (a, set_channel a (mkChannel [] max_buffered_posts false) (set_heap w h)).

Definition touch_session (a : nat) (w : World) : World :=
  with_session a (λ s, mkSession (rx s) (connected s) (activity_millis w)) w.

(** A reaper task: the id and the session it watches. *)
Definition Reaper : Type := bytes * nat.

(** The lookup under the lock of the table: the session under the id, or a new
    one.  The caller holds a reference, and one more for the reaper to come if
    the session is new. *)
Definition hold (w : World) (id : bytes) (max_buffered_posts : nat) : nat * bool * World :=
  match sessions w !! id with
  | Some a => (a, false, arc_clone a w)
  | None =>
      let '(a, w) := new_session max_buffered_posts w in
      (a, true, arc_clone a (arc_clone a (set_sessions w (<[id := a]> (sessions w)))))
  end.

Definition get_or_create_session (w : World) (id : bytes) (max_buffered_posts : nat)
    : nat * option Reaper * World :=
  let '(a, created, w) := hold w id max_buffered_posts in
  (a, if created then Some (id, a) else None, w).

Definition take_session_reader (w : World) (id : bytes) (max_buffered_posts : nat)
    : outcome XHttpUploadReader * option Reaper * World :=
  let '(a, created, w) := hold w id max_buffered_posts in
  (* what the locals hold is dropped on the way out of an error *)
  let fail_with (e : io_error) (w : World) :=
    (Err e, None, arc_drop a (if created then arc_drop a w else w)) in
  match session_at a w with
  | None => (Panic, None, w)
  | Some s =>
      let w := with_session a (λ s, mkSession (rx s) true (last_activity s)) w in
      if connected s then fail_with (invalid_error "xhttp session already has a download stream") w
      else if rx s then
        let w := with_session a (λ s, mkSession false (connected s) (last_activity s)) w in
        (Ok (mkReader a id ∅ 0 [] max_buffered_posts), if created then Some (id, a) else None, w)
      else fail_with (invalid_error "xhttp session receiver is missing") w
  end.

Definition remove_session_if_current (id : bytes) (a : nat) (w : World) : World :=
  if bool_decide (sessions w !! id = Some a)
  then arc_drop a (set_sessions w (delete id (sessions w))) else w.

(** A turn of the reaper: whether it goes on. *)
Definition reaper_tick (r : Reaper) (w : World) : bool * World :=
  let '(id, a) := r in
  match session_at a w with
  | None => (false, w)
  | Some s =>
      let idle_millis := Z.max 0 (activity_millis w - last_activity s) in
      let stale :=
        if connected s then SESSION_IDLE_REAP_SECS * 1000 <? idle_millis
        else SESSION_REAP_SECS * 1000 <? idle_millis in
      if stale then (false, remove_session_if_current id a w)
      else (bool_decide (sessions w !! id = Some a), w)
  end.

(** A poll of [tx.send]: it waits for room. *)
Definition poll_send (a : nat) (p : XHttpPacket) (w : World) : Poll (outcome unit) * World :=
  match channels w !! a with
  | None => (Ready Panic, w)
  | Some c =>
      if closed c then (Ready (invalid "xhttp upload session is closed"), w)
      else if (length (queue c) <? capacity c)%nat
      then (Ready (Ok tt), set_channel a (mkChannel (queue c ++ [p]) (capacity c) false) w)
      else (Pending, w)
  end.

(** [poll_recv]: the channel has ended once it is empty and its senders, which
    the session holds, are gone. *)
Definition poll_recv (a : nat) (w : World) : Poll (option XHttpPacket) * World :=
  match channels w !! a with
  | None => (Ready None, w)
  | Some c =>
      match queue c with
      | p :: q => (Ready (Some p), set_channel a (mkChannel q (capacity c) (closed c)) w)
      | [] => (if bool_decide (is_Some (session_at a w)) then Pending else Ready None, w)
      end
  end.

(** ** The reader *)
Definition set_current (r : XHttpUploadReader) (data : bytes) : XHttpUploadReader :=
  mkReader (session r) (reader_id r) (pending r) (next_seq r) data (reader_max r).
Definition set_pending (r : XHttpUploadReader) (m : gmap Z bytes) : XHttpUploadReader :=
  mkReader (session r) (reader_id r) m (next_seq r) (current r) (reader_max r).

(** [next_seq += 1; current = payload] *)
Definition take_next (r : XHttpUploadReader) (m : gmap Z bytes) (data : bytes) : XHttpUploadReader :=
  mkReader (session r) (reader_id r) m (next_seq r + 1) data (reader_max r).

(** A round of the loop: a result, or the state of the next round. *)
Definition read_round (r : XHttpUploadReader) (w : World) (space : nat)
    : Poll (outcome bytes) * XHttpUploadReader * World + XHttpUploadReader * World :=
  if negb (length (current r) =? 0)%nat then
    let to_copy := Nat.min (length (current r)) space in
    inl (Ready (Ok (take to_copy (current r))), set_current r (drop to_copy (current r)), w)
  else
    match pending r !! next_seq r with
    | Some data => inr (take_next r (delete (next_seq r) (pending r)) data, w)
    | None =>
        match poll_recv (session r) w with
        | (Ready None, w) =>
            inl (Ready (if bool_decide (pending r = ∅) then Ok []
                        else invalid "xhttp upload session closed"), r, w)
        | (Pending, w) => inl (Pending, r, w)
        | (Ready (Some packet), w) =>
            if pseq packet =? next_seq r then inr (take_next r (pending r) (payload packet), w)
            else if (pseq packet <? next_seq r) || bool_decide (is_Some (pending r !! pseq packet))
            then inr (r, w)
            else if (reader_max r <=? size (pending r))%nat
            then inl (Ready (invalid "xhttp upload queue is too large"), r, w)
            else inr (set_pending r (<[pseq packet := payload packet]> (pending r)), w)
        end
    end.

(** Without fuel the result is a panic. *)
Fixpoint read_rounds (fuel : nat) (r : XHttpUploadReader) (w : World) (space : nat)
    : Poll (outcome bytes) * XHttpUploadReader * World :=
  match fuel with
  | O => (Ready Panic, r, w)
  | S fuel =>
      match read_round r w space with
      | inl res => res
      | inr (r, w) => read_rounds fuel r w space
      end
  end.

(** Each round takes a packet from the channel or one that waits; one from the
    channel may wait for another round. *)
Definition read_fuel (r : XHttpUploadReader) (w : World) : nat :=
  S (S (2 * length (default [] (queue <$> channels w !! session r)) + size (pending r))).

Definition poll_read (r : XHttpUploadReader) (w : World) (space : nat)
    : Poll (outcome bytes) * XHttpUploadReader * World :=
  if (space =? 0)%nat then (Ready (Ok []), r, w)
  else
    let w := touch_session (session r) w in
    read_rounds (read_fuel r w) r w space.

(** [Drop]: the session leaves the table if it is the current one; then the
    receiver goes, and the reader's reference. *)
Definition drop_reader (r : XHttpUploadReader) (w : World) : World :=
  let w := remove_session_if_current (reader_id r) (session r) w in
  let w :=
    match channels w !! session r with
    | Some c => set_channel (session r) (mkChannel [] (capacity c) true) w
    | None => w
    end in
  arc_drop (session r) w.

(** ** Uploads *)

(** The packets of a stream-up body: every piece gets the next number, until the
    body exceeds the limit. *)
Fixpoint stream_packets (limit total : nat) (next : Z) (pieces : list bytes) : list XHttpPacket * outcome unit :=
  match pieces with
  | [] => ([], Ok tt)
  | data :: pieces =>
      let total := (total + length data)%nat in
      if (limit <? total)%nat
      then ([], invalid "xhttp stream-up body exceeds configured post size")
      else prod_map (cons (mkPacket next data)) id (stream_packets limit total (next + 1) pieces)
  end.

(** A request that uploads: the session it holds and what it has still to send. *)
Record Upload := mkUpload { target : nat; items : list XHttpPacket }.

(** ** The system *)
Record System := mkSystem {
  world : World;
  uploads : list Upload;
  readers : list XHttpUploadReader;
  reapers : list Reaper }.

Definition initial : System := mkSystem (mkWorld (Shared.mkHeap ∅ 0) ∅ ∅ 0) [] [] [].

Inductive event :=
  | Post (id : bytes) (packets : list XHttpPacket)   (* an upload request with its packets *)
  | Send (i : nat)                                   (* upload [i] is polled *)
  | Abort (i : nat)                                  (* the client of upload [i] is gone *)
  | Open (id : bytes)                                (* a download request *)
  | Read (j : nat) (space : nat)                     (* reader [j] is polled *)
  | Close (j : nat)                                  (* reader [j] is dropped *)
  | Tick (k : nat)                                   (* reaper [k] wakes up *)
  | Wait (millis : Z).                               (* time passes *)

Inductive output :=
  | Nothing
  | Sent (a : nat) (p : XHttpPacket)
  | Refused
  | Opened (a : nat)
  | Delivered (a : nat) (r : Poll (outcome bytes)).

Definition with_world (s : System) (w : World) : System := mkSystem w (uploads s) (readers s) (reapers s).
Definition with_uploads (s : System) (us : list Upload) : System := mkSystem (world s) us (readers s) (reapers s).
Definition with_readers (s : System) (rs : list XHttpUploadReader) : System :=
  mkSystem (world s) (uploads s) rs (reapers s).
Definition with_reapers (s : System) (rs : list Reaper) : System := mkSystem (world s) (uploads s) (readers s) rs.
Definition spawn (s : System) (r : option Reaper) : System :=
  match r with Some r => with_reapers s (reapers s ++ [r]) | None => s end.

Section system.
Context (config : XHttpConfig).

Definition step (s : System) (e : event) : System * output :=
  match e with
  | Post id packets =>
      let '(a, reaper, w) := get_or_create_session (world s) id (max_buffered_posts config) in
      let w := match packets with [] => w | _ => touch_session a w end in
      (spawn (mkSystem w (uploads s ++ [mkUpload a packets]) (readers s) (reapers s)) reaper, Nothing)
  | Send i =>
      match uploads s !! i with
      | None => (s, Nothing)
      | Some u =>
          (* the request ends: its reference goes *)
          let finish (w : World) := mkSystem (arc_drop (target u) w) (delete i (uploads s)) (readers s) (reapers s) in
          match items u with
          | [] => (finish (world s), Nothing)
          | p :: ps =>
              match poll_send (target u) p (world s) with
              | (Ready (Ok _), w) =>
                  (match ps with
                   | [] => finish w
                   | _ => mkSystem (touch_session (target u) w)
                            (<[i := mkUpload (target u) ps]> (uploads s)) (readers s) (reapers s)
                   end, Sent (target u) p)
              | (Ready _, w) => (finish w, Refused)
              | (Pending, w) => (with_world s w, Nothing)
              end
          end
      end
  | Abort i =>
      match uploads s !! i with
      | None => (s, Nothing)
      | Some u =>
          (mkSystem (arc_drop (target u) (world s)) (delete i (uploads s)) (readers s) (reapers s), Nothing)
      end
  | Open id =>
      match take_session_reader (world s) id (max_buffered_posts config) with
      | (Ok r, reaper, w) =>
          (spawn (mkSystem w (uploads s) (readers s ++ [r]) (reapers s)) reaper, Opened (session r))
      | (_, reaper, w) => (spawn (with_world s w) reaper, Refused)
      end
  | Read j space =>
      match readers s !! j with
      | None => (s, Nothing)
      | Some r =>
          let '(res, r', w) := poll_read r (world s) space in
          (mkSystem w (uploads s) (<[j := r']> (readers s)) (reapers s), Delivered (session r) res)
      end
  | Close j =>
      match readers s !! j with
      | None => (s, Nothing)
      | Some r => (mkSystem (drop_reader r (world s)) (uploads s) (delete j (readers s)) (reapers s), Nothing)
      end
  | Tick k =>
      match reapers s !! k with
      | None => (s, Nothing)
      | Some r =>
          let '(again, w) := reaper_tick r (world s) in
          (if again then with_world s w
           else mkSystem (arc_drop r.2 w) (uploads s) (readers s) (delete k (reapers s)), Nothing)
      end
  | Wait millis =>
      let w := world s in
      (with_world s (mkWorld (heap w) (channels w) (sessions w) (activity_millis w + Z.max 0 millis)), Nothing)
  end.

(** What has been sent to a session, what has been read from it and the sessions
    with a failed read, beside the run. *)
Record History := mkHistory { sent : gmap nat (list XHttpPacket); read : gmap nat bytes; failed : gset nat }.

Definition sent_to (h : History) (a : nat) : list XHttpPacket := default [] (sent h !! a).
Definition read_from (h : History) (a : nat) : bytes := default [] (read h !! a).
Definition no_history : History := mkHistory ∅ ∅ ∅.

Definition observe (h : History) (o : output) : History :=
  match o with
  | Sent a p => mkHistory (<[a := sent_to h a ++ [p]]> (sent h)) (read h) (failed h)
  | Delivered a (Ready (Ok d)) => mkHistory (sent h) (<[a := read_from h a ++ d]> (read h)) (failed h)
  | Delivered a (Ready _) => mkHistory (sent h) (read h) ({[a]} ∪ failed h)
  | _ => h
  end.

Fixpoint run (s : System) (h : History) (es : list event) : System * History :=
  match es with
  | [] => (s, h)
  | e :: es => let '(s, o) := step s e in run s (observe h o) es
  end.

End system.

End XHttp.
