(* ===== verification/XHttpFacts.v ===== *)
(** * XHTTP sessions: references, order of delivery, reaping

    Invariants of the system of [XHttp.v] over all its runs. *)
From S2P Require Import Prelude Text SharedUsers Stream XHttp.
Local Open Scope Z_scope.

Module XHttpFacts.
Import Stream XHttp.

(** ** References *)
Definition one (a b : nat) : nat := if decide (a = b) then 1 else 0.
Definition count (a : nat) (l : list nat) : nat := length (filter (λ x, x = a) l).

Lemma count_nil a : count a [] = 0%nat.
Proof. done. Qed.
Lemma count_cons a x l : count a (x :: l) = (one x a + count a l)%nat.
Proof. unfold count, one. rewrite filter_cons. by destruct (decide (x = a)). Qed.
Lemma count_app a l l' : count a (l ++ l') = (count a l + count a l')%nat.
Proof. unfold count. by rewrite filter_app, length_app. Qed.
#[export] Instance count_proper a : Proper ((≡ₚ) ==> (=)) (count a).
Proof. intros l l' Hp. unfold count. by rewrite Hp. Qed.
Lemma count_fmap_delete {A} (f : A → nat) a l i x :
  l !! i = Some x → count a (f <$> l) = (count a (f <$> delete i l) + one (f x) a)%nat.
Proof.
  intros Hi. rewrite (delete_Permutation l i x Hi) at 1. rewrite fmap_cons, count_cons. lia.
Qed.
Lemma count_fmap_insert {A} (f : A → nat) a l i x y :
  l !! i = Some x → f y = f x → count a (f <$> <[i := y]> l) = count a (f <$> l).
Proof.
  intros Hi Hf. f_equal. rewrite list_fmap_insert, Hf. apply list_insert_id. by rewrite list_lookup_fmap, Hi.
Qed.
Lemma count_elem a l : a ∈ l → (0 < count a l)%nat.
Proof.
  induction 1 as [l|x l y _ IH]; rewrite count_cons; [unfold one; rewrite decide_True by done|]; lia.
Qed.

Definition in_table (m : gmap bytes nat) (a : nat) : nat := count a (snd <$> map_to_list m).

Lemma in_table_insert m id a b :
  m !! id = None → in_table (<[id := a]> m) b = (in_table m b + one a b)%nat.
Proof.
  intros Hn. unfold in_table. rewrite map_to_list_insert by done. rewrite fmap_cons, count_cons. simpl. lia.
Qed.
Lemma in_table_delete m id a b :
  m !! id = Some a → in_table m b = (in_table (delete id m) b + one a b)%nat.
Proof.
  intros Hs. rewrite <- (insert_delete_id m id a Hs) at 1. apply in_table_insert, lookup_delete_eq.
Qed.

Definition refs (w : World) (a : nat) : nat :=
  match Shared.arcs (heap w) !! a with Some (_, n) => n | None => 0 end.

Definition holders (s : System) (a : nat) : nat :=
  in_table (sessions (world s)) a + count a (target <$> uploads s) +
  count a (session <$> readers s) + count a (snd <$> reapers s).

(** Every address below [next] has a channel; none above is in use. *)
Record heap_ok (w : World) : Prop := {
  ho_pos a x n : Shared.arcs (heap w) !! a = Some (x, n) → (0 < n)%nat;
  ho_fresh a : (Shared.next (heap w) ≤ a)%nat → Shared.arcs (heap w) !! a = None ∧ channels w !! a = None }.

Lemma refs_session w a : heap_ok w → (0 < refs w a)%nat ↔ is_Some (session_at a w).
Proof.
  intros Hok. unfold refs, session_at, Shared.arc_deref. destruct (Shared.arcs (heap w) !! a) as [[x n]|] eqn:E.
  - split; [by eexists|]. intros _. by eapply ho_pos.
  - split; [lia | by intros [? ?]].
Qed.

Lemma refs_clone w a b :
  is_Some (session_at a w) → refs (arc_clone a w) b = (refs w b + one a b)%nat.
Proof.
  unfold session_at, Shared.arc_deref. intros [x Hx]. unfold refs, arc_clone, Shared.arc_clone, one. simpl.
  destruct (decide (a = b)) as [->|Hne].
  - rewrite lookup_alter_eq. destruct (Shared.arcs (heap w) !! b) as [[y n]|]; [simpl; lia | done].
  - rewrite lookup_alter_ne by done. lia.
Qed.

Lemma heap_ok_clone w a : heap_ok w → heap_ok (arc_clone a w).
Proof.
  intros [H1 H2]. split; unfold arc_clone, Shared.arc_clone; simpl.
  - intros b x n. rewrite lookup_alter_Some. intros [(-> & [y m] & Hb & [= -> ->])|[_ Hb]]; [lia | by eapply H1].
  - intros b Hb. destruct (H2 b Hb) as [Ha ?]. split; [|done]. rewrite lookup_alter_None. done.
Qed.

Lemma refs_drop w a b : refs (arc_drop a w) b = (refs w b - one a b)%nat.
Proof.
  unfold refs, arc_drop, Shared.arc_drop, one. simpl.
  destruct (Shared.arcs (heap w) !! a) as [[x [|[|n]]]|] eqn:E; simpl; destruct (decide (a = b)) as [->|Hne];
    rewrite ?lookup_delete_eq, ?lookup_insert_eq, ?lookup_delete_ne, ?lookup_insert_ne, ?E by done; lia.
Qed.

Lemma drop_next w a : Shared.next (heap (arc_drop a w)) = Shared.next (heap w).
Proof.
  unfold arc_drop, Shared.arc_drop. simpl. by destruct (Shared.arcs (heap w) !! a) as [[? [|[|?]]]|].
Qed.

Lemma heap_ok_drop w a : heap_ok w → heap_ok (arc_drop a w).
Proof.
  intros [H1 H2]. assert (Hsub : ∀ b x n, Shared.arcs (heap (arc_drop a w)) !! b = Some (x, n) → (0 < n)%nat ∧ is_Some (Shared.arcs (heap w) !! b)).
  { intros b x n. unfold arc_drop, Shared.arc_drop. simpl.
    destruct (Shared.arcs (heap w) !! a) as [[y [|[|m]]]|] eqn:E; simpl;
      rewrite ?lookup_delete_Some, ?lookup_insert_Some.
    1,2: intros [_ Hb]; split; [by eapply H1 | by eexists].
    - intros [[<- [= -> <-]]|[_ Hb]]; [split; [lia | by eexists] | split; [by eapply H1 | by eexists]].
    - intros Hb. split; [by eapply H1 | by eexists]. }
  split; [intros b x n Hb; by eapply Hsub|]. intros b. rewrite drop_next. intros Hb.
  destruct (H2 b Hb) as [Hnone Hch]. split; [|done]. apply eq_None_not_Some. intros [[x n] E].
  destruct (Hsub b x n E) as [_ [? ?]]. congruence.
Qed.

Lemma refs_with_session w a f b : refs (with_session a f w) b = refs w b.
Proof.
  unfold refs, with_session. simpl. destruct (decide (a = b)) as [->|Hne].
  - rewrite lookup_alter_eq. by destruct (Shared.arcs (heap w) !! b) as [[x n]|].
  - by rewrite lookup_alter_ne.
Qed.

Lemma heap_ok_with_session w a f : heap_ok w → heap_ok (with_session a f w).
Proof.
  intros [H1 H2]. split; unfold with_session; simpl.
  - intros b x n. rewrite lookup_alter_Some. intros [(-> & [y m] & Hb & [= -> ->])|[_ Hb]]; by eapply H1.
  - intros b Hb. destruct (H2 b Hb) as [Ha ?]. split; [|done]. by rewrite lookup_alter_None.
Qed.

Lemma heap_ok_table w m : heap_ok w → heap_ok (set_sessions w m).
Proof. by intros [H1 H2]. Qed.

Lemma heap_ok_channel w a c :
  heap_ok w → (a < Shared.next (heap w))%nat → heap_ok (set_channel a c w).
Proof.
  intros [H1 H2] Ha. split; [done|]. simpl. intros b Hb. destruct (H2 b Hb) as [? ?]. split; [done|].
  rewrite lookup_insert_ne by lia. done.
Qed.

Lemma new_session_ok w max :
  heap_ok w →
  let a := Shared.next (heap w) in
  ∃ w', new_session max w = (a, w') ∧ heap_ok w' ∧ sessions w' = sessions w ∧
    activity_millis w' = activity_millis w ∧
    channels w' = <[a := mkChannel [] max false]> (channels w) ∧
    (∀ b, refs w' b = (refs w b + one a b)%nat) ∧
    session_at a w' = Some (mkSession true false (activity_millis w)) ∧
    (∀ b, b ≠ a → session_at b w' = session_at b w) ∧ refs w a = 0%nat.
Proof.
  intros [H1 H2] a. destruct (H2 a ltac:(done)) as [Hn _]. eexists. split; [reflexivity|].
  split; [|split_and!; try done].
  - split; simpl; intros b.
    + intros x n. rewrite lookup_insert_Some. intros [[<- [= <- <-]]|[_ Hb]]; [lia | by eapply H1].
    + intros Hb. destruct (H2 b ltac:(unfold a in *; lia)). unfold a. rewrite !lookup_insert_ne by lia. done.
  - intros b. unfold refs, one. simpl. destruct (decide (a = b)) as [<-|Hne].
    + rewrite lookup_insert_eq. by rewrite Hn.
    + rewrite lookup_insert_ne by done. lia.
  - unfold session_at, Shared.arc_deref. simpl. fold a. by rewrite lookup_insert_eq.
  - intros b Hne. unfold session_at, Shared.arc_deref. simpl. fold a. by rewrite lookup_insert_ne.
  - unfold refs. by rewrite Hn.
Qed.

Definition tallied (s : System) : Prop :=
  heap_ok (world s) ∧ ∀ a, refs (world s) a = holders s a.

(** Whoever holds an address keeps its session. *)
Lemma held_alive s a : tallied s → (0 < holders s a)%nat → is_Some (session_at a (world s)).
Proof. intros [Hok Ht] Hh. apply refs_session; [done|]. by rewrite Ht. Qed.

Lemma table_held s id a :
  sessions (world s) !! id = Some a → (0 < holders s a)%nat.
Proof.
  intros Hs. unfold holders. rewrite (in_table_delete _ _ _ a Hs). unfold one.
  rewrite decide_True by done. lia.
Qed.
Lemma reader_held s r : r ∈ readers s → (0 < holders s (session r))%nat.
Proof.
  intros Hr. unfold holders. pose proof (count_elem (session r) (session <$> readers s)) as Hc.
  specialize (Hc (list_elem_of_fmap_2 _ _ _ Hr)). lia.
Qed.
Lemma reaper_held s r : r ∈ reapers s → (0 < holders s r.2)%nat.
Proof.
  intros Hr. unfold holders. pose proof (count_elem r.2 (snd <$> reapers s)) as Hc.
  specialize (Hc (list_elem_of_fmap_2 _ _ _ Hr)). lia.
Qed.

Lemma session_at_clone w a b : session_at b (arc_clone a w) = session_at b w.
Proof.
  unfold session_at, Shared.arc_deref, arc_clone, Shared.arc_clone. simpl. destruct (decide (a = b)) as [->|Hne].
  - rewrite lookup_alter_eq. by destruct (Shared.arcs (heap w) !! b) as [[]|].
  - by rewrite lookup_alter_ne.
Qed.

Lemma hold_ok s id max a created w :
  tallied s → hold (world s) id max = (a, created, w) →
  heap_ok w ∧
  (∀ b, (refs w b + in_table (sessions (world s)) b =
         refs (world s) b + in_table (sessions w) b + one a b + (if created then one a b else 0))%nat) ∧
  sessions w !! id = Some a ∧ is_Some (session_at a w) ∧
  (∀ i, i ≠ id → sessions w !! i = sessions (world s) !! i) ∧
  (created = false → sessions w = sessions (world s)).
Proof.
  intros [Hok Ht] Hh. unfold hold in Hh. destruct (sessions (world s) !! id) as [a0|] eqn:E.
  - simplify_eq. pose proof (held_alive s a (conj Hok Ht) (table_held s id a E)) as Hal.
    split_and!; try done; [by apply heap_ok_clone|..].
    + intros b. rewrite refs_clone by done. simpl. lia.
    + by rewrite session_at_clone.
  - destruct (new_session_ok (world s) max Hok) as (w1 & Hn & Hok1 & Hs1 & _ & _ & Hr1 & Hat1 & _ & _).
    rewrite Hn in Hh. simplify_eq. set (w2 := set_sessions w1 _).
    assert (Hat2 : is_Some (session_at (Shared.next (heap (world s))) w2)) by (eexists; exact Hat1).
    split_and!; try done.
    + by apply heap_ok_clone, heap_ok_clone, heap_ok_table.
    + intros b. rewrite refs_clone, refs_clone by (rewrite ?session_at_clone; done).
      change (refs w2 b) with (refs w1 b). rewrite Hr1. simpl sessions.
      rewrite Hs1, in_table_insert by done. lia.
    + simpl. by rewrite lookup_insert_eq.
    + by rewrite !session_at_clone.
    + intros i Hi. simpl. by rewrite lookup_insert_ne, Hs1.
Qed.

Lemma session_at_with w a f b :
  session_at b (with_session a f w) = if decide (a = b) then f <$> session_at b w else session_at b w.
Proof.
  unfold session_at, Shared.arc_deref, with_session. simpl. destruct (decide (a = b)) as [->|Hne].
  - rewrite lookup_alter_eq. by destruct (Shared.arcs (heap w) !! b) as [[]|].
  - by rewrite lookup_alter_ne.
Qed.

(** What taking the reader of a session comes to. *)
Lemma take_ok s id max res reaper w :
  tallied s → take_session_reader (world s) id max = (res, reaper, w) →
  heap_ok w ∧ res ≠ Panic ∧ (∀ i, i ≠ id → sessions w !! i = sessions (world s) !! i) ∧
  ((∃ r, res = Ok r ∧ r = mkReader (session r) id ∅ 0 [] max ∧ sessions w !! id = Some (session r) ∧
    (∀ b, (refs w b + in_table (sessions (world s)) b = refs (world s) b + in_table (sessions w) b +
       one (session r) b + (if reaper then one (session r) b else 0))%nat) ∧
    (reaper = Some (id, session r) ∨ reaper = None ∧ sessions w = sessions (world s))) ∨
   (∃ e, res = Err e ∧ reaper = None ∧ sessions w = sessions (world s) ∧ ∀ b, refs w b = refs (world s) b)).
Proof.
  intros Ht Hk. unfold take_session_reader in Hk. destruct (hold (world s) id max) as [[a created] w1] eqn:Eh.
  pose proof (hold_ok s id max a created w1 Ht Eh) as (Hok1 & Hr1 & Hid & [x Hx] & Hother & Hsame).
  rewrite Hx in Hk. assert (Hnew : created = true → x = mkSession true false (activity_millis (world s))).
  { intros ->. unfold hold in Eh. destruct (sessions (world s) !! id); [done|].
    destruct (new_session_ok (world s) max (proj1 Ht)) as (w2 & Hn & _ & _ & _ & _ & _ & Hat & _).
    rewrite Hn in Eh. simplify_eq. rewrite !session_at_clone in Hx.
    change (session_at (Shared.next (heap (world s))) w2 = Some x) in Hx. congruence. }
  set (w2 := with_session a _ w1) in Hk.
  assert (Hok2 : heap_ok w2) by (by apply heap_ok_with_session).
  assert (Hr2 : ∀ b, refs w2 b = refs w1 b) by (intros; apply refs_with_session).
  assert (Hfail : created = false → ∀ e, (Err e, None, arc_drop a w2) = (res, reaper, w) →
    heap_ok w ∧ ∃ e, res = Err e ∧ reaper = None ∧ sessions w = sessions (world s) ∧
    (∀ b, refs w b = refs (world s) b)).
  { intros Hc e [= <- <- <-]. split; [by apply heap_ok_drop|]. exists e. split_and!; try done; [by apply Hsame|].
    intros b. rewrite refs_drop, Hr2. specialize (Hr1 b). rewrite Hc, (Hsame Hc) in Hr1. lia. }
  destruct (connected x) eqn:Ec; [|destruct (rx x) eqn:Er].
  - destruct created; [by rewrite (Hnew eq_refl) in Ec|]. destruct (Hfail eq_refl _ Hk) as (Hokw & e & -> & -> & Hs & Hr).
    split; [done|]. split; [done|]. split; [by rewrite Hs|]. right. by exists e.
  - injection Hk as <- <- <-. split; [by apply heap_ok_with_session|]. split; [done|]. split; [done|]. left.
    eexists. split; [done|]. split; [done|]. split; [done|]. split.
    + intros b. rewrite refs_with_session, Hr2. specialize (Hr1 b). simpl. destruct created; simpl; lia.
    + destruct created; [by left | right; by auto].
  - destruct created; [by rewrite (Hnew eq_refl) in Er|]. destruct (Hfail eq_refl _ Hk) as (Hokw & e & -> & -> & Hs & Hr).
    split; [done|]. split; [done|]. split; [by rewrite Hs|]. right. by exists e.
Qed.

(** A change of channels only. *)
Definition same_refs (w w' : World) : Prop :=
  sessions w' = sessions w ∧ activity_millis w' = activity_millis w ∧ (heap_ok w → heap_ok w') ∧
  (∀ b, refs w' b = refs w b).

#[export] Instance same_refs_preorder : PreOrder same_refs.
Proof.
  split; [done|]. intros w1 w2 w3 (A1 & A2 & A3 & A4) (B1 & B2 & B3 & B4).
  split_and!; [congruence | congruence | auto | intros b; by rewrite B4, A4].
Qed.

Lemma same_refs_channel w a c c' : channels w !! a = Some c → same_refs w (set_channel a c' w).
Proof.
  intros Hc. split_and!; try done. intros Hok. apply heap_ok_channel; [done|].
  destruct (decide (a < Shared.next (heap w))%nat); [done|].
  destruct (ho_fresh _ Hok a ltac:(lia)) as [_ ?]. congruence.
Qed.

Lemma same_refs_touch w a : same_refs w (touch_session a w).
Proof. split_and!; try done; [apply heap_ok_with_session | apply refs_with_session]. Qed.

Lemma poll_recv_refs a w res w' : poll_recv a w = (res, w') → same_refs w w'.
Proof.
  unfold poll_recv. destruct (channels w !! a) as [c|] eqn:E; [|by intros [= <- <-]].
  destruct (queue c); intros [= <- <-]; [done | by eapply same_refs_channel].
Qed.

Lemma poll_send_refs a p w res w' : poll_send a p w = (res, w') → same_refs w w'.
Proof.
  unfold poll_send. destruct (channels w !! a) as [c|] eqn:E; [|by intros [= <- <-]].
  destruct (closed c); [by intros [= <- <-]|].
  destruct (_ <? _)%nat; intros [= <- <-]; [by eapply same_refs_channel | done].
Qed.

Definition same_reader (r r' : XHttpUploadReader) : Prop :=
  session r' = session r ∧ reader_id r' = reader_id r ∧ reader_max r' = reader_max r.

Lemma read_round_refs r w space :
  match read_round r w space with
  | inl (_, r', w') | inr (r', w') => same_refs w w' ∧ same_reader r r'
  end.
Proof.
  unfold read_round. destruct (negb _); [done|]. destruct (pending r !! next_seq r); [done|].
  destruct (poll_recv (session r) w) as [res w'] eqn:E. apply poll_recv_refs in E.
  destruct res as [[p|]|]; [|done..]. destruct (_ =? _); [done|]. destruct (_ || _); [done|].
  by destruct (_ <=? _)%nat.
Qed.

Lemma read_rounds_refs fuel r w space res r' w' :
  read_rounds fuel r w space = (res, r', w') → same_refs w w' ∧ same_reader r r'.
Proof.
  revert r w. induction fuel as [|fuel IH]; intros r w Hr; simpl in Hr; [by simplify_eq|].
  pose proof (read_round_refs r w space) as Hround.
  destruct (read_round r w space) as [[[res1 r1] w1]|[r1 w1]]; [by simplify_eq|].
  destruct Hround as [H1 (E1 & E2 & E3)]. apply IH in Hr as [H2 (F1 & F2 & F3)].
  split; [by etrans | split_and!; congruence].
Qed.

Lemma poll_read_refs r w space res r' w' :
  poll_read r w space = (res, r', w') → same_refs w w' ∧ same_reader r r'.
Proof.
  unfold poll_read. destruct (_ =? 0)%nat; [by intros [= <- <- <-]|]. intros Hr.
  apply read_rounds_refs in Hr as [H1 H2]. split; [|done]. etrans; [apply same_refs_touch | done].
Qed.

Lemma remove_ok id a w :
  heap_ok w →
  let w' := remove_session_if_current id a w in
  heap_ok w' ∧
  (∀ b, (0 < refs w a → in_table (sessions w) a ≤ refs w a →
    refs w' b + in_table (sessions w) b = refs w b + in_table (sessions w') b)%nat) ∧
  (∀ i b, sessions w' !! i = Some b → sessions w !! i = Some b ∧ (i = id → b ≠ a)) ∧
  channels w' = channels w ∧ activity_millis w' = activity_millis w.
Proof.
  intros Hok. unfold remove_session_if_current. destruct (bool_decide _) eqn:E; to_prop; cbv zeta.
  - split_and!; try done; [by apply heap_ok_drop, heap_ok_table|..].
    + intros b Hpos Hle. rewrite refs_drop. simpl. rewrite (in_table_delete _ _ _ b E) in *.
      change (refs (set_sessions w (delete id (sessions w))) b) with (refs w b).
      unfold one in *. destruct (decide (a = b)) as [->|]; lia.
    + simpl. intros i b. rewrite lookup_delete_Some. intros [Hne Hi]. split; [done|]. intros ->. done.
  - split_and!; try done. intros i b Hi. split; [done|]. intros -> ->. done.
Qed.

(** ** Every session in the table has a reaper, and every reference is held *)
Definition watched (s : System) : Prop :=
  ∀ id a, sessions (world s) !! id = Some a → (id, a) ∈ reapers s.

Definition refs_ok (s : System) : Prop := tallied s ∧ watched s.

Lemma tallied_same s w us rs :
  tallied s → same_refs (world s) w →
  (∀ a, count a (target <$> us) = count a (target <$> uploads s)) →
  (∀ a, count a (session <$> rs) = count a (session <$> readers s)) →
  tallied (mkSystem w us rs (reapers s)).
Proof.
  intros [Hok Ht] (Hs & _ & Hok' & Hr) Hu Hrd. split; [by apply Hok'|]. intros a.
  unfold holders. simpl. by rewrite Hr, Ht, Hs, Hu, Hrd.
Qed.

(** A holder of [x] goes. *)
Lemma tallied_drop s x w us rs rps :
  tallied s → same_refs (world s) w →
  (∀ a, (count a (target <$> us) + count a (session <$> rs) + count a (snd <$> rps) + one x a =
    count a (target <$> uploads s) + count a (session <$> readers s) + count a (snd <$> reapers s))%nat) →
  tallied (mkSystem (arc_drop x w) us rs rps).
Proof.
  intros [Hok Ht] (Hs & _ & Hok' & Hr) Hc. split; [by apply heap_ok_drop, Hok'|]. intros a.
  cbn [world]. rewrite refs_drop. unfold holders in *. simpl. specialize (Ht a). specialize (Hc a). rewrite Hr, Ht, Hs. lia.
Qed.

Lemma refs_drop_ok s x w us rs :
  refs_ok s → same_refs (world s) w →
  (∀ a, (count a (target <$> us) + count a (session <$> rs) + one x a =
    count a (target <$> uploads s) + count a (session <$> readers s))%nat) →
  refs_ok (mkSystem (arc_drop x w) us rs (reapers s)).
Proof.
  intros [Ht Hw] Hs Hc. split; [apply (tallied_drop s); [done..|]; intros a; specialize (Hc a); lia|].
  intros id a. simpl. destruct Hs as (-> & _). apply Hw.
Qed.

Lemma refs_same_ok s w us rs :
  refs_ok s → same_refs (world s) w →
  (∀ a, count a (target <$> us) = count a (target <$> uploads s)) →
  (∀ a, count a (session <$> rs) = count a (session <$> readers s)) →
  refs_ok (mkSystem w us rs (reapers s)).
Proof.
  intros [Ht Hw] Hs Hu Hr. split; [by apply tallied_same|]. intros id a. simpl.
  destruct Hs as (-> & _). apply Hw.
Qed.

Lemma in_table_le s a : tallied s → (in_table (sessions (world s)) a ≤ refs (world s) a)%nat.
Proof. intros [_ Ht]. rewrite Ht. unfold holders. lia. Qed.

Lemma post_refs config s id packets : refs_ok s → refs_ok (step config s (Post id packets)).1.
Proof.
  intros [Ht Hw]. cbn [step]. unfold get_or_create_session.
  destruct (hold (world s) id (max_buffered_posts config)) as [[a created] w1] eqn:Eh.
  pose proof (hold_ok s _ _ a created w1 Ht Eh) as (Hok1 & Hr1 & Hid & _ & Hother & Hsame).
  set (w2 := match packets with [] => w1 | _ => touch_session a w1 end).
  assert (Hs2 : same_refs w1 w2) by (unfold w2; destruct packets; [done | apply same_refs_touch]).
  clearbody w2. destruct Hs2 as (Hs2 & _ & Hok2 & Hr2).
  set (rps := if created then reapers s ++ [(id, a)] else reapers s).
  assert (Hgoal : refs_ok (mkSystem w2 (uploads s ++ [mkUpload a packets]) (readers s) rps));
    [|unfold rps in Hgoal; by destruct created]. split; [split; [by apply Hok2|]|].
  - intros b. unfold holders, rps. simpl. rewrite Hr2, Hs2. destruct Ht as [_ Ht]. specialize (Ht b). specialize (Hr1 b).
    unfold holders in Ht. rewrite fmap_app, count_app. simpl. rewrite count_cons, count_nil.
    destruct created; rewrite ?fmap_app, ?count_app; simpl; rewrite ?count_cons, ?count_nil; lia.
  - intros i b. simpl. rewrite Hs2. unfold rps. destruct (decide (i = id)) as [->|Hne].
    + rewrite Hid. intros [= ->]. destruct created; [apply elem_of_app; right; by left|].
      apply Hw. by rewrite <- (Hsame eq_refl).
    + rewrite Hother by done. intros Hi. destruct created; [apply elem_of_app; left|]; by apply Hw.
Qed.

Lemma open_refs config s id : refs_ok s → refs_ok (step config s (Open id)).1.
Proof.
  intros [Ht Hw]. cbn [step]. destruct (take_session_reader _ _ _) as [[res reaper] w] eqn:Ek.
  apply take_ok in Ek as (Hok & Hnp & Hother & [(r & -> & _ & Hid & Hr & Hrp)|(e & -> & -> & Hs & Hr)]); [| |done].
  - set (rps := match reaper with Some x => reapers s ++ [x] | None => reapers s end).
    assert (Hgoal : refs_ok (mkSystem w (uploads s) (readers s ++ [r]) rps));
      [|unfold rps in Hgoal; by destruct reaper]. split; [split; [done|]|].
    + intros b. unfold holders, rps. simpl. destruct Ht as [_ Ht]. specialize (Ht b). specialize (Hr b).
      unfold holders in Ht. rewrite fmap_app, count_app. simpl. rewrite count_cons, count_nil.
      destruct Hrp as [-> |[-> _]]; rewrite ?fmap_app, ?count_app; simpl; rewrite ?count_cons, ?count_nil; lia.
    + intros i b. simpl. unfold rps. destruct (decide (i = id)) as [->|Hne].
      * rewrite Hid. intros [= <-]. destruct Hrp as [-> |[-> Hs]]; [apply elem_of_app; right; by left|].
        apply Hw. by rewrite <- Hs.
      * rewrite Hother by done. intros Hi. destruct Hrp as [-> |[-> _]]; [apply elem_of_app; left|]; by apply Hw.
  - simpl. split; [split; [done|]|]; [|intros i b; simpl; rewrite Hs; apply Hw].
    intros b. rewrite Hr. destruct Ht as [_ Ht]. rewrite Ht. unfold holders. simpl. by rewrite Hs.
Qed.

Lemma send_refs config s i : refs_ok s → refs_ok (step config s (Send i)).1.
Proof.
  intros Hok. cbn [step]. destruct (uploads s !! i) as [u|] eqn:Hu; [|done].
  assert (Hfin : ∀ w, same_refs (world s) w →
    refs_ok (mkSystem (arc_drop (target u) w) (delete i (uploads s)) (readers s) (reapers s))).
  { intros w Hw. apply refs_drop_ok; [done..|]. intros a. rewrite (count_fmap_delete target a _ _ _ Hu). lia. }
  destruct (items u) as [|p ps] eqn:Ei; [by apply Hfin|].
  destruct (poll_send (target u) p (world s)) as [res w] eqn:Ep. apply poll_send_refs in Ep.
  destruct res as [[[]|e|]|]; [|by apply Hfin..|].
  - destruct ps as [|p' ps]; [by apply Hfin|]. cbn [fst].
    apply refs_same_ok; [done | etrans; [done | apply same_refs_touch] | |done].
    intros a. by apply (count_fmap_insert target a _ _ u).
  - by apply refs_same_ok.
Qed.

Lemma abort_refs config s i : refs_ok s → refs_ok (step config s (Abort i)).1.
Proof.
  intros Hok. cbn [step]. destruct (uploads s !! i) as [u|] eqn:Hu; [|done]. cbn [fst].
  apply refs_drop_ok; [done..|]. intros a. rewrite (count_fmap_delete target a _ _ _ Hu). lia.
Qed.

Lemma read_refs config s j space : refs_ok s → refs_ok (step config s (Read j space)).1.
Proof.
  intros Hok. cbn [step]. destruct (readers s !! j) as [r|] eqn:Hr; [|done].
  destruct (poll_read r (world s) space) as [[res r'] w] eqn:Ep. apply poll_read_refs in Ep as [Hs [Hr' _]].
  apply refs_same_ok; [done..|]. intros a. by apply (count_fmap_insert session a _ _ r).
Qed.

Lemma refs_remove_ok s id a :
  refs_ok s → (0 < holders s a)%nat → refs_ok (with_world s (remove_session_if_current id a (world s))).
Proof.
  intros [Ht Hw] Ha. destruct (remove_ok id a (world s) (proj1 Ht)) as (Hok1 & Hr1 & Hs1 & _).
  set (w1 := remove_session_if_current _ _ _) in *. split; [split; [done|]|].
  - intros b. unfold holders. simpl. destruct Ht as [Hok Ht].
    specialize (Hr1 b ltac:(by rewrite Ht) ltac:(by apply in_table_le)). specialize (Ht b).
    unfold holders in Ht. lia.
  - intros i b. simpl. intros Hi. by apply Hw, Hs1.
Qed.

Lemma close_refs config s j : refs_ok s → refs_ok (step config s (Close j)).1.
Proof.
  intros Hok. cbn [step]. destruct (readers s !! j) as [r|] eqn:Hr; [|done]. cbn [fst]. unfold drop_reader.
  pose proof (list_elem_of_lookup_2 _ _ _ Hr) as Hin.
  pose proof (refs_remove_ok s (reader_id r) (session r) Hok (reader_held s r Hin)) as Hok1.
  set (w1 := remove_session_if_current _ _ _) in *.
  apply (refs_drop_ok (with_world s w1)); [done| |].
  - simpl. destruct (channels w1 !! session r) as [c|] eqn:Ec; [by eapply same_refs_channel | done].
  - intros a. simpl. rewrite (count_fmap_delete session a _ _ _ Hr). lia.
Qed.

Lemma elem_of_delete_other {A} (l : list A) k x y : l !! k = Some y → x ∈ l → x ≠ y → x ∈ delete k l.
Proof.
  intros Hk Hx Hne. rewrite (delete_Permutation l k y Hk) in Hx. apply elem_of_cons in Hx as [->|?]; done.
Qed.

(** A reaper may end when its session is not the one in the table. *)
Lemma reaper_ends s k id a :
  refs_ok s → reapers s !! k = Some (id, a) → sessions (world s) !! id ≠ Some a →
  refs_ok (mkSystem (arc_drop a (world s)) (uploads s) (readers s) (delete k (reapers s))).
Proof.
  intros [Ht Hw] Hk Hid. split.
  - apply (tallied_drop s); [done..|]. intros b. rewrite (count_fmap_delete snd b _ _ _ Hk). symmetry. apply Nat.add_assoc.
  - intros i b. simpl. intros Hi. eapply elem_of_delete_other; [done | by apply Hw | congruence].
Qed.

Lemma tick_refs config s k : refs_ok s → refs_ok (step config s (Tick k)).1.
Proof.
  intros Hok. cbn [step]. destruct (reapers s !! k) as [[id a]|] eqn:Hk; [|done].
  pose proof (reaper_held s (id, a) (list_elem_of_lookup_2 _ _ _ Hk)) as Hheld.
  destruct (held_alive s a (proj1 Hok) Hheld) as [x Hx].
  unfold reaper_tick. rewrite Hx.
  destruct (if connected x then _ else _).
  - apply (reaper_ends (with_world s (remove_session_if_current id a (world s))) k id a); [|done|].
    + by apply refs_remove_ok.
    + destruct (remove_ok id a (world s) (proj1 (proj1 Hok))) as (_ & _ & Hs1 & _).
      intros Hi. destruct (Hs1 _ _ Hi) as [_ Hc]. by apply Hc.
  - destruct (bool_decide _) eqn:Ecur; to_prop; [done|]. by apply reaper_ends with id.
Qed.

Lemma step_refs config s e : refs_ok s → refs_ok (step config s e).1.
Proof.
  destruct e; [apply post_refs | apply send_refs | apply abort_refs | apply open_refs | apply read_refs |
    apply close_refs | apply tick_refs |].
  by intros [[[H1 H2] Ht] Hw].
Qed.

Lemma initial_refs : refs_ok initial.
Proof.
  split; [|by intros id a]. split; [|done]. by split.
Qed.

(** ** What the uploads of a session come to *)

(** The first packet of each number counts. *)
Definition arrived (l : list XHttpPacket) (k : Z) : option bytes :=
  payload <$> head (filter (λ p, pseq p = k) l).

Definition complete (l : list XHttpPacket) (n : Z) : Prop := ∀ k, 0 ≤ k < n → is_Some (arrived l k).
Definition upto (l : list XHttpPacket) (n : Z) : bytes := concat ((λ k, default [] (arrived l k)) <$> seqZ 0 n).

(** The first number that has not arrived. *)
Fixpoint frontier_from (fuel : nat) (l : list XHttpPacket) (k : Z) : Z :=
  match fuel with
  | O => k
  | S fuel => if arrived l k then frontier_from fuel l (k + 1) else k
  end.
Definition frontier (l : list XHttpPacket) : Z := frontier_from (length l) l 0.

(** The payloads by number, up to the first number that is missing. *)
Definition in_order (l : list XHttpPacket) : bytes := upto l (frontier l).

Lemma arrived_app l l' k :
  arrived (l ++ l') k = match arrived l k with Some d => Some d | None => arrived l' k end.
Proof. unfold arrived. rewrite filter_app. by destruct (filter _ l). Qed.

Lemma arrived_one p k : arrived [p] k = if decide (pseq p = k) then Some (payload p) else None.
Proof. unfold arrived. rewrite filter_cons, filter_nil. by destruct (decide _). Qed.

Lemma arrived_elem l p : p ∈ l → is_Some (arrived l (pseq p)).
Proof.
  intros Hp. unfold arrived. destruct (filter _ l) eqn:E; [|by eexists].
  by apply (filter_nil_not_elem_of _ _ p) in E.
Qed.

Lemma arrived_inv l k : is_Some (arrived l k) → k ∈ pseq <$> l.
Proof.
  unfold arrived. intros [d Hd]. destruct (filter _ l) as [|p q] eqn:E; [done|].
  assert (Hp : p ∈ filter (λ p, pseq p = k) l) by (rewrite E; left).
  apply list_elem_of_filter in Hp as [<- ?]. by apply list_elem_of_fmap_2.
Qed.

Lemma complete_length l n : 0 ≤ n → complete l n → n ≤ Z.of_nat (length l).
Proof.
  intros Hn Hc. assert (Hsub : seqZ 0 n ⊆+ pseq <$> l).
  { apply NoDup_submseteq; [apply NoDup_seqZ|]. intros k Hk. apply elem_of_seqZ in Hk.
    apply arrived_inv, Hc. lia. }
  apply submseteq_length in Hsub. rewrite length_seqZ, length_fmap in Hsub. lia.
Qed.

Lemma frontier_from_ok fuel l k :
  complete l k → 0 ≤ k → (length l < fuel + Z.to_nat k + 1)%nat →
  let n := frontier_from fuel l k in k ≤ n ∧ complete l n ∧ arrived l n = None.
Proof.
  revert k. induction fuel as [|fuel IH]; intros k Hc Hk Hf; simpl.
  - split; [lia|]. split; [done|]. apply eq_None_not_Some. intros Hs.
    pose proof (complete_length l (k + 1) ltac:(lia)) as Hl.
    enough (Hs1 : complete l (k + 1)) by (specialize (Hl Hs1); lia). intros i Hi. destruct (decide (i = k)) as [->|]; [done | apply Hc; lia].
  - destruct (arrived l k) eqn:E; [|done]. destruct (IH (k + 1)) as (? & ? & ?); [|lia..|split_and!; try done; lia].
    intros i Hi. destruct (decide (i = k)) as [->|]; [by rewrite E | apply Hc; lia].
Qed.

Lemma frontier_ok l : 0 ≤ frontier l ∧ complete l (frontier l) ∧ arrived l (frontier l) = None.
Proof. apply frontier_from_ok; [intros k ?; lia | lia | simpl; lia]. Qed.

Lemma complete_frontier l n : complete l n → n ≤ frontier l.
Proof.
  intros Hc. destruct (frontier_ok l) as (H0 & _ & Hn). destruct (decide (n ≤ frontier l)); [done|].
  destruct (Hc (frontier l) ltac:(lia)). congruence.
Qed.

Lemma frontier_unique l n : 0 ≤ n → complete l n → arrived l n = None → frontier l = n.
Proof.
  intros H0 Hc Hn. pose proof (complete_frontier l n Hc). destruct (frontier_ok l) as (_ & Hc' & _).
  destruct (decide (frontier l = n)); [done|]. destruct (Hc' n ltac:(lia)). congruence.
Qed.

Lemma upto_app l l' n : complete l n → upto (l ++ l') n = upto l n ∧ complete (l ++ l') n.
Proof.
  intros Hc. assert (He : ∀ k, 0 ≤ k < n → arrived (l ++ l') k = arrived l k).
  { intros k Hk. rewrite arrived_app. by destruct (Hc k Hk) as [d ->]. }
  split; [|intros k Hk; by rewrite He; [apply Hc|]]. unfold upto. f_equal.
  apply list_fmap_ext. intros i k Hi. apply list_elem_of_lookup_2, elem_of_seqZ in Hi. rewrite He; [done | lia].
Qed.

Lemma upto_S l n : 0 ≤ n → upto l (n + 1) = upto l n ++ default [] (arrived l n).
Proof.
  intros Hn. unfold upto. rewrite seqZ_app by lia. rewrite fmap_app, concat_app. simpl.
  by rewrite app_nil_r.
Qed.

Lemma upto_prefix l n m : 0 ≤ n ≤ m → upto l n `prefix_of` upto l m.
Proof.
  intros Hn. replace m with (n + (m - n)) by lia. unfold upto. rewrite seqZ_app by lia.
  rewrite fmap_app, concat_app. by eexists.
Qed.

(** ** A read on the queue alone *)
Definition round (r : XHttpUploadReader) (q : list XHttpPacket) (space : nat)
    : Poll (outcome bytes) * XHttpUploadReader * list XHttpPacket + XHttpUploadReader * list XHttpPacket :=
  if negb (length (current r) =? 0)%nat then
    let n := Nat.min (length (current r)) space in
    inl (Ready (Ok (take n (current r))), set_current r (drop n (current r)), q)
  else
    match pending r !! next_seq r, q with
    | Some data, _ => inr (take_next r (delete (next_seq r) (pending r)) data, q)
    | None, [] => inl (Pending, r, [])
    | None, p :: q =>
        if pseq p =? next_seq r then inr (take_next r (pending r) (payload p), q)
        else if (pseq p <? next_seq r) || bool_decide (is_Some (pending r !! pseq p)) then inr (r, q)
        else if (reader_max r <=? size (pending r))%nat
        then inl (Ready (invalid "xhttp upload queue is too large"), r, q)
        else inr (set_pending r (<[pseq p := payload p]> (pending r)), q)
    end.

Fixpoint rounds (fuel : nat) (r : XHttpUploadReader) (q : list XHttpPacket) (space : nat)
    : Poll (outcome bytes) * XHttpUploadReader * list XHttpPacket :=
  match fuel with
  | O => (Ready Panic, r, q)
  | S fuel =>
      match round r q space with
      | inl res => res
      | inr (r, q) => rounds fuel r q space
      end
  end.

Definition put (w : World) (a : nat) (c : Channel) (q : list XHttpPacket) : World :=
  set_channel a (mkChannel q (capacity c) (closed c)) w.

Lemma put_same w a c : channels w !! a = Some c → put w a c (queue c) = w.
Proof.
  intros Hc. unfold put, set_channel. destruct w, c. simpl in *. by rewrite insert_id.
Qed.

Lemma read_round_pure r w space c :
  channels w !! session r = Some c → is_Some (session_at (session r) w) →
  read_round r w space =
    match round r (queue c) space with
    | inl (res, r', q) => inl (res, r', put w (session r) c q)
    | inr (r', q) => inr (r', put w (session r) c q)
    end.
Proof.
  intros Hc Hal. pose proof (put_same w _ c Hc) as Hp. unfold read_round, round, poll_recv. rewrite Hc.
  destruct (negb _); [by rewrite Hp|]. destruct (pending r !! next_seq r); [by rewrite Hp|].
  destruct (queue c) as [|p q]; [rewrite bool_decide_true by done; by rewrite Hp|].
  destruct (_ =? _); [done|]. destruct (_ || _); [done|]. by destruct (_ <=? _)%nat.
Qed.

Lemma round_reader r q space :
  match round r q space with inl (_, r', _) | inr (r', _) => same_reader r r' end.
Proof.
  unfold round. destruct (negb _); [done|]. destruct (pending r !! next_seq r); [done|].
  destruct q as [|p q]; [done|]. destruct (_ =? _); [done|]. destruct (_ || _); [done|]. by destruct (_ <=? _)%nat.
Qed.

Lemma read_rounds_pure fuel r w space c :
  channels w !! session r = Some c → is_Some (session_at (session r) w) →
  read_rounds fuel r w space =
    let '(res, r', q) := rounds fuel r (queue c) space in (res, r', put w (session r) c q).
Proof.
  revert r w c. induction fuel as [|fuel IH]; intros r w c Hc Hal; simpl; [by rewrite put_same|].
  rewrite (read_round_pure r w space c) by done. pose proof (round_reader r (queue c) space) as Hr.
  destruct (round r (queue c) space) as [[[res r'] q]|[r' q]]; [done|]. destruct Hr as [Hs _].
  rewrite (IH r' _ (mkChannel q (capacity c) (closed c))); cbn [queue].
  - destruct (rounds fuel r' q space) as [[res r2] q2]. rewrite Hs. unfold put, set_channel. simpl.
    by rewrite insert_insert_eq.
  - rewrite Hs. unfold put. simpl. by rewrite lookup_insert_eq.
  - by rewrite Hs.
Qed.

Definition weight (r : XHttpUploadReader) (q : list XHttpPacket) : nat := 2 * length q + size (pending r).

(** Within its bound, a round ends the read or comes closer to the end of it. *)
Lemma round_weight r q space :
  (size (pending r) ≤ reader_max r)%nat →
  match round r q space with
  | inl (res, r', q') =>
      res ≠ Ready Panic ∧ (size (pending r') ≤ reader_max r')%nat ∧ (length q' ≤ length q)%nat ∧
      ((0 < space)%nat → res ≠ Ready (Ok []))
  | inr (r', q') =>
      (weight r' q' < weight r q)%nat ∧ (size (pending r') ≤ reader_max r')%nat ∧ (length q' ≤ length q)%nat
  end.
Proof.
  intros Hs. unfold round, weight. destruct (length (current r) =? 0)%nat eqn:Ec; cbn [negb]; to_prop.
  2:{ split_and!; try done. intros Hsp [= Ht]. apply (f_equal length) in Ht. rewrite length_take in Ht. simpl in Ht. lia. }
  destruct (pending r !! next_seq r) as [d|] eqn:Ed.
  { simpl. rewrite map_size_delete, Ed. simpl. assert (size (pending r) ≠ 0%nat); [|lia].
    intros He. apply map_size_empty_inv in He. by rewrite He in Ed. }
  destruct q as [|p q]; [done|]. destruct (_ =? _); [simpl; lia|].
  destruct (_ || bool_decide _) eqn:Ew; [simpl; lia|].
  apply orb_false_iff in Ew as [_ Ew]. apply bool_decide_eq_false, eq_None_not_Some in Ew.
  destruct (_ <=? _)%nat eqn:Em; [simpl; split_and!; done || lia|]. apply Nat.leb_gt in Em.
  simpl. rewrite map_size_insert, Ew. simpl. lia.
Qed.

Lemma rounds_end fuel r q space res r' q' :
  (size (pending r) ≤ reader_max r)%nat → (weight r q < fuel)%nat → rounds fuel r q space = (res, r', q') →
  res ≠ Ready Panic ∧ (size (pending r') ≤ reader_max r')%nat ∧ (length q' ≤ length q)%nat ∧
  ((0 < space)%nat → res ≠ Ready (Ok [])).
Proof.
  revert r q. induction fuel as [|fuel IH]; intros r q Hs Hf Hr; [lia|]. simpl in Hr.
  pose proof (round_weight r q space Hs) as Hw. destruct (round r q space) as [[[res1 r1] q1]|[r1 q1]]; [by simplify_eq|].
  destruct Hw as (Hw & Hs1 & Hl1). apply IH in Hr as (? & ? & ? & ?); [|done|lia]. split_and!; try done. lia.
Qed.

(** What the reader has and has had of the packets sent. *)
Record flow (l : list XHttpPacket) (out : bytes) (r : XHttpUploadReader) (q : list XHttpPacket)
    (got : list XHttpPacket) : Prop := {
  flow_sent : l = got ++ q;
  flow_seq : 0 ≤ next_seq r;
  flow_complete : complete got (next_seq r);
  flow_out : out ++ current r = upto got (next_seq r);
  flow_pending k d : pending r !! k = Some d → next_seq r ≤ k ∧ arrived got k = Some d;
  flow_kept p : p ∈ got → pseq p < next_seq r ∨ is_Some (pending r !! pseq p) }.

Lemma complete_S l n : complete l n → is_Some (arrived l n) → complete l (n + 1).
Proof. intros Hc Hn k Hk. destruct (decide (k = n)) as [->|]; [done | apply Hc; lia]. Qed.

(** The next packet is taken from those that wait. *)
Lemma flow_take l out r q got d :
  flow l out r q got → current r = [] → pending r !! next_seq r = Some d →
  flow l out (take_next r (delete (next_seq r) (pending r)) d) q got.
Proof.
  intros [H1 H2 H3 H4 H5 H6] Hc Hd. destruct (H5 _ _ Hd) as [_ Ha]. split; simpl; [done|lia|..].
  - apply complete_S; [done | by rewrite Ha].
  - rewrite upto_S, Ha by done. rewrite <- H4, Hc, app_nil_r. done.
  - intros k d'. rewrite lookup_delete_Some. intros [Hne Hk]. apply H5 in Hk as [? ?]. split; [lia | done].
  - intros p Hp. destruct (decide (pseq p = next_seq r)) as [->|]; [left; lia|].
    rewrite lookup_delete_ne by done. destruct (H6 p Hp); [left; lia | by right].
Qed.

Lemma arrived_kept l k d l' : arrived l k = Some d → arrived (l ++ l') k = Some d.
Proof. intros Hd. by rewrite arrived_app, Hd. Qed.

Lemma flow_new l out r q got k :
  flow l out r q got → next_seq r ≤ k → pending r !! k = None → arrived got k = None.
Proof.
  intros Hf Hk Hn. apply eq_None_not_Some. intros Ha. apply arrived_inv, list_elem_of_fmap in Ha as (p & -> & Hp).
  destruct (flow_kept _ _ _ _ _ Hf p Hp) as [?|[? ?]]; [lia | congruence].
Qed.

(** A packet comes that is accounted for by [r'], which differs in what waits. *)
Lemma flow_recv l out r p q got m :
  flow l out r (p :: q) got →
  (∀ k d, m !! k = Some d → next_seq r ≤ k ∧ arrived (got ++ [p]) k = Some d) →
  (∀ p', p' ∈ got ++ [p] → pseq p' < next_seq r ∨ is_Some (m !! pseq p')) →
  flow l out (set_pending r m) q (got ++ [p]).
Proof.
  intros [H1 H2 H3 H4 H5 H6] Hm Hk. destruct (upto_app got [p] (next_seq r) H3) as [Hu Hc].
  split; simpl; [by rewrite H1, <- app_assoc|done|done|by rewrite Hu|done|done].
Qed.

Lemma flow_recv_known l out r p q got :
  flow l out r (p :: q) got → pseq p < next_seq r ∨ is_Some (pending r !! pseq p) → flow l out r q (got ++ [p]).
Proof.
  intros Hf Hp. assert (He : r = set_pending r (pending r)) by (by destruct r). rewrite He.
  apply flow_recv; [done|..].
  - intros k d Hk. destruct (flow_pending _ _ _ _ _ Hf k d Hk). split; [done | by apply arrived_kept].
  - intros p' [Hin|Hin]%elem_of_app; [by apply (flow_kept _ _ _ _ _ Hf)|].
    apply list_elem_of_singleton in Hin as ->. done.
Qed.

Lemma flow_recv_later l out r p q got :
  flow l out r (p :: q) got → next_seq r ≤ pseq p → pending r !! pseq p = None →
  flow l out (set_pending r (<[pseq p := payload p]> (pending r))) q (got ++ [p]).
Proof.
  intros Hf Hle Hn. pose proof (flow_new _ _ _ _ _ _ Hf Hle Hn) as Ha. apply flow_recv; [done|..].
  - intros k d. rewrite lookup_insert_Some. intros [[<- <-]|[Hne Hk]].
    + split; [done|]. rewrite arrived_app, Ha, arrived_one. by rewrite decide_True.
    + destruct (flow_pending _ _ _ _ _ Hf k d Hk). split; [done | by apply arrived_kept].
  - intros p' [Hin|Hin]%elem_of_app.
    + destruct (flow_kept _ _ _ _ _ Hf p' Hin) as [?|Hs]; [by left | right]. by apply lookup_insert_is_Some'; right.
    + apply list_elem_of_singleton in Hin as ->. right. rewrite lookup_insert_eq. by eexists.
Qed.

(** The packet with the next number goes through the waiting ones. *)
Lemma flow_recv_next l out r p q got :
  flow l out r (p :: q) got → current r = [] → pseq p = next_seq r → pending r !! next_seq r = None →
  flow l out (take_next r (pending r) (payload p)) q (got ++ [p]).
Proof.
  intros Hf Hc He Hn. rewrite <- He in Hn. pose proof (flow_recv_later _ _ _ _ _ _ Hf ltac:(lia) Hn) as Hl.
  apply (flow_take _ _ _ _ _ (payload p)) in Hl; [|done|]; simpl in *.
  - by rewrite <- He, delete_insert_id in Hl.
  - by rewrite He, lookup_insert_eq.
Qed.

Lemma flow_copy l out r q got n :
  flow l out r q got → flow l (out ++ take n (current r)) (set_current r (drop n (current r))) q got.
Proof.
  intros [H1 H2 H3 H4 H5 H6]. split; simpl; try done. by rewrite <- app_assoc, take_drop.
Qed.

(** What the result of a read leaves. *)
Definition flow_after (l : list XHttpPacket) (out : bytes) (res : Poll (outcome bytes))
    (r : XHttpUploadReader) (q : list XHttpPacket) : Prop :=
  match res with
  | Ready (Ok d) => ∃ got, flow l (out ++ d) r q got
  | Pending => ∃ got, flow l out r q got ∧ q = [] ∧ current r = [] ∧ pending r !! next_seq r = None
  | Ready _ => True
  end.

Lemma round_flow l out r q got space :
  flow l out r q got →
  match round r q space with
  | inl (res, r', q') => flow_after l out res r' q'
  | inr (r', q') => ∃ got, flow l out r' q' got
  end.
Proof.
  intros Hf. unfold round. destruct (length (current r) =? 0)%nat eqn:Ec; cbn [negb]; to_prop.
  2:{ exists got. by apply flow_copy. }
  apply nil_length_inv in Ec. destruct (pending r !! next_seq r) as [d|] eqn:Ed; [exists got; by apply flow_take|].
  destruct q as [|p q]; [by exists got|]. destruct (Z.eqb_spec (pseq p) (next_seq r)) as [He|Hne].
  { eexists. by apply flow_recv_next. }
  destruct (_ || bool_decide _) eqn:Ew.
  - exists (got ++ [p]). apply flow_recv_known; [done|]. apply orb_true_iff in Ew as [Ew|Ew]; to_prop; [by left | by right].
  - apply orb_false_iff in Ew as [E1 E2]. apply Z.ltb_ge in E1. apply bool_decide_eq_false, eq_None_not_Some in E2.
    destruct (_ <=? _)%nat; [done|]. eexists. by apply flow_recv_later.
Qed.

Lemma rounds_flow fuel l out r q got space res r' q' :
  flow l out r q got → rounds fuel r q space = (res, r', q') → flow_after l out res r' q'.
Proof.
  revert r q got. induction fuel as [|fuel IH]; intros r q got Hf Hr; simpl in Hr; [by simplify_eq|].
  pose proof (round_flow l out r q got space Hf) as Hw.
  destruct (round r q space) as [[[res1 r1] q1]|[r1 q1]]; [by simplify_eq|]. destruct Hw as [got' Hf']. by eapply IH.
Qed.

(** A reader that waits has handed out all it can. *)
Lemma flow_waits l out r got :
  flow l out r [] got → current r = [] → pending r !! next_seq r = None → out = in_order l.
Proof.
  intros Hf Hc Hn. pose proof (flow_new _ _ _ _ _ (next_seq r) Hf ltac:(lia) Hn) as Ha. destruct Hf as [-> H2 H3 H4 _ _].
  rewrite app_nil_r. unfold in_order. rewrite (frontier_unique got (next_seq r)) by done.
  by rewrite <- H4, Hc, app_nil_r.
Qed.

Lemma uploads_in_order_app l l' : in_order l `prefix_of` in_order (l ++ l').
Proof.
  destruct (frontier_ok l) as (H0 & Hc & _). destruct (upto_app l l' _ Hc) as [Hu Hc'].
  unfold in_order. rewrite <- Hu. apply upto_prefix. split; [done | by apply complete_frontier].
Qed.

Lemma flow_prefix l out r q got : flow l out r q got → out `prefix_of` in_order l.
Proof.
  intros [-> H2 H3 H4 _ _]. destruct (upto_app got q _ H3) as [Hu Hc'].
  etrans; [|apply upto_prefix; split; [exact H2 | by apply complete_frontier]].
  rewrite Hu, <- H4. by eexists.
Qed.

End XHttpFacts.
