(* ===== verification/XHttpRuns.v ===== *)
(** * XHTTP sessions: what the runs of the system come to

    The invariant of every session over the runs of [XHttp.step], from its
    creation to the end of its reader, and the theorems that follow: uploads are
    put in order, memory is bounded, sessions without activity are reaped. *)
From S2P Require Import Prelude Text SharedUsers Stream XHttp XHttpFacts.
Local Open Scope Z_scope.

Module XHttpRuns.
Import Stream XHttp XHttpFacts.

(** ** What a change of the world keeps of a session *)
Definition flags (x : XHttpSession) : bool * bool := (rx x, connected x).

Record keeps (a : nat) (w w' : World) : Prop := {
  keeps_channel : channels w' !! a = channels w !! a;
  keeps_fresh : (Shared.next (heap w') ≤ a)%nat ↔ (Shared.next (heap w) ≤ a)%nat;
  keeps_session x' : session_at a w' = Some x' → ∃ x, session_at a w = Some x ∧ flags x' = flags x }.

#[export] Instance keeps_preorder a : PreOrder (keeps a).
Proof.
  split; [split; [done..|by eexists]|]. intros w1 w2 w3 [A1 A2 A3] [B1 B2 B3].
  split; [congruence | by rewrite B2 |]. intros x3 H3. apply B3 in H3 as (x2 & H2 & E2).
  apply A3 in H2 as (x1 & H1 & E1). exists x1. split; [done | congruence].
Qed.

(** The sessions are not older than the clock. *)
Definition timely (w : World) : Prop :=
  ∀ a x, session_at a w = Some x → last_activity x ≤ activity_millis w.

Lemma session_at_drop w a b x : session_at b (arc_drop a w) = Some x → session_at b w = Some x.
Proof.
  unfold session_at, Shared.arc_deref, arc_drop, Shared.arc_drop. simpl.
  destruct (Shared.arcs (heap w) !! a) as [[y [|[|n]]]|] eqn:E; simpl; [..|done];
    destruct (decide (a = b)) as [->|Hne];
    rewrite ?lookup_delete_eq, ?lookup_insert_eq, ?lookup_delete_ne, ?lookup_insert_ne by done;
    try done. by rewrite E.
Qed.

Lemma keeps_clone a b w : keeps a w (arc_clone b w).
Proof. split; [done..|]. intros x. rewrite session_at_clone. by eexists. Qed.
Lemma keeps_drop a b w : keeps a w (arc_drop b w).
Proof.
  split; [done | by rewrite drop_next |]. intros x Hx. apply session_at_drop in Hx. by eexists.
Qed.
Lemma keeps_with a b f w :
  (a = b → ∀ x, session_at b w = Some x → flags (f x) = flags x) → keeps a w (with_session b f w).
Proof.
  intros Hf. split; [done..|]. intros x'. rewrite session_at_with. destruct (decide (b = a)) as [->|Hne]; [|by eexists].
  intros (x & Hx & ->)%fmap_Some. exists x. split; [done | by apply Hf].
Qed.
Lemma keeps_touch a b w : keeps a w (touch_session b w).
Proof. by apply keeps_with. Qed.
Lemma keeps_table a m w : keeps a w (set_sessions w m).
Proof. split; [done..|by eexists]. Qed.
Lemma keeps_channel_ne a b c w : a ≠ b → keeps a w (set_channel b c w).
Proof. intros Hne. split; [simpl; by rewrite lookup_insert_ne|done|by eexists]. Qed.
Lemma keeps_remove a id b w : keeps a w (remove_session_if_current id b w).
Proof.
  unfold remove_session_if_current. destruct (bool_decide _); [|done].
  etrans; [apply keeps_table | apply keeps_drop].
Qed.
Lemma keeps_new a max w : a ≠ Shared.next (heap w) → keeps a w (new_session max w).2.
Proof.
  intros Hne. split; unfold new_session; simpl; [by rewrite lookup_insert_ne | lia |].
  intros x. unfold session_at, Shared.arc_deref. simpl. rewrite lookup_insert_ne by done. by eexists.
Qed.

Lemma timely_clone a w : timely w → timely (arc_clone a w).
Proof. intros H b x. rewrite session_at_clone. apply H. Qed.
Lemma timely_drop a w : timely w → timely (arc_drop a w).
Proof. intros H b x Hx. apply session_at_drop in Hx. by apply (H b). Qed.
Lemma timely_with a f w :
  (∀ x, last_activity x ≤ activity_millis w → last_activity (f x) ≤ activity_millis w) →
  timely w → timely (with_session a f w).
Proof.
  intros Hf H b x. rewrite session_at_with. destruct (decide (a = b)); [|apply H].
  intros (y & Hy & ->)%fmap_Some. by eapply Hf, H.
Qed.
Lemma timely_touch a w : timely w → timely (touch_session a w).
Proof. apply timely_with. simpl. lia. Qed.
Lemma timely_remove id a w : timely w → timely (remove_session_if_current id a w).
Proof.
  intros H. unfold remove_session_if_current. destruct (bool_decide _); [|done]. by apply timely_drop.
Qed.
Lemma timely_new max w : timely w → timely (new_session max w).2.
Proof.
  intros H b x. unfold new_session, session_at, Shared.arc_deref. simpl. intros Hx.
  destruct (decide (Shared.next (heap w) = b)) as [<-|Hne].
  - rewrite lookup_insert_eq in Hx. by injection Hx as <-.
  - rewrite lookup_insert_ne in Hx by done. by apply (H b).
Qed.

Lemma timely_hold w id max a created w' : timely w → hold w id max = (a, created, w') → timely w'.
Proof.
  intros H. unfold hold. destruct (sessions w !! id); [intros [= <- <- <-]; by apply timely_clone|].
  pose proof (timely_new max w H) as Hn. destruct (new_session max w) as [b w1]. intros [= <- <- <-].
  by apply timely_clone, timely_clone.
Qed.

Lemma timely_take w id max res reaper w' :
  timely w → take_session_reader w id max = (res, reaper, w') → timely w'.
Proof.
  intros H. unfold take_session_reader. destruct (hold w id max) as [[a created] w1] eqn:Eh.
  apply (timely_hold _ _ _ _ _ _ H) in Eh. destruct (session_at a w1) as [x|]; [|by intros [= <- <- <-]].
  set (w2 := with_session a _ w1). assert (H2 : timely w2) by (by apply timely_with).
  destruct (connected x); [|destruct (rx x)]; intros [= <- <- <-]; [|by apply timely_with|];
    destruct created; eauto using timely_drop.
Qed.

Lemma timely_send w a p res w' : timely w → poll_send a p w = (res, w') → timely w'.
Proof.
  intros H. unfold poll_send. destruct (channels w !! a) as [c|]; [|by intros [= <- <-]].
  destruct (closed c); [by intros [= <- <-]|]. by destruct (_ <? _)%nat; intros [= <- <-].
Qed.

Lemma timely_rounds fuel r w space : timely w → timely (read_rounds fuel r w space).2.
Proof.
  revert r w. induction fuel as [|fuel IH]; intros r w H; simpl; [done|]. unfold read_round, poll_recv.
  destruct (negb _); [done|]. destruct (pending r !! next_seq r); [by apply IH|].
  destruct (channels w !! session r) as [c|]; [|done]. destruct (queue c) as [|p q]; [by destruct (bool_decide _)|].
  destruct (_ =? _); [by apply IH|]. destruct (_ || _); [by apply IH|]. by destruct (_ <=? _)%nat; [|apply IH].
Qed.

Lemma timely_tick r w again w' : timely w → reaper_tick r w = (again, w') → timely w'.
Proof.
  intros H. unfold reaper_tick. destruct r as [id a]. destruct (session_at a w) as [x|]; [|by intros [= <- <-]].
  destruct (if connected x then _ else _); intros [= <- <-]; [by apply timely_remove | done].
Qed.

Lemma world_spawn s r : world (spawn s r) = world s.
Proof. by destruct r. Qed.
Lemma readers_spawn s r : readers (spawn s r) = readers s.
Proof. by destruct r. Qed.

Lemma step_timely config s e : timely (world s) → timely (world (step config s e).1).
Proof.
  intros H. destruct e as [id ps|i|i|id|j space|j|k|m]; cbn [step].
  - unfold get_or_create_session. destruct (hold _ _ _) as [[a created] w] eqn:Eh.
    apply (timely_hold _ _ _ _ _ _ H) in Eh. cbn [fst]. rewrite world_spawn. simpl.
    destruct ps; [done | by apply timely_touch].
  - destruct (uploads s !! i) as [u|]; [|done]. destruct (items u) as [|p ps]; [by apply timely_drop|].
    destruct (poll_send _ _ _) as [res w] eqn:Es. apply (timely_send _ _ _ _ _ H) in Es.
    destruct res as [[[]|e|]|]; [|by apply timely_drop..|done].
    destruct ps; [by apply timely_drop | by apply timely_touch].
  - destruct (uploads s !! i); [by apply timely_drop | done].
  - destruct (take_session_reader _ _ _) as [[res reaper] w] eqn:Ek. apply (timely_take _ _ _ _ _ _ H) in Ek.
    destruct res; cbn [fst]; by rewrite world_spawn.
  - destruct (readers s !! j) as [r|]; [|done]. unfold poll_read. destruct (_ =? _)%nat; [done|].
    destruct (read_rounds _ _ _ _) as [[res r'] w] eqn:E. simpl.
    change w with (res, r', w).2. rewrite <- E. by apply timely_rounds, timely_touch.
  - destruct (readers s !! j) as [r|]; [|done]. simpl. unfold drop_reader. apply timely_drop.
    pose proof (timely_remove (reader_id r) (session r) _ H) as Hr. by destruct (channels _ !! _).
  - destruct (reapers s !! k) as [r|]; [|done]. destruct (reaper_tick _ _) as [again w] eqn:Et.
    apply (timely_tick _ _ _ _ H) in Et. destruct again; [done | by apply timely_drop].
  - intros a x Hx. simpl. apply H in Hx. lia.
Qed.

(** ** The life of a session *)
Definition readers_of (s : System) (a : nat) : list XHttpUploadReader := filter (λ r, session r = a) (readers s).

Section filters.
Context {A : Type} (P : A → Prop) `{∀ x, Decision (P x)}.
Implicit Types (l : list A).

Lemma filter_at l j x y :
  l !! j = Some x →
  filter P l = filter P (take j l) ++ filter P [x] ++ filter P (drop (S j) l) ∧
  filter P (<[j := y]> l) = filter P (take j l) ++ filter P [y] ++ filter P (drop (S j) l) ∧
  filter P (delete j l) = filter P (take j l) ++ filter P (drop (S j) l).
Proof.
  intros Hj. pose proof (lookup_lt_Some _ _ _ Hj) as Hl. split_and!.
  - rewrite <- (take_drop_middle l j x Hj) at 1. rewrite filter_app, !filter_cons, filter_nil. by destruct (decide _).
  - rewrite insert_take_drop by done. rewrite filter_app, !filter_cons, filter_nil. by destruct (decide _).
  - by rewrite delete_take_drop, filter_app.
Qed.

Lemma filter_other l j x y :
  l !! j = Some x → ¬ P x → ¬ P y → filter P (<[j := y]> l) = filter P l ∧ filter P (delete j l) = filter P l.
Proof.
  intros Hj Hx Hy. destruct (filter_at l j x y Hj) as (-> & -> & ->).
  by rewrite !filter_cons_False, !filter_nil by done.
Qed.

Lemma filter_only l j x y z :
  l !! j = Some x → P x → P y → filter P l = [z] →
  z = x ∧ filter P (<[j := y]> l) = [y] ∧ filter P (delete j l) = [].
Proof.
  intros Hj Hx Hy. destruct (filter_at l j x y Hj) as (-> & -> & ->).
  rewrite !filter_cons_True, !filter_nil by done. simpl.
  destruct (filter P (take j l)) as [|u us]; simpl; [by intros [= <- ->]|].
  intros [= -> Hnil]. by destruct us.
Qed.
End filters.


Section life.
Context (config : XHttpConfig).
Implicit Types (s : System) (h : History) (a : nat).

Definition open_channel (c : Channel) : Prop :=
  closed c = false ∧ capacity c = max_buffered_posts config ∧ (length (queue c) ≤ max_buffered_posts config)%nat.

Definition flags_are (w : World) a (f : bool * bool) : Prop := ∀ x, session_at a w = Some x → flags x = f.

Definition bounded_reader (r : XHttpUploadReader) : Prop :=
  reader_max r = max_buffered_posts config ∧ (size (pending r) ≤ max_buffered_posts config)%nat.

(** An address is not yet in use, or its session waits for its reader, or has
    one, or has lost it. *)
Inductive phase s h a : Prop :=
  | Fresh :
      (Shared.next (heap (world s)) ≤ a)%nat → readers_of s a = [] →
      sent_to h a = [] → read_from h a = [] → phase s h a
  | Waiting c :
      (a < Shared.next (heap (world s)))%nat → readers_of s a = [] →
      channels (world s) !! a = Some c → open_channel c → flags_are (world s) a (true, false) →
      sent_to h a = queue c → read_from h a = [] → phase s h a
  | Reading r c :
      (a < Shared.next (heap (world s)))%nat → readers_of s a = [r] → bounded_reader r →
      channels (world s) !! a = Some c → open_channel c → flags_are (world s) a (false, true) →
      (a ∉ failed h → ∃ got, flow (sent_to h a) (read_from h a) r (queue c) got) → phase s h a
  | Gone c :
      (a < Shared.next (heap (world s)))%nat → readers_of s a = [] →
      channels (world s) !! a = Some c → closed c = true ∧ queue c = [] → flags_are (world s) a (false, true) →
      (a ∉ failed h → read_from h a `prefix_of` in_order (sent_to h a)) → phase s h a.

Definition same_history h h' a : Prop :=
  sent_to h' a = sent_to h a ∧ read_from h' a = read_from h a ∧ (a ∈ failed h' ↔ a ∈ failed h).

Lemma flags_keeps w w' a f : keeps a w w' → flags_are w a f → flags_are w' a f.
Proof. intros [_ _ K] H x Hx. apply K in Hx as (y & Hy & ->). by apply H. Qed.

(** Nothing happens to the session at [a]. *)
Lemma phase_keeps s s' h h' a :
  keeps a (world s) (world s') → readers_of s' a = readers_of s a → same_history h h' a →
  phase s h a → phase s' h' a.
Proof.
  intros K Hr (Hs & Hd & Hf) Hp. pose proof (keeps_channel _ _ _ K) as Hc. pose proof (keeps_fresh _ _ _ K) as Hn.
  pose proof (flags_keeps (world s) (world s') a) as Hk.
  destruct Hp as [|c|r c|c]; [apply Fresh | apply Waiting with c | apply Reading with r c | apply Gone with c];
    rewrite ?Hr, ?Hs, ?Hd, ?Hc, ?Hf; eauto; lia.
Qed.

Lemma same_history_refl h a : same_history h h a.
Proof. done. Qed.

Lemma phase_step s s' h a :
  keeps a (world s) (world s') → readers s' = readers s → phase s h a → phase s' h a.
Proof. intros K Hr. apply phase_keeps; [done | unfold readers_of; by rewrite Hr | apply same_history_refl]. Qed.

Lemma hold_phase s h id a created w b :
  refs_ok s → hold (world s) id (max_buffered_posts config) = (a, created, w) →
  phase s h b → phase (with_world s w) h b.
Proof.
  intros Hok Hh Hp. unfold hold in Hh. destruct (sessions (world s) !! id) as [a0|].
  { injection Hh as <- <- <-. apply (phase_step s); [apply keeps_clone | done..]. }
  pose proof (keeps_new b (max_buffered_posts config) (world s)) as Hk.
  destruct (new_session_ok (world s) (max_buffered_posts config) (proj1 (proj1 Hok)))
    as (w1 & Hn & _ & _ & _ & Hch & _ & Hat & _). rewrite Hn in Hh, Hk. injection Hh as <- <- <-.
  set (w2 := set_sessions w1 _). assert (Hk2 : keeps b w1 (arc_clone (Shared.next (heap (world s))) (arc_clone (Shared.next (heap (world s))) w2))).
  { etrans; [apply keeps_table|]. etrans; apply keeps_clone. }
  destruct (decide (b = Shared.next (heap (world s)))) as [->|Hne].
  2:{ apply (phase_step s); [etrans; [by apply Hk | done] | done..]. }
  apply (phase_step (with_world s w1)); [done..|].
  destruct Hp as [_ Hr Hs Hd|? ? | ? ? ? | ? ?]; [|lia..].
  apply Waiting with (mkChannel [] (max_buffered_posts config) false); simpl; try done.
  - injection Hn as <-. simpl. lia.
  - by rewrite Hch, lookup_insert_eq.
  - split_and!; simpl; [done..|lia].
  - intros x Hx. simpl in Hx. rewrite Hat in Hx. by injection Hx as <-.
Qed.

Lemma sent_to_other h a b p : b ≠ a → same_history h (observe h (Sent b p)) a.
Proof. intros Hne. split_and!; [|done..]. unfold sent_to. simpl. by rewrite lookup_insert_ne. Qed.
Lemma delivered_other h a b res : b ≠ a → same_history h (observe h (Delivered b res)) a.
Proof.
  intros Hne. destruct res as [[d|e|]|]; [| | |done].
  - split_and!; [done| |done]. unfold read_from. simpl. by rewrite lookup_insert_ne.
  - split_and!; [done..|]. simpl. rewrite elem_of_union, elem_of_singleton. naive_solver.
  - split_and!; [done..|]. simpl. rewrite elem_of_union, elem_of_singleton. naive_solver.
Qed.

Lemma flow_sends l out r q got p : flow l out r q got → flow (l ++ [p]) out r (q ++ [p]) got.
Proof. intros [-> H2 H3 H4 H5 H6]. split; try done. by rewrite app_assoc. Qed.

(** A packet sent arrives in the queue of a session that has not lost its reader. *)
Lemma send_phase s h b a p res w :
  is_Some (session_at b (world s)) → refs_ok s → poll_send b p (world s) = (res, w) → phase s h a →
  phase (with_world s w) (observe h (match res with Ready (Ok _) => Sent b p | _ => Nothing end)) a.
Proof.
  intros Hal Hok Hs Hp. destruct (decide (b = a)) as [->|Hne].
  2:{ apply (phase_keeps s (with_world s w) h _ a); [|done| |done].
      - unfold poll_send in Hs. destruct (channels (world s) !! b); [|by simplify_eq].
        destruct (closed _); [by simplify_eq|]. destruct (_ <? _)%nat; simplify_eq; [by apply keeps_channel_ne | done].
      - destruct res as [[]|]; [by apply sent_to_other | apply same_history_refl..]. }
  assert (Hst : sent_to (observe h (Sent a p)) a = sent_to h a ++ [p]).
  { unfold sent_to. simpl. by rewrite lookup_insert_eq. }
  unfold poll_send in Hs. destruct Hp as [Hn Hr Hs0 Hd0|c Hn Hr Hc Ho Hf Hs0 Hd0|r c Hn Hr Hb Hc Ho Hf Hfl|c Hn Hr Hc Ho Hf Hfl].
  - apply (refs_session _ _ (proj1 (proj1 Hok))) in Hal. unfold refs in Hal.
    destruct (ho_fresh _ (proj1 (proj1 Hok)) a Hn) as [E _]. rewrite E in Hal. lia.
  - rewrite Hc in Hs. destruct Ho as (Ho1 & Ho2 & Ho3). rewrite Ho1 in Hs.
    destruct (_ <? _)%nat eqn:E; injection Hs as <- <-; to_prop; [|by apply Waiting with c].
    apply Waiting with (mkChannel (queue c ++ [p]) (capacity c) false); try done.
    + simpl. by rewrite lookup_insert_eq.
    + split_and!; simpl; [done..|]. rewrite length_app. simpl. lia.
    + by rewrite Hst, Hs0.
  - rewrite Hc in Hs. destruct Ho as (Ho1 & Ho2 & Ho3). rewrite Ho1 in Hs.
    destruct (_ <? _)%nat eqn:E; injection Hs as <- <-; to_prop; [|by apply Reading with r c].
    apply Reading with r (mkChannel (queue c ++ [p]) (capacity c) false); try done.
    + simpl. by rewrite lookup_insert_eq.
    + split_and!; simpl; [done..|]. rewrite length_app. simpl. lia.
    + intros Hnf. rewrite Hst. destruct (Hfl Hnf) as [got Hg]. exists got. by apply flow_sends.
  - rewrite Hc, (proj1 Ho) in Hs. injection Hs as <- <-. by apply Gone with c.
Qed.

Lemma upload_held s i u : uploads s !! i = Some u → (0 < holders s (target u))%nat.
Proof.
  intros Hu%list_elem_of_lookup_2. unfold holders. pose proof (count_elem (target u) (target <$> uploads s)) as Hc.
  specialize (Hc (list_elem_of_fmap_2 _ _ _ Hu)). lia.
Qed.

Lemma send_step_phase s h a i :
  refs_ok s → phase s h a → phase (step config s (Send i)).1 (observe h (step config s (Send i)).2) a.
Proof.
  intros Hok Hp. cbn [step]. destruct (uploads s !! i) as [u|] eqn:Hu; [|done].
  pose proof (held_alive s _ (proj1 Hok) (upload_held s i u Hu)) as Hal.
  destruct (items u) as [|p ps]; [apply (phase_step s); [apply keeps_drop | done..]|].
  destruct (poll_send (target u) p (world s)) as [res w] eqn:Es.
  pose proof (send_phase s h _ a p res w Hal Hok Es Hp) as Hp'.
  destruct res as [[[]|e|]|]; cbn [fst snd].
  - destruct ps; apply (phase_step (with_world s w)); try done; [apply keeps_drop | apply keeps_touch].
  - apply (phase_step (with_world s w)); [apply keeps_drop | done..].
  - apply (phase_step (with_world s w)); [apply keeps_drop | done..].
  - done.
Qed.

Lemma flow_opens l a id : flow l [] (mkReader a id ∅ 0 [] (max_buffered_posts config)) l [].
Proof. split; simpl; try done; [intros k ?; lia | intros p Hp; by apply not_elem_of_nil in Hp]. Qed.

(** The flags of a session that is there. *)
Lemma phase_flags s h a x :
  heap_ok (world s) → phase s h a → session_at a (world s) = Some x →
  (∃ c, flags x = (true, false) ∧ readers_of s a = [] ∧ (a < Shared.next (heap (world s)))%nat ∧
     channels (world s) !! a = Some c ∧ open_channel c ∧ sent_to h a = queue c ∧ read_from h a = []) ∨
  flags x = (false, true).
Proof.
  intros Hok Hp Hx. destruct Hp as [Hn _ _ _|c Hn Hr Hc Ho Hf Hs0 Hd0|r c _ _ _ _ _ Hf _|c _ _ _ _ Hf _];
    [|left; exists c; by split_and!; [apply Hf|..]|right; by apply Hf..].
  assert (Hal : is_Some (session_at a (world s))) by (by eexists).
  apply (refs_session _ _ Hok) in Hal. unfold refs in Hal.
  destruct (ho_fresh _ Hok a Hn) as [E _]. rewrite E in Hal. lia.
Qed.

Lemma phase_spawn s h a r : phase s h a → phase (spawn s r) h a.
Proof. destruct r; [|done]. by apply phase_step. Qed.

Lemma post_phase s h a id packets :
  refs_ok s → phase s h a → phase (step config s (Post id packets)).1 h a.
Proof.
  intros Hok Hp. cbn [step]. unfold get_or_create_session.
  destruct (hold (world s) id (max_buffered_posts config)) as [[b created] w1] eqn:Eh.
  pose proof (hold_phase s h id b created w1 a Hok Eh Hp) as Hp1. cbn [fst]. apply phase_spawn.
  apply (phase_step (with_world s w1)); [|done..]. simpl. destruct packets; [done | apply keeps_touch].
Qed.

Lemma open_phase s h a id :
  refs_ok s → (∀ b, phase s h b) →
  phase (step config s (Open id)).1 (observe h (step config s (Open id)).2) a.
Proof.
  intros Hok Hph. cbn [step]. unfold take_session_reader.
  destruct (hold (world s) id (max_buffered_posts config)) as [[b created] w1] eqn:Eh.
  assert (Hp1 : ∀ a, phase (with_world s w1) h a) by (intros a'; by eapply hold_phase).
  pose proof (hold_ok s _ _ b created w1 (proj1 Hok) Eh) as (Hok1 & _ & _ & [x Hx] & _). rewrite Hx.
  set (w2 := with_session b _ w1). set (w3 := with_session b _ w2).
  assert (Hother : a ≠ b → keeps a w1 w2 ∧ keeps a w2 w3) by (intros; by split; apply keeps_with).
  destruct (phase_flags (with_world s w1) h b x Hok1 (Hp1 b) Hx) as [(c & Hf & Hr & Hn & Hc & Ho & Hs & Hd)|Hf];
    pose proof Hf as Hfx; injection Hf as -> ->; cbn [fst snd].
  - apply phase_spawn. destruct (decide (a = b)) as [->|Hne].
    + apply Reading with (mkReader b id ∅ 0 [] (max_buffered_posts config)) c; try done.
      * unfold readers_of in *. simpl in *. by rewrite filter_app, Hr, filter_cons_True.
      * split; [done | cbn [pending]; rewrite map_size_empty; lia].
      * intros y. simpl. unfold w3, w2. rewrite !session_at_with, !decide_True, Hx by done. intros Hy. by injection Hy as <-.
      * intros _. exists []. simpl. rewrite Hs, Hd. apply flow_opens.
    + apply (phase_keeps (with_world s w1) _ h); [|..|by apply Hp1]; [|..|done].
      * simpl. destruct (Hother Hne) as [K1 K2]. by etrans.
      * unfold readers_of. simpl. rewrite filter_app, filter_cons_False, app_nil_r; done.
  - apply phase_spawn. apply (phase_step (with_world s w1)); [|done..|by apply Hp1]. simpl.
    assert (K2 : keeps a w1 w2).
    { apply keeps_with. intros -> y Hy. assert (y = x) as -> by congruence. unfold flags in *. simpl. congruence. }
    destruct created; repeat (etrans; [|apply keeps_drop]); done.
Qed.

Lemma reader_phase s h j r :
  readers s !! j = Some r → phase s h (session r) →
  readers_of s (session r) = [r] ∧ bounded_reader r ∧ (session r < Shared.next (heap (world s)))%nat ∧
  flags_are (world s) (session r) (false, true) ∧
  ∃ c, channels (world s) !! session r = Some c ∧ open_channel c ∧
    (session r ∉ failed h → ∃ got, flow (sent_to h (session r)) (read_from h (session r)) r (queue c) got).
Proof.
  intros Hj Hp. assert (Hin : r ∈ readers_of s (session r)).
  { apply list_elem_of_filter. split; [done | by eapply list_elem_of_lookup_2]. }
  destruct Hp as [_ Hr _ _|c _ Hr _ _ _ _ _|z c Hn Hr Hb Hc Ho Hf Hfl|c _ Hr _ _ _ _];
    rewrite Hr in Hin; [by apply not_elem_of_nil in Hin..| |by apply not_elem_of_nil in Hin].
  apply list_elem_of_singleton in Hin as <-. split_and!; try done; by apply Hb || eauto.
Qed.

Lemma poll_read_pure r w space c :
  channels w !! session r = Some c → is_Some (session_at (session r) w) → (0 < space)%nat →
  poll_read r w space =
    let '(res, r', q) := rounds (S (S (weight r (queue c)))) r (queue c) space in
    (res, r', put (touch_session (session r) w) (session r) c q).
Proof.
  intros Hc Hal Hsp. unfold poll_read. rewrite (proj2 (Nat.eqb_neq space 0)) by lia.
  assert (Hal' : is_Some (session_at (session r) (touch_session (session r) w))).
  { unfold touch_session. rewrite session_at_with, decide_True by done. by apply fmap_is_Some. }
  unfold read_fuel. simpl channels. rewrite Hc. by apply read_rounds_pure.
Qed.

(** A poll of a reader, in any state the system can be in. *)
Lemma reader_poll s h j r space res r' w :
  refs_ok s → (∀ b, phase s h b) → readers s !! j = Some r → poll_read r (world s) space = (res, r', w) →
  bounded_reader r' ∧ res ≠ Ready Panic ∧ ((0 < space)%nat → res ≠ Ready (Ok [])) ∧
  ∃ c q, channels (world s) !! session r = Some c ∧ (length q ≤ length (queue c))%nat ∧
    keeps (session r) (put (world s) (session r) c q) w ∧
    (∀ a, a ≠ session r → keeps a (world s) w) ∧
    (session r ∉ failed h → (0 < space)%nat →
       flow_after (sent_to h (session r)) (read_from h (session r)) res r' q) ∧
    (space = 0%nat → res = Ready (Ok []) ∧ r' = r ∧ q = queue c).
Proof.
  intros Hok Hph Hj Hp. destruct (reader_phase s h j r Hj (Hph _)) as (_ & Hb & _ & _ & c & Hc & Ho & Hfl).
  pose proof (held_alive s _ (proj1 Hok) (reader_held s r (list_elem_of_lookup_2 _ _ _ Hj))) as Hal.
  destruct (decide (space = 0%nat)) as [->|Hne].
  { unfold poll_read in Hp. simpl in Hp. injection Hp as <- <- <-. split; [done|]. split; [done|]. split; [lia|].
    exists c, (queue c). rewrite put_same by done. split_and!; done || lia. }
  rewrite (poll_read_pure r (world s) space c) in Hp by (done || lia).
  pose proof (poll_read_refs r (world s) space) as Hsame.
  destruct (rounds _ r (queue c) space) as [[res1 r1] q] eqn:Er. injection Hp as -> -> <-.
  rewrite (poll_read_pure r (world s) space c), Er in Hsame by (done || lia).
  destruct (Hsame _ _ _ eq_refl) as [_ (E1 & E2 & E3)]. clear Hsame. destruct Hb as [Hb1 Hb2].
  pose proof Er as Er'. apply rounds_end in Er' as (Hnp & Hs' & Hl & Hne'); [|lia..].
  split_and!; [split; lia|done|done|]. exists c, q. split_and!; try done.
  - apply (keeps_touch _ (session r) (put (world s) (session r) c q)).
  - intros a Ha. etrans; [apply keeps_touch | by apply keeps_channel_ne].
  - intros Hnf _. destruct (Hfl Hnf) as [got Hg]. by eapply rounds_flow.
Qed.

Lemma flow_delivered s h j r space res r' w :
  refs_ok s → (∀ b, phase s h b) → readers s !! j = Some r → poll_read r (world s) space = (res, r', w) →
  let h' := observe h (Delivered (session r) res) in
  ∃ c, channels w !! session r = Some c ∧ open_channel c ∧
    (session r ∉ failed h' → ∃ got, flow (sent_to h' (session r)) (read_from h' (session r)) r' (queue c) got).
Proof.
  intros Hok Hph Hj Hp. destruct (reader_poll s h j r space res r' w Hok Hph Hj Hp)
    as (_ & Hnp & _ & c & q & Hc & Hl & K & _ & Hfl & H0).
  destruct (reader_phase s h j r Hj (Hph _)) as (_ & _ & _ & _ & c' & Hc' & (Ho1 & Ho2 & Ho3) & Hfl').
  assert (c' = c) as -> by congruence. exists (mkChannel q (capacity c) (closed c)).
  split; [rewrite (keeps_channel _ _ _ K); simpl; by rewrite lookup_insert_eq|].
  split; [split_and!; simpl; [done..|lia]|]. intros Hnf.
  assert (Hnf0 : session r ∉ failed h) by (destruct res as [[]|]; [done|set_solver..|done]).
  assert (Hafter : flow_after (sent_to h (session r)) (read_from h (session r)) res r' q).
  { destruct (decide (space = 0%nat)) as [E|E]; [|apply Hfl; [done | lia]].
    destruct (H0 E) as (-> & -> & ->). destruct (Hfl' Hnf0) as [got Hg]. exists got. by rewrite app_nil_r. }
  destruct res as [[d|e|]|]; [| |done|].
  - destruct Hafter as [got Hg]. exists got. unfold read_from at 1. simpl. by rewrite lookup_insert_eq.
  - simpl in Hnf. set_solver.
  - destruct Hafter as (got & Hg & _). by exists got.
Qed.

Lemma read_phase s h a j space :
  refs_ok s → (∀ b, phase s h b) →
  phase (step config s (Read j space)).1 (observe h (step config s (Read j space)).2) a.
Proof.
  intros Hok Hph. cbn [step]. destruct (readers s !! j) as [r|] eqn:Hj; [|done].
  destruct (poll_read r (world s) space) as [[res r'] w] eqn:Ep. cbn [fst snd].
  destruct (poll_read_refs _ _ _ _ _ _ Ep) as [_ (Hsr & _)].
  destruct (reader_poll s h j r space res r' w Hok Hph Hj Ep) as (Hb & _ & _ & c & q & _ & _ & K & Ko & _).
  destruct (reader_phase s h j r Hj (Hph _)) as (Hr & _ & Hn & Hf & _).
  destruct (decide (a = session r)) as [->|Hne].
  - destruct (flow_delivered s h j r space res r' w Hok Hph Hj Ep) as (c' & Hc' & Ho' & Hfl).
    apply Reading with r' c'; try done.
    + simpl. pose proof (keeps_fresh _ _ _ K) as Hn'. simpl in Hn'. lia.
    + unfold readers_of. simpl. by apply (filter_only _ _ _ r r' r Hj).
    + by apply (flags_keeps (put (world s) (session r) c q)).
  - apply (phase_keeps s _ h); [by apply Ko| |by apply delivered_other|by apply Hph].
    unfold readers_of. simpl. apply (filter_other _ _ _ r r' Hj); congruence.
Qed.

Lemma close_phase s h a j :
  refs_ok s → (∀ b, phase s h b) → phase (step config s (Close j)).1 h a.
Proof.
  intros Hok Hph. cbn [step]. destruct (readers s !! j) as [r|] eqn:Hj; [|done]. cbn [fst].
  destruct (reader_phase s h j r Hj (Hph _)) as (Hr & _ & Hn & Hf & c & Hc & _ & Hfl).
  unfold drop_reader. set (w1 := remove_session_if_current _ _ _).
  assert (K1 : ∀ b, keeps b (world s) w1) by (intros; apply keeps_remove).
  rewrite (keeps_channel _ _ _ (K1 (session r))), Hc. set (w2 := set_channel _ _ w1).
  destruct (decide (a = session r)) as [->|Hne].
  - pose proof (keeps_drop (session r) (session r) w2) as K2.
    apply Gone with (mkChannel [] (capacity c) true); try done.
    + cbn [world]. rewrite drop_next. pose proof (keeps_fresh _ _ _ (K1 (session r))) as E1. simpl. lia.
    + unfold readers_of. simpl. by apply (filter_only _ _ _ r r r Hj).
    + cbn [world]. rewrite (keeps_channel _ _ _ K2). simpl. by rewrite lookup_insert_eq.
    + apply (flags_keeps w2); [done|]. by apply (flags_keeps (world s) w1).
    + intros Hnf. destruct (Hfl Hnf) as [got Hg]. by eapply flow_prefix.
  - apply (phase_keeps s _ h); [|..|by apply Hph]; [| |done].
    + simpl. etrans; [apply K1|]. etrans; [by apply keeps_channel_ne | apply keeps_drop].
    + unfold readers_of. simpl. apply (filter_other _ _ _ r r Hj); congruence.
Qed.

Lemma tick_phase s h a k : phase s h a → phase (step config s (Tick k)).1 h a.
Proof.
  intros Hp. cbn [step]. destruct (reapers s !! k) as [[id b]|]; [|done].
  destruct (reaper_tick (id, b) (world s)) as [again w] eqn:Et.
  assert (K : keeps a (world s) w).
  { unfold reaper_tick in Et. destruct (session_at b (world s)); [|by simplify_eq].
    destruct (if connected _ then _ else _); simplify_eq; [apply keeps_remove | done]. }
  destruct again; apply (phase_step s); try done. simpl. etrans; [done | apply keeps_drop].
Qed.

(** ** All runs *)
Record sound s h : Prop := {
  sound_refs : refs_ok s;
  sound_time : timely (world s);
  sound_phase a : phase s h a }.

Lemma step_sound s h e : sound s h → sound (step config s e).1 (observe h (step config s e).2).
Proof.
  intros [Hr Ht Hp]. split; [by apply step_refs | by apply step_timely |]. intros a.
  destruct e as [id ps|i|i|id|j space|j|k|m].
  - assert (E : (step config s (Post id ps)).2 = Nothing).
    { cbn [step]. by destruct (get_or_create_session _ _ _) as [[? ?] ?]. }
    rewrite E. by apply post_phase.
  - by apply send_step_phase.
  - cbn [step]. destruct (uploads s !! i); [|done]. apply (phase_step s); [apply keeps_drop | done..].
  - by apply open_phase.
  - by apply read_phase.
  - assert (E : (step config s (Close j)).2 = Nothing) by (cbn [step]; by destruct (readers s !! j)).
    rewrite E. by apply close_phase.
  - assert (E : (step config s (Tick k)).2 = Nothing).
    { cbn [step]. destruct (reapers s !! k); [|done]. by destruct (reaper_tick _ _). }
    rewrite E. by apply tick_phase.
  - apply (phase_step s); [|done..]. split; [done..|by eexists].
Qed.

Lemma initial_sound : sound initial no_history.
Proof. split; [apply initial_refs | by intros a x | intros a; apply Fresh; done || simpl; lia]. Qed.

Lemma run_sound s h es s' h' : sound s h → run config s h es = (s', h') → sound s' h'.
Proof.
  revert s h. induction es as [|e es IH]; intros s h Hs Hr; simpl in Hr; [by simplify_eq|].
  pose proof (step_sound s h e Hs) as Hs1. destruct (step config s e) as [s1 o]. by eapply IH.
Qed.

(** A reaper's tick when its session is stale. *)
Lemma tick_stale s k id a x :
  refs_ok s → reapers s !! k = Some (id, a) → session_at a (world s) = Some x →
  SESSION_IDLE_REAP_SECS * 1000 < activity_millis (world s) - last_activity x →
  let s' := (step config s (Tick k)).1 in
  reapers s' = delete k (reapers s) ∧ uploads s' = uploads s ∧ readers s' = readers s ∧
  activity_millis (world s') = activity_millis (world s) ∧
  ∀ b y, session_at b (world s') = Some y → session_at b (world s) = Some y.
Proof.
  intros Hok Hk Hx Hst. cbv zeta. cbn [step]. change (reapers s !! k = @Some Reaper (id, a)) in Hk. rewrite Hk. unfold reaper_tick. rewrite Hx.
  assert (Hs : (if connected x then SESSION_IDLE_REAP_SECS * 1000 <? Z.max 0 (activity_millis (world s) - last_activity x)
     else SESSION_REAP_SECS * 1000 <? Z.max 0 (activity_millis (world s) - last_activity x)) = true).
  { unfold SESSION_IDLE_REAP_SECS, SESSION_REAP_SECS in *. destruct (connected x); apply Z.ltb_lt; lia. }
  rewrite Hs. cbn [fst]. split_and!; try done; cbn [world].
  - unfold arc_drop. simpl. by apply remove_ok; destruct Hok as [[? ?] ?].
  - intros b y Hy. apply session_at_drop in Hy. unfold remove_session_if_current in Hy.
    destruct (bool_decide _); [by apply session_at_drop in Hy | done].
Qed.

(** All sessions have been left alone. *)
Definition all_stale s : Prop :=
  ∀ a x, session_at a (world s) = Some x → SESSION_IDLE_REAP_SECS * 1000 < activity_millis (world s) - last_activity x.

Lemma ticks_reap n s h s' h' :
  sound s h → all_stale s → uploads s = [] → readers s = [] → length (reapers s) = n →
  run config s h (replicate n (Tick 0)) = (s', h') →
  sound s' h' ∧ uploads s' = [] ∧ readers s' = [] ∧ reapers s' = [].
Proof.
  revert s h. induction n as [|n IH]; intros s h Hso Hst Hu Hr Hl Hrun.
  { simpl in Hrun. simplify_eq. apply nil_length_inv in Hl. by split_and!. }
  cbn [replicate run] in Hrun. destruct (reapers s) as [|[id a] rs] eqn:Hrs; [done|].
  pose proof (held_alive s a (proj1 (sound_refs _ _ Hso))) as Hal.
  destruct Hal as [x Hx]; [apply (reaper_held s (id, a)); rewrite Hrs; left|].
  destruct (tick_stale s 0 id a x (sound_refs _ _ Hso)) as (E1 & E2 & E3 & E4 & E5); [by rewrite Hrs|done|by eapply Hst|].
  pose proof (step_sound s h (Tick 0) Hso) as Hso1. destruct (step config s (Tick 0)) as [s1 o]. cbn [fst snd] in *.
  apply (IH s1 (observe h o)); [done| |congruence..| |done].
  - intros b y Hb. rewrite E4. eapply Hst. by apply E5.
  - rewrite E1, Hrs. simpl in *. lia.
Qed.

Lemma nothing_held s h :
  sound s h → uploads s = [] → readers s = [] → reapers s = [] →
  sessions (world s) = ∅ ∧ Shared.arcs (heap (world s)) = ∅.
Proof.
  intros [[[Hok Ht] Hw] _ _] Hu Hr Hp. assert (He : sessions (world s) = ∅).
  { apply map_empty. intros id. apply eq_None_not_Some. intros [a Ha]. apply Hw in Ha. rewrite Hp in Ha.
    by apply not_elem_of_nil in Ha. }
  split; [done|]. apply map_empty. intros a. destruct (Shared.arcs (heap (world s)) !! a) as [[x n]|] eqn:E; [|done].
  pose proof (ho_pos _ Hok a x n E). specialize (Ht a). unfold refs, holders in Ht.
  rewrite E, Hu, Hr, Hp, He in Ht. unfold in_table in Ht. rewrite map_to_list_empty in Ht. simpl in Ht.
  rewrite !count_nil in Ht. lia.
Qed.


End life.

(** ** Properties *)


(** A session's memory is bounded and its reads end: in every state the
    system can reach, no more packets wait in a channel or at a reader than the
    configuration allows, and a poll of a reader comes to a result within its
    rounds. *)
Theorem upload_memory_is_bounded config es s h :
  run config initial no_history es = (s, h) →
  (∀ a c, channels (world s) !! a = Some c → (length (queue c) ≤ max_buffered_posts config)%nat) ∧
  (∀ j r space, readers s !! j = Some r →
     (size (pending r) ≤ max_buffered_posts config)%nat ∧ (poll_read r (world s) space).1.1 ≠ Ready Panic).
Proof.
  intros Hrun. pose proof (run_sound config _ _ _ _ _ (initial_sound config) Hrun) as [Hok Ht Hph]. split.
  - intros a c Hc. destruct (Hph a) as [Hn _ _ _|c' _ _ Hc' Ho _ _ _|r c' _ _ _ Hc' Ho _ _|c' _ _ Hc' Ho _ _].
    + destruct (ho_fresh _ (proj1 (proj1 Hok)) a Hn). congruence.
    + assert (c' = c) as -> by congruence. apply Ho.
    + assert (c' = c) as -> by congruence. apply Ho.
    + assert (c' = c) as -> by congruence. destruct Ho as [_ ->]. simpl. lia.
  - intros j r space Hj. destruct (reader_phase config s h j r Hj (Hph _)) as (_ & [_ Hb] & _). split; [done|].
    destruct (poll_read r (world s) space) as [[res r'] w] eqn:Ep.
    by destruct (reader_poll config s h j r space res r' w Hok Hph Hj Ep) as (_ & ? & _).
Qed.

(** A reader never sees the end of its uploads: it holds the session, and
    with it a sender of the channel it reads from, so that no read with room for
    data comes to an empty result, whether or not any upload is left. *)
Theorem end_of_uploads_is_never_seen config es s h j r space :
  run config initial no_history es = (s, h) → readers s !! j = Some r → (0 < space)%nat →
  (poll_read r (world s) space).1.1 ≠ Ready (Ok []).
Proof.
  intros Hrun Hj Hsp. pose proof (run_sound config _ _ _ _ _ (initial_sound config) Hrun) as [Hok Ht Hph].
  destruct (poll_read r (world s) space) as [[res r'] w] eqn:Ep.
  destruct (reader_poll config s h j r space res r' w Hok Hph Hj Ep) as (_ & _ & Hne & _). by apply Hne.
Qed.

(** C31: nothing is left behind: once all requests and downloads are over and
    the idle time has passed, a turn of every reaper empties the table, frees every
    session and ends the reapers. *)
Theorem idle_sessions_are_freed config es s h millis s' h' :
  run config initial no_history es = (s, h) → uploads s = [] → readers s = [] →
  SESSION_IDLE_REAP_SECS * 1000 < millis →
  run config s h (Wait millis :: replicate (length (reapers s)) (Tick 0)) = (s', h') →
  reapers s' = [] ∧ sessions (world s') = ∅ ∧ Shared.arcs (heap (world s')) = ∅.
Proof.
  intros Hrun Hu Hr Hm Hrun'. pose proof (run_sound config _ _ _ _ _ (initial_sound config) Hrun) as Hso.
  pose proof (step_sound config s h (Wait millis) Hso) as Hso1. cbn [run] in Hrun'.
  destruct (step config s (Wait millis)) as [s1 o] eqn:Es. cbn [step fst snd] in *. injection Es as <- <-.
  apply (ticks_reap config (length (reapers s)) _ _ _ _ Hso1) in Hrun' as (Hso2 & Hu2 & Hr2 & Hp2); try done.
  - split; [done|]. by eapply nothing_held.
  - intros a x Hx. pose proof (sound_time _ _ _ Hso a x Hx). simpl. unfold SESSION_IDLE_REAP_SECS in *. lia.
Qed.

(** The sessions are well-formed in every state the system can reach: the
    reference count of a session is the number of its holders, the table, the
    uploads, the readers and the reapers, it is freed with the last of them,
    every session in the table has its reaper, and no two readers share one. *)
Theorem references_are_accounted_for config es s h :
  run config initial no_history es = (s, h) →
  (∀ a, refs (world s) a = holders s a) ∧
  (∀ a, is_Some (session_at a (world s)) ↔ (0 < holders s a)%nat) ∧
  (∀ id a, sessions (world s) !! id = Some a → (id, a) ∈ reapers s) ∧
  NoDup (session <$> readers s).
Proof.
  intros Hrun. pose proof (run_sound config _ _ _ _ _ (initial_sound config) Hrun) as [[[Hok Hr] Hw] Ht Hph].
  split; [done|]. split; [intros a; rewrite <- Hr; symmetry; by apply refs_session|]. split; [done|].
  apply NoDup_alt. intros i j a Hi Hj. rewrite list_lookup_fmap in Hi, Hj.
  apply fmap_Some in Hi as (ri & Hi & ->). apply fmap_Some in Hj as (rj & Hj & Hs).
  destruct (reader_phase config s h i ri Hi (Hph _)) as (Hone & _).
  destruct (decide (i = j)) as [->|Hne]; [done|]. exfalso.
  destruct (filter_only (λ r, session r = session ri) (readers s) i ri rj ri Hi eq_refl (eq_sym Hs) Hone) as (_ & _ & Hdel).
  enough (Hin : rj ∈ delete i (readers s)) by (by apply (filter_nil_not_elem_of _ _ rj Hdel (eq_sym Hs))).
  apply list_elem_of_lookup. destruct (decide (j < i)%nat).
  - exists j. by rewrite list_lookup_delete_lt.
  - exists (pred j). rewrite list_lookup_delete_ge by lia. replace (S (pred j)) with j by lia. done.
Qed.

(** A session whose second post comes first. *)
Definition sample_config : XHttpConfig :=
  mkConfig None (B "/up/") Auto false false 100 3 Path [] Path [] Body [].
Definition sample_run : list event :=
  [Post (B "s") [mkPacket 1 (B "lo")]; Send 0; Open (B "s"); Read 0 8;
   Post (B "s") [mkPacket 0 (B "hel")]; Send 0; Read 0 8; Read 0 8; Read 0 8].
Definition sample_state : System := (run sample_config initial no_history sample_run).1.
Definition sample_history : History := (run sample_config initial no_history sample_run).2.
Definition sample_closed : System := (run sample_config initial no_history (sample_run ++ [Close 0])).1.
Definition sample_freed : System :=
  (run sample_config sample_closed sample_history (Wait 200000 :: replicate (length (reapers sample_closed)) (Tick 0))).1.


Lemma upload_memory_is_bounded_witness :
  is_Some (channels (world sample_state) !! 0%nat) ∧
  (∀ a c, channels (world sample_state) !! a = Some c → (length (queue c) ≤ 3)%nat) ∧
  (∀ j r space, readers sample_state !! j = Some r →
     (size (pending r) ≤ 3)%nat ∧ (poll_read r (world sample_state) space).1.1 ≠ Ready Panic).
Proof.
  split; [vm_compute; by eexists|].
  apply (upload_memory_is_bounded sample_config sample_run sample_state sample_history). by vm_compute.
Defined.

Lemma references_are_accounted_for_witness :
  holders sample_state 0 = 3%nat ∧
  (∀ a, refs (world sample_state) a = holders sample_state a) ∧
  (∀ a, is_Some (session_at a (world sample_state)) ↔ (0 < holders sample_state a)%nat) ∧
  (∀ id a, sessions (world sample_state) !! id = Some a → (id, a) ∈ reapers sample_state) ∧
  NoDup (session <$> readers sample_state).
Proof.
  split; [by vm_compute|].
  apply (references_are_accounted_for sample_config sample_run sample_state sample_history). by vm_compute.
Defined.

Lemma end_of_uploads_is_never_seen_witness :
  uploads sample_state = [] ∧
  ∃ r, readers sample_state !! 0%nat = Some r ∧ (poll_read r (world sample_state) 8).1.1 ≠ Ready (Ok []).
Proof.
  split; [by vm_compute|].
  exists (mkReader 0 (B "s") ∅ 2 [] 3). split; [by vm_compute|].
  apply (end_of_uploads_is_never_seen sample_config sample_run sample_state sample_history 0).
  - by vm_compute.
  - by vm_compute.
  - lia.
Defined.

Lemma idle_sessions_are_freed_witness :
  reapers sample_closed ≠ [] ∧
  reapers sample_freed = [] ∧ sessions (world sample_freed) = ∅ ∧ Shared.arcs (heap (world sample_freed)) = ∅.
Proof.
  split; [by vm_compute|].
  apply (idle_sessions_are_freed sample_config (sample_run ++ [Close 0]) sample_closed sample_history 200000
    sample_freed sample_history); by vm_compute.
Defined.

End XHttpRuns.
