(* ===== verification/StreamReader.v ===== *)
(** * The buffered reader of the handshakes ([src/stream_reader.rs])

    A buffer of fixed size over a stream, from which the servers read lines,
    numbers and slices before they hand the connection on.  The stream is a
    [Source]: the pieces its reads return, with the reads that are interrupted
    among them, and how it ends.

    Shown: every program of reads gives the result of the same program on the
    bytes of the stream alone, so that how the bytes are cut into pieces, and
    how the buffer shifts, never shows; no offset leaves the buffer; and every
    read ends. *)
From S2P Require Import Prelude Text.

Module Reader.

(** ** The stream *)
Record Source := mkSource {
  arrivals : list (option bytes);   (* [None]: a read that is interrupted *)
  fault : option io_error;          (* the end of the stream, or its error *)
  taken : bytes;                    (* what its reads have returned *)
  written : bytes;                  (* what has been written to it *)
  sink : option io_error }.         (* the error of its writes, if they fail *)

Definition incoming (arrivals : list (option bytes)) : Source := mkSource arrivals None [] [] None.

(** [d] is read, [rest] is to come. *)
Definition after_read (src : Source) (d : bytes) (rest : list (option bytes)) : Source :=
  mkSource rest (fault src) (taken src ++ d) (written src) (sink src).

(** [stream.read(&mut buf[..])] with room for [space] bytes *)
Definition stream_read (space : nat) (src : Source) : outcome bytes * Source :=
  match arrivals src with
  | [] => (match fault src with Some e => Err e | None => Ok [] end, src)
  | None :: rest => (err Interrupted "interrupted", after_read src [] rest)
  | Some d :: rest =>
      if length d <=? space then (Ok d, after_read src d rest)
      else (Ok (take space d), after_read src (take space d) (Some (drop space d) :: rest))
  end.

(** ** The reader *)
Record StreamReader := mkStreamReader {
  buf : bytes;
  start_offset : nat;
  end_offset : nat;
  allow_bare_lf : bool }.

Definition DEFAULT_BUFFER_SIZE : nat := N.to_nat 32768.

(** A call on the reader and its stream. *)
Definition io (A : Type) : Type := StreamReader → Source → outcome A * StreamReader * Source.

Definition ret {A} (a : A) : io A := λ r src, (Ok a, r, src).
Definition throw {A} (k : ErrorKind) (msg : string) : io A := λ r src, (err k msg, r, src).
Definition panic {A} : io A := λ r src, (Panic, r, src).
Definition bind {A B} (m : io A) (f : A → io B) : io B := λ r src,
  match m r src with
  | (Ok a, r, src) => f a r src
  | (Err e, r, src) => (Err e, r, src)
  | (Panic, r, src) => (Panic, r, src)
  end.
Definition get : io StreamReader := λ r src, (Ok r, r, src).
Definition put (r : StreamReader) : io unit := λ _ src, (Ok tt, r, src).
Definition lift {A} (o : outcome A) : io A := λ r src, (o, r, src).

(** [write_all] and [flush] on the stream *)
Definition write_all (data : bytes) : io unit := λ r src,
  match sink src with
  | Some e => (Err e, r, src)
  | None => (Ok tt, r, mkSource (arrivals src) (fault src) (taken src) (written src ++ data) None)
  end.
Definition flush : io unit := λ r src,
  (match sink src with Some e => Err e | None => Ok tt end, r, src).

Declare Scope reader_scope.
Notation "x ⇐ m ; k" := (bind m (λ x, k)) (at level 20, m at level 100, k at level 200, right associativity)
  : reader_scope.
Local Open Scope reader_scope.

Section reader.
Context (junk : nat → Z).

(** [allocate_vec]: memory that is not initialised *)
Definition new_with_buffer_size (buffer_size : nat) : StreamReader :=
  mkStreamReader (junk <$> seq 0 buffer_size) 0 0 false.
Definition new : StreamReader := new_with_buffer_size DEFAULT_BUFFER_SIZE.
Definition new_allowing_bare_lf : StreamReader := mkStreamReader (buf new) 0 0 true.
End reader.

Definition set_offsets (r : StreamReader) (s e : nat) : StreamReader :=
  mkStreamReader (buf r) s e (allow_bare_lf r).

Definition is_cache_full (r : StreamReader) : bool :=
  (start_offset r =? 0) && (end_offset r =? length (buf r)).

(** [copy_within(start..end, 0)] *)
Definition reset_buf_offset (r : StreamReader) : outcome StreamReader :=
  if start_offset r =? 0 then Ok r
  else
    data ← slice (buf r) (start_offset r) (end_offset r);
    Ok (mkStreamReader (data ++ drop (length data) (buf r)) 0 (end_offset r - start_offset r) (allow_bare_lf r)).

(** The loop around [stream.read], which an interruption repeats. *)
Fixpoint read_loop (fuel : nat) (r : StreamReader) (src : Source) : outcome unit * StreamReader * Source :=
  match fuel with
  | O => (Panic, r, src)
  | S fuel =>
      match slice (buf r) (end_offset r) (length (buf r)) with
      | Ok room =>
          match stream_read (length room) src with
          | (Ok d, src) =>
              if length d =? 0 then (err ConnectionAborted "EOF while reading", r, src)
              else
                let e := end_offset r in
                (Ok tt, mkStreamReader (take e (buf r) ++ d ++ drop (e + length d) (buf r))
                          (start_offset r) (e + length d) (allow_bare_lf r), src)
          | (Err e, src) =>
              if bool_decide (ekind e = Interrupted) then read_loop fuel r src else (Err e, r, src)
          | (Panic, src) => (Panic, r, src)
          end
      | _ => (Panic, r, src)
      end
  end.

Definition read : io unit := λ r src,
  if is_cache_full r then (err ConnectionAborted "cache is full", r, src)
  else
    match reset_buf_offset r with
    | Ok r => read_loop (S (length (arrivals src))) r src
    | _ => (Panic, r, src)
    end.

(** The offsets after [start_offset] moves to [new_start_offset]. *)
Definition advance (r : StreamReader) (new_start_offset : nat) : StreamReader :=
  if new_start_offset =? end_offset r then set_offsets r 0 0
  else set_offsets r new_start_offset (end_offset r).

(** The bytes still to come. *)
Definition flat (src : Source) : bytes := concat (omap id (arrivals src)).

Definition LF : Z := 10.
Definition CR : Z := 13.

(** Each round but the last reads at least a byte. *)
Fixpoint line_loop (fuel : nat) (search_start_offset : nat) : io bytes :=
  match fuel with
  | O => panic
  | S fuel =>
      r ⇐ get;
      let search_end_offset := end_offset r in
      window ⇐ lift (slice (buf r) search_start_offset search_end_offset);
      match find_byte LF window with
      | Some pos =>
          let newline_pos := search_start_offset + pos in
          let carriage_return :=
            (start_offset r <? newline_pos) && bool_decide (buf r !! (newline_pos - 1) = Some CR) in
          if negb carriage_return && negb (allow_bare_lf r)
          then throw InvalidData "Line is not terminated by CRLF"
          else
            let line_end := if carriage_return then newline_pos - 1 else newline_pos in
            line ⇐ lift (slice (buf r) (start_offset r) line_end);
            _ ⇐ put (advance r (newline_pos + 1));
            ret line
      | None =>
          let previous_start_offset := start_offset r in
          _ ⇐ read;
          r ⇐ get;
          if negb (previous_start_offset =? start_offset r)
          then
            if start_offset r =? 0 then line_loop fuel (search_end_offset - previous_start_offset)
            else panic
          else line_loop fuel search_end_offset
      end
  end.

Definition read_line_bytes : io bytes := λ r src,
  line_loop (S (length (flat src))) (start_offset r) r src.

Definition read_line : io bytes :=
  line_bytes ⇐ read_line_bytes;
  if utf8_valid line_bytes then ret line_bytes else throw InvalidData "Failed to decode utf8".

(** [while self.end_offset - self.start_offset < len { self.read(stream).await? }] *)
Fixpoint fill_loop (fuel : nat) (len : nat) : io unit :=
  match fuel with
  | O => panic
  | S fuel =>
      r ⇐ get;
      if end_offset r - start_offset r <? len
      then _ ⇐ read; fill_loop fuel len
      else ret tt
  end.
Definition fill (len : nat) : io unit := λ r src, fill_loop (S (length (flat src))) len r src.

Definition read_u8 : io Z :=
  _ ⇐ fill 1;
  r ⇐ get;
  value ⇐ lift (index (buf r) (start_offset r));
  _ ⇐ put (advance r (start_offset r + 1));
  ret value.

Definition peek_u8 : io Z :=
  _ ⇐ fill 1;
  r ⇐ get;
  lift (index (buf r) (start_offset r)).

Definition peek_slice (len : nat) : io bytes :=
  r ⇐ get;
  if length (buf r) <? len then throw InvalidInput "Requested length exceeds buffer size"
  else
    _ ⇐ fill len;
    r ⇐ get;
    lift (slice (buf r) (start_offset r) (start_offset r + len)).

(** [debug] is [cfg(debug_assertions)]. *)
Definition consume (debug : bool) (len : nat) : io unit :=
  r ⇐ get;
  let new_start_offset := start_offset r + len in
  if debug && negb (new_start_offset <=? end_offset r) then panic
  else put (advance r new_start_offset).

Definition read_u16_be : io Z :=
  _ ⇐ fill 2;
  r ⇐ get;
  hi ⇐ lift (index (buf r) (start_offset r));
  lo ⇐ lift (index (buf r) (start_offset r + 1));
  _ ⇐ put (advance r (start_offset r + 2));
  ret (be_decode [hi; lo]).

Definition read_slice (len : nat) : io bytes :=
  r ⇐ get;
  if length (buf r) <? len then throw InvalidInput "Requested length exceeds buffer size"
  else
    _ ⇐ fill len;
    r ⇐ get;
    data ⇐ lift (slice (buf r) (start_offset r) (start_offset r + len));
    _ ⇐ put (advance r (start_offset r + len));
    ret data.

(** [buf.copy_from_slice(slice)] with a buffer of [len] bytes *)
Definition read_slice_into (len : nat) : io bytes := read_slice len.

Definition unparsed_data (r : StreamReader) : outcome bytes :=
  slice (buf r) (start_offset r) (end_offset r).

Definition unparsed_data_owned (r : StreamReader) : outcome (option bytes) :=
  data ← unparsed_data r;
  Ok (if length data =? 0 then None else Some data).

(** ** Programs of reads *)
Inductive request :=
  | Line | U8 | PeekU8 | U16 | PeekSlice (len : nat) | Slice (len : nat)
  | Skip (len : nat).   (* [peek_slice] and [consume] *)
Inductive value := Bytes (data : bytes) | Num (n : Z).

Definition perform (debug : bool) (q : request) : io value :=
  match q with
  | Line => line ⇐ read_line; ret (Bytes line)
  | U8 => n ⇐ read_u8; ret (Num n)
  | PeekU8 => n ⇐ peek_u8; ret (Num n)
  | U16 => n ⇐ read_u16_be; ret (Num n)
  | PeekSlice len => data ⇐ peek_slice len; ret (Bytes data)
  | Slice len => data ⇐ read_slice len; ret (Bytes data)
  | Skip len => data ⇐ peek_slice len; _ ⇐ consume debug len; ret (Bytes data)
  end.

Fixpoint perform_all (debug : bool) (qs : list request) : io (list value) :=
  match qs with
  | [] => ret []
  | q :: qs => v ⇐ perform debug q; vs ⇐ perform_all debug qs; ret (v :: vs)
  end.

(** ** What is held of the stream *)
Definition unparsed (r : StreamReader) : bytes := take (end_offset r - start_offset r) (drop (start_offset r) (buf r)).

Definition EOF : io_error := IoError ConnectionAborted "EOF while reading".
Definition last_error (src : Source) : io_error := default EOF (fault src).

(** A read that returns nothing is the end, and the error of the stream is not
    one to try again. *)
Definition source_ok (src : Source) : Prop :=
  Forall (λ i, i ≠ Some []) (arrivals src) ∧ ekind (last_error src) ≠ Interrupted.

Section facts.
Context (cap : nat) (bare : bool) (last : io_error) (whole sent : bytes) (broken : option io_error).

(** The reader and its stream hold [data]. *)
Record tracks (r : StreamReader) (src : Source) (data : bytes) : Prop := {
  tr_start : start_offset r ≤ end_offset r;
  tr_end : end_offset r ≤ cap;
  tr_cap : length (buf r) = cap;
  tr_bare : allow_bare_lf r = bare;
  tr_source : source_ok src;
  tr_last : last_error src = last;
  tr_whole : taken src ++ flat src = whole;
  tr_sent : written src = sent;
  tr_sink : sink src = broken;
  tr_data : unparsed r ++ flat src = data }.

Lemma length_unparsed r src data : tracks r src data → length (unparsed r) = end_offset r - start_offset r.
Proof. intros []. unfold unparsed. rewrite length_take, length_drop. lia. Qed.

Definition flat_items (items : list (option bytes)) : bytes := concat (omap id items).

Lemma flat_cons i rest : flat_items (i :: rest) = default [] i ++ flat_items rest.
Proof. unfold flat_items. simpl. by destruct i. Qed.

(** A read with room for it returns some of what is to come. *)
Lemma stream_read_data space src d rest :
  0 < space → source_ok src → arrivals src = Some d :: rest →
  ∃ d1 rest1, stream_read space src = (Ok d1, after_read src d1 rest1) ∧
    d1 ≠ [] ∧ length d1 ≤ space ∧ source_ok (after_read src d1 rest1) ∧
    flat src = d1 ++ flat_items rest1.
Proof.
  intros Hsp [Hall He] Ha. unfold flat, stream_read. rewrite Ha in *. fold (flat_items (Some d :: rest)).
  apply Forall_cons in Hall as [Hd Hr]. assert (d ≠ []) by congruence.
  destruct (length d <=? space) eqn:E; to_prop; [exists d, rest; by split_and!|].
  eexists _, _. split; [done|]. split_and!; try done.
  - intros Hz. apply (f_equal length) in Hz. rewrite length_take in Hz. simpl in Hz. lia.
  - rewrite length_take. lia.
  - split; [|done]. constructor; [|done]. intros [= Hz]. apply (f_equal length) in Hz. rewrite length_drop in Hz.
    simpl in Hz. lia.
  - rewrite !flat_cons. simpl. by rewrite app_assoc, take_drop.
Qed.

(** A read that is not interrupted for ever. *)
Lemma read_loop_ok fuel r src data res r' src' :
  tracks r src data → start_offset r = 0 → end_offset r < cap → length (arrivals src) < fuel →
  read_loop fuel r src = (res, r', src') →
  tracks r' src' data ∧ start_offset r' = 0 ∧
  ((res = Err last ∧ r' = r ∧ flat src' = []) ∨
   (∃ d, res = Ok tt ∧ d ≠ [] ∧ unparsed r' = unparsed r ++ d ∧ flat src = d ++ flat src')).
Proof.
  revert src. induction fuel as [|fuel IH]; intros src Ht Hs He Hf; [lia|]. simpl.
  pose proof Ht as [H1 H2 H3 H4 [H5 H5'] H6 H7 H7' H8 H9]. rewrite slice_suffix by lia.
  destruct (arrivals src) as [|[d|] rest] eqn:Ha.
  - intros Hr. assert (Hres : (res, r', src') = (Err last, r, src)).
    { rewrite <- H6. unfold stream_read in Hr. rewrite Ha in Hr.
      destruct (fault src) as [e|] eqn:Ee; unfold last_error in *; rewrite Ee in *; simpl in *;
        [by rewrite bool_decide_false in Hr | done]. }
    injection Hres as -> -> ->. split; [done|]. split; [done|]. left. unfold flat. by rewrite Ha.
  - destruct (stream_read_data (length (drop (end_offset r) (buf r))) src d rest) as (d1 & rest1 & E & Hne & Hl & Hsrc & Hflat);
      [rewrite length_drop; lia | split; [by rewrite Ha | done] | done |]. rewrite E.
    rewrite (proj2 (Nat.eqb_neq (length d1) 0)) by (by destruct d1).
    intros [= <- <- <-]. rewrite length_drop in Hl.
    assert (Hu : unparsed (mkStreamReader (take (end_offset r) (buf r) ++ d1 ++ drop (end_offset r + length d1) (buf r))
      (start_offset r) (end_offset r + length d1) (allow_bare_lf r)) = unparsed r ++ d1).
    { unfold unparsed. simpl. rewrite Hs, !drop_0, !Nat.sub_0_r, app_assoc, take_app_length'; [done|].
      rewrite length_app, length_take. lia. }
    split; [split; try done; simpl; try lia|].
    + rewrite !length_app, length_take, length_drop. lia.
    + rewrite <- H7, Hflat. change (flat (after_read src d1 rest1)) with (flat_items rest1). by rewrite app_assoc.
    + rewrite Hu, <- H9, Hflat. by rewrite app_assoc.
    + split; [done|]. right. by exists d1.
  - unfold stream_read. rewrite Ha. unfold err. rewrite bool_decide_true by done. intros Hr.
    assert (Hfl : flat (after_read src [] rest) = flat src) by (unfold flat; by rewrite Ha).
    apply IH in Hr; [|split; try done|done|done|simpl in *; lia].
    + by rewrite Hfl in Hr.
    + apply Forall_cons in H5 as [_ H5]. by split.
    + rewrite Hfl. simpl. by rewrite app_nil_r.
    + by rewrite Hfl.
Qed.

Definition full : io_error := IoError ConnectionAborted "cache is full".

Lemma read_ok r src data res r' src' :
  tracks r src data → read r src = (res, r', src') →
  tracks r' src' data ∧
  ((res = Err full ∧ length (unparsed r) = cap ∧ unparsed r' = unparsed r) ∨
   (res = Err last ∧ length (unparsed r) < cap ∧ unparsed r' = unparsed r ∧ flat src' = []) ∨
   (res = Ok tt ∧ length (unparsed r) < cap ∧ start_offset r' = 0 ∧
    ∃ d, d ≠ [] ∧ unparsed r' = unparsed r ++ d ∧ flat src = d ++ flat src')).
Proof.
  intros Ht. pose proof (length_unparsed r src data Ht) as Hl. unfold read.
  destruct (is_cache_full r) eqn:Ef.
  { intros [= <- <- <-]. split; [done|]. left. unfold is_cache_full in Ef. to_prop. destruct Ht. split_and!; try done. lia. }
  assert (Hlt : length (unparsed r) < cap).
  { unfold is_cache_full in Ef. destruct Ht. apply andb_false_iff in Ef as [E|E]; to_prop; lia. }
  assert (Hreset : ∃ r0, reset_buf_offset r = Ok r0 ∧ tracks r0 src data ∧ start_offset r0 = 0 ∧
    end_offset r0 < cap ∧ unparsed r0 = unparsed r).
  { unfold reset_buf_offset. destruct (start_offset r =? 0) eqn:E; to_prop.
    - exists r. destruct Ht. split_and!; done || lia.
    - pose proof Ht as [H1 H2 H3 H4 H5 H6 Hw Hs Hb H7]. rewrite slice_Ok by lia. cbn [mbind outcome_bind]. fold (unparsed r).
      eexists. split; [done|]. set (r0 := mkStreamReader _ _ _ _).
      assert (Hu : unparsed r0 = unparsed r).
      { unfold unparsed at 1. simpl. rewrite drop_0, Nat.sub_0_r. by apply take_app_length'. }
      split; [|split_and!; simpl; done || lia]. split; try done; simpl; [lia..| |by rewrite Hu].
      rewrite length_app, length_drop. lia. }
  destruct Hreset as (r0 & -> & Ht0 & Hs0 & He0 & Hu0). intros Hr.
  apply (read_loop_ok _ _ _ _ _ _ _ Ht0 Hs0 He0) in Hr as (Ht' & Hs' & Hcase); [|lia].
  split; [done|]. right. destruct Hcase as [(-> & -> & Hf)|(d & -> & Hd & Hu & Hf)]; [by left|].
  right. split_and!; try done. exists d. split_and!; try done. by rewrite Hu, Hu0.
Qed.

(** ** The same on the bytes alone *)
Definition spec_fill (len : nat) (data : bytes) : outcome unit :=
  if (len <=? length data) && (len <=? cap) then Ok tt
  else if cap <=? length data then Err full else Err last.

Definition spec_line (data : bytes) : outcome bytes * bytes :=
  match find_byte LF (take cap data) with
  | Some pos =>
      let cr := (0 <? pos) && bool_decide (data !! (pos - 1) = Some CR) in
      if negb cr && negb bare then (err InvalidData "Line is not terminated by CRLF", data)
      else (Ok (take (if cr then pos - 1 else pos) data), drop (pos + 1) data)
  | None => (if cap <=? length data then Err full else Err last, data)
  end.

Lemma fill_loop_ok fuel len r src data res r' src' :
  tracks r src data → length (flat src) < fuel → fill_loop fuel len r src = (res, r', src') →
  tracks r' src' data ∧ res = spec_fill len data ∧ (res = Ok tt → len ≤ length (unparsed r')).
Proof.
  revert r src. induction fuel as [|fuel IH]; intros r src Ht Hf Hr; [lia|].
  cbn [fill_loop] in Hr. unfold bind, get in Hr. pose proof (length_unparsed _ _ _ Ht) as Hl.
  pose proof (f_equal length (tr_data _ _ _ Ht)) as Hd. rewrite length_app in Hd.
  destruct (_ <? len) eqn:E; to_prop.
  2:{ injection Hr as <- <- <-. split; [done|]. split; [|intros; lia]. unfold spec_fill. destruct Ht.
      by rewrite (proj2 (Nat.leb_le len (length data))), (proj2 (Nat.leb_le len cap)) by lia. }
  destruct (read r src) as [[res1 r1] src1] eqn:Er. apply (read_ok _ _ _ _ _ _ Ht) in Er as (Ht1 & Hcase).
  assert (Hspec : ∀ b, cap <=? length data = b → (length (unparsed r) = cap ∨ length data < len) →
    spec_fill len data = if b then Err full else Err last).
  { intros b <- Hc. unfold spec_fill. destruct (len <=? length data) eqn:E1; [|done]. destruct (len <=? cap) eqn:E2; to_prop; [lia|done]. }
  destruct Hcase as [(-> & Hc & _)|[(-> & Hc & Hu & Hz)|(-> & Hc & _ & d & Hne & Hu & Hz)]].
  - injection Hr as <- <- <-. split; [done|]. split; [|done]. rewrite (Hspec true); [done| |by left].
    apply Nat.leb_le. lia.
  - injection Hr as <- <- <-. split; [done|]. split; [|done].
    pose proof (f_equal length (tr_data _ _ _ Ht1)) as Hd1. rewrite length_app, Hu, Hz in Hd1. simpl in Hd1.
    rewrite (Hspec false); [done| |right; lia]. apply Nat.leb_gt. lia.
  - apply IH in Hr; [done..|]. apply (f_equal length) in Hz. rewrite length_app in Hz.
    assert (length d ≠ 0) by (by destruct d). lia.
Qed.

Lemma reader_fill_ok len r src data res r' src' :
  tracks r src data → fill len r src = (res, r', src') →
  tracks r' src' data ∧ res = spec_fill len data ∧ (res = Ok tt → len ≤ length (unparsed r')).
Proof. intros Ht. apply fill_loop_ok; [done | lia]. Qed.

Lemma unparsed_advance r n :
  start_offset r + n ≤ end_offset r ≤ length (buf r) → unparsed (advance r (start_offset r + n)) = drop n (unparsed r).
Proof.
  intros Hn. unfold advance, unparsed. destruct (_ =? _) eqn:E; to_prop; simpl.
  - symmetry. apply drop_ge. rewrite length_take. lia.
  - rewrite skipn_firstn_comm, drop_drop. f_equal; lia.
Qed.

Lemma advance_tracks r src data n :
  tracks r src data → n ≤ length (unparsed r) → tracks (advance r (start_offset r + n)) src (drop n data).
Proof.
  intros Ht Hn. rewrite (length_unparsed _ _ _ Ht) in Hn. pose proof Ht as [H1 H2 H3 H4 H5 H6 Hw Hs Hb H7].
  pose proof (unparsed_advance r n ltac:(lia)) as Hu.
  assert (Ha : ∃ s e, advance r (start_offset r + n) = set_offsets r s e ∧ s ≤ e ≤ cap).
  { unfold advance. destruct (start_offset r + n =? end_offset r) eqn:E; to_prop; eexists _, _; split; [done|lia|done|lia]. }
  destruct Ha as (s & e & Ea & ? & ?). rewrite Ea in *. split; simpl; try done.
  rewrite Hu, <- H7, drop_app_le; [done|]. by rewrite (length_unparsed _ _ _ Ht).
Qed.

Lemma find_byte_skip c s t : c ∉ s → find_byte c (s ++ t) = Nat.add (length s) <$> find_byte c t.
Proof.
  induction s as [|x s IH]; intros Hc; simpl; [by destruct (find_byte c t)|].
  apply not_elem_of_cons in Hc as [? ?]. destruct (Z.eqb_spec x c); [congruence|].
  rewrite IH by done. by destruct (find_byte c t).
Qed.

Lemma find_byte_none c s : find_byte c s = None → c ∉ s.
Proof.
  induction s as [|x s IH]; simpl; [intros _; apply not_elem_of_nil|]. destruct (Z.eqb_spec x c); [done|].
  destruct (find_byte c s); [done|]. intros _. apply not_elem_of_cons. split; [congruence | by apply IH].
Qed.

Lemma find_byte_some c s t i : find_byte c s = Some i → find_byte c (s ++ t) = Some i ∧ i < length s.
Proof.
  revert i. induction s as [|x s IH]; intros i; simpl; [done|]. destruct (Z.eqb_spec x c).
  - intros [= <-]. split; [done | lia].
  - destruct (find_byte c s) as [j|] eqn:E; [|done]. intros [= <-]. destruct (IH j eq_refl) as [-> ?]. split; [done | lia].
Qed.

Lemma lookup_unparsed r src data j :
  tracks r src data → j < end_offset r - start_offset r → buf r !! (start_offset r + j) = data !! j.
Proof.
  intros Ht Hj. rewrite <- (tr_data _ _ _ Ht), lookup_app_l by (rewrite (length_unparsed _ _ _ Ht); lia).
  unfold unparsed. by rewrite lookup_take_lt, lookup_drop by lia.
Qed.

Lemma slice_unparsed r src data n :
  tracks r src data → n ≤ length (unparsed r) →
  slice (buf r) (start_offset r) (start_offset r + n) = Ok (take n data).
Proof.
  intros Ht Hn. rewrite <- (tr_data _ _ _ Ht), take_app_le by done. rewrite (length_unparsed _ _ _ Ht) in Hn.
  destruct Ht. rewrite slice_Ok by lia. unfold unparsed. rewrite take_take. do 2 f_equal. lia.
Qed.

(** The line that ends with the newline at [pos] of what is held. *)
Definition take_line (pos : nat) (r : StreamReader) : io bytes :=
  let newline_pos := start_offset r + pos in
  let carriage_return :=
    (start_offset r <? newline_pos) && bool_decide (buf r !! (newline_pos - 1) = Some CR) in
  if negb carriage_return && negb (allow_bare_lf r)
  then throw InvalidData "Line is not terminated by CRLF"
  else
    let line_end := if carriage_return then newline_pos - 1 else newline_pos in
    line ⇐ lift (slice (buf r) (start_offset r) line_end);
    _ ⇐ put (advance r (newline_pos + 1));
    ret line.

Lemma take_line_ok pos r src data res r' src' :
  tracks r src data → find_byte LF (unparsed r) = Some pos → take_line pos r r src = (res, r', src') →
  res = (spec_line data).1 ∧ tracks r' src' (spec_line data).2.
Proof.
  intros Ht Hp. destruct (find_byte_some LF (unparsed r) [] pos Hp) as [_ Hlt].
  assert (Hfind : find_byte LF (take cap data) = Some pos).
  { rewrite <- (tr_data _ _ _ Ht), take_app_ge by (rewrite (length_unparsed _ _ _ Ht); destruct Ht; lia).
    by apply find_byte_some. }
  unfold take_line, spec_line. rewrite Hfind. pose proof (length_unparsed _ _ _ Ht) as Hl.
  assert (Hcr : (start_offset r <? start_offset r + pos) && bool_decide (buf r !! (start_offset r + pos - 1) = Some CR) =
    (0 <? pos) && bool_decide (data !! (pos - 1) = Some CR)).
  { destruct pos as [|pos]; [by rewrite Nat.add_0_r, Nat.ltb_irrefl|].
    rewrite (proj2 (Nat.ltb_lt _ _)) by lia. rewrite <- (lookup_unparsed r src data) by (done || lia).
    replace (start_offset r + S pos - 1) with (start_offset r + (S pos - 1)) by lia. done. }
  rewrite Hcr, (tr_bare _ _ _ Ht). set (cr := (0 <? pos) && _).
  destruct (negb cr && negb bare); [by intros [= <- <- <-]|].
  replace (if cr then start_offset r + pos - 1 else start_offset r + pos)
    with (start_offset r + (if cr then pos - 1 else pos)); cycle 1.
  { destruct cr eqn:Ec; [|done]. unfold cr in Ec. destruct pos; [done | lia]. }
  rewrite (slice_unparsed r src data) by (done || (destruct cr; lia)). intros [= <- <- <-]. split; [done|].
  rewrite <- Nat.add_assoc. apply advance_tracks; [done | lia].
Qed.

Lemma spec_line_none data :
  LF ∉ take cap data → spec_line data = (if cap <=? length data then Err full else Err last, data).
Proof. intros Hn. unfold spec_line. by rewrite find_byte_None. Qed.

Lemma spec_line_full r src data :
  tracks r src data → length (unparsed r) = cap → LF ∉ unparsed r → spec_line data = (Err full, data).
Proof.
  intros Ht Hl Hn. rewrite <- (tr_data _ _ _ Ht). rewrite spec_line_none by (by rewrite take_app_length').
  rewrite (proj2 (Nat.leb_le _ _)); [done|]. rewrite length_app. lia.
Qed.

Lemma spec_line_last r src data :
  tracks r src data → length (unparsed r) < cap → flat src = [] → LF ∉ unparsed r → spec_line data = (Err last, data).
Proof.
  intros Ht Hl Hf Hn. rewrite <- (tr_data _ _ _ Ht), Hf, app_nil_r. rewrite spec_line_none by (rewrite take_ge by lia; done).
  by rewrite (proj2 (Nat.leb_gt _ _)).
Qed.

Lemma line_loop_ok fuel k r src data res r' src' :
  tracks r src data → k ≤ length (unparsed r) → LF ∉ take k (unparsed r) → length (flat src) < fuel →
  line_loop fuel (start_offset r + k) r src = (res, r', src') →
  res = (spec_line data).1 ∧ tracks r' src' (spec_line data).2.
Proof.
  revert k r src. induction fuel as [|fuel IH]; intros k r src Ht Hk Hn Hf Hr; [lia|].
  pose proof (length_unparsed _ _ _ Ht) as Hl. cbn [line_loop] in Hr. unfold bind at 1 2, get at 1, lift at 1 in Hr.
  assert (Hw : slice (buf r) (start_offset r + k) (end_offset r) = Ok (drop k (unparsed r))).
  { destruct Ht. rewrite slice_Ok by lia. unfold unparsed. rewrite skipn_firstn_comm, drop_drop. do 2 f_equal; lia. }
  rewrite Hw in Hr. pose proof (find_byte_skip LF _ (drop k (unparsed r)) Hn) as Hskip.
  rewrite take_drop, length_take_le in Hskip by done.
  destruct (find_byte LF (drop k (unparsed r))) as [pos|] eqn:Ef; simpl in Hskip.
  - apply (take_line_ok (k + pos) r src data); [done..|]. unfold take_line. rewrite <- Hr.
    by rewrite !Nat.add_assoc.
  - unfold bind at 1 in Hr. apply find_byte_none in Ef.
    assert (Hno : LF ∉ unparsed r) by (rewrite <- (take_drop k (unparsed r)); by intros [?|?]%elem_of_app).
    destruct (read r src) as [[res1 r1] src1] eqn:Er. apply (read_ok _ _ _ _ _ _ Ht) in Er as (Ht1 & Hcase).
    destruct Hcase as [(-> & Hc & Hu)|[(-> & Hc & Hu & Hz)|(-> & Hc & Hs1 & d & Hne & Hu & Hz)]].
    + injection Hr as <- <- <-. rewrite (spec_line_full r src) by done. done.
    + injection Hr as <- <- <-. rewrite (spec_line_last r1 src1); rewrite ?Hu; done.
    + unfold bind, get in Hr. rewrite Hs1 in Hr.
      assert (Hr' : line_loop fuel (start_offset r1 + length (unparsed r)) r1 src1 = (res, r', src')).
      { rewrite <- Hr, Hs1, Hl. destruct (start_offset r =? 0) eqn:E; to_prop; simpl; [|done]. by rewrite E, Nat.sub_0_r. }
      apply IH in Hr'; [done|done|rewrite Hu, length_app; lia| |].
      * by rewrite Hu, take_app_length.
      * apply (f_equal length) in Hz. rewrite length_app in Hz. assert (length d ≠ 0) by (by destruct d). lia.
Qed.

Lemma read_line_bytes_ok r src data res r' src' :
  tracks r src data → read_line_bytes r src = (res, r', src') →
  res = (spec_line data).1 ∧ tracks r' src' (spec_line data).2.
Proof.
  intros Ht Hr. apply (line_loop_ok (S (length (flat src))) 0 r src); [done|lia|apply not_elem_of_nil|lia|].
  by rewrite Nat.add_0_r.
Qed.

(** The first [len] bytes, as far as the buffer can hold them. *)
Definition spec_front (guarded : bool) (len : nat) (data : bytes) : outcome bytes :=
  if guarded && (cap <? len) then err InvalidInput "Requested length exceeds buffer size"
  else _ ← spec_fill len data; Ok (take len data).

Definition spec_take {A} (f : bytes → A) (guarded peek : bool) (len : nat) (data : bytes) : outcome A * bytes :=
  match spec_front guarded len data with
  | Ok front => (Ok (f front), if peek then data else drop len data)
  | Err e => (Err e, data)
  | Panic => (Panic, data)
  end.

Definition spec (q : request) (data : bytes) : outcome value * bytes :=
  match q with
  | Line =>
      match spec_line data with
      | (Ok line, rest) =>
          (if utf8_valid line then Ok (Bytes line) else err InvalidData "Failed to decode utf8", rest)
      | (Err e, rest) => (Err e, rest)
      | (Panic, rest) => (Panic, rest)
      end
  | U8 => spec_take (λ b, Num (be_decode b)) false false 1 data
  | PeekU8 => spec_take (λ b, Num (be_decode b)) false true 1 data
  | U16 => spec_take (λ b, Num (be_decode b)) false false 2 data
  | PeekSlice len => spec_take Bytes true true len data
  | Slice len | Skip len => spec_take Bytes true false len data
  end.

Fixpoint spec_all (qs : list request) (data : bytes) : outcome (list value) * bytes :=
  match qs with
  | [] => (Ok [], data)
  | q :: qs =>
      match spec q data with
      | (Ok v, data) => let '(vs, data) := spec_all qs data in (cons v <$> vs, data)
      | (Err e, data) => (Err e, data)
      | (Panic, data) => (Panic, data)
      end
  end.

(** [m] does what [sp] says. *)
Definition implements {A} (m : io A) (sp : bytes → outcome A * bytes) : Prop :=
  ∀ r src data res r' src', tracks r src data → m r src = (res, r', src') →
    res = (sp data).1 ∧ tracks r' src' (sp data).2.

Lemma index_unparsed r src data j :
  tracks r src data → j < length (unparsed r) → ∃ b, index (buf r) (start_offset r + j) = Ok b ∧ data !! j = Some b.
Proof.
  intros Ht Hj. pose proof (length_unparsed _ _ _ Ht) as Hl. pose proof (lookup_unparsed r src data j Ht ltac:(lia)) as He.
  destruct (lookup_lt_is_Some_2 data j) as [b Hb].
  { rewrite <- (tr_data _ _ _ Ht), length_app. lia. }
  exists b. unfold index. by rewrite He, Hb.
Qed.

(** A read that fills the buffer, and then takes what it needs at once. *)
Lemma front_implements {A} (guarded peek : bool) (len : nat) (f : bytes → A) (rest : StreamReader → io A) (m : io A) :
  (∀ r src, m r src = if guarded && (length (buf r) <? len)
     then throw InvalidInput "Requested length exceeds buffer size" r src
     else bind (fill len) (λ _, bind get rest) r src) →
  (∀ r src data, tracks r src data → len ≤ length (unparsed r) →
     rest r r src = (Ok (f (take len data)), (if peek then r else advance r (start_offset r + len)), src)) →
  implements m (spec_take f guarded peek len).
Proof.
  intros Hm Hrest r src data res r' src' Ht Hr. rewrite Hm, (tr_cap _ _ _ Ht) in Hr. unfold spec_take, spec_front.
  destruct (guarded && (cap <? len)); [by injection Hr as <- <- <-|]. unfold bind, get in Hr.
  destruct (fill len r src) as [[res1 r1] src1] eqn:Ef. apply (reader_fill_ok _ _ _ _ _ _ _ Ht) in Ef as (Ht1 & -> & Hlen).
  destruct (spec_fill len data) as [[]|e|]; simpl; [|by injection Hr as <- <- <-..].
  rewrite (Hrest _ _ _ Ht1 (Hlen eq_refl)) in Hr. injection Hr as <- <- <-. split; [done|].
  destruct peek; [done|]. by apply advance_tracks; [|apply Hlen].
Qed.

Lemma implements_map {A B} (g : A → B) (m : io A) (sp : bytes → outcome A * bytes) :
  implements m sp → implements (a ⇐ m; ret (g a)) (λ data, let '(o, rest) := sp data in (g <$> o, rest)).
Proof.
  intros Hm r src data res r' src' Ht Hr. unfold bind in Hr. destruct (m r src) as [[res1 r1] src1] eqn:Em.
  apply (Hm _ _ _ _ _ _ Ht) in Em as [-> Ht1]. destruct (sp data) as [[a|e|] rest]; by injection Hr as <- <- <-.
Qed.

Lemma implements_ext {A} (m : io A) (sp sp' : bytes → outcome A * bytes) :
  (∀ data, sp' data = sp data) → implements m sp → implements m sp'.
Proof. intros He Hm r src data res r' src'. rewrite He. apply Hm. Qed.

Lemma take_1 (data : bytes) b : data !! 0 = Some b → take 1 data = [b].
Proof. destruct data; simpl; [done|]. by intros [= ->]. Qed.
Lemma take_2 (data : bytes) a b : data !! 0 = Some a → data !! 1 = Some b → take 2 data = [a; b].
Proof. destruct data as [|x [|y data]]; simpl; try done. by intros [= ->] [= ->]. Qed.

Lemma read_u8_implements : implements read_u8 (spec_take be_decode false false 1).
Proof.
  apply (front_implements false false 1 be_decode (λ r, value ⇐ lift (index (buf r) (start_offset r));
    _ ⇐ put (advance r (start_offset r + 1)); ret value)); [done|]. intros r src data Ht Hl.
  destruct (index_unparsed r src data 0 Ht ltac:(lia)) as (b & Hb & Hd). rewrite Nat.add_0_r in Hb.
  unfold bind, lift. rewrite Hb, (take_1 data b) by done. simpl. by rewrite be_decode_cons, Z.mul_1_r, Z.add_0_r.
Qed.

Lemma peek_u8_implements : implements peek_u8 (spec_take be_decode false true 1).
Proof.
  apply (front_implements false true 1 be_decode (λ r, lift (index (buf r) (start_offset r)))); [done|]. intros r src data Ht Hl.
  destruct (index_unparsed r src data 0 Ht ltac:(lia)) as (b & Hb & Hd). rewrite Nat.add_0_r in Hb.
  unfold lift. rewrite Hb, (take_1 data b) by done. simpl. by rewrite be_decode_cons, Z.mul_1_r, Z.add_0_r.
Qed.

Lemma read_u16_implements : implements read_u16_be (spec_take be_decode false false 2).
Proof.
  apply (front_implements false false 2 be_decode (λ r, hi ⇐ lift (index (buf r) (start_offset r));
    lo ⇐ lift (index (buf r) (start_offset r + 1));
    _ ⇐ put (advance r (start_offset r + 2)); ret (be_decode [hi; lo]))); [done|]. intros r src data Ht Hl.
  destruct (index_unparsed r src data 0 Ht ltac:(lia)) as (a & Ha & Hd). rewrite Nat.add_0_r in Ha.
  destruct (index_unparsed r src data 1 Ht ltac:(lia)) as (b & Hb & Hd').
  unfold bind, lift. by rewrite Ha, Hb, (take_2 data a b).
Qed.

Lemma peek_slice_implements len : implements (peek_slice len) (spec_take id true true len).
Proof.
  apply (front_implements true true len id (λ r, lift (slice (buf r) (start_offset r) (start_offset r + len)))).
  - intros r src. unfold peek_slice, bind, get. simpl. by destruct (_ <? _).
  - intros r src data Ht Hl. unfold lift. by rewrite (slice_unparsed r src data).
Qed.

Lemma read_slice_implements len : implements (read_slice len) (spec_take id true false len).
Proof.
  apply (front_implements true false len id (λ r, data ⇐ lift (slice (buf r) (start_offset r) (start_offset r + len));
    _ ⇐ put (advance r (start_offset r + len)); ret data)).
  - intros r src. unfold read_slice, bind, get. simpl. by destruct (_ <? _).
  - intros r src data Ht Hl. unfold bind, lift. by rewrite (slice_unparsed r src data).
Qed.

Lemma skip_implements debug len :
  implements (data ⇐ peek_slice len; _ ⇐ consume debug len; ret data) (spec_take id true false len).
Proof.
  apply (front_implements true false len id (λ r, data ⇐ lift (slice (buf r) (start_offset r) (start_offset r + len));
    _ ⇐ consume debug len; ret data)).
  - intros r src. unfold peek_slice, bind, get. simpl. destruct (_ <? _); [done|].
    by destruct (fill len r src) as [[[] ?] ?].
  - intros r src data Ht Hl. unfold bind, lift. rewrite (slice_unparsed r src data) by done. unfold consume, bind, get.
    rewrite (length_unparsed _ _ _ Ht) in Hl. destruct Ht. rewrite (proj2 (Nat.leb_le _ _)) by lia. by rewrite andb_false_r.
Qed.

Lemma spec_take_map {A B} (g : A → B) (f : bytes → A) guarded peek len data :
  spec_take (λ b, g (f b)) guarded peek len data =
    let '(o, rest) := spec_take f guarded peek len data in (g <$> o, rest).
Proof. unfold spec_take. by destruct (spec_front guarded len data). Qed.

Lemma read_line_implements : implements read_line (λ data,
  match spec_line data with
  | (Ok line, rest) => (if utf8_valid line then Ok line else err InvalidData "Failed to decode utf8", rest)
  | (Err e, rest) => (Err e, rest)
  | (Panic, rest) => (Panic, rest)
  end).
Proof.
  intros r src data res r' src' Ht Hr. unfold read_line, bind in Hr.
  destruct (read_line_bytes r src) as [[res1 r1] src1] eqn:El.
  apply (read_line_bytes_ok _ _ _ _ _ _ Ht) in El as [-> Ht1]. destruct (spec_line data) as [[line|e|] rest]; simpl in *;
    [destruct (utf8_valid line)|..]; by injection Hr as <- <- <-.
Qed.

Lemma perform_implements debug q : implements (perform debug q) (spec q).
Proof.
  destruct q; simpl.
  - eapply implements_ext; [|apply (implements_map Bytes), read_line_implements]. intros data. simpl.
    destruct (spec_line data) as [[line|e|] rest]; [destruct (utf8_valid line)|..]; done.
  - eapply implements_ext; [|apply (implements_map Num), read_u8_implements]. intros data. apply spec_take_map.
  - eapply implements_ext; [|apply (implements_map Num), peek_u8_implements]. intros data. apply spec_take_map.
  - eapply implements_ext; [|apply (implements_map Num), read_u16_implements]. intros data. apply spec_take_map.
  - eapply implements_ext; [|apply (implements_map Bytes), peek_slice_implements]. intros data. apply (spec_take_map Bytes id).
  - eapply implements_ext; [|apply (implements_map Bytes), read_slice_implements]. intros data. apply (spec_take_map Bytes id).
  - intros r src data res r' src' Ht Hr.
    apply (implements_ext _ _ _ (λ data, spec_take_map Bytes id true false len data)
      (implements_map Bytes _ _ (skip_implements debug len)) r src data res r' src' Ht).
    rewrite <- Hr. unfold bind. destruct (peek_slice len r src) as [[[] ?] ?]; [|done..].
    by destruct (consume debug len _ _) as [[[] ?] ?].
Qed.

Lemma perform_all_implements debug qs : implements (perform_all debug qs) (spec_all qs).
Proof.
  induction qs as [|q qs IH]; intros r src data res r' src' Ht Hr; simpl in *; [by injection Hr as <- <- <-|].
  unfold bind in Hr. destruct (perform debug q r src) as [[res1 r1] src1] eqn:Ep.
  apply (perform_implements _ _ _ _ _ _ _ _ Ht) in Ep as [-> Ht1].
  destruct (spec q data) as [[v|e|] rest]; simpl in *; [|by injection Hr as <- <- <-..].
  destruct (perform_all debug qs r1 src1) as [[res2 r2] src2] eqn:Ea.
  apply (IH _ _ _ _ _ _ Ht1) in Ea as [-> Ht2]. destruct (spec_all qs rest) as [[vs|e|] rest']; simpl in *;
    by injection Hr as <- <- <-.
Qed.

End facts.

Lemma new_tracks junk cap src :
  source_ok src → tracks cap false (last_error src) (taken src ++ flat src) (written src) (sink src)
    (new_with_buffer_size junk cap) src (flat src).
Proof.
  intros Hs. unfold new_with_buffer_size. split; simpl; try done; [lia|].
  by rewrite length_fmap, length_seq.
Qed.

(** ** Properties *)

(** C29: a handshake read through the buffered reader is a function of the bytes
    of the stream: any program of lines, numbers, slices and peeks on a new
    reader has the result of the same program on the bytes alone, up to its first
    error, and leaves the bytes that follow; neither the pieces the bytes come
    in, nor interrupted reads, nor the shifts of the buffer show, and no offset
    leaves the buffer. *)
Theorem handshake_reads_are_chunking_independent junk debug cap src qs :
  source_ok src →
  let '(res, r, src') := perform_all debug qs (new_with_buffer_size junk cap) src in
  let '(res', rest) := spec_all cap false (last_error src) qs (flat src) in
  res = res' ∧ ∃ held, unparsed_data r = Ok held ∧ held ++ flat src' = rest.
Proof.
  intros Hs. destruct (perform_all _ _ _ _) as [[res r] src'] eqn:Ep.
  apply (perform_all_implements cap false (last_error src) (taken src ++ flat src) (written src) (sink src) debug qs _ _ (flat src)) in Ep as [-> Ht]; [|by apply new_tracks].
  destruct (spec_all _ _ _ _ _) as [res' rest]. split; [done|]. exists (unparsed r). split; [|by destruct Ht].
  unfold unparsed_data. destruct Ht. simpl in *. rewrite slice_Ok by lia. done.
Qed.

(** A request line in three pieces and an interruption, then a number. *)
Definition sample_source : Source :=
  incoming [Some (B "GE"); None; Some (B "T /" ++ [CR]); Some ([LF; 1%Z; 2%Z] ++ B "rest")].

Lemma handshake_reads_are_chunking_independent_witness :
  source_ok sample_source ∧
  spec_all 8 false EOF [Line; PeekU8; U16; Slice 2] (flat sample_source) =
    (Ok [Bytes (B "GET /"); Num 1%Z; Num 258%Z; Bytes (B "re")], B "st") ∧
  let '(res, r, src') := perform_all true [Line; PeekU8; U16; Slice 2]
    (new_with_buffer_size (λ _, 0%Z) 8) sample_source in
  let '(res', rest) := spec_all 8 false (last_error sample_source) [Line; PeekU8; U16; Slice 2] (flat sample_source) in
  res = res' ∧ ∃ held, unparsed_data r = Ok held ∧ held ++ flat src' = rest.
Proof.
  assert (Hs : source_ok sample_source).
  { split; [|done]. repeat constructor; done. }
  split; [exact Hs|]. split; [by vm_compute|].
  apply (handshake_reads_are_chunking_independent (λ _, 0%Z) true 8 sample_source). exact Hs.
Defined.

End Reader.
