(* ===== verification/XHttpRequest.v ===== *)
(** * XHTTP requests ([src/v2board/xhttp.rs])

    How the server reads a request, over HTTP/1 through the buffered reader and
    over HTTP/2 from the parts the [h2] library hands out, and what it does with
    it: which session gets which packets, which session is downloaded, and the
    head of the response.

    Shown: a numbered post, in whatever pieces it arrives, becomes exactly its
    packet for its session; the body of a stream-up request becomes packets that
    put in order are the body. *)
From S2P Require Import Prelude Text SharedUsers Stream XHttp XHttpFacts StreamReader.

Module XHttpRequest.
Import Reader XHttp.
Local Open Scope reader_scope.

(** ** Responses *)
Definition uses_cookie_credentials (config : XHttpConfig) : bool :=
  bool_decide (session_id_placement config = Cookie) || bool_decide (seq_placement config = Cookie) ||
  match uplink_data_placement config with CookieData => true | _ => false end.

(** [headers.get(key).filter(|value| !value.trim().is_empty()).unwrap_or("*")] *)
Definition header_or_star (headers : gmap bytes bytes) (key : bytes) : bytes :=
  key_or (headers !! key) (B "*").

Definition xhttp_response_headers (config : XHttpConfig) (method : bytes) (headers : gmap bytes bytes)
    (end_stream : bool) : list (bytes * bytes) :=
  [(B "access-control-allow-origin", header_or_star headers (B "origin"))] ++
  (if uses_cookie_credentials config then [(B "access-control-allow-credentials", B "true")] else []) ++
  (if eq_ignore_ascii_case method (B "OPTIONS") then
     [(B "access-control-allow-methods", header_or_star headers (B "access-control-request-method"));
      (B "access-control-allow-headers", header_or_star headers (B "access-control-request-headers"))]
   else []) ++
  [(B "x-accel-buffering", B "no"); (B "cache-control", B "no-store")] ++
  (if end_stream then [(B "content-length", B "0")] else []).

Definition crlf : bytes := [CR; LF].

(** The text of [write_http1_status] with [StatusCode::OK] *)
Definition http1_status (config : XHttpConfig) (method : bytes) (headers : gmap bytes bytes)
    (end_stream : bool) : bytes :=
  B "HTTP/1.1 200 OK" ++ crlf ++
  concat ((λ kv, kv.1 ++ B ": " ++ kv.2 ++ crlf) <$> xhttp_response_headers config method headers end_stream) ++
  (if negb (no_sse_header config) && negb end_stream then B "Content-Type: text/event-stream" ++ crlf else []) ++
  crlf.

(** The fields of [h2_response] *)
Definition h2_response (config : XHttpConfig) (method : bytes) (headers : gmap bytes bytes)
    (end_stream : bool) : list (bytes * bytes) :=
  xhttp_response_headers config method headers end_stream ++
  (if negb (no_sse_header config) && negb end_stream then [(B "content-type", B "text/event-stream")] else []).

(** ** Reading an HTTP/1 request *)
Definition throw_invalid {A} (msg : string) : io A := throw InvalidInput msg.

Record ParsedHttp1Request := mkRequest {
  method : bytes;
  rpath : bytes;
  query : option bytes;
  rhost : option bytes;
  headers : gmap bytes bytes;
  content_length : Z }.

Definition MAX_HEADER_LINE : nat := N.to_nat 4096.
Definition MAX_HEADERS : nat := 128.

Fixpoint header_loop (slots : nat) (headers : gmap bytes bytes) : io (gmap bytes bytes) :=
  match slots with
  | O => throw_invalid "xhttp request has too many headers"
  | S slots =>
      line ⇐ read_line;
      if length line =? 0 then ret headers
      else if MAX_HEADER_LINE <=? length line then throw_invalid "xhttp request header line is too long"
      else
        match split_once 58 line with
        | None => throw_invalid "invalid xhttp header"
        | Some (key, value) => header_loop slots (<[to_ascii_lowercase (trim key) := trim value]> headers)
        end
  end.

Definition parse_http1_request : io ParsedHttp1Request :=
  first_line ⇐ read_line;
  let parts := split_whitespace first_line in
  let method := default [] (parts !! 0) in
  let target := default [] (parts !! 1) in
  let version := default [] (parts !! 2) in
  if (3 <? length parts) || negb (bool_decide (version = B "HTTP/1.0") || bool_decide (version = B "HTTP/1.1"))
  then throw_invalid "invalid xhttp request line"
  else
    let '(path, query) := split_http_target target in
    headers ⇐ header_loop MAX_HEADERS ∅;
    let host := headers !! B "host" in
    content_length ⇐ lift
      (match headers !! B "content-length" with
       | Some value => ok_or (parse_uint 64 value) (invalid_error "xhttp content-length is invalid")
       | None => Ok 0%Z
       end);
    ret (mkRequest method path query host headers content_length).

(** [read_exact]: a read of nothing is an early end. *)
Fixpoint read_exact (fuel : nat) (n : nat) (src : Source) : outcome bytes * Source :=
  if n =? 0 then (Ok [], src)
  else
    match fuel with
    | O => (Panic, src)
    | S fuel =>
        match stream_read n src with
        | (Ok [], src) => (err UnexpectedEof "early eof", src)
        | (Ok d, src) => let '(res, src) := read_exact fuel (n - length d) src in (app d <$> res, src)
        | (Err e, src) => (Err e, src)
        | (Panic, src) => (Panic, src)
        end
    end.

(** The length is at most [limit] where it is used as one. *)
Definition read_http1_body (content_length : Z) (limit : nat) : io bytes := λ r src,
  if (Z.of_nat limit <? content_length)%Z
  then throw_invalid "xhttp request body exceeds configured post size" r src
  else
    let n := Z.to_nat content_length in
    match unparsed_data_owned r with
    | Ok unparsed =>
        let body := match unparsed with Some data => take (Nat.min (length data) n) data | None => [] end in
        if length body <? n then
          let '(res, src) := read_exact n (n - length body) src in (app body <$> res, r, src)
        else (Ok body, r, src)
    | _ => (Panic, r, src)
    end.

(** ** What a request comes to *)
(** The head of a response: text over HTTP/1, fields over HTTP/2. *)
Inductive head := Text (response : bytes) | Fields (response : list (bytes * bytes)).

(** What the request does, and the head it is answered with; a post is answered
    when it has been pushed. *)
Inductive action :=
  | Answered (response : head)
  | Posted (session_id : bytes) (packets : list XHttpPacket) (response : head)
  | Downloading (session_id : bytes) (response : head)
  | Single (body : bytes) (response : head)
  | SingleStream (response : head).

Section handlers.
Context (parse_query : bytes → list (bytes * bytes)) (base64_decode : bytes → option bytes).
Context (config : XHttpConfig).

Definition run_http1 : io action :=
  request ⇐ parse_http1_request;
  _ ⇐ lift (validate_host config (rhost request));
  _ ⇐ lift (validate_path config (rpath request));
  let status end_stream := Text (http1_status config (method request) (headers request) end_stream) in
  if eq_ignore_ascii_case (method request) (B "OPTIONS") then ret (Answered (status true))
  else
    let meta := extract_meta parse_query config (rpath request) (query request) (headers request) in
    kind ⇐ lift (classify_request config (method request) meta);
    match kind with
    | KPacketUp session_id seq =>
        body ⇐ read_http1_body (content_length request) (max_each_post_bytes config);
        payload ⇐ lift (packet_payload base64_decode config (headers request) body);
        ret (Posted session_id [mkPacket seq payload] (status true))
    | KStreamUp session_id =>
        body ⇐ read_http1_body (content_length request) (max_each_post_bytes config);
        ret (Posted session_id [mkPacket 0 body] (status true))
    | KStreamDown session_id => ret (Downloading session_id (status false))
    | KStreamOne =>
        body ⇐ read_http1_body (content_length request) (max_each_post_bytes config);
        ret (Single body (status false))
    end.

(** [read_h2_body] on the pieces of a body *)
Fixpoint read_h2_body (limit : nat) (body : bytes) (pieces : list bytes) : outcome bytes :=
  match pieces with
  | [] => Ok body
  | data :: pieces =>
      if limit <? length body + length data
      then invalid "xhttp h2 request body exceeds configured post size"
      else read_h2_body limit (body ++ data) pieces
  end.

(** The packets of a stream-up body are pushed as they come, also those before an
    error. *)
Definition handle_h2_request (authority : option bytes) (method path : bytes) (query : option bytes)
    (headers : gmap bytes bytes) (pieces : list bytes) : outcome action :=
  _ ← validate_host config authority;
  _ ← validate_path config path;
  let response end_stream := Fields (h2_response config method headers end_stream) in
  if eq_ignore_ascii_case method (B "OPTIONS") then Ok (Answered (response true))
  else
    kind ← classify_request config method (extract_meta parse_query config path query headers);
    match kind with
    | KPacketUp session_id seq =>
        body ← read_h2_body (max_each_post_bytes config) [] pieces;
        payload ← packet_payload base64_decode config headers body;
        Ok (Posted session_id [mkPacket seq payload] (response true))
    | KStreamUp session_id =>
        Ok (Posted session_id (stream_packets (max_each_post_bytes config) 0 0 pieces).1 (response false))
    | KStreamDown session_id => Ok (Downloading session_id (response false))
    | KStreamOne => Ok (SingleStream (response false))
    end.

End handlers.

(** What the action is to the sessions. *)
Definition session_event (a : action) : option event :=
  match a with
  | Posted session_id packets _ => Some (Post session_id packets)
  | Downloading session_id _ => Some (Open session_id)
  | Answered _ | Single _ _ | SingleStream _ => None
  end.

(** ** Streams without interruptions *)
Definition calm (src : Source) : Prop := Forall is_Some (arrivals src).

Lemma stream_read_calm n src : calm src → calm (stream_read n src).2.
Proof.
  unfold calm, stream_read. destruct src as [[|[d|] rest] f]; simpl; [done|..]; intros [H1 H2]%Forall_cons; [|done].
  destruct (_ <=? _); simpl; [done|]. by constructor.
Qed.

Lemma read_loop_calm fuel r src : calm src → calm (read_loop fuel r src).2.
Proof.
  revert src. induction fuel as [|fuel IH]; intros src Hc; simpl; [done|].
  destruct (slice _ _ _) as [room| |]; [|done..]. pose proof (stream_read_calm (length room) src Hc) as Hc'.
  destruct (stream_read (length room) src) as [[d|e|] src']; simpl in *; [by destruct (_ =? _)| |done].
  destruct (bool_decide _); [by apply IH | done].
Qed.

Lemma read_calm r src : calm src → calm (Reader.read r src).2.
Proof.
  intros Hc. unfold Reader.read. destruct (is_cache_full r); [done|].
  destruct (reset_buf_offset r); [by apply read_loop_calm | done..].
Qed.

Lemma line_loop_calm fuel k r src : calm src → calm (line_loop fuel k r src).2.
Proof.
  revert k r src. induction fuel as [|fuel IH]; intros k r src Hc; [done|]. cbn [line_loop].
  unfold bind at 1 2, get at 1, lift at 1. destruct (slice _ _ _) as [window| |]; [|done..].
  destruct (find_byte LF window).
  - destruct (_ && _); [done|]. unfold bind, lift. by destruct (slice _ _ _).
  - unfold bind at 1. pose proof (read_calm r src Hc) as Hc'.
    destruct (Reader.read r src) as [[[[]|e|] r1] src1]; [|done..]. simpl in Hc'. unfold bind, get.
    destruct (negb _); [destruct (_ =? _); [by apply IH | done] | by apply IH].
Qed.

Lemma read_line_calm r src : calm src → calm (read_line r src).2.
Proof.
  intros Hc. unfold read_line, bind. pose proof (line_loop_calm (S (length (flat src))) (start_offset r) r src Hc) as Hl.
  fold (read_line_bytes r src) in Hl. destruct (read_line_bytes r src) as [[[line|e|] r1] src1]; [|done..].
  by destruct (utf8_valid line).
Qed.

Lemma read_exact_ok fuel n src d extra :
  calm src → source_ok src → flat src = d ++ extra → length d = n → n ≤ fuel →
  (read_exact fuel n src).1 = Ok d.
Proof.
  revert n src d. induction fuel as [|fuel IH]; intros n src d Hc Hs Hf Hl Hn.
  { assert (n = 0) as -> by lia. by destruct d. }
  cbn [read_exact]. destruct (n =? 0) eqn:E; to_prop; [destruct d; [done | simpl in *; lia]|].
  destruct (arrivals src) as [|[d1|] rest] eqn:Ha.
  - unfold flat in Hf. rewrite Ha in Hf. simpl in Hf. symmetry in Hf. apply app_nil in Hf as [-> _]. simpl in Hl. lia.
  - destruct (stream_read_data n src d1 rest ltac:(lia) Hs Ha) as (d2 & rest2 & Er & Hne & Hl2 & Hs2 & Hf2).
    set (src2 := after_read src d2 rest2) in *. change (flat_items rest2) with (flat src2) in Hf2.
    pose proof (stream_read_calm n _ Hc) as Hc2. rewrite Er in Hc2 |- *. destruct d2 as [|x d2]; [done|].
    rewrite Hf2 in Hf. assert (Hd : x :: d2 = take (length (x :: d2)) d).
    { rewrite <- (take_app_le d extra) by lia. rewrite <- Hf. by rewrite take_app_length. }
    assert (Hf3 : flat src2 = drop (length (x :: d2)) d ++ extra).
    { rewrite <- (drop_app_le d extra) by lia. rewrite <- Hf. by rewrite drop_app_length. }
    specialize (IH (n - length (x :: d2)) src2 (drop (length (x :: d2)) d) Hc2 Hs2 Hf3).
    destruct (read_exact fuel (n - length (x :: d2)) src2) as [res src3]. simpl fst in *.
    rewrite IH; [|rewrite length_drop; lia|simpl; lia]. change (Ok ((x :: d2) ++ drop (length (x :: d2)) d) = Ok d). rewrite Hd at 1. by rewrite take_drop.
  - unfold calm in Hc. rewrite Ha in Hc. by apply Forall_cons in Hc as [[? ?] _].
Qed.

(** ** Reading what a client writes *)
Section reading.
Context (cap : nat) (last : io_error).

Definition holds (r : StreamReader) (src : Source) (data : bytes) : Prop :=
  (∃ whole sent broken, tracks cap false last whole sent broken r src data) ∧ calm src.

(** On [data], [m] returns [a] and leaves [rest]. *)
Definition yields {A} (m : io A) (a : A) (data rest : bytes) : Prop :=
  ∀ r src, holds r src data → ∃ r' src', m r src = (Ok a, r', src') ∧ holds r' src' rest.

Lemma yields_ret {A} (a : A) data : yields (ret a) a data data.
Proof. intros r src Hh. by eexists _, _. Qed.
Lemma yields_lift {A} (o : outcome A) a data : o = Ok a → yields (lift o) a data data.
Proof. intros -> r src Hh. by eexists _, _. Qed.
Lemma yields_bind {A C} (m : io A) (f : A → io C) a c d1 d2 d3 :
  yields m a d1 d2 → yields (f a) c d2 d3 → yields (bind m f) c d1 d3.
Proof.
  intros Hm Hf r src Hh. destruct (Hm r src Hh) as (r1 & src1 & E & Hh1). unfold bind. rewrite E. by apply Hf.
Qed.

(** Text of one line *)
Definition plain (s : bytes) : Prop := Forall (λ c, (32 ≤ c ≤ 126)%Z) s.

Lemma plain_not_elem s c : plain s → ¬ (32 ≤ c ≤ 126)%Z → c ∉ s.
Proof. intros Hs Hc Hin. by eapply Forall_forall in Hs; [|exact Hin]. Qed.

Lemma plain_utf8 s : plain s → utf8_valid s = true.
Proof.
  intros Hs. apply utf8_valid_ascii. unfold is_ascii. apply forallb_forall. intros c Hc.
  apply list_elem_of_In in Hc. eapply Forall_forall in Hs; [|exact Hc]. simpl in Hs.
  apply andb_true_iff. split; apply Z.leb_le; lia.
Qed.

Lemma spec_line_crlf line rest :
  plain line → length line + 2 ≤ cap → spec_line cap false last (line ++ crlf ++ rest) = (Ok line, rest).
Proof.
  intros Hp Hl. unfold spec_line.
  replace (line ++ crlf ++ rest) with ((line ++ [CR]) ++ LF :: rest) by (by rewrite <- app_assoc).
  assert (Hlen : length (line ++ [CR]) = S (length line)) by (rewrite length_app; simpl; lia).
  assert (Hfind : find_byte LF (take cap ((line ++ [CR]) ++ LF :: rest)) = Some (S (length line))).
  { rewrite take_app_ge by lia. destruct (cap - length (line ++ [CR])) as [|n] eqn:E; [lia|]. cbn [take].
    rewrite find_byte_app; [by rewrite Hlen|]. intros [Hin|Hin]%elem_of_app; [|by apply list_elem_of_singleton in Hin].
    revert Hin. apply plain_not_elem; [done | unfold LF; lia]. }
  rewrite Hfind. replace (S (length line) - 1) with (length line) by lia.
  rewrite lookup_app_l by lia. rewrite lookup_app_r, Nat.sub_diag by lia. simpl.
  rewrite take_app_le, take_app_length by lia. rewrite (drop_app_ge _ _ (S _)) by lia.
  replace (S (length line + 1) - length (line ++ [CR])) with 1 by lia. done.
Qed.

Lemma yields_line line rest :
  plain line → length line + 2 ≤ cap → yields read_line line (line ++ crlf ++ rest) rest.
Proof.
  intros Hp Hl r src [(w & st & bk & Ht) Hc]. pose proof (read_line_calm r src Hc) as Hc'.
  destruct (read_line r src) as [[res r'] src'] eqn:Er.
  apply (read_line_implements cap false last _ _ _ _ _ _ _ _ _ Ht) in Er as [-> Ht'].
  rewrite spec_line_crlf, plain_utf8 in * by done. eexists _, _. split; [done|].
  split; [by eexists _, _, _ | done].
Qed.

Definition returns {A} (m : io A) (a : A) (data : bytes) : Prop :=
  ∀ r src, holds r src data → (m r src).1.1 = Ok a.

Lemma returns_bind {A C} (m : io A) (f : A → io C) a c d1 d2 :
  yields m a d1 d2 → returns (f a) c d2 → returns (bind m f) c d1.
Proof.
  intros Hm Hf r src Hh. destruct (Hm r src Hh) as (r1 & src1 & E & Hh1). unfold bind. rewrite E. by apply Hf.
Qed.
Lemma returns_then {A C} (m : io A) (f : A → io C) a c d :
  returns m a d → (∀ r src, (f a r src).1.1 = Ok c) → returns (bind m f) c d.
Proof.
  intros Hm Hf r src Hh. specialize (Hm r src Hh). unfold bind. destruct (m r src) as [[res r1] src1].
  simpl in Hm. subst res. apply Hf.
Qed.

Lemma returns_body limit body extra :
  length body ≤ limit → returns (read_http1_body (Z.of_nat (length body)) limit) body (body ++ extra).
Proof.
  intros Hl r src [(w & st & bk & Ht) Hc]. unfold read_http1_body. rewrite (proj2 (Z.ltb_ge _ _)), Nat2Z.id by lia.
  assert (Hu : unparsed_data_owned r = Ok (if length (unparsed r) =? 0 then None else Some (unparsed r))).
  { unfold unparsed_data_owned, unparsed_data. destruct Ht. rewrite slice_Ok by lia. done. }
  rewrite Hu. set (got := match _ with Some data => _ | None => [] end).
  assert (Hg : got = take (length body) (unparsed r)).
  { unfold got. destruct (unparsed r) as [|x u] eqn:E; [by rewrite take_nil|]. cbn [length Nat.eqb].
    destruct (decide (length (x :: u) ≤ length body)); [rewrite Nat.min_l, !take_ge by (simpl in *; lia); done|].
    by rewrite Nat.min_r by (simpl in *; lia). }
  clearbody got. subst got. rewrite length_take. pose proof (tr_data _ _ _ _ _ _ _ _ _ Ht) as Hd.
  destruct (_ <? _) eqn:E; to_prop; simpl.
  - rewrite take_ge by lia. rewrite Nat.min_r by lia.
    assert (Hf : flat src = drop (length (unparsed r)) body ++ extra).
    { rewrite <- (drop_app_le body extra) by lia. rewrite <- Hd. by rewrite drop_app_length. }
    pose proof (read_exact_ok (length body) (length body - length (unparsed r)) src
      (drop (length (unparsed r)) body) extra Hc) as Hx.
    destruct Ht. specialize (Hx tr_source0 Hf). rewrite length_drop in Hx. specialize (Hx eq_refl ltac:(lia)).
    destruct (read_exact _ _ src) as [res src']. simpl in *. subst res. simpl. f_equal.
    assert (Hp : unparsed r = take (length (unparsed r)) body).
    { rewrite <- (take_app_le body extra) by lia. rewrite <- Hd. by rewrite take_app_length. }
    rewrite Hp at 1. apply take_drop.
  - f_equal. rewrite <- (take_app_le (unparsed r) (flat src)) by lia. rewrite Hd. by rewrite take_app_length.
Qed.

End reading.

(** ** A numbered post *)
Definition post_target (config : XHttpConfig) (id : bytes) (n : Z) : bytes :=
  path config ++ id ++ slash :: print_dec n.
Definition request_line (config : XHttpConfig) (id : bytes) (n : Z) : bytes :=
  join [32%Z] [B "POST"; post_target config id n; B "HTTP/1.1"].
Definition print_head (config : XHttpConfig) (h id : bytes) (n : Z) (len : nat) (rest : bytes) : bytes :=
  request_line config id n ++ crlf ++
  (B "Host: " ++ h) ++ crlf ++
  (B "Content-Length: " ++ print_dec (Z.of_nat len)) ++ crlf ++
  [] ++ crlf ++ rest.
Definition print_post (config : XHttpConfig) (h id : bytes) (n : Z) (body : bytes) : bytes :=
  print_head config h id n (length body) body.

(** A configuration in which session and number are parts of the path, as they
    are unless it says otherwise, and data is the body. *)
Record takes_posts (config : XHttpConfig) (h : bytes) : Prop := {
  tp_id : session_id_placement config = Path;
  tp_seq : seq_placement config = Path;
  tp_data : uplink_data_placement config = Body;
  tp_mode : mode config = Auto ∨ mode config = PacketUp;
  tp_path : ∃ p, path config = slash :: p;
  tp_graphic : Forall graphic (path config);
  tp_query : 63%Z ∉ path config;
  tp_host : host config = None ∨ host config = Some (to_ascii_lowercase h) }.

Definition path_text (s : bytes) : Prop := s ≠ [] ∧ Forall graphic s ∧ slash ∉ s ∧ 63%Z ∉ s.

Lemma graphic_plain s : Forall graphic s → plain s.
Proof. intros Hg. eapply Forall_impl; [exact Hg|]. unfold graphic. simpl. lia. Qed.

Lemma graphic_trimmed s : s ≠ [] → Forall graphic s → trimmed_text s.
Proof.
  intros Hne Hg. split.
  - destruct s as [|c t]; [done|]. apply Forall_cons in Hg as [? _]. by eexists _, _.
  - destruct s as [|c t _] using rev_ind; [done|]. apply Forall_app in Hg as [_ [? _]%Forall_cons]. by eexists _, _.
Qed.

Lemma trim_blank s : s ≠ [] → Forall graphic s → trim (32%Z :: s) = s.
Proof. intros Hne Hg. change (trim (32%Z :: s)) with (trim s). by apply trim_trimmed, graphic_trimmed. Qed.

Lemma digits_graphic n : (0 ≤ n)%Z → print_dec n ≠ [] ∧ Forall graphic (print_dec n) ∧ slash ∉ print_dec n ∧ 63%Z ∉ print_dec n.
Proof.
  intros Hn. destruct (print_dec_spec n Hn) as (_ & Hd & Hne). split; [done|].
  assert (Hr : Forall (λ c, (48 ≤ c ≤ 57)%Z) (print_dec n)).
  { eapply Forall_impl; [exact Hd|]. intros c Hc. unfold is_ascii_digit in Hc. to_prop. lia. }
  split; [eapply Forall_impl; [exact Hr|]; unfold graphic; simpl; lia|].
  split; intros Hin; eapply Forall_forall in Hr; try exact Hin; unfold slash in *; simpl in *; lia.
Qed.

Lemma split_once_absent c s : c ∉ s → split_once c s = None.
Proof. intros Hc. unfold split_once. by rewrite find_byte_None. Qed.

Section post.
Context (config : XHttpConfig) (h id : bytes) (n : Z).
Context (Hc : takes_posts config h) (Hid : path_text id) (Hn : (0 ≤ n < 2 ^ 64)%Z).

Lemma target_text : Forall graphic (post_target config id n) ∧ 63%Z ∉ post_target config id n ∧
  ∃ t, post_target config id n = slash :: t.
Proof.
  destruct Hc, Hid as (_ & Hg & _ & Hq). destruct (digits_graphic n) as (_ & Hdg & _ & Hdq); [lia|]. unfold post_target.
  split; [|split].
  - apply Forall_app. split; [done|]. apply Forall_app. split; [done|]. constructor; [unfold graphic, slash; lia | done].
  - rewrite !not_elem_of_app, not_elem_of_cons. by split_and!.
  - destruct tp_path0 as [p ->]. by eexists.
Qed.

Lemma request_line_parts :
  split_whitespace (request_line config id n) = [B "POST"; post_target config id n; B "HTTP/1.1"] ∧
  plain (request_line config id n).
Proof.
  destruct target_text as (Hg & _ & t & Ht).
  assert (Hall : Forall (λ t, t ≠ [] ∧ Forall graphic t) [B "POST"; post_target config id n; B "HTTP/1.1"]).
  { constructor; [|constructor; [by rewrite Ht in Hg |- *|constructor; [|done]]]; (split; [done|]);
      unfold graphic; compute_done. }
  split; [by apply split_whitespace_join|]. unfold request_line. cbn [join]. unfold plain.
  apply graphic_plain in Hg. clear Hall Ht. set (t' := post_target config id n) in *. clearbody t'.
  apply Forall_app. split; [compute_done|]. apply Forall_app. split; [compute_done|].
  apply Forall_app. split; [done | compute_done].
Qed.

Lemma target_splits : split_http_target (post_target config id n) = (post_target config id n, None).
Proof.
  destruct target_text as (_ & Hq & t & Ht). unfold split_http_target, strip_prefix. rewrite Ht in *.
  simpl starts_with. by rewrite split_once_absent.
Qed.

Lemma path_allowed : validate_path config (post_target config id n) = Ok tt.
Proof.
  unfold validate_path, post_target. rewrite (proj2 (starts_with_spec _ _)); [done|]. by eexists.
Qed.

Lemma host_allowed : h ≠ [] → Forall graphic h → validate_host config (Some h) = Ok tt.
Proof.
  intros Hne Hg. unfold validate_host. destruct (tp_host _ _ Hc) as [->| ->]; [done|]. simpl.
  rewrite trim_trimmed by (by apply graphic_trimmed). by rewrite bool_decide_true.
Qed.

Lemma post_meta parse_query q hs :
  extract_meta parse_query config (post_target config id n) q hs = mkMeta (Some id) (Some (print_dec n)).
Proof.
  destruct Hc, Hid as (Hne & Hg & Hs & _). destruct (digits_graphic n) as (Hdne & _ & Hds & _); [lia|].
  unfold extract_meta. rewrite tp_id0, tp_seq0. rewrite bool_decide_true by done. cbn [orb].
  unfold strip_prefix, post_target. rewrite (proj2 (starts_with_spec _ _)) by (by eexists).
  rewrite drop_app_length. cbn [default option_fmap option_map from_option]. unfold Datatypes.id.
  rewrite split_on_app_sep, split_on_no_sep by done. by rewrite !filter_cons_True, filter_nil by done.
Qed.

Lemma post_kind : classify_request config (B "POST") (mkMeta (Some id) (Some (print_dec n))) = Ok (KPacketUp id n).
Proof.
  unfold classify_request. cbn [seq session_id]. change (to_ascii_uppercase (B "POST")) with (B "POST").
  rewrite bool_decide_false by done. rewrite parse_print_dec by done. by destruct (tp_mode _ _ Hc) as [-> | ->].
Qed.

End post.

Lemma header_loop_line cap last slots line key value m m' rest rest' :
  plain line → length line < MAX_HEADER_LINE → length line + 2 ≤ cap → split_once 58 line = Some (key, value) →
  yields cap last (header_loop slots (<[to_ascii_lowercase (trim key) := trim value]> m)) m' rest rest' →
  yields cap last (header_loop (S slots) m) m' (line ++ crlf ++ rest) rest'.
Proof.
  intros Hp Hm Hl Hs Hrest. cbn [header_loop]. eapply yields_bind; [by apply yields_line|].
  assert (Hne : length line ≠ 0) by (destruct line; [done | simpl; lia]).
  rewrite (proj2 (Nat.eqb_neq _ 0)) by done. rewrite (proj2 (Nat.leb_gt _ _)) by done. by rewrite Hs.
Qed.

Lemma header_loop_end cap last slots m rest :
  2 ≤ cap → yields cap last (header_loop (S slots) m) m ([] ++ crlf ++ rest) rest.
Proof.
  intros Hc. cbn [header_loop]. eapply yields_bind; [by apply yields_line; [constructor|]|]. apply yields_ret.
Qed.

(** [key: value] *)
Lemma header_text name v :
  58%Z ∉ name → plain name → v ≠ [] → Forall graphic v →
  split_once 58 (name ++ B ": " ++ v) = Some (name, 32%Z :: v) ∧ plain (name ++ B ": " ++ v) ∧ trim (32%Z :: v) = v.
Proof.
  intros Hn Hp Hne Hg. split; [|split; [|by apply trim_blank]].
  - unfold split_once. change (name ++ B ": " ++ v) with (name ++ 58%Z :: 32%Z :: v). rewrite find_byte_app by done. simpl.
    rewrite take_app_length. change (S (length name)) with (1 + length name). rewrite Nat.add_comm.
    by rewrite <- drop_drop, drop_app_length.
  - apply Forall_app. split; [done|]. apply Forall_app. split; [compute_done|]. by apply graphic_plain.
Qed.

Definition post_headers (h : bytes) (len : nat) : gmap bytes bytes :=
  <[B "content-length" := print_dec (Z.of_nat len)]> (<[B "host" := h]> ∅).

Lemma length_digits fuel n acc : length (digits_aux fuel n acc) ≤ fuel + length acc.
Proof.
  revert n acc. induction fuel as [|fuel IH]; intros n acc; simpl; [lia|]. destruct (_ <? _)%Z; simpl; [lia|].
  etrans; [apply IH|]. simpl. lia.
Qed.

Lemma length_print_dec n : (0 ≤ n < 2 ^ 64)%Z → length (print_dec n) ≤ 65.
Proof.
  intros Hn. unfold print_dec. etrans; [apply length_digits|]. cbn [length].
  assert (Z.log2 n ≤ 63)%Z; [|lia]. destruct (decide (n = 0%Z)) as [->|]; [done|].
  apply Z.lt_succ_r, Z.log2_lt_pow2; lia.
Qed.

Lemma parse_post cap last config h id n len rest :
  takes_posts config h → path_text id → (0 ≤ n < 2 ^ 64)%Z → h ≠ [] → Forall graphic h →
  length h + 6 < MAX_HEADER_LINE → MAX_HEADER_LINE + 2 ≤ cap → length (request_line config id n) + 2 ≤ cap →
  (Z.of_nat len < 2 ^ 64)%Z →
  yields cap last parse_http1_request
    (mkRequest (B "POST") (post_target config id n) None (Some h) (post_headers h len) (Z.of_nat len))
    (print_head config h id n len rest) rest.
Proof.
  intros Hc Hid Hn Hh Hhg Hhl Hcap Hrl Hb.
  pose proof (length_print_dec (Z.of_nat len) ltac:(lia)) as Hbl. unfold parse_http1_request, print_head.
  destruct (request_line_parts config h id n Hc Hid Hn) as [Hsplit Hplain].
  destruct (digits_graphic (Z.of_nat len)) as (Hdne & Hdg & _); [lia|].
  eapply yields_bind; [by apply yields_line|]. rewrite Hsplit. cbn [default lookup list_lookup length].
  rewrite bool_decide_false by done. rewrite bool_decide_true by done. cbn [Nat.ltb Nat.leb negb orb].
  cbn [from_option Datatypes.id]. rewrite (target_splits config h id n Hc Hid Hn).
  destruct (header_text (B "Host") h) as (H1 & H2 & H3); [compute_done|compute_done|done..|].
  destruct (header_text (B "Content-Length") (print_dec (Z.of_nat len))) as (G1 & G2 & G3);
    [compute_done|compute_done|done..|].
  eapply yields_bind.
  { change MAX_HEADERS with (S (S (S 125))). eapply (header_loop_line cap last); [exact H2| | |exact H1|].
    1,2: rewrite length_app; change (length (B "Host: ")) with 6; lia.
    rewrite H3. eapply (header_loop_line cap last); [exact G2| | |exact G1|].
    1,2: rewrite length_app; change (length (B "Content-Length: ")) with 16; unfold MAX_HEADER_LINE in *; lia.
    rewrite G3. apply header_loop_end. lia. }
  change (to_ascii_lowercase (trim (B "Content-Length"))) with (B "content-length").
  change (to_ascii_lowercase (trim (B "Host"))) with (B "host"). fold (post_headers h len).
  assert (Hcl : post_headers h len !! B "content-length" = Some (print_dec (Z.of_nat len))) by apply lookup_insert_eq.
  assert (Hho : post_headers h len !! B "host" = Some h).
  { unfold post_headers. rewrite lookup_insert_ne by done. apply lookup_insert_eq. }
  rewrite Hcl, Hho. eapply yields_bind; [|apply yields_ret]. apply yields_lift. by rewrite parse_print_dec by lia.
Qed.

Lemma run_post parse_query base64_decode cap last config h id n body extra :
  takes_posts config h → path_text id → (0 ≤ n < 2 ^ 64)%Z → h ≠ [] → Forall graphic h →
  length h + 6 < MAX_HEADER_LINE → MAX_HEADER_LINE + 2 ≤ cap → length (request_line config id n) + 2 ≤ cap →
  length body ≤ max_each_post_bytes config → (Z.of_nat (length body) < 2 ^ 64)%Z →
  returns cap last (run_http1 parse_query base64_decode config)
    (Posted id [mkPacket n body] (Text (http1_status config (B "POST") (post_headers h (length body)) true)))
    (print_head config h id n (length body) (body ++ extra)).
Proof.
  intros Hc Hid Hn Hh Hhg Hhl Hcap Hrl Hlim Hb. unfold run_http1.
  eapply returns_bind; [by apply parse_post|]. cbn [rhost rpath method query headers content_length].
  eapply returns_bind; [by apply yields_lift, (host_allowed config h Hc)|].
  eapply returns_bind; [by apply yields_lift, path_allowed|].
  change (eq_ignore_ascii_case (B "POST") (B "OPTIONS")) with false.
  rewrite (post_meta config h id n Hc Hid Hn). eapply returns_bind; [by apply yields_lift, (post_kind config h id n Hc Hn)|].
  eapply returns_then; [by apply returns_body|]. intros r src. unfold packet_payload. by rewrite (tp_data _ _ Hc).
Qed.

(** The packets of a body, numbered from [k] *)
Fixpoint numbered (k : Z) (pieces : list bytes) : list XHttpPacket :=
  match pieces with
  | [] => []
  | data :: pieces => mkPacket k data :: numbered (k + 1) pieces
  end.

Lemma stream_packets_numbered limit total k pieces :
  total + length (concat pieces) ≤ limit → stream_packets limit total k pieces = (numbered k pieces, Ok tt).
Proof.
  revert total k. induction pieces as [|d pieces IH]; intros total k Hl; [done|]. simpl in *. rewrite length_app in Hl.
  rewrite (proj2 (Nat.ltb_ge _ _)) by lia. by rewrite IH by lia.
Qed.

Lemma arrived_numbered k pieces i :
  (k ≤ i)%Z → XHttpFacts.arrived (numbered k pieces) i = pieces !! Z.to_nat (i - k).
Proof.
  revert k. induction pieces as [|d pieces IH]; intros k Hi; simpl; [done|].
  change (mkPacket k d :: numbered (k + 1) pieces) with ([mkPacket k d] ++ numbered (k + 1) pieces).
  rewrite XHttpFacts.arrived_app, XHttpFacts.arrived_one. simpl. destruct (decide (k = i)) as [->|Hne].
  - by rewrite Z.sub_diag.
  - rewrite IH by lia. replace (Z.to_nat (i - k)) with (S (Z.to_nat (i - (k + 1)))) by lia. done.
Qed.

Lemma concat_lookups (ls : list bytes) : concat ((λ i, default [] (ls !! Z.to_nat i)) <$> seqZ 0 (Z.of_nat (length ls))) = concat ls.
Proof.
  f_equal. apply list_eq. intros i. rewrite list_lookup_fmap. destruct (decide (i < length ls)) as [Hi|Hi].
  - rewrite lookup_seqZ_lt by lia. cbn [fmap option_fmap option_map]. rewrite Z.add_0_l, Nat2Z.id. by destruct (lookup_lt_is_Some_2 ls i Hi) as [d ->].
  - rewrite lookup_seqZ_ge by lia. symmetry. by apply lookup_ge_None_2; lia.
Qed.

Lemma in_order_numbered pieces : XHttpFacts.in_order (numbered 0 pieces) = concat pieces.
Proof.
  assert (Ha : ∀ i, (0 ≤ i)%Z → XHttpFacts.arrived (numbered 0 pieces) i = pieces !! Z.to_nat i).
  { intros i Hi. rewrite arrived_numbered by done. by rewrite Z.sub_0_r. }
  unfold XHttpFacts.in_order. rewrite (XHttpFacts.frontier_unique _ (Z.of_nat (length pieces))).
  - rewrite <- concat_lookups. unfold XHttpFacts.upto. f_equal. apply list_fmap_ext. intros i k Hk.
    apply list_elem_of_lookup_2, elem_of_seqZ in Hk. by rewrite Ha by lia.
  - lia.
  - intros k Hk. rewrite Ha by lia. apply lookup_lt_is_Some_2. lia.
  - rewrite Ha by lia. apply lookup_ge_None_2. lia.
Qed.

(** ** Data in headers *)
Section chunks.
Context (base64_encode : bytes → bytes) (base64_decode : bytes → option bytes).

(** What [URL_SAFE_NO_PAD] documents of its two directions. *)
Record codec : Prop := {
  codec_decodes data : base64_decode (base64_encode data) = Some data;
  codec_empty : base64_encode [] = [] }.

Definition chunk_name (key : bytes) (i : nat) : bytes := to_ascii_lowercase key ++ [45%Z] ++ print_dec (Z.of_nat i).

(** The headers [key-0], [key-1], ... beside others *)
Fixpoint chunk_headers (key : bytes) (i : nat) (chunks : list bytes) (others : gmap bytes bytes) : gmap bytes bytes :=
  match chunks with
  | [] => others
  | c :: chunks => <[chunk_name key i := c]> (chunk_headers key (S i) chunks others)
  end.

Lemma chunk_name_inj key i j : chunk_name key i = chunk_name key j → i = j.
Proof.
  unfold chunk_name. intros E. do 2 apply app_inv_head in E.
  destruct (print_dec_spec (Z.of_nat i)) as (Hi & _); [lia|]. destruct (print_dec_spec (Z.of_nat j)) as (Hj & _); [lia|].
  rewrite E, Hj in Hi. injection Hi. lia.
Qed.

Lemma lookup_chunk_headers key i j chunks others :
  i ≤ j → chunk_headers key i chunks others !! chunk_name key j =
    if decide (j < i + length chunks) then chunks !! (j - i) else others !! chunk_name key j.
Proof.
  revert i. induction chunks as [|c chunks IH]; intros i Hi; simpl; [by rewrite decide_False by lia|].
  destruct (decide (i = j)) as [->|Hne].
  - rewrite lookup_insert_eq, decide_True by lia. by rewrite Nat.sub_diag.
  - rewrite lookup_insert_ne by (intros ?%chunk_name_inj; lia). rewrite IH by lia.
    replace (j - i) with (S (j - S i)) by lia. destruct (decide (j < S i + length chunks)).
    + by rewrite decide_True by lia.
    + by rewrite decide_False by lia.
Qed.

Lemma size_chunk_headers key chunks others : length chunks ≤ size (chunk_headers key 0 chunks others).
Proof.
  set (names := chunk_name key <$> List.seq 0 (length chunks)).
  assert (Hnd : NoDup names) by (apply NoDup_fmap_2; [intros i j; apply chunk_name_inj | apply NoDup_ListNoDup, List.seq_NoDup]).
  assert (Hl : length names = length chunks) by (unfold names; by rewrite length_fmap, length_seq).
  rewrite <- Hl, <- (size_list_to_set (C := gset bytes)), <- (size_dom (D := gset bytes)) by done.
  apply subseteq_size. intros x. rewrite elem_of_list_to_set. unfold names. rewrite list_elem_of_fmap.
  intros (i & -> & Hi). apply list_elem_of_In, List.in_seq in Hi. apply elem_of_dom.
  rewrite lookup_chunk_headers, decide_True by lia. apply lookup_lt_is_Some_2. lia.
Qed.

Lemma chunks_from_concat entries name fuel i chunks :
  length chunks ≤ fuel → (∀ j, j < length chunks → entries !! name (i + j) = chunks !! j) →
  entries !! name (i + length chunks) = None → chunks_from fuel entries name i = concat chunks.
Proof.
  revert fuel i. induction chunks as [|c chunks IH]; intros fuel i Hf Hin Hend; simpl in *.
  - rewrite Nat.add_0_r in Hend. destruct fuel; simpl; [done|]. by rewrite Hend.
  - destruct fuel as [|fuel]; [lia|]. simpl. specialize (Hin 0 ltac:(lia)) as Hc. rewrite Nat.add_0_r in Hc. rewrite Hc. simpl.
    rewrite (IH fuel (S i)); [done|lia| |].
    + intros j Hj. specialize (Hin (S j) ltac:(lia)). by replace (S i + j) with (i + S j) by lia.
    + by replace (S i + length chunks) with (i + S (length chunks)) by lia.
Qed.

Lemma header_payload_chunks key chunks others data :
  codec → key ≠ [] → concat chunks = base64_encode data → others !! chunk_name key (length chunks) = None →
  header_payload base64_decode (chunk_headers key 0 chunks others) key = Ok data.
Proof.
  intros [Hdec Hemp] Hk He Hn. unfold header_payload. rewrite bool_decide_false by done.
  rewrite (chunks_from_concat _ _ _ _ chunks), He.
  - unfold decode_payload. destruct (bool_decide _) eqn:E; to_prop; [|by rewrite Hdec].
    pose proof (Hdec data) as Hd. rewrite E, <- Hemp, Hdec in Hd. by injection Hd as <-.
  - apply size_chunk_headers.
  - intros j Hj. rewrite Nat.add_0_l. fold (chunk_name key j). by rewrite lookup_chunk_headers, decide_True, Nat.sub_0_r by lia.
  - rewrite Nat.add_0_l. fold (chunk_name key (length chunks)). by rewrite lookup_chunk_headers, decide_False by lia.
Qed.
End chunks.

(** ** Properties *)


(** Data that a client has encoded and cut over the headers [key-0],
    [key-1], ... reaches the session whole, however it was cut and whatever other
    headers there are, as long as none of them carries on the numbering. *)
Theorem header_chunks_are_joined base64_encode base64_decode config chunks others data body :
  codec base64_encode base64_decode → uplink_data_placement config = HeaderData → uplink_data_key config ≠ [] →
  concat chunks = base64_encode data → others !! chunk_name (uplink_data_key config) (length chunks) = None →
  packet_payload base64_decode config (chunk_headers (uplink_data_key config) 0 chunks others) body = Ok data.
Proof.
  intros Hcodec Hp Hk He Hn. unfold packet_payload. rewrite Hp. by apply (header_payload_chunks base64_encode).
Qed.

(** A stream-up request over HTTP/2 whose body is within the limit becomes
    packets for its session that, put in order, are the body. *)
Theorem stream_up_body_is_kept parse_query base64_decode config authority method p query headers id pieces :
  validate_host config authority = Ok tt → validate_path config p = Ok tt →
  eq_ignore_ascii_case method (B "OPTIONS") = false →
  classify_request config method (extract_meta parse_query config p query headers) = Ok (KStreamUp id) →
  length (concat pieces) ≤ max_each_post_bytes config →
  ∃ ps, handle_h2_request parse_query base64_decode config authority method p query headers pieces =
      Ok (Posted id ps (Fields (h2_response config method headers false))) ∧
    XHttpFacts.in_order ps = concat pieces.
Proof.
  intros Hh Hp Hm Hk Hl. exists (numbered 0 pieces). split; [|apply in_order_numbered].
  unfold handle_h2_request. rewrite Hh. cbn [mbind outcome_bind]. rewrite Hp, Hm. cbn [mbind outcome_bind].
  rewrite Hk. cbn [mbind outcome_bind]. by rewrite stream_packets_numbered by lia.
Qed.

(** A post in two pieces, to a server with a host. *)
Definition demo_config : XHttpConfig :=
  mkConfig (Some (B "example.com")) (B "/up/") Auto false false 100 3 Path [] Path [] Body [].
Definition demo_text : bytes := print_post demo_config (B "Example.com") (B "abc") 7 (B "hello").
Definition demo_source : Source := incoming [Some (take 20 demo_text); Some (drop 20 demo_text ++ B "next")].


(** A codec that shows the hypothesis can hold: the bytes themselves. *)
Lemma header_chunks_are_joined_witness :
  packet_payload Some
    (mkConfig None (B "/") Auto false false 100 3 Path [] Path [] HeaderData (B "X-Data"))
    (chunk_headers (B "X-Data") 0 [B "he"; B "llo"] {[B "host" := B "h"]}) [] = Ok (B "hello").
Proof.
  apply (header_chunks_are_joined (λ data, data) Some
    (mkConfig None (B "/") Auto false false 100 3 Path [] Path [] HeaderData (B "X-Data"))
    [B "he"; B "llo"] {[B "host" := B "h"]} (B "hello") []); done.
Defined.

Lemma stream_up_body_is_kept_witness :
  ∃ ps, handle_h2_request (λ _, []) (λ _, None) demo_config (Some (B "example.com:443")) (B "POST") (B "/up/abc") None ∅
      [B "hel"; B "lo"] = Ok (Posted (B "abc") ps (Fields (h2_response demo_config (B "POST") ∅ false))) ∧
    XHttpFacts.in_order ps = B "hello".
Proof.
  apply (stream_up_body_is_kept (λ _, []) (λ _, None) demo_config (Some (B "example.com:443")) (B "POST") (B "/up/abc") None ∅
    (B "abc") [B "hel"; B "lo"]); try by vm_compute. simpl. lia.
Defined.

End XHttpRequest.
