(* ===== verification/Messages.v ===== *)
(** * Datagrams in a byte stream: the length-prefixed form

    [src/vless/vless_message_stream.rs], which UDP-over-TCP version 2 shares as
    [UotV2Stream] ([src/uot/mod.rs]): a datagram is its length in two bytes and
    its bytes.  Each end polls a transport of its own, as of [Stream.v].

    Shown: what one end writes is, message by message, what the other end reads,
    in order and without loss, however the transport cuts the bytes; no poll
    panics; every poll returns; and the read buffer stays within its bound. *)
From S2P Require Import Prelude SlideBuffer Stream.

Module Messages.
Import Stream.

(** ** Writing a buffer out *)
Section drain.
Context {S : Type} `{AsyncStream S}.

(** [while sent < data.len() { poll_write(&data[sent..]) .. }]: each round but
    the last sends a byte, so that one more than what is left is enough. *)
Fixpoint drain_loop (msg : string) (fuel : nat) (data : bytes) (sent : nat) (s : S)
    : Poll (outcome unit) * nat * S :=
  match fuel with
  | 0 => (Ready Panic, sent, s)
  | Datatypes.S fuel =>
      if sent <? length data then
        match poll_write s (drop sent data) with
        | (Ready (inl e), s) => (Ready (Err e), sent, s)
        | (Ready (inr n), s) =>
            if n =? 0 then (Ready (err WriteZero msg), sent, s)
            else drain_loop msg fuel data (sent + n) s
        | (Pending, s) => (Pending, sent, s)
        end
      else (Ready (Ok tt), sent, s)
  end.
Definition drain (msg : string) (data : bytes) (sent : nat) (s : S) : Poll (outcome unit) * nat * S :=
  drain_loop msg (Datatypes.S (length data - sent)) data sent s.

(** [Poll<io::Result<()>>] of the transport *)
Definition poll_outcome (p : Poll (result unit)) : Poll (outcome unit) :=
  match p with
  | Ready (inl e) => Ready (Err e)
  | Ready (inr _) => Ready (Ok tt)
  | Pending => Pending
  end.

Lemma drain_loop_spec `{!StreamLaws S} msg fuel data sent s p sent' s' :
  sent ≤ length data → length data - sent < fuel → drain_loop msg fuel data sent s = (p, sent', s') →
  sent ≤ sent' ≤ length data ∧ received s' = received s ∧
  accepted s' ++ drop sent' data = accepted s ++ drop sent data ∧
  is_panic p = false ∧ (p = Ready (Ok tt) → sent' = length data).
Proof.
  revert sent s. induction fuel as [|fuel IH]; intros sent s Hs Hf; [lia|]. cbn [drain_loop].
  destruct (sent <? length data) eqn:E; to_prop; [|intros [= <- <- <-]; split_and!; try done; intros; lia].
  destruct (poll_write s (drop sent data)) as [[[e|n]|] s1] eqn:Ew; pose proof (write_law _ _ _ _ Ew) as [Hr Ha].
  - intros [= <- <- <-]. rewrite Ha. by split_and!.
  - destruct Ha as [Hn Ha]. rewrite length_drop in Hn.
    destruct (n =? 0) eqn:E0; to_prop.
    + intros [= <- <- <-]. rewrite Ha, E0, firstn_O, app_nil_r. by split_and!.
    + intros Hd. apply IH in Hd as (H1 & H2 & H3 & H4 & H5); [|lia..]. split; [lia|]. split; [congruence|]. split; [|done].
      rewrite H3, Ha, <- app_assoc. f_equal. by rewrite <- drop_drop, take_drop.
  - intros [= <- <- <-]. rewrite Ha. by split_and!.
Qed.

Lemma drain_spec `{!StreamLaws S} msg data sent s p sent' s' :
  sent ≤ length data → drain msg data sent s = (p, sent', s') →
  sent ≤ sent' ≤ length data ∧ received s' = received s ∧
  accepted s' ++ drop sent' data = accepted s ++ drop sent data ∧
  is_panic p = false ∧ (p = Ready (Ok tt) → sent' = length data).
Proof. intros Hs. apply drain_loop_spec; lia. Qed.
End drain.

(** ** The stream *)
Definition MAX_MESSAGE_BUF_SIZE : nat := N.to_nat 65537.

Record VlessMessageStream (S : Type) := mkMessages {
  stream : S;
  read_buf : bytes;
  read_end_index : nat;
  pending_write : bytes;
  write_offset : nat;
  is_eof : bool }.
Arguments mkMessages {S}.
Arguments stream {S}.
Arguments read_buf {S}.
Arguments read_end_index {S}.
Arguments pending_write {S}.
Arguments write_offset {S}.
Arguments is_eof {S}.

Definition new {S} (s : S) : VlessMessageStream S := mkMessages s [] 0 [] 0 false.

Definition set_read {S} (this : VlessMessageStream S) (s : S) (buf : bytes) (e : nat) (eof : bool) : VlessMessageStream S :=
  mkMessages s buf e (pending_write this) (write_offset this) eof.
Definition set_write {S} (this : VlessMessageStream S) (s : S) (pending : bytes) (offset : nat) : VlessMessageStream S :=
  mkMessages s (read_buf this) (read_end_index this) pending offset (is_eof this).

(** [Vec::resize] with zeros, and [usize::clamp] *)
Definition resize (n : nat) (buf : bytes) : bytes := take n buf ++ replicate (n - length buf) 0%Z.
Definition clamp (lo hi n : nat) : nat := if n <? lo then lo else if hi <? n then hi else n.
Definition MIN_READ_BUF : nat := N.to_nat 4096.

Definition ensure_read_capacity {S} (this : VlessMessageStream S) : VlessMessageStream S :=
  let buf := read_buf this in
  if read_end_index this <? length buf then this
  else if length buf <? MAX_MESSAGE_BUF_SIZE
  then set_read this (stream this) (resize (clamp MIN_READ_BUF MAX_MESSAGE_BUF_SIZE (length buf * 2)) buf)
         (read_end_index this) (is_eof this)
  else this.

Definition feed_initial_read_data {S} (data : bytes) (this : VlessMessageStream S) : outcome (VlessMessageStream S) :=
  if MAX_MESSAGE_BUF_SIZE <? length data then err Other "feed_initial_read_data called with too much data"
  else
    let buf := resize (clamp MIN_READ_BUF MAX_MESSAGE_BUF_SIZE (length data)) (read_buf this) in
    _ ← slice buf 0 (length data);
    Ok (set_read this (stream this) (data ++ drop (length data) buf) (length data) (is_eof this)).

(** What follows the message of [total_len] bytes moves to the front. *)
Definition drop_message {S} (total_len : nat) (this : VlessMessageStream S) : outcome (VlessMessageStream S) :=
  if total_len <? read_end_index this then
    moved ← slice (read_buf this) total_len (read_end_index this);
    Ok (set_read this (stream this) (moved ++ drop (length moved) (read_buf this))
          (read_end_index this - total_len) (is_eof this))
  else Ok (set_read this (stream this) (read_buf this) 0 (is_eof this)).

(** The length of the message at the front, once all of it is there. *)
Definition message_ready {S} (this : VlessMessageStream S) : outcome (option nat) :=
  if 2 <=? read_end_index this then
    hi ← index (read_buf this) 0;
    lo ← index (read_buf this) 1;
    let payload_len := Z.to_nat (be_decode [hi; lo]) in
    Ok (if 2 + payload_len <=? read_end_index this then Some payload_len else None)
  else Ok None.

Section polls.
Context {S : Type} `{AsyncStream S}.

(** [out_buf] has room for [room] bytes; the bytes put into it are returned.
    [None] is out of fuel. *)
Fixpoint read_loop (fuel : nat) (room : nat) (this : VlessMessageStream S)
    : option (Poll (outcome bytes) * VlessMessageStream S) :=
  match fuel with
  | 0 => None
  | Datatypes.S fuel =>
      match message_ready this with
      | Panic => Some (Ready Panic, this)
      | Err e => Some (Ready (Err e), this)
      | Ok (Some payload_len) =>
          let total_len := 2 + payload_len in
          if payload_len =? 0 then
            match drop_message total_len this with
            | Ok this => read_loop fuel room this
            | _ => Some (Ready Panic, this)
            end
          else if room <? payload_len
          then Some (Ready (err Other "out_buf is too small to hold the message"), this)
          else
            match slice (read_buf this) 2 total_len with
            | Ok payload =>
                match drop_message total_len this with
                | Ok this => Some (Ready (Ok payload), this)
                | _ => Some (Ready Panic, this)
                end
            | _ => Some (Ready Panic, this)
            end
      | Ok None =>
          let this := ensure_read_capacity this in
          match slice (read_buf this) (read_end_index this) (length (read_buf this)) with
          | Ok [] => Some (Ready Panic, this)
          | Ok room_left =>
              match poll_read (stream this) (length room_left) with
              | (Ready (inr bs), s) =>
                  if length bs =? 0 then
                    let this := set_read this s (read_buf this) (read_end_index this) true in
                    if read_end_index this =? 0 then Some (Ready (Ok []), this)
                    else Some (Ready (err UnexpectedEof "EOF reached in the middle of a message"), this)
                  else
                    let e := read_end_index this in
                    read_loop fuel room
                      (set_read this s (take e (read_buf this) ++ bs ++ drop (e + length bs) (read_buf this))
                        (e + length bs) (is_eof this))
              | (Ready (inl e), s) =>
                  Some (Ready (Err e), set_read this s (read_buf this) (read_end_index this) (is_eof this))
              | (Pending, s) =>
                  Some (Pending, set_read this s (read_buf this) (read_end_index this) (is_eof this))
              end
          | _ => Some (Ready Panic, this)
          end
      end
  end.

Definition poll_read_message (fuel : nat) (room : nat) (this : VlessMessageStream S)
    : option (Poll (outcome bytes) * VlessMessageStream S) :=
  if is_eof this then Some (Ready (Ok []), this) else read_loop fuel room this.

Definition poll_flush_message (this : VlessMessageStream S) : Poll (outcome unit) * VlessMessageStream S :=
  match drain "failed to write message" (pending_write this) (write_offset this) (stream this) with
  | (Ready (Ok _), sent, s) =>
      match poll_flush s with
      | (Ready (inr _), s) => (Ready (Ok tt), set_write this s [] 0)
      | (p, s) => (poll_outcome p, set_write this s (pending_write this) sent)
      end
  | (p, sent, s) => (p, set_write this s (pending_write this) sent)
  end.

(** The message is taken once [pending_write] is clear. *)
Definition queue_message (buf : bytes) (this : VlessMessageStream S) : Poll (outcome unit) * VlessMessageStream S :=
  if (65535 <? Z.of_nat (length buf))%Z then (Ready (err InvalidInput "message size too large"), this)
  else
    (Ready (Ok tt), set_write this (stream this)
      (pending_write this ++ be_encode 2 (Z.of_nat (length buf)) ++ buf) 0).

Definition poll_write_message (buf : bytes) (this : VlessMessageStream S) : Poll (outcome unit) * VlessMessageStream S :=
  match pending_write this with
  | [] => queue_message buf this
  | _ =>
      match poll_flush_message this with
      | (Ready (Err e), this) => (Ready (Err e), this)
      | (Ready Panic, this) => (Ready Panic, this)
      | (_, this) =>
          match pending_write this with
          | [] => queue_message buf this
          | _ => (Pending, this)
          end
      end
  end.

Definition poll_shutdown_message (this : VlessMessageStream S) : Poll (outcome unit) * VlessMessageStream S :=
  match poll_flush_message this with
  | (Ready (Ok _), this) =>
      let '(p, s) := poll_shutdown (stream this) in
      (poll_outcome p, set_write this s (pending_write this) (write_offset this))
  | other => other
  end.
End polls.

(** ** Bytes cut into messages *)
Definition frame (m : bytes) : bytes := be_encode 2 (Z.of_nat (length m)) ++ m.
Definition fits (m : bytes) : Prop := (Z.of_nat (length m) ≤ 65535)%Z.

(** [d] is the messages [ms], and [r] is left. *)
Inductive cut : bytes → list bytes → bytes → Prop :=
  | cut_nil d : cut d [] d
  | cut_cons hi lo m d ms r :
      Z.to_nat (be_decode [hi; lo]) = length m → cut d ms r → cut (hi :: lo :: m ++ d) (m :: ms) r.

Lemma cut_more d ms r x : cut d ms r → cut (d ++ x) ms (r ++ x).
Proof.
  induction 1 as [d|hi lo m d ms r Hl _ IH]; [constructor|]. simpl. rewrite <- app_assoc. by constructor.
Qed.

Lemma cut_trans d ms r ms' r' : cut d ms r → cut r ms' r' → cut d (ms ++ ms') r'.
Proof. induction 1 as [d|hi lo m d ms r Hl _ IH]; intros Hr; [done|]. simpl. constructor; auto. Qed.

Lemma cut_one hi lo m d : Z.to_nat (be_decode [hi; lo]) = length m → cut (hi :: lo :: m ++ d) [m] d.
Proof. intros Hl. constructor; [done | constructor]. Qed.

Lemma frame_split m : fits m → ∃ hi lo, frame m = hi :: lo :: m ∧ Z.to_nat (be_decode [hi; lo]) = length m.
Proof.
  intros Hm. unfold frame. pose proof (be_decode_encode_small 2 (Z.of_nat (length m))) as Hd.
  destruct (be_encode 2 _) as [|hi [|lo [|? ?]]] eqn:E;
    try (pose proof (length_be_encode 2 (Z.of_nat (length m))) as Hl; by rewrite E in Hl).
  exists hi, lo. split; [done|]. rewrite Hd; [lia|]. unfold fits in Hm. lia.
Qed.

(** Of the frames of [msgs], only [msgs] can be cut. *)
Lemma cut_frames d ms r msgs :
  Forall fits msgs → cut d ms r → d `prefix_of` concat (frame <$> msgs) →
  ∃ later, msgs = ms ++ later ∧ d = concat (frame <$> ms) ++ r.
Proof.
  intros Hf Hc. revert msgs Hf. induction Hc as [d|hi lo m d ms r Hl _ IH]; intros msgs Hf Hp; [by exists msgs|].
  destruct msgs as [|m0 msgs]; cbn [fmap list_fmap concat] in Hp; [by apply prefix_nil_inv in Hp|].
  apply Forall_cons in Hf as [Hm0 Hf]. destruct (frame_split m0 Hm0) as (hi0 & lo0 & Ef & Hl0). rewrite Ef in Hp. simpl in Hp.
  apply prefix_cons_inv_1 in Hp as Hhi. apply prefix_cons_inv_2 in Hp. apply prefix_cons_inv_1 in Hp as Hlo.
  apply prefix_cons_inv_2 in Hp. subst hi0 lo0. assert (Hlen : length m = length m0) by congruence.
  destruct Hp as [x Hx]. rewrite <- app_assoc in Hx. apply app_inj_1 in Hx as [<- Hx]; [|done].
  destruct (IH msgs Hf) as (later & -> & Hd); [by exists x|]. exists later. split; [done|].
  cbn [fmap list_fmap concat]. rewrite Ef. simpl. rewrite <- app_assoc. by rewrite <- Hd.
Qed.

(** ** Reading *)
Section reading.
Context {S : Type} `{AsyncStream S, !StreamLaws S}.
Implicit Types this : VlessMessageStream S.

Definition writes this : bytes * nat := (pending_write this, write_offset this).
Definition held this : bytes := take (read_end_index this) (read_buf this).

(** The length of the message at the front of [h], once all of it is there. *)
Definition ready_in (h : bytes) : option nat :=
  match h with
  | hi :: lo :: d => let n := Z.to_nat (be_decode [hi; lo]) in if n <=? length d then Some n else None
  | _ => None
  end.

Record reader_ok this : Prop := {
  ro_end : read_end_index this ≤ length (read_buf this);
  ro_buf : length (read_buf this) ≤ MAX_MESSAGE_BUF_SIZE;
  ro_eof : is_eof this = true → ready_in (held this) = None }.

Lemma length_held this : reader_ok this → length (held this) = read_end_index this.
Proof. intros []. unfold held. rewrite length_take. lia. Qed.

Lemma cut_suffix d ms r : cut d ms r → bytes_ok d → bytes_ok r.
Proof.
  induction 1 as [d|hi lo m d ms r Hl _ IH]; [done|]. rewrite !bytes_ok_cons, bytes_ok_app. tauto.
Qed.

Lemma message_ready_held this : reader_ok this → message_ready this = Ok (ready_in (held this)).
Proof.
  intros Hok. pose proof (length_held this Hok) as Hl. unfold message_ready.
  destruct (held this) as [|hi [|lo d]] eqn:Eh; cbn [length] in Hl; rewrite <- Hl; [done..|].
  assert (Hi : ∀ i, i < 2 → read_buf this !! i = (hi :: lo :: d) !! i).
  { intros i Hi. rewrite <- Eh. unfold held. rewrite lookup_take. by rewrite decide_True by lia. }
  unfold index. rewrite !Hi by lia. cbn [lookup list_lookup expect mbind outcome_bind Nat.leb]. done.
Qed.

Lemma ready_in_some h n : ready_in h = Some n →
  ∃ hi lo m rest, h = hi :: lo :: m ++ rest ∧ length m = n ∧ Z.to_nat (be_decode [hi; lo]) = length m.
Proof.
  destruct h as [|hi [|lo d]]; simpl; [done..|]. destruct (_ <=? _) eqn:E; to_prop; [|done]. intros [= <-].
  exists hi, lo, (take (Z.to_nat (be_decode [hi; lo])) d), (drop (Z.to_nat (be_decode [hi; lo])) d).
  rewrite take_drop, length_take. split; [done|]. lia.
Qed.

Lemma ready_in_none h : ready_in h = None → bytes_ok h → length h < MAX_MESSAGE_BUF_SIZE.
Proof.
  unfold MAX_MESSAGE_BUF_SIZE. destruct h as [|hi [|lo d]]; cbn [ready_in length]; [lia..|].
  destruct (_ <=? _) eqn:E; to_prop; [done|]. intros _. rewrite !bytes_ok_cons. intros (H1 & H2 & _).
  assert (Hbd : bytes_ok [hi; lo]) by (apply Forall_cons; split; [done|]; by apply Forall_singleton).
  apply be_decode_bound in Hbd. simpl length in Hbd. lia.
Qed.

Lemma drop_message_spec this hi lo m rest :
  reader_ok this → is_eof this = false → held this = hi :: lo :: m ++ rest →
  ∃ this', drop_message (2 + length m) this = Ok this' ∧ reader_ok this' ∧ held this' = rest ∧
    stream this' = stream this ∧ is_eof this' = false ∧ writes this' = writes this.
Proof.
  intros Hok Heof Eh. pose proof (length_held this Hok) as Hl. rewrite Eh in Hl. simpl in Hl. rewrite length_app in Hl.
  pose proof Hok as [He Hb _]. unfold drop_message. destruct (_ <? _) eqn:E; to_prop.
  - rewrite slice_Ok by lia. cbn [mbind outcome_bind]. eexists. split; [done|].
    assert (Hm : take (read_end_index this - (2 + length m)) (drop (2 + length m) (read_buf this)) = rest).
    { rewrite firstn_skipn_comm. replace (2 + length m + _) with (read_end_index this) by lia. fold (held this).
      rewrite Eh. simpl. by rewrite drop_app_length. }
    rewrite Hm. split; [split; simpl; [..|congruence]|].
    + rewrite length_app, length_drop. lia.
    + rewrite length_app, length_drop. lia.
    + unfold held. simpl. split; [|done]. apply take_app_length'. lia.
  - eexists. split; [done|]. split; [split; simpl; [lia..|congruence]|]. split; [|done]. unfold held. simpl.
    destruct rest; [done | simpl in Hl; lia].
Qed.
Lemma clamp_grows n :
  n < MAX_MESSAGE_BUF_SIZE → n < clamp MIN_READ_BUF MAX_MESSAGE_BUF_SIZE (n * 2) ≤ MAX_MESSAGE_BUF_SIZE.
Proof.
  unfold clamp, MAX_MESSAGE_BUF_SIZE, MIN_READ_BUF. intros Hn.
  destruct (_ <? N.to_nat 4096) eqn:E; [|destruct (N.to_nat 65537 <? _) eqn:E']; to_prop; lia.
Qed.

Lemma clamp_room n :
  n ≤ MAX_MESSAGE_BUF_SIZE → n ≤ clamp MIN_READ_BUF MAX_MESSAGE_BUF_SIZE n ≤ MAX_MESSAGE_BUF_SIZE.
Proof.
  unfold clamp, MAX_MESSAGE_BUF_SIZE, MIN_READ_BUF. intros Hn.
  destruct (_ <? N.to_nat 4096) eqn:E; [|destruct (N.to_nat 65537 <? _) eqn:E']; to_prop; lia.
Qed.

Lemma msg_ensure_spec this :
  reader_ok this → is_eof this = false →
  ∃ this1, ensure_read_capacity this = this1 ∧ stream this1 = stream this ∧ is_eof this1 = false ∧
    writes this1 = writes this ∧ reader_ok this1 ∧ held this1 = held this ∧
    (read_end_index this < MAX_MESSAGE_BUF_SIZE → read_end_index this1 < length (read_buf this1)).
Proof.
  intros [He Hb Hi] Heof. eexists. split; [done|]. unfold ensure_read_capacity.
  destruct (_ <? length (read_buf this)) eqn:E1; to_prop; [done|].
  destruct (_ <? MAX_MESSAGE_BUF_SIZE) eqn:E2; to_prop; [|by split_and!; try lia].
  split; [done|]. split; [done|]. split; [done|]. set (n := clamp _ _ _). pose proof (clamp_grows _ E2) as Hn. fold n in Hn.
  assert (Hlen : length (resize n (read_buf this)) = n).
  { unfold resize. rewrite length_app, length_take, length_replicate. lia. }
  split; [split; simpl; [lia..|congruence]|]. split; [|simpl; lia].
  unfold held. simpl. unfold resize. rewrite take_app_le by (rewrite length_take; lia). rewrite take_take. f_equal. lia.
Qed.

(** What a poll makes of the messages it found: those without bytes are skipped. *)
Definition poll_gives (p : Poll (outcome bytes)) (ms : list bytes) : Prop :=
  match p with
  | Ready (Ok (x :: m)) => ∃ empties, ms = empties ++ [x :: m] ∧ Forall (λ m, m = []) empties
  | _ => Forall (λ m, m = []) ms
  end.

Lemma poll_gives_skip p ms : poll_gives p ms → poll_gives p ([] :: ms).
Proof.
  unfold poll_gives. destruct p as [[[|x m]|e|]|]; [by constructor| |by constructor..].
  intros (empties & -> & He). exists ([] :: empties). split; [done | by constructor].
Qed.

Lemma slice_message this hi lo m rest :
  reader_ok this → held this = hi :: lo :: m ++ rest → slice (read_buf this) 2 (2 + length m) = Ok m.
Proof.
  intros Hok Eh. pose proof (length_held this Hok) as Hl. rewrite Eh in Hl. simpl in Hl. rewrite length_app in Hl.
  destruct Hok as [He Hb _]. rewrite slice_Ok by lia. f_equal. replace (2 + length m - 2) with (length m) by lia.
  rewrite firstn_skipn_comm. replace (2 + length m) with (Nat.min (2 + length m) (read_end_index this)) by lia.
  rewrite <- take_take. fold (held this). rewrite Eh. simpl. by rewrite take_app_length.
Qed.

(** Reading into the room after what is held *)
Lemma put_held this s bs :
  reader_ok this → is_eof this = false → length bs ≤ length (drop (read_end_index this) (read_buf this)) →
  let e := read_end_index this in
  let this' := set_read this s (take e (read_buf this) ++ bs ++ drop (e + length bs) (read_buf this)) (e + length bs)
    (is_eof this) in
  reader_ok this' ∧ held this' = held this ++ bs.
Proof.
  intros [He Hb _] Heof Hl e this'. rewrite length_drop in Hl. subst e.
  assert (Ht : length (take (read_end_index this) (read_buf this)) = read_end_index this) by (rewrite length_take; lia).
  split; [split; simpl; [rewrite !length_app, Ht, length_drop; lia..|congruence]|].
  unfold held. simpl. rewrite app_assoc. apply take_app_length'. rewrite length_app, Ht. done.
Qed.

(** A poll reads [got] and finds the messages [ms]. *)
Record poll_post this (p : Poll (outcome bytes)) this' (got : bytes) (ms : list bytes) : Prop := {
  pp_ok : reader_ok this';
  pp_received : received (stream this') = received (stream this) ++ got;
  pp_accepted : accepted (stream this') = accepted (stream this);
  pp_writes : writes this' = writes this;
  pp_cut : cut (held this ++ got) ms (held this');
  pp_settled : p = Pending ∨ p = Ready (Ok []) → ready_in (held this') = None;
  pp_panic : bytes_ok (held this ++ got) → is_panic p = false;
  pp_gives : poll_gives p ms }.

(** A poll that finds nothing. *)
Lemma poll_post_idle this this' p :
  reader_ok this' → held this' = held this → received (stream this') = received (stream this) →
  accepted (stream this') = accepted (stream this) → writes this' = writes this →
  (p = Pending ∨ p = Ready (Ok []) → ready_in (held this) = None) →
  (bytes_ok (held this) → is_panic p = false) → poll_gives p [] → poll_post this p this' [] [].
Proof.
  intros Hok Eh Er Ea Ew Hs Hp Hg. split; rewrite ?app_nil_r; try done; rewrite Eh; [constructor | done].
Qed.
Lemma with_stream this s eof :
  reader_ok this → (eof = true → ready_in (held this) = None) →
  reader_ok (set_read this s (read_buf this) (read_end_index this) eof).
Proof. by intros [] He. Qed.

(** A poll that goes on reading. *)
Lemma poll_post_read this this2 p this' bs got ms :
  received (stream this2) = received (stream this) ++ bs → accepted (stream this2) = accepted (stream this) →
  held this2 = held this ++ bs → writes this2 = writes this →
  poll_post this2 p this' got ms → poll_post this p this' (bs ++ got) ms.
Proof.
  intros Hr Ha Eh Ew []. rewrite Eh, <- app_assoc in *. split; try done; try congruence.
  by rewrite pp_received0, Hr, <- app_assoc.
Qed.

(** A poll that skips a message without bytes. *)
Lemma poll_post_skip this this1 p this' hi lo got ms :
  held this = hi :: lo :: held this1 → Z.to_nat (be_decode [hi; lo]) = 0 → stream this1 = stream this →
  writes this1 = writes this → poll_post this1 p this' got ms → poll_post this p this' got ([] :: ms).
Proof.
  intros Eh Hl Es Ew []. split; try done; try congruence.
  - rewrite Eh. by apply (cut_cons hi lo []).
  - rewrite Eh. simpl. rewrite !bytes_ok_cons. intros (_ & _ & Hb). auto.
  - by apply poll_gives_skip.
Qed.

Lemma msg_read_loop_spec fuel room this p this' :
  reader_ok this → is_eof this = false → read_loop fuel room this = Some (p, this') →
  ∃ got ms, poll_post this p this' got ms.
Proof.
  revert this. induction fuel as [|fuel IH]; intros this Hok Heof Hr; [done|]. cbn [read_loop] in Hr.
  rewrite message_ready_held in Hr by done. destruct (ready_in (held this)) as [n|] eqn:Ei.
  - apply ready_in_some in Ei as (hi & lo & m & rest & Eh & <- & Hl).
    destruct (drop_message_spec this hi lo m rest Hok Heof Eh) as (this1 & Ed & Hok1 & Eh1 & Es1 & Ee1 & Ew1).
    rewrite Ed, (slice_message this hi lo m rest) in Hr by done.
    destruct (length m =? 0) eqn:E0; to_prop; [|destruct (room <? length m)].
    + destruct m; [|done]. destruct (IH this1 Hok1 Ee1 Hr) as (got & ms & Hp). exists got, ([] :: ms).
      by apply (poll_post_skip this this1 p this' hi lo); [rewrite Eh, Eh1|..].
    + injection Hr as <- <-. exists [], []. apply poll_post_idle; try done; [|constructor]. intros [?|?]; done.
    + injection Hr as <- <-. exists [], [m]. rewrite <- Eh1 in Eh. destruct m as [|x m]; [done|].
      split; rewrite ?app_nil_r; try done; try congruence.
      * rewrite Eh. by apply (cut_one hi lo (x :: m)).
      * intros [?|?]; done.
      * by exists [].
  - destruct (msg_ensure_spec this Hok Heof) as (this1 & E1 & Es1 & Ee1 & Ew1 & Hok1 & Eh1 & Hgrow). rewrite E1 in Hr.
    pose proof Hok1 as [He1 Hb1 _]. rewrite slice_suffix in Hr by done.
    pose proof (length_drop (read_buf this1) (read_end_index this1)) as Hlen.
    pose proof (length_held this Hok) as Hh. pose proof (length_held this1 Hok1) as Hh1. rewrite Eh1, Hh in Hh1.
    destruct (drop (read_end_index this1) (read_buf this1)) as [|x room_left] eqn:Ed.
    { injection Hr as <- <-. exists [], []. apply poll_post_idle; try done; [congruence..| |constructor].
      intros Hbytes. pose proof (ready_in_none _ Ei Hbytes). simpl in Hlen. lia. }
    destruct (poll_read (stream this1) _) as [[[e|bs]|] s] eqn:Ep; pose proof (read_law _ _ _ _ Ep) as [Ha Hrd]; rewrite Es1 in Ha, Hrd.
    + injection Hr as <- <-. exists [], []. apply poll_post_idle; try done; [|constructor]. apply with_stream; congruence.
    + destruct Hrd as [Hbl Hrd]. destruct (length bs =? 0) eqn:E0; to_prop.
      * destruct bs; [|done]. rewrite app_nil_r in Hrd. exists [], []. cbn [read_end_index set_read] in Hr.
        assert (reader_ok (set_read this1 s (read_buf this1) (read_end_index this1) true)) by (apply with_stream; congruence).
        destruct (read_end_index this1 =? 0); injection Hr as <- <-; (apply poll_post_idle; try done; constructor).
      * destruct (put_held this1 s bs Hok1 Ee1) as [Hok2 Eh2]; [by rewrite Ed|].
        destruct (IH _ Hok2 ltac:(simpl; congruence) Hr) as (got & ms & Hp). exists (bs ++ got), ms.
        eapply poll_post_read; [..|exact Hp]; simpl; try done. by rewrite Eh2, Eh1.
    + injection Hr as <- <-. exists [], []. apply poll_post_idle; try done; [|constructor]. apply with_stream; congruence.
Qed.
Lemma poll_read_message_spec fuel room this p this' :
  reader_ok this → poll_read_message fuel room this = Some (p, this') → ∃ got ms, poll_post this p this' got ms.
Proof.
  intros Hok. unfold poll_read_message. destruct (is_eof this) eqn:E; [|by apply msg_read_loop_spec].
  intros [= <- <-]. exists [], []. apply poll_post_idle; try done; [intros _; by apply Hok | constructor].
Qed.

(** Each round takes a message off the front or uses up a read. *)
Lemma read_loop_total `{!FiniteReads S} fuel room this :
  reader_ok this → is_eof this = false →
  ready_reads (stream this) * Datatypes.S MAX_MESSAGE_BUF_SIZE + read_end_index this < fuel →
  ∃ res, read_loop fuel room this = Some res.
Proof.
  revert this. induction fuel as [|fuel IH]; intros this Hok Heof Hf; [lia|]. cbn [read_loop].
  rewrite message_ready_held by done. destruct (ready_in (held this)) as [n|] eqn:Ei.
  - apply ready_in_some in Ei as (hi & lo & m & rest & Eh & <- & Hl).
    destruct (drop_message_spec this hi lo m rest Hok Heof Eh) as (this1 & Ed & Hok1 & Eh1 & Es1 & Ee1 & Ew1).
    rewrite Ed, (slice_message this hi lo m rest) by done.
    destruct (length m =? 0); [|destruct (room <? length m); eauto]. apply IH; try done. rewrite Es1.
    pose proof (length_held this Hok) as Hh. pose proof (length_held this1 Hok1) as Hh1. rewrite Eh in Hh.
    simpl in Hh. rewrite length_app in Hh. rewrite Eh1 in Hh1. lia.
  - destruct (msg_ensure_spec this Hok Heof) as (this1 & E1 & Es1 & Ee1 & Ew1 & Hok1 & Eh1 & Hgrow). rewrite E1.
    pose proof Hok1 as [He1 Hb1 _]. rewrite slice_suffix by done.
    pose proof (length_drop (read_buf this1) (read_end_index this1)) as Hlen.
    destruct (drop (read_end_index this1) (read_buf this1)) as [|x room_left] eqn:Ed; [eauto|].
    destruct (poll_read (stream this1) _) as [[[e|[|y bs]]|] s] eqn:Ep; [by eauto| |..|by eauto].
    + cbn [length Nat.eqb read_end_index set_read]. destruct (_ =? _); eauto.
    + cbn [length Nat.eqb]. pose proof (read_law _ _ _ _ Ep) as (_ & Hbl & _). pose proof (ready_reads_law _ _ _ _ _ Ep) as Hlt.
      destruct (put_held this1 s (y :: bs) Hok1 Ee1) as [Hok2 Eh2]; [by rewrite Ed|].
      apply IH; [done|done|]. cbn [stream read_end_index set_read]. rewrite Es1 in Hlt. cbn [length] in *. nia.
Qed.

Definition read_fuel `{!FiniteReads S} : nat :=
  Datatypes.S (ready_bound (S := S) * Datatypes.S MAX_MESSAGE_BUF_SIZE + MAX_MESSAGE_BUF_SIZE).

Lemma poll_read_message_total `{!FiniteReads S} room this :
  reader_ok this → ∃ res, poll_read_message (read_fuel) room this = Some res.
Proof.
  intros Hok. unfold poll_read_message. destruct (is_eof this) eqn:E; [eauto|]. apply read_loop_total; [done..|].
  pose proof (ready_reads_bound (stream this)). destruct Hok. unfold read_fuel. nia.
Qed.

(** ** Writing *)
Definition unsent this : bytes := drop (write_offset this) (pending_write this).
Definition writer_ok this : Prop := write_offset this ≤ length (pending_write this).
Definition reads_of this : bytes * nat * bool := (read_buf this, read_end_index this, is_eof this).

(** What a write poll leaves: the bytes of [ms] are on their way. *)
Record write_post this (p : Poll (outcome unit)) this' (ms : list bytes) : Prop := {
  wp_ok : writer_ok this';
  wp_received : received (stream this') = received (stream this);
  wp_accepted : accepted (stream this') ++ unsent this' = accepted (stream this) ++ unsent this ++ concat (frame <$> ms);
  wp_reads : reads_of this' = reads_of this;
  wp_panic : is_panic p = false }.

Lemma msg_poll_flush_message_spec this p this' :
  writer_ok this → poll_flush_message this = (p, this') →
  write_post this p this' [] ∧ (p = Ready (Ok tt) → pending_write this' = []).
Proof.
  intros Hok. unfold poll_flush_message. destruct (drain _ _ _ _) as [[pd sent] s] eqn:Ed.
  apply drain_spec in Ed as ((_ & Hs) & Hr & Ha & Hp & Hd); [|done].
  assert (Hpost : ∀ q s1, received s1 = received s → accepted s1 = accepted s → is_panic q = false →
    write_post this q (set_write this s1 (pending_write this) sent) []).
  { intros q s1 Hr1 Ha1 Hq. split; simpl; try done; [congruence|]. unfold unsent. simpl. by rewrite app_nil_r, Ha1, Ha. }
  destruct pd as [[[]|e|]|]; [|by intros [= <- <-]; split; [apply Hpost|]..].
  specialize (Hd eq_refl). destruct (poll_flush s) as [[[e|[]]|] s1] eqn:Ef; pose proof (flush_law _ _ _ Ef) as [Hr1 Ha1];
    intros [= <- <-]; [by split; [apply Hpost|]| |by split; [apply Hpost|]].
  split; [|done]. split; simpl; try done; [apply Nat.le_refl|congruence|]. unfold unsent. simpl. rewrite !app_nil_r.
  rewrite Hd, drop_all, app_nil_r in Ha. by rewrite Ha1, Ha.
Qed.

Definition queued_by (p : Poll (outcome unit)) (buf : bytes) : list bytes :=
  match p with Ready (Ok _) => [buf] | _ => [] end.

Lemma queue_message_spec buf this p this' :
  writer_ok this → pending_write this = [] → queue_message buf this = (p, this') →
  write_post this p this' (queued_by p buf) ∧ (p = Ready (Ok tt) → fits buf).
Proof.
  intros Hok Hpend. unfold queue_message, fits. destruct (_ <? _)%Z eqn:E; to_prop; intros [= <- <-].
  - split; [|done]. split; try done. simpl. by rewrite app_nil_r.
  - split; [|lia]. split; try done; [unfold writer_ok; simpl; lia|]. unfold unsent. rewrite Hpend, drop_nil. cbn.
    by rewrite app_nil_r.
Qed.

Lemma msg_write_post_trans this p this1 q this' ms :
  write_post this p this1 [] → write_post this1 q this' ms → write_post this q this' ms.
Proof.
  intros [] []. split; try done; try congruence. rewrite wp_accepted1, app_assoc, wp_accepted0.
  cbn. by rewrite app_nil_r, <- app_assoc.
Qed.

Lemma poll_write_message_spec buf this p this' :
  writer_ok this → poll_write_message buf this = (p, this') →
  write_post this p this' (queued_by p buf) ∧ (p = Ready (Ok tt) → fits buf).
Proof.
  intros Hok. unfold poll_write_message. destruct (pending_write this) eqn:Epend; [by apply queue_message_spec|].
  destruct (poll_flush_message this) as [pf this1] eqn:Ef. apply msg_poll_flush_message_spec in Ef as [Hp1 _]; [|done].
  assert (Hq : ∀ p this', queue_message buf this1 = (p, this') → pending_write this1 = [] →
    write_post this p this' (queued_by p buf) ∧ (p = Ready (Ok tt) → fits buf)).
  { intros p0 this0 Hq He. apply queue_message_spec in Hq as [Hq ?]; [|by destruct Hp1|done].
    split; [by eapply msg_write_post_trans | done]. }
  assert (Hpark : write_post this Pending this1 []) by (by destruct Hp1).
  destruct pf as [[[]|e|]|]; [|by intros [= <- <-]|by intros [= <- <-]|];
    (destruct (pending_write this1); [intros ?; by apply Hq | by intros [= <- <-]]).
Qed.

Lemma msg_poll_shutdown_message_spec this p this' :
  writer_ok this → poll_shutdown_message this = (p, this') → write_post this p this' [].
Proof.
  intros Hok. unfold poll_shutdown_message. destruct (poll_flush_message this) as [pf this1] eqn:Ef.
  apply msg_poll_flush_message_spec in Ef as [Hp1 _]; [|done].
  destruct pf as [[[]|e|]|]; [|by intros [= <- <-]..].
  destruct (poll_shutdown (stream this1)) as [q s] eqn:Es. apply shutdown_law in Es as [Hr Ha]. intros [= <- <-].
  destruct Hp1. split; try done; simpl; [congruence| |by destruct q as [[]|]].
  unfold unsent in *. simpl. by rewrite Ha.
Qed.

End reading.
(** ** Runs *)
Inductive op := Read (room : nat) | Write (buf : bytes) | Flush | Shutdown.
Inductive reply := Got (m : bytes) | Done.

Definition poll_map {A C} (f : A → C) (p : Poll (outcome A)) : Poll (outcome C) :=
  match p with
  | Ready (Ok a) => Ready (Ok (f a))
  | Ready (Err e) => Ready (Err e)
  | Ready Panic => Ready Panic
  | Pending => Pending
  end.

Definition trace : Type := list (op * Poll (outcome reply)).

Definition perform {S} `{AsyncStream S} (fuel : nat) (this : VlessMessageStream S) (o : op)
    : option (Poll (outcome reply) * VlessMessageStream S) :=
  match o with
  | Read room => prod_map (poll_map Got) id <$> poll_read_message fuel room this
  | Write buf => Some (prod_map (poll_map (λ _, Done)) id (poll_write_message buf this))
  | Flush => Some (prod_map (poll_map (λ _, Done)) id (poll_flush_message this))
  | Shutdown => Some (prod_map (poll_map (λ _, Done)) id (poll_shutdown_message this))
  end.

Fixpoint run {S} `{AsyncStream S} (fuel : nat) (this : VlessMessageStream S) (ops : list op)
    : option (trace * VlessMessageStream S) :=
  match ops with
  | [] => Some ([], this)
  | o :: ops =>
      match perform fuel this o with
      | Some (r, this) => prod_map (cons (o, r)) id <$> run fuel this ops
      | None => None
      end
  end.

(** The messages an operation has handed to the caller, and those it has taken. *)
Definition delivered_by (x : op * Poll (outcome reply)) : list bytes :=
  match x with (_, Ready (Ok (Got (b :: m)))) => [b :: m] | _ => [] end.
Definition taken_by (x : op * Poll (outcome reply)) : list bytes :=
  match x with (Write buf, Ready (Ok Done)) => [buf] | _ => [] end.
Definition delivered (t : trace) : list bytes := t ≫= delivered_by.
Definition written (t : trace) : list bytes := t ≫= taken_by.
Definition panicked (t : trace) : bool := existsb (λ '(_, p), is_panic p) t.

(** The run ends in a read that parks or finds the end. *)
Definition settled (t : trace) : Prop :=
  ∃ room p, last t = Some (Read room, p) ∧ (p = Pending ∨ p = Ready (Ok (Got []))).

Definition nonempty (m : bytes) : Prop := m ≠ [].

Section runs.
Context {S : Type} `{AsyncStream S, !StreamLaws S}.
Implicit Types this : VlessMessageStream S.

Record run_post this (t : trace) this' (got : bytes) (ms : list bytes) : Prop := {
  rp_reader : reader_ok this';
  rp_writer : writer_ok this';
  rp_received : received (stream this') = received (stream this) ++ got;
  rp_cut : cut (held this ++ got) ms (held this');
  rp_delivered : delivered t = filter nonempty ms;
  rp_accepted : accepted (stream this') ++ unsent this' =
    accepted (stream this) ++ unsent this ++ concat (frame <$> written t);
  rp_fits : Forall fits (written t);
  rp_panic : bytes_ok (held this ++ got) → panicked t = false;
  rp_settled : settled t → ready_in (held this') = None }.

Lemma filter_gives p ms o :
  poll_gives p ms → delivered_by (o, poll_map Got p) = filter nonempty ms.
Proof.
  assert (Hn : ∀ l, Forall (λ m : bytes, m = []) l → filter nonempty l = []).
  { induction 1 as [|m l -> _ IH]; [done|]. by rewrite filter_cons_False by (by intros []). }
  unfold poll_gives, delivered_by. destruct p as [[[|x m]|e|]|]; simpl; [by intros ->%Hn| |by intros ->%Hn..].
  intros (empties & -> & He). rewrite filter_app, Hn by done. done.
Qed.

Lemma perform_spec fuel this o r this' :
  reader_ok this → writer_ok this → perform fuel this o = Some (r, this') → ∃ got ms, run_post this [(o, r)] this' got ms.
Proof.
  intros Hro Hwo. assert (Hw : ∀ p q, write_post this p this' q → (is_panic p = is_panic r) → q = taken_by (o, r) →
    delivered_by (o, r) = [] → Forall fits q → (∀ room, o ≠ Read room) → run_post this [(o, r)] this' [] []).
  { intros p q [Hok Hr Ha He Hp] Hpr -> Hd Hf Ho. unfold reads_of in He. injection He as Eb Ei Ee.
    assert (Hh : held this' = held this) by (unfold held; congruence).
    split; cbn; rewrite ?app_nil_r; try done.
    - destruct Hro. split; by rewrite ?Hh, ?Eb, ?Ei, ?Ee.
    - rewrite Hh. constructor.
    - by rewrite orb_false_r, <- Hpr.
    - intros (room & p' & [= -> ->] & _). by destruct (Ho room). }
  destruct o as [room|buf| |]; cbn [perform].
  - destruct (poll_read_message fuel room this) as [[p this1]|] eqn:Er; [|done]. intros [= <- <-].
    apply poll_read_message_spec in Er as (got & ms & []); [|done]. exists got, ms. unfold writes in pp_writes0.
    injection pp_writes0 as Ep Eo. unfold writer_ok, unsent in *. split; unfold writer_ok, unsent; rewrite ?Ep, ?Eo; try done.
    + change (delivered [(Read room, poll_map Got p)]) with (delivered_by (Read room, poll_map Got p) ++ []).
      by rewrite app_nil_r, (filter_gives p ms).
    + cbn. destruct p as [[?|?|]|]; cbn; rewrite ?app_nil_r; by rewrite pp_accepted0.
    + intros Hb. cbn. rewrite orb_false_r. specialize (pp_panic0 Hb). by destruct p as [[?|?|]|].
    + intros (room' & q & [= <- <-] & Hq). apply pp_settled0. destruct p as [[?|?|]|], Hq; simplify_eq/=; auto.
  - destruct (poll_write_message buf this) as [p this1] eqn:Ew. intros [= <- <-].
    apply poll_write_message_spec in Ew as [Hp Hf]; [|done]. exists [], [].
    destruct p as [[[]|e|]|]; (eapply Hw; [exact Hp|done..| |done]); simpl; repeat constructor. by apply Hf.
  - destruct (poll_flush_message this) as [p this1] eqn:Ef. intros [= <- <-].
    apply msg_poll_flush_message_spec in Ef as [Hp _]; [|done]. exists [], [].
    destruct p as [[[]|e|]|]; (eapply Hw; [exact Hp|done..| |done]); constructor.
  - destruct (poll_shutdown_message this) as [p this1] eqn:Ef. intros [= <- <-].
    apply msg_poll_shutdown_message_spec in Ef as Hp; [|done]. exists [], [].
    destruct p as [[[]|e|]|]; (eapply Hw; [exact Hp|done..| |done]); constructor.
Qed.

Lemma run_post_nil this : reader_ok this → writer_ok this → run_post this [] this [] [].
Proof.
  intros Hr Hw. split; cbn; rewrite ?app_nil_r; try done; try constructor. by intros (room & p & ? & _).
Qed.

Lemma msg_run_post_app this t this1 got ms t' this' got' ms' :
  run_post this t this1 got ms → run_post this1 t' this' got' ms' → t' ≠ [] →
  run_post this (t ++ t') this' (got ++ got') (ms ++ ms').
Proof.
  intros [] [] Hne. split; try done.
  - by rewrite rp_received1, rp_received0, <- app_assoc.
  - rewrite app_assoc. eapply cut_trans; [by apply cut_more | done].
  - unfold delivered in *. by rewrite bind_app, filter_app, rp_delivered0, rp_delivered1.
  - unfold written in *. rewrite rp_accepted1, app_assoc, rp_accepted0, bind_app, fmap_app, concat_app.
    by rewrite <- !app_assoc.
  - unfold written in *. rewrite bind_app. by apply Forall_app.
  - rewrite app_assoc. intros Hb. unfold panicked in *. rewrite existsb_app. apply orb_false_iff.
    pose proof Hb as [Hb1 Hb2]%bytes_ok_app. split; [by apply rp_panic0|]. apply rp_panic1.
    apply bytes_ok_app. split; [|done]. by apply (cut_suffix _ _ _ rp_cut0).
  - intros (room & p & Hl & Hp). apply rp_settled1. exists room, p. split; [|done]. rewrite last_app in Hl.
    destruct (last t') eqn:El; [done|]. by apply last_None in El.
Qed.

Lemma msg_run_spec fuel this ops t this' :
  reader_ok this → writer_ok this → run fuel this ops = Some (t, this') → ∃ got ms, run_post this t this' got ms.
Proof.
  revert this t. induction ops as [|o ops IH]; intros this t Hr Hw; cbn [run].
  { intros [= <- <-]. exists [], []. by apply run_post_nil. }
  destruct (perform fuel this o) as [[r this1]|] eqn:Ep; [|done].
  apply perform_spec in Ep as (got & ms & H1); [|done..].
  destruct (run fuel this1 ops) as [[t1 this2]|] eqn:Er; [|done]. intros [= <- <-].
  destruct ops as [|o' ops].
  { injection Er as <- <-. by exists got, ms. }
  assert (Hne : t1 ≠ []).
  { cbn [run] in Er. destruct (perform fuel this1 o') as [[r' this3]|]; [|done]. by destruct (run fuel this3 ops) as [[]|]; simplify_eq/=. }
  apply IH in Er as (got' & ms' & H2); [|by destruct H1..].
  exists (got ++ got'), (ms ++ ms'). by apply (msg_run_post_app this [(o, r)] this1).
Qed.

Lemma msg_new_ok (s : S) : reader_ok (new s) ∧ writer_ok (new s) ∧ held (new s) = [].
Proof. split; [split; simpl; try done; lia|]. split; [unfold writer_ok; simpl; lia | done]. Qed.

Lemma feed_spec data (s : S) this :
  feed_initial_read_data data (new s) = Ok this →
  reader_ok this ∧ writer_ok this ∧ held this = data ∧ stream this = s ∧ unsent this = [].
Proof.
  unfold feed_initial_read_data. destruct (_ <? _) eqn:E; [done|]. to_prop. set (buf := resize _ _).
  assert (Hlen : length data ≤ length buf ≤ MAX_MESSAGE_BUF_SIZE).
  { pose proof (clamp_room _ E) as Hc. unfold buf, resize. rewrite length_app, length_take, length_replicate.
    change (length (read_buf (new s))) with 0. lia. }
  rewrite slice_Ok by lia. cbn [mbind outcome_bind]. intros [= <-].
  split; [split; simpl; [rewrite length_app, length_drop; lia..|done]|].
  split; [unfold writer_ok; simpl; lia|]. split; [|done]. unfold held. simpl. by rewrite take_app_length.
Qed.

Lemma msg_feed_ok data (s : S) : length data ≤ MAX_MESSAGE_BUF_SIZE → ∃ this, feed_initial_read_data data (new s) = Ok this.
Proof.
  intros Hl. unfold feed_initial_read_data. rewrite (proj2 (Nat.ltb_ge _ _)) by done.
  pose proof (clamp_room _ Hl) as Hc. rewrite slice_Ok; [by eexists | lia|]. unfold resize.
  rewrite length_app, length_take, length_replicate. change (length (read_buf (new s))) with 0. lia.
Qed.

Lemma msg_feed_no_panic data (s : S) : feed_initial_read_data data (new s) ≠ Panic.
Proof.
  destruct (decide (length data ≤ MAX_MESSAGE_BUF_SIZE)) as [Hl|Hl]; [by destruct (msg_feed_ok data s Hl) as [? ->]|].
  unfold feed_initial_read_data. by rewrite (proj2 (Nat.ltb_lt _ _)) by lia.
Qed.

Lemma msg_run_total `{!FiniteReads S} this ops :
  reader_ok this → writer_ok this → ∃ t this', run read_fuel this ops = Some (t, this').
Proof.
  revert this. induction ops as [|o ops IH]; intros this Hr Hw; cbn [run]; [eauto|].
  assert (Hp : ∃ r this1, perform read_fuel this o = Some (r, this1)).
  { destruct o as [room|buf| |]; cbn [perform]; eauto; [|by destruct (_ : _ * _); eauto..].
    destruct (poll_read_message_total room this Hr) as [[p this1] ->]. by eexists _, _. }
  destruct Hp as (r & this1 & Ep). rewrite Ep. apply perform_spec in Ep as (got & ms & H1); [|done..].
  destruct (IH this1) as (t & this' & ->); [by destruct H1..|]. by eexists _, _.
Qed.

End runs.
(** ** What the stream keeps, the message stream keeps *)
Section kept.
Context {S : Type} `{AsyncStream S} (I : S → Prop) (HI : kept I).
Implicit Types this : VlessMessageStream S.

Lemma drain_kept msg fuel data sent s p sent' s' : I s → drain_loop msg fuel data sent s = (p, sent', s') → I s'.
Proof.
  revert sent s. induction fuel as [|fuel IH]; intros sent s Hs; cbn [drain_loop].
  { by intros [= <- <- <-]. }
  destruct (_ <? _); [|by intros [= <- <- <-]].
  destruct (poll_write s (drop sent data)) as [[[e|n]|] s1] eqn:E; apply (kept_write _ HI _ _ _ _ Hs) in E;
    [by intros [= <- <- <-]| |by intros [= <- <- <-]].
  destruct (n =? 0); [by intros [= <- <- <-] | by apply IH].
Qed.

Lemma flush_message_kept this p this' : I (stream this) → poll_flush_message this = (p, this') → I (stream this').
Proof.
  intros Hs. unfold poll_flush_message. destruct (drain _ _ _ _) as [[p1 sent] s] eqn:E. apply drain_kept in E; [|done].
  destruct p1 as [[[]|e|]|]; try (by intros [= <- <-]).
  destruct (poll_flush s) as [[[e|[]]|] s'] eqn:Ef; apply (kept_flush _ HI _ _ _ E) in Ef; by intros [= <- <-].
Qed.

Lemma queue_message_kept buf this p this' : I (stream this) → queue_message buf this = (p, this') → I (stream this').
Proof. unfold queue_message. destruct (_ <? _)%Z; by intros ? [= <- <-]. Qed.

Lemma write_message_kept buf this p this' : I (stream this) → poll_write_message buf this = (p, this') → I (stream this').
Proof.
  intros Hs. unfold poll_write_message. destruct (pending_write this); [by apply queue_message_kept|].
  destruct (poll_flush_message this) as [p1 this1] eqn:E. apply flush_message_kept in E; [|done].
  destruct p1 as [[[]|e|]|]; try (by intros [= <- <-]);
    (destruct (pending_write this1); [by apply queue_message_kept | by intros [= <- <-]]).
Qed.

Lemma shutdown_message_kept this p this' : I (stream this) → poll_shutdown_message this = (p, this') → I (stream this').
Proof.
  intros Hs. unfold poll_shutdown_message. destruct (poll_flush_message this) as [p1 this1] eqn:E. apply flush_message_kept in E; [|done].
  destruct p1 as [[[]|e|]|]; try (by intros [= <- <-]).
  destruct (poll_shutdown (stream this1)) as [q s'] eqn:Ef. apply (kept_shutdown _ HI _ _ _ E) in Ef. by intros [= <- <-].
Qed.

Lemma drop_message_stream n this this' : drop_message n this = Ok this' → stream this' = stream this.
Proof.
  unfold drop_message. destruct (_ <? _); [|by intros [= <-]]. destruct (slice _ _ _); simpl; [|done..]. by intros [= <-].
Qed.
Lemma ensure_stream this : stream (ensure_read_capacity this) = stream this.
Proof. unfold ensure_read_capacity. by repeat case_match. Qed.

Lemma read_message_kept fuel room this p this' : I (stream this) → read_loop fuel room this = Some (p, this') → I (stream this').
Proof.
  revert this. induction fuel as [|fuel IH]; intros this Hs; cbn [read_loop]; [done|].
  destruct (message_ready this) as [[n|]|e|]; try (by intros [= <- <-]).
  - destruct (n =? 0); [|destruct (room <? n); [by intros [= <- <-]|]].
    + destruct (drop_message _ this) as [this1| |] eqn:E; try (by intros [= <- <-]). apply drop_message_stream in E. apply IH. by rewrite E.
    + destruct (slice _ _ _); try (by intros [= <- <-]).
      destruct (drop_message _ this) as [this1| |] eqn:E; try (by intros [= <- <-]). apply drop_message_stream in E.
      intros [= <- <-]. by rewrite E.
  - rewrite <- (ensure_stream this) in Hs. set (this1 := ensure_read_capacity this) in *. clearbody this1.
    destruct (slice _ _ _) as [[|x l]| |]; try (by intros [= <- <-]).
    destruct (poll_read _ _) as [[[e|bs]|] s] eqn:E; apply (kept_read _ HI _ _ _ _ Hs) in E; try (by intros [= <- <-]).
    destruct (length bs =? 0); [destruct (_ =? 0); by intros [= <- <-] | by apply IH].
Qed.

Lemma msg_run_kept fuel this ops t this' : I (stream this) → run fuel this ops = Some (t, this') → I (stream this').
Proof.
  revert this t. induction ops as [|o ops IH]; intros this t Hs; cbn [run]; [by intros [= <- <-]|].
  destruct (perform fuel this o) as [[r this1]|] eqn:Ep; [|done].
  assert (Hs1 : I (stream this1)).
  { destruct o as [room|buf| |]; cbn [perform] in Ep.
    - unfold poll_read_message in Ep. destruct (is_eof this); [by injection Ep as <- <-|].
      destruct (read_loop fuel room this) as [[p this2]|] eqn:E; [|done]. injection Ep as <- <-. by apply read_message_kept in E.
    - destruct (poll_write_message buf this) as [p this2] eqn:E. injection Ep as <- <-. by apply write_message_kept in E.
    - destruct (poll_flush_message this) as [p this2] eqn:E. injection Ep as <- <-. by apply flush_message_kept in E.
    - destruct (poll_shutdown_message this) as [p this2] eqn:E. injection Ep as <- <-. by apply shutdown_message_kept in E. }
  destruct (run fuel this1 ops) as [[t1 this2]|] eqn:Er; [|done]. intros [= <- <-]. by apply IH in Er.
Qed.
End kept.

(** A stream of frames that is cut to its end is all of its messages. *)
Lemma cut_all d ms r msgs :
  Forall fits msgs → cut d ms r → d = concat (frame <$> msgs) → ready_in r = None → ms = msgs.
Proof.
  intros Hf Hc -> Hr. destruct (cut_frames _ ms r msgs Hf Hc ltac:(done)) as (later & -> & Hd).
  rewrite fmap_app, concat_app in Hd. apply app_inv_head in Hd. apply Forall_app in Hf as [_ Hf].
  destruct later as [|m later]; [by rewrite app_nil_r|]. exfalso. apply Forall_cons in Hf as [Hm _].
  cbn [fmap list_fmap concat] in Hd. destruct (frame_split m Hm) as (hi & lo & Ef & Hl). rewrite Ef in Hd. subst r. revert Hr.
  cbn [ready_in app]. rewrite Hl, length_app. by rewrite (proj2 (Nat.leb_le _ _)) by lia.
Qed.

Lemma bytes_ok_frames msgs : Forall bytes_ok msgs → bytes_ok (concat (frame <$> msgs)).
Proof.
  induction 1 as [|m msgs Hm _ IH]; [constructor|]. cbn [fmap list_fmap concat]. rewrite bytes_ok_app. split; [|done].
  unfold frame. rewrite bytes_ok_app. split; [apply bytes_ok_be_encode | done].
Qed.

(** ** Properties *)
Section link.
Context {A B : Type} `{AsyncStream A, !StreamLaws A, AsyncStream B, !StreamLaws B}.

(** A message stream over [s] that has [fed] to read first. *)
Definition started {S} (fed : bytes) (s : S) (this : VlessMessageStream S) : Prop :=
  reader_ok this ∧ writer_ok this ∧ held this = fed ∧ stream this = s ∧ unsent this = [].

Lemma msg_link fuel (a : A) (b : B) fed b0 ops_a ops_b ta tb a' b' sent got :
  run fuel (new a) ops_a = Some (ta, a') →
  started fed b b0 → run fuel b0 ops_b = Some (tb, b') →
  accepted (stream a') = accepted a ++ sent → received (stream b') = received b ++ got →
  fed ++ got `prefix_of` sent → Forall bytes_ok (written ta) →
  delivered tb `prefix_of` filter nonempty (written ta) ∧ panicked tb = false ∧
  length (read_buf b') ≤ MAX_MESSAGE_BUF_SIZE ∧
  (settled tb → fed ++ got = sent → pending_write a' = [] → delivered tb = filter nonempty (written ta)).
Proof.
  intros Hra Hfeed Hrb Hsent Hgot Hpre Hbytes. destruct (msg_new_ok a) as (Hr0 & Hw0 & Hh0).
  apply msg_run_spec in Hra as (gota & msa & []); [|done..].
  rewrite Hsent, <- app_assoc in rp_accepted0. cbn [stream new] in rp_accepted0. apply app_inv_head in rp_accepted0.
  change (unsent (new a)) with (@nil Z) in rp_accepted0. cbn [app] in rp_accepted0.
  destruct Hfeed as (Hrb0 & Hwb0 & Hhb0 & Hsb0 & _).
  apply msg_run_spec in Hrb as (gotb & msb & []); [|done..]. rewrite Hsb0, Hgot in rp_received1. apply app_inv_head in rp_received1.
  subst gotb. rewrite Hhb0 in *.
  assert (Hpre' : fed ++ got `prefix_of` concat (frame <$> written ta)).
  { rewrite <- rp_accepted0. by apply prefix_app_r. }
  destruct (cut_frames _ _ _ _ rp_fits0 rp_cut1 Hpre') as (later & Hl & _).
  split; [|split; [|split; [by destruct rp_reader1|]]].
  - rewrite rp_delivered1, Hl, filter_app. by apply prefix_app_r.
  - apply rp_panic1. destruct Hpre' as [x Hx]. pose proof (bytes_ok_frames _ Hbytes) as Hb. rewrite Hx in Hb.
    by apply bytes_ok_app in Hb as [? _].
  - intros Hst Hall Hp. rewrite rp_delivered1. f_equal. apply (cut_all (fed ++ got) _ (held b')); [done..| |by apply rp_settled1].
    rewrite <- rp_accepted0, Hall. unfold unsent. by rewrite Hp, drop_nil, app_nil_r.
Qed.

(** C33: Datagrams over a byte stream are exact: what one end has written is, message
    by message and in order, what the other end reads, however the bytes are cut,
    polls are interleaved and the connection starts (with [fed] read during the
    handshake): the messages read are the first of those written, and all of them
    once the bytes have been carried and a read parks; messages without bytes are
    skipped; no operation of the reader panics, and its buffer stays within
    [MAX_MESSAGE_BUF_SIZE]. *)
Theorem datagrams_are_exact fuel (a : A) (b : B) fed b0 ops_a ops_b ta tb a' b' sent got :
  run fuel (new a) ops_a = Some (ta, a') →
  feed_initial_read_data fed (new b) = Ok b0 → run fuel b0 ops_b = Some (tb, b') →
  accepted (stream a') = accepted a ++ sent → received (stream b') = received b ++ got →
  fed ++ got `prefix_of` sent → Forall bytes_ok (written ta) →
  delivered tb `prefix_of` filter nonempty (written ta) ∧ panicked tb = false ∧
  length (read_buf b') ≤ MAX_MESSAGE_BUF_SIZE ∧
  (settled tb → fed ++ got = sent → pending_write a' = [] → delivered tb = filter nonempty (written ta)).
Proof. intros Ha Hfeed%feed_spec. by eapply msg_link. Qed.
End link.

(** Every operation on a message stream returns, whatever its transport does,
    when the transport parks after finitely many reads. *)
Theorem message_polls_return {S : Type} `{AsyncStream S, !StreamLaws S, !FiniteReads S} (s : S) ops :
  ∃ t this', run read_fuel (new s) ops = Some (t, this').
Proof. destruct (msg_new_ok s) as (? & ? & _). by apply msg_run_total. Qed.

(** Three datagrams, the second without bytes; their first three bytes are read
    with the handshake. *)
Definition sample_writes : list op := [Write (B "abc"); Write []; Write (B "de"); Flush].
Definition sample_wire : bytes := frame (B "abc") ++ frame [] ++ frame (B "de").
Definition sample_reads : list op := replicate 12 (Read 10).
Definition sender : script := script_of "" true 100.
Definition receiver : script := mkScript (drop 3 sample_wire) true true 2 [] [].

Lemma datagrams_are_exact_witness :
  ∃ b0 ta tb a' b', feed_initial_read_data (take 3 sample_wire) (new receiver) = Ok b0 ∧
    run 20 (new sender) sample_writes = Some (ta, a') ∧ run 20 b0 sample_reads = Some (tb, b') ∧
    delivered tb = [B "abc"; B "de"] ∧
    delivered tb `prefix_of` filter nonempty (written ta) ∧ panicked tb = false ∧
    length (read_buf b') ≤ MAX_MESSAGE_BUF_SIZE ∧
    (settled tb → take 3 sample_wire ++ drop 3 sample_wire = sample_wire → pending_write a' = [] →
      delivered tb = filter nonempty (written ta)).
Proof.
  destruct (feed_initial_read_data (take 3 sample_wire) (new receiver)) as [b0| |] eqn:Ef; [|by vm_compute in Ef..].
  destruct (run 20 (new sender) sample_writes) as [[ta a']|] eqn:Ea; [|by vm_compute in Ea].
  destruct (run 20 b0 sample_reads) as [[tb b']|] eqn:Eb; [|vm_compute in Ef; injection Ef as <-; by vm_compute in Eb].
  exists b0, ta, tb, a', b'. split; [done|]. split; [done|]. split; [done|]. split.
  { vm_compute in Ef; injection Ef as <-. vm_compute in Eb. by injection Eb as <- <-. }
  apply (datagrams_are_exact 20 sender receiver (take 3 sample_wire) b0 sample_writes sample_reads ta tb a' b' sample_wire
    (drop 3 sample_wire)); try done.
  - vm_compute in Ea. by injection Ea as <- <-.
  - vm_compute in Ef; injection Ef as <-. vm_compute in Eb. by injection Eb as <- <-.
  - vm_compute in Ea. injection Ea as <- <-. compute_done.
Defined.

End Messages.
