(* ===== verification/Handshake.v ===== *)
(** * Handshakes over a buffered reader

    The protocol servers and clients read a request through a [StreamReader]
    and write replies to the stream.  A handshake is written once, against the
    class [Handshake] of what it does to the connection, and has two readings:
    [io], the reader with its buffer over the stream, which is the code; and
    [parser], a function of the bytes of the connection alone.

    Shown: the two agree ([sim]), whatever pieces the bytes arrive in; so what
    is proved of a handshake as a function of its bytes holds of the code. *)
From S2P Require Import Prelude Text StreamReader.

Module Handshake.

(** ** What a handshake does to its connection *)
Class Handshake (M : Type → Type) := {
  h_ret :: MRet M;
  h_bind :: MBind M;
  lift {A} : outcome A → M A;
  read_u8 : M Z;
  read_u16_be : M Z;
  read_slice : nat → M bytes;
  read_line : M bytes;
  read_line_bytes : M bytes;
  peek_u8 : M Z;
  peek_slice : nat → M bytes;
  consume : nat → M unit;
  write_all : bytes → M unit;
  flush : M unit }.

Definition throw {M} `{Handshake M} {A} (k : ErrorKind) (msg : string) : M A := lift (err k msg).

(** [if c { return Err(..) }] *)
Definition guard {M} `{Handshake M} (c : bool) (k : ErrorKind) (msg : string) : M unit :=
  if c then mret tt else throw k msg.

(** ** The reader and its stream *)
#[global] Instance io_ret : MRet Reader.io := λ _, Reader.ret.
#[global] Instance io_bind : MBind Reader.io := λ _ _ f m, Reader.bind m f.

(** [debug] is [cfg(debug_assertions)]. *)
Definition io_handshake (debug : bool) : Handshake Reader.io := {|
  h_ret := io_ret;
  h_bind := io_bind;
  lift := λ _ o, Reader.lift o;
  read_u8 := Reader.read_u8;
  read_u16_be := Reader.read_u16_be;
  read_slice := Reader.read_slice;
  read_line := Reader.read_line;
  read_line_bytes := Reader.read_line_bytes;
  peek_u8 := Reader.peek_u8;
  peek_slice := Reader.peek_slice;
  consume := Reader.consume debug;
  write_all := Reader.write_all;
  flush := Reader.flush |}.

(** ** The bytes alone *)
Record view := mkView {
  bytes_left : bytes;       (* still to be read *)
  bytes_seen : nat;         (* how many of them a peek has shown *)
  bytes_sent : bytes }.     (* what has been written *)

(** The connection of a handshake: the size of the buffer, whether lines may
    end in a bare line feed, how the stream ends, and whether writes fail. *)
Record terms := mkTerms {
  buffer_size : nat;
  bare_lf : bool;
  ending : io_error;
  write_error : option io_error }.

Definition parser (A : Type) : Type := view → outcome A * view.

#[global] Instance parser_ret : MRet parser := λ _ a v, (Ok a, v).
#[global] Instance parser_bind : MBind parser := λ _ _ f m v,
  match m v with
  | (Ok a, v) => f a v
  | (Err e, v) => (Err e, v)
  | (Panic, v) => (Panic, v)
  end.

Section parser.
Context (t : terms).

Definition reading {A} (sp : bytes → outcome A * bytes) (seen : nat) : parser A := λ v,
  let '(o, rest) := sp (bytes_left v) in (o, mkView rest seen (bytes_sent v)).

Definition front {A} (f : bytes → A) (guarded peek : bool) (len : nat) : parser A :=
  reading (Reader.spec_take (buffer_size t) (ending t) f guarded peek len) (if peek then len else 0).

Definition line (check : bool) : parser bytes :=
  reading (λ data,
    let '(o, rest) := Reader.spec_line (buffer_size t) (bare_lf t) (ending t) data in
    (line ← o; if negb check || utf8_valid line then Ok line else err InvalidData "Failed to decode utf8", rest)) 0.

(** To consume what no peek has shown is not given a meaning. *)
Definition skip (len : nat) : parser unit := λ v,
  if len <=? bytes_seen v then (Ok tt, mkView (drop len (bytes_left v)) 0 (bytes_sent v)) else (Panic, v).

Definition send (data : bytes) : parser unit := λ v,
  match write_error t with
  | Some e => (Err e, v)
  | None => (Ok tt, mkView (bytes_left v) (bytes_seen v) (bytes_sent v ++ data))
  end.

Definition parser_handshake : Handshake parser := {|
  h_ret := parser_ret;
  h_bind := parser_bind;
  lift := λ _ o v, (o, v);
  read_u8 := front be_decode false false 1;
  read_u16_be := front be_decode false false 2;
  read_slice := front id true false;
  read_line := line true;
  read_line_bytes := line false;
  peek_u8 := front be_decode false true 1;
  peek_slice := front id true true;
  consume := skip;
  write_all := send;
  flush := λ v, (match write_error t with Some e => Err e | None => Ok tt end, v) |}.
End parser.

(** A handshake, whatever connection it is read over. *)
Definition protocol (A : Type) : Type := ∀ M, Handshake M → M A.

Definition run {A} (debug : bool) (h : protocol A) : Reader.io A := h Reader.io (io_handshake debug).
Definition parse {A} (t : terms) (h : protocol A) : parser A := h parser (parser_handshake t).

(** ** The two readings agree *)
Section sim.
Context (debug : bool) (t : terms) (whole : bytes).

Definition holds (r : Reader.StreamReader) (src : Reader.Source) (v : view) : Prop :=
  Reader.tracks (buffer_size t) (bare_lf t) (ending t) whole (bytes_sent v) (write_error t) r src (bytes_left v).

(** [m] does to the reader and its stream what [p] does to the bytes. *)
Definition sim {A} (m : Reader.io A) (p : parser A) : Prop :=
  ∀ r src v res r' src',
    holds r src v → bytes_seen v ≤ length (Reader.unparsed r) → m r src = (res, r', src') → (p v).1 ≠ Panic →
    res = (p v).1 ∧ holds r' src' (p v).2 ∧ (is_Ok res = true → bytes_seen (p v).2 ≤ length (Reader.unparsed r')).

Lemma sim_ret {A} (a : A) : sim (mret a) (mret a).
Proof. intros r src v res r' src' Hh Hs [= <- <- <-] _. done. Qed.

Lemma sim_lift {A} (o : outcome A) : sim (Reader.lift o) (λ v, (o, v)).
Proof. intros r src v res r' src' Hh Hs [= <- <- <-] _. done. Qed.

Lemma sim_bind {A C} (m : Reader.io A) (p : parser A) (f : A → Reader.io C) (g : A → parser C) :
  sim m p → (∀ a, sim (f a) (g a)) → sim (m ≫= f) (p ≫= g).
Proof.
  intros Hm Hf r src v res r' src' Hh Hs Hr Hp. unfold mbind, io_bind, parser_bind, Reader.bind in *.
  destruct (m r src) as [[res1 r1] src1] eqn:Em. specialize (Hm _ _ _ _ _ _ Hh Hs Em).
  destruct (p v) as [[a|e|] v1] eqn:Ep; simpl in *; [| |done].
  - destruct Hm as (-> & Hh1 & Hs1); [discriminate|]. by apply (Hf a _ _ _ _ _ _ Hh1 (Hs1 eq_refl) Hr).
  - destruct Hm as (-> & Hh1 & Hs1); [discriminate|]. by injection Hr as <- <- <-.
Qed.

Lemma sim_reading {A} (m : Reader.io A) sp seen :
  (∀ sent, Reader.implements (buffer_size t) (bare_lf t) (ending t) whole sent (write_error t) m sp) →
  (∀ sent r src data a r' src', Reader.tracks (buffer_size t) (bare_lf t) (ending t) whole sent (write_error t) r src data →
     m r src = (Ok a, r', src') → seen ≤ length (Reader.unparsed r')) →
  sim m (reading sp seen).
Proof.
  intros Hm Hseen r src v res r' src' Hh Hs Hr _. unfold holds, reading in *.
  destruct (Hm _ _ _ _ _ _ _ Hh Hr) as [-> Ht]. destruct (sp (bytes_left v)) as [o rest]. simpl in *.
  split; [done|]. split; [done|]. destruct o; [|done..]. intros _. exact (Hseen _ _ _ _ _ _ _ Hh Hr).
Qed.

(** What a peek has returned is in the buffer. *)
Lemma peek_held {A} sent r src data len (g : Reader.StreamReader → outcome A) a r' src' :
  Reader.tracks (buffer_size t) (bare_lf t) (ending t) whole sent (write_error t) r src data →
  Reader.bind (Reader.fill len) (λ _, Reader.bind Reader.get (λ r, Reader.lift (g r))) r src = (Ok a, r', src') →
  len ≤ length (Reader.unparsed r').
Proof.
  intros Ht Hr. unfold Reader.bind, Reader.get, Reader.lift in Hr.
  destruct (Reader.fill len r src) as [[[[]|e|] r1] src1] eqn:Ef; [|done..].
  apply (Reader.reader_fill_ok _ _ _ _ _ _ _ _ _ _ _ _ _ Ht) in Ef as (_ & _ & Hl). injection Hr as _ <- <-. by apply Hl.
Qed.

Lemma sim_read_u8 : sim Reader.read_u8 (front t be_decode false false 1).
Proof. apply sim_reading; [intros; apply Reader.read_u8_implements | intros; lia]. Qed.
Lemma sim_read_u16 : sim Reader.read_u16_be (front t be_decode false false 2).
Proof. apply sim_reading; [intros; apply Reader.read_u16_implements | intros; lia]. Qed.
Lemma sim_read_slice len : sim (Reader.read_slice len) (front t id true false len).
Proof. apply sim_reading; [intros; apply Reader.read_slice_implements | intros; lia]. Qed.
Lemma sim_peek_u8 : sim Reader.peek_u8 (front t be_decode false true 1).
Proof.
  apply sim_reading; [intros; apply Reader.peek_u8_implements|]. intros * Ht Hr. exact (peek_held _ _ _ _ _ _ _ _ _ Ht Hr).
Qed.
Lemma sim_peek_slice len : sim (Reader.peek_slice len) (front t id true true len).
Proof.
  apply sim_reading; [intros; apply Reader.peek_slice_implements|]. intros * Ht Hr.
  unfold Reader.peek_slice, Reader.bind at 1, Reader.get at 1 in Hr. destruct (_ <? _); [done|]. exact (peek_held _ _ _ _ _ _ _ _ _ Ht Hr).
Qed.

Lemma sim_read_line_bytes : sim Reader.read_line_bytes (line t false).
Proof.
  apply sim_reading; [|intros; lia]. intros sent r src data res r' src' Ht Hr.
  apply (Reader.read_line_bytes_ok _ _ _ _ _ _ _ _ _ _ _ _ Ht) in Hr as [-> Ht'].
  destruct (Reader.spec_line _ _ _ data) as [[x|e|] rest]; done.
Qed.
Lemma sim_read_line : sim Reader.read_line (line t true).
Proof.
  apply sim_reading; [|intros; lia]. intros sent. eapply Reader.implements_ext, Reader.read_line_implements.
  intros data. simpl. destruct (Reader.spec_line _ _ _ data) as [[x|e|] rest]; simpl; [by destruct (utf8_valid x) | done..].
Qed.

Lemma sim_consume len : sim (Reader.consume debug len) (skip len).
Proof.
  intros r src v res r' src' Hh Hs Hr. unfold skip. destruct (len <=? bytes_seen v) eqn:E; [|done]. to_prop. intros _.
  unfold Reader.consume, Reader.bind, Reader.get in Hr.
  pose proof (Reader.length_unparsed _ _ _ _ _ _ _ _ _ Hh) as Hl.
  rewrite (proj2 (Nat.leb_le _ _)) in Hr by (destruct Hh; lia). rewrite andb_false_r in Hr.
  injection Hr as <- <- <-. split; [done|]. split; [|simpl; lia]. apply Reader.advance_tracks; [done | lia].
Qed.

Lemma sim_write_all data : sim (Reader.write_all data) (send t data).
Proof.
  intros r src v res r' src' Hh Hs Hr _. unfold send, Reader.write_all in *.
  rewrite (Reader.tr_sink _ _ _ _ _ _ _ _ _ Hh) in Hr. destruct (write_error t) eqn:E; injection Hr as <- <- <-; [done|].
  split; [done|]. split; [|done]. destruct Hh. split; simpl; try done. congruence.
Qed.
Lemma sim_flush : sim Reader.flush (λ v, (match write_error t with Some e => Err e | None => Ok tt end, v)).
Proof.
  intros r src v res r' src' Hh Hs Hr _. unfold Reader.flush in Hr. rewrite (Reader.tr_sink _ _ _ _ _ _ _ _ _ Hh) in Hr.
  by injection Hr as <- <- <-.
Qed.

Lemma sim_guard c k msg :
  sim (@guard _ (io_handshake debug) c k msg) (@guard _ (parser_handshake t) c k msg).
Proof. destruct c; [apply sim_ret | apply sim_lift]. Qed.

Lemma sim_throw {A} k msg :
  sim (@throw _ (io_handshake debug) A k msg) (@throw _ (parser_handshake t) A k msg).
Proof. apply sim_lift. Qed.

End sim.

Create HintDb handshake discriminated.

(** One step of a proof that the two readings of a handshake agree. *)
Ltac sim_step :=
  lazymatch goal with
  | |- sim _ _ (@mret _ _ _ ?a) _ => apply (sim_ret _ _ a)
  | |- sim _ _ (@mbind _ _ _ _ _ _) _ => refine (sim_bind _ _ _ _ _ _ _ _); [|intros ?]
  | |- sim _ _ (@guard _ _ _ _ _) _ => apply sim_guard
  | |- sim _ _ (@throw _ _ _ _ _) _ => apply sim_throw
  | |- sim _ _ (@lift _ _ _ ?o) _ => apply (sim_lift _ _ o)
  | |- sim _ _ (@read_u8 _ _) _ => apply sim_read_u8
  | |- sim _ _ (@read_u16_be _ _) _ => apply sim_read_u16
  | |- sim _ _ (@read_slice _ _ ?len) _ => apply (sim_read_slice _ _ len)
  | |- sim _ _ (@read_line _ _) _ => apply sim_read_line
  | |- sim _ _ (@read_line_bytes _ _) _ => apply sim_read_line_bytes
  | |- sim _ _ (@peek_u8 _ _) _ => apply sim_peek_u8
  | |- sim _ _ (@peek_slice _ _ ?len) _ => apply (sim_peek_slice _ _ len)
  | |- sim _ _ (@consume _ _ ?len) _ => apply sim_consume
  | |- sim _ _ (@write_all _ _ ?data) _ => apply (sim_write_all _ _ data)
  | |- sim _ _ (@flush _ _) _ => apply sim_flush
  | |- sim _ _ (if ?c then _ else _) _ => destruct c
  | |- sim _ _ (match ?x with _ => _ end) _ => destruct x
  | |- _ => solve [auto with handshake nocore]
  end.
Ltac sim_solve := repeat sim_step.

(** ** A handshake on a new reader *)
Definition terms_of (cap : nat) (src : Reader.Source) : terms :=
  mkTerms cap false (Reader.last_error src) (Reader.sink src).
Definition view_of (src : Reader.Source) : view := mkView (Reader.flat src) 0 (Reader.written src).

(** A handshake whose two readings agree. *)
Definition coherent {A} (h : protocol A) : Prop :=
  ∀ debug t whole, sim t whole (run debug h) (parse t h).

(** What the reader holds after a run, and what is still to come. *)
Record leaves (cap : nat) (src : Reader.Source) (v : view) (r : Reader.StreamReader) (src' : Reader.Source) (held : bytes) : Prop := {
  lv_held : Reader.unparsed_data r = Ok held;
  lv_cap : length held ≤ cap;
  lv_rest : held ++ Reader.flat src' = bytes_left v;
  lv_sent : Reader.written src' = bytes_sent v;
  lv_taken : Reader.taken src' ++ Reader.flat src' = Reader.taken src ++ Reader.flat src }.

Lemma run_parse {A} (h : protocol A) debug junk cap src :
  coherent h → Reader.source_ok src → (parse (terms_of cap src) h (view_of src)).1 ≠ Panic →
  ∃ r src' held,
    run debug h (Reader.new_with_buffer_size junk cap) src = ((parse (terms_of cap src) h (view_of src)).1, r, src') ∧
    leaves cap src (parse (terms_of cap src) h (view_of src)).2 r src' held.
Proof.
  intros Hc Hs Hp. destruct (run debug h _ src) as [[res r] src'] eqn:Er.
  destruct (Hc debug (terms_of cap src) (Reader.taken src ++ Reader.flat src) _ _ (view_of src) _ _ _
    (Reader.new_tracks junk cap src Hs) ltac:(simpl; lia) Er Hp) as (-> & Hh & _).
  exists r, src', (Reader.unparsed r). split; [done|]. unfold holds in Hh.
  pose proof (Reader.length_unparsed _ _ _ _ _ _ _ _ _ Hh) as Hl. split; [| |by destruct Hh..].
  - unfold Reader.unparsed_data. destruct Hh. simpl in *. by rewrite slice_Ok by lia.
  - destruct Hh. simpl in *. lia.
Qed.

(** ** Reading what is there *)
Section reading.
Context (t : terms).
Lemma front_ok {A} (f : bytes → A) guarded peek len front_bytes rest seen sent :
  length front_bytes = len → len ≤ buffer_size t →
  front t f guarded peek len (mkView (front_bytes ++ rest) seen sent) =
    (Ok (f front_bytes), mkView (if peek then front_bytes ++ rest else rest) (if peek then len else 0) sent).
Proof.
  intros Hl Hc. unfold front, reading, Reader.spec_take, Reader.spec_front, Reader.spec_fill. cbn [bytes_left bytes_sent].
  rewrite (proj2 (Nat.ltb_ge _ _)), andb_false_r by lia.
  rewrite (proj2 (Nat.leb_le len (length _))) by (rewrite length_app; lia). rewrite (proj2 (Nat.leb_le len _)) by lia.
  cbn [andb mbind outcome_bind]. rewrite take_app_length' by done. destruct peek; [done|].
  by rewrite drop_app_length'.
Qed.

Lemma be_decode_byte b : be_decode [b] = b.
Proof. unfold be_decode, be_step. simpl. lia. Qed.

Lemma bind_ok {A C} (m : parser A) (f : A → parser C) v a v' :
  m v = (Ok a, v') → @mbind _ (@h_bind _ (parser_handshake t)) _ _ f m v = f a v'.
Proof. intros Hm. cbn [h_bind parser_handshake]. unfold mbind, parser_bind. by rewrite Hm. Qed.
Lemma bind_err {A C} (m : parser A) (f : A → parser C) v e v' :
  m v = (Err e, v') → @mbind _ (@h_bind _ (parser_handshake t)) _ _ f m v = (Err e, v').
Proof. intros Hm. cbn [h_bind parser_handshake]. unfold mbind, parser_bind. by rewrite Hm. Qed.

Lemma read_u8_ok b rest seen sent :
  1 ≤ buffer_size t →
  @read_u8 _ (parser_handshake t) (mkView (b :: rest) seen sent) = (Ok b, mkView rest 0 sent).
Proof.
  intros Hc. etrans; [by apply (front_ok be_decode false false 1 [b] rest seen sent)|]. by rewrite be_decode_byte.
Qed.
Lemma read_u16_ok n rest seen sent :
  2 ≤ buffer_size t → in_width 16 n →
  @read_u16_be _ (parser_handshake t) (mkView (be_encode 2 n ++ rest) seen sent) = (Ok n, mkView rest 0 sent).
Proof.
  intros Hc Hn. pose proof (front_ok be_decode false false 2 (be_encode 2 n) rest seen sent (length_be_encode 2 n) Hc) as E.
  by rewrite be_decode_encode_small in E.
Qed.
Lemma read_slice_ok xs rest n seen sent :
  length xs = n → n ≤ buffer_size t →
  @read_slice _ (parser_handshake t) n (mkView (xs ++ rest) seen sent) = (Ok xs, mkView rest 0 sent).
Proof. apply (front_ok id true false). Qed.
Lemma peek_u8_ok b rest seen sent :
  1 ≤ buffer_size t →
  @peek_u8 _ (parser_handshake t) (mkView (b :: rest) seen sent) = (Ok b, mkView (b :: rest) 1 sent).
Proof.
  intros Hc. etrans; [by apply (front_ok be_decode false true 1 [b] rest seen sent)|]. by rewrite be_decode_byte.
Qed.
Lemma peek_slice_ok xs rest n seen sent :
  length xs = n → n ≤ buffer_size t →
  @peek_slice _ (parser_handshake t) n (mkView (xs ++ rest) seen sent) = (Ok xs, mkView (xs ++ rest) n sent).
Proof. apply (front_ok id true true). Qed.
Lemma consume_step xs rest n seen sent :
  length xs = n → n ≤ seen →
  @consume _ (parser_handshake t) n (mkView (xs ++ rest) seen sent) = (Ok tt, mkView rest 0 sent).
Proof.
  intros Hl Hs. simpl. unfold skip. cbn [bytes_seen bytes_left bytes_sent].
  rewrite (proj2 (Nat.leb_le _ _)) by done. by rewrite drop_app_length'.
Qed.

Lemma line_bytes_step line rest seen sent :
  bare_lf t = false → 10%Z ∉ line → length line + 2 ≤ buffer_size t →
  @read_line_bytes _ (parser_handshake t) (mkView (line ++ [13; 10]%Z ++ rest) seen sent) = (Ok line, mkView rest 0 sent).
Proof.
  intros Hb Hn Hl. cbn [read_line_bytes parser_handshake]. unfold Handshake.line, reading, Reader.spec_line. cbn [bytes_left bytes_sent]. rewrite Hb.
  assert (Hf : find_byte Reader.LF (take (buffer_size t) (line ++ [13; 10]%Z ++ rest)) = Some (length line + 1)).
  { rewrite app_assoc, take_app_ge by (rewrite length_app; simpl; lia). rewrite <- app_assoc. 
    rewrite (Reader.find_byte_skip Reader.LF line) by done. done. }
  rewrite Hf. rewrite (proj2 (Nat.ltb_lt 0 _)) by lia. rewrite Nat.add_sub.
  rewrite lookup_app_r, Nat.sub_diag by lia. cbn [negb andb orb]. rewrite bool_decide_true by done. cbn [negb andb orb mbind outcome_bind].
  rewrite take_app_length. do 2 f_equal. rewrite drop_app_ge by lia. by replace (length line + 1 + 1 - length line) with 2 by lia.
Qed.

Lemma write_all_ok data v :
  write_error t = None →
  @write_all _ (parser_handshake t) data v = (Ok tt, mkView (bytes_left v) (bytes_seen v) (bytes_sent v ++ data)).
Proof. intros He. simpl. unfold send. by rewrite He. Qed.
Lemma flush_ok v : write_error t = None → @flush _ (parser_handshake t) v = (Ok tt, v).
Proof. intros He. simpl. by rewrite He. Qed.
Lemma lift_ok {A} (o : outcome A) a v : o = Ok a → @lift _ (parser_handshake t) A o v = (Ok a, v).
Proof. by intros ->. Qed.
Lemma guard_ok c k msg v : c = true → @guard _ (parser_handshake t) c k msg v = (Ok tt, v).
Proof. by intros ->. Qed.
End reading.
(** ** What a handshake that succeeds has read and written *)
Section triples.
Context (t : terms).

(** [p] does not panic; when it gives [a], it has taken [xs] and written [ys]
    with [Q a xs ys]; when it fails, it has left the end of what was there. *)
Definition triple {A} (p : parser A) (Q : A → bytes → bytes → Prop) : Prop :=
  ∀ v, match p v with
       | (Ok a, v') =>
           ∃ xs ys, bytes_left v = xs ++ bytes_left v' ∧ bytes_sent v' = bytes_sent v ++ ys ∧ Q a xs ys
       | (Err _, v') => bytes_left v' `suffix_of` bytes_left v
       | (Panic, _) => False
       end.

Lemma triple_weaken {A} (p : parser A) (Q R : A → bytes → bytes → Prop) :
  triple p Q → (∀ a xs ys, Q a xs ys → R a xs ys) → triple p R.
Proof.
  intros Hp Hq v. specialize (Hp v). destruct (p v) as [[a| |] v']; [|done..].
  destruct Hp as (xs & ys & ? & ? & ?). exists xs, ys. eauto.
Qed.

Lemma triple_bind {A C} (m : parser A) (f : A → parser C) (Q : A → bytes → bytes → Prop) (R : C → bytes → bytes → Prop) :
  triple m Q → (∀ a xs ys, Q a xs ys → triple (f a) (λ c xs' ys', R c (xs ++ xs') (ys ++ ys'))) →
  triple (@mbind _ (@h_bind _ (parser_handshake t)) _ _ f m) R.
Proof.
  intros Hm Hf v. specialize (Hm v). cbn [h_bind parser_handshake]. unfold mbind, parser_bind.
  destruct (m v) as [[a| |] v1]; [|done..]. destruct Hm as (xs & ys & Hl & Hs & Hq).
  specialize (Hf a xs ys Hq v1). destruct (f a v1) as [[c| |] v2]; [| |done].
  2:{ rewrite Hl. by apply suffix_app_r. }
  destruct Hf as (xs' & ys' & Hl' & Hs' & Hr).
  exists (xs ++ xs'), (ys ++ ys'). split_and!; [by rewrite Hl, Hl', app_assoc | by rewrite Hs', Hs, app_assoc | done].
Qed.

Lemma triple_ret {A} (a : A) : triple (@mret _ (@h_ret _ (parser_handshake t)) _ a) (λ c xs ys, c = a ∧ xs = [] ∧ ys = []).
Proof. intros v. simpl. exists [], []. by rewrite !app_nil_r. Qed.

Lemma triple_lift {A} (o : outcome A) :
  o ≠ Panic → triple (@lift _ (parser_handshake t) A o) (λ a xs ys, o = Ok a ∧ xs = [] ∧ ys = []).
Proof. intros Ho v. simpl. destruct o; [exists [], []; by rewrite !app_nil_r|reflexivity|done]. Qed.

Lemma triple_throw {A} k msg Q : triple (@throw _ (parser_handshake t) A k msg) Q.
Proof. intros v. simpl. reflexivity. Qed.

Lemma triple_guard c k msg :
  triple (@guard _ (parser_handshake t) c k msg) (λ _ xs ys, c = true ∧ xs = [] ∧ ys = []).
Proof. intros v. destruct c; simpl; [|reflexivity]. exists [], []. by rewrite !app_nil_r. Qed.

Lemma triple_front {A} (f : bytes → A) guarded len :
  triple (front t f guarded false len) (λ a xs ys, length xs = len ∧ a = f xs ∧ ys = []).
Proof.
  intros v. unfold front, reading, Reader.spec_take, Reader.spec_front, Reader.spec_fill.
  destruct (guarded && (buffer_size t <? len)); [simpl; reflexivity|].
  destruct ((len <=? length (bytes_left v)) && (len <=? buffer_size t)) eqn:E; [|destruct (buffer_size t <=? _); simpl; reflexivity].
  apply andb_true_iff in E as [E1 E2]. to_prop.
  cbn [mbind outcome_bind]. exists (take len (bytes_left v)), []. cbn [bytes_left bytes_sent]. rewrite take_drop, app_nil_r.
  split_and!; try done. rewrite length_take. lia.
Qed.

Lemma triple_read_u8 : triple (@read_u8 _ (parser_handshake t)) (λ b xs ys, xs = [b] ∧ ys = []).
Proof.
  eapply triple_weaken; [apply triple_front|]. intros a xs ys (Hl & -> & ->). destruct xs as [|x [|? ?]]; [done| |done].
  rewrite be_decode_byte. done.
Qed.

Lemma triple_read_u16 : triple (@read_u16_be _ (parser_handshake t)) (λ n xs ys, length xs = 2 ∧ n = be_decode xs ∧ ys = []).
Proof. apply triple_front. Qed.

Lemma triple_read_slice n : triple (@read_slice _ (parser_handshake t) n) (λ a xs ys, length a = n ∧ xs = a ∧ ys = []).
Proof. eapply triple_weaken; [apply triple_front|]. by intros a xs ys (Hl & -> & ->). Qed.

Lemma triple_write_all data : triple (@write_all _ (parser_handshake t) data) (λ _ xs ys, xs = [] ∧ ys = data).
Proof. intros v. simpl. unfold send. destruct (write_error t); [simpl; reflexivity|]. by exists [], data. Qed.

Lemma triple_flush : triple (@flush _ (parser_handshake t)) (λ _ xs ys, xs = [] ∧ ys = []).
Proof. intros v. simpl. destruct (write_error t); [simpl; reflexivity|]. exists [], []. by rewrite app_nil_r. Qed.

Lemma find_byte_first c s i : find_byte c s = Some i → ∃ pre post, s = pre ++ c :: post ∧ c ∉ pre ∧ length pre = i.
Proof.
  revert i. induction s as [|x s IH]; intros i; simpl; [done|]. destruct (Z.eqb_spec x c) as [->|Hne].
  - intros [= <-]. exists [], s. split_and!; [done | set_solver | done].
  - destruct (find_byte c s) as [j|]; [|done]. intros [= <-]. destruct (IH j eq_refl) as (pre & post & -> & Hn & <-).
    exists (x :: pre), post. split_and!; [done | set_solver | done].
Qed.

Lemma triple_line_bytes :
  bare_lf t = false →
  triple (@read_line_bytes _ (parser_handshake t)) (λ a xs ys, xs = a ++ [13; 10]%Z ∧ 10%Z ∉ a ∧ ys = []).
Proof.
  intros Hb v. simpl. unfold line, reading, Reader.spec_line. rewrite Hb.
  destruct (find_byte Reader.LF _) as [pos|] eqn:Ef; [|destruct (_ <=? _); simpl; reflexivity].
  destruct ((0 <? pos) && _) eqn:E; [|simpl; reflexivity]. apply andb_true_iff in E as [Hp Hcr]. to_prop. cbn [negb andb orb mbind outcome_bind].
  apply find_byte_first in Ef as (pre & post & Hd & Hn & <-).
  assert (Hdata : bytes_left v = pre ++ Reader.LF :: post ++ drop (buffer_size t) (bytes_left v)).
  { rewrite <- (take_drop (buffer_size t) (bytes_left v)) at 1. by rewrite Hd, <- app_assoc. }
  destruct pre as [|x pre] using rev_ind; [simpl in Hp; lia|]. clear IHpre. rewrite length_app in *. cbn [length] in *.
  assert (x = 13%Z) as ->.
  { rewrite Hdata, <- app_assoc, Nat.add_sub, lookup_app_r, Nat.sub_diag in Hcr by lia. by injection Hcr. }
  exists (pre ++ [13; 10]%Z), []. cbn [bytes_left bytes_sent]. rewrite app_nil_r. split; [|split; [done|]].
  - rewrite Hdata at 1. rewrite <- !app_assoc. cbn [app]. do 3 f_equal. rewrite Hdata at 2.
    rewrite <- app_assoc. cbn [app]. rewrite drop_app_ge by lia. replace (length pre + 1 + 1 - length pre) with 2 by lia. done.
  - rewrite Nat.add_sub, Hdata, <- app_assoc, take_app_length. split_and!; [done | set_solver | done].
Qed.
(** What a peek that succeeds has seen. *)
Lemma front_peek {A} (f : bytes → A) guarded len v :
  (∃ e v', front t f guarded true len v = (Err e, v') ∧ bytes_left v' = bytes_left v) ∨
  (len ≤ length (bytes_left v) ∧
   front t f guarded true len v = (Ok (f (take len (bytes_left v))), mkView (bytes_left v) len (bytes_sent v))).
Proof.
  unfold front, reading, Reader.spec_take, Reader.spec_front, Reader.spec_fill.
  destruct (guarded && (buffer_size t <? len)); [by left; eexists _, _|].
  destruct ((len <=? length (bytes_left v)) && (len <=? buffer_size t)) eqn:E; [|left; by destruct (buffer_size t <=? _); eexists _, _].
  apply andb_true_iff in E as [E1 E2]. to_prop. right. split; [done|]. done.
Qed.

End triples.

(** One step of a handshake that succeeds. *)
Ltac branch :=
  match goal with
  | |- context [if ?c then _ else _] =>
      let b := eval vm_compute in c in
      lazymatch b with true => idtac | false => idtac end;
      change c with b; cbv iota
  end.
Ltac step lem := erewrite bind_ok; [|apply lem; try done; try lia].

End Handshake.
