(* ===== verification/SocksAddr.v ===== *)
(** * SOCKS addresses ([src/socks_handler.rs], and the packet addresses of [src/trojan_handler.rs])

    A destination as SOCKS5 writes it: a type byte, the address, the port.  The
    same form is read through a [StreamReader] ([read_location]) and from the
    front of a buffer of Trojan packets ([parse_trojan_packet_address]); and it is written to a growing
    buffer and into a fixed one.

    Shown: every reader returns what every writer wrote, and leaves what
    follows; in the buffer, every proper prefix asks for more. *)
From S2P Require Import Prelude Text Address UotAddr StreamReader Handshake.
Import Net Addr Uot Handshake.
Local Open Scope Z_scope.

Module SocksAddr.

Definition ADDR_TYPE_IPV4 : Z := 1.
Definition ADDR_TYPE_DOMAIN_NAME : Z := 3.
Definition ADDR_TYPE_IPV6 : Z := 4.

(** ** Writing *)
Definition socks_location_len (location : NetLocation) : outcome nat :=
  match address location with
  | Ipv4 _ => Ok (1 + 4 + 2)%nat
  | Ipv6 _ => Ok (1 + 16 + 2)%nat
  | Hostname domain_name =>
      if 255 <? Z.of_nat (length domain_name) then err InvalidInput "SOCKS domain name is too long"
      else Ok (1 + 1 + length domain_name + 2)%nat
  end.

Definition write_location_to_buf_unchecked (location : NetLocation) (buf : bytes) : bytes :=
  let buf :=
    match address location with
    | Ipv4 o => buf ++ [ADDR_TYPE_IPV4] ++ o
    | Ipv6 o => buf ++ [ADDR_TYPE_IPV6] ++ o
    | Hostname h => buf ++ [ADDR_TYPE_DOMAIN_NAME; wrap 8 (Z.of_nat (length h))] ++ h
    end in
  buf ++ [wrap 8 (Z.shiftr (port location) 8); Z.land (port location) 255].

Definition try_write_location_to_vec (location : NetLocation) : outcome bytes :=
  _ ← socks_location_len location;
  Ok (write_location_to_buf_unchecked location []).

Definition try_write_location_to_buf (location : NetLocation) (buf : bytes) : outcome bytes :=
  _ ← socks_location_len location;
  Ok (write_location_to_buf_unchecked location buf).

Definition write_location_to_vec (location : NetLocation) : outcome bytes :=
  match try_write_location_to_vec location with
  | Ok v => Ok v
  | _ => Panic
  end.

(** [write_trojan_packet_address], into the front of [buf] *)
Definition write_trojan_packet_address (buf : bytes) (location : NetLocation) : outcome (bytes * nat) :=
  match address location with
  | Ipv4 addr =>
      if (length buf <? 7)%nat then err InvalidInput "buffer too small for Trojan IPv4 address"
      else
        buf ← copy_at 0 [ADDR_TYPE_IPV4] buf;
        buf ← copy_at 1 addr buf;
        buf ← copy_at 5 (be_encode 2 (port location)) buf;
        Ok (buf, 7%nat)
  | Ipv6 addr =>
      if (length buf <? 19)%nat then err InvalidInput "buffer too small for Trojan IPv6 address"
      else
        buf ← copy_at 0 [ADDR_TYPE_IPV6] buf;
        buf ← copy_at 1 addr buf;
        buf ← copy_at 17 (be_encode 2 (port location)) buf;
        Ok (buf, 19%nat)
  | Hostname host_bytes =>
      if 255 <? Z.of_nat (length host_bytes) then err InvalidInput "Trojan hostname too long"
      else
        let total_len := (2 + length host_bytes + 2)%nat in
        if (length buf <? total_len)%nat then err InvalidInput "buffer too small for Trojan domain address"
        else
          buf ← copy_at 0 [ADDR_TYPE_DOMAIN_NAME] buf;
          buf ← copy_at 1 [wrap 8 (Z.of_nat (length host_bytes))] buf;
          buf ← copy_at 2 host_bytes buf;
          buf ← copy_at (2 + length host_bytes) (be_encode 2 (port location)) buf;
          Ok (buf, total_len)
  end.

(** ** Reading *)
Definition read_location {M} `{Handshake M} : M NetLocation :=
  address_type ← read_u8;
  if address_type =? ADDR_TYPE_IPV4 then
    address_bytes ← read_slice 6;
    v4addr ← lift (slice address_bytes 0 4);
    port ← lift (slice address_bytes 4 6);
    mret (mkNetLocation (Ipv4 v4addr) (be_decode port))
  else if address_type =? ADDR_TYPE_IPV6 then
    address_bytes ← read_slice 18;
    v6addr ← lift (slice address_bytes 0 16);
    port ← lift (slice address_bytes 16 18);
    mret (mkNetLocation (Ipv6 v6addr) (be_decode port))
  else if address_type =? ADDR_TYPE_DOMAIN_NAME then
    address_len ← read_u8;
    let address_len := Z.to_nat address_len in
    address_bytes ← read_slice (address_len + 2);
    address_str ← lift (slice address_bytes 0 address_len);
    if utf8_valid address_str then
      port ← lift (slice address_bytes address_len (address_len + 2));
      address ← lift (Address_from address_str);
      mret (mkNetLocation address (be_decode port))
    else throw InvalidData "Failed to decode address"
  else throw InvalidInput "Unknown address type".

Definition parse_trojan_packet_address (data : bytes) : outcome (option (NetLocation * nat)) :=
  match data with
  | [] => Ok None
  | atyp :: _ =>
      if atyp =? ADDR_TYPE_IPV4 then
        if (length data <? 7)%nat then Ok None
        else
          addr ← slice data 1 5;
          port ← slice data 5 7;
          Ok (Some (mkNetLocation (Ipv4 addr) (be_decode port), 7%nat))
      else if atyp =? ADDR_TYPE_DOMAIN_NAME then
        if (length data <? 2)%nat then Ok None
        else
          domain_len ← index data 1;
          let domain_len := Z.to_nat domain_len in
          let total_len := (2 + domain_len + 2)%nat in
          if (length data <? total_len)%nat then Ok None
          else
            domain ← slice data 2 (2 + domain_len);
            if utf8_valid domain then
              port ← slice data (2 + domain_len) (2 + domain_len + 2);
              address ← Address_from domain;
              Ok (Some (mkNetLocation address (be_decode port), total_len))
            else err InvalidData "invalid Trojan UDP domain encoding"
      else if atyp =? ADDR_TYPE_IPV6 then
        if (length data <? 19)%nat then Ok None
        else
          octets ← slice data 1 17;
          port ← slice data 17 19;
          Ok (Some (mkNetLocation (Ipv6 octets) (be_decode port), 19%nat))
      else err InvalidData "unknown Trojan UDP address type"
  end.

(** ** What is on the wire *)
Definition location_wire (location : NetLocation) : bytes :=
  match address location with
  | Ipv4 o => [ADDR_TYPE_IPV4] ++ o
  | Ipv6 o => [ADDR_TYPE_IPV6] ++ o
  | Hostname h => [ADDR_TYPE_DOMAIN_NAME; Z.of_nat (length h)] ++ h
  end ++ be_encode 2 (port location).

(** Locations that can be written and are read back: a hostname that has the
    form of an address is read as that address. *)
Record location_ok (location : NetLocation) : Prop := {
  lo_port : in_width 16 (port location);
  lo_addr : match address location with
    | Ipv4 o => length o = 4%nat
    | Ipv6 o => length o = 16%nat
    | Hostname h => (length h ≤ 255)%nat ∧ utf8_valid h = true ∧ Address_from h = Ok (Hostname h)
    end }.

(** ** Facts *)
Lemma port_bytes n : in_width 16 n → [wrap 8 (Z.shiftr n 8); Z.land n 255] = be_encode 2 n.
Proof.
  intros Hn. unfold in_width in Hn. rewrite Z.shiftr_div_pow2 by lia. change 255 with (Z.ones 8).
  rewrite Z.land_ones by lia. cbn [be_encode]. change (256 ^ Z.of_nat 1) with 256. change (256 ^ Z.of_nat 0) with 1.
  by rewrite Z.div_1_r.
Qed.

Lemma write_location_wire location buf :
  location_ok location → write_location_to_buf_unchecked location buf = buf ++ location_wire location.
Proof.
  intros [Hp Ha]. unfold write_location_to_buf_unchecked, location_wire. rewrite port_bytes by done.
  destruct (address location) as [o|o|h]; rewrite <- ?app_assoc; try done. destruct Ha as [Hl _].
  rewrite wrap_small by (split; simpl; lia). done.
Qed.

Lemma length_location_wire location :
  location_ok location → socks_location_len location = Ok (length (location_wire location)) ∧
  (length (location_wire location) ≤ 259)%nat.
Proof.
  intros [Hp Ha]. unfold socks_location_len, location_wire.
  destruct (address location) as [o|o|h]; rewrite !length_app, length_be_encode; cbn [length].
  - rewrite Ha. split; [done | lia].
  - rewrite Ha. split; [done | lia].
  - destruct Ha as [Hl _]. rewrite (proj2 (Z.ltb_ge _ _)) by lia. split; [f_equal; lia | lia].
Qed.

Lemma try_write_location_ok location buf :
  location_ok location → try_write_location_to_buf location buf = Ok (buf ++ location_wire location).
Proof.
  intros Hl. unfold try_write_location_to_buf. destruct (length_location_wire location Hl) as [-> _].
  cbn [mbind outcome_bind]. by rewrite write_location_wire.
Qed.

Section reading.
Context (t : terms).
Hypothesis Hcap : (257 ≤ buffer_size t)%nat.

Lemma read_location_ok location rest seen sent :
  location_ok location →
  parse t (λ M _, read_location) (mkView (location_wire location ++ rest) seen sent) = (Ok location, mkView rest 0 sent).
Proof.
  intros [Hp Ha]. destruct location as [addr p]. cbn [address port] in *. unfold parse, location_wire, read_location.
  cbn [address port]. destruct addr as [o|o|h].
  - rewrite <- !app_assoc. cbn [app]. step read_u8_ok. branch.
    rewrite app_assoc. step (read_slice_ok t (o ++ be_encode 2 p)); [|rewrite length_app, length_be_encode; lia].
    step lift_ok; [|by apply (slice_mid [] o (be_encode 2 p))].
    step lift_ok; [|apply (slice_mid o (be_encode 2 p) []); by rewrite ?length_be_encode].
    by rewrite be_decode_encode_small by done.
  - rewrite <- !app_assoc. cbn [app]. step read_u8_ok. branch. branch.
    rewrite app_assoc. step (read_slice_ok t (o ++ be_encode 2 p)); [|rewrite length_app, length_be_encode; lia].
    step lift_ok; [|by apply (slice_mid [] o (be_encode 2 p))].
    step lift_ok; [|apply (slice_mid o (be_encode 2 p) []); by rewrite ?length_be_encode].
    by rewrite be_decode_encode_small by done.
  - destruct Ha as (Hl & Hu & Hf). rewrite <- !app_assoc. cbn [app]. step read_u8_ok. do 3 branch. step read_u8_ok.
    rewrite Nat2Z.id, app_assoc.
    step (read_slice_ok t (h ++ be_encode 2 p)); [|rewrite length_app, length_be_encode; lia].
    step lift_ok; [|by apply (slice_mid [] h (be_encode 2 p))]. rewrite Hu.
    step lift_ok; [|apply (slice_mid h (be_encode 2 p) []); by rewrite ?length_be_encode].
    step lift_ok. by rewrite be_decode_encode_small by done.
Qed.
End reading.

Lemma read_location_sim debug t whole :
  sim t whole (@read_location _ (io_handshake debug)) (@read_location _ (parser_handshake t)).
Proof. unfold read_location. sim_solve. Qed.
#[export] Hint Resolve read_location_sim : handshake.

Lemma Address_from_no_panic s : Address_from s ≠ Panic.
Proof. unfold Address_from. destruct (scan_address s 0 true true true) as [[[? ?] ?] ?]. repeat case_match; done. Qed.

(** No bytes make the reader panic, and it writes nothing. *)
Lemma read_location_triple t : triple (@read_location _ (parser_handshake t)) (λ _ _ ys, ys = []).
Proof.
  assert (Hslice : ∀ (xs : bytes) i j, (i ≤ j)%nat → (j ≤ length xs)%nat → slice xs i j ≠ Panic) by (intros xs i j ? ?; by rewrite slice_Ok).
  unfold read_location. eapply triple_bind; [apply triple_read_u8|]. intros b xs ys [_ ->]. cbn [app].
  destruct (b =? _); [|destruct (b =? _); [|destruct (b =? _); [|apply triple_throw]]].
  1,2: eapply triple_bind; [apply triple_read_slice|]; intros a xs' ys' (Hl & _ & ->);
    (eapply triple_bind; [apply triple_lift, Hslice; lia|]); intros a1 xs1 ys1 (_ & _ & ->);
    (eapply triple_bind; [apply triple_lift, Hslice; lia|]); intros a2 xs2 ys2 (_ & _ & ->);
    (eapply triple_weaken; [apply triple_ret|]); by intros ? ? ? (_ & _ & ->).
  eapply triple_bind; [apply triple_read_u8|]. intros n xs1 ys1 [_ ->].
  eapply triple_bind; [apply triple_read_slice|]. intros a xs2 ys2 (Hl & _ & ->).
  eapply triple_bind; [apply triple_lift, Hslice; lia|]. intros s xs3 ys3 (_ & _ & ->).
  destruct (utf8_valid s); [|apply triple_throw].
  eapply triple_bind; [apply triple_lift, Hslice; lia|]. intros p xs4 ys4 (_ & _ & ->).
  eapply triple_bind; [apply triple_lift, Address_from_no_panic|]. intros ad xs5 ys5 (_ & _ & ->).
  eapply triple_weaken; [apply triple_ret|]. by intros ? ? ? (_ & _ & ->).
Qed.

(** ** Addresses in a buffer *)
Lemma copy_at_next i pre xs tl :
  i = length pre → (length xs ≤ length tl)%nat → copy_at i xs (pre ++ tl) = Ok ((pre ++ xs) ++ drop (length xs) tl).
Proof.
  intros -> Hl. rewrite <- (take_drop (length xs) tl) at 1. rewrite copy_at_front by (rewrite length_take; lia).
  by rewrite <- app_assoc.
Qed.

Lemma write_packet_wire location buf :
  location_ok location → (259 ≤ length buf)%nat →
  write_trojan_packet_address buf location =
    Ok (location_wire location ++ drop (length (location_wire location)) buf, length (location_wire location)).
Proof.
  intros [Hp Ha] Hb. unfold write_trojan_packet_address, location_wire. destruct (address location) as [o|o|h].
  - rewrite (proj2 (Nat.ltb_ge _ _)) by lia.
    rewrite (write_fields _ o (be_encode 2 (port location)) buf 5 7); rewrite ?length_be_encode; try lia.
    rewrite !length_app, length_be_encode, Ha. done.
  - rewrite (proj2 (Nat.ltb_ge _ _)) by lia.
    rewrite (write_fields _ o (be_encode 2 (port location)) buf 17 19); rewrite ?length_be_encode; try lia.
    rewrite !length_app, length_be_encode, Ha. done.
  - destruct Ha as [Hl _]. rewrite (proj2 (Z.ltb_ge _ _)), (proj2 (Nat.ltb_ge _ _)) by lia.
    rewrite wrap_small by (split; simpl; lia). set (lb := Z.of_nat (length h)).
    change (copy_at 0 [ADDR_TYPE_DOMAIN_NAME] buf) with (copy_at 0 [ADDR_TYPE_DOMAIN_NAME] ([] ++ buf)).
    rewrite copy_at_next by (done || (simpl; lia)). cbn [mbind outcome_bind].
    rewrite copy_at_next by (done || (rewrite length_drop; simpl; lia)). cbn [mbind outcome_bind].
    rewrite copy_at_next by (done || (rewrite !length_drop; simpl; lia)). cbn [mbind outcome_bind].
    set (pre := ((_ ++ [lb]) ++ h)).
    rewrite copy_at_next by (done || (rewrite !length_drop, length_be_encode; simpl; lia)). cbn [mbind outcome_bind].
    rewrite !drop_drop. unfold pre. rewrite !length_app, length_be_encode. cbn [app length]. rewrite <- !app_assoc. cbn [app]. repeat f_equal; lia.
Qed.

Lemma parse_packet_wire location rest :
  location_ok location →
  parse_trojan_packet_address (location_wire location ++ rest) = Ok (Some (location, length (location_wire location))).
Proof.
  intros [Hp Ha]. destruct location as [addr p]. cbn [address port] in *. unfold location_wire. cbn [address port].
  assert (Hd : be_decode (be_encode 2 p) = p) by (by rewrite be_decode_encode_small).
  destruct addr as [o|o|h]; rewrite <- !app_assoc; cbn [app parse_trojan_packet_address].
  - branch. destruct (fields_slices ADDR_TYPE_IPV4 o (be_encode 2 p) rest) as [E1 E2].
    rewrite length_be_encode, <- app_assoc in *. rewrite Ha in *. cbn [Nat.add app] in *.
    rewrite (proj2 (Nat.ltb_ge _ _)) by (cbn [length]; rewrite !length_app, length_be_encode; lia).
    rewrite E1, E2. cbn [mbind outcome_bind length]. rewrite Hd, length_app, length_be_encode, Ha. done.
  - do 3 branch. destruct (fields_slices ADDR_TYPE_IPV6 o (be_encode 2 p) rest) as [E1 E2].
    rewrite length_be_encode, <- app_assoc in *. rewrite Ha in *. cbn [Nat.add app] in *.
    rewrite (proj2 (Nat.ltb_ge _ _)) by (cbn [length]; rewrite !length_app, length_be_encode; lia).
    rewrite E1, E2. cbn [mbind outcome_bind length]. rewrite Hd, length_app, length_be_encode, Ha. done.
  - do 2 branch. destruct Ha as (Hl & Hu & Hf). set (data := ADDR_TYPE_DOMAIN_NAME :: _).
    assert (Hlen : length data = (2 + length h + 2 + length rest)%nat).
    { unfold data. cbn [length]. rewrite !length_app, length_be_encode. lia. }
    rewrite Hlen, (proj2 (Nat.ltb_ge _ _)) by lia. cbn [index lookup list_lookup expect mbind outcome_bind data].
    rewrite Nat2Z.id, (proj2 (Nat.ltb_ge _ _)) by lia. fold data.
    assert (E1 : slice data 2 (2 + length h) = Ok h) by (apply (slice_mid [ADDR_TYPE_DOMAIN_NAME; Z.of_nat (length h)]); done).
    assert (E2 : slice data (2 + length h) (2 + length h + 2) = Ok (be_encode 2 p)).
    { unfold data. apply (slice_mid (ADDR_TYPE_DOMAIN_NAME :: Z.of_nat (length h) :: h) (be_encode 2 p) rest); done. }
    rewrite E1. cbn [mbind outcome_bind]. rewrite Hu, E2. cbn [mbind outcome_bind]. rewrite Hf. cbn [mbind outcome_bind length].
    rewrite Hd, length_app, length_be_encode. repeat f_equal; lia.
Qed.

Lemma parse_packet_partial location n :
  location_ok location → (n < length (location_wire location))%nat →
  parse_trojan_packet_address (take n (location_wire location)) = Ok None.
Proof.
  intros [Hp Ha] Hn. assert (Hlen : length (take n (location_wire location)) = n) by (rewrite length_take; lia).
  unfold location_wire in *. destruct n as [|n]; [done|].
  destruct (address location) as [o|o|h]; rewrite !length_app, length_be_encode in Hn; cbn [length] in Hn;
    cbn [app take] in *; unfold parse_trojan_packet_address; rewrite Hlen.
  - branch. by rewrite (proj2 (Nat.ltb_lt _ _)) by lia.
  - do 3 branch. by rewrite (proj2 (Nat.ltb_lt _ _)) by lia.
  - do 2 branch. destruct n as [|n]; [done|]. rewrite (proj2 (Nat.ltb_ge _ 2)) by lia.
    cbn [take index lookup list_lookup expect mbind outcome_bind]. unfold index. cbn [lookup list_lookup expect mbind outcome_bind].
    rewrite Nat2Z.id. by rewrite (proj2 (Nat.ltb_lt _ _)) by lia.
Qed.

End SocksAddr.
