(* ===== verification/Packets.v ===== *)
(** * Datagrams with addresses in a byte stream

    [TrojanPacketStream] of [src/trojan_handler.rs] and [PacketAddrStream] of
    [src/uot/uot_v1_server_stream.rs] (UDP-over-TCP and h2mux): every datagram
    carries its target in front.  The two share their shape, a [SlideBuffer] to
    read into and a [LazyBuffer] to write from, and differ in the frame, in
    what they make of a datagram without bytes and of one that does not fit the
    caller's buffer: [packet_kind] is what differs.

    Shown, for both: what one end writes is, packet by packet, what the other
    end reads, with its target, in order and without loss, however the bytes are
    cut, for frames within the buffer less 4096 bytes; no poll panics; every
    poll returns.  A frame that is larger can be refused although it fits the
    buffer: the read buffer is compacted only once 4096 bytes have been read
    from it. *)
From S2P Require Import Prelude Text Address SlideBuffer UotAddr Stream Messages SocksAddr.
Import Net Addr Uot.

Module Packets.
Import Stream Messages SocksAddr.

Definition packet : Type := NetLocation * bytes.

(** ** The stream *)
Record PacketStream (S : Type) := mkPackets {
  stream : S;
  read_buf : Slide.SlideBuffer;
  write_buf : LazyBuffer;
  write_buf_len : nat;
  write_buf_sent : nat;
  is_eof : bool }.
Arguments mkPackets {S}.
Arguments stream {S}.
Arguments read_buf {S}.
Arguments write_buf {S}.
Arguments write_buf_len {S}.
Arguments write_buf_sent {S}.
Arguments is_eof {S}.

Definition set_read {S} (this : PacketStream S) (s : S) (b : Slide.SlideBuffer) (eof : bool) : PacketStream S :=
  mkPackets s b (write_buf this) (write_buf_len this) (write_buf_sent this) eof.
Definition set_write {S} (this : PacketStream S) (s : S) (w : LazyBuffer) (len sent : nat) : PacketStream S :=
  mkPackets s (read_buf this) w len sent (is_eof this).

Definition new_inner {S} (s : S) (size : nat) : PacketStream S :=
  mkPackets s (Slide.new size) (lazy_new size) 0 0 false.

(** What the two streams differ in. *)
Record packet_kind := mkKind {
  try_parse_packet : bytes → outcome (option (NetLocation * nat * nat));
  skips_empty : bool;                    (* datagrams without bytes *)
  too_small : outcome packet;            (* the caller's buffer is *)
  full_message : string;
  zero_message : string }.

Section ops.
Context (debug : bool) (junk : nat → Z) (k : packet_kind).
Context {S : Type} `{AsyncStream S}.

(** The caller's buffer has room for [room] bytes.  [None] is out of fuel. *)
Fixpoint read_loop (fuel : nat) (room : nat) (this : PacketStream S)
    : option (Poll (outcome packet) * PacketStream S) :=
  match fuel with
  | 0 => None
  | Datatypes.S fuel =>
      let fail := Some (Ready Panic, this) in
      match data ← Slide.as_slice (read_buf this); found ← try_parse_packet k data; Ok (data, found) with
      | Panic => fail
      | Err e => Some (Ready (Err e), this)
      | Ok (data, Some (target, payload_start, payload_len)) =>
          let total_consumed := payload_start + payload_len in
          if skips_empty k && (payload_len =? 0) then
            match Slide.consume debug (read_buf this) total_consumed with
            | Ok b => read_loop fuel room (set_read this (stream this) b (is_eof this))
            | _ => fail
            end
          else if room <? payload_len then Some (Ready (too_small k), this)
          else
            match
              payload ← slice data payload_start total_consumed;
              b ← Slide.consume debug (read_buf this) total_consumed;
              Ok (payload, b)
            with
            | Ok (payload, b) => Some (Ready (Ok (target, payload)), set_read this (stream this) b (is_eof this))
            | _ => fail
            end
      | Ok (_, None) =>
          match Slide.maybe_compact (read_buf this) (N.to_nat 4096) with
          | Ok b =>
              if Slide.remaining_capacity b =? 0
              then Some (Ready (err Other (full_message k)), set_read this (stream this) b (is_eof this))
              else
                match Slide.write_slice junk b with
                | Ok (region, put) =>
                    match poll_read (stream this) (length region) with
                    | (Ready (inr bs), s) =>
                        let b := put (bs ++ drop (length bs) region) in
                        if length bs =? 0
                        then Some (Ready (Ok (NetLocation_UNSPECIFIED, [])), set_read this s b true)
                        else
                          match Slide.advance_write debug b (length bs) with
                          | Ok b => read_loop fuel room (set_read this s b (is_eof this))
                          | _ => Some (Ready Panic, set_read this s b (is_eof this))
                          end
                    | (Ready (inl e), s) => Some (Ready (Err e), set_read this s (put region) (is_eof this))
                    | (Pending, s) => Some (Pending, set_read this s (Slide.release (put region)) (is_eof this))
                    end
                | _ => fail
                end
          | _ => fail
          end
      end
  end.

Definition poll_read_packet (fuel : nat) (room : nat) (this : PacketStream S)
    : option (Poll (outcome packet) * PacketStream S) :=
  if is_eof this then Some (Ready (Ok (NetLocation_UNSPECIFIED, [])), this) else read_loop fuel room this.

(** What is left of the frame in the write buffer goes to the stream. *)
Definition poll_flush_pending (this : PacketStream S) : Poll (outcome unit) * PacketStream S :=
  match (if write_buf_sent this <? write_buf_len this then slice (lazy_buf (write_buf this)) 0 (write_buf_len this) else Ok []) with
  | Ok frame =>
      match drain (zero_message k) frame (write_buf_sent this) (stream this) with
      | (Ready (Ok _), _, s) => (Ready (Ok tt), set_write this s (release (write_buf this)) 0 0)
      | (p, sent, s) => (p, set_write this s (write_buf this) (write_buf_len this) sent)
      end
  | _ => (Ready Panic, this)
  end.

Definition poll_flush_message (this : PacketStream S) : Poll (outcome unit) * PacketStream S :=
  match poll_flush_pending this with
  | (Ready (Ok _), this) =>
      let '(p, s) := poll_flush (stream this) in
      (poll_outcome p, set_write this s (write_buf this) (write_buf_len this) (write_buf_sent this))
  | other => other
  end.

Definition poll_shutdown_message (this : PacketStream S) : Poll (outcome unit) * PacketStream S :=
  match poll_flush_message this with
  | (Ready (Ok _), this) =>
      let '(p, s) := poll_shutdown (stream this) in
      (poll_outcome p, set_write this s (write_buf this) (write_buf_len this) (write_buf_sent this))
  | other => other
  end.

(** A frame is queued once the one before it has gone. *)
Definition poll_write_with (queue : PacketStream S → outcome unit * PacketStream S) (this : PacketStream S)
    : Poll (outcome unit) * PacketStream S :=
  match poll_flush_pending this with
  | (Ready (Ok _), this) => let '(o, this) := queue this in (Ready o, this)
  | other => other
  end.
End ops.

(** ** Trojan *)
Module Trojan.

Definition CRLF_BYTES : bytes := [13%Z; 10%Z].
Definition TROJAN_MAX_UDP_PAYLOAD_LEN : nat := N.to_nat 65535.
Definition TROJAN_MAX_SOCKS_ADDR_LEN : nat := 1 + 255 + 2.
Definition TROJAN_UDP_FRAME_BUFFER_SIZE : nat :=
  TROJAN_MAX_UDP_PAYLOAD_LEN + TROJAN_MAX_SOCKS_ADDR_LEN + 2 + length CRLF_BYTES.

Definition try_parse_packet (data : bytes) : outcome (option (NetLocation * nat * nat)) :=
  found ← parse_trojan_packet_address data;
  match found with
  | None => Ok None
  | Some (target, addr_len) =>
      if length data <? addr_len + 2 + length CRLF_BYTES then Ok None
      else
        payload_len ← slice data addr_len (addr_len + 2);
        let payload_len := Z.to_nat (be_decode payload_len) in
        let crlf_start := addr_len + 2 in
        crlf ← slice data crlf_start (crlf_start + length CRLF_BYTES);
        if negb (bool_decide (crlf = CRLF_BYTES)) then err InvalidData "Trojan UDP frame missing CRLF after length"
        else
          let payload_start := crlf_start + length CRLF_BYTES in
          let total_len := payload_start + payload_len in
          if length data <? total_len then Ok None else Ok (Some (target, payload_start, payload_len))
  end.

Definition kind : packet_kind := mkKind try_parse_packet true
  (err Other "buffer too small for Trojan UDP packet")
  "Trojan UDP read buffer full but no complete packet" "failed to write Trojan UDP frame".

Record TrojanPacketStream (S : Type) := mkTrojan {
  packets : PacketStream S;
  fixed_target : option NetLocation }.
Arguments mkTrojan {S}.
Arguments packets {S}.
Arguments fixed_target {S}.

Definition new {S} (s : S) : TrojanPacketStream S := mkTrojan (new_inner s TROJAN_UDP_FRAME_BUFFER_SIZE) None.
Definition new_fixed_target {S} (s : S) (target : NetLocation) : TrojanPacketStream S :=
  mkTrojan (new_inner s TROJAN_UDP_FRAME_BUFFER_SIZE) (Some target).

Section ops.
Context (debug : bool) (junk : nat → Z).
Context {S : Type} `{AsyncStream S}.

Definition feed_initial_data (data : bytes) (this : TrojanPacketStream S) : outcome (TrojanPacketStream S) :=
  let p := packets this in
  if Slide.remaining_capacity (read_buf p) <? length data
  then err InvalidInput "Trojan UDP initial data too large"
  else
    b ← Slide.extend_from_slice debug junk (read_buf p) data;
    Ok (mkTrojan (set_read p (stream p) b (is_eof p)) (fixed_target this)).

Definition queue_packet (buf : bytes) (target : NetLocation) (this : PacketStream S)
    : outcome unit * PacketStream S :=
  if TROJAN_MAX_UDP_PAYLOAD_LEN <? length buf then (err InvalidInput "Trojan UDP payload too large", this)
  else
    let w := ensure junk (write_buf this) in
    let this := set_write this (stream this) w (write_buf_len this) (write_buf_sent this) in
    match write_trojan_packet_address (lazy_buf w) target with
    | Err e => (Err e, this)
    | Panic => (Panic, this)
    | Ok (mem, addr_len) =>
        let this := set_write this (stream this) (mkLazy mem (lazy_size w)) (write_buf_len this) (write_buf_sent this) in
        let total_len := addr_len + 2 + length CRLF_BYTES + length buf in
        if capacity w <? total_len then (err InvalidInput "Trojan UDP frame too large", this)
        else
          let crlf_start := addr_len + 2 in
          let payload_start := crlf_start + length CRLF_BYTES in
          match
            mem ← copy_at addr_len (be_encode 2 (Z.of_nat (length buf))) mem;
            mem ← copy_at crlf_start CRLF_BYTES mem;
            copy_at payload_start buf mem
          with
          | Ok mem => (Ok tt, set_write this (stream this) (mkLazy mem (lazy_size w)) total_len 0)
          | _ => (Panic, this)
          end
    end.

Definition socket_addr_to_location (addr : SocketAddr) : NetLocation := location_of addr.

Definition lift_packets {A} (this : TrojanPacketStream S) (r : A * PacketStream S) : A * TrojanPacketStream S :=
  (r.1, mkTrojan r.2 (fixed_target this)).

Definition poll_read_targeted_message (fuel room : nat) (this : TrojanPacketStream S)
    : option (Poll (outcome packet) * TrojanPacketStream S) :=
  lift_packets this <$> poll_read_packet debug junk kind fuel room (packets this).

Definition poll_write_sourced_message (buf : bytes) (source : SocketAddr) (this : TrojanPacketStream S)
    : Poll (outcome unit) * TrojanPacketStream S :=
  lift_packets this (poll_write_with kind (queue_packet buf (socket_addr_to_location source)) (packets this)).

Definition poll_write_message (buf : bytes) (this : TrojanPacketStream S)
    : Poll (outcome unit) * TrojanPacketStream S :=
  lift_packets this (poll_write_with kind (λ p,
    match fixed_target this with
    | Some target => queue_packet buf target p
    | None => (err InvalidInput "Trojan UDP message stream missing fixed target", p)
    end) (packets this)).
End ops.
End Trojan.

(** ** Packet addresses *)
Module PacketAddr.

Definition BUFFER_SIZE : nat := N.to_nat 65535.

(** An [AddressCodec] is given by its type bytes. *)
Definition addr_try_parse_packet (codec : atyps) (data : bytes) : outcome (option (NetLocation * nat * nat)) :=
  found ← parse_packet_address codec data;
  match found with
  | None => Ok None
  | Some (location, addr_len) =>
      if length data <? addr_len + 2 then Ok None
      else
        payload_len ← slice data addr_len (addr_len + 2);
        let payload_len := Z.to_nat (be_decode payload_len) in
        let payload_start := addr_len + 2 in
        let total_len := payload_start + payload_len in
        if length data <? total_len then Ok None else Ok (Some (location, payload_start, payload_len))
  end.

(** [put_slice] into a buffer without the room panics. *)
Definition addr_kind (codec : atyps) : packet_kind := mkKind (addr_try_parse_packet codec) false Panic
  "packet-address read buffer full but no complete packet" "failed to write packet-address frame".

Definition new_with_codec {S} (s : S) : PacketStream S := new_inner s BUFFER_SIZE.

Section ops.
Context (debug : bool) (junk : nat → Z) (codec : atyps).
Context {S : Type} `{AsyncStream S}.

Definition addr_feed_initial_data (data : bytes) (this : PacketStream S) : outcome (PacketStream S) :=
  if length data =? 0 then Ok this
  else
    let len := Nat.min (length data) (Slide.remaining_capacity (read_buf this)) in
    b ← Slide.extend_from_slice debug junk (read_buf this) (take len data);
    Ok (set_read this (stream this) b (is_eof this)).

Definition queue_frame (buf : bytes) (source : SocketAddr) (this : PacketStream S)
    : outcome unit * PacketStream S :=
  let addr_len := match sa_ip source with V4 _ => 7 | V6 _ => 19 end in
  let total_len := addr_len + 2 + length buf in
  if capacity (write_buf this) <? total_len then (err Other "packet-address frame too large", this)
  else
    let w := ensure junk (write_buf this) in
    match
      '(mem, offset) ← write_packet_address codec (lazy_buf w) source;
      mem ← copy_at offset (be_encode 2 (Z.of_nat (length buf))) mem;
      mem ← copy_at (offset + 2) buf mem;
      Ok (mem, offset + 2)
    with
    | Ok (mem, data_start) =>
        (Ok tt, set_write this (stream this) (mkLazy mem (lazy_size w)) (data_start + length buf) (write_buf_sent this))
    | _ => (Panic, set_write this (stream this) w (write_buf_len this) (write_buf_sent this))
    end.

Definition addr_poll_read_targeted_message (fuel room : nat) (this : PacketStream S)
    : option (Poll (outcome packet) * PacketStream S) :=
  poll_read_packet debug junk (addr_kind codec) fuel room this.

Definition addr_poll_write_sourced_message (buf : bytes) (source : SocketAddr) (this : PacketStream S)
    : Poll (outcome unit) * PacketStream S :=
  poll_write_with (addr_kind codec) (queue_frame buf source) this.
End ops.
End PacketAddr.

(** ** Frames *)
Class Framing (k : packet_kind) (head : packet → bytes) (ok : packet → Prop) := {
  fr_nil : try_parse_packet k [] = Ok None;
  fr_parse m rest : ok m →
    try_parse_packet k (head m ++ m.2 ++ rest) = Ok (Some (m.1, length (head m), length m.2));
  fr_partial m n : ok m → n < length (head m ++ m.2) → try_parse_packet k (take n (head m ++ m.2)) = Ok None;
  fr_head m : ok m → head m ≠ [];
  fr_bound d t i n : try_parse_packet k d = Ok (Some (t, i, n)) → 0 < i ∧ i + n ≤ length d;
  fr_safe d : try_parse_packet k d ≠ Panic;
  fr_small : is_Ok (too_small k) = false }.

Section facts.
Context (debug : bool) (junk : nat → Z) (k : packet_kind) (head : packet → bytes) (ok : packet → Prop).
Context `{!Framing k head ok}.
Context {S : Type} `{AsyncStream S, !StreamLaws S}.
Implicit Types this : PacketStream S.

Definition frame (m : packet) : bytes := head m ++ m.2.
Definition wire (pkts : list packet) : bytes := concat (frame <$> pkts).

Definition skipped (m : packet) : Prop := skips_empty k = true ∧ m.2 = [].

Definition held this : bytes := Slide.contents (read_buf this).
Definition writes this : LazyBuffer * nat * nat := (write_buf this, write_buf_len this, write_buf_sent this).

(** The first packet of [pkts] is not whole yet, or it is. *)
Definition waiting (h : bytes) (pkts : list packet) : Prop :=
  match pkts with [] => h = [] | m :: _ => length h < length (frame m) end.

Lemma held_cases h pkts :
  Forall ok pkts → h `prefix_of` wire pkts →
  (try_parse_packet k h = Ok None ∧ waiting h pkts) ∨
  (∃ m later rest, pkts = m :: later ∧ h = frame m ++ rest ∧ rest `prefix_of` wire later ∧
     try_parse_packet k h = Ok (Some (m.1, length (head m), length m.2))).
Proof.
  intros Hok Hp. destruct pkts as [|m later].
  { apply prefix_nil_inv in Hp as ->. left. split; [apply fr_nil | done]. }
  apply Forall_cons in Hok as [Hm _]. unfold wire in Hp. cbn [fmap list_fmap concat] in Hp. fold (wire later) in Hp.
  destruct (decide (length h < length (frame m))) as [Hlt|Hge].
  - left. split; [|done]. destruct Hp as [x Hx].
    assert (Hh : h = take (length h) (frame m)).
    { rewrite <- (take_app_length h x) at 1. rewrite <- Hx. by rewrite take_app_le by lia. }
    rewrite Hh. by apply fr_partial.
  - right. destruct Hp as [x Hx]. exists m, later, (drop (length (frame m)) h). split; [done|].
    assert (Hh : h = frame m ++ drop (length (frame m)) h).
    { rewrite <- (take_drop (length (frame m)) h) at 1. f_equal.
      rewrite <- (take_app_le h x) by lia. rewrite <- Hx. by rewrite take_app_length. }
    split; [done|]. split.
    + exists x. apply (app_inv_head (frame m)). by rewrite app_assoc, <- Hh.
    + rewrite Hh at 1. unfold frame. rewrite <- app_assoc. by apply fr_parse.
Qed.

Lemma read_loop_mono fuel room this p this' :
  read_loop debug junk k fuel room this = Some (p, this') →
  ∃ got, received (stream this') = received (stream this) ++ got ∧ accepted (stream this') = accepted (stream this) ∧
    writes this' = writes this.
Proof.
  revert this. induction fuel as [|fuel IH]; intros this; [done|]. cbn [read_loop].
  assert (Hself : ∀ q, Some (Ready (A := outcome packet) q, this) = Some (p, this') →
    ∃ got, received (stream this') = received (stream this) ++ got ∧ accepted (stream this') = accepted (stream this) ∧
    writes this' = writes this) by (intros q [= _ <-]; exists []; by rewrite app_nil_r).
  destruct (data ← _; _) as [[data [[[target start] len]|]]|e|]; [| |by apply Hself..].
  - destruct (_ && _); [|destruct (room <? len); [by apply Hself|]].
    + destruct (Slide.consume _ _ _); [|by apply Hself..]. intros Hr. by apply IH in Hr.
    + destruct (payload ← _; _) as [[payload b]| |]; [|by apply Hself..]. intros [= _ <-]. exists []. by rewrite app_nil_r.
  - destruct (Slide.maybe_compact _ _) as [b| |]; [|by apply Hself..].
    destruct (_ =? 0). { intros [= _ <-]. exists []. by rewrite app_nil_r. }
    destruct (Slide.write_slice junk b) as [[region put]| |]; [|by apply Hself..].
    destruct (poll_read (stream this) _) as [[[e|bs]|] s] eqn:Ep; pose proof (read_law _ _ _ _ Ep) as [Ha Hr].
    + intros [= _ <-]. exists []. by rewrite app_nil_r.
    + destruct Hr as [_ Hr]. destruct (length bs =? 0); [intros [= _ <-]; by exists bs|].
      destruct (Slide.advance_write _ _ _) as [b'| |]; [|intros [= _ <-]; by exists bs..].
      intros Hl. apply IH in Hl as (got & Hg & Ha' & Hw). cbn [stream set_read] in *. exists (bs ++ got).
      rewrite Hg, Hr, <- app_assoc. split; [done|]. by rewrite Ha'.
    + intros [= _ <-]. exists []. by rewrite app_nil_r.
Qed.

Definition THRESHOLD : nat := N.to_nat 4096.

Lemma maybe_compact_room b :
  Slide.wf b → ∃ b', Slide.maybe_compact b THRESHOLD = Ok b' ∧ Slide.wf b' ∧ Slide.contents b' = Slide.contents b ∧
    Slide.capacity b' = Slide.capacity b ∧
    (length (Slide.contents b) + THRESHOLD < Slide.capacity b → Slide.remaining_capacity b' ≠ 0).
Proof.
  intros Hwf. unfold Slide.maybe_compact. destruct (THRESHOLD <? Slide.start b) eqn:E; to_prop.
  - destruct (Slide.compact_spec b Hwf) as (b' & -> & Hwf' & Hc & Hcap & Hs). exists b'. split_and!; try done.
    pose proof (Slide.length_contents b' Hwf') as Hl. unfold Slide.len, Slide.remaining_capacity in *. rewrite Hc in Hl. lia.
  - exists b. split_and!; try done. pose proof (Slide.length_contents b Hwf) as Hl.
    destruct Hwf as (? & _). unfold Slide.len, Slide.remaining_capacity in *. lia.
Qed.

(** What a poll makes of the packets it found. *)
Definition gives (p : Poll (outcome packet)) (eof : bool) (found : list packet) : Prop :=
  Forall skipped found ∧ (∀ m, p = Ready (Ok m) → m = (NetLocation_UNSPECIFIED, []) ∧ eof = true) ∨
  ∃ before m, found = before ++ [m] ∧ Forall skipped before ∧ ¬ skipped m ∧ p = Ready (Ok m).

Lemma gives_skip p eof m found : skipped m → gives p eof found → gives p eof (m :: found).
Proof.
  intros Hm [[Hf He]|(before & m' & -> & Hb & Hm' & ->)]; [left; by split; [constructor|]|].
  right. exists (m :: before), m'. split_and!; try done. by constructor.
Qed.

(** A poll fails as its stream does, or for want of room in the caller's buffer. *)
Definition fails_for (room : nat) (later : list packet) (o : outcome packet) : Prop :=
  is_Ok o = true ∨ (∃ e (s : S) n s', o = Err e ∧ poll_read s n = (Ready (inl e), s')) ∨
  (o = too_small k ∧ ∃ m later', later = m :: later' ∧ room < length m.2).

Record read_post (cap room : nat) this (pkts : list packet) (got : bytes) (p : Poll (outcome packet)) this' : Prop := {
  po_wf : Slide.wf (read_buf this');
  po_cap : Slide.capacity (read_buf this') = cap;
  po_found : ∃ found later, pkts = found ++ later ∧ held this ++ got = wire found ++ held this' ∧
    gives p (is_eof this') found ∧
    (p = Pending ∨ is_eof this' = true → waiting (held this') later) ∧
    (∀ o, p = Ready o → fails_for room later o) }.

Lemma wire_cons m pkts : wire (m :: pkts) = frame m ++ wire pkts.
Proof. done. Qed.

Lemma read_post_skip cap room this this1 m pkts got p this' :
  skipped m → held this = frame m ++ held this1 → read_post cap room this1 pkts got p this' →
  read_post cap room this (m :: pkts) got p this'.
Proof.
  intros Hm Eh [Hw Hc (found & later & -> & Hg & Hgv & Hs & Hf)]. split; [done..|]. exists (m :: found), later.
  split; [done|]. split; [by rewrite Eh, wire_cons, <- !app_assoc, Hg|]. split; [by apply gives_skip | done].
Qed.

Lemma read_post_more cap room this this1 pkts bs got p this' :
  held this1 = held this ++ bs → read_post cap room this1 pkts got p this' → read_post cap room this pkts (bs ++ got) p this'.
Proof.
  intros Eh [Hw Hc (found & later & -> & Hg & Hgv & Hs & Hf)]. split; [done..|]. exists found, later.
  rewrite app_assoc, <- Eh. by split_and!.
Qed.

Lemma read_post_idle cap room this pkts p this' :
  Slide.wf (read_buf this') → Slide.capacity (read_buf this') = cap → held this' = held this →
  (∀ m, p = Ready (Ok m) → m = (NetLocation_UNSPECIFIED, []) ∧ is_eof this' = true) →
  (p = Pending ∨ is_eof this' = true → waiting (held this) pkts) → (∀ o, p = Ready o → fails_for room pkts o) →
  read_post cap room this pkts [] p this'.
Proof.
  intros Hw Hc Eh Hp Hs Hf. split; [done..|]. exists [], pkts. rewrite app_nil_r, Eh. split_and!; try done.
  left. split; [constructor | done].
Qed.

Lemma advance_zero b b' : Slide.advance_write debug b 0 = Ok b' → b' = b.
Proof.
  unfold Slide.advance_write, Slide.debug_assert. destruct (_ && _); [done|]. intros [= <-].
  destruct b. by rewrite Nat.add_0_r.
Qed.

Lemma write_slice_room b :
  Slide.wf b → ∃ region put, Slide.write_slice junk b = Ok (region, put) ∧ length region = Slide.remaining_capacity b ∧
    Slide.wf (put region) ∧ Slide.contents (put region) = Slide.contents b ∧ Slide.capacity (put region) = Slide.capacity b ∧
    ∀ bs, length bs ≤ length region → ∃ b', Slide.advance_write debug (put (bs ++ drop (length bs) region)) (length bs) = Ok b' ∧
      Slide.wf b' ∧ Slide.contents b' = Slide.contents b ++ bs ∧ Slide.capacity b' = Slide.capacity b.
Proof.
  intros Hwf. destruct (Slide.write_advance_spec debug junk b [] Hwf ltac:(simpl; lia)) as (region & put & b0 & Ew & Hl & Ea & Hw0 & Hc0 & Hp0).
  exists region, put. apply advance_zero in Ea. change ([] ++ drop (length (@nil Z)) region) with region in Ea. subst b0.
  rewrite app_nil_r in Hc0. split_and!; try done. intros bs Hb.
  destruct (Slide.write_advance_spec debug junk b bs Hwf ltac:(lia)) as (region' & put' & b' & Ew' & _ & Ea' & ?).
  rewrite Ew in Ew'. injection Ew' as <- <-. by exists b'.
Qed.

Definition fits_in (cap : nat) (m : packet) : Prop := length (frame m) + THRESHOLD ≤ cap.

Lemma read_loop_exact cap fuel room this p this' pkts got :
  THRESHOLD < cap → Slide.wf (read_buf this) → Slide.capacity (read_buf this) = cap → is_eof this = false →
  Forall ok pkts → Forall (fits_in cap) pkts → read_loop debug junk k fuel room this = Some (p, this') →
  received (stream this') = received (stream this) ++ got → held this ++ got `prefix_of` wire pkts →
  read_post cap room this pkts got p this'.
Proof.
  intros Hc0. revert this pkts got. induction fuel as [|fuel IH]; intros this pkts got Hwf Hcap Heof Hok Hfit Hr Hrec Hpre; [done|].
  cbn [read_loop] in Hr. rewrite Slide.as_slice_spec in Hr by done. cbn [mbind outcome_bind] in Hr.
  assert (Hheld : held this `prefix_of` wire pkts) by (etrans; [by apply prefix_app_r|done]).
  assert (Hnone : ∀ x, stream this' = x → received x = received (stream this) → got = []).
  { intros x Hx Hrx. rewrite Hx, Hrx in Hrec. rewrite <- (app_nil_r (received _)) in Hrec at 1. by apply app_inv_head in Hrec. }
  change (Slide.contents (read_buf this)) with (held this) in Hr.
  pose proof (Slide.length_contents (read_buf this) Hwf) as Hlen.
  destruct (held_cases (held this) pkts Hok Hheld) as [[Et Hw]|(m & later & rest & -> & Eh & Hrest & Et)]; rewrite Et in Hr;
    cbn [mbind outcome_bind] in Hr.
  - destruct (maybe_compact_room (read_buf this) Hwf) as (b & Em & Hwb & Hcb & Hcapb & Hroom).
    change (N.to_nat 4096) with THRESHOLD in Hr. rewrite Em in Hr.
    rewrite (proj2 (Nat.eqb_neq _ 0)) in Hr.
    2:{ apply Hroom. rewrite Hcap. fold (held this). destruct pkts as [|m pkts]; simpl in Hw; [rewrite Hw; simpl; lia|].
        apply Forall_cons in Hfit as [Hm _]. unfold fits_in in Hm. lia. }
    destruct (write_slice_room b Hwb) as (region & put & Ew & Hrl & Hwp & Hcp & Hpp & Hput). rewrite Ew in Hr.
    rewrite Hcb in Hcp, Hput. rewrite Hcapb, Hcap in Hpp, Hput.
    destruct (poll_read (stream this) (length region)) as [[[e|bs]|] s] eqn:Ep; pose proof (read_law _ _ _ _ Ep) as [Ha Hrd].
    + injection Hr as <- <-. rewrite (Hnone s eq_refl Hrd). apply read_post_idle; try done.
      intros o [= <-]. right. left. by exists e, (stream this), (length region), s.
    + destruct Hrd as [Hbl Hrd]. destruct (length bs =? 0) eqn:E0; to_prop.
      * destruct bs; [|done]. rewrite app_nil_r in Hrd. injection Hr as <- <-. rewrite (Hnone s eq_refl Hrd). cbn [app drop].
        apply read_post_idle; try done; [by intros m [= <-]|]. intros o [= <-]. by left.
      * destruct (Hput bs Hbl) as (b' & Ead' & Hwf' & Hc' & Hcap'). rewrite Ead' in Hr.
        destruct (read_loop_mono _ _ _ _ _ Hr) as (g & Hg & _). cbn [stream set_read] in Hg.
        rewrite Hrd, Hrec, <- app_assoc in Hg. apply app_inv_head in Hg as ->.
        apply (read_post_more cap room this (set_read this s b' (is_eof this))); [done|]. apply IH; try done.
        -- cbn [stream set_read]. by rewrite Hrec, Hrd, <- app_assoc.
        -- unfold held at 1. cbn [read_buf set_read]. by rewrite Hc', <- app_assoc.
    + injection Hr as <- <-. rewrite (Hnone s eq_refl Hrd). destruct (Slide.release_spec (put region) Hwp) as (? & Hcr & ?).
      apply read_post_idle; try done; [cbn [read_buf set_read]; congruence|unfold held; cbn [read_buf set_read]; congruence].
  - apply Forall_cons in Hok as [Hm Hok']. apply Forall_cons in Hfit as [Hfm Hfit'].
    assert (Hl : length (head m) + length m.2 ≤ Slide.len (read_buf this)).
    { rewrite <- Hlen. fold (held this). rewrite Eh. unfold frame. rewrite !length_app. lia. }
    destruct (Slide.consume_spec debug (read_buf this) _ Hwf Hl) as (b & Eb & Hwb & Hcb & Hcapb). rewrite Eb in Hr.
    fold (held this) in Hcb. rewrite Eh, drop_app_length' in Hcb by (unfold frame; by rewrite length_app).
    set (this1 := set_read this (stream this) b (is_eof this)) in Hr.
    assert (Eh1 : held this = frame m ++ held this1) by (rewrite Eh; unfold this1, held; cbn [read_buf set_read]; by rewrite Hcb).
    destruct (skips_empty k && (length m.2 =? 0)) eqn:Esk.
    + apply andb_true_iff in Esk as [Es El]. to_prop. apply (read_post_skip cap room this this1); [|done|].
      { split; [done|]. by apply length_zero_iff_nil. }
      apply IH; try done; [by rewrite <- Hcap|]. rewrite Eh1, wire_cons, <- app_assoc in Hpre. by apply prefix_app_inv in Hpre.
    + destruct (room <? length m.2) eqn:Er; to_prop.
      * injection Hr as <- <-. rewrite (Hnone _ eq_refl eq_refl). apply read_post_idle; try done.
        -- intros m' [= E]. pose proof fr_small as Hs. by rewrite E in Hs.
        -- intros [?|?]; [done|congruence].
        -- intros o [= <-]. right. right. split; [done|]. by exists m, later.
      * rewrite Eh in Hr. unfold frame in Hr. rewrite <- app_assoc in Hr.
        rewrite (slice_mid (head m) m.2 rest) in Hr by done. cbn [mbind outcome_bind] in Hr.
        injection Hr as <- <-. rewrite (Hnone (stream this) eq_refl eq_refl).
        split; [done|by rewrite <- Hcap|]. exists [m], later. split; [done|]. split.
        { rewrite app_nil_r, Eh1. unfold wire. cbn [fmap list_fmap concat]. by rewrite app_nil_r. }
        split; [|split].
        -- right. exists [], m. split; [done|]. split; [constructor|]. split; [|by destruct m].
           intros [Es El]. rewrite Es, El in Esk. by destruct Esk.
        -- intros [?|?]; [done|]. unfold this1 in *. simpl in *. congruence.
        -- intros o [= <-]. by left.
Qed.

(** Whatever the bytes are, a poll returns and keeps the buffer whole; it panics
    only where the stream lets the caller's buffer be too small. *)
Record safe_post (cap : nat) (p : Poll (outcome packet)) this' : Prop := {
  sp_wf : Slide.wf (read_buf this');
  sp_cap : Slide.capacity (read_buf this') = cap;
  sp_panic : is_panic p = true → too_small k = Panic }.

Lemma read_loop_safe `{!FiniteReads S} cap fuel room this :
  Slide.wf (read_buf this) → Slide.capacity (read_buf this) = cap →
  ready_reads (stream this) * Datatypes.S cap + length (held this) < fuel →
  ∃ p this', read_loop debug junk k fuel room this = Some (p, this') ∧ safe_post cap p this'.
Proof.
  revert this. induction fuel as [|fuel IH]; intros this Hwf Hcap Hf; [lia|]. cbn [read_loop].
  rewrite Slide.as_slice_spec by done. cbn [mbind outcome_bind]. change (Slide.contents (read_buf this)) with (held this).
  pose proof (Slide.length_contents (read_buf this) Hwf) as Hlen. fold (held this) in Hlen.
  destruct (try_parse_packet k (held this)) as [[[[target i] n]|]|e|] eqn:Et; cbn [mbind outcome_bind];
    [| |by eexists _, _|by apply fr_safe in Et].
  - apply fr_bound in Et as [Hi Hn]. destruct (Slide.consume_spec debug (read_buf this) (i + n) Hwf ltac:(lia)) as (b & -> & Hwb & Hcb & Hcapb).
    destruct (_ && _); [|destruct (room <? n)].
    + apply IH; [done|by rewrite <- Hcap|]. cbn [stream set_read]. unfold held at 1. cbn [read_buf set_read].
      rewrite Hcb, length_drop. fold (held this). lia.
    + eexists _, _. split; [done|]. split; try done. simpl. pose proof fr_small as Hs. by destruct (too_small k).
    + rewrite slice_Ok by lia. cbn [mbind outcome_bind]. eexists _, _. split; [done|]. split; try done. by rewrite <- Hcap.
  - destruct (maybe_compact_room (read_buf this) Hwf) as (b & Em & Hwb & Hcb & Hcapb & _).
    change (N.to_nat 4096) with THRESHOLD. rewrite Em. destruct (_ =? 0); [eexists _, _; split; [done|]; split; try done; by rewrite <- Hcap|].
    destruct (write_slice_room b Hwb) as (region & put & -> & Hrl & Hwp & Hcp & Hpp & Hput).
    destruct (poll_read (stream this) (length region)) as [[[e|bs]|] s] eqn:Ep; pose proof (read_law _ _ _ _ Ep) as [Ha Hrd].
    + eexists _, _. split; [done|]. split; try done. cbn [read_buf set_read]. congruence.
    + destruct Hrd as [Hbl Hrd]. destruct bs as [|x bs].
      { change ([] ++ drop (length (@nil Z)) region) with region. eexists _, _. split; [done|]. split; try done.
        cbn [read_buf set_read]. congruence. }
      cbn [Nat.eqb length]. destruct (Hput (x :: bs) Hbl) as (b' & Eb & Hwf' & Hc' & Hcap').
      change (Datatypes.S (length bs)) with (length (x :: bs)). rewrite Eb. pose proof (ready_reads_law _ _ _ _ _ Ep) as Hlt.
      apply IH; [done|cbn [read_buf set_read]; congruence|]. cbn [stream set_read].
      pose proof (Slide.length_contents b' Hwf') as Hl'. destruct Hwf' as (? & ? & Hdat).
      assert (Slide.end_ b' ≤ cap) by (destruct Hdat as [Hd|Hd]; [rewrite Hd in *; congruence || lia | rewrite Hd in *; simpl in *; lia]).
      unfold held at 1. cbn [read_buf set_read]. unfold Slide.len in Hl'. nia.
    + eexists _, _. split; [done|]. destruct (Slide.release_spec (put region) Hwp) as (? & Hcr & ?).
      split; try done. cbn [read_buf set_read]. congruence.
Qed.

Definition read_fuel `{!FiniteReads S} (cap : nat) : nat := Datatypes.S (ready_bound (S := S) * Datatypes.S cap + cap).

(** ** Writing *)
Definition unsent this : bytes := drop (write_buf_sent this) (take (write_buf_len this) (lazy_buf (write_buf this))).
Definition reads_of this : Slide.SlideBuffer * bool := (read_buf this, is_eof this).

Record writer_ok (cap : nat) this : Prop := {
  wo_size : lazy_size (write_buf this) = cap;
  wo_buf : length (lazy_buf (write_buf this)) = 0 ∨ length (lazy_buf (write_buf this)) = cap;
  wo_sent : write_buf_sent this ≤ write_buf_len this ≤ length (lazy_buf (write_buf this)) }.

Record write_post (cap : nat) this (p : Poll (outcome unit)) this' (ms : list packet) : Prop := {
  wp_ok : writer_ok cap this';
  wp_received : received (stream this') = received (stream this);
  wp_accepted : accepted (stream this') ++ unsent this' = accepted (stream this) ++ unsent this ++ wire ms;
  wp_reads : reads_of this' = reads_of this;
  wp_panic : is_panic p = false }.

Lemma pkt_release_spec w cap :
  lazy_size w = cap → lazy_size (release w) = cap ∧ length (lazy_buf (release w)) = 0.
Proof.
  intros <-. unfold release. destruct (length (lazy_buf w) =? 0) eqn:E; to_prop; [|done]. by split.
Qed.

Lemma poll_flush_pending_spec cap this p this' :
  writer_ok cap this → poll_flush_pending k this = (p, this') →
  write_post cap this p this' [] ∧ (p = Ready (Ok tt) → write_buf_len this' = 0 ∧ write_buf_sent this' = 0).
Proof.
  intros [Hsz Hb Hs]. unfold poll_flush_pending.
  destruct (pkt_release_spec (write_buf this) cap Hsz) as [Hz1 Hz2].
  destruct (write_buf_sent this <? write_buf_len this) eqn:E; to_prop.
  - rewrite slice_prefix by lia. set (f := take (write_buf_len this) (lazy_buf (write_buf this))).
    assert (Hlf : length f = write_buf_len this) by (unfold f; rewrite length_take; lia).
    destruct (drain _ f _ _) as [[pd sent] s] eqn:Ed. apply drain_spec in Ed as ((Hs1 & Hs2) & Hr & Ha & Hp & Hd); [|lia].
    assert (Hpost : ∀ q, is_panic q = false → write_post cap this q (set_write this s (write_buf this) (write_buf_len this) sent) []).
    { intros q Hq. split; try done; [split; simpl; lia || done|]. cbn. by rewrite app_nil_r. }
    destruct pd as [[[]|e|]|]; [|by intros [= <- <-]; split; [apply Hpost|]..]. intros [= <- <-]. split; [|done].
    split; try done; [split; simpl; [done|by left|lia]|].
    unfold unsent at 1. simpl. rewrite Hd, drop_all, app_nil_r in Ha by done. cbn. rewrite !app_nil_r. exact Ha.
  - unfold drain. cbn [length Nat.sub drain_loop Nat.ltb Nat.leb]. intros [= <- <-]. split; [|done].
    assert (Hu : unsent this = []) by (unfold unsent; rewrite drop_ge; [done|rewrite length_take; lia]).
    split; try done; [split; simpl; [done|by left|lia]|]. rewrite Hu. cbn. done.
Qed.

Lemma pkt_write_post_trans cap this p this1 q this' ms :
  write_post cap this p this1 [] → write_post cap this1 q this' ms → write_post cap this q this' ms.
Proof.
  intros [] []. split; try done; try congruence. rewrite wp_accepted1, app_assoc, wp_accepted0.
  cbn. by rewrite app_nil_r, <- app_assoc.
Qed.

Lemma pkt_poll_flush_message_spec cap this p this' :
  writer_ok cap this → poll_flush_message k this = (p, this') → write_post cap this p this' [].
Proof.
  intros Hok. unfold poll_flush_message. destruct (poll_flush_pending k this) as [pf this1] eqn:Ef.
  apply (poll_flush_pending_spec cap) in Ef as [Hp1 _]; [|done].
  destruct pf as [[[]|e|]|]; [|by intros [= <- <-]..].
  destruct (poll_flush (stream this1)) as [q s] eqn:Es. apply flush_law in Es as [Hr Ha]. intros [= <- <-].
  destruct Hp1 as [[]]. split; try done; simpl; [congruence| |by destruct q as [[]|]].
  unfold unsent in *. simpl. by rewrite Ha.
Qed.

Lemma pkt_poll_shutdown_message_spec cap this p this' :
  writer_ok cap this → poll_shutdown_message k this = (p, this') → write_post cap this p this' [].
Proof.
  intros Hok. unfold poll_shutdown_message. destruct (poll_flush_message k this) as [pf this1] eqn:Ef.
  apply (pkt_poll_flush_message_spec cap) in Ef as Hp1; [|done].
  destruct pf as [[[]|e|]|]; [|by intros [= <- <-]..].
  destruct (poll_shutdown (stream this1)) as [q s] eqn:Es. apply shutdown_law in Es as [Hr Ha]. intros [= <- <-].
  destruct Hp1 as [[]]. split; try done; simpl; [congruence| |by destruct q as [[]|]].
  unfold unsent in *. simpl. by rewrite Ha.
Qed.

(** [queue] puts the frame of [m] into an empty write buffer, or refuses it. *)
Definition queues (cap : nat) (queue : PacketStream S → outcome unit * PacketStream S) (m : packet) : Prop :=
  ∀ this o this', writer_ok cap this → write_buf_len this = 0 → write_buf_sent this = 0 → queue this = (o, this') →
    writer_ok cap this' ∧ stream this' = stream this ∧ reads_of this' = reads_of this ∧ o ≠ Panic ∧
    unsent this' = (if is_Ok o then frame m else []) ∧ (is_Ok o = true → ok m).

Definition queued_by (p : Poll (outcome unit)) (m : packet) : list packet :=
  match p with Ready (Ok _) => [m] | _ => [] end.

Lemma poll_write_with_spec cap queue m this p this' :
  queues cap queue m → writer_ok cap this → poll_write_with k queue this = (p, this') →
  write_post cap this p this' (queued_by p m) ∧ Forall ok (queued_by p m).
Proof.
  intros Hq Hok. unfold poll_write_with. destruct (poll_flush_pending k this) as [pf this1] eqn:Ef.
  apply (poll_flush_pending_spec cap) in Ef as [Hp1 Hz]; [|done].
  destruct pf as [[[]|e|]|]; [|by intros [= <- <-]; split; [|constructor]..].
  destruct (queue this1) as [o this2] eqn:Eq. intros [= <- <-]. destruct (Hz eq_refl) as [Hl Hs].
  destruct (Hq _ _ _ (wp_ok _ _ _ _ _ Hp1) Hl Hs Eq) as (Hw & Es & Er & Hnp & Hu & Hokm).
  assert (Hu1 : unsent this1 = []) by (unfold unsent; by rewrite Hl, Hs).
  split; [|destruct o as [[]| |]; simpl; [by apply Forall_singleton; apply Hokm | constructor | constructor]].
  eapply pkt_write_post_trans; [exact Hp1|]. split; try done; [congruence| |by destruct o].
  rewrite Es, Hu, Hu1. destruct o as [[]|e|]; [|done..]. cbn. by rewrite app_nil_r.
Qed.

(** ** Runs *)
Section runs.
Context {T : Type} (queue_of : T → PacketStream S → outcome unit * PacketStream S) (msg_of : T → packet).

Inductive op := Read (room : nat) | Send (x : T) | Flush | Shutdown.
Inductive reply := Got (m : packet) | Done.
Definition trace : Type := list (op * Poll (outcome reply)).

Definition perform (fuel : nat) this (o : op) : option (Poll (outcome reply) * PacketStream S) :=
  match o with
  | Read room => prod_map (poll_map Got) id <$> poll_read_packet debug junk k fuel room this
  | Send x => Some (prod_map (poll_map (λ _, Done)) id (poll_write_with k (queue_of x) this))
  | Flush => Some (prod_map (poll_map (λ _, Done)) id (poll_flush_message k this))
  | Shutdown => Some (prod_map (poll_map (λ _, Done)) id (poll_shutdown_message k this))
  end.

Fixpoint run (fuel : nat) this (ops : list op) : option (trace * PacketStream S) :=
  match ops with
  | [] => Some ([], this)
  | o :: ops =>
      match perform fuel this o with
      | Some (r, this) => prod_map (cons (o, r)) id <$> run fuel this ops
      | None => None
      end
  end.

(** The end of the stream is a packet from nowhere without bytes; a packet that
    looks like it is lost on the caller. *)
Definition eof_packet : packet := (NetLocation_UNSPECIFIED, []).
Definition visible (m : packet) : Prop := m ≠ eof_packet ∧ ¬ skipped m.

Definition delivered_by (x : op * Poll (outcome reply)) : list packet :=
  match x with
  | (_, Ready (Ok (Got m))) => if decide (m = eof_packet) then [] else [m]
  | _ => []
  end.
Definition sent_by (x : op * Poll (outcome reply)) : list packet :=
  match x with (Send y, Ready (Ok Done)) => [msg_of y] | _ => [] end.
Definition delivered (t : trace) : list packet := t ≫= delivered_by.
Definition sent_packets (t : trace) : list packet := t ≫= sent_by.

(** A read that failed, other than as its stream did or for want of room. *)
Definition fair (x : op * Poll (outcome reply)) : Prop :=
  match x with
  | (Read room, Ready (Err e)) =>
      (∃ (s : S) n s', poll_read s n = (Ready (inl e), s')) ∨ too_small k = Err e
  | (Read room, Ready Panic) => too_small k = Panic
  | (_, Ready Panic) => False
  | _ => True
  end.

(** The run ends in a read that parks, or has found the end. *)
Definition settled (t : trace) (eof : bool) : Prop := (∃ room, last t = Some (Read room, Pending)) ∨ eof = true.

#[global] Instance skipped_dec m : Decision (skipped m).
Proof. unfold skipped. apply _. Defined.
#[global] Instance visible_dec m : Decision (visible m).
Proof. unfold visible. apply _. Defined.

Lemma skipped_invisible l : Forall skipped l → filter visible l = [].
Proof. induction 1 as [|m l Hm _ IH]; [done|]. rewrite filter_cons_False; [done|]. by intros [_ ?]. Qed.

Lemma gives_delivered p eof found room :
  gives p eof found → delivered_by (Read room, poll_map Got p) = filter visible found.
Proof.
  intros [[Hf He]|(before & m & -> & Hb & Hm & ->)].
  - rewrite skipped_invisible by done. destruct p as [[m| |]|]; try done. destruct (He m eq_refl) as [-> _]. done.
  - rewrite filter_app, skipped_invisible by done. simpl. destruct (decide (m = eof_packet)) as [E|E].
    + rewrite filter_cons_False; [done|]. by intros [? _].
    + by rewrite filter_cons_True.
Qed.

Record reader_ok (cap : nat) this : Prop := {
  ro_wf : Slide.wf (read_buf this);
  ro_cap : Slide.capacity (read_buf this) = cap }.

(** A run reads [got], and finds [found] of the packets, with [later] to come. *)
Record run_post (cap : nat) this (found later : list packet) (got : bytes) (t : trace) this' : Prop := {
  rp_reader : reader_ok cap this';
  rp_bytes : held this ++ got = wire found ++ held this';
  rp_delivered : delivered t = filter visible found;
  rp_eof : is_eof this' = true → waiting (held this') later;
  rp_settled : settled t (is_eof this') → waiting (held this') later;
  rp_fair : Forall fair t }.

Record wrote (cap : nat) this (t : trace) this' : Prop := {
  wr_ok : writer_ok cap this';
  wr_received : ∃ got, received (stream this') = received (stream this) ++ got;
  wr_accepted : accepted (stream this') ++ unsent this' = accepted (stream this) ++ unsent this ++ wire (sent_packets t);
  wr_sent : Forall ok (sent_packets t) }.

Definition op_ok (cap : nat) (o : op) : Prop :=
  match o with Send x => queues cap (queue_of x) (msg_of x) | _ => True end.

Lemma poll_read_packet_mono fuel room this p this' :
  poll_read_packet debug junk k fuel room this = Some (p, this') →
  ∃ got, received (stream this') = received (stream this) ++ got ∧ accepted (stream this') = accepted (stream this) ∧
    writes this' = writes this.
Proof.
  unfold poll_read_packet. destruct (is_eof this); [|apply read_loop_mono]. intros [= _ <-]. exists []. by rewrite app_nil_r.
Qed.

Lemma wrote_post cap this p this' ms o r :
  write_post cap this p this' ms → sent_by (o, r) = ms → Forall ok ms → wrote cap this [(o, r)] this'.
Proof.
  intros [] <- Hok. split; try done.
  - exists []. by rewrite app_nil_r.
  - cbn. by rewrite app_nil_r.
  - cbn. by rewrite app_nil_r.
Qed.

Lemma perform_wrote cap fuel this o r this' :
  op_ok cap o → writer_ok cap this → perform fuel this o = Some (r, this') → wrote cap this [(o, r)] this'.
Proof.
  intros Ho Hw. destruct o as [room|x| |]; cbn [perform].
  - destruct (poll_read_packet _ _ _ _ _ _) as [[p this1]|] eqn:Er; [|done]. intros [= <- <-].
    apply poll_read_packet_mono in Er as (got & Hg & Ha & He). unfold writes in He. injection He as Ew El Es.
    destruct Hw. split.
    + by split; rewrite ?Ew, ?El, ?Es.
    + by exists got.
    + cbn. unfold unsent. rewrite Ew, El, Es, Ha, app_nil_r. done.
    + constructor.
  - destruct (poll_write_with _ _ _) as [p this1] eqn:Ew. intros [= <- <-].
    apply (poll_write_with_spec cap _ (msg_of x)) in Ew as [Hp Hf]; [|done..].
    apply (wrote_post cap this p this1 (queued_by p (msg_of x))); [done| |done]. by destruct p as [[[]|e|]|].
  - destruct (poll_flush_message k this) as [p this1] eqn:Ef. intros [= <- <-].
    apply (pkt_poll_flush_message_spec cap) in Ef; [|done]. by apply (wrote_post cap this p this1 []).
  - destruct (poll_shutdown_message k this) as [p this1] eqn:Ef. intros [= <- <-].
    apply (pkt_poll_shutdown_message_spec cap) in Ef; [|done]. by apply (wrote_post cap this p this1 []).
Qed.

Lemma wrote_nil cap this : writer_ok cap this → wrote cap this [] this.
Proof. intros Hw. split; try done; [exists []; by rewrite app_nil_r | cbn; by rewrite app_nil_r]. Qed.

Lemma wire_app xs ys : wire (xs ++ ys) = wire xs ++ wire ys.
Proof. unfold wire. by rewrite fmap_app, concat_app. Qed.

Lemma wrote_app cap this t this1 t' this' :
  wrote cap this t this1 → wrote cap this1 t' this' → wrote cap this (t ++ t') this'.
Proof.
  intros [? (g & Hg) Ha ?] [? (g' & Hg') Ha' ?]. split; try done.
  - exists (g ++ g'). by rewrite Hg', Hg, <- app_assoc.
  - unfold sent_packets in *. rewrite Ha', app_assoc, Ha, bind_app, wire_app. by rewrite <- !app_assoc.
  - unfold sent_packets in *. rewrite bind_app. by apply Forall_app.
Qed.

Lemma run_wrote cap fuel this ops t this' :
  Forall (op_ok cap) ops → writer_ok cap this → run fuel this ops = Some (t, this') → wrote cap this t this'.
Proof.
  intros Ho. revert this t. induction Ho as [|o ops Ho _ IH]; intros this t Hw; cbn [run].
  { intros [= <- <-]. by apply wrote_nil. }
  destruct (perform fuel this o) as [[r this1]|] eqn:Ep; [|done]. apply (perform_wrote cap) in Ep as H1; [|done..].
  destruct (run fuel this1 ops) as [[t1 this2]|] eqn:Er; [|done]. intros [= <- <-].
  apply (wrote_app cap this [(o, r)] this1); [done|]. apply IH; [by destruct H1 | done].
Qed.

Lemma reads_same this this' : reads_of this' = reads_of this → held this' = held this ∧ is_eof this' = is_eof this ∧
  ∀ cap, reader_ok cap this → reader_ok cap this'.
Proof.
  unfold reads_of, held. intros [= Eb Ee]. rewrite Eb. split_and!; try done. intros cap []. by split; rewrite Eb.
Qed.

(** An operation that does not read. *)
Lemma run_post_write cap this pkts p (q : list packet) o r this' got :
  write_post cap this p this' q → reader_ok cap this → (is_eof this = true → waiting (held this) pkts) →
  received (stream this') = received (stream this) ++ got → delivered_by (o, r) = [] → (∀ room, o ≠ Read room) →
  fair (o, r) → run_post cap this [] pkts got [(o, r)] this'.
Proof.
  intros [] Hr He Hg Hd Ho Hf. apply reads_same in wp_reads0 as (Eh & Ee & Hrd).
  assert (got = []) as ->. { rewrite wp_received0, <- (app_nil_r (received _)) in Hg at 1. by apply app_inv_head in Hg. }
  split; rewrite ?Eh, ?Ee; try done; [by apply Hrd | by rewrite app_nil_r | cbn; by rewrite app_nil_r | |by apply Forall_singleton].
  intros [[room [= ->]]|?]; [by destruct (Ho room) | auto].
Qed.

Lemma perform_exact cap fuel this o r this' pkts got :
  THRESHOLD < cap → op_ok cap o → reader_ok cap this → writer_ok cap this → (is_eof this = true → waiting (held this) pkts) →
  Forall ok pkts → Forall (fits_in cap) pkts → perform fuel this o = Some (r, this') →
  received (stream this') = received (stream this) ++ got → held this ++ got `prefix_of` wire pkts →
  ∃ found later, pkts = found ++ later ∧ run_post cap this found later got [(o, r)] this'.
Proof.
  intros Hc Ho Hr Hw He Hok Hfit Hp Hg Hpre. destruct o as [room|x| |]; cbn [perform] in Hp.
  - destruct (poll_read_packet _ _ _ _ _ _) as [[p this1]|] eqn:Er; [|done]. injection Hp as <- <-.
    unfold poll_read_packet in Er. destruct (is_eof this) eqn:Ee.
    + injection Er as <- <-. exists [], pkts. split; [done|].
      assert (got = []) as ->. { rewrite <- (app_nil_r (received _)) in Hg at 1. by apply app_inv_head in Hg. }
      split; rewrite ?app_nil_r; try done; try (intros _; by apply He). by apply Forall_singleton.
    + destruct Hr. apply (read_loop_exact cap _ _ _ _ _ pkts got) in Er as [? ? (found & later & -> & Hh & Hgv & Hs & Hf)]; try done.
      exists found, later. split; [done|]. split; try done; [|by auto|..].
      * change (delivered_by (Read room, poll_map Got p) ++ [] = filter visible found). rewrite app_nil_r.
        by apply (gives_delivered p (is_eof this1)).
      * intros [[room' [= <- Hp]]|?]; apply Hs; [left; by destruct p as [[| |]|] | by right].
      * apply Forall_singleton. destruct p as [[m|e|]|]; try done.
        -- destruct (Hf _ eq_refl) as [?|[(e' & s & n & s' & [= <-] & ?)|[Hts _]]]; [done| |by right]. left. by exists s, n, s'.
        -- destruct (Hf _ eq_refl) as [?|[(e' & s & n & s' & ? & ?)|[Hts _]]]; done.
  - destruct (poll_write_with _ _ _) as [p this1] eqn:Ew. injection Hp as <- <-.
    apply (poll_write_with_spec cap _ (msg_of x)) in Ew as [Hp _]; [|done..]. exists [], pkts. split; [done|].
    eapply run_post_write; try done; destruct p as [[[]|e|]|]; try done. by destruct Hp.
  - destruct (poll_flush_message k this) as [p this1] eqn:Ef. injection Hp as <- <-.
    apply (pkt_poll_flush_message_spec cap) in Ef as Hp; [|done]. exists [], pkts. split; [done|].
    eapply run_post_write; try done; destruct p as [[[]|e|]|]; try done. by destruct Hp.
  - destruct (poll_shutdown_message k this) as [p this1] eqn:Ef. injection Hp as <- <-.
    apply (pkt_poll_shutdown_message_spec cap) in Ef as Hp; [|done]. exists [], pkts. split; [done|].
    eapply run_post_write; try done; destruct p as [[[]|e|]|]; try done. by destruct Hp.
Qed.

Lemma pkt_run_post_app cap this f l got t this1 t' got' this' f' l' :
  run_post cap this f l got t this1 → run_post cap this1 f' l' got' t' this' → t' ≠ [] →
  run_post cap this (f ++ f') l' (got ++ got') (t ++ t') this'.
Proof.
  intros [? Hh Hd _ _ Hf] [? Hh' Hd' He Hs Hf'] Hne. split; try done.
  - by rewrite app_assoc, Hh, <- app_assoc, Hh', wire_app, <- app_assoc.
  - unfold delivered in *. by rewrite bind_app, Hd, Hd', filter_app.
  - intros [[room Hlast]|Heof]; apply Hs; [left; exists room|by right].
    rewrite last_app in Hlast. destruct (last t') eqn:E; [done|]. by apply last_None in E.
  - by apply Forall_app.
Qed.

Lemma run_nonempty fuel this o ops t this' : run fuel this (o :: ops) = Some (t, this') → t ≠ [].
Proof.
  cbn [run]. destruct (perform fuel this o) as [[r this1]|]; [|done]. by destruct (run fuel this1 ops) as [[]|]; intros; simplify_eq/=.
Qed.

Lemma run_exact cap fuel this ops t this' pkts got :
  THRESHOLD < cap → Forall (op_ok cap) ops → reader_ok cap this → writer_ok cap this →
  (is_eof this = true → waiting (held this) pkts) → Forall ok pkts → Forall (fits_in cap) pkts →
  run fuel this ops = Some (t, this') → received (stream this') = received (stream this) ++ got →
  held this ++ got `prefix_of` wire pkts →
  ops ≠ [] → ∃ found later, pkts = found ++ later ∧ run_post cap this found later got t this'.
Proof.
  intros Hc Ho. revert this t pkts got. induction Ho as [|o ops Ho Hos IH]; intros this t pkts got Hr Hw He Hok Hfit Hrun Hg Hpre Hne; [done|].
  cbn [run] in Hrun. destruct (perform fuel this o) as [[r this1]|] eqn:Ep; [|done].
  destruct (run fuel this1 ops) as [[t1 this2]|] eqn:Er; [|done]. injection Hrun as <- <-.
  pose proof (perform_wrote cap _ _ _ _ _ Ho Hw Ep) as [Hw1 (g1 & Hg1) _ _].
  pose proof (run_wrote cap _ _ _ _ _ Hos Hw1 Er) as [_ (g2 & Hg2) _ _].
  rewrite Hg2, Hg1, <- app_assoc in Hg. apply app_inv_head in Hg as <-. rewrite app_assoc in Hpre.
  destruct (perform_exact cap fuel this o r this1 pkts g1) as (f & l & -> & Hp); try done; [by eapply prefix_app_l|].
  destruct ops as [|o' ops].
  { injection Er as <- <-. exists f, l. split; [done|]. rewrite <- (app_nil_r (received _)) in Hg2 at 1. apply app_inv_head in Hg2 as <-.
    by rewrite app_nil_r. }
  pose proof Hp as [Hr1 Hb _ He1 _ _]. apply Forall_app in Hok as [_ Hok]. apply Forall_app in Hfit as [_ Hfit].
  rewrite Hb, wire_app, <- app_assoc in Hpre. apply prefix_app_inv in Hpre.
  destruct (IH this1 t1 l g2) as (f' & l' & -> & Hp'); try done. exists (f ++ f'), l'. split; [by rewrite app_assoc|].
  apply (pkt_run_post_app cap this f (f' ++ l') g1 [(o, r)] this1); try done. by eapply run_nonempty.
Qed.

Definition panicked (t : trace) : bool := existsb (λ '(_, p), is_panic p) t.

Lemma perform_safe `{!FiniteReads S} cap this o :
  op_ok cap o → reader_ok cap this → writer_ok cap this →
  ∃ r this', perform (read_fuel cap) this o = Some (r, this') ∧ reader_ok cap this' ∧
    (is_panic r = true → too_small k = Panic).
Proof.
  intros Ho [Hwf Hcap] Hw.
  assert (Hwrite : ∀ (p : Poll (outcome unit)) this' q, write_post cap this p this' q → reader_ok cap this' ∧
    (is_panic (poll_map (λ _, Done) p) = true → too_small k = Panic)).
  { intros p this' q []. apply reads_same in wp_reads0 as (_ & _ & Hrd). split; [by apply Hrd|]. by destruct p as [[| |]|]. }
  destruct o as [room|x| |]; cbn [perform].
  - unfold poll_read_packet. destruct (is_eof this); [by eexists _, _|].
    destruct (read_loop_safe cap (read_fuel cap) room this Hwf Hcap) as (p & this' & -> & []).
    { pose proof (ready_reads_bound (stream this)). pose proof (Slide.length_contents _ Hwf) as Hl. destruct Hwf as (? & ? & Hdat).
      unfold held, Slide.len, read_fuel in *. assert (Slide.end_ (read_buf this) ≤ cap); [|nia].
      destruct Hdat as [Hd|Hd]; rewrite Hd in *; simpl in *; lia. }
    eexists _, _. split; [done|]. split; [done|]. by destruct p as [[| |]|].
  - destruct (poll_write_with _ _ _) as [p this1] eqn:Ew. eexists _, _. split; [done|].
    apply (poll_write_with_spec cap _ (msg_of x)) in Ew as [Hp _]; [|done..]. by eapply Hwrite.
  - destruct (poll_flush_message k this) as [p this1] eqn:Ef. eexists _, _. split; [done|].
    apply (pkt_poll_flush_message_spec cap) in Ef; [|done]. by eapply Hwrite.
  - destruct (poll_shutdown_message k this) as [p this1] eqn:Ef. eexists _, _. split; [done|].
    apply (pkt_poll_shutdown_message_spec cap) in Ef; [|done]. by eapply Hwrite.
Qed.

Lemma run_safe `{!FiniteReads S} cap this ops :
  Forall (op_ok cap) ops → reader_ok cap this → writer_ok cap this →
  ∃ t this', run (read_fuel cap) this ops = Some (t, this') ∧ reader_ok cap this' ∧
    (panicked t = true → too_small k = Panic).
Proof.
  intros Ho. revert this. induction Ho as [|o ops Ho Hos IH]; intros this Hr Hw; cbn [run]; [by eexists _, _|].
  destruct (perform_safe cap this o Ho Hr Hw) as (r & this1 & Ep & Hr1 & Hp). rewrite Ep.
  pose proof (perform_wrote cap _ _ _ _ _ Ho Hw Ep) as [Hw1 _ _ _].
  destruct (IH this1 Hr1 Hw1) as (t & this' & -> & Hr' & Hp'). eexists _, _. split; [done|]. split; [done|].
  cbn. intros [?|?]%orb_true_iff; auto.
Qed.

End runs.

End facts.

(** ** Two ends *)
Section ends.
Context (debug : bool) (junk : nat → Z) (k : packet_kind) (head : packet → bytes) (ok : packet → Prop).
Context `{!Framing k head ok}.
Context {A B : Type} `{AsyncStream A, !StreamLaws A, AsyncStream B, !StreamLaws B}.
Context {T U : Type} (queue_a : T → PacketStream A → outcome unit * PacketStream A) (msg_a : T → packet).
Context (queue_b : U → PacketStream B → outcome unit * PacketStream B) (msg_b : U → packet).

Lemma filter_prefix (P : packet → Prop) `{∀ x, Decision (P x)} xs ys :
  filter P xs `prefix_of` filter P (xs ++ ys).
Proof. rewrite filter_app. by apply prefix_app_r. Qed.

(** What one end has sent is what the other end finds. *)
Lemma packets_link cap fuel (a0 : PacketStream A) (b0 : PacketStream B) ops_a ops_b ta tb a' b' sent got :
  THRESHOLD < cap → Forall (op_ok head ok queue_a msg_a cap) ops_a → Forall (op_ok head ok queue_b msg_b cap) ops_b →
  writer_ok cap a0 → unsent a0 = [] → reader_ok cap b0 → writer_ok cap b0 → is_eof b0 = false → ops_b ≠ [] →
  run debug junk k queue_a fuel a0 ops_a = Some (ta, a') → run debug junk k queue_b fuel b0 ops_b = Some (tb, b') →
  accepted (stream a') = accepted (stream a0) ++ sent → received (stream b') = received (stream b0) ++ got →
  held b0 ++ got `prefix_of` sent → Forall (fits_in head cap) (sent_packets msg_a ta) →
  delivered tb `prefix_of` filter (visible k) (sent_packets msg_a ta) ∧ Forall (fair k) tb ∧ reader_ok cap b' ∧
  (settled tb (is_eof b') → held b0 ++ got = sent → unsent a' = [] →
    delivered tb = filter (visible k) (sent_packets msg_a ta)).
Proof.
  intros Hc Hoa Hob Hwa Hua Hrb Hwb Heof Hne Hra Hrunb Hsent Hgot Hpre Hfit.
  pose proof (run_wrote debug junk k head ok queue_a msg_a cap _ _ _ _ _ Hoa Hwa Hra) as [_ _ Hacc Hsok].
  rewrite Hsent, Hua, <- app_assoc in Hacc. apply app_inv_head in Hacc. cbn [app] in Hacc.
  destruct (run_exact debug junk k head ok queue_b msg_b cap fuel b0 ops_b tb b' (sent_packets msg_a ta) got)
    as (found & later & Hpk & [Hr Hb Hd _ Hs Hf]); try done; [congruence| |].
  { rewrite <- Hacc. by apply prefix_app_r. }
  rewrite Hd, Hpk. split; [apply filter_prefix|]. split; [done|]. split; [done|].
  intros Hst Hall Hun. f_equal. rewrite Hall in Hb. rewrite Hun, app_nil_r in Hacc.
  assert (Hlast : wire head later = held b').
  { apply (app_inv_head (wire head found)). by rewrite <- wire_app, <- Hpk, <- Hacc. }
  specialize (Hs Hst). destruct later as [|m later]; [by rewrite app_nil_r|]. exfalso. simpl in Hs.
  rewrite <- Hlast, wire_cons, length_app in Hs. lia.
Qed.
End ends.

End Packets.
