(* ===== verification/PacketFacts.v ===== *)
(** * The packet streams of Trojan and of UDP-over-TCP

    The frames of the two streams of [Packets.v] and their properties. *)
From S2P Require Import Prelude Text Address SlideBuffer UotAddr Stream Messages SocksAddr Packets.
Import Net Addr Uot Stream Messages SocksAddr.

(** ** Trojan *)
Module TrojanFacts.
Import Packets Packets.Trojan.

Definition head (m : packet) : bytes := location_wire m.1 ++ be_encode 2 (Z.of_nat (length m.2)) ++ CRLF_BYTES.
Definition packet_ok (m : packet) : Prop := location_ok m.1 ∧ length m.2 ≤ TROJAN_MAX_UDP_PAYLOAD_LEN.

Lemma Address_from_safe s : Address_from s ≠ Panic.
Proof. unfold Address_from. by repeat case_match. Qed.

Lemma parse_packet_bound d t n :
  parse_trojan_packet_address d = Ok (Some (t, n)) → 0 < n ≤ length d.
Proof.
  unfold parse_trojan_packet_address. destruct d as [|a d]; [done|].
  destruct (_ =? _)%Z; [|destruct (_ =? _)%Z; [|destruct (_ =? _)%Z; [|done]]].
  - destruct (_ <? 7) eqn:E; [done|]. to_prop. rewrite !slice_Ok by lia. cbn [mbind outcome_bind]. intros [= _ <-]. lia.
  - destruct (_ <? 2); [done|]. destruct (index _ 1) as [l| |]; [|done..]. cbn [mbind outcome_bind].
    destruct (_ <? _) eqn:E; [done|]. to_prop. rewrite !slice_Ok by lia. cbn [mbind outcome_bind].
    destruct (utf8_valid _); [|done]. destruct (Address_from _); [|done..]. cbn [mbind outcome_bind]. intros [= _ <-]. lia.
  - destruct (_ <? 19) eqn:E; [done|]. to_prop. rewrite !slice_Ok by lia. cbn [mbind outcome_bind]. intros [= _ <-]. lia.
Qed.

Lemma parse_packet_safe d : parse_trojan_packet_address d ≠ Panic.
Proof.
  unfold parse_trojan_packet_address. destruct d as [|a d]; [done|].
  destruct (_ =? _)%Z; [|destruct (_ =? _)%Z; [|destruct (_ =? _)%Z; [|done]]].
  - destruct (_ <? 7) eqn:E; [done|]. to_prop. rewrite !slice_Ok by lia. done.
  - destruct d as [|l d]; [done|]. destruct (_ <? 2); [done|]. cbn [index lookup list_lookup expect mbind outcome_bind].
    unfold index. cbn [lookup list_lookup expect mbind outcome_bind].
    destruct (_ <? _) eqn:E; [done|]. to_prop. rewrite !slice_Ok by lia. cbn [mbind outcome_bind].
    destruct (utf8_valid _); [|done]. pose proof (Address_from_safe (take (2 + Z.to_nat l - 2) (drop 2 (a :: l :: d)))).
    by destruct (Address_from _).
  - destruct (_ <? 19) eqn:E; [done|]. to_prop. rewrite !slice_Ok by lia. done.
Qed.

Lemma payload_width (m : packet) : packet_ok m → in_width 16 (Z.of_nat (length m.2)).
Proof. intros [_ Hl]. unfold TROJAN_MAX_UDP_PAYLOAD_LEN in Hl. split; simpl; lia. Qed.

(** The fields behind an address of [n] bytes. *)
Lemma trojan_fields addr payload rest :
  in_width 16 (Z.of_nat (length payload)) →
  let data := addr ++ be_encode 2 (Z.of_nat (length payload)) ++ CRLF_BYTES ++ payload ++ rest in
  slice data (length addr) (length addr + 2) = Ok (be_encode 2 (Z.of_nat (length payload))) ∧
  slice data (length addr + 2) (length addr + 2 + 2) = Ok CRLF_BYTES ∧
  Z.to_nat (be_decode (be_encode 2 (Z.of_nat (length payload)))) = length payload.
Proof.
  intros Hw data. split; [|split].
  - apply (slice_mid addr (be_encode 2 _)); by rewrite ?length_be_encode.
  - unfold data. rewrite app_assoc. apply (slice_mid (addr ++ be_encode 2 _) CRLF_BYTES); by rewrite ?length_app, ?length_be_encode.
  - rewrite be_decode_encode_small by done. lia.
Qed.

Lemma trojan_parse (m : packet) rest :
  packet_ok m → try_parse_packet (head m ++ m.2 ++ rest) = Ok (Some (m.1, length (head m), length m.2)).
Proof.
  intros Hok. pose proof (payload_width m Hok) as Hw. unfold head, try_parse_packet. rewrite <- !app_assoc.
  rewrite parse_packet_wire by (by destruct Hok). cbn [mbind outcome_bind].
  destruct (trojan_fields (location_wire m.1) m.2 rest Hw) as (E1 & E2 & E3). set (data := _ ++ _) in *.
  assert (Hlen : length data = length (location_wire m.1) + 2 + 2 + length m.2 + length rest).
  { unfold data. rewrite !length_app, length_be_encode. simpl. lia. }
  change (length CRLF_BYTES) with 2. rewrite (proj2 (Nat.ltb_ge _ _)) by lia.
  rewrite E1. cbn [mbind outcome_bind]. rewrite E2. cbn [mbind outcome_bind]. rewrite bool_decide_true by done. cbn [negb].
  rewrite E3, (proj2 (Nat.ltb_ge _ _)) by lia. rewrite !length_app, length_be_encode. cbn [length CRLF_BYTES].
  by rewrite <- Nat.add_assoc.
Qed.

Lemma trojan_partial (m : packet) n :
  packet_ok m → n < length (head m ++ m.2) → try_parse_packet (take n (head m ++ m.2)) = Ok None.
Proof.
  intros Hok Hn. pose proof (payload_width m Hok) as Hw. unfold head, try_parse_packet in *. rewrite <- !app_assoc in *.
  set (addr := location_wire m.1) in *. destruct (decide (n < length addr)) as [Hlt|Hge].
  { rewrite take_app_le by lia. unfold addr in *. by rewrite parse_packet_partial by (done || by destruct Hok). }
  rewrite take_app_ge by lia. set (tl := take _ _).
  unfold addr. rewrite parse_packet_wire by (by destruct Hok). fold addr. cbn [mbind outcome_bind].
  change (length CRLF_BYTES) with 2. rewrite !length_app, length_be_encode in Hn. cbn [length CRLF_BYTES] in Hn.
  assert (Hlt : length tl = n - length addr).
  { unfold tl. rewrite length_take, !length_app, length_be_encode. simpl. lia. }
  destruct (_ <? _) eqn:E; to_prop; [done|]. rewrite length_app in E.
  destruct (trojan_fields addr m.2 [] Hw) as (E1 & E2 & E3). rewrite app_nil_r in E1, E2.
  assert (Hs : ∀ i j, i ≤ j ≤ n → slice (addr ++ tl) i j = slice (addr ++ be_encode 2 (Z.of_nat (length m.2)) ++ CRLF_BYTES ++ m.2) i j).
  { intros i j Hij. rewrite !slice_Ok by (rewrite ?length_app, ?length_be_encode; simpl; lia).
    f_equal. unfold tl. rewrite <- take_app_ge by lia. rewrite skipn_firstn_comm, take_take. f_equal. lia. }
  rewrite !Hs by lia. rewrite E1. cbn [mbind outcome_bind]. rewrite E2. cbn [mbind outcome_bind].
  rewrite bool_decide_true by done. cbn [negb]. rewrite E3. rewrite (proj2 (Nat.ltb_lt _ _)); [done|]. rewrite length_app. lia.
Qed.

Lemma trojan_bound d t i n : try_parse_packet d = Ok (Some (t, i, n)) → 0 < i ∧ i + n ≤ length d.
Proof.
  unfold try_parse_packet. destruct (parse_trojan_packet_address d) as [[[loc al]|]| |] eqn:E; cbn [mbind outcome_bind]; [|done..].
  apply parse_packet_bound in E. destruct (_ <? _) eqn:E1; [done|]. to_prop. change (length CRLF_BYTES) with 2 in *.
  rewrite !slice_Ok by lia. cbn [mbind outcome_bind]. destruct (negb _); [done|].
  destruct (_ <? _) eqn:E2; [done|]. to_prop. intros [= _ <- <-]. lia.
Qed.

Lemma trojan_safe d : try_parse_packet d ≠ Panic.
Proof.
  unfold try_parse_packet. pose proof (parse_packet_safe d) as Hs.
  destruct (parse_trojan_packet_address d) as [[[loc al]|]| |] eqn:E; cbn [mbind outcome_bind]; [|done..].
  apply parse_packet_bound in E. destruct (_ <? _) eqn:E1; [done|]. to_prop. change (length CRLF_BYTES) with 2 in *.
  rewrite !slice_Ok by lia. cbn [mbind outcome_bind]. destruct (negb _); [done|]. by destruct (_ <? _).
Qed.

#[global] Instance trojan_framing : Framing kind head packet_ok.
Proof.
  split; try done.
  - apply trojan_parse.
  - apply trojan_partial.
  - intros m Hm. unfold head. intros [Hl _]%app_nil. unfold location_wire in Hl. by destruct (address m.1).
  - apply trojan_bound.
  - apply trojan_safe.
Qed.

Lemma ensure_lazy junk w cap :
  lazy_size w = cap → length (lazy_buf w) = 0 ∨ length (lazy_buf w) = cap →
  lazy_size (ensure junk w) = cap ∧ length (lazy_buf (ensure junk w)) = cap.
Proof.
  intros <- Hb. unfold ensure. destruct (length (lazy_buf w) =? 0) eqn:E; to_prop; simpl.
  - by rewrite Slide.length_allocate.
  - split; [done | lia].
Qed.

(** A frame of [total] bytes in the write buffer. *)
Lemma queued_frame {S} (this : PacketStream S) mem f tl cap total sent :
  mem = f ++ tl → length f = total → length mem = cap → sent = 0 →
  let this' := set_write this (stream this) (mkLazy mem cap) total sent in
  writer_ok cap this' ∧ unsent this' = f.
Proof.
  intros -> Hf Hm -> this'. split.
  - split; simpl; [done|by right|]. rewrite length_app in *. lia.
  - unfold unsent, this'. cbn [write_buf_sent write_buf_len write_buf set_write lazy_buf]. rewrite drop_0. by apply take_app_length'.
Qed.

Lemma BUFFER_BOUND : 259 ≤ TROJAN_UDP_FRAME_BUFFER_SIZE.
Proof. unfold TROJAN_UDP_FRAME_BUFFER_SIZE, TROJAN_MAX_UDP_PAYLOAD_LEN. lia. Qed.

Lemma queue_packet_queues {S} `{AsyncStream S} junk buf target :
  location_ok target →
  queues head packet_ok TROJAN_UDP_FRAME_BUFFER_SIZE (queue_packet (S := S) junk buf target) (target, buf).
Proof.
  intros Ht this o this' [Hsz Hb Hs] Hl0 Hs0. pose proof BUFFER_BOUND as Hcap. set (cap := TROJAN_UDP_FRAME_BUFFER_SIZE) in *.
  unfold queue_packet. destruct (_ <? length buf) eqn:E0; to_prop.
  { intros [= <- <-]. split; [done|]. unfold unsent. by rewrite Hl0, Hs0. }
  destruct (ensure_lazy junk (write_buf this) cap Hsz Hb) as [Hesz Heb]. set (w := ensure junk (write_buf this)) in *.
  rewrite write_packet_wire by (done || lia). set (addr := location_wire target) in *.
  destruct (length_location_wire target Ht) as [_ Hal]. fold addr in Hal.
  change (length CRLF_BYTES) with 2. unfold capacity. rewrite Hesz.
  destruct (cap <? _) eqn:E1; to_prop.
  { intros [= <- <-]. cbn [stream set_write write_buf_len write_buf_sent]. split.
    - split; cbn [write_buf set_write lazy_buf lazy_size write_buf_len write_buf_sent]; [done| |lia].
      right. rewrite length_app, length_drop. lia.
    - split_and!; try done. unfold unsent. cbn [write_buf set_write lazy_buf write_buf_len write_buf_sent]. by rewrite Hl0, Hs0. }
  rewrite copy_at_next by (done || (rewrite length_drop, length_be_encode; lia)). cbn [mbind outcome_bind].
  rewrite copy_at_next by (rewrite ?length_app, ?length_drop, ?length_be_encode; simpl; lia). cbn [mbind outcome_bind].
  rewrite copy_at_next by (rewrite ?length_app, ?length_drop, ?length_be_encode; simpl; lia).
  set (tl := drop (length buf) _). intros [= <- <-].
  destruct (queued_frame this (((addr ++ be_encode 2 (Z.of_nat (length buf))) ++ CRLF_BYTES ++ buf) ++ tl)
    (frame head (target, buf)) tl cap (length addr + 2 + 2 + length buf) 0) as [Hw Hu]; try done.
  - unfold frame, head. cbn [fst snd]. by rewrite <- !app_assoc.
  - unfold frame, head. cbn [fst snd]. fold addr. rewrite !length_app, length_be_encode. simpl. lia.
  - unfold tl. rewrite !length_app, !length_drop, length_be_encode. simpl. lia.
  - rewrite <- !app_assoc in Hw, Hu |- *. cbn [stream set_write]. split_and!; try done.
Qed.

End TrojanFacts.

(** ** PacketAddr *)
Module PacketAddrFacts.
Import Packets Packets.PacketAddr.

Section codec.
Context (codec : atyps) (Hdistinct : distinct codec).

Definition addr_wire (location : NetLocation) : bytes :=
  match address location with
  | Ipv4 o => [ATYP_IPV4 codec] ++ o
  | Ipv6 o => [ATYP_IPV6 codec] ++ o
  | Hostname h => [ATYP_DOMAIN codec; Z.of_nat (length h)] ++ h
  end ++ be_encode 2 (port location).

Definition addr_ok (location : NetLocation) : Prop :=
  in_width 16 (port location) ∧
  match address location with
  | Ipv4 o => length o = 4
  | Ipv6 o => length o = 16
  | Hostname h => length h ≤ 255 ∧ utf8_valid h = true
  end.

Definition head (m : packet) : bytes := addr_wire m.1 ++ be_encode 2 (Z.of_nat (length m.2)).
Definition packet_ok (m : packet) : Prop := addr_ok m.1 ∧ length m.2 ≤ N.to_nat 65535.

Lemma parse_addr_wire location rest :
  addr_ok location →
  parse_packet_address codec (addr_wire location ++ rest) = Ok (Some (location, length (addr_wire location))).
Proof.
  destruct Hdistinct as (H1 & H2 & H3). intros [Hp Ha]. destruct location as [addr p]. cbn [address port] in *.
  unfold addr_wire. cbn [address port].
  assert (Hd : be_decode (be_encode 2 p) = p) by (by rewrite be_decode_encode_small).
  destruct addr as [o|o|h]; rewrite <- !app_assoc; cbn [app parse_packet_address].
  - rewrite Z.eqb_refl. destruct (fields_slices (ATYP_IPV4 codec) o (be_encode 2 p) rest) as [E1 E2].
    rewrite length_be_encode, <- app_assoc in *. rewrite Ha in *. cbn [Nat.add app] in *.
    rewrite (proj2 (Nat.ltb_ge _ _)) by (cbn [length]; rewrite !length_app, length_be_encode; lia).
    rewrite E1, E2. cbn [mbind outcome_bind length]. rewrite Hd, length_app, length_be_encode, Ha. done.
  - rewrite (proj2 (Z.eqb_neq _ _)), Z.eqb_refl by done.
    destruct (fields_slices (ATYP_IPV6 codec) o (be_encode 2 p) rest) as [E1 E2].
    rewrite length_be_encode, <- app_assoc in *. rewrite Ha in *. cbn [Nat.add app] in *.
    rewrite (proj2 (Nat.ltb_ge _ _)) by (cbn [length]; rewrite !length_app, length_be_encode; lia).
    rewrite E1, E2. cbn [mbind outcome_bind length]. rewrite Hd, length_app, length_be_encode, Ha. done.
  - rewrite (proj2 (Z.eqb_neq _ (ATYP_IPV4 codec))), (proj2 (Z.eqb_neq _ (ATYP_IPV6 codec))), Z.eqb_refl by done.
    destruct Ha as (Hl & Hu). set (data := ATYP_DOMAIN codec :: _).
    assert (Hlen : length data = 1 + 1 + length h + 2 + length rest).
    { unfold data. cbn [length]. rewrite !length_app, length_be_encode. lia. }
    rewrite Hlen, (proj2 (Nat.ltb_ge _ _)) by lia. cbn [index lookup list_lookup expect mbind outcome_bind data].
    rewrite Nat2Z.id, (proj2 (Nat.ltb_ge _ _)) by lia. fold data.
    assert (E1 : slice data 2 (2 + length h) = Ok h) by (apply (slice_mid [ATYP_DOMAIN codec; Z.of_nat (length h)]); done).
    assert (E2 : slice data (2 + length h) (4 + length h) = Ok (be_encode 2 p)).
    { unfold data. apply (slice_mid (ATYP_DOMAIN codec :: Z.of_nat (length h) :: h) (be_encode 2 p) rest); simpl; lia. }
    rewrite E1. cbn [mbind outcome_bind]. rewrite Hu, E2. cbn [mbind outcome_bind length].
    rewrite Hd, length_app, length_be_encode. done.
Qed.

Lemma parse_addr_partial location n :
  addr_ok location → n < length (addr_wire location) → parse_packet_address codec (take n (addr_wire location)) = Ok None.
Proof.
  destruct Hdistinct as (H1 & H2 & H3). intros [Hp Ha] Hn.
  assert (Hlen : length (take n (addr_wire location)) = n) by (rewrite length_take; lia).
  unfold addr_wire in *. destruct n as [|n]; [done|].
  destruct (address location) as [o|o|h]; rewrite !length_app, length_be_encode in Hn; cbn [length] in Hn;
    cbn [app take] in *; unfold parse_packet_address; rewrite Hlen.
  - rewrite Z.eqb_refl. by rewrite (proj2 (Nat.ltb_lt _ _)) by lia.
  - rewrite (proj2 (Z.eqb_neq _ _)), Z.eqb_refl by done. by rewrite (proj2 (Nat.ltb_lt _ _)) by lia.
  - rewrite (proj2 (Z.eqb_neq _ (ATYP_IPV4 codec))), (proj2 (Z.eqb_neq _ (ATYP_IPV6 codec))), Z.eqb_refl by done.
    destruct n as [|n]; [done|]. rewrite (proj2 (Nat.ltb_ge _ 2)) by lia.
    cbn [take]. unfold index. cbn [lookup list_lookup expect mbind outcome_bind].
    rewrite Nat2Z.id. by rewrite (proj2 (Nat.ltb_lt _ _)) by lia.
Qed.

Lemma parse_addr_bound d t n : parse_packet_address codec d = Ok (Some (t, n)) → 0 < n ≤ length d.
Proof.
  unfold parse_packet_address. destruct d as [|a d]; [done|].
  destruct (_ =? _)%Z; [|destruct (_ =? _)%Z; [|destruct (_ =? _)%Z; [|done]]].
  - destruct (_ <? 7) eqn:E; [done|]. to_prop. rewrite !slice_Ok by lia. cbn [mbind outcome_bind]. intros [= _ <-]. lia.
  - destruct (_ <? 19) eqn:E; [done|]. to_prop. rewrite !slice_Ok by lia. cbn [mbind outcome_bind]. intros [= _ <-]. lia.
  - destruct (_ <? 2); [done|]. destruct (index _ 1) as [l| |]; [|done..]. cbn [mbind outcome_bind].
    destruct (_ <? _) eqn:E; [done|]. to_prop. rewrite !slice_Ok by lia. cbn [mbind outcome_bind].
    destruct (utf8_valid _); [|done]. intros [= _ <-]. lia.
Qed.

Lemma parse_addr_safe d : parse_packet_address codec d ≠ Panic.
Proof.
  unfold parse_packet_address. destruct d as [|a d]; [done|].
  destruct (_ =? _)%Z; [|destruct (_ =? _)%Z; [|destruct (_ =? _)%Z; [|done]]].
  - destruct (_ <? 7) eqn:E; [done|]. to_prop. rewrite !slice_Ok by lia. done.
  - destruct (_ <? 19) eqn:E; [done|]. to_prop. rewrite !slice_Ok by lia. done.
  - destruct d as [|l d]; [done|]. destruct (_ <? 2); [done|]. unfold index. cbn [lookup list_lookup expect mbind outcome_bind].
    destruct (_ <? _) eqn:E; [done|]. to_prop. rewrite !slice_Ok by lia. cbn [mbind outcome_bind]. by destruct (utf8_valid _).
Qed.

Lemma width_of (m : packet) : packet_ok m → in_width 16 (Z.of_nat (length m.2)).
Proof. intros [_ Hl]. split; simpl; lia. Qed.

Lemma addr_parse (m : packet) rest :
  packet_ok m → addr_try_parse_packet codec (head m ++ m.2 ++ rest) = Ok (Some (m.1, length (head m), length m.2)).
Proof.
  intros Hok. pose proof (width_of m Hok) as Hw. unfold head, addr_try_parse_packet. rewrite <- !app_assoc.
  rewrite parse_addr_wire by (by destruct Hok). cbn [mbind outcome_bind]. set (addr := addr_wire m.1).
  set (data := addr ++ _). assert (Hlen : length data = length addr + 2 + length m.2 + length rest).
  { unfold data. rewrite !length_app, length_be_encode. lia. }
  rewrite (proj2 (Nat.ltb_ge _ _)) by lia.
  assert (E1 : slice data (length addr) (length addr + 2) = Ok (be_encode 2 (Z.of_nat (length m.2)))).
  { apply (slice_mid addr (be_encode 2 _)); by rewrite ?length_be_encode. }
  rewrite E1. cbn [mbind outcome_bind]. rewrite be_decode_encode_small, Nat2Z.id, (proj2 (Nat.ltb_ge _ _)) by (done || lia).
  by rewrite length_app, length_be_encode.
Qed.

Lemma addr_partial (m : packet) n :
  packet_ok m → n < length (head m ++ m.2) → addr_try_parse_packet codec (take n (head m ++ m.2)) = Ok None.
Proof.
  intros Hok Hn. pose proof (width_of m Hok) as Hw. unfold head, addr_try_parse_packet in *. rewrite <- !app_assoc in *.
  set (addr := addr_wire m.1) in *. destruct (decide (n < length addr)) as [Hlt|Hge].
  { rewrite take_app_le by lia. unfold addr in *. by rewrite parse_addr_partial by (done || by destruct Hok). }
  rewrite take_app_ge by lia. set (tl := take _ _).
  unfold addr. rewrite parse_addr_wire by (by destruct Hok). fold addr. cbn [mbind outcome_bind].
  rewrite !length_app, length_be_encode in Hn.
  assert (Hlt : length tl = n - length addr) by (unfold tl; rewrite length_take, !length_app, length_be_encode; lia).
  destruct (_ <? _) eqn:E; to_prop; [done|]. rewrite length_app in E.
  assert (E1 : slice (addr ++ tl) (length addr) (length addr + 2) = Ok (be_encode 2 (Z.of_nat (length m.2)))).
  { rewrite slice_Ok by (rewrite ?length_app; lia). f_equal. rewrite drop_app_length. unfold tl. rewrite take_take.
    apply take_app_length'. rewrite length_be_encode. lia. }
  rewrite E1. cbn [mbind outcome_bind]. rewrite be_decode_encode_small, Nat2Z.id by done.
  rewrite (proj2 (Nat.ltb_lt _ _)); [done|]. rewrite length_app. lia.
Qed.

Lemma addr_bound d t i n : addr_try_parse_packet codec d = Ok (Some (t, i, n)) → 0 < i ∧ i + n ≤ length d.
Proof.
  unfold addr_try_parse_packet. destruct (parse_packet_address codec d) as [[[loc al]|]| |] eqn:E; cbn [mbind outcome_bind]; [|done..].
  apply parse_addr_bound in E. destruct (_ <? _) eqn:E1; [done|]. to_prop.
  rewrite !slice_Ok by lia. cbn [mbind outcome_bind]. destruct (_ <? _) eqn:E2; [done|]. to_prop. intros [= _ <- <-]. lia.
Qed.

Lemma addr_safe d : addr_try_parse_packet codec d ≠ Panic.
Proof.
  unfold addr_try_parse_packet. pose proof (parse_addr_safe d) as Hs.
  destruct (parse_packet_address codec d) as [[[loc al]|]| |] eqn:E; cbn [mbind outcome_bind]; [|done..].
  apply parse_addr_bound in E. destruct (_ <? _) eqn:E1; [done|]. to_prop.
  rewrite !slice_Ok by lia. cbn [mbind outcome_bind]. by destruct (_ <? _).
Qed.

Lemma addr_framing : Framing (addr_kind codec) head packet_ok.
Proof.
  split; try done.
  - apply addr_parse.
  - apply addr_partial.
  - intros m Hm. unfold head. intros [Hl _]%app_nil. unfold addr_wire in Hl. by destruct (address m.1).
  - apply addr_bound.
  - apply addr_safe.
Qed.

Lemma addr_wire_socket source : addr_wire (location_of source) = address_wire codec source.
Proof. unfold addr_wire, address_wire, location_of. simpl. by destruct (sa_ip source). Qed.

Lemma queue_frame_queues {S} `{AsyncStream S} junk buf source :
  sockaddr_ok source →
  queues head packet_ok BUFFER_SIZE (queue_frame (S := S) junk codec buf source) (location_of source, buf).
Proof.
  intros Hs this o this' [Hsz Hb Hw] Hl0 Hs0. unfold queue_frame, capacity. rewrite Hsz. set (cap := BUFFER_SIZE).
  assert (Hcap : 19 ≤ cap) by (unfold cap, BUFFER_SIZE; lia).
  pose proof (length_address_wire codec source Hs) as Hal. rewrite <- Hal. set (addr := address_wire codec source) in *.
  destruct (cap <? _) eqn:E1; to_prop.
  { intros [= <- <-]. split; [done|]. unfold unsent. by rewrite Hl0, Hs0. }
  destruct (TrojanFacts.ensure_lazy junk (write_buf this) cap Hsz Hb) as [Hesz Heb]. set (w := ensure junk (write_buf this)) in *.
  rewrite write_wire by (done || lia). fold addr. cbn [mbind outcome_bind].
  rewrite copy_at_next by (done || (rewrite length_drop, length_be_encode; lia)). cbn [mbind outcome_bind].
  rewrite copy_at_next by (rewrite ?length_app, ?length_drop, ?length_be_encode; lia). cbn [mbind outcome_bind].
  set (tl := drop (length buf) _). rewrite Hs0, Hesz. intros [= <- <-].
  destruct (TrojanFacts.queued_frame this (((addr ++ be_encode 2 (Z.of_nat (length buf))) ++ buf) ++ tl)
    (frame head (location_of source, buf)) tl cap (length addr + 2 + length buf) 0) as [Hw' Hu]; try done.
  - unfold frame, head. cbn [fst snd]. by rewrite addr_wire_socket, <- !app_assoc.
  - unfold frame, head. cbn [fst snd]. rewrite addr_wire_socket. fold addr. rewrite !length_app, length_be_encode. lia.
  - unfold tl. rewrite !length_app, !length_drop, length_be_encode. lia.
  - split_and!; try done. intros _. split; [|simpl; unfold cap, BUFFER_SIZE in *; lia]. destruct Hs as [Hip Hp].
    split; [done|]. unfold location_of. simpl. by destruct (sa_ip source), Hip.
Qed.

End codec.
End PacketAddrFacts.

(** ** Properties *)
Module PacketLinks.
Import Packets.

(** The operations of a Trojan stream: [queue_packet] of a target and a payload. *)
Definition trojan_send {S} (junk : nat → Z) (m : packet) : PacketStream S → outcome unit * PacketStream S :=
  Trojan.queue_packet junk m.2 m.1.
Definition trojan_op_ok (o : op (T := packet)) : Prop := match o with Send m => location_ok m.1 | _ => True end.

(** The operations of a packet-address stream: a source and a payload. *)
Definition addr_send {S} (junk : nat → Z) (codec : atyps) (x : SocketAddr * bytes)
    : PacketStream S → outcome unit * PacketStream S := PacketAddr.queue_frame junk codec x.2 x.1.
Definition addr_op_ok (o : op (T := SocketAddr * bytes)) : Prop :=
  match o with Send x => sockaddr_ok x.1 | _ => True end.
Definition addr_msg (x : SocketAddr * bytes) : packet := (location_of x.1, x.2).

Lemma new_inner_ok {S} (s : S) cap :
  reader_ok cap (new_inner s cap) ∧ writer_ok cap (new_inner s cap) ∧ unsent (new_inner s cap) = [] ∧ held (new_inner s cap) = [].
Proof.
  destruct (Slide.wf_new cap) as [Hw Hc]. split; [by split|]. split; [|done]. split; simpl; [done|by left|lia].
Qed.

Lemma trojan_ops {S} `{AsyncStream S} junk ops :
  Forall trojan_op_ok ops →
  Forall (op_ok TrojanFacts.head TrojanFacts.packet_ok (trojan_send (S := S) junk) id Trojan.TROJAN_UDP_FRAME_BUFFER_SIZE) ops.
Proof.
  intros Hops. eapply Forall_impl; [exact Hops|]. intros [room|[t buf]| |]; simpl; try done.
  apply TrojanFacts.queue_packet_queues.
Qed.

Lemma addr_ops {S} `{AsyncStream S} junk codec ops :
  distinct codec → Forall addr_op_ok ops →
  Forall (op_ok (PacketAddrFacts.head codec) PacketAddrFacts.packet_ok (addr_send (S := S) junk codec) addr_msg
    PacketAddr.BUFFER_SIZE) ops.
Proof.
  intros Hd Hops. eapply Forall_impl; [exact Hops|]. intros [room|[src buf]| |]; simpl; try done.
  by apply PacketAddrFacts.queue_frame_queues.
Qed.

Lemma trojan_feed {S} debug junk fed (s : S) b0 :
  Trojan.feed_initial_data debug junk fed (Trojan.new s) = Ok b0 →
  let p := Trojan.packets b0 in
  reader_ok Trojan.TROJAN_UDP_FRAME_BUFFER_SIZE p ∧ writer_ok Trojan.TROJAN_UDP_FRAME_BUFFER_SIZE p ∧
  held p = fed ∧ stream p = s ∧ is_eof p = false.
Proof.
  unfold Trojan.feed_initial_data, Trojan.new. set (cap := Trojan.TROJAN_UDP_FRAME_BUFFER_SIZE). clearbody cap. cbn [Trojan.packets].
  destruct (new_inner_ok s cap) as ([Hwf Hcap] & Hw & _ & Hh). destruct (_ <? _) eqn:E; [done|]. to_prop.
  destruct (Slide.extend_spec debug junk _ fed Hwf E) as (b & -> & Hwb & Hcb & Hcapb). intros [= <-].
  cbn [Trojan.packets mbind outcome_bind]. split; [split; [done | by rewrite <- Hcap]|]. split; [by destruct Hw|].
  split; [|done]. unfold held in *. cbn [read_buf set_read]. rewrite Hcb, Hh. done.
Qed.


(** The same of UDP-over-TCP and h2mux, whose packets carry an address of
    their own format. *)
Theorem packet_addr_datagrams_are_exact {A B} `{AsyncStream A, !StreamLaws A, AsyncStream B, !StreamLaws B}
    debug junk codec fuel (a : A) (b : B) ops_a ops_b ta tb a' b' sent got :
  distinct codec →
  run debug junk (PacketAddr.addr_kind codec) (addr_send junk codec) fuel (PacketAddr.new_with_codec a) ops_a = Some (ta, a') →
  run debug junk (PacketAddr.addr_kind codec) (addr_send junk codec) fuel (PacketAddr.new_with_codec b) ops_b = Some (tb, b') →
  ops_b ≠ [] → Forall addr_op_ok ops_a → Forall addr_op_ok ops_b →
  accepted (stream a') = accepted a ++ sent → received (stream b') = received b ++ got → got `prefix_of` sent →
  Forall (fits_in (PacketAddrFacts.head codec) PacketAddr.BUFFER_SIZE) (sent_packets addr_msg ta) →
  delivered tb `prefix_of` filter (visible (PacketAddr.addr_kind codec)) (sent_packets addr_msg ta) ∧
  (settled tb (is_eof b') → got = sent → unsent a' = [] →
    delivered tb = filter (visible (PacketAddr.addr_kind codec)) (sent_packets addr_msg ta)).
Proof.
  intros Hd Hra Hrb Hne Hoa Hob Hs Hg Hpre Hfit. pose proof (PacketAddrFacts.addr_framing codec Hd) as Hfr.
  destruct (new_inner_ok a PacketAddr.BUFFER_SIZE) as (_ & Hwa & Hua & _).
  destruct (new_inner_ok b PacketAddr.BUFFER_SIZE) as (Hrd & Hwb & _ & Hh).
  destruct (packets_link debug junk (PacketAddr.addr_kind codec) (PacketAddrFacts.head codec) PacketAddrFacts.packet_ok
    (addr_send junk codec) addr_msg (addr_send junk codec) addr_msg
    PacketAddr.BUFFER_SIZE fuel (PacketAddr.new_with_codec a) (PacketAddr.new_with_codec b) ops_a ops_b ta tb a' b' sent got) as (H1' & H2' & _ & H4'); try done.
  - unfold THRESHOLD, PacketAddr.BUFFER_SIZE. lia.
  - by apply addr_ops.
  - by apply addr_ops.
Qed.

(** No bytes a peer sends make a packet stream of Trojan panic, run on for
    ever or break its buffer: every run returns, whatever the transport delivers. *)
Theorem trojan_stream_is_safe {S} `{AsyncStream S, !StreamLaws S, !FiniteReads S} debug junk (s : S) ops :
  Forall trojan_op_ok ops →
  ∃ t this', run debug junk Trojan.kind (trojan_send junk) (read_fuel (S := S) Trojan.TROJAN_UDP_FRAME_BUFFER_SIZE)
    (Trojan.packets (Trojan.new s)) ops = Some (t, this') ∧
    panicked t = false ∧ Slide.wf (read_buf this').
Proof.
  intros Hops. destruct (new_inner_ok s Trojan.TROJAN_UDP_FRAME_BUFFER_SIZE) as (Hr & Hw & _).
  destruct (run_safe debug junk Trojan.kind TrojanFacts.head TrojanFacts.packet_ok (trojan_send junk) id
    Trojan.TROJAN_UDP_FRAME_BUFFER_SIZE _ ops (trojan_ops junk ops Hops) Hr Hw) as (t & this' & Hrun & Hr' & Hp).
  exists t, this'. split; [done|]. split; [|by destruct Hr']. destruct (panicked t); [by specialize (Hp eq_refl) | done].
Qed.

(** ** Examples *)
Definition target_v4 : NetLocation := mkNetLocation (Ipv4 [10; 0; 0; 1]%Z) 53.
Definition target_name : NetLocation := mkNetLocation (Hostname (B "dns.example")) 53.
Definition zeros (_ : nat) : Z := 0%Z.

Lemma targets_ok : location_ok target_v4 ∧ location_ok target_name.
Proof. split; (split; [by split | by vm_compute; repeat split; lia]). Qed.

Definition demo_sends : list (op (T := packet)) :=
  [Send (target_v4, B "hi"); Send (target_v4, []); Send (target_name, B "there"); Flush].
Definition demo_wire : bytes := wire TrojanFacts.head [(target_v4, B "hi"); (target_v4, []); (target_name, B "there")].
Definition demo_receiver : script := mkScript (drop 5 demo_wire) true true 7 [] [].

(** The results of the example runs are read off through projections: the
    buffers they hold are large. *)
Definition ended {A B} (d : A * B) (r : option (A * B)) : A * B := default d r.
Definition given {A} (d : A) (r : outcome A) : A := match r with Ok a => a | _ => d end.

Definition ends {A} (r : option A) : bool := if r is Some _ then true else false.

Lemma ended_eq {A B} (d : A * B) r : ends r = true → r = Some ((ended d r).1, (ended d r).2).
Proof. by destruct r as [[]|]. Qed.

Lemma given_eq {A} (d : A) r : is_Ok r = true → r = Ok (given d r).
Proof. by destruct r. Qed.

Definition demo_tx := Trojan.packets (Trojan.new_fixed_target (script_of "" true 100) target_v4).
Definition demo_rx0 := Trojan.feed_initial_data true zeros (take 5 demo_wire) (Trojan.new demo_receiver).
Definition demo_rx := given (Trojan.new demo_receiver) demo_rx0.
Local Notation demo_run := (run true zeros Trojan.kind (trojan_send zeros) 20).
Definition demo_end (this : PacketStream script) ops : trace (T := packet) * PacketStream script :=
  ended ([], this) (demo_run this ops).
Definition demo_reads : list (op (T := packet)) := replicate 10 (Read 100).
Definition demo_a := demo_end demo_tx demo_sends.
Definition demo_b := demo_end (Trojan.packets demo_rx) demo_reads.

Lemma demo_ends :
  is_Ok demo_rx0 && ends (demo_run demo_tx demo_sends) && ends (demo_run (Trojan.packets demo_rx) demo_reads) = true.
Proof. vm_compute. reflexivity. Qed.

Lemma demo_fed : demo_rx0 = Ok demo_rx.
Proof. unfold demo_rx. apply given_eq. pose proof demo_ends. by destruct (is_Ok demo_rx0). Qed.

Lemma demo_sent : demo_run demo_tx demo_sends = Some (demo_a.1, demo_a.2).
Proof.
  unfold demo_a, demo_end. apply ended_eq. pose proof demo_ends as H.
  apply andb_true_iff in H as [H _]. by apply andb_true_iff in H as [_ H].
Qed.

Lemma demo_read : demo_run (Trojan.packets demo_rx) demo_reads = Some (demo_b.1, demo_b.2).
Proof. unfold demo_b, demo_end. apply ended_eq. pose proof demo_ends as H. by apply andb_true_iff in H as [_ H]. Qed.

Lemma demo_carried :
  accepted (stream demo_a.2) = accepted (script_of "" true 100) ++ demo_wire ∧
  received (stream demo_b.2) = received demo_receiver ++ drop 5 demo_wire.
Proof. split; vm_compute; reflexivity. Qed.

Definition demo_resolver : SocketAddr := mkSocketAddr (V4 [10; 0; 0; 1]%Z) 53.
Definition addr_sends : list (op (T := SocketAddr * bytes)) :=
  [Send (demo_resolver, B "hi"); Send (demo_resolver, []); Flush].
Definition addr_wire_sent : bytes :=
  wire (PacketAddrFacts.head uot_atyps) [(location_of demo_resolver, B "hi"); (location_of demo_resolver, [])].
Definition addr_reads : list (op (T := SocketAddr * bytes)) := replicate 8 (Read 100).
Local Notation addr_run := (run true zeros (PacketAddr.addr_kind uot_atyps) (addr_send zeros uot_atyps) 20).
Definition addr_end (s : script) ops : trace (T := SocketAddr * bytes) * PacketStream script :=
  ended ([], PacketAddr.new_with_codec s) (addr_run (PacketAddr.new_with_codec s) ops).
Definition addr_tx : script := script_of "" true 100.
Definition addr_rx : script := mkScript addr_wire_sent true true 4 [] [].
Definition addr_a := addr_end addr_tx addr_sends.
Definition addr_b := addr_end addr_rx addr_reads.

Lemma addr_ran :
  addr_run (PacketAddr.new_with_codec addr_tx) addr_sends = Some (addr_a.1, addr_a.2) ∧
  addr_run (PacketAddr.new_with_codec addr_rx) addr_reads = Some (addr_b.1, addr_b.2).
Proof.
  assert (H : ends (addr_run (PacketAddr.new_with_codec addr_tx) addr_sends) = true ∧
    ends (addr_run (PacketAddr.new_with_codec addr_rx) addr_reads) = true) by (split; vm_compute; reflexivity).
  destruct H. unfold addr_a, addr_b, addr_end. split; by apply ended_eq.
Qed.

Lemma addr_carried :
  accepted (stream addr_a.2) = accepted addr_tx ++ addr_wire_sent ∧
  received (stream addr_b.2) = received addr_rx ++ addr_wire_sent.
Proof. split; vm_compute; reflexivity. Qed.

(** An empty datagram is delivered here. *)
Lemma packet_addr_datagrams_are_exact_witness :
  delivered addr_b.1 = [(location_of demo_resolver, B "hi"); (location_of demo_resolver, [])] ∧
  delivered addr_b.1 `prefix_of` filter (visible (PacketAddr.addr_kind uot_atyps)) (sent_packets addr_msg addr_a.1) ∧
  (settled addr_b.1 (is_eof addr_b.2) → addr_wire_sent = addr_wire_sent → unsent addr_a.2 = [] →
    delivered addr_b.1 = filter (visible (PacketAddr.addr_kind uot_atyps)) (sent_packets addr_msg addr_a.1)).
Proof.
  split; [vm_compute; reflexivity|].
  assert (Hsent : sent_packets addr_msg addr_a.1 = [(location_of demo_resolver, B "hi"); (location_of demo_resolver, [])])
    by (vm_compute; reflexivity).
  apply (packet_addr_datagrams_are_exact true zeros uot_atyps 20 addr_tx addr_rx addr_sends addr_reads
    addr_a.1 addr_b.1 addr_a.2 addr_b.2 addr_wire_sent addr_wire_sent).
  - exact uot_distinct.
  - exact (proj1 addr_ran).
  - exact (proj2 addr_ran).
  - discriminate.
  - repeat constructor; vm_compute; congruence.
  - repeat constructor.
  - exact (proj1 addr_carried).
  - exact (proj2 addr_carried).
  - reflexivity.
  - rewrite Hsent. repeat (apply Forall_cons; split; [by apply Nat.leb_le; vm_compute|]). by apply Forall_nil.
Defined.

Lemma trojan_stream_is_safe_witness :
  ∃ t this', run true zeros Trojan.kind (trojan_send zeros) (read_fuel (S := script) Trojan.TROJAN_UDP_FRAME_BUFFER_SIZE)
    (Trojan.packets (Trojan.new (mkScript [9; 9; 9]%Z true true 2 [] []))) [Read 10; Send (target_v4, B "x"); Flush; Read 0] = Some (t, this') ∧
    panicked t = false ∧ Slide.wf (read_buf this').
Proof. apply trojan_stream_is_safe. repeat constructor; apply targets_ok. Defined.

(** ** Frames that fit the buffer and are refused *)

(** A datagram of the largest size, whose frame fits the read buffer, is refused
    when it follows a small one that has been read: the buffer is compacted only
    once [THRESHOLD] bytes have been consumed. *)
Definition small_packet : packet := (target_v4, replicate 300 0%Z).
Definition large_packet : packet := (target_v4, replicate (N.to_nat 65535) 0%Z).
Definition large_receiver : script :=
  mkScript (wire TrojanFacts.head [small_packet; large_packet]) true true (N.to_nat 70000) [] [].
Definition large_trace : trace (T := packet) :=
  (ended ([], new_inner large_receiver 0)
    (demo_run (Trojan.packets (Trojan.new large_receiver)) [Read (N.to_nat 65535); Read (N.to_nat 65535)])).1.

Theorem large_datagram_is_refused :
  length (frame TrojanFacts.head large_packet) ≤ Trojan.TROJAN_UDP_FRAME_BUFFER_SIZE ∧
  delivered large_trace = [small_packet] ∧
  snd <$> last large_trace = Some (Ready (err Other "Trojan UDP read buffer full but no complete packet")).
Proof. split; [by apply Nat.leb_le; vm_compute|]. split; vm_compute; reflexivity. Qed.

(** The frame of a datagram of the largest size to a name of 255 bytes does not
    fit the write buffer: [TROJAN_MAX_SOCKS_ADDR_LEN] lacks the byte of its length. *)
Definition longest_name : NetLocation := mkNetLocation (Hostname (replicate 255 97%Z)) 53.

Theorem largest_frame_is_refused :
  length (SocksAddr.location_wire longest_name) = S Trojan.TROJAN_MAX_SOCKS_ADDR_LEN ∧
  (Trojan.queue_packet zeros (replicate (N.to_nat 65535) 0%Z) longest_name
    (Trojan.packets (Trojan.new large_receiver))).1 = err InvalidInput "Trojan UDP frame too large".
Proof. split; vm_compute; reflexivity. Qed.

End PacketLinks.
