(* ===== verification/Resolver.v ===== *)
(** * Caches of resolved names ([src/resolver.rs])

    [ResolverCache], the cache a UDP stream keeps of the names its peer sends,
    polled while lookups are under way; and [CachingNativeResolver], the cache
    of the process, split into shards with a lock each.  Both evict under
    [evict_for_insert].

    Time is an instant of the monotonic clock in nanoseconds, read once by a
    poll; what a lookup that is under way answers when it is polled is an input
    of the poll ([dns]), and so is the order in which a hash map is walked
    ([HashOrder]).

    Shown: an address is answered only for the name it was resolved for, and
    only within the time to live; lookups under way and entries stay within
    their bounds, entries with one exception: those of a single instant are
    never evicted. *)
From S2P Require Import Prelude Text Address Stream.
Import Net Addr.
Local Open Scope Z_scope.

Module Resolver.
Import Stream.

#[global] Instance Address_countable : Countable Address.
Proof.
  refine (inj_countable'
    (λ a, match a with Ipv4 o => inl (inl o) | Ipv6 o => inl (inr o) | Hostname h => inr h end)
    (λ s, match s with inl (inl o) => Ipv4 o | inl (inr o) => Ipv6 o | inr h => Hostname h end) _).
  by intros [].
Defined.
#[global] Instance NetLocation_countable : Countable NetLocation.
Proof. by refine (inj_countable' (λ l, (address l, port l)) (λ p, mkNetLocation p.1 p.2) _); intros []. Defined.

(** The order in which a hash map is walked. *)
Class HashOrder := {
  iter {A} : gmap NetLocation A → list (NetLocation * A);
  iter_perm {A} (m : gmap NetLocation A) : iter m ≡ₚ map_to_list m }.

#[export] Instance in_key_order : HashOrder := {| iter _ := map_to_list; iter_perm _ _ := reflexivity _ |}.

Record CachedResolveResult := mkCached { timestamp : Z; addr : SocketAddr }.
Notation table := (gmap NetLocation CachedResolveResult).

Definition from_secs (secs : Z) : Z := secs * 1000000000.
(** [Instant::duration_since] saturates. *)
Definition duration_since (now earlier : Z) : Z := Z.max 0 (now - earlier).

Section ops.
Context `{HashOrder}.

(** ** Eviction *)
Definition older (best : option NetLocation * Z) (e : NetLocation * CachedResolveResult) : option NetLocation * Z :=
  if timestamp e.2 <? best.2 then (Some e.1, timestamp e.2) else best.

(** The loop removes an entry each time round. *)
Fixpoint evict_loop (fuel : nat) (now : Z) (max_entries : nat) (cache : table) : table :=
  match fuel with
  | O => cache
  | S fuel =>
      if (size cache <? max_entries)%nat then cache
      else
        match (foldl older (None, now) (iter cache)).1 with
        | Some key => evict_loop fuel now max_entries (delete key cache)
        | None => cache
        end
  end.

Definition evict_for_insert (cache : table) (now timeout : Z) (max_entries : nat) : table :=
  let max_entries := Nat.max max_entries 1 in
  let cache := filter (λ e, duration_since now (timestamp e.2) ≤ timeout) cache in
  evict_loop (size cache) now max_entries cache.

(** ** The cache of a connection *)
Record ResolverCache := mkCache {
  cache : table;
  pending : gset NetLocation;      (* lookups under way *)
  result_timeout_secs : Z }.

Definition DEFAULT_RESULT_TIMEOUT_SECS : Z := 60 * 60.
Definition DEFAULT_MAX_ENTRIES : nat := 512.
Definition DEFAULT_MAX_PENDING : nat := 256.

Definition new_with_timeout (secs : Z) : ResolverCache := mkCache ∅ ∅ secs.
Definition new : ResolverCache := new_with_timeout DEFAULT_RESULT_TIMEOUT_SECS.

Definition set_cache (this : ResolverCache) (c : table) : ResolverCache :=
  mkCache c (pending this) (result_timeout_secs this).
Definition set_pending (this : ResolverCache) (p : gset NetLocation) : ResolverCache :=
  mkCache (cache this) p (result_timeout_secs this).

Definition insert_result (this : ResolverCache) (now : Z) (target : NetLocation) (a : SocketAddr) : ResolverCache :=
  let c := evict_for_insert (cache this) now (from_secs (result_timeout_secs this)) DEFAULT_MAX_ENTRIES in
  set_cache this (<[target := mkCached now a]> c).

(** An entry that has expired is removed when it is found. *)
Definition check_cache (this : ResolverCache) (now : Z) (target : NetLocation) : option SocketAddr * ResolverCache :=
  match cache this !! target with
  | Some cached =>
      if duration_since now (timestamp cached) <=? from_secs (result_timeout_secs this)
      then (Some (addr cached), this)
      else (None, set_cache this (delete target (cache this)))
  | None => (None, this)
  end.

Definition finish (this : ResolverCache) (now : Z) (target : NetLocation) (r : result (list SocketAddr))
    : result SocketAddr * ResolverCache :=
  match r with
  | inl e => (inl e, this)
  | inr [] => (inl (IoError Other "DNS lookup returned no addresses"), this)
  | inr (a :: _) => (inr a, insert_result this now target a)
  end.

(** [now'] is the time after the lookup. *)
Definition resolve_location (this : ResolverCache) (now now' : Z) (answer : result (list SocketAddr)) (target : NetLocation)
    : result SocketAddr * ResolverCache :=
  match to_socket_addr_nonblocking target with
  | Some a => (inr a, this)
  | None =>
      match check_cache this now target with
      | (Some a, this) => (inr a, this)
      | (None, this) => finish this now' target answer
      end
  end.

(** [dns] is what the lookups under way answer when they are polled. *)
Definition poll_resolve_location (this : ResolverCache) (now : Z) (dns : NetLocation → Poll (result (list SocketAddr)))
    (target : NetLocation) : Poll (result SocketAddr) * ResolverCache :=
  match to_socket_addr_nonblocking target with
  | Some a => (Ready (inr a), this)
  | None =>
      match check_cache this now target with
      | (Some a, this) => (Ready (inr a), this)
      | (None, this) =>
          if negb (bool_decide (target ∈ pending this)) && (DEFAULT_MAX_PENDING <=? size (pending this))%nat
          then (Ready (inl (IoError WouldBlock "too many pending DNS lookups")), this)
          else
            let this := set_pending this ({[target]} ∪ pending this) in
            match dns target with
            | Pending => (Pending, this)
            | Ready r =>
                let '(r, this) := finish (set_pending this (pending this ∖ {[target]})) now target r in
                (Ready r, this)
            end
      end
  end.

End ops.
(** ** The cache of the process *)
Section native.
Context `{HashOrder} (hash_one : NetLocation → Z).

Record CachingNativeResolver := mkNative {
  shards : list table;
  native_timeout_secs : Z;
  max_entries_per_shard : nat }.

Definition RESOLVER_SHARD_COUNT : nat := 16.
Definition NATIVE_MAX_ENTRIES : nat := N.to_nat 4096.

Definition resolver_shard_index (l : NetLocation) : nat :=
  Z.to_nat (Z.land (hash_one l) (Z.of_nat RESOLVER_SHARD_COUNT - 1)).

(** [usize::div_ceil] *)
Definition div_ceil (a b : nat) : nat := (a + b - 1) / b.

Definition with_timeout (secs : Z) : CachingNativeResolver :=
  mkNative (replicate RESOLVER_SHARD_COUNT ∅) secs (div_ceil NATIVE_MAX_ENTRIES RESOLVER_SHARD_COUNT).
Definition native_new : CachingNativeResolver := with_timeout DEFAULT_RESULT_TIMEOUT_SECS.

(** [IpAddr::is_unspecified] *)
Definition is_unspecified (ip : IpAddr) : bool :=
  match ip with V4 o | V6 o => bool_decide (Forall (.= 0) o) end.

(** What is done when the lookup is asked for: under the lock of the shard. *)
Definition native_check (r : CachingNativeResolver) (now : Z) (l : NetLocation) : outcome (option SocketAddr) :=
  c ← index (shards r) (resolver_shard_index l);
  Ok match c !! l with
     | Some cached =>
         if duration_since now (timestamp cached) <=? from_secs (native_timeout_secs r) then Some (addr cached) else None
     | None => None
     end.

(** What is done with the answer of the operating system: [now] and [now'] are
    the two readings of the clock, under the lock of the shard. *)
Definition native_finish (r : CachingNativeResolver) (now now' : Z) (l : NetLocation) (answer : result (list SocketAddr))
    : outcome (result (list SocketAddr) * CachingNativeResolver) :=
  match answer with
  | inl e => Ok (inl e, r)
  | inr all =>
      match base.filter (λ a, is_unspecified (sa_ip a) = false) all with
      | [] => Ok (inl (IoError Other "DNS lookup returned no addresses"), r)
      | a :: rest =>
          c ← index (shards r) (resolver_shard_index l);
          let c := evict_for_insert c now (from_secs (native_timeout_secs r)) (max_entries_per_shard r) in
          let c := <[l := mkCached now' a]> c in
          Ok (inr (a :: rest), mkNative (<[resolver_shard_index l := c]> (shards r)) (native_timeout_secs r) (max_entries_per_shard r))
      end
  end.

End native.
(** ** Eviction, shown *)
Section facts.
Context `{HashOrder}.

Lemma older_spec l best :
  let r := foldl older best l in
  r.2 ≤ best.2 ∧ Forall (λ e, r.2 ≤ timestamp e.2) l ∧
  (r = best ∨ ∃ e, e ∈ l ∧ r = (Some e.1, timestamp e.2)).
Proof.
  revert best. induction l as [|e l IH]; intros best; cbn [foldl].
  { split; [done|]. split; [constructor | by left]. }
  destruct (IH (older best e)) as (Hle & Hall & Hr). unfold older in *. destruct (timestamp e.2 <? best.2) eqn:E; to_prop.
  - split; [simpl in *; lia|]. split; [by constructor|]. right. destruct Hr as [-> | (e' & ? & ->)].
    + exists e. split; [by left | done].
    + exists e'. split; [by right | done].
  - split; [done|]. split; [constructor; [lia | done]|]. destruct Hr as [-> | (e' & ? & ->)]; [by left|].
    right. exists e'. split; [by right | done].
Qed.

Lemma evict_loop_spec fuel now max_entries c :
  let c' := evict_loop fuel now max_entries c in
  c' ⊆ c ∧ ((size c ≤ fuel)%nat → (1 ≤ max_entries)%nat →
    (size c' < max_entries)%nat ∨ ∀ l e, c' !! l = Some e → now ≤ timestamp e).
Proof.
  revert c. induction fuel as [|fuel IH]; intros c; cbn [evict_loop].
  { split; [done|]. intros Hs Hm. left. lia. }
  destruct (size c <? max_entries)%nat eqn:E; to_prop; [by auto|].
  destruct (older_spec (iter c) (None, now)) as (_ & Hall & Hr).
  destruct (foldl older (None, now) (iter c)) as [[key|] t]; cbn [fst snd] in *.
  - destruct Hr as [|((k & e) & He & Heq)]; [done|]. injection Heq as -> _.
    rewrite iter_perm in He. apply elem_of_map_to_list in He.
    destruct (IH (delete k c)) as [Hsub Hsz]. split.
    { etrans; [done | apply delete_subseteq]. }
    intros Hf Hm. apply Hsz; [|done]. rewrite map_size_delete_Some by done. lia.
  - split; [done|]. intros _ _. right. intros l e Hl. destruct Hr as [[= ->]|(? & _ & [=])].
    rewrite Forall_forall in Hall. apply (Hall (l, e)). rewrite iter_perm. by apply elem_of_map_to_list.
Qed.

(** What is left is part of what was there, and unless fewer entries than the
    bound are left, none of them is older than the present instant. *)
Lemma evict_for_insert_spec c now timeout max_entries :
  let c' := evict_for_insert c now timeout max_entries in
  c' ⊆ c ∧ ((size c' < Nat.max max_entries 1)%nat ∨ ∀ l e, c' !! l = Some e → now ≤ timestamp e).
Proof.
  unfold evict_for_insert. set (c1 := filter _ c).
  destruct (evict_loop_spec (size c1) now (Nat.max max_entries 1) c1) as [Hsub Hsz]. split.
  - etrans; [done | apply map_filter_subseteq].
  - apply Hsz; lia.
Qed.

(** A table with room, or with entries of the time since [now] alone. *)
Definition bounded (bound : nat) (now : Z) (c : table) : Prop :=
  (size c ≤ bound)%nat ∨ ∀ l e, c !! l = Some e → now ≤ timestamp e.
Definition past (now : Z) (c : table) : Prop := ∀ l e, c !! l = Some e → timestamp e ≤ now.

Lemma past_weaken now now' c c' : past now c → now ≤ now' → c' ⊆ c → past now' c'.
Proof. intros Hp Hle Hsub k e Hk. etrans; [exact (Hp _ _ (lookup_weaken _ _ _ _ Hk Hsub)) | done]. Qed.

Lemma bounded_subseteq bound now c c' : bounded bound now c → c' ⊆ c → bounded bound now c'.
Proof.
  intros [Hs|Hall] Hsub; [left|right].
  - etrans; [by apply map_subseteq_size | done].
  - intros k e Hk. exact (Hall _ _ (lookup_weaken _ _ _ _ Hk Hsub)).
Qed.

Lemma insert_bounded c now now' timeout max_entries l a :
  past now c → now ≤ now' → (1 ≤ max_entries)%nat →
  let c' := <[l := mkCached now' a]> (evict_for_insert c now timeout max_entries) in
  past now' c' ∧ bounded max_entries now c'.
Proof.
  intros Hp Hle Hm c'. destruct (evict_for_insert_spec c now timeout max_entries) as [Hsub Hsz].
  set (c1 := evict_for_insert _ _ _ _) in *. split.
  - intros k e Hk. unfold c' in Hk. apply lookup_insert_Some in Hk as [[_ <-]|[_ Hk]]; [done|].
    exact (past_weaken now now' c c1 Hp Hle Hsub _ _ Hk).
  - destruct Hsz as [Hsz|Hall]; [left|right].
    + unfold c'. rewrite map_size_insert. destruct (c1 !! l); simpl; lia.
    + intros k e Hk. unfold c' in Hk. apply lookup_insert_Some in Hk as [[_ <-]|[_ Hk]]; [done|]. by eapply Hall.
Qed.

(** ** The cache of a connection, shown *)
Record query := mkQuery { q_now : Z; q_dns : NetLocation → Poll (result (list SocketAddr)); q_target : NetLocation }.

Fixpoint run (this : ResolverCache) (qs : list query) : list (Poll (result SocketAddr)) * ResolverCache :=
  match qs with
  | [] => ([], this)
  | q :: qs =>
      let '(r, this) := poll_resolve_location this (q_now q) (q_dns q) (q_target q) in
      let '(rs, this) := run this qs in
      (r :: rs, this)
  end.

(** The lookup of [q] answered with [a] first. *)
Definition answers (q : query) (l : NetLocation) (a : SocketAddr) : Prop :=
  q_target q = l ∧ ∃ rest, q_dns q l = Ready (inr (a :: rest)).

(** Every entry is the answer of a past query, made when it is stamped. *)
Definition backed (qs : list query) (c : table) : Prop :=
  ∀ l e, c !! l = Some e → ∃ q, q ∈ qs ∧ answers q l (addr e) ∧ q_now q = timestamp e.

(** The answer to [q] after [qs]: the address itself, or one resolved for this
    name no longer ago than the time to live. *)
Definition fresh_answer (timeout : Z) (qs : list query) (q : query) (r : Poll (result SocketAddr)) : Prop :=
  ∀ a, r = Ready (inr a) →
    to_socket_addr_nonblocking (q_target q) = Some a ∨
    ∃ q', q' ∈ qs ++ [q] ∧ answers q' (q_target q) a ∧ q_now q - q_now q' ≤ timeout.

Definition timeout_of (this : ResolverCache) : Z := from_secs (result_timeout_secs this).

(** A table within its bound, or with entries of one instant alone. *)
Definition within (bound : nat) (c : table) : Prop :=
  (size c ≤ bound)%nat ∨ ∃ t, ∀ l e, c !! l = Some e → timestamp e = t.

Lemma within_bounded bound now c : bounded bound now c → past now c → within bound c.
Proof. intros [?|Hall] Hp; [by left|right]. exists now. intros l e Hl. pose proof (Hall _ _ Hl). pose proof (Hp _ _ Hl). lia. Qed.

(** What a poll leaves behind. *)
Record kept (qs : list query) (now : Z) (this : ResolverCache) : Prop := {
  k_backed : backed qs (cache this);
  k_past : past now (cache this);
  k_pending : (size (pending this) ≤ DEFAULT_MAX_PENDING)%nat;
  k_within : within DEFAULT_MAX_ENTRIES (cache this) }.

Lemma kept_cache qs now this c :
  kept qs now this → c ⊆ cache this → kept qs now (set_cache this c).
Proof.
  intros [Hb Hp Hn Hw] Hsub. split; cbn [cache pending set_cache].
  - intros l e Hl. exact (Hb _ _ (lookup_weaken _ _ _ _ Hl Hsub)).
  - by eapply past_weaken.
  - done.
  - destruct Hw as [Hs|[t Hall]]; [left|right].
    + etrans; [by apply map_subseteq_size | done].
    + exists t. intros l e Hl. exact (Hall _ _ (lookup_weaken _ _ _ _ Hl Hsub)).
Qed.

Lemma kept_pending qs now this p :
  kept qs now this → (size p ≤ DEFAULT_MAX_PENDING)%nat → kept qs now (set_pending this p).
Proof. by intros []. Qed.

Lemma kept_later qs qs' now now' this :
  kept qs now this → qs ⊆ qs' → now ≤ now' → kept qs' now' this.
Proof.
  intros [Hb Hp Hn Hw] Hsub Hle. split; [|by eapply past_weaken|done..].
  intros l e Hl. destruct (Hb l e Hl) as (q & Hq & Ha). exists q. split; [by apply Hsub | done].
Qed.

Lemma check_cache_spec qs now this target :
  kept qs now this →
  kept qs now (check_cache this now target).2 ∧ result_timeout_secs (check_cache this now target).2 = result_timeout_secs this ∧
  pending (check_cache this now target).2 = pending this ∧
  ∀ a, (check_cache this now target).1 = Some a →
    ∃ q, q ∈ qs ∧ answers q target a ∧ now - q_now q ≤ timeout_of this.
Proof.
  intros Hk. unfold check_cache. destruct (cache this !! target) as [c|] eqn:E; [|by split_and!].
  destruct (_ <=? _) eqn:El; to_prop.
  - split_and!; try done. intros a [= <-]. destruct (k_backed _ _ _ Hk _ _ E) as (q & Hq & Ha & Ht).
    exists q. split_and!; [done..|]. rewrite Ht. unfold duration_since, timeout_of in *. lia.
  - split_and!; try done. apply kept_cache; [done | apply delete_subseteq].
Qed.
Lemma finish_spec qs q this r :
  kept qs (q_now q) this → q_dns q (q_target q) = Ready r →
  let p := finish this (q_now q) (q_target q) r in
  kept (qs ++ [q]) (q_now q) p.2 ∧ result_timeout_secs p.2 = result_timeout_secs this ∧
  ∀ a, p.1 = inr a → answers q (q_target q) a.
Proof.
  intros Hk Hd. assert (Hk' : kept (qs ++ [q]) (q_now q) this) by (apply (kept_later qs _ (q_now q) _ _ Hk); [set_solver | done]).
  destruct r as [e|[|a rest]]; simpl; split_and!; try done; [|intros ? [= <-]; split; eauto].
  destruct Hk' as [Hb Hp Hn Hw].
  destruct (insert_bounded (cache this) (q_now q) (q_now q) (timeout_of this) DEFAULT_MAX_ENTRIES (q_target q) a Hp) as [Hp' Hb'];
    [done | unfold DEFAULT_MAX_ENTRIES; lia|].
  destruct (evict_for_insert_spec (cache this) (q_now q) (timeout_of this) DEFAULT_MAX_ENTRIES) as [Hsub _].
  split; [|done..|by apply (within_bounded _ (q_now q))].
  intros l e Hl. cbn [cache insert_result set_cache] in Hl. apply lookup_insert_Some in Hl as [[<- <-]|[_ Hl]].
  - exists q. split; [set_solver|]. split; [split; eauto | done].
  - exact (Hb _ _ (lookup_weaken _ _ _ _ Hl Hsub)).
Qed.

Lemma poll_resolve_spec qs q this :
  kept qs (q_now q) this → 0 ≤ result_timeout_secs this →
  let p := poll_resolve_location this (q_now q) (q_dns q) (q_target q) in
  kept (qs ++ [q]) (q_now q) p.2 ∧ result_timeout_secs p.2 = result_timeout_secs this ∧
  fresh_answer (timeout_of this) qs q p.1.
Proof.
  intros Hk Hto. assert (Hlater : ∀ this, kept qs (q_now q) this → kept (qs ++ [q]) (q_now q) this).
  { intros this' Hk'. apply (kept_later qs _ (q_now q) _ _ Hk'); [set_solver | done]. }
  unfold poll_resolve_location. destruct (to_socket_addr_nonblocking _) as [a|] eqn:Et.
  { split_and!; [by apply Hlater | done|]. intros ? [= <-]. by left. }
  destruct (check_cache_spec qs (q_now q) this (q_target q) Hk) as (Hkc & Htc & Hpc & Hac).
  destruct (check_cache this (q_now q) (q_target q)) as [[a|] this1]; cbn [fst snd] in *.
  { split_and!; [by apply Hlater | done|]. intros ? [= <-]. right. destruct (Hac a eq_refl) as (q' & Hq' & Ha' & Hn').
    exists q'. split; [set_solver | done]. }
  destruct (_ && _) eqn:Eb.
  { split_and!; [by apply Hlater | done|]. by intros a [= ]. }
  assert (Hsz : (size ({[q_target q]} ∪ pending this1) ≤ DEFAULT_MAX_PENDING)%nat).
  { pose proof (k_pending _ _ _ Hkc). to_prop. destruct Eb as [Eb|Eb]; to_prop.
    - by replace ({[q_target q]} ∪ pending this1) with (pending this1) by set_solver.
    - rewrite size_union_alt, size_singleton. pose proof (subseteq_size (pending this1 ∖ {[q_target q]}) (pending this1) ltac:(set_solver)). lia. }
  destruct (q_dns q (q_target q)) as [r|] eqn:Ed.
  - destruct (finish_spec qs q (set_pending this1 (({[q_target q]} ∪ pending this1) ∖ {[q_target q]})) r) as (Hk2 & Ht2 & Ha2); [|done|].
    { apply kept_pending; [done|]. etrans; [|exact (k_pending _ _ _ Hkc)]. apply subseteq_size. set_solver. }
    cbn [set_pending pending] in *. destruct (finish _ _ _ _) as [r' this2]; cbn [fst snd] in *.
    split_and!; [done | by rewrite Ht2|]. intros a [= ->]. right. exists q. split; [set_solver|]. split; [by apply Ha2|].
    unfold timeout_of, from_secs. lia.
  - split_and!; [by apply Hlater, kept_pending | done|]. by intros a [= ].
Qed.
Lemma run_kept qs0 now this qs :
  kept qs0 now this → 0 ≤ result_timeout_secs this →
  Sorted Z.le (now :: (q_now <$> qs)) →
  let p := run this qs in
  (∃ now', kept (qs0 ++ qs) now' p.2) ∧
  ∀ i q r, qs !! i = Some q → p.1 !! i = Some r → fresh_answer (timeout_of this) (qs0 ++ take i qs) q r.
Proof.
  revert qs0 now this. induction qs as [|q qs IH]; intros qs0 now this Hk Hto Hs; cbn [run].
  { split; [exists now; by rewrite app_nil_r | done]. }
  apply Sorted_inv in Hs as [Hs Hh]. apply HdRel_inv in Hh.
  assert (Hkq : kept qs0 (q_now q) this) by (by eapply kept_later).
  destruct (poll_resolve_spec qs0 q this Hkq Hto) as (Hk1 & Ht1 & Hf1).
  destruct (poll_resolve_location _ _ _ _) as [r this1]; cbn [fst snd] in *.
  destruct (IH (qs0 ++ [q]) (q_now q) this1 Hk1) as [Hk2 Hf2]; [by rewrite Ht1 | done|].
  destruct (run this1 qs) as [rs this2]; cbn [fst snd] in *. rewrite <- app_assoc in Hk2. split; [done|].
  intros [|i] q' r' Hq Hr; simplify_eq/=; [by rewrite app_nil_r|].
  specialize (Hf2 i q' r' Hq Hr). rewrite <- app_assoc in Hf2. unfold timeout_of in *. by rewrite Ht1 in Hf2.
Qed.

Lemma sorted_from l : Sorted Z.le l → Sorted Z.le (default 0 (head l) :: l).
Proof. intros Hl. constructor; [done|]. destruct l; by constructor. Qed.

Lemma kept_new now secs : kept [] now (new_with_timeout secs).
Proof.
  split; unfold new_with_timeout; simpl.
  - intros l e Hl. by rewrite lookup_empty in Hl.
  - intros l e Hl. by rewrite lookup_empty in Hl.
  - change (size (∅ : gset NetLocation) ≤ DEFAULT_MAX_PENDING)%nat. rewrite size_empty. lia.
  - left. rewrite map_size_empty. lia.
Qed.

End facts.

(** Names resolve to their own addresses: along any sequence of polls of a
    connection's cache, with the clock going forward, an address that is
    answered is the literal itself or the first one a lookup of that very name
    gave, no longer ago than the time to live. *)
Theorem resolved_addresses_are_fresh `{HashOrder} secs qs i q r a :
  0 ≤ secs → Sorted Z.le (q_now <$> qs) → qs !! i = Some q →
  (run (new_with_timeout secs) qs).1 !! i = Some r → r = Ready (inr a) →
  to_socket_addr_nonblocking (q_target q) = Some a ∨
  ∃ q', q' ∈ take (S i) qs ∧ answers q' (q_target q) a ∧ q_now q - q_now q' ≤ from_secs secs.
Proof.
  intros Hs Hsort Hq Hr Ha.
  destruct (run_kept [] _ _ _ (kept_new _ secs) Hs (sorted_from _ Hsort)) as [_ Hf].
  specialize (Hf i q r Hq Hr a Ha) as [Hl|(q' & Hq' & Hrest)]; [by left|right]. exists q'. split; [|done].
  by rewrite (take_S_r _ _ _ Hq).
Qed.

(** A peer that keeps naming new destinations does not grow the cache of its
    connection: whatever it asks for and however slowly lookups answer, at most
    256 are under way and at most 512 results are kept, unless all results kept
    are of one instant of the clock. *)
Theorem resolver_cache_is_bounded `{HashOrder} secs qs :
  0 ≤ secs → Sorted Z.le (q_now <$> qs) →
  let this := (run (new_with_timeout secs) qs).2 in
  (size (pending this) ≤ 256)%nat ∧
  ((size (cache this) ≤ 512)%nat ∨ ∃ t, ∀ l e, cache this !! l = Some e → timestamp e = t).
Proof.
  intros Hs Hsort.
  destruct (run_kept [] _ _ _ (kept_new _ secs) Hs (sorted_from _ Hsort)) as [[now' [_ _ Hn Hw]] _]. done.
Qed.
(** ** The cache of the process, shown *)
Section native_facts.
Context `{HashOrder} (hash_one : NetLocation → Z).

(** An answer of the operating system, with the readings of the clock. *)
Record event := mkEvent { ev_now : Z; ev_now' : Z; ev_name : NetLocation; ev_answer : result (list SocketAddr) }.

Fixpoint native_run (r : CachingNativeResolver) (es : list event) : outcome CachingNativeResolver :=
  match es with
  | [] => Ok r
  | e :: es =>
      p ← native_finish hash_one r (ev_now e) (ev_now' e) (ev_name e) (ev_answer e);
      native_run p.2 es
  end.

(** A shard holds names of its own, within its bound unless all of them were
    stored while one event was under way, and none from the future. *)
Record shard_ok (es : list event) (now : Z) (i : nat) (c : table) : Prop := {
  so_own : ∀ l e, c !! l = Some e → resolver_shard_index hash_one l = i;
  so_past : past now c;
  so_size : (size c ≤ 256)%nat ∨
    ∃ ev, ev ∈ es ∧ ∀ l e, c !! l = Some e → ev_now ev ≤ timestamp e ≤ ev_now' ev }.

Record native_ok (es : list event) (now : Z) (r : CachingNativeResolver) : Prop := {
  no_count : length (shards r) = RESOLVER_SHARD_COUNT;
  no_max : max_entries_per_shard r = 256%nat;
  no_shards : ∀ i c, shards r !! i = Some c → shard_ok es now i c }.

Lemma resolver_shard_lt l : (resolver_shard_index hash_one l < RESOLVER_SHARD_COUNT)%nat.
Proof.
  unfold resolver_shard_index, RESOLVER_SHARD_COUNT. change (Z.of_nat 16 - 1) with (Z.ones 4).
  rewrite Z.land_ones by lia. pose proof (Z.mod_pos_bound (hash_one l) (2 ^ 4) eq_refl). lia.
Qed.

Lemma shard_later es ev now now' i c : shard_ok es now i c → now ≤ now' → shard_ok (es ++ [ev]) now' i c.
Proof.
  intros [Ho Hp Hs] Hle. split; [done | by apply (past_weaken now _ c)|]. destruct Hs as [?|(ev' & Hin & Hall)]; [by left|right].
  exists ev'. split; [set_solver | done].
Qed.

Lemma native_finish_spec es now r ev :
  native_ok es now r → now ≤ ev_now ev → ev_now ev ≤ ev_now' ev →
  ∃ a r', native_finish hash_one r (ev_now ev) (ev_now' ev) (ev_name ev) (ev_answer ev) = Ok (a, r') ∧
    native_ok (es ++ [ev]) (ev_now' ev) r'.
Proof.
  intros [Hc Hm Hs] Hle Hle'.
  assert (Hsame : native_ok (es ++ [ev]) (ev_now' ev) r).
  { split; [done..|]. intros i c Hi. apply (shard_later es ev now); [by apply Hs | lia]. }
  unfold native_finish. destruct (ev_answer ev) as [e|all]; [by eauto|]. destruct (base.filter _ all) as [|a rest]; [by eauto|].
  set (i := resolver_shard_index hash_one (ev_name ev)).
  assert (Hi : (i < length (shards r))%nat) by (rewrite Hc; apply resolver_shard_lt).
  apply lookup_lt_is_Some in Hi as [c Hi]. unfold index. rewrite Hi. cbn [expect mbind outcome_bind]. eexists _, _. split; [done|].
  destruct (Hs i c Hi) as [Ho Hp Hsz].
  destruct (insert_bounded c (ev_now ev) (ev_now' ev) (from_secs (native_timeout_secs r)) (max_entries_per_shard r) (ev_name ev) a) as [Hp' Hb'].
  { by apply (past_weaken now _ c). } { done. } { rewrite Hm. lia. }
  destruct (evict_for_insert_spec c (ev_now ev) (from_secs (native_timeout_secs r)) (max_entries_per_shard r)) as [Hsub _].
  split; [cbn [shards]; by rewrite length_insert | done|]. cbn [shards]. intros k d Hk.
  apply list_lookup_insert_Some in Hk as [(<- & <- & _)|[_ Hk]]; [|apply (shard_later es ev now); [by apply Hs | lia]].
  split; [|done|].
  - intros l e Hl. apply lookup_insert_Some in Hl as [[<- _]|[_ Hl]]; [done|]. exact (Ho _ _ (lookup_weaken _ _ _ _ Hl Hsub)).
  - rewrite Hm in *. destruct Hb' as [?|Hall]; [by left|right]. exists ev. split; [set_solver|].
    intros l e Hl. split; [exact (Hall _ _ Hl) | exact (Hp' _ _ Hl)].
Qed.

(** Readings of the clock that go forward. *)
Fixpoint forward (now : Z) (es : list event) : Prop :=
  match es with
  | [] => True
  | ev :: es => now ≤ ev_now ev ∧ ev_now ev ≤ ev_now' ev ∧ forward (ev_now' ev) es
  end.

Lemma native_run_spec es0 now r es :
  native_ok es0 now r → forward now es →
  ∃ now' r', native_run r es = Ok r' ∧ native_ok (es0 ++ es) now' r'.
Proof.
  revert es0 now r. induction es as [|ev es IH]; intros es0 now r Hok Hf; cbn [native_run].
  { exists now, r. by rewrite app_nil_r. }
  destruct Hf as (H1 & H2 & Hf). destruct (native_finish_spec es0 now r ev Hok H1 H2) as (a & r1 & -> & Hok1).
  cbn [mbind outcome_bind snd]. destruct (IH _ _ _ Hok1 Hf) as (now' & r' & Hr & Hok'). exists now', r'. by rewrite <- app_assoc in Hok'.
Qed.

End native_facts.

(** The cache of the process never indexes beyond its shards, keeps every name in
    the shard of its hash, and no shard grows beyond 256 entries unless all of
    them were stored while one of them was. *)
Theorem native_cache_is_bounded `{HashOrder} hash_one secs now es :
  forward now es →
  ∃ now' r, native_run hash_one (with_timeout secs) es = Ok r ∧ native_ok hash_one es now' r.
Proof.
  intros Hf. apply (native_run_spec hash_one [] now); [|done].
  split; [done | by vm_compute|]. intros i c Hi. unfold with_timeout in Hi. cbn [shards] in Hi.
  apply lookup_replicate in Hi as [-> _]. split.
  - intros l e Hl. by rewrite lookup_empty in Hl.
  - intros l e Hl. by rewrite lookup_empty in Hl.
  - left. rewrite map_size_empty. lia.
Qed.

(** ** Examples *)
Definition example_name : NetLocation := mkNetLocation (Hostname (B "a.example")) 53.
Definition example_addr : SocketAddr := mkSocketAddr (V4 [10; 0; 0; 1]) 53.
Definition example_queries : list query :=
  [mkQuery 0 (λ _, Pending) example_name; mkQuery 5 (λ _, Ready (inr [example_addr])) example_name;
   mkQuery 9 (λ _, Pending) example_name].

Lemma resolved_addresses_are_fresh_witness :
  to_socket_addr_nonblocking example_name = Some example_addr ∨
  ∃ q', q' ∈ take 3 example_queries ∧ answers q' example_name example_addr ∧ 9 - q_now q' ≤ from_secs 60.
Proof.
  apply (resolved_addresses_are_fresh 60 example_queries 2 (mkQuery 9 (λ _, Pending) example_name) (Ready (inr example_addr)) example_addr).
  - lia.
  - repeat constructor; simpl; lia.
  - reflexivity.
  - vm_compute. reflexivity.
  - reflexivity.
Defined.

Lemma resolver_cache_is_bounded_witness :
  let this := (run (new_with_timeout 60) example_queries).2 in
  (size (pending this) ≤ 256)%nat ∧
  ((size (cache this) ≤ 512)%nat ∨ ∃ t, ∀ l e, cache this !! l = Some e → timestamp e = t).
Proof. apply (resolver_cache_is_bounded 60 example_queries); [lia | repeat constructor; simpl; lia]. Defined.

End Resolver.
