(* ===== verification/XudpStream.v ===== *)
(** * Sessions of datagrams over one stream ([src/xudp/message_stream.rs])

    [XudpMessageStream] is the end that serves a peer's sessions (XUDP of VLESS
    and VMess): it decodes frames, resolves their destinations, hands out
    session ids and writes replies.  [XudpFixedMessageStream] is the client's
    end, with one destination.  Both frame with [Xudp.v] over any buffer of the
    [bytes] crate ([Buf.v]) and poll a transport as of [Stream.v]; names are
    resolved through the cache of [Resolver.v], with the time and the answers of
    the lookups under way as inputs of a poll. *)
From S2P Require Import Prelude Text Address Buf Xudp UotAddr Stream Messages Resolver.
Import Net Addr.

Module XudpStream.
Import Xudp Stream Resolver.

Definition MAX_XUDP_SESSIONS : nat := N.to_nat 1024.
Definition zero_write : string := "failed to write XUDP frame".

(** ** Frames in the read buffer *)

(** What the bytes at the front of the read buffer are, looked at without taking
    any: [None] if more are needed, else whether data follows the metadata. *)
Definition peek_frame (buf : bytes) : outcome (option (option nat)) :=
  if length buf <? 2 then Ok None
  else
    let metadata_len := Z.to_nat (be_decode (take 2 buf)) in
    if length buf <? 2 + metadata_len then Ok None
    else if metadata_len <? 4 then err InvalidData "metadata too short"
    else
      status_byte ← index buf (2 + 2);
      option_byte ← index buf (2 + 3);
      let is_end := (status_byte =? 3)%Z in
      let is_keepalive := (status_byte =? 4)%Z in
      if is_end || is_keepalive || negb (has_data option_byte) then Ok (Some None)
      else
        let data_len_offset := 2 + metadata_len in
        if length buf <? data_len_offset + 2 then Ok None
        else
          data_len ← slice buf data_len_offset (data_len_offset + 2);
          let data_len := Z.to_nat (be_decode data_len) in
          if length buf <? data_len_offset + 2 + data_len then Ok None else Ok (Some (Some data_len)).

Section buffers.
Context {b : Type} `{Buf b}.

(** [FrameMetadata::decode(..)?.expect(..)] *)
Definition decode_metadata : io b FrameMetadata :=
  m ← decode; match m with Some m => mret m | None => lift Panic end.

(** [self.read_buffer[..n].to_vec()] followed by [advance(n)] *)
Definition take_data (n : nat) : io b bytes :=
  buf ← peek; data ← lift (slice buf 0 n); _ ← skip n; mret data.

(** A frame with data, appended to the write buffer. *)
Definition encode_frame (m : FrameMetadata) (data : bytes) : io b unit :=
  _ ← encode m; _ ← put_u16 (wrap 16 (Z.of_nat (length data))); Buf.put data.

(** What the loops of [poll_flush_message] leave of the write buffer. *)
Definition flush_buffer {S} `{AsyncStream S} (w : b) (s : S) : Poll (outcome unit) * b * S :=
  let '(p, sent, s) := Messages.drain zero_write (contents w) 0 s in
  match advance sent w with
  | (Ok _, w) =>
      match p with
      | Ready (Ok _) => let '(p, s) := poll_flush s in (Messages.poll_outcome p, w, s)
      | _ => (p, w, s)
      end
  | (_, w) => (Ready Panic, w, s)
  end.

End buffers.

(** ** The server's end *)
Record XudpMessageStream (b S : Type) := mkXudp {
  inner_stream : S;
  read_buffer : b;
  write_buffer : b;
  next_session_id : Z;
  destination_to_session : gmap NetLocation Z;
  session_to_destination : gmap Z NetLocation;
  session_to_original_destination : gmap Z NetLocation;
  resolver_cache : ResolverCache;
  incoming_message : option (bytes * NetLocation * option NetLocation);
  is_eof : bool }.
Arguments mkXudp {b S}.
Arguments inner_stream {b S}.
Arguments read_buffer {b S}.
Arguments write_buffer {b S}.
Arguments next_session_id {b S}.
Arguments destination_to_session {b S}.
Arguments session_to_destination {b S}.
Arguments session_to_original_destination {b S}.
Arguments resolver_cache {b S}.
Arguments incoming_message {b S}.
Arguments is_eof {b S}.

Section setters.
Context {b S : Type}.
Implicit Types this : XudpMessageStream b S.

Definition set_stream this (s : S) (eof : bool) :=
  mkXudp s (read_buffer this) (write_buffer this) (next_session_id this) (destination_to_session this)
    (session_to_destination this) (session_to_original_destination this) (resolver_cache this) (incoming_message this) eof.
Definition set_read this (r : b) :=
  mkXudp (inner_stream this) r (write_buffer this) (next_session_id this) (destination_to_session this)
    (session_to_destination this) (session_to_original_destination this) (resolver_cache this) (incoming_message this) (is_eof this).
Definition set_write this (w : b) (s : S) :=
  mkXudp s (read_buffer this) w (next_session_id this) (destination_to_session this)
    (session_to_destination this) (session_to_original_destination this) (resolver_cache this) (incoming_message this) (is_eof this).
Definition set_next this (n : Z) :=
  mkXudp (inner_stream this) (read_buffer this) (write_buffer this) n (destination_to_session this)
    (session_to_destination this) (session_to_original_destination this) (resolver_cache this) (incoming_message this) (is_eof this).
Definition set_sessions this (d2s : gmap NetLocation Z) (s2d s2o : gmap Z NetLocation) :=
  mkXudp (inner_stream this) (read_buffer this) (write_buffer this) (next_session_id this) d2s s2d s2o
    (resolver_cache this) (incoming_message this) (is_eof this).
Definition set_resolver this (c : ResolverCache) :=
  mkXudp (inner_stream this) (read_buffer this) (write_buffer this) (next_session_id this) (destination_to_session this)
    (session_to_destination this) (session_to_original_destination this) c (incoming_message this) (is_eof this).
Definition set_incoming this (m : option (bytes * NetLocation * option NetLocation)) :=
  mkXudp (inner_stream this) (read_buffer this) (write_buffer this) (next_session_id this) (destination_to_session this)
    (session_to_destination this) (session_to_original_destination this) (resolver_cache this) m (is_eof this).

End setters.

Section server.
Context {b S : Type} `{Buf b, AsyncStream S, HashOrder}.
Implicit Types this : XudpMessageStream b S.

Definition new (s : S) : XudpMessageStream b S :=
  mkXudp s (with_capacity 0) (with_capacity 0) 1 ∅ ∅ ∅ Resolver.new None false.

Definition feed_initial_read_data (data : bytes) this : outcome (XudpMessageStream b S) :=
  Ok (if bool_decide (data = []) then this else set_read this (put_slice data (read_buffer this))).

(** Each time round but the last finds an id in use. *)
Fixpoint allocate_loop (fuel : nat) this : option Z * XudpMessageStream b S :=
  match fuel with
  | 0 => (None, this)
  | Datatypes.S fuel =>
      let id := next_session_id this in
      let next := wrap 16 (id + 1) in
      let this := set_next this (if (next =? 0)%Z then 1%Z else next) in
      if bool_decide (is_Some (session_to_destination this !! id)) then allocate_loop fuel this else (Some id, this)
  end.
Definition allocate_session_id this : option Z * XudpMessageStream b S :=
  allocate_loop (Datatypes.S (size (session_to_destination this))) this.

Definition ensure_session_capacity this (session_id : option Z) : outcome unit :=
  let known :=
    match session_id with
    | Some id =>
        bool_decide (is_Some (session_to_destination this !! id)) ||
        bool_decide (is_Some (session_to_original_destination this !! id))
    | None => false
    end in
  if negb known &&
     ((MAX_XUDP_SESSIONS <=? size (session_to_destination this)) ||
      (MAX_XUDP_SESSIONS <=? size (session_to_original_destination this)) ||
      (MAX_XUDP_SESSIONS <=? size (destination_to_session this)))
  then err InvalidData "XUDP session limit reached" else Ok tt.

Definition get_or_create_session (resolved original : NetLocation) this : outcome (Z * bool) * XudpMessageStream b S :=
  match destination_to_session this !! resolved with
  | Some id => (Ok (id, false), this)
  | None =>
      match ensure_session_capacity this None with
      | Ok _ =>
          match allocate_session_id this with
          | (Some id, this) =>
              (Ok (id, true),
               set_sessions this (<[resolved := id]> (destination_to_session this))
                 (<[id := resolved]> (session_to_destination this)) (<[id := original]> (session_to_original_destination this)))
          | (None, this) => (Panic, this)
          end
      | Err e => (Err e, this)
      | Panic => (Panic, this)
      end
  end.

(** [if let Some(ref target) = metadata.target { .. }] *)
Definition learn_target (m : FrameMetadata) this : outcome unit * XudpMessageStream b S :=
  match target m with
  | Some target =>
      match ensure_session_capacity this (Some (session_id m)) with
      | Ok _ =>
          (Ok tt, set_sessions this (destination_to_session this) (<[session_id m := target]> (session_to_destination this))
                    (<[session_id m := target]> (session_to_original_destination this)))
      | r => (r, this)
      end
  | None => (Ok tt, this)
  end.

Definition end_session (m : FrameMetadata) this : XudpMessageStream b S :=
  if bool_decide (status m = End_) then
    let s2d := session_to_destination this in
    set_sessions this
      (match s2d !! session_id m with
       | Some destination => delete destination (destination_to_session this)
       | None => destination_to_session this
       end)
      (delete (session_id m) s2d) (delete (session_id m) (session_to_original_destination this))
  else this.

(** A computation on the read buffer. *)
Definition on_read {A} (m : io b A) this : outcome A * XudpMessageStream b S :=
  let '(r, buf) := m (read_buffer this) in (r, set_read this buf).

(** The frame with [data_len] bytes of data at the front: [None] if they are none. *)
Definition take_frame (data_len : nat) this : outcome (option (bytes * NetLocation)) * XudpMessageStream b S :=
  match on_read decode_metadata this with
  | (Err e, this) => (Err e, this)
  | (Panic, this) => (Panic, this)
  | (Ok m, this) =>
      if bool_decide (network m = Some Tcp) then (err Unsupported "XUDP with TCP destinations is not supported", this)
      else if has_error (option_bits m) then (err ConnectionReset "XUDP session closed by remote with error", this)
      else
        match learn_target m this with
        | (Err e, this) => (Err e, this)
        | (Panic, this) => (Panic, this)
        | (Ok _, this) =>
            match on_read (_ ← skip 2; if data_len =? 0 then mret [] else take_data data_len) this with
            | (Err e, this) => (Err e, this)
            | (Panic, this) => (Panic, this)
            | (Ok data, this) =>
                if data_len =? 0 then (Ok None, this)
                else
                  match target m with
                  | Some destination => (Ok (Some (data, destination)), this)
                  | None =>
                      match session_to_destination this !! session_id m with
                      | Some destination => (Ok (Some (data, destination)), this)
                      | None => (err InvalidData "unknown session ID", this)
                      end
                  end
            end
        end
  end.

(** Each time round takes a frame off the buffer. *)
Fixpoint decode_loop (fuel : nat) this : option (outcome (option (bytes * NetLocation)) * XudpMessageStream b S) :=
  match fuel with
  | 0 => None
  | Datatypes.S fuel =>
      match peek_frame (contents (read_buffer this)) with
      | Err e => Some (Err e, this)
      | Panic => Some (Panic, this)
      | Ok None => Some (Ok None, this)
      | Ok (Some None) =>
          match on_read decode_metadata this with
          | (Err e, this) => Some (Err e, this)
          | (Panic, this) => Some (Panic, this)
          | (Ok m, this) =>
              match learn_target m this with
              | (Err e, this) => Some (Err e, this)
              | (Panic, this) => Some (Panic, this)
              | (Ok _, this) => decode_loop fuel (end_session m this)
              end
          end
      | Ok (Some (Some data_len)) =>
          match take_frame data_len this with
          | (Ok None, this) => decode_loop fuel this
          | r => Some r
          end
      end
  end.
Definition try_decode_one_frame this : option (outcome (option (bytes * NetLocation)) * XudpMessageStream b S) :=
  decode_loop (Datatypes.S (length (contents (read_buffer this)))) this.
Definition message : Type := Z * SocketAddr * bytes.
Definition too_small : outcome message := err InvalidData "buffer too small for incoming message".
Definition at_eof : outcome message := err UnexpectedEof "EOF reached".

(** [self.resolver_cache.poll_resolve_location(cx, ..)] *)
Definition resolve (now : Z) (dns : NetLocation → Poll (result (list SocketAddr))) (l : NetLocation) this
    : Poll (result SocketAddr) * XudpMessageStream b S :=
  let '(r, c) := poll_resolve_location (resolver_cache this) now dns l in (r, set_resolver this c).

(** The message that was buffered. *)
Definition read_buffered now dns (room : nat) (data : bytes) (original : NetLocation) (resolved_opt : option NetLocation) this
    : Poll (outcome message) * XudpMessageStream b S :=
  if room <? length data then (Ready too_small, set_incoming this (Some (data, original, resolved_opt)))
  else
    let '(r, this) :=
      match resolved_opt with
      | Some l => (Ready (inr l), this)
      | None =>
          match resolve now dns original this with
          | (Ready (inr a), this) => (Ready (inr (Uot.location_of a)), this)
          | (Ready (inl e), this) => (Ready (inl e), this)
          | (Pending, this) => (Pending, this)
          end
      end in
    match r with
    | Ready (inl e) => (Ready (Err e), this)
    | Pending => (Pending, set_incoming this (Some (data, original, None)))
    | Ready (inr resolved) =>
        match get_or_create_session resolved original this with
        | (Err e, this) => (Ready (Err e), this)
        | (Panic, this) => (Ready Panic, this)
        | (Ok (id, _), this) =>
            match resolve now dns original this with
            | (Ready (inr a), this) => (Ready (Ok (id, a, data)), this)
            | (Ready (inl e), this) => (Ready (Err e), this)
            | (Pending, this) => (Pending, this)
            end
        end
    end.

(** The message that has just been decoded. *)
Definition read_decoded now dns (room : nat) (data : bytes) (destination : NetLocation) this
    : Poll (outcome message) * XudpMessageStream b S :=
  match resolve now dns destination this with
  | (Ready (inl e), this) => (Ready (Err e), this)
  | (Pending, this) => (Pending, set_incoming this (Some (data, destination, None)))
  | (Ready (inr a), this) =>
      let resolved := Uot.location_of a in
      match get_or_create_session resolved destination this with
      | (Err e, this) => (Ready (Err e), this)
      | (Panic, this) => (Ready Panic, this)
      | (Ok (id, _), this) =>
          if room <? length data
          then (Ready too_small, set_incoming this (Some (data, destination, Some resolved)))
          else (Ready (Ok (id, a, data)), this)
      end
  end.

Definition READ_CHUNK : nat := N.to_nat 8192.

(** The caller's buffer has room for [room] bytes.  The read buffer grows by
    [READ_CHUNK] bytes, is read into and cut to what was read.  [None] is out of
    fuel. *)
Fixpoint read_loop (fuel : nat) now dns (room : nat) this : option (Poll (outcome message) * XudpMessageStream b S) :=
  match fuel with
  | 0 => None
  | Datatypes.S fuel =>
      match try_decode_one_frame this with
      | None => None
      | Some (Err e, this) => Some (Ready (Err e), this)
      | Some (Panic, this) => Some (Ready Panic, this)
      | Some (Ok (Some (data, destination)), this) => Some (read_decoded now dns room data destination this)
      | Some (Ok None, this) =>
          match poll_read (inner_stream this) READ_CHUNK with
          | (Ready (inr bs), s) =>
              if length bs =? 0 then Some (Ready at_eof, set_stream this s true)
              else read_loop fuel now dns room (set_read (set_stream this s (is_eof this)) (put_slice bs (read_buffer this)))
          | (Ready (inl e), s) => Some (Ready (Err e), set_stream this s (is_eof this))
          | (Pending, s) => Some (Pending, set_stream this s (is_eof this))
          end
      end
  end.

Definition poll_read_session_message (fuel : nat) now dns (room : nat) this
    : option (Poll (outcome message) * XudpMessageStream b S) :=
  match incoming_message this with
  | Some (data, original, resolved_opt) =>
      Some (read_buffered now dns room data original resolved_opt (set_incoming this None))
  | None => if is_eof this then Some (Ready at_eof, this) else read_loop fuel now dns room this
  end.

Definition poll_flush_message this : Poll (outcome unit) * XudpMessageStream b S :=
  let '(p, w, s) := flush_buffer (write_buffer this) (inner_stream this) in (p, set_write this w s).

Definition poll_shutdown_message this : Poll (outcome unit) * XudpMessageStream b S :=
  match poll_flush_message this with
  | (Ready (Ok _), this) =>
      let '(p, s) := poll_shutdown (inner_stream this) in (Messages.poll_outcome p, set_stream this s (is_eof this))
  | r => r
  end.

(** The destination a reply is written with, and whether its session is new. *)
Definition reply_target (id : Z) (target : SocketAddr) this : outcome (NetLocation * bool) * XudpMessageStream b S :=
  match session_to_original_destination this !! id with
  | Some original => (Ok (original, false), this)
  | None =>
      match ensure_session_capacity this (Some id) with
      | Ok _ =>
          let l := Uot.location_of target in
          (Ok (l, true), set_sessions this (<[l := id]> (destination_to_session this))
                           (<[id := l]> (session_to_destination this)) (<[id := l]> (session_to_original_destination this)))
      | Err e => (Err e, this)
      | Panic => (Panic, this)
      end
  end.

Definition poll_write_session_message (id : Z) (buf : bytes) (target : SocketAddr) this
    : Poll (outcome unit) * XudpMessageStream b S :=
  if N.to_nat 65535 <? length buf then (Ready (err InvalidInput "XUDP payload too large"), this)
  else
    let '(p, this) :=
      if bool_decide (contents (write_buffer this) = []) then (Ready (Ok tt), this) else poll_flush_message this in
    match p with
    | Ready (Ok _) =>
        match reply_target id target this with
        | (Err e, this) => (Ready (Err e), this)
        | (Panic, this) => (Ready Panic, this)
        | (Ok (l, is_new), this) =>
            let m := mkMetadata id (if is_new then New else Keep) (with_data FrameOption_new) (Some l) (Some Udp) in
            let '(r, w) := encode_frame m buf (write_buffer this) in
            let this := set_write this w (inner_stream this) in
            match r with
            | Ok _ => poll_flush_message this
            | Err e => (Ready (Err e), this)
            | Panic => (Ready Panic, this)
            end
        end
    | _ => (p, this)
    end.

Definition xudp_supports_ping this : bool := supports_ping (inner_stream this).
Definition xudp_poll_write_ping this : Poll (result bool) * XudpMessageStream b S :=
  let '(p, s) := poll_write_ping (inner_stream this) in (p, set_stream this s (is_eof this)).

End server.
(** ** The client's end *)
Record XudpFixedMessageStream (b S : Type) := mkFixed {
  f_stream : S;
  f_target : NetLocation;
  f_read : b;
  f_write : b;
  f_pending : option bytes;
  f_session : Z;
  f_written : bool;      (* [request_written] *)
  f_eof : bool }.
Arguments mkFixed {b S}.
Arguments f_stream {b S}.
Arguments f_target {b S}.
Arguments f_read {b S}.
Arguments f_write {b S}.
Arguments f_pending {b S}.
Arguments f_session {b S}.
Arguments f_written {b S}.
Arguments f_eof {b S}.

Section client.
Context {b S : Type} `{Buf b, AsyncStream S}.
Implicit Types this : XudpFixedMessageStream b S.

Definition fixed_new (s : S) (target : NetLocation) : XudpFixedMessageStream b S :=
  mkFixed s target (with_capacity 0) (with_capacity 0) None 1 false false.

Definition f_set_read this (s : S) (r : b) (pending : option bytes) (eof : bool) :=
  mkFixed s (f_target this) r (f_write this) pending (f_session this) (f_written this) eof.
Definition f_set_write this (s : S) (w : b) (written : bool) :=
  mkFixed s (f_target this) (f_read this) w (f_pending this) (f_session this) written (f_eof this).

(** One frame off the read buffer: the data of one that has any, and whether
    the session has ended. *)
Definition take_reply (data_len : option nat) : io b (option bytes * bool) :=
  m ← decode_metadata;
  match data_len with
  | None =>
      if has_error (option_bits m) then lift (err ConnectionReset "XUDP session closed by remote with error")
      else mret (None, bool_decide (status m = End_))
  | Some n =>
      if bool_decide (network m = Some Tcp) then lift (err Unsupported "XUDP with TCP destinations is not supported")
      else if has_error (option_bits m) then lift (err ConnectionReset "XUDP session closed by remote with error")
      else
        _ ← skip 2;
        if n =? 0 then mret (None, false) else data ← take_data n; mret (Some data, false)
  end.

(** The message, and whether the session has ended; each time round takes a
    frame off the buffer. *)
Fixpoint message_loop (fuel : nat) (r : b) : option (outcome (option bytes * bool) * b) :=
  match fuel with
  | 0 => None
  | Datatypes.S fuel =>
      match peek_frame (contents r) with
      | Err e => Some (Err e, r)
      | Panic => Some (Panic, r)
      | Ok None => Some (Ok (None, false), r)
      | Ok (Some data_len) =>
          match take_reply data_len r with
          | (Ok (None, false), r) => message_loop fuel r
          | p => Some p
          end
      end
  end.
Definition try_decode_one_message (r : b) : option (outcome (option bytes * bool) * b) :=
  message_loop (Datatypes.S (length (contents r))) r.

Definition f_too_small : outcome bytes := err InvalidData "buffer too small for incoming message".

Definition f_deliver (room : nat) (data : bytes) this : Poll (outcome bytes) * XudpFixedMessageStream b S :=
  if room <? length data
  then (Ready f_too_small, f_set_read this (f_stream this) (f_read this) (Some data) (f_eof this))
  else (Ready (Ok data), this).

Fixpoint f_read_loop (fuel : nat) (room : nat) this : option (Poll (outcome bytes) * XudpFixedMessageStream b S) :=
  match fuel with
  | 0 => None
  | Datatypes.S fuel =>
      match try_decode_one_message (f_read this) with
      | None => None
      | Some (Err e, r) => Some (Ready (Err e), f_set_read this (f_stream this) r (f_pending this) (f_eof this))
      | Some (Panic, r) => Some (Ready Panic, f_set_read this (f_stream this) r (f_pending this) (f_eof this))
      | Some (Ok (data, ended), r) =>
          let this := f_set_read this (f_stream this) r (f_pending this) (f_eof this || ended) in
          match data with
          | Some data => Some (f_deliver room data this)
          | None =>
              if f_eof this then Some (Ready (Ok []), this)
              else
                match poll_read (f_stream this) READ_CHUNK with
                | (Ready (inr bs), s) =>
                    let r := put_slice bs (f_read this) in
                    if length bs =? 0 then
                      let this := f_set_read this s r (f_pending this) true in
                      if bool_decide (contents r = []) then Some (Ready (Ok []), this)
                      else Some (Ready (err UnexpectedEof "EOF reached in the middle of an XUDP frame"), this)
                    else f_read_loop fuel room (f_set_read this s r (f_pending this) (f_eof this))
                | (Ready (inl e), s) => Some (Ready (Err e), f_set_read this s (f_read this) (f_pending this) (f_eof this))
                | (Pending, s) => Some (Pending, f_set_read this s (f_read this) (f_pending this) (f_eof this))
                end
          end
      end
  end.

Definition f_poll_read_message (fuel : nat) (room : nat) this : option (Poll (outcome bytes) * XudpFixedMessageStream b S) :=
  match f_pending this with
  | Some data => Some (f_deliver room data (f_set_read this (f_stream this) (f_read this) None (f_eof this)))
  | None => if f_eof this then Some (Ready (Ok []), this) else f_read_loop fuel room this
  end.

Definition f_poll_flush_message this : Poll (outcome unit) * XudpFixedMessageStream b S :=
  let '(p, w, s) := flush_buffer (f_write this) (f_stream this) in (p, f_set_write this s w (f_written this)).

Definition f_poll_shutdown_message this : Poll (outcome unit) * XudpFixedMessageStream b S :=
  match f_poll_flush_message this with
  | (Ready (Ok _), this) =>
      let '(p, s) := poll_shutdown (f_stream this) in (Messages.poll_outcome p, f_set_write this s (f_write this) (f_written this))
  | r => r
  end.

Definition f_poll_write_message (buf : bytes) this : Poll (outcome unit) * XudpFixedMessageStream b S :=
  if N.to_nat 65535 <? length buf then (Ready (err InvalidInput "XUDP payload too large"), this)
  else
    let '(p, this) :=
      if bool_decide (contents (f_write this) = []) then (Ready (Ok tt), this) else f_poll_flush_message this in
    match p with
    | Ready (Ok _) =>
        let m := mkMetadata (f_session this) (if f_written this then Keep else New) (with_data FrameOption_new)
                   (Some (f_target this)) (Some Udp) in
        let '(r, w) := encode_frame m buf (f_write this) in
        match r with
        | Ok _ => (Ready (Ok tt), f_set_write this (f_stream this) w true)
        | Err e => (Ready (Err e), f_set_write this (f_stream this) w (f_written this))
        | Panic => (Ready Panic, f_set_write this (f_stream this) w (f_written this))
        end
    | _ => (p, this)
    end.

End client.

End XudpStream.
