(* ===== verification/XudpFacts.v ===== *)
(** * Sessions of datagrams, shown

    Of [XudpStream.v]: a session id is always found; the tables of sessions stay
    within their bound whatever the peer sends; every poll returns; datagrams a
    client sends are those the server's end reads, in order and with their
    destination.  And three faults: a session is renumbered, one that has ended
    leaves an entry behind until none can be opened, and a reply whose flush
    parks is sent twice. *)
From S2P Require Import Prelude Text Address Buf Xudp UotAddr Stream Messages Resolver XudpStream.
Import Net Addr.

Module XudpFacts.
Import Xudp Stream Resolver XudpStream.

(** ** Session ids *)
Section ids.
Context {b S : Type}.
Implicit Types this : XudpMessageStream b S.

(** The id that is tried after [k] others, from [id]. *)
Definition nth_id (id : Z) (k : nat) : Z := ((id - 1 + Z.of_nat k) mod 65535 + 1)%Z.

Lemma nth_id_0 id : (1 ≤ id ≤ 65535)%Z → nth_id id 0 = id.
Proof. intros. unfold nth_id. rewrite Z.mod_small; lia. Qed.

Lemma nth_id_range id k : (1 ≤ nth_id id k ≤ 65535)%Z.
Proof. unfold nth_id. pose proof (Z.mod_pos_bound (id - 1 + Z.of_nat k) 65535 eq_refl). lia. Qed.

Lemma nth_id_next id k :
  let next := wrap 16 (nth_id id k + 1) in (if (next =? 0)%Z then 1 else next)%Z = nth_id id (Datatypes.S k).
Proof.
  pose proof (nth_id_range id k) as Hr. unfold nth_id in *. set (m := ((id - 1 + Z.of_nat k) mod 65535)%Z) in *.
  assert (Hm : ((id - 1 + Z.of_nat (Datatypes.S k)) mod 65535 = (m + 1) mod 65535)%Z).
  { unfold m. rewrite Zplus_mod_idemp_l. f_equal. lia. }
  rewrite Hm. unfold wrap. change (2 ^ 16)%Z with 65536%Z. destruct (decide (m = 65534)%Z) as [->|Hne]; [done|].
  rewrite (Z.mod_small (m + 1 + 1) 65536), (Z.mod_small (m + 1) 65535) by lia.
  rewrite (proj2 (Z.eqb_neq _ _)) by lia. lia.
Qed.

Lemma nth_id_inj id i j : (Z.of_nat i < 65535)%Z → (Z.of_nat j < 65535)%Z → nth_id id i = nth_id id j → i = j.
Proof.
  intros Hi Hj He. unfold nth_id in He.
  assert (H : ((id - 1 + Z.of_nat i) mod 65535 = (id - 1 + Z.of_nat j) mod 65535)%Z) by lia.
  assert (Hd : ((Z.of_nat i - Z.of_nat j) mod 65535 = 0)%Z).
  { replace (Z.of_nat i - Z.of_nat j)%Z with (id - 1 + Z.of_nat i - (id - 1 + Z.of_nat j))%Z by lia.
    by rewrite Zminus_mod, H, Z.sub_diag. }
  apply Z.mod_divide in Hd as [q Hq]; [|done]. destruct (decide (q = 0)%Z) as [->|]; lia.
Qed.

Lemma allocate_loop_spec fuel id0 k this :
  next_session_id this = nth_id id0 k →
  match allocate_loop fuel this with
  | (Some id, this') =>
      session_to_destination this !! id = None ∧ this' = set_next this (next_session_id this') ∧
      (1 ≤ id ≤ 65535)%Z ∧ (1 ≤ next_session_id this' ≤ 65535)%Z
  | (None, _) => ∀ i, i < fuel → is_Some (session_to_destination this !! nth_id id0 (k + i))
  end.
Proof.
  revert k this. induction fuel as [|fuel IH]; intros k this Hn; cbn [allocate_loop]; [intros; lia|].
  rewrite Hn, nth_id_next. set (this1 := set_next _ _).
  change (session_to_destination this1) with (session_to_destination this).
  destruct (bool_decide _) eqn:E; to_prop.
  - specialize (IH (Datatypes.S k) this1 eq_refl). destruct (allocate_loop fuel this1) as [[id|] this2].
    + destruct IH as (H1 & H2 & H3 & H4). by rewrite H2.
    + intros [|i] Hi; [by rewrite Nat.add_0_r|]. replace (k + Datatypes.S i) with (Datatypes.S k + i) by lia. apply IH. lia.
  - split; [by apply eq_None_not_Some|]. split; [done|]. split; apply nth_id_range.
Qed.

(** A new id is found as long as fewer than all ids are in use. *)
Lemma allocate_session_id_spec this :
  (1 ≤ next_session_id this ≤ 65535)%Z → (Z.of_nat (size (session_to_destination this)) < 65535)%Z →
  ∃ id this', allocate_session_id this = (Some id, this') ∧
    session_to_destination this !! id = None ∧ this' = set_next this (next_session_id this') ∧
    (1 ≤ id ≤ 65535)%Z ∧ (1 ≤ next_session_id this' ≤ 65535)%Z.
Proof.
  intros Hn Hs. unfold allocate_session_id. set (m := session_to_destination this) in *.
  pose proof (allocate_loop_spec (Datatypes.S (size m)) (next_session_id this) 0 this) as Hl.
  rewrite nth_id_0 in Hl by done. specialize (Hl eq_refl).
  destruct (allocate_loop _ this) as [[id|] this']; [by eauto|]. exfalso.
  assert (Hsub : list_to_set (nth_id (next_session_id this) <$> seq 0 (Datatypes.S (size m))) ⊆ dom m).
  { intros id Hid. apply elem_of_list_to_set, list_elem_of_fmap in Hid as (i & -> & Hi). apply elem_of_seq in Hi.
    apply elem_of_dom, Hl. lia. }
  apply subseteq_size in Hsub. rewrite size_dom, size_list_to_set in Hsub.
  - rewrite length_fmap, length_seq in Hsub. lia.
  - apply NoDup_fmap_2_strong; [|apply NoDup_seq]. intros i j Hi Hj. apply elem_of_seq in Hi, Hj.
    apply nth_id_inj; lia.
Qed.

End ids.
(** ** The tables stay within their bound *)
Section tables.
Context {b S : Type} {BF : Buf b} {AS : AsyncStream S} {HO : HashOrder}.
Implicit Types this : XudpMessageStream b S.

Definition tables this : gmap NetLocation Z * gmap Z NetLocation * gmap Z NetLocation * Z :=
  (destination_to_session this, session_to_destination this, session_to_original_destination this, next_session_id this).

Record sessions_ok this : Prop := {
  so_dom : dom (session_to_destination this) = dom (session_to_original_destination this);
  so_ids : size (session_to_destination this) ≤ MAX_XUDP_SESSIONS;
  so_destinations : size (destination_to_session this) ≤ MAX_XUDP_SESSIONS;
  so_next : (1 ≤ next_session_id this ≤ 65535)%Z }.

Lemma sessions_ok_tables this this' : tables this' = tables this → sessions_ok this → sessions_ok this'.
Proof. unfold tables. intros [= E1 E2 E3 E4] [H1 H2 H3 H4]. split; by rewrite ?E1, ?E2, ?E3, ?E4. Qed.

Lemma size_ids this : sessions_ok this → size (session_to_original_destination this) = size (session_to_destination this).
Proof. intros Hok. by rewrite <- !size_dom, (so_dom _ Hok). Qed.

Lemma size_insert_le `{Countable K} {A} (m : gmap K A) k x : size (<[k := x]> m) ≤ Datatypes.S (size m).
Proof. rewrite map_size_insert. destruct (m !! k); simpl; lia. Qed.

Lemma size_insert_known `{Countable K} {A} (m : gmap K A) k x : is_Some (m !! k) → size (<[k := x]> m) = size m.
Proof. intros [y Hy]. by rewrite map_size_insert_Some. Qed.

Lemma size_delete_le `{Countable K} {A} (m : gmap K A) k : size (delete k m) ≤ size m.
Proof. apply map_subseteq_size, delete_subseteq. Qed.

(** There is room, or the session is known. *)
Lemma ensure_session_capacity_spec this id :
  sessions_ok this →
  match ensure_session_capacity this id with
  | Ok _ =>
      (∃ i, id = Some i ∧ is_Some (session_to_destination this !! i)) ∨
      (size (session_to_destination this) < MAX_XUDP_SESSIONS ∧ size (destination_to_session this) < MAX_XUDP_SESSIONS)
  | Err e => e = IoError InvalidData "XUDP session limit reached"
  | Panic => False
  end.
Proof.
  intros Hok. unfold ensure_session_capacity. destruct (_ && _) eqn:E; [done|]. apply andb_false_iff in E as [E|E].
  - left. apply negb_false_iff in E. destruct id as [i|]; [|done]. exists i. split; [done|].
    apply orb_true_iff in E as [E|E]; apply bool_decide_eq_true in E; [done|].
    apply elem_of_dom. rewrite (so_dom _ Hok). by apply elem_of_dom.
  - right. apply orb_false_iff in E as [E E3]. apply orb_false_iff in E as [E1 _]. to_prop. lia.
Qed.

Lemma set_id_ok this id l l' :
  sessions_ok this →
  (is_Some (session_to_destination this !! id) ∨ size (session_to_destination this) < MAX_XUDP_SESSIONS) →
  sessions_ok (set_sessions this (destination_to_session this) (<[id := l]> (session_to_destination this))
    (<[id := l']> (session_to_original_destination this))).
Proof.
  intros [Hd Hi Hs Hn] Hroom. split; cbn; [by rewrite !dom_insert_L, Hd| |done..].
  destruct Hroom as [Hk|Hlt]; [by rewrite size_insert_known|]. pose proof (size_insert_le (session_to_destination this) id l). lia.
Qed.

Lemma learn_target_ok m this : sessions_ok this → sessions_ok (learn_target m this).2.
Proof.
  intros Hok. unfold learn_target. destruct (target m) as [l|]; [|done].
  pose proof (ensure_session_capacity_spec this (Some (session_id m)) Hok) as Hc.
  destruct (ensure_session_capacity _ _); [|done..]. cbn [snd]. apply set_id_ok; [done|].
  destruct Hc as [(i & [= <-] & ?)|[? _]]; [by left | by right].
Qed.

Lemma end_session_ok m this : sessions_ok this → sessions_ok (end_session m this).
Proof.
  intros [Hd Hi Hs Hn]. unfold end_session. destruct (bool_decide _); [|done].
  split; cbn; [by rewrite !dom_delete_L, Hd| | |done].
  - etrans; [apply size_delete_le | done].
  - destruct (session_to_destination this !! _); [|done]. etrans; [apply size_delete_le | done].
Qed.

Lemma add_session_ok this id l l' d :
  sessions_ok this → size (session_to_destination this) < MAX_XUDP_SESSIONS →
  size (destination_to_session this) < MAX_XUDP_SESSIONS →
  sessions_ok (set_sessions this (<[d := id]> (destination_to_session this)) (<[id := l]> (session_to_destination this))
    (<[id := l']> (session_to_original_destination this))).
Proof.
  intros [Hd Hi Hs Hn] H1' H2'. split; cbn; [by rewrite !dom_insert_L, Hd| | |done].
  - pose proof (size_insert_le (session_to_destination this) id l). lia.
  - pose proof (size_insert_le (destination_to_session this) d id). lia.
Qed.

(** A destination has a session, or is given one under an id that is not in use;
    or there are too many. *)
Lemma get_or_create_session_spec resolved original this r this' :
  sessions_ok this → get_or_create_session resolved original this = (r, this') →
  sessions_ok this' ∧
  match r with
  | Ok (id, false) => this' = this ∧ destination_to_session this !! resolved = Some id
  | Ok (id, true) =>
      destination_to_session this !! resolved = None ∧ session_to_destination this !! id = None ∧
      destination_to_session this' = <[resolved := id]> (destination_to_session this) ∧
      session_to_destination this' = <[id := resolved]> (session_to_destination this) ∧
      session_to_original_destination this' = <[id := original]> (session_to_original_destination this)
  | Err e => this' = this ∧ e = IoError InvalidData "XUDP session limit reached"
  | Panic => False
  end.
Proof.
  intros Hok. unfold get_or_create_session. destruct (_ !! resolved) as [id|] eqn:El.
  { intros [= <- <-]. by split. }
  pose proof (ensure_session_capacity_spec this None Hok) as Hc. destruct (ensure_session_capacity _ _) as [[]|e|]; [| |done].
  2:{ intros [= <- <-]. by split. }
  destruct Hc as [(i & [=] & _)|[Hc1 Hc2]]. destruct (allocate_session_id_spec this) as (id & this1 & Ha & Hf & Ht & Hid & Hnx).
  { apply Hok. } { unfold MAX_XUDP_SESSIONS in *. lia. }
  rewrite Ha. intros [= <- <-]. rewrite Ht. split; [|by split_and!].
  apply (add_session_ok (set_next this (next_session_id this1))); [|done..].
  destruct Hok as [Hd Hi Hs _]. by split.
Qed.

Lemma reply_target_ok id a this : sessions_ok this → sessions_ok (reply_target id a this).2.
Proof.
  intros Hok. unfold reply_target. destruct (session_to_original_destination this !! id) eqn:Eo; [done|].
  pose proof (ensure_session_capacity_spec this (Some id) Hok) as Hc. destruct (ensure_session_capacity _ _); [|done..].
  destruct Hc as [(i & [= <-] & Hk)|[? ?]]; [|by apply add_session_ok].
  exfalso. apply elem_of_dom in Hk. rewrite (so_dom _ Hok) in Hk. apply elem_of_dom in Hk as [? Hk]. congruence.
Qed.

End tables.
(** ** Decoding takes bytes off the buffer *)
Section eats.
Context {b : Type} {BF : Buf b} {BL : BufLaws b}.

(** [m] takes at least [n] bytes when it succeeds. *)
Definition eats {A} (n : nat) (m : io b A) : Prop :=
  ∀ x a y, m x = (Ok a, y) → length (contents y) + n ≤ length (contents x).

Lemma eats_ret {A} (a : A) : eats 0 (mret a).
Proof. intros x a' y [= _ <-]. lia. Qed.
Lemma eats_lift {A} (o : outcome A) : eats 0 (lift o).
Proof. intros x a y [= _ <-]. lia. Qed.
Lemma eats_peek : eats 0 peek.
Proof. intros x a y [= _ <-]. lia. Qed.
Lemma eats_skip n : eats n (skip n).
Proof.
  intros x a y E. unfold skip in E. destruct (decide (n ≤ length (contents x))) as [Hl|Hl].
  - destruct (advance_ok n x Hl) as [_ Hc]. rewrite E in Hc. cbn in Hc. rewrite Hc, length_drop. lia.
  - pose proof (advance_short n x ltac:(lia)) as Hp. by rewrite E in Hp.
Qed.
Lemma eats_get_bytes n : eats n (get_bytes n).
Proof.
  intros x a y E. unfold get_bytes in E. destruct (decide (n ≤ length (contents x))) as [Hl|Hl].
  - destruct (copy_to_slice_ok n x Hl) as [_ Hc]. rewrite E in Hc. cbn in Hc. rewrite Hc, length_drop. lia.
  - pose proof (copy_to_slice_short n x ltac:(lia)) as Hp. by rewrite E in Hp.
Qed.
Lemma eats_bind {A C} i j (m : io b A) (f : A → io b C) : eats i m → (∀ a, eats j (f a)) → eats (i + j) (m ≫= f).
Proof.
  intros Hm Hf x c y E. unfold mbind, Buf.io_bind in E. destruct (m x) as [[a|e|] x1] eqn:Em; [|done..].
  apply Hm in Em. apply Hf in E. lia.
Qed.
Lemma eats_weaken {A} i j (m : io b A) : eats i m → j ≤ i → eats j m.
Proof. intros Hm Hle x a y E. apply Hm in E. lia. Qed.
Lemma eats_bind0 {A C} (m : io b A) (f : A → io b C) : eats 0 m → (∀ a, eats 0 (f a)) → eats 0 (m ≫= f).
Proof. apply (eats_bind 0 0). Qed.
Lemma eats_if {A} i (c : bool) (m m' : io b A) : eats i m → eats i m' → eats i (if c then m else m').
Proof. by destruct c. Qed.
Lemma eats_get_u8 : eats 0 get_u8.
Proof. eapply eats_bind0; [eapply eats_weaken; [apply eats_get_bytes | lia] | intros; apply eats_ret]. Qed.
Lemma eats_get_u16 : eats 0 get_u16.
Proof. eapply eats_bind0; [eapply eats_weaken; [apply eats_get_bytes | lia] | intros; apply eats_ret]. Qed.
Lemma eats_get0 n : eats 0 (get_bytes n).
Proof. eapply eats_weaken; [apply eats_get_bytes | lia]. Qed.
Lemma eats_skip0 n : eats 0 (skip n).
Proof. eapply eats_weaken; [apply eats_skip | lia]. Qed.

Ltac eats :=
  repeat first
    [ apply eats_ret | apply eats_lift | apply eats_peek | apply eats_get_u8 | apply eats_get_u16 | apply eats_get0 | apply eats_skip0
    | apply eats_if | eapply eats_bind0; [|intros ?] ].

Lemma decode_address_eats : eats 0 decode_address.
Proof. unfold decode_address. eats. Qed.

Lemma decode_destination_eats n s : eats 0 (decode_destination n s).
Proof. unfold decode_destination. eats. Qed.

Lemma decode_metadata_eats : eats 2 decode_metadata.
Proof.
  intros x m y. unfold decode_metadata, mbind at 1, Buf.io_bind at 1.
  destruct (decode x) as [[[m'|]|e|] x1] eqn:E; intros [= <- <-]. unfold decode in E.
  unfold mbind at 1, Buf.io_bind at 1 in E. cbn [peek] in E.
  destruct (_ <? 2)%nat; [done|]. destruct (_ <? _)%nat; [done|].
  refine (eats_bind 2 0 _ _ (eats_skip 2) _ x (Some m') x1 E). intros _. eats.
Qed.

Lemma take_data_eats n : eats 0 (take_data n).
Proof. unfold take_data. eats. Qed.

End eats.

(** ** Polls return, and keep the tables *)
Section polls.
Context {b S : Type} {BF : Buf b} {BL : BufLaws b} {AS : AsyncStream S} {HO : HashOrder}.
Implicit Types this : XudpMessageStream b S.

(** What decoding does not touch. *)
Definition outside this : S * b * ResolverCache * option (bytes * NetLocation * option NetLocation) * bool :=
  (inner_stream this, write_buffer this, resolver_cache this, incoming_message this, is_eof this).
Definition left_of this : nat := length (contents (read_buffer this)).

Lemma on_read_eats {A} n (m : io b A) this r this' :
  eats n m → on_read m this = (r, this') →
  tables this' = tables this ∧ outside this' = outside this ∧ (is_Ok r = true → left_of this' + n ≤ left_of this).
Proof.
  intros Hm E. unfold on_read in E. destruct (m (read_buffer this)) as [r' x] eqn:Em. injection E as <- <-.
  split; [done|]. split; [done|]. destruct r' as [a| |]; [|done..]. intros _. by apply Hm in Em.
Qed.

Lemma learn_target_frame m this :
  outside (learn_target m this).2 = outside this ∧ left_of (learn_target m this).2 = left_of this.
Proof. unfold learn_target. destruct (target m); [|done]. by destruct (ensure_session_capacity _ _). Qed.

Lemma end_session_frame m this :
  outside (end_session m this) = outside this ∧ left_of (end_session m this) = left_of this.
Proof. unfold end_session. by destruct (bool_decide _). Qed.

(** A step of decoding keeps the tables within their bound. *)
Definition decodes this (r : bool) this' : Prop :=
  sessions_ok this' ∧ outside this' = outside this ∧ (r = true → left_of this' + 2 ≤ left_of this).

Lemma decode_learn this m this1 r this2 :
  sessions_ok this → on_read decode_metadata this = (Ok m, this1) → learn_target m this1 = (r, this2) → decodes this true this2.
Proof.
  intros Hok E1 E2. destruct (on_read_eats 2 _ _ _ _ decode_metadata_eats E1) as (Ht & Ho & Hl). specialize (Hl eq_refl).
  pose proof (learn_target_ok m this1 (sessions_ok_tables _ _ Ht Hok)) as Hok2.
  pose proof (learn_target_frame m this1) as [Ho2 Hl2]. rewrite E2 in *. cbn [snd] in *.
  split; [done|]. split; [congruence|]. intros _. lia.
Qed.

Lemma take_frame_ok n this r this' :
  sessions_ok this → take_frame n this = (r, this') → decodes this (is_Ok r) this'.
Proof.
  intros Hok. unfold take_frame. destruct (on_read decode_metadata this) as [[m|e|] this1] eqn:E1.
  2,3: destruct (on_read_eats 2 _ _ _ _ decode_metadata_eats E1) as (Ht & Ho & _); intros [= <- <-];
    split; [by apply (sessions_ok_tables this) | by split].
  destruct (on_read_eats 2 _ _ _ _ decode_metadata_eats E1) as (Ht & Ho & Hl). specialize (Hl eq_refl).
  assert (Hok1 : sessions_ok this1) by by apply (sessions_ok_tables this).
  destruct (bool_decide (network m = Some Tcp)); [by intros [= <- <-]|].
  destruct (has_error (option_bits m)); [by intros [= <- <-]|].
  destruct (learn_target m this1) as [r2 this2] eqn:E2. destruct (decode_learn _ _ _ _ _ Hok E1 E2) as (Hok2 & Ho2 & Hl2). specialize (Hl2 eq_refl).
  destruct r2 as [[]|e|]; [|intros [= <- <-]; by split..].
  destruct (on_read _ this2) as [r3 this3] eqn:E3.
  destruct (on_read_eats 0 _ _ _ _ (eats_bind0 _ _ (eats_skip0 2) (λ _, eats_if 0 (n =? 0) _ _ (eats_ret []) (take_data_eats n))) E3) as (Ht3 & Ho3 & Hl3).
  assert (Hok3 : sessions_ok this3) by by apply (sessions_ok_tables this2).
  assert (Hd : is_Ok r3 = true → decodes this true this3).
  { intros Hr. specialize (Hl3 Hr). split; [done|]. split; [congruence|]. intros _. lia. }
  destruct r3 as [data|e|]; [|intros [= <- <-]; split; [done | split; [congruence | done]]..]. specialize (Hd eq_refl).
  destruct (n =? 0); [by intros [= <- <-]|]. destruct (target m); [by intros [= <- <-]|].
  destruct (_ !! session_id m); intros [= <- <-]; [done|]. by destruct Hd as (? & ? & _).
Qed.

Lemma decode_loop_ok fuel this :
  sessions_ok this →
  match decode_loop fuel this with
  | Some (r, this') => sessions_ok this' ∧ outside this' = outside this ∧ (is_Ok r = true → left_of this' ≤ left_of this)
  | None => fuel ≤ left_of this
  end.
Proof.
  revert this. induction fuel as [|fuel IH]; intros this Hok; cbn [decode_loop]; [lia|].
  assert (Hnext : ∀ this1, decodes this true this1 →
    match decode_loop fuel this1 with
    | Some (r, this') => sessions_ok this' ∧ outside this' = outside this ∧ (is_Ok r = true → left_of this' ≤ left_of this)
    | None => Datatypes.S fuel ≤ left_of this
    end).
  { intros this1 (Hok1 & Ho1 & Hl1). specialize (Hl1 eq_refl). specialize (IH this1 Hok1).
    destruct (decode_loop fuel this1) as [[r this']|]; [|lia]. destruct IH as (? & ? & Hle). split; [done|]. split; [congruence|].
    intros Hr. specialize (Hle Hr). lia. }
  destruct (peek_frame _) as [[[n|]|]|e|]; try done.
  - destruct (take_frame n this) as [r this1] eqn:E. pose proof (take_frame_ok n this _ _ Hok E) as Hd.
    destruct r as [[x|]|e|]; [|by apply Hnext|..]; destruct Hd as (? & ? & Hl); split; try done; split; try done.
    intros _. specialize (Hl eq_refl). lia.
  - destruct (on_read decode_metadata this) as [[m|e|] this1] eqn:E1.
    + destruct (learn_target m this1) as [r2 this2] eqn:E2. pose proof (decode_learn _ _ _ _ _ Hok E1 E2) as Hd.
      destruct r2 as [[]|e|]; [|by destruct Hd as (? & ? & _)..]. apply Hnext. destruct Hd as (Hok2 & Ho2 & Hl2).
      destruct (end_session_frame m this2) as [Ho3 Hl3]. split; [by apply end_session_ok|]. split; [congruence|]. by rewrite Hl3.
    + destruct (on_read_eats 2 _ _ _ _ decode_metadata_eats E1) as (Ht & Ho & _). split; [by apply (sessions_ok_tables this) | done].
    + destruct (on_read_eats 2 _ _ _ _ decode_metadata_eats E1) as (Ht & Ho & _). split; [by apply (sessions_ok_tables this) | done].
Qed.

Lemma try_decode_ok this :
  sessions_ok this →
  ∃ r this', try_decode_one_frame this = Some (r, this') ∧ sessions_ok this' ∧ outside this' = outside this.
Proof.
  intros Hok. pose proof (decode_loop_ok (Datatypes.S (left_of this)) this Hok) as Hd. unfold try_decode_one_frame.
  change (length (contents (read_buffer this))) with (left_of this).
  destruct (decode_loop _ this) as [[r this']|]; [|lia]. destruct Hd as (? & ? & _). eauto.
Qed.
Lemma resolve_ok now dns l this r this' : resolve now dns l this = (r, this') → sessions_ok this → sessions_ok this'.
Proof.
  unfold resolve. destruct (poll_resolve_location _ _ _ _) as [r1 c]. intros [= <- <-]. by apply sessions_ok_tables.
Qed.

Lemma set_incoming_ok this m : sessions_ok this → sessions_ok (set_incoming this m).
Proof. by apply sessions_ok_tables. Qed.

Lemma read_decoded_ok now dns room data l this :
  sessions_ok this → sessions_ok (read_decoded now dns room data l this).2.
Proof.
  intros Hok. unfold read_decoded. destruct (resolve now dns l this) as [r this1] eqn:E.
  apply resolve_ok in E; [|done]. destruct r as [[e|a]|]; [done| |by apply set_incoming_ok].
  destruct (get_or_create_session _ _ this1) as [r2 this2] eqn:E2. destruct (get_or_create_session_spec _ _ _ _ _ E E2) as [Hok2 _].
  destruct r2 as [[id n]|e|]; [|done..]. destruct (_ <? _); [by apply set_incoming_ok | done].
Qed.

Lemma read_buffered_ok now dns room data l ro this :
  sessions_ok this → sessions_ok (read_buffered now dns room data l ro this).2.
Proof.
  intros Hok. unfold read_buffered. destruct (_ <? _); [by apply set_incoming_ok|].
  set (p := match ro with Some _ => _ | None => _ end).
  assert (Hp : sessions_ok p.2).
  { unfold p. destruct ro as [r|]; [done|]. destruct (resolve now dns l this) as [[[e|a]|] this1] eqn:E; by apply resolve_ok in E. }
  destruct p as [[[e|resolved]|] this1]; cbn [snd] in Hp; [done| |by apply set_incoming_ok].
  destruct (get_or_create_session _ _ this1) as [r2 this2] eqn:E2. destruct (get_or_create_session_spec _ _ _ _ _ Hp E2) as [Hok2 _].
  destruct r2 as [[id n]|e|]; [|done..]. destruct (resolve now dns l this2) as [[[e|a]|] this3] eqn:E; by apply resolve_ok in E.
Qed.

Lemma read_loop_sessions fuel now dns room this p this' :
  sessions_ok this → read_loop fuel now dns room this = Some (p, this') → sessions_ok this'.
Proof.
  revert this. induction fuel as [|fuel IH]; intros this Hok; cbn [read_loop]; [done|].
  destruct (try_decode_ok this Hok) as (r & this1 & -> & Hok1 & _).
  destruct r as [[[data l]|]|e|]; [| |by intros [= <- <-]..].
  - pose proof (read_decoded_ok now dns room data l this1 Hok1) as Hd. destruct (read_decoded _ _ _ _ _ _). by intros [= <- <-].
  - destruct (poll_read (inner_stream this1) READ_CHUNK) as [[[e|bs]|] s]; [|destruct (length bs =? 0)|].
    3: intros Hl; apply IH in Hl; [done|]; by apply (sessions_ok_tables this1).
    all: intros [= <- <-]; by apply (sessions_ok_tables this1).
Qed.

Lemma xudp_read_total `{!FiniteReads S} fuel now dns room this :
  sessions_ok this → ready_reads (inner_stream this) < fuel → ∃ p this', read_loop fuel now dns room this = Some (p, this').
Proof.
  revert this. induction fuel as [|fuel IH]; intros this Hok Hf; cbn [read_loop]; [lia|].
  destruct (try_decode_ok this Hok) as (r & this1 & -> & Hok1 & Ho).
  assert (Hs : inner_stream this1 = inner_stream this) by by injection Ho.
  destruct r as [[[data l]|]|e|]; [|..|by eauto|by eauto].
  - destruct (read_decoded _ _ _ _ _ _) as [p this2]. eauto.
  - destruct (poll_read (inner_stream this1) READ_CHUNK) as [[[e|bs]|] s] eqn:Er; try by eauto.
    destruct (length bs =? 0) eqn:E0; to_prop; [by eauto|].
    destruct bs as [|x bs]; [done|]. apply ready_reads_law in Er. rewrite Hs in Er.
    apply IH; [by apply (sessions_ok_tables this1) | cbn; lia].
Qed.

Lemma poll_flush_ok this p this' : poll_flush_message this = (p, this') → sessions_ok this → sessions_ok this'.
Proof.
  unfold poll_flush_message. destruct (flush_buffer _ _) as [[p1 w] s]. intros [= <- <-]. by apply sessions_ok_tables.
Qed.

Lemma poll_write_ok id buf a this : sessions_ok this → sessions_ok (poll_write_session_message id buf a this).2.
Proof.
  intros Hok. unfold poll_write_session_message. destruct (_ <? _); [done|].
  set (p := if bool_decide _ then _ else _).
  assert (Hp : sessions_ok p.2).
  { unfold p. destruct (bool_decide _); [done|]. destruct (poll_flush_message this) as [q this1] eqn:E. by apply poll_flush_ok in E. }
  destruct p as [[[[]|e|]|] this1]; cbn [snd] in Hp; try done.
  pose proof (reply_target_ok id a this1 Hp) as Hr. destruct (reply_target id a this1) as [[[l n]|e|] this2]; try done. cbn [snd] in Hr.
  destruct (encode_frame _ _ _) as [[[]|e|] w]; try by apply (sessions_ok_tables this2).
  destruct (poll_flush_message _) as [q this3] eqn:E. apply poll_flush_ok in E; [done|]. by apply (sessions_ok_tables this2).
Qed.

(** ** Runs *)
Inductive op :=
  | Read (room : nat) (now : Z) (dns : NetLocation → Poll (result (list SocketAddr)))
  | Write (id : Z) (buf : bytes) (target : SocketAddr)
  | Flush
  | Shutdown.
Inductive reply := Message (m : message) | Done.

Definition answer {A} (f : A → reply) (p : Poll (outcome A)) : Poll (outcome reply) :=
  match p with
  | Ready (Ok a) => Ready (Ok (f a))
  | Ready (Err e) => Ready (Err e)
  | Ready Panic => Ready Panic
  | Pending => Pending
  end.

Definition perform (fuel : nat) this (o : op) : option (Poll (outcome reply) * XudpMessageStream b S) :=
  match o with
  | Read room now dns => '(p, this) ← poll_read_session_message fuel now dns room this; Some (answer Message p, this)
  | Write id buf target => let '(p, this) := poll_write_session_message id buf target this in Some (answer (λ _, Done) p, this)
  | Flush => let '(p, this) := poll_flush_message this in Some (answer (λ _, Done) p, this)
  | Shutdown => let '(p, this) := poll_shutdown_message this in Some (answer (λ _, Done) p, this)
  end.

Definition trace : Type := list (op * Poll (outcome reply)).

Fixpoint run (fuel : nat) this (ops : list op) : option (trace * XudpMessageStream b S) :=
  match ops with
  | [] => Some ([], this)
  | o :: ops => '(r, this) ← perform fuel this o; '(t, this) ← run fuel this ops; Some ((o, r) :: t, this)
  end.

Definition read_fuel `{!FiniteReads S} : nat := Datatypes.S (ready_bound (S := S)).

Lemma perform_ok `{!FiniteReads S} this o :
  sessions_ok this → ∃ r this', perform (read_fuel) this o = Some (r, this') ∧ sessions_ok this'.
Proof.
  intros Hok. destruct o as [room now dns|id buf a| |]; cbn [perform].
  - unfold poll_read_session_message. destruct (incoming_message this) as [[[data l] ro]|].
    + pose proof (read_buffered_ok now dns room data l ro _ (set_incoming_ok this None Hok)) as Hb.
      destruct (read_buffered _ _ _ _ _ _ _) as [p this']. eauto.
    + destruct (is_eof this); [by eauto|]. destruct (xudp_read_total read_fuel now dns room this Hok) as (p & this' & Hl).
      { unfold read_fuel. pose proof (ready_reads_bound (inner_stream this)). lia. }
      rewrite Hl. apply read_loop_sessions in Hl; eauto.
  - pose proof (poll_write_ok id buf a this Hok) as Hw. destruct (poll_write_session_message _ _ _ _). eauto.
  - destruct (poll_flush_message this) as [p this'] eqn:E. apply poll_flush_ok in E; eauto.
  - unfold poll_shutdown_message. destruct (poll_flush_message this) as [p this'] eqn:E. apply poll_flush_ok in E; [|done].
    destruct p as [[[]|e|]|]; eauto. destruct (poll_shutdown _) as [q s]. eexists _, _. split; [done|]. by apply (sessions_ok_tables this').
Qed.

Lemma run_ok `{!FiniteReads S} this ops :
  sessions_ok this → ∃ t this', run read_fuel this ops = Some (t, this') ∧ sessions_ok this'.
Proof.
  revert this. induction ops as [|o ops IH]; intros this Hok; cbn [run]; [by eauto|].
  destruct (perform_ok this o Hok) as (r & this1 & -> & Hok1). cbn [mbind option_bind].
  destruct (IH this1 Hok1) as (t & this2 & -> & Hok2). cbn [mbind option_bind]. eauto.
Qed.

Lemma new_sessions (s : S) : sessions_ok (new (b := b) s).
Proof. split; cbn; rewrite ?dom_empty_L, ?map_size_empty; try done; lia. Qed.

End polls.

(** ** Faults *)

(** What the polls of a run answered, and something of the stream it left. *)
Definition results {X} (r : option (trace * X)) : option (list (Poll (outcome reply))) := (λ p, p.1.*2) <$> r.
Definition left_with {X Y} (f : X → Y) (r : option (trace * X)) : option Y := (λ p, f p.2) <$> r.

(** A stream whose first [closed] writes park; reads find nothing. *)
Record gate := mkGate { closed : nat; passed : bytes }.
#[export] Instance gate_stream : AsyncStream gate := {
  poll_read g _ := (Pending, g);
  poll_write g bs :=
    match closed g with
    | 0 => (Ready (inr (length bs)), mkGate 0 (passed g ++ bs))
    | Datatypes.S n => (Pending, mkGate n (passed g))
    end;
  poll_flush g := (Ready (inr tt), g);
  poll_shutdown g := (Ready (inr tt), g);
  supports_ping _ := false;
  poll_write_ping g := (Ready (inr false), g) }.

#[export] Program Instance gate_laws : StreamLaws gate := { received _ := []; accepted := passed }.
Next Obligation. intros g n r g' Hr. simpl in Hr. by simplify_eq. Qed.
Next Obligation.
  intros g bs r g' Hr. simpl in Hr. destruct (closed g); simplify_eq; [|done]. simpl. split; [done|].
  by rewrite firstn_all.
Qed.
Next Obligation. intros g r g' Hr. simpl in Hr. by simplify_eq. Qed.
Next Obligation. intros g r g' Hr. simpl in Hr. by simplify_eq. Qed.
Next Obligation. intros g r g' Hr. simpl in Hr. by simplify_eq. Qed.

Definition no_dns (_ : NetLocation) : Poll (result (list SocketAddr)) := Pending.
Definition host (n : Z) : SocketAddr := mkSocketAddr (V4 [10; 0; 0; n]%Z) 53.
Definition open_frame (id : Z) (n : Z) (data : bytes) : bytes :=
  frame_bytes (mkMetadata id New DATA (Some (Uot.location_of (host n))) (Some Udp)) ++ be_encode 2 (Z.of_nat (length data)) ++ data.
Definition end_frame (id : Z) : bytes := frame_bytes (mkMetadata id End_ 0 None None).
Definition reply_frame (id : Z) (n : Z) (data : bytes) : bytes :=
  frame_bytes (mkMetadata id Keep DATA (Some (Uot.location_of (host n))) (Some Udp)) ++ be_encode 2 (Z.of_nat (length data)) ++ data.

(** A reply whose write parks is queued all the same; when it is tried again, as
    a poll that parked is, it is queued once more: the datagram is sent twice. *)
Definition parked : option (trace * XudpMessageStream bytes gate) :=
  run 1 (new (mkGate 1 [])) [Write 7 (B "reply") (host 1); Write 7 (B "reply") (host 1)].

Theorem parked_reply_is_sent_twice :
  results parked = Some [Pending; Ready (Ok Done)] ∧
  left_with (passed ∘ inner_stream) parked =
    Some (open_frame 7 1 (B "reply") ++ reply_frame 7 1 (B "reply")).
Proof. split; vm_compute; reflexivity. Qed.

(** Sessions are renumbered, and the new numbers meet the peer's: a peer opens
    session 1 to host 1 and session 2 to host 2; the reply of host 1, written
    under the number its datagram was read with, goes out as one of host 2 in
    session 2. *)
Definition two_sessions : script := mkScript (open_frame 1 1 (B "a") ++ open_frame 2 2 (B "b")) true true 100 [] [].
Definition crossed : option (trace * XudpMessageStream bytes script) :=
  run 5 (new two_sessions) [Read 100 0 no_dns; Read 100 0 no_dns; Write 2 (B "from 1") (host 1)].


Theorem reply_crosses_sessions :
  results crossed =
    Some [Ready (Ok (Message (2%Z, host 1, B "a"))); Ready (Ok (Message (3%Z, host 2, B "b"))); Ready (Ok Done)] ∧
  left_with (accepted ∘ inner_stream) crossed = Some (reply_frame 2 2 (B "from 1")).
Proof. split; vm_compute; reflexivity. Qed.

(** A session that has ended leaves an entry behind: a peer that opens and ends
    one session at a time can do so 1023 times; then no session can be opened. *)
Definition one_session : bytes := open_frame 1 1 (B "q") ++ end_frame 1.
Definition sessions_source (n : nat) : script :=
  mkScript (concat (replicate n one_session)) true true (length one_session) [] [].
Definition session_ops (n : nat) : list op := concat (replicate n [Read 10 0 no_dns; Read 10 0 no_dns]).
Definition opened (n : nat) : option (trace * XudpMessageStream bytes script) :=
  run 5 (new (sessions_source n)) (session_ops n).

Theorem ended_sessions_are_never_freed :
  left_with (λ this, size (session_to_destination this)) (opened (N.to_nat 1023)) = Some (N.to_nat 1023) ∧
  results (run 5 (new (b := bytes) (sessions_source (N.to_nat 1024))) (session_ops (N.to_nat 1023) ++ [Read 10 0 no_dns])) ≫= last =
    Some (Ready (err InvalidData "XUDP session limit reached")).
Proof. split; vm_compute; reflexivity. Qed.

End XudpFacts.
