(* ===== verification/XudpLink.v ===== *)
(** * Datagrams over XUDP, end to end

    A peer that frames well sends datagrams, of any sessions and to any
    destinations; the server's end of [XudpStream.v] reads them.  [link] says
    that what is read is what was sent, in order and with the address its
    destination resolves to; the client's end of [XudpStream.v] is such a peer. *)
From S2P Require Import Prelude Text Address Buf Xudp UotAddr Stream Messages Resolver XudpStream XudpFacts.
Import Net Addr.

Module XudpLink.
Import Xudp Stream Resolver XudpStream XudpFacts.

(** ** Frames with data *)
Definition frame : Type := FrameMetadata * bytes.
Definition wire (f : frame) : bytes :=
  frame_bytes f.1 ++ be_encode 2 (Z.of_nat (length f.2)) ++ f.2.
Definition wires (fs : list frame) : bytes := concat (wire <$> fs).

Record frame_ok (f : frame) : Prop := {
  fo_meta : metadata_ok f.1;
  fo_carries : status f.1 = New ∨ status f.1 = Keep;
  fo_option : option_bits f.1 = DATA;
  fo_network : network f.1 = Some Udp;
  fo_len : (Z.of_nat (length f.2) ≤ 65535)%Z }.

Lemma carries f : frame_ok f → carries_destination f.1 = true.
Proof. intros [_ [Hs|Hs] _ Hn _]; unfold carries_destination; by rewrite Hs, ?Hn. Qed.

Lemma frame_target f : frame_ok f → ∃ l, target f.1 = Some l.
Proof. intros Hok. destruct (ok_dest _ (fo_meta _ Hok) (carries f Hok)) as (n & t & _ & Ht & _). eauto. Qed.

Lemma wire_split f :
  frame_ok f →
  ∃ hi lo i1 i2 body d1 d2,
    wire f = hi :: lo :: i1 :: i2 :: status_byte (status f.1) :: DATA :: body ++ d1 :: d2 :: f.2 ∧
    Z.to_nat (be_decode [hi; lo]) = 4 + length body ∧ Z.to_nat (be_decode [d1; d2]) = length f.2.
Proof.
  intros [Hm _ Ho _ Hl]. destruct (length_body _ Hm) as [Hb Hd]. unfold wire, frame_bytes.
  assert (Hlen : ∀ z, (0 ≤ z ≤ 65535)%Z → ∃ x y, be_encode 2 z = [x; y] ∧ be_decode [x; y] = z).
  { intros z Hz. exists ((z / 256) mod 256)%Z, (z mod 256)%Z. split; [simpl; by rewrite Z.div_1_r|].
    pose proof (be_decode_encode_small 2 z) as He. simpl in He. rewrite Z.div_1_r in He. apply He. change (256 ^ Z.of_nat 2)%Z with 65536%Z. lia. }
  destruct (Hlen (Z.of_nat (length (body_bytes f.1)))) as (hi & lo & -> & E1); [lia|].
  destruct (Hlen (Z.of_nat (length f.2))) as (d1 & d2 & -> & E2); [lia|].
  assert (Hi : ∃ i1 i2, be_encode 2 (session_id f.1) = [i1; i2]) by (simpl; eauto). destruct Hi as (i1 & i2 & Hi).
  exists hi, lo, i1, i2, (destination_bytes f.1), d1, d2. split.
  - unfold body_bytes. rewrite Hi, Ho. done.
  - rewrite E1, E2, !Nat2Z.id. lia.
Qed.

Lemma length_wire f : frame_ok f → 8 ≤ length (wire f).
Proof. intros Hok. destruct (wire_split f Hok) as (? & ? & ? & ? & ? & ? & ? & -> & _). simpl. rewrite length_app. simpl. lia. Qed.

Lemma status_carries f : frame_ok f → (status_byte (status f.1) =? 3)%Z = false ∧ (status_byte (status f.1) =? 4)%Z = false.
Proof. intros [_ [->| ->] _ _ _]; done. Qed.

(** The whole of a frame is there, or more is asked for. *)
Lemma peek_frame_spec f d fut rest :
  frame_ok f → d ++ fut = wire f ++ rest →
  peek_frame d = Ok (if length (wire f) <=? length d then Some (Some (length f.2)) else None).
Proof.
  intros Hok He. destruct (wire_split f Hok) as (hi & lo & i1 & i2 & body & d1 & d2 & Hw & E1 & E2).
  assert (Hlw : length (wire f) = 8 + length body + length f.2) by (rewrite Hw; simpl; rewrite length_app; simpl; lia).
  unfold peek_frame. rewrite Hw in He.
  destruct (length d <? 2) eqn:L2; to_prop; [by rewrite (proj2 (Nat.leb_gt _ _)) by lia|].
  destruct d as [|hi' [|lo' d]]; [simpl in L2; lia..|]. injection He as -> -> He. change (take 2 (hi :: lo :: d)) with [hi; lo]. rewrite E1.
  cbn [length]. destruct (_ <? 2 + (4 + length body)) eqn:L3; to_prop; [by rewrite (proj2 (Nat.leb_gt _ _)) by lia|].
  rewrite (proj2 (Nat.ltb_ge _ 4)) by lia.
  destruct d as [|i1' [|i2' [|st [|op d]]]]; [simpl in L3; lia..|]. injection He as -> -> -> -> He. cbn [index lookup list_lookup expect].
  cbn [mbind outcome_bind expect lookup list_lookup index Nat.add]. destruct (status_carries f Hok) as [-> ->]. cbn [orb].
  change (has_data DATA) with true. cbn [negb]. cbn [length] in *.
  match goal with |- context [?x <? ?y] => destruct (x <? y) eqn:L4 end; to_prop; [by rewrite (proj2 (Nat.leb_gt _ _)) by lia|].
  assert (Hd : ∃ d', d = body ++ d1 :: d2 :: d').
  { exists (drop (2 + length body) d). rewrite <- (take_drop (length body) d) at 1. f_equal.
    - replace (take (length body) d) with (take (length body) (d ++ fut)) by (rewrite take_app_le by lia; done).
      by rewrite He, <- app_assoc, take_app_length.
    - assert (Hdr : drop (length body) (d ++ fut) = d1 :: d2 :: (f.2 ++ rest)) by (by rewrite He, <- app_assoc, drop_app_length).
      rewrite drop_app_le in Hdr by lia. replace (2 + length body) with (length body + 2) by lia. rewrite <- drop_drop.
      destruct (drop (length body) d) as [|x [|y e]] eqn:Ed;
        [pose proof (f_equal length Ed) as Hc; rewrite length_drop in Hc; simpl in Hc; lia..|].
      by injection Hdr as -> ->. }
  destruct Hd as [d' ->].
  replace (slice _ _ _) with (Ok [d1; d2]).
  2:{ symmetry. change (hi :: lo :: i1 :: i2 :: status_byte (status f.1) :: DATA :: body ++ d1 :: d2 :: d')
        with ((hi :: lo :: i1 :: i2 :: status_byte (status f.1) :: DATA :: body) ++ [d1; d2] ++ d'). apply slice_mid; simpl; lia. }
  cbn [mbind outcome_bind]. rewrite E2. rewrite length_app in *. cbn [length] in *.
  destruct (_ <? _) eqn:L5; to_prop; [by rewrite (proj2 (Nat.leb_gt _ _)) by lia | by rewrite (proj2 (Nat.leb_le _ _)) by lia].
Qed.

Section server.
Context {b S : Type} {BF : Buf b} {BL : BufLaws b} {AS : AsyncStream S} {HO : HashOrder}.
Implicit Types this : XudpMessageStream b S.

Definition limit_error : io_error := IoError InvalidData "XUDP session limit reached".
Definition held this : bytes := contents (read_buffer this).

Lemma on_read_steps {A} (m : io b A) this cs a cs' :
  steps m cs (Ok a) cs' → held this = cs →
  ∃ x, on_read m this = (Ok a, set_read this x) ∧ contents x = cs'.
Proof.
  intros Hm Hc. destruct (Hm (read_buffer this) Hc) as [H1 H2]. unfold on_read.
  destruct (m (read_buffer this)) as [r x]. cbn in *. subst. eauto.
Qed.

Lemma decode_metadata_steps f cs :
  frame_ok f → steps (b := b) decode_metadata (frame_bytes f.1 ++ cs) (Ok f.1) cs.
Proof.
  intros Hok. unfold decode_metadata. step_with decode_steps; [apply Hok|]. unfold Xudp.received. rewrite (carries f Hok). apply steps_ret.
Qed.

Lemma take_data_steps data cs : steps (b := b) (take_data (length data)) (data ++ cs) (Ok data) cs.
Proof.
  unfold take_data. step_with steps_peek. rewrite slice_prefix, take_app_length by (rewrite length_app; lia). step_with steps_lift. step_with steps_skip; [done|]. apply steps_ret.
Qed.

(** A whole frame at the front: its data and target, or the sessions are too many. *)
Lemma take_frame_whole f l rest this :
  frame_ok f → target f.1 = Some l → sessions_ok this → held this = wire f ++ rest →
  ∃ r this', take_frame (length f.2) this = (r, this') ∧
    ((r = Err limit_error) ∨
     (r = Ok (if length f.2 =? 0 then None else Some (f.2, l)) ∧ held this' = rest)).
Proof.
  intros Hok Ht Hs Hh. unfold take_frame, wire in *. rewrite <- !app_assoc in Hh.
  destruct (on_read_steps decode_metadata this _ _ _ (decode_metadata_steps f _ Hok) Hh) as (x & -> & Hx).
  rewrite (fo_network _ Hok). rewrite (bool_decide_false (Some Udp = Some Tcp)) by done.
  rewrite (fo_option _ Hok). change (has_error DATA) with false. cbv iota.
  unfold learn_target. rewrite Ht. pose proof (ensure_session_capacity_spec (set_read this x) (Some (session_id f.1))) as Hc.
  specialize (Hc ltac:(by apply (sessions_ok_tables this))).
  destruct (ensure_session_capacity _ _) as [[]|e|]; [|subst e; eauto|done].
  set (this1 := set_sessions _ _ _ _).
  assert (Hst : steps (b := b) (_ ← skip 2; if length f.2 =? 0 then mret [] else take_data (length f.2))
    (be_encode 2 (Z.of_nat (length f.2)) ++ f.2 ++ rest) (Ok f.2) rest).
  { step_with steps_skip; [apply length_be_encode|]. destruct (length f.2 =? 0) eqn:E; to_prop; [|apply take_data_steps].
    destruct f.2; [|done]. apply steps_ret. }
  destruct (on_read_steps _ this1 _ _ _ Hst Hx) as (y & -> & Hy).
  destruct (length f.2 =? 0); eexists _, _; (split; [done|]); right; done.
Qed.

(** Frames, of which [fut] is still to arrive. *)
Definition frames_held this (fs : list frame) (fut : bytes) : Prop :=
  Forall frame_ok fs ∧ held this ++ fut = wires fs.

Definition is_empty (f : frame) : Prop := f.2 = [].

(** Nothing more can be taken: a part of the next frame is there, if any. *)
Definition starved this (fs : list frame) : Prop :=
  match fs with [] => True | f :: _ => length (held this) < length (wire f) end.

Lemma peek_frames this fs fut :
  frames_held this fs fut →
  (peek_frame (held this) = Ok None ∧ starved this fs) ∨
  ∃ f fs' d, fs = f :: fs' ∧ peek_frame (held this) = Ok (Some (Some (length f.2))) ∧ held this = wire f ++ d ∧ d ++ fut = wires fs'.
Proof.
  intros [Hok He]. destruct fs as [|f fs].
  - left. apply app_eq_nil in He as [-> _]. done.
  - apply Forall_cons in Hok as [Hf Hok]. change (wires (f :: fs)) with (wire f ++ wires fs) in He.
    rewrite (peek_frame_spec f _ _ _ Hf He). destruct (_ <=? _) eqn:E; to_prop; [right|left; done].
    apply app_eq_inv in He as [(k & Hh & Hk)|(k & Hw & Hk)].
    + exists f, fs, k. split_and!; try done. 
    + exists f, fs, []. assert (k = []) as -> by (rewrite Hw, length_app in E; destruct k; [done | simpl in E; lia]).
      rewrite app_nil_r in *. by split_and!.
Qed.

Lemma decode_frames fuel this fs fut r this' :
  frames_held this fs fut → sessions_ok this → decode_loop fuel this = Some (r, this') →
  r = Err limit_error ∨
  ∃ skipped rest, fs = skipped ++ rest ∧ Forall is_empty skipped ∧
    match r with
    | Ok (Some (data, l)) =>
        ∃ f rest', rest = f :: rest' ∧ f.2 = data ∧ data ≠ [] ∧ target f.1 = Some l ∧ frames_held this' rest' fut
    | Ok None => frames_held this' rest fut ∧ starved this' rest
    | _ => False
    end.
Proof.
  revert this fs. induction fuel as [|fuel IH]; intros this fs Hf Hs; cbn [decode_loop]; [done|].
  destruct (peek_frames this fs fut Hf) as [[Hp Hst]|(f & fs' & d & -> & Hp & Hh & Hd)]; unfold held in Hp; rewrite Hp.
  { intros [= <- <-]. right. exists [], fs. done. }
  destruct Hf as [Hok He]. apply Forall_cons in Hok as [Hfo Hok]. destruct (frame_target f Hfo) as [l Hl].
  destruct (take_frame_whole f l d this Hfo Hl Hs Hh) as (r1 & this1 & E & Hr). pose proof (take_frame_ok _ _ _ _ Hs E) as (Hs1 & _). rewrite E.
  destruct Hr as [->|[-> Hh1]]; [intros [= <- <-]; by left|].
  assert (Hf1 : frames_held this1 fs' fut) by (split; [done | by rewrite Hh1]).
  destruct (length f.2 =? 0) eqn:E0; to_prop.
  - intros Hd'. destruct (IH this1 fs' Hf1 Hs1 Hd') as [->|(sk & rest & -> & Hsk & Hr)]; [by left|right].
    exists (f :: sk), rest. split; [done|]. split; [constructor; [by destruct f as [? []] | done] | done].
  - intros [= <- <-]. right. exists [], (f :: fs'). split; [done|]. split; [done|]. exists f, fs'. split_and!; try done. intros En; by rewrite En in E0.
Qed.
(** ** Destinations that resolve *)
Context (addr_of : NetLocation → SocketAddr).

Definition resolves (dns : NetLocation → Poll (result (list SocketAddr))) (l : NetLocation) : Prop :=
  to_socket_addr_nonblocking l = Some (addr_of l) ∨
  to_socket_addr_nonblocking l = None ∧ ∃ rest, dns l = Ready (inr (addr_of l :: rest)).

Definition knows (c : ResolverCache) : Prop :=
  pending c = ∅ ∧ ∀ l e, cache c !! l = Some e → addr e = addr_of l.

Lemma resolve_known c now dns l :
  knows c → resolves dns l →
  ∃ c', poll_resolve_location c now dns l = (Ready (inr (addr_of l)), c') ∧ knows c'.
Proof.
  intros [Hp Hk] Hr. unfold poll_resolve_location. destruct Hr as [->|[-> [rest Hd]]]; [exists c; split; [done | by split]|].
  unfold check_cache.
  assert (Hmiss : ∀ c1, knows c1 → ∃ c', (if negb (bool_decide (l ∈ pending c1)) && (DEFAULT_MAX_PENDING <=? size (pending c1))
    then (Ready (inl (IoError WouldBlock "too many pending DNS lookups")), c1)
    else match dns l with
         | Pending => (Pending, set_pending c1 ({[l]} ∪ pending c1))
         | Ready r => let '(r, c2) := finish (set_pending (set_pending c1 ({[l]} ∪ pending c1)) (pending (set_pending c1 ({[l]} ∪ pending c1)) ∖ {[l]})) now l r in (Ready r, c2)
         end) = (Ready (inr (addr_of l)), c') ∧ knows c').
  { intros c1 [Hp1 Hk1]. rewrite Hp1, Hd. change (size (∅ : gset NetLocation)) with 0. rewrite andb_false_r. cbn [finish].
    eexists. split; [done|]. split; [cbn; set_solver|]. cbn [cache insert_result set_cache]. intros k e Hke.
    apply lookup_insert_Some in Hke as [[<- <-]|[_ Hke]]; [done|]. apply (Hk1 k).
    refine (lookup_weaken _ _ _ _ Hke _). apply (evict_for_insert_spec (cache c1)). }
  destruct (cache c !! l) as [e|] eqn:El; [|by apply Hmiss]. destruct (_ <=? _)%Z.
  - rewrite (Hk _ _ El). eexists. split; [done|]. by split.
  - apply Hmiss. split; [done|]. cbn. intros k e' Hke. apply lookup_delete_Some in Hke as [_ Hke]. by apply (Hk k).
Qed.

(** ** Reading *)
Definition expected (fs : list frame) : list (SocketAddr * bytes) :=
  omap (λ f, match target f.1 with Some l => if length f.2 =? 0 then None else Some (addr_of l, f.2) | None => None end) fs.

Lemma expected_app fs fs' : expected (fs ++ fs') = expected fs ++ expected fs'.
Proof. apply omap_app. Qed.

Lemma expected_empty fs : Forall is_empty fs → expected fs = [].
Proof. induction 1 as [|f fs Hf _ IH]; [done|]. unfold expected in *. cbn. unfold is_empty in Hf. rewrite Hf, IH. by destruct (target f.1). Qed.

(** The datagram that waits for room or for its name. *)
Definition buffered this : list (SocketAddr * bytes) :=
  match incoming_message this with Some (data, l, _) => [(addr_of l, data)] | None => [] end.

Definition resolvable dns this (fs : list frame) : Prop :=
  Forall (λ f, ∀ l, target f.1 = Some l → resolves dns l) fs ∧
  (∀ data l ro, incoming_message this = Some (data, l, ro) → resolves dns l).

Record reading this (fs : list frame) (fut : bytes) : Prop := {
  rd_frames : frames_held this fs fut;
  rd_sessions : sessions_ok this;
  rd_knows : knows (resolver_cache this) }.

Definition delivered_by (p : Poll (outcome message)) : list (SocketAddr * bytes) :=
  match p with Ready (Ok (_, a, data)) => [(a, data)] | _ => [] end.

Definition limited (p : Poll (outcome message)) : Prop := p = Ready (Err limit_error).

(** From a reading of [fs] to one of what is left of them. *)
Definition reads this (p : Poll (outcome message)) this' (fs : list frame) (fut : bytes) : Prop :=
  limited p ∨ ∃ gone fs', fs = gone ++ fs' ∧ reading this' fs' fut ∧
    buffered this ++ expected gone = delivered_by p ++ buffered this' ∧ is_panic p = false ∧
    (∀ data l ro, incoming_message this' = Some (data, l, ro) →
      (∃ f, f ∈ gone ∧ target f.1 = Some l) ∨ ∃ d r, incoming_message this = Some (d, l, r)) ∧
    (p = Pending → buffered this' = [] ∧ starved this' fs').

Lemma resolve_reads now dns l this :
  knows (resolver_cache this) → resolves dns l →
  ∃ c, resolve now dns l this = (Ready (inr (addr_of l)), set_resolver this c) ∧ knows c.
Proof. intros Hk Hr. unfold resolve. destruct (resolve_known _ now dns l Hk Hr) as (c & -> & Hc). eauto. Qed.
(** Only the tables change. *)
Definition same_io this this' : Prop := outside this' = outside this ∧ read_buffer this' = read_buffer this.

Lemma get_or_create_frame resolved original this r this' :
  get_or_create_session resolved original this = (r, this') → same_io this this'.
Proof.
  unfold get_or_create_session. destruct (_ !! resolved); [by intros [= <- <-]|].
  destruct (ensure_session_capacity _ _); [|by intros [= <- <-]..].
  assert (Ha : ∀ fuel this0, same_io this0 (allocate_loop fuel this0).2).
  { induction fuel as [|fuel IH]; intros this0; cbn [allocate_loop]; [done|]. destruct (bool_decide _); [|done].
    specialize (IH (set_next this0 (let next := wrap 16 (next_session_id this0 + 1) in if (next =? 0)%Z then 1%Z else next))). done. }
  specialize (Ha (Datatypes.S (size (session_to_destination this))) this). unfold allocate_session_id.
  destruct (allocate_loop _ this) as [[id|] this1]; by intros [= <- <-].
Qed.

Lemma reading_same this this' fs fut : reading this fs fut → same_io this this' → sessions_ok this' → reading this' fs fut.
Proof.
  intros [[Hok He] Hs Hk] [Ho Hr] Hs'. split; [split; [done|]|done|].
  - unfold held in *. by rewrite Hr.
  - by injection Ho as _ _ -> _ _.
Qed.

Lemma reading_resolver this fs fut c : reading this fs fut → knows c → reading (set_resolver this c) fs fut.
Proof. intros [Hf Hs _] Hc. split; [done| |done]. by apply (sessions_ok_tables this). Qed.

Lemma reading_incoming this fs fut m : reading this fs fut → reading (set_incoming this m) fs fut.
Proof. intros [Hf Hs Hk]. split; [done| |done]. by apply (sessions_ok_tables this). Qed.

Lemma read_decoded_reads now dns room data l this fs fut :
  reading this fs fut → incoming_message this = None → resolves dns l →
  let p := read_decoded now dns room data l this in
  inner_stream p.2 = inner_stream this ∧
  (limited p.1 ∨
   reading p.2 fs fut ∧ [(addr_of l, data)] = delivered_by p.1 ++ buffered p.2 ∧ is_panic p.1 = false ∧ p.1 ≠ Pending ∧
   ∀ d l' r, incoming_message p.2 = Some (d, l', r) → l' = l).
Proof.
  intros Hr Hi Hl. unfold read_decoded. destruct (resolve_reads now dns l this (rd_knows _ _ _ Hr) Hl) as (c & -> & Hc).
  destruct (get_or_create_session _ _ _) as [r2 this2] eqn:E.
  pose proof (reading_resolver _ _ _ c Hr Hc) as Hr1. destruct (get_or_create_session_spec _ _ _ _ _ (rd_sessions _ _ _ Hr1) E) as [Hs2 Hg].
  pose proof (get_or_create_frame _ _ _ _ _ E) as Hsame. pose proof (reading_same _ _ _ _ Hr1 Hsame Hs2) as Hr2.
  destruct Hsame as [Ho Hrd]. injection Ho as Hst _ _ Hin _. cbn [inner_stream set_resolver incoming_message] in Hst, Hin.
  destruct r2 as [[id n]|e|]; [|destruct Hg as [_ ->]; split; [done | by left]|done].
  destruct (_ <? _); cbn [fst snd].
  - split; [done|]. right. split; [by apply reading_incoming|]. split_and!; try done. by intros d l' r [= _ <- _].
  - split; [done|]. right. split_and!; try done; unfold buffered; rewrite Hin, Hi; done.
Qed.

Lemma read_buffered_reads now dns room data l ro this fs fut :
  reading this fs fut → incoming_message this = None → resolves dns l →
  let p := read_buffered now dns room data l ro this in
  inner_stream p.2 = inner_stream this ∧
  (limited p.1 ∨
   reading p.2 fs fut ∧ [(addr_of l, data)] = delivered_by p.1 ++ buffered p.2 ∧ is_panic p.1 = false ∧ p.1 ≠ Pending ∧
   ∀ d l' r, incoming_message p.2 = Some (d, l', r) → l' = l).
Proof.
  intros Hr Hi Hl. unfold read_buffered. destruct (_ <? _).
  { split; [done|]. right. split; [by apply reading_incoming|]. split_and!; try done. by intros d l' r [= _ <- _]. }
  set (q := match ro with Some _ => _ | None => _ end).
  assert (Hq : ∃ resolved c, q = (Ready (inr resolved), set_resolver this c) ∧ knows c).
  { unfold q. destruct ro as [x|].
    - exists x, (resolver_cache this). split; [by destruct this | apply Hr].
    - destruct (resolve_reads now dns l this (rd_knows _ _ _ Hr) Hl) as (c & -> & Hc). eauto. }
  destruct Hq as (resolved & c & -> & Hc).
  destruct (get_or_create_session _ _ _) as [r2 this2] eqn:E.
  pose proof (reading_resolver _ _ _ c Hr Hc) as Hr1. destruct (get_or_create_session_spec _ _ _ _ _ (rd_sessions _ _ _ Hr1) E) as [Hs2 Hg].
  pose proof (get_or_create_frame _ _ _ _ _ E) as Hsame. pose proof (reading_same _ _ _ _ Hr1 Hsame Hs2) as Hr2.
  destruct Hsame as [Ho Hrd]. injection Ho as Hst _ _ Hin _. cbn [inner_stream set_resolver incoming_message] in Hst, Hin.
  destruct r2 as [[id n]|e|]; [|destruct Hg as [_ ->]; split; [done | by left]|done].
  destruct (resolve_reads now dns l this2 (rd_knows _ _ _ Hr2) Hl) as (c2 & -> & Hc2). cbn [fst snd].
  split; [done|]. right. split; [by apply reading_resolver|]. unfold buffered. cbn [incoming_message set_resolver]. by rewrite Hin, Hi.
Qed.
Context {SL : StreamLaws S}.

Definition read_post dns this (p : Poll (outcome message)) this' : Prop :=
  accepted (inner_stream this') = accepted (inner_stream this) ∧
  ∃ got, received (inner_stream this') = received (inner_stream this) ++ got ∧
    ∀ fs fut, resolvable dns this fs → reading this fs (got ++ fut) → reads this p this' fs fut.

Lemma reads_one this p this' gone f rest fut l :
  reading this' rest fut → incoming_message this = None → Forall is_empty gone → target f.1 = Some l → f.2 ≠ [] →
  [(addr_of l, f.2)] = delivered_by p ++ buffered this' → is_panic p = false → p ≠ Pending →
  (∀ d l' r, incoming_message this' = Some (d, l', r) → l' = l) → reads this p this' (gone ++ f :: rest) fut.
Proof.
  intros Hr Hi Hg Ht Hne Hd Hp Hnp Hin. right. exists (gone ++ [f]), rest. split; [by rewrite <- app_assoc|]. split; [done|]. split.
  - rewrite expected_app, (expected_empty gone Hg). unfold buffered at 1. rewrite Hi. cbn. rewrite Ht.
    destruct (length f.2 =? 0) eqn:E; to_prop; [by destruct f.2|]. done.
  - split; [done|]. split; [|done]. intros d l' r Hm. left. exists f. rewrite (Hin _ _ _ Hm). split; [set_solver | done].
Qed.

Lemma reading_outside this this' fs fut fs' :
  reading this fs fut → outside this' = outside this → sessions_ok this' → frames_held this' fs' fut → reading this' fs' fut.
Proof. intros [_ _ Hk] Ho Hs Hf. split; [done..|]. by injection Ho as _ _ -> _ _. Qed.

Lemma reads_starved this p this' gone rest fut :
  reading this' rest fut → incoming_message this = None → incoming_message this' = None → Forall is_empty gone →
  delivered_by p = [] → is_panic p = false → starved this' rest → reads this p this' (gone ++ rest) fut.
Proof.
  intros Hr Hi Hi' Hg Hd Hp Hst. right. exists gone, rest. split; [done|]. split; [done|].
  unfold buffered. rewrite Hi, Hi', (expected_empty gone Hg), Hd. by split_and!; try done; intros ? ? ? [=].
Qed.

Lemma resolvable_tail dns this this' gone rest :
  resolvable dns this (gone ++ rest) → incoming_message this' = None → resolvable dns this' rest.
Proof. intros [Hf _] Hi. split; [by apply Forall_app in Hf as [_ ?]|]. by rewrite Hi. Qed.

Lemma reads_after this this1 p this' gone rest fut :
  incoming_message this = None → incoming_message this1 = None → Forall is_empty gone →
  reads this1 p this' rest fut → reads this p this' (gone ++ rest) fut.
Proof.
  intros Hi Hi1 Hg [?|(g & fs' & -> & Hr & Hd & Hp & Hin & Hpend)]; [by left|right]. exists (gone ++ g), fs'.
  split; [by rewrite app_assoc|]. split; [done|]. rewrite expected_app, (expected_empty gone Hg). unfold buffered in Hd at 1 |- * at 1.
  rewrite Hi1 in Hd. rewrite Hi. split_and!; try done. intros d l r Hm. left. destruct (Hin _ _ _ Hm) as [(f & Hf & Ht)|(? & ? & Hc)].
  - exists f. split; [set_solver | done].
  - by rewrite Hi1 in Hc.
Qed.
Lemma try_decode_frames this r this' fs fut :
  reading this fs fut → incoming_message this = None → try_decode_one_frame this = Some (r, this') →
  r = Err limit_error ∨
  ∃ gone rest, fs = gone ++ rest ∧ Forall is_empty gone ∧ incoming_message this' = None ∧
    match r with
    | Ok (Some (data, l)) =>
        ∃ f rest', rest = f :: rest' ∧ f.2 = data ∧ data ≠ [] ∧ target f.1 = Some l ∧ reading this' rest' fut
    | Ok None => reading this' rest fut ∧ starved this' rest
    | _ => False
    end.
Proof.
  intros Hr Hi E. pose proof (try_decode_ok this (rd_sessions _ _ _ Hr)) as (r0 & this0 & E0 & Hs & Ho). rewrite E in E0. injection E0 as <- <-.
  destruct (decode_frames _ _ _ _ _ _ (rd_frames _ _ _ Hr) (rd_sessions _ _ _ Hr) E) as [->|(sk & rest & -> & Hsk & Hm)]; [by left|right].
  exists sk, rest. split; [done|]. split; [done|]. split; [by injection Ho as _ _ _ -> _|].
  destruct r as [[[data l]|]|e|]; try done.
  - destruct Hm as (f & rest' & -> & Hd & Hne & Ht & Hf). exists f, rest'. split_and!; try done. by eapply (reading_outside this).
  - destruct Hm as [Hf Hst]. split; [|done]. by eapply (reading_outside this).
Qed.

Lemma reading_stream this fs fut s eof : reading this fs fut → reading (set_stream this s eof) fs fut.
Proof. intros [Hf Hs Hk]. split; [done| |done]. by apply (sessions_ok_tables this). Qed.

Lemma reading_more this fs fut bs :
  reading this fs (bs ++ fut) → reading (set_read this (put_slice bs (read_buffer this))) fs fut.
Proof.
  intros [[Hok He] Hs Hk]. split; [split; [done|]|by apply (sessions_ok_tables this)|done].
  unfold held in *. cbn [read_buffer set_read]. rewrite put_slice_ok. by rewrite <- app_assoc.
Qed.

Lemma resolvable_first dns this f l rest gone :
  resolvable dns this (gone ++ f :: rest) → target f.1 = Some l → resolves dns l.
Proof. intros [Hf _] Ht. apply Forall_app in Hf as [_ Hf]. apply Forall_cons in Hf as [Hf _]. by apply Hf. Qed.

(** The transport has nothing to add. *)
Lemma idle_post dns this this1 p s eof :
  sessions_ok this → incoming_message this = None → try_decode_one_frame this = Some (Ok None, this1) →
  inner_stream this1 = inner_stream this → accepted s = accepted (inner_stream this) → received s = received (inner_stream this) →
  delivered_by p = [] → is_panic p = false → read_post dns this p (set_stream this1 s eof).
Proof.
  intros Hs Hi E Hst Ha Hr Hd Hp. split; [done|]. exists []. rewrite app_nil_r. split; [done|]. intros fs fut Hres Hrd.
  destruct (try_decode_frames _ _ _ _ _ Hrd Hi E) as [[=]|(gone & rest & -> & Hg & Hi1 & Hrd1 & Hsv)].
  by apply reads_starved; [apply reading_stream|..].
Qed.

(** A datagram, or an error of decoding: nothing is read. *)
Lemma decoded_post dns this this1 this2 p :
  inner_stream this1 = inner_stream this → inner_stream this2 = inner_stream this1 →
  (∀ fs fut, resolvable dns this fs → reading this fs fut → reads this p this2 fs fut) → read_post dns this p this2.
Proof. intros Hst Hst2 Hq. unfold read_post. rewrite Hst2, Hst. split; [done|]. exists []. by rewrite app_nil_r. Qed.

Lemma read_decoded_stream now dns room data l this :
  inner_stream (read_decoded now dns room data l this).2 = inner_stream this.
Proof.
  unfold read_decoded, resolve. destruct (poll_resolve_location _ _ _ _) as [[[e|a]|] c]; [done| |done].
  destruct (get_or_create_session _ _ _) as [r2 this2] eqn:E2. apply get_or_create_frame in E2 as [Ho2 _]. injection Ho2 as Hst2 _ _ _ _.
  destruct r2 as [[id n]|e|]; [destruct (_ <? _)|..]; done.
Qed.

Lemma read_loop_post fuel now dns room this p this' :
  sessions_ok this → incoming_message this = None → read_loop fuel now dns room this = Some (p, this') → read_post dns this p this'.
Proof.
  revert this. induction fuel as [|fuel IH]; intros this Hs Hi; cbn [read_loop]; [done|].
  destruct (try_decode_ok this Hs) as (r & this1 & E & Hs1 & Ho). rewrite E.
  assert (Hst : inner_stream this1 = inner_stream this) by by injection Ho.
  assert (Hi1 : incoming_message this1 = None) by (injection Ho as _ _ _ -> _; done).
  destruct r as [[[data l]|]|e|].
  - intros Heq. assert (Hp : read_decoded now dns room data l this1 = (p, this')) by congruence. clear Heq.
    pose proof (read_decoded_stream now dns room data l this1) as Hst2. rewrite Hp in Hst2.
    apply (decoded_post dns this this1); [done..|]. intros fs fut Hres Hrd.
    destruct (try_decode_frames _ _ _ _ _ Hrd Hi E) as [[=]|(gone & rest & -> & Hg & _ & f & rest' & -> & Hd & Hne & Ht & Hrd1)].
    pose proof (read_decoded_reads now dns room data l this1 rest' fut Hrd1 Hi1 (resolvable_first _ _ _ _ _ _ Hres Ht)) as [_ Hread].
    rewrite Hp in Hread. destruct Hread as [?|(Hr2 & Hd2 & Hnp & Hnpd & Hin)]; [by left|]. subst data. by apply (reads_one this p this' gone f rest' fut l).
  - destruct (poll_read (inner_stream this1) READ_CHUNK) as [[[e|bs]|] s] eqn:Er; pose proof (read_law _ _ _ _ Er) as [Ha Hrc]; rewrite Hst in *.
    + intros [= <- <-]. by apply idle_post.
    + destruct Hrc as [_ Hrc]. destruct (length bs =? 0) eqn:E0; to_prop.
      { destruct bs; [|done]. rewrite app_nil_r in Hrc. intros [= <- <-]. by apply idle_post. }
      set (this2 := set_read _ _). intros Hloop. destruct (IH this2) as (Ha2 & got & Hg2 & Hp2); [by apply (sessions_ok_tables this1) | done | done|].
      split; [rewrite Ha2; done|]. exists (bs ++ got). split; [rewrite Hg2, app_assoc; cbn; by rewrite Hrc|].
      intros fs fut Hres Hrd. rewrite <- app_assoc in Hrd.
      destruct (try_decode_frames _ _ _ _ _ Hrd Hi E) as [[=]|(gone & rest & -> & Hg & _ & Hrd1 & Hsv)].
      apply (reads_after this this2); [done..|]. apply Hp2; [by apply (resolvable_tail dns this _ gone)|].
      exact (reading_more _ _ _ _ (reading_stream _ _ _ _ _ Hrd1)).
    + intros [= <- <-]. by apply idle_post.
  - intros [= <- <-]. apply (decoded_post dns this this1); [done..|]. intros fs fut Hres Hrd.
    destruct (try_decode_frames _ _ _ _ _ Hrd Hi E) as [[= ->]|(gone & rest & _ & _ & _ & [])]. by left.
  - intros [= <- <-]. apply (decoded_post dns this this1); [done..|]. intros fs fut Hres Hrd.
    destruct (try_decode_frames _ _ _ _ _ Hrd Hi E) as [[=]|(gone & rest & _ & _ & _ & [])].
Qed.
Lemma poll_read_post fuel now dns room this p this' :
  sessions_ok this → poll_read_session_message fuel now dns room this = Some (p, this') → read_post dns this p this'.
Proof.
  intros Hs. unfold poll_read_session_message. destruct (incoming_message this) as [[[data l] ro]|] eqn:Hi.
  - intros Heq. injection Heq as Hp. set (this1 := set_incoming this None) in *.
    assert (Hst : inner_stream this' = inner_stream this).
    { replace this' with (read_buffered now dns room data l ro this1).2 by (by rewrite Hp). unfold read_buffered.
      destruct (_ <? _); [done|]. set (q := match ro with Some _ => _ | None => _ end).
      assert (Hq : inner_stream q.2 = inner_stream this).
      { unfold q, resolve. destruct ro; [done|]. by destruct (poll_resolve_location _ _ _ _) as [[[e|a]|] c]. }
      destruct q as [[[e|x]|] this2]; [done| |done]. destruct (get_or_create_session _ _ _) as [r2 this3] eqn:E2.
      apply get_or_create_frame in E2 as [Ho2 _]. injection Ho2 as Hst2 _ _ _ _. cbn [snd] in Hq.
      destruct r2 as [[id n]|e|]; try (cbn; congruence). unfold resolve. destruct (poll_resolve_location _ _ _ _) as [[[e|a]|] c]; cbn; congruence. }
    apply (decoded_post dns this this); [done..|]. intros fs fut [_ Hres] Hrd. specialize (Hres _ _ _ Hi).
    destruct (read_buffered_reads now dns room data l ro this1 fs fut) as [_ Hb]; [by apply reading_incoming | done | done|].
    rewrite Hp in Hb. destruct Hb as [?|(Hr2 & Hd2 & Hnp & Hnpd & Hin)]; [by left|right]. exists [], fs. split; [done|]. split; [done|].
    split; [unfold buffered at 1; by rewrite Hi|]. split; [done|]. split; [|done]. intros d l' r Hm. right. rewrite (Hin _ _ _ Hm). eauto.
  - destruct (is_eof this); [|by apply read_loop_post]. intros [= <- <-]. apply (decoded_post dns this this); [done..|].
    intros fs fut _ Hrd. right. exists [], fs. unfold buffered. rewrite Hi. by split_and!; try done; intros ? ? ? [=].
Qed.

(** ** Everything else leaves the reader alone *)
Definition side_post this this' : Prop :=
  received (inner_stream this') = received (inner_stream this) ∧
  incoming_message this' = incoming_message this ∧ (sessions_ok this → sessions_ok this') ∧
  ∀ fs fut, reading this fs fut → reading this' fs fut.

Lemma side_post_of this this' :
  received (inner_stream this') = received (inner_stream this) → incoming_message this' = incoming_message this →
  (sessions_ok this → sessions_ok this') → read_buffer this' = read_buffer this → resolver_cache this' = resolver_cache this →
  side_post this this'.
Proof.
  intros Hr Hi Hs Hb Hc. split_and!; try done. intros fs fut [[Hok He] Hs1 Hk]. split; [split; [done|]|by apply Hs|by rewrite Hc].
  unfold held in *. by rewrite Hb.
Qed.

Lemma side_post_refl this : side_post this this.
Proof. by split_and!. Qed.

Lemma side_post_trans this this1 this2 : side_post this this1 → side_post this1 this2 → side_post this this2.
Proof. intros (H1 & H2 & H3 & H4) (H1' & H2' & H3' & H4'). split_and!; [congruence..| |]; eauto. Qed.

Lemma flush_buffer_received (w : b) (s : S) p w' s' : flush_buffer w s = (p, w', s') → received s' = received s.
Proof.
  unfold flush_buffer. destruct (Messages.drain _ _ _ _) as [[q sent] s1] eqn:Ed. apply Messages.drain_spec in Ed as (_ & Hr & _); [|lia].
  destruct (advance sent w) as [[[]|e|] w1]; [|intros [= _ _ <-]; done..].
  destruct q as [[[]|e|]|]; try by intros [= _ _ <-]. destruct (poll_flush s1) as [pf s2] eqn:Ef. apply flush_law in Ef as [Hf _].
  intros [= _ _ <-]. congruence.
Qed.

Lemma poll_flush_side this p this' : poll_flush_message this = (p, this') → side_post this this'.
Proof.
  unfold poll_flush_message. destruct (flush_buffer _ _) as [[q w] s] eqn:E. apply flush_buffer_received in E. intros [= _ <-].
  apply side_post_of; try done. by apply sessions_ok_tables.
Qed.

Lemma poll_shutdown_side this p this' : poll_shutdown_message this = (p, this') → side_post this this'.
Proof.
  unfold poll_shutdown_message. destruct (poll_flush_message this) as [q this1] eqn:E. apply poll_flush_side in E.
  destruct q as [[[]|e|]|]; try by intros [= _ <-]. destruct (poll_shutdown _) as [ps s] eqn:Es. apply shutdown_law in Es as [Hr _].
  intros [= _ <-]. eapply side_post_trans; [done|]. apply side_post_of; try done. by apply sessions_ok_tables.
Qed.

Lemma poll_write_side id buf a this p this' : poll_write_session_message id buf a this = (p, this') → side_post this this'.
Proof.
  unfold poll_write_session_message. destruct (_ <? _); [intros [= _ <-]; apply side_post_refl|].
  set (q := if bool_decide _ then _ else _).
  assert (Hq : side_post this q.2).
  { unfold q. destruct (bool_decide _); [apply side_post_refl|]. destruct (poll_flush_message this) eqn:E. by apply poll_flush_side in E. }
  destruct q as [[[[]|e|]|] this1]; cbn [snd] in Hq; try by intros [= _ <-].
  assert (Hrt : side_post this1 (reply_target id a this1).2).
  { apply side_post_of; [| |apply reply_target_ok|..]; 
      unfold reply_target; (destruct (_ !! id); [done|]); by destruct (ensure_session_capacity this1 _). }
  destruct (reply_target id a this1) as [[[l n]|e|] this2]; cbn [snd] in Hrt; [|intros [= _ <-]; by eapply side_post_trans..].
  destruct (encode_frame _ _ _) as [r w]. set (this3 := set_write _ _ _).
  assert (H3 : side_post this this3).
  { do 2 (eapply side_post_trans; [done|]). apply side_post_of; try done. by apply sessions_ok_tables. }
  destruct r as [[]|e|]; [|by intros [= _ <-]..]. intros E. apply poll_flush_side in E. by eapply side_post_trans.
Qed.
(** ** Runs *)
Definition delivered (t : trace) : list (SocketAddr * bytes) :=
  concat ((λ e, match e.2 with Ready (Ok (Message (_, a, data))) => [(a, data)] | _ => [] end) <$> t).

(** No read found too many sessions. *)
Definition unlimited (t : trace) : Prop :=
  Forall (λ e, match e with (Read _ _ _, r) => r ≠ Ready (Err limit_error) | _ => True end) t.

(** The last poll is a read that waits for the transport. *)
Definition settled (t : trace) : Prop :=
  match last t with Some (Read _ _ _, Pending) => True | _ => False end.

(** No read panics. *)
Definition calm (t : trace) : Prop :=
  Forall (λ e, match e with (Read _ _ _, r) => is_panic r = false | _ => True end) t.

Definition ops_resolve (all : list frame) (ops : list op) : Prop :=
  Forall (λ o, match o with
               | Read _ _ dns => Forall (λ f, ∀ l, target f.1 = Some l → resolves dns l) all
               | _ => True
               end) ops.

Definition incoming_known (all : list frame) this : Prop :=
  ∀ data l ro, incoming_message this = Some (data, l, ro) → ∃ f, f ∈ all ∧ target f.1 = Some l.

(** What a run makes of the frames that arrive. *)
Definition run_reads (all : list frame) this (t : trace) this' (fs : list frame) (fut : bytes) : Prop :=
  ∃ gone fs', fs = gone ++ fs' ∧ reading this' fs' fut ∧
    buffered this ++ expected gone = delivered t ++ buffered this' ∧ calm t ∧ incoming_known all this' ∧
    (settled t → buffered this' = [] ∧ starved this' fs').

Definition op_post this (o : op) (r : Poll (outcome reply)) this' : Prop :=
  (sessions_ok this → sessions_ok this') ∧
  ∃ got, received (inner_stream this') = received (inner_stream this) ++ got ∧
    ∀ all fs fut, fs ⊆ all → ops_resolve all [o] → incoming_known all this → reading this fs (got ++ fut) →
      unlimited [(o, r)] → run_reads all this [(o, r)] this' fs fut.

Lemma side_op this o r this' :
  side_post this this' → (if o is Read _ _ _ then False else True) → (if r is Ready (Ok (Message _)) then False else True) →
  op_post this o r this'.
Proof.
  intros (Hr & Hi & Hs & Hrd) Ho Hm. split; [done|]. exists []. rewrite app_nil_r. split; [done|]. intros all fs fut _ _ Hk Hread _.
  exists [], fs. split; [done|]. split; [by apply Hrd|]. unfold buffered, incoming_known, settled, calm. rewrite Hi. split_and!; try done.
  - destruct r as [[[]|e|]|]; cbn; by rewrite ?app_nil_r.
  - constructor; [by destruct o | done].
  - intros Hst. by destruct o.
Qed.

Lemma perform_post fuel this o r this' :
  sessions_ok this → perform fuel this o = Some (r, this') → op_post this o r this'.
Proof.
  intros Hs. destruct o as [room now dns|id buf a| |]; cbn [perform].
  - destruct (poll_read_session_message fuel now dns room this) as [[p this1]|] eqn:E; [|done]. cbn [mbind option_bind]. intros [= <- <-].
    destruct (poll_read_post _ _ _ _ _ _ _ Hs E) as (_ & got & Hg & Hp). split.
    { intros _. unfold poll_read_session_message in E. destruct (incoming_message this) as [[[data l] ro]|].
      - injection E as E. pose proof (read_buffered_ok now dns room data l ro _ (set_incoming_ok this None Hs)) as Hb. by rewrite E in Hb.
      - destruct (is_eof this); [by injection E as <- <-|]. clear Hp. by eapply read_loop_sessions. }
    exists got. split; [done|]. intros all fs fut Hsub Hres Hk Hrd Hu. apply Forall_cons in Hres as [Hres _]. apply Forall_cons in Hu as [Hu _].
    destruct (Hp fs fut) as [Hl|(gone & fs' & -> & Hrd' & Hd & Hpn & Hin & Hpend)].
    { split; [|intros data l ro Hi; destruct (Hk _ _ _ Hi) as (f & Hf & Ht)]; rewrite Forall_forall in Hres.
      - apply Forall_forall. intros f Hf. by apply Hres, Hsub.
      - by apply (Hres f). }
    { done. }
    { by rewrite Hl in Hu. }
    exists gone, fs'. split; [done|]. split; [done|]. split; [|split; [|split]].
    + rewrite Hd. destruct p as [[[[? ?] ?]|e|]|]; cbn; by rewrite ?app_nil_r.
    + constructor; [|done]. by destruct p as [[[[? ?] ?]|e|]|].
    + intros d l r Hm. destruct (Hin _ _ _ Hm) as [(f & Hf & Ht)|(? & ? & Hm')]; [|by eapply Hk]. exists f. split; [|done]. apply Hsub. set_solver.
    + intros Hst. apply Hpend. by destruct p as [[[[? ?] ?]|e|]|].
  - destruct (poll_write_session_message _ _ _ _) as [p this1] eqn:E. intros [= <- <-]. apply poll_write_side in E.
    apply side_op; [done..|]. by destruct p as [[[]|e|]|].
  - destruct (poll_flush_message _) as [p this1] eqn:E. intros [= <- <-]. apply poll_flush_side in E.
    apply side_op; [done..|]. by destruct p as [[[]|e|]|].
  - destruct (poll_shutdown_message _) as [p this1] eqn:E. intros [= <- <-]. apply poll_shutdown_side in E.
    apply side_op; [done..|]. by destruct p as [[[]|e|]|].
Qed.
Lemma xudp_run_post fuel this ops t this' :
  sessions_ok this → run fuel this ops = Some (t, this') →
  ∃ got, received (inner_stream this') = received (inner_stream this) ++ got ∧
    ∀ all fs fut, fs ⊆ all → ops_resolve all ops → incoming_known all this → reading this fs (got ++ fut) →
      unlimited t → run_reads all this t this' fs fut.
Proof.
  revert this t. induction ops as [|o ops IH]; intros this t Hs; cbn [run].
  { intros [= <- <-]. exists []. rewrite app_nil_r. split; [done|]. intros all fs fut _ _ Hk Hrd _. exists [], fs. split_and!; try done; [by rewrite app_nil_r | by constructor]. }
  destruct (perform fuel this o) as [[r this1]|] eqn:E; [|done]. cbn [mbind option_bind].
  destruct (run fuel this1 ops) as [[t1 this2]|] eqn:Er; [|done]. cbn [mbind option_bind]. intros [= <- <-].
  destruct (perform_post _ _ _ _ _ Hs E) as (Hs1 & g1 & Hg1 & Hp1). destruct (IH this1 t1 (Hs1 Hs) Er) as (g2 & Hg2 & Hp2).
  exists (g1 ++ g2). split; [by rewrite Hg2, Hg1, app_assoc|]. intros all fs fut Hsub Hres Hk Hrd Hu.
  apply Forall_cons in Hres as [Hro Hres]. apply Forall_cons in Hu as [Huo Hu]. rewrite <- app_assoc in Hrd.
  destruct (Hp1 all fs (g2 ++ fut) Hsub) as (gone1 & fs1 & -> & Hrd1 & Hd1 & Hc1 & Hk1 & Hst1); [by constructor.. | done | done | by constructor|].
  destruct (Hp2 all fs1 fut) as (gone2 & fs2 & -> & Hrd2 & Hd2 & Hc2 & Hk2 & Hst2); [set_solver | done..|].
  exists (gone1 ++ gone2), fs2. split; [by rewrite app_assoc|]. split; [done|]. split; [|split; [|split; [done|]]].
  - rewrite expected_app, app_assoc, Hd1. change (delivered ((o, r) :: t1)) with (delivered ([(o, r)] ++ t1)). unfold delivered in *.
    rewrite fmap_app, concat_app, <- !app_assoc. f_equal. exact Hd2.
  - by apply Forall_cons in Hc1 as [? _]; constructor.
  - intros Hst. destruct t1 as [|e t1]; [|by apply Hst2]. destruct ops as [|o' ops].
    + injection Er as <-. destruct gone2 as [|f gone2]; [by apply Hst1|]. exfalso.
      destruct Hrd1 as [[Hok1 He1] _ _], Hrd2 as [[_ He2] _ _].
      assert (g2 = []) as -> by (apply (app_inv_head (received (inner_stream this1))); by rewrite <- Hg2, app_nil_r).
      change ([] ++ fut) with fut in He1. rewrite He2 in He1. unfold wires in He1. rewrite fmap_app, concat_app in He1.
      apply (f_equal length) in He1. apply Forall_cons in Hok1 as [Hf _]. pose proof (length_wire f Hf).
      cbn [fmap list_fmap concat] in He1. rewrite !length_app in He1. lia.
    + cbn [run] in Er. destruct (perform fuel this1 o') as [[]|]; [|done]. cbn [mbind option_bind] in Er. by destruct (run _ _ ops) as [[]|].
Qed.

End server.

Lemma xudp_link {b S} `{BufLaws b, AsyncStream S, !StreamLaws S, HashOrder}
    addr_of fuel (s : S) fs fed b0 ops t this got more :
  feed_initial_read_data fed (new (b := b) s) = Ok b0 → run fuel b0 ops = Some (t, this) →
  Forall frame_ok fs → ops_resolve addr_of fs ops → unlimited t →
  received (inner_stream this) = received s ++ got → fed ++ got ++ more = wires fs →
  delivered t `prefix_of` expected addr_of fs ∧ calm t ∧
  (settled t → more = [] → delivered t = expected addr_of fs).
Proof.
  intros Hfeed Hrun Hok Hres Hu Hgot Hwire. injection Hfeed as <-.
  set (b0 := if bool_decide (fed = []) then _ else _) in *.
  assert (Hb : held b0 = fed ∧ tables b0 = tables (new (b := b) s) ∧ outside b0 = outside (new (b := b) s)).
  { unfold b0, held. destruct (bool_decide (fed = [])) eqn:E; [apply bool_decide_eq_true in E as ->|];
      cbn; rewrite ?put_slice_ok, ?with_capacity_ok; done. }
  destruct Hb as (Hheld & Htab & Hout). injection Hout as Hst Hwb Hrc Hin Heof.
  assert (Hs0 : sessions_ok b0) by (apply (sessions_ok_tables _ _ Htab), new_sessions).
  destruct (xudp_run_post addr_of fuel b0 ops t this Hs0 Hrun) as (g & Hg & Hp). rewrite Hst in Hg. rewrite Hgot in Hg. apply app_inv_head in Hg as <-.
  destruct (Hp fs fs more) as (gone & fs' & -> & Hrd & Hd & Hc & _ & Hsettle); try done.
  { unfold incoming_known. by rewrite Hin. }
  { split; [split; [done|]|done|]. - by rewrite Hheld. - rewrite Hrc. by split. }
  assert (Hbuf : buffered addr_of b0 = []) by (unfold buffered; by rewrite Hin). rewrite Hbuf in Hd. cbn [app] in Hd.
  rewrite expected_app, Hd. split; [rewrite <- app_assoc; by eexists|]. split; [done|]. intros Hst' ->.
  destruct (Hsettle Hst') as [Hb' Hstv]. rewrite Hb', app_nil_r. destruct fs' as [|f fs']; [by rewrite app_nil_r|]. exfalso.
  destruct Hrd as [[Hokf He] _ _]. cbn [starved] in Hstv. rewrite app_nil_r in He. rewrite He in Hstv.
  change (wires (f :: fs')) with (wire f ++ wires fs') in Hstv. rewrite length_app in Hstv. lia.
Qed.
(** Datagrams of many sessions are read exactly: a peer sends well-formed
    frames of any sessions and destinations; whatever pieces they arrive in and
    whatever is polled in between, the datagrams with bytes that the reads give
    are the first of those sent, in order and each with the address of its own
    destination, no read panics, and when a read waits after all bytes have
    arrived every datagram has been given; provided the destinations resolve
    and no read finds too many sessions. *)
Theorem xudp_datagrams_are_exact {b S} `{BufLaws b, AsyncStream S, !StreamLaws S, HashOrder}
    addr_of fuel (s : S) fs fed b0 ops t this got more :
  feed_initial_read_data fed (new (b := b) s) = Ok b0 → run fuel b0 ops = Some (t, this) →
  Forall frame_ok fs → ops_resolve addr_of fs ops → unlimited t →
  received (inner_stream this) = received s ++ got → fed ++ got ++ more = wires fs →
  delivered t `prefix_of` expected addr_of fs ∧ calm t ∧
  (settled t → more = [] → delivered t = expected addr_of fs).
Proof. by apply xudp_link. Qed.

(** ** The client's end is such a peer *)
Section client.
Context {b S : Type} {BF : Buf b} {BL : BufLaws b} {AS : AsyncStream S} {SL : StreamLaws S}.
Implicit Types this : XudpFixedMessageStream b S.

Definition client_meta (target : NetLocation) (again : bool) : FrameMetadata :=
  mkMetadata 1 (if again then Keep else New) DATA (Some target) (Some Udp).
(** The first frame opens the session. *)
Definition client_frames (target : NetLocation) (ds : list bytes) : list frame :=
  imap (λ i d, (client_meta target (negb (i =? 0)), d)) ds.

Definition target_ok (l : NetLocation) : Prop := in_width 16 (port l) ∧ wire_address (address l).
Definition fits (d : bytes) : Prop := (Z.of_nat (length d) ≤ 65535)%Z.

Lemma client_meta_ok l again : target_ok l → metadata_ok (client_meta l again).
Proof.
  intros [Hp Ha]. split; [done | done|]. intros _. eexists _, _. split; [done|]. split; [done|]. by split.
Qed.

Lemma client_frames_ok l ds : target_ok l → Forall fits ds → Forall frame_ok (client_frames l ds).
Proof.
  intros Hl Hd. apply Forall_lookup. intros i f Hf. unfold client_frames in Hf. rewrite list_lookup_imap in Hf.
  destruct (ds !! i) as [d|] eqn:E; [|done]. injection Hf as <-. split; cbn; try done.
  - by apply client_meta_ok.
  - destruct (negb _); [by right | by left].
  - exact (Forall_lookup_1 _ _ _ _ Hd E).
Qed.

Lemma client_frames_snoc l ds d :
  client_frames l (ds ++ [d]) = client_frames l ds ++ [(client_meta l (negb (length ds =? 0)), d)].
Proof. unfold client_frames. rewrite imap_app. cbn. by rewrite Nat.add_0_r. Qed.

(** What has been sent and what is still in the write buffer are the frames of
    the datagrams [ds]. *)
Record sending (s0 : S) (l : NetLocation) this (ds : list bytes) : Prop := {
  sd_target : f_target this = l;
  sd_session : f_session this = 1%Z;
  sd_written : f_written this = negb (length ds =? 0);
  sd_fits : Forall fits ds;
  sd_wire : accepted (f_stream this) ++ contents (f_write this) = accepted s0 ++ wires (client_frames l ds) }.

Lemma flush_buffer_spec (w : b) (s : S) p w' s' :
  flush_buffer w s = (p, w', s') →
  accepted s' ++ contents w' = accepted s ++ contents w ∧ is_panic p = false ∧ (p = Ready (Ok tt) → contents w' = []).
Proof.
  unfold flush_buffer. destruct (Messages.drain _ _ _ _) as [[q sent] s1] eqn:Ed.
  apply Messages.drain_spec in Ed as (Hsent & _ & Ha & Hnp & Hall); [|lia].
  destruct (advance_ok sent w) as [H1 H2]; [lia|]. destruct (advance sent w) as [r w1]. cbn in H1, H2. subst r.
  assert (Hw1 : accepted s1 ++ contents w1 = accepted s ++ contents w) by (rewrite H2, Ha; by rewrite drop_0).
  destruct q as [[[]|e|]|]; try by intros [= <- <- <-].
  destruct (poll_flush s1) as [pf s2] eqn:Ef. apply flush_law in Ef as [_ Hf]. intros [= <- <- <-]. rewrite Hf.
  split; [done|]. split; [by destruct pf as [[]|]|]. intros _. rewrite H2, (Hall eq_refl). apply drop_all.
Qed.

Lemma f_flush_sending s0 l ds this p this' :
  sending s0 l this ds → f_poll_flush_message this = (p, this') → sending s0 l this' ds ∧ (p = Ready (Ok tt) → contents (f_write this') = []).
Proof.
  intros [Ht Hs Hw Hf Hwire]. unfold f_poll_flush_message. destruct (flush_buffer _ _) as [[q w] s] eqn:E.
  apply flush_buffer_spec in E as (Ha & _ & He). intros [= <- <-]. split; [|done]. split; cbn; try done. by rewrite Ha.
Qed.

Lemma encode_frame_steps m data cs :
  metadata_ok m → fits data → steps (b := b) (encode_frame m data) cs (Ok tt) (cs ++ wire (m, data)).
Proof.
  intros Hm Hd. unfold encode_frame, wire. cbn [fst snd]. step_with encode_steps; [done|]. unfold fits in Hd.
  rewrite (wrap_small 16) by (unfold in_width; lia). step_with steps_put.
  replace (cs ++ _ ++ _ ++ data) with (((cs ++ frame_bytes m) ++ be_encode 2 (Z.of_nat (length data))) ++ data) by (by rewrite <- !app_assoc).
  apply steps_put.
Qed.

Lemma f_write_sending s0 l ds buf this p this' :
  target_ok l → sending s0 l this ds → f_poll_write_message buf this = (p, this') →
  sending s0 l this' (if p is Ready (Ok _) then ds ++ [buf] else ds).
Proof.
  intros Hl Hs. unfold f_poll_write_message. destruct (_ <? _) eqn:Eb; to_prop; [by intros [= <- <-]|].
  assert (Hfit : fits buf) by (unfold fits; lia). set (q := if bool_decide _ then _ else _).
  assert (Hq : sending s0 l q.2 ds).
  { unfold q. destruct (bool_decide _); [done|]. destruct (f_poll_flush_message this) eqn:E. by apply (f_flush_sending s0 l ds) in E as [? _]. }
  destruct q as [[[[]|e|]|] this1]; cbn [snd] in Hq; try by intros [= <- <-].
  destruct Hq as [Ht Hse Hw Hf Hwire]. rewrite Hse, Ht, Hw.
  change (mkMetadata 1 _ _ _ _) with (client_meta l (negb (length ds =? 0))).
  destruct (encode_frame_steps (client_meta l (negb (length ds =? 0))) buf _ (client_meta_ok _ _ Hl) Hfit (f_write this1) eq_refl) as [Hr Hc].
  destruct (encode_frame _ _ _) as [r w]. cbn in Hr, Hc. subst r. intros [= <- <-]. split; cbn; try done.
  - rewrite length_app, Nat.add_comm. done.
  - apply Forall_app; auto.
  - rewrite client_frames_snoc. unfold wires. rewrite fmap_app, concat_app. cbn [fmap list_fmap concat]. rewrite app_nil_r.
    rewrite Hc, app_assoc, Hwire, <- app_assoc. done.
Qed.

(** ** Runs of the client *)
Inductive client_op := CWrite (buf : bytes) | CRead (room : nat) | CFlush | CShutdown.

Definition done_with {A} (f : A → bytes) (p : Poll (outcome A)) : Poll (outcome bytes) :=
  match p with
  | Ready (Ok a) => Ready (Ok (f a))
  | Ready (Err e) => Ready (Err e)
  | Ready Panic => Ready Panic
  | Pending => Pending
  end.

Definition client_perform (fuel : nat) this (o : client_op) : option (Poll (outcome bytes) * XudpFixedMessageStream b S) :=
  match o with
  | CWrite buf => let '(p, this) := f_poll_write_message buf this in Some (done_with (λ _, []) p, this)
  | CRead room => f_poll_read_message fuel room this
  | CFlush => let '(p, this) := f_poll_flush_message this in Some (done_with (λ _, []) p, this)
  | CShutdown => let '(p, this) := f_poll_shutdown_message this in Some (done_with (λ _, []) p, this)
  end.

Definition client_trace : Type := list (client_op * Poll (outcome bytes)).

Fixpoint client_run (fuel : nat) this (ops : list client_op) : option (client_trace * XudpFixedMessageStream b S) :=
  match ops with
  | [] => Some ([], this)
  | o :: ops => '(r, this) ← client_perform fuel this o; '(t, this) ← client_run fuel this ops; Some ((o, r) :: t, this)
  end.

(** The datagrams whose write returned. *)
Definition sent (t : client_trace) : list bytes :=
  omap (λ e, match e with (CWrite buf, Ready (Ok _)) => Some buf | _ => None end) t.

(** A read leaves the writing side alone. *)
Definition same_writer this this' : Prop :=
  f_target this' = f_target this ∧ f_session this' = f_session this ∧ f_written this' = f_written this ∧
  f_write this' = f_write this ∧ accepted (f_stream this') = accepted (f_stream this).

Lemma same_writer_sending s0 l ds this this' : sending s0 l this ds → same_writer this this' → sending s0 l this' ds.
Proof. intros [Ht Hs Hw Hf Hwire] (E1 & E2 & E3 & E4 & E5). split; by rewrite ?E1, ?E2, ?E3, ?E4, ?E5. Qed.

Lemma f_deliver_writer room data this : same_writer this (f_deliver room data this).2.
Proof. unfold f_deliver. by destruct (_ <? _). Qed.

Lemma f_read_loop_writer fuel room this p this' : f_read_loop fuel room this = Some (p, this') → same_writer this this'.
Proof.
  revert this. induction fuel as [|fuel IH]; intros this; cbn [f_read_loop]; [done|].
  destruct (try_decode_one_message _) as [[[[[data|] ended]|e|] r]|]; try (by intros [= <- <-]); [|].
  - set (this1 := f_set_read _ _ _ _ _). pose proof (f_deliver_writer room data this1) as Hd. intros Hp. injection Hp as Hp. by rewrite Hp in Hd.
  - set (this1 := f_set_read _ _ _ _ _). destruct (f_eof this1); [by intros [= <- <-]|].
    destruct (poll_read (f_stream this1) READ_CHUNK) as [[[e|bs]|] s] eqn:Er; apply read_law in Er as [Ha _].
    + by intros [= <- <-].
    + destruct (length bs =? 0); [destruct (bool_decide _); by intros [= <- <-]|].
      intros Hl. apply IH in Hl as (E1 & E2 & E3 & E4 & E5). cbn in *. split_and!; congruence.
    + by intros [= <- <-].
Qed.

Lemma f_shutdown_sending s0 l ds this p this' :
  sending s0 l this ds → f_poll_shutdown_message this = (p, this') → sending s0 l this' ds.
Proof.
  intros Hs. unfold f_poll_shutdown_message. destruct (f_poll_flush_message this) as [q this1] eqn:E.
  destruct (f_flush_sending s0 l ds _ _ _ Hs E) as [Hs1 _]. destruct q as [[[]|e|]|]; try by intros [= <- <-].
  destruct (poll_shutdown _) as [ps s] eqn:Es. apply shutdown_law in Es as [_ Ha]. intros [= <- <-].
  apply (same_writer_sending _ _ _ this1); [done|]. by split_and!.
Qed.

Lemma client_run_sending fuel s0 l ds this ops t this' :
  target_ok l → sending s0 l this ds → client_run fuel this ops = Some (t, this') → sending s0 l this' (ds ++ sent t).
Proof.
  intros Hl. revert this ds t. induction ops as [|o ops IH]; intros this ds t Hs; cbn [client_run].
  { intros [= <- <-]. by rewrite app_nil_r. }
  destruct (client_perform fuel this o) as [[r this1]|] eqn:E; [|done]. cbn [mbind option_bind].
  destruct (client_run fuel this1 ops) as [[t1 this2]|] eqn:Er; [|done]. cbn [mbind option_bind]. intros [= <- <-].
  assert (Hs1 : sending s0 l this1 (ds ++ sent [(o, r)])).
  { destruct o as [buf|room| |]; cbn [client_perform] in E.
    - destruct (f_poll_write_message buf this) as [p this3] eqn:Ew. injection E as <- <-.
      apply (f_write_sending s0 l ds) in Ew; [|done..]. by destruct p as [[[]|e|]|]; cbn; rewrite ?app_nil_r.
    - assert (Hsame : same_writer this this1).
      { unfold f_poll_read_message in E. destruct (f_pending this) as [data|].
        - set (this3 := f_set_read _ _ _ _ _) in E. pose proof (f_deliver_writer room data this3) as Hd. injection E as E. by rewrite E in Hd.
        - destruct (f_eof this); [by injection E as <- <-|]. by eapply f_read_loop_writer. }
      cbn. rewrite app_nil_r. by apply (same_writer_sending _ _ _ this).
    - destruct (f_poll_flush_message this) as [p this3] eqn:Ew. injection E as <- <-. cbn. rewrite app_nil_r. by eapply f_flush_sending.
    - destruct (f_poll_shutdown_message this) as [p this3] eqn:Ew. injection E as <- <-. cbn. rewrite app_nil_r. by eapply f_shutdown_sending. }
  specialize (IH this1 _ _ Hs1 Er). rewrite <- app_assoc in IH. change ((o, r) :: t1) with ([(o, r)] ++ t1). unfold sent in *. by rewrite omap_app.
Qed.

End client.
Definition nonempty (d : bytes) : Prop := d ≠ [].
#[local] Instance nonempty_dec d : Decision (nonempty d) := decide (d ≠ []).

Lemma expected_client addr_of l ds :
  expected addr_of (client_frames l ds) = pair (addr_of l) <$> base.filter nonempty ds.
Proof.
  induction ds as [|d ds IH] using rev_ind; [done|].
  rewrite client_frames_snoc, expected_app, IH, filter_app, fmap_app. f_equal. unfold expected. cbn.
  destruct d as [|x d]; cbn; [done|]. by rewrite decide_True.
Qed.

(** ** Examples *)
Definition loc (n : Z) : NetLocation := Uot.location_of (host n).
Definition to_addr (l : NetLocation) : SocketAddr := default (host 0) (to_socket_addr_nonblocking l).
Definition example_frames : list frame :=
  [(mkMetadata 1 New DATA (Some (loc 1)) (Some Udp), B "a"); (mkMetadata 2 New DATA (Some (loc 2)) (Some Udp), B "bc");
   (mkMetadata 1 Keep DATA (Some (loc 1)) (Some Udp), []); (mkMetadata 1 Keep DATA (Some (loc 1)) (Some Udp), B "d")].
Definition example_source : script := mkScript (drop 9 (wires example_frames)) true true 7 [] [].
Definition example_reads : list op := replicate 16 (Read 100 0 no_dns).
Definition example_start : XudpMessageStream bytes script := set_read (new example_source) (take 9 (wires example_frames)).
Definition example_end : trace * XudpMessageStream bytes script := default ([], example_start) (run 9 example_start example_reads).

Lemma no_errors (t : trace) : forallb (λ e, match e.2 with Ready (Err _) => false | _ => true end) t = true → unlimited t.
Proof.
  intros Ht. apply Forall_forall. intros [o r] He. rewrite forallb_forall in Ht. specialize (Ht (o, r) (proj1 (list_elem_of_In _ _) He)).
  destruct o; try done. intros ->. done.
Qed.

Lemma loc_ok n : is_byte n → target_ok (loc n) ∧ resolves to_addr no_dns (loc n).
Proof. intros Hn. split; [|by left]. by split. Qed.

Lemma example_frames_ok : Forall frame_ok example_frames.
Proof.
  assert (H1 : target_ok (loc 1)) by by apply (loc_ok 1). assert (H2 : target_ok (loc 2)) by by apply (loc_ok 2).
  repeat constructor; try done; try (by left); try (by right); intros _; eexists _, _; (split; [done|]); (split; [done|]); first [exact H1 | exact H2].
Qed.

Lemma xudp_datagrams_are_exact_witness :
  delivered example_end.1 = [(host 1, B "a"); (host 2, B "bc"); (host 1, B "d")] ∧
  delivered example_end.1 `prefix_of` expected to_addr example_frames ∧ calm example_end.1 ∧
  (settled example_end.1 → [] = ([] : bytes) → delivered example_end.1 = expected to_addr example_frames).
Proof.
  split; [vm_compute; reflexivity|].
  apply (xudp_datagrams_are_exact to_addr 9 example_source example_frames (take 9 (wires example_frames)) example_start example_reads
    example_end.1 example_end.2 (drop 9 (wires example_frames)) []).
  - vm_compute. reflexivity.
  - vm_compute. reflexivity.
  - exact example_frames_ok.
  - apply Forall_forall. intros o Ho. apply elem_of_replicate in Ho as [-> _].
    repeat (apply Forall_cons; split; [intros l [= <-]; by left|]). by apply Forall_nil.
  - apply no_errors. vm_compute. reflexivity.
  - vm_compute. reflexivity.
  - rewrite app_nil_r. apply take_drop.
Defined.

Lemma client_ops_resolve l ds n room :
  resolves to_addr no_dns l → ops_resolve to_addr (client_frames l ds) (replicate n (Read room 0 no_dns)).
Proof.
  intros Hl. apply Forall_forall. intros o Ho. apply elem_of_replicate in Ho as [-> _]. apply Forall_lookup. intros i f Hf.
  unfold client_frames in Hf. rewrite list_lookup_imap in Hf. destruct (ds !! i); [|done]. injection Hf as <-. by intros l' [= <-].
Qed.

Definition client_ops : list client_op := [CWrite (B "q1"); CWrite []; CWrite (B "q2"); CFlush; CRead 10].
Definition client_source : script := script_of "" true 100.
Definition client_end : client_trace * XudpFixedMessageStream bytes script :=
  default ([], fixed_new client_source (loc 3)) (client_run 9 (fixed_new client_source (loc 3)) client_ops).
Definition client_wire : bytes := wires (client_frames (loc 3) [B "q1"; []; B "q2"]).
Definition server_source : script := mkScript client_wire true true 11 [] [].
Definition server_end : trace * XudpMessageStream bytes script :=
  default ([], new server_source) (run 9 (new server_source) example_reads).


End XudpLink.
