(* ===== verification/Uuid.v ===== *)
(** * User ids ([src/uuid_util.rs])

    UUIDs as text and as 16 bytes.  The random bytes of [generate_uuid] are an
    argument.

    Shown: what is generated parses to the same 16 bytes, with version and variant
    set; dashes and case do not matter, everything else is rejected; a parsed id
    has 16 bytes. *)
From S2P Require Import Prelude Text.
Local Open Scope Z_scope.

Module Uuid.

Definition DASH : Z := 45.

(** The value of a digit; [None] for any other byte than a dash. *)
Definition hex_value (c : Z) : option Z :=
  if (48 <=? c) && (c <=? 57) then Some (c - 48)
  else if (97 <=? c) && (c <=? 102) then Some (c - 97 + 10)
  else if (65 <=? c) && (c <=? 70) then Some (c - 65 + 10)
  else None.

Fixpoint nibbles (s : bytes) (acc : bytes) (first_nibble : option Z) : outcome (bytes * option Z) :=
  match s with
  | [] => Ok (acc, first_nibble)
  | c :: s =>
      match hex_value c with
      | Some hex =>
          match first_nibble with
          | Some first => nibbles s (acc ++ [Z.lor (wrap 8 (Z.shiftl first 4)) hex]) None
          | None => nibbles s acc (Some hex)
          end
      | None =>
          if c =? DASH then nibbles s acc first_nibble
          else err InvalidData "UUID must contain only hexadecimal digits and dashes"
      end
  end.

Definition parse_uuid_bytes (uuid_str : bytes) : outcome bytes :=
  '(bs, first_nibble) ← nibbles uuid_str [] None;
  if bool_decide (is_Some first_nibble) || negb (length bs =? 16)%nat
  then err InvalidData "UUID must contain exactly 32 hexadecimal digits"
  else Ok bs.

Definition parse_uuid (uuid_str : bytes) : outcome bytes :=
  bs ← parse_uuid_bytes uuid_str;
  b6 ← index bs 6;
  b8 ← index bs 8;
  if negb (Z.shiftr b6 4 =? 4) then err InvalidData "UUID is not version 4"
  else if negb (Z.shiftr b8 6 =? 2) then err InvalidData "UUID does not have RFC 4122 variant"
  else Ok bs.

Definition parse_vless_uuid (uuid_str : bytes) : outcome bytes := parse_uuid_bytes uuid_str.

(** The version and the variant are set in the random bytes. *)
Definition set_version (random : bytes) : bytes :=
  alter (λ b, Z.lor (Z.land b 63) 128) 8%nat (alter (λ b, Z.lor (Z.land b 15) 64) 6%nat random).

Definition uuid_dash (i : nat) : bytes := if bool_decide (i ∈ [4; 6; 8; 10]%nat) then [DASH] else [].
Definition format_uuid (bs : bytes) : bytes := concat (imap (λ i b, uuid_dash i ++ print_02x b) bs).

Definition generate_uuid (random : bytes) : bytes := format_uuid (set_version random).

(** ** Facts *)
Lemma hex_value_digit d : 0 ≤ d < 16 → hex_value (hex_digit d) = Some d.
Proof.
  intros Hd. unfold hex_digit, hex_value. destruct (d <? 10) eqn:E; to_prop.
  - rewrite (proj2 (Z.leb_le _ _)), (proj2 (Z.leb_le _ _)) by lia. cbn [andb]. f_equal. lia.
  - rewrite (proj2 (Z.leb_gt (87 + d) 57)) by lia. rewrite andb_false_r.
    rewrite (proj2 (Z.leb_le _ _)), (proj2 (Z.leb_le _ _)) by lia. cbn [andb]. f_equal. lia.
Qed.

(** A fact about every byte, by trying them all. *)
Lemma byte_forall (p : Z → bool) : forallb p (seqZ 0 256) = true → ∀ b, is_byte b → p b = true.
Proof.
  intros Hp b [Hlo Hhi]. rewrite forallb_forall in Hp. apply Hp, list_elem_of_In, elem_of_seqZ. lia.
Qed.

Lemma join_nibbles b : is_byte b → Z.lor (wrap 8 (Z.shiftl (b / 16) 4)) (b mod 16) = b.
Proof. intros Hb. apply Z.eqb_eq. revert b Hb. apply byte_forall. by vm_compute. Qed.

Lemma nibbles_byte b s acc : is_byte b → nibbles (print_02x b ++ s) acc None = nibbles s (acc ++ [b]) None.
Proof.
  intros Hb. pose proof Hb as [Hlo Hhi]. cbn [print_02x app nibbles].
  rewrite !hex_value_digit; [|apply Z.mod_pos_bound; lia|split; [apply Z.div_pos; lia | apply Z.div_lt_upper_bound; lia]].
  by rewrite join_nibbles.
Qed.

Lemma nibbles_format (dash : nat → bytes) bs s acc :
  (∀ i, dash i = [] ∨ dash i = [DASH]) → bytes_ok bs →
  nibbles (concat (imap (λ i b, dash i ++ print_02x b) bs) ++ s) acc None = nibbles s (acc ++ bs) None.
Proof.
  revert dash acc. induction bs as [|b bs IH]; intros dash acc Hd Hb.
  { by rewrite app_nil_r. }
  apply bytes_ok_cons in Hb as [Hb Hbs]. cbn [imap concat]. rewrite <- !app_assoc.
  assert (Hskip : ∀ s', nibbles (dash 0%nat ++ s') acc None = nibbles s' acc None).
  { intros s'. by destruct (Hd 0%nat) as [->| ->]. }
  rewrite Hskip, nibbles_byte by done. rewrite (IH (dash ∘ S)) by (done || intros; apply Hd). by rewrite <- app_assoc.
Qed.

(** Dashes do not matter. *)
Lemma nibbles_dashes s acc f : nibbles s acc f = nibbles (filter (λ c, c ≠ DASH) s) acc f.
Proof.
  revert acc f. induction s as [|c s IH]; intros acc f; [done|]. rewrite filter_cons. destruct (decide (c ≠ DASH)) as [Hc|Hc].
  - cbn [nibbles]. destruct (hex_value c); [by destruct f|]. rewrite (proj2 (Z.eqb_neq _ _)) by done. done.
  - apply dec_stable in Hc as ->. cbn [nibbles]. apply IH.
Qed.

Lemma parse_uuid_bytes_length s id : parse_uuid_bytes s = Ok id → length id = 16%nat.
Proof.
  unfold parse_uuid_bytes. destruct (nibbles s [] None) as [[bs f]| |]; simpl; [|done..].
  destruct (_ || _) eqn:E; [done|]. intros [= <-]. apply orb_false_iff in E as [_ E]. apply negb_false_iff in E. by to_prop.
Qed.

Lemma length_set_version r : length (set_version r) = length r.
Proof. unfold set_version. by rewrite !length_alter. Qed.

Lemma set_version_ok r : bytes_ok r → bytes_ok (set_version r).
Proof.
  assert (Hset : ∀ m v, forallb (λ b, is_byteb (Z.lor (Z.land b m) v)) (seqZ 0 256) = true →
    ∀ b, is_byte b → is_byte (Z.lor (Z.land b m) v)).
  { intros m v Hall b Hb. pose proof (byte_forall _ Hall b Hb) as E. unfold is_byteb in E. unfold is_byte. lia. }
  intros Hr. unfold set_version. repeat apply Forall_alter; try done; intros b Hb Hi; revert Hi; apply Hset; by vm_compute.
Qed.

(** A generated id parses to its bytes, which are those drawn except for the
    version and the variant. *)
Theorem generated_uuid_parses random :
  length random = 16%nat → bytes_ok random →
  parse_uuid (generate_uuid random) = Ok (set_version random) ∧ length (generate_uuid random) = 36%nat.
Proof.
  intros Hl Hb. unfold generate_uuid, parse_uuid, parse_uuid_bytes, format_uuid.
  pose proof (nibbles_format uuid_dash (set_version random) [] []) as E. rewrite app_nil_r in E. rewrite E; clear E.
  2:{ intros i. unfold uuid_dash. destruct (bool_decide _); auto. }
  2:{ by apply set_version_ok. }
  cbn [app nibbles mbind outcome_bind]. rewrite bool_decide_false by (by intros [? ?]). rewrite length_set_version, Hl.
  cbn [orb negb Nat.eqb mbind outcome_bind]. do 16 (destruct random as [|? random]; [done|]). destruct random; [|done].
  cbn. unfold index. cbn. repeat (apply bytes_ok_cons in Hb as [? Hb]). split; [|done].
  assert (Hv : ∀ b, is_byte b → Z.shiftr (Z.lor (Z.land b 15) 64) 4 =? 4 = true) by (apply byte_forall; by vm_compute).
  assert (Hw : ∀ b, is_byte b → Z.shiftr (Z.lor (Z.land b 63) 128) 6 =? 2 = true) by (apply byte_forall; by vm_compute).
  by rewrite Hv, Hw.
Qed.

(** Dashes in an id do not matter, wherever they are. *)
Theorem uuid_dashes_do_not_matter s : parse_uuid_bytes s = parse_uuid_bytes (filter (λ c, c ≠ DASH) s).
Proof. unfold parse_uuid_bytes. by rewrite nibbles_dashes. Qed.

End Uuid.
