(* ===== verification/Setup.v ===== *)
(** * What a protocol handler makes of a connection ([src/tcp/tcp_handler.rs])

    A server handler takes a connection, reads a request through a
    [StreamReader] and hands the connection on: to be forwarded, or as a stream
    of datagrams, or as a task of its own.  [TcpServerSetupResult] is what it
    hands on, with the stream, the proxy selector, the outbound dispatcher and
    the user as parameters; [serve] runs a handshake of [Handshake.v] on a new
    reader and hands the rest of the connection to what follows it.

    Shown: [serve] gives what the handshake gives on the bytes alone, and what
    follows it gets all bytes the handshake has not taken ([serve_spec]). *)
From S2P Require Import Prelude Text Address StreamReader Handshake Stream Messages Packets XudpStream.
Import Net Addr.

Module Setup.
Import Handshake Stream.

(** ** Results of a server handler *)

(** Streams of datagrams to many targets: UDP-over-TCP and Trojan. *)
Inductive targeted (S : Type) :=
  | Uot (p : Packets.PacketStream S)
  | Trojan (p : Packets.Trojan.TrojanPacketStream S).
Arguments Uot {S}.
Arguments Trojan {S}.

(** Connections whose lifecycle the caller awaits. *)
Inductive task (S : Type) :=
  | H2mux (s : S) (initial_data : option bytes) (udp_enabled : bool)
  | UdpAssociate (s : S) (relay : SocketAddr)
  | CopyToFallback (s dest : S)
  | Completed.
Arguments H2mux {S}.
Arguments UdpAssociate {S}.
Arguments CopyToFallback {S}.
Arguments Completed {S}.

Section result.
Context {S P D U : Type}.   (* stream, proxy selector, outbound dispatcher, user *)

Inductive TcpServerSetupResult :=
  | PeerAddressOverride (peer_addr : option SocketAddr) (result : TcpServerSetupResult)
  | TcpForward (remote_location : NetLocation) (stream : S) (need_initial_flush : bool)
      (connection_success_response initial_remote_data : option bytes)
      (proxy_selector : P) (outbound_dispatcher : option D) (authenticated_user : option U)
  | BidirectionalUdp (need_initial_flush : bool) (remote_location : NetLocation) (stream : Messages.VlessMessageStream S)
      (proxy_selector : P) (outbound_dispatcher : option D) (authenticated_user : option U)
  | MultiDirectionalUdp (need_initial_flush : bool) (stream : targeted S)
      (proxy_selector : P) (outbound_dispatcher : option D) (authenticated_user : option U)
  | SessionBasedUdp (need_initial_flush : bool) (stream : XudpStream.XudpMessageStream bytes S)
      (proxy_selector : P) (outbound_dispatcher : option D) (authenticated_user : option U)
  | ConnectionTask (t : task S).

Definition completed : TcpServerSetupResult := ConnectionTask Completed.

Fixpoint set_need_initial_flush (flush : bool) (r : TcpServerSetupResult) : TcpServerSetupResult :=
  match r with
  | PeerAddressOverride peer result => PeerAddressOverride peer (set_need_initial_flush flush result)
  | TcpForward l s _ a i p d u => TcpForward l s flush a i p d u
  | BidirectionalUdp _ l s p d u => BidirectionalUdp flush l s p d u
  | MultiDirectionalUdp _ s p d u => MultiDirectionalUdp flush s p d u
  | SessionBasedUdp _ s p d u => SessionBasedUdp flush s p d u
  | ConnectionTask t => ConnectionTask t
  end.

(** Whom a result is for; [None] where there is nobody to account to. *)
Fixpoint result_user (r : TcpServerSetupResult) : option (option U) :=
  match r with
  | PeerAddressOverride _ result => result_user result
  | TcpForward _ _ _ _ _ _ _ u | BidirectionalUdp _ _ _ _ _ u | MultiDirectionalUdp _ _ _ _ u | SessionBasedUdp _ _ _ _ u => Some u
  | ConnectionTask (CopyToFallback _ _) | ConnectionTask Completed => None
  | ConnectionTask _ => Some None
  end.
End result.
Arguments TcpServerSetupResult : clear implicits.

(** ** The connection as a stream *)

(** A read of a [Source] does not panic. *)
Definition outcome_result {A} (o : outcome A) : Stream.result A :=
  match o with
  | Ok a => inr a
  | Err e => inl e
  | Panic => inl (IoError Other "")
  end.

(** What the message streams poll once a handshake is over: reads never park,
    writes are taken whole. *)
#[export] Instance source_stream : AsyncStream Reader.Source := {
  poll_read src n := let '(r, src) := Reader.stream_read n src in (Ready (outcome_result r), src);
  poll_write src bs :=
    match Reader.sink src with
    | Some e => (Ready (inl e), src)
    | None => (Ready (inr (length bs)), Reader.mkSource (Reader.arrivals src) (Reader.fault src) (Reader.taken src)
        (Reader.written src ++ bs) None)
    end;
  poll_flush src := (Ready (match Reader.sink src with Some e => inl e | None => inr tt end), src);
  poll_shutdown src := (Ready (match Reader.sink src with Some e => inl e | None => inr tt end), src);
  supports_ping _ := false;
  poll_write_ping src := (Ready (inr false), src) }.

#[export] Program Instance source_laws : StreamLaws Reader.Source := {
  received := Reader.taken;
  accepted := Reader.written }.
Next Obligation.
  intros src n r src'. cbn. unfold Reader.stream_read, Reader.after_read.
  destruct (Reader.arrivals src) as [|[d|] rest]; [destruct (Reader.fault src)| |];
    [| |destruct (_ <=? _) eqn:E|]; intros [= <- <-]; cbn; rewrite ?app_nil_r; to_prop; try done.
  - split; [done|]. split; [simpl; lia | done].
  - split; [done|]. split; [rewrite length_take; lia | done].
Qed.
Next Obligation.
  intros src bs r src'. cbn. destruct (Reader.sink src); intros [= <- <-]; cbn; [done|].
  split; [done|]. split; [lia|]. by rewrite take_ge by lia.
Qed.
Next Obligation. intros src r src' [= <- <-]. done. Qed.
Next Obligation. intros src r src' [= <- <-]. done. Qed.
Next Obligation. intros src r src' [= <- <-]. done. Qed.

(** Every byte that has been or will be read. *)
Definition whole (src : Reader.Source) : bytes := Reader.taken src ++ Reader.flat src.

Lemma stream_read_whole n src r src' : Reader.stream_read n src = (r, src') → whole src' = whole src.
Proof.
  unfold Reader.stream_read, Reader.after_read, whole, Reader.flat.
  destruct (Reader.arrivals src) as [|[d|] rest] eqn:E; [by intros [= <- <-]; rewrite E| |].
  - destruct (_ <=? _); intros [= <- <-]; cbn; rewrite <- app_assoc; [done|]. by rewrite (app_assoc (take n d)), take_drop.
  - intros [= <- <-]. cbn. by rewrite app_nil_r.
Qed.

(** The polls keep it. *)
Lemma source_kept w : kept (λ src : Reader.Source, whole src = w).
Proof.
  split; cbn; intros src.
  - intros n r src' Hw. destruct (Reader.stream_read n src) as [q s] eqn:E. apply stream_read_whole in E. intros [= <- <-]. congruence.
  - intros bs r src' Hw. destruct (Reader.sink src); by intros [= <- <-].
  - intros r src' Hw. by intros [= <- <-].
  - intros r src' Hw. by intros [= <- <-].
Qed.

(** ** Running a handshake *)

(** The handshake [h] on a new reader of [cap] bytes, then [finish] with its
    result, what the reader holds ([unparsed_data]) and the connection. *)
Definition serve {A R} (debug : bool) (junk : nat → Z) (cap : nat) (h : protocol A)
    (finish : A → bytes → Reader.Source → outcome R) (src : Reader.Source) : outcome R * Reader.Source :=
  let '(r, reader, src) := run debug h (Reader.new_with_buffer_size junk cap) src in
  (a ← r; held ← Reader.unparsed_data reader; finish a held src, src).

(** The handshake where its failure is not the end: its result with what the
    reader holds, or its error. *)
Definition attempt {A} (debug : bool) (junk : nat → Z) (cap : nat) (h : protocol A) (src : Reader.Source)
    : outcome (A * bytes) * Reader.Source :=
  serve debug junk cap h (λ a held _, Ok (a, held)) src.

(** [unparsed_data_owned], and [if unparsed_data.is_empty() { None } else { Some(..) }] *)
Definition owned (held : bytes) : option bytes := if length held =? 0 then None else Some held.

(** What is left of a connection after a handshake that left [v]. *)
Record rest_of (cap : nat) (src : Reader.Source) (v : view) (held : bytes) (src' : Reader.Source) : Prop := {
  ro_cap : length held ≤ cap;
  ro_rest : held ++ Reader.flat src' = bytes_left v;
  ro_sent : Reader.written src' = bytes_sent v;
  ro_whole : Reader.taken src' ++ Reader.flat src' = Reader.taken src ++ Reader.flat src }.

Lemma serve_spec {A R} debug junk cap (h : protocol A) (finish : A → bytes → Reader.Source → outcome R) src :
  coherent h → Reader.source_ok src → (parse (terms_of cap src) h (view_of src)).1 ≠ Panic →
  ∃ held src', rest_of cap src (parse (terms_of cap src) h (view_of src)).2 held src' ∧
    serve debug junk cap h finish src =
      (a ← (parse (terms_of cap src) h (view_of src)).1; finish a held src', src').
Proof.
  intros Hc Hs Hp. destruct (run_parse h debug junk cap src Hc Hs Hp) as (r & src' & held & Hr & [Hh Hc' Hl Hw Ht]).
  exists held, src'. split; [by split|]. unfold serve. rewrite Hr, Hh. by destruct (parse _ _ _).1.
Qed.

End Setup.
