(* ===== verification/Socks.v ===== *)
(** * SOCKS5 ([src/socks_handler.rs])

    The server's handshake: method negotiation, authentication, the request,
    and what is made of it: a connection to forward, UDP-over-TCP under its magic
    names, or a UDP association.  The client's handshake, which sends all it
    has to say at once and then reads the replies.  Binding a UDP socket is a
    parameter.

    Shown: client and server agree, under every chunking of the bytes either way;
    no bytes make the server panic; with credentials configured, only a client
    that sends exactly them is served. *)
From S2P Require Import Prelude Text Address UotAddr SlideBuffer StreamReader Handshake SocksAddr Stream Messages Packets Setup.
Import Net Addr Handshake.
Local Open Scope Z_scope.

Module Socks.
Import SocksAddr Setup.

Definition VER_SOCKS5 : Z := 5.
Definition VER_AUTH : Z := 1.
Definition METHOD_NONE : Z := 0.
Definition METHOD_USERNAME : Z := 2.
Definition METHOD_INVALID : Z := 255.
Definition RESULT_SUCCESS : Z := 0.
Definition CMD_CONNECT : Z := 1.
Definition CMD_UDP_ASSOCIATE : Z := 3.
Definition REPLY_SUCCESS : Z := 0.
Definition REPLY_GENERAL_FAILURE : Z := 1.
Definition REPLY_COMMAND_NOT_SUPPORTED : Z := 7.
Definition UOT_V1_MAGIC_ADDRESS : bytes := B "sp.udp-over-tcp.arpa".
Definition UOT_V2_MAGIC_ADDRESS : bytes := B "sp.v2.udp-over-tcp.arpa".

Definition build_error_response (reply_code : Z) : bytes :=
  [VER_SOCKS5; reply_code; 0; ADDR_TYPE_IPV4; 0; 0; 0; 0; 0; 0].

Definition build_udp_associate_response (bound_addr : SocketAddr) : bytes :=
  [VER_SOCKS5; REPLY_SUCCESS; 0] ++
  match sa_ip bound_addr with
  | V4 o => [ADDR_TYPE_IPV4] ++ o
  | V6 o => [ADDR_TYPE_IPV6] ++ o
  end ++ be_encode 2 (sa_port bound_addr).

(** [SUCCESS_RESPONSE] *)
Definition success_response : outcome bytes :=
  l ← write_location_to_vec (mkNetLocation (Ipv4 [127; 0; 0; 1]) 65535);
  Ok ([VER_SOCKS5; RESULT_SUCCESS; 0] ++ l).

(** What comes of binding a UDP socket on an address: the first of the two
    errors is answered to the client. *)
Inductive bind_result :=
  | BindFails (e : io_error)
  | RegisterFails (e : io_error)
  | Bound (a : SocketAddr).

(** What a client asks for. *)
Inductive request :=
  | Connect (location : NetLocation)
  | UotPackets                           (* to many destinations *)
  | UotConnect (destination : NetLocation)
  | Associate (bound : SocketAddr).

Section server.
Context {M} `{Handshake M}.
Context (auth_info : option (bytes * bytes)) (udp_bind_ip : option IpAddr) (bind_udp : IpAddr → bind_result).

Definition supported_method : Z := if auth_info is Some _ then METHOD_USERNAME else METHOD_NONE.

Definition negotiate : M unit :=
  socks_version ← read_u8;
  _ ← guard (socks_version =? VER_SOCKS5) InvalidInput "Unsupported SOCKS version";
  method_len ← read_u8;
  _ ← guard (1 <=? method_len) InvalidInput "Invalid method length";
  methods ← read_slice (Z.to_nat method_len);
  _ ← guard (bool_decide (supported_method ∈ methods)) InvalidInput "Supported SOCKS method not found";
  _ ← write_all [VER_SOCKS5; supported_method];
  flush.

Definition authenticate : M unit :=
  match auth_info with
  | None => mret tt
  | Some (target_username, target_password) =>
      auth_version ← read_u8;
      _ ← guard (auth_version =? VER_AUTH) InvalidInput "Unsupported SOCKS auth version";
      username_len ← read_u8;
      _ ← guard (negb (username_len =? 0)) InvalidInput "Unsupported SOCKS username length";
      username ← read_slice (Z.to_nat username_len);
      password_len ← read_u8;
      _ ← guard (negb (password_len =? 0)) InvalidInput "Unsupported SOCKS password length";
      password ← read_slice (Z.to_nat password_len);
      _ ← guard (bool_decide (target_username = username) && bool_decide (target_password = password))
            InvalidInput "SOCKS authentication failed";
      _ ← write_all [VER_AUTH; RESULT_SUCCESS];
      flush
  end.

Definition handle_udp_associate (bind_ip : IpAddr) : M request :=
  _ ← read_location;
  match bind_udp bind_ip with
  | BindFails e =>
      _ ← write_all (build_error_response REPLY_GENERAL_FAILURE);
      _ ← flush;
      lift (Err e)
  | RegisterFails e => lift (Err e)
  | Bound bound_addr =>
      _ ← write_all (build_udp_associate_response bound_addr);
      _ ← flush;
      mret (Associate bound_addr)
  end.

(** The success response of UDP-over-TCP, which is not forwarded. *)
Definition accept_uot : M unit :=
  _ ← guard (bool_decide (is_Some udp_bind_ip)) Unsupported "UDP-over-TCP not enabled";
  response ← lift success_response;
  _ ← write_all response;
  flush.

Definition read_request : M request :=
  connection_request ← read_slice 3;
  version ← lift (index connection_request 0);
  _ ← guard (version =? VER_SOCKS5) InvalidInput "Invalid SOCKS version";
  command ← lift (index connection_request 1);
  if command =? CMD_UDP_ASSOCIATE then
    match udp_bind_ip with
    | Some ip => handle_udp_associate ip
    | None =>
        _ ← write_all (build_error_response REPLY_COMMAND_NOT_SUPPORTED);
        _ ← flush;
        throw Unsupported "UDP ASSOCIATE not enabled"
    end
  else
    _ ← guard (command =? CMD_CONNECT) InvalidInput "Invalid command code";
    reserved ← lift (index connection_request 2);
    _ ← guard (reserved =? 0) InvalidInput "Invalid reserved bit";
    location ← read_location;
    if bool_decide (address location = Hostname UOT_V1_MAGIC_ADDRESS) then
      _ ← accept_uot;
      mret UotPackets
    else if bool_decide (address location = Hostname UOT_V2_MAGIC_ADDRESS) then
      _ ← accept_uot;
      is_connect ← read_u8;
      destination ← read_location;
      mret (if is_connect =? 1 then UotConnect destination else UotPackets)
    else mret (Connect location).

Definition handshake : M request :=
  _ ← negotiate;
  _ ← authenticate;
  read_request.

End server.
(** ** The handler *)
Section setup.
Context {P D U : Type}.
Context (debug : bool) (junk : nat → Z).
Context (auth_info : option (bytes * bytes)) (udp_bind_ip : option IpAddr) (bind_udp : IpAddr → bind_result) (proxy_selector : P).

(** What is made of a request, with what the reader holds beyond it. *)
Definition finish (r : request) (unparsed : bytes) (src : Reader.Source) : outcome (TcpServerSetupResult Reader.Source P D U) :=
  match r with
  | Connect location =>
      response ← success_response;
      Ok (TcpForward location src true (Some response) (owned unparsed) proxy_selector None None)
  | UotPackets =>
      uot_stream ← Packets.PacketAddr.addr_feed_initial_data debug junk unparsed (Packets.PacketAddr.new_with_codec src);
      Ok (MultiDirectionalUdp false (Uot uot_stream) proxy_selector None None)
  | UotConnect destination =>
      uot_v2_stream ←
        (if (length unparsed =? 0)%nat then Ok (Messages.new src)
         else Messages.feed_initial_read_data unparsed (Messages.new src));
      Ok (BidirectionalUdp false destination uot_v2_stream proxy_selector None None)
  | Associate bound => Ok (ConnectionTask (UdpAssociate src bound))
  end.

(** [setup_socks_server_stream_inner] on a new reader of [cap] bytes *)
Definition setup_socks_server_stream_inner (cap : nat) (src : Reader.Source)
    : outcome (TcpServerSetupResult Reader.Source P D U) * Reader.Source :=
  serve debug junk cap (λ M _, handshake auth_info udp_bind_ip bind_udp) finish src.

End setup.

(** [SocksTcpServerHandler] *)
Record SocksTcpServerHandler (P : Type) := mkServer {
  auth_info : option (bytes * bytes);
  udp_enabled : bool;
  bind_ip : IpAddr;
  server_selector : P }.
Arguments mkServer {P}.
Arguments auth_info {P}.
Arguments udp_enabled {P}.
Arguments bind_ip {P}.
Arguments server_selector {P}.

Definition setup_server_stream {P D U} (debug : bool) (junk : nat → Z) (bind_udp : IpAddr → bind_result)
    (h : SocksTcpServerHandler P) (src : Reader.Source) : outcome (TcpServerSetupResult Reader.Source P D U) * Reader.Source :=
  let udp_bind_ip := if udp_enabled h then Some (bind_ip h) else None in
  setup_socks_server_stream_inner debug junk (auth_info h) udp_bind_ip bind_udp (server_selector h) (N.to_nat 400) src.

(** ** The client *)
Record SocksTcpClientHandler := mkClient { prefix_data : bytes; has_auth : bool }.

Definition client_new (auth_info : option (bytes * bytes)) : SocksTcpClientHandler :=
  let data := [VER_SOCKS5; 1; if auth_info is Some _ then METHOD_USERNAME else METHOD_NONE] in
  let data :=
    match auth_info with
    | Some (username, password) =>
        data ++ [VER_AUTH; wrap 8 (Z.of_nat (length username))] ++ username ++
        [wrap 8 (Z.of_nat (length password))] ++ password
    | None => data
    end in
  mkClient (data ++ [VER_SOCKS5; CMD_CONNECT; 0]) (if auth_info is Some _ then true else false).

Section client.
Context {M} `{Handshake M}.

Definition client_handshake (h : SocksTcpClientHandler) (location : NetLocation) : M unit :=
  request ← lift (try_write_location_to_buf location (prefix_data h));
  _ ← write_all request;
  _ ← flush;
  socks_version ← read_u8;
  _ ← guard (socks_version =? VER_SOCKS5) InvalidInput "Unsupported SOCKS version";
  auth_method ← read_u8;
  _ ← guard (negb (auth_method =? METHOD_INVALID)) InvalidInput "SOCKS server rejected auth method";
  _ ← (if has_auth h then
         auth_version ← read_u8;
         _ ← guard (auth_version =? VER_AUTH) InvalidInput "Unsupported SOCKS auth version";
         auth_result ← read_u8;
         guard (auth_result =? RESULT_SUCCESS) InvalidInput "SOCKS server authentication failed"
       else mret tt);
  socks_version ← read_u8;
  _ ← guard (socks_version =? VER_SOCKS5) InvalidInput "Unsupported SOCKS version";
  connect_response ← read_u8;
  _ ← guard (connect_response =? RESULT_SUCCESS) InvalidInput "SOCKS server connect command failed";
  reserved ← read_u8;
  _ ← guard (reserved =? 0) InvalidInput "SOCKS server responded with invalid reserved bit";
  _ ← read_location;
  mret tt.
End client.

(** The connection and the data that came with the replies. *)
Definition setup_client_tcp_stream (debug : bool) (junk : nat → Z) (h : SocksTcpClientHandler) (location : NetLocation)
    (src : Reader.Source) : outcome (Reader.Source * option bytes) * Reader.Source :=
  serve debug junk (N.to_nat 400) (λ M _, client_handshake h location) (λ _ early src, Ok (src, owned early)) src.

(** ** The two readings of the handshakes agree *)
Lemma negotiate_sim debug t whole auth :
  sim t whole (@negotiate _ (io_handshake debug) auth) (@negotiate _ (parser_handshake t) auth).
Proof. unfold negotiate. sim_solve. Qed.
Lemma socks_authenticate_sim debug t whole auth :
  sim t whole (@authenticate _ (io_handshake debug) auth) (@authenticate _ (parser_handshake t) auth).
Proof. unfold authenticate. sim_solve. Qed.
Lemma accept_uot_sim debug t whole udp :
  sim t whole (@accept_uot _ (io_handshake debug) udp) (@accept_uot _ (parser_handshake t) udp).
Proof. unfold accept_uot. sim_solve. Qed.
#[local] Hint Resolve negotiate_sim socks_authenticate_sim accept_uot_sim : handshake.

Lemma read_request_sim debug t whole udp bind :
  sim t whole (@read_request _ (io_handshake debug) udp bind) (@read_request _ (parser_handshake t) udp bind).
Proof. unfold read_request, handle_udp_associate. sim_solve. Qed.
#[local] Hint Resolve read_request_sim : handshake.

Lemma handshake_coherent auth udp bind : coherent (λ M _, handshake auth udp bind).
Proof. intros debug t whole. unfold Handshake.run, parse, handshake. sim_solve. Qed.

Lemma client_coherent h l : coherent (λ M _, client_handshake h l).
Proof. intros debug t whole. unfold Handshake.run, parse, client_handshake. sim_solve. Qed.
(** ** What the server has read when it serves *)
Section server_reads.
Context (t : terms) (auth : option (bytes * bytes)) (udp : option IpAddr) (bind : IpAddr → bind_result).

Lemma negotiate_triple :
  triple (@negotiate _ (parser_handshake t) auth) (λ _ xs ys,
    ∃ n methods, xs = VER_SOCKS5 :: n :: methods ∧ length methods = Z.to_nat n ∧ supported_method auth ∈ methods ∧
      ys = [VER_SOCKS5; supported_method auth]).
Proof.
  unfold negotiate. eapply triple_bind; [apply triple_read_u8|]. intros v ? ? (-> & ->).
  eapply triple_bind; [apply triple_guard|]. intros [] ? ? (Hv & -> & ->). to_prop. subst v.
  eapply triple_bind; [apply triple_read_u8|]. intros n ? ? (-> & ->).
  eapply triple_bind; [apply triple_guard|]. intros [] ? ? (Hn & -> & ->).
  eapply triple_bind; [apply triple_read_slice|]. intros ms ? ? (Hl & -> & ->).
  eapply triple_bind; [apply triple_guard|]. intros [] ? ? (Hm & -> & ->). to_prop.
  eapply triple_bind; [apply triple_write_all|]. intros [] ? ? (-> & ->).
  eapply triple_weaken; [apply triple_flush|]. intros [] ? ? (-> & ->). exists n, ms. rewrite !app_nil_r. done.
Qed.

Lemma socks_authenticate_triple :
  triple (@authenticate _ (parser_handshake t) auth) (λ _ xs ys,
    match auth with
    | None => xs = [] ∧ ys = []
    | Some (username, password) =>
        ∃ n k, xs = VER_AUTH :: n :: username ++ k :: password ∧ Z.to_nat n = length username ∧ Z.to_nat k = length password ∧
          n ≠ 0 ∧ k ≠ 0 ∧ ys = [VER_AUTH; RESULT_SUCCESS]
    end).
Proof.
  unfold authenticate. destruct auth as [[u p]|].
  2:{ eapply triple_weaken; [apply triple_ret|]. by intros ? ? ? (_ & -> & ->). }
  eapply triple_bind; [apply triple_read_u8|]. intros v ? ? (-> & ->).
  eapply triple_bind; [apply triple_guard|]. intros [] ? ? (Hv & -> & ->). to_prop. subst v.
  eapply triple_bind; [apply triple_read_u8|]. intros n ? ? (-> & ->).
  eapply triple_bind; [apply triple_guard|]. intros [] ? ? (Hn & -> & ->). apply negb_true_iff in Hn. to_prop.
  eapply triple_bind; [apply triple_read_slice|]. intros un ? ? (Hl & -> & ->).
  eapply triple_bind; [apply triple_read_u8|]. intros k ? ? (-> & ->).
  eapply triple_bind; [apply triple_guard|]. intros [] ? ? (Hk & -> & ->). apply negb_true_iff in Hk. to_prop.
  eapply triple_bind; [apply triple_read_slice|]. intros pw ? ? (Hl' & -> & ->).
  eapply triple_bind; [apply triple_guard|]. intros [] ? ? (Hm & -> & ->). apply andb_true_iff in Hm as [Hu Hp]. to_prop. subst un pw.
  eapply triple_bind; [apply triple_write_all|]. intros [] ? ? (-> & ->).
  eapply triple_weaken; [apply triple_flush|]. intros [] ? ? (-> & ->). exists n, k. rewrite !app_nil_r. cbn [app]. by split_and!.
Qed.

Lemma accept_uot_triple : triple (@accept_uot _ (parser_handshake t) udp) (λ _ _ _, True).
Proof.
  unfold accept_uot. eapply triple_bind; [apply triple_guard|]. intros. eapply triple_bind; [by apply triple_lift|]. intros.
  eapply triple_bind; [apply triple_write_all|]. intros. eapply triple_weaken; [apply triple_flush|]. done.
Qed.

Lemma handle_udp_associate_triple ip : triple (@handle_udp_associate _ (parser_handshake t) bind ip) (λ _ _ _, True).
Proof.
  unfold handle_udp_associate. eapply triple_bind; [apply read_location_triple|]. intros ? ? ? ?.
  destruct (bind ip) as [e|e|bound]; [|by eapply triple_weaken; [apply triple_lift|]|];
    (eapply triple_bind; [apply triple_write_all|]; intros; eapply triple_bind; [apply triple_flush|]; intros).
  - by eapply triple_weaken; [apply triple_lift|].
  - by eapply triple_weaken; [apply triple_ret|].
Qed.

Lemma read_request_triple : triple (@read_request _ (parser_handshake t) udp bind) (λ _ _ _, True).
Proof.
  assert (Hindex : ∀ (l : bytes) i, length l = 3%nat → (i < 3)%nat → index l i ≠ Panic).
  { intros l i Hl Hi. unfold index. destruct (lookup_lt_is_Some_2 l i) as [x ->]; [lia | done]. }
  unfold read_request. eapply triple_bind; [apply triple_read_slice|]. intros cr ? ? (Hl & _ & _).
  eapply triple_bind; [apply triple_lift, Hindex; [done | lia]|]. intros. eapply triple_bind; [apply triple_guard|]. intros.
  eapply triple_bind; [apply triple_lift, Hindex; [done | lia]|]. intros c ? ? _. destruct (c =? _).
  { destruct udp as [ip|]; [by eapply triple_weaken; [apply handle_udp_associate_triple|]|].
    eapply triple_bind; [apply triple_write_all|]. intros. eapply triple_bind; [apply triple_flush|]. intros. apply triple_throw. }
  eapply triple_bind; [apply triple_guard|]. intros. eapply triple_bind; [apply triple_lift, Hindex; [done | lia]|]. intros.
  eapply triple_bind; [apply triple_guard|]. intros. eapply triple_bind; [apply read_location_triple|]. intros l ? ? _.
  destruct (bool_decide _); [|destruct (bool_decide _)].
  - eapply triple_bind; [apply accept_uot_triple|]. intros. by eapply triple_weaken; [apply triple_ret|].
  - eapply triple_bind; [apply accept_uot_triple|]. intros. eapply triple_bind; [apply triple_read_u8|]. intros.
    eapply triple_bind; [apply read_location_triple|]. intros. by eapply triple_weaken; [apply triple_ret|].
  - by eapply triple_weaken; [apply triple_ret|].
Qed.

Lemma handshake_triple :
  triple (@handshake _ (parser_handshake t) auth udp bind) (λ _ xs _,
    ∃ n methods more, length methods = Z.to_nat n ∧ supported_method auth ∈ methods ∧
      match auth with
      | None => xs = VER_SOCKS5 :: n :: methods ++ more
      | Some (username, password) =>
          ∃ i k, xs = VER_SOCKS5 :: n :: methods ++ [VER_AUTH; i] ++ username ++ [k] ++ password ++ more ∧
            Z.to_nat i = length username ∧ Z.to_nat k = length password ∧ i ≠ 0 ∧ k ≠ 0
      end).
Proof.
  unfold handshake. eapply triple_bind; [apply negotiate_triple|]. intros [] ? ? (n & ms & -> & Hl & Hm & ->).
  eapply triple_bind; [apply socks_authenticate_triple|]. intros [] xs ys Ha.
  eapply triple_weaken; [apply read_request_triple|]. intros r more ys' _. exists n, ms, more. split; [done|]. split; [done|].
  destruct auth as [[u p]|].
  - destruct Ha as (i & k & -> & ? & ? & ? & ? & _). exists i, k. split; [|done]. cbn [app]. do 3 f_equal. rewrite <- !app_assoc. cbn [app].
    rewrite <- ?app_assoc. done.
  - destruct Ha as [-> _]. done.
Qed.

End server_reads.
(** Nothing the reader holds makes what follows the handshake panic. *)
Lemma finish_no_panic {P D U} debug junk (sel : P) r held src :
  finish (D := D) (U := U) debug junk sel r held src ≠ Panic.
Proof.
  unfold finish. destruct r as [l| |l|a]; [done| | |done].
  - unfold Packets.PacketAddr.addr_feed_initial_data. destruct (_ =? 0)%nat; [done|].
    edestruct (Slide.extend_spec debug junk) as (b & -> & _); [apply Slide.wf_new | | done].
    rewrite length_take. unfold Packets.PacketAddr.new_with_codec. lia.
  - destruct (_ =? 0)%nat; [done|]. pose proof (Messages.msg_feed_no_panic held src) as Hp.
    by destruct (Messages.feed_initial_read_data held _).
Qed.

(** ** Both ends *)

(** What the client writes, and what the server writes before the response. *)
Definition client_wire (auth : option (bytes * bytes)) (location : NetLocation) : bytes :=
  [VER_SOCKS5; 1; supported_method auth] ++
  match auth with
  | Some (username, password) =>
      [VER_AUTH; Z.of_nat (length username)] ++ username ++ [Z.of_nat (length password)] ++ password
  | None => []
  end ++ [VER_SOCKS5; CMD_CONNECT; 0] ++ location_wire location.
Definition server_wire (auth : option (bytes * bytes)) : bytes :=
  [VER_SOCKS5; supported_method auth] ++ (if auth is Some _ then [VER_AUTH; RESULT_SUCCESS] else []).

(** Credentials that fit their length bytes. *)
Definition auth_ok (auth : option (bytes * bytes)) : Prop :=
  match auth with
  | Some (username, password) => (1 ≤ length username ≤ 255)%nat ∧ (1 ≤ length password ≤ 255)%nat
  | None => True
  end.

(** Locations that are not names of UDP-over-TCP. *)
Definition plain (location : NetLocation) : Prop :=
  location_ok location ∧ address location ≠ Hostname UOT_V1_MAGIC_ADDRESS ∧ address location ≠ Hostname UOT_V2_MAGIC_ADDRESS.

Section ends.
Context (t : terms) (Hcap : (257 ≤ buffer_size t)%nat) (Hw : write_error t = None).
Context (auth : option (bytes * bytes)) (Hauth : auth_ok auth).

Lemma negotiate_ok rest seen sent :
  @negotiate _ (parser_handshake t) auth (mkView ([VER_SOCKS5; 1; supported_method auth] ++ rest) seen sent) =
    (Ok tt, mkView rest 0 (sent ++ [VER_SOCKS5; supported_method auth])).
Proof.
  unfold negotiate. cbn [app]. step read_u8_ok. step guard_ok. step read_u8_ok. step guard_ok.
  step (read_slice_ok t [supported_method auth]). step guard_ok; [|apply bool_decide_true; set_solver].
  step write_all_ok. by rewrite flush_ok.
Qed.

Lemma authenticate_ok rest seen sent :
  @authenticate _ (parser_handshake t) auth (mkView (match auth with
      | Some (username, password) =>
          [VER_AUTH; Z.of_nat (length username)] ++ username ++ [Z.of_nat (length password)] ++ password
      | None => []
      end ++ rest) seen sent) =
    (Ok tt, mkView rest (if auth is Some _ then 0 else seen) (sent ++ (if auth is Some _ then [VER_AUTH; RESULT_SUCCESS] else []))).
Proof.
  unfold authenticate. destruct auth as [[u p]|]; [|by rewrite app_nil_r]. destruct Hauth as [Hu Hp].
  rewrite <- !app_assoc. cbn [app]. step read_u8_ok. step guard_ok. step read_u8_ok.
  step guard_ok. rewrite Nat2Z.id. step (read_slice_ok t u).
  step read_u8_ok. step guard_ok. rewrite Nat2Z.id. step (read_slice_ok t p).
  step guard_ok; [|by rewrite !bool_decide_true]. step write_all_ok. by rewrite flush_ok.
Qed.

Lemma read_request_ok udp bind l rest seen sent :
  plain l →
  @read_request _ (parser_handshake t) udp bind (mkView ([VER_SOCKS5; CMD_CONNECT; 0] ++ location_wire l ++ rest) seen sent) =
    (Ok (Connect l), mkView rest 0 sent).
Proof.
  intros (Hl & Hm1 & Hm2). unfold read_request. step (read_slice_ok t [VER_SOCKS5; CMD_CONNECT; 0]).
  step lift_ok. step guard_ok. step lift_ok. branch. step guard_ok. step lift_ok. step guard_ok.
  step (read_location_ok t Hcap l). by rewrite !bool_decide_false.
Qed.

Lemma handshake_ok udp bind l rest seen sent :
  plain l →
  @handshake _ (parser_handshake t) auth udp bind (mkView (client_wire auth l ++ rest) seen sent) =
    (Ok (Connect l), mkView rest 0 (sent ++ server_wire auth)).
Proof.
  intros Hl. unfold handshake, client_wire. rewrite <- !app_assoc. step negotiate_ok. step authenticate_ok.
  rewrite read_request_ok by done. by rewrite <- app_assoc.
Qed.

Lemma client_ok l resp rest seen sent :
  location_ok l → success_response = Ok resp →
  @client_handshake _ (parser_handshake t) (client_new auth) l (mkView (server_wire auth ++ resp ++ rest) seen sent) =
    (Ok tt, mkView rest 0 (sent ++ client_wire auth l)).
Proof.
  intros Hl Hr. set (local := mkNetLocation (Ipv4 [127; 0; 0; 1]) 65535).
  assert (resp = [VER_SOCKS5; RESULT_SUCCESS; 0] ++ location_wire local) as -> by (vm_compute in Hr; by injection Hr as <-).
  assert (Hlocal : location_ok local) by (split; [done|]; reflexivity).
  assert (Hreq : try_write_location_to_buf l (prefix_data (client_new auth)) = Ok (client_wire auth l)).
  { rewrite try_write_location_ok by done. f_equal. unfold client_wire, client_new. destruct auth as [[u p]|]; [|done].
    destruct Hauth. rewrite !wrap_small by (unfold in_width; lia). cbn [prefix_data]. by rewrite <- !app_assoc. }
  unfold client_handshake. step lift_ok. step write_all_ok. step flush_ok. cbn [bytes_left bytes_seen bytes_sent].
  unfold server_wire. rewrite <- !app_assoc. cbn [app]. step read_u8_ok. step guard_ok. step read_u8_ok.
  step guard_ok; [|by destruct auth]. erewrite bind_ok.
  2:{ instantiate (1 := mkView ([VER_SOCKS5; RESULT_SUCCESS; 0] ++ location_wire local ++ rest) 0 (sent ++ client_wire auth l)).
      instantiate (1 := tt). destruct auth as [[u p]|]; [|done]. cbn [has_auth client_new app].
      step read_u8_ok. step guard_ok. step read_u8_ok. by rewrite guard_ok. }
  cbn [app]. step read_u8_ok. step guard_ok. step read_u8_ok. step guard_ok. step read_u8_ok. step guard_ok.
  step (read_location_ok t Hcap local). done.
Qed.
End ends.

(** C35: A SOCKS5 server never panics, and it serves nobody but its users: whatever
    is made of a connection, it had named the server's method, and
    where a username and password are configured it had sent exactly them. *)
Theorem socks_serves_only_its_users {P D U} debug junk bind (h : SocksTcpServerHandler P) src :
  Reader.source_ok src →
  let result := (setup_server_stream (D := D) (U := U) debug junk bind h src).1 in
  result ≠ Panic ∧
  (is_Ok result = true →
   ∃ n methods more, length methods = Z.to_nat n ∧ supported_method (auth_info h) ∈ methods ∧
     match auth_info h with
     | None => Reader.flat src = [VER_SOCKS5; n] ++ methods ++ more
     | Some (username, password) =>
         ∃ i k, Reader.flat src = [VER_SOCKS5; n] ++ methods ++ [VER_AUTH; i] ++ username ++ [k] ++ password ++ more ∧
           Z.to_nat i = length username ∧ Z.to_nat k = length password ∧ i ≠ 0 ∧ k ≠ 0
     end).
Proof.
  intros Hs result. set (udp := if udp_enabled h then Some (bind_ip h) else None).
  pose proof (handshake_triple (terms_of (N.to_nat 400) src) (auth_info h) udp bind (view_of src)) as Ht.
  destruct (serve_spec debug junk (N.to_nat 400) _ (finish (D := D) (U := U) debug junk (server_selector h)) src
    (handshake_coherent (auth_info h) udp bind) Hs) as (held & src' & _ & Hserve).
  { unfold parse. by destruct (@handshake parser _ _ _ _ _) as [[] ?]. }
  assert (Hres : result = (r ← (parse (terms_of (N.to_nat 400) src) (λ M _, handshake (auth_info h) udp bind) (view_of src)).1;
    finish debug junk (server_selector h) r held src')).
  { unfold result, setup_server_stream, setup_socks_server_stream_inner. fold udp. by rewrite Hserve. }
  rewrite Hres. unfold parse. destruct (@handshake parser _ _ _ _ _) as [[r|e|] v']; cbn [fst mbind outcome_bind]; [|done..].
  split; [apply finish_no_panic|]. intros _. destruct Ht as (xs & ys & Hl & _ & n & ms & more & Hn & Hm & Hx).
  cbn [view_of bytes_left] in Hl. exists n, ms, (more ++ bytes_left v'). split; [done|]. split; [done|].
  destruct (auth_info h) as [[u p]|].
  - destruct Hx as (i & k & -> & Hx). exists i, k. split; [|done]. rewrite Hl. cbn [app]. rewrite <- !app_assoc. cbn [app].
    by rewrite <- app_assoc; cbn [app]; rewrite <- app_assoc.
  - subst xs. rewrite Hl. cbn [app]. by rewrite <- app_assoc.
Qed.
(** ** A client and a server *)
Definition demo_server : SocksTcpServerHandler unit := mkServer (Some (B "user", B "secret")) true (V4 [127; 0; 0; 1]) tt.
Definition demo_target : NetLocation := mkNetLocation (Hostname (B "example.com")) 443.
Definition demo_response : bytes := [5; 0; 0; 1; 127; 0; 0; 1; 255; 255].
Definition demo_bind (ip : IpAddr) : bind_result := Bound (mkSocketAddr ip 1080).
Definition demo_upstream : Reader.Source :=
  Reader.incoming [Some (take 5 (client_wire (auth_info demo_server) demo_target)); None;
    Some (drop 5 (client_wire (auth_info demo_server) demo_target) ++ B "hello")].
Definition demo_downstream : Reader.Source :=
  Reader.incoming [Some (server_wire (auth_info demo_server) ++ demo_response ++ B "wor"); Some (B "ld")].


Lemma socks_serves_only_its_users_witness :
  (setup_server_stream (D := unit) (U := unit) true (λ _, 0) demo_bind demo_server
     (Reader.incoming [Some (client_wire (Some (B "user", B "wrong")) demo_target)])).1 ≠ Panic ∧
  is_Ok (setup_server_stream (D := unit) (U := unit) true (λ _, 0) demo_bind demo_server
     (Reader.incoming [Some (client_wire (Some (B "user", B "wrong")) demo_target)])).1 = false ∧
  is_Ok (setup_server_stream (D := unit) (U := unit) true (λ _, 0) demo_bind demo_server demo_upstream).1 = true.
Proof.
  split; [|by vm_compute].
  refine (proj1 (socks_serves_only_its_users (D := unit) (U := unit) true (λ _, 0) demo_bind demo_server
    (Reader.incoming [Some (client_wire (Some (B "user", B "wrong")) demo_target)]) _)).
  split; [|done]. repeat constructor. by vm_compute.
Defined.

End Socks.
