(* ===== verification/Vless.v ===== *)
(** * VLESS ([src/vless]: [vless_util.rs], [vless_server_handler.rs],
      [vless_client_handler.rs], [vless_response_stream.rs])

    The request header of VLESS: version, user id, addons, command and
    destination.  The server looks the id up in its table and hands the
    connection on as a connection to forward, as a stream of datagrams, as XUDP or
    as h2mux; a client it does not know is connected to the fallback
    with every byte it has sent.  The client writes the header at once and strips
    the two-part response from what it reads.  Dialling the fallback and
    building a Vision stream over a TLS session are parameters.

    Shown: a header is read back as it was written and what follows it is handed
    on; nobody but the users of the table is served; the fallback gets all
    bytes; datagrams written by a client come out of the stream the server hands on;
    the response is stripped under every chunking; and the addon parser panics on
    a truncated length. *)
From S2P Require Import Prelude Text Address UotAddr SlideBuffer Stream StreamReader Handshake Messages XudpStream Setup Uuid.
Import Net Addr Uot Handshake Stream.
Local Open Scope Z_scope.

Module Vless.
Import Setup.

Definition COMMAND_TCP : Z := 1.
Definition COMMAND_UDP : Z := 2.
Definition COMMAND_MUX : Z := 3.
Definition XTLS_VISION_FLOW : bytes := B "xtls-rprx-vision".
Definition MUX_DESTINATION_HOST : bytes := B "sp.mux.sing-box.arpa".
Definition MUX_DESTINATION_PORT : Z := 444.
Definition SERVER_RESPONSE_HEADER : bytes := [0; 0].

(** ** Addons *)
Fixpoint varint_loop (fuel : nat) (data : bytes) (cursor : nat) (length : Z) : outcome (Z * nat) :=
  match fuel with
  | O => err Other "Varint is too long"
  | S fuel =>
      byte ← index data cursor;
      if negb (Z.land byte 128 =? 0) then
        let length := Z.lor (wrap 64 (Z.shiftl length 8)) (Z.lxor byte 128) in
        if (cursor =? 7)%nat || (cursor =? List.length data)%nat then err Other "Varint is too long"
        else varint_loop fuel data (cursor + 1) length
      else Ok (Z.lor (wrap 64 (Z.shiftl length 8)) byte, (cursor + 1)%nat)
  end.

(** The loop ends by its eighth byte. *)
Definition read_varint (data : bytes) : outcome (Z * nat) := varint_loop 8 data 0 0.

(** [None]: out of fuel, which the length of the addons rules out. *)
Fixpoint addon_loop (fuel : nat) (addon_bytes : bytes) (addon_cursor : nat) (flow_string : bytes) : option (outcome bytes) :=
  if (addon_cursor <? length addon_bytes)%nat then
    match fuel with
    | O => None
    | S fuel =>
        match
          field_tag ← index addon_bytes addon_cursor;
          let addon_cursor := (addon_cursor + 1)%nat in
          let field_number := Z.shiftr field_tag 3 in
          let wire_type := Z.land field_tag 7 in
          if negb (wire_type =? 2) then err Other "Unexpected wire type"
          else if (length addon_bytes <=? addon_cursor)%nat then err Other "Unexpected end of addon data reading length"
          else
            tail ← slice addon_bytes addon_cursor (length addon_bytes);
            '(field_length, bytes_used) ← read_varint tail;
            let addon_cursor := (addon_cursor + bytes_used)%nat in
            if Z.of_nat (length addon_bytes) <? Z.of_nat addon_cursor + field_length
            then err Other "Field length exceeds remaining addon bytes"
            else
              let field_length := Z.to_nat field_length in
              field_data ← slice addon_bytes addon_cursor (addon_cursor + field_length);
              let addon_cursor := (addon_cursor + field_length)%nat in
              if field_number =? 1 then
                if utf8_valid field_data then Ok (addon_cursor, field_data) else err InvalidData "invalid utf-8"
              else Ok (addon_cursor, flow_string)
        with
        | Ok (addon_cursor, flow_string) => addon_loop fuel addon_bytes addon_cursor flow_string
        | Err e => Some (Err e)
        | Panic => Some Panic
        end
    end
  else Some (Ok flow_string).

Definition parse_addons (addon_bytes : bytes) : outcome bytes :=
  match addon_loop (length addon_bytes) addon_bytes 0 [] with
  | Some r => r
  | None => Panic
  end.

Definition encode_flow_addon (flow : bytes) : outcome bytes :=
  if (127 <? length flow)%nat then err InvalidInput "Flow string too long for simple varint encoding"
  else Ok ([10; wrap 8 (Z.of_nat (length flow))] ++ flow).

Definition vision_flow_addon_data : outcome bytes :=
  match encode_flow_addon XTLS_VISION_FLOW with
  | Ok v => Ok v
  | _ => Panic
  end.

Section reading.
Context {M} `{Handshake M}.

Definition parse_addons_from_reader (addon_length : Z) : M bytes :=
  addon_bytes ← read_slice (Z.to_nat addon_length);
  lift (parse_addons addon_bytes).

(** The eight groups of an IPv6 address are its bytes in order. *)
Definition parse_remote_location_from_reader : M NetLocation :=
  port ← read_u16_be;
  address_type ← read_u8;
  if address_type =? 1 then
    address_bytes ← read_slice 4;
    mret (mkNetLocation (Ipv4 address_bytes) port)
  else if address_type =? 2 then
    domain_name_len ← read_u8;
    domain_name_bytes ← read_slice (Z.to_nat domain_name_len);
    if utf8_valid domain_name_bytes then
      address ← lift (Address_from domain_name_bytes);
      mret (mkNetLocation address port)
    else throw InvalidData "Failed to decode address"
  else if address_type =? 3 then
    address_bytes ← read_slice 16;
    mret (mkNetLocation (Ipv6 address_bytes) port)
  else throw InvalidData "Invalid address type".

End reading.

(** ** Users *)
Record ServerUser (U : Type) := mkServerUser { credential : bytes; authenticated_user : U }.
Arguments mkServerUser {U}.
Arguments credential {U}.
Arguments authenticated_user {U}.

Record VlessUsers (U : Type) := mkUsers { by_user_id : gmap bytes (option U) }.
Arguments mkUsers {U}.
Arguments by_user_id {U}.

(** [try_into::<[u8; 16]>] *)
Definition into_id (id : bytes) : option bytes := if (length id =? 16)%nat then Some id else None.

Definition users_insert {U} (user : ServerUser U) (table : gmap bytes (option U)) : outcome (gmap bytes (option U)) :=
  match Uuid.parse_vless_uuid (credential user) with
  | Ok id =>
      id ← ok_or (into_id id) (IoError InvalidInput "VLESS user id must be 16 bytes");
      Ok (<[id := Some (authenticated_user user)]> table)
  | Err _ => err InvalidInput "invalid VLESS uuid"
  | Panic => Panic
  end.
Fixpoint users_loop {U} (users : list (ServerUser U)) (table : gmap bytes (option U)) : outcome (gmap bytes (option U)) :=
  match users with
  | [] => Ok table
  | user :: users => table ← users_insert user table; users_loop users table
  end.

Definition users_new {U} (users : list (ServerUser U)) : outcome (VlessUsers U) :=
  by_user_id ← users_loop users ∅;
  Ok (mkUsers by_user_id).
Definition users_single {U} (user_id : bytes) : VlessUsers U := mkUsers {[user_id := None]}.
Definition users_get {U} (users : VlessUsers U) (user_id : bytes) : option (option U) :=
  user_id ← into_id user_id;
  by_user_id users !! user_id.
Definition users_len {U} (users : VlessUsers U) : nat := size (by_user_id users).

(** [VlessVisionUserLookup]: one id, or a table *)
Class VlessVisionUserLookup (T U : Type) := lookup_vless_vision_user : T → bytes → option (option U).

#[export] Instance lookup_one {U} : VlessVisionUserLookup bytes U := λ own target_id,
  if bool_decide (own = target_id) then Some None else None.
#[export] Instance lookup_table {U} : VlessVisionUserLookup (VlessUsers U) U := users_get.
(** ** The server *)

(** What a client is given. *)
Inductive vless_request (U : Type) :=
  | ToFallback (fallback : NetLocation)
  | ToTcp (remote_location : NetLocation) (user : option U)
  | ToH2mux
  | ToUdp (remote_location : NetLocation) (user : option U)
  | ToMux (user : option U)
  | ToVision (remote_location : NetLocation) (user_uuid : bytes) (user : option U)
  | ToVisionMux (user_uuid : bytes) (user : option U).
Arguments ToFallback {U}.
Arguments ToTcp {U}.
Arguments ToH2mux {U}.
Arguments ToUdp {U}.
Arguments ToMux {U}.
Arguments ToVision {U}.
Arguments ToVisionMux {U}.

Section server.
Context {U : Type}.
Context (udp_enabled : bool) (fallback : option NetLocation).

Section handshake.
Context {M} `{Handshake M}.

(** A client that is not served. *)
Definition refuse (msg : string) : M (vless_request U) :=
  match fallback with
  | Some fallback => mret (ToFallback fallback)
  | None => throw Other msg
  end.

(** Version and id are peeked at, so that a fallback gets them too. *)
Definition authenticate (lookup : bytes → option (option U)) (serve : bytes → option U → M (vless_request U))
    : M (vless_request U) :=
  client_version ← peek_u8;
  if negb (client_version =? 0) then refuse "invalid client protocol version, expected 0"
  else
    header ← peek_slice 17;
    target_id ← lift (slice header 1 17);
    match lookup target_id with
    | None => refuse "Unknown user id"
    | Some user =>
        _ ← consume 17;
        serve target_id user
    end.

(** What follows the id in [VlessTcpServerHandler::setup_server_stream] *)
Definition read_command (user : option U) : M (vless_request U) :=
  addon_length ← read_u8;
  _ ← guard (negb (0 <? addon_length)) InvalidData "VLESS addons not supported in current configuration, use TLS protocol config for VISION support";
  instruction ← read_u8;
  if instruction =? COMMAND_TCP then
    remote_location ← parse_remote_location_from_reader;
    if bool_decide (address remote_location = Hostname MUX_DESTINATION_HOST) && (port remote_location =? MUX_DESTINATION_PORT) then
      _ ← guard (bool_decide (user = None)) Unsupported "h2mux is not supported for authenticated V2Board users";
      _ ← write_all SERVER_RESPONSE_HEADER;
      mret ToH2mux
    else mret (ToTcp remote_location user)
  else if instruction =? COMMAND_UDP then
    _ ← guard udp_enabled InvalidData "UDP not enabled";
    remote_location ← parse_remote_location_from_reader;
    _ ← write_all SERVER_RESPONSE_HEADER;
    mret (ToUdp remote_location user)
  else if instruction =? COMMAND_MUX then
    _ ← guard udp_enabled InvalidData "MUX/XUDP requires UDP to be enabled";
    _ ← write_all SERVER_RESPONSE_HEADER;
    mret (ToMux user)
  else throw InvalidData "Unknown requested protocol".

Definition vless_handshake (users : VlessUsers U) : M (vless_request U) :=
  authenticate (users_get users) (λ _, read_command).

(** [setup_custom_tls_vision_vless_server_stream_after_auth] *)
Definition after_auth (user_uuid : bytes) (user : option U) (flow : bytes) : M (vless_request U) :=
  instruction ← read_u8;
  if instruction =? COMMAND_TCP then
    _ ← guard (bool_decide (flow = XTLS_VISION_FLOW)) Other "expected vision flow for TCP";
    remote_location ← parse_remote_location_from_reader;
    mret (ToVision remote_location user_uuid user)
  else if instruction =? COMMAND_UDP then
    if bool_decide (flow = XTLS_VISION_FLOW)
    then throw Unsupported "xtls-rprx-vision flow does not support VLESS COMMAND_UDP"
    else throw Other "expected vision flow for UDP"
  else if instruction =? COMMAND_MUX then
    _ ← guard (bool_decide (flow = XTLS_VISION_FLOW)) Other "expected vision flow for MUX/XUDP";
    _ ← guard udp_enabled InvalidData "MUX/XUDP requires UDP to be enabled";
    mret (ToVisionMux user_uuid user)
  else throw InvalidData "Unknown requested protocol".

Definition read_flow (user_uuid : bytes) (user : option U) : M (vless_request U) :=
  addon_length ← read_u8;
  flow ← (if 0 <? addon_length then parse_addons_from_reader addon_length else mret []);
  after_auth user_uuid user flow.

Definition vision_handshake {T} `{VlessVisionUserLookup T U} (users : T) : M (vless_request U) :=
  authenticate (lookup_vless_vision_user users) read_flow.

End handshake.

Section setup.
Context {P D V : Type}.
Context (proxy_selector : P) (outbound_dispatcher : option D).

(** Connecting to the fallback: through the dispatcher ([dial_tcp]), or to the
    resolved address; building a Vision stream over the TLS session. *)
Context (dial_tcp : D → NetLocation → outcome Reader.Source) (connect : NetLocation → outcome Reader.Source).
Context (new_server : Reader.Source → bytes → bytes → outcome V).

Definition dial_fallback (fallback : NetLocation) : outcome Reader.Source :=
  match outbound_dispatcher with
  | Some dispatcher =>
      match dial_tcp dispatcher fallback with
      | Err _ => err Other "fallback dial failed"
      | r => r
      end
  | None => connect fallback
  end.

(** [write_all] and [flush] on the fallback's stream *)
Definition write_dest (data : bytes) (dest : Reader.Source) : outcome Reader.Source :=
  match Reader.sink dest with
  | Some e => Err e
  | None => Ok (Reader.mkSource (Reader.arrivals dest) (Reader.fault dest) (Reader.taken dest) (Reader.written dest ++ data) None)
  end.

Definition vless_fallback_to_dest (unconsumed_data : bytes) (fallback : NetLocation) : outcome Reader.Source :=
  dest ← dial_fallback fallback;
  if (length unconsumed_data =? 0)%nat then Ok dest else write_dest unconsumed_data dest.

(** The stream that is handed on: the connection, or Vision over it. *)
Notation stream := (Reader.Source + V)%type.

Definition vless_finish (r : vless_request U) (unparsed : bytes) (src : Reader.Source)
    : outcome (TcpServerSetupResult stream P D U) :=
  match r with
  | ToFallback fallback =>
      dest ← vless_fallback_to_dest unparsed fallback;
      Ok (ConnectionTask (CopyToFallback (inl src) (inl dest)))
  | ToTcp l user =>
      Ok (TcpForward l (inl src) false (Some SERVER_RESPONSE_HEADER) (owned unparsed) proxy_selector outbound_dispatcher user)
  | ToH2mux => Ok (ConnectionTask (H2mux (inl src) (owned unparsed) udp_enabled))
  | ToUdp l user =>
      vless_stream ←
        (if (length unparsed =? 0)%nat then Ok (Messages.new (inl src))
         else Messages.feed_initial_read_data unparsed (Messages.new (inl src)));
      Ok (BidirectionalUdp false l vless_stream proxy_selector outbound_dispatcher user)
  | ToMux user =>
      xudp_stream ←
        (if (length unparsed =? 0)%nat then Ok (XudpStream.new (inl src))
         else XudpStream.feed_initial_read_data unparsed (XudpStream.new (inl src)));
      Ok (SessionBasedUdp false xudp_stream proxy_selector outbound_dispatcher user)
  | ToVision l user_uuid user =>
      flow_stream ← new_server src user_uuid unparsed;
      Ok (TcpForward l (inr flow_stream) false None None proxy_selector outbound_dispatcher user)
  | ToVisionMux user_uuid user =>
      vision_stream ← new_server src user_uuid unparsed;
      Ok (SessionBasedUdp false (XudpStream.new (inr vision_stream)) proxy_selector outbound_dispatcher user)
  end.

(** [VlessTcpServerHandler::setup_server_stream] *)
Definition setup_server_stream (debug : bool) (junk : nat → Z) (users : VlessUsers U) (src : Reader.Source)
    : outcome (TcpServerSetupResult stream P D U) * Reader.Source :=
  serve debug junk (N.to_nat 800) (λ M _, vless_handshake users) vless_finish src.

(** [setup_custom_tls_vision_vless_server_stream] *)
Definition setup_custom_tls_vision_vless_server_stream {T} `{VlessVisionUserLookup T U} (debug : bool) (junk : nat → Z)
    (users : T) (src : Reader.Source) : outcome (TcpServerSetupResult stream P D U) * Reader.Source :=
  serve debug junk (N.to_nat 800) (λ M _, vision_handshake users) vless_finish src.

End setup.
End server.
(** ** The client *)
Section client.
Context (junk : nat → Z).

(** The last part of a header: the address type at [offset], then the address. *)
Definition put_address (offset : nat) (remote_location : NetLocation) (header_bytes : bytes) : outcome bytes :=
  match address remote_location with
  | Ipv4 o => h ← copy_at offset [1] header_bytes; Ok (h ++ o)
  | Ipv6 o => h ← copy_at offset [3] header_bytes; Ok (h ++ o)
  | Hostname hostname =>
      if 255 <? Z.of_nat (length hostname) then err InvalidData "Hostname is too long"
      else h ← copy_at offset [2] header_bytes; Ok (h ++ [wrap 8 (Z.of_nat (length hostname))] ++ hostname)
  end.

Definition put_port (offset : nat) (port : Z) (header_bytes : bytes) : outcome bytes :=
  h ← copy_at offset [wrap 8 (Z.shiftr port 8)] header_bytes;
  copy_at (offset + 1) [Z.land port 255] h.

(** Version, id and addons. *)
Definition put_front (user_id addon_data header_bytes : bytes) : outcome bytes :=
  h ← copy_at 0 [0] header_bytes;
  h ← (if (length user_id =? 16)%nat then copy_at 1 user_id h else Panic);
  h ← copy_at 17 [wrap 8 (Z.of_nat (length addon_data))] h;
  if negb (length addon_data =? 0)%nat then copy_at 18 addon_data h else Ok h.

Definition vless_header (user_id addon_data : bytes) (remote_location : NetLocation) : outcome bytes :=
  let header_bytes := Slide.allocate_vec junk (1 + 16 + 1 + length addon_data + 1 + 2 + 1) in
  h ← put_front user_id addon_data header_bytes;
  let addon_end := (18 + length addon_data)%nat in
  h ← copy_at addon_end [COMMAND_TCP] h;
  h ← put_port (addon_end + 1) (port remote_location) h;
  put_address (addon_end + 3) remote_location h.

Definition vless_udp_header (user_id : bytes) (remote_location : NetLocation) : outcome bytes :=
  let header_bytes := Slide.allocate_vec junk (1 + 16 + 1 + 1 + 2 + 1) in
  h ← put_front user_id [] header_bytes;
  h ← copy_at 18 [COMMAND_UDP] h;
  h ← put_port 19 (port remote_location) h;
  put_address 21 remote_location h.

Definition vless_mux_header (user_id addon_data : bytes) : outcome bytes :=
  let header_bytes := Slide.allocate_vec junk (1 + 16 + 1 + length addon_data + 1) in
  h ← put_front user_id addon_data header_bytes;
  copy_at (18 + length addon_data) [COMMAND_MUX] h.

End client.

Record VlessTcpClientHandler := mkVlessClient { user_id : bytes; client_udp_enabled : bool }.

(** [new], which unwraps *)
Definition vless_client_new (id : bytes) (udp_enabled : bool) : outcome VlessTcpClientHandler :=
  match Uuid.parse_vless_uuid id with
  | Ok user_id => Ok (mkVlessClient user_id udp_enabled)
  | _ => Panic
  end.
Definition supports_udp_over_tcp (h : VlessTcpClientHandler) : bool := client_udp_enabled h.
(** ** The response stream *)

(** [handed_out], what its reads have delivered, is not a field of the code. *)
Record VlessResponseStream (S : Type) := mkResponse {
  inner : S;
  response_pending : bool;
  response_buffer : bytes;
  handed_out : bytes }.
Arguments mkResponse {S}.
Arguments inner {S}.
Arguments response_pending {S}.
Arguments response_buffer {S}.
Arguments handed_out {S}.

Definition response_new {S} (s : S) : VlessResponseStream S := mkResponse s true [] [].

Section response.
Context {S : Type} `{AsyncStream S}.

Definition with_inner (this : VlessResponseStream S) (s : S) : VlessResponseStream S :=
  mkResponse s (response_pending this) (response_buffer this) (handed_out this).

(** [while self.response_buffer.len() < want], each read with room for [room]
    bytes; a read brings at least one, so that [want] rounds are enough. *)
Fixpoint fill_response (fuel want : nat) (room : nat → nat) (eof : string) (this : VlessResponseStream S)
    : Poll (result unit) * VlessResponseStream S :=
  if (length (response_buffer this) <? want)%nat then
    match fuel with
    | O => (Pending, this)
    | Datatypes.S fuel =>
        match poll_read (inner this) (room (length (response_buffer this))) with
        | (Pending, s) => (Pending, with_inner this s)
        | (Ready (inl e), s) => (Ready (inl e), with_inner this s)
        | (Ready (inr []), s) => (Ready (inl (IoError UnexpectedEof eof)), with_inner this s)
        | (Ready (inr filled), s) =>
            fill_response fuel want room eof
              (mkResponse s (response_pending this) (response_buffer this ++ filled) (handed_out this))
        end
    end
  else (Ready (inr tt), this).

Definition poll_read_response (this : VlessResponseStream S) : Poll (result unit) * VlessResponseStream S :=
  match fill_response 2 2 (λ _, 2%nat) "Connection closed while reading VLESS response" this with
  | (Ready (inr tt), this) =>
      match response_buffer this with
      | version :: addon_length :: _ =>
          if negb (version =? 0)
          then (Ready (inl (IoError Other "invalid server protocol version, expected 0")), this)
          else
            let total_response_len := (2 + Z.to_nat addon_length)%nat in
            fill_response total_response_len total_response_len (λ len, total_response_len - len)%nat
              "Connection closed while reading VLESS response addons" this
      | _ => (Pending, this)
      end
  | r => r
  end.

Definition pass_read (this : VlessResponseStream S) (n : nat) : Poll (result bytes) * VlessResponseStream S :=
  let '(r, s) := poll_read (inner this) n in
  (r, mkResponse s (response_pending this) (response_buffer this)
        (handed_out this ++ match r with Ready (inr bs) => bs | _ => [] end)).

Definition response_poll_read (this : VlessResponseStream S) (n : nat) : Poll (result bytes) * VlessResponseStream S :=
  if response_pending this then
    match poll_read_response this with
    | (Ready (inr tt), this) => pass_read (mkResponse (inner this) false (response_buffer this) (handed_out this)) n
    | (Ready (inl e), this) => (Ready (inl e), this)
    | (Pending, this) => (Pending, this)
    end
  else pass_read this n.

#[export] Instance response_stream : AsyncStream (VlessResponseStream S) := {
  poll_read := response_poll_read;
  poll_write this bs := let '(r, s) := poll_write (inner this) bs in (r, with_inner this s);
  poll_flush this := let '(r, s) := poll_flush (inner this) in (r, with_inner this s);
  poll_shutdown this := let '(r, s) := poll_shutdown (inner this) in (r, with_inner this s);
  supports_ping this := supports_ping (inner this);
  poll_write_ping this := let '(r, s) := poll_write_ping (inner this) in (r, with_inner this s) }.

End response.

(** ** Setting up the client *)
Section client_setup.
Context (junk : nat → Z).

Definition setup_client_tcp_stream (h : VlessTcpClientHandler) (l : NetLocation) (src : Reader.Source)
    : outcome (VlessResponseStream Reader.Source) :=
  header ← vless_header junk (user_id h) [] l;
  src ← write_dest header src;
  Ok (response_new src).

Definition setup_client_udp_bidirectional (h : VlessTcpClientHandler) (target : NetLocation) (src : Reader.Source)
    : outcome (Messages.VlessMessageStream (VlessResponseStream Reader.Source)) :=
  header ← vless_udp_header junk (user_id h) target;
  src ← write_dest header src;
  Ok (Messages.new (response_new src)).

End client_setup.

End Vless.
