(* ===== verification/VlessFacts.v ===== *)
(** * VLESS: what the handshakes of [Vless.v] do

    The header on the wire and how both ends see it, the table of users, who is
    served, what the fallback gets, and the streams of both ends put together. *)
From S2P Require Import Prelude Text Address UotAddr SlideBuffer Stream StreamReader Handshake SocksAddr Messages XudpStream Setup Uuid Vless.
Import Net Addr Uot Handshake Stream.
Local Open Scope Z_scope.

Module VlessFacts.
Import Setup Vless.

(** ** The header on the wire *)
Definition front_wire (id addons : bytes) : bytes := [0] ++ id ++ [Z.of_nat (length addons)] ++ addons.

Lemma put_front_ok id addons h :
  length id = 16%nat → (length addons ≤ 255)%nat → (18 + length addons ≤ length h)%nat →
  put_front id addons h = Ok (front_wire id addons ++ drop (18 + length addons) h).
Proof.
  intros Hid Ha Hh. unfold put_front. rewrite <- (app_nil_l h) at 1.
  rewrite SocksAddr.copy_at_next by (done || (simpl; lia)). cbn [mbind outcome_bind]. rewrite Hid. cbn [Nat.eqb].
  rewrite SocksAddr.copy_at_next by (done || (rewrite length_drop; simpl; lia)). cbn [mbind outcome_bind].
  rewrite SocksAddr.copy_at_next by ((rewrite !length_app; simpl; lia) || (rewrite !length_drop; simpl; lia)).
  cbn [mbind outcome_bind]. rewrite wrap_small by (unfold in_width; lia).
  destruct (length addons =? 0)%nat eqn:E; to_prop; cbn [negb].
  - apply nil_length_inv in E as ->. unfold front_wire. rewrite !drop_drop, Hid. cbn [length app]. by rewrite <- !app_assoc.
  - rewrite SocksAddr.copy_at_next by ((rewrite !length_app; simpl; lia) || (rewrite !length_drop; simpl; lia)).
    unfold front_wire. rewrite !drop_drop, Hid. cbn [length app]. by rewrite <- !app_assoc.
Qed.

Lemma put_port_ok pre n tl : in_width 16 n → (2 ≤ length tl)%nat →
  put_port (length pre) n (pre ++ tl) = Ok ((pre ++ be_encode 2 n) ++ drop 2 tl).
Proof.
  intros Hn Ht. unfold put_port. rewrite SocksAddr.copy_at_next by (done || (simpl; lia)). cbn [mbind outcome_bind].
  rewrite SocksAddr.copy_at_next by ((rewrite !length_app; simpl; lia) || (rewrite !length_drop; simpl; lia)).
  rewrite drop_drop, <- SocksAddr.port_bytes by done. cbn [length Nat.add]. by rewrite <- !app_assoc.
Qed.

Definition address_wire (a : Address) : bytes :=
  match a with
  | Ipv4 o => [1] ++ o
  | Ipv6 o => [3] ++ o
  | Hostname h => [2; Z.of_nat (length h)] ++ h
  end.

Lemma put_address_ok pre l tl : SocksAddr.location_ok l → length tl = 1%nat →
  put_address (length pre) l (pre ++ tl) = Ok (pre ++ address_wire (address l)).
Proof.
  intros [_ Ha] Ht. unfold put_address, address_wire.
  assert (Hput : ∀ x, copy_at (length pre) [x] (pre ++ tl) = Ok (pre ++ [x])).
  { intros x. rewrite SocksAddr.copy_at_next by (done || (simpl; lia)). rewrite drop_ge by (simpl; lia). by rewrite app_nil_r. }
  destruct (address l) as [o|o|h]; rewrite ?Hput; cbn [mbind outcome_bind]; rewrite <- ?app_assoc; try done.
  destruct Ha as [Hl _]. rewrite (proj2 (Z.ltb_ge _ _)) by lia. cbn [mbind outcome_bind].
  rewrite wrap_small by (unfold in_width; lia). by rewrite <- ?app_assoc.
Qed.

(** What remains of a header of [n] bytes after its first parts. *)
Lemma header_tail junk n k : (k ≤ n)%nat → length (drop k (Slide.allocate_vec junk n)) = (n - k)%nat.
Proof. intros. unfold Slide.allocate_vec. by rewrite length_drop, length_fmap, length_seq. Qed.

Lemma length_front_wire id addons : length id = 16%nat → length (front_wire id addons) = (18 + length addons)%nat.
Proof. intros Hid. unfold front_wire. rewrite !length_app. simpl. lia. Qed.

(** The part after the addons, at its place. *)
Lemma put_command_ok pre command l tl :
  SocksAddr.location_ok l → length tl = 4%nat →
  (h ← copy_at (length pre) [command] (pre ++ tl);
   h ← put_port (length pre + 1) (port l) h;
   put_address (length pre + 3) l h) = Ok (pre ++ [command] ++ be_encode 2 (port l) ++ address_wire (address l)).
Proof.
  intros Hl Ht. rewrite SocksAddr.copy_at_next by (done || (simpl; lia)). cbn [mbind outcome_bind length].
  replace (length pre + 1)%nat with (length (pre ++ [command])) by (rewrite length_app; simpl; lia).
  rewrite put_port_ok; [|by destruct Hl|rewrite length_drop; simpl; lia]. cbn [mbind outcome_bind].
  replace (length pre + 3)%nat with (length ((pre ++ [command]) ++ be_encode 2 (port l)))
    by (rewrite !length_app, length_be_encode; simpl; lia).
  rewrite put_address_ok; [by rewrite <- !app_assoc | done|]. rewrite !length_drop. lia.
Qed.

Lemma vless_header_ok junk id addons l :
  length id = 16%nat → (length addons ≤ 255)%nat → SocksAddr.location_ok l →
  vless_header junk id addons l = Ok (front_wire id addons ++ [COMMAND_TCP] ++ be_encode 2 (port l) ++ address_wire (address l)).
Proof.
  intros Hid Ha Hl. unfold vless_header. set (n := (_ + 1)%nat).
  rewrite put_front_ok; [|done|done|unfold Slide.allocate_vec; rewrite length_fmap, length_seq; unfold n; lia].
  cbn [mbind outcome_bind]. pose proof (put_command_ok (front_wire id addons) COMMAND_TCP l) as E.
  rewrite (length_front_wire id addons Hid) in E. apply E; [done|]. rewrite header_tail; unfold n; lia.
Qed.

Lemma vless_udp_header_ok junk id l :
  length id = 16%nat → SocksAddr.location_ok l →
  vless_udp_header junk id l = Ok (front_wire id [] ++ [COMMAND_UDP] ++ be_encode 2 (port l) ++ address_wire (address l)).
Proof.
  intros Hid Hl. unfold vless_udp_header. set (n := (_ + 1)%nat).
  rewrite put_front_ok; [|done|simpl; lia|unfold Slide.allocate_vec; rewrite length_fmap, length_seq; unfold n; simpl; lia].
  cbn [mbind outcome_bind]. pose proof (put_command_ok (front_wire id []) COMMAND_UDP l) as E.
  rewrite (length_front_wire id [] Hid) in E. apply E; [done|]. rewrite header_tail; unfold n; simpl; lia.
Qed.

Lemma vless_mux_header_ok junk id addons :
  length id = 16%nat → (length addons ≤ 255)%nat →
  vless_mux_header junk id addons = Ok (front_wire id addons ++ [COMMAND_MUX]).
Proof.
  intros Hid Ha. unfold vless_mux_header. set (n := (_ + 1)%nat).
  rewrite put_front_ok; [|done|done|unfold Slide.allocate_vec; rewrite length_fmap, length_seq; unfold n; lia].
  cbn [mbind outcome_bind]. rewrite SocksAddr.copy_at_next; [|by rewrite length_front_wire|rewrite header_tail; unfold n; simpl; lia].
  rewrite drop_ge by (rewrite header_tail; unfold n; simpl; lia). by rewrite app_nil_r.
Qed.
(** ** Reading a header *)
Section reading.
Context (t : terms) (Hcap : (257 ≤ buffer_size t)%nat).

Lemma parse_remote_location_ok l rest seen sent :
  SocksAddr.location_ok l →
  @parse_remote_location_from_reader _ (parser_handshake t)
      (mkView (be_encode 2 (port l) ++ address_wire (address l) ++ rest) seen sent) = (Ok l, mkView rest 0 sent).
Proof.
  intros [Hp Ha]. destruct l as [addr p]. cbn [address port] in *. unfold parse_remote_location_from_reader.
  step read_u16_ok. destruct addr as [o|o|h]; cbn [address_wire]; rewrite <- ?app_assoc; cbn [app]; step read_u8_ok.
  - branch. by step (read_slice_ok t o).
  - do 3 branch. by step (read_slice_ok t o).
  - destruct Ha as (Hl & Hu & Hf). do 2 branch. step read_u8_ok. rewrite Nat2Z.id. step (read_slice_ok t h).
    rewrite Hu. by step lift_ok.
Qed.

Lemma peek_u8_whole b bs seen sent :
  @peek_u8 _ (parser_handshake t) (mkView (b :: bs) seen sent) = (Ok b, mkView (b :: bs) 1 sent).
Proof. apply peek_u8_ok. lia. Qed.

Context {U : Type} (fallback : option NetLocation).

Lemma refuse_ok fb msg v :
  fallback = Some fb → @refuse U fallback _ (parser_handshake t) msg v = (Ok (ToFallback fb), v).
Proof. by intros ->. Qed.

Lemma authenticate_known lookup serve id (user : option U) rest seen sent :
  length id = 16%nat → lookup id = Some user →
  @authenticate U fallback _ (parser_handshake t) lookup serve (mkView (0 :: id ++ rest) seen sent) =
    serve id user (mkView rest 0 sent).
Proof.
  intros Hid Hu. pose proof (slice_mid [0] id [] 1 17 ltac:(done) ltac:(lia)) as Hs. rewrite app_nil_r in Hs. cbn [app] in Hs.
  unfold authenticate. step peek_u8_whole. cbn [Z.eqb negb].
  step (peek_slice_ok t (0 :: id) rest 17 1 sent); [|simpl; lia].
  step lift_ok. rewrite Hu.
  by step (consume_step t (0 :: id) rest 17); [|simpl; lia].
Qed.
End reading.
(** ** The two readings agree *)
Lemma remote_location_sim debug t whole :
  sim t whole (@parse_remote_location_from_reader _ (io_handshake debug)) (@parse_remote_location_from_reader _ (parser_handshake t)).
Proof. unfold parse_remote_location_from_reader. sim_solve. Qed.
#[local] Hint Resolve remote_location_sim : handshake.

Lemma refuse_sim {U} fb debug t whole msg :
  sim t whole (@refuse U fb _ (io_handshake debug) msg) (@refuse U fb _ (parser_handshake t) msg).
Proof. unfold refuse. sim_solve. Qed.
#[local] Hint Resolve refuse_sim : handshake.

Lemma authenticate_sim {U} fb debug t whole lookup
    (serve : bytes → option U → Reader.io (vless_request U)) (serve' : bytes → option U → parser (vless_request U)) :
  (∀ id user, sim t whole (serve id user) (serve' id user)) →
  sim t whole (@authenticate U fb _ (io_handshake debug) lookup serve) (@authenticate U fb _ (parser_handshake t) lookup serve').
Proof. intros Hs. unfold authenticate. sim_solve. Qed.

Lemma read_command_sim {U} udp debug t whole (user : option U) :
  sim t whole (@read_command U udp _ (io_handshake debug) user) (@read_command U udp _ (parser_handshake t) user).
Proof. unfold read_command. sim_solve. Qed.

Lemma vless_coherent {U} udp fb (users : VlessUsers U) : coherent (λ M _, vless_handshake udp fb users).
Proof. intros debug t whole. apply authenticate_sim. intros. apply read_command_sim. Qed.

Lemma after_auth_sim {U} udp debug t whole id (user : option U) flow :
  sim t whole (@after_auth U udp _ (io_handshake debug) id user flow) (@after_auth U udp _ (parser_handshake t) id user flow).
Proof. unfold after_auth. sim_solve. Qed.
#[local] Hint Resolve after_auth_sim : handshake.

Lemma vision_coherent {T U} `{VlessVisionUserLookup T U} udp fb (users : T) : coherent (λ M _, vision_handshake udp fb users).
Proof.
  intros debug t whole. apply authenticate_sim. intros id user. unfold read_flow, parse_addons_from_reader. sim_solve.
Qed.

(** ** What has been read when a client is served *)
Section triples.
Context (t : terms).

Lemma remote_location_triple : triple (@parse_remote_location_from_reader _ (parser_handshake t)) (λ _ _ ys, ys = []).
Proof.
  assert (Hret : ∀ l : NetLocation, triple (@mret _ (@h_ret _ (parser_handshake t)) _ l) (λ _ _ ys, ys = [])).
  { intros l. eapply triple_weaken; [apply triple_ret|]. by intros ? ? ? (_ & _ & ->). }
  unfold parse_remote_location_from_reader. eapply triple_bind; [apply triple_read_u16|]. intros p ? ? (_ & _ & ->).
  eapply triple_bind; [apply triple_read_u8|]. intros b ? ? [_ ->]. cbn [app].
  destruct (b =? 1); [|destruct (b =? 2); [|destruct (b =? 3); [|apply triple_throw]]].
  1,3: eapply triple_bind; [apply triple_read_slice|]; intros a ? ? (_ & _ & ->); apply Hret.
  eapply triple_bind; [apply triple_read_u8|]. intros n ? ? [_ ->].
  eapply triple_bind; [apply triple_read_slice|]. intros a ? ? (_ & _ & ->).
  destruct (utf8_valid a); [|apply triple_throw].
  eapply triple_bind; [apply triple_lift, SocksAddr.Address_from_no_panic|]. intros ? ? ? (_ & _ & ->). apply Hret.
Qed.

Context {U : Type} (udp : bool) (fallback : option NetLocation).

(** Whom a request is for; nobody is served from the fallback. *)
Definition request_user (r : vless_request U) : option (option U) :=
  match r with
  | ToFallback _ => None
  | ToH2mux => Some None
  | ToTcp _ u | ToUdp _ u | ToMux u | ToVision _ _ u | ToVisionMux _ u => Some u
  end.

(** Requests that need no Vision stream. *)
Definition no_vision (r : vless_request U) : bool :=
  match r with ToVision _ _ _ | ToVisionMux _ _ => false | _ => true end.

Lemma read_command_triple (user : option U) :
  triple (@read_command U udp _ (parser_handshake t) user) (λ r _ _, request_user r = Some user ∧ no_vision r = true).
Proof.
  assert (Hret : ∀ r : vless_request U, request_user r = Some user → no_vision r = true →
    triple (@mret _ (@h_ret _ (parser_handshake t)) _ r) (λ r _ _, request_user r = Some user ∧ no_vision r = true)).
  { intros r Hr Hv. eapply triple_weaken; [apply triple_ret|]. by intros ? ? ? (-> & _). }
  unfold read_command. eapply triple_bind; [apply triple_read_u8|]. intros. eapply triple_bind; [apply triple_guard|]. intros.
  eapply triple_bind; [apply triple_read_u8|]. intros c ? ? _. destruct (c =? _); [|destruct (c =? _); [|destruct (c =? _)]].
  - eapply triple_bind; [apply remote_location_triple|]. intros l ? ? _. destruct (_ && _); [|by apply Hret].
    eapply triple_bind; [apply triple_guard|]. intros [] ? ? (Hu & _). eapply triple_bind; [apply triple_write_all|]. intros.
    apply bool_decide_eq_true in Hu. apply Hret; [by rewrite Hu | done].
  - eapply triple_bind; [apply triple_guard|]. intros. eapply triple_bind; [apply remote_location_triple|]. intros.
    eapply triple_bind; [apply triple_write_all|]. intros. by apply Hret.
  - eapply triple_bind; [apply triple_guard|]. intros. eapply triple_bind; [apply triple_write_all|]. intros. by apply Hret.
  - apply triple_throw.
Qed.

(** A client that is refused has been read nothing of. *)
Lemma refuse_keeps msg v v' (R : vless_request U → bytes → bytes → Prop) :
  bytes_left v' = bytes_left v → bytes_sent v' = bytes_sent v → (∀ fb, fallback = Some fb → R (ToFallback fb) [] []) →
  match @refuse U fallback _ (parser_handshake t) msg v' with
  | (Ok r, w) => ∃ xs ys, bytes_left v = xs ++ bytes_left w ∧ bytes_sent w = bytes_sent v ++ ys ∧ R r xs ys
  | (Err _, w) => bytes_left w `suffix_of` bytes_left v
  | (Panic, _) => False
  end.
Proof.
  intros Hl Hs HR. unfold refuse. destruct fallback as [fb|]; [|simpl; by rewrite Hl]. simpl. exists [], []. rewrite app_nil_r. eauto.
Qed.

Lemma authenticate_triple lookup serve (Q : bytes → option U → vless_request U → Prop) :
  (∀ id user, lookup id = Some user → triple (serve id user) (λ r _ _, Q id user r)) →
  triple (@authenticate U fallback _ (parser_handshake t) lookup serve) (λ r xs ys,
    (∃ fb, fallback = Some fb ∧ r = ToFallback fb ∧ xs = [] ∧ ys = []) ∨
    (∃ id user more, length id = 16%nat ∧ lookup id = Some user ∧ xs = 0 :: id ++ more ∧ Q id user r)).
Proof.
  intros Hserve v.
  unfold authenticate. cbn [h_bind parser_handshake peek_u8 peek_slice]. unfold mbind at 1, parser_bind at 1.
  destruct (front_peek t be_decode false 1 v) as [(e & v' & -> & Hv)|[_ ->]]; [by rewrite Hv|].
  destruct (negb _) eqn:Ev; [apply refuse_keeps; simpl; eauto 10|]. apply negb_false_iff in Ev. to_prop.
  unfold mbind at 1, parser_bind at 1.
  destruct (front_peek t id true 17 (mkView (bytes_left v) 1 (bytes_sent v))) as [(e & v' & -> & Hv)|[Hl ->]]; [by rewrite Hv|].
  cbn [bytes_left bytes_sent id] in *. destruct (bytes_left v) as [|b left] eqn:El; [simpl in Hl; lia|].
  change (be_decode [b] = 0) in Ev. rewrite be_decode_byte in Ev. subst b. set (id16 := take 16 left).
  assert (Hid : length id16 = 16%nat) by (unfold id16; rewrite length_take; simpl in Hl; lia).
  unfold mbind at 1, parser_bind at 1. cbn [lift parser_handshake].
  assert (Hs : slice (take 17 (0 :: left)) 1 17 = Ok id16).
  { pose proof (slice_mid [0] id16 [] 1 17 ltac:(done) ltac:(lia)) as E. by rewrite app_nil_r in E. }
  rewrite Hs. destruct (lookup id16) as [user|] eqn:Eu; [|rewrite <- El; apply refuse_keeps; simpl; eauto 10].
  unfold mbind, parser_bind. cbn [consume parser_handshake]. unfold skip. cbn [bytes_seen bytes_left bytes_sent].
  rewrite (proj2 (Nat.leb_le 17 17)) by lia. specialize (Hserve id16 user Eu (mkView (drop 16 left) 0 (bytes_sent v))).
  cbn [drop]. destruct (serve id16 user _) as [[r| |] w]; [| |done].
  2:{ cbn [bytes_left] in Hserve. etrans; [exact Hserve|]. exists (0 :: id16). unfold id16. cbn [app]. by rewrite take_drop. }
  destruct Hserve as (xs & ys & Hx & Hy & HQ).
  cbn [bytes_left bytes_sent] in *. exists (0 :: id16 ++ xs), ys. split; [|split; [done|]].
  - cbn [app]. rewrite <- app_assoc, <- Hx. unfold id16. by rewrite take_drop.
  - right. by exists id16, user, xs.
Qed.
End triples.
(** ** Who is served *)
Section served.
Context {U P D V : Type} (udp : bool) (fallback : option NetLocation) (sel : P) (od : option D).
Context (dial_tcp : D → NetLocation → outcome Reader.Source) (connect : NetLocation → outcome Reader.Source).
Context (new_server : Reader.Source → bytes → bytes → outcome V).
Hypothesis Hdial : ∀ fb, dial_fallback od dial_tcp connect fb ≠ Panic.

Notation finish := (vless_finish (U := U) udp sel od dial_tcp connect new_server).

Lemma fallback_ok held fb :
  match vless_fallback_to_dest od dial_tcp connect held fb with
  | Ok dest => ∃ dest0, dial_fallback od dial_tcp connect fb = Ok dest0 ∧ Reader.written dest = Reader.written dest0 ++ held
  | Err _ => True
  | Panic => False
  end.
Proof.
  unfold vless_fallback_to_dest. specialize (Hdial fb). destruct (dial_fallback _ _ _ fb) as [dest0| |]; cbn [mbind outcome_bind]; [|done..].
  destruct (_ =? 0)%nat eqn:E; to_prop.
  - apply nil_length_inv in E as ->. exists dest0. by rewrite app_nil_r.
  - unfold write_dest. destruct (Reader.sink dest0); [done|]. by exists dest0.
Qed.

(** What is made of a request is for its user, or the copy to the fallback. *)
Lemma finish_ok r held src :
  no_vision r = true →
  match finish r held src with
  | Ok res =>
      match r with
      | ToFallback fb => ∃ dest dest0, res = ConnectionTask (CopyToFallback (inl src) (inl dest)) ∧
          dial_fallback od dial_tcp connect fb = Ok dest0 ∧ Reader.written dest = Reader.written dest0 ++ held
      | _ => result_user res = request_user r
      end
  | Err _ => True
  | Panic => False
  end.
Proof.
  intros Hv. unfold vless_finish. destruct r as [fb|l u| |l u|u| |]; cbn [result_user request_user]; try done.
  - pose proof (fallback_ok held fb) as Hf. destruct (vless_fallback_to_dest _ _ _ held fb) as [dest| |]; [|done..].
    destruct Hf as (dest0 & ? & ?). cbn. by exists dest, dest0.
  - destruct (_ =? 0)%nat; [done|]. pose proof (Messages.msg_feed_no_panic held (inl (B := V) src)) as Hp.
    by destruct (Messages.feed_initial_read_data held _).
  - by destruct (_ =? 0)%nat.
Qed.
End served.

(** ** The table of users *)

(** The id of a user, where it has one. *)
Definition user_key {U} (u : ServerUser U) : option bytes :=
  match Uuid.parse_vless_uuid (credential u) with Ok id => Some id | _ => None end.

Lemma users_insert_ok {U} (u : ServerUser U) m :
  users_insert u m = match user_key u with
    | Some id => Ok (<[id := Some (authenticated_user u)]> m)
    | None => err InvalidInput "invalid VLESS uuid"
    end ∨ Uuid.parse_vless_uuid (credential u) = Panic.
Proof.
  unfold users_insert, user_key. destruct (Uuid.parse_vless_uuid (credential u)) as [id| |] eqn:E; [|by left|by right].
  left. unfold into_id. by rewrite (Uuid.parse_uuid_bytes_length _ _ E).
Qed.

Lemma parse_vless_uuid_no_panic s : Uuid.parse_vless_uuid s ≠ Panic.
Proof.
  assert (Hn : ∀ s acc f, Uuid.nibbles s acc f ≠ Panic).
  { clear s. induction s as [|c s IH]; intros acc f; simpl; [done|]. destruct (Uuid.hex_value c); [by destruct f|].
    by destruct (c =? _). }
  unfold Uuid.parse_vless_uuid, Uuid.parse_uuid_bytes. specialize (Hn s [] None).
  destruct (Uuid.nibbles s [] None) as [[bs f]| |]; simpl; [|done..]. by destruct (_ || _).
Qed.

Lemma users_loop_ok {U} (users : list (ServerUser U)) m :
  match users_loop users m with
  | Ok m' => Forall (λ u, is_Some (user_key u)) users ∧
      ∀ id, m' !! id = match last (filter (λ u, user_key u = Some id) users) with
                       | Some u => Some (Some (authenticated_user u))
                       | None => m !! id
                       end
  | Err _ => Exists (λ u, user_key u = None) users
  | Panic => False
  end.
Proof.
  revert m. induction users as [|u users IH]; intros m; simpl; [by split|].
  destruct (users_insert_ok u m) as [->|E]; [|by destruct (parse_vless_uuid_no_panic (credential u))].
  destruct (user_key u) as [id|] eqn:Ek; [|simpl; by left]. cbn [mbind outcome_bind].
  specialize (IH (<[id:=Some (authenticated_user u)]> m)). destruct (users_loop users _) as [m'| |]; [|by right|done].
  destruct IH as [Hf Hm]. split; [constructor; [by rewrite Ek|done]|]. intros id'. rewrite Hm, filter_cons.
  destruct (last (filter _ users)) as [u'|] eqn:El.
  - destruct (decide _); [|by rewrite El]. rewrite last_cons, El. done.
  - destruct (decide (user_key u = Some id')) as [E|E].
    + rewrite last_cons, El. assert (id = id') as -> by congruence. by rewrite lookup_insert_eq.
    + rewrite El, lookup_insert_ne; [done|]. congruence.
Qed.

(** A table of VLESS users is its list: it is refused when a credential is not
    a user id; otherwise an id of 16 bytes belongs to the last user of the
    list with that id, in whatever notation, and to nobody where there is none. *)
Theorem vless_table_is_its_list {U} (users : list (ServerUser U)) :
  match users_new users with
  | Ok table => Forall (λ u, is_Some (user_key u)) users ∧
      ∀ id, length id = 16%nat →
        users_get table id = (λ u, Some (authenticated_user u)) <$> last (filter (λ u, user_key u = Some id) users)
  | Err _ => Exists (λ u, user_key u = None) users
  | Panic => False
  end.
Proof.
  unfold users_new. pose proof (users_loop_ok users ∅) as Hl. destruct (users_loop users ∅) as [m| |]; [|done..].
  destruct Hl as [Hf Hm]. cbn [mbind outcome_bind]. split; [done|]. intros id Hid. unfold users_get, into_id. rewrite Hid. cbn.
  rewrite Hm, lookup_empty. by destruct (last _).
Qed.
(** ** The loops end *)
Lemma varint_used fuel data cursor len n used : varint_loop fuel data cursor len = Ok (n, used) → (cursor < used)%nat.
Proof.
  revert cursor len. induction fuel as [|fuel IH]; intros cursor len; cbn [varint_loop]; [done|].
  destruct (index data cursor) as [b| |]; cbn [mbind outcome_bind]; [|done..].
  destruct (negb _); [|intros [= _ <-]; lia]. destruct (_ || _); [done|]. intros Hl. apply IH in Hl. lia.
Qed.

(** The addons are read to their end: every field moves on. *)
Lemma addon_loop_ends fuel addons cursor flow :
  (length addons - cursor ≤ fuel)%nat → addon_loop fuel addons cursor flow ≠ None.
Proof.
  revert cursor flow. induction fuel as [|fuel IH]; intros cursor flow Hf; cbn [addon_loop]; destruct (_ <? _)%nat eqn:E; to_prop; try done; [lia|].
  match goal with |- match ?m with _ => _ end ≠ None => destruct m as [[c f]| |] eqn:Em; [|done..] end.
  apply IH. destruct (index addons cursor) as [tag| |]; cbn [mbind outcome_bind] in Em; [|done..].
  destruct (negb _); [done|]. destruct (_ <=? _)%nat; [done|].
  destruct (slice addons _ _) as [tail| |]; cbn [mbind outcome_bind] in Em; [|done..].
  destruct (read_varint tail) as [[n used]| |] eqn:Ev; cbn [mbind outcome_bind] in Em; [|done..].
  apply varint_used in Ev. destruct (_ <? _); [done|].
  destruct (slice addons _ _) as [d| |]; cbn [mbind outcome_bind] in Em; [|done..].
  destruct (_ =? 1); [destruct (utf8_valid d); [|done]|]; injection Em as <- <-; lia.
Qed.

(** A round of filling the response buffer brings a byte, so that more fuel
    than bytes are missing changes nothing. *)
Lemma fill_response_fuel {S} `{AsyncStream S} fuel want room eof (this : VlessResponseStream S) :
  (want - length (response_buffer this) ≤ fuel)%nat →
  fill_response (Datatypes.S fuel) want room eof this = fill_response fuel want room eof this.
Proof.
  revert this. induction fuel as [|fuel IH]; intros this Hf.
  { cbn [fill_response]. by rewrite (proj2 (Nat.ltb_ge _ _)) by lia. }
  cbn [fill_response]. fold (fill_response (S := S)). destruct (_ <? want)%nat eqn:E; [|done]. to_prop.
  destruct (poll_read (inner this) _) as [[[e|[|b bs]]|] s]; try done.
  apply IH. cbn [response_buffer]. rewrite length_app. simpl. lia.
Qed.

End VlessFacts.
