(* ===== verification/VlessLink.v ===== *)
(** * VLESS: both ends together

    The client's request read by the server, its datagrams coming out of the
    stream the server hands on, and the response stripped from what the client
    reads. *)
From S2P Require Import Prelude Text Address UotAddr SlideBuffer Stream StreamReader Handshake SocksAddr Messages XudpStream Setup Uuid Vless VlessFacts.
Import Net Addr Uot Handshake Stream.
Local Open Scope Z_scope.

Module VlessLink.
Import Setup Vless VlessFacts.

(** ** The response stream is a stream *)
Section response.
Context {S : Type} `{AsyncStream S, !StreamLaws S}.
Implicit Types this : VlessResponseStream S.

(** What filling the response buffer does. *)
Lemma fill_response_spec fuel want room eof this p this' :
  fill_response fuel want room eof this = (p, this') →
  response_pending this' = response_pending this ∧ handed_out this' = handed_out this ∧
  accepted (inner this') = accepted (inner this) ∧
  ∃ bs, response_buffer this' = response_buffer this ++ bs ∧ received (inner this') = received (inner this) ++ bs ∧
    (p = Ready (inr tt) → (want ≤ length (response_buffer this'))%nat).
Proof.
  revert this. induction fuel as [|fuel IH]; intros this; cbn [fill_response]; destruct (_ <? want)%nat eqn:E; to_prop.
  1,2,4: intros [= <- <-]; split_and!; try done; exists []; rewrite !app_nil_r; by split_and!.
  destruct (poll_read (inner this) _) as [[[e|bs]|] s] eqn:Er; apply read_law in Er as [Ha Hr].
  1,3: intros [= <- <-]; split_and!; try done; exists []; rewrite !app_nil_r; by split_and!.
  destruct Hr as [_ Hr]. destruct bs as [|b bs].
  { intros [= <- <-]. split_and!; try done. exists []. rewrite !app_nil_r. rewrite app_nil_r in Hr. by split_and!. }
  intros Hf. apply IH in Hf as (H1 & H2 & H3 & bs' & H4 & H5 & H6). cbn [response_pending handed_out inner response_buffer] in *.
  split_and!; [done|done|congruence|]. exists ((b :: bs) ++ bs').
  split_and!; [by rewrite H4, <- app_assoc | by rewrite H5, Hr, <- app_assoc | done].
Qed.

Lemma poll_read_response_spec this p this' :
  poll_read_response this = (p, this') →
  response_pending this' = response_pending this ∧ handed_out this' = handed_out this ∧
  accepted (inner this') = accepted (inner this) ∧
  ∃ bs, response_buffer this' = response_buffer this ++ bs ∧ received (inner this') = received (inner this) ++ bs ∧
    (p = Ready (inr tt) → ∃ k rest, response_buffer this' = 0 :: k :: rest ∧ (Z.to_nat k ≤ length rest)%nat).
Proof.
  unfold poll_read_response. destruct (fill_response 2 2 _ _ this) as [q this1] eqn:E1.
  apply fill_response_spec in E1 as (H1 & H2 & H3 & bs1 & H4 & H5 & H6).
  destruct q as [[e|[]]|]; try (intros [= <- <-]; split_and!; try done; by exists bs1).
  destruct (response_buffer this1) as [|v [|k rest]] eqn:Eb; try (intros [= <- <-]; split_and!; try done; exists bs1; by rewrite Eb).
  destruct (negb (v =? 0)) eqn:Ev; [intros [= <- <-]; split_and!; try done; exists bs1; by rewrite Eb|].
  apply negb_false_iff in Ev. to_prop. subst v. intros Hf.
  apply fill_response_spec in Hf as (H1' & H2' & H3' & bs2 & H4' & H5' & H6').
  split_and!; [congruence..|]. exists (bs1 ++ bs2).
  split_and!; [by rewrite H4', Eb, H4, <- app_assoc | by rewrite H5', H5, <- app_assoc|].
  intros Hp. specialize (H6' Hp). rewrite H4', Eb in H6'. exists k, (rest ++ bs2). split.
  - by rewrite H4', Eb.
  - cbn [app length] in H6'. lia.
Qed.
End response.
Section response_laws.
Context {S : Type} `{AsyncStream S, !StreamLaws S}.

Lemma pass_read_law (this : VlessResponseStream S) n r this' :
  pass_read this n = (r, this') →
  accepted (inner this') = accepted (inner this) ∧
  match r with
  | Ready (inr bs) => (length bs ≤ n)%nat ∧ handed_out this' = handed_out this ++ bs
  | _ => handed_out this' = handed_out this
  end.
Proof.
  unfold pass_read. destruct (poll_read (inner this) n) as [r1 s] eqn:E. apply read_law in E as [Ha Hr].
  intros [= <- <-]. cbn. split; [done|]. destruct r1 as [[e|bs]|]; rewrite ?app_nil_r; [done| |done]. by destruct Hr.
Qed.

#[export] Program Instance response_laws : StreamLaws (VlessResponseStream S) := {
  received := handed_out;
  accepted this := accepted (inner this) }.
Next Obligation.
  intros this n r this'. cbn. unfold response_poll_read.
  destruct (response_pending this); [|apply pass_read_law].
  destruct (poll_read_response this) as [p this1] eqn:E. apply poll_read_response_spec in E as (_ & H2 & H3 & _).
  destruct p as [[e|[]]|]; [by intros [= <- <-]| |by intros [= <- <-]].
  intros Hp. apply pass_read_law in Hp. cbn in Hp. by rewrite H3, H2 in Hp.
Qed.
Next Obligation.
  intros this bs r this'. cbn. destruct (poll_write (inner this) bs) as [q s] eqn:E. apply write_law in E as [_ Ha].
  intros [= <- <-]. by split.
Qed.
Next Obligation.
  intros this r this'. cbn. destruct (poll_flush (inner this)) as [q s] eqn:E. apply flush_law in E as [_ Ha]. by intros [= <- <-].
Qed.
Next Obligation.
  intros this r this'. cbn. destruct (poll_shutdown (inner this)) as [q s] eqn:E. apply shutdown_law in E as [_ Ha]. by intros [= <- <-].
Qed.
Next Obligation.
  intros this r this'. cbn. destruct (poll_write_ping (inner this)) as [q s] eqn:E. apply ping_law in E as [_ Ha]. by intros [= <- <-].
Qed.
End response_laws.

(** ** A boxed stream: the connection, or another stream over it *)
Section boxed.
Context {A C : Type} `{AsyncStream A, AsyncStream C}.

Definition on_left {X} (r : Poll X * A) : Poll X * (A + C) := (r.1, inl r.2).
Definition on_right {X} (r : Poll X * C) : Poll X * (A + C) := (r.1, inr r.2).

#[export] Instance boxed_stream : AsyncStream (A + C) := {
  poll_read b n := match b with inl s => on_left (poll_read s n) | inr s => on_right (poll_read s n) end;
  poll_write b bs := match b with inl s => on_left (poll_write s bs) | inr s => on_right (poll_write s bs) end;
  poll_flush b := match b with inl s => on_left (poll_flush s) | inr s => on_right (poll_flush s) end;
  poll_shutdown b := match b with inl s => on_left (poll_shutdown s) | inr s => on_right (poll_shutdown s) end;
  supports_ping b := match b with inl s => supports_ping s | inr s => supports_ping s end;
  poll_write_ping b := match b with inl s => on_left (poll_write_ping s) | inr s => on_right (poll_write_ping s) end }.

Context `{!StreamLaws A, !StreamLaws C}.

#[export] Program Instance boxed_laws : StreamLaws (A + C) := {
  received b := match b with inl s => received s | inr s => received s end;
  accepted b := match b with inl s => accepted s | inr s => accepted s end }.
Next Obligation.
  intros [s|s] n r b'; cbn; destruct (poll_read s n) as [q s'] eqn:E; apply read_law in E; by intros [= <- <-].
Qed.
Next Obligation.
  intros [s|s] bs r b'; cbn; destruct (poll_write s bs) as [q s'] eqn:E; apply write_law in E; by intros [= <- <-].
Qed.
Next Obligation.
  intros [s|s] r b'; cbn; destruct (poll_flush s) as [q s'] eqn:E; apply flush_law in E; by intros [= <- <-].
Qed.
Next Obligation.
  intros [s|s] r b'; cbn; destruct (poll_shutdown s) as [q s'] eqn:E; apply shutdown_law in E; by intros [= <- <-].
Qed.
Next Obligation.
  intros [s|s] r b'; cbn; destruct (poll_write_ping s) as [q s'] eqn:E; apply ping_law in E; by intros [= <- <-].
Qed.
End boxed.
(** ** The server on what a client writes *)

(** Destinations that are not the name of h2mux. *)
Definition not_mux (l : NetLocation) : Prop :=
  address l ≠ Hostname MUX_DESTINATION_HOST ∨ port l ≠ MUX_DESTINATION_PORT.

Section commands.
Context (t : terms) (Hcap : (257 ≤ buffer_size t)%nat) {U : Type} (udp : bool) (fallback : option NetLocation).

Lemma read_command_tcp (user : option U) l rest seen sent :
  SocksAddr.location_ok l → not_mux l →
  @read_command U udp _ (parser_handshake t) user
      (mkView ([0; COMMAND_TCP] ++ be_encode 2 (port l) ++ address_wire (address l) ++ rest) seen sent) =
    (Ok (ToTcp l user), mkView rest 0 sent).
Proof.
  intros Hl Hm. unfold read_command. cbn [app]. step read_u8_ok. step guard_ok. step read_u8_ok. branch.
  step (parse_remote_location_ok t Hcap l).
  assert (Hb : bool_decide (address l = Hostname MUX_DESTINATION_HOST) && (port l =? MUX_DESTINATION_PORT) = false).
  { apply andb_false_iff. destruct Hm; [left; by apply bool_decide_false | right; by apply Z.eqb_neq]. }
  by rewrite Hb.
Qed.

Context (Hw : write_error t = None).

Lemma read_command_udp (user : option U) l rest seen sent :
  udp = true → SocksAddr.location_ok l →
  @read_command U udp _ (parser_handshake t) user
      (mkView ([0; COMMAND_UDP] ++ be_encode 2 (port l) ++ address_wire (address l) ++ rest) seen sent) =
    (Ok (ToUdp l user), mkView rest 0 (sent ++ SERVER_RESPONSE_HEADER)).
Proof.
  intros -> Hl. unfold read_command. cbn [app]. step read_u8_ok. step guard_ok. step read_u8_ok. do 2 branch. step guard_ok.
  step (parse_remote_location_ok t Hcap l). by step write_all_ok.
Qed.

Lemma read_command_mux (user : option U) rest seen sent :
  udp = true →
  @read_command U udp _ (parser_handshake t) user (mkView ([0; COMMAND_MUX] ++ rest) seen sent) =
    (Ok (ToMux user), mkView rest 0 (sent ++ SERVER_RESPONSE_HEADER)).
Proof.
  intros ->. unfold read_command. cbn [app]. step read_u8_ok. step guard_ok. step read_u8_ok. do 3 branch. step guard_ok.
  by step write_all_ok.
Qed.
End commands.

(** A connection with [data] written to it. *)
Definition wrote (src : Reader.Source) (data : bytes) : Reader.Source :=
  Reader.mkSource (Reader.arrivals src) (Reader.fault src) (Reader.taken src) (Reader.written src ++ data) None.

Lemma write_dest_ok data src : Reader.sink src = None → write_dest data src = Ok (wrote src data).
Proof. unfold write_dest. by intros ->. Qed.

Section server.
Context {U P D V : Type} (udp : bool) (fallback : option NetLocation) (sel : P) (od : option D).
Context (dial_tcp : D → NetLocation → outcome Reader.Source) (connect : NetLocation → outcome Reader.Source).
Context (new_server : Reader.Source → bytes → bytes → outcome V) (debug : bool) (junk : nat → Z) (users : VlessUsers U).

(** The server on a connection that starts with a known id. *)
Lemma serves_known id user src r rest sent :
  Reader.source_ok src → length id = 16%nat → users_get users id = Some user →
  (∃ more, Reader.flat src = 0 :: id ++ more ∧
    @read_command U udp _ (parser_handshake (terms_of (N.to_nat 800) src)) user (mkView more 0 (Reader.written src)) =
      (Ok r, mkView rest 0 sent)) →
  ∃ held src', (length held ≤ N.to_nat 800)%nat ∧ held ++ Reader.flat src' = rest ∧ Reader.written src' = sent ∧ whole src' = whole src ∧
    setup_server_stream udp fallback sel od dial_tcp connect new_server debug junk users src =
      (vless_finish udp sel od dial_tcp connect new_server r held src', src').
Proof.
  intros Hs Hid Hu (more & Hf & Hc). set (t := terms_of (N.to_nat 800) src) in *.
  assert (E : parse t (λ M _, vless_handshake udp fallback users) (view_of src) = (Ok r, mkView rest 0 sent)).
  { unfold parse, vless_handshake, view_of. rewrite Hf, (authenticate_known t) with (user := user); [done|simpl; lia|done|done]. }
  destruct (serve_spec debug junk (N.to_nat 800) _ (vless_finish udp sel od dial_tcp connect new_server) src
    (vless_coherent udp fallback users) Hs) as (held & src' & [Hcap Hr Hsent Hwh] & Hserve); [fold t; by rewrite E|].
  fold t in Hr, Hsent, Hserve. rewrite E in Hr, Hsent, Hserve. exists held, src'. by split_and!.
Qed.
End server.

(** C32: A VLESS client reaches the destination it names.  The request it writes,
    read by a server that knows its id in whatever pieces it arrives, makes the server
    forward to that destination for the client's user, and the bytes the client sends
    after it are exactly those handed on. *)
Theorem vless_request_is_forwarded {U P D V} udp fallback (sel : P) (od : option D) dial_tcp connect
    (new_server : Reader.Source → bytes → bytes → outcome V) debug junk (users : VlessUsers U) h user l csrc :
  length (user_id h) = 16%nat → users_get users (user_id h) = Some user →
  SocksAddr.location_ok l → not_mux l → Reader.sink csrc = None →
  ∃ request, setup_client_tcp_stream junk h l csrc = Ok (response_new (wrote csrc request)) ∧
    ∀ src payload, Reader.source_ok src → Reader.flat src = request ++ payload →
    ∃ held src', held ++ Reader.flat src' = payload ∧ Reader.written src' = Reader.written src ∧
      setup_server_stream udp fallback sel od dial_tcp connect new_server debug junk users src =
        (Ok (TcpForward l (inl src') false (Some SERVER_RESPONSE_HEADER) (owned held) sel od user), src').
Proof.
  intros Hid Hu Hl Hm Hk. eexists. split.
  { unfold setup_client_tcp_stream. rewrite vless_header_ok; [|done|simpl; lia|done]. cbn [mbind outcome_bind].
    rewrite write_dest_ok by done. reflexivity. }
  intros src payload Hs Hf.
  destruct (serves_known udp fallback sel od dial_tcp connect new_server debug junk users (user_id h) user src
    (ToTcp l user) payload (Reader.written src) Hs Hid Hu) as (held & src' & _ & Hr & Hw & _ & ->).
  { eexists. split; [rewrite Hf; unfold front_wire; cbn [app length]; rewrite <- !app_assoc; cbn [app]; reflexivity|].
    rewrite <- !app_assoc. apply read_command_tcp; [simpl; lia | done..]. }
  by exists held, src'.
Qed.
(** ** Datagrams *)

(** The connection in the box, with all its bytes. *)
Definition boxed_whole {V} (w : bytes) (b : Reader.Source + V) : Prop :=
  match b with inl src => whole src = w | inr _ => False end.

Lemma boxed_kept {V} `{AsyncStream V} w : kept (boxed_whole (V := V) w).
Proof.
  destruct (source_kept w) as [Hr Hw Hf Hs]. split; intros [s|s]; cbn [boxed_whole]; try done.
  - intros n r b' Hk [= <- <-]. eapply Hr; [exact Hk|]. cbn. apply surjective_pairing.
  - intros bs r b' Hk [= <- <-]. eapply Hw; [exact Hk|]. cbn. apply surjective_pairing.
  - intros r b' Hk [= <- <-]. eapply Hf; [exact Hk|]. cbn. apply surjective_pairing.
  - intros r b' Hk [= <- <-]. eapply Hs; [exact Hk|]. cbn. apply surjective_pairing.
Qed.

(** The message stream a server starts with what its reader holds. *)
Lemma started_ok {S} held (s : S) :
  (length held ≤ N.to_nat 800)%nat →
  ∃ b0, (if (length held =? 0)%nat then Ok (Messages.new s) else Messages.feed_initial_read_data held (Messages.new s)) = Ok b0 ∧
    Messages.started held s b0.
Proof.
  intros Hl. destruct (length held =? 0)%nat eqn:E; to_prop.
  - apply nil_length_inv in E as ->. exists (Messages.new s). split; [done|].
    destruct (Messages.msg_new_ok s) as (H1 & H2 & H3). by split_and!.
  - destruct (Messages.msg_feed_ok held s) as [b0 Ef]; [unfold Messages.MAX_MESSAGE_BUF_SIZE; lia|].
    exists b0. split; [done|]. by apply Messages.feed_spec.
Qed.

(** ** The response, stripped *)
Section stripped.
Context {S : Type} `{AsyncStream S, !StreamLaws S}.
Implicit Types this : VlessResponseStream S.

(** The buffer never holds more than the response, but for one byte of a
    response without addons. *)
Definition buffer_ok (buf : bytes) : Prop :=
  match buf with
  | _ :: k :: rest => (length rest ≤ 1)%nat ∨ (length rest ≤ Z.to_nat k)%nat
  | _ => True
  end.

Record response_ok (r0 : bytes) this : Prop := {
  rs_received : received (inner this) = r0 ++ response_buffer this ++ handed_out this;
  rs_pending : response_pending this = true → handed_out this = [];
  rs_done : response_pending this = false →
    ∃ k rest, response_buffer this = 0 :: k :: rest ∧ (Z.to_nat k ≤ length rest)%nat;
  rs_buffer : buffer_ok (response_buffer this) }.

Lemma fill_response_length fuel want room eof this p this' bound :
  (∀ len, (len < want)%nat → (len + room len ≤ bound)%nat) → (length (response_buffer this) ≤ bound)%nat →
  fill_response fuel want room eof this = (p, this') → (length (response_buffer this') ≤ bound)%nat.
Proof.
  intros Hroom. revert this. induction fuel as [|fuel IH]; intros this Hb; cbn [fill_response];
    destruct (_ <? want)%nat eqn:E; to_prop; try (by intros [= <- <-]).
  destruct (poll_read (inner this) _) as [[[e|bs]|] s] eqn:Er; apply read_law in Er as [_ Hr]; try (by intros [= <- <-]).
  destruct Hr as [Hl _]. destruct bs as [|b bs]; [by intros [= <- <-]|]. apply IH. cbn [response_buffer]. rewrite length_app.
  specialize (Hroom _ E). lia.
Qed.

Lemma poll_read_response_buffer this p this' :
  buffer_ok (response_buffer this) → poll_read_response this = (p, this') → buffer_ok (response_buffer this').
Proof.
  intros Hb. unfold poll_read_response. destruct (fill_response 2 2 _ _ this) as [q this1] eqn:E1.
  assert (Hb1 : buffer_ok (response_buffer this1)).
  { destruct (decide (2 ≤ length (response_buffer this))%nat) as [Hl|Hl].
    - cbn [fill_response] in E1. rewrite (proj2 (Nat.ltb_ge _ _)) in E1 by done. by injection E1 as <- <-.
    - apply (fill_response_length _ _ _ _ _ _ _ 3) in E1; [|lia..].
      destruct (response_buffer this1) as [|v [|k rest]]; cbn [buffer_ok length] in *; try done. left. lia. }
  destruct q as [[e|[]]|]; try (by intros [= <- <-]).
  destruct (response_buffer this1) as [|v [|k rest]] eqn:Eb; try (intros [= <- <-]; by rewrite Eb).
  destruct (negb (v =? 0)); [intros [= <- <-]; by rewrite Eb|]. intros E2.
  pose proof (fill_response_spec _ _ _ _ _ _ _ E2) as (_ & _ & _ & bs & H4 & _). rewrite Eb in H4.
  destruct (decide (length (v :: k :: rest) ≤ 2 + Z.to_nat k)%nat) as [Hl|Hl].
  - apply (fill_response_length _ _ _ _ _ _ _ (2 + Z.to_nat k)) in E2; [|intros; lia|by rewrite Eb].
    rewrite H4 in E2 |- *. cbn [app buffer_ok length] in *. right. lia.
  - cbn [Nat.add fill_response] in E2. rewrite Eb, (proj2 (Nat.ltb_ge _ _)) in E2 by lia. injection E2 as <- <-. by rewrite Eb.
Qed.

Lemma pass_read_received this n r this' :
  pass_read this n = (r, this') →
  response_pending this' = response_pending this ∧ response_buffer this' = response_buffer this ∧
  ∃ bs, received (inner this') = received (inner this) ++ bs ∧ handed_out this' = handed_out this ++ bs.
Proof.
  unfold pass_read. destruct (poll_read (inner this) n) as [r1 s] eqn:E. apply read_law in E as [_ Hr].
  intros [= <- <-]. cbn. split_and!; try done.
  destruct r1 as [[e|bs]|]; [exists [] | exists bs | exists []]; rewrite ?app_nil_r; [done| |done]. by destruct Hr.
Qed.

Lemma response_kept r0 : kept (response_ok r0).
Proof.
  split.
  - intros this n r this' [H1 H2 H3 H4]. cbn. unfold response_poll_read. destruct (response_pending this) eqn:Ep.
    + destruct (poll_read_response this) as [p this1] eqn:E. pose proof (poll_read_response_buffer _ _ _ H4 E) as Hb.
      apply poll_read_response_spec in E as (E1 & E2 & _ & bs & E4 & E5 & E6). specialize (H2 eq_refl).
      assert (Hrec : received (inner this1) = r0 ++ response_buffer this1 ++ []).
      { rewrite app_nil_r, E5, H1, H2, app_nil_r, E4. by rewrite app_assoc. }
      destruct p as [[e|[]]|]; [| |]; [intros [= <- <-] |intros Hp|intros [= <- <-]].
      1,3: split; [by rewrite E2, H2|by rewrite E2|rewrite E1, Ep; done|done].
      apply pass_read_received in Hp as (P1 & P2 & bs2 & P3 & P4). cbn in P1, P2, P3, P4.
      split; [|by rewrite P1|rewrite P2; intros _; by apply E6|by rewrite P2].
      by rewrite P3, P2, P4, Hrec, E2, H2, app_nil_r, <- app_assoc.
    + intros Hp. apply pass_read_received in Hp as (P1 & P2 & bs2 & P3 & P4).
      split; [by rewrite P3, P2, P4, H1, <- !app_assoc|by rewrite P1, Ep|rewrite P2; intros _; by apply H3|by rewrite P2].
  - intros this bs r this' [H1 H2 H3 H4]. cbn. destruct (poll_write (inner this) bs) as [q s] eqn:E.
    apply write_law in E as [E _]. intros [= <- <-]. split; cbn; try done. congruence.
  - intros this r this' [H1 H2 H3 H4]. cbn. destruct (poll_flush (inner this)) as [q s] eqn:E.
    apply flush_law in E as [E _]. intros [= <- <-]. split; cbn; try done. congruence.
  - intros this r this' [H1 H2 H3 H4]. cbn. destruct (poll_shutdown (inner this)) as [q s] eqn:E.
    apply shutdown_law in E as [E _]. intros [= <- <-]. split; cbn; try done. congruence.
Qed.

End stripped.

(** A response that arrives one byte first costs a byte of the data: the client
    that reads the response [0, 0] in two pieces hands out [ello] of [hello]. *)
Theorem split_response_loses_a_byte :
  let conn := Reader.incoming [Some [0]; Some ([0] ++ B "hello")] in
  let '(r, this) := poll_read (response_new conn) 100 in
  r = Ready (inr (B "ello")) ∧ response_buffer this = [0; 0] ++ B "h".
Proof. by vm_compute. Qed.
(** ** A server and its clients *)
Definition demo_id : bytes := [17; 17; 17; 17; 17; 17; 65; 17; 129; 17; 17; 17; 17; 17; 17; 17].
Definition demo_users : VlessUsers Z :=
  match users_new [mkServerUser (B "11111111-1111-4111-8111-111111111111") 7] with Ok t => t | _ => mkUsers ∅ end.
Definition demo_client : VlessTcpClientHandler := mkVlessClient demo_id true.
Definition demo_target : NetLocation := mkNetLocation (Hostname (B "example.com")) 443.
Definition demo_fallback : NetLocation := mkNetLocation (Ipv4 [127; 0; 0; 1]) 80.
Definition demo_dial (_ : unit) (_ : NetLocation) : outcome Reader.Source := Ok (Reader.incoming []).
Definition demo_connect (_ : NetLocation) : outcome Reader.Source := Ok (Reader.incoming []).
Definition demo_vision (s : Reader.Source) (_ _ : bytes) : outcome Reader.Source := Ok s.
Notation demo_setup := (setup_server_stream (P := unit) true (Some demo_fallback) tt None demo_dial demo_connect demo_vision
  true (λ _, 0) demo_users).

Lemma demo_target_ok : SocksAddr.location_ok demo_target.
Proof. split; [done|]. cbn [demo_target address]. split_and!; [apply Nat.leb_le| |]; by vm_compute. Qed.


Lemma vless_request_is_forwarded_witness :
  ∃ request, setup_client_tcp_stream (λ _, 0) demo_client demo_target (Reader.incoming []) =
      Ok (response_new (wrote (Reader.incoming []) request)) ∧
    ∀ src payload, Reader.source_ok src → Reader.flat src = request ++ payload →
    ∃ held src', held ++ Reader.flat src' = payload ∧ Reader.written src' = Reader.written src ∧
      demo_setup src = (Ok (TcpForward demo_target (inl src') false (Some SERVER_RESPONSE_HEADER) (owned held) tt None (Some 7)), src').
Proof.
  apply (vless_request_is_forwarded true (Some demo_fallback) tt None demo_dial demo_connect demo_vision true (λ _, 0) demo_users
    demo_client (Some 7) demo_target (Reader.incoming [])); [done|by vm_compute|apply demo_target_ok|by left|done].
Defined.



(** The addons of a request can make the server panic: a user whose addons end
    within the length of a field, a byte with its continuation bit set and nothing
    after it, is not answered with an error; the parser indexes past the end. *)
Theorem truncated_addon_length_panics :
  (setup_custom_tls_vision_vless_server_stream (P := unit) true None tt None demo_dial demo_connect demo_vision true (λ _, 0)
     demo_users (Reader.incoming [Some (0 :: demo_id ++ [2; 10; 128; 1])])).1 = Panic.
Proof. by vm_compute. Qed.

(** The flow a Vision client names is the one its server asks for. *)
Theorem vision_flow_is_read : (addons ← vision_flow_addon_data; parse_addons addons) = Ok XTLS_VISION_FLOW.
Proof. by vm_compute. Qed.

End VlessLink.
