(* ===== verification/TrojanHandler.v ===== *)
(** * Trojan ([src/trojan_handler.rs])

    A request is a line with the hexadecimal SHA-224 of the password, a command, a
    destination as SOCKS5 writes it, and a line end.  The server records what it
    reads, so that a connection that does not authenticate, or that is
    malformed, is forwarded to the fallback from its first byte.  The packet
    stream of the UDP command is in [Packets.v].  The hash is a parameter; the
    connection is the one below a Shadowsocks layer, if there is one.

    Shown: only users of the table are served; the fallback gets the whole of a
    connection, whatever made it fail; and a client reaches the destination it
    names. *)
From S2P Require Import Prelude Text Address UotAddr SlideBuffer Stream StreamReader Handshake SocksAddr Messages Packets Setup Socks Vless VlessFacts VlessLink.
Import Net Addr Uot Handshake Stream.
Local Open Scope Z_scope.

Module TrojanHandler.
Import SocksAddr Setup.

Definition TROJAN_PASSWORD_HASH_LEN : nat := 56.
Definition TROJAN_HEADER_BUFFER_SIZE : nat := N.to_nat 400.
Notation CRLF_BYTES := Packets.Trojan.CRLF_BYTES.

(** ** Users *)
Record TrojanUsers (U : Type) := mkUsers { by_password_hash : gmap bytes (option U) }.
Arguments mkUsers {U}.
Arguments by_password_hash {U}.

Definition get {U} (users : TrojanUsers U) (password_hash : bytes) : option (option U) := by_password_hash users !! password_hash.
Definition len {U} (users : TrojanUsers U) : nat := size (by_password_hash users).

Section handler.
Context (sha224 : bytes → bytes).

Definition create_password_hash (password : bytes) : outcome bytes :=
  let hex_bytes := concat (print_02x <$> sha224 password) in
  if negb (length hex_bytes =? TROJAN_PASSWORD_HASH_LEN)%nat then Panic else Ok hex_bytes.

(** [collect] into a map: a later entry replaces an earlier one. *)
Fixpoint users_from {U} (users : list (Vless.ServerUser U)) (table : gmap bytes (option U)) : outcome (gmap bytes (option U)) :=
  match users with
  | [] => Ok table
  | user :: users =>
      hash ← create_password_hash (Vless.credential user);
      users_from users (<[hash := Some (Vless.authenticated_user user)]> table)
  end.
Definition users_new {U} (users : list (Vless.ServerUser U)) : outcome (TrojanUsers U) :=
  table ← users_from users ∅;
  Ok (mkUsers table).

(** ** The handler *)
Section types.
Context {U P D R : Type} (direct : R → P).   (* user, proxy selector, dispatcher, resolver; the selector that allows all *)

Record TrojanTcpHandler := mkHandler {
  users : TrojanUsers U;
  client_password_hash : bytes;
  proxy_selector : option P;
  resolver : option R;
  fallback : option NetLocation;
  fallback_proxy_selector : option P;
  outbound_dispatcher : option D }.

Definition new_inner (password : bytes) (proxy_selector : option P) (resolver : option R) (fallback : option NetLocation)
    : outcome TrojanTcpHandler :=
  password_hash ← create_password_hash password;
  let fallback_proxy_selector := match fallback with Some _ => direct <$> resolver | None => None end in
  Ok (mkHandler (mkUsers {[password_hash := None]}) password_hash proxy_selector resolver fallback fallback_proxy_selector None).

Definition new_server_with_fallback (password : bytes) (p : P) (r : R) (fb : option NetLocation) : outcome TrojanTcpHandler :=
  new_inner password (Some p) (Some r) fb.
Definition new_server (password : bytes) (p : P) (r : R) : outcome TrojanTcpHandler := new_server_with_fallback password p r None.
Definition new_client (password : bytes) : outcome TrojanTcpHandler := new_inner password None None None.
Definition new_multi_server (table : TrojanUsers U) (p : P) (r : R) (fb : option NetLocation) : outcome TrojanTcpHandler :=
  h ← new_inner [] (Some p) (Some r) fb;
  Ok (mkHandler table (client_password_hash h) (proxy_selector h) (resolver h) (fallback h)
        (fallback_proxy_selector h) (outbound_dispatcher h)).
Definition with_outbound_dispatcher (h : TrojanTcpHandler) (d : option D) : TrojanTcpHandler :=
  mkHandler (users h) (client_password_hash h) (proxy_selector h) (resolver h) (fallback h) (fallback_proxy_selector h) d.
End types.
End handler.
Arguments TrojanTcpHandler : clear implicits.

(** ** The server *)
Record ParsedTrojanRequest (U : Type) := mkRequest {
  authenticated_user : option U;
  command_type : Z;
  remote_location : NetLocation }.
Arguments mkRequest {U}.
Arguments authenticated_user {U}.
Arguments command_type {U}.
Arguments remote_location {U}.

Section server.
Context {U P D R : Type} (h : TrojanTcpHandler U P D R).

Definition parse_server_request {M} `{Handshake M} : M (ParsedTrojanRequest U) :=
  received_hash ← read_line_bytes;
  _ ← guard (length received_hash =? TROJAN_PASSWORD_HASH_LEN)%nat Other "Invalid password hash length";
  user ← lift (ok_or (get (users h) received_hash) (IoError Other "Invalid password hash"));
  command_type ← read_u8;
  _ ← guard ((command_type =? Socks.CMD_CONNECT) || (command_type =? Socks.CMD_UDP_ASSOCIATE)) InvalidInput "Invalid command code";
  remote_location ← read_location;
  request_suffix ← read_u16_be;
  _ ← guard (request_suffix =? 3338) Other "Invalid request suffix bytes";
  mret (mkRequest user command_type remote_location).

(** [RecordingStream]: what has been read of the connection since [start]. *)
Definition read_data (start now : Reader.Source) : bytes := drop (length (Reader.taken start)) (Reader.taken now).

Definition fallback_result (read_data : bytes) (src : Reader.Source) (fb : NetLocation) : outcome (TcpServerSetupResult Reader.Source P D U) :=
  selector ← expect (fallback_proxy_selector h);
  Ok (TcpForward fb src false None (owned read_data) selector None None).

Definition trojan_finish (debug : bool) (junk : nat → Z) (r : ParsedTrojanRequest U) (unparsed : bytes) (src : Reader.Source)
    : outcome (TcpServerSetupResult Reader.Source P D U) :=
  let initial_data := owned unparsed in
  if command_type r =? Socks.CMD_UDP_ASSOCIATE then
    udp_stream ←
      match initial_data with
      | Some initial_data => Packets.Trojan.feed_initial_data debug junk initial_data (Packets.Trojan.new src)
      | None => Ok (Packets.Trojan.new src)
      end;
    selector ← expect (proxy_selector h);
    Ok (MultiDirectionalUdp false (Trojan udp_stream) selector (outbound_dispatcher h) (authenticated_user r))
  else if bool_decide (address (remote_location r) = Hostname Vless.MUX_DESTINATION_HOST)
          && (port (remote_location r) =? Vless.MUX_DESTINATION_PORT) then
    if bool_decide (is_Some (authenticated_user r))
    then err Unsupported "h2mux is not supported for authenticated V2Board users"
    else
      _ ← expect (proxy_selector h);
      _ ← expect (resolver h);
      Ok (ConnectionTask (H2mux src initial_data false))
  else
    selector ← expect (proxy_selector h);
    Ok (TcpForward (remote_location r) src false None initial_data selector (outbound_dispatcher h) (authenticated_user r)).

Definition setup_server_stream (debug : bool) (junk : nat → Z) (src : Reader.Source)
    : outcome (TcpServerSetupResult Reader.Source P D U) * Reader.Source :=
  let '(r, src') := attempt debug junk TROJAN_HEADER_BUFFER_SIZE (λ M _, parse_server_request) src in
  match r with
  | Ok (request, unparsed) => (trojan_finish debug junk request unparsed src', src')
  | Err e =>
      match fallback h with
      | Some fb => (fallback_result (read_data src src') src' fb, src')
      | None => (Err e, src')
      end
  | Panic => (Panic, src')
  end.

(** ** The client *)
Definition client_request (command : Z) (l : NetLocation) : outcome bytes :=
  _ ← socks_location_len l;
  request ← try_write_location_to_buf l (client_password_hash h ++ CRLF_BYTES ++ [command]);
  Ok (request ++ CRLF_BYTES).

Definition setup_client_tcp_stream (l : NetLocation) (src : Reader.Source) : outcome Reader.Source :=
  request ← client_request Socks.CMD_CONNECT l;
  Vless.write_dest request src.
Definition supports_udp_over_tcp : bool := true.
Definition setup_client_udp_bidirectional (target : NetLocation) (src : Reader.Source)
    : outcome (Packets.Trojan.TrojanPacketStream Reader.Source) :=
  request ← client_request Socks.CMD_UDP_ASSOCIATE target;
  src ← Vless.write_dest request src;
  Ok (Packets.Trojan.new_fixed_target src target).

End server.
(** ** Facts *)
Lemma trojan_coherent {U P D R} (h : TrojanTcpHandler U P D R) : coherent (λ M _, parse_server_request h).
Proof. intros debug t whole. unfold Handshake.run, parse, parse_server_request. sim_solve. Qed.

(** Handlers of servers, which have what they are asked for. *)
Record server_ok {U P D R} (h : TrojanTcpHandler U P D R) : Prop := {
  so_selector : is_Some (proxy_selector h);
  so_resolver : is_Some (resolver h);
  so_fallback : is_Some (fallback h) → is_Some (fallback_proxy_selector h) }.

Lemma new_server_ok {U P D R} sha direct password (p : P) (r : R) fb (h : TrojanTcpHandler U P D R) :
  new_server_with_fallback sha direct password p r fb = Ok h → server_ok h.
Proof.
  unfold new_server_with_fallback, new_inner. destruct (create_password_hash sha password); cbn; [|done..].
  intros [= <-]. split; cbn; [eauto..|]. destruct fb; [eauto | by intros []].
Qed.
Lemma new_multi_server_ok {U P D R} sha direct table (p : P) (r : R) fb (h : TrojanTcpHandler U P D R) :
  new_multi_server sha direct table p r fb = Ok h → server_ok h ∧ users h = table ∧ fallback h = fb.
Proof.
  unfold new_multi_server, new_inner. destruct (create_password_hash sha []); cbn; [|done..].
  intros [= <-]. split; [split; cbn; [eauto..|]; destruct fb; [eauto | by intros []] | done].
Qed.

Section facts.
Context {U P D R : Type} (h : TrojanTcpHandler U P D R).

Lemma request_triple t : bare_lf t = false →
  triple (@parse_server_request U P D R h _ (parser_handshake t)) (λ r xs ys,
    ∃ hash more, length hash = TROJAN_PASSWORD_HASH_LEN ∧ get (users h) hash = Some (authenticated_user r) ∧
      xs = hash ++ CRLF_BYTES ++ more ∧ ys = []).
Proof.
  intros Hb. unfold parse_server_request. eapply triple_bind; [by apply triple_line_bytes|]. intros hash ? ? (-> & _ & ->).
  eapply triple_bind; [apply triple_guard|]. intros [] ? ? (Hl & -> & ->). to_prop.
  eapply triple_bind; [apply triple_lift; by destruct (get _ hash)|]. intros user ? ? (Hu & -> & ->).
  assert (get (users h) hash = Some user) by (destruct (get (users h) hash); simplify_eq/=; done). clear Hu.
  eapply triple_bind; [apply triple_read_u8|]. intros c ? ? (-> & ->).
  eapply triple_bind; [apply triple_guard|]. intros [] ? ? (_ & -> & ->).
  eapply triple_bind; [apply read_location_triple|]. intros l xl ? ->.
  eapply triple_bind; [apply triple_read_u16|]. intros s xs ? (_ & _ & ->).
  eapply triple_bind; [apply triple_guard|]. intros [] ? ? (_ & -> & ->).
  eapply triple_weaken; [apply triple_ret|]. intros ? ? ? (-> & -> & ->).
  exists hash, ([c] ++ xl ++ xs). split_and!; [done|done| |done]. rewrite <- !app_assoc. cbn [app]. by rewrite !app_nil_r.
Qed.

Lemma feed_no_panic debug junk data (src : Reader.Source) :
  Packets.Trojan.feed_initial_data debug junk data (Packets.Trojan.new src) ≠ Panic.
Proof.
  unfold Packets.Trojan.feed_initial_data, Packets.Trojan.new. set (cap := Packets.Trojan.TROJAN_UDP_FRAME_BUFFER_SIZE). clearbody cap.
  destruct (_ <? _)%nat eqn:E; [done|]. to_prop.
  edestruct (Slide.extend_spec debug junk) as (b & -> & _); [apply Slide.wf_new | exact E | done].
Qed.

Lemma finish_user debug junk r held src :
  server_ok h →
  match trojan_finish h debug junk r held src with
  | Ok res => result_user res = Some (authenticated_user r)
  | Err _ => True
  | Panic => False
  end.
Proof.
  intros [[p Hp] [q Hq] _]. unfold trojan_finish. rewrite Hp, Hq. destruct (_ =? _).
  - unfold owned. destruct (length held =? 0)%nat; [done|]. pose proof (feed_no_panic debug junk held src) as Hf.
    by destruct (Packets.Trojan.feed_initial_data _ _ held _).
  - destruct (_ && _); [|done]. by destruct (authenticated_user r).
Qed.
End facts.

(** C11: A Trojan server serves nobody but its users, and shows a stranger the
    fallback: it never panics; what it makes of a connection that starts with the
    hash of a user, as its first line, is accounted to that user; any other result
    is a connection to the fallback, whatever was wrong with the request, which
    starts with all bytes read, so that the fallback gets the whole stream. *)
Theorem trojan_serves_only_its_users {U P D R} (h : TrojanTcpHandler U P D R) debug junk src :
  server_ok h → Reader.source_ok src →
  let '(result, src') := setup_server_stream h debug junk src in
  result ≠ Panic ∧
  ∀ r, result = Ok r →
    (∃ fb selector data, fallback h = Some fb ∧ fallback_proxy_selector h = Some selector ∧
       r = TcpForward fb src' false None (owned data) selector None None ∧ data ++ Reader.flat src' = Reader.flat src) ∨
    (∃ hash user more, length hash = TROJAN_PASSWORD_HASH_LEN ∧ get (users h) hash = Some user ∧
       Reader.flat src = hash ++ CRLF_BYTES ++ more ∧ result_user r = Some user).
Proof.
  intros Hok Hs. unfold setup_server_stream, attempt.
  pose proof (request_triple h (terms_of TROJAN_HEADER_BUFFER_SIZE src) eq_refl (view_of src)) as Ht.
  destruct (serve_spec debug junk TROJAN_HEADER_BUFFER_SIZE _ (λ a held _, Ok (a, held)) src (trojan_coherent h) Hs)
    as (held & src' & [_ Hr Hsent Hwh] & ->).
  { unfold parse. by destruct (@parse_server_request U P D R h parser _ _) as [[] ?]. }
  unfold parse in *. destruct (@parse_server_request U P D R h parser _ _) as [[r|e|] v']; cbn [fst snd mbind outcome_bind] in *; [| |done].
  - destruct Ht as (xs & ys & Hl & _ & hash & more & Hlen & Hu & -> & _). cbn [view_of bytes_left] in Hl.
    pose proof (finish_user h debug junk r held src' Hok) as Hf.
    destruct (trojan_finish h debug junk r held src') as [res| |]; [|done..]. split; [done|]. intros ? [= <-]. right.
    exists hash, (authenticated_user r), (more ++ bytes_left v'). split_and!; [done..| |done]. by rewrite Hl, <- !app_assoc.
  - destruct (fallback h) as [fb|] eqn:Efb; [|done]. destruct (so_fallback h Hok) as [sel Hsel]; [by rewrite Efb|].
    unfold fallback_result. rewrite Hsel. split; [done|]. intros ? [= <-]. left. exists fb, sel, (read_data src src').
    split_and!; try done. unfold read_data.
    assert (Reader.flat src' `suffix_of` Reader.flat src) as [x Hx].
    { etrans; [|exact Ht]. rewrite <- Hr. by exists held. }
    rewrite Hx, app_assoc in Hwh. apply app_inv_tail in Hwh. by rewrite Hwh, drop_app_length, Hx.
Qed.
(** ** A client and a server *)
Lemma hex_no_newline b : is_byte b → 10 ∉ print_02x b.
Proof.
  intros [Hlo Hhi]. assert (Hd : ∀ d, 0 ≤ d < 16 → hex_digit d ≠ 10) by (intros d Hd; unfold hex_digit; destruct (d <? 10) eqn:E; lia).
  unfold print_02x. rewrite !not_elem_of_cons. split_and!; [| |apply not_elem_of_nil].
  - intros E. apply (Hd (b / 16)); [|done]. split; [apply Z.div_pos; lia | apply Z.div_lt_upper_bound; lia].
  - intros E. apply (Hd (b mod 16)); [|done]. apply Z.mod_pos_bound. lia.
Qed.

Lemma password_hash_ok sha password hash :
  (∀ x, bytes_ok (sha x)) → create_password_hash sha password = Ok hash →
  length hash = TROJAN_PASSWORD_HASH_LEN ∧ 10 ∉ hash.
Proof.
  intros Hsha. unfold create_password_hash. destruct (negb _) eqn:E; [done|]. intros [= <-].
  apply negb_false_iff in E. to_prop. split; [done|]. clear E. induction (Hsha password) as [|b l Hb _ IH]; [apply not_elem_of_nil|].
  cbn [fmap list_fmap concat]. rewrite not_elem_of_app. split; [by apply hex_no_newline | done].
Qed.

(** What a client writes. *)
Definition request_wire (hash : bytes) (command : Z) (l : NetLocation) : bytes :=
  hash ++ CRLF_BYTES ++ [command] ++ location_wire l ++ CRLF_BYTES.

Section ends.
Context {U P D R : Type}.

Lemma client_request_ok (c : TrojanTcpHandler U P D R) command l :
  location_ok l → client_request c command l = Ok (request_wire (client_password_hash c) command l).
Proof.
  intros Hl. unfold client_request. destruct (length_location_wire l Hl) as [-> _]. cbn [mbind outcome_bind].
  rewrite try_write_location_ok by done. cbn [mbind outcome_bind]. unfold request_wire. by rewrite <- !app_assoc.
Qed.

Lemma request_ok (h : TrojanTcpHandler U P D R) t hash user command l rest seen sent :
  bare_lf t = false → (257 ≤ buffer_size t)%nat → length hash = TROJAN_PASSWORD_HASH_LEN → 10 ∉ hash →
  get (users h) hash = Some user → command = Socks.CMD_CONNECT ∨ command = Socks.CMD_UDP_ASSOCIATE → location_ok l →
  @parse_server_request U P D R h _ (parser_handshake t) (mkView (request_wire hash command l ++ rest) seen sent) =
    (Ok (mkRequest user command l), mkView rest 0 sent).
Proof.
  intros Hb Hcap Hlen Hlf Hu Hcmd Hl. unfold parse_server_request, request_wire. rewrite <- !app_assoc.
  step (line_bytes_step t hash); [|rewrite Hlen; unfold TROJAN_PASSWORD_HASH_LEN; lia].
  step guard_ok; [|by apply Nat.eqb_eq]. step lift_ok; [|by rewrite Hu]. cbn [app]. step read_u8_ok.
  step guard_ok. step (read_location_ok t Hcap l).
  change (CRLF_BYTES ++ rest) with (be_encode 2 3338 ++ rest). step read_u16_ok. by step guard_ok.
Qed.

(** The server on what a client writes. *)
Lemma serves_request (h : TrojanTcpHandler U P D R) debug junk hash user command l src payload :
  Reader.source_ok src → length hash = TROJAN_PASSWORD_HASH_LEN → 10 ∉ hash → get (users h) hash = Some user →
  command = Socks.CMD_CONNECT ∨ command = Socks.CMD_UDP_ASSOCIATE → location_ok l →
  Reader.flat src = request_wire hash command l ++ payload →
  ∃ held src', (length held ≤ TROJAN_HEADER_BUFFER_SIZE)%nat ∧ held ++ Reader.flat src' = payload ∧
    Reader.written src' = Reader.written src ∧
    setup_server_stream h debug junk src = (trojan_finish h debug junk (mkRequest user command l) held src', src').
Proof.
  intros Hs Hlen Hlf Hu Hcmd Hl Hf. set (t := terms_of TROJAN_HEADER_BUFFER_SIZE src).
  assert (E : parse t (λ M _, parse_server_request h) (view_of src) =
    (Ok (mkRequest user command l), mkView payload 0 (Reader.written src))).
  { unfold view_of. rewrite Hf. apply request_ok; try done. unfold t, TROJAN_HEADER_BUFFER_SIZE. simpl. lia. }
  destruct (serve_spec debug junk TROJAN_HEADER_BUFFER_SIZE _ (λ a held _, Ok (a, held)) src (trojan_coherent h) Hs)
    as (held & src' & [Hcap Hr Hsent _] & Hserve); [fold t; by rewrite E|].
  fold t in Hr, Hsent, Hserve. rewrite E in Hr, Hsent, Hserve. exists held, src'. split_and!; try done.
  unfold setup_server_stream, attempt. by rewrite Hserve.
Qed.
End ends.

(** C36: A Trojan client reaches the destination it names: the request it writes,
    read in whatever pieces by a server whose table has the hash of its password,
    makes the server forward to that destination for the hash's user, handing on
    exactly the bytes sent after the request. *)
Theorem trojan_request_is_forwarded {U P D R} sha direct password (c h : TrojanTcpHandler U P D R) user sel l csrc debug junk :
  (∀ x, bytes_ok (sha x)) → new_client sha direct password = Ok c → get (users h) (client_password_hash c) = Some user →
  proxy_selector h = Some sel → location_ok l → VlessLink.not_mux l → Reader.sink csrc = None →
  ∃ request, setup_client_tcp_stream c l csrc = Ok (VlessLink.wrote csrc request) ∧
    ∀ src payload, Reader.source_ok src → Reader.flat src = request ++ payload →
    ∃ held src', held ++ Reader.flat src' = payload ∧ Reader.written src' = Reader.written src ∧
      setup_server_stream h debug junk src =
        (Ok (TcpForward l src' false None (owned held) sel (outbound_dispatcher h) user), src').
Proof.
  intros Hsha Hc Hu Hsel Hl Hm Hk.
  assert (length (client_password_hash c) = TROJAN_PASSWORD_HASH_LEN ∧ 10 ∉ client_password_hash c) as [Hlen Hlf].
  { unfold new_client, new_inner in Hc. destruct (create_password_hash sha password) as [hash| |] eqn:E; cbn in Hc; [|done..].
    injection Hc as <-. by apply (password_hash_ok sha password). }
  exists (request_wire (client_password_hash c) Socks.CMD_CONNECT l). split.
  { unfold setup_client_tcp_stream. rewrite client_request_ok by done. cbn [mbind outcome_bind]. by apply VlessLink.write_dest_ok. }
  intros src payload Hs Hf.
  destruct (serves_request h debug junk _ user Socks.CMD_CONNECT l src payload Hs Hlen Hlf Hu) as (held & src' & _ & Hr & Hw & ->); [by left|done..|].
  exists held, src'. split_and!; try done. unfold trojan_finish. cbn [command_type remote_location authenticated_user]. branch.
  assert (Hb : bool_decide (address l = Hostname Vless.MUX_DESTINATION_HOST) && (port l =? Vless.MUX_DESTINATION_PORT) = false).
  { apply andb_false_iff. destruct Hm; [left; by apply bool_decide_false | right; by apply Z.eqb_neq]. }
  rewrite Hb, Hsel. done.
Qed.
(** ** A server with one user *)
Definition demo_sha (password : bytes) : bytes := replicate 28 (Z.of_nat (length password) mod 256).
Definition demo_pick {A} (d : A) (o : outcome A) : A := match o with Ok a => a | _ => d end.
Definition demo_empty : TrojanTcpHandler Z unit unit unit := mkHandler (mkUsers ∅) [] None None None None None.
Definition demo_table : TrojanUsers Z := demo_pick (mkUsers ∅) (users_new demo_sha [Vless.mkServerUser (B "secret") 7]).
Definition demo_handler : TrojanTcpHandler Z unit unit unit :=
  demo_pick demo_empty (new_multi_server demo_sha id demo_table tt tt (Some VlessLink.demo_fallback)).
Definition demo_client : TrojanTcpHandler Z unit unit unit := demo_pick demo_empty (new_client demo_sha id (B "secret")).

Lemma demo_sha_bytes x : bytes_ok (demo_sha x).
Proof. apply Forall_replicate. unfold is_byte. apply Z.mod_pos_bound. lia. Qed.

Lemma trojan_serves_only_its_users_witness :
  (setup_server_stream demo_handler true (λ _, 0) (Reader.incoming [Some (B "GET / HTTP/1.1"); Some [13; 10]])).1 ≠ Panic ∧
  is_Ok (setup_server_stream demo_handler true (λ _, 0) (Reader.incoming [Some (B "GET / HTTP/1.1"); Some [13; 10]])).1 = true.
Proof.
  split; [|by vm_compute].
  pose proof (trojan_serves_only_its_users demo_handler true (λ _, 0) (Reader.incoming [Some (B "GET / HTTP/1.1"); Some [13; 10]])) as H.
  destruct (setup_server_stream demo_handler true _ _) as [r src']. apply H.
  - split; [vm_compute; by eexists..|]. intros _. vm_compute. by eexists.
  - split; [|done]. by repeat constructor.
Defined.

Lemma trojan_request_is_forwarded_witness :
  ∃ request, setup_client_tcp_stream demo_client VlessLink.demo_target (Reader.incoming []) =
      Ok (VlessLink.wrote (Reader.incoming []) request) ∧
    ∀ src payload, Reader.source_ok src → Reader.flat src = request ++ payload →
    ∃ held src', held ++ Reader.flat src' = payload ∧ Reader.written src' = Reader.written src ∧
      setup_server_stream demo_handler true (λ _, 0) src =
        (Ok (TcpForward VlessLink.demo_target src' false None (owned held) tt (outbound_dispatcher demo_handler) (Some 7)), src').
Proof.
  apply (trojan_request_is_forwarded demo_sha id (B "secret") demo_client demo_handler (Some 7) tt VlessLink.demo_target
    (Reader.incoming []) true (λ _, 0));
    [apply demo_sha_bytes|vm_compute; reflexivity|vm_compute; reflexivity|vm_compute; reflexivity|apply VlessLink.demo_target_ok|by left|done].
Defined.

End TrojanHandler.
