(* ===== verification/Shadowsocks.v ===== *)
(** * Shadowsocks streams ([src/shadowsocks/shadowsocks_stream.rs])

    The encrypted byte stream under Shadowsocks, in its legacy form and in both
    roles of AEAD-2022: nonces, sealing and opening keys, the chunks of either
    direction, their buffers and the polls.  The cipher is a class ([Aead]), the
    derivation of session keys a parameter, the wall clock and the shared salt
    checker inputs of a poll.  [Vec]s carry their capacity, because a read of the
    transport is given the spare part of one. *)
From S2P Require Import Prelude Buf SlideBuffer UotAddr Stream Messages SaltChecker.

Module Shadowsocks.
Import Stream Uot.

Definition NONCE_LEN : nat := 12.
Definition TAG_LEN : nat := 16.

(** [a - b] on [usize] *)
Definition usize_sub (a b : nat) : outcome nat := if b <=? a then Ok (a - b) else Panic.
Definition debug_assert (debug c : bool) : outcome unit := if debug && negb c then Panic else Ok tt.

(** [((hi as usize) << 8) | (lo as usize)] of two [u8]s *)
Definition be_usize (hi lo : Z) : nat := Z.to_nat (Z.lor (Z.shiftl (wrap 8 hi) 8) (wrap 8 lo)).

(** ** Nonces *)
Definition IncreasingSequence : Type := bytes.
Definition seq_new : IncreasingSequence := replicate NONCE_LEN 0%Z.

(** The loop of [advance_bytes], which stops at the first byte that does not wrap. *)
Fixpoint increment (bs : bytes) : bytes :=
  match bs with
  | [] => []
  | i :: bs => let i := wrap 8 (i + 1) in if (0 <? i)%Z then i :: bs else i :: increment bs
  end.
Definition advance_bytes (this : IncreasingSequence) : bytes * IncreasingSequence := (this, increment this).

(** ** Keys *)
Inductive ShadowsocksAeadAlgorithm (A : Type) := AwsLc (algorithm : A) | Aes192Gcm.
Arguments AwsLc {A}.
Arguments Aes192Gcm {A}.

(** The ciphers: which keys they take; sealing in place with the tag apart, which
    fails on inputs too long; opening in place, which says whether the tag was
    right and leaves a buffer of the same length. *)
Class Aead (A : Type) := {
  key_fits : ShadowsocksAeadAlgorithm A → bytes → bool;
  seal : ShadowsocksAeadAlgorithm A → bytes → bytes → bytes → option (bytes * bytes);
  open : ShadowsocksAeadAlgorithm A → bytes → bytes → bytes → bool * bytes }.

Class AeadLaws (A : Type) `{Aead A} := {
  seal_total a k n data : length data ≤ N.to_nat 65536 → is_Some (seal a k n data);
  seal_length a k n data c t : seal a k n data = Some (c, t) → length c = length data ∧ length t = TAG_LEN;
  open_length a k n buf : length (open a k n buf).2 = length buf;
  open_seal a k n data c t : bytes_ok data → seal a k n data = Some (c, t) →
    (open a k n (c ++ t)).1 = true ∧ take (length data) (open a k n (c ++ t)).2 = data }.

(** A sealing or opening key: both constructors of the two enums hold a cipher
    and a nonce sequence. *)
Record CipherKey (A : Type) := mkKey {
  k_algorithm : ShadowsocksAeadAlgorithm A; k_session : bytes; k_nonce : IncreasingSequence }.
Arguments mkKey {A}.
Arguments k_algorithm {A}.
Arguments k_session {A}.
Arguments k_nonce {A}.

Section keys.
Context {A : Type} `{Aead A}.

(** [ShadowsocksSealingKey::new] and [ShadowsocksOpeningKey::new] *)
Definition key_new (algorithm : ShadowsocksAeadAlgorithm A) (session_key : bytes) : outcome (CipherKey A) :=
  if key_fits algorithm session_key then Ok (mkKey algorithm session_key seq_new)
  else err InvalidInput (match algorithm with
                         | AwsLc _ => "invalid Shadowsocks AEAD session key"
                         | Aes192Gcm => "invalid aes-192-gcm session key"
                         end).

Definition key_advance (k : CipherKey A) : bytes * CipherKey A :=
  let '(nonce, next) := advance_bytes (k_nonce k) in (nonce, mkKey (k_algorithm k) (k_session k) next).

Definition seal_in_place_separate_tag (k : CipherKey A) (in_out : bytes) : outcome (bytes * bytes) * CipherKey A :=
  let '(nonce, k) := key_advance k in
  (match seal (k_algorithm k) (k_session k) nonce in_out with
   | Some (c, tag) => if length tag =? TAG_LEN then Ok (c, tag) else Panic
   | None => err Other (match k_algorithm k with AwsLc _ => "shadowsocks AEAD seal failed" | Aes192Gcm => "aes-192-gcm seal failed" end)
   end, k).

Definition open_in_place (k : CipherKey A) (in_out : bytes) : outcome unit * bytes * CipherKey A :=
  match k_algorithm k with
  | AwsLc _ =>
      let '(nonce, k) := key_advance k in
      let '(ok, buf) := open (k_algorithm k) (k_session k) nonce in_out in
      (if ok then Ok tt else err InvalidData "open failed", buf, k)
  | Aes192Gcm =>
      if length in_out <? TAG_LEN then (err InvalidInput "aes-192-gcm ciphertext is shorter than tag", in_out, k)
      else
        let '(nonce, k) := key_advance k in
        let '(ok, buf) := open (k_algorithm k) (k_session k) nonce in_out in
        (if ok then Ok tt else err InvalidData "open failed", buf, k)
  end.
End keys.

(** ** Vectors *)
Record vec := mkVec { vdata : bytes; vcap : nat }.
Notation vlen v := (length (vdata v)).

(** What the allocator grants for a request is at least the request. *)
Class Alloc := { granted : nat → nat; granted_ge n : n ≤ granted n }.
#[export] Instance exact_alloc : Alloc := {| granted n := n; granted_ge n := Nat.le_refl n |}.

Section vec.
Context `{!Alloc}.
Definition vec_new : vec := mkVec [] 0.
Definition vec_with_capacity (n : nat) : vec := mkVec [] (granted n).
Definition vec_reserve_exact (additional : nat) (v : vec) : vec :=
  if vlen v + additional <=? vcap v then v else mkVec (vdata v) (granted (vlen v + additional)).
(** [extend_from_slice] *)
Definition vec_extend (bs : bytes) (v : vec) : vec :=
  let v := vec_reserve_exact (length bs) v in mkVec (vdata v ++ bs) (vcap v).
Definition vec_truncate (n : nat) (v : vec) : vec := mkVec (take n (vdata v)) (vcap v).
(** [v[i..j]] replaced by bytes of the same length *)
Definition vec_overwrite (i : nat) (bs : bytes) (v : vec) : vec :=
  mkVec (take i (vdata v) ++ bs ++ drop (i + length bs) (vdata v)) (vcap v).
End vec.

(** ** The stream *)
Inductive ShadowsocksStreamType := Aead_ | AEAD2022Server | AEAD2022Client.

Definition max_payload_len (t : ShadowsocksStreamType) : nat :=
  match t with Aead_ => N.to_nat 16383 | AEAD2022Server | AEAD2022Client => N.to_nat 65535 end.

Definition METADATA_SIZE : nat := 2 + 2 * TAG_LEN.
Definition INITIAL_BUF_SIZE : nat := N.to_nat 4096.
Definition MAX_SESSION_KEY_LEN : nat := 32.
Definition TIMESTAMP_SKEW_TOLERANCE_SECS : Z := 180.

(** The fields of [ShadowsocksStream] for what is read and for what is written. *)
Record inbound := mkInbound {
  unprocessed_buf : vec;
  unprocessed_start_offset : nat;
  unprocessed_pending_len : option nat;
  plaintext_start : nat;
  plaintext_end : nat;
  unprocessed_high_water : nat;
  unprocessed_reacquire_size : nat }.
Record outbound := mkOutbound { write_cache : vec; write_cache_start_offset : nat }.

(** [salt_checker] says whether there is one; the checker itself is shared with
    other streams. *)
Record ShadowsocksStream (A S : Type) := mkSs {
  stream : S;
  stream_type : ShadowsocksStreamType;
  algorithm : ShadowsocksAeadAlgorithm A;
  salt_len : nat;
  key : bytes → bytes;
  salt_checker : bool;
  encrypt_iv : bytes;
  decrypt_iv : option bytes;
  sealing_key : CipherKey A;
  opening_key : option (CipherKey A);
  inb : inbound;
  outb : outbound;
  is_initial_read : bool;
  is_initial_write : bool;
  is_eof : bool }.
Arguments mkSs {A S}.
Arguments stream {A S}.
Arguments stream_type {A S}.
Arguments algorithm {A S}.
Arguments salt_len {A S}.
Arguments key {A S}.
Arguments salt_checker {A S}.
Arguments encrypt_iv {A S}.
Arguments decrypt_iv {A S}.
Arguments sealing_key {A S}.
Arguments opening_key {A S}.
Arguments inb {A S}.
Arguments outb {A S}.
Arguments is_initial_read {A S}.
Arguments is_initial_write {A S}.
Arguments is_eof {A S}.

Section setters.
Context {A S : Type}.
Implicit Types this : ShadowsocksStream A S.

Definition set_stream (s : S) this := mkSs s (stream_type this) (algorithm this) (salt_len this) (key this) (salt_checker this)
  (encrypt_iv this) (decrypt_iv this) (sealing_key this) (opening_key this) (inb this) (outb this)
  (is_initial_read this) (is_initial_write this) (is_eof this).
Definition set_decrypt_iv (iv : option bytes) this := mkSs (stream this) (stream_type this) (algorithm this) (salt_len this) (key this)
  (salt_checker this) (encrypt_iv this) iv (sealing_key this) (opening_key this) (inb this) (outb this)
  (is_initial_read this) (is_initial_write this) (is_eof this).
Definition set_opening (k : option (CipherKey A)) (i : inbound) this := mkSs (stream this) (stream_type this) (algorithm this) (salt_len this)
  (key this) (salt_checker this) (encrypt_iv this) (decrypt_iv this) (sealing_key this) k i (outb this)
  (is_initial_read this) (is_initial_write this) (is_eof this).
Definition set_in (i : inbound) this := set_opening (opening_key this) i this.
Definition set_sealing (k : CipherKey A) (o : outbound) this := mkSs (stream this) (stream_type this) (algorithm this) (salt_len this)
  (key this) (salt_checker this) (encrypt_iv this) (decrypt_iv this) k (opening_key this) (inb this) o
  (is_initial_read this) (is_initial_write this) (is_eof this).
Definition set_out (o : outbound) this := set_sealing (sealing_key this) o this.
Definition set_flags (initial_read initial_write eof : bool) this := mkSs (stream this) (stream_type this) (algorithm this) (salt_len this)
  (key this) (salt_checker this) (encrypt_iv this) (decrypt_iv this) (sealing_key this) (opening_key this) (inb this) (outb this)
  initial_read initial_write eof.
End setters.

Section inbound.
Implicit Types i : inbound.

Definition set_buf (b : vec) i := mkInbound b (unprocessed_start_offset i) (unprocessed_pending_len i) (plaintext_start i) (plaintext_end i)
  (unprocessed_high_water i) (unprocessed_reacquire_size i).
Definition set_start (n : nat) i := mkInbound (unprocessed_buf i) n (unprocessed_pending_len i) (plaintext_start i) (plaintext_end i)
  (unprocessed_high_water i) (unprocessed_reacquire_size i).
Definition set_pending (l : option nat) i := mkInbound (unprocessed_buf i) (unprocessed_start_offset i) l (plaintext_start i) (plaintext_end i)
  (unprocessed_high_water i) (unprocessed_reacquire_size i).
Definition set_plaintext (a b : nat) i := mkInbound (unprocessed_buf i) (unprocessed_start_offset i) (unprocessed_pending_len i) a b
  (unprocessed_high_water i) (unprocessed_reacquire_size i).
Definition set_sizes (high reacquire : nat) i := mkInbound (unprocessed_buf i) (unprocessed_start_offset i) (unprocessed_pending_len i)
  (plaintext_start i) (plaintext_end i) high reacquire.

Definition has_plaintext i : bool := plaintext_start i <? plaintext_end i.

Definition discard_consumed_unprocessed i : inbound :=
  if negb (has_plaintext i) && (unprocessed_start_offset i =? vlen (unprocessed_buf i))
  then set_start 0 (set_buf (vec_truncate 0 (unprocessed_buf i)) i) else i.

(** [read_plaintext] into a buffer with [remaining] bytes of room *)
Definition read_plaintext (remaining : nat) i : outcome (bytes * inbound) :=
  available_len ← usize_sub (plaintext_end i) (plaintext_start i);
  let write_amount := Nat.min remaining available_len in
  bs ← slice (vdata (unprocessed_buf i)) (plaintext_start i) (plaintext_start i + write_amount);
  let i := set_plaintext (plaintext_start i + write_amount) (plaintext_end i) i in
  Ok (bs, if negb (has_plaintext i) then discard_consumed_unprocessed (set_plaintext 0 0 i) else i).
End inbound.

Definition clamp (lo hi n : nat) : nat := if n <? lo then lo else if hi <? n then hi else n.

Inductive DecryptState := NeedData | Success.

Definition check_timestamp_freshness (timestamp_secs now_secs : Z) : outcome unit :=
  let '(drift_secs, direction) :=
    if (timestamp_secs <=? now_secs)%Z then ((now_secs - timestamp_secs)%Z, "old") else ((timestamp_secs - now_secs)%Z, "in the future") in
  if (TIMESTAMP_SKEW_TOLERANCE_SECS <? drift_secs)%Z then err Other (String.append "timestamp is seconds " direction) else Ok tt.

(** [insert_and_check] of the shared checker: whether the salt is new *)
Class SaltChecker (C : Type) := insert_and_check : C → bytes → bool * C.

(** [TimedSaltChecker] and the instant of the call *)
#[export] Instance timed_checker (hash_one : bytes → Z) : SaltChecker (Salt.TimedSaltChecker * Z) := λ '(c, now) salt,
  let '(ok, c) := Salt.insert_and_check hash_one c now salt in (ok, (c, now)).

Definition SALT_REPLAY_WINDOW_SECS : Z := 390.
Definition new_shared_salt_checker : Salt.TimedSaltChecker := Salt.new SALT_REPLAY_WINDOW_SECS.

Section stream.
Context (debug : bool) (junk : nat → Z).
Context {A S C : Type} `{Aead A, AsyncStream S, SaltChecker C, !Alloc}.
Implicit Types this : ShadowsocksStream A S.

(** [new], with the salt that [generate_iv] draws *)
Definition new (s : S) (t : ShadowsocksStreamType) (a : ShadowsocksAeadAlgorithm A) (n : nat) (k : bytes → bytes) (checker : bool)
    (salt : bytes) : outcome (ShadowsocksStream A S) :=
  match key_new a (k salt) with
  | Ok sealing_key =>
      Ok (mkSs s t a n k checker salt None sealing_key None
            (mkInbound (vec_with_capacity INITIAL_BUF_SIZE) 0 None 0 0 0 INITIAL_BUF_SIZE)
            (mkOutbound (vec_with_capacity INITIAL_BUF_SIZE) 0) true true false)
  | _ => Panic
  end.

Definition max_packet_len this : nat := max_payload_len (stream_type this) + METADATA_SIZE.

(** ** Reading *)
Notation M X := (io (ShadowsocksStream A S) X).
Definition gets {X} (f : ShadowsocksStream A S → X) : M X := λ this, (Ok (f this), this).
Definition modify (f : ShadowsocksStream A S → ShadowsocksStream A S) : M unit := λ this, (Ok tt, f this).
Definition modify_in (f : inbound → inbound) : M unit := modify (λ this, set_in (f (inb this)) this).

(** [self.opening_key.as_mut().unwrap().open_in_place(&mut self.unprocessed_buf[i..j])] *)
Definition open_range (i j : nat) : M (outcome unit) := λ this,
  match opening_key this with
  | None => (Panic, this)
  | Some k =>
      match slice (vdata (unprocessed_buf (inb this))) i j with
      | Ok in_out =>
          let '(r, buf, k) := open_in_place k in_out in
          (Ok r, set_opening (Some k) (set_buf (vec_overwrite i buf (unprocessed_buf (inb this))) (inb this)) this)
      | _ => (Panic, this)
      end
  end.

(** The same with [.is_err()] as an error of its own *)
Definition open_or (i j : nat) (msg : string) : M unit :=
  r ← open_range i j;
  match r with Ok _ => mret tt | Err _ => lift (err InvalidData msg) | Panic => lift Panic end.

Definition read_len (i : nat) : M nat :=
  buf ← gets (λ this, vdata (unprocessed_buf (inb this)));
  hi ← lift (index buf i);
  lo ← lift (index buf (i + 1));
  mret (be_usize hi lo).

Definition process_opening_key : M unit := λ this,
  match slice (vdata (unprocessed_buf (inb this))) 0 (salt_len this) with
  | Ok decrypt_iv =>
      match key_new (algorithm this) (key this decrypt_iv) with
      | Ok k => (Ok tt, set_opening (Some k) (inb this) this)
      | Err e => (Err e, this)
      | Panic => (Panic, this)
      end
  | _ => (Panic, this)
  end.

(** The length of the next chunk, [None] when it is not there yet or its data is not *)
Definition next_len : M (option nat) :=
  i ← gets inb;
  available_len ← lift (usize_sub (vlen (unprocessed_buf i)) (unprocessed_start_offset i));
  match unprocessed_pending_len i with
  | Some len =>
      if available_len <? len + TAG_LEN then mret None
      else _ ← modify_in (set_pending None); mret (Some len)
  | None =>
      let data_length_len := 2 + TAG_LEN in
      let start := unprocessed_start_offset i in
      if available_len <? data_length_len then mret None
      else
        _ ← open_or start (start + data_length_len) "open failed for length";
        data_len_no_tag ← read_len start;
        t ← gets stream_type;
        if max_payload_len t <? data_len_no_tag then lift (err InvalidData "data length larger than max allowed size")
        else
          _ ← modify_in (set_start (start + data_length_len));
          if available_len - data_length_len <? data_len_no_tag + TAG_LEN then
            _ ← modify_in (λ i, discard_consumed_unprocessed (set_pending (Some data_len_no_tag) i));
            mret None
          else mret (Some data_len_no_tag)
  end.

(** The data of a chunk, all of which has arrived *)
Definition open_data (pending_len : nat) : M DecryptState :=
  start ← gets (λ this, unprocessed_start_offset (inb this));
  let pending_len_with_tag := pending_len + TAG_LEN in
  _ ← open_or start (start + pending_len_with_tag) "open failed for data";
  _ ← modify_in (λ i,
        let i := set_start (start + pending_len_with_tag) (set_plaintext start (start + pending_len) i) in
        if negb (has_plaintext i) then discard_consumed_unprocessed i else i);
  mret Success.

Definition try_decrypt : M DecryptState :=
  i ← gets inb;
  _ ← lift (debug_assert debug (negb (has_plaintext i)));
  len ← next_len;
  match len with None => mret NeedData | Some pending_len => open_data pending_len end.

Definition read_header_len this : nat :=
  match stream_type this with
  | Aead_ => salt_len this
  | AEAD2022Server => salt_len this + 11 + TAG_LEN
  | AEAD2022Client => salt_len this + 11 + salt_len this + TAG_LEN
  end.

(** The header also goes through the shared checker. *)
Definition on_stream {X} (m : M X) : io (ShadowsocksStream A S * C) X := λ '(this, chk),
  let '(r, this) := m this in (r, (this, chk)).

(** [salt_checker.insert_and_check(&self.unprocessed_buf[0..self.salt_len])] *)
Definition check_salt : io (ShadowsocksStream A S * C) unit := λ '(this, chk),
  if salt_checker this then
    match slice (vdata (unprocessed_buf (inb this))) 0 (salt_len this) with
    | Ok decrypt_iv =>
        let '(ok, chk) := insert_and_check chk decrypt_iv in
        (if ok then Ok tt else err Other "got duplicate salt", (this, chk))
    | _ => (Panic, (this, chk))
    end
  else (Ok tt, (this, chk)).

(** The type and the time in a header of AEAD-2022 *)
Definition check_header (n : nat) (header_type : Z) (msg : string) (now : Z) : M unit :=
  buf ← gets (λ this, vdata (unprocessed_buf (inb this)));
  t ← lift (index buf n);
  if negb (t =? header_type)%Z then lift (err InvalidData msg)
  else
    timestamp_bytes ← lift (slice buf (n + 1) (n + 9));
    lift (check_timestamp_freshness (be_decode timestamp_bytes) now).

Definition process_read_header (now : Z) : io (ShadowsocksStream A S * C) unit :=
  t ← on_stream (gets stream_type);
  n ← on_stream (gets salt_len);
  _ ← match t with
      | Aead_ =>
          _ ← check_salt;
          on_stream (
            _ ← process_opening_key;
            modify_in (λ i, set_start (unprocessed_start_offset i + n) i))
      | AEAD2022Server =>
          _ ← on_stream (
            _ ← process_opening_key;
            _ ← open_or n (n + 11 + TAG_LEN) "open failed for fixed length request header";
            check_header n 0 "invalid client header type" now);
          _ ← check_salt;
          on_stream (
            buf ← gets (λ this, vdata (unprocessed_buf (inb this)));
            salt ← lift (slice buf 0 n);
            _ ← modify (set_decrypt_iv (Some salt));
            variable_header_len ← read_len (n + 9);
            modify_in (λ i, set_start (unprocessed_start_offset i + (n + 11 + TAG_LEN)) (set_pending (Some variable_header_len) i)))
      | AEAD2022Client =>
          _ ← on_stream (
            _ ← process_opening_key;
            _ ← open_or n (n + 11 + n + TAG_LEN) "open failed for fixed length request header";
            check_header n 1 "invalid server header type" now);
          _ ← check_salt;
          on_stream (
            buf ← gets (λ this, vdata (unprocessed_buf (inb this)));
            request_salt ← lift (slice buf (n + 9) (n + 9 + n));
            iv ← gets encrypt_iv;
            if negb (bool_decide (request_salt = iv)) then lift (err InvalidData "server returned request salt does not match")
            else
              first_chunk_len ← read_len (n + 9 + n);
              modify_in (λ i, set_start (n + 11 + n + TAG_LEN) (set_pending (Some first_chunk_len) i)))
      end;
  on_stream (modify_in discard_consumed_unprocessed).

(** ** The transport *)
Definition poll_fill_unprocessed this : Poll (outcome nat) * ShadowsocksStream A S :=
  let i := inb this in
  let buf := unprocessed_buf i in
  if debug && negb (vlen buf <? vcap buf) then (Ready Panic, this)
  else
    match poll_read (stream this) (vcap buf - vlen buf) with
    | (Pending, s) => (Pending, set_stream s this)
    | (Ready (inl e), s) => (Ready (Err e), set_stream s this)
    | (Ready (inr bs), s) =>
        let filled := vlen buf + length bs in
        (Ready (Ok (length bs)),
         set_in (set_sizes (Nat.max (unprocessed_high_water i) filled) (unprocessed_reacquire_size i)
                   (set_buf (mkVec (vdata buf ++ bs) (vcap buf)) i)) (set_stream s this))
    end.

Definition release_drained_buffers this : ShadowsocksStream A S :=
  let i := inb this in
  let this :=
    if negb (has_plaintext i) && (unprocessed_start_offset i =? vlen (unprocessed_buf i)) then
      set_in (set_buf vec_new (set_start 0
        (set_sizes 0 (clamp INITIAL_BUF_SIZE (max_packet_len this) (unprocessed_high_water i)) i))) this
    else this in
  if write_cache_start_offset (outb this) =? vlen (write_cache (outb this))
  then set_out (mkOutbound vec_new 0) this else this.

Definition ensure_unprocessed_room : M unit :=
  this ← gets id;
  let i := inb this in
  _ ← lift (debug_assert debug (negb (has_plaintext i)));
  let needed := match unprocessed_pending_len i with Some len => len + TAG_LEN | None => 2 + TAG_LEN end in
  let start := unprocessed_start_offset i in
  let buf := unprocessed_buf i in
  let filled := vlen buf in
  let capacity := vcap buf in
  let grown_for_needed := Nat.min (needed * 2) (max_packet_len this) in
  if capacity =? 0 then
    let size := if unprocessed_reacquire_size i <? needed then grown_for_needed else unprocessed_reacquire_size i in
    modify_in (λ i, set_start 0 (set_buf (vec_with_capacity size) i))
  else if needed <=? capacity then
    _ ← (if (capacity <? start + needed) || (filled =? capacity) then
           rest ← lift (slice (vdata buf) start filled);
           modify_in (λ i, set_start 0 (set_buf (mkVec rest capacity) i))
         else mret tt);
    modify_in (λ i,
      let buf := unprocessed_buf i in
      if vlen buf =? vcap buf then set_buf (vec_reserve_exact needed buf) i else i)
  else
    rest ← lift (slice (vdata buf) start filled);
    modify_in (λ i, set_start 0 (set_buf (vec_extend rest (vec_with_capacity grown_for_needed)) i)).

(** The loop that reads the header; each round brings a byte of it. *)
Fixpoint header_loop (fuel : nat) this : option (Poll (outcome bool) * ShadowsocksStream A S) :=
  match fuel with
  | 0 => None
  | Datatypes.S fuel =>
      let buf := unprocessed_buf (inb this) in
      let this := if vlen buf =? vcap buf then set_in (set_buf (vec_reserve_exact INITIAL_BUF_SIZE buf) (inb this)) this else this in
      match poll_fill_unprocessed this with
      | (Pending, this) => Some (Pending, release_drained_buffers this)
      | (Ready (Err e), this) => Some (Ready (Err e), this)
      | (Ready Panic, this) => Some (Ready Panic, this)
      | (Ready (Ok len), this) =>
          if len =? 0 then Some (Ready (Ok false), set_flags (is_initial_read this) (is_initial_write this) true this)
          else if read_header_len this <=? vlen (unprocessed_buf (inb this)) then Some (Ready (Ok true), this)
          else header_loop fuel this
      end
  end.

(** The loop that hands out plaintext, opens chunks and reads more; [out] is what
    has been filled in so far. *)
Fixpoint read_loop (fuel room : nat) (fill_buffer : bool) (out : bytes) this
    : option (Poll (outcome bytes) * ShadowsocksStream A S) :=
  match fuel with
  | 0 => None
  | Datatypes.S fuel =>
      match (if has_plaintext (inb this) then read_plaintext (room - length out) (inb this) else Ok ([], inb this)) with
      | Ok (bs, i) =>
          let had := has_plaintext (inb this) in
          let this := set_in i this in
          let out := out ++ bs in
          if had && ((room - length out =? 0) || negb fill_buffer) then Some (Ready (Ok out), this)
          else
            match (if unprocessed_start_offset (inb this) <? vlen (unprocessed_buf (inb this))
                   then try_decrypt this else (Ok NeedData, this)) with
            | (Err e, this) => Some (Ready (Err e), this)
            | (Panic, this) => Some (Ready Panic, this)
            | (Ok Success, this) => read_loop fuel room fill_buffer out this
            | (Ok NeedData, this) =>
                if 0 <? length out then Some (Ready (Ok out), this)
                else if is_eof this then Some (Ready (Ok []), this)
                else
                  match ensure_unprocessed_room this with
                  | (Ok _, this) =>
                      match poll_fill_unprocessed this with
                      | (Pending, this) => Some (Pending, release_drained_buffers this)
                      | (Ready (Err e), this) => Some (Ready (Err e), this)
                      | (Ready Panic, this) => Some (Ready Panic, this)
                      | (Ready (Ok len), this) =>
                          read_loop fuel room fill_buffer out
                            (if len =? 0 then set_flags (is_initial_read this) (is_initial_write this) true this else this)
                      end
                  | (_, this) => Some (Ready Panic, this)
                  end
            end
      | _ => Some (Ready Panic, this)
      end
  end.

Definition poll_read_inner (fuel : nat) (now : Z) (chk : C) (room : nat) (fill_buffer : bool) this
    : option (Poll (outcome bytes) * ShadowsocksStream A S * C) :=
  let go this chk := (λ r, (r, chk)) <$> read_loop fuel room fill_buffer [] this in
  if room =? 0 then Some (Ready (Ok []), this, chk)
  else if is_initial_read this && negb (is_eof this) then
    match header_loop (Datatypes.S (read_header_len this)) this with
    | None => None
    | Some (Pending, this) => Some (Pending, this, chk)
    | Some (Ready (Err e), this) => Some (Ready (Err e), this, chk)
    | Some (Ready Panic, this) => Some (Ready Panic, this, chk)
    | Some (Ready (Ok false), this) => Some (Ready (Ok []), this, chk)
    | Some (Ready (Ok true), this) =>
        match process_read_header now (this, chk) with
        | (Ok _, (this, chk)) => go (set_flags false (is_initial_write this) (is_eof this) this) chk
        | (Err e, (this, chk)) => Some (Ready (Err e), this, chk)
        | (Panic, (this, chk)) => Some (Ready Panic, this, chk)
        end
    end
  else go this chk.

(** [AsyncRead::poll_read] and [AsyncReadMessage::poll_read_message] *)
Definition poll_read_ (fuel : nat) (now : Z) (chk : C) (room : nat) this := poll_read_inner fuel now chk room true this.
Definition poll_read_message (fuel : nat) (now : Z) (chk : C) (room : nat) this := poll_read_inner fuel now chk room false this.

(** ** Writing *)
Definition modify_out (f : outbound → outbound) : M unit := modify (λ this, set_out (f (outb this)) this).
Definition set_cache (v : vec) (o : outbound) : outbound := mkOutbound v (write_cache_start_offset o).

Definition ensure_write_cache (additional : nat) : M unit :=
  this ← gets id;
  let v := write_cache (outb this) in
  let needed := vlen v + additional in
  if needed <=? vcap v then mret tt
  else
    let grown := Nat.max needed (Nat.min (vcap v * 2) (max_packet_len this)) in
    modify_out (set_cache (vec_reserve_exact (grown - vlen v) v)).

Definition push_cache (bs : bytes) : M unit := modify_out (λ o, set_cache (vec_extend bs (write_cache o)) o).

(** [self.sealing_key.seal_in_place_separate_tag(&mut self.write_cache[start..])]
    and the tag behind it *)
Definition seal_tail (start : nat) : M unit := λ this,
  let v := write_cache (outb this) in
  match slice (vdata v) start (vlen v) with
  | Ok in_out =>
      let '(r, k) := seal_in_place_separate_tag (sealing_key this) in_out in
      match r with
      | Ok (c, tag) => (Ok tt, set_sealing k (set_cache (vec_extend tag (vec_overwrite start c v)) (outb this)) this)
      | Err e => (Err e, set_sealing k (outb this) this)
      | Panic => (Panic, set_sealing k (outb this) this)
      end
  | _ => (Panic, this)
  end.

(** [(len >> 8) as u8, (len & 0xff) as u8] *)
Definition len_bytes (len : nat) : bytes := [wrap 8 (Z.shiftr (Z.of_nat len) 8); Z.land (Z.of_nat len) 255].

Definition cache_len this : nat := vlen (write_cache (outb this)).

Definition seal_into_write_cache (input : bytes) (write_length_header : bool) : M unit :=
  _ ← (if write_length_header then
         length_start ← gets cache_len;
         _ ← push_cache (len_bytes (length input));
         seal_tail length_start
       else mret tt);
  payload_start ← gets cache_len;
  _ ← push_cache input;
  seal_tail payload_start.

(** [if result.is_err() { self.write_cache.truncate(chunk_start) }] *)
Definition or_truncate (chunk_start : nat) (m : M unit) : M unit := λ this,
  match m this with
  | (Err e, this) => (Err e, set_out (set_cache (vec_truncate chunk_start (write_cache (outb this))) (outb this)) this)
  | r => r
  end.

Definition encrypt_single (input : bytes) (write_length_header : bool) : M unit :=
  let header_len := if write_length_header then 2 + TAG_LEN else 0 in
  _ ← ensure_write_cache (header_len + length input + TAG_LEN);
  chunk_start ← gets cache_len;
  or_truncate chunk_start (seal_into_write_cache input write_length_header).

(** [.map_err(|_| std::io::Error::other(msg))] *)
Definition map_err {X} (msg : string) (m : M X) : M X := λ this,
  match m this with (Err _, this) => (err Other msg, this) | r => r end.

(** The loop over the transport; a round writes at least one byte or is the last. *)
Fixpoint write_loop (fuel : nat) this : outcome bool * ShadowsocksStream A S :=
  match fuel with
  | 0 => (Panic, this)
  | Datatypes.S fuel =>
      let o := outb this in
      match slice (vdata (write_cache o)) (write_cache_start_offset o) (vlen (write_cache o)) with
      | Ok bs =>
          match poll_write (stream this) bs with
          | (Ready (inr written), s) =>
              if written =? 0 then (err UnexpectedEof "EOF while writing cached encrypted data", set_stream s this)
              else
                let o := mkOutbound (write_cache o) (write_cache_start_offset o + written) in
                if write_cache_start_offset o =? vlen (write_cache o)
                then (Ok true, set_out (mkOutbound (vec_truncate 0 (write_cache o)) 0) (set_stream s this))
                else write_loop fuel (set_out o (set_stream s this))
          | (Ready (inl e), s) => (Err e, set_stream s this)
          | (Pending, s) => (Ok false, set_stream s this)
          end
      | _ => (Panic, this)
      end
  end.
Definition do_write_cache : M bool := λ this, write_loop (Datatypes.S (cache_len this)) this.

(** [while !self.write_cache.is_empty()]: the cache is empty once it has all been
    written. *)
Definition poll_flush_cache this : Poll (outcome unit) * ShadowsocksStream A S :=
  if cache_len this =? 0 then (Ready (Ok tt), this)
  else
    match do_write_cache this with
    | (Ok true, this) => (Ready (Ok tt), this)
    | (Ok false, this) => (Pending, this)
    | (Err e, this) => (Ready (Err e), this)
    | (Panic, this) => (Ready Panic, this)
    end.

Definition initial_too_large {X} : outcome X := err InvalidInput "Shadowsocks initial payload length exceeds max encrypted packet capacity".
Definition message_too_large {X} : outcome X := err InvalidInput "Shadowsocks message length exceeds max payload length".

(** [allocate_vec] and the assignments that fill all of it *)
Definition response_header (now : Z) (decrypt_iv : bytes) (handled_len n : nat) : outcome bytes :=
  let h := Slide.allocate_vec junk (1 + 8 + n + 2) in
  h ← copy_at 0 [1%Z] h;
  h ← copy_at 1 (be_encode 8 now) h;
  h ← (if length decrypt_iv =? n then copy_at 9 decrypt_iv h else Panic);
  copy_at (9 + n) (len_bytes handled_len) h.
Definition request_header (now : Z) (buf_len : nat) : outcome bytes :=
  let h := Slide.allocate_vec junk (1 + 8 + 2) in
  h ← copy_at 0 [0%Z] h;
  h ← copy_at 1 (be_encode 8 now) h;
  copy_at 9 (len_bytes buf_len) h.

(** The salt in front of everything else *)
Definition push_salt : M unit :=
  n ← gets salt_len; iv ← gets encrypt_iv;
  _ ← ensure_write_cache n; push_cache iv.

Definition process_write_header (now : Z) (buf : bytes) : M nat :=
  t ← gets stream_type;
  n ← gets salt_len;
  max ← gets max_packet_len;
  match t with
  | Aead_ =>
      _ ← push_salt;
      len ← gets cache_len;
      space ← lift (usize_sub max len);
      space ← lift (usize_sub space METADATA_SIZE);
      let handled_len := Nat.min (length buf) space in
      if handled_len =? 0 then lift initial_too_large
      else
        _ ← map_err "failed to encrypt initial packet" (encrypt_single (take handled_len buf) true);
        mret handled_len
  | AEAD2022Server =>
      initial ← gets is_initial_read;
      if initial : bool then
        lift (err InvalidInput "cannot write Shadowsocks AEAD2022 server response before reading request header")
      else
        iv ← gets decrypt_iv;
        _ ← modify (set_decrypt_iv None);
        iv ← lift (ok_or iv (IoError InvalidInput "missing Shadowsocks AEAD2022 request salt for server response"));
        _ ← push_salt;
        space ← lift (usize_sub max n);
        space ← lift (usize_sub space (1 + 8 + n + 2 + TAG_LEN));
        space ← lift (usize_sub space TAG_LEN);
        let handled_len := Nat.min (length buf) space in
        header ← lift (response_header now iv handled_len n);
        _ ← map_err "failed to encrypt response header" (encrypt_single header false);
        _ ← map_err "failed to encrypt initial server packet" (encrypt_single (take handled_len buf) false);
        mret handled_len
  | AEAD2022Client =>
      _ ← push_salt;
      space ← lift (usize_sub max n);
      space ← lift (usize_sub space (1 + 8 + 2 + TAG_LEN));
      space ← lift (usize_sub space TAG_LEN);
      if space <? length buf then lift initial_too_large
      else
        header ← lift (request_header now (length buf));
        _ ← map_err "failed to encrypt response header" (encrypt_single header false);
        _ ← map_err "failed to encrypt initial client packet" (encrypt_single buf false);
        mret (length buf)
  end.

(** [is_initial_write = false] *)
Definition written_first : M unit := modify (λ this, set_flags (is_initial_read this) false (is_eof this) this).

(** [if let Err(e) = this.do_write_cache(cx) { return Err(e) }] *)
Definition push_out (n : nat) this : Poll (outcome nat) * ShadowsocksStream A S :=
  let '(r, this) := (_ ← do_write_cache; mret n) this in (Ready r, this).

(** The space for data left in the cache, after writing it out if it is full;
    [None] when the transport parks. *)
Definition make_space this : outcome (option nat) * ShadowsocksStream A S :=
  match usize_sub (max_packet_len this) (cache_len this) with
  | Ok space =>
      if space <=? METADATA_SIZE then
        match do_write_cache this with
        | (Ok true, this) =>
            if (write_cache_start_offset (outb this) =? 0) && (cache_len this =? 0)
            then (Ok (Some (max_packet_len this)), this) else (Panic, this)
        | (Ok false, this) => (Ok None, this)
        | (Err e, this) => (Err e, this)
        | (Panic, this) => (Panic, this)
        end
      else (Ok (Some space), this)
  | _ => (Panic, this)
  end.

Definition poll_write_ (now : Z) (buf : bytes) this : Poll (outcome nat) * ShadowsocksStream A S :=
  if length buf =? 0 then (Ready (Ok 0), this)
  else if is_initial_write this then
    match (handled_len ← process_write_header now buf;
           len ← gets cache_len;
           if (handled_len =? 0) || (len =? 0) then lift initial_too_large
           else _ ← written_first; mret handled_len) this with
    | (Ok handled_len, this) => push_out handled_len this
    | (Err e, this) => (Ready (Err e), this)
    | (Panic, this) => (Ready Panic, this)
    end
  else
    match make_space this with
    | (Ok (Some space), this) =>
        let packet_data_size := Nat.min (Nat.min (length buf) (space - METADATA_SIZE)) (max_payload_len (stream_type this)) in
        match map_err "failed to encrypt packet" (encrypt_single (take packet_data_size buf) true) this with
        | (Ok _, this) => push_out packet_data_size this
        | (Err e, this) => (Ready (Err e), this)
        | (Panic, this) => (Ready Panic, this)
        end
    | (Ok None, this) => (Pending, this)
    | (Err e, this) => (Ready (Err e), this)
    | (Panic, this) => (Ready Panic, this)
    end.

Definition poll_flush_ this : Poll (outcome unit) * ShadowsocksStream A S :=
  match poll_flush_cache this with
  | (Ready (Ok _), this) => let '(p, s) := poll_flush (stream this) in (Messages.poll_outcome p, set_stream s this)
  | r => r
  end.

Definition poll_shutdown_ this : Poll (outcome unit) * ShadowsocksStream A S :=
  match poll_flush_ this with
  | (Ready (Ok _), this) => let '(p, s) := poll_shutdown (stream this) in (Messages.poll_outcome p, set_stream s this)
  | r => r
  end.

(** [poll_write_message] after the first *)
Definition write_message (buf : bytes) this : Poll (outcome unit) * ShadowsocksStream A S :=
  let packet_size := length buf + METADATA_SIZE in
  let seal this :=
    let '(r, this) := map_err "failed to encrypt packet" (encrypt_single buf true) this in (Ready r, this) in
  match usize_sub (max_packet_len this) (cache_len this) with
  | Ok space =>
      if max_packet_len this <? packet_size then (Ready message_too_large, this)
      else if space <? packet_size then
        match poll_flush_cache this with
        | (Ready (Ok _), this) =>
            match usize_sub (max_packet_len this) (cache_len this) with
            | Ok space => if space <? packet_size then (Pending, this) else seal this
            | _ => (Ready Panic, this)
            end
        | r => r
        end
      else seal this
  | _ => (Ready Panic, this)
  end.

Definition poll_write_message (now : Z) (buf : bytes) this : Poll (outcome unit) * ShadowsocksStream A S :=
  if length buf =? 0 then (Ready (Ok tt), this)
  else if max_payload_len (stream_type this) <? length buf then (Ready message_too_large, this)
  else if is_initial_write this then
    let '(r, this) :=
      (handled_len ← process_write_header now buf;
       if negb (handled_len =? length buf) then lift initial_too_large
       else written_first) this in
    (Ready r, this)
  else write_message buf this.

(** [try_decrypt_aead_length]: the length of the first chunk under one user's key;
    the session key is written to [MAX_SESSION_KEY_LEN] bytes. *)
Definition try_decrypt_aead_length (a : ShadowsocksAeadAlgorithm A) (key : bytes → bytes) (salt encrypted_length : bytes)
    (max_payload_len : nat) : outcome nat :=
  if negb (length encrypted_length =? 2 + TAG_LEN) then err InvalidInput "invalid encrypted length chunk size"
  else if MAX_SESSION_KEY_LEN <? length (key salt) then
    err InvalidInput "Shadowsocks session key is longer than the largest supported AEAD key"
  else
    opening_key ← key_new a (key salt);
    let '(r, chunk, _) := open_in_place opening_key encrypted_length in
    match r with
    | Ok _ =>
        hi ← index chunk 0;
        lo ← index chunk 1;
        let len := be_usize hi lo in
        if max_payload_len <? len then err InvalidData "data length larger than max allowed size" else Ok len
    | Err _ => err InvalidData "open failed"
    | Panic => Panic
    end.

End stream.
End Shadowsocks.
