(* ===== verification/ShadowsocksFacts.v ===== *)
(** * Shadowsocks streams: nonces, chunks and buffers

    Nonces count; what a run of seals puts on the wire ([wire]); opening as a
    function of the bytes alone ([spec_decrypt], [spec_header]), which the code
    on its buffer refines whatever the allocator and the offsets do; the room a
    read of the transport is given; and what a write appends. *)
From S2P Require Import Prelude Buf SlideBuffer UotAddr Stream Messages SaltChecker Shadowsocks.

Module ShadowsocksFacts.
Import Stream Uot Shadowsocks.

(** ** Nonces *)
Definition nonce (n : nat) : bytes := le_encode NONCE_LEN (Z.of_nat n).

Lemma be_encode_snoc n z : be_encode (S n) z = be_encode n (z / 256) ++ [(z mod 256)%Z].
Proof.
  induction n as [|n IH].
  - cbn. by rewrite Z.div_1_r.
  - change (be_encode (S (S n)) z) with ((z / 256 ^ Z.of_nat (S n)) mod 256 :: be_encode (S n) z)%Z.
    rewrite IH. cbn [be_encode app]. f_equal. f_equal.
    rewrite Z.div_div by lia. f_equal. rewrite Nat2Z.inj_succ, Z.pow_succ_r by lia. done.
Qed.

Lemma le_encode_S n z : le_encode (S n) z = (z mod 256)%Z :: le_encode n (z / 256).
Proof. unfold le_encode. by rewrite be_encode_snoc, reverse_app. Qed.

Lemma increment_le n z : increment (le_encode n z) = le_encode n (z + 1).
Proof.
  revert z. induction n as [|n IH]; intros z; [done|]. rewrite !le_encode_S. cbn [increment].
  unfold wrap. change (2 ^ 8)%Z with 256%Z. rewrite Zplus_mod_idemp_l.
  pose proof (Z.div_mod z 256 ltac:(lia)) as Hz. pose proof (Z.div_mod (z + 1) 256 ltac:(lia)) as Hz'.
  pose proof (Z.mod_pos_bound z 256 ltac:(lia)) as Hb. pose proof (Z.mod_pos_bound (z + 1) 256 ltac:(lia)) as Hb'.
  destruct (0 <? (z + 1) mod 256)%Z eqn:E; to_prop; f_equal.
  - f_equal. lia.
  - rewrite IH. f_equal. lia.
Qed.

Lemma seq_new_nonce : seq_new = nonce 0.
Proof. done. Qed.
Lemma increment_nonce n : increment (nonce n) = nonce (S n).
Proof. unfold nonce. rewrite increment_le. f_equal. lia. Qed.

(** Up to [2 ^ 96] of them differ. *)
Lemma nonce_inj n m : (Z.of_nat n < 2 ^ 96)%Z → (Z.of_nat m < 2 ^ 96)%Z → nonce n = nonce m → n = m.
Proof.
  intros Hn Hm Heq. apply (f_equal le_decode) in Heq. unfold nonce in Heq.
  rewrite !le_decode_encode_small in Heq; [lia| |]; change (256 ^ Z.of_nat NONCE_LEN)%Z with (2 ^ 96)%Z; lia.
Qed.

(** ** Sealing *)
Section sealing.
Context {A : Type} `{Aead A, !AeadLaws A}.
Implicit Types a : ShadowsocksAeadAlgorithm A.

(** A key that has been used [n] times *)
Definition key_at a (k : bytes) (n : nat) : CipherKey A := mkKey a k (nonce n).

Definition sealed a (k : bytes) (n : nat) (data : bytes) : bytes :=
  match seal a k (nonce n) data with Some (c, t) => c ++ t | None => [] end.

(** What sealing [parts] one after the other puts on the wire *)
Fixpoint wire a (k : bytes) (n : nat) (parts : list bytes) : bytes :=
  match parts with
  | [] => []
  | p :: parts => sealed a k n p ++ wire a k (S n) parts
  end.

Lemma wire_parts_app a k n ps qs : wire a k n (ps ++ qs) = wire a k n ps ++ wire a k (n + length ps) qs.
Proof.
  revert n. induction ps as [|p ps IH]; intros n; cbn [app wire length]; [by rewrite Nat.add_0_r|].
  rewrite IH, <- app_assoc. by rewrite Nat.add_succ_r.
Qed.

Definition small (data : bytes) : Prop := length data ≤ N.to_nat 65536.

Lemma seal_cases a k n data : small data →
  ∃ c t, seal a k n data = Some (c, t) ∧ length c = length data ∧ length t = TAG_LEN.
Proof. intros [[c t] Hs]%(seal_total a k n). exists c, t. split; [done|]. by apply seal_length in Hs. Qed.

Lemma length_sealed a k n data : small data → length (sealed a k n data) = length data + TAG_LEN.
Proof. intros (c & t & Hs & Hc & Ht)%(seal_cases a k (nonce n)). unfold sealed. rewrite Hs, length_app. lia. Qed.

Lemma seal_spec a k n data : small data →
  ∃ c t, seal_in_place_separate_tag (key_at a k n) data = (Ok (c, t), key_at a k (S n)) ∧
    c ++ t = sealed a k n data ∧ length c = length data.
Proof.
  intros (c & t & Hs & Hc & Ht)%(seal_cases a k (nonce n)). exists c, t.
  unfold seal_in_place_separate_tag, key_advance, advance_bytes, sealed, key_at. cbn -[nonce increment].
  by rewrite increment_nonce, Hs, Ht.
Qed.

(** Opening advances the nonce and keeps the length. *)
Lemma open_spec a k n buf : TAG_LEN ≤ length buf →
  open_in_place (key_at a k n) buf =
    (if (open a k (nonce n) buf).1 then Ok tt else err InvalidData "open failed", (open a k (nonce n) buf).2, key_at a k (S n)).
Proof.
  intros Hl. unfold open_in_place, key_advance, advance_bytes, key_at. cbn -[nonce increment Nat.ltb TAG_LEN]. rewrite increment_nonce.
  destruct a; [|rewrite (proj2 (Nat.ltb_ge _ _) Hl)]; by destruct (open _ k (nonce n) buf).
Qed.

Lemma open_sealed a k n data : small data → bytes_ok data →
  ∃ rest, open a k (nonce n) (sealed a k n data) = (true, data ++ rest) ∧ length rest = TAG_LEN.
Proof.
  intros Hsm Hb. destruct (seal_cases a k (nonce n) data Hsm) as (c & t & Hs & Hc & Ht).
  pose proof (open_seal _ _ _ _ _ _ Hb Hs) as [Ho Htk]. pose proof (open_length a k (nonce n) (c ++ t)) as Hl.
  unfold sealed. rewrite Hs. destruct (open a k (nonce n) (c ++ t)) as [ok buf]. cbn in *. subst ok.
  exists (drop (length data) buf). split; [f_equal; rewrite <- (take_drop (length data) buf) at 1; by rewrite Htk|].
  rewrite length_drop, Hl, length_app. lia.
Qed.
End sealing.


(** ** Buffers *)
Lemma length_overwrite i bs v : i + length bs ≤ vlen v → vlen (vec_overwrite i bs v) = vlen v.
Proof. intros Hi. cbn. rewrite !length_app, length_take, length_drop. lia. Qed.
Lemma drop_overwrite i bs v : i + length bs ≤ vlen v →
  drop (i + length bs) (vdata (vec_overwrite i bs v)) = drop (i + length bs) (vdata v).
Proof.
  intros Hi. cbn. rewrite app_assoc, drop_app_length'; [done|]. rewrite length_app, length_take. lia.
Qed.
Lemma read_overwrite i bs v : i + length bs ≤ vlen v →
  take (length bs) (drop i (vdata (vec_overwrite i bs v))) = bs.
Proof.
  intros Hi. cbn. rewrite drop_app_length' by (rewrite length_take; lia). by rewrite take_app_length.
Qed.

(** What has arrived and is not opened, and what is opened and not handed out *)
Definition undecrypted (i : inbound) : bytes := drop (unprocessed_start_offset i) (vdata (unprocessed_buf i)).
Definition plain (i : inbound) : bytes :=
  take (plaintext_end i - plaintext_start i) (drop (plaintext_start i) (vdata (unprocessed_buf i))).

Record in_ok (i : inbound) : Prop := {
  io_start : unprocessed_start_offset i ≤ vlen (unprocessed_buf i);
  io_cap : vlen (unprocessed_buf i) ≤ vcap (unprocessed_buf i);
  io_plain : has_plaintext i = true → plaintext_end i ≤ unprocessed_start_offset i }.

Lemma has_plain i : in_ok i → has_plaintext i = negb (length (plain i) =? 0).
Proof.
  intros [Hs Hc Hp]. unfold has_plaintext, plain in *. rewrite length_take, length_drop.
  destruct (plaintext_start i <? plaintext_end i) eqn:E; to_prop.
  - specialize (Hp eq_refl). rewrite (proj2 (Nat.eqb_neq _ _)); [done|lia].
  - rewrite (proj2 (Nat.eqb_eq _ _)); [done|lia].
Qed.

Lemma plain_none i : has_plaintext i = false → plain i = [].
Proof. unfold has_plaintext, plain. intros ?. to_prop. by rewrite (proj2 (Nat.sub_0_le _ _)) by lia. Qed.

Lemma discard_ok i : in_ok i →
  in_ok (discard_consumed_unprocessed i) ∧ undecrypted (discard_consumed_unprocessed i) = undecrypted i ∧
  plain (discard_consumed_unprocessed i) = plain i ∧
  unprocessed_pending_len (discard_consumed_unprocessed i) = unprocessed_pending_len i ∧
  vcap (unprocessed_buf (discard_consumed_unprocessed i)) = vcap (unprocessed_buf i).
Proof.
  intros Hok. unfold discard_consumed_unprocessed. destruct (has_plaintext i) eqn:Ep; [done|]. cbn [negb andb].
  destruct (_ =? _) eqn:E; [|done]. to_prop. destruct Hok. split_and!; try done.
  - split; cbn -[has_plaintext]; rewrite ?firstn_O; cbn -[has_plaintext]; [lia..|]. intros Hp. change (has_plaintext i = true) in Hp. congruence.
  - unfold undecrypted. cbn. by rewrite E, drop_all, firstn_O.
  - rewrite !plain_none by done. done.
Qed.

(** Reading plaintext hands out its front. *)
Lemma read_plaintext_ok remaining i : in_ok i → has_plaintext i = true →
  ∃ i', read_plaintext remaining i = Ok (take remaining (plain i), i') ∧ in_ok i' ∧ plain i' = drop remaining (plain i) ∧
    undecrypted i' = undecrypted i ∧ unprocessed_pending_len i' = unprocessed_pending_len i ∧
    vcap (unprocessed_buf i') = vcap (unprocessed_buf i) ∧
    unprocessed_high_water i' = unprocessed_high_water i ∧ unprocessed_reacquire_size i' = unprocessed_reacquire_size i.
Proof.
  intros Hok Hp. destruct Hok as [Hs Hc Hpl]. specialize (Hpl Hp). pose proof Hp as Hp'. unfold has_plaintext in Hp'. to_prop.
  unfold read_plaintext, usize_sub. rewrite (proj2 (Nat.leb_le _ _)) by lia. cbn [mbind outcome_bind].
  set (w := Nat.min remaining (plaintext_end i - plaintext_start i)).
  assert (Hw : w ≤ plaintext_end i - plaintext_start i) by lia.
  rewrite slice_Ok by lia. cbn [mbind outcome_bind].
  replace (plaintext_start i + w - plaintext_start i) with w by lia.
  assert (Ht : take w (drop (plaintext_start i) (vdata (unprocessed_buf i))) = take remaining (plain i)).
  { unfold plain. rewrite take_take. done. }
  rewrite Ht. set (i1 := set_plaintext _ _ i).
  assert (Hok1 : in_ok i1) by (split; cbn; [done|done|lia]).
  assert (Hpl1 : plain i1 = drop remaining (plain i)).
  { unfold plain. cbn [i1 set_plaintext plaintext_end plaintext_start unprocessed_buf].
    rewrite skipn_firstn_comm, drop_drop. unfold w.
    destruct (Nat.le_gt_cases remaining (plaintext_end i - plaintext_start i)) as [Hr|Hr].
    - rewrite Nat.min_l by lia. f_equal. lia.
    - rewrite Nat.min_r by lia. replace (_ - (_ + _)) with 0 by lia. by replace (_ - _ - remaining) with 0 by lia. }
  destruct (has_plaintext i1) eqn:E1; cbn [negb].
  - exists i1. split_and!; done.
  - assert (Hok2 : in_ok (set_plaintext 0 0 i1)) by (split; cbn; [done|done|intros [=]]).
    destruct (discard_ok _ Hok2) as (? & Hu & Hpl2 & Hpe & Hcap).
    exists (discard_consumed_unprocessed (set_plaintext 0 0 i1)). rewrite Hpl2, <- Hpl1, (plain_none i1) by done.
    split_and!; try done; unfold discard_consumed_unprocessed; by destruct (_ && _).
Qed.

(** ** Opening, as a function of the bytes *)

Lemma io_bind_Ok {T X Y} (m : io T X) (f : X → io T Y) x a x' : m x = (Ok a, x') → (m ≫= f) x = f a x'.
Proof. unfold mbind, io_bind. by intros ->. Qed.
Lemma io_bind_Err {T X Y} (m : io T X) (f : X → io T Y) x e x' : m x = (Err e, x') → (m ≫= f) x = (Err e, x').
Proof. unfold mbind, io_bind. by intros ->. Qed.

(** Runs a program of [io] up to the next call. *)
Ltac run_m :=
  unfold modify_in, modify_out, modify, gets, lift, mret, io_ret, mbind, io_bind; cbv beta iota zeta.

Lemma be_usize_eq hi lo : be_usize hi lo = Z.to_nat (256 * wrap 8 hi + wrap 8 lo).
Proof.
  assert (Hd : Z.land (Z.shiftl (wrap 8 hi) 8) (wrap 8 lo) = 0%Z).
  { apply Z.bits_inj'. intros n Hn. rewrite Z.land_spec, Z.bits_0. destruct (Z.lt_ge_cases n 8).
    - by rewrite Z.shiftl_spec_low.
    - unfold wrap. rewrite (Z.mod_pow2_bits_high lo) by lia. apply andb_false_r. }
  unfold be_usize. f_equal. rewrite <- Z.lxor_lor, <- Z.add_nocarry_lxor, Z.shiftl_mul_pow2 by (done || lia). lia.
Qed.
Lemma be_usize_le hi lo : be_usize hi lo ≤ N.to_nat 65535.
Proof.
  rewrite be_usize_eq. unfold wrap. change (2 ^ 8)%Z with 256%Z.
  pose proof (Z.mod_pos_bound hi 256 ltac:(lia)). pose proof (Z.mod_pos_bound lo 256 ltac:(lia)). lia.
Qed.

Definition len_of (buf : bytes) : nat := be_usize (buf !!! 0) (buf !!! 1).

Section opening.
Context (debug : bool).
Context {A S C : Type} `{Aead A, !AeadLaws A, AsyncStream S, SaltChecker C, !Alloc}.
Implicit Types this : ShadowsocksStream A S.

(** The data of a chunk of [l] bytes: the plaintext, [None] if it is not all
    there; the nonces used; the length that is awaited; the bytes left. *)
Definition spec_data a k n l und : outcome (option bytes * nat * option nat * bytes) :=
  if length und <? l + TAG_LEN then Ok (None, n, Some l, und)
  else
    let '(ok, buf) := open a k (nonce n) (take (l + TAG_LEN) und) in
    if ok : bool then Ok (Some (take l buf), Datatypes.S n, None, drop (l + TAG_LEN) und)
    else err InvalidData "open failed for data".

Definition spec_decrypt (max : nat) a k n pend und : outcome (option bytes * nat * option nat * bytes) :=
  match pend with
  | Some l => spec_data a k n l und
  | None =>
      if length und <? 2 + TAG_LEN then Ok (None, n, None, und)
      else
        let '(ok, buf) := open a k (nonce n) (take (2 + TAG_LEN) und) in
        if ok : bool then
          if max <? len_of buf then err InvalidData "data length larger than max allowed size"
          else spec_data a k (Datatypes.S n) (len_of buf) (drop (2 + TAG_LEN) und)
        else err InvalidData "open failed for length"
  end.

(** Opening a range of the buffer whose bytes are known *)
Lemma open_or_spec x i j msg this a k n :
  opening_key this = Some (key_at a k n) → slice (vdata (unprocessed_buf (inb this))) i j = Ok x → TAG_LEN ≤ length x →
  open_or i j msg this =
    (if (open a k (nonce n) x).1 then Ok tt else err InvalidData msg,
     set_opening (Some (key_at a k (Datatypes.S n))) (set_buf (vec_overwrite i (open a k (nonce n) x).2 (unprocessed_buf (inb this))) (inb this)) this).
Proof.
  intros Hk Hs Hl. unfold open_or, open_range. run_m. rewrite Hk, Hs, open_spec by done.
  by destruct (open a k (nonce n) x).1.
Qed.

Lemma read_len_spec i buf this :
  take 2 (drop i (vdata (unprocessed_buf (inb this)))) = take 2 buf → 2 ≤ length buf → read_len i this = (Ok (len_of buf), this).
Proof.
  intros Ht Hl. destruct buf as [|hi [|lo buf]]; cbn in Hl; [lia..|]. cbn in Ht.
  destruct (drop i _) as [|hi' [|lo' rest]] eqn:E; cbn in Ht; simplify_eq.
  assert (Hi : vdata (unprocessed_buf (inb this)) !! i = Some hi) by (rewrite <- (Nat.add_0_r i), <- lookup_drop, E; done).
  assert (Hi' : vdata (unprocessed_buf (inb this)) !! (i + 1) = Some lo) by (rewrite <- lookup_drop, E; done).
  unfold read_len, index. run_m. rewrite Hi, Hi'. done.
Qed.

(** [i'] is [i] after some opening: its plaintext, the length awaited, the bytes left *)
Record becomes (i i' : inbound) (d : bytes) (pend : option nat) (und : bytes) : Prop := {
  bc_ok : in_ok i';
  bc_plain : plain i' = d;
  bc_pend : unprocessed_pending_len i' = pend;
  bc_und : undecrypted i' = und;
  bc_cap : vcap (unprocessed_buf i') = vcap (unprocessed_buf i);
  bc_high : unprocessed_high_water i' = unprocessed_high_water i;
  bc_reacquire : unprocessed_reacquire_size i' = unprocessed_reacquire_size i }.

Lemma discard_becomes i j d pend und : becomes i j d pend und → becomes i (discard_consumed_unprocessed j) d pend und.
Proof.
  intros [Hok]. destruct (discard_ok _ Hok) as (? & ? & ? & ? & ?). split; try congruence;
    unfold discard_consumed_unprocessed; by destruct (_ && _).
Qed.

Lemma open_data_refines this a k n l :
  in_ok (inb this) → has_plaintext (inb this) = false → opening_key this = Some (key_at a k n) →
  unprocessed_pending_len (inb this) = None → l + TAG_LEN ≤ length (undecrypted (inb this)) →
  match spec_data a k n l (undecrypted (inb this)) with
  | Ok (d, n', pend, und) =>
      ∃ i', open_data l this = (Ok Success, set_opening (Some (key_at a k n')) i' this) ∧ becomes (inb this) i' (default [] d) pend und ∧ is_Some d
  | Err e => ∃ i', open_data l this = (Err e, set_opening (Some (key_at a k (Datatypes.S n))) i' this) ∧ in_ok i' ∧ plain i' = [] ∧
      unprocessed_pending_len i' = None
  | Panic => False
  end.
Proof.
  intros [Hs Hc _] Hp Hk Hpe Hl. set (i := inb this) in *. set (st := unprocessed_start_offset i) in *.
  unfold undecrypted in Hl. fold st in Hl. rewrite length_drop in Hl.
  set (x := take (l + TAG_LEN) (undecrypted i)). assert (Hx : length x = l + TAG_LEN).
  { unfold x, undecrypted. rewrite length_take, length_drop. fold st. lia. }
  assert (Hsl : slice (vdata (unprocessed_buf i)) st (st + (l + TAG_LEN)) = Ok x).
  { rewrite slice_Ok by lia. by replace (_ - st) with (l + TAG_LEN) by lia. }
  unfold spec_data. rewrite (proj2 (Nat.ltb_ge _ _)) by (unfold undecrypted; fold st; rewrite length_drop; lia). fold x.
  pose proof (open_length a k (nonce n) x) as Hol. rewrite Hx in Hol.
  unfold open_data. run_m. fold i st. rewrite (open_or_spec x _ _ _ _ a k n) by (done || lia). fold i.
  destruct (open a k (nonce n) x) as [ok buf]. cbn [fst snd] in *.
  pose proof (length_overwrite st buf (unprocessed_buf i) ltac:(lia)) as Hlo.
  pose proof (drop_overwrite st buf (unprocessed_buf i) ltac:(lia)) as Hdo.
  pose proof (read_overwrite st buf (unprocessed_buf i) ltac:(lia)) as Hro.
  destruct ok.
  - set (i1 := set_start (st + (l + TAG_LEN)) (set_plaintext st (st + l) (set_buf (vec_overwrite st buf (unprocessed_buf i)) i))).
    assert (Hb : becomes i i1 (take l buf) None (drop (l + TAG_LEN) (undecrypted i))).
    { split; try done.
      - split; cbn [i1 set_start set_plaintext set_buf unprocessed_buf unprocessed_start_offset plaintext_end]; [lia| |lia].
        rewrite Hlo. exact Hc.
      - unfold plain. cbn [i1 set_start set_plaintext set_buf unprocessed_buf plaintext_end plaintext_start].
        replace (st + l - st) with (Nat.min l (length buf)) by lia. rewrite <- take_take, Hro. done.
      - unfold undecrypted. cbn [i1 set_start set_plaintext set_buf unprocessed_buf unprocessed_start_offset].
        rewrite drop_drop. fold st. rewrite <- Hol. exact Hdo. }
    exists (if negb (has_plaintext i1) then discard_consumed_unprocessed i1 else i1). split; [done|]. split; [|by eauto].
    destruct (negb _); [by apply discard_becomes|done].
  - eexists. split; [done|]. split; [|split; [by apply plain_none|done]].
    split; cbn [set_buf unprocessed_buf unprocessed_start_offset plaintext_end].
    + rewrite Hlo. exact Hs.
    + rewrite Hlo. exact Hc.
    + intros Hp'. change (has_plaintext i = true) in Hp'. congruence.
Qed.

(** What is left once a refused chunk has spoiled the buffer *)
Definition spoiled (i : inbound) : Prop := in_ok i ∧ plain i = [].

Lemma set_opening_twice k1 i1 k2 i2 this : set_opening k2 i2 (set_opening k1 i1 this) = set_opening k2 i2 this.
Proof. done. Qed.

(** The length in front of a chunk *)
Lemma open_len_refines this a k n :
  in_ok (inb this) → has_plaintext (inb this) = false → opening_key this = Some (key_at a k n) →
  unprocessed_pending_len (inb this) = None → 2 + TAG_LEN ≤ length (undecrypted (inb this)) →
  let x := take (2 + TAG_LEN) (undecrypted (inb this)) in
  let st := unprocessed_start_offset (inb this) in
  let r := open a k (nonce n) x in
  ∃ i', open_or st (st + (2 + TAG_LEN)) "open failed for length" this =
      (if r.1 then Ok tt else err InvalidData "open failed for length", set_opening (Some (key_at a k (Datatypes.S n))) i' this) ∧
    spoiled i' ∧ unprocessed_start_offset i' = st ∧
    read_len st (set_opening (Some (key_at a k (Datatypes.S n))) i' this) =
      (Ok (len_of r.2), set_opening (Some (key_at a k (Datatypes.S n))) i' this) ∧
    becomes (inb this) (set_start (st + (2 + TAG_LEN)) i') [] None (drop (2 + TAG_LEN) (undecrypted (inb this))).
Proof.
  intros [Hs Hc Hpl] Hp Hk Hpe Hl x st r. set (i := inb this) in *.
  unfold undecrypted in Hl. fold st in Hl. rewrite length_drop in Hl.
  assert (Hx : length x = 2 + TAG_LEN) by (unfold x, undecrypted; rewrite length_take, length_drop; fold st; lia).
  assert (Hsl : slice (vdata (unprocessed_buf i)) st (st + (2 + TAG_LEN)) = Ok x).
  { rewrite slice_Ok by lia. by replace (_ - st) with (2 + TAG_LEN) by lia. }
  assert (Hol : length r.2 = 2 + TAG_LEN) by (unfold r; by rewrite open_length).
  pose proof (length_overwrite st r.2 (unprocessed_buf i) ltac:(lia)) as Hlo.
  pose proof (drop_overwrite st r.2 (unprocessed_buf i) ltac:(lia)) as Hdo.
  pose proof (read_overwrite st r.2 (unprocessed_buf i) ltac:(lia)) as Hro.
  rewrite (open_or_spec x _ _ _ _ a k n) by (done || lia). fold i r.
  eexists. split; [reflexivity|]. split; [|split; [done|split]].
  - split; [|by apply plain_none]. split; cbn [set_buf unprocessed_buf unprocessed_start_offset plaintext_end].
    + rewrite Hlo. exact Hs.
    + rewrite Hlo. exact Hc.
    + intros Hp'. change (has_plaintext i = true) in Hp'. congruence.
  - apply read_len_spec; [|lia]. cbn [inb set_opening set_buf unprocessed_buf].
    replace 2 with (Nat.min 2 (length r.2)) at 1 by lia. by rewrite <- take_take, Hro.
  - split; try done.
    + split; cbn [set_start set_buf unprocessed_buf unprocessed_start_offset plaintext_end]; rewrite ?Hlo; [lia|exact Hc|].
      intros Hp'. change (has_plaintext i = true) in Hp'. congruence.
    + by apply plain_none.
    + unfold undecrypted. cbn [set_start set_buf unprocessed_buf unprocessed_start_offset].
      rewrite drop_drop. fold st. rewrite <- Hol. exact Hdo.
Qed.

Lemma becomes_trans i j l d pend und d' pend' und' :
  becomes i j d pend und → becomes j l d' pend' und' → becomes i l d' pend' und'.
Proof. intros [] []. split; congruence. Qed.

(** What [try_decrypt] does is a function of the bytes that have arrived. *)
Definition decrypts this (r : outcome (option bytes * nat * option nat * bytes)) a k : Prop :=
  match r with
  | Ok (d, n', pend, und) =>
      ∃ i', try_decrypt debug this =
          (Ok (match d with Some _ => Success | None => NeedData end), set_opening (Some (key_at a k n')) i' this) ∧
        becomes (inb this) i' (default [] d) pend und
  | Err e => ∃ n' i', try_decrypt debug this = (Err e, set_opening (Some (key_at a k n')) i' this) ∧ spoiled i'
  | Panic => False
  end.

Lemma set_opening_id this k : opening_key this = k → set_opening k (inb this) this = this.
Proof. intros <-. by destruct this. Qed.

Lemma try_decrypt_eq this : has_plaintext (inb this) = false →
  try_decrypt debug this =
    match next_len this with
    | (Ok None, this) => (Ok NeedData, this)
    | (Ok (Some l), this) => open_data l this
    | (Err e, this) => (Err e, this)
    | (Panic, this) => (Panic, this)
    end.
Proof.
  intros Hp. unfold try_decrypt. run_m. rewrite Hp. unfold debug_assert. rewrite andb_false_r.
  by destruct (next_len this) as [[[l|]|e|] this'].
Qed.

(** The data, when its length is known *)
Lemma decrypt_data_refines this i a k n l :
  becomes (inb this) i [] None (undecrypted i) → l + TAG_LEN ≤ length (undecrypted i) →
  (∀ r, try_decrypt debug this = r ↔ open_data l (set_opening (Some (key_at a k n)) i this) = r) →
  decrypts this (spec_data a k n l (undecrypted i)) a k.
Proof.
  intros Hb Hl Heq. pose proof Hb as [Hok Hpl Hpe _ _ _ _].
  assert (Hp : has_plaintext i = false) by (rewrite has_plain, Hpl by done; done).
  pose proof (open_data_refines (set_opening (Some (key_at a k n)) i this) a k n l Hok Hp eq_refl Hpe Hl) as Hd.
  cbn [inb set_opening] in Hd. unfold decrypts.
  destruct (spec_data a k n l (undecrypted i)) as [[[[d n'] pend] und]|e|] eqn:E; [| |done].
  - destruct Hd as (i' & Hd & Hb' & [d' ->]). exists i'. split; [by apply Heq|]. by eapply becomes_trans.
  - destruct Hd as (i' & Hd & Hok' & Hpl' & _). exists (Datatypes.S n), i'. split; [by apply Heq|done].
Qed.

Lemma try_decrypt_refines this a k n :
  in_ok (inb this) → has_plaintext (inb this) = false → opening_key this = Some (key_at a k n) →
  decrypts this (spec_decrypt (max_payload_len (stream_type this)) a k n (unprocessed_pending_len (inb this)) (undecrypted (inb this))) a k.
Proof.
  intros Hok Hp Hk. pose proof Hok as [Hs Hc _].
  assert (Hav : usize_sub (vlen (unprocessed_buf (inb this))) (unprocessed_start_offset (inb this)) = Ok (length (undecrypted (inb this)))).
  { unfold usize_sub, undecrypted. rewrite length_drop. by rewrite (proj2 (Nat.leb_le _ _)). }
  assert (Hsame : becomes (inb this) (inb this) [] (unprocessed_pending_len (inb this)) (undecrypted (inb this))).
  { split; try done. by apply plain_none. }
  pose proof (try_decrypt_eq this Hp) as Heq. unfold spec_decrypt. unfold next_len in Heq.
  rewrite (io_bind_Ok (gets inb) _ _ _ _ eq_refl), (io_bind_Ok (lift _) _ this _ this (f_equal (λ r, (r, this)) Hav)) in Heq.
  destruct (unprocessed_pending_len (inb this)) as [l|] eqn:Epe.
  - destruct (length (undecrypted (inb this)) <? l + TAG_LEN) eqn:E.
    + unfold spec_data. rewrite E. exists (inb this). split; [|done]. rewrite Heq, set_opening_id by done. done.
    + to_prop. set (i := set_pending None (inb this)).
      assert (Hi : becomes (inb this) i [] None (undecrypted i)) by (split; try done; [split|by apply plain_none]; by apply Hok).
      apply (decrypt_data_refines this i); [done|done|]. intros r. rewrite Heq. unfold modify_in, modify, set_in. run_m. by rewrite Hk.
  - destruct (length (undecrypted (inb this)) <? 2 + TAG_LEN) eqn:E.
    + exists (inb this). split; [|done]. rewrite Heq, set_opening_id by done. done.
    + to_prop. destruct (open_len_refines this a k n Hok Hp Hk Epe E) as (i' & Ho & Hsp & Hst & Hrl & Hb).
      set (st := unprocessed_start_offset (inb this)) in *. set (x := take (2 + TAG_LEN) (undecrypted (inb this))) in *.
      destruct (open a k (nonce n) x) as [ok buf]. cbn [fst snd] in *.
      destruct ok; [|rewrite (io_bind_Err _ _ _ _ _ Ho) in Heq; by exists (Datatypes.S n), i'].
      rewrite (io_bind_Ok _ _ _ _ _ Ho), (io_bind_Ok _ _ _ _ _ Hrl), (io_bind_Ok (gets stream_type) _ _ _ _ eq_refl) in Heq.
      cbn [stream_type set_opening] in Heq.
      destruct (max_payload_len (stream_type this) <? len_of buf) eqn:Em; [by exists (Datatypes.S n), i'|].
      rewrite (io_bind_Ok (modify_in _) _ _ _ _ eq_refl) in Heq. unfold set_in in Heq. cbn [inb set_opening opening_key] in Heq.
      rewrite set_opening_twice in Heq. pose proof Hb as [Hok2 Hpl2 Hpe2 Hu2 _ _ _].
      set (i2 := set_start (st + (2 + TAG_LEN)) i') in *. rewrite <- Hu2.
      replace (length (undecrypted (inb this)) - (2 + TAG_LEN)) with (length (undecrypted i2)) in Heq by (rewrite Hu2, length_drop; lia).
      destruct (length (undecrypted i2) <? len_of buf + TAG_LEN) eqn:E2.
      * unfold spec_data. rewrite E2. eexists. split; [exact Heq|]. apply discard_becomes. rewrite Hu2.
        destruct Hb. split; try done. by split; apply Hok2.
      * to_prop. apply (decrypt_data_refines this i2); [by rewrite Hu2|done|]. intros r. by rewrite Heq.
Qed.

(** ** The header *)
Notation checked chk salt checks := (if checks : bool then insert_and_check chk salt else (true, chk)).

(** Type and time of an opened header *)
Definition spec_fields (header_type : Z) (msg : string) (now : Z) (x : bytes) : outcome unit :=
  if negb (Z.eqb (x !!! 0) header_type) then err InvalidData msg
  else check_timestamp_freshness (be_decode (take 8 (drop 1 x))) now.

(** The header at the front of [g]: the session key, how often it has been used,
    the length awaited and the bytes behind the header *)
Definition spec_header t a (key : bytes → bytes) (n : nat) (checks : bool) (iv : bytes) (now : Z) (chk : C) (g : bytes)
    : outcome (bytes * nat * option nat * bytes) * C :=
  let salt := take n g in
  let k := key salt in
  let refused {X} (e : io_error) chk : outcome X * C := (Err e, chk) in
  let duplicate := IoError Other "got duplicate salt" in
  match t with
  | Aead_ =>
      let '(ok, chk) := checked chk salt checks in
      if ok then
        match key_new a k with
        | Ok _ => (Ok (k, 0, None, drop n g), chk)
        | Err e => refused e chk
        | Panic => (Panic, chk)
        end
      else refused duplicate chk
  | AEAD2022Server | AEAD2022Client =>
      let h := match t with AEAD2022Client => 11 + n | _ => 11 end in
      match key_new a k with
      | Ok _ =>
          let '(ok, x) := open a k (nonce 0) (take (h + TAG_LEN) (drop n g)) in
          if ok : bool then
            match (match t with AEAD2022Client => spec_fields 1 "invalid server header type" now x
                   | _ => spec_fields 0 "invalid client header type" now x end) with
            | Ok _ =>
                let '(ok, chk) := checked chk salt checks in
                if ok then
                  if (match t with AEAD2022Client => negb (bool_decide (take n (drop 9 x) = iv)) | _ => false end)
                  then refused (IoError InvalidData "server returned request salt does not match") chk
                  else (Ok (k, 1, Some (len_of (drop (h - 2) x)), drop (n + (h + TAG_LEN)) g), chk)
                else refused duplicate chk
            | Err e => refused e chk
            | Panic => (Panic, chk)
            end
          else refused (IoError InvalidData "open failed for fixed length request header") chk
      | Err e => refused e chk
      | Panic => (Panic, chk)
      end
  end.

Lemma on_stream_eq {X} (m : io (ShadowsocksStream A S) X) this (chk : C) r this' :
  m this = (r, this') → on_stream m (this, chk) = (r, (this', chk)).
Proof. unfold on_stream. by intros ->. Qed.

Lemma process_opening_key_spec this : salt_len this ≤ vlen (unprocessed_buf (inb this)) →
  process_opening_key this =
    match key_new (algorithm this) (key this (take (salt_len this) (vdata (unprocessed_buf (inb this))))) with
    | Ok k => (Ok tt, set_opening (Some k) (inb this) this)
    | Err e => (Err e, this)
    | Panic => (Panic, this)
    end.
Proof. intros Hn. unfold process_opening_key. rewrite slice_Ok by lia. by rewrite Nat.sub_0_r. Qed.

Lemma key_new_at (a : ShadowsocksAeadAlgorithm A) k r : key_new a k = r →
  r = Ok (key_at a k 0) ∨ ∃ e, r = Err e.
Proof. unfold key_new. destruct (key_fits a k); intros <-; [by left|right; by eexists]. Qed.

Lemma check_salt_spec this chk : salt_len this ≤ vlen (unprocessed_buf (inb this)) →
  check_salt (this, chk) =
    let '(ok, chk') := checked chk (take (salt_len this) (vdata (unprocessed_buf (inb this)))) (salt_checker this) in
    (if ok then Ok tt else err Other "got duplicate salt", (this, chk')).
Proof.
  intros Hn. unfold check_salt. destruct (salt_checker this); [|done]. rewrite slice_Ok by lia. rewrite Nat.sub_0_r.
  by destruct (insert_and_check chk _).
Qed.

Lemma check_header_spec n x rest ty msg now this :
  drop n (vdata (unprocessed_buf (inb this))) = x ++ rest → 9 ≤ length x →
  check_header n ty msg now this = (spec_fields ty msg now x, this).
Proof.
  intros Hd Hx. set (buf := vdata (unprocessed_buf (inb this))) in *.
  assert (Hn : buf !! n = Some (x !!! 0)).
  { rewrite <- (Nat.add_0_r n), <- lookup_drop, Hd, lookup_app_l by lia. apply list_lookup_lookup_total_lt. lia. }
  assert (Hl : n + 9 ≤ length buf).
  { assert (length (drop n buf) = length x + length rest) by (rewrite Hd, length_app; lia). rewrite length_drop in *. lia. }
  unfold check_header, spec_fields, index. run_m. fold buf. rewrite Hn. cbn [expect]. destruct (negb _); [done|].
  rewrite slice_Ok by lia. replace (n + 9 - (n + 1)) with 8 by lia.
  rewrite <- drop_drop, Hd, drop_app_le, take_app_le by (rewrite ?length_drop; lia). done.
Qed.

(** A stream that waits for a header: nothing opened, nothing consumed *)
Record waiting (i : inbound) : Prop := {
  wt_ok : in_ok i;
  wt_plain : has_plaintext i = false;
  wt_start : unprocessed_start_offset i = 0;
  wt_pend : unprocessed_pending_len i = None }.

(** Opening the fixed part of a header of AEAD-2022 in place *)
Lemma open_header_refines this a k h :
  waiting (inb this) → salt_len this + (h + TAG_LEN) ≤ vlen (unprocessed_buf (inb this)) →
  let n := salt_len this in
  let g := vdata (unprocessed_buf (inb this)) in
  let r := open a k (nonce 0) (take (h + TAG_LEN) (drop n g)) in
  ∃ i', open_or n (n + h + TAG_LEN) "open failed for fixed length request header" (set_opening (Some (key_at a k 0)) (inb this) this) =
      (if r.1 then Ok tt else err InvalidData "open failed for fixed length request header", set_opening (Some (key_at a k 1)) i' this) ∧
    waiting i' ∧ vlen (unprocessed_buf i') = length g ∧ take n (vdata (unprocessed_buf i')) = take n g ∧
    drop n (vdata (unprocessed_buf i')) = r.2 ++ drop (n + (h + TAG_LEN)) g ∧ length r.2 = h + TAG_LEN ∧
    vcap (unprocessed_buf i') = vcap (unprocessed_buf (inb this)) ∧
    unprocessed_high_water i' = unprocessed_high_water (inb this) ∧ unprocessed_reacquire_size i' = unprocessed_reacquire_size (inb this).
Proof.
  intros [[Hs Hc Hpl] Hp Hst Hpe] Hl n g r. set (i := inb this) in *. set (x := take (h + TAG_LEN) (drop n g)) in *.
  assert (Hx : length x = h + TAG_LEN) by (unfold x; rewrite length_take, length_drop; unfold g; lia).
  assert (Hsl : slice g n (n + h + TAG_LEN) = Ok x).
  { rewrite slice_Ok by (unfold g, n; lia). by replace (_ - n) with (h + TAG_LEN) by lia. }
  assert (Hol : length r.2 = h + TAG_LEN) by (unfold r; by rewrite open_length).
  rewrite (open_or_spec x _ _ _ _ a k 0) by (done || lia). fold r. cbn [inb set_opening]. fold i.
  pose proof (length_overwrite n r.2 (unprocessed_buf i) ltac:(unfold n; lia)) as Hlo.
  eexists. split; [reflexivity|]. split_and!; try done.
  - split; try done. split; cbn [set_buf unprocessed_buf unprocessed_start_offset plaintext_end]; rewrite ?Hlo; done.
  - cbn. rewrite take_app_le, take_take by (rewrite length_take; unfold n in *; lia). by rewrite Nat.min_id.
  - cbn. rewrite drop_app_length' by (rewrite length_take; unfold n in *; lia). by rewrite Hol.
Qed.

(** A header, read *)
Lemma header_becomes i i' n pend :
  waiting i' → n ≤ vlen (unprocessed_buf i') → vcap (unprocessed_buf i') = vcap (unprocessed_buf i) →
  unprocessed_high_water i' = unprocessed_high_water i → unprocessed_reacquire_size i' = unprocessed_reacquire_size i →
  becomes i (discard_consumed_unprocessed (set_start n (set_pending pend i'))) [] pend (drop n (vdata (unprocessed_buf i'))).
Proof.
  intros [[Hs Hc Hpl] Hp Hst Hpe] Hn Hcap Hh Hr. apply discard_becomes. split; try done.
  - split; cbn [set_start set_pending unprocessed_buf unprocessed_start_offset]; [done|done|].
    intros Hp'. change (has_plaintext i' = true) in Hp'. congruence.
  - by apply plain_none.
Qed.

(** What [process_read_header] does is a function of the bytes at the front. *)
Definition reads_header (now : Z) this chk (r : outcome (bytes * nat * option nat * bytes) * C) : Prop :=
  match r with
  | (Ok (k, m, pend, und), chk') =>
      ∃ i', process_read_header now (this, chk) =
          (Ok tt, (set_opening (Some (key_at (algorithm this) k m)) i'
                     (set_decrypt_iv (match stream_type this with
                                      | AEAD2022Server => Some (take (salt_len this) (vdata (unprocessed_buf (inb this))))
                                      | _ => decrypt_iv this end) this), chk')) ∧
        becomes (inb this) i' [] pend und
  | (Err e, chk') =>
      ∃ k i', process_read_header now (this, chk) = (Err e, (set_opening k i' this, chk')) ∧ waiting i' ∧
        vlen (unprocessed_buf i') = vlen (unprocessed_buf (inb this)) ∧
        unprocessed_reacquire_size i' = unprocessed_reacquire_size (inb this)
  | (Panic, _) => False
  end.

Lemma set_decrypt_iv_id this iv : decrypt_iv this = iv → set_decrypt_iv iv this = this.
Proof. intros <-. by destruct this. Qed.
Lemma set_pending_id i l : unprocessed_pending_len i = l → set_pending l i = i.
Proof. intros <-. by destruct i. Qed.

Lemma reads_legacy_header now this chk :
  stream_type this = Aead_ → waiting (inb this) → read_header_len this ≤ vlen (unprocessed_buf (inb this)) →
  reads_header now this chk (spec_header Aead_ (algorithm this) (key this) (salt_len this) (salt_checker this)
    (encrypt_iv this) now chk (vdata (unprocessed_buf (inb this)))).
Proof.
  intros Ht Hw Hl. unfold read_header_len in Hl. rewrite Ht in Hl. unfold spec_header, reads_header, process_read_header.
  rewrite (io_bind_Ok (on_stream (gets stream_type)) _ (this, chk) _ _ eq_refl), (io_bind_Ok (on_stream (gets salt_len)) _ (this, chk) _ _ eq_refl), Ht.
  pose proof (check_salt_spec this chk Hl) as Hcs.
  destruct (checked chk (take (salt_len this) (vdata (unprocessed_buf (inb this)))) (salt_checker this)) as [ok chk'].
  destruct ok; [|by exists (opening_key this), (inb this); rewrite (io_bind_Err _ _ _ _ _ (io_bind_Err _ _ _ _ _ Hcs)), set_opening_id].
  pose proof (process_opening_key_spec this Hl) as Hpk.
  destruct (key_new_at (algorithm this) (key this (take (salt_len this) (vdata (unprocessed_buf (inb this))))) _ eq_refl) as [Hk|[e Hk]];
    rewrite Hk in Hpk |- *.
  - exists (discard_consumed_unprocessed (set_start (salt_len this) (set_pending None (inb this)))).
    split; [|by apply header_becomes]. rewrite set_decrypt_iv_id by done.
    erewrite io_bind_Ok; [|rewrite (io_bind_Ok _ _ _ _ _ Hcs); apply on_stream_eq; rewrite (io_bind_Ok _ _ _ _ _ Hpk); reflexivity].
    rewrite (set_pending_id (inb this) None) by apply Hw. unfold on_stream, set_in. run_m. cbn [inb set_opening]. by rewrite (wt_start _ Hw).
  - exists (opening_key this), (inb this). rewrite set_opening_id by done. split; [|done].
    erewrite io_bind_Err; [done|]. rewrite (io_bind_Ok _ _ _ _ _ Hcs). apply on_stream_eq. by rewrite (io_bind_Err _ _ _ _ _ Hpk).
Qed.

(** A length of two bytes in an opened header *)
Lemma header_len_spec n x rest j this :
  drop n (vdata (unprocessed_buf (inb this))) = x ++ rest → j + 2 ≤ length x →
  read_len (n + j) this = (Ok (len_of (drop j x)), this).
Proof.
  intros Hd Hj. apply read_len_spec; [|rewrite length_drop; lia].
  rewrite <- drop_drop, Hd, drop_app_le, take_app_le by (rewrite ?length_drop; lia). done.
Qed.

(** The rest of a server's header *)
Lemma server_tail n x rest this :
  drop n (vdata (unprocessed_buf (inb this))) = x ++ rest → 11 ≤ length x → n ≤ vlen (unprocessed_buf (inb this)) →
  (buf ← gets (λ this, vdata (unprocessed_buf (inb this)));
   salt ← lift (slice buf 0 n);
   _ ← modify (set_decrypt_iv (Some salt));
   variable_header_len ← read_len (n + 9);
   modify_in (λ i, set_start (unprocessed_start_offset i + (n + 11 + TAG_LEN)) (set_pending (Some variable_header_len) i))) this =
  (Ok tt, set_in (set_start (unprocessed_start_offset (inb this) + (n + (11 + TAG_LEN))) (set_pending (Some (len_of (drop 9 x))) (inb this)))
            (set_decrypt_iv (Some (take n (vdata (unprocessed_buf (inb this))))) this)).
Proof.
  intros Hd Hx Hn. run_m. rewrite slice_Ok by lia. rewrite (header_len_spec n x rest 9) by (done || lia).
  by rewrite Nat.sub_0_r, <- Nat.add_assoc.
Qed.

(** The rest of a client's header *)
Lemma client_tail n x rest this :
  drop n (vdata (unprocessed_buf (inb this))) = x ++ rest → 11 + n ≤ length x →
  (buf ← gets (λ this, vdata (unprocessed_buf (inb this)));
   request_salt ← lift (slice buf (n + 9) (n + 9 + n));
   iv ← gets encrypt_iv;
   if negb (bool_decide (request_salt = iv)) then lift (err InvalidData "server returned request salt does not match")
   else
     first_chunk_len ← read_len (n + 9 + n);
     modify_in (λ i, set_start (n + 11 + n + TAG_LEN) (set_pending (Some first_chunk_len) i))) this =
  if negb (bool_decide (take n (drop 9 x) = encrypt_iv this)) then (err InvalidData "server returned request salt does not match", this)
  else (Ok tt, set_in (set_start (n + (11 + n + TAG_LEN)) (set_pending (Some (len_of (drop (9 + n) x))) (inb this))) this).
Proof.
  intros Hd Hx. assert (Hn : n + length x ≤ vlen (unprocessed_buf (inb this))).
  { pose proof (f_equal length Hd) as Hd'. rewrite length_drop, length_app in Hd'. lia. }
  run_m. rewrite slice_Ok by lia. replace (n + 9 + n - (n + 9)) with n by lia.
  rewrite <- drop_drop, Hd, drop_app_le, take_app_le by (rewrite ?length_drop; lia).
  destruct (negb _); [done|]. rewrite <- Nat.add_assoc, (header_len_spec n x rest (9 + n)) by (done || lia).
  by rewrite <- !Nat.add_assoc.
Qed.

(** The fixed part of a header of AEAD-2022: key, opening, type and time *)
Lemma header_front now this h ty msg :
  waiting (inb this) → salt_len this + (h + TAG_LEN) ≤ vlen (unprocessed_buf (inb this)) → 9 ≤ h →
  let n := salt_len this in
  let g := vdata (unprocessed_buf (inb this)) in
  let k := key this (take n g) in
  let front := (_ ← process_opening_key; _ ← open_or n (n + h + TAG_LEN) "open failed for fixed length request header";
                check_header n ty msg now) in
  match key_new (algorithm this) k with
  | Ok _ =>
      let r := open (algorithm this) k (nonce 0) (take (h + TAG_LEN) (drop n g)) in
      ∃ i', front this =
          (if r.1 then spec_fields ty msg now r.2 else err InvalidData "open failed for fixed length request header",
           set_opening (Some (key_at (algorithm this) k 1)) i' this) ∧
        waiting i' ∧ vlen (unprocessed_buf i') = length g ∧ take n (vdata (unprocessed_buf i')) = take n g ∧
        drop n (vdata (unprocessed_buf i')) = r.2 ++ drop (n + (h + TAG_LEN)) g ∧ length r.2 = h + TAG_LEN ∧
        vcap (unprocessed_buf i') = vcap (unprocessed_buf (inb this)) ∧
        unprocessed_high_water i' = unprocessed_high_water (inb this) ∧ unprocessed_reacquire_size i' = unprocessed_reacquire_size (inb this)
  | Err e => front this = (Err e, this)
  | Panic => False
  end.
Proof.
  intros Hw Hl Hh n g k front. pose proof (process_opening_key_spec this ltac:(lia)) as Hpk. fold n g k in Hpk.
  destruct (key_new_at (algorithm this) k _ eq_refl) as [Hk|[e Hk]]; rewrite Hk in Hpk |- *; [|exact (io_bind_Err _ _ _ _ _ Hpk)].
  intros r. destruct (open_header_refines this (algorithm this) k h Hw Hl) as (i1 & Ho & Hw1 & Hl1 & Ht1 & Hd1 & Hx1 & Hrest).
  exists i1. split; [|done]. unfold front. rewrite (io_bind_Ok _ _ _ _ _ Hpk). fold n g r in Ho, Hd1, Hx1.
  destruct r.1; [|exact (io_bind_Err _ _ _ _ _ Ho)]. rewrite (io_bind_Ok _ _ _ _ _ Ho).
  by apply (check_header_spec n r.2 (drop (n + (h + TAG_LEN)) g)); [|lia].
Qed.

Lemma spec_fields_cases ty msg now x r : spec_fields ty msg now x = r → r = Ok tt ∨ ∃ e, r = Err e.
Proof. intros <-. unfold spec_fields, check_timestamp_freshness. repeat case_match; eauto. Qed.

Lemma reads_server_header now this chk :
  stream_type this = AEAD2022Server → waiting (inb this) → read_header_len this ≤ vlen (unprocessed_buf (inb this)) →
  reads_header now this chk (spec_header AEAD2022Server (algorithm this) (key this) (salt_len this) (salt_checker this)
    (encrypt_iv this) now chk (vdata (unprocessed_buf (inb this)))).
Proof.
  intros Ht Hw Hl. unfold read_header_len in Hl. rewrite Ht in Hl. unfold spec_header, reads_header, process_read_header.
  rewrite (io_bind_Ok (on_stream (gets stream_type)) _ (this, chk) _ _ eq_refl), (io_bind_Ok (on_stream (gets salt_len)) _ (this, chk) _ _ eq_refl), Ht.
  pose proof (header_front now this 11 0 "invalid client header type" Hw ltac:(lia) ltac:(lia)) as Hf. cbv zeta in Hf.
  set (n := salt_len this) in *. set (g := vdata (unprocessed_buf (inb this))) in *.
  destruct (key_new (algorithm this) (key this (take n g))) as [k0|e|]; [| |done].
  2:{ exists (opening_key this), (inb this). rewrite set_opening_id by done. split; [|done].
      erewrite io_bind_Err; [done|]. erewrite io_bind_Err; [done|]. by apply on_stream_eq. }
  destruct Hf as (i1 & Hf & Hw1 & Hl1 & Ht1 & Hd1 & Hx1 & Hcap & Hh & Hr).
  destruct (open _ _ (nonce 0) _) as [ok x]. cbn [fst snd] in *. apply (on_stream_eq _ _ chk) in Hf.
  destruct ok; [|by eexists _, i1; split; [erewrite io_bind_Err; [done|]; by erewrite io_bind_Err|by rewrite Hl1]].
  destruct (spec_fields_cases 0 "invalid client header type" now x _ eq_refl) as [Ef|[e Ef]]; rewrite Ef in Hf |- *;
    [|by eexists _, i1; split; [erewrite io_bind_Err; [done|]; by erewrite io_bind_Err|by rewrite Hl1]].
  set (this1 := set_opening _ i1 this) in *.
  pose proof (check_salt_spec this1 chk ltac:(change (n ≤ vlen (unprocessed_buf i1)); lia)) as Hcs.
  change (take (salt_len this1) _) with (take n (vdata (unprocessed_buf i1))) in Hcs. rewrite Ht1 in Hcs. change (salt_checker this1) with (salt_checker this) in Hcs.
  destruct (checked chk (take n g) (salt_checker this)) as [ok chk'].
  destruct ok; [|by eexists _, i1; split; [erewrite io_bind_Err; [done|]; rewrite (io_bind_Ok _ _ _ _ _ Hf); by erewrite io_bind_Err|by rewrite Hl1]].
  exists (discard_consumed_unprocessed (set_start (n + (11 + TAG_LEN)) (set_pending (Some (len_of (drop 9 x))) i1))). split.
  - erewrite io_bind_Ok; [|rewrite (io_bind_Ok _ _ _ _ _ Hf), (io_bind_Ok _ _ _ _ _ Hcs); apply on_stream_eq;
      apply (server_tail n x _ this1 Hd1); [lia|change (n ≤ vlen (unprocessed_buf i1)); lia]].
    unfold on_stream, set_in. run_m. cbn [this1 inb set_opening set_decrypt_iv opening_key]. by rewrite (wt_start _ Hw1), Ht1.
  - rewrite <- (drop_app_length' x (drop (n + (11 + TAG_LEN)) g) (11 + TAG_LEN)), <- Hd1, drop_drop by done.
    apply header_becomes; [done|lia|done..].
Qed.

Lemma reads_client_header now this chk :
  stream_type this = AEAD2022Client → waiting (inb this) → read_header_len this ≤ vlen (unprocessed_buf (inb this)) →
  reads_header now this chk (spec_header AEAD2022Client (algorithm this) (key this) (salt_len this) (salt_checker this)
    (encrypt_iv this) now chk (vdata (unprocessed_buf (inb this)))).
Proof.
  intros Ht Hw Hl. unfold read_header_len in Hl. rewrite Ht in Hl. unfold spec_header, reads_header, process_read_header.
  rewrite (io_bind_Ok (on_stream (gets stream_type)) _ (this, chk) _ _ eq_refl), (io_bind_Ok (on_stream (gets salt_len)) _ (this, chk) _ _ eq_refl), Ht.
  pose proof (header_front now this (11 + salt_len this) 1 "invalid server header type" Hw ltac:(lia) ltac:(lia)) as Hf. cbv zeta in Hf.
  set (n := salt_len this) in *. set (g := vdata (unprocessed_buf (inb this))) in *. rewrite (Nat.add_assoc n 11 n) in Hf.
  destruct (key_new (algorithm this) (key this (take n g))) as [k0|e|]; [| |done].
  2:{ exists (opening_key this), (inb this). rewrite set_opening_id by done. split; [|done].
      erewrite io_bind_Err; [done|]. erewrite io_bind_Err; [done|]. by apply on_stream_eq. }
  destruct Hf as (i1 & Hf & Hw1 & Hl1 & Ht1 & Hd1 & Hx1 & Hcap & Hh & Hr).
  destruct (open _ _ (nonce 0) _) as [ok x]. cbn [fst snd] in *. apply (on_stream_eq _ _ chk) in Hf.
  destruct ok; [|by eexists _, i1; split; [erewrite io_bind_Err; [done|]; by erewrite io_bind_Err|by rewrite Hl1]].
  destruct (spec_fields_cases 1 "invalid server header type" now x _ eq_refl) as [Ef|[e Ef]]; rewrite Ef in Hf |- *;
    [|by eexists _, i1; split; [erewrite io_bind_Err; [done|]; by erewrite io_bind_Err|by rewrite Hl1]].
  set (this1 := set_opening _ i1 this) in *.
  pose proof (check_salt_spec this1 chk ltac:(change (n ≤ vlen (unprocessed_buf i1)); lia)) as Hcs.
  change (take (salt_len this1) _) with (take n (vdata (unprocessed_buf i1))) in Hcs. rewrite Ht1 in Hcs. change (salt_checker this1) with (salt_checker this) in Hcs.
  destruct (checked chk (take n g) (salt_checker this)) as [ok chk'].
  destruct ok; [|by eexists _, i1; split; [erewrite io_bind_Err; [done|]; rewrite (io_bind_Ok _ _ _ _ _ Hf); by erewrite io_bind_Err|by rewrite Hl1]].
  pose proof (client_tail n x _ this1 Hd1 ltac:(lia)) as Htl. change (encrypt_iv this1) with (encrypt_iv this) in Htl.
  destruct (negb _); [eexists _, i1; split; [erewrite io_bind_Err; [done|]; rewrite (io_bind_Ok _ _ _ _ _ Hf), (io_bind_Ok _ _ _ _ _ Hcs);
    by apply on_stream_eq|by rewrite Hl1]|].
  exists (discard_consumed_unprocessed (set_start (n + (11 + n + TAG_LEN)) (set_pending (Some (len_of (drop (9 + n) x))) i1))). split.
  - rewrite set_decrypt_iv_id by done.
    erewrite io_bind_Ok; [|rewrite (io_bind_Ok _ _ _ _ _ Hf), (io_bind_Ok _ _ _ _ _ Hcs); by apply on_stream_eq].
    unfold on_stream, set_in. run_m. done.
  - rewrite <- (drop_app_length' x (drop (n + (11 + n + TAG_LEN)) g) (11 + n + TAG_LEN)), <- Hd1, drop_drop by done.
    apply header_becomes; [done|lia|done..].
Qed.

Lemma process_read_header_refines now this chk :
  waiting (inb this) → read_header_len this ≤ vlen (unprocessed_buf (inb this)) →
  reads_header now this chk (spec_header (stream_type this) (algorithm this) (key this) (salt_len this) (salt_checker this)
    (encrypt_iv this) now chk (vdata (unprocessed_buf (inb this)))).
Proof.
  intros Hw Hl. destruct (stream_type this) eqn:E; [by apply reads_legacy_header|by apply reads_server_header|by apply reads_client_header].
Qed.

(** ** Room for the transport *)
Definition needed (pend : option nat) : nat := match pend with Some len => len + TAG_LEN | None => 2 + TAG_LEN end.
Definition pend_ok (t : ShadowsocksStreamType) (pend : option nat) : Prop :=
  match pend with Some len => len ≤ max_payload_len t | None => True end.
Definition sizes_ok this : Prop := INITIAL_BUF_SIZE ≤ unprocessed_reacquire_size (inb this) ≤ max_packet_len this.

Lemma needed_packet this pend : pend_ok (stream_type this) pend → 0 < needed pend ≤ max_packet_len this.
Proof.
  unfold pend_ok, needed, max_packet_len, METADATA_SIZE, TAG_LEN. destruct pend; [lia|]. destruct (stream_type this); cbn [max_payload_len]; lia.
Qed.

Lemma ensure_room_spec this :
  in_ok (inb this) → has_plaintext (inb this) = false → pend_ok (stream_type this) (unprocessed_pending_len (inb this)) →
  sizes_ok this → length (undecrypted (inb this)) < needed (unprocessed_pending_len (inb this)) →
  ∃ i', ensure_unprocessed_room debug this = (Ok tt, set_in i' this) ∧ in_ok i' ∧ has_plaintext i' = false ∧
    undecrypted i' = undecrypted (inb this) ∧ unprocessed_pending_len i' = unprocessed_pending_len (inb this) ∧
    unprocessed_reacquire_size i' = unprocessed_reacquire_size (inb this) ∧
    vlen (unprocessed_buf i') < vcap (unprocessed_buf i').
Proof.
  intros [Hs Hc _] Hp Hpe [Hz1 Hz2] Hu. destruct (needed_packet this _ Hpe) as [Hn1 Hn2].
  unfold ensure_unprocessed_room. rewrite (io_bind_Ok (gets id) _ this _ _ eq_refl). cbn [id]. rewrite Hp.
  erewrite (io_bind_Ok (lift _)); [|unfold lift, debug_assert; by rewrite andb_false_r].
  fold (needed (unprocessed_pending_len (inb this))). set (nd := needed _) in *. set (i := inb this) in *.
  set (v := unprocessed_buf i) in *. set (st := unprocessed_start_offset i) in *.
  assert (Hrest : slice (vdata v) st (vlen v) = Ok (undecrypted i)) by (rewrite slice_suffix by done; done).
  assert (Hul : length (undecrypted i) = vlen v - st) by (unfold undecrypted; by rewrite length_drop).
  match goal with |- ∃ i', ?prog = _ ∧ _ =>
    assert (Hcl : (∃ b, prog = (Ok tt, set_in (set_start 0 (set_buf b i)) this) ∧ vdata b = undecrypted i ∧ vlen b < vcap b) ∨
      (prog = (Ok tt, set_in i this) ∧ vlen v < vcap v)) end.
  { destruct (vcap v =? 0) eqn:E0; to_prop; [left|].
    { eexists. split; [reflexivity|]. cbn [vec_with_capacity vdata vcap]. split; [symmetry; apply nil_length_inv; lia|].
      eapply Nat.lt_le_trans; [|apply granted_ge]. unfold INITIAL_BUF_SIZE in *. cbn [length]. destruct (_ <? nd); lia. }
    destruct (nd <=? vcap v) eqn:E1; to_prop.
    - destruct ((vcap v <? st + nd) || (vlen v =? vcap v)) eqn:E2.
      + left. exists (mkVec (undecrypted i) (vcap v)). split; [|cbn; split; [done|lia]].
        erewrite io_bind_Ok; [|erewrite io_bind_Ok; [|unfold lift; by rewrite Hrest]; reflexivity].
        unfold modify_in, modify, set_in. cbn [inb set_opening set_start set_buf unprocessed_buf vdata vcap].
        rewrite (proj2 (Nat.eqb_neq _ _)) by lia. reflexivity.
      + to_prop. right. split; [|lia]. unfold modify_in, modify. run_m. fold i v. rewrite (proj2 (Nat.eqb_neq _ _)) by lia. done.
    - left. exists (vec_extend (undecrypted i) (vec_with_capacity (Nat.min (nd * 2) (max_packet_len this)))). split.
      + erewrite io_bind_Ok; [|unfold lift; by rewrite Hrest]. reflexivity.
      + pose proof (granted_ge (Nat.min (nd * 2) (max_packet_len this))) as Hg. unfold vec_extend, vec_reserve_exact.
        cbn [vdata vcap vec_with_capacity length app Nat.add]. rewrite (proj2 (Nat.leb_le _ _)) by lia. cbn. split; [done|lia]. }
  destruct Hcl as [(b & -> & Hb & Hlt)|[-> Hlt]].
  - exists (set_start 0 (set_buf b i)). split_and!; try done.
    split; cbn; [lia|lia|]. intros Hp'. change (has_plaintext i = true) in Hp'. congruence.
  - exists i. split_and!; try done. split; try done. intros Hp'. congruence.
Qed.

End opening.

End ShadowsocksFacts.
