(* ===== verification/ShadowsocksReads.v ===== *)
(** * Shadowsocks streams: reading

    What a poll of the reading side does in terms of the bytes that arrive:
    [opens] is the sequence of chunks that bytes give, whatever pieces they come
    in; a read hands out what has been opened, in order, and parks only when no
    whole chunk is left.  An error is one that opening or the transport reports,
    and no input makes a read panic. *)
From S2P Require Import Prelude Buf SlideBuffer UotAddr Stream Messages SaltChecker Shadowsocks ShadowsocksFacts.

Module ShadowsocksReads.
Import Stream Uot Shadowsocks ShadowsocksFacts.

(** The bytes in the cache that the transport has not taken *)
Definition unsent (o : outbound) : bytes := drop (write_cache_start_offset o) (vdata (write_cache o)).
Record out_ok (max : nat) (o : outbound) : Prop := {
  oo_start : write_cache_start_offset o ≤ vlen (write_cache o);
  oo_empty : write_cache_start_offset o = vlen (write_cache o) → vlen (write_cache o) = 0;
  oo_max : vlen (write_cache o) ≤ max }.

Section reads.
Context (debug : bool).
Context {A S C : Type} `{Aead A, !AeadLaws A, AsyncStream S, !StreamLaws S, SaltChecker C, !Alloc}.
Implicit Types this : ShadowsocksStream A S.
Implicit Types a : ShadowsocksAeadAlgorithm A.

(** What reading leaves alone *)
Definition config this := (stream_type this, algorithm this, salt_len this, key this, salt_checker this, encrypt_iv this,
  sealing_key this, is_initial_write this).

Record reads_only this this' (got : bytes) : Prop := {
  ro_config : config this' = config this;
  ro_unsent : unsent (outb this') = unsent (outb this);
  ro_out : out_ok (max_packet_len this) (outb this) → out_ok (max_packet_len this) (outb this');
  ro_accepted : accepted (stream this') = accepted (stream this);
  ro_received : received (stream this') = received (stream this) ++ got }.

Lemma reads_only_refl this : reads_only this this [].
Proof. split; try done. by rewrite app_nil_r. Qed.

Lemma config_max this this' : config this' = config this → max_packet_len this' = max_packet_len this.
Proof. unfold config, max_packet_len. by intros [= -> _ _ _ _ _ _ _]. Qed.
Lemma config_type this this' : config this' = config this → stream_type this' = stream_type this.
Proof. unfold config. by intros [= -> _ _ _ _ _ _ _]. Qed.

Lemma config_header this this' : config this' = config this → read_header_len this' = read_header_len this.
Proof. unfold config, read_header_len. by intros [= -> _ -> _ _ _ _ _]. Qed.

Lemma reads_only_trans this1 this2 this3 g1 g2 :
  reads_only this1 this2 g1 → reads_only this2 this3 g2 → reads_only this1 this3 (g1 ++ g2).
Proof.
  intros [] []. assert (max_packet_len this2 = max_packet_len this1) as Hm by by apply config_max.
  split; try congruence; rewrite ?Hm in *; [auto|]. by rewrite ro_received1, ro_received0, app_assoc.
Qed.

(** Changes of the inbound side only *)
Lemma reads_only_in k i this : reads_only this (set_opening k i this) [].
Proof. split; try done. by rewrite app_nil_r. Qed.
Lemma reads_only_flags r e this : reads_only this (set_flags r (is_initial_write this) e this) [].
Proof. split; try done. by rewrite app_nil_r. Qed.

(** An error of the transport *)
Definition reports (e : io_error) : Prop := ∃ (s : S) n s', poll_read s n = (Ready (inl e), s').

Lemma poll_fill_spec this p this' :
  in_ok (inb this) → has_plaintext (inb this) = false → vlen (unprocessed_buf (inb this)) < vcap (unprocessed_buf (inb this)) →
  poll_fill_unprocessed debug this = (p, this') →
  match p with
  | Ready (Ok len) => ∃ bs s i', len = length bs ∧ this' = set_in i' (set_stream s this) ∧ reads_only this this' bs ∧
      in_ok i' ∧ has_plaintext i' = false ∧ undecrypted i' = undecrypted (inb this) ++ bs ∧
      unprocessed_pending_len i' = unprocessed_pending_len (inb this) ∧
      unprocessed_start_offset i' = unprocessed_start_offset (inb this) ∧
      unprocessed_reacquire_size i' = unprocessed_reacquire_size (inb this)
  | Ready (Err e) => reads_only this this' [] ∧ (∃ s, this' = set_stream s this) ∧ reports e
  | Pending => reads_only this this' [] ∧ ∃ s, this' = set_stream s this
  | Ready Panic => False
  end.
Proof.
  intros [Hs Hc _] Hp Hlt. unfold poll_fill_unprocessed. rewrite (proj2 (Nat.ltb_lt _ _)) by done. rewrite andb_false_r.
  destruct (poll_read (stream this) _) as [[[e|bs]|] s] eqn:Er; pose proof (read_law _ _ _ _ Er) as [Ha Hr]; intros [= <- <-].
  - split; [split; try done; by rewrite app_nil_r|]. split; [by eexists|]. by eexists _, _, _.
  - destruct Hr as [Hl Hr]. eexists bs, s, _. split; [done|]. split; [reflexivity|]. split_and!; try done.
    + split; cbn; rewrite ?length_app; [lia|lia|]. intros Hp'. change (has_plaintext (inb this) = true) in Hp'. congruence.
    + unfold undecrypted. cbn. by rewrite drop_app_le.
  - split; [split; try done; by rewrite app_nil_r|]. by eexists.
Qed.

Lemma clamp_bounds lo hi n : lo ≤ hi → lo ≤ clamp lo hi n ≤ hi.
Proof. intros Hl. unfold clamp. destruct (n <? lo) eqn:?; [|destruct (hi <? n) eqn:?]; to_prop; lia. Qed.

(** Releasing drained buffers *)
Lemma release_drained_spec this : in_ok (inb this) → has_plaintext (inb this) = false → sizes_ok this →
  let this' := release_drained_buffers this in
  reads_only this this' [] ∧ opening_key this' = opening_key this ∧ decrypt_iv this' = decrypt_iv this ∧
  is_initial_read this' = is_initial_read this ∧ is_eof this' = is_eof this ∧
  in_ok (inb this') ∧ has_plaintext (inb this') = false ∧ undecrypted (inb this') = undecrypted (inb this) ∧
  unprocessed_pending_len (inb this') = unprocessed_pending_len (inb this) ∧ sizes_ok this' ∧
  (unprocessed_start_offset (inb this) = 0 → unprocessed_start_offset (inb this') = 0).
Proof.
  intros [Hs Hc Hpl] Hp Hz this'. unfold this', release_drained_buffers. rewrite Hp. cbn [negb andb].
  set (this1 := if unprocessed_start_offset (inb this) =? vlen (unprocessed_buf (inb this)) then _ else this).
  assert (Hone : reads_only this this1 [] ∧ outb this1 = outb this ∧ opening_key this1 = opening_key this ∧ decrypt_iv this1 = decrypt_iv this ∧
    is_initial_read this1 = is_initial_read this ∧ is_eof this1 = is_eof this ∧
    in_ok (inb this1) ∧ has_plaintext (inb this1) = false ∧ undecrypted (inb this1) = undecrypted (inb this) ∧
    unprocessed_pending_len (inb this1) = unprocessed_pending_len (inb this) ∧ sizes_ok this1 ∧
    (unprocessed_start_offset (inb this) = 0 → unprocessed_start_offset (inb this1) = 0)).
  { unfold this1. destruct (_ =? _) eqn:E; [|split_and!; try done; try apply reads_only_refl; by split].
    to_prop. split_and!; try done; [apply reads_only_in| | |].
    - split; cbn; [lia|lia|]. intros Hp'. change (has_plaintext (inb this) = true) in Hp'. congruence.
    - unfold undecrypted. cbn. by rewrite E, drop_all.
    - change (INITIAL_BUF_SIZE ≤ clamp INITIAL_BUF_SIZE (max_packet_len this) (unprocessed_high_water (inb this)) ≤ max_packet_len this).
      apply clamp_bounds. destruct Hz. lia. }
  clearbody this1. destruct Hone as (Hro & Ho & Hrest). destruct (_ =? _) eqn:E; [|done]. to_prop.
  split; [|done]. destruct Hro. split; try done; rewrite Ho in E; cbn.
  - unfold unsent. by rewrite E, drop_all.
  - intros _. split; cbn; [done|done|lia].
Qed.

(** ** Chunks *)

(** Nonces used, length awaited and bytes not opened *)
Definition ast : Type := nat * option nat * bytes.

(** [opens s got cs s']: with [got] arriving, the chunks [cs] are opened. *)
Inductive opens (max : nat) a (k : bytes) : ast → bytes → list bytes → ast → Prop :=
  | opens_nil s : opens max a k s [] [] s
  | opens_fill n pend und bs got cs s' :
      opens max a k (n, pend, und ++ bs) got cs s' → opens max a k (n, pend, und) (bs ++ got) cs s'
  | opens_open n pend und d n1 pend1 und1 got cs s' :
      spec_decrypt max a k n pend und = Ok (d, n1, pend1, und1) → opens max a k (n1, pend1, und1) got cs s' →
      opens max a k (n, pend, und) got (option_list d ++ cs) s'.

(** No whole chunk is left. *)
Definition stuck (s : ast) : Prop := length s.2 < needed s.1.2.

Lemma spec_data_post a k n l und d n' pend' und' : spec_data a k n l und = Ok (d, n', pend', und') →
  (d = None → stuck (n', pend', und')) ∧ (pend' = None ∨ pend' = Some l).
Proof.
  unfold spec_data, stuck. destruct (length und <? l + TAG_LEN) eqn:E; to_prop; [intros [= <- <- <- <-]; split; [done|by right]|].
  destruct (open _ _ _ _) as [[] buf]; [intros [= <- <- <- <-]; split; [done|by left]|done].
Qed.
Lemma spec_decrypt_post t a k n pend und d n' pend' und' :
  spec_decrypt (max_payload_len t) a k n pend und = Ok (d, n', pend', und') → pend_ok t pend →
  (d = None → stuck (n', pend', und')) ∧ pend_ok t pend'.
Proof.
  unfold spec_decrypt. destruct pend as [l|].
  - intros [H1' [-> | ->]]%spec_data_post Hp; done.
  - destruct (length und <? 2 + TAG_LEN) eqn:E; to_prop; [by intros [= <- <- <- <-] _|].
    destruct (open _ _ _ _) as [[] buf]; [|done]. destruct (_ <? _) eqn:El; to_prop; [done|].
    intros [H1' [-> | ->]]%spec_data_post _; split; done.
Qed.

Record live this a k (s : ast) : Prop := {
  lv_in : in_ok (inb this);
  lv_key : opening_key this = Some (key_at a k s.1.1);
  lv_pend : unprocessed_pending_len (inb this) = s.1.2;
  lv_und : undecrypted (inb this) = s.2;
  lv_pend_ok : pend_ok (stream_type this) s.1.2;
  lv_sizes : sizes_ok this }.

(** ** The loop *)
Definition handed (p : Poll (outcome bytes)) : bytes := match p with Ready (Ok o) => o | _ => [] end.

(** What the answer of a read says of the stream it leaves: [data] is what had
    been opened, of which some is handed out *)
Definition answer_ok (max : nat) (data : bytes) this' a k (s' : ast) (room : nat) (p : Poll (outcome bytes)) : Prop :=
  let rest := live this' a k s' ∧ data = handed p ++ plain (inb this') in
  match p with
  | Ready (Ok o) => rest ∧ length o ≤ room ∧ (o = [] → plain (inb this') = [] ∧ stuck s')
  | Pending => rest ∧ plain (inb this') = [] ∧ stuck s'
  | Ready (Err e) => (rest ∧ plain (inb this') = [] ∧ reports e) ∨ spec_decrypt max a k s'.1.1 s'.1.2 s'.2 = Err e
  | Ready Panic => False
  end.

Record read_post this this' (out : bytes) (room : nat) (p : Poll (outcome bytes)) a k (s : ast) (got : bytes) (cs : list bytes) (s' : ast) : Prop := {
  rd_only : reads_only this this' got;
  rd_opens : opens (max_payload_len (stream_type this)) a k s got cs s';
  rd_answer : answer_ok (max_payload_len (stream_type this)) (out ++ plain (inb this) ++ concat cs) this' a k s' room p;
  rd_flags : is_initial_read this' = is_initial_read this ∧ decrypt_iv this' = decrypt_iv this }.

(** The state after the plaintext at the front has been handed out *)
Lemma live_in this a k s i : live this a k s → in_ok i → unprocessed_pending_len i = s.1.2 → undecrypted i = s.2 →
  unprocessed_reacquire_size i = unprocessed_reacquire_size (inb this) → live (set_in i this) a k s.
Proof.
  intros [Hin Hk Hpe Hu Hpo Hz] Hi Hpi Hui Hri. split; try done. unfold sizes_ok in *. cbn [inb set_in set_opening].
  change (max_packet_len (set_in i this)) with (max_packet_len this). by rewrite Hri.
Qed.

Lemma set_in_id this : set_in (inb this) this = this.
Proof. by apply set_opening_id. Qed.

(** Steps before the rest of a loop *)
Lemma read_post_in this i this' out out' room p a k s got cs s' :
  read_post (set_in i this) this' out' room p a k s got cs s' → out ++ plain (inb this) = out' ++ plain i →
  read_post this this' out room p a k s got cs s'.
Proof.
  intros [Hro Hop Han Hfl] Heq. split; [|done| |done].
  - change got with ([] ++ got). eapply reads_only_trans; [apply reads_only_in|done].
  - rewrite !app_assoc, Heq, <- app_assoc. done.
Qed.

Lemma read_post_open this i k1 this' out room p a k n pend und d n1 pend1 und1 got cs s' :
  spec_decrypt (max_payload_len (stream_type this)) a k n pend und = Ok (d, n1, pend1, und1) →
  plain (inb this) = [] → plain i = default [] d →
  read_post (set_opening k1 i this) this' out room p a k (n1, pend1, und1) got cs s' →
  read_post this this' out room p a k (n, pend, und) got (option_list d ++ cs) s'.
Proof.
  intros Hd Hp Hpi [Hro Hop Han Hfl]. split; [|by econstructor| |done].
  - change got with ([] ++ got). eapply reads_only_trans; [apply reads_only_in|done].
  - rewrite Hp, concat_app. cbn [inb set_opening app] in *. rewrite Hpi in Han. destruct d; [|done]. cbn. by rewrite app_nil_r.
Qed.

Lemma read_post_fill this this1 this' bs out room p a k n pend und got cs s' :
  reads_only this this1 bs → plain (inb this) = [] → plain (inb this1) = [] →
  is_initial_read this1 = is_initial_read this → decrypt_iv this1 = decrypt_iv this →
  read_post this1 this' out room p a k (n, pend, und ++ bs) got cs s' →
  read_post this this' out room p a k (n, pend, und) (bs ++ got) cs s'.
Proof.
  intros Hr Hp Hp1 Hi Hiv [Hro Hop Han Hfl]. rewrite (config_type _ _ (ro_config _ _ _ Hr)) in *.
  split; [by eapply reads_only_trans|by constructor| |].
  - by rewrite Hp, <- Hp1.
  - destruct Hfl. split; congruence.
Qed.

(** With nothing to hand out, the transport is read. *)
Lemma read_more_spec this a k n pend und p this1 :
  live this a k (n, pend, und) → plain (inb this) = [] → stuck (n, pend, und) →
  (∃ this0, ensure_unprocessed_room debug this = (Ok tt, this0) ∧ poll_fill_unprocessed debug this0 = (p, this1)) →
  match p with
  | Ready (Ok len) => ∃ bs, len = length bs ∧ reads_only this this1 bs ∧ live this1 a k (n, pend, und ++ bs) ∧ plain (inb this1) = [] ∧
      is_initial_read this1 = is_initial_read this ∧ decrypt_iv this1 = decrypt_iv this
  | Ready Panic => False
  | _ => reads_only this this1 [] ∧ live this1 a k (n, pend, und) ∧ plain (inb this1) = [] ∧
      is_initial_read this1 = is_initial_read this ∧ decrypt_iv this1 = decrypt_iv this ∧
      match p with Ready (Err e) => reports e | _ => True end
  end.
Proof.
  intros Hlv Hp Hst (this0 & Hen & Hf). pose proof Hlv as [Hin Hk Hpe Hu Hpo Hz]. cbn [fst snd] in *.
  assert (Hhp : has_plaintext (inb this) = false) by (rewrite has_plain, Hp by done; done).
  destruct (ensure_room_spec debug this Hin Hhp) as (i0 & Hen' & Hin0 & Hhp0 & Hu0 & Hpe0 & Hz0 & Hlt); [by rewrite Hpe|done|by rewrite Hpe, Hu|].
  rewrite Hen in Hen'. injection Hen' as ->. assert (Hlv0 : live (set_in i0 this) a k (n, pend, und)) by (apply live_in; cbn; congruence).
  pose proof (poll_fill_spec (set_in i0 this) p this1 Hin0 Hhp0 Hlt Hf) as Hfs. pose proof (reads_only_in (opening_key this) i0 this) as Hr0.
  destruct p as [[len|e|]|]; [| |done|].
  - destruct Hfs as (bs & s1 & i1 & -> & -> & Hr1 & Hin1 & Hhp1 & Hu1 & Hpe1 & _ & Hz1). cbn [inb set_in set_opening] in Hu1, Hpe1, Hz1.
    exists bs. split; [done|]. split; [exact (reads_only_trans _ _ _ _ _ Hr0 Hr1)|]. split; [|split; [by apply plain_none|done]].
    split; try done; cbn [fst snd inb set_in set_opening]; [congruence|congruence|]. unfold sizes_ok in *. cbn [inb set_in set_opening].
    change (max_packet_len (set_in i1 _)) with (max_packet_len this). by rewrite Hz1, Hz0.
  - destruct Hfs as (Hr1 & (s1 & ->) & He). split; [exact (reads_only_trans _ _ _ _ _ Hr0 Hr1)|]. split; [by destruct Hlv0|].
    split; [by apply plain_none|done].
  - destruct Hfs as (Hr1 & (s1 & ->)). split; [exact (reads_only_trans _ _ _ _ _ Hr0 Hr1)|]. split; [by destruct Hlv0|].
    split; [by apply plain_none|done].
Qed.

Lemma read_done this this' out room p a k s :
  reads_only this this' [] → is_initial_read this' = is_initial_read this → decrypt_iv this' = decrypt_iv this →
  answer_ok (max_payload_len (stream_type this)) (out ++ plain (inb this)) this' a k s room p →
  read_post this this' out room p a k s [] [] s.
Proof. intros Hr Hi Hiv Ha. split; [done|constructor|by rewrite app_nil_r|done]. Qed.

(** The tail of a round that found no whole chunk, and a round without plaintext *)
Notation needs_more fuel room fill out x :=
  (if 0 <? length out then Some (Ready (Ok out), x)
   else if is_eof x then Some (Ready (Ok []), x)
   else
     match ensure_unprocessed_room debug x with
     | (Ok _, y) =>
         match poll_fill_unprocessed debug y with
         | (Pending, z) => Some (Pending, release_drained_buffers z)
         | (Ready (Err e), z) => Some (Ready (Err e), z)
         | (Ready Panic, z) => Some (Ready Panic, z)
         | (Ready (Ok len), z) =>
             read_loop debug fuel room fill out
               (if len =? 0 then set_flags (is_initial_read z) (is_initial_write z) true z else z)
         end
     | (_, y) => Some (Ready Panic, y)
     end).
Notation next_round fuel room fill out x :=
  (match (if unprocessed_start_offset (inb x) <? vlen (unprocessed_buf (inb x)) then try_decrypt debug x else (Ok NeedData, x)) with
   | (Err e, y) => Some (Ready (Err e), y)
   | (Panic, y) => Some (Ready Panic, y)
   | (Ok Success, y) => read_loop debug fuel room fill out y
   | (Ok NeedData, y) => needs_more fuel room fill out y
   end).

(** A round that finds no whole chunk, given the rest of the loop *)
Lemma read_needs fuel room fill out this a k s p this' :
  (∀ out this s p this', live this a k s → length out < room → read_loop debug fuel room fill out this = Some (p, this') →
     ∃ got cs s', read_post this this' out room p a k s got cs s') →
  live this a k s → plain (inb this) = [] → stuck s → length out < room →
  needs_more fuel room fill out this = Some (p, this') →
  ∃ got cs s', read_post this this' out room p a k s got cs s'.
Proof.
  intros IH Hlv Hp Hst Hout. destruct s as [[n pend] und].
  destruct (0 <? length out) eqn:Eo; to_prop.
  { intros [= <- <-]. exists [], [], (n, pend, und). apply read_done; [apply reads_only_refl|done..|].
    split; [split; [done|by rewrite Hp]|]. split; [lia|done]. }
  assert (Ho : out = []) by (apply nil_length_inv; lia). subst out.
  destruct (is_eof this).
  { intros [= <- <-]. exists [], [], (n, pend, und). apply read_done; [apply reads_only_refl|done..|].
    split; [split; [done|by rewrite Hp]|]. split; [cbn; lia|done]. }
  pose proof (λ p this1, read_more_spec this a k n pend und p this1 Hlv Hp Hst) as Hm. pose proof Hlv as [Hin Hk Hpe Hu Hpo Hz]. cbn [fst snd] in *.
  destruct (ensure_room_spec debug this Hin) as (i0 & Ee & _); [rewrite has_plain, Hp by done; done|by rewrite Hpe|done|by rewrite Hpe, Hu|].
  rewrite Ee in *. set (this0 := set_in i0 this) in *.
  destruct (poll_fill_unprocessed debug this0) as [q this1] eqn:Ef. specialize (Hm q this1 (ex_intro _ this0 (conj eq_refl Ef))).
  destruct q as [[len|e|]|]; [| |done|].
  - destruct Hm as (bs & -> & Hr & Hlv1 & Hp1 & Hi1 & Hiv1). set (this2 := if length bs =? 0 then set_flags (is_initial_read this1) (is_initial_write this1) true this1 else this1).
    assert (Hlv2 : live this2 a k (n, pend, und ++ bs)) by (unfold this2; destruct (_ =? 0); [by destruct Hlv1|done]).
    intros Hl. apply (IH _ _ _ _ _ Hlv2 Hout) in Hl as (got & cs & s' & Hl). exists (bs ++ got), cs, s'.
    apply (read_post_fill this this2); try (unfold this2; by destruct (_ =? 0)).
    unfold this2. destruct (_ =? 0); [|done]. rewrite <- (app_nil_r bs). eapply reads_only_trans; [done|]. by split; try done; rewrite app_nil_r.
  - destruct Hm as (Hr & Hlv1 & Hp1 & Hi1 & Hiv1 & He). intros [= <- <-]. exists [], [], (n, pend, und). apply read_done; [done..|].
    left. rewrite Hp, Hp1. done.
  - destruct Hm as (Hr & Hlv1 & Hp1 & Hi1 & Hiv1 & _). intros [= <- <-]. exists [], [], (n, pend, und). pose proof Hlv1 as [Hin1 Hk1 Hpe1 Hu1 Hpo1 Hz1].
    destruct (release_drained_spec this1) as (Hr2 & Hk2 & Hiv2 & Hi2 & _ & Hin2 & Hhp2 & Hu2 & Hpe2 & Hz2 & _);
      [done|rewrite has_plain, Hp1 by done; done|done|].
    apply read_done; [change [] with (@nil Z ++ []); by eapply reads_only_trans|congruence|congruence|].
    rewrite Hp. split; [split; [|by rewrite (plain_none _ Hhp2)]|by rewrite (plain_none _ Hhp2)].
    split; try congruence. by rewrite (config_type _ _ (ro_config _ _ _ Hr2)).
Qed.

(** One round without plaintext, given the rest of the loop *)
Lemma read_round fuel room fill out this a k s p this' :
  (∀ out this s p this', live this a k s → length out < room → read_loop debug fuel room fill out this = Some (p, this') →
     ∃ got cs s', read_post this this' out room p a k s got cs s') →
  live this a k s → plain (inb this) = [] → length out < room →
  next_round fuel room fill out this = Some (p, this') →
  ∃ got cs s', read_post this this' out room p a k s got cs s'.
Proof.
  intros IH Hlv Hp Hout. destruct s as [[n pend] und]. pose proof Hlv as [Hin Hk Hpe Hu Hpo Hz]. cbn [fst snd] in *.
  assert (Hhp : has_plaintext (inb this) = false) by (rewrite has_plain, Hp by done; done).
  destruct (unprocessed_start_offset (inb this) <? vlen (unprocessed_buf (inb this))) eqn:E.
  - pose proof (try_decrypt_refines debug this a k n Hin Hhp Hk) as Hd. rewrite Hpe, Hu in Hd.
    destruct (spec_decrypt _ a k n pend und) as [[[[d n1] pend1] und1]|e|] eqn:Es; [| |done].
    + destruct Hd as (i1 & -> & [Hin1 Hpl1 Hpe1 Hu1 _ _ Hz1]). destruct (spec_decrypt_post _ _ _ _ _ _ _ _ _ _ Es Hpo) as [Hst Hpo1].
      assert (Hlv1 : live (set_opening (Some (key_at a k n1)) i1 this) a k (n1, pend1, und1)).
      { split; try done. unfold sizes_ok in *. cbn [inb set_opening]. by rewrite Hz1. }
      intros Hr. destruct d as [d|].
      * apply (IH _ _ _ _ _ Hlv1 Hout) in Hr as (got & cs & s' & Hr). exists got, (d :: cs), s'. by apply (read_post_open _ _ _ _ _ _ _ _ _ _ _ _ (Some d) _ _ _ _ _ _ Es Hp Hpl1 Hr).
      * apply (read_needs fuel room fill out _ a k (n1, pend1, und1)) in Hr as (got & cs & s' & Hr); [|done|done|done|by apply Hst|done].
        exists got, cs, s'. by apply (read_post_open _ _ _ _ _ _ _ _ _ _ _ _ None _ _ _ _ _ _ Es Hp Hpl1 Hr).
    + destruct Hd as (n1 & i1 & -> & Hsp). intros [= <- <-]. exists [], [], (n, pend, und). apply read_done; [apply reads_only_in|done..|]. by right.
  - apply read_needs; try done. unfold stuck. cbn [fst snd]. rewrite <- Hu. to_prop. unfold undecrypted. rewrite length_drop.
    destruct (needed_packet this pend Hpo). lia.
Qed.

Lemma chunk_loop_spec fuel room fill out this a k s p this' :
  live this a k s → length out < room → read_loop debug fuel room fill out this = Some (p, this') →
  ∃ got cs s', read_post this this' out room p a k s got cs s'.
Proof.
  revert out this s p this'. induction fuel as [|fuel IH]; intros out this s p this' Hlv Hout; [done|]. cbn [read_loop].
  pose proof Hlv as [Hin Hk Hpe Hu Hpo Hz]. destruct (has_plaintext (inb this)) eqn:Hhp.
  - destruct (read_plaintext_ok (room - length out) _ Hin Hhp) as (i' & -> & Hin' & Hpl' & Hu' & Hpe' & _ & _ & Hz').
    assert (Hlv' : live (set_in i' this) a k s) by (apply live_in; congruence).
    assert (Heq : out ++ plain (inb this) = (out ++ take (room - length out) (plain (inb this))) ++ plain i').
    { by rewrite Hpl', <- app_assoc, take_drop. }
    destruct (true && _) eqn:E.
    + intros [= <- <-]. exists [], [], s. apply read_done; [apply reads_only_in|done..|]. split; [split; [done|exact Heq]|].
      rewrite length_app, length_take. split; [lia|]. intros [-> Ht]%app_eq_nil. exfalso.
      rewrite has_plain in Hhp by done. destruct (plain (inb this)); [done|]. cbn [length] in Ht. destruct (room - 0) eqn:?; [cbn in *; lia|done].
    + cbn [andb] in E. apply orb_false_iff in E as [E _]. apply Nat.eqb_neq in E. rewrite length_app, length_take in E. assert (Hdr : plain i' = []) by (rewrite Hpl'; apply drop_ge; lia).
      intros Hr. apply (read_round fuel room fill _ (set_in i' this) a k s) in Hr as (got & cs & s' & Hr);
        [|done|done|done|rewrite length_app, length_take; lia].
      exists got, cs, s'. by eapply read_post_in.
  - rewrite app_nil_r, set_in_id. cbn [andb]. by apply read_round; [|done|apply plain_none|].
Qed.

(** ** The header *)

(** Two states of a stream that waits for its header, [got] having come in between *)
Record still_waiting this this' (got : bytes) : Prop := {
  sw_only : reads_only this this' got;
  sw_wait : waiting (inb this');
  sw_sizes : sizes_ok this';
  sw_und : undecrypted (inb this') = undecrypted (inb this) ++ got;
  sw_key : opening_key this' = opening_key this;
  sw_iv : decrypt_iv this' = decrypt_iv this;
  sw_initial : is_initial_read this' = is_initial_read this }.

Lemma still_waiting_trans this1 this2 this3 g1 g2 :
  still_waiting this1 this2 g1 → still_waiting this2 this3 g2 → still_waiting this1 this3 (g1 ++ g2).
Proof. intros [] []. split; try congruence; [by eapply reads_only_trans|done..|]. by rewrite app_assoc, <- sw_und0. Qed.

(** A round of the loop: room is made if there is none, and the transport read. *)
Lemma header_fill this q this1 :
  waiting (inb this) → sizes_ok this →
  poll_fill_unprocessed debug
    (if vlen (unprocessed_buf (inb this)) =? vcap (unprocessed_buf (inb this))
     then set_in (set_buf (vec_reserve_exact INITIAL_BUF_SIZE (unprocessed_buf (inb this))) (inb this)) this else this) = (q, this1) →
  is_eof this1 = is_eof this ∧ ∃ bs, still_waiting this this1 bs ∧
    match q with
    | Ready (Ok len) => len = length bs
    | Ready (Err e) => bs = [] ∧ reports e
    | Pending => bs = []
    | Ready Panic => False
    end.
Proof.
  intros Hw Hz Ef. set (buf := unprocessed_buf (inb this)) in *.
  set (this0 := if vlen buf =? vcap buf then _ else this) in *.
  assert (Hsw : still_waiting this this0 [] ∧ is_eof this0 = is_eof this ∧ vlen (unprocessed_buf (inb this0)) < vcap (unprocessed_buf (inb this0))).
  { pose proof Hw as [[Hs Hc Hpl] Hp Hst Hpe]. unfold this0. destruct (vlen buf =? vcap buf) eqn:E; to_prop.
    - assert (Hr : vec_reserve_exact INITIAL_BUF_SIZE buf = mkVec (vdata buf) (granted (vlen buf + INITIAL_BUF_SIZE))).
      { unfold vec_reserve_exact, INITIAL_BUF_SIZE. rewrite (proj2 (Nat.leb_gt _ _)) by lia. done. }
      rewrite Hr. pose proof (granted_ge (vlen buf + INITIAL_BUF_SIZE)) as Hg. assert (0 < INITIAL_BUF_SIZE) by (unfold INITIAL_BUF_SIZE; lia).
      split; [|cbn [inb set_in set_opening set_buf unprocessed_buf vdata vcap]; split; [done|lia]].
      split; try done; [apply reads_only_in| |by rewrite app_nil_r].
      split; try done. split; cbn [inb set_in set_opening set_buf unprocessed_buf vdata vcap]; [done|lia|done].
    - split; [|unfold buf in *; split; [done|lia]]. split; try done; [apply reads_only_refl|by rewrite app_nil_r]. }
  clearbody this0. destruct Hsw as (Hsw & He0 & Hlt). pose proof Hsw as [_ Hw0 Hz0 _ _ _ _].
  pose proof (poll_fill_spec this0 q this1 (wt_ok _ Hw0) (wt_plain _ Hw0) Hlt Ef) as Hf.
  destruct q as [[len|e|]|]; [| |done|].
  - destruct Hf as (bs & s1 & i1 & -> & -> & Hr1 & Hin1 & Hhp1 & Hu1 & Hpe1 & Hst1 & Hz1). split; [done|]. exists bs. split; [|done].
    apply (still_waiting_trans _ _ _ [] bs Hsw). split; try done.
    + destruct Hw0. split; cbn; congruence || done.
    + unfold sizes_ok in *. change (max_packet_len (set_in i1 _)) with (max_packet_len this0). cbn [inb set_in set_opening]. by rewrite Hz1.
  - destruct Hf as (Hr1 & [s1 ->] & He). split; [done|]. exists []. split; [|done]. apply (still_waiting_trans _ _ _ [] [] Hsw).
    split; try done. by rewrite app_nil_r.
  - destruct Hf as (Hr1 & [s1 ->]). split; [done|]. exists []. split; [|done]. apply (still_waiting_trans _ _ _ [] [] Hsw).
    split; try done. by rewrite app_nil_r.
Qed.

Lemma waiting_len this : waiting (inb this) → vlen (unprocessed_buf (inb this)) = length (undecrypted (inb this)).
Proof. intros Hw. unfold undecrypted. by rewrite (wt_start _ Hw), drop_0. Qed.

Lemma header_loop_spec fuel this p this' :
  waiting (inb this) → sizes_ok this → header_loop debug fuel this = Some (p, this') →
  ∃ got, still_waiting this this' got ∧
    match p with
    | Ready (Ok true) => is_eof this' = is_eof this ∧ read_header_len this ≤ length (undecrypted (inb this'))
    | Ready (Ok false) => is_eof this' = true
    | Ready (Err e) => is_eof this' = is_eof this ∧ reports e
    | Pending => is_eof this' = is_eof this
    | Ready Panic => False
    end ∧
    (p ≠ Ready (Ok true) → length (undecrypted (inb this)) < read_header_len this → length (undecrypted (inb this')) < read_header_len this).
Proof.
  revert this. induction fuel as [|fuel IH]; intros this Hw Hz; [done|]. cbn [header_loop].
  destruct (poll_fill_unprocessed debug _) as [q this1] eqn:Ef. apply header_fill in Ef as (He1 & bs & Hsw & Hq); [|done..].
  pose proof Hsw as [Hr1 Hw1 Hz1 Hu1 _ _ _]. pose proof (config_header _ _ (ro_config _ _ _ Hr1)) as Hh.
  destruct q as [[len|e|]|]; [subst len| |done|].
  - rewrite (waiting_len this1), Hh by done. destruct (length bs =? 0) eqn:E0; [|destruct (read_header_len this <=? _) eqn:El]; to_prop.
    + intros [= <- <-]. apply nil_length_inv in E0. subst bs. exists []. split; [|split; [done|]].
      * apply (still_waiting_trans _ _ _ [] [] Hsw). split; try done; [apply reads_only_flags|]. by rewrite app_nil_r.
      * intros _. change (undecrypted (inb (set_flags _ _ _ this1))) with (undecrypted (inb this1)). by rewrite Hu1, app_nil_r.
    + intros [= <- <-]. exists bs. split; [done|]. done.
    + intros Hl. destruct (IH this1 Hw1 Hz1 Hl) as (got & Hsw2 & Hp2 & Hn2). rewrite Hh in *. exists (bs ++ got).
      split; [by eapply still_waiting_trans|]. rewrite He1 in Hp2. split; [done|]. intros Hq _. by apply Hn2.
  - destruct Hq as [-> He]. intros [= <- <-]. exists []. split; [done|]. split; [done|]. intros _. by rewrite Hu1, app_nil_r.
  - subst bs. intros [= <- <-].
    destruct (release_drained_spec this1 (wt_ok _ Hw1) (wt_plain _ Hw1) Hz1) as (Hr2 & Hk2 & Hiv2 & Hi2 & He2 & Hin2 & Hhp2 & Hu2 & Hpe2 & Hz2 & Hst2).
    exists []. split; [|split; [by rewrite He2|intros _; by rewrite Hu2, Hu1, app_nil_r]].
    apply (still_waiting_trans _ _ _ [] [] Hsw). destruct Hw1 as [_ _ Hst1 Hpe1]. split; try done; [|by rewrite app_nil_r].
    split; [done|done|by apply Hst2|congruence].
Qed.

Lemma header_loop_total fuel this :
  waiting (inb this) → sizes_ok this → read_header_len this - length (undecrypted (inb this)) < fuel → is_Some (header_loop debug fuel this).
Proof.
  revert this. induction fuel as [|fuel IH]; intros this Hw Hz Hf; [lia|]. cbn [header_loop].
  destruct (poll_fill_unprocessed debug _) as [q this1] eqn:Ef. apply header_fill in Ef as (He1 & bs & Hsw & Hq); [|done..].
  pose proof Hsw as [Hr1 Hw1 Hz1 Hu1 _ _ _]. pose proof (config_header _ _ (ro_config _ _ _ Hr1)) as Hh.
  destruct q as [[len|e|]|]; [subst len|by eexists..]. rewrite (waiting_len this1), Hh by done.
  destruct (length bs =? 0) eqn:E0; [by eexists|]. destruct (read_header_len this <=? _) eqn:El; [by eexists|]. to_prop.
  apply IH; [done|done|]. rewrite Hh. rewrite Hu1, length_app in *. lia.
Qed.

Definition hdr this (now : Z) (chk : C) (g : bytes) : outcome (bytes * nat * option nat * bytes) * C :=
  spec_header (stream_type this) (algorithm this) (key this) (salt_len this) (salt_checker this) (encrypt_iv this) now chk g.

Lemma spec_header_pend t a key n checks iv now (chk : C) g k m pend und chk' :
  spec_header t a key n checks iv now chk g = (Ok (k, m, pend, und), chk') → pend_ok t pend.
Proof.
  unfold spec_header. intros Hs. repeat case_match; simplify_eq; cbn; try done; apply be_usize_le.
Qed.

(** A stream that has read nothing but part of its header *)
Record fresh this : Prop := {
  fr_wait : waiting (inb this);
  fr_sizes : sizes_ok this;
  fr_initial : is_initial_read this = true;
  fr_open : is_eof this = false }.

(** The ways a read that has to read the header first can go *)
Inductive first_read this (now : Z) (chk : C) (room : nat) : Poll (outcome bytes) → ShadowsocksStream A S → C → Prop :=
  | first_waits p this' got :
      still_waiting this this' got →
      (p = Pending ∧ is_eof this' = false ∨ p = Ready (Ok []) ∧ is_eof this' = true ∨
       ∃ e, p = Ready (Err e) ∧ reports e ∧ is_eof this' = false) →
      (length (undecrypted (inb this)) < read_header_len this → length (undecrypted (inb this')) < read_header_len this) →
      first_read this now chk room p this' chk
  | first_refused e this' chk' got :
      reads_only this this' got → fresh this' → decrypt_iv this' = decrypt_iv this → read_header_len this ≤ length (undecrypted (inb this) ++ got) →
      hdr this now chk (undecrypted (inb this) ++ got) = (Err e, chk') →
      first_read this now chk room (Ready (Err e)) this' chk'
  | first_opened p this1 this' chk' g1 g2 k m pend und cs s' :
      reads_only this this1 g1 → read_header_len this ≤ length (undecrypted (inb this) ++ g1) →
      hdr this now chk (undecrypted (inb this) ++ g1) = (Ok (k, m, pend, und), chk') →
      live this1 (algorithm this) k (m, pend, und) → plain (inb this1) = [] → is_initial_read this1 = false →
      decrypt_iv this1 = (match stream_type this with
                          | AEAD2022Server => Some (take (salt_len this) (undecrypted (inb this) ++ g1))
                          | _ => decrypt_iv this end) →
      read_post this1 this' [] room p (algorithm this) k (m, pend, und) g2 cs s' →
      first_read this now chk room p this' chk'.

(** A whole header, once it has arrived *)
Lemma after_header now chk this this0 got r this1 chk1 :
  fresh this → still_waiting this this0 got → is_eof this0 = false → read_header_len this ≤ length (undecrypted (inb this) ++ got) →
  process_read_header now (this0, chk) = (r, (this1, chk1)) →
  match hdr this now chk (undecrypted (inb this) ++ got) with
  | (Ok (k, m, pend, und), chk') =>
      let this2 := set_flags false (is_initial_write this1) (is_eof this1) this1 in
      r = Ok tt ∧ chk1 = chk' ∧ reads_only this this2 got ∧ live this2 (algorithm this) k (m, pend, und) ∧ plain (inb this2) = [] ∧
      decrypt_iv this2 = (match stream_type this with
                          | AEAD2022Server => Some (take (salt_len this) (undecrypted (inb this) ++ got))
                          | _ => decrypt_iv this end)
  | (Err e, chk') => r = Err e ∧ chk1 = chk' ∧ reads_only this this1 got ∧ fresh this1 ∧ decrypt_iv this1 = decrypt_iv this
  | (Panic, _) => False
  end.
Proof.
  intros [Hw Hz Hi He] Hsw He0 Hq Hp. pose proof Hsw as [Hr0 Hw0 Hz0 Hu0 Hk0 Hiv0 Hi0].
  pose proof (config_header _ _ (ro_config _ _ _ Hr0)) as Hh.
  pose proof (process_read_header_refines now this0 chk Hw0 ltac:(rewrite waiting_len, Hh, Hu0 by done; done)) as Href.
  pose proof (ro_config _ _ _ Hr0) as Hc. injection Hc as Ht Ha Hn Hkf Hsc Hiv _ _. rewrite Ht, Ha, Hn, Hkf, Hsc, Hiv in Href.
  assert (Hg : vdata (unprocessed_buf (inb this0)) = undecrypted (inb this) ++ got).
  { rewrite <- Hu0. unfold undecrypted. by rewrite (wt_start _ Hw0), drop_0. }
  rewrite Hg in Href. unfold reads_header in Href. fold (hdr this now chk (undecrypted (inb this) ++ got)) in Href. rewrite Hp in Href.
  destruct (hdr this now chk (undecrypted (inb this) ++ got)) as [[[[[k m] pend] und]|e|] chk2] eqn:Ehd; [| |done].
  - destruct Href as (i1 & [= -> -> ->] & [Hin1 Hpl1 Hpe1 Hu1 _ _ Hz1]). intros this2.
    assert (Hro : reads_only this0 this2 []) by (split; try done; by rewrite app_nil_r). split_and!; try done.
    + rewrite <- (app_nil_r got). by eapply reads_only_trans.
    + split; try done; [cbn; by rewrite Ha| |].
      * cbn [fst snd]. rewrite (config_type _ _ (ro_config _ _ _ Hro)), Ht. by eapply spec_header_pend.
      * unfold sizes_ok in *. change (max_packet_len this2) with (max_packet_len this0). cbn [this2 inb set_flags set_opening]. by rewrite Hz1.
    + cbn. rewrite Ht, Hn, Hiv0, Hg. done.
  - destruct Href as (k1 & i1 & [= -> -> ->] & Hw1 & Hl1 & Hz1). split_and!; [done|done| |split; try done|done].
    + rewrite <- (app_nil_r got). eapply reads_only_trans; [done|apply reads_only_in].
    + unfold sizes_ok in *. cbn [inb set_opening]. change (max_packet_len (set_opening _ _ _)) with (max_packet_len this0). by rewrite Hz1.
    + cbn. by rewrite Hi0.
Qed.

Lemma poll_read_first fuel now chk room fill this p this' chk' :
  fresh this → 0 < room → poll_read_inner debug fuel now chk room fill this = Some (p, this', chk') →
  first_read this now chk room p this' chk'.
Proof.
  intros Hfr Hroom. pose proof Hfr as [Hw Hz Hi He]. unfold poll_read_inner. rewrite (proj2 (Nat.eqb_neq _ _)), Hi, He by lia. cbn [negb andb].
  destruct (header_loop _ _ this) as [[q this0]|] eqn:Eh; [|done].
  apply header_loop_spec in Eh as (got & Hsw & Hq & Hlen); [|done..].
  destruct q as [[[]|e|]|].
  - destruct Hq as [He0 Hq]. rewrite He in He0. rewrite (sw_und _ _ _ Hsw) in Hq.
    destruct (process_read_header now (this0, chk)) as [r [this1 chk1]] eqn:Ep. pose proof (after_header _ _ _ _ _ _ _ _ Hfr Hsw He0 Hq Ep) as Hp.
    destruct (hdr this now chk (undecrypted (inb this) ++ got)) as [[[[[k m] pend] und]|e|] chk2] eqn:Ehd; [| |done].
    + destruct Hp as (-> & -> & Hro & Hlv & Hpl & Hiv). rewrite fmap_Some. intros ([q this2] & Hl & [= <- <- <-]).
      apply (chunk_loop_spec _ _ _ _ _ _ _ _ _ _ Hlv) in Hl as (g2 & cs & s' & Hl); [|exact Hroom].
      by eapply (first_opened this now chk room p _ this' chk' got g2 k m pend und cs s').
    + destruct Hp as (-> & -> & Hro & Hf1 & Hiv1). intros [= <- <- <-]. by apply (first_refused _ _ _ _ _ _ _ got).
  - intros [= <- <- <-]. apply (first_waits _ _ _ _ _ _ got); [done|by right; left|]. by apply Hlen.
  - destruct Hq as [He0 Hq]. intros [= <- <- <-]. apply (first_waits _ _ _ _ _ _ got); [done| |by apply Hlen].
    right. right. exists e. split_and!; [done|done|congruence].
  - done.
  - intros [= <- <- <-]. apply (first_waits _ _ _ _ _ _ got); [done| |by apply Hlen]. left. split; [done|congruence].
Qed.

Lemma poll_read_live fuel now chk room fill this p this' chk' a k s :
  live this a k s → is_initial_read this = false → 0 < room →
  poll_read_inner debug fuel now chk room fill this = Some (p, this', chk') →
  chk' = chk ∧ ∃ got cs s', read_post this this' [] room p a k s got cs s'.
Proof.
  intros Hlv Hi Hroom. unfold poll_read_inner. rewrite (proj2 (Nat.eqb_neq _ _)), Hi by lia. cbn [andb].
  rewrite fmap_Some. intros ([q this1] & Hl & [= -> -> ->]). split; [done|]. by eapply chunk_loop_spec.
Qed.

(** ** Polls return *)
Section returns.
Context `{!FiniteReads S}.

(** Reads that can still succeed; none once the end has been seen. *)
Definition reads_left this : nat := if is_eof this then 0 else Datatypes.S (ready_reads (stream this)).

Lemma spec_data_shrinks a k n l und d n' pend' und' : spec_data a k n l und = Ok (Some d, n', pend', und') → length und' < length und.
Proof.
  unfold spec_data. destruct (_ <? _) eqn:E; to_prop; [done|]. destruct (open _ _ _ _) as [[] buf]; [|done].
  intros [= <- <- <- <-]. rewrite length_drop. unfold TAG_LEN in *. lia.
Qed.
Lemma spec_decrypt_shrinks max a k n pend und d n' pend' und' :
  spec_decrypt max a k n pend und = Ok (Some d, n', pend', und') → length und' < length und.
Proof.
  unfold spec_decrypt. destruct pend as [l|]; [apply spec_data_shrinks|]. destruct (_ <? _) eqn:E; to_prop; [done|].
  destruct (open _ _ _ _) as [[] buf]; [|done]. destruct (_ <? _); [done|]. intros Hs%spec_data_shrinks. rewrite length_drop in Hs. lia.
Qed.

Lemma poll_fill_left this len this' : is_eof this = false → poll_fill_unprocessed debug this = (Ready (Ok len), this') →
  reads_left (if len =? 0 then set_flags (is_initial_read this') (is_initial_write this') true this' else this') < reads_left this.
Proof.
  intros He. unfold poll_fill_unprocessed. destruct (debug && _); [done|].
  destruct (poll_read (stream this) _) as [[[e|bs]|] s] eqn:Er; intros [= <- <-]; [].
  unfold reads_left at 2. rewrite He. destruct bs as [|b bs]; cbn -[reads_left]; unfold reads_left; cbn; [lia|].
  rewrite He. apply ready_reads_law in Er. lia.
Qed.

Definition returns room fill out this : Prop := ∃ N, ∀ fuel, N ≤ fuel → is_Some (read_loop debug fuel room fill out this).

(** Enough rounds, given enough for streams with fewer reads left *)
Lemma needs_returns room fill this out a k s :
  live this a k s → plain (inb this) = [] → stuck s → length out < room →
  (∀ this1 s1, reads_left this1 < reads_left this → live this1 a k s1 → returns room fill out this1) →
  ∃ N, ∀ fuel, N ≤ fuel → is_Some (needs_more fuel room fill out this).
Proof.
  intros Hlv Hp Hst Hout IH. destruct s as [[n pend] und]. destruct (0 <? _); [by exists 0|]. destruct (is_eof this) eqn:He; [by exists 0|].
  pose proof (λ p this1, read_more_spec this a k n pend und p this1 Hlv Hp Hst) as Hm. pose proof Hlv as [Hin Hk Hpe Hu Hpo Hz]. cbn [fst snd] in *.
  destruct (ensure_room_spec debug this Hin) as (i0 & Ee & _); [rewrite has_plain, Hp by done; done|by rewrite Hpe|done|by rewrite Hpe, Hu|].
  rewrite Ee in *. set (this0 := set_in i0 this) in *.
  destruct (poll_fill_unprocessed debug this0) as [q this1] eqn:Ef. specialize (Hm q this1 (ex_intro _ this0 (conj eq_refl Ef))).
  destruct q as [[len|e|]|]; [|by exists 0..]. destruct Hm as (bs & -> & Hr & Hlv1 & Hp1 & _).
  apply poll_fill_left in Ef; [|done]. apply (IH _ (n, pend, und ++ bs)) in Ef as [N HN]; [by exists N|].
  destruct (_ =? 0); [by destruct Hlv1|done].
Qed.

Lemma round_returns room fill this out a k s :
  live this a k s → plain (inb this) = [] → length out < room →
  (∀ this1 s1, reads_left this1 < reads_left this ∨ reads_left this1 = reads_left this ∧ length s1.2 < length s.2 →
     live this1 a k s1 → returns room fill out this1) →
  ∃ N, ∀ fuel, N ≤ fuel → is_Some (next_round fuel room fill out this).
Proof.
  intros Hlv Hp Hout IH. destruct s as [[n pend] und]. pose proof Hlv as [Hin Hk Hpe Hu Hpo Hz]. cbn [fst snd] in *.
  destruct (_ <? _) eqn:E.
  - pose proof (try_decrypt_refines debug this a k n Hin ltac:(rewrite has_plain, Hp by done; done) Hk) as Hd. rewrite Hpe, Hu in Hd.
    destruct (spec_decrypt _ a k n pend und) as [[[[d n1] pend1] und1]|e|] eqn:Es; [|destruct Hd as (? & ? & -> & _); by exists 0|done].
    destruct Hd as (i1 & -> & [Hin1 Hpl1 Hpe1 Hu1 _ _ Hz1]). destruct (spec_decrypt_post _ _ _ _ _ _ _ _ _ _ Es Hpo) as [Hst Hpo1].
    assert (Hlv1 : live (set_opening (Some (key_at a k n1)) i1 this) a k (n1, pend1, und1)).
    { split; try done. unfold sizes_ok in *. cbn [inb set_opening]. by rewrite Hz1. }
    destruct d as [d|].
    + apply spec_decrypt_shrinks in Es. eapply IH; [|done]. by right.
    + eapply needs_returns; [done|done|by apply Hst|done|]. intros this1 s1 Hl. apply IH. by left.
  - eapply needs_returns; [done..| |done|intros this1 s1 Hl; apply IH; by left]. unfold stuck. cbn [fst snd]. rewrite <- Hu. to_prop.
    unfold undecrypted. rewrite length_drop. destruct (needed_packet this pend Hpo). lia.
Qed.

Lemma read_loop_returns room fill this out a k s : live this a k s → length out < room → returns room fill out this.
Proof.
  remember (reads_left this) as m eqn:Em. remember (length s.2) as u eqn:Eu.
  revert u this out s Em Eu. induction m as [m IHm] using lt_wf_ind. induction u as [u IHu] using lt_wf_ind.
  intros this out s Em Eu Hlv Hout.
  assert (IH : ∀ out this1 s1, reads_left this1 < reads_left this ∨ reads_left this1 = reads_left this ∧ length s1.2 < length s.2 →
    live this1 a k s1 → length out < room → returns room fill out this1).
  { intros out1 this1 s1 [Hl|[He Hl]] Hlv1 Ho1; [apply (IHm (reads_left this1) ltac:(lia) _ this1 out1 s1 eq_refl eq_refl Hlv1 Ho1)|apply (IHu (length s1.2) ltac:(lia) this1 out1 s1 ltac:(congruence) eq_refl Hlv1 Ho1)]. }
  clear IHm IHu. pose proof Hlv as [Hin _ _ _ _ _]. enough (∃ N, ∀ fuel, N ≤ fuel → is_Some (read_loop debug (Datatypes.S fuel) room fill out this)) as [N HN].
  { exists (Datatypes.S N). intros [|fuel] Hf; [lia|]. apply HN. lia. }
  cbn [read_loop]. destruct (has_plaintext (inb this)) eqn:Hhp.
  - destruct (read_plaintext_ok (room - length out) _ Hin Hhp) as (i' & -> & Hin' & Hpl' & Hu' & Hpe' & _ & _ & Hz').
    assert (Hlv' : live (set_in i' this) a k s) by (destruct Hlv; apply live_in; [by split|congruence..]).
    destruct (true && _) eqn:E; [by exists 0|]. cbn [andb] in E. apply orb_false_iff in E as [E _]. apply Nat.eqb_neq in E.
    rewrite length_app, length_take in E. apply (round_returns _ _ (set_in i' this) _ a k s); [done| |rewrite length_app, length_take; lia|].
    + cbn. rewrite Hpl'. apply drop_ge. lia.
    + intros this1 s1 Hl Hlv1. apply (IH _ _ s1 Hl Hlv1). rewrite length_app, length_take. lia.
  - rewrite app_nil_r, set_in_id. cbn [andb]. eapply round_returns; [done|by apply plain_none|done|]. intros this1 s1 Hl Hlv1. by eapply IH.
Qed.

(** Every poll returns. *)
Lemma poll_read_returns now chk room fill this :
  fresh this ∨ (is_initial_read this = false ∧ ∃ a k s, live this a k s) →
  ∃ N, ∀ fuel, N ≤ fuel → is_Some (poll_read_inner debug fuel now chk room fill this).
Proof.
  intros Hst. unfold poll_read_inner. destruct (room =? 0) eqn:Er; [by exists 0|]. to_prop.
  destruct Hst as [Hfr|(-> & a & k & s & Hlv)].
  - pose proof Hfr as [Hw Hz Hi He]. rewrite Hi, He. cbn [negb andb].
    destruct (header_loop_total (Datatypes.S (read_header_len this)) this Hw Hz) as [[q this0] Eh]; [lia|]. rewrite Eh.
    apply header_loop_spec in Eh as (got & Hsw & Hq & _); [|done..]. destruct q as [[[]|e|]|]; [|by exists 0..].
    destruct Hq as [He0 Hq]. rewrite He in He0. rewrite (sw_und _ _ _ Hsw) in Hq.
    destruct (process_read_header now (this0, chk)) as [r [this1 chk1]] eqn:Ep. pose proof (after_header _ _ _ _ _ _ _ _ Hfr Hsw He0 Hq Ep) as Hp.
    destruct (hdr this now chk (undecrypted (inb this) ++ got)) as [[[[[k m] pend] und]|e|] chk2]; [| |done].
    + destruct Hp as (-> & -> & _ & Hlv & _). destruct (read_loop_returns room fill _ [] _ _ _ Hlv) as [N HN]; [cbn; lia|].
      exists N. intros fuel Hf. by apply fmap_is_Some, HN.
    + destruct Hp as (-> & _). by exists 0.
  - cbn [andb]. destruct (read_loop_returns room fill this [] a k s Hlv) as [N HN]; [cbn; lia|].
    exists N. intros fuel Hf. by apply fmap_is_Some, HN.
Qed.
End returns.

End reads.
End ShadowsocksReads.
