(* ===== verification/ShadowsocksWrites.v ===== *)
(** * Shadowsocks streams: writing

    What the writing side puts on the wire: the salt and then every part it
    seals, each under the next nonce, in the order of the writes ([writer]); what
    the transport has not taken stays in the cache, which never outgrows a
    packet. *)
From S2P Require Import Prelude Buf SlideBuffer UotAddr Stream Messages SocksAddr SaltChecker Shadowsocks ShadowsocksFacts.
From S2P Require Import ShadowsocksReads.

Module ShadowsocksWrites.
Import Stream Uot Shadowsocks ShadowsocksFacts ShadowsocksReads.

Section writes.
Context (debug : bool) (junk : nat → Z).
Context {A S C : Type} `{Aead A, !AeadLaws A, AsyncStream S, !StreamLaws S, SaltChecker C, !Alloc}.
Implicit Types this : ShadowsocksStream A S.
Implicit Types a : ShadowsocksAeadAlgorithm A.

(** ** Sealing into the cache *)

(** [o] is [o0] with [bs] appended *)
Definition appended (o0 o : outbound) (bs : bytes) : Prop :=
  vdata (write_cache o) = vdata (write_cache o0) ++ bs ∧ write_cache_start_offset o = write_cache_start_offset o0.

Lemma appended_trans o0 o1 o2 xs ys : appended o0 o1 xs → appended o1 o2 ys → appended o0 o2 (xs ++ ys).
Proof. intros [Hx Hx'] [Hy Hy']. split; [by rewrite Hy, Hx, app_assoc|congruence]. Qed.

Lemma vdata_extend bs v : vdata (vec_extend bs v) = vdata v ++ bs.
Proof. unfold vec_extend, vec_reserve_exact. by destruct (_ <=? _). Qed.

Lemma ensure_write_cache_spec n this :
  ∃ o, ensure_write_cache n this = (Ok tt, set_out o this) ∧ appended (outb this) o [].
Proof.
  unfold ensure_write_cache. run_m. destruct (_ <=? _).
  - exists (outb this). split; [by destruct this as [? ? ? ? ? ? ? ? ? ? ? [] ? ? ?]|]. split; [by rewrite app_nil_r|done].
  - eexists. split; [reflexivity|]. unfold vec_reserve_exact. cbn. split; [|done]. destruct (_ <=? _); cbn; by rewrite app_nil_r.
Qed.

Lemma push_cache_spec bs this : ∃ o, push_cache bs this = (Ok tt, set_out o this) ∧ appended (outb this) o bs.
Proof.
  eexists. split; [reflexivity|]. split; [apply vdata_extend|done].
Qed.

Lemma seal_tail_spec d x a k n this :
  sealing_key this = key_at a k n → small x → vdata (write_cache (outb this)) = d ++ x →
  ∃ o, seal_tail (length d) this = (Ok tt, set_sealing (key_at a k (Datatypes.S n)) o this) ∧
    vdata (write_cache o) = d ++ sealed a k n x ∧ write_cache_start_offset o = write_cache_start_offset (outb this).
Proof.
  intros Hk Hx Hd. unfold seal_tail. cbv zeta. rewrite (slice_suffix (vdata (write_cache (outb this))) (length d)) by (rewrite Hd, length_app; lia). rewrite Hd, drop_app_length.
  destruct (seal_spec a k n x Hx) as (c & t & Hs & Hct & Hc). rewrite Hk, Hs. eexists. split; [reflexivity|]. split; [|done].
  cbn [write_cache set_cache]. rewrite vdata_extend. cbn [vec_overwrite vdata].
  rewrite Hd, take_app_length, <- Hct, (app_assoc d c t). f_equal.
  rewrite (drop_ge (d ++ x)) by (rewrite length_app; lia). by rewrite app_nil_r.
Qed.

(** A piece sealed behind what the cache holds *)
Lemma push_sealed x a k n this :
  sealing_key this = key_at a k n → small x →
  ∃ o, (start ← gets cache_len; _ ← push_cache x; seal_tail start) this = (Ok tt, set_sealing (key_at a k (Datatypes.S n)) o this) ∧
    appended (outb this) o (sealed a k n x).
Proof.
  intros Hk Hx. rewrite (io_bind_Ok (gets cache_len) _ _ _ _ eq_refl). destruct (push_cache_spec x this) as (o1 & Hp & Hd1 & Hs1).
  rewrite (io_bind_Ok _ _ _ _ _ Hp).
  destruct (seal_tail_spec (vdata (write_cache (outb this))) x a k n (set_out o1 this) Hk Hx Hd1) as (o & Hs & Hd & Hst).
  exists o. split; [exact Hs|]. split; [done|]. rewrite Hst. exact Hs1.
Qed.

Definition chunk (input : bytes) (write_length_header : bool) : list bytes :=
  if write_length_header then [len_bytes (length input); input] else [input].

Lemma small_len_bytes n : small (len_bytes n).
Proof. unfold small, len_bytes. cbn [length]. lia. Qed.

Lemma encrypt_single_spec input h a k n this :
  sealing_key this = key_at a k n → small input →
  ∃ o, encrypt_single input h this = (Ok tt, set_sealing (key_at a k (n + length (chunk input h))) o this) ∧
    appended (outb this) o (wire a k n (chunk input h)).
Proof.
  intros Hk Hx. unfold encrypt_single. destruct (ensure_write_cache_spec ((if h then 2 + TAG_LEN else 0) + length input + TAG_LEN) this) as (o0 & He & Ha0).
  rewrite (io_bind_Ok _ _ _ _ _ He), (io_bind_Ok (gets cache_len) _ _ _ _ eq_refl). unfold or_truncate.
  enough (∃ o, seal_into_write_cache input h (set_out o0 this) = (Ok tt, set_sealing (key_at a k (n + length (chunk input h))) o (set_out o0 this)) ∧
    appended o0 o (wire a k n (chunk input h))) as (o & -> & Ha).
  { exists o. split; [done|]. exact (appended_trans _ _ _ [] _ Ha0 Ha). }
  unfold seal_into_write_cache. destruct h; cbn [chunk wire length]; rewrite app_nil_r.
  - destruct (push_sealed (len_bytes (length input)) a k n (set_out o0 this) Hk (small_len_bytes _)) as (o1 & Hp1 & Ha1).
    rewrite (io_bind_Ok _ _ _ _ _ Hp1). set (this1 := set_sealing _ o1 _).
    destruct (push_sealed input a k (Datatypes.S n) this1 eq_refl Hx) as (o2 & Hp2 & Ha2).
    exists o2. rewrite Nat.add_comm. split; [exact Hp2|]. by eapply appended_trans.
  - destruct (push_sealed input a k n (set_out o0 this) Hk Hx) as (o2 & Hp2 & Ha2). exists o2. rewrite Nat.add_comm.
    split; [exact Hp2|exact Ha2].
Qed.

(** ** Writing the cache out *)

(** An error of the transport on the writing side *)
Definition write_reports (e : io_error) : Prop :=
  e = IoError UnexpectedEof "EOF while writing cached encrypted data" ∨
  (∃ (s : S) bs s', poll_write s bs = (Ready (inl e), s')) ∨
  (∃ (s : S) s', poll_flush s = (Ready (inl e), s')) ∨ ∃ (s : S) s', poll_shutdown s = (Ready (inl e), s').

(** What moving bytes from the cache to the transport changes *)
Record drains this this' : Prop := {
  dr_shape : ∃ o s, this' = set_out o (set_stream s this);
  dr_received : received (stream this') = received (stream this);
  dr_bytes : accepted (stream this') ++ unsent (outb this') = accepted (stream this) ++ unsent (outb this);
  dr_len : vlen (write_cache (outb this')) ≤ vlen (write_cache (outb this));
  dr_ok : out_ok (max_packet_len this) (outb this) → out_ok (max_packet_len this') (outb this') }.

Lemma drains_refl this : drains this this.
Proof. split; try done. exists (outb this), (stream this). by destruct this as [? ? ? ? ? ? ? ? ? ? ? [] ? ? ?]. Qed.
Lemma drains_trans this1 this2 this3 : drains this1 this2 → drains this2 this3 → drains this1 this3.
Proof. intros [(o & s & ->)] [(o' & s' & ->)]. split; [by exists o', s'|congruence|congruence|lia|auto]. Qed.
Lemma drains_stream this s : received s = received (stream this) → accepted s = accepted (stream this) → drains this (set_stream s this).
Proof. intros Hr Ha. split; try done; [|cbn; by rewrite Ha]. exists (outb this), s. by destruct this as [? ? ? ? ? ? ? ? ? ? ? [] ? ? ?]. Qed.

Lemma drains_config this this' : drains this this' → config this' = config this ∧ inb this' = inb this ∧ opening_key this' = opening_key this ∧
  decrypt_iv this' = decrypt_iv this ∧ is_initial_read this' = is_initial_read this ∧ is_eof this' = is_eof this.
Proof. by intros [(o & s & ->)]. Qed.

Lemma cache_loop_spec fuel this r this' :
  write_cache_start_offset (outb this) < cache_len this → cache_len this - write_cache_start_offset (outb this) < fuel →
  write_loop fuel this = (r, this') →
  drains this this' ∧
  match r with
  | Ok true => cache_len this' = 0 ∧ write_cache_start_offset (outb this') = 0
  | Ok false => unsent (outb this') ≠ []
  | Err e => write_reports e
  | Panic => False
  end.
Proof.
  revert this. induction fuel as [|fuel IH]; intros this Hlt Hf; [lia|]. cbn [write_loop]. unfold cache_len in *.
  rewrite slice_suffix by lia. fold (unsent (outb this)). destruct (poll_write (stream this) _) as [[[e|n]|] s] eqn:Ew;
    pose proof (write_law _ _ _ _ Ew) as [Hr Ha].
  - intros [= <- <-]. split; [by apply drains_stream|]. right. left. by eexists _, _, _.
  - destruct Ha as [Hn Ha]. unfold unsent in Hn. rewrite length_drop in Hn. destruct (n =? 0) eqn:E0; to_prop.
    { intros [= <- <-]. split; [|by left]. apply drains_stream; [done|]. subst n. rewrite Ha, firstn_O, app_nil_r. done. }
    set (o := mkOutbound (write_cache (outb this)) (write_cache_start_offset (outb this) + n)).
    assert (Hd : drains this (set_out o (set_stream s this)) ∨ write_cache_start_offset o = vlen (write_cache o)).
    { destruct (decide (write_cache_start_offset o = vlen (write_cache o))) as [|Hne]; [by right|left]. split; try done.
      - by exists o, s.
      - cbn [outb set_out set_sealing stream set_stream]. rewrite Ha, <- app_assoc. f_equal. unfold unsent. cbn [o write_cache write_cache_start_offset].
        rewrite <- drop_drop, take_drop. done.
      - intros []. cbn [o write_cache write_cache_start_offset outb set_out set_sealing] in *. split; cbn [o write_cache write_cache_start_offset]; [lia|lia|done]. }
    destruct (_ =? vlen _) eqn:E1; to_prop.
    + intros [= <- <-]. split; [|done]. split; try done.
      * eexists _, s. reflexivity.
      * cbn [outb set_out set_sealing stream set_stream]. rewrite Ha. unfold unsent. cbn. rewrite firstn_O, app_nil_r. f_equal.
        apply take_ge. rewrite length_drop. cbn in E1. lia.
      * cbn. rewrite firstn_O. cbn. lia.
      * intros _. split; cbn; rewrite ?firstn_O; cbn; [done|done|lia].
    + destruct Hd as [Hd|Hd]; [|done]. intros Hl. apply IH in Hl as [Hd' Hl].
      * split; [by eapply drains_trans|done].
      * cbn in *. lia.
      * cbn in *. lia.
  - intros [= <- <-]. split; [by apply drains_stream|]. cbn. unfold unsent. intros Hn%(f_equal length). rewrite length_drop in Hn. cbn in Hn. lia.
Qed.

Lemma do_write_cache_spec this r this' :
  write_cache_start_offset (outb this) < cache_len this → do_write_cache this = (r, this') →
  drains this this' ∧
  match r with
  | Ok true => cache_len this' = 0 ∧ write_cache_start_offset (outb this') = 0
  | Ok false => unsent (outb this') ≠ []
  | Err e => write_reports e
  | Panic => False
  end.
Proof. intros Hlt. apply cache_loop_spec; lia. Qed.

(** ** What is on the wire *)

Definition chunk_parts (cs : list bytes) : list bytes := cs ≫= λ c, chunk c true.
(** The fixed part of a header of AEAD-2022 *)
Definition header (t : ShadowsocksStreamType) (now : Z) (request_salt : bytes) (len : nat) : bytes :=
  match t with
  | AEAD2022Server => [1%Z] ++ be_encode 8 now ++ request_salt ++ len_bytes len
  | _ => [0%Z] ++ be_encode 8 now ++ len_bytes len
  end.
(** The parts that are sealed for the chunks [cs] *)
Definition parts (t : ShadowsocksStreamType) (now : Z) (request_salt : bytes) (cs : list bytes) : list bytes :=
  match t, cs with
  | Aead_, _ => chunk_parts cs
  | _, [] => []
  | _, c :: cs => header t now request_salt (length c) :: c :: chunk_parts cs
  end.

Lemma chunk_parts_snoc cs c : chunk_parts (cs ++ [c]) = chunk_parts cs ++ chunk c true.
Proof. unfold chunk_parts. rewrite bind_app. cbn [mbind list_bind]. by rewrite app_nil_r. Qed.
Lemma parts_snoc t now rs cs c : cs ≠ [] → parts t now rs (cs ++ [c]) = parts t now rs cs ++ chunk c true.
Proof.
  intros Hcs. destruct t, cs as [|c0 cs]; try done; [by apply chunk_parts_snoc|..]; cbn [parts app]; by rewrite chunk_parts_snoc.
Qed.

Lemma length_wire_chunk a k n c : small c → length (wire a k n (chunk c true)) = length c + METADATA_SIZE.
Proof.
  intros Hc. cbn [chunk wire]. rewrite app_nil_r, length_app, !length_sealed by (done || apply small_len_bytes).
  unfold len_bytes, METADATA_SIZE. cbn [length]. lia.
Qed.

Lemma request_header_ok now len : request_header junk now len = Ok (header AEAD2022Client now [] len).
Proof.
  unfold request_header. change (Slide.allocate_vec junk (1 + 8 + 2)) with ([] ++ Slide.allocate_vec junk (1 + 8 + 2)).
  set (h := Slide.allocate_vec junk (1 + 8 + 2)). assert (Hh : length h = 11) by (unfold h; by rewrite Slide.length_allocate). clearbody h.
  rewrite SocksAddr.copy_at_next by (done || (cbn; lia)). cbn [mbind outcome_bind].
  rewrite SocksAddr.copy_at_next by (done || (rewrite ?length_drop, length_be_encode; cbn [length]; lia)). cbn [mbind outcome_bind].
  rewrite SocksAddr.copy_at_next; [|by rewrite length_app, length_be_encode|rewrite !length_drop, length_be_encode; cbn [length len_bytes]; lia].
  rewrite !drop_drop, drop_ge, app_nil_r by (rewrite length_be_encode, Hh; cbn [length len_bytes]; lia). done.
Qed.

Lemma response_header_ok now iv len n : length iv = n → response_header junk now iv len n = Ok (header AEAD2022Server now iv len).
Proof.
  intros Hn. unfold response_header. rewrite (proj2 (Nat.eqb_eq _ _) Hn).
  change (Slide.allocate_vec junk (1 + 8 + n + 2)) with ([] ++ Slide.allocate_vec junk (1 + 8 + n + 2)).
  set (h := Slide.allocate_vec junk (1 + 8 + n + 2)). assert (Hh : length h = 11 + n) by (unfold h; rewrite Slide.length_allocate; lia). clearbody h.
  rewrite SocksAddr.copy_at_next by (done || (cbn; lia)). cbn [mbind outcome_bind].
  rewrite SocksAddr.copy_at_next by (done || (rewrite ?length_drop, length_be_encode; cbn [length]; lia)). cbn [mbind outcome_bind].
  rewrite SocksAddr.copy_at_next; [|by rewrite length_app, length_be_encode|rewrite !length_drop, length_be_encode; cbn [length]; lia]. cbn [mbind outcome_bind].
  rewrite SocksAddr.copy_at_next; [|rewrite !length_app, length_be_encode; cbn [length]; lia|rewrite !length_drop, length_be_encode; cbn [length len_bytes]; lia].
  rewrite !drop_drop, drop_ge, app_nil_r by (rewrite length_be_encode, Hh; cbn [length len_bytes]; lia). by rewrite <- !app_assoc.
Qed.

Lemma push_salt_spec this : ∃ o, push_salt this = (Ok tt, set_out o this) ∧ appended (outb this) o (encrypt_iv this).
Proof.
  unfold push_salt. rewrite (io_bind_Ok (gets salt_len) _ _ _ _ eq_refl), (io_bind_Ok (gets encrypt_iv) _ _ _ _ eq_refl).
  destruct (ensure_write_cache_spec (salt_len this) this) as (o0 & He & Ha0). rewrite (io_bind_Ok _ _ _ _ _ He).
  destruct (push_cache_spec (encrypt_iv this) (set_out o0 this)) as (o & Hp & Ha). exists o. split; [exact Hp|].
  exact (appended_trans _ _ _ [] _ Ha0 Ha).
Qed.

Lemma map_err_Ok {X} msg (m : io (ShadowsocksStream A S) X) this x this' : m this = (Ok x, this') → map_err msg m this = (Ok x, this').
Proof. unfold map_err. by intros ->. Qed.

(** ** The first write *)
Lemma bind_sub {X} x y (f : nat → io (ShadowsocksStream A S) X) this : y ≤ x → (lift (usize_sub x y) ≫= f) this = f (x - y) this.
Proof. intros Hl. apply io_bind_Ok. unfold lift, usize_sub. by rewrite (proj2 (Nat.leb_le _ _)). Qed.

(** Salts have the length of the cipher's, at most that of the longest key. *)
Record salted this : Prop := {
  sl_iv : length (encrypt_iv this) = salt_len this;
  sl_max : salt_len this ≤ MAX_SESSION_KEY_LEN;
  sl_request iv : decrypt_iv this = Some iv → length iv = salt_len this }.

(** Nothing has been put in the cache. *)
Record unwritten this a k : Prop := {
  uw_key : sealing_key this = key_at a k 0;
  uw_data : vdata (write_cache (outb this)) = [];
  uw_start : write_cache_start_offset (outb this) = 0 }.

(** The cache of a first write *)
Record first_cache this this' a k (iv : bytes) (ps : list bytes) : Prop := {
  fc_shape : ∃ o, this' = set_sealing (key_at a k (length ps)) o (set_decrypt_iv (decrypt_iv this') this);
  fc_data : vdata (write_cache (outb this')) = iv ++ wire a k 0 ps;
  fc_start : write_cache_start_offset (outb this') = 0 }.

Lemma first_cache_len this this' a k iv ps : first_cache this this' a k iv ps → Forall small ps →
  cache_len this' = length iv + length (concat ps) + TAG_LEN * length ps.
Proof.
  intros [_ Hd _] Hps. unfold cache_len. rewrite Hd, length_app. enough (∀ n, length (wire a k n ps) = length (concat ps) + TAG_LEN * length ps) as ->; [lia|].
  clear Hd. induction Hps as [|p ps Hp Hps IH]; intros n; [done|]. cbn [wire concat length]. rewrite !length_app, length_sealed, IH by done. lia.
Qed.

Lemma first_cache_of this o1 o iv a k ps : unwritten this a k →
  appended (outb this) o1 (encrypt_iv this) → appended o1 o (wire a k 0 ps) →
  first_cache this (set_sealing (key_at a k (length ps)) o (set_decrypt_iv iv this)) a k (encrypt_iv this) ps.
Proof.
  intros [Hk Hd Hs] [Hd1 Hs1] [Hd2 Hs2]. rewrite Hd in Hd1. split; cbn [outb set_sealing].
  - by exists o.
  - by rewrite Hd2, Hd1.
  - congruence.
Qed.

Lemma legacy_write_header now buf this a k :
  stream_type this = Aead_ → salted this → unwritten this a k → buf ≠ [] →
  ∃ h this', process_write_header junk now buf this = (Ok h, this') ∧ 0 < h ≤ length buf ∧
    h + salt_len this ≤ max_payload_len Aead_ ∧ decrypt_iv this' = decrypt_iv this ∧
    first_cache this this' a k (encrypt_iv this) (parts Aead_ now [] [take h buf]).
Proof.
  intros Ht [Hiv Hmax _] Hu Hbuf. pose proof Hu as [Hk Hd Hs]. unfold process_write_header.
  rewrite (io_bind_Ok (gets stream_type) _ _ _ _ eq_refl), (io_bind_Ok (gets salt_len) _ _ _ _ eq_refl), (io_bind_Ok (gets max_packet_len) _ _ _ _ eq_refl), Ht.
  destruct (push_salt_spec this) as (o1 & Hp & Ha1). pose proof Ha1 as [Hd1 _]. rewrite Hd in Hd1. rewrite (io_bind_Ok _ _ _ _ _ Hp), (io_bind_Ok (gets cache_len) _ _ _ _ eq_refl).
  assert (Hc : cache_len (set_out o1 this) = salt_len this) by (unfold cache_len; cbn; by rewrite Hd1).
  unfold max_packet_len. rewrite Hc, Ht. unfold MAX_SESSION_KEY_LEN, METADATA_SIZE, TAG_LEN in *. cbn [max_payload_len].
  rewrite !bind_sub by lia.
  set (h := Nat.min (length buf) _). assert (Hh : 0 < h) by (destruct buf; [done|]; unfold h; cbn [length]; lia).
  rewrite (proj2 (Nat.eqb_neq _ _)) by lia.
  assert (Hsm : small (take h buf)) by (unfold small; rewrite length_take; unfold h; lia).
  destruct (encrypt_single_spec (take h buf) true a k 0 (set_out o1 this) Hk Hsm) as (o & He & Ha2).
  rewrite (io_bind_Ok _ _ _ _ _ (map_err_Ok _ _ _ _ _ He)). eexists h, _. split; [reflexivity|]. split; [unfold h in *; lia|]. split; [unfold h; lia|].
  split; [done|]. cbn [parts chunk_parts mbind list_bind]. rewrite app_nil_r. pose proof (first_cache_of this o1 o (decrypt_iv this) a k _ Hu Ha1 Ha2) as Hf.
  by rewrite set_decrypt_iv_id in Hf.
Qed.

(** Header and first chunk of AEAD-2022 *)
Lemma seal_first hd c m1 m2 (h : nat) a k this :
  sealing_key this = key_at a k 0 → small hd → small c →
  ∃ o, (_ ← map_err m1 (encrypt_single hd false); _ ← map_err m2 (encrypt_single c false); mret h) this =
      (Ok h, set_sealing (key_at a k 2) o this) ∧
    appended (outb this) o (wire a k 0 [hd; c]).
Proof.
  intros Hk Hh Hc. destruct (encrypt_single_spec hd false a k 0 this Hk Hh) as (o1 & He1 & Ha1).
  rewrite (io_bind_Ok _ _ _ _ _ (map_err_Ok _ _ _ _ _ He1)). set (this1 := set_sealing _ o1 this).
  destruct (encrypt_single_spec c false a k 1 this1 eq_refl Hc) as (o2 & He2 & Ha2). exists o2.
  split; [by rewrite (io_bind_Ok _ _ _ _ _ (map_err_Ok _ _ _ _ _ He2))|].
  eapply appended_trans in Ha2; [|exact Ha1]. cbn [chunk wire] in *. by rewrite app_nil_r in Ha2 at 1.
Qed.

Lemma small_header t now rs n : length rs ≤ MAX_SESSION_KEY_LEN → small (header t now rs n).
Proof.
  intros Hl. unfold small, header, MAX_SESSION_KEY_LEN, len_bytes in *. destruct t; rewrite !length_app, length_be_encode; cbn [length]; lia.
Qed.

Lemma client_write_header now buf this a k :
  stream_type this = AEAD2022Client → salted this → unwritten this a k →
  ∃ this', decrypt_iv this' = decrypt_iv this ∧
    if length buf + salt_len this + 9 <=? max_payload_len AEAD2022Client then
      process_write_header junk now buf this = (Ok (length buf), this') ∧
      first_cache this this' a k (encrypt_iv this) (parts AEAD2022Client now [] [buf])
    else process_write_header junk now buf this = (initial_too_large, this') ∧ first_cache this this' a k (encrypt_iv this) [].
Proof.
  intros Ht [Hiv Hmax _] Hu. pose proof Hu as [Hk Hd Hs]. unfold process_write_header.
  rewrite (io_bind_Ok (gets stream_type) _ _ _ _ eq_refl), (io_bind_Ok (gets salt_len) _ _ _ _ eq_refl), (io_bind_Ok (gets max_packet_len) _ _ _ _ eq_refl), Ht.
  destruct (push_salt_spec this) as (o1 & Hp & Ha1). rewrite (io_bind_Ok _ _ _ _ _ Hp).
  unfold max_packet_len. rewrite Ht. unfold MAX_SESSION_KEY_LEN, METADATA_SIZE, TAG_LEN in *. cbn [max_payload_len].
  rewrite !bind_sub by lia. destruct (_ <=? N.to_nat 65535) eqn:El; to_prop.
  - rewrite (proj2 (Nat.ltb_ge _ _)) by lia. rewrite request_header_ok. erewrite (io_bind_Ok (lift _)) by reflexivity.
    destruct (seal_first (header AEAD2022Client now [] (length buf)) buf "failed to encrypt response header" "failed to encrypt initial client packet"
      (length buf) a k (set_out o1 this) Hk) as (o & He & Ha2); [by apply small_header; cbn; lia|unfold small; lia|].
    exists (set_sealing (key_at a k 2) o (set_decrypt_iv (decrypt_iv this) this)). split; [done|]. split; [|exact (first_cache_of _ o1 _ _ _ _ [_; _] Hu Ha1 Ha2)].
    rewrite He. by rewrite (set_decrypt_iv_id this).
  - rewrite (proj2 (Nat.ltb_lt _ _)) by lia. exists (set_sealing (key_at a k 0) o1 (set_decrypt_iv (decrypt_iv this) this)). split; [done|].
    split; [rewrite (set_decrypt_iv_id this) by done; rewrite <- Hk; done|]. apply (first_cache_of _ o1 o1 _ _ _ [] Hu Ha1). split; [by rewrite app_nil_r|done].
Qed.

Lemma server_write_header now buf this a k :
  stream_type this = AEAD2022Server → salted this → unwritten this a k → buf ≠ [] →
  match is_initial_read this, decrypt_iv this with
  | false, Some iv => ∃ h this', process_write_header junk now buf this = (Ok h, this') ∧ 0 < h ≤ length buf ∧
      h + 2 * salt_len this + 9 ≤ max_payload_len AEAD2022Server ∧
      decrypt_iv this' = None ∧ first_cache this this' a k (encrypt_iv this) (parts AEAD2022Server now iv [take h buf])
  | _, _ => ∃ msg iv, process_write_header junk now buf this = (err InvalidInput msg, set_decrypt_iv iv this) ∧ (iv = decrypt_iv this ∨ iv = None)
  end.
Proof.
  intros Ht [Hiv Hmax Hrq] Hu Hbuf. pose proof Hu as [Hk Hd Hs]. unfold process_write_header.
  rewrite (io_bind_Ok (gets stream_type) _ _ _ _ eq_refl), (io_bind_Ok (gets salt_len) _ _ _ _ eq_refl), (io_bind_Ok (gets max_packet_len) _ _ _ _ eq_refl), Ht.
  rewrite (io_bind_Ok (gets is_initial_read) _ _ _ _ eq_refl).
  destruct (is_initial_read this); [by eexists _, (decrypt_iv this); rewrite set_decrypt_iv_id; [split; [done|left]|]|].
  rewrite (io_bind_Ok (gets decrypt_iv) _ _ _ _ eq_refl), (io_bind_Ok (modify _) _ _ _ _ eq_refl).
  destruct (decrypt_iv this) as [iv|] eqn:Eiv; [|eexists _, _; split; [done|by right]]. specialize (Hrq _ eq_refl). erewrite (io_bind_Ok (lift _)) by reflexivity.
  destruct (push_salt_spec (set_decrypt_iv None this)) as (o1 & Hp & Ha1). rewrite (io_bind_Ok _ _ _ _ _ Hp).
  unfold max_packet_len. rewrite Ht. unfold MAX_SESSION_KEY_LEN, METADATA_SIZE, TAG_LEN in *. cbn [max_payload_len].
  rewrite !bind_sub by lia. set (h := Nat.min (length buf) _). assert (Hh : 0 < h) by (destruct buf; [done|]; unfold h; cbn [length]; lia).
  rewrite response_header_ok by done. erewrite (io_bind_Ok (lift _)) by reflexivity.
  destruct (seal_first (header AEAD2022Server now iv h) (take h buf) "failed to encrypt response header" "failed to encrypt initial server packet"
    h a k (set_out o1 (set_decrypt_iv None this)) Hk) as (o & He & Ha2);
    [apply small_header; unfold MAX_SESSION_KEY_LEN; lia|unfold small; rewrite length_take; unfold h; lia|].
  exists h, (set_sealing (key_at a k 2) o (set_decrypt_iv None this)). split; [by rewrite He|]. split; [unfold h in *; lia|]. split; [unfold h; lia|].
  split; [done|]. unfold parts. rewrite length_take, Nat.min_l by (unfold h; lia). exact (first_cache_of _ o1 _ _ _ _ [_; _] Hu Ha1 Ha2).
Qed.

(** ** Writers *)

(** A stream over a transport that had taken [base]: it has sealed the chunks
    [cs], the first of them at [now] in answer to [request_salt]. *)
Record writer this (base : bytes) (now : Z) (request_salt : bytes) (cs : list bytes) : Prop := {
  wr_salted : salted this;
  wr_key : sealing_key this = key_at (algorithm this) (key this (encrypt_iv this)) (length (parts (stream_type this) now request_salt cs));
  wr_out : out_ok (max_packet_len this) (outb this);
  wr_bytes : accepted (stream this) ++ unsent (outb this) =
    base ++ (if is_initial_write this then [] else
      encrypt_iv this ++ wire (algorithm this) (key this (encrypt_iv this)) 0 (parts (stream_type this) now request_salt cs));
  wr_initial : is_initial_write this = true → cs = [] ∧ unsent (outb this) = [];
  wr_started : is_initial_write this = false → cs ≠ [];
  wr_chunks : Forall (λ c, 0 < length c ≤ max_payload_len (stream_type this)) cs }.

(** What writing leaves alone *)
Record writes_only this this' : Prop := {
  wo_in : inb this' = inb this;
  wo_opening : opening_key this' = opening_key this;
  wo_read : is_initial_read this' = is_initial_read this;
  wo_eof : is_eof this' = is_eof this;
  wo_static : (stream_type this', algorithm this', salt_len this', key this', salt_checker this', encrypt_iv this') =
              (stream_type this, algorithm this, salt_len this, key this, salt_checker this, encrypt_iv this);
  wo_received : received (stream this') = received (stream this);
  wo_iv : decrypt_iv this' = decrypt_iv this ∨ decrypt_iv this' = None }.

Lemma writes_only_refl this : writes_only this this.
Proof. split; try done. by left. Qed.
Lemma writes_only_trans this1 this2 this3 : writes_only this1 this2 → writes_only this2 this3 → writes_only this1 this3.
Proof. intros [] []. split; try congruence. destruct wo_iv0, wo_iv1; (left; congruence) || (right; congruence). Qed.
Lemma drains_writes_only this this' : drains this this' → writes_only this this'.
Proof. intros [(o & s & ->) Hr _ _]. split; try done. by left. Qed.

Lemma out_ok_empty max o : out_ok max o → unsent o = [] → vdata (write_cache o) = [] ∧ write_cache_start_offset o = 0.
Proof.
  intros [Hs He _] Hu. apply (f_equal length) in Hu. unfold unsent in Hu. rewrite length_drop in Hu. cbn in Hu.
  assert (vlen (write_cache o) = 0) by (apply He; lia). split; [by apply nil_length_inv|lia].
Qed.

Lemma writer_unwritten this base now rs cs : writer this base now rs cs → is_initial_write this = true →
  unwritten this (algorithm this) (key this (encrypt_iv this)) ∧ accepted (stream this) = base ∧ cs = [].
Proof.
  intros [_ Hk Ho Hb Hi _ _] Hw. destruct (Hi Hw) as [-> Hu]. rewrite Hw, Hu, !app_nil_r in Hb. destruct (out_ok_empty _ _ Ho Hu).
  split; [|done]. split; [|done..]. rewrite Hk. by destruct (stream_type this).
Qed.

Lemma writer_drains this this' base now rs cs : drains this this' → writer this base now rs cs → writer this' base now rs cs.
Proof.
  intros [(o & s & ->) Hr Hb Hl Hok] [[Hiv Hmax Hrq] Hk Ho Hby Hi Hst Hc]. split; try done; [by apply Hok|cbn in *; congruence|].
  intros Hw. destruct (Hi Hw) as [-> Hu]. split; [done|]. destruct (out_ok_empty _ _ Ho Hu) as [Hd _]. rewrite Hd in Hl.
  unfold unsent in *. cbn [outb set_out set_sealing] in *. rewrite (nil_length_inv (vdata (write_cache o))) by (cbn in Hl; lia). by rewrite drop_nil.
Qed.

(** The stream after its first write *)
Lemma writer_first this this' base now rs c :
  salted this → accepted (stream this) = base → 0 < length c ≤ max_payload_len (stream_type this) →
  (decrypt_iv this' = decrypt_iv this ∨ decrypt_iv this' = None) → length rs ≤ MAX_SESSION_KEY_LEN →
  first_cache this this' (algorithm this) (key this (encrypt_iv this)) (encrypt_iv this) (parts (stream_type this) now rs [c]) →
  length (encrypt_iv this) + length (concat (parts (stream_type this) now rs [c])) + 2 * TAG_LEN ≤ max_packet_len this →
  let this'' := set_flags (is_initial_read this') false (is_eof this') this' in
  writer this'' base now rs [c] ∧ writes_only this this'' ∧ 0 < cache_len this'' ∧ write_cache_start_offset (outb this'') = 0.
Proof.
  intros [Hiv Hmax Hrq] Ha Hc Hdec Hrs Hf Hlen this''.
  assert (Hsm : Forall small (parts (stream_type this) now rs [c])).
  { assert (small c) by (unfold small; destruct (stream_type this); cbn [max_payload_len] in Hc; lia).
    pose proof (small_len_bytes (length c)). pose proof (small_header (stream_type this) now rs (length c) Hrs).
    destruct (stream_type this); (apply Forall_cons; split; [assumption|]; apply Forall_singleton; assumption). }
  assert (Hlp : length (parts (stream_type this) now rs [c]) = 2) by (destruct (stream_type this); reflexivity).
  pose proof (first_cache_len _ _ _ _ _ _ Hf Hsm) as Hcl. rewrite Hlp in Hcl. destruct Hf as [(o & Hsh) Hd Hs].
  assert (Hpos : 0 < cache_len this') by (unfold TAG_LEN in *; lia). assert (Hle : cache_len this' ≤ max_packet_len this) by lia.
  set (iv1 := decrypt_iv this') in *. clearbody iv1. subst this'. unfold cache_len in Hpos, Hle. cbn [outb set_sealing] in *.
  split; [|split; [|split; [exact Hpos|exact Hs]]].
  - split.
    + split; [exact Hiv|exact Hmax|]. intros iv Hi. change (iv1 = Some iv) in Hi. destruct Hdec; [apply Hrq|]; congruence.
    + reflexivity.
    + split; cbn [this'' outb set_flags set_sealing]; [lia|lia|exact Hle].
    + change (accepted (stream this) ++ unsent o = base ++ encrypt_iv this ++
        wire (algorithm this) (key this (encrypt_iv this)) 0 (parts (stream_type this) now rs [c])).
      unfold unsent. by rewrite Hs, drop_0, Hd, Ha.
    + intros [=].
    + intros _ [=].
    + apply Forall_singleton. exact Hc.
  - split; try reflexivity. exact Hdec.
Qed.

Definition write_refused (e : io_error) : Prop := ∃ msg, e = IoError InvalidInput msg.

Lemma length_concat_parts t now rs c :
  length (concat (parts t now rs [c])) = length c + match t with Aead_ => 2 | AEAD2022Server => 11 + length rs | AEAD2022Client => 11 end.
Proof. destruct t; cbn [parts chunk_parts mbind list_bind chunk concat app]; unfold header, len_bytes; rewrite !length_app, ?length_be_encode; cbn [length]; lia. Qed.

(** The header of a first write, and the stream once it counts as written *)
Definition first_written this now buf base h this' : Prop :=
  0 < h ≤ length buf ∧
  ∃ rs, (stream_type this = AEAD2022Server → is_initial_read this = false ∧ decrypt_iv this = Some rs) ∧
    let this'' := set_flags (is_initial_read this') false (is_eof this') this' in
    writer this'' base now rs [take h buf] ∧ writes_only this this'' ∧ 0 < cache_len this'' ∧ write_cache_start_offset (outb this'') = 0.

Lemma first_written_of now buf this base h this' rs :
  salted this → accepted (stream this) = base → 0 < h ≤ length buf →
  (stream_type this = AEAD2022Server → is_initial_read this = false ∧ decrypt_iv this = Some rs) →
  (decrypt_iv this' = decrypt_iv this ∨ decrypt_iv this' = None) → length rs ≤ MAX_SESSION_KEY_LEN →
  first_cache this this' (algorithm this) (key this (encrypt_iv this)) (encrypt_iv this) (parts (stream_type this) now rs [take h buf]) →
  salt_len this + h + match stream_type this with Aead_ => 0 | AEAD2022Server => 9 + length rs | AEAD2022Client => 9 end ≤ max_payload_len (stream_type this) →
  first_written this now buf base h this'.
Proof.
  intros Hsl Ha Hh Hsv Hd Hrs Hf Hl. split; [exact Hh|]. exists rs. split; [exact Hsv|].
  assert (Hlt : length (take h buf) = h) by (rewrite length_take; lia).
  apply (writer_first this this' base now rs (take h buf) Hsl Ha); [rewrite Hlt; lia|exact Hd|exact Hrs|exact Hf|].
  rewrite (sl_iv _ Hsl), length_concat_parts, Hlt. unfold max_packet_len, METADATA_SIZE, TAG_LEN. destruct (stream_type this); lia.
Qed.

Lemma first_cache_only this this' a k iv ps : (decrypt_iv this' = decrypt_iv this ∨ decrypt_iv this' = None) →
  first_cache this this' a k iv ps → writes_only this this'.
Proof. intros Hd [(o & ->) _ _]. split; try reflexivity. exact Hd. Qed.

Lemma first_write_spec now buf this base n0 rs0 cs r this' :
  writer this base n0 rs0 cs → is_initial_write this = true → buf ≠ [] → process_write_header junk now buf this = (r, this') →
  writes_only this this' ∧
  match r with Ok h => first_written this now buf base h this' | Err e => write_refused e | Panic => False end.
Proof.
  intros Hw Hi Hbuf Hp. destruct (writer_unwritten _ _ _ _ _ Hw Hi) as (Hu & Ha & ->). pose proof (wr_salted _ _ _ _ _ Hw) as Hsl.
  pose proof (first_written_of now buf this base) as Hof. destruct (stream_type this) eqn:Et.
  - destruct (legacy_write_header now buf this _ _ Et Hsl Hu Hbuf) as (h & this1 & Hp1 & Hh & Hl & Hd & Hf). rewrite Hp in Hp1. injection Hp1 as -> ->.
    split; [eapply first_cache_only; [by left|exact Hf]|]. apply (Hof h this1 []); try done; [by left|cbn; lia|lia].
  - pose proof (server_write_header now buf this _ _ Et Hsl Hu Hbuf) as Hs.
    destruct (is_initial_read this) eqn:Er, (decrypt_iv this) as [iv|] eqn:Eiv.
    1-2: destruct Hs as (msg & iv' & Hp1 & Hiv); rewrite Hp in Hp1; injection Hp1 as -> ->; split; [by split; try reflexivity; cbn; rewrite Eiv|by exists msg].
    + destruct Hs as (h & this1 & Hp1 & Hh & Hl & Hd & Hf). rewrite Hp in Hp1. injection Hp1 as -> ->. pose proof (sl_request _ Hsl iv Eiv) as Hn.
      split; [eapply first_cache_only; [by right|exact Hf]|]. pose proof (sl_max _ Hsl).
      apply (Hof h this1 iv); try done; [by right|lia|lia].
    + destruct Hs as (msg & iv' & Hp1 & Hiv). rewrite Hp in Hp1. injection Hp1 as -> ->. split; [by split; try reflexivity; cbn; rewrite Eiv|by exists msg].
  - destruct (client_write_header now buf this _ _ Et Hsl Hu) as (this1 & Hd & Hc). destruct (_ <=? _) eqn:El; destruct Hc as [Hp1 Hf]; rewrite Hp in Hp1; injection Hp1 as -> ->.
    + split; [eapply first_cache_only; [by left|exact Hf]|]. to_prop. rewrite <- (take_ge buf (length buf)) in Hf at 1 by lia.
      apply (Hof (length buf) this1 []); try done; [destruct buf; [done|cbn; lia]|by left|cbn; lia|lia].
    + split; [eapply first_cache_only; [by left|exact Hf]|by eexists].
Qed.

(** ** The polls *)
Lemma out_ok_lt max o : out_ok max o → 0 < vlen (write_cache o) → write_cache_start_offset o < vlen (write_cache o).
Proof. intros [Hs He _] Hp. destruct (decide (write_cache_start_offset o = vlen (write_cache o))) as [E|]; [apply He in E; lia|lia]. Qed.

Lemma seal_chunk_spec c this base now rs cs :
  writer this base now rs cs → is_initial_write this = false → 0 < length c ≤ max_payload_len (stream_type this) →
  cache_len this + length c + METADATA_SIZE ≤ max_packet_len this →
  ∃ this', encrypt_single c true this = (Ok tt, this') ∧ writer this' base now rs (cs ++ [c]) ∧ writes_only this this' ∧
    write_cache_start_offset (outb this') < cache_len this'.
Proof.
  intros [Hsl Hk Ho Hb Hin Hst Hch] Hi Hc Hmax. specialize (Hst Hi). rewrite Hi in Hb.
  assert (Hsm : small c) by (unfold small; destruct (stream_type this); cbn [max_payload_len] in Hc; lia).
  destruct (encrypt_single_spec c true _ _ _ this Hk Hsm) as (o & He & Hd & Hs). eexists. split; [exact He|].
  assert (Hlen : vlen (write_cache o) = cache_len this + length c + METADATA_SIZE) by (rewrite Hd, length_app, length_wire_chunk by done; unfold cache_len; lia).
  pose proof Ho as [Hos _ _]. unfold cache_len in *. unfold METADATA_SIZE, TAG_LEN in *.
  split; [|split; [split; try reflexivity; by left|cbn [outb set_sealing]; lia]].
  split; [destruct Hsl; split; assumption| | | | | |].
  - cbn [sealing_key set_sealing stream_type algorithm key encrypt_iv]. by rewrite parts_snoc, length_app.
  - split; cbn [outb set_sealing]; [lia|lia|]. change (max_packet_len (set_sealing _ _ _)) with (max_packet_len this). lia.
  - cbn [accepted stream set_sealing outb is_initial_write encrypt_iv algorithm key stream_type]. rewrite Hi, parts_snoc, wire_parts_app by done.
    unfold unsent in *. rewrite Hs, Hd, drop_app_le, app_assoc, Hb, Nat.add_0_l by lia. by rewrite <- !app_assoc.
  - cbn. by rewrite Hi.
  - intros _. by destruct cs.
  - apply Forall_app. split; [exact Hch|]. apply Forall_singleton. exact Hc.
Qed.

Lemma push_out_spec n this p this' : write_cache_start_offset (outb this) < cache_len this → push_out n this = (p, this') →
  drains this this' ∧ (p = Ready (Ok n) ∨ ∃ e, p = Ready (Err e) ∧ write_reports e).
Proof.
  intros Hlt. unfold push_out, mbind, io_bind. destruct (do_write_cache this) as [r this1] eqn:Ed.
  destruct (do_write_cache_spec _ _ _ Hlt Ed) as [Hd Hr]. destruct r as [b|e|]; [| |done]; intros [= <- <-]; (split; [done|]); [by left|right; by eexists].
Qed.

Lemma make_space_spec this r this' : out_ok (max_packet_len this) (outb this) → make_space this = (r, this') →
  drains this this' ∧
  match r with
  | Ok (Some space) => METADATA_SIZE < space ∧ cache_len this' + space = max_packet_len this'
  | Ok None => True
  | Err e => write_reports e
  | Panic => False
  end.
Proof.
  intros Ho. pose proof Ho as [Hs He Hm]. unfold make_space, usize_sub. unfold cache_len in *. rewrite (proj2 (Nat.leb_le _ _)) by lia.
  assert (Hmp : METADATA_SIZE < max_packet_len this).
  { unfold max_packet_len, METADATA_SIZE. destruct (stream_type this); cbn [max_payload_len]; lia. }
  destruct (_ <=? METADATA_SIZE) eqn:E; to_prop; [|intros [= <- <-]; split; [apply drains_refl|lia]].
  destruct (do_write_cache this) as [r1 this1] eqn:Ed. apply do_write_cache_spec in Ed as [Hd Hr]; [|apply (out_ok_lt _ _ Ho); lia].
  destruct r1 as [[]|e|]; [| | |done].
  - destruct Hr as [Hr1 Hr2]. unfold cache_len in Hr1. rewrite Hr1, Hr2. intros [= <- <-]. split; [done|].
    assert (max_packet_len this1 = max_packet_len this) as -> by (apply config_max; by apply drains_config). rewrite Hr1. lia.
  - by intros [= <- <-].
  - by intros [= <- <-].
Qed.

Lemma poll_flush_cache_spec this p this' : out_ok (max_packet_len this) (outb this) → poll_flush_cache this = (p, this') →
  drains this this' ∧
  match p with
  | Ready (Ok _) => cache_len this' = 0 ∧ unsent (outb this') = []
  | Ready (Err e) => write_reports e
  | Pending => True
  | Ready Panic => False
  end.
Proof.
  intros Ho. unfold poll_flush_cache. destruct (cache_len this =? 0) eqn:E; to_prop.
  { intros [= <- <-]. split; [apply drains_refl|]. split; [done|]. unfold unsent, cache_len in *. rewrite (nil_length_inv _ E). by rewrite drop_nil. }
  destruct (do_write_cache this) as [r1 this1] eqn:Ed. apply do_write_cache_spec in Ed as [Hd Hr]; [|apply (out_ok_lt _ _ Ho); unfold cache_len in *; lia].
  destruct r1 as [[]|e|]; [| | |done]; intros [= <- <-]; [|done..]. split; [done|]. destruct Hr as [Hr _]. split; [done|].
  unfold unsent, cache_len in *. rewrite (nil_length_inv _ Hr). by rewrite drop_nil.
Qed.

(** Time and request salt of the first write stay; they are those of the first one. *)
Definition starts this (now n0 : Z) (rs0 : bytes) (cs : list bytes) (n1 : Z) (rs1 : bytes) : Prop :=
  cs ≠ [] ∧ n1 = n0 ∧ rs1 = rs0 ∨
  cs = [] ∧ n1 = now ∧ (stream_type this = AEAD2022Server → is_initial_read this = false ∧ decrypt_iv this = Some rs1).
Definition wrote this now base n0 rs0 cs c this' : Prop :=
  ∃ n1 rs1, writer this' base n1 rs1 (cs ++ [c]) ∧ starts this now n0 rs0 cs n1 rs1.

Lemma writer_max this this' : writes_only this this' → max_packet_len this' = max_packet_len this ∧ stream_type this' = stream_type this.
Proof. intros [_ _ _ _ Hst _ _]. injection Hst as Ht _ _ _ _ _. unfold max_packet_len. by rewrite Ht. Qed.
Lemma drains_initial this this' : drains this this' → is_initial_write this' = is_initial_write this.
Proof. by intros [(o & s & ->)]. Qed.

(** A chunk sealed after the first *)
Lemma seal_after this this1 base n0 rs0 cs c msg :
  drains this this1 → writer this base n0 rs0 cs → is_initial_write this = false → 0 < length c ≤ max_payload_len (stream_type this) →
  cache_len this1 + length c + METADATA_SIZE ≤ max_packet_len this1 →
  ∃ this2, map_err msg (encrypt_single c true) this1 = (Ok tt, this2) ∧ writer this2 base n0 rs0 (cs ++ [c]) ∧ writes_only this this2 ∧
    write_cache_start_offset (outb this2) < cache_len this2.
Proof.
  intros Hd Hw Hi Hc Hm. pose proof (drains_writes_only _ _ Hd) as Hwo. destruct (writer_max _ _ Hwo) as [_ Ht].
  destruct (seal_chunk_spec c this1 base n0 rs0 cs) as (this2 & He & Hw2 & Hwo2 & Hlt);
    [by eapply writer_drains|by rewrite (drains_initial _ _ Hd)|by rewrite Ht|done|].
  exists this2. split; [by apply map_err_Ok|]. split; [done|]. split; [by eapply writes_only_trans|done].
Qed.

Lemma poll_write_spec now buf this p this' base n0 rs0 cs :
  writer this base n0 rs0 cs → buf ≠ [] → poll_write_ junk now buf this = (p, this') →
  writes_only this this' ∧
  match p with
  | Ready (Ok h) => 0 < h ≤ length buf ∧ wrote this now base n0 rs0 cs (take h buf) this'
  | Ready (Err e) => write_reports e ∨ write_refused e
  | Pending => writer this' base n0 rs0 cs
  | Ready Panic => False
  end.
Proof.
  intros Hw Hbuf. unfold poll_write_. rewrite (proj2 (Nat.eqb_neq _ _)) by (destruct buf; [done|cbn; lia]).
  destruct (is_initial_write this) eqn:Hi.
  - destruct (process_write_header junk now buf this) as [r this1] eqn:Ep. destruct (first_write_spec _ _ _ _ _ _ _ _ _ Hw Hi Hbuf Ep) as [Hwo Hr].
    destruct r as [h|e|]; [|rewrite (io_bind_Err _ _ _ _ _ Ep); intros [= <- <-]; split; [done|by right]|done].
    rewrite (io_bind_Ok _ _ _ _ _ Ep), (io_bind_Ok (gets cache_len) _ _ _ _ eq_refl).
    destruct Hr as (Hh & rs & Hrs & Hw2 & Hwo2 & Hc2 & Hs2). set (this2 := set_flags (is_initial_read this1) false (is_eof this1) this1) in *.
    change (cache_len this1) with (cache_len this2). rewrite (proj2 (Nat.eqb_neq h 0)), (proj2 (Nat.eqb_neq (cache_len this2) 0)) by lia. cbn [orb].
    rewrite (io_bind_Ok written_first _ this1 tt this2 eq_refl). unfold mret, io_ret. cbv beta iota. intros Hpo. apply push_out_spec in Hpo as [Hd Hp]; [|lia].
    split; [eapply writes_only_trans; [done|by apply drains_writes_only]|]. destruct Hp as [->|(e & -> & He)]; [|by left].
    split; [done|]. destruct (writer_unwritten _ _ _ _ _ Hw Hi) as (_ & _ & ->). exists now, rs. split; [by eapply writer_drains|by right].
  - destruct (make_space this) as [r this1] eqn:Em. destruct (make_space_spec _ _ _ (wr_out _ _ _ _ _ Hw) Em) as [Hd Hr].
    pose proof (drains_writes_only _ _ Hd) as Hwo. destruct (writer_max _ _ Hwo) as [Hmx Ht].
    destruct r as [[space|]|e|]; [|intros [= <- <-]; split; [done|by eapply writer_drains]|intros [= <- <-]; split; [done|by left]|done].
    destruct Hr as [Hsp Hcl]. set (n := Nat.min _ _). assert (Hn : 0 < n ≤ length buf ∧ n ≤ max_payload_len (stream_type this) ∧ n + METADATA_SIZE ≤ space).
    { unfold n. rewrite Ht. destruct buf; [done|]. cbn [length]. destruct (stream_type this); cbn [max_payload_len]; lia. }
    assert (Hlt : length (take n buf) = n) by (rewrite length_take; lia).
    destruct (seal_after this this1 base n0 rs0 cs (take n buf) "failed to encrypt packet" Hd Hw Hi) as (this2 & He & Hw2 & Hwo2 & Hlt2); [lia|lia|].
    rewrite He. intros Hpo. apply push_out_spec in Hpo as [Hd2 Hp]; [|lia].
    split; [eapply writes_only_trans; [done|by apply drains_writes_only]|]. destruct Hp as [->|(e & -> & He2)]; [|by left].
    split; [lia|]. exists n0, rs0. split; [by eapply writer_drains|left; split; [by apply (wr_started _ _ _ _ _ Hw)|done]].
Qed.

Lemma write_message_spec now buf this p this' base n0 rs0 cs :
  writer this base n0 rs0 cs → is_initial_write this = false → 0 < length buf ≤ max_payload_len (stream_type this) → write_message buf this = (p, this') →
  writes_only this this' ∧
  match p with
  | Ready (Ok _) => wrote this now base n0 rs0 cs buf this'
  | Ready (Err e) => write_reports e ∨ write_refused e
  | Pending => writer this' base n0 rs0 cs
  | Ready Panic => False
  end.
Proof.
  intros Hw Hi Hbuf. pose proof (wr_out _ _ _ _ _ Hw) as Ho. pose proof Ho as [_ _ Hm]. unfold write_message, usize_sub, cache_len in *.
  rewrite (proj2 (Nat.leb_le _ _)) by lia.
  assert (Hle : length buf + METADATA_SIZE ≤ max_packet_len this) by (unfold max_packet_len; lia). rewrite (proj2 (Nat.ltb_ge _ _)) by lia.
  assert (Hseal : ∀ this1, drains this this1 → vlen (write_cache (outb this1)) + length buf + METADATA_SIZE ≤ max_packet_len this1 →
    (let '(r, this) := map_err "failed to encrypt packet" (encrypt_single buf true) this1 in (Ready r, this)) = (p, this') →
    writes_only this this' ∧ p = Ready (Ok tt) ∧ wrote this now base n0 rs0 cs buf this').
  { intros this1 Hd1 Hm1. destruct (seal_after this this1 base n0 rs0 cs buf "failed to encrypt packet" Hd1 Hw Hi Hbuf Hm1) as (this2 & -> & Hw2 & Hwo2 & _).
    intros [= <- <-]. split; [done|]. split; [done|]. exists n0, rs0. split; [done|]. left. split; [by apply (wr_started _ _ _ _ _ Hw)|done]. }
  destruct (_ <? length buf + METADATA_SIZE) eqn:E; to_prop.
  - destruct (poll_flush_cache this) as [q this1] eqn:Ef. apply (poll_flush_cache_spec _ _ _ Ho) in Ef as [Hd Hq]. pose proof (drains_writes_only _ _ Hd) as Hwo.
    destruct (writer_max _ _ Hwo) as [Hmx _].
    destruct q as [[[]|e|]|]; [|intros [= <- <-]; split; [done|by left]|done|intros [= <- <-]; split; [done|by eapply writer_drains]].
    destruct Hq as [Hq _]. unfold cache_len in Hq. rewrite Hq, Nat.sub_0_r. cbn [Nat.leb]. rewrite (proj2 (Nat.ltb_ge _ _)) by lia.
    intros Hs. apply Hseal in Hs as (? & -> & ?); [done|done|lia].
  - intros Hs. apply Hseal in Hs as (? & -> & ?); [done|apply drains_refl|lia].
Qed.

Lemma message_write_spec now buf this p this' base n0 rs0 cs :
  writer this base n0 rs0 cs → buf ≠ [] → poll_write_message junk now buf this = (p, this') →
  writes_only this this' ∧
  match p with
  | Ready (Ok _) => wrote this now base n0 rs0 cs buf this'
  | Ready (Err e) => write_reports e ∨ write_refused e
  | Pending => writer this' base n0 rs0 cs
  | Ready Panic => False
  end.
Proof.
  intros Hw Hbuf. unfold poll_write_message. assert (Hpos : 0 < length buf) by (destruct buf; [done|cbn; lia]).
  rewrite (proj2 (Nat.eqb_neq _ _)) by lia.
  destruct (_ <? length buf) eqn:El; to_prop; [intros [= <- <-]; split; [apply writes_only_refl|right; by eexists]|].
  destruct (is_initial_write this) eqn:Hi; [|by apply write_message_spec].
  destruct (process_write_header junk now buf this) as [r this1] eqn:Ep. destruct (first_write_spec _ _ _ _ _ _ _ _ _ Hw Hi Hbuf Ep) as [Hwo Hr].
  destruct r as [h|e|]; [|rewrite (io_bind_Err _ _ _ _ _ Ep); intros [= <- <-]; split; [done|by right]|done].
  rewrite (io_bind_Ok _ _ _ _ _ Ep). destruct (h =? length buf) eqn:Eh; cbn [negb]; [|intros [= <- <-]; split; [done|right; by eexists]].
  to_prop. subst h. destruct Hr as (Hh & rs & Hrs & Hw2 & Hwo2 & _). rewrite take_ge in Hw2 by lia. intros [= <- <-]. split; [done|].
  destruct (writer_unwritten _ _ _ _ _ Hw Hi) as (_ & _ & ->). exists now, rs. split; [exact Hw2|by right].
Qed.

Lemma poll_flush_spec_ this p this' : out_ok (max_packet_len this) (outb this) → poll_flush_ this = (p, this') →
  drains this this' ∧
  match p with
  | Ready (Ok _) => unsent (outb this') = []
  | Ready (Err e) => write_reports e
  | Pending => True
  | Ready Panic => False
  end.
Proof.
  intros Ho. unfold poll_flush_. destruct (poll_flush_cache this) as [q this1] eqn:Ef. apply (poll_flush_cache_spec _ _ _ Ho) in Ef as [Hd Hq].
  destruct q as [[[]|e|]|]; [|intros [= <- <-]; by split|done|intros [= <- <-]; by split].
  destruct (poll_flush (stream this1)) as [r s] eqn:Es. destruct (flush_law _ _ _ Es) as [Hr Ha]. intros [= <- <-].
  split; [eapply drains_trans; [done|by apply drains_stream]|]. destruct r as [[e|[]]|]; cbn; [|apply Hq|done].
  right. right. left. by eexists _, _.
Qed.

Lemma poll_shutdown_spec_ this p this' : out_ok (max_packet_len this) (outb this) → poll_shutdown_ this = (p, this') →
  drains this this' ∧
  match p with
  | Ready (Ok _) => unsent (outb this') = []
  | Ready (Err e) => write_reports e
  | Pending => True
  | Ready Panic => False
  end.
Proof.
  intros Ho. unfold poll_shutdown_. destruct (poll_flush_ this) as [q this1] eqn:Ef. apply (poll_flush_spec_ _ _ _ Ho) in Ef as [Hd Hq].
  destruct q as [[[]|e|]|]; [|intros [= <- <-]; by split|done|intros [= <- <-]; by split].
  destruct (poll_shutdown (stream this1)) as [r s] eqn:Es. destruct (shutdown_law _ _ _ Es) as [Hr Ha]. intros [= <- <-].
  split; [eapply drains_trans; [done|by apply drains_stream]|]. destruct r as [[e|[]]|]; cbn; [|apply Hq|done].
  right. right. right. by eexists _, _.
Qed.

End writes.
End ShadowsocksWrites.
