(* ===== verification/ShadowsocksEnds.v ===== *)
(** * Shadowsocks streams: an end of a connection

    A caller that polls a stream in any order ([step]): reads until an end or an
    error, writes until an error.  [end_ok] says what any such run comes to: which
    chunks were sealed, in which order; that what was delivered are the chunks the
    received bytes open to; where an error came from; and that nothing panicked. *)
From S2P Require Import Prelude Buf SlideBuffer UotAddr Stream Messages SaltChecker Shadowsocks ShadowsocksFacts ShadowsocksReads.
From S2P Require Import ShadowsocksWrites.

Module ShadowsocksEnds.
Import Stream Uot Shadowsocks ShadowsocksFacts ShadowsocksReads ShadowsocksWrites.

(** Polls, each with the time it is made at; a read also with the salt checker as
    it is then, which other streams share. *)
Inductive op (C : Type) :=
  | Read (fuel : nat) (now : Z) (chk : C) (room : nat)
  | ReadMessage (fuel : nat) (now : Z) (chk : C) (room : nat)
  | Write (now : Z) (buf : bytes)
  | WriteMessage (now : Z) (buf : bytes)
  | Flush
  | Shutdown.
Arguments Read {C}.
Arguments ReadMessage {C}.
Arguments Write {C}.
Arguments WriteMessage {C}.
Arguments Flush {C}.
Arguments Shutdown {C}.

Definition op_time {C} (o : op C) : option Z :=
  match o with Read _ now _ _ | ReadMessage _ now _ _ | Write now _ | WriteMessage now _ => Some now | _ => None end.

Record end_ (A S : Type) := mkEnd {
  ss : ShadowsocksStream A S;
  reads : bool;
  writes : bool;
  delivered : bytes;
  written : bytes;
  read_error : option io_error;
  panicked : bool }.
Arguments mkEnd {A S}.
Arguments ss {A S}.
Arguments reads {A S}.
Arguments writes {A S}.
Arguments delivered {A S}.
Arguments written {A S}.
Arguments read_error {A S}.
Arguments panicked {A S}.

Section ends.
Context (debug : bool) (junk : nat → Z).
Context {A S C : Type} `{Aead A, AsyncStream S, SaltChecker C, !Alloc}.
Implicit Types this : ShadowsocksStream A S.
Implicit Types c : end_ A S.

Definition started this : end_ A S := mkEnd this true true [] [] None false.

Definition read_answer c (room : nat) (p : Poll (outcome bytes)) this : end_ A S :=
  match p with
  | Pending => mkEnd this (reads c) (writes c) (delivered c) (written c) (read_error c) (panicked c)
  | Ready (Ok bs) => mkEnd this ((room =? 0) || negb (length bs =? 0)) (writes c) (delivered c ++ bs) (written c) (read_error c) (panicked c)
  | Ready (Err e) => mkEnd this false (writes c) (delivered c) (written c) (Some e) (panicked c)
  | Ready Panic => mkEnd this false (writes c) (delivered c) (written c) (read_error c) true
  end.

Definition write_answer {X} c (taken : X → bytes) (p : Poll (outcome X)) this : end_ A S :=
  match p with
  | Pending => mkEnd this (reads c) (writes c) (delivered c) (written c) (read_error c) (panicked c)
  | Ready (Ok x) => mkEnd this (reads c) (writes c) (delivered c) (written c ++ taken x) (read_error c) (panicked c)
  | Ready (Err _) => mkEnd this (reads c) false (delivered c) (written c) (read_error c) (panicked c)
  | Ready Panic => mkEnd this (reads c) false (delivered c) (written c) (read_error c) true
  end.

(** [None] when the fuel of a read does not do *)
Definition step c (o : op C) : option (end_ A S) :=
  let reading room r := if reads c then (λ '(p, this, _), read_answer c room p this) <$> r else Some c in
  let writing {X} (taken : X → bytes) r := if writes c then Some (let '(p, this) := r in write_answer c taken p this) else Some c in
  match o with
  | Read fuel now chk room => reading room (poll_read_ debug fuel now chk room (ss c))
  | ReadMessage fuel now chk room => reading room (poll_read_message debug fuel now chk room (ss c))
  | Write now buf => writing (λ n, take n buf) (poll_write_ junk now buf (ss c))
  | WriteMessage now buf => writing (λ _, buf) (poll_write_message junk now buf (ss c))
  | Flush => writing (λ _, []) (poll_flush_ (ss c))
  | Shutdown => writing (λ _, []) (poll_shutdown_ (ss c))
  end.

Fixpoint run c (ops : list (op C)) : option (end_ A S) :=
  match ops with
  | [] => Some c
  | o :: ops => match step c o with Some c => run c ops | None => None end
  end.

(** ** What has been read *)
Context `{!AeadLaws A, !StreamLaws S}.

Definition static this := (stream_type this, algorithm this, salt_len this, key this, salt_checker this, encrypt_iv this).

Lemma opens_trans max (a : ShadowsocksAeadAlgorithm A) k s1 g1 cs1 s2 g2 cs2 s3 :
  opens max a k s1 g1 cs1 s2 → opens max a k s2 g2 cs2 s3 → opens max a k s1 (g1 ++ g2) (cs1 ++ cs2) s3.
Proof.
  induction 1; intros Ho; [done| |].
  - rewrite <- app_assoc. constructor. auto.
  - rewrite <- app_assoc. econstructor; [done|]. auto.
Qed.

(** [h] opens to the chunks [cs], read by a stream like [this0] at [now]. *)
Definition opens_to this0 (h : bytes) (now : Z) (chk : C) (k : bytes) (cs : list bytes) (s' : ast) : Prop :=
  ∃ h1 h2 m pend und chk', h = h1 ++ h2 ∧ read_header_len this0 ≤ length h1 ∧ hdr this0 now chk h1 = (Ok (k, m, pend, und), chk') ∧
    opens (max_payload_len (stream_type this0)) (algorithm this0) k (m, pend, und) h2 cs s'.

Lemma opens_to_more this0 h now chk k cs s1 got cs2 s2 :
  opens_to this0 h now chk k cs s1 → opens (max_payload_len (stream_type this0)) (algorithm this0) k s1 got cs2 s2 →
  opens_to this0 (h ++ got) now chk k (cs ++ cs2) s2.
Proof.
  intros (h1 & h2 & m & pend & und & chk' & -> & Hl & Hh & Ho) Hm. exists h1, (h2 ++ got), m, pend, und, chk'.
  split; [by rewrite app_assoc|]. split_and!; [done|done|]. by eapply opens_trans.
Qed.

(** A stream that may be read, [h] having been received and [del] delivered at
    times that satisfy [T] *)
Inductive reading (T : Z → Prop) this0 this (h del : bytes) : Prop :=
  | reading_header : fresh this → undecrypted (inb this) = h → length h < read_header_len this0 → del = [] → reading T this0 this h del
  | reading_chunks now chk k cs s' :
      T now → is_initial_read this = false → opens_to this0 h now chk k cs s' → live this (algorithm this0) k s' →
      concat cs = del ++ plain (inb this) → reading T this0 this h del.

(** What was delivered are chunks of the beginning of what was received. *)
Definition got_from (T : Z → Prop) this0 (h del : bytes) : Prop :=
  del = [] ∨ ∃ now chk k cs s' h' rest, T now ∧ h' `prefix_of` h ∧ opens_to this0 h' now chk k cs s' ∧ concat cs = del ++ rest.

(** Where an error can come from: the transport, a header or a chunk *)
Inductive fault (T : Z → Prop) this0 (h : bytes) (e : io_error) : Prop :=
  | fault_transport : reports (S := S) e → fault T this0 h e
  | fault_header now chk chk' h1 :
      T now → h1 `prefix_of` h → read_header_len this0 ≤ length h1 → hdr this0 now chk h1 = (Err e, chk') → fault T this0 h e
  | fault_chunk now chk k cs s' h1 :
      T now → h1 `prefix_of` h → opens_to this0 h1 now chk k cs s' →
      spec_decrypt (max_payload_len (stream_type this0)) (algorithm this0) k s'.1.1 s'.1.2 s'.2 = Err e → fault T this0 h e.

Lemma static_config this this0 : config this = config this0 → static this = static this0.
Proof. unfold config, static. by intros [= -> -> -> -> -> -> _ _]. Qed.
Lemma static_hdr this this0 now (chk : C) g : static this = static this0 → hdr this now chk g = hdr this0 now chk g.
Proof. unfold static, hdr. by intros [= -> -> -> -> -> ->]. Qed.
Lemma static_len this this0 : static this = static this0 → read_header_len this = read_header_len this0.
Proof. unfold static, read_header_len. by intros [= -> _ -> _ _ _]. Qed.

Lemma reading_got T this0 this h del : reading T this0 this h del → got_from T this0 h del.
Proof. intros [|now chk k cs s']; [by left|]. right. by exists now, chk, k, cs, s', h, (plain (inb this)). Qed.
Lemma got_more T this0 h del got : got_from T this0 h del → got_from T this0 (h ++ got) del.
Proof.
  intros [->|(now & chk & k & cs & s' & h' & rest & Ht & Hp & Ho & Hc)]; [by left|right].
  exists now, chk, k, cs, s', h', rest. split; [done|]. split; [by apply prefix_app_r|done].
Qed.
Lemma fault_more T this0 h e got : fault T this0 h e → fault T this0 (h ++ got) e.
Proof.
  intros [Hr|now chk chk' h1 Ht Hp Hl He|now chk k cs s' h1 Ht Hp Ho He]; [by apply fault_transport| |].
  - eapply (fault_header _ _ _ _ now chk chk' h1); [done|by apply prefix_app_r|done..].
  - eapply (fault_chunk _ _ _ _ now chk k cs s' h1); [done|by apply prefix_app_r|done..].
Qed.

(** A read that parks has opened every whole chunk and handed it out. *)
Definition settled (T : Z → Prop) this0 (h del : bytes) : Prop :=
  (length h < read_header_len this0 ∧ del = []) ∨
  ∃ now chk k cs s', T now ∧ opens_to this0 h now chk k cs s' ∧ stuck s' ∧ concat cs = del.

Definition read_outcome (T : Z → Prop) this0 this' (h del : bytes) (p : Poll (outcome bytes)) : Prop :=
  match p with
  | Pending => reading T this0 this' h del ∧ settled T this0 h del
  | Ready (Ok o) => got_from T this0 h (del ++ o) ∧ (o ≠ [] → reading T this0 this' h (del ++ o))
  | Ready (Err e) => got_from T this0 h del ∧ fault T this0 h e
  | Ready Panic => False
  end.

(** Once the header has been read it has all been there, and a server has kept the
    salt in front of it. *)
Definition header_read this0 this this' (h : bytes) : Prop :=
  is_initial_read this' = is_initial_read this ∧ decrypt_iv this' = decrypt_iv this ∨
  read_header_len this0 ≤ length h ∧ is_initial_read this' = false ∧
  decrypt_iv this' = (match stream_type this0 with AEAD2022Server => Some (take (salt_len this0) h) | _ => decrypt_iv this end).

(** The answer of a loop over chunks *)
Lemma chunks_outcome T this0 this this' room p now (chk : C) k s h del got cs cs1 s1 :
  T now → opens_to this0 h now chk k cs s → concat cs = del ++ plain (inb this) → static this = static this0 → is_initial_read this = false →
  read_post this this' [] room p (algorithm this0) k s got cs1 s1 → read_outcome T this0 this' (h ++ got) del p.
Proof.
  intros Ht Ho Hcs Hst Hi [Hro Hop Han [Hfl _]]. injection Hst as Hty _ _ _ _ _. rewrite Hty in *.
  pose proof (opens_to_more _ _ _ _ _ _ _ _ _ _ Ho Hop) as Ho'. cbn [app] in Han. unfold answer_ok in Han.
  assert (Hall : ∀ o, plain (inb this) ++ concat cs1 = o ++ plain (inb this') → concat (cs ++ cs1) = (del ++ o) ++ plain (inb this')).
  { intros o Ha. by rewrite concat_app, Hcs, <- !app_assoc, Ha. }
  destruct p as [[o|e|]|]; [| |done|].
  - destruct Han as ([Hlv Hd] & _ & _). apply Hall in Hd. split.
    + right. by exists now, chk, k, (cs ++ cs1), s1, (h ++ got), (plain (inb this')).
    + intros _. apply (reading_chunks _ _ _ _ _ now chk k (cs ++ cs1) s1); [done|congruence|done..].
  - split; [|destruct Han as [(_ & _ & He)|He]; [by apply fault_transport|by eapply fault_chunk]].
    apply got_more. right. by exists now, chk, k, cs, s, h, (plain (inb this)).
  - destruct Han as ([Hlv Hd] & Hp & Hs). apply (Hall []) in Hd. rewrite app_nil_r in Hd. split.
    + apply (reading_chunks _ _ _ _ _ now chk k (cs ++ cs1) s1); [done|congruence|done..].
    + right. exists now, chk, k, (cs ++ cs1), s1. rewrite Hp, app_nil_r in Hd. done.
Qed.

Lemma read_reading T this0 fuel now (chk : C) room fill this p this' chk' h del :
  T now → static this = static this0 → reading T this0 this h del → 0 < room →
  poll_read_inner debug fuel now chk room fill this = Some (p, this', chk') →
  ∃ got, reads_only this this' got ∧ read_outcome T this0 this' (h ++ got) del p ∧ header_read this0 this this' (h ++ got).
Proof.
  intros Ht Hst Hr Hroom Hp. pose proof (static_len _ _ Hst) as Hlen. destruct Hr as [Hfr Hu Hl ->|now0 chk0 k cs s' Ht0 Hi Ho Hlv Hcs].
  - apply (poll_read_first debug fuel now chk room fill this p this' chk' Hfr Hroom) in Hp.
    destruct Hp as [p this' got Hsw Hp Hn|e this' chk' got Hro Hf1 Hiv1 Hl1 Hh|p this1 this' chk' g1 g2 k m pend und cs s' Hr1 Hl1 Hh Hlv Hpl Hi1 Hiv Hpost].
    + exists got. pose proof Hsw as [Hro Hw1 Hz1 Hu1 _ Hiv1 Hi1]. split; [done|]. split; [|by left]. rewrite Hu in Hu1.
      rewrite Hu, Hu1, Hlen in Hn. specialize (Hn Hl). destruct Hp as [[-> He]|[[-> He]|(e & -> & He & _)]].
      * split; [|by left]. apply reading_header; [|done..]. split; [done|done|rewrite Hi1; apply Hfr|done].
      * by split; [left|].
      * by split; [left|apply fault_transport].
    + exists got. rewrite Hu, ?Hlen, (static_hdr _ _ _ _ _ Hst) in *. split; [done|]. split; [|left; by rewrite (fr_initial _ Hfr), (fr_initial _ Hf1)].
      split; [by left|]. by eapply fault_header.
    + exists (g1 ++ g2). pose proof Hpost as [Hro2 _ _ [Hfl2 Hiv2]]. split; [by eapply reads_only_trans|].
      rewrite Hu, ?Hlen, (static_hdr _ _ _ _ _ Hst) in *. pose proof Hst as Hst'. injection Hst' as Hty Hal Hsl _ _ _. rewrite Hty, Hal, Hsl in *.
      assert (Ho : opens_to this0 (h ++ g1) now chk k [] (m, pend, und)).
      { exists (h ++ g1), [], m, pend, und, chk'. split; [by rewrite app_nil_r|]. split_and!; [done|done|constructor]. }
      rewrite app_assoc. split.
      * apply (chunks_outcome T this0 this1 this' room p now chk k (m, pend, und) (h ++ g1) [] g2 [] cs s' Ht Ho); [by rewrite Hpl| |done|done].
        rewrite (static_config _ _ (ro_config _ _ _ Hr1)). done.
      * right. rewrite length_app. split; [lia|]. split; [congruence|]. rewrite Hiv2, Hiv. destruct (stream_type this0); try done.
        rewrite (take_app_le (h ++ g1)); [done|]. unfold read_header_len in Hl1. destruct (stream_type this0); lia.
  - apply (poll_read_live debug fuel now chk room fill this p this' chk' _ _ _ Hlv Hi Hroom) in Hp as (-> & got & cs1 & s1 & Hpost).
    exists got. pose proof Hpost as [Hro _ _ [Hfl Hiv]]. split; [done|]. split; [by eapply chunks_outcome|by left].
Qed.

(** ** Runs *)

(** An end that started as [this0]: it has received [h] and, while its writes have
    not failed, sealed the chunks [cs], the first at [now] for [rs]. *)
Record end_ok (T : Z → Prop) this0 c (h : bytes) (now : Z) (rs : bytes) (cs : list bytes) : Prop := {
  en_panic : panicked c = false;
  en_static : static (ss c) = static this0;
  en_received : received (stream (ss c)) = received (stream this0) ++ h;
  en_reading : reads c = true → reading T this0 (ss c) h (delivered c);
  en_got : got_from T this0 h (delivered c);
  en_fault e : read_error c = Some e → fault T this0 h e;
  en_writer : writes c = true → writer (ss c) (accepted (stream this0)) now rs cs ∧ concat cs = written c ∧ (cs ≠ [] → T now);
  en_iv iv : decrypt_iv (ss c) = Some iv → iv = take (salt_len this0) h ∧ salt_len this0 ≤ length h;
  en_request : stream_type this0 = AEAD2022Server → writes c = true → cs ≠ [] → rs = take (salt_len this0) h ∧ salt_len this0 ≤ length h }.

Lemma salt_header this0 : salt_len this0 ≤ read_header_len this0.
Proof. unfold read_header_len. destruct (stream_type this0); lia. Qed.

Lemma take_salt n (h got iv : bytes) : iv = take n h ∧ n ≤ length h → iv = take n (h ++ got) ∧ n ≤ length (h ++ got).
Proof. intros [-> Hl]. rewrite take_app_le, length_app by done. split; [done|lia]. Qed.

(** Reading does not touch what was written. *)
Lemma reads_writer this this' got base now rs cs :
  reads_only this this' got → (∀ iv, decrypt_iv this' = Some iv → length iv = salt_len this') →
  writer this base now rs cs → writer this' base now rs cs.
Proof.
  intros Hr Hiv' [[Hiv Hmax _] Hk Ho Hb Hi Hs Hc]. pose proof (config_max _ _ (ro_config _ _ _ Hr)) as Hm. destruct Hr as [Hcf Hun Hok Hac _].
  injection Hcf as Ht Ha Hsl Hky _ Hei Hsk Hiw. split; rewrite ?Ht, ?Ha, ?Hky, ?Hei, ?Hsk, ?Hiw, ?Hun, ?Hac, ?Hm; try done; [|by apply Hok].
  split; rewrite ?Hei, ?Hsl; [done|done|]. rewrite <- Hsl. exact Hiv'.
Qed.

(** Writing does not touch what was read. *)
Lemma writes_reading T this0 this this' h del :
  writes_only this this' → reading T this0 this h del → reading T this0 this' h del.
Proof.
  intros Hwo Hr. destruct (writer_max _ _ Hwo) as [Hm Ht]. destruct Hwo as [Hin Hop Hrd Heo _ _ _].
  destruct Hr as [[Hw Hz Hi He] Hu Hl Hd|nw chk k cs s' HT Hi Ho [Hio Hk Hp Hu Hpo Hz] Hc].
  - apply reading_header; [split|..]; rewrite ?Hin, ?Hrd, ?Heo; try done. unfold sizes_ok in *. by rewrite Hin, Hm.
  - apply (reading_chunks _ _ _ _ _ nw chk k cs s'); [done|congruence|done| |by rewrite Hin].
    split; rewrite ?Hin, ?Hop, ?Ht; try done. unfold sizes_ok in *. by rewrite Hin, Hm.
Qed.

Lemma write_end_ok T this0 c h now rs cs this' w wr n' rs' cs' :
  end_ok T this0 c h now rs cs → writes_only (ss c) this' →
  (w = true → writer this' (accepted (stream this0)) n' rs' cs' ∧ concat cs' = wr ∧ (cs' ≠ [] → T n')) →
  (stream_type this0 = AEAD2022Server → w = true → cs' ≠ [] → rs' = take (salt_len this0) h ∧ salt_len this0 ≤ length h) →
  end_ok T this0 (mkEnd this' (reads c) w (delivered c) wr (read_error c) (panicked c)) h n' rs' cs'.
Proof.
  intros [Hpa Hst Hre Hrd Hgo Hfa Hwr Hiv Hrq] Hwo Hw Hr. split; cbn; try done.
  - unfold static in *. by rewrite <- Hst, (wo_static _ _ Hwo).
  - by rewrite (wo_received _ _ Hwo).
  - intros Hd. eapply writes_reading; [done|by apply Hrd].
  - intros iv. destruct (wo_iv _ _ Hwo) as [->| ->]; [apply Hiv|done].
Qed.

(** Writes that took the chunk [x] *)
Lemma wrote_end_ok T this0 c h now rs cs this' t x wr :
  end_ok T this0 c h now rs cs → writes c = true → writes_only (ss c) this' → T t →
  wrote (ss c) t (accepted (stream this0)) now rs cs x this' → wr = written c ++ x →
  ∃ n' rs' cs', end_ok T this0 (mkEnd this' (reads c) true (delivered c) wr (read_error c) (panicked c)) h n' rs' cs'.
Proof.
  intros He Hws Hwo Ht (n1 & rs1 & Hw & Hs) ->. destruct (en_writer _ _ _ _ _ _ _ He Hws) as (_ & Hcat & Htn).
  exists n1, rs1, (cs ++ [x]). eapply write_end_ok; [done|done|..].
  - intros _. split; [done|]. split; [rewrite concat_app, Hcat; cbn; by rewrite app_nil_r|]. intros _. destruct Hs as [(Hne & -> & _)|(_ & -> & _)]; auto.
  - intros Hsv _ _. pose proof (en_static _ _ _ _ _ _ _ He) as Hst. injection Hst as Hty _ _ _ _ _.
    destruct Hs as [(Hne & _ & ->)|(_ & _ & Hs)]; [by apply (en_request _ _ _ _ _ _ _ He)|].
    apply (en_iv _ _ _ _ _ _ _ He), Hs. congruence.
Qed.

Definition ends_ok T this0 c : Prop := ∃ h now rs cs, end_ok T this0 c h now rs cs.

Lemma read_step T this0 c c' fuel now (chk : C) room fill :
  ends_ok T this0 c → T now → reads c = true →
  (λ '(p, this, _), read_answer c room p this) <$> poll_read_inner debug fuel now chk room fill (ss c) = Some c' → ends_ok T this0 c'.
Proof.
  intros (h & n & rs & cs & [Hpa Hst Hre Hrd Hgo Hfa Hwr Hiv Hrq]) Ht Hr.
  rewrite fmap_Some. intros ([[p this'] chk'] & Hp & ->). specialize (Hrd Hr).
  destruct (room =? 0) eqn:Er.
  { unfold poll_read_inner in Hp. rewrite Er in Hp. injection Hp as <- <- <-. exists h, n, rs, cs. by split; cbn; rewrite ?Er, ?app_nil_r. }
  to_prop. apply (read_reading T this0 _ _ _ _ _ _ _ _ _ h (delivered c) Ht Hst Hrd) in Hp as (got & Hro & Hout & Hhd); [|lia].
  assert (Hiv' : ∀ iv, decrypt_iv this' = Some iv → iv = take (salt_len this0) (h ++ got) ∧ salt_len this0 ≤ length (h ++ got)).
  { intros iv. destruct Hhd as [[_ ->]|(Hl & _ & ->)]; [intros Hi; by apply take_salt, Hiv|]. pose proof (salt_header this0).
    destruct (stream_type this0); [intros Hi; by apply take_salt, Hiv|intros [= <-]; split; [done|lia]|intros Hi; by apply take_salt, Hiv]. }
  pose proof (static_config _ _ (ro_config _ _ _ Hro)) as Hst'. rewrite Hst in Hst'.
  assert (Hwr' : writes c = true → writer this' (accepted (stream this0)) n rs cs ∧ concat cs = written c ∧ (cs ≠ [] → T n)).
  { intros Hw. destruct (Hwr Hw) as [Hw1 Hw2]. split; [|done]. eapply reads_writer; [done| |done].
    injection Hst' as _ _ -> _ _ _. intros iv [-> Hl]%Hiv'. rewrite length_take. lia. }
  exists (h ++ got), n, rs, cs.
  assert (Hre' : received (stream this') = received (stream this0) ++ h ++ got) by (by rewrite (ro_received _ _ _ Hro), Hre, app_assoc).
  assert (Hrq' : stream_type this0 = AEAD2022Server → writes c = true → cs ≠ [] →
    rs = take (salt_len this0) (h ++ got) ∧ salt_len this0 ≤ length (h ++ got)) by (intros; by apply take_salt, Hrq).
  destruct p as [[o|e|]|]; [| |done|]; destruct Hout as [Ho1 Ho2]; split; cbn; try done.
  - rewrite orb_true_iff, negb_true_iff. intros [E|E]; to_prop; [lia|]. apply Ho2. by destruct o.
  - intros e He. apply fault_more. by apply Hfa.
  - by intros e' [= <-].
  - by eapply reading_got.
  - intros e He. apply fault_more. by apply Hfa.
Qed.

(** What a write comes to: a chunk is taken, or nothing *)
Definition takes T this this' {X} (taken : X → bytes) (p : Poll (outcome X)) : Prop :=
  writes_only this this' ∧
  ∀ base n rs cs, writer this base n rs cs →
  match p with
  | Ready (Ok x) => (∃ t, T t ∧ wrote this t base n rs cs (taken x) this') ∨ taken x = [] ∧ writer this' base n rs cs
  | Ready (Err _) => True
  | Pending => writer this' base n rs cs
  | Ready Panic => False
  end.

Lemma write_step T this0 c {X} (taken : X → bytes) p this' :
  ends_ok T this0 c → writes c = true → takes T (ss c) this' taken p → ends_ok T this0 (write_answer c taken p this').
Proof.
  intros (h & n & rs & cs & He) Hw [Hwo Hp]. destruct (en_writer _ _ _ _ _ _ _ He Hw) as (Hwr & Hcat & Htn). specialize (Hp _ _ _ _ Hwr).
  pose proof (en_request _ _ _ _ _ _ _ He) as Hrq.
  exists h. destruct p as [[x|e|]|]; [| |done|]; cbn [write_answer]; rewrite ?Hw.
  - destruct Hp as [(t & Ht & Hp)|[-> Hp]]; [by eapply wrote_end_ok|]. exists n, rs, cs. rewrite app_nil_r.
    apply (write_end_ok T this0 c h n rs cs); auto.
  - exists n, rs, cs. by apply (write_end_ok T this0 c h n rs cs).
  - exists n, rs, cs. apply (write_end_ok T this0 c h n rs cs); auto.
Qed.

Lemma takes_drains T this this' {X} (taken : X → bytes) p :
  (∀ x, taken x = []) → drains this this' → p ≠ Ready Panic → takes T this this' taken p.
Proof.
  intros Hx Hd Hp. split; [by apply drains_writes_only|]. intros base n rs cs Hw. apply (writer_drains _ _ _ _ _ _ Hd) in Hw.
  destruct p as [[x|e|]|]; auto.
Qed.

(** What any write of a writer comes to *)
Lemma step_takes (T : Z → Prop) this now buf :
  T now → (∃ base n rs cs, writer this base n rs cs) →
  (let '(p, this') := poll_write_ junk now buf this in takes T this this' (λ n, take n buf) p) ∧
  (let '(p, this') := poll_write_message junk now buf this in takes T this this' (λ _, buf) p) ∧
  (let '(p, this') := poll_flush_ this in takes T this this' (λ _, []) p) ∧
  (let '(p, this') := poll_shutdown_ this in takes T this this' (λ _, []) p).
Proof.
  intros Ht (base & n & rs & cs & Hw). pose proof (wr_out _ _ _ _ _ Hw) as Ho.
  assert (Hnil : ∀ X (p : Poll (outcome X)) x, buf = [] → p = Ready (Ok x) → ∀ taken, taken x = [] → takes T this this taken p).
  { intros X p x -> -> taken Hx. split; [apply writes_only_refl|]. intros b1 n1 rs1 cs1 Hw1. by right. }
  split_and!.
  - destruct (poll_write_ junk now buf this) as [p this'] eqn:Ep. destruct (decide (buf = [])) as [E|Hne].
    { subst buf. injection Ep as <- <-. by eapply Hnil. }
    split; [by destruct (poll_write_spec _ _ _ _ _ _ _ _ _ _ Hw Hne Ep)|]. intros b1 n1 rs1 cs1 Hw1.
    destruct (poll_write_spec _ _ _ _ _ _ _ _ _ _ Hw1 Hne Ep) as [_ Hp]. destruct p as [[m|e|]|]; try done. destruct Hp as [_ Hp]. left. by exists now.
  - destruct (poll_write_message junk now buf this) as [p this'] eqn:Ep. destruct (decide (buf = [])) as [E|Hne].
    { subst buf. injection Ep as <- <-. by eapply Hnil. }
    split; [by destruct (message_write_spec _ _ _ _ _ _ _ _ _ _ Hw Hne Ep)|]. intros b1 n1 rs1 cs1 Hw1.
    destruct (message_write_spec _ _ _ _ _ _ _ _ _ _ Hw1 Hne Ep) as [_ Hp]. destruct p as [[m|e|]|]; try done. left. by exists now.
  - destruct (poll_flush_ this) as [p this'] eqn:Ep. apply (poll_flush_spec_ _ _ _ Ho) in Ep as [Hd Hp]. apply takes_drains; [done|done|]. by intros ->.
  - destruct (poll_shutdown_ this) as [p this'] eqn:Ep. apply (poll_shutdown_spec_ _ _ _ Ho) in Ep as [Hd Hp]. apply takes_drains; [done|done|]. by intros ->.
Qed.

Lemma step_ok T this0 c o c' : ends_ok T this0 c → (∃ t, T t) → (∀ t, op_time o = Some t → T t) → step c o = Some c' → ends_ok T this0 c'.
Proof.
  intros He [t0 Ht0] Ht. assert (Hw : writes c = true → ∃ base n rs cs, writer (ss c) base n rs cs).
  { intros Hw. destruct He as (h & n & rs & cs & He). destruct (en_writer _ _ _ _ _ _ _ He Hw) as [? _]. by exists (accepted (stream this0)), n, rs, cs. }
  destruct o as [fuel now chk room|fuel now chk room|now buf|now buf| |]; cbn [step].
  1-2: destruct (reads c) eqn:Hr; [|by intros [= <-]]; apply read_step; [done|by apply Ht|done].
  all: destruct (writes c) eqn:Hws; [|by intros [= <-]].
  1: destruct (step_takes T (ss c) now buf) as (Hs & _); [by apply Ht|by apply Hw|].
  2: destruct (step_takes T (ss c) now buf) as (_ & Hs & _); [by apply Ht|by apply Hw|].
  3: destruct (step_takes T (ss c) t0 []) as (_ & _ & Hs & _); [done|by apply Hw|].
  4: destruct (step_takes T (ss c) t0 []) as (_ & _ & _ & Hs); [done|by apply Hw|].
  all: match type of Hs with (let '(_, _) := ?x in _) => destruct x as [p this'] end; intros [= <-]; by apply write_step.
Qed.

Lemma end_run_ok T this0 c ops c' : ends_ok T this0 c → (∃ t, T t) → Forall (λ o, ∀ t, op_time o = Some t → T t) ops →
  run c ops = Some c' → ends_ok T this0 c'.
Proof.
  intros He Ht Ho. revert c He. induction Ho as [|o ops Hop Hops IH]; intros c He; cbn [run]; [by intros [= <-]|].
  destruct (step c o) as [c1|] eqn:Es; [|done]. apply IH. by eapply step_ok.
Qed.

(** A new stream *)
Lemma new_started T (s : S) t a n k checker salt this0 :
  new s t a n k checker salt = Ok this0 → length salt = n → 0 < n ≤ MAX_SESSION_KEY_LEN → ends_ok T this0 (started this0).
Proof.
  unfold new, key_new. destruct (key_fits a (k salt)); [|done]. intros [= <-] Hn [Hpos Hmax]. exists [], 0%Z, [], []. split; try done.
  - cbn. by rewrite app_nil_r.
  - intros _. apply reading_header; [|reflexivity| |reflexivity].
    + split; [|split|reflexivity..]; [split; [split|reflexivity..]|cbn; lia|]; [cbn; lia|cbn; lia|done|].
      unfold max_packet_len, METADATA_SIZE, INITIAL_BUF_SIZE. cbn [ss started stream_type inb unprocessed_reacquire_size]. destruct t; cbn [max_payload_len]; lia.
    + unfold read_header_len. cbn [stream_type salt_len length]. destruct t; lia.
  - by left.
  - intros _. split; [|done]. split.
    + split; [exact Hn|exact Hmax|by intros iv [=]].
    + change (mkKey a (k salt) seq_new = key_at a (k salt) (length (parts t 0%Z [] []))). rewrite seq_new_nonce. by destruct t.
    + split; cbn; [done|done|lia].
    + reflexivity.
    + done.
    + intros [=].
    + constructor.
Qed.

End ends.
End ShadowsocksEnds.
