(* ===== verification/ToyCipher.v ===== *)
(** * A cipher for examples

    An instance of [Aead] that can be evaluated: nothing is hidden, and the tag
    binds key, nonce and data by a checksum. *)
From S2P Require Import Prelude SaltChecker Stream Shadowsocks ShadowsocksEnds.

Module ToyCipher.
Import Stream Shadowsocks ShadowsocksEnds.

Definition checksum (bs : bytes) : Z := foldr Z.add 0%Z bs.
Definition toy_tag (k n data : bytes) : bytes := be_encode TAG_LEN (le_decode n * 2 ^ 32 + checksum k + checksum data).

#[export] Instance toy_cipher : Aead unit := {
  key_fits _ k := length k =? 4;
  seal _ k n data := Some (data, toy_tag k n data);
  open _ k n buf :=
    let l := length buf - TAG_LEN in
    (bool_decide (TAG_LEN ≤ length buf) && bool_decide (drop l buf = toy_tag k n (take l buf)), buf) }.

#[export] Instance toy_laws : AeadLaws unit.
Proof.
  split.
  - intros a k n data _. by eexists.
  - intros a k n data c t [= <- <-]. split; [done|]. unfold toy_tag. apply length_be_encode.
  - done.
  - intros a k n data c t _ [= <- <-]. cbn [open toy_cipher fst snd]. assert (Hl : length (toy_tag k n data) = TAG_LEN) by apply length_be_encode.
    rewrite length_app, Hl, Nat.add_sub, drop_app_length, take_app_length, !bool_decide_true by (done || lia). done.
Qed.

(** ** Examples *)
Definition example_checker : SaltChecker (Salt.TimedSaltChecker * Z) := timed_checker checksum.
#[export] Existing Instance example_checker.

Notation example := (ShadowsocksStream unit script).
(** A stream with the salt given, over a transport of pieces of [piece] bytes *)
Definition example_new (todo : bytes) (piece : nat) (t : ShadowsocksStreamType) (salt : bytes) : outcome example :=
  new (mkScript todo true true piece [] []) t Aes192Gcm 4 (λ s, s) true salt.
Definition example_run (o : outcome example) (ops : list (op (Salt.TimedSaltChecker * Z))) : option (end_ unit script) :=
  match o with Ok this => run true (λ _, 0%Z) (started this) ops | _ => None end.

(** What can be computed of an end *)
Definition end_facts (c : end_ unit script) := (writes c, written c, delivered c, received (stream (ss c)), accepted (stream (ss c))).

Lemma example_facts o ops x : end_facts <$> example_run o ops = Some x →
  ∃ this c, o = Ok this ∧ run true (λ _, 0%Z) (started this) ops = Some c ∧ end_facts c = x.
Proof.
  unfold example_run. destruct o as [this| |]; [|done..]. destruct (run _ _ _ _) as [c|] eqn:E; [|done]. intros [= <-]. by exists this, c.
Qed.

End ToyCipher.
