(* ===== verification/ShadowsocksLink.v ===== *)
(** * Shadowsocks streams: two ends

    A stream in front of another: whatever pieces the transports make of what one
    end seals, the other opens exactly its chunks.  With the shared checker of
    salts, a request is served once. *)
From S2P Require Import Prelude Buf SlideBuffer UotAddr Stream Messages SaltChecker Shadowsocks ShadowsocksFacts ShadowsocksReads.
From S2P Require Import ShadowsocksWrites ShadowsocksEnds ToyCipher.

Module ShadowsocksLink.
Import Stream Uot Shadowsocks ShadowsocksFacts ShadowsocksReads ShadowsocksWrites ShadowsocksEnds. 
Import ToyCipher.

(** ** Opening what was sealed *)
Lemma len_of_bytes l rest : l ≤ N.to_nat 65535 → len_of (len_bytes l ++ rest) = l.
Proof.
  intros Hl. unfold len_of, len_bytes. cbn [lookup_total list_lookup_total app]. rewrite be_usize_eq. unfold wrap. change (2 ^ 8)%Z with 256%Z.
  rewrite Z.shiftr_div_pow2 by lia. change 255%Z with (Z.ones 8). rewrite Z.land_ones by lia. change (2 ^ 8)%Z with 256%Z.
  rewrite !Z.mod_mod by lia. pose proof (Z.div_mod (Z.of_nat l) 256 ltac:(lia)).
  rewrite (Z.mod_small (Z.of_nat l / 256)) by (split; [apply Z.div_pos; lia|apply Z.div_lt_upper_bound; lia]). lia.
Qed.
Lemma bytes_ok_len_bytes l : bytes_ok (len_bytes l).
Proof.
  unfold len_bytes. apply Forall_cons. split; [|apply Forall_singleton].
  - unfold wrap. change (2 ^ 8)%Z with 256%Z. apply Z.mod_pos_bound. lia.
  - change 255%Z with (Z.ones 8). rewrite Z.land_ones by lia. apply Z.mod_pos_bound. lia.
Qed.

Section wire.
Context {A : Type} `{Aead A, !AeadLaws A}.
Context (t : ShadowsocksStreamType) (a : ShadowsocksAeadAlgorithm A) (k : bytes).

Definition sendable (c : bytes) : Prop := 0 < length c ≤ max_payload_len t ∧ bytes_ok c.

Lemma sendable_small c : sendable c → small c ∧ length c ≤ N.to_nat 65535.
Proof. intros [Hc _]. unfold small. destruct t; cbn [max_payload_len] in Hc; lia. Qed.

(** A part at the front of the bytes to come *)
Lemma open_front n p und fut tail :
  small p → bytes_ok p → und ++ fut = sealed a k n p ++ tail → length p + TAG_LEN ≤ length und →
  (∃ rest, open a k (nonce n) (take (length p + TAG_LEN) und) = (true, p ++ rest)) ∧ drop (length p + TAG_LEN) und ++ fut = tail.
Proof.
  intros Hsm Hb He Hl. rewrite <- (length_sealed a k n p Hsm) in *.
  assert (Ht : take (length (sealed a k n p)) und = sealed a k n p).
  { rewrite <- (take_app_le und fut), He by lia. apply take_app_length. }
  split.
  - destruct (open_sealed a k n p Hsm Hb) as (rest & Ho & _). exists rest. by rewrite Ht.
  - rewrite <- (take_drop (length (sealed a k n p)) und), Ht, <- app_assoc in He. by apply app_inv_head in He.
Qed.

(** The chunks [cs] are still to be opened: [und] is there, [fut] will come. *)
Definition on_wire (s : ast) (fut : bytes) (cs : list bytes) : Prop :=
  let '(n, pend, und) := s in
  match pend with
  | None => und ++ fut = wire a k n (chunk_parts cs)
  | Some l => ∃ c cs', cs = c :: cs' ∧ l = length c ∧ und ++ fut = wire a k n (c :: chunk_parts cs')
  end.

Lemma spec_data_wire n c cs und fut :
  sendable c → und ++ fut = wire a k n (c :: chunk_parts cs) →
  ∃ d n' pend' und' cs', spec_data a k n (length c) und = Ok (d, n', pend', und') ∧ c :: cs = option_list d ++ cs' ∧ on_wire (n', pend', und') fut cs'.
Proof.
  intros Hc He. destruct (sendable_small c Hc) as [Hsm _]. unfold spec_data. destruct (_ <? _) eqn:E; to_prop.
  - exists None, n, (Some (length c)), und, (c :: cs). split_and!; [done|done|]. by exists c, cs.
  - destruct (open_front n c und fut _ Hsm (proj2 Hc) He E) as [[rest Ho] Hd]. rewrite Ho, take_app_length.
    by exists (Some c), (S n), None, (drop (length c + TAG_LEN) und), cs.
Qed.

Lemma spec_decrypt_wire n pend und fut cs :
  Forall sendable cs → on_wire (n, pend, und) fut cs →
  ∃ d n' pend' und' cs', spec_decrypt (max_payload_len t) a k n pend und = Ok (d, n', pend', und') ∧
    cs = option_list d ++ cs' ∧ on_wire (n', pend', und') fut cs'.
Proof.
  intros Hcs Hon. unfold spec_decrypt. destruct pend as [l|].
  - destruct Hon as (c & cs' & -> & -> & He). apply Forall_cons in Hcs as [Hc _]. by apply spec_data_wire.
  - destruct (_ <? _) eqn:E; to_prop; [by exists None, n, None, und, cs|]. cbn [on_wire] in Hon.
    destruct cs as [|c cs]; [apply (f_equal length) in Hon; rewrite length_app in Hon; cbn in *; lia|]. apply Forall_cons in Hcs as [Hc _].
    change (wire a k n (chunk_parts (c :: cs))) with (sealed a k n (len_bytes (length c)) ++ wire a k (S n) (c :: chunk_parts cs)) in Hon.
    destruct (open_front n (len_bytes (length c)) und fut _ (small_len_bytes _) (bytes_ok_len_bytes _) Hon E) as [[rest Ho] Hd].
    cbn [length len_bytes] in Ho. change (length (len_bytes _) + TAG_LEN) with (2 + TAG_LEN) in *. rewrite Ho.
    destruct (sendable_small c Hc) as [_ Hl]. rewrite len_of_bytes by done. rewrite (proj2 (Nat.ltb_ge _ _)) by apply Hc. by apply spec_data_wire.
Qed.

Lemma opens_wire s got cs1 s' : opens (max_payload_len t) a k s got cs1 s' → ∀ fut cs,
  Forall sendable cs → on_wire s (got ++ fut) cs → ∃ cs', cs = cs1 ++ cs' ∧ on_wire s' fut cs'.
Proof.
  induction 1 as [s|n pend und bs got cs1 s' Ho IH|n pend und d n1 pend1 und1 got cs1 s' Hd Ho IH]; intros fut cs Hcs Hon.
  - by exists cs.
  - apply IH; [done|]. cbn in *. destruct pend as [l|]; by rewrite <- !app_assoc in *.
  - destruct (spec_decrypt_wire _ _ _ _ _ Hcs Hon) as (d' & n' & pend' & und' & cs' & Hd' & -> & Hon'). rewrite Hd in Hd'. injection Hd' as -> -> -> ->.
    apply Forall_app in Hcs as [_ Hcs]. destruct (IH fut cs' Hcs Hon') as (cs2 & -> & Hon2). exists cs2. by rewrite app_assoc.
Qed.

(** Nothing is left when all has come and no whole chunk is there. *)
Lemma stuck_wire s cs : Forall sendable cs → stuck s → on_wire s [] cs → cs = [].
Proof.
  destruct s as [[n pend] und]. unfold stuck. cbn [fst snd on_wire]. intros Hcs Hst Hon. rewrite app_nil_r in Hon. destruct pend as [l|].
  - destruct Hon as (c & cs' & -> & -> & ->). apply Forall_cons in Hcs as [[Hsm _]%sendable_small _]. cbn [wire needed] in Hst.
    rewrite length_app, length_sealed in Hst by done. lia.
  - destruct cs as [|c cs]; [done|]. subst und. exfalso. unfold chunk_parts in Hst. cbn [mbind list_bind chunk app wire needed] in Hst.
    rewrite length_app, length_sealed in Hst by apply small_len_bytes. cbn [length len_bytes] in Hst. lia.
Qed.
End wire.

(** ** The header *)
Definition peer (t : ShadowsocksStreamType) : ShadowsocksStreamType :=
  match t with Aead_ => Aead_ | AEAD2022Server => AEAD2022Client | AEAD2022Client => AEAD2022Server end.
Lemma peer_max t : max_payload_len (peer t) = max_payload_len t.
Proof. by destruct t. Qed.
Lemma peer_peer t : peer (peer t) = t.
Proof. by destruct t. Qed.

(** The fields of a header of AEAD-2022 that has been opened *)
Lemma header_fields t now rs l rest nowr :
  t ≠ Aead_ → l ≤ N.to_nat 65535 →
  let x := header t now rs l ++ rest in
  let h := match t with AEAD2022Server => 11 + length rs | _ => 11 end in
  length (header t now rs l) = h ∧ len_of (drop (h - 2) x) = l ∧ be_decode (take 8 (drop 1 x)) = (now mod 2 ^ 64)%Z ∧
  x !!! 0 = (match t with AEAD2022Server => 1 | _ => 0 end)%Z ∧ (t = AEAD2022Server → take (length rs) (drop 9 x) = rs) ∧
  (∀ msg, spec_fields (match t with AEAD2022Server => 1 | _ => 0 end)%Z msg nowr x = check_timestamp_freshness (now mod 2 ^ 64) nowr).
Proof.
  intros Ht Hl x h. pose proof (length_be_encode 8 now) as Hbe.
  assert (Hh : length (header t now rs l) = h) by (unfold header, h; destruct t; [done|..]; rewrite !length_app, Hbe; cbn [length len_bytes]; lia).
  assert (Hts : be_decode (take 8 (drop 1 x)) = (now mod 2 ^ 64)%Z).
  { replace (take 8 (drop 1 x)) with (be_encode 8 now); [apply (be_decode_encode 8)|].
    unfold x, header. destruct t; [done|..]; rewrite <- !app_assoc; cbn [drop app]; by rewrite drop_0, take_app_length'. }
  assert (H0 : x !!! 0 = (match t with AEAD2022Server => 1 | _ => 0 end)%Z) by (unfold x, header; by destruct t).
  split; [done|]. split.
  { assert (∃ y, x = y ++ len_bytes l ++ rest ∧ length y = h - 2) as (y & Hx & Hy).
    { unfold x, h, header. destruct t; [done|..].
      - exists ([1%Z] ++ be_encode 8 now ++ rs). split; [by rewrite <- !app_assoc|]. rewrite !length_app, Hbe. cbn [length]. lia.
      - exists ([0%Z] ++ be_encode 8 now). split; [by rewrite <- !app_assoc|]. rewrite !length_app, Hbe. cbn [length]. lia. }
    rewrite Hx, drop_app_length' by done. by apply len_of_bytes. }
  split; [done|]. split; [done|]. split.
  - intros ->. unfold x, header. rewrite <- !app_assoc. cbn [drop app]. rewrite ?drop_0, (drop_app_length' (be_encode 8 now) _ 8) by done. by rewrite take_app_length.
  - intros msg. unfold spec_fields. by rewrite H0, Z.eqb_refl, Hts.
Qed.

Section header.
Context {A S C : Type} `{Aead A, !AeadLaws A, AsyncStream S, !StreamLaws S, SaltChecker C, !Alloc}.
Implicit Types this : ShadowsocksStream A S.

Definition duplicate : io_error := IoError Other "got duplicate salt".

(** What a receiver of type [peer t] makes of a header *)
Definition opens_header this (iv : bytes) (now nowr : Z) (chk : C) (fut : bytes) (cs : list bytes)
    (r : outcome (bytes * nat * option nat * bytes)) : Prop :=
  match r with
  | Ok (k, m, pend, und) => k = key this iv ∧ on_wire (algorithm this) k (m, pend, und) fut cs
  | Err e => salt_checker this = true ∧ (insert_and_check chk iv).1 = false ∧ e = duplicate ∨
             stream_type this ≠ Aead_ ∧ check_timestamp_freshness (now mod 2 ^ 64) nowr = Err e
  | Panic => False
  end.

Lemma bytes_ok_header t now rs l : bytes_ok rs → bytes_ok (header t now rs l).
Proof.
  intros Hrs. pose proof (bytes_ok_len_bytes l). pose proof (bytes_ok_be_encode 8 now).
  unfold header. destruct t; repeat (apply Forall_app; split); try done; apply Forall_singleton; unfold is_byte; lia.
Qed.

(** The salt has been seen, or the answer goes on. *)
Lemma checked_cases (chk : C) iv (b : bool) :
  (∃ chk', (if b then insert_and_check chk iv else (true, chk)) = (true, chk')) ∨
  (∃ chk', (if b then insert_and_check chk iv else (true, chk)) = (false, chk') ∧ b = true ∧ (insert_and_check chk iv).1 = false).
Proof.
  destruct b; [|left; by eexists]. destruct (insert_and_check chk iv) as [[] chk'] eqn:E; [left|right]; by eexists.
Qed.

Lemma hdr_wire this t now rs c cs iv h1 fut nowr chk :
  stream_type this = peer t → length iv = salt_len this → key_fits (algorithm this) (key this iv) = true →
  (t = AEAD2022Server → rs = encrypt_iv this ∧ length rs = salt_len this ∧ bytes_ok rs ∧ length rs ≤ MAX_SESSION_KEY_LEN) → sendable t c →
  h1 ++ fut = iv ++ wire (algorithm this) (key this iv) 0 (parts t now rs (c :: cs)) → read_header_len this ≤ length h1 →
  opens_header this iv now nowr chk fut (c :: cs) (hdr this nowr chk h1).1.
Proof.
  intros Ht Hiv Hk Hrs Hc He Hl. pose proof (salt_header this) as Hsh. destruct (sendable_small t c Hc) as [_ Hcl].
  assert (Hsalt : take (salt_len this) h1 = iv).
  { rewrite <- (take_app_le h1 fut), He, <- Hiv by lia. apply take_app_length. }
  assert (Hrest : drop (salt_len this) h1 ++ fut = wire (algorithm this) (key this iv) 0 (parts t now rs (c :: cs))).
  { rewrite <- (take_drop (salt_len this) h1), Hsalt, <- app_assoc in He. by apply app_inv_head in He. }
  unfold hdr, spec_header, key_new. rewrite Hsalt, Ht, Hk. destruct t; cbn [peer].
  - destruct (checked_cases chk iv (salt_checker this)) as [[chk' ->]|(chk' & -> & Hch)]; cbn; [done|left; naive_solver].
  - destruct (Hrs eq_refl) as (Hrs1 & Hrs2 & Hrs3 & Hrs4). unfold read_header_len in Hl. rewrite Ht in Hl. cbn [peer] in Hl.
    destruct (header_fields AEAD2022Server now rs (length c) [] nowr) as (Hh & _); [done|done|].
    cbn [parts wire] in Hrest. apply open_front in Hrest as [[x Ho] Hd]; [|by apply small_header|by apply bytes_ok_header|rewrite Hh, length_drop, Hrs2; lia].
    destruct (header_fields AEAD2022Server now rs (length c) x nowr) as (_ & Hlen & _ & _ & Htk & Hf); [done|done|]. rewrite Hh, Hrs2 in *. rewrite Ho, Hf.
    destruct (check_timestamp_freshness _ _) as [[]|e|] eqn:Ef; [|right; split; [by rewrite Ht|done]|unfold check_timestamp_freshness in Ef; by repeat case_match].
    destruct (checked_cases chk iv (salt_checker this)) as [[chk' ->]|(chk' & -> & Hch)]; cbn [opens_header fst]; [|left; naive_solver].
    rewrite Htk, <- Hrs1, bool_decide_true by done. cbn [negb opens_header fst]. rewrite Hlen, drop_drop in *.
    split; [done|]. by exists c, cs.
  - unfold read_header_len in Hl. rewrite Ht in Hl. cbn [peer] in Hl.
    destruct (header_fields AEAD2022Client now rs (length c) [] nowr) as (Hh & _); [done|done|].
    cbn [parts wire] in Hrest. change (header AEAD2022Client now rs (length c)) with (header AEAD2022Client now [] (length c)) in *.
    apply open_front in Hrest as [[x Ho] Hd]; [|by apply small_header; cbn; lia|by apply bytes_ok_header; constructor|rewrite Hh, length_drop; lia].
    destruct (header_fields AEAD2022Client now [] (length c) x nowr) as (_ & Hlen & _ & _ & _ & Hf); [done|done|]. rewrite Hh in *. rewrite Ho, Hf.
    destruct (check_timestamp_freshness _ _) as [[]|e|] eqn:Ef; [|right; split; [by rewrite Ht|done]|unfold check_timestamp_freshness in Ef; by repeat case_match].
    destruct (checked_cases chk iv (salt_checker this)) as [[chk' ->]|(chk' & -> & Hch)]; cbn [opens_header fst]; [|left; naive_solver].
    rewrite Hlen, drop_drop in *. split; [done|]. by exists c, cs.
Qed.
End header.

(** ** The link *)

(** Clocks that read between [t0] and the tolerance later *)
Definition clock (t0 t : Z) : Prop := (0 ≤ t0 ∧ t0 ≤ t ≤ t0 + TIMESTAMP_SKEW_TOLERANCE_SECS ∧ t < 2 ^ 64)%Z.

Lemma clock_fresh t0 t t' : clock t0 t → clock t0 t' → check_timestamp_freshness (t mod 2 ^ 64) t' = Ok tt.
Proof.
  unfold clock, check_timestamp_freshness, TIMESTAMP_SKEW_TOLERANCE_SECS. intros (H0 & H1 & H2) (_ & H1' & _). rewrite Z.mod_small by lia.
  destruct (t <=? t')%Z eqn:E; to_prop; rewrite (proj2 (Z.ltb_ge _ _)) by lia; done.
Qed.

Section receiver.
Context {A S C : Type} `{Aead A, !AeadLaws A, AsyncStream S, !StreamLaws S, SaltChecker C, !Alloc}.
Context (b0 : ShadowsocksStream A S) (t : ShadowsocksStreamType) (t0 now : Z) (rs iv : bytes) (c0 : bytes) (cs : list bytes).
Context (Ht : stream_type b0 = peer t) (Hiv : length iv = salt_len b0) (Hk : key_fits (algorithm b0) (key b0 iv) = true)
  (Hrs : t = AEAD2022Server → rs = encrypt_iv b0 ∧ length rs = salt_len b0 ∧ bytes_ok rs ∧ length rs ≤ MAX_SESSION_KEY_LEN)
  (Hcs : Forall (sendable t) (c0 :: cs)) (Hnow : clock t0 now).

Notation sent := (iv ++ wire (algorithm b0) (key b0 iv) 0 (parts t now rs (c0 :: cs))).

Lemma link_opens h fut nowr (chk : C) k cs1 s' :
  clock t0 nowr → h ++ fut = sent → opens_to b0 h nowr chk k cs1 s' →
  k = key b0 iv ∧ ∃ cs', c0 :: cs = cs1 ++ cs' ∧ on_wire (algorithm b0) k s' fut cs'.
Proof.
  intros Hn He (h1 & h2 & m & pend & und & chk' & -> & Hl & Hh & Ho). rewrite <- app_assoc in He.
  pose proof (hdr_wire b0 t now rs c0 cs iv h1 (h2 ++ fut) nowr chk Ht Hiv Hk Hrs (Forall_inv Hcs) He Hl) as Hw. rewrite Hh in Hw. destruct Hw as [-> Hw].
  split; [done|]. rewrite Ht, peer_max in Ho. by apply (opens_wire t _ _ _ _ _ _ Ho).
Qed.

Lemma link_fault h fut e : h ++ fut = sent → fault (C := C) (clock t0) b0 h e → reports (S := S) e ∨ salt_checker b0 = true ∧ e = duplicate.
Proof.
  intros He [Hr|nowr chk chk' h1 Hn [h2 ->] Hl Hh|nowr chk k cs1 s' h1 Hn [h2 ->] Ho Hd]; [by left|right..]; rewrite <- app_assoc in He.
  - pose proof (hdr_wire b0 t now rs c0 cs iv h1 (h2 ++ fut) nowr chk Ht Hiv Hk Hrs (Forall_inv Hcs) He Hl) as Hw. rewrite Hh in Hw.
    destruct Hw as [(Hs & _ & ->)|[_ Hw]]; [done|]. rewrite (clock_fresh t0) in Hw by done. done.
  - exfalso. destruct (link_opens h1 (h2 ++ fut) nowr chk k cs1 s' Hn He Ho) as (-> & cs' & Heq & Hon). destruct s' as [[n pend] und].
    rewrite Ht, peer_max in Hd. cbn [fst snd] in Hd. rewrite Heq in Hcs. apply Forall_app in Hcs as [_ Hcs'].
    destruct (spec_decrypt_wire t _ _ n pend und _ _ Hcs' Hon) as (d & n' & pend' & und' & cs2 & Hd' & _). congruence.
Qed.

Lemma link_got h fut del : h ++ fut = sent → got_from (C := C) (clock t0) b0 h del → del `prefix_of` concat (c0 :: cs).
Proof.
  intros He [->|(nowr & chk & k & cs1 & s' & h' & rest & Hn & [h2 ->] & Ho & Hc)]; [by apply prefix_nil|]. rewrite <- app_assoc in He.
  destruct (link_opens h' (h2 ++ fut) nowr chk k cs1 s' Hn He Ho) as (_ & cs' & -> & _). exists (rest ++ concat cs'). by rewrite concat_app, Hc, app_assoc.
Qed.

Lemma link_settled del : settled (C := C) (clock t0) b0 sent del → del = concat (c0 :: cs).
Proof.
  intros [[Hl _]|(nowr & chk & k & cs1 & s' & Hn & Ho & Hst & <-)].
  - exfalso. revert Hl. apply Nat.le_ngt. rewrite length_app, Hiv. pose proof (Forall_inv Hcs) as [Hsm Hcl]%sendable_small.
    unfold read_header_len. rewrite Ht. destruct t; cbn [peer parts wire]; [lia|..]; rewrite length_app, length_sealed.
    + destruct (header_fields AEAD2022Server now rs (length c0) [] 0) as (-> & _); [done|done|]. destruct (Hrs eq_refl) as (_ & -> & _). lia.
    + apply small_header. by destruct (Hrs eq_refl) as (_ & _ & _ & ?).
    + destruct (header_fields AEAD2022Client now rs (length c0) [] 0) as (-> & _); [done|done|]. lia.
    + change (small (header AEAD2022Client now [] (length c0))). apply small_header. cbn. lia.
  - rewrite <- (app_nil_r sent) in Ho. destruct (link_opens sent [] nowr chk k cs1 s') as (_ & cs' & Heq & Hon); [done|by rewrite app_nil_r|by rewrite app_nil_r in Ho|].
    rewrite Heq in Hcs. apply Forall_app in Hcs as [_ Hcs']. rewrite Heq, (stuck_wire t _ _ _ _ Hcs' Hst Hon). by rewrite app_nil_r.
Qed.
End receiver.

Definition timed {C} (t0 : Z) (o : op C) : Prop := ∀ t, op_time o = Some t → clock t0 t.

Section sender.
Context {A S C : Type} `{Aead A, !AeadLaws A, AsyncStream S, !StreamLaws S, SaltChecker C, !Alloc}.

Lemma new_static (s : S) t (a : ShadowsocksAeadAlgorithm A) n k checker salt this0 :
  new s t a n k checker salt = Ok this0 →
  static this0 = (t, a, n, k, checker, salt) ∧ key_fits a (k salt) = true ∧ stream this0 = s.
Proof. unfold new, key_new. destruct (key_fits a (k salt)) eqn:E; [|done]. by intros [= <-]. Qed.

(** What an end whose writes have not failed has put on the wire *)
Lemma end_sent t0 (a0 : ShadowsocksStream A S) (c : end_ A S) h now rs cs :
  end_ok (C := C) (clock t0) a0 c h now rs cs → writes c = true → accepted (stream a0) = [] →
  accepted (stream (ss c)) ++ unsent (outb (ss c)) =
    (if is_initial_write (ss c) then [] else
       encrypt_iv a0 ++ wire (algorithm a0) (key a0 (encrypt_iv a0)) 0 (parts (stream_type a0) now rs cs)) ∧
  (is_initial_write (ss c) = true ↔ cs = []) ∧ Forall (λ x, 0 < length x ≤ max_payload_len (stream_type a0)) cs ∧ concat cs = written c.
Proof.
  intros He Hw Ha. destruct (en_writer _ _ _ _ _ _ _ He Hw) as ([_ _ _ Hb Hi Hs Hc] & Hcat & _).
  pose proof (en_static _ _ _ _ _ _ _ He) as Hst. injection Hst as Hty Hal Hsl Hky _ Hiv. rewrite Ha, Hty, Hal, Hky, Hiv in *. split; [exact Hb|].
  split; [|done]. destruct (is_initial_write (ss c)); [by destruct (Hi eq_refl)|]. split; [done|]. intros ->. by destruct (Hs eq_refl).
Qed.

(** Salts received in front of the request come from the other end. *)
Lemma front_salt (h acc sent iv rest : bytes) n : n ≤ length h → 0 < n → length iv = n → h `prefix_of` acc → acc ++ sent = iv ++ rest → take n h = iv.
Proof.
  intros Hl _ Hn [x ->] He. rewrite <- app_assoc in He. rewrite <- (take_app_le h (x ++ sent)), He, <- Hn by lia. apply take_app_length.
Qed.
End sender.

Section link.
Context {A Sa Sb Ca Cb : Type} `{Aead A, !AeadLaws A, AsyncStream Sa, !StreamLaws Sa, AsyncStream Sb, !StreamLaws Sb, SaltChecker Ca, SaltChecker Cb, !Alloc}.

(** The header a server answers is that of the other end. *)
Lemma request_salt t0 (a0 : ShadowsocksStream A Sa) (b0 : ShadowsocksStream A Sb) a b ha hb na nb rsa rsb csa csb :
  end_ok (C := Ca) (clock t0) a0 a ha na rsa csa → end_ok (C := Cb) (clock t0) b0 b hb nb rsb csb → writes a = true → writes b = true →
  accepted (stream b0) = [] → received (stream a0) = [] → received (stream (ss a)) `prefix_of` accepted (stream (ss b)) →
  stream_type a0 = AEAD2022Server → csa ≠ [] → length (encrypt_iv b0) = salt_len a0 → 0 < salt_len a0 → rsa = encrypt_iv b0.
Proof.
  intros Ha Hb Hwa Hwb Hac Hre Hp Ht Hcs Hiv Hpos. destruct (en_request _ _ _ _ _ _ _ Ha Ht Hwa Hcs) as [-> Hl].
  destruct (end_sent _ _ _ _ _ _ _ Hb Hwb Hac) as (Hs & Hi & _). rewrite (en_received _ _ _ _ _ _ _ Ha), Hre in Hp. cbn [app] in Hp.
  destruct (is_initial_write (ss b)).
  - apply app_eq_nil in Hs as [Hs _]. rewrite Hs in Hp. apply prefix_nil_inv in Hp. subst ha. cbn in Hl. lia.
  - by eapply front_salt.
Qed.
(** Nothing is delivered, and only the transport can fail, before bytes come. *)
Lemma nothing_read t0 (b0 : ShadowsocksStream A Sb) : 0 < read_header_len b0 →
  (∀ del, got_from (C := Cb) (clock t0) b0 [] del → del = []) ∧ (∀ e, fault (C := Cb) (clock t0) b0 [] e → reports (S := Sb) e) ∧
  (∀ del, settled (C := Cb) (clock t0) b0 [] del → del = []).
Proof.
  intros Hh. assert (Hno : ∀ now chk k cs s', ¬ opens_to (C := Cb) b0 [] now chk k cs s').
  { intros now chk k cs s' (h1 & h2 & m & pend & und & chk' & He & Hl & _). symmetry in He. apply app_eq_nil in He as [-> _]. cbn in Hl. lia. }
  split_and!.
  - intros del [->|(now & chk & k & cs & s' & h' & rest & _ & ->%prefix_nil_inv & Ho & _)]; [done|by apply Hno in Ho].
  - intros e [Hr|now chk chk' h1 _ ->%prefix_nil_inv Hl _|now chk k cs s' h1 _ ->%prefix_nil_inv Ho _]; [done|cbn in Hl; lia|by apply Hno in Ho].
  - intros del [[_ ->]|(now & chk & k & cs & s' & _ & Ho & _)]; [done|by apply Hno in Ho].
Qed.

Lemma concat_ok (cs : list bytes) : bytes_ok (concat cs) → Forall bytes_ok cs.
Proof. induction cs as [|c cs IH]; [constructor|]. cbn. intros [Hc Hcs]%bytes_ok_app. constructor; auto. Qed.

Context (t0 : Z) (a0 : ShadowsocksStream A Sa) (b0 : ShadowsocksStream A Sb).
Context (Htype : stream_type b0 = peer (stream_type a0)) (Halg : algorithm b0 = algorithm a0) (Hkey : key b0 = key a0) (Hlen : salt_len b0 = salt_len a0)
  (Hsa : length (encrypt_iv a0) = salt_len a0) (Hsb : length (encrypt_iv b0) = salt_len a0) (Hpos : 0 < salt_len a0 ≤ MAX_SESSION_KEY_LEN)
  (Hfits : key_fits (algorithm a0) (key a0 (encrypt_iv a0)) = true) (Hok : bytes_ok (encrypt_iv b0))
  (Haa : accepted (stream a0) = []) (Hra : received (stream a0) = []) (Hab : accepted (stream b0) = []) (Hrb : received (stream b0) = []).

(** What [h], received by the one end, makes of what the other has written *)
Lemma link_pair a b ha hb na nb rsa rsb csa csb h :
  end_ok (C := Ca) (clock t0) a0 a ha na rsa csa → end_ok (C := Cb) (clock t0) b0 b hb nb rsb csb → writes a = true → writes b = true →
  bytes_ok (written a) → received (stream (ss a)) `prefix_of` accepted (stream (ss b)) → h `prefix_of` accepted (stream (ss a)) →
  (∀ del, got_from (C := Cb) (clock t0) b0 h del → del `prefix_of` written a) ∧
  (∀ e, fault (C := Cb) (clock t0) b0 h e → reports (S := Sb) e ∨ salt_checker b0 = true ∧ e = duplicate) ∧
  (∀ del, settled (C := Cb) (clock t0) b0 h del → unsent (outb (ss a)) = [] → h = accepted (stream (ss a)) → del = written a).
Proof.
  intros Ha Hb Hwa Hwb Hby Hback Hp. destruct (end_sent _ _ _ _ _ _ _ Ha Hwa Haa) as (Hs & Hi & Hch & Hcat).
  destruct (en_writer _ _ _ _ _ _ _ Ha Hwa) as (_ & _ & Hnow). pose proof (salt_header b0). destruct csa as [|c0 cs].
  - assert (Hin : is_initial_write (ss a) = true) by by apply Hi. rewrite Hin in Hs. apply app_eq_nil in Hs as [Hs _]. rewrite Hs in Hp.
    apply prefix_nil_inv in Hp. subst h. destruct (nothing_read t0 b0) as (Hg & Hf & Hst); [lia|]. cbn in Hcat. rewrite <- Hcat.
    split_and!; [by intros del ->%Hg|intros e He; left; by apply Hf|by intros del ->%Hst].
  - assert (Hin : is_initial_write (ss a) = false) by (destruct (is_initial_write (ss a)); [by pose proof (proj1 Hi eq_refl)|done]). rewrite Hin in Hs.
    assert (Hrs : stream_type a0 = AEAD2022Server → rsa = encrypt_iv b0 ∧ length rsa = salt_len b0 ∧ bytes_ok rsa ∧ length rsa ≤ MAX_SESSION_KEY_LEN).
    { intros Ht. assert (rsa = encrypt_iv b0) as -> by (eapply (request_salt t0 a0 b0 a b); try done; lia). split_and!; [done|lia|done|lia]. }
    assert (Hsend : Forall (sendable (stream_type a0)) (c0 :: cs)).
    { rewrite <- Hcat in Hby. apply concat_ok in Hby. apply Forall_forall. intros x Hx. rewrite Forall_forall in Hch, Hby. split; auto. }
    rewrite <- Halg, <- Hkey in Hs, Hfits. specialize (Hnow ltac:(done)). destruct Hp as [x Hp]. rewrite Hp, <- app_assoc in Hs. rewrite <- Hcat.
    split_and!.
    + intros del. eapply link_got; try done. lia.
    + intros e. eapply link_fault; try done. lia.
    + intros del Hst Hu Hh. assert (Hx : x = []) by (rewrite <- Hh in Hp; apply (app_inv_head h); by rewrite app_nil_r).
      rewrite Hu, Hx, !app_nil_r in Hs. rewrite Hs in Hst. eapply link_settled; try done. lia.
Qed.
End link.

(** ** Theorems *)


(** ** An example *)
Definition client_ops : list (op (Salt.TimedSaltChecker * Z)) := [Write 1000 (B "some "); Flush; WriteMessage 1001 (B "text"); Flush].
Definition server_ops : list (op (Salt.TimedSaltChecker * Z)) := replicate 60 (Read 20 1002 (new_shared_salt_checker, 0%Z) 3).
Lemma ends_facts : ∃ on_the_wire,
  end_facts <$> example_run (example_new [] 5 AEAD2022Client (B "salt")) client_ops = Some (true, B "some text", [], [], on_the_wire) ∧
  end_facts <$> example_run (example_new on_the_wire 7 AEAD2022Server (B "gone")) server_ops = Some (true, [], B "some text", on_the_wire, []).
Proof.
  exists (default [] ((λ c, accepted (stream (ss c))) <$> example_run (example_new [] 5 AEAD2022Client (B "salt")) client_ops)).
  split; vm_compute; reflexivity.
Qed.


End ShadowsocksLink.
