(* ===== verification/ShadowsocksReplay.v ===== *)
(** * Shadowsocks streams: replays, nonces and safety

    A request is served once: the salts the shared checker remembers outlive the
    timestamps a server accepts.  No nonce is used twice.  Polls return and do not
    panic, whatever the other end sends. *)
From S2P Require Import Prelude Buf SlideBuffer UotAddr Stream Messages SaltChecker Shadowsocks ShadowsocksFacts ShadowsocksReads.
From S2P Require Import ShadowsocksWrites ShadowsocksEnds ToyCipher.

Module ShadowsocksReplay.
Import Stream Uot Shadowsocks ShadowsocksFacts ShadowsocksReads ShadowsocksWrites ShadowsocksEnds. 
Import ToyCipher.

(** ** The checker *)
Section checker.
Context (hash_one : bytes → Z).

(** The checker after checks of salts at given instants *)
Fixpoint after (c : Salt.TimedSaltChecker) (l : list (Z * bytes)) : Salt.TimedSaltChecker :=
  match l with
  | [] => c
  | (now, salt) :: l => after (Salt.insert_and_check hash_one c now salt).2 l
  end.

Lemma spec_check_log timeout log now salt :
  let '(ok, log') := Salt.spec_check hash_one timeout log now salt in
  log `prefix_of` log' ∧ (ok = true → (now, hash_one salt) ∈ log').
Proof.
  unfold Salt.spec_check. destruct (_ && _); [|done]. split; [by apply prefix_app_r|]. intros _. apply elem_of_app. right. by apply list_elem_of_singleton.
Qed.

(** What is logged stays logged. *)
Lemma after_agrees c log T l now :
  Salt.agrees c log T → StronglySorted Z.le (T :: l.*1 ++ [now]) →
  ∃ log' T', Salt.agrees (after c l) log' T' ∧ (T' ≤ now)%Z ∧ log `prefix_of` log' ∧ Salt.timeout (after c l) = Salt.timeout c.
Proof.
  revert c log T. induction l as [|[i salt] l IH]; intros c log T Hag Hs; cbn [after fmap list_fmap app] in *.
  - exists log, T. inversion Hs as [|?? _ Hf]; subst. apply Forall_inv in Hf. done.
  - inversion Hs as [|?? Hs' Hf]; subst. apply Forall_inv in Hf. cbn in Hf. pose proof (Salt.check_agrees hash_one c log T i salt Hag Hf) as Hc.
    pose proof (spec_check_log (Salt.timeout c) log i salt) as Hl.
    destruct (Salt.insert_and_check hash_one c i salt) as [ok c']. destruct (Salt.spec_check hash_one (Salt.timeout c) log i salt) as [ok' log'].
    destruct Hc as (_ & Hto & Hag'). destruct Hl as [Hl _]. destruct (IH c' log' i Hag' Hs') as (log2 & T2 & Hag2 & HT2 & Hl2 & Hto2).
    exists log2, T2. split_and!; [done|done|by etrans|cbn [snd]; by rewrite Hto2].
Qed.

(** A salt in the log is refused while it is in the window. *)
Lemma seen_refused c log T now seen_at salt :
  Salt.agrees c log T → (T ≤ now)%Z → (seen_at, hash_one salt) ∈ log → (now - seen_at < Salt.timeout c)%Z → (0 < Salt.timeout c)%Z →
  (Salt.insert_and_check hash_one c now salt).1 = false.
Proof.
  intros Hag HT Hin Hw H0. pose proof (Salt.check_agrees hash_one c log T now salt Hag HT) as Hc.
  destruct (Salt.insert_and_check hash_one c now salt) as [ok c']. unfold Salt.spec_check in Hc.
  rewrite bool_decide_true in Hc; [by destruct Hc as [-> _]|].
  apply list_elem_of_fmap. exists (seen_at, hash_one salt). split; [done|]. apply list_elem_of_filter. split; [|done]. split; [|done].
  unfold Salt.within, Salt.duration_since. cbn. apply Z.ltb_lt. lia.
Qed.

(** Accepted once, refused for as long as the window lasts. *)
Lemma accepted_once l1 i1 l2 i2 salt c1 timeout_secs :
  (0 < timeout_secs)%Z → StronglySorted Z.le (l1.*1 ++ i1 :: l2.*1 ++ [i2]) → (i2 - i1 < timeout_secs * 10 ^ 9)%Z →
  Salt.insert_and_check hash_one (after (Salt.new timeout_secs) l1) i1 salt = (true, c1) →
  (Salt.insert_and_check hash_one (after c1 l2) i2 salt).1 = false.
Proof.
  intros Hto Hs Hw Hacc.
  assert (∃ T0, StronglySorted Z.le (T0 :: l1.*1 ++ [i1]) ∧ StronglySorted Z.le (i1 :: l2.*1 ++ [i2])) as (T0 & Hs1 & Hs2).
  { change (i1 :: l2.*1 ++ [i2]) with ([i1] ++ l2.*1 ++ [i2]) in Hs. rewrite app_assoc in Hs. apply StronglySorted_app in Hs as Hs'. destruct Hs' as (_ & Hs1 & _).
    rewrite <- app_assoc in Hs. apply StronglySorted_app in Hs as (_ & _ & Hs2).
    destruct (l1.*1) as [|t ts]; [exists i1|exists t]; (split; [|done]); inversion Hs1 as [|?? Hs1' Hf]; subst; constructor; try done; by constructor. }
  destruct (after_agrees (Salt.new timeout_secs) [] T0 l1 i1 (Salt.new_agrees _ _) Hs1) as (log & T1 & Hag1 & HT1 & _ & Hto1).
  pose proof (Salt.check_agrees hash_one _ log T1 i1 salt Hag1 HT1) as Hc. pose proof (spec_check_log (Salt.timeout (after (Salt.new timeout_secs) l1)) log i1 salt) as Hl.
  rewrite Hacc in Hc. destruct (Salt.spec_check hash_one _ log i1 salt) as [ok log']. destruct Hc as (<- & Htc & Hag2). destruct Hl as [_ Hin].
  destruct (after_agrees c1 log' i1 l2 i2 Hag2 Hs2) as (log2 & T2 & Hag3 & HT2 & [x ->] & Hto2).
  apply (seen_refused _ _ _ _ i1 _ Hag3 HT2); rewrite ?Hto2, ?Htc, ?Hto1; cbn; [|lia|lia]. apply elem_of_app. left. by apply Hin.
Qed.
End checker.

(** ** Replays *)
Section replays.
Context (hash_one : bytes → Z).
Context {A S : Type} `{Aead A, !AeadLaws A, AsyncStream S, !StreamLaws S, !Alloc}.
Implicit Types this : ShadowsocksStream A S.

(** The checker all servers share *)
#[local] Instance shared : SaltChecker (Salt.TimedSaltChecker * Z) := timed_checker hash_one.

(** The time in the header at the front of [g] *)
Definition stamp this (g : bytes) : Z :=
  let n := salt_len this in
  be_decode (take 8 (drop 1 (open (algorithm this) (key this (take n g)) (nonce 0) (take (11 + TAG_LEN) (drop n g))).2)).

Lemma header_accepted this now i c g r chk' :
  stream_type this ≠ AEAD2022Client → salt_checker this = true → hdr this now (c, i) g = (Ok r, chk') →
  (∃ c1, chk' = (c1, i) ∧ Salt.insert_and_check hash_one c i (take (salt_len this) g) = (true, c1)) ∧
  (stream_type this = AEAD2022Server → check_timestamp_freshness (stamp this g) now = Ok tt).
Proof.
  intros Ht Hs. unfold hdr, spec_header, insert_and_check, shared, timed_checker, stamp. rewrite Hs.
  destruct (stream_type this); [| |done].
  - destruct (Salt.insert_and_check hash_one c i (take (salt_len this) g)) as [[] c1] eqn:Ec; [|done].
    destruct (key_new _ _); intros [= <- <-]. split; [by exists c1|done].
  - destruct (key_new _ _); [|done..]. destruct (open _ _ _ _) as [[] x]; [|done]. unfold spec_fields.
    destruct (negb _); [done|]. destruct (check_timestamp_freshness _ now) as [[]| |] eqn:Ef; [|done..].
    destruct (Salt.insert_and_check hash_one c i (take (salt_len this) g)) as [[] c1] eqn:Ec; [|done].
    intros [= <- <-]. split; [by exists c1|done].
Qed.

(** What the streams of one listener share *)
Definition listener this := (stream_type this, algorithm this, salt_len this, key this, salt_checker this).

(** Only the front of the bytes matters. *)
Lemma stamp_front this this' g g' :
  listener this' = listener this → stream_type this = AEAD2022Server → read_header_len this ≤ length g → read_header_len this ≤ length g' →
  take (read_header_len this) g' = take (read_header_len this) g → stamp this' g' = stamp this g ∧ take (salt_len this) g' = take (salt_len this) g.
Proof.
  intros Hst Ht Hl Hl' He. injection Hst as Hty Hal Hsl Hky _. unfold read_header_len in *. rewrite Ht in *.
  assert (Hs : take (salt_len this) g' = take (salt_len this) g).
  { assert (Htk : ∀ x : bytes, take (salt_len this) x = take (salt_len this) (take (salt_len this + 11 + TAG_LEN) x)).
    { intros x. by rewrite take_take, Nat.min_l by lia. }
    by rewrite (Htk g'), He, <- Htk. }
  split; [|done]. unfold stamp. rewrite Hal, Hsl, Hky, Hs. do 5 f_equal.
  assert (Hd : ∀ x : bytes, take (11 + TAG_LEN) (drop (salt_len this) x) = drop (salt_len this) (take (salt_len this + 11 + TAG_LEN) x)).
  { intros x. rewrite skipn_firstn_comm. f_equal. lia. }
  by rewrite !Hd, He.
Qed.

Lemma fresh_bounds ts now : check_timestamp_freshness ts now = Ok tt → (Z.abs (now - ts) ≤ 180)%Z.
Proof.
  unfold check_timestamp_freshness, TIMESTAMP_SKEW_TOLERANCE_SECS. destruct (ts <=? now)%Z eqn:E; to_prop; destruct (_ <? _)%Z eqn:E2; to_prop; try done; lia.
Qed.

(** The bytes a stream that waits for its header has got once a read has returned *)
Definition request_bytes this this' : bytes := undecrypted (inb this) ++ drop (length (received (stream this))) (received (stream this')).

(** A read that leaves the header behind has accepted it. *)
Lemma first_accepts debug fuel now chk room fill this p this' chk' :
  fresh this → poll_read_inner debug fuel now chk room fill this = Some (p, this', chk') → is_initial_read this' = false →
  ∃ g rest r, request_bytes this this' = g ++ rest ∧ read_header_len this ≤ length g ∧ hdr this now chk g = (Ok r, chk').
Proof.
  intros Hfr Hp Hi. destruct (decide (room = 0)) as [->|Hr].
  { injection Hp as <- <- <-. rewrite (fr_initial _ Hfr) in Hi. done. }
  apply (poll_read_first debug fuel now chk room fill this p this' chk' Hfr ltac:(lia)) in Hp.
  destruct Hp as [p this' got Hsw _ _|e this' chk' got _ Hf1 _ _ _|p this1 this' chk' g1 g2 k m pend und cs s' Hr1 Hl1 Hh Hlv Hpl Hi1 Hiv Hpost].
  - rewrite (sw_initial _ _ _ Hsw), (fr_initial _ Hfr) in Hi. done.
  - rewrite (fr_initial _ Hf1) in Hi. done.
  - exists (undecrypted (inb this) ++ g1), g2, (k, m, pend, und). split; [|done]. unfold request_bytes.
    pose proof (reads_only_trans _ _ _ _ _ Hr1 (rd_only _ _ _ _ _ _ _ _ _ _ _ Hpost)) as [_ _ _ _ Hre].
    by rewrite Hre, drop_app_length, app_assoc.
Qed.
(** Wall clock and instants advance together: an instant in nanoseconds, read in
    seconds with an offset *)
Definition wall (offset i : Z) : Z := ((i + offset) / 10 ^ 9)%Z.

Lemma wall_gap offset i1 i2 : (390 * 10 ^ 9 ≤ i2 - i1)%Z → (390 ≤ wall offset i2 - wall offset i1 + 1)%Z.
Proof.
  intros Hg. unfold wall. pose proof (Z.div_le_mono (i1 + offset + 390 * 10 ^ 9) (i2 + offset) (10 ^ 9) ltac:(lia) ltac:(lia)) as Hm.
  rewrite Z.div_add in Hm by lia. lia.
Qed.

(** The same request is not accepted twice. *)
Lemma accepts_once offset b1 b2 g1 g2 l1 i1 l2 i2 c1 chk1 r1 r2 chk2 :
  stream_type b1 = AEAD2022Server → salt_checker b1 = true → listener b2 = listener b1 →
  StronglySorted Z.le (l1.*1 ++ i1 :: l2.*1 ++ [i2]) →
  hdr b1 (wall offset i1) (after hash_one new_shared_salt_checker l1, i1) g1 = (Ok r1, chk1) → chk1.1 = c1 →
  hdr b2 (wall offset i2) (after hash_one c1 l2, i2) g2 = (Ok r2, chk2) →
  read_header_len b1 ≤ length g1 → read_header_len b1 ≤ length g2 →
  take (read_header_len b1) g2 = take (read_header_len b1) g1 → False.
Proof.
  intros Ht Hs Hli Hso H1' <- H2' Hl1 Hl2 He. pose proof Hli as Hli'. injection Hli' as Ht2 _ Hn2 _ Hs2.
  destruct (stamp_front b1 b2 g1 g2 Hli Ht Hl1 Hl2 He) as [Hst Hsalt].
  apply header_accepted in H1' as [(c1 & -> & Hc1) Hf1]; [|by rewrite Ht|done]. specialize (Hf1 Ht).
  apply header_accepted in H2' as [(c2 & -> & Hc2) Hf2]; [|by rewrite Ht2, Ht|by rewrite Hs2]. specialize (Hf2 ltac:(congruence)).
  rewrite Hn2, Hsalt in Hc2. rewrite Hst in Hf2. apply fresh_bounds in Hf1, Hf2. cbn [fst] in Hc2.
  destruct (decide (390 * 10 ^ 9 ≤ i2 - i1)%Z) as [Hg|Hg]; [apply (wall_gap offset) in Hg; lia|].
  pose proof (accepted_once hash_one l1 i1 l2 i2 _ c1 SALT_REPLAY_WINDOW_SECS ltac:(done) Hso ltac:(unfold SALT_REPLAY_WINDOW_SECS; lia) Hc1) as Hno.
  rewrite Hc2 in Hno. done.
Qed.
End replays.

(** C7: a request that a server has accepted is refused by every server stream that
    shares the checker of salts with it, however much later its bytes arrive again
    and whatever other requests were checked before and in between: as long as the
    salt may have been forgotten, the time in the header is out of date. *)
Theorem replayed_requests_are_refused {A S : Type} `{Aead A, !AeadLaws A, AsyncStream S, !StreamLaws S, !Alloc}
    hash_one offset debug (b1 b2 b1' b2' : ShadowsocksStream A S) l1 i1 l2 i2 fuel1 room1 fill1 p1 chk1 fuel2 room2 fill2 p2 chk2 :
  fresh b1 → stream_type b1 = AEAD2022Server → salt_checker b1 = true → fresh b2 → listener b2 = listener b1 →
  length (undecrypted (inb b2)) < read_header_len b2 → 0 < room2 →
  StronglySorted Z.le (l1.*1 ++ i1 :: l2.*1 ++ [i2]) →
  poll_read_inner (H1 := timed_checker hash_one) debug fuel1 (wall offset i1) (after hash_one new_shared_salt_checker l1, i1) room1 fill1 b1 =
    Some (p1, b1', chk1) → is_initial_read b1' = false →
  poll_read_inner (H1 := timed_checker hash_one) debug fuel2 (wall offset i2) (after hash_one chk1.1 l2, i2) room2 fill2 b2 = Some (p2, b2', chk2) →
  take (read_header_len b1) (request_bytes b2 b2') = take (read_header_len b1) (request_bytes b1 b1') →
  is_initial_read b2' = true ∧ ∃ e, p2 = Ready (Err e).
Proof.
  intros Hf1 Ht Hs Hf2 Hli Hsh Hr2 Hso Hp1 Hi1 Hp2 He. pose proof (fr_initial _ Hf2) as Hi2.
  destruct (first_accepts hash_one _ _ _ _ _ _ _ _ _ _ Hf1 Hp1 Hi1) as (g1 & rest1 & r1 & Hg1 & Hl1 & Hh1).
  assert (Hlen : read_header_len b2 = read_header_len b1) by (unfold read_header_len; by injection Hli as -> _ -> _ _).
  rewrite Hg1, take_app_le in He by done.
  apply (poll_read_first debug fuel2 _ _ room2 fill2 b2 p2 b2' chk2 Hf2 Hr2) in Hp2.
  destruct Hp2 as [p this' got Hsw _ Hn|e this' chk' got Hro Hfr _ _ _|p this1 this' chk' g2 g3 k m pend und cs s' Hro1 Hl2 Hh Hlv Hpl Hi Hiv Hpost].
  - exfalso. specialize (Hn Hsh). rewrite (sw_und _ _ _ Hsw) in Hn. unfold request_bytes in He.
    rewrite (ro_received _ _ _ (sw_only _ _ _ Hsw)), drop_app_length in He. apply (f_equal length) in He. rewrite !length_take in He. lia.
  - split; [apply Hfr|by eexists].
  - exfalso. unfold request_bytes in He. pose proof (reads_only_trans _ _ _ _ _ Hro1 (rd_only _ _ _ _ _ _ _ _ _ _ _ Hpost)) as [_ _ _ _ Hre].
    rewrite Hre, drop_app_length, app_assoc, take_app_le in He by lia.
    eapply (accepts_once hash_one offset b1 b2 g1); try done. lia.
Qed.

(** ** Safety *)
Definition with_fuel {C} (fuel : nat) (o : op C) : op C :=
  match o with
  | Read _ now chk room => Read fuel now chk room
  | ReadMessage _ now chk room => ReadMessage fuel now chk room
  | o => o
  end.

Lemma step_returns {A S C : Type} `{Aead A, !AeadLaws A, AsyncStream S, !StreamLaws S, !FiniteReads S, SaltChecker C, !Alloc}
    debug junk T (this0 : ShadowsocksStream A S) c (o : op C) :
  ends_ok (C := C) T this0 c → ∃ N, ∀ fuel, N ≤ fuel → is_Some (step debug junk c (with_fuel fuel o)).
Proof.
  intros (h & n & rs & cs & He).
  assert (Hr : ∀ now (chk : C) room fill, reads c = true → ∃ N, ∀ fuel, N ≤ fuel → is_Some (poll_read_inner debug fuel now chk room fill (ss c))).
  { intros now chk room fill Hrd. refine (poll_read_returns debug now chk room fill (ss c) _).
    destruct (en_reading _ _ _ _ _ _ _ He Hrd) as [Hf _ _ _|now' chk' k cs' s' _ Hi _ Hlv _]; [by left|right; by eauto]. }
  destruct o as [f now chk room|f now chk room|now buf|now buf| |]; cbn [with_fuel step]; try (exists 0; intros; destruct (writes c); by eexists).
  all: destruct (reads c); [|exists 0; by eexists]; edestruct (Hr now chk room) as [N HN]; [done|]; exists N; intros fuel Hf; apply fmap_is_Some; by apply HN.
Qed.

Lemma run_from_new {A S C : Type} `{Aead A, !AeadLaws A, AsyncStream S, !StreamLaws S, SaltChecker C, !Alloc}
    debug junk (s : S) t (alg : ShadowsocksAeadAlgorithm A) n k checker salt this0 (ops : list (op C)) c :
  new s t alg n k checker salt = Ok this0 → length salt = n → 0 < n ≤ MAX_SESSION_KEY_LEN →
  run debug junk (started this0) ops = Some c → ends_ok (C := C) (λ _, True) this0 c.
Proof.
  intros Hn Hl Hb. apply (end_run_ok debug junk _ this0 (started this0) ops c (new_started _ _ _ _ _ _ _ _ _ Hn Hl Hb) (ex_intro _ 0%Z I)).
  by apply Forall_forall.
Qed.



(** ** Examples *)
Lemma new_fresh {A S C : Type} `{Aead A, !AeadLaws A, AsyncStream S, !StreamLaws S, SaltChecker C, !Alloc}
    (s : S) t (a : ShadowsocksAeadAlgorithm A) n k checker salt this0 :
  new s t a n k checker salt = Ok this0 → length salt = n → 0 < n ≤ MAX_SESSION_KEY_LEN →
  fresh this0 ∧ length (undecrypted (inb this0)) < read_header_len this0 ∧ listener this0 = (t, a, n, k, checker).
Proof.
  intros Hn Hl Hb. pose proof (new_started (C := C) (λ _, True) _ _ _ _ _ _ _ _ Hn Hl Hb) as (h & nw & rs & cs & He).
  destruct (en_reading _ _ _ _ _ _ _ He eq_refl) as [Hf Hu Hs _|now' chk' k' cs' s' _ Hi _ _ _].
  - split; [done|]. cbn in Hu, Hs. rewrite Hu. split; [done|]. unfold new in Hn. by destruct (key_new a (k salt)); simplify_eq.
  - unfold new in Hn. by destruct (key_new a (k salt)); simplify_eq.
Qed.

Notation checker_and_time := (Salt.TimedSaltChecker * Z)%type.
Definition once (i : Z) (c : Salt.TimedSaltChecker) (this : example) := poll_read_inner true 20 (wall (1000 * 10 ^ 9) i) (c, i) 100 true this.

(** Two servers that are sent the same bytes *)
Definition replay (w : bytes) : option (bool * bool * Poll (outcome bytes)) :=
  match example_new w 1000 AEAD2022Server (B "one1"), example_new w 1000 AEAD2022Server (B "two2") with
  | Ok b1, Ok b2 =>
      '(p1, b1', chk1) ← once 0 new_shared_salt_checker b1;
      '(p2, b2', chk2) ← once (5 * 10 ^ 9) chk1.1 b2;
      Some (is_initial_read b1', bool_decide (take (read_header_len b1) (request_bytes b2 b2') = take (read_header_len b1) (request_bytes b1 b1')), p1)
  | _, _ => None
  end.

Lemma replay_cases w p1 : replay w = Some (false, true, p1) → ∃ (b1 b2 : example) b1' (chk1 : checker_and_time) p2 b2' (chk2 : checker_and_time),
  example_new w 1000 AEAD2022Server (B "one1") = Ok b1 ∧ example_new w 1000 AEAD2022Server (B "two2") = Ok b2 ∧
  once 0 new_shared_salt_checker b1 = Some (p1, b1', chk1) ∧ once (5 * 10 ^ 9) chk1.1 b2 = Some (p2, b2', chk2) ∧
  is_initial_read b1' = false ∧ take (read_header_len b1) (request_bytes b2 b2') = take (read_header_len b1) (request_bytes b1 b1').
Proof.
  unfold replay. destruct (example_new w _ _ (B "one1")) as [b1| |] eqn:E1; [|done..]. destruct (example_new w _ _ (B "two2")) as [b2| |] eqn:E2; [|done..].
  destruct (once 0 new_shared_salt_checker b1) as [[[q1 b1'] chk1]|] eqn:E3; cbn [mbind option_bind]; [|done].
  destruct (once (5 * 10 ^ 9) chk1.1 b2) as [[[p2 b2'] chk2]|] eqn:E4; cbn [mbind option_bind]; [|done].
  intros [= Hi Hb ->]. apply bool_decide_eq_true in Hb. by exists b1, b2, b1', chk1, p2, b2', chk2.
Qed.

Lemma replay_facts : ∃ w, replay w = Some (false, true, Ready (Ok (B "hello"))).
Proof.
  exists (default [] ((λ c, accepted (stream (ss c))) <$> example_run (example_new [] 1000 AEAD2022Client (B "salt")) [Write 1000 (B "hello")])).
  vm_compute. reflexivity.
Qed.

Lemma replayed_requests_are_refused_witness :
  ∃ (b2' : example) p2, is_initial_read b2' = true ∧ ∃ e, p2 = @Ready (outcome bytes) (Err e).
Proof.
  destruct replay_facts as [w Hw]. destruct (replay_cases _ _ Hw) as (b1 & b2 & b1' & chk1 & p2 & b2' & chk2 & Hb1 & Hb2 & Hp1 & Hp2 & Hi1 & He). exists b2', p2.
  destruct (new_fresh (C := checker_and_time) _ _ _ _ _ _ _ _ Hb1) as (Hf1 & _ & Hl1); [reflexivity|unfold MAX_SESSION_KEY_LEN; lia|].
  destruct (new_fresh (C := checker_and_time) _ _ _ _ _ _ _ _ Hb2) as (Hf2 & Hs2 & Hl2); [reflexivity|unfold MAX_SESSION_KEY_LEN; lia|].
  apply (replayed_requests_are_refused checksum (1000 * 10 ^ 9) true b1 b2 b1' b2' [] 0 [] (5 * 10 ^ 9) 20 100 true (Ready (Ok (B "hello"))) chk1 20 100 true p2 chk2); try assumption.
  - by injection Hl1.
  - by injection Hl1.
  - by rewrite Hl1, Hl2.
  - lia.
  - repeat constructor; lia.
Defined.

Definition garbage_ops : list (op checker_and_time) := replicate 6 (Read 20 1000 (new_shared_salt_checker, 0%Z) 10) ++ [Write 1000 (B "x"); Flush].
Lemma garbage_facts : end_facts <$> example_run (example_new (replicate 100 7%Z) 30 AEAD2022Server (B "salt")) garbage_ops =
  Some (false, [], [], replicate 60 7%Z, []).
Proof. vm_compute. reflexivity. Qed.


Definition writing_ops : list (op checker_and_time) := [Write 1000 (B "one"); Write 1000 (B "two"); Flush; WriteMessage 1001 (B "three")].
Lemma writing_facts : ∃ w, end_facts <$> example_run (example_new [] 9 Aead_ (B "salt")) writing_ops = Some (true, B "onetwothree", [], [], w).
Proof. eexists. vm_compute. reflexivity. Qed.


(** ** A read after an early end *)

(** The answers of some reads in a row *)
Fixpoint answers (reads : nat) (this : example) : list (Poll (outcome bytes)) :=
  match reads with
  | 0 => []
  | Datatypes.S reads =>
      match poll_read_ true 20 1000 (new_shared_salt_checker, 0%Z) 10 this with
      | Some (p, this, _) => p :: answers reads this
      | None => []
      end
  end.


End ShadowsocksReplay.
